(* ===== verification/_CoqProject ===== *)
-Q . S2P
Prelude.v
GoLib.v
Utils.v
Stopper.v
Pool.v
PoolMonitor.v
Ticker.v
Snappy.v
RequestPool.v
Proto.v
ProtoSub.v
ProtoPs.v
ProtoSm.v
ProtoPm.v
ProtoTyped.v
Keys.v
YIter.v
Extent.v
MixBlock.v
Stream.v
Skiplist.v
SkiplistSpec.v
SkiplistPut.v
SkiplistIter.v
TableBlock.v
Table.v
TableSpec.v
TableBuild.v
Merge.v
Node.v
Partition.v
PartitionSpec.v
PartitionRun.v
PartitionScan.v
PartitionOpen.v
LogReplay.v
Compact.v
PartitionRestart.v
PartitionMap.v
Crash.v
CrashLoss.v
DoWrites.v
Etcd.v
EtcdSpec.v
Discard.v
Gc.v
StreamManager.v
StreamManagerSpec.v
StreamManagerOps.v
PartitionManager.v
PartitionParse.v
PartitionManagerSpec.v
PartitionManagerRun.v
PartitionManagerOps.v
Clients.v
NodeRun.v
Bootstrap.v
SharedEtcd.v
DebugTool.v
PartitionServer.v
PartitionServerSpec.v
AutumnLib.v
AutumnLibSpec.v
ClientCmd.v
AutumnStream.v
AutumnStreamSpec.v
AutumnIter.v
Witnesses.v
ManagerWitnesses.v
PmWitnesses.v
ClientWitnesses.v
ServerWitnesses.v
PoolWitnesses.v
CrashWitnesses.v
LifeWitnesses.v
ToolWitnesses.v
