(* ===== verification/Prelude.v ===== *)
(** * Autumn: a verification of the storage engine and its managers

    Autumn stores key-value pairs in range partitions on top of append-only
    streams. This development models the program's own logic as Rocq
    functions and step relations translated from the Go sources and proves what
    makes each part correct. Names are the sources' names wherever possible.

    ** The program and how its parts interact

    - A _stream_ is a list of _extents_; an extent is an append-only file of
      checksummed blocks kept on three _nodes_ (extent/, node/, streamclient/).
    - A _partition_ (rangepartition/) owns a log stream and a row stream. A
      write goes to the log stream, packed into blocks, and into the memtable,
      a skiplist. Full memtables are flushed as sorted tables to the row
      stream. Reads look at the memtables and then at the tables; scans merge
      all of them; compaction merges tables; opening a partition reloads the
      tables and replays the log behind the last flush.
    - The _stream manager_ (manager/streammanager) owns the list of streams,
      extents and nodes: durably in etcd (manager/etcd_op.go), and in memory
      while it is the leader.  The _partition manager_
      (manager/partitionmanager) does the same for partitions and the servers
      that serve them. Both use one etcd; their clients (manager/smclient,
      manager/pmclient) look for the leader.
    - A _partition server_ (partitionserver/) asks the partition manager for its
      partitions, opens them and serves requests for their keys. The _client
      library_ (cmd/autumn-client/lib.go) fetches the regions and sends each
      request to the server of its key.

    ** Files, in dependency order

    Foundations:
    - [Prelude]: outcomes (value, Go error, run-time panic), the error monad,
      machine words, byte strings, shared lemmas, tactics and hint databases.
    - [GoLib]: the routines of Go's standard library that the code calls
      (bytes.Compare, encoding/binary, sort.Search).
    - [Utils]: utils/utils.go (integers, Adler-32, varint size) and
      utils/lock.go ([SafeMutex] as a transition system).
    - [Stopper]: utils/stopper.go, workers and those who wait for them.
    - [Ticker]: the random ticker of utils/utils.go and the compaction worker
      that uses it.
    - [Pool]: conn/pool.go, one connection per address shared by goroutines;
      [PoolMonitor]: the monitor of one connection and its shutdown.
    - [Snappy]: conn/snappy.go, the pooled readers and writers of the compressor.
    - [Proto], [ProtoSub], [ProtoPs], [ProtoSm], [ProtoPm]: the generated wire codecs
      of proto/pb/pb.pb.go and proto/pspb/pspb.pb.go for the messages that are
      stored: entries, blocks, table index, stream, extent, node, member and
      partition records. [ProtoTyped]: the codecs on arbitrary input, with a
      class [Codec] of which each message is an instance.
    - [Keys], [YIter]: rangepartition/y: keys with timestamps, value structs
      and the iterator interface ([YIter.IteratorLaws]).

    Streams:
    - [Extent]: extent/extent.go, the file as a header and a list of bytes.
    - [MixBlock]: streamclient/mix_block.go, packing entries into blocks.
    - [Stream]: the stream client interface ([StreamLaws] and its
      refinements) and streamclient/mockstreamclient.go, which implements it.
    - [Node]: node/node.go and node/node_service.go, handlers and
      replication to two peers. [NodeRun] (listed after the managers' clients):
      registration, and what a node finds when it starts again.
    - [AutumnStream], [AutumnStreamSpec], [AutumnIter]: the replicated stream
      of streamclient/streamclient.go over the modelled nodes and managers.

    The partition:
    - [Skiplist], [SkiplistSpec], [SkiplistPut], [SkiplistIter]:
      rangepartition/skiplist.
    - [TableBlock], [Table], [TableSpec], [TableBuild]: rangepartition/table,
      builder, block iterator, table and table iterators.
    - [Merge]: table/merge_iterator.go.
    - [Partition], [PartitionSpec], [PartitionRun], [PartitionScan],
      [PartitionOpen], [Compact], [PartitionRestart], [PartitionMap]:
      range_rangepartition.go, valuelog.go and compaction.go.
    - [LogReplay], [Crash], [CrashLoss]: what replaying the log gives, and a
      partition that dies without being closed.
    - [Discard], [Gc]: discard.go and the collection of value logs (valuelog.go:
      runGC), which nothing calls yet.
    - [DoWrites]: the write loop of range_rangepartition.go; [RequestPool]: the
      pooled requests that callers and the loop share, and closing.

    The managers:
    - [Etcd], [EtcdSpec]: manager/etcd_op.go, and etcd itself as a map with
      transactions.
    - [StreamManager], [StreamManagerSpec], [StreamManagerOps]:
      manager/streammanager (sm.go, sm_service.go, policy.go).
    - [PartitionManager], [PartitionParse], [PartitionManagerSpec],
      [PartitionManagerRun], [PartitionManagerOps]: manager/partitionmanager
      (pm.go, pm_service.go).
    - [Clients]: manager/smclient and manager/pmclient.
    - [Bootstrap]: the bootstrap command of cmd/autumn-client/main.go, over both
      managers on one etcd. [SharedEtcd]: any sequence of steps of the two
      managers, with leases that run out and former leaders that go on
      answering, through a program logic for etcd computations ([keeps], and
      [takes] for processes that have lost their key).
    - [DebugTool]: cmd/debug-tool/main.go.

    Serving:
    - [PartitionServer], [PartitionServerSpec]: partitionserver/ps.go, api.go.
    - [AutumnLib], [AutumnLibSpec]: cmd/autumn-client/lib.go, over any number of
      partition servers. [ClientCmd]: the commands of cmd/autumn-client/main.go
      and the connecting of the manager clients.

    The files whose names end in [Witnesses] apply the theorems that have
    hypotheses at concrete inputs: [Witnesses] (streams, tables, partition),
    [ManagerWitnesses], [PmWitnesses], [ClientWitnesses], [ServerWitnesses],
    [PoolWitnesses], [CrashWitnesses], [LifeWitnesses] and [ToolWitnesses].

    ** How the code is modelled

    - A Go function that returns an error is a function to [outcome A]:
      [Ok v], [Err e] or [Panic]. A nil dereference, an index or slice out of
      range, a failed [AssertTrue] and an explicit panic are [Panic]. A call
      that waits for ever, as two goroutines that wait for each other on
      channels do, has the outcome [Err Deadlock], which is no Go error; a loop
      that is still running after the rounds it was given has the value [None].
    - Integers are [Z]; where the width matters the wrap-around is written out
      ([u32], [u64] and the like). Byte strings are lists of bytes.
    - State is passed explicitly. A Go object shared by pointer (a skiplist
      node, an extent in a map) lives in a store and is named by its key.
    - What the program cannot decide is an input of the definition: write
      faults of the disk, the fate of each message (answered, lost, its answer
      lost), the heights of skiplist nodes, random ids, the order of a map's
      iteration, the clock, the scheduler's choices. The theorems quantify
      over it.
    - Code that is not in the repository is a parameter with its documented
      behaviour as hypotheses: the Bloom filter ([BloomLaws]), [sort.Slice]
      ([SortSlice]), the hash of keys, the snappy library ([SnappyLaws]), the
      errors that gRPC reports ([AutumnStream.status_errors]). The witnesses
      instantiate each.
    - Limits that the code relies on without checking them (the length of keys,
      a scan that starts at a key with its prefix, what a compaction can take)
      are hypotheses, named in the comment of each theorem that has them.

    ** Interfaces

    [IteratorLaws] is what the merge iterator, scans and compaction rely on;
    skiplist, table and merge iterators are instances. [StreamLaws] (a block
    that was appended can be read back), [LogLaws], [TruncLaws], [LogIters] and
    [LogTail] are what tables and partitions rely on, [LogReplay] what a replay
    after a crash relies on; the file-backed stream is the instance. The theorems
    on tables and partitions hold for every stream that keeps these laws.
    [Codec] is what a stored message's encoder and decoder promise each other.

    ** What the theorems show

    - Partition: any sequence of batches of writes, deletes, reads, scans,
      flushes and restarts with compaction returns what a finite map returns
      ([PartitionMap.partition_refines_map]); after a crash the replay of the
      log brings back what was acknowledged write by write
      ([Crash.crash_recovers]), while a batch may lose its last write
      ([CrashLoss.crash_loses_newest]); reads at a version, compaction,
      the write loop (order, progress, batch sizes) and the requests it shares
      with its callers ([RequestPool.write_requests_answered]) have their own
      theorems.
    - Serving: a partition server is a table of maps with key ranges
      ([PartitionServerSpec.server_serves]), and the client library over any
      number of servers is one map, for every fate of every call to a server
      ([AutumnLibSpec.cluster_refines_map]), as are the put, get, del and ls
      commands, each of which connects anew ([ClientCmd.commands_refine_map]).
    - Tables, merge and memtable: building and reopening a table gives back the
      pairs, seeks are exact, the merge walks one sorted list, the skiplist
      refines a sorted list.
    - Extents and streams: appends are durable unless a metadata sector's write
      fails unnoticed, torn writes are cut off on opening, replication keeps each replica a prefix, seals are final, a node
      that starts again has all that it acknowledged, and an append to the
      replicated stream that is acknowledged is on three nodes.
    - Codecs: round trips of keys, values and stored messages; on any input a
      decoder returns a well-typed message or an error
      ([ProtoTyped.decoders_typed]).
    - Managers: in every sequence of requests to the two on their one etcd, etcd
      stays consistent under message loss, crashes, changes of leader and former
      leaders that do not know it, and the memory of a leader that has not lost
      its key mirrors etcd ([SharedEtcd.managers_share_etcd]); ids are not given
      out twice by requests one after the other; the bootstrap command leaves a
      partition over all keys, the only one if it is the first; the debug tool shows exactly what the managers stored
      ([DebugTool.debug_tool_shows]).
    - Shared state: the lock, the stopper, the connection pools with their
      monitors, the compressor's pools and the write requests keep their
      invariants in every interleaving.
    - Some theorems pin down behaviour that is not what the code means to do
      (for example [StreamManagerOps.stale_leader_acknowledges]);
      PROJECT.json lists these as findings.

    ** Fuel

    Loops whose length is not structural take fuel, and each has a lemma that
    the fuel given is enough: one more than the file's length for the replay of
    an extent (every round consumes 1024 bytes, so that it ends well before:
    [Extent.OpenExtent_replay_terminates]) and for the reading of blocks, the number of nodes for skiplist searches, the number of pairs
    for iterators, the length of the input for decoders. The theorems state
    that the functions return, not what they return if they do.

    ** Not modelled

    - gRPC serving, process start-up and flags, the benchmark, logging and
      plotting (cmd/, xlog/, manager/config.go), the embedded etcd server
      (manager/etcd.go) and the window of the debug tool: input and output, or
      a wrapper of a library. What dialling does is an input.
    - The compression itself, etcd, gRPC, the Bloom filter and the hash of keys
      are libraries outside the repository.
    - The RPC messages, whose generated codecs follow the scheme proved for the
      stored ones.
    - Data races: the lock discipline is proved of [SafeMutex]; the components
      are then modelled with their critical sections as atomic steps. The
      skiplist is modelled for one writer at a time, which is how the
      partition uses it. The handlers of the managers run one after the other:
      two that allocate ids at the same time can get the same ones
      ([StreamManagerOps.EtcdAllocUniqID_race]).
    - The reference counts of memtables and tables, which only free memory.
    - The partition over the replicated stream. The laws of streams are proved
      with a budget of appends, which the file-backed stream keeps by starting
      new extents. The replicated stream cannot keep them: its request for a new
      extent never succeeds ([StreamManagerOps.StreamAllocExtent_never_succeeds]),
      so the append that takes an extent past 2 GB never returns, and one that
      fails panics ([AutumnStreamSpec.autumn_append_errors]). What holds of one extent is
      [AutumnStreamSpec.autumn_append_durable] and
      [AutumnIter.autumn_replay_complete]. *)
From Stdlib Require Import ZArith Lia NArith Strings.Byte.
From stdpp Require Import base option list numbers list_numbers countable strings.

#[global] Open Scope Z_scope.
#[global] Set Default Goal Selector "!".

(** ** Outcomes: Go values, Go errors, run-time panics *)

(** The error values the modelled code creates or tests. [Errorf] stands for
    [errors.Errorf]/[errors.New] with the message's fixed text. [Deadlock] is
    no Go error: it marks a call that waits for ever. *)
Inductive error :=
  | Deadlock
  | EOF
  | ErrUnexpectedEOF
  | EndOfExtent
  | EndOfStream
  | Errorf (msg : string).

#[export] Instance error_eq_dec : EqDecision error.
Proof. solve_decision. Defined.

(** A call either returns normally, returns a non-nil error, or panics
    (run-time error, failed [AssertTrue], [Fatalf]). *)
Inductive outcome (A : Type) :=
  | Ok (a : A)
  | Err (e : error)
  | Panic.
Arguments Ok {A} a.
Arguments Err {A} e.
Arguments Panic {A}.

#[export] Instance outcome_eq_dec `{EqDecision A} : EqDecision (outcome A).
Proof. solve_decision. Defined.

Definition obind {A B} (m : outcome A) (k : A -> outcome B) : outcome B :=
  match m with
  | Ok a => k a
  | Err e => Err e
  | Panic => Panic
  end.

Declare Scope go_scope.
Delimit Scope go_scope with go.
Notation "'let!' x := m 'in' k" := (obind m (fun x => k))
  (at level 10, x pattern, m at level 100, k at level 200) : go_scope.
#[global] Open Scope go_scope.

(** [AssertTrue b] of utils panics when [b] is false. *)
Definition assert {A} (b : bool) (k : outcome A) : outcome A :=
  if b then k else Panic.

Lemma obind_Ok_inv {A B} (m : outcome A) (k : A -> outcome B) b :
  obind m k = Ok b -> exists a, m = Ok a /\ k a = Ok b.
Proof. destruct m; simpl; try discriminate. eauto. Qed.

Lemma assert_Ok_inv {A} b (k : outcome A) a :
  assert b k = Ok a -> b = true /\ k = Ok a.
Proof. destruct b; simpl; [auto|discriminate]. Qed.

(** ** Integers at their width *)

Definition u8 (z : Z) : Z := z mod 2 ^ 8.
Definition u16 (z : Z) : Z := z mod 2 ^ 16.
Definition u32 (z : Z) : Z := z mod 2 ^ 32.
Definition u64 (z : Z) : Z := z mod 2 ^ 64.
(** conversion of a uint64 to the 64-bit [int] *)
Definition int64 (z : Z) : Z := (z + 2 ^ 63) mod 2 ^ 64 - 2 ^ 63.

Definition MaxUint32 : Z := 2 ^ 32 - 1.
Definition MaxUint64 : Z := 2 ^ 64 - 1.

Lemma u32_range z : 0 <= u32 z < 2 ^ 32.
Proof. apply Z.mod_pos_bound. lia. Qed.
Lemma u64_range z : 0 <= u64 z < 2 ^ 64.
Proof. apply Z.mod_pos_bound. lia. Qed.
Lemma u16_small z : 0 <= z < 2 ^ 16 -> u16 z = z.
Proof. apply Z.mod_small. Qed.
Lemma u32_small z : 0 <= z < 2 ^ 32 -> u32 z = z.
Proof. apply Z.mod_small. Qed.
Lemma u64_small z : 0 <= z < 2 ^ 64 -> u64 z = z.
Proof. apply Z.mod_small. Qed.
Lemma int64_small z : 0 <= z < 2 ^ 63 -> int64 z = z.
Proof. intros. unfold int64. rewrite Z.mod_small; lia. Qed.

(** ** Bytes *)

Abbreviation byte := Byte.byte.
Abbreviation bytes := (list Byte.byte).

#[export] Instance byte_eq_dec : EqDecision byte := Byte.byte_eq_dec.
#[export] Program Instance byte_countable : Countable byte := inj_countable Byte.to_N Byte.of_N _.
Next Obligation. intros b. apply Byte.of_to_N. Qed.

Definition byte_Z (b : byte) : Z := Z.of_N (Byte.to_N b).
Definition byte_of (z : Z) : byte :=
  match Byte.of_N (Z.to_N (u8 z)) with Some b => b | None => x00 end.

Lemma byte_Z_range b : 0 <= byte_Z b < 256.
Proof. unfold byte_Z. pose proof (Byte.to_N_bounded b). lia. Qed.

Lemma byte_Z_of z : byte_Z (byte_of z) = u8 z.
Proof.
  unfold byte_Z, byte_of.
  assert (0 <= u8 z < 256) by (apply Z.mod_pos_bound; lia).
  destruct (Byte.of_N (Z.to_N (u8 z))) eqn:E.
  - apply Byte.to_of_N in E. rewrite E. lia.
  - apply Byte.of_N_None_iff in E. lia.
Qed.

Lemma byte_of_Z b : byte_of (byte_Z b) = b.
Proof.
  unfold byte_of, u8. rewrite Z.mod_small by (apply byte_Z_range).
  unfold byte_Z. rewrite N2Z.id, Byte.of_to_N. done.
Qed.

Lemma byte_Z_inj b c : byte_Z b = byte_Z c -> b = c.
Proof. intros E. rewrite <- (byte_of_Z b), E. apply byte_of_Z. Qed.

(** ** Slices with 64-bit indices *)

Definition zlen {A} (l : list A) : Z := Z.of_nat (length l).
Definition ztake {A} (n : Z) (l : list A) : list A := take (Z.to_nat n) l.
Definition zdrop {A} (n : Z) (l : list A) : list A := drop (Z.to_nat n) l.
Definition zrep {A} (n : Z) (x : A) : list A := replicate (Z.to_nat n) x.

(** [l[i]], a panic out of range *)
Definition index {A} (l : list A) (i : Z) : outcome A :=
  if i <? 0 then Panic else
  match l !! Z.to_nat i with Some x => Ok x | None => Panic end.

(** [l[lo:hi]] where the capacity equals the length *)
Definition slice {A} (l : list A) (lo hi : Z) : outcome (list A) :=
  if (0 <=? lo) && (lo <=? hi) && (hi <=? zlen l)
  then Ok (ztake (hi - lo) (zdrop lo l)) else Panic.

(** [l[lo:]] *)
Definition slice_from {A} (l : list A) (lo : Z) : outcome (list A) :=
  slice l lo (zlen l).

(** [copy(dst[off:], src)] for [0 <= off <= len(dst)]: the new [dst] *)
Definition copy_at {A} (dst : list A) (off : Z) (src : list A) : list A :=
  ztake off dst ++ ztake (zlen dst - off) src ++ zdrop (off + zlen src) dst.

(** linear arithmetic about list lengths *)
Ltac zlia :=
  unfold zlen in *; cbn [length] in *;
  rewrite ?length_app, ?length_replicate in *; lia.

Lemma zlen_nonneg {A} (l : list A) : 0 <= zlen l.
Proof. unfold zlen. lia. Qed.
(** put the sign of every length in sight into the context *)
Ltac zlens :=
  repeat match goal with
  | |- context [zlen ?l] => lazymatch goal with _ : 0 <= zlen l |- _ => fail | _ => pose proof (zlen_nonneg l) end
  | _ : context [zlen ?l] |- _ => lazymatch goal with _ : 0 <= zlen l |- _ => fail | _ => pose proof (zlen_nonneg l) end
  end.
Ltac zlens_lia := zlens; lia.

Lemma zlen_nil {A} : zlen (@nil A) = 0.
Proof. done. Qed.
Lemma zlen_cons {A} (x : A) l : zlen (x :: l) = 1 + zlen l.
Proof. unfold zlen. simpl. lia. Qed.
Lemma zlen_app {A} (l k : list A) : zlen (l ++ k) = zlen l + zlen k.
Proof. unfold zlen. rewrite length_app. lia. Qed.
Lemma zlen_ztake {A} n (l : list A) : 0 <= n <= zlen l -> zlen (ztake n l) = n.
Proof. unfold zlen, ztake. intros. rewrite length_take. lia. Qed.
Lemma zlen_ztake_le {A} n (l : list A) : zlen (ztake n l) <= zlen l.
Proof. unfold zlen, ztake. rewrite length_take. lia. Qed.
Lemma zlen_zdrop {A} n (l : list A) : 0 <= n <= zlen l -> zlen (zdrop n l) = zlen l - n.
Proof. unfold zlen, zdrop. intros. rewrite length_drop. lia. Qed.
Lemma zlen_zrep {A} n (x : A) : 0 <= n -> zlen (zrep n x) = n.
Proof. unfold zlen, zrep. intros. rewrite length_replicate. lia. Qed.
Lemma zlen_0_nil {A} (l : list A) : zlen l = 0 -> l = [].
Proof. destruct l; [done|]. rewrite zlen_cons. pose proof (zlen_nonneg l). lia. Qed.

(** lengths of the list operations, for [autorewrite] *)
Create Rewrite HintDb zlen.
#[export] Hint Rewrite @zlen_nil @zlen_cons @zlen_app : zlen.

Lemma ztake_app_exact {A} n (l k : list A) : zlen l = n -> ztake n (l ++ k) = l.
Proof. unfold zlen, ztake. intros <-. rewrite Nat2Z.id. apply take_app_length. Qed.
Lemma zdrop_app_exact {A} n (l k : list A) : zlen l = n -> zdrop n (l ++ k) = k.
Proof. unfold zlen, zdrop. intros <-. rewrite Nat2Z.id. apply drop_app_length. Qed.
Lemma ztake_ge {A} n (l : list A) : zlen l <= n -> ztake n l = l.
Proof. unfold zlen, ztake. intros. apply take_ge. lia. Qed.
Lemma ztake_0 {A} n (l : list A) : n <= 0 -> ztake n l = [].
Proof. unfold ztake. intros. replace (Z.to_nat n) with 0%nat by lia. done. Qed.
Lemma zdrop_0 {A} n (l : list A) : n <= 0 -> zdrop n l = l.
Proof. unfold zdrop. intros. replace (Z.to_nat n) with 0%nat by lia. done. Qed.
Lemma zdrop_ge {A} n (l : list A) : zlen l <= n -> zdrop n l = [].
Proof. unfold zlen, zdrop. intros. apply drop_ge. lia. Qed.
Lemma ztake_zdrop {A} n (l : list A) : ztake n l ++ zdrop n l = l.
Proof. apply take_drop. Qed.
Lemma zdrop_zdrop {A} n m (l : list A) :
  0 <= n -> 0 <= m -> zdrop n (zdrop m l) = zdrop (m + n) l.
Proof. unfold zdrop. intros. rewrite drop_drop. f_equal. lia. Qed.
Lemma ztake_app_le {A} n (l k : list A) : n <= zlen l -> ztake n (l ++ k) = ztake n l.
Proof. unfold zlen, ztake. intros. apply take_app_le. lia. Qed.
Lemma zdrop_app_le {A} n (l k : list A) : n <= zlen l -> zdrop n (l ++ k) = zdrop n l ++ k.
Proof. unfold zlen, zdrop. intros. apply drop_app_le. lia. Qed.
Lemma zdrop_app_ge {A} n (l k : list A) : zlen l <= n -> zdrop n (l ++ k) = zdrop (n - zlen l) k.
Proof. unfold zlen, zdrop. intros. rewrite drop_app_ge by lia. f_equal. lia. Qed.

Lemma slice_Ok {A} (l : list A) lo hi :
  0 <= lo <= hi -> hi <= zlen l -> slice l lo hi = Ok (ztake (hi - lo) (zdrop lo l)).
Proof.
  intros. unfold slice.
  destruct (Z.leb_spec 0 lo), (Z.leb_spec lo hi), (Z.leb_spec hi (zlen l)); simpl; lia || done.
Qed.
Lemma slice_Ok_inv {A} (l : list A) lo hi r :
  slice l lo hi = Ok r ->
  0 <= lo <= hi /\ hi <= zlen l /\ r = ztake (hi - lo) (zdrop lo l).
Proof.
  unfold slice.
  destruct (Z.leb_spec 0 lo), (Z.leb_spec lo hi), (Z.leb_spec hi (zlen l)); simpl;
    intros [=]; auto.
Qed.
Lemma slice_from_Ok {A} (l : list A) lo :
  0 <= lo <= zlen l -> slice_from l lo = Ok (zdrop lo l).
Proof.
  intros. unfold slice_from. rewrite slice_Ok by lia. f_equal. apply ztake_ge.
  rewrite zlen_zdrop; lia.
Qed.

Lemma zlen_copy_at {A} (dst : list A) off src :
  0 <= off <= zlen dst -> zlen (copy_at dst off src) = zlen dst.
Proof.
  intros. unfold copy_at. rewrite !zlen_app, zlen_ztake by lia.
  destruct (Z.le_gt_cases (off + zlen src) (zlen dst)).
  - rewrite ztake_ge, zlen_zdrop by (pose proof (zlen_nonneg src); lia). lia.
  - rewrite zlen_ztake, zdrop_ge by lia. rewrite zlen_nil. lia.
Qed.

(** [copy] of a source that fits keeps what precedes and what follows *)
Lemma copy_at_fits {A} (pre old post src : list A) :
  zlen old = zlen src ->
  copy_at (pre ++ old ++ post) (zlen pre) src = pre ++ src ++ post.
Proof.
  intros E. unfold copy_at. rewrite ztake_app_exact by done.
  pose proof (zlen_nonneg post). pose proof (zlen_nonneg src).
  rewrite ztake_ge by (rewrite !zlen_app; lia).
  rewrite <- zdrop_zdrop by (auto using zlen_nonneg).
  rewrite zdrop_app_exact by done. rewrite zdrop_app_exact by done. done.
Qed.

Lemma copy_at_0_fits {A} (old post src : list A) :
  zlen old = zlen src -> copy_at (old ++ post) 0 src = src ++ post.
Proof. intros. by apply (copy_at_fits []). Qed.
