(* ===== verification/GoLib.v ===== *)
(** Go standard-library routines the program calls: [bytes.Compare],
    [encoding/binary] (big-endian words, Uvarint), the little-endian memory
    layout behind [unsafe] copies, and [sort.Search]. *)
From Stdlib Require Import ZArith Lia.
From stdpp Require Import base option list numbers list_numbers.
From S2P Require Import Prelude.

(** ** bytes.Compare *)

Fixpoint bytes_compare (a b : bytes) : comparison :=
  match a, b with
  | [], [] => Eq
  | [], _ :: _ => Lt
  | _ :: _, [] => Gt
  | x :: a', y :: b' =>
      match byte_Z x ?= byte_Z y with
      | Eq => bytes_compare a' b'
      | c => c
      end
  end.

Lemma bytes_compare_refl a : bytes_compare a a = Eq.
Proof. induction a as [|x a IH]; [done|]. simpl. by rewrite Z.compare_refl. Qed.

Lemma bytes_compare_eq a b : bytes_compare a b = Eq <-> a = b.
Proof.
  split; [|intros <-; apply bytes_compare_refl].
  revert b. induction a as [|x a IH]; intros [|y b]; simpl; try done.
  destruct (byte_Z x ?= byte_Z y) eqn:E; try done.
  apply Z.compare_eq in E. apply byte_Z_inj in E as ->. intros H. by rewrite (IH _ H).
Qed.

Lemma bytes_compare_antisym a b : bytes_compare b a = CompOpp (bytes_compare a b).
Proof.
  revert b. induction a as [|x a IH]; intros [|y b]; simpl; try done.
  rewrite Z.compare_antisym. destruct (byte_Z x ?= byte_Z y); simpl; auto.
Qed.

Lemma bytes_compare_lt_trans a b c :
  bytes_compare a b = Lt -> bytes_compare b c = Lt -> bytes_compare a c = Lt.
Proof.
  revert b c. induction a as [|x a IH]; intros [|y b] [|z c]; simpl; try done.
  destruct (Z.compare_spec (byte_Z x) (byte_Z y)), (Z.compare_spec (byte_Z y) (byte_Z z)),
    (Z.compare_spec (byte_Z x) (byte_Z z)); try done; try lia. apply IH.
Qed.

(** comparison of two concatenations whose heads have one length *)
Lemma bytes_compare_app a b c d :
  zlen a = zlen b ->
  bytes_compare (a ++ c) (b ++ d) =
  match bytes_compare a b with Eq => bytes_compare c d | r => r end.
Proof.
  revert b. induction a as [|x a IH]; intros [|y b] E; try done; try (exfalso; zlia).
  rewrite !zlen_cons in E.
  simpl. destruct (byte_Z x ?= byte_Z y); try done. apply IH. lia.
Qed.

(** ** encoding/binary.BigEndian *)

Fixpoint be_put (n : nat) (v : Z) : bytes :=
  match n with
  | O => []
  | S n' => byte_of (Z.shiftr v (8 * Z.of_nat n')) :: be_put n' v
  end.

Definition be_get (l : bytes) : Z :=
  fold_left (fun acc b => Z.lor (Z.shiftl acc 8) (byte_Z b)) l 0.

Definition PutUint32 (v : Z) : bytes := be_put 4 v.
Definition PutUint64 (v : Z) : bytes := be_put 8 v.

Lemma zlen_be_put n v : zlen (be_put n v) = Z.of_nat n.
Proof. induction n; simpl; [done|]. rewrite zlen_cons. lia. Qed.

Lemma lor_disjoint_add x y s :
  0 <= s -> 0 <= x < 2 ^ s -> Z.lor x (Z.shiftl y s) = x + y * 2 ^ s.
Proof.
  intros Hs Hx. rewrite <- Z.shiftl_mul_pow2 by done. symmetry.
  apply Z.add_nocarry_lor, Z.bits_inj_iff'. intros n Hn.
  rewrite Z.land_spec, Z.bits_0, Z.shiftl_spec by done.
  destruct (Z.lt_ge_cases n s).
  - rewrite (Z.testbit_neg_r y) by lia. apply andb_false_r.
  - destruct (decide (x = 0)) as [->|]; [by rewrite Z.bits_0|].
    rewrite (Z.bits_above_log2 x); [done|lia|]. 
    apply Z.log2_lt_pow2; [lia|]. apply Z.lt_le_trans with (2 ^ s); [lia|].
    apply Z.pow_le_mono_r; lia.
Qed.

Lemma lor_mul_add x y s :
  0 <= s -> 0 <= x < 2 ^ s -> Z.lor x (y * 2 ^ s) = x + y * 2 ^ s.
Proof. intros. rewrite <- Z.shiftl_mul_pow2 at 1 by done. by apply lor_disjoint_add. Qed.

Lemma be_get_step acc b : Z.lor (Z.shiftl acc 8) (byte_Z b) = acc * 256 + byte_Z b.
Proof.
  rewrite Z.lor_comm, lor_disjoint_add; [lia|lia|]. apply byte_Z_range.
Qed.

Lemma be_get_app_acc l acc :
  fold_left (fun a b => Z.lor (Z.shiftl a 8) (byte_Z b)) l acc =
  acc * 256 ^ zlen l + be_get l.
Proof.
  unfold be_get. revert acc. induction l as [|b l IH]; intros acc; simpl.
  - rewrite zlen_nil. lia.
  - rewrite IH. rewrite (IH (Z.lor _ _)), !be_get_step, zlen_cons.
    rewrite Z.pow_add_r by (pose proof (zlen_nonneg l); lia). lia.
Qed.

Lemma be_get_cons b l : be_get (b :: l) = byte_Z b * 256 ^ zlen l + be_get l.
Proof.
  unfold be_get at 1. simpl. rewrite be_get_app_acc, be_get_step. lia.
Qed.

Lemma be_get_range l : 0 <= be_get l < 256 ^ zlen l.
Proof.
  induction l as [|b l IH]; [done|].
  rewrite be_get_cons, zlen_cons, Z.pow_add_r by (pose proof (zlen_nonneg l); lia).
  pose proof (byte_Z_range b). nia.
Qed.

Lemma be_get_put n v : be_get (be_put n v) = v mod 256 ^ Z.of_nat n.
Proof.
  induction n as [|n IH]; [by rewrite Z.mod_1_r|].
  cbn [be_put]. rewrite be_get_cons, zlen_be_put, IH, byte_Z_of. unfold u8.
  rewrite Nat2Z.inj_succ, Z.pow_succ_r by lia.
  rewrite (Z.mul_comm 256), Z.rem_mul_r by lia.
  rewrite Z.shiftr_div_pow2 by lia.
  replace (2 ^ (8 * Z.of_nat n)) with (256 ^ Z.of_nat n)
    by (change 256 with (2 ^ 8); rewrite <- Z.pow_mul_r by lia; done).
  change (2 ^ 8) with 256. lia.
Qed.

Lemma Uint32_Put v : be_get (PutUint32 v) = u32 v.
Proof. apply be_get_put. Qed.
Lemma Uint64_Put v : be_get (PutUint64 v) = u64 v.
Proof. apply be_get_put. Qed.

(** On words of one length [bytes.Compare] is the numeric order. *)
Lemma bytes_compare_be a b :
  zlen a = zlen b -> bytes_compare a b = (be_get a ?= be_get b).
Proof.
  revert b. induction a as [|x a IH]; intros [|y b] E; try done; try (exfalso; zlia).
  rewrite !zlen_cons in E.
  assert (zlen a = zlen b) as E' by lia.
  simpl. rewrite !be_get_cons, (IH _ E'), <- E'.
  pose proof (be_get_range a). pose proof (be_get_range b) as Hb. rewrite <- E' in Hb.
  destruct (Z.compare_spec (byte_Z x) (byte_Z y)) as [->|?|?].
  - destruct (Z.compare_spec (be_get a) (be_get b)); symmetry;
      [apply Z.compare_eq_iff|apply Z.compare_lt_iff|apply Z.compare_gt_iff]; lia.
  - symmetry. apply Z.compare_lt_iff. nia.
  - symmetry. apply Z.compare_gt_iff. nia.
Qed.

(** ** Little-endian memory layout (structs copied through [unsafe]) *)

Fixpoint le_put (n : nat) (v : Z) : bytes :=
  match n with
  | O => []
  | S n' => byte_of v :: le_put n' (Z.shiftr v 8)
  end.

Fixpoint le_get (l : bytes) : Z :=
  match l with
  | [] => 0
  | b :: l' => Z.lor (byte_Z b) (Z.shiftl (le_get l') 8)
  end.

Lemma zlen_le_put n v : zlen (le_put n v) = Z.of_nat n.
Proof. revert v. induction n; intros; simpl; [done|]. rewrite zlen_cons, IHn. lia. Qed.

Lemma le_get_cons b l : le_get (b :: l) = byte_Z b + le_get l * 256.
Proof. simpl. rewrite lor_disjoint_add; [lia|lia|]. apply byte_Z_range. Qed.

Lemma le_get_put n v : le_get (le_put n v) = v mod 256 ^ Z.of_nat n.
Proof.
  revert v. induction n as [|n IH]; intros v; [by rewrite Z.mod_1_r|].
  cbn [le_put]. rewrite le_get_cons, IH, byte_Z_of. unfold u8.
  rewrite Nat2Z.inj_succ, Z.pow_succ_r, Z.rem_mul_r by lia.
  rewrite Z.shiftr_div_pow2 by lia. change (2 ^ 8) with 256. lia.
Qed.

(** ** encoding/binary Uvarint *)

(** [binary.PutUvarint]: at most ten bytes for a uint64 *)
Fixpoint put_uvarint (fuel : nat) (x : Z) : bytes :=
  match fuel with
  | O => []
  | S f =>
      if 128 <=? x then byte_of (Z.lor x 128) :: put_uvarint f (Z.shiftr x 7)
      else [byte_of x]
  end.
Definition PutUvarint (x : Z) : bytes := put_uvarint 10 x.

(** [binary.Uvarint]: the value and the number of bytes read, [0] when the
    buffer is too small, negative on overflow *)
Fixpoint uvarint_loop (i x s : Z) (buf : bytes) : Z * Z :=
  match buf with
  | [] => (0, 0)
  | b :: rest =>
      if i =? 10 then (0, - (i + 1))
      else if byte_Z b <? 128 then
        if (i =? 9) && (1 <? byte_Z b) then (0, - (i + 1))
        else (Z.lor x (Z.shiftl (byte_Z b) s), i + 1)
      else uvarint_loop (i + 1) (Z.lor x (u64 (Z.shiftl (Z.land (byte_Z b) 127) s))) (s + 7) rest
  end.
Definition Uvarint (buf : bytes) : Z * Z := uvarint_loop 0 0 0 buf.

Lemma byte_Z_small z : 0 <= z < 256 -> byte_Z (byte_of z) = z.
Proof. intros. rewrite byte_Z_of. apply Z.mod_small. done. Qed.

Lemma low7_cont x : 0 <= x -> byte_Z (byte_of (Z.lor x 128)) = x mod 128 + 128.
Proof.
  intros. rewrite byte_Z_of. unfold u8.
  replace (Z.lor x 128) with (Z.lor (x mod 128) (Z.shiftl (Z.lor (x / 128) 1) 7)).
  - rewrite lor_disjoint_add by (done || (apply Z.mod_pos_bound; done)).
    change (2 ^ 8) with (128 * 2). rewrite (Z.mul_comm (Z.lor _ _)), Z.rem_mul_r by done.
    rewrite Z.mul_comm, Z.mod_add, Z.mod_mod by done.
    rewrite Z.div_add, (Z.div_small (x mod 128)) by (done || (apply Z.mod_pos_bound; done)).
    rewrite Z.add_0_l. replace (Z.lor (x / 128) 1 mod 2) with 1; [lia|].
    change 2 with (2 ^ 1). rewrite <- Z.land_ones, Z.land_lor_distr_l by done.
    symmetry. apply Z.bits_inj_iff'. intros n Hn.
    rewrite Z.lor_spec, !Z.land_spec.
    destruct (decide (n = 0)) as [->|]; [by rewrite orb_true_r|].
    change (Z.ones 1) with 1. rewrite (Z.bits_above_log2 1 n) by (simpl; lia).
    by rewrite !andb_false_r.
  - rewrite Z.shiftl_lor. rewrite Z.lor_assoc. f_equal.
    rewrite lor_disjoint_add by (done || (apply Z.mod_pos_bound; done)).
    pose proof (Z.div_mod x 128). lia.
Qed.

Lemma land_low7 c : 0 <= c < 128 -> Z.land (c + 128) 127 = c.
Proof.
  intros. change 127 with (Z.ones 7). rewrite Z.land_ones by done.
  change 128 with (1 * 2 ^ 7) at 1. rewrite Z.mod_add by done. apply Z.mod_small. done.
Qed.

Lemma uvarint_loop_put fuel v rest : forall i x,
  (0 < fuel)%nat -> 0 <= i -> i + Z.of_nat fuel = 10 -> 0 <= x < 2 ^ (7 * i) ->
  0 <= v -> x + v * 2 ^ (7 * i) < 2 ^ 64 -> v < 2 ^ (7 * Z.of_nat fuel) ->
  uvarint_loop i x (7 * i) (put_uvarint fuel v ++ rest) =
  (x + v * 2 ^ (7 * i), i + zlen (put_uvarint fuel v)).
Proof.
  revert v. induction fuel as [|f IH]; intros v i x Hn Hi Hf Hx Hv Hb Hv'; [lia|].
  cbn [put_uvarint]. destruct (Z.leb_spec 128 v) as [Hge|Hlt].
  - cbn [app uvarint_loop]. rewrite low7_cont by done.
    pose proof (Z.mod_pos_bound v 128 ltac:(done)).
    destruct (Z.eqb_spec i 10); [lia|].
    destruct (Z.ltb_spec (v mod 128 + 128) 128); [lia|].
    rewrite land_low7 by done.
    assert (Hp : 0 < 2 ^ (7 * i)) by (apply Z.pow_pos_nonneg; lia).
    assert (Hdm : v = 128 * (v / 128) + v mod 128) by (apply Z.div_mod; done).
    assert (0 <= v / 128) by (apply Z.div_pos; lia).
    assert (v mod 128 * 2 ^ (7 * i) < 2 ^ 64) by nia.
    rewrite Z.shiftl_mul_pow2 by lia. rewrite u64_small by nia.
    rewrite <- Z.shiftl_mul_pow2, lor_disjoint_add by lia.
    replace (7 * i + 7) with (7 * (i + 1)) by lia.
    assert (E7 : 2 ^ (7 * (i + 1)) = 128 * 2 ^ (7 * i)).
    { replace (7 * (i + 1)) with (7 + 7 * i) by lia. rewrite Z.pow_add_r by lia. done. }
    rewrite Z.shiftr_div_pow2 by done. change (2 ^ 7) with 128.
    assert (0 < f)%nat by (destruct f; [simpl in Hv'|]; lia).
    assert (v / 128 < 2 ^ (7 * Z.of_nat f)).
    { apply Z.div_lt_upper_bound; [done|]. change 128 with (2 ^ 7) at 1.
      rewrite <- Z.pow_add_r by lia.
      replace (7 + 7 * Z.of_nat f) with (7 * Z.of_nat (S f)) by lia. done. }
    rewrite IH; [|lia|lia|lia|rewrite E7; nia|lia|rewrite E7; nia|done].
    rewrite E7, zlen_cons. f_equal; [nia|lia].
  - cbn [app uvarint_loop]. rewrite byte_Z_small by lia.
    destruct (Z.eqb_spec i 10); [lia|].
    destruct (Z.ltb_spec v 128); [|lia].
    assert ((i =? 9) && (1 <? v) = false) as ->.
    { destruct (Z.eqb_spec i 9) as [->|]; [|done]. apply Z.ltb_ge.
      assert (f = O) as -> by lia. assert (2 ^ (7 * 9) * 2 = 2 ^ 64) by done. nia. }
    rewrite lor_disjoint_add by lia. done.
Qed.

(** [binary.Uvarint] reads back what [binary.PutUvarint] wrote. *)
Lemma Uvarint_Put v rest :
  0 <= v < 2 ^ 64 -> Uvarint (PutUvarint v ++ rest) = (v, zlen (PutUvarint v)).
Proof.
  intros. unfold Uvarint, PutUvarint. change 0 with (7 * 0) at 3.
  rewrite uvarint_loop_put by (simpl; lia). change (2 ^ (7 * 0)) with 1. f_equal; lia.
Qed.

Lemma put_uvarint_bound fuel k v :
  0 <= v < 2 ^ (7 * Z.of_nat k) -> (0 < k <= fuel)%nat ->
  1 <= zlen (put_uvarint fuel v) <= Z.of_nat k.
Proof.
  revert k v. induction fuel as [|f IH]; intros k v Hv Hk; [lia|].
  cbn [put_uvarint]. destruct (Z.leb_spec 128 v); [|rewrite zlen_cons, zlen_nil; lia].
  rewrite zlen_cons. destruct k as [|[|k]]; [lia|simpl in Hv; lia|].
  rewrite Z.shiftr_div_pow2 by done. specialize (IH (S k) (v / 2 ^ 7)).
  assert (1 <= zlen (put_uvarint f (v / 2 ^ 7)) <= Z.of_nat (S k)); [|lia].
  apply IH; [|lia]. split; [apply Z.div_pos; lia|]. apply Z.div_lt_upper_bound; [done|].
  rewrite <- Z.pow_add_r by lia. replace (7 + 7 * Z.of_nat (S k)) with (7 * Z.of_nat (S (S k))) by lia. lia.
Qed.

Lemma zlen_PutUvarint v : 0 <= v < 2 ^ 64 -> 1 <= zlen (PutUvarint v) <= 10.
Proof. intros. apply (put_uvarint_bound 10 10); [|lia]. simpl. lia. Qed.
Lemma zlen_PutUvarint_u32 v : 0 <= v < 2 ^ 32 -> 1 <= zlen (PutUvarint v) <= 5.
Proof. intros. apply (put_uvarint_bound 10 5); [|lia]. simpl. lia. Qed.

Lemma put_uvarint_S f x : put_uvarint (S f) x =
  if 128 <=? x then byte_of (Z.lor x 128) :: put_uvarint f (Z.shiftr x 7) else [byte_of x].
Proof. done. Qed.
#[global] Arguments put_uvarint : simpl never.
#[global] Arguments uvarint_loop : simpl never.
#[global] Arguments be_put : simpl never.

(** ** sort.Search *)

(** The binary search of [sort.Search]; the predicate may update a state
    [S] (the closures of the table iterators move the iterator). *)
Fixpoint search_loop {S} (fuel : nat) (f : Z -> S -> outcome (bool * S)) (i j : Z) (s : S)
  : outcome (Z * S) :=
  match fuel with
  | O => Ok (i, s)
  | Datatypes.S fuel' =>
      if i <? j then
        let h := Z.shiftr (i + j) 1 in
        let! (b, s') := f h s in
        if b then search_loop fuel' f i h s' else search_loop fuel' f (h + 1) j s'
      else Ok (i, s)
  end.
Definition Search {S} (n : Z) (f : Z -> S -> outcome (bool * S)) (s : S) : outcome (Z * S) :=
  search_loop (Z.to_nat n) f 0 n s.

Section search.
Context {S : Type} (n : Z) (f : Z -> S -> outcome (bool * S)) (Inv : S -> Prop) (p : Z -> bool).
Hypothesis f_p : forall h s, 0 <= h < n -> Inv s ->
  exists s', f h s = Ok (p h, s') /\ Inv s'.
Hypothesis p_mono : forall h k, 0 <= h <= k -> k < n -> p h = true -> p k = true.

Lemma search_loop_spec fuel : forall i j s,
  0 <= i <= j -> j <= n -> j - i <= Z.of_nat fuel -> Inv s ->
  (forall k, 0 <= k < i -> p k = false) ->
  (forall k, j <= k < n -> p k = true) ->
  exists r s', search_loop fuel f i j s = Ok (r, s') /\ Inv s' /\ 0 <= r <= n /\
    (forall k, 0 <= k < r -> p k = false) /\ (forall k, r <= k < n -> p k = true).
Proof using f_p p_mono.
  induction fuel as [|fuel IH]; intros i j s Hij Hj Hf Hs Hlo Hhi; cbn [search_loop].
  { exists i, s. assert (i = j) as -> by lia. repeat split; auto; lia. }
  destruct (Z.ltb_spec i j).
  2: { exists i, s. assert (i = j) as -> by lia. repeat split; auto; lia. }
  rewrite Z.shiftr_div_pow2 by done. change (2 ^ 1) with 2. set (h := (i + j) / 2).
  assert (i <= h < j) by (unfold h; split;
    [apply Z.div_le_lower_bound|apply Z.div_lt_upper_bound]; lia).
  destruct (f_p h s) as (s' & -> & Hs'); [lia|done|]. simpl.
  destruct (p h) eqn:E.
  - apply IH; auto; try lia. intros k Hk. apply (p_mono h); auto; lia.
  - apply IH; auto; try lia. intros k Hk. destruct (p k) eqn:Ek; [|done].
    rewrite (p_mono k h) in E; [done|lia|lia|done].
Qed.

(** [sort.Search] returns the first index where a monotone predicate holds. *)
Lemma Search_spec s : 0 <= n -> Inv s ->
  exists r s', Search n f s = Ok (r, s') /\ Inv s' /\ 0 <= r <= n /\
    (forall k, 0 <= k < r -> p k = false) /\ (forall k, r <= k < n -> p k = true).
Proof using f_p p_mono. intros. apply search_loop_spec; auto; lia. Qed.
End search.
