(* ===== verification/Utils.v ===== *)
(** Package utils: integer helpers, Adler-32, varint size (utils.go) and the
    asserting read-write lock [SafeMutex] (lock.go). *)
From Stdlib Require Import ZArith Lia.
From stdpp Require Import base option list numbers relations.
From S2P Require Import Prelude GoLib.

(** ** utils.go *)

Definition Max (a b : Z) : Z := if a <? b then b else a.
Definition Min (a b : Z) : Z := if b <? a then b else a.

(** the loop of [EqualUint32] once the lengths agree *)
Fixpoint equal_loop (a b : list Z) : bool :=
  match a, b with
  | x :: a', y :: b' => if x =? y then equal_loop a' b' else false
  | _, _ => true
  end.
Definition EqualUint32 (a b : list Z) : bool :=
  if negb (zlen a =? zlen b) then false else equal_loop a b.

Lemma EqualUint32_spec a b : EqualUint32 a b = true <-> a = b.
Proof.
  unfold EqualUint32. destruct (Z.eqb_spec (zlen a) (zlen b)) as [E|E]; simpl.
  2: { split; [done|]. intros ->. done. }
  revert b E. induction a as [|x a IH]; intros [|y b] E; try done; try (exfalso; zlia).
  simpl. destruct (Z.eqb_spec x y) as [->|]; [|split; congruence].
  rewrite IH by zlia. split; congruence.
Qed.

(** [hash/adler32]: the two running sums modulo 65521 *)
Definition adler_mod : Z := 65521.
Fixpoint adler_loop (s1 s2 : Z) (data : bytes) : Z * Z :=
  match data with
  | [] => (s1, s2)
  | x :: rest =>
      let s1' := (s1 + byte_Z x) mod adler_mod in
      adler_loop s1' ((s2 + s1') mod adler_mod) rest
  end.
Definition AdlerCheckSum (data : bytes) : Z :=
  let '(s1, s2) := adler_loop 1 0 data in Z.lor (Z.shiftl s2 16) s1.

Lemma adler_loop_range data : forall s1 s2,
  0 <= s1 < adler_mod -> 0 <= s2 < adler_mod ->
  0 <= fst (adler_loop s1 s2 data) < adler_mod /\ 0 <= snd (adler_loop s1 s2 data) < adler_mod.
Proof.
  induction data as [|x data IH]; intros s1 s2 H1 H2; [done|].
  cbn [adler_loop]. apply IH; apply Z.mod_pos_bound; done.
Qed.

Lemma AdlerCheckSum_range data : 0 <= AdlerCheckSum data < 2 ^ 32.
Proof.
  unfold AdlerCheckSum. pose proof (adler_loop_range data 1 0 ltac:(done) ltac:(done)).
  destruct (adler_loop 1 0 data) as [s1 s2]. simpl in *. unfold adler_mod in *.
  rewrite Z.lor_comm, lor_disjoint_add by lia. lia.
Qed.

(** [Ceil] and [Floor] on uint32; [align] is a divisor, so zero panics *)
Definition Ceil (size align : Z) : outcome Z :=
  if align =? 0 then Panic
  else Ok (u32 (u32 (u32 (size + align) - 1) / align * align)).
Definition Floor (size align : Z) : outcome Z :=
  if align =? 0 then Panic else Ok (u32 (size / align * align)).

(** Without uint32 overflow, [Ceil] is the least multiple of [align] that is
    at least [size]. *)
Lemma Ceil_spec size align :
  0 <= size -> 0 < align -> size + align < 2 ^ 32 ->
  exists c, Ceil size align = Ok c /\ c mod align = 0 /\ size <= c < size + align.
Proof.
  intros Hs Ha Hb. unfold Ceil. destruct (Z.eqb_spec align 0); [lia|].
  rewrite (u32_small (size + align)), (u32_small (_ - 1)) by lia.
  set (q := (size + align - 1) / align).
  assert (Hq : align * q <= size + align - 1 < align * q + align).
  { pose proof (Z.div_mod (size + align - 1) align ltac:(lia)).
    pose proof (Z.mod_pos_bound (size + align - 1) align ltac:(lia)). fold q in H. lia. }
  assert (0 <= q) by (apply Z.div_pos; lia).
  exists (q * align). rewrite u32_small by nia.
  split; [done|]. split; [apply Z.mod_mul; lia|]. lia.
Qed.

(** [SizeVarint]: the loop shifts by seven until nothing is left *)
Fixpoint size_varint_loop (fuel : nat) (x n : Z) : Z :=
  match fuel with
  | O => n
  | S f => let n' := n + 1 in let x' := Z.shiftr x 7 in
           if x' =? 0 then n' else size_varint_loop f x' n'
  end.
Definition SizeVarint (x : Z) : Z := size_varint_loop 10 x 0.

Lemma size_varint_loop_put fuel : forall x n, 0 <= x < 2 ^ (7 * Z.of_nat fuel) ->
  (0 < fuel)%nat -> size_varint_loop fuel x n = n + zlen (put_uvarint fuel x).
Proof.
  induction fuel as [|f IH]; intros x n Hx Hf; [lia|].
  cbn [size_varint_loop]. rewrite put_uvarint_S. rewrite Z.shiftr_div_pow2 by done. change (2 ^ 7) with 128.
  destruct (Z.leb_spec 128 x).
  - assert (1 <= x / 128) by (apply Z.div_le_lower_bound; lia).
    assert (x / 128 < 2 ^ (7 * Z.of_nat f)).
    { apply Z.div_lt_upper_bound; [done|]. change 128 with (2 ^ 7) at 1.
      rewrite <- Z.pow_add_r by lia.
      replace (7 + 7 * Z.of_nat f) with (7 * Z.of_nat (S f)) by lia. lia. }
    destruct (Z.eqb_spec (x / 128) 0); [lia|].
    destruct f as [|f]; [change (2 ^ (7 * Z.of_nat 0)) with 1 in *; lia|].
    rewrite IH by lia. rewrite zlen_cons. lia.
  - rewrite Z.div_small by lia. done.
Qed.

(** [SizeVarint] is the length of [binary.PutUvarint]'s encoding. *)
Lemma SizeVarint_PutUvarint x : 0 <= x < 2 ^ 64 -> SizeVarint x = zlen (PutUvarint x).
Proof. intros. unfold SizeVarint, PutUvarint. rewrite size_varint_loop_put; [lia|simpl; lia|lia]. Qed.

(** ** lock.go: SafeMutex *)

(** The counters next to the [sync.RWMutex]; int32 atomics. *)
Record SafeMutex := mkMutex { writer : Z; readers : Z }.
Definition newMutex : SafeMutex := mkMutex 0 0.

Definition AlreadyLocked (s : SafeMutex) : bool := 0 <? writer s.
(** what each method does to the counters once the inner mutex lets it pass *)
Definition Lock (s : SafeMutex) : outcome SafeMutex :=
  let s' := mkMutex (writer s + 1) (readers s) in assert (writer s' =? 1) (Ok s').
Definition Unlock (s : SafeMutex) : outcome SafeMutex :=
  let s' := mkMutex (writer s - 1) (readers s) in assert (writer s' =? 0) (Ok s').
Definition AssertLock (s : SafeMutex) : outcome unit := assert (AlreadyLocked s) (Ok tt).
Definition RLock (s : SafeMutex) : outcome SafeMutex := Ok (mkMutex (writer s) (readers s + 1)).
Definition RUnlock (s : SafeMutex) : outcome SafeMutex := Ok (mkMutex (writer s) (readers s - 1)).
Definition AssertRLock (s : SafeMutex) : outcome unit :=
  assert ((0 <? readers s) || (writer s =? 1)) (Ok tt).

(** the state of a mutex held by a writer *)
Definition heldMutex : SafeMutex := mkMutex 1 0.
Lemma Lock_new : Lock newMutex = Ok heldMutex.
Proof. done. Qed.
Lemma Unlock_held : Unlock heldMutex = Ok newMutex.
Proof. done. Qed.

(** *** Interleavings of goroutines on one SafeMutex

    Each goroutine is somewhere in [Lock]/[Unlock]/[RLock]/[RUnlock]; the
    inner [sync.RWMutex] admits a writer only when nobody holds it and a
    reader only when no writer does. [panicked] records a failed assertion. *)
Inductive phase :=
  | PIdle
  | WGot      (* s.m.Lock() returned, counter not yet incremented *)
  | WHeld     (* Lock returned *)
  | WRel      (* counter decremented, s.m.Unlock() not yet called *)
  | RGot | RHeld | RRel.

#[export] Instance phase_eq_dec : EqDecision phase.
Proof. solve_decision. Defined.

Record lockstate := mkLS { cnt : SafeMutex; thr : list phase; panicked : bool }.

Definition wphase (p : phase) : bool :=
  match p with WGot | WHeld | WRel => true | _ => false end.
Definition rphase (p : phase) : bool :=
  match p with RGot | RHeld | RRel => true | _ => false end.
Definition is_wheld (p : phase) : bool := match p with WHeld => true | _ => false end.
Definition is_rheld (p : phase) : bool := match p with RHeld => true | _ => false end.

Definition b2z (b : bool) : Z := if b then 1 else 0.
(** number of goroutines whose phase satisfies [f] *)
Definition counted (f : phase -> bool) (l : list phase) : Z :=
  foldr (fun p n => b2z (f p) + n) 0 l.

Inductive lockstep : lockstate -> lockstate -> Prop :=
  | s_acquire c l i : l !! i = Some PIdle ->
      counted wphase l = 0 -> counted rphase l = 0 ->
      lockstep (mkLS c l false) (mkLS c (<[i := WGot]> l) false)
  | s_lock c l i : l !! i = Some WGot ->
      lockstep (mkLS c l false)
        (match Lock c with
         | Ok c' => mkLS c' (<[i := WHeld]> l) false
         | _ => mkLS c l true end)
  | s_unlock c l i : l !! i = Some WHeld ->
      lockstep (mkLS c l false)
        (match Unlock c with
         | Ok c' => mkLS c' (<[i := WRel]> l) false
         | _ => mkLS c l true end)
  | s_release c l i : l !! i = Some WRel ->
      lockstep (mkLS c l false) (mkLS c (<[i := PIdle]> l) false)
  | s_racquire c l i : l !! i = Some PIdle -> counted wphase l = 0 ->
      lockstep (mkLS c l false) (mkLS c (<[i := RGot]> l) false)
  | s_rlock c l i c' : l !! i = Some RGot -> RLock c = Ok c' ->
      lockstep (mkLS c l false) (mkLS c' (<[i := RHeld]> l) false)
  | s_runlock c l i c' : l !! i = Some RHeld -> RUnlock c = Ok c' ->
      lockstep (mkLS c l false) (mkLS c' (<[i := RRel]> l) false)
  | s_rrelease c l i : l !! i = Some RRel ->
      lockstep (mkLS c l false) (mkLS c (<[i := PIdle]> l) false).

Definition lockinit (n : nat) : lockstate := mkLS newMutex (replicate n PIdle) false.

Lemma counted_insert f l i p q :
  l !! i = Some p ->
  counted f (<[i := q]> l) = counted f l - b2z (f p) + b2z (f q).
Proof.
  revert i. induction l as [|x l IH]; intros [|i] H; try done; simpl in *.
  - injection H as ->. lia.
  - rewrite (IH _ H). lia.
Qed.

Lemma counted_nonneg f l : 0 <= counted f l.
Proof. induction l as [|x l IH]; simpl; [done|]. destruct (f x); simpl; lia. Qed.

Lemma counted_le f g l : (forall p, b2z (f p) <= b2z (g p)) -> counted f l <= counted g l.
Proof. intros H. induction l as [|x l IH]; simpl; [done|]. specialize (H x). lia. Qed.

Lemma counted_lt f g l i p :
  (forall p, b2z (f p) <= b2z (g p)) -> l !! i = Some p -> b2z (f p) < b2z (g p) ->
  counted f l < counted g l.
Proof.
  intros H. revert i. induction l as [|x l IH]; intros [|i] Hi Hp; try done; simpl in *.
  - injection Hi as ->. pose proof (counted_le f g l H). lia.
  - specialize (IH _ Hi Hp). specialize (H x). lia.
Qed.

Lemma counted_pos f l i p : l !! i = Some p -> f p = true -> 0 < counted f l.
Proof.
  intros Hi Hf. replace 0 with (counted (fun _ => false) l) by (clear; induction l; simpl; lia).
  apply (counted_lt _ _ _ i p); [|done|by rewrite Hf]. intros q. destruct (f q); simpl; lia.
Qed.

(** the counters count the goroutines that passed the increments *)
Definition lockinv (s : lockstate) : Prop :=
  panicked s = false /\
  writer (cnt s) = counted is_wheld (thr s) /\
  readers (cnt s) = counted is_rheld (thr s) /\
  counted wphase (thr s) <= 1 /\
  (0 < counted wphase (thr s) -> counted rphase (thr s) = 0).

Lemma lockinv_init n : lockinv (lockinit n).
Proof.
  unfold lockinv, lockinit; simpl.
  assert (forall f, f PIdle = false -> counted f (replicate n PIdle) = 0) as H.
  { intros f Hf. induction n; simpl; [done|]. rewrite Hf. done. }
  rewrite !H by done. lia.
Qed.

(** re-establish the invariant after thread [H] moved *)
Ltac lockinv_update H :=
  unfold lockinv; simpl; rewrite ?(counted_insert _ _ _ _ _ H); simpl; lia.

Lemma lockinv_step s s' : lockinv s -> lockstep s s' -> lockinv s'.
Proof.
  intros (Hp & Hw & Hr & Hone & Hex) Hstep.
  destruct Hstep as [c l i Hi Hw0 Hr0|c l i Hi|c l i Hi|c l i Hi|c l i Hi Hw0
    |c l i c' Hi Hc|c l i c' Hi Hc|c l i Hi]; simpl in *;
    try (injection Hc as <-); try lockinv_update Hi.
  - assert (counted is_wheld l < counted wphase l) by (apply (counted_lt _ _ _ i WGot); [by intros []|done..]).
    pose proof (counted_nonneg is_wheld l).
    unfold Lock, assert; simpl. replace (writer c + 1) with 1 by lia. lockinv_update Hi.
  - pose proof (counted_pos is_wheld l i WHeld Hi eq_refl).
    pose proof (counted_le is_wheld wphase l ltac:(by intros [])).
    unfold Unlock, assert; simpl. replace (writer c - 1) with 0 by lia. lockinv_update Hi.
  - pose proof (counted_pos rphase l i RRel Hi eq_refl). lockinv_update Hi.
Qed.

Lemma lockinv_reachable n s : rtc lockstep (lockinit n) s -> lockinv s.
Proof.
  intros H. remember (lockinit n) as s0 eqn:E.
  assert (lockinv s0) as H0 by (subst; apply lockinv_init). clear E.
  induction H; eauto using lockinv_step.
Qed.

(** C26: In every interleaving of goroutines using SafeMutex its assertions never fail, a writer
    excludes readers and other writers, and AssertLock/AssertRLock hold for whoever holds the lock.
    *)
Theorem SafeMutex_safe n s :
  rtc lockstep (lockinit n) s ->
  panicked s = false /\
  (forall i j, thr s !! i = Some WHeld -> thr s !! j = Some WHeld -> i = j) /\
  (forall i j, thr s !! i = Some WHeld -> thr s !! j <> Some RHeld) /\
  (forall i, thr s !! i = Some WHeld -> AssertLock (cnt s) = Ok tt) /\
  (forall i, thr s !! i = Some RHeld -> AssertRLock (cnt s) = Ok tt).
Proof.
  intros H. destruct (lockinv_reachable _ _ H) as (Hp & Hw & Hr & Hone & Hex).
  pose proof (counted_le is_wheld wphase (thr s) ltac:(by intros [])).
  pose proof (counted_le is_rheld rphase (thr s) ltac:(by intros [])).
  split; [done|]. split; [|split; [|split]].
  - intros i j Hi Hj. destruct (decide (i = j)) as [|Hne]; [done|exfalso].
    pose proof (counted_pos is_wheld (<[i := PIdle]> (thr s)) j WHeld) as Hc.
    rewrite list_lookup_insert_ne in Hc by done. specialize (Hc Hj eq_refl).
    rewrite (counted_insert _ _ _ _ _ Hi) in Hc. simpl in Hc. lia.
  - intros i j Hi Hj. pose proof (counted_pos is_wheld _ _ _ Hi eq_refl).
    pose proof (counted_pos is_rheld _ _ _ Hj eq_refl). lia.
  - intros i Hi. pose proof (counted_pos is_wheld _ _ _ Hi eq_refl).
    unfold AssertLock, AlreadyLocked, assert. destruct (Z.ltb_spec 0 (writer (cnt s))); [done|lia].
  - intros i Hi. pose proof (counted_pos is_rheld _ _ _ Hi eq_refl).
    unfold AssertRLock, assert. destruct (Z.ltb_spec 0 (readers (cnt s))); [done|lia].
Qed.
