(* ===== verification/Stopper.v ===== *)
(** utils/stopper.go: worker goroutines, the channel that tells them to stop and
    the WaitGroup that counts them. Every step of a goroutine is one event; a
    caller of Wait or Stop blocks until the counter is zero. *)
From Stdlib Require Import ZArith Lia.
From stdpp Require Import base option list numbers gmap fin_maps relations.
From S2P Require Import Prelude.

(** [shouldStopC] closed, and the counter of [wg] *)
Record Stopper := mkStopper { st_closed : bool; st_wg : Z }.
(** inside [f], between [f] and [wg.Done], after it *)
Inductive worker := Running | Returning | Gone.
(** blocked in [wg.Wait] of [Wait] or [Stop], or past it *)
Inductive caller := Waiting (stop : bool) | Released (stop : bool).
Record group := mkGroup { g_stopper : Stopper; g_workers : gmap nat worker; g_callers : gmap nat caller }.

Definition NewStopper : Stopper := mkStopper false 0.
Definition ShouldStop (s : Stopper) : bool := st_closed s.
(** closing a closed channel panics *)
Definition close_chan (s : Stopper) : outcome Stopper := if st_closed s then Panic else Ok (mkStopper true (st_wg s)).
(** a negative counter panics *)
Definition wg_Add (s : Stopper) (d : Z) : outcome Stopper := if st_wg s + d <? 0 then Panic else Ok (mkStopper (st_closed s) (st_wg s + d)).

Definition RunWorker (g : group) (w : nat) : outcome group :=
  let! s := wg_Add (g_stopper g) 1 in Ok (mkGroup s (<[w := Running]> (g_workers g)) (g_callers g)).
Definition worker_returns (g : group) (w : nat) : group := mkGroup (g_stopper g) (<[w := Returning]> (g_workers g)) (g_callers g).
Definition worker_Done (g : group) (w : nat) : outcome group :=
  let! s := wg_Add (g_stopper g) (-1) in Ok (mkGroup s (<[w := Gone]> (g_workers g)) (g_callers g)).
Definition Wait (g : group) (c : nat) : group := mkGroup (g_stopper g) (g_workers g) (<[c := Waiting false]> (g_callers g)).
Definition Stop (g : group) (c : nat) : outcome group :=
  let! s := close_chan (g_stopper g) in Ok (mkGroup s (g_workers g) (<[c := Waiting true]> (g_callers g))).
Definition Stopper_Close (g : group) : outcome group := let! s := close_chan (g_stopper g) in Ok (mkGroup s (g_workers g) (g_callers g)).
Definition released (g : group) (c : nat) (stop : bool) : group := mkGroup (g_stopper g) (g_workers g) (<[c := Released stop]> (g_callers g)).

(** what the goroutines may do next *)
Inductive stopper_step : group -> outcome group -> Prop :=
  | ss_run g w : g_workers g !! w = None -> stopper_step g (RunWorker g w)
  | ss_return g w : g_workers g !! w = Some Running -> stopper_step g (Ok (worker_returns g w))
  | ss_done g w : g_workers g !! w = Some Returning -> stopper_step g (worker_Done g w)
  | ss_wait g c : g_callers g !! c = None -> stopper_step g (Ok (Wait g c))
  | ss_stop g c : g_callers g !! c = None -> stopper_step g (Stop g c)
  | ss_close g : stopper_step g (Stopper_Close g)
  | ss_release g c stop : g_callers g !! c = Some (Waiting stop) -> st_wg (g_stopper g) = 0 -> stopper_step g (Ok (released g c stop)).
Definition no_goroutines : group := mkGroup NewStopper ∅ ∅.
Inductive stopper_reach : group -> Prop :=
  | sr_init : stopper_reach no_goroutines
  | sr_step g g' : stopper_reach g -> stopper_step g (Ok g') -> stopper_reach g'.

(** ** The counter counts the workers *)

#[export] Instance worker_eq_dec : EqDecision worker.
Proof. solve_decision. Defined.
Definition busy (ws : gmap nat worker) : gmap nat worker := filter (fun p => snd p <> Gone) ws.
Record group_ok (g : group) : Prop := mk_group_ok {
  go_count : st_wg (g_stopper g) = Z.of_nat (size (busy (g_workers g)));
  go_stop : forall c x, g_callers g !! c = Some x -> x = Waiting true \/ x = Released true -> st_closed (g_stopper g) = true }.

Lemma busy_insert ws w x : x <> Gone -> busy (<[w := x]> ws) = <[w := x]> (busy ws).
Proof. intros Hx. unfold busy. by apply map_filter_insert_True. Qed.
Lemma busy_gone ws w : busy (<[w := Gone]> ws) = delete w (busy ws).
Proof. unfold busy. rewrite map_filter_insert_False by (cbn; tauto). by rewrite map_filter_delete. Qed.
Lemma busy_lookup ws w x : ws !! w = Some x -> x <> Gone -> busy ws !! w = Some x.
Proof. intros E Hx. by apply map_lookup_filter_Some. Qed.
Lemma busy_none ws w : ws !! w = None -> busy ws !! w = None.
Proof. intros E. apply map_lookup_filter_None. by left. Qed.

Lemma group_step g g' : group_ok g -> stopper_step g (Ok g') -> group_ok g'.
Proof.
  intros [Hc Hs] Hst. inversion Hst as [g0 w Hw Eg Er|g0 w Hw Eg Er|g0 w Hw Eg Er|g0 c Hw Eg Er|g0 c Hw Eg Er|g0 Eg Er|g0 c stop Hw Hz Eg Er]; subst g0.
  - unfold RunWorker, wg_Add in Er. destruct (_ <? 0); [done|]. injection Er as <-. split; cbn [g_stopper g_workers g_callers st_wg st_closed]; [|done].
    rewrite busy_insert by done. rewrite map_size_insert_None by (by apply busy_none). lia.
  - subst g'. split; cbn [worker_returns g_stopper g_workers g_callers]; [|done].
    rewrite busy_insert by done. rewrite map_size_insert_Some by (eexists; by eapply busy_lookup). done.
  - unfold worker_Done, wg_Add in Er. destruct (_ <? 0); [done|]. injection Er as <-. split; cbn [g_stopper g_workers g_callers st_wg st_closed]; [|done].
    pose proof (busy_lookup _ _ _ Hw ltac:(done)) as Hb. rewrite busy_gone, map_size_delete_Some by (by eexists).
    assert (size (busy (g_workers g)) <> 0%nat) by (intros E; apply map_size_empty_iff in E; rewrite E in Hb; done). lia.
  - subst g'. split; cbn [Wait g_stopper g_workers g_callers]; [done|]. intros c' x Hx Hcase. destruct (decide (c = c')) as [<-|Hne].
    + rewrite lookup_insert_eq in Hx. injection Hx as <-. by destruct Hcase.
    + rewrite lookup_insert_ne in Hx by done. by eapply Hs.
  - unfold Stop, close_chan in Er. destruct (st_closed _); [done|]. injection Er as <-. by split.
  - unfold Stopper_Close, close_chan in Er. destruct (st_closed _); [done|]. injection Er as <-. by split.
  - subst g'. split; cbn [released g_stopper g_workers g_callers]; [done|]. intros c' x Hx Hcase. destruct (decide (c = c')) as [<-|Hne].
    + rewrite lookup_insert_eq in Hx. injection Hx as <-. apply (Hs c (Waiting stop) Hw). left. destruct Hcase as [|[= ->]]; done.
    + rewrite lookup_insert_ne in Hx by done. by eapply Hs.
Qed.
Lemma reach_group_ok g : stopper_reach g -> group_ok g.
Proof. induction 1 as [|g g' _ IH Hst]; [split; [by vm_compute|done]|by eapply group_step]. Qed.

(** the workers end, one after the other *)
Inductive worker_ends : group -> group -> Prop :=
  | we_return g w : g_workers g !! w = Some Running -> worker_ends g (worker_returns g w)
  | we_done g w g' : g_workers g !! w = Some Returning -> worker_Done g w = Ok g' -> worker_ends g g'.
Lemma busy_cons ws : size (busy ws) <> 0%nat -> exists w x, ws !! w = Some x /\ x <> Gone.
Proof.
  intros Hs. destruct (map_choose (busy ws)) as (w & x & Hx); [by intros E; rewrite E in Hs|]. apply map_lookup_filter_Some in Hx as [Hx Hg]. by exists w, x.
Qed.
Definition left_to_do (ws : gmap nat worker) : nat := (size (busy ws) + size (filter (fun p => snd p = Running) ws))%nat.
Lemma ends_somewhere n : forall g, group_ok g -> (left_to_do (g_workers g) <= n)%nat ->
  exists g', rtc worker_ends g g' /\ st_wg (g_stopper g') = 0 /\ g_callers g' = g_callers g /\ st_closed (g_stopper g') = st_closed (g_stopper g).
Proof.
  induction n as [|n IH]; intros g Hok Hn.
  { exists g. split; [done|]. split; [|done]. rewrite (go_count _ Hok). unfold left_to_do in Hn. lia. }
  destruct (decide (size (busy (g_workers g)) = 0%nat)) as [E|Hne]; [exists g; split; [done|]; split; [rewrite (go_count _ Hok); lia|done]|].
  destruct (busy_cons _ Hne) as (w & x & Hw & Hx). assert (x = Running \/ x = Returning) as [->| ->] by (destruct x; auto; done).
  - destruct (IH (worker_returns g w)) as (g' & Hr & Hz & Hc & Hcl).
    + eapply group_step; [exact Hok|]. by apply ss_return.
    + unfold left_to_do in *. cbn [worker_returns g_workers]. rewrite busy_insert by done. rewrite map_size_insert_Some by (eexists; by eapply busy_lookup).
      rewrite map_filter_insert_False, map_filter_delete by done.
      assert (filter (fun p => snd p = Running) (g_workers g) !! w = Some Running) as Hf by (by apply map_lookup_filter_Some).
      rewrite map_size_delete_Some by (by eexists). assert (size (filter (fun p => snd p = Running) (g_workers g)) <> 0%nat) by (intros E; apply map_size_empty_iff in E; by rewrite E in Hf). lia.
    + exists g'. split; [eapply rtc_l; [by apply we_return|done]|]. done.
  - pose proof (go_count _ Hok) as Hcnt. assert (exists g1, worker_Done g w = Ok g1) as [g1 E1].
    { unfold worker_Done, wg_Add. destruct (Z.ltb_spec (st_wg (g_stopper g) + -1) 0); [lia|]. by eexists. }
    assert (group_ok g1) as Hok1 by (eapply group_step; [exact Hok|]; rewrite <- E1; by apply ss_done).
    assert (g_workers g1 = <[w := Gone]> (g_workers g) /\ g_callers g1 = g_callers g /\ st_closed (g_stopper g1) = st_closed (g_stopper g)) as (Ew & Ec & El).
    { unfold worker_Done, wg_Add in E1. destruct (_ <? 0); [done|]. by injection E1 as <-. }
    destruct (IH g1 Hok1) as (g' & Hr & Hz & Hc & Hcl).
    + unfold left_to_do in *. rewrite Ew, busy_gone, map_filter_insert_False, map_filter_delete by done.
      rewrite map_size_delete_Some by (eexists; by eapply busy_lookup). rewrite map_size_delete_None by (apply map_lookup_filter_None; right; intros y; rewrite Hw; by intros [= <-]). lia.
    + exists g'. split; [eapply rtc_l; [by eapply we_done|done]|]. by rewrite Hc, Hcl, Ec, El.
Qed.

(** C27: In every interleaving of workers and callers Wait and Stop return only when every worker
    has returned and called Done, after Stop the channel is closed by then, the counter never
    becomes negative, a caller that waits can always go on once the workers end, and a second Stop
    or Close panics. *)
Theorem stopper_joins g : stopper_reach g ->
  (forall w, g_workers g !! w = Some Returning -> exists g', worker_Done g w = Ok g') /\
  (forall c stop g', stopper_step g (Ok g') -> g_callers g !! c <> Some (Released stop) -> g_callers g' !! c = Some (Released stop) ->
    (forall w x, g_workers g' !! w = Some x -> x = Gone) /\ (stop = true -> ShouldStop (g_stopper g') = true)) /\
  (forall c stop, g_callers g !! c = Some (Waiting stop) -> exists g1, rtc worker_ends g g1 /\ stopper_step g1 (Ok (released g1 c stop))) /\
  (ShouldStop (g_stopper g) = true -> forall c, Stop g c = Panic /\ Stopper_Close g = Panic).
Proof.
  intros Hr. pose proof (reach_group_ok g Hr) as Hok. split; [|split; [|split]].
  - intros w Hw. unfold worker_Done, wg_Add. pose proof (go_count _ Hok) as Hcnt. pose proof (busy_lookup _ _ _ Hw ltac:(done)) as Hb.
    assert (size (busy (g_workers g)) <> 0%nat) by (intros E; apply map_size_empty_iff in E; by rewrite E in Hb).
    destruct (Z.ltb_spec (st_wg (g_stopper g) + -1) 0); [lia|]. by eexists.
  - intros c stop g' Hst Hw Hrel. pose proof (group_step g g' Hok Hst) as Hok'.
    assert (st_wg (g_stopper g') = 0) as Hz.
    { inversion Hst as [g0 w Hx Eg Er|g0 w Hx Eg Er|g0 w Hx Eg Er|g0 c' Hx Eg Er|g0 c' Hx Eg Er|g0 Eg Er|g0 c' stop' Hx Hz Eg Er]; subst g0.
      - unfold RunWorker, wg_Add in Er. destruct (_ <? 0); [done|]. injection Er as <-. cbn in Hrel. congruence.
      - subst g'. cbn in Hrel. congruence.
      - unfold worker_Done, wg_Add in Er. destruct (_ <? 0); [done|]. injection Er as <-. cbn in Hrel. congruence.
      - subst g'. cbn in Hrel. destruct (decide (c' = c)) as [->|]; [by rewrite lookup_insert_eq in Hrel|]. rewrite lookup_insert_ne in Hrel by done. congruence.
      - unfold Stop, close_chan in Er. destruct (st_closed _); [done|]. injection Er as <-. cbn in Hrel. destruct (decide (c' = c)) as [->|]; [by rewrite lookup_insert_eq in Hrel|]. rewrite lookup_insert_ne in Hrel by done. congruence.
      - unfold Stopper_Close, close_chan in Er. destruct (st_closed _); [done|]. injection Er as <-. cbn in Hrel. congruence.
      - by subst g'. }
    split.
    + intros w x Hx. destruct (decide (x = Gone)) as [|Hne]; [done|exfalso]. pose proof (busy_lookup _ _ _ Hx Hne) as Hb. rewrite (go_count _ Hok') in Hz.
      assert (size (busy (g_workers g')) = 0%nat) as E by lia. apply map_size_empty_iff in E. by rewrite E in Hb.
    + intros ->. apply (go_stop _ Hok' c (Released true) Hrel). by right.
  - intros c stop Hw. destruct (ends_somewhere _ g Hok (le_n _)) as (g1 & Hrt & Hz & Hc & _). exists g1. split; [done|]. apply ss_release; [by rewrite Hc|done].
  - intros Hcl c. unfold ShouldStop in Hcl. unfold Stop, Stopper_Close, close_chan. by rewrite Hcl.
Qed.
