(* ===== verification/Pool.v ===== *)
(** The connection pools (conn/pool.go): one shared connection per address,
    created by whoever asks first, with a health that ages. *)
From Stdlib Require Import ZArith Lia.
From stdpp Require Import base option list numbers gmap sets strings.
From S2P Require Import Prelude Utils.

(** ** The code *)

(** [p_lastEcho] is [None] for the zero time; [p_open] until the connection is closed *)
Record Pool := mkPool { p_Addr : bytes; p_lastEcho : option Z; p_open : bool }.
(** [p_all] is the map of the struct, pools by address; the pools themselves are shared
    by pointer and kept in [p_store]. [p_pending] are the goroutines inside
    [Connect], from the first look at the map to the lock, with the pool they
    have created; [p_closing] the pools whose [shutdown] runs in a goroutine of its
    own and waits for the monitor before it closes the connection; [p_removing]
    the pool that a [remove] shuts down while it holds the lock of the map. *)
Record Pools := mkPools {
  p_all : gmap bytes nat; p_store : gmap nat Pool; p_next : nat;
  p_pending : gmap nat (bytes * option nat); p_closing : gset nat; p_removing : option nat }.
Definition with_pending (ps : Pools) (pend : gmap nat (bytes * option nat)) : Pools :=
  mkPools (p_all ps) (p_store ps) (p_next ps) pend (p_closing ps) (p_removing ps).
Definition with_all (ps : Pools) (all : gmap bytes nat) : Pools :=
  mkPools all (p_store ps) (p_next ps) (p_pending ps) (p_closing ps) (p_removing ps).
Definition with_closing (ps : Pools) (c : gset nat) : Pools :=
  mkPools (p_all ps) (p_store ps) (p_next ps) (p_pending ps) c (p_removing ps).
Definition with_removing (ps : Pools) (r : option nat) : Pools :=
  mkPools (p_all ps) (p_store ps) (p_next ps) (p_pending ps) (p_closing ps) r.

Definition ErrNoConnection : error := Errorf "No connection exists".
Definition ErrUnhealthyConnection : error := Errorf "Unhealthy connection".
(** in nanoseconds *)
Definition EchoDuration : Z := 2 * 1000000000.

Definition IsHealthy (now : Z) (p : option Pool) : bool :=
  match p with
  | None => false
  | Some p => match p_lastEcho p with Some t => now - t <? 4 * EchoDuration | None => false end
  end.
Definition Pools_Get (ps : Pools) (now : Z) (addr : bytes) : outcome nat :=
  match p_all ps !! addr with
  | None => Err ErrNoConnection
  | Some i => if IsHealthy now (p_store ps !! i) then Ok i else Err ErrUnhealthyConnection
  end.
Definition set_pool (ps : Pools) (i : nat) (f : Pool -> Pool) : Pools :=
  mkPools (p_all ps) (alter f i (p_store ps)) (p_next ps) (p_pending ps) (p_closing ps) (p_removing ps).
(** the end of [shutdown], after the monitor has stopped: [p.conn.Close()] *)
Definition close_conn (ps : Pools) (i : nat) : Pools := set_pool ps i (fun p => mkPool (p_Addr p) (p_lastEcho p) false).
Definition SetUnhealthy (ps : Pools) (i : nat) : Pools := set_pool ps i (fun p => mkPool (p_Addr p) None (p_open p)).
(** a message of the stream in [listenToHeartbeat] *)
Definition heartbeat (ps : Pools) (i : nat) (now : Z) : Pools := set_pool ps i (fun p => mkPool (p_Addr p) (Some now) (p_open p)).

(** [remove] takes the lock and, for a known address, keeps it until [shutdown] returns *)
Definition remove_first (ps : Pools) (addr : bytes) : Pools :=
  match p_all ps !! addr with
  | None => ps
  | Some i => with_removing (with_all ps (delete addr (p_all ps))) (Some i)
  end.
Definition remove_second (ps : Pools) : Pools :=
  match p_removing ps with
  | None => ps
  | Some i => with_removing (close_conn ps i) None
  end.
(** the goroutine of [go pool.shutdown()] ends *)
Definition shutdown_end (ps : Pools) (i : nat) : Pools := with_closing (close_conn ps i) (p_closing ps ∖ {[i]}).
Definition newPool (ps : Pools) (now : Z) (addr : bytes) : Pools * nat :=
  (mkPools (p_all ps) (<[p_next ps := mkPool addr (Some now) true]> (p_store ps)) (S (p_next ps)) (p_pending ps) (p_closing ps) (p_removing ps), p_next ps).

(** what a call of [Connect] has come to: it returned (nil when the dial failed) or goes on *)
Inductive progress := Returned (addr : bytes) (i : option nat) | Pending.
(** [getPool] *)
Definition Connect_first (ps : Pools) (g : nat) (addr : bytes) : Pools * progress :=
  match p_all ps !! addr with
  | Some i => (ps, Returned addr (Some i))
  | None => (with_pending ps (<[g := (addr, None)]> (p_pending ps)), Pending)
  end.
(** [newPool], without a lock; [dialled] whether the dial succeeded *)
Definition Connect_dial (ps : Pools) (g : nat) (now : Z) (dialled : bool) : Pools * progress :=
  match p_pending ps !! g with
  | Some (addr, None) =>
      if dialled then
        let '(ps, i) := newPool ps now addr in (with_pending ps (<[g := (addr, Some i)]> (p_pending ps)), Pending)
      else (with_pending ps (delete g (p_pending ps)), Returned addr None)
  | _ => (ps, Pending)
  end.
(** under the lock: somebody else may have been faster, then [go pool.shutdown()] *)
Definition Connect_second (ps : Pools) (g : nat) : Pools * progress :=
  match p_pending ps !! g with
  | Some (addr, Some i) =>
      let ps := with_pending ps (delete g (p_pending ps)) in
      match p_all ps !! addr with
      | Some j => (with_closing ps ({[i]} ∪ p_closing ps), Returned addr (Some j))
      | None => (with_all ps (<[addr := i]> (p_all ps)), Returned addr (Some i))
      end
  | _ => (ps, Pending)
  end.

(** ** Interleavings *)

Inductive pool_event :=
  | EvConnect (g : nat) (addr : bytes)
  | EvDial (g : nat) (now : Z) (dialled : bool)
  | EvLock (g : nat)
  | EvRemove (addr : bytes)
  | EvRemoved
  | EvClosed (i : nat)
  | EvEcho (i : nat) (now : Z)
  | EvUnhealthy (i : nat).
Definition no_pools : Pools := mkPools ∅ ∅ 0 ∅ ∅ None.
(** what takes the lock of the map waits for a [remove] that holds it *)
Inductive pool_step : Pools -> pool_event -> Pools -> progress -> Prop :=
  | st_connect ps g addr : p_pending ps !! g = None -> p_removing ps = None ->
      pool_step ps (EvConnect g addr) (fst (Connect_first ps g addr)) (snd (Connect_first ps g addr))
  | st_dial ps g now dialled : pool_step ps (EvDial g now dialled) (fst (Connect_dial ps g now dialled)) (snd (Connect_dial ps g now dialled))
  | st_lock ps g : p_removing ps = None -> pool_step ps (EvLock g) (fst (Connect_second ps g)) (snd (Connect_second ps g))
  | st_remove ps addr : p_removing ps = None -> pool_step ps (EvRemove addr) (remove_first ps addr) Pending
  | st_removed ps : pool_step ps EvRemoved (remove_second ps) Pending
  | st_closed ps i : i ∈ p_closing ps -> pool_step ps (EvClosed i) (shutdown_end ps i) Pending
  | st_echo ps i now : pool_step ps (EvEcho i now) (heartbeat ps i now) Pending
  | st_unhealthy ps i : pool_step ps (EvUnhealthy i) (SetUnhealthy ps i) Pending.
Inductive pool_reach : Pools -> Prop :=
  | reach_init : pool_reach no_pools
  | reach_step ps ev ps' r : pool_reach ps -> pool_step ps ev ps' r -> pool_reach ps'.

(** ** The invariant *)

Definition open_at (ps : Pools) (i : nat) (addr : bytes) : Prop := exists p, p_store ps !! i = Some p /\ p_Addr p = addr /\ p_open p = true.
(** in the hands of a goroutine that connects, or on the way to be closed *)
Definition in_hand (ps : Pools) (i : nat) : Prop := exists g addr, p_pending ps !! g = Some (addr, Some i).
Definition shutting (ps : Pools) (i : nat) : Prop := i ∈ p_closing ps \/ p_removing ps = Some i.
(** an open connection has an owner: the map, one goroutine, or a shutdown *)
Record pools_inv (ps : Pools) : Prop := mk_pools_inv {
  pv_all : forall addr i, p_all ps !! addr = Some i -> open_at ps i addr /\ ~ in_hand ps i /\ ~ shutting ps i;
  pv_pending : forall g addr i, p_pending ps !! g = Some (addr, Some i) -> open_at ps i addr /\ ~ shutting ps i;
  pv_distinct : forall g g' a a' i, p_pending ps !! g = Some (a, Some i) -> p_pending ps !! g' = Some (a', Some i) -> g = g';
  pv_owned : forall i addr, open_at ps i addr -> p_all ps !! addr = Some i \/ in_hand ps i \/ shutting ps i;
  pv_shutting : forall i, shutting ps i -> is_Some (p_store ps !! i);
  pv_next : forall i p, p_store ps !! i = Some p -> (i < p_next ps)%nat }.

Lemma no_pools_inv : pools_inv no_pools.
Proof.
  split; cbn [no_pools p_all p_store p_pending].
  - intros addr i E. by rewrite lookup_empty in E.
  - intros g addr i E. by rewrite lookup_empty in E.
  - intros g g' a a' i E. by rewrite lookup_empty in E.
  - intros i addr (p & E & _). cbn in E. by rewrite lookup_empty in E.
  - intros i [E|E]; cbn in E; [set_solver|done].
  - intros i p E. by rewrite lookup_empty in E.
Qed.
Lemma open_at_addr ps i a a' : open_at ps i a -> open_at ps i a' -> a = a'.
Proof. intros (p & E & <- & _) (p' & E' & <- & _). congruence. Qed.

(** *** One pool changes *)

Lemma set_pool_store ps i f j p : p_store (set_pool ps i f) !! j = Some p -> exists q, p_store ps !! j = Some q.
Proof. cbn [set_pool p_store]. rewrite lookup_alter. destruct (decide (i = j)) as [->|]; [|by eauto]. destruct (p_store ps !! j) as [q|]; [by exists q|discriminate]. Qed.
Lemma set_pool_known ps i f j : is_Some (p_store ps !! j) -> is_Some (p_store (set_pool ps i f) !! j).
Proof. intros [p E]. cbn [set_pool p_store]. rewrite lookup_alter. destruct (decide (i = j)) as [->|]; rewrite E; [by exists (f p)|by exists p]. Qed.
(** changes that keep addresses and whether pools are open *)
Lemma open_at_set ps i f : (forall p, p_Addr (f p) = p_Addr p /\ p_open (f p) = p_open p) -> forall j addr, open_at (set_pool ps i f) j addr <-> open_at ps j addr.
Proof.
  intros Hf j addr. unfold open_at, set_pool. cbn [p_store]. rewrite lookup_alter. destruct (decide (i = j)) as [->|Hne]; [|done].
  split; intros (p & E & Ha & Ho).
  - destruct (p_store ps !! j) as [q|]; cbn in E; [|done]. injection E as <-. destruct (Hf q) as [E1 E2]. exists q. by rewrite <- E1, <- E2.
  - exists (f p). rewrite E. destruct (Hf p) as [E1 E2]. by rewrite E1, E2.
Qed.
Lemma set_pool_inv ps i f : (forall p, p_Addr (f p) = p_Addr p /\ p_open (f p) = p_open p) -> pools_inv ps -> pools_inv (set_pool ps i f).
Proof.
  intros Hf [H1' H2' H3' H4' H5' H6']. pose proof (open_at_set ps i f Hf) as Ho. split.
  - intros addr j E. destruct (H1' addr j E) as [E1 E2]. split; [by apply Ho|exact E2].
  - intros g addr j E. destruct (H2' g addr j E) as [E1 E2]. split; [by apply Ho|exact E2].
  - exact H3'.
  - intros j addr E. apply Ho in E. by apply H4'.
  - intros j E. by apply set_pool_known, H5'.
  - intros j p E. destruct (set_pool_store _ _ _ _ _ E) as [q Eq]. by eapply H6'.
Qed.
Lemma open_at_close ps i j addr : open_at (close_conn ps i) j addr <-> j <> i /\ open_at ps j addr.
Proof.
  unfold open_at, close_conn, set_pool. cbn [p_store]. rewrite lookup_alter. destruct (decide (i = j)) as [->|Hne].
  2: { split; [intros E; split; [congruence|exact E]|by intros [_ E]]. }
  split; [|by intros [[] _]]. intros (p & E & _ & Ho). destruct (p_store ps !! j) as [q|]; cbn in E; [|done]. by injection E as <-.
Qed.
(** a shutdown ends: the connection was nobody else's *)
Lemma close_inv ps i c r : pools_inv ps -> shutting ps i -> c ⊆ p_closing ps -> (r = None \/ r = p_removing ps) ->
  (forall j, shutting ps j -> j = i \/ j ∈ c \/ r = Some j) -> pools_inv (with_removing (with_closing (close_conn ps i) c) r).
Proof.
  intros [H1' H2' H3' H4' H5' H6'] Hsh Hc Hr Hrest.
  assert (forall j, shutting (with_removing (with_closing (close_conn ps i) c) r) j -> shutting ps j) as Hs.
  { intros j [E|E]; cbn in E; [left; by apply Hc|]. right. by destruct Hr as [-> | <-]. }
  assert (forall j a, open_at (with_removing (with_closing (close_conn ps i) c) r) j a <-> j <> i /\ open_at ps j a) as Ho by (intros j a; apply open_at_close).
  split.
  - intros a j E. destruct (H1' a j E) as (E1 & E2 & E3). split; [apply Ho; split; [|done]; by intros ->|]. split; [exact E2|]. intros E4. by apply E3, Hs.
  - intros g a j E. destruct (H2' g a j E) as [E1 E2]. split; [apply Ho; split; [|done]; by intros ->|]. intros E4. by apply E2, Hs.
  - exact H3'.
  - intros j a E. apply Ho in E as [Hne E]. destruct (H4' j a E) as [E1|[E1|E1]]; [by left|right; by left|]. right. right.
    destruct (Hrest j E1) as [->|[E2|E2]]; [done|by left|by right].
  - intros j E. apply set_pool_known. by apply H5', Hs.
  - intros j p E. destruct (set_pool_store _ _ _ _ _ E) as [q Eq]. by eapply H6'.
Qed.
Lemma shutdown_end_inv ps i : pools_inv ps -> i ∈ p_closing ps -> pools_inv (shutdown_end ps i).
Proof.
  intros Hi Hin. change (shutdown_end ps i) with (with_removing (with_closing (close_conn ps i) (p_closing ps ∖ {[i]})) (p_removing ps)).
  apply (close_inv ps i (p_closing ps ∖ {[i]}) (p_removing ps) Hi (or_introl Hin)); [set_solver|by right|].
  intros j [E|E]; [|by right; right]. destruct (decide (j = i)); [by left|]. right. left. set_solver.
Qed.
Lemma remove_second_inv ps : pools_inv ps -> pools_inv (remove_second ps).
Proof.
  intros Hi. unfold remove_second. destruct (p_removing ps) as [i|] eqn:Er; [|done].
  apply (close_inv ps i (p_closing ps) None Hi (or_intror Er)); [done|by left|].
  intros j [E|E]; [by right; left|]. left. congruence.
Qed.
Lemma remove_first_inv ps addr : pools_inv ps -> p_removing ps = None -> pools_inv (remove_first ps addr).
Proof.
  intros Hi Hr. unfold remove_first. destruct (p_all ps !! addr) as [i|] eqn:Ea; [|done]. destruct Hi as [H1' H2' H3' H4' H5' H6'].
  destruct (H1' addr i Ea) as (Hoi & Hnh & Hns). split; cbn [with_removing with_all p_all p_pending p_store p_next].
  - intros a j E. apply lookup_delete_Some in E as [Hne E]. destruct (H1' a j E) as (E1 & E2 & E3). split; [done|]. split; [done|].
    intros [E4|E4]; cbn in E4; [apply E3; by left|]. injection E4 as <-. apply Hne. by apply (open_at_addr ps i).
  - intros g a j E. destruct (H2' g a j E) as [E1 E2]. split; [done|]. intros [E4|E4]; cbn in E4; [apply E2; by left|]. injection E4 as <-. apply Hnh. by exists g, a.
  - exact H3'.
  - intros j a E. destruct (H4' j a E) as [E1|[E1|[E1|E1]]]; [|right; by left|right; right; by left|congruence].
    destruct (decide (a = addr)) as [->|Hne]; [right; right; right; cbn; congruence|]. left. apply lookup_delete_Some. split; [congruence|done].
  - intros j [E|E]; cbn in E; [apply H5'; by left|]. injection E as <-. destruct Hoi as (p & E & _). by exists p.
  - exact H6'.
Qed.

(** *** Connecting *)

Lemma newPool_open ps now addr j a : (forall k q, p_store ps !! k = Some q -> (k < p_next ps)%nat) ->
  open_at (fst (newPool ps now addr)) j a <-> (j = p_next ps /\ a = addr) \/ open_at ps j a.
Proof.
  intros Hn. unfold open_at. cbn [newPool fst p_store]. destruct (decide (j = p_next ps)) as [->|Hne].
  - rewrite lookup_insert_eq. split; [intros (p & [= <-] & <- & _); by left|]. intros [[_ ->]|(p & E & _)]; [by eexists|]. apply Hn in E. lia.
  - rewrite lookup_insert_ne by done. split; [by right|]. by intros [[-> _]|E].
Qed.
(** a goroutine without a pool comes or goes *)
Lemma pending_inv ps pend : pools_inv ps -> (forall g a i, pend !! g = Some (a, Some i) <-> p_pending ps !! g = Some (a, Some i)) -> pools_inv (with_pending ps pend).
Proof.
  intros [H1' H2' H3' H4' H5' H6'] Hp. assert (forall i, in_hand (with_pending ps pend) i <-> in_hand ps i) as Hh.
  { intros i. split; intros (g & a & E); exists g, a; by apply Hp. }
  split; [| | | |exact H5'|exact H6'].
  - intros a i E. rewrite Hh. by apply H1'.
  - intros g a i E. by apply (H2' g), Hp.
  - intros g g' a a' i E E'. apply Hp in E, E'. by eapply H3'.
  - intros i a E. rewrite Hh. by apply H4'.
Qed.
Lemma Connect_first_inv ps g addr : pools_inv ps -> p_pending ps !! g = None -> pools_inv (fst (Connect_first ps g addr)).
Proof.
  intros Hi Hg. unfold Connect_first. destruct (p_all ps !! addr) as [i|]; [done|]. apply pending_inv; [done|].
  intros g' a i. rewrite lookup_insert_Some. split; [by intros [[_ [=]]|[_ E]]|]. intros E. right. split; [|done]. intros <-. congruence.
Qed.
Lemma Connect_dial_inv ps g now dialled : pools_inv ps -> pools_inv (fst (Connect_dial ps g now dialled)).
Proof.
  intros Hi. unfold Connect_dial. destruct (p_pending ps !! g) as [[addr [i|]]|] eqn:Eg; [done| |done]. destruct dialled; cycle 1.
  { apply pending_inv; [done|]. intros g' a i. rewrite lookup_delete_Some. split; [tauto|]. intros E. split; [|done]. intros <-. congruence. }
  destruct Hi as [H1' H2' H3' H4' H5' H6']. pose proof (fun j a => newPool_open ps now addr j a H6') as Ho.
  assert (p_store ps !! p_next ps = None) as Hfresh by (destruct (p_store ps !! p_next ps) as [p|] eqn:E; [apply H6' in E; lia|done]).
  assert (forall a, ~ open_at ps (p_next ps) a) as Hno by (intros a (p & E & _); congruence).
  assert (~ shutting ps (p_next ps)) as Hns by (intros E; apply H5' in E as [p E]; congruence).
  cbn [newPool fst] in *. split; cbn [with_pending p_all p_pending p_next p_store].
  - intros a i E. destruct (H1' a i E) as (E1 & E2 & E3). split; [apply Ho; by right|]. split; [|exact E3].
    intros (g' & a' & E'). cbn in E'. apply lookup_insert_Some in E' as [[_ [= _ <-]]|[_ E']]; [by destruct (Hno a)|]. apply E2. by exists g', a'.
  - intros g' a i E. apply lookup_insert_Some in E as [[<- [= <- <-]]|[Hne E]]; [split; [apply Ho; by left|exact Hns]|].
    destruct (H2' g' a i E) as [E1 E2]. split; [apply Ho; by right|exact E2].
  - intros g1 g2 a1 a2 i E1 E2. apply lookup_insert_Some in E1 as [[<- [= <- <-]]|[Hne1 E1]], E2 as [[<- E2]|[Hne2 E2]]; [done| | |by eapply H3'].
    + destruct (Hno a2). by apply (H2' g2).
    + injection E2 as <- <-. destruct (Hno a1). by apply (H2' g1).
  - intros i a E. apply Ho in E as [[-> ->]|E]; [right; left; exists g, addr; cbn; by rewrite lookup_insert_eq|].
    destruct (H4' i a E) as [E1|[(g' & a' & E1)|E1]]; [by left| |right; by right]. right. left. exists g', a'. cbn.
    rewrite lookup_insert_ne; [done|]. intros <-. congruence.
  - intros i E. apply H5' in E as [p E]. exists p. rewrite lookup_insert_ne; [done|]. intros <-. congruence.
  - intros i p E. apply lookup_insert_Some in E as [[<- _]|[_ E]]; [lia|]. apply H6' in E. lia.
Qed.
Lemma Connect_second_inv ps g : pools_inv ps -> pools_inv (fst (Connect_second ps g)).
Proof.
  intros Hi. unfold Connect_second. destruct (p_pending ps !! g) as [[addr [i|]]|] eqn:Eg; [|done..]. destruct Hi as [H1' H2' H3' H4' H5' H6'].
  cbn [with_pending p_all p_closing]. destruct (H2' g addr i Eg) as [Hoi Hns].
  assert (forall j, (exists g' a, delete g (p_pending ps) !! g' = Some (a, Some j)) <-> j <> i /\ in_hand ps j) as Hh.
  { intros j. split.
    - intros (g' & a & E). apply lookup_delete_Some in E as [Hne E]. split; [|by exists g', a]. intros ->. apply Hne. by eapply H3'.
    - intros [Hne (g' & a & E)]. exists g', a. apply lookup_delete_Some. split; [|done]. intros <-. congruence. }
  assert (forall g1 g2 a1 a2 k, delete g (p_pending ps) !! g1 = Some (a1, Some k) -> delete g (p_pending ps) !! g2 = Some (a2, Some k) -> g1 = g2) as Hd.
  { intros g1 g2 a1 a2 k E1 E2. apply lookup_delete_Some in E1 as [_ E1], E2 as [_ E2]. by eapply H3'. }
  assert (in_hand ps i) as Hin by (by exists g, addr).
  destruct (p_all ps !! addr) as [j|] eqn:Ea; cbn [fst]; split; cbn [with_closing with_all with_pending p_all p_pending p_store p_next]; try exact Hd; try exact H6'.
  - intros a k E. destruct (H1' a k E) as (E1 & E2 & E3). split; [exact E1|]. split; [intros F; apply Hh in F as [_ F]; by apply E2|].
    intros [F|F]; cbn in F; [|apply E3; by right]. apply elem_of_union in F as [F%elem_of_singleton|F]; [by subst k|apply E3; by left].
  - intros g' a k E. destruct (proj1 (Hh k) (ex_intro _ g' (ex_intro _ a E))) as [Hne _]. apply lookup_delete_Some in E as [_ E]. destruct (H2' g' a k E) as [E1 E2].
    split; [exact E1|]. intros [F|F]; cbn in F; [|apply E2; by right]. apply elem_of_union in F as [F%elem_of_singleton|F]; [done|apply E2; by left].
  - intros k a E. destruct (decide (k = i)) as [->|Hne]; [right; right; left; apply elem_of_union; left; by apply elem_of_singleton|]. destruct (H4' k a E) as [F|[F|[F|F]]]; [by left| | |].
    + right. left. by apply Hh.
    + right. right. left. apply elem_of_union. by right.
    + right. right. by right.
  - intros k [F|F]; cbn in F; [|apply H5'; by right]. apply elem_of_union in F as [F%elem_of_singleton|F]; [subst k|apply H5'; by left].
    destruct Hoi as (p & E & _). by exists p.
  - intros a k E. apply lookup_insert_Some in E as [[<- <-]|[Hna E]].
    + split; [exact Hoi|]. split; [|exact Hns]. intros F. apply Hh in F as [F _]. done.
    + destruct (H1' a k E) as (E1 & E2 & E3). split; [exact E1|]. split; [|exact E3]. intros F. apply Hh in F as [_ F]. by apply E2.
  - intros g' a k E. apply lookup_delete_Some in E as [_ E]. by apply (H2' g').
  - intros k a E. destruct (decide (k = i)) as [->|Hne].
    + left. rewrite (open_at_addr ps i a addr E Hoi). apply lookup_insert_eq.
    + destruct (H4' k a E) as [F|[F|F]]; [|right; left; by apply Hh|right; by right].
      left. rewrite lookup_insert_ne; [done|]. intros <-. congruence.
  - exact H5'.
Qed.
Lemma pool_step_inv ps ev ps' r : pool_step ps ev ps' r -> pools_inv ps -> pools_inv ps'.
Proof.
  intros Hs Hi. destruct Hs; [by apply Connect_first_inv|by apply Connect_dial_inv|by apply Connect_second_inv|by apply remove_first_inv|by apply remove_second_inv|
    by apply shutdown_end_inv|by apply set_pool_inv|by apply set_pool_inv].
Qed.
Lemma pool_reach_inv ps : pool_reach ps -> pools_inv ps.
Proof. induction 1 as [|ps ev ps' r _ IH Hs]; [apply no_pools_inv|by eapply pool_step_inv]. Qed.

(** C28: In every interleaving of goroutines that connect, dial, disconnect, shut down and receive
    heartbeats, the pool that Connect returns is open and is the one in the map for its address; two
    open connections to one address exist only while one of them is in the hands of a connecting
    goroutine or its shutdown is under way; an open connection that is neither is the one in the
    map, and every connection in the map is open, in nobody's hands and not being shut down. *)
Theorem pools_share ps ev ps' r : pool_reach ps -> pool_step ps ev ps' r ->
  (forall addr i, r = Returned addr (Some i) -> p_all ps' !! addr = Some i /\ open_at ps' i addr) /\
  (forall i j addr, open_at ps' i addr -> open_at ps' j addr -> i <> j ->
    exists k, (k = i \/ k = j) /\ (in_hand ps' k \/ shutting ps' k)) /\
  (forall i addr, open_at ps' i addr -> ~ in_hand ps' i -> ~ shutting ps' i -> p_all ps' !! addr = Some i) /\
  (forall i addr, p_all ps' !! addr = Some i -> open_at ps' i addr /\ ~ in_hand ps' i /\ ~ shutting ps' i).
Proof.
  intros Hr Hs. pose proof (pool_step_inv _ _ _ _ Hs (pool_reach_inv _ Hr)) as Hi. split; [|split; [|split]].
  - intros addr i ->. assert (p_all ps' !! addr = Some i) as E; [|split; [done|by apply (pv_all _ Hi)]].
    inversion Hs as [ps1 g a Hg Hrm E1 E2 E3 E4|ps1 g now d E1 E2 E3 E4|ps1 g Hrm E1 E2 E3 E4| | | | |]; subst.
    + unfold Connect_first in *. by destruct (p_all ps !! a) as [k|] eqn:Ea; cbn [fst snd] in *; [injection E4 as <- <-|].
    + unfold Connect_dial in E4. destruct (p_pending ps !! g) as [[a [k|]]|]; [done| |done]. by destruct d; cbn in E4.
    + unfold Connect_second in *. destruct (p_pending ps !! g) as [[a [k|]]|] eqn:Eg; cbn [snd] in E4; [|done..]. cbn [with_pending p_all] in *.
      destruct (p_all ps !! a) as [k'|] eqn:Ea; cbn [fst snd] in *; injection E4 as <- <-; [done|]. cbn [with_all p_all]. apply lookup_insert_eq.
  - intros i j addr E1 E2 Hne. destruct (pv_owned _ Hi i addr E1) as [F1|F1]; [|exists i; auto]. destruct (pv_owned _ Hi j addr E2) as [F2|F2]; [|exists j; auto]. congruence.
  - intros i addr E Hh Hsh. destruct (pv_owned _ Hi i addr E) as [F|[F|F]]; tauto.
  - intros i addr. apply (pv_all _ Hi).
Qed.
