(* ===== verification/PoolMonitor.v ===== *)
(** The health monitor of a connection pool (conn/pool.go): [MonitorHealth]
    listens to the heartbeats of the peer again and again, [listenToHeartbeat]
    starts a helper that cancels its call when the pool is shut down, and
    [shutdown] waits for all of them. Every step of a goroutine and every
    answer of gRPC is one event. *)
From Stdlib Require Import ZArith Lia.
From stdpp Require Import base option list numbers gmap fin_maps sets relations.
From S2P Require Import Prelude Stopper.

(** ** The code *)

(** [MonitorHealth]: at its [select], in the call of [Heartbeat] with the
    context [k], before starting the helper, in [s.Recv], leaving
    [listenToHeartbeat] (the deferred [cancel]), asleep, returned *)
Inductive monitor_pc := MTop | MDialing (k : nat) | MStarting (k : nat) | MRecv (k : nat) | MLeaving (k : nat) | MSleeping | MDone.
(** the helper: in its [select], or past it *)
Inductive helper_pc := HSelect | HReturning.
Inductive shutdown_pc := NotCalled | Stopping | Returned.
Record monitor := mkMonitor {
  mo_stopper : Stopper; mo_pc : monitor_pc; mo_helpers : gmap nat helper_pc; mo_cancelled : gset nat; mo_ctxs : nat;
  mo_lastEcho : Z; mo_shutdown : shutdown_pc }.
Definition with_pc (m : monitor) (pc : monitor_pc) : monitor :=
  mkMonitor (mo_stopper m) pc (mo_helpers m) (mo_cancelled m) (mo_ctxs m) (mo_lastEcho m) (mo_shutdown m).
Definition with_stopper (m : monitor) (s : Stopper) : monitor :=
  mkMonitor s (mo_pc m) (mo_helpers m) (mo_cancelled m) (mo_ctxs m) (mo_lastEcho m) (mo_shutdown m).
Definition with_helpers (m : monitor) (h : gmap nat helper_pc) : monitor :=
  mkMonitor (mo_stopper m) (mo_pc m) h (mo_cancelled m) (mo_ctxs m) (mo_lastEcho m) (mo_shutdown m).
Definition cancel (m : monitor) (k : nat) : monitor :=
  mkMonitor (mo_stopper m) (mo_pc m) (mo_helpers m) ({[k]} ∪ mo_cancelled m) (mo_ctxs m) (mo_lastEcho m) (mo_shutdown m).

(** [newPool]: a stopper with the monitor as its first worker *)
Definition new_monitor (now : Z) : outcome monitor :=
  let! s := wg_Add NewStopper 1 in Ok (mkMonitor s MTop ∅ ∅ 0 now NotCalled).

(** [MonitorHealth] at its [select]: return, which ends the worker, or make a
    context and call [Heartbeat] *)
Definition MonitorHealth (m : monitor) : outcome monitor :=
  if ShouldStop (mo_stopper m) then
    let! s := wg_Add (mo_stopper m) (-1) in Ok (with_pc (with_stopper m s) MDone)
  else Ok (mkMonitor (mo_stopper m) (MDialing (mo_ctxs m)) (mo_helpers m) (mo_cancelled m) (S (mo_ctxs m)) (mo_lastEcho m) (mo_shutdown m)).
(** [p.stopper.RunWorker] of the helper, then the loop *)
Definition start_helper (m : monitor) (k : nat) : outcome monitor :=
  let! s := wg_Add (mo_stopper m) 1 in
  Ok (with_pc (with_helpers (with_stopper m s) (<[k := HSelect]> (mo_helpers m))) (MRecv k)).
(** a message: the time is noted under the lock *)
Definition echo (m : monitor) (now : Z) : monitor :=
  mkMonitor (mo_stopper m) (mo_pc m) (mo_helpers m) (mo_cancelled m) (mo_ctxs m) now (mo_shutdown m).
(** [defer cancel()], then back in [MonitorHealth] *)
Definition leave (m : monitor) (k : nat) : monitor := with_pc (cancel m k) MSleeping.
Definition helper_exit (m : monitor) (k : nat) : outcome monitor :=
  let! s := wg_Add (mo_stopper m) (-1) in Ok (with_helpers (with_stopper m s) (delete k (mo_helpers m))).
(** [shutdown]: [p.stopper.Stop()] closes the channel and waits *)
Definition shutdown_call (m : monitor) : outcome monitor :=
  let! s := close_chan (mo_stopper m) in
  Ok (mkMonitor s (mo_pc m) (mo_helpers m) (mo_cancelled m) (mo_ctxs m) (mo_lastEcho m) Stopping).
Definition shutdown_return (m : monitor) : monitor :=
  mkMonitor (mo_stopper m) (mo_pc m) (mo_helpers m) (mo_cancelled m) (mo_ctxs m) (mo_lastEcho m) Returned.

(** the pool's own events: a call of [Heartbeat] returns, and [Recv] returns an
    error when its context is cancelled *)
Inductive own_step : monitor -> outcome monitor -> Prop :=
  | ms_top m : mo_pc m = MTop -> own_step m (MonitorHealth m)
  | ms_refused m k : mo_pc m = MDialing k -> own_step m (Ok (with_pc m (MLeaving k)))
  | ms_accepted m k : mo_pc m = MDialing k -> own_step m (Ok (with_pc m (MStarting k)))
  | ms_helper m k : mo_pc m = MStarting k -> own_step m (start_helper m k)
  | ms_cancelled m k : mo_pc m = MRecv k -> k ∈ mo_cancelled m -> own_step m (Ok (with_pc m (MLeaving k)))
  | ms_leave m k : mo_pc m = MLeaving k -> own_step m (Ok (leave m k))
  | ms_wake m : mo_pc m = MSleeping -> own_step m (Ok (with_pc m MTop))
  | ms_over m k : mo_helpers m !! k = Some HSelect -> k ∈ mo_cancelled m -> own_step m (Ok (with_helpers m (<[k := HReturning]> (mo_helpers m))))
  | ms_stop m k : mo_helpers m !! k = Some HSelect -> ShouldStop (mo_stopper m) = true ->
      own_step m (Ok (with_helpers (cancel m k) (<[k := HReturning]> (mo_helpers m))))
  | ms_exit m k : mo_helpers m !! k = Some HReturning -> own_step m (helper_exit m k)
  | ms_released m : mo_shutdown m = Stopping -> st_wg (mo_stopper m) = 0 -> own_step m (Ok (shutdown_return m)).
(** what the peer and the users of the pool do *)
Inductive outer_step : monitor -> outcome monitor -> Prop :=
  | mo_beat m k now : mo_pc m = MRecv k -> k ∉ mo_cancelled m -> outer_step m (Ok (echo m now))
  | mo_broken m k : mo_pc m = MRecv k -> outer_step m (Ok (with_pc m (MLeaving k)))
  | mo_call m : mo_shutdown m = NotCalled -> outer_step m (shutdown_call m).
Inductive monitor_reach (now : Z) : monitor -> Prop :=
  | mr_new m : new_monitor now = Ok m -> monitor_reach now m
  | mr_own m m' : monitor_reach now m -> own_step m (Ok m') -> monitor_reach now m'
  | mr_outer m m' : monitor_reach now m -> outer_step m (Ok m') -> monitor_reach now m'.

(** ** The invariant *)

Definition running (m : monitor) : Z := match mo_pc m with MDone => 0 | _ => 1 end.
Record monitor_ok (m : monitor) : Prop := mk_monitor_ok {
  mk_count : st_wg (mo_stopper m) = running m + Z.of_nat (size (mo_helpers m));
  mk_fresh : forall k, mo_helpers m !! k <> None \/ k ∈ mo_cancelled m -> (k < mo_ctxs m)%nat;
  mk_ctx : forall k, mo_pc m = MDialing k \/ mo_pc m = MStarting k -> (k < mo_ctxs m)%nat /\ mo_helpers m !! k = None;
  mk_recv : forall k, mo_pc m = MRecv k -> (k < mo_ctxs m)%nat /\ (mo_helpers m !! k = Some HSelect \/ k ∈ mo_cancelled m);
  mk_leaving : forall k, mo_pc m = MLeaving k -> (k < mo_ctxs m)%nat;
  (** a helper whose call is over is cancelled *)
  mk_helper : forall k, mo_helpers m !! k <> None -> k ∈ mo_cancelled m \/ mo_pc m = MRecv k \/ mo_pc m = MLeaving k;
  mk_closed : mo_shutdown m = NotCalled <-> ShouldStop (mo_stopper m) = false;
  mk_done : mo_pc m = MDone -> ShouldStop (mo_stopper m) = true;
  mk_returned : mo_shutdown m = Returned -> st_wg (mo_stopper m) = 0 }.

Lemma wg_Add_inv s d s' : wg_Add s d = Ok s' -> s' = mkStopper (st_closed s) (st_wg s + d) /\ 0 <= st_wg s + d.
Proof. unfold wg_Add. destruct (Z.ltb_spec (st_wg s + d) 0); [done|]. intros [= <-]. by split. Qed.
Lemma wg_Add_Ok s d : 0 <= st_wg s + d -> wg_Add s d = Ok (mkStopper (st_closed s) (st_wg s + d)).
Proof. unfold wg_Add. destruct (Z.ltb_spec (st_wg s + d) 0); [lia|done]. Qed.

(** steps that move only the monitor's own program counter *)
Lemma with_pc_ok m pc : monitor_ok m -> mo_pc m <> MDone -> pc <> MDone ->
  (forall k, pc = MDialing k \/ pc = MStarting k -> (k < mo_ctxs m)%nat /\ mo_helpers m !! k = None) ->
  (forall k, pc = MRecv k -> (k < mo_ctxs m)%nat /\ (mo_helpers m !! k = Some HSelect \/ k ∈ mo_cancelled m)) ->
  (forall k, pc = MLeaving k -> (k < mo_ctxs m)%nat) ->
  (forall k, mo_helpers m !! k <> None -> k ∈ mo_cancelled m \/ pc = MRecv k \/ pc = MLeaving k) -> monitor_ok (with_pc m pc).
Proof.
  intros [H1 H2 H3 H4 H5 H6 H7 H8 H9] Hn Hp Hd Hr Hl Hh. split; cbn; try done.
  rewrite H1. f_equal. unfold running. cbn. destruct (mo_pc m), pc; done.
Qed.
Lemma cancel_ok m k : monitor_ok m -> (k < mo_ctxs m)%nat -> monitor_ok (cancel m k).
Proof.
  intros [H1 H2 H3 H4 H5 H6 H7 H8 H9] Hk. split; cbn; try done.
  - intros j [Hj|Hj]; [apply H2; by left|]. apply elem_of_union in Hj as [Hj%elem_of_singleton|Hj]; [by subst|apply H2; by right].
  - intros j Hj. destruct (H4 j Hj) as [? [?|?]]; split; auto. right. by apply elem_of_union_r.
  - intros j Hj. destruct (H6 j Hj) as [?|[?|?]]; auto. left. by apply elem_of_union_r.
Qed.
Lemma start_ok m k m' : monitor_ok m -> mo_pc m = MStarting k -> start_helper m k = Ok m' -> monitor_ok m'.
Proof.
  intros [H1 H2 H3 H4 H5 H6 H7 H8 H9] Hpc E. destruct (H3 k (or_intror Hpc)) as [Hk Hn].
  unfold start_helper in E. destruct (wg_Add _ _) as [s| |] eqn:Es; [|done..]. injection E as <-. apply wg_Add_inv in Es as [-> Hz].
  assert (running m = 1) as Hr by (unfold running; by rewrite Hpc). split; cbn; try done.
  - rewrite map_size_insert_None by done. lia.
  - intros j [Hj|Hj]; [|apply H2; by right]. destruct (decide (j = k)) as [->|Hne]; [done|]. rewrite lookup_insert_ne in Hj by done. apply H2; by left.
  - by intros j [?|?].
  - intros j [= <-]. split; [done|]. left. apply lookup_insert_eq.
  - intros j Hj. destruct (decide (j = k)) as [->|Hne]; [auto|]. rewrite lookup_insert_ne in Hj by done.
    destruct (H6 j Hj) as [?|[?|?]]; [auto|congruence..].
  - intros E. apply H9 in E. pose proof H1. lia.
Qed.
Lemma helper_returning_ok m k : monitor_ok m -> mo_helpers m !! k = Some HSelect -> k ∈ mo_cancelled m ->
  monitor_ok (with_helpers m (<[k := HReturning]> (mo_helpers m))).
Proof.
  intros [H1 H2 H3 H4 H5 H6 H7 H8 H9] Hh Hc. split; cbn; try done.
  - by rewrite map_size_insert_Some by (by eexists).
  - intros j [Hj|Hj]; [|apply H2; by right]. destruct (decide (j = k)) as [->|Hne]; [apply H2; by right|]. rewrite lookup_insert_ne in Hj by done. apply H2; by left.
  - intros j Hj. destruct (H3 j Hj) as [? Hn]. split; [done|]. rewrite lookup_insert_ne; [done|]. intros ->. by rewrite Hh in Hn.
  - intros j Hj. destruct (H4 j Hj) as [? [Hs|?]]; [|auto]. split; [done|]. destruct (decide (j = k)) as [->|Hne]; [auto|]. rewrite lookup_insert_ne by done. auto.
  - intros j Hj. destruct (decide (j = k)) as [->|Hne]; [auto|]. rewrite lookup_insert_ne in Hj by done. auto.
Qed.
Lemma helper_exit_ok m k m' : monitor_ok m -> mo_helpers m !! k = Some HReturning -> helper_exit m k = Ok m' -> monitor_ok m'.
Proof.
  intros [H1 H2 H3 H4 H5 H6 H7 H8 H9] Hh E. unfold helper_exit in E. destruct (wg_Add _ _) as [s| |] eqn:Es; [|done..].
  injection E as <-. apply wg_Add_inv in Es as [-> Hz]. assert (forall j x, delete k (mo_helpers m) !! j = Some x -> j <> k /\ mo_helpers m !! j = Some x) as Hdel.
  { intros j x Hx. apply lookup_delete_Some in Hx as [? ?]. done. }
  assert (forall j, delete k (mo_helpers m) !! j <> None -> mo_helpers m !! j <> None) as Hsub.
  { intros j Hj. destruct (delete k (mo_helpers m) !! j) as [x|] eqn:Ex; [|done]. apply Hdel in Ex as [_ ->]. done. }
  split; cbn; try done.
  - rewrite map_size_delete_Some by (by eexists). assert (size (mo_helpers m) <> 0%nat) by (intros E; apply map_size_empty_iff in E; by rewrite E in Hh).
    unfold running in *. cbn. lia.
  - intros j [Hj|Hj]; [|apply H2; by right]. apply H2. left. by apply Hsub.
  - intros j Hj. destruct (H3 j Hj) as [? Hn]. split; [done|]. destruct (delete k (mo_helpers m) !! j) eqn:Ex; [|done]. apply Hdel in Ex as [_ Ex]. congruence.
  - intros j Hj. destruct (H4 j Hj) as [? [Hs|?]]; [|auto]. split; [done|]. left. rewrite lookup_delete_ne; [done|]. intros ->. congruence.
  - intros j Hj. apply H6. by apply Hsub.
  - intros E. specialize (H9 E). pose proof (Nat2Z.is_nonneg (size (mo_helpers m))). assert (0 <= running m) by (unfold running; destruct (mo_pc m); lia).
    assert (size (mo_helpers m) <> 0%nat) by (intros E'; apply map_size_empty_iff in E'; by rewrite E' in Hh). lia.
Qed.
Lemma MonitorHealth_ok m m' : monitor_ok m -> mo_pc m = MTop -> MonitorHealth m = Ok m' -> monitor_ok m'.
Proof.
  intros [H1 H2 H3 H4 H5 H6 H7 H8 H9] Hpc E. unfold MonitorHealth in E. destruct (ShouldStop _) eqn:Est.
  - destruct (wg_Add _ _) as [s| |] eqn:Es; [|done..]. injection E as <-. apply wg_Add_inv in Es as [-> Hz].
    assert (running m = 1) as Hr by (unfold running; by rewrite Hpc). split; cbn; try done.
    + lia.
    + by intros j [?|?].
    + intros j Hj. destruct (H6 j Hj) as [?|[?|?]]; [auto|congruence..].
    + unfold ShouldStop in Est. by rewrite Est.
    + intros E. apply H9 in E. lia.
  - injection E as <-. assert (mo_helpers m !! mo_ctxs m = None) as Hn.
    { destruct (mo_helpers m !! mo_ctxs m) eqn:E; [|done]. assert (mo_ctxs m < mo_ctxs m)%nat; [|lia]. apply H2. left. by rewrite E. }
    split; cbn; try done.
    + rewrite H1. unfold running. by rewrite Hpc.
    + intros j Hj. apply H2 in Hj. lia.
    + intros j [[= <-]|?]; [|done]. split; [lia|done].
    + intros j Hj. destruct (H6 j Hj) as [?|[?|?]]; [auto|congruence..].
    + by rewrite Est.
Qed.
Lemma own_ok m m' : monitor_ok m -> own_step m (Ok m') -> monitor_ok m'.
Proof.
  intros Hok Hst. pose proof Hok as [H1 H2 H3 H4 H5 H6 H7 H8 H9].
  inversion Hst as [? Hpc E E'|? k Hpc E E'|? k Hpc E E'|? k Hpc E E'|? k Hpc Hc E E'|? k Hpc E E'|? Hpc E E'|? k Hh Hc E E'|? k Hh Hs E E'|? k Hh E E'|? Hs Hz E E']; subst.
  - by eapply MonitorHealth_ok.
  - apply with_pc_ok; rewrite ?Hpc; try done; [by intros ? [?|?]|by intros j [= <-]; apply H3; left|].
    intros j Hj. destruct (H6 j Hj) as [?|[?|?]]; [auto|congruence..].
  - apply with_pc_ok; rewrite ?Hpc; try done; [by intros j [?|[= <-]]; [|apply H3; left]|].
    intros j Hj. destruct (H6 j Hj) as [?|[?|?]]; [auto|congruence..].
  - by eapply start_ok.
  - apply with_pc_ok; rewrite ?Hpc; try done; [by intros ? [?|?]|by intros j [= <-]; apply H4|].
    intros j Hj. destruct (H6 j Hj) as [?|[?|?]]; [auto| |congruence]. assert (j = k) as -> by congruence. auto.
  - apply (with_pc_ok (cancel m k)); cbn; rewrite ?Hpc; try done; [by apply cancel_ok; [|apply H5]|by intros ? [?|?]|].
    intros j Hj. left. apply elem_of_union. destruct (H6 j Hj) as [?|[?|?]]; [auto|congruence|]. left. assert (j = k) as -> by congruence. by apply elem_of_singleton.
  - apply with_pc_ok; rewrite ?Hpc; try done; [by intros ? [?|?]|].
    intros j Hj. destruct (H6 j Hj) as [?|[?|?]]; [auto|congruence..].
  - by apply helper_returning_ok.
  - apply (helper_returning_ok (cancel m k)); [apply cancel_ok; [done|apply H2; left; by rewrite Hh]|done|]. cbn. apply elem_of_union_l. by apply elem_of_singleton.
  - by eapply helper_exit_ok.
  - split; cbn; try done. split; [done|]. intros Hf. apply H7 in Hf. congruence.
Qed.
Lemma outer_ok m m' : monitor_ok m -> outer_step m (Ok m') -> monitor_ok m'.
Proof.
  intros Hok Hst. pose proof Hok as [H1 H2 H3 H4 H5 H6 H7 H8 H9]. inversion Hst as [? k now Hpc Hc E E'|? k Hpc E E'|? Hs E E']; subst.
  - by split.
  - apply with_pc_ok; rewrite ?Hpc; try done; [by intros ? [?|?]|by intros j [= <-]; apply H4|].
    intros j Hj. destruct (H6 j Hj) as [?|[?|?]]; [auto| |congruence]. assert (j = k) as -> by congruence. auto.
  - unfold shutdown_call, close_chan in E'. destruct (st_closed _) eqn:Ecl; [done|]. injection E' as <-. by split.
Qed.
Lemma monitor_reach_ok now m : monitor_reach now m -> monitor_ok m.
Proof.
  induction 1 as [m Hn|m m' _ IH Hst|m m' _ IH Hst]; [|by eapply own_ok|by eapply outer_ok].
  cbn in Hn. injection Hn as <-. split; cbn; try done; [|by intros k [?|?]].
  intros k [Hk|Hk]; [done|by apply not_elem_of_empty in Hk].
Qed.

(** ** It stops *)

Definition pc_rank (pc : monitor_pc) : nat :=
  match pc with MDone => 0 | MTop => 1 | MSleeping => 2 | MLeaving _ => 3 | MRecv _ => 4 | MStarting _ => 7 | MDialing _ => 8 end.
Definition helper_rank (h : helper_pc) : nat := match h with HSelect => 2 | HReturning => 1 end.
Definition helpers_rank (hs : gmap nat helper_pc) : nat := map_fold (fun _ h n => helper_rank h + n)%nat 0%nat hs.
Definition shutdown_rank (s : shutdown_pc) : nat := match s with Returned => 0 | _ => 1 end.
Definition monitor_rank (m : monitor) : nat := (pc_rank (mo_pc m) + helpers_rank (mo_helpers m) + shutdown_rank (mo_shutdown m))%nat.

Lemma helpers_rank_insert hs k h : hs !! k = None -> helpers_rank (<[k := h]> hs) = (helper_rank h + helpers_rank hs)%nat.
Proof. intros Hk. unfold helpers_rank. rewrite map_fold_insert_L; [done|lia|done]. Qed.
Lemma helpers_rank_delete hs k h : hs !! k = Some h -> helpers_rank hs = (helper_rank h + helpers_rank (delete k hs))%nat.
Proof. intros Hk. rewrite <- (insert_delete_id hs k h Hk) at 1. apply helpers_rank_insert, lookup_delete_eq. Qed.
Lemma helpers_rank_set hs k h h' : hs !! k = Some h -> (helpers_rank (<[k := h']> hs) + helper_rank h = helpers_rank hs + helper_rank h')%nat.
Proof.
  intros Hk. rewrite (helpers_rank_delete hs k h Hk). rewrite <- insert_delete_eq, helpers_rank_insert by apply lookup_delete_eq. lia.
Qed.
(** the rank goes down once the channel is closed *)
Lemma own_rank m m' : ShouldStop (mo_stopper m) = true -> (forall k, mo_pc m = MStarting k -> mo_helpers m !! k = None) ->
  own_step m (Ok m') -> (monitor_rank m' < monitor_rank m)%nat /\ ShouldStop (mo_stopper m') = true.
Proof.
  intros Hs Hfr Hst. unfold monitor_rank.
  inversion Hst as [? Hpc E E'|? k Hpc E E'|? k Hpc E E'|? k Hpc E E'|? k Hpc Hc E E'|? k Hpc E E'|? Hpc E E'|? k Hh Hc E E'|? k Hh Hcl E E'|? k Hh E E'|? Hsd Hz E E']; subst;
    try (cbn; rewrite Hpc; cbn; split; [lia|done]).
  - unfold MonitorHealth in E'. rewrite Hs in E'. destruct (wg_Add _ _) as [s| |] eqn:Es; [|done..]. injection E' as <-. apply wg_Add_inv in Es as [-> _].
    cbn. rewrite Hpc. cbn. split; [lia|done].
  - unfold start_helper in E'. destruct (wg_Add _ _) as [s| |] eqn:Es; [|done..]. injection E' as <-. apply wg_Add_inv in Es as [-> _].
    cbn. rewrite Hpc, helpers_rank_insert by (by apply Hfr). cbn. split; [lia|done].
  - cbn. pose proof (helpers_rank_set _ _ _ HReturning Hh) as Hr. cbn in Hr. split; [lia|done].
  - cbn. pose proof (helpers_rank_set _ _ _ HReturning Hh) as Hr. cbn in Hr. split; [lia|done].
  - unfold helper_exit in E'. destruct (wg_Add _ _) as [s| |] eqn:Es; [|done..]. injection E' as <-. apply wg_Add_inv in Es as [-> _].
    cbn. rewrite (helpers_rank_delete _ _ _ Hh). cbn. split; [lia|done].
  - cbn. rewrite Hsd. cbn. split; [lia|done].
Qed.
Lemma outer_rank m m' : monitor_ok m -> ShouldStop (mo_stopper m) = true -> outer_step m (Ok m') ->
  (monitor_rank m' <= monitor_rank m)%nat /\ ShouldStop (mo_stopper m') = true.
Proof.
  intros Hok Hs Hst. unfold monitor_rank. inversion Hst as [? k now Hpc Hc E E'|? k Hpc E E'|? Hsd E E']; subst; [done|cbn; rewrite Hpc; cbn; split; [lia|done]|].
  apply (mk_closed _ Hok) in Hsd. congruence.
Qed.
Lemma finished m : monitor_ok m -> st_wg (mo_stopper m) = 0 -> mo_pc m = MDone /\ mo_helpers m = ∅.
Proof.
  intros Hok Hz. pose proof (mk_count _ Hok) as Hc. rewrite Hz in Hc. unfold running in Hc.
  split; [destruct (mo_pc m); try done; lia|]. apply map_size_empty_iff. destruct (mo_pc m); lia.
Qed.
(** a counter above zero has somebody who can move *)
Lemma own_not_stuck m : monitor_ok m -> ShouldStop (mo_stopper m) = true -> mo_shutdown m <> Returned -> exists m', own_step m (Ok m').
Proof.
  intros Hok Hs Hr. pose proof (mk_count _ Hok) as Hc. destruct (map_choose_or_empty (mo_helpers m)) as [(k & h & Hk)|He].
  - destruct h; [eexists; by eapply ms_stop|]. pose proof (ms_exit m k Hk) as Hst. unfold helper_exit in Hst.
    rewrite wg_Add_Ok in Hst; [by eexists|]. assert (size (mo_helpers m) <> 0%nat) by (intros E; apply map_size_empty_iff in E; by rewrite E in Hk).
    assert (0 <= running m) by (unfold running; destruct (mo_pc m); lia). lia.
  - destruct (mo_pc m) as [|k|k|k|k| |] eqn:Hpc.
    + pose proof (ms_top m Hpc) as Hst. unfold MonitorHealth in Hst. rewrite Hs in Hst. rewrite wg_Add_Ok in Hst; [by eexists|].
      unfold running in Hc. rewrite Hpc in Hc. lia.
    + eexists. by eapply ms_refused.
    + pose proof (ms_helper m k Hpc) as Hst. unfold start_helper in Hst. rewrite wg_Add_Ok in Hst; [by eexists|].
      unfold running in Hc. rewrite Hpc in Hc. lia.
    + destruct (mk_recv _ Hok k Hpc) as [_ [Hh|Hcn]]; [by rewrite He, lookup_empty in Hh|]. eexists. by eapply ms_cancelled.
    + eexists. by eapply ms_leave.
    + eexists. by eapply ms_wake.
    + eexists. apply ms_released.
      * destruct (mo_shutdown m) eqn:E; [|done|done]. apply (mk_closed _ Hok) in E. congruence.
      * rewrite Hc. unfold running. by rewrite Hpc, He, map_size_empty.
Qed.
Lemma own_total m r : monitor_ok m -> own_step m r -> exists m', r = Ok m'.
Proof.
  intros Hok Hst. pose proof (mk_count _ Hok) as Hc.
  inversion Hst as [? Hpc E E'|? k Hpc E E'|? k Hpc E E'|? k Hpc E E'|? k Hpc Hcn E E'|? k Hpc E E'|? Hpc E E'|? k Hh Hcn E E'|? k Hh Hcl E E'|? k Hh E E'|? Hsd Hz E E']; subst; try by eexists.
  - unfold MonitorHealth. destruct (ShouldStop _); [|by eexists]. unfold running in Hc. rewrite Hpc in Hc. rewrite wg_Add_Ok by lia. by eexists.
  - unfold start_helper. unfold running in Hc. rewrite Hpc in Hc. rewrite wg_Add_Ok by lia. by eexists.
  - unfold helper_exit. assert (size (mo_helpers m) <> 0%nat) by (intros E; apply map_size_empty_iff in E; by rewrite E in Hh).
    assert (0 <= running m) by (unfold running; destruct (mo_pc m); lia). rewrite wg_Add_Ok by lia. by eexists.
Qed.

(** C29: In every interleaving the health monitor of a connection never panics; once shutdown is
    called every step of the monitor and of its helper goroutines brings the end closer, nothing the
    peer does can move it away, and when no step is left shutdown has returned; by then the monitor
    and all helpers are gone and nothing happens any more. *)
Theorem monitor_stops now m : monitor_reach now m ->
  (forall r, own_step m r -> exists m', r = Ok m') /\
  (ShouldStop (mo_stopper m) = true ->
     (forall m', own_step m (Ok m') -> (monitor_rank m' < monitor_rank m)%nat /\ ShouldStop (mo_stopper m') = true) /\
     (forall m', outer_step m (Ok m') -> (monitor_rank m' <= monitor_rank m)%nat /\ ShouldStop (mo_stopper m') = true) /\
     ((forall m', ~ own_step m (Ok m')) -> mo_shutdown m = Returned)) /\
  (mo_shutdown m = Returned -> mo_pc m = MDone /\ mo_helpers m = ∅ /\ forall m', ~ own_step m (Ok m') /\ ~ outer_step m (Ok m')).
Proof.
  intros Hr. pose proof (monitor_reach_ok _ _ Hr) as Hok. split; [intros r; by apply own_total|split].
  - intros Hs. split; [|split; [intros m'; by apply outer_rank|]].
    + intros m'. apply own_rank; [done|]. intros k Hk. apply (mk_ctx _ Hok). by right.
    + intros Hno. destruct (mo_shutdown m) eqn:E; [..|done]; destruct (own_not_stuck m Hok Hs ltac:(by rewrite E)) as [m' Hm']; by destruct (Hno m').
  - intros Hret. destruct (finished m Hok (mk_returned _ Hok Hret)) as [Hd He]. split; [done|]. split; [done|]. intros m'. split; intros Hst.
    + inversion Hst; subst; try congruence; rewrite He, lookup_empty in *; done.
    + inversion Hst; subst; congruence.
Qed.
