(* ===== verification/Ticker.v ===== *)
(** utils/utils.go: RandomTicker, a goroutine that offers the time on an
    unbuffered channel at random intervals until it is stopped, and its one
    user, the worker of rangepartition/compaction.go. Every step of a goroutine
    and every expiry of the timer is one event. *)
From Stdlib Require Import ZArith Lia.
From stdpp Require Import base option list numbers gmap fin_maps relations.
From S2P Require Import Prelude.

(** ** The code *)

(** [rand.Int63n], which panics on an empty range, from a draw of the source *)
Definition Int63n (n draw : Z) : outcome Z := if n <=? 0 then Panic else Ok (draw mod n).
Definition nextInterval (min max draw : Z) : outcome Z :=
  let! r := Int63n (int64 (max - min)) draw in Ok (int64 (r + min)).

(** the timer [t]: running for [d] nanoseconds, its value waiting in [t.C], or
    received or stopped, which it stays until a new one is made *)
Inductive timer := Armed (d : Z) | Expired | Spent.
(** the goroutine: at the outer [select], at the inner one, with a request of
    [Stop], returning (before the deferred [close(rt.C)]), returned *)
Inductive loop_pc := LoopSelect | LoopFired | LoopStopping (c : nat) | LoopReturning | LoopDone.
(** a call of [Stop]: sending on [stopc], waiting for its channel, returned *)
Inductive stop_pc := StopSending | StopWaiting | StopReturned.
(** [rt_receivers] counts the goroutines blocked receiving from [rt.C],
    [rt_sent] the times it has delivered; [rt_acked] are the closed channels of [Stop] *)
Record RandomTicker := mkRT {
  rt_min : Z; rt_max : Z; rt_timer : timer; rt_loop : loop_pc; rt_closed : bool;
  rt_receivers : nat; rt_sent : nat; rt_stops : gmap nat stop_pc; rt_acked : list nat }.

(** the goroutine runs up to its first [select] *)
Definition NewRandomTicker (min max draw : Z) : outcome RandomTicker :=
  let! d := nextInterval min max draw in
  Ok (mkRT min max (Armed d) LoopSelect false 0 0 ∅ []).

Definition with_loop (rt : RandomTicker) (t : timer) (pc : loop_pc) : RandomTicker :=
  mkRT (rt_min rt) (rt_max rt) t pc (rt_closed rt) (rt_receivers rt) (rt_sent rt) (rt_stops rt) (rt_acked rt).
Definition with_receivers (rt : RandomTicker) (n : nat) : RandomTicker :=
  mkRT (rt_min rt) (rt_max rt) (rt_timer rt) (rt_loop rt) (rt_closed rt) n (rt_sent rt) (rt_stops rt) (rt_acked rt).
Definition with_stop (rt : RandomTicker) (c : nat) (pc : stop_pc) : RandomTicker :=
  mkRT (rt_min rt) (rt_max rt) (rt_timer rt) (rt_loop rt) (rt_closed rt) (rt_receivers rt) (rt_sent rt) (<[c := pc]> (rt_stops rt)) (rt_acked rt).

(** the inner [select]: the send is taken when somebody receives *)
Definition offer (rt : RandomTicker) (draw : Z) : outcome RandomTicker :=
  match rt_receivers rt with
  | S n =>
      let! d := nextInterval (rt_min rt) (rt_max rt) draw in
      Ok (mkRT (rt_min rt) (rt_max rt) (Armed d) LoopSelect (rt_closed rt) n (S (rt_sent rt)) (rt_stops rt) (rt_acked rt))
  | O => Ok (with_loop rt (rt_timer rt) LoopSelect)
  end.
(** [case c := <-rt.stopc], [t.Stop()] *)
Definition take_stop (rt : RandomTicker) (c : nat) : RandomTicker := with_loop (with_stop rt c StopWaiting) Spent (LoopStopping c).
(** [close(c)] *)
Definition ack_stop (rt : RandomTicker) (c : nat) : RandomTicker :=
  mkRT (rt_min rt) (rt_max rt) (rt_timer rt) LoopReturning (rt_closed rt) (rt_receivers rt) (rt_sent rt) (rt_stops rt) (c :: rt_acked rt).
(** the deferred [close(rt.C)] releases the receivers *)
Definition close_ticks (rt : RandomTicker) : RandomTicker :=
  mkRT (rt_min rt) (rt_max rt) (rt_timer rt) LoopDone true 0 (rt_sent rt) (rt_stops rt) (rt_acked rt).

Inductive ticker_step : RandomTicker -> outcome RandomTicker -> Prop :=
  | tk_expire rt d : rt_timer rt = Armed d -> ticker_step rt (Ok (with_loop rt Expired (rt_loop rt)))
  | tk_fire rt : rt_loop rt = LoopSelect -> rt_timer rt = Expired -> ticker_step rt (Ok (with_loop rt Spent LoopFired))
  | tk_offer rt draw : rt_loop rt = LoopFired -> ticker_step rt (offer rt draw)
  | tk_take rt c : rt_loop rt = LoopSelect -> rt_stops rt !! c = Some StopSending -> ticker_step rt (Ok (take_stop rt c))
  | tk_ack rt c : rt_loop rt = LoopStopping c -> ticker_step rt (Ok (ack_stop rt c))
  | tk_close rt : rt_loop rt = LoopReturning -> ticker_step rt (Ok (close_ticks rt))
  | tk_receive rt : rt_closed rt = false -> ticker_step rt (Ok (with_receivers rt (S (rt_receivers rt))))
  | tk_leave rt n : rt_receivers rt = S n -> ticker_step rt (Ok (with_receivers rt n))
  | tk_stop rt c : rt_stops rt !! c = None -> ticker_step rt (Ok (with_stop rt c StopSending))
  | tk_stopped rt c : rt_stops rt !! c = Some StopWaiting -> c ∈ rt_acked rt -> ticker_step rt (Ok (with_stop rt c StopReturned)).
Definition ticks_to (rt rt' : RandomTicker) : Prop := ticker_step rt (Ok rt').
Inductive ticker_reach (min max : Z) : RandomTicker -> Prop :=
  | tr_new draw rt : NewRandomTicker min max draw = Ok rt -> ticker_reach min max rt
  | tr_step rt rt' : ticker_reach min max rt -> ticks_to rt rt' -> ticker_reach min max rt'.

(** ** The invariant *)

(** the call of [Stop] the goroutine has taken, if any *)
Definition taken (rt : RandomTicker) (c : nat) : Prop := rt_stops rt !! c = Some StopWaiting \/ rt_stops rt !! c = Some StopReturned.
Record ticker_ok (min max : Z) (rt : RandomTicker) : Prop := mk_ticker_ok {
  to_min : rt_min rt = min; to_max : rt_max rt = max; to_range : min < max;
  to_armed : forall d, rt_timer rt = Armed d -> min <= d < max;
  to_fired : rt_loop rt = LoopFired -> rt_timer rt = Spent;
  to_alive : rt_loop rt = LoopSelect \/ rt_loop rt = LoopFired -> forall c, ~ taken rt c;
  to_ended : ~ (rt_loop rt = LoopSelect \/ rt_loop rt = LoopFired) -> rt_timer rt = Spent;
  to_one : forall c c', taken rt c -> taken rt c' -> c = c' }.

Lemma nextInterval_ok min max draw : 0 <= min < max -> max < 2 ^ 63 ->
  exists d, nextInterval min max draw = Ok d /\ min <= d < max.
Proof.
  intros Hmin Hmax. unfold nextInterval, Int63n. rewrite int64_small by lia.
  destruct (Z.leb_spec (max - min) 0); [lia|]. cbn [obind]. pose proof (Z.mod_pos_bound draw (max - min) ltac:(lia)).
  rewrite int64_small by lia. eexists. split; [done|lia].
Qed.
Lemma nextInterval_empty min max draw : 0 <= max <= min -> min < 2 ^ 63 -> nextInterval min max draw = Panic.
Proof.
  intros Hmin Hmax. unfold nextInterval, Int63n. assert (int64 (max - min) = max - min) as -> by (unfold int64; rewrite Z.mod_small; lia).
  by destruct (Z.leb_spec (max - min) 0); [|lia].
Qed.

Lemma taken_with_stop rt c pc c' : pc = StopSending -> rt_stops rt !! c = None -> taken (with_stop rt c pc) c' -> taken rt c'.
Proof.
  intros -> Hn [H|H]; cbn in H; apply lookup_insert_Some in H as [[_ ?]|[Hne H]]; try done; first [by left|by right].
Qed.
Lemma taken_again rt c c' : rt_stops rt !! c = Some StopWaiting -> taken (with_stop rt c StopReturned) c' -> taken rt c'.
Proof.
  intros Hw [H|H]; cbn in H; apply lookup_insert_Some in H as [[<- ?]|[Hne H]]; try done; [by left|by left|by right].
Qed.
Lemma taken_insert rt c pc c' : pc <> StopSending -> taken rt c' -> taken (with_stop rt c pc) c'.
Proof.
  intros Hp Ht. unfold taken in *. cbn. destruct (decide (c = c')) as [<-|Hne]; [|by rewrite lookup_insert_ne].
  rewrite lookup_insert_eq. destruct pc; auto; done.
Qed.
Lemma taken_step rt rt' c : ticks_to rt rt' -> taken rt c -> taken rt' c.
Proof.
  intros Hst Ht. inversion Hst as [? d Hd E E'|? Hs Hd E E'|? draw Hs E E'|? c0 Hs Hc E E'|? c0 Hs E E'|? Hs E E'|? Hc E E'|? n Hn E E'|? c0 Hs E E'|? c0 Hs Ha E E']; subst; try exact Ht.
  - unfold offer in E'. destruct (rt_receivers rt); [by injection E' as <-|]. destruct (nextInterval _ _ _); [|done..]. by injection E' as <-.
  - by apply (taken_insert rt c0 StopWaiting).
  - destruct (decide (c = c0)) as [->|Hne]; [by destruct Ht as [Ht|Ht]; rewrite Hs in Ht|].
    unfold taken in *. cbn. by rewrite lookup_insert_ne by done.
  - by apply taken_insert.
Qed.
Lemma ticker_ok_step min max rt rt' : 0 <= min -> max < 2 ^ 63 -> ticker_ok min max rt -> ticks_to rt rt' -> ticker_ok min max rt'.
Proof.
  intros Hmin Hmax [H1 H2 Hr H3 H4 H5 H6 H7] Hst. inversion Hst as [? d Ht E E'|? Hl Ht E E'|? draw Hl E E'|? c Hl Hs E E'|? c Hl E E'|? Hl E E'|? Hc E E'|? n Hn E E'|? c Hs E E'|? c Hs Ha E E']; subst.
  - split; cbn; try done; intros Hl; [by rewrite (H4 Hl) in Ht|by rewrite (H6 Hl) in Ht].
  - split; cbn; try done. intros _ c. apply H5. by left.
  - unfold offer in E'. destruct (rt_receivers rt) as [|n].
    + injection E' as <-. split; cbn; try done; [intros _; apply H5; by right|]. intros Hx. destruct Hx. by left.
    + destruct (nextInterval_ok (rt_min rt) (rt_max rt) draw) as (d & Hd & Hdr); [lia|done|]. rewrite Hd in E'. injection E' as <-.
      split; cbn; try done; [by intros d' [= <-]|intros _; apply H5; by right|]. intros Hx. destruct Hx. by left.
  - assert (forall c', taken (take_stop rt c) c' -> c' = c) as Ht.
    { intros c' Hc'. destruct (decide (c' = c)) as [|Hne]; [done|]. destruct (H5 (or_introl Hl) c').
      destruct Hc' as [H|H]; cbn in H; rewrite lookup_insert_ne in H by done; [by left|by right]. }
    split; try done; [by intros [?|?]|]. intros c1 c2 E1 E2. by rewrite (Ht _ E1), (Ht _ E2).
  - split; cbn; try done; [by intros [?|?]|]. intros _. apply H6. rewrite Hl. by intros [?|?].
  - split; cbn; try done; [by intros [?|?]|]. intros _. apply H6. rewrite Hl. by intros [?|?].
  - by split.
  - by split.
  - split; try done; [intros Hl c' Hc'; apply (H5 Hl c'); by eapply taken_with_stop|].
    intros c1 c2 E1 E2. apply H7; by eapply taken_with_stop.
  - split; try done; [intros Hl c' Hc'; apply (H5 Hl c'); by eapply taken_again|].
    intros c1 c2 E1 E2. apply H7; by eapply taken_again.
Qed.
Lemma ticker_reach_ok min max rt : 0 <= min -> 0 <= max < 2 ^ 63 -> min < 2 ^ 63 -> ticker_reach min max rt -> ticker_ok min max rt.
Proof.
  intros Hmin Hmax Hm. induction 1 as [draw rt Hn|rt rt' Hr IH Hst]; [|eapply ticker_ok_step; [done|lia|done|done]].
  unfold NewRandomTicker in Hn. destruct (Z.le_gt_cases max min); [by rewrite nextInterval_empty in Hn by lia|].
  destruct (nextInterval_ok min max draw) as (d & Hd & Hdr); [lia|lia|]. rewrite Hd in Hn. injection Hn as <-.
  assert (forall c, ~ taken (mkRT min max (Armed d) LoopSelect false 0 0 ∅ []) c) as Hno.
  { intros c [E|E]; cbn in E; by rewrite lookup_empty in E. }
  split; cbn; try done; [by intros d' [= <-]|by intros Hx; destruct Hx; left|]. intros c c' E. by destruct (Hno c).
Qed.

(** no timer is running, and the goroutine does not offer a tick *)
Definition silent (rt : RandomTicker) : Prop := rt_timer rt = Spent /\ rt_loop rt <> LoopFired.
Lemma silent_step rt rt' : silent rt -> ticks_to rt rt' -> silent rt' /\ rt_sent rt' = rt_sent rt.
Proof.
  intros [Ht Hl] Hst. inversion Hst as [? d Hd E E'|? Hs Hd E E'|? draw Hs E E'|? c Hs Hc E E'|? c Hs E E'|? Hs E E'|? Hc E E'|? n Hn E E'|? c Hs E E'|? c Hs Ha E E']; subst; try congruence.
  all: by split.
Qed.
Lemma silent_steps rt rt' : silent rt -> rtc ticks_to rt rt' -> silent rt' /\ rt_sent rt' = rt_sent rt.
Proof.
  intros Hs Hr. induction Hr as [|x y z Hxy _ IH]; [done|]. destruct (silent_step x y Hs Hxy) as [Hy <-]. by apply IH.
Qed.

(** ** The compaction worker *)

(** what the ticker does by itself *)
Inductive ticker_own : RandomTicker -> RandomTicker -> Prop :=
  | ow_expire rt d : rt_timer rt = Armed d -> ticker_own rt (with_loop rt Expired (rt_loop rt))
  | ow_fire rt : rt_loop rt = LoopSelect -> rt_timer rt = Expired -> ticker_own rt (with_loop rt Spent LoopFired)
  | ow_offer rt draw rt' : rt_loop rt = LoopFired -> offer rt draw = Ok rt' -> ticker_own rt rt'.
Lemma ticker_own_step rt rt' : ticker_own rt rt' -> ticks_to rt rt'.
Proof. intros [rt0 d Ht|rt0 Hl Ht|rt0 draw rt1 Hl E]; [by eapply tk_expire|by eapply tk_fire|]. unfold ticks_to. rewrite <- E. by apply tk_offer. Qed.

(** [compact]: before its [select], blocked in it, or returned *)
Inductive compact_pc := CompactTop | CompactSelect | CompactReturned.
Record compactor := mkCompactor { co_pc : compact_pc; co_shouldStop : bool; co_ticker : RandomTicker }.
Definition startCompact (draw : Z) : outcome compactor :=
  let! rt := NewRandomTicker (10 * 60 * 1000000000) (20 * 60 * 1000000000) draw in
  Ok (mkCompactor CompactTop false rt).
Inductive compact : compactor -> compactor -> Prop :=
  | co_enter stop rt : compact (mkCompactor CompactTop stop rt) (mkCompactor CompactSelect stop (with_receivers rt 1))
  (** a tick arrives, and nothing is done with it *)
  | co_tick stop rt rt' : ticker_own rt rt' -> rt_sent rt' <> rt_sent rt ->
      compact (mkCompactor CompactSelect stop rt) (mkCompactor CompactTop stop rt')
  | co_own pc stop rt rt' : ticker_own rt rt' -> rt_sent rt' = rt_sent rt -> compact (mkCompactor pc stop rt) (mkCompactor pc stop rt')
  | co_stop pc rt : compact (mkCompactor pc false rt) (mkCompactor pc true rt)
  | co_return rt : compact (mkCompactor CompactSelect true rt) (mkCompactor CompactReturned true (with_receivers rt 0)).

(** the ticker of a compactor is never told to stop *)
Definition unstopped (rt : RandomTicker) : Prop := (rt_loop rt = LoopSelect \/ rt_loop rt = LoopFired) /\ rt_closed rt = false.
Lemma own_unstopped rt rt' : ticker_own rt rt' -> unstopped rt -> unstopped rt'.
Proof.
  intros [rt0 d Ht|rt0 Hl Ht|rt0 draw rt1 Hl E] [H1 H2]; [by split|by split; [right|]|].
  unfold offer in E. destruct (rt_receivers rt0); [by injection E as <-; split; [left|]|].
  destruct (nextInterval _ _ _); [|done..]. injection E as <-. by split; [left|].
Qed.
Lemma compact_unstopped c c' : rtc compact c c' -> unstopped (co_ticker c) -> unstopped (co_ticker c').
Proof. induction 1 as [|x y z Hxy _ IH]; [done|]. intros Hu. apply IH. by destruct Hxy; cbn in *; eauto using own_unstopped. Qed.

(** C37: The random ticker waits at least min and less than max, but once it fires while nobody
    receives it never ticks again, since the timer is not set anew; after Stop has returned it
    delivers nothing and a second Stop never returns; and the goroutine of the ticker of the
    compaction worker is never stopped when the worker returns. *)
Theorem random_ticker_stalls min max rt : 0 <= min < 2 ^ 63 -> 0 <= max < 2 ^ 63 -> ticker_reach min max rt ->
  (forall d, rt_timer rt = Armed d -> min <= d < max) /\
  (rt_loop rt = LoopFired -> rt_receivers rt = 0%nat -> forall draw rt1 rt2, offer rt draw = Ok rt1 -> rtc ticks_to rt1 rt2 -> rt_sent rt2 = rt_sent rt) /\
  (forall c, rt_stops rt !! c = Some StopReturned -> (forall rt', rtc ticks_to rt rt' -> rt_sent rt' = rt_sent rt) /\
    forall c', c' <> c -> forall rt', rtc ticks_to rt rt' -> rt_stops rt' !! c' <> Some StopReturned) /\
  (forall draw c c', startCompact draw = Ok c -> rtc compact c c' -> co_pc c' = CompactReturned -> unstopped (co_ticker c')).
Proof.
  intros Hmin Hmax Hr. pose proof (ticker_reach_ok min max rt ltac:(lia) Hmax ltac:(lia) Hr) as Hok. split; [apply Hok|split; [|split]].
  - intros Hl Hn draw rt1 rt2 E Hst. unfold offer in E. rewrite Hn in E. injection E as <-.
    apply (silent_steps (with_loop rt (rt_timer rt) LoopSelect)); [|done]. split; [by apply (to_fired _ _ _ Hok)|done].
  - intros c Hc. assert (~ (rt_loop rt = LoopSelect \/ rt_loop rt = LoopFired)) as Hend.
    { intros Hal. apply (to_alive _ _ _ Hok Hal c). by right. }
    split.
    + intros rt' Hst. apply (silent_steps rt); [|done]. split; [by apply (to_ended _ _ _ Hok)|]. intros E. apply Hend. by right.
    + intros c' Hne rt' Hst Hc'. assert (ticker_ok min max rt' /\ taken rt' c) as [Hok' Ht]; [|apply Hne; eapply (to_one _ _ _ Hok'); [by right|done]].
      clear Hc' Hr Hend. assert (taken rt c) as Ht by (by right). clear Hc. induction Hst as [|x y z Hxy _ IH]; [done|].
      apply IH; [eapply ticker_ok_step; [| |exact Hok|exact Hxy]; lia|by eapply taken_step].
  - intros draw c c' E Hst _. eapply compact_unstopped; [exact Hst|]. unfold startCompact, NewRandomTicker in E.
    destruct (nextInterval _ _ _); [|done..]. injection E as <-. split; [by left|done].
Qed.
