(* ===== verification/Snappy.v ===== *)
(** The gRPC compressor of conn/snappy.go: readers and writers of the snappy
    library that are reused through two [sync.Pool]s. The library is a
    parameter ([SnappyLib]) with its documented behaviour ([SnappyLaws]); its
    calls, and the destinations and sources they use, may fail. The library's
    objects are shared by pointer; a call that uses one is one event. *)
From Stdlib Require Import ZArith Lia.
From stdpp Require Import base option list numbers gmap fin_maps relations.
From S2P Require Import Prelude.

(** [Get] takes one occurrence out of the pool *)
Fixpoint take_one (i : nat) (l : list nat) : list nat :=
  match l with [] => [] | j :: l => if decide (j = i) then l else j :: take_one i l end.
Lemma take_one_in i j l : j ∈ take_one i l -> j ∈ l.
Proof.
  induction l as [|x l IH]; cbn; [done|]. case_decide; [by right|].
  intros [->|Hin]%elem_of_cons; [by left|right; by apply IH].
Qed.
Lemma take_one_gone i l : NoDup l -> i ∉ take_one i l.
Proof.
  induction 1 as [|j l Hj Hnd IH]; cbn; [apply not_elem_of_nil|]. case_decide as Hd; [by subst|].
  intros [->|Hin]%elem_of_cons; [done|by apply IH].
Qed.
Lemma take_one_NoDup i l : NoDup l -> NoDup (take_one i l).
Proof.
  induction 1 as [|j l Hj Hnd IH]; cbn; [constructor|]. case_decide; [done|]. constructor; [|done].
  intros Hin. by apply Hj, (take_one_in i).
Qed.

Lemma NoDup_submseteq_inv (l k : list nat) : NoDup k -> l ⊆+ k -> NoDup l.
Proof. intros Hk (l' & Hp)%submseteq_Permutation. rewrite Hp in Hk. by apply NoDup_app in Hk as [? _]. Qed.

(** ** The library *)

(** The state of a [snappy.Writer] or [snappy.Reader] apart from what it writes
    to or reads from. [Write] and [Close] return what they passed on to the
    destination and an error; [Read] takes what its source still has and
    returns what is left of it, the data and an error, [EOF] at the end. The
    last argument is what destination and source do. *)
Class SnappyLib (Wr Rd Fault : Type) := {
  lib_NewBufferedWriter : Wr; lib_Writer_Reset : Wr -> Wr;
  lib_Write : Wr -> bytes -> Fault -> Wr * bytes * option error;
  lib_Writer_Close : Wr -> Fault -> Wr * bytes * option error;
  lib_NewReader : Rd; lib_Reader_Reset : Rd -> Rd;
  lib_Read : Rd -> bytes -> Z -> Fault -> Rd * bytes * bytes * option error }.
(** [Reset] discards the state of an object, whatever happened to it. A writer
    whose calls all succeeded has, once [Close] succeeded, passed on a stream
    that decodes to the data; a reader returns the data of its stream in order,
    and [EOF] after all of it. *)
Class SnappyLaws (Wr Rd Fault : Type) `{SnappyLib Wr Rd Fault} := {
  decoded : bytes -> option bytes;
  w_session : Wr -> list bytes -> bytes -> Prop;
  ws_new : w_session lib_NewBufferedWriter [] [];
  ws_reset w : w_session (lib_Writer_Reset w) [] [];
  ws_write w l o data f w' o' : w_session w l o -> lib_Write w data f = (w', o', None) -> w_session w' (l ++ [data]) (o ++ o');
  ws_close w l o f w' o' : w_session w l o -> lib_Writer_Close w f = (w', o', None) -> decoded (o ++ o') = Some (mjoin l);
  r_session : Rd -> bytes -> bytes -> bytes -> Prop;
  rs_new z : r_session lib_NewReader z z [];
  rs_reset r z : r_session (lib_Reader_Reset r) z z [];
  rs_read r z rem got n f r' rem' data : r_session r z rem got -> lib_Read r rem n f = (r', rem', data, None) -> r_session r' z rem' (got ++ data);
  rs_prefix r z rem got x : r_session r z rem got -> decoded z = Some x -> got `prefix_of` x;
  rs_eof r z rem got n f r' rem' data x : r_session r z rem got -> lib_Read r rem n f = (r', rem', data, Some EOF) -> decoded z = Some x -> got ++ data = x }.

Section Snappy.
Context {Wr Rd Fault : Type} `{Laws : SnappyLaws Wr Rd Fault}.
(** the compressed stream that each call of [Decompress] reads from *)
Variable input : nat -> bytes.

(** ** The code *)

(** One caller of [Compress]: its writer is open, the library's [Close] has
    returned, the writer is back in the pool. The history of its writes is
    kept, and whether all calls so far returned nil. *)
Inductive wcall := WOpen (i : nat) (written : list bytes) (ok : bool) | WFlushed (i : nat) (written : list bytes) (ok : bool) | WClosed (written : list bytes) (ok : bool).
Inductive rcall := ROpen (i : nat) (got : bytes) (ok : bool) | REof (i : nat) (got : bytes) (ok : bool).
(** an object and the caller whose destination or source it uses; [s_fresh]
    numbers new objects; [sw_sinks] is what arrived at each destination,
    [sr_left] what each source still has *)
Record snappy_state := mkSnappy {
  sw_objs : gmap nat (nat * Wr); snappyWriterPool : list nat; sw_calls : gmap nat wcall; sw_sinks : gmap nat bytes;
  sr_objs : gmap nat (nat * Rd); snappyReaderPool : list nat; sr_calls : gmap nat rcall; sr_left : gmap nat bytes; s_fresh : nat }.
Definition set_writers (s : snappy_state) objs pool calls sinks fresh : snappy_state :=
  mkSnappy objs pool calls sinks (sr_objs s) (snappyReaderPool s) (sr_calls s) (sr_left s) fresh.
Definition set_readers (s : snappy_state) objs pool calls left fresh : snappy_state :=
  mkSnappy (sw_objs s) (snappyWriterPool s) (sw_calls s) (sw_sinks s) objs pool calls left fresh.

(** [pool.Get()] took [Some i], or nothing and a new object is made *)
Definition Compress (s : snappy_state) (u : nat) (got : option nat) : snappy_state :=
  match got with
  | Some i =>
      match sw_objs s !! i with
      | None => s
      | Some (_, w) => set_writers s (<[i := (u, lib_Writer_Reset w)]> (sw_objs s)) (take_one i (snappyWriterPool s)) (<[u := WOpen i [] true]> (sw_calls s)) (sw_sinks s) (s_fresh s)
      end
  | None => set_writers s (<[s_fresh s := (u, lib_NewBufferedWriter)]> (sw_objs s)) (snappyWriterPool s) (<[u := WOpen (s_fresh s) [] true]> (sw_calls s)) (sw_sinks s) (S (s_fresh s))
  end.
Definition sink (s : snappy_state) (d : nat) : bytes := default [] (sw_sinks s !! d).
(** no error so far, and none now *)
Definition still (ok : bool) (err : option error) : bool := ok && match err with None => true | Some _ => false end.
(** [Write], the promoted method of the embedded [*snappy.Writer] *)
Definition snappyWriter_Write (s : snappy_state) (u i : nat) (written : list bytes) (ok : bool) (data : bytes) (f : Fault) : snappy_state :=
  match sw_objs s !! i with
  | None => s
  | Some (d, w) =>
      let '(w, out, err) := lib_Write w data f in
      set_writers s (<[i := (d, w)]> (sw_objs s)) (snappyWriterPool s) (<[u := WOpen i (written ++ [data]) (still ok err)]> (sw_calls s)) (<[d := sink s d ++ out]> (sw_sinks s)) (s_fresh s)
  end.
(** [snappyWriter.Close]: the library's [Close], then the deferred [Put], with an error too *)
Definition snappyWriter_Close (s : snappy_state) (u i : nat) (written : list bytes) (ok : bool) (f : Fault) : snappy_state :=
  match sw_objs s !! i with
  | None => s
  | Some (d, w) =>
      let '(w, out, err) := lib_Writer_Close w f in
      set_writers s (<[i := (d, w)]> (sw_objs s)) (snappyWriterPool s) (<[u := WFlushed i written (still ok err)]> (sw_calls s)) (<[d := sink s d ++ out]> (sw_sinks s)) (s_fresh s)
  end.
Definition snappyWriter_Put (s : snappy_state) (u i : nat) (written : list bytes) (ok : bool) : snappy_state :=
  set_writers s (sw_objs s) (i :: snappyWriterPool s) (<[u := WClosed written ok]> (sw_calls s)) (sw_sinks s) (s_fresh s).

Definition Decompress (s : snappy_state) (u : nat) (got : option nat) : snappy_state :=
  match got with
  | Some i =>
      match sr_objs s !! i with
      | None => s
      | Some (_, r) => set_readers s (<[i := (u, lib_Reader_Reset r)]> (sr_objs s)) (take_one i (snappyReaderPool s)) (<[u := ROpen i [] true]> (sr_calls s)) (<[u := input u]> (sr_left s)) (s_fresh s)
      end
  | None => set_readers s (<[s_fresh s := (u, lib_NewReader)]> (sr_objs s)) (snappyReaderPool s) (<[u := ROpen (s_fresh s) [] true]> (sr_calls s)) (<[u := input u]> (sr_left s)) (S (s_fresh s))
  end.
Definition left (s : snappy_state) (d : nat) : bytes := default [] (sr_left s !! d).
(** [snappyReader.Read] of at most [n] bytes: at [io.EOF], and at no other error, the
    reader goes back to the pool *)
Definition snappyReader_Read (s : snappy_state) (u i : nat) (got : bytes) (ok : bool) (n : Z) (f : Fault) : snappy_state :=
  match sr_objs s !! i with
  | None => s
  | Some (d, r) =>
      let '(r, rest, data, err) := lib_Read r (left s d) n f in
      let objs := <[i := (d, r)]> (sr_objs s) in
      let lefts := <[d := rest]> (sr_left s) in
      if decide (err = Some EOF)
      then set_readers s objs (i :: snappyReaderPool s) (<[u := REof i (got ++ data) ok]> (sr_calls s)) lefts (s_fresh s)
      else set_readers s objs (snappyReaderPool s) (<[u := ROpen i (got ++ data) (still ok err)]> (sr_calls s)) lefts (s_fresh s)
  end.

(** [Get] returns any object of the pool or none; the pool may drop objects.
    A caller closes its writer once and reads no further than [io.EOF]. *)
Inductive snappy_step : snappy_state -> snappy_state -> Prop :=
  | sn_compress s u : sw_calls s !! u = None -> snappy_step s (Compress s u None)
  | sn_recompress s u i : sw_calls s !! u = None -> i ∈ snappyWriterPool s -> snappy_step s (Compress s u (Some i))
  | sn_write s u i w ok data f : sw_calls s !! u = Some (WOpen i w ok) -> snappy_step s (snappyWriter_Write s u i w ok data f)
  | sn_close s u i w ok f : sw_calls s !! u = Some (WOpen i w ok) -> snappy_step s (snappyWriter_Close s u i w ok f)
  | sn_put s u i w ok : sw_calls s !! u = Some (WFlushed i w ok) -> snappy_step s (snappyWriter_Put s u i w ok)
  | sn_decompress s u : sr_calls s !! u = None -> snappy_step s (Decompress s u None)
  | sn_redecompress s u i : sr_calls s !! u = None -> i ∈ snappyReaderPool s -> snappy_step s (Decompress s u (Some i))
  | sn_read s u i got ok n f : sr_calls s !! u = Some (ROpen i got ok) -> snappy_step s (snappyReader_Read s u i got ok n f)
  | sn_drop s p q : p ⊆+ snappyWriterPool s -> q ⊆+ snappyReaderPool s ->
      snappy_step s (mkSnappy (sw_objs s) p (sw_calls s) (sw_sinks s) (sr_objs s) q (sr_calls s) (sr_left s) (s_fresh s)).
Definition no_snappy : snappy_state := mkSnappy ∅ [] ∅ ∅ ∅ [] ∅ ∅ 0.

(** ** The invariant *)

Definition whold (c : wcall) : option nat := match c with WOpen i _ _ | WFlushed i _ _ => Some i | WClosed _ _ => None end.
Definition rhold (c : rcall) : option nat := match c with ROpen i _ _ => Some i | REof _ _ _ => None end.
(** a call without errors has at its destination what the library makes of its data *)
Definition wcall_ok (s : snappy_state) (u : nat) (c : wcall) : Prop :=
  match c with
  | WOpen i l ok => exists w, sw_objs s !! i = Some (u, w) /\ (ok = true -> w_session w l (sink s u))
  | WFlushed i l ok => (exists w, sw_objs s !! i = Some (u, w)) /\ (ok = true -> decoded (sink s u) = Some (mjoin l))
  | WClosed l ok => ok = true -> decoded (sink s u) = Some (mjoin l)
  end.
Definition rcall_ok (s : snappy_state) (u : nat) (c : rcall) : Prop :=
  match c with
  | ROpen i got ok => exists r, sr_objs s !! i = Some (u, r) /\ (ok = true -> r_session r (input u) (left s u) got)
  | REof _ got ok => ok = true -> forall x, decoded (input u) = Some x -> got = x
  end.
Record writers_ok (s : snappy_state) : Prop := mk_writers_ok {
  so_wpool : NoDup (snappyWriterPool s);
  so_wfree : forall i, i ∈ snappyWriterPool s -> (i < s_fresh s)%nat /\ is_Some (sw_objs s !! i) /\ forall u c, sw_calls s !! u = Some c -> whold c <> Some i;
  so_wcalls : forall u c, sw_calls s !! u = Some c -> wcall_ok s u c /\ forall i, whold c = Some i -> (i < s_fresh s)%nat;
  so_wown : forall u u' c c' i, sw_calls s !! u = Some c -> sw_calls s !! u' = Some c' -> whold c = Some i -> whold c' = Some i -> u = u';
  so_wnone : forall u, sw_calls s !! u = None -> sink s u = [] }.
Record readers_ok (s : snappy_state) : Prop := mk_readers_ok {
  so_rpool : NoDup (snappyReaderPool s);
  so_rfree : forall i, i ∈ snappyReaderPool s -> (i < s_fresh s)%nat /\ is_Some (sr_objs s !! i) /\ forall u c, sr_calls s !! u = Some c -> rhold c <> Some i;
  so_rcalls : forall u c, sr_calls s !! u = Some c -> rcall_ok s u c /\ forall i, rhold c = Some i -> (i < s_fresh s)%nat;
  so_rown : forall u u' c c' i, sr_calls s !! u = Some c -> sr_calls s !! u' = Some c' -> rhold c = Some i -> rhold c' = Some i -> u = u' }.

(** the two halves share only the counter *)
Lemma readers_same s objs pool calls sinks fresh : readers_ok s -> (s_fresh s <= fresh)%nat -> readers_ok (set_writers s objs pool calls sinks fresh).
Proof.
  intros [H1 H2 H3 H4] Hf. split; cbn; try done.
  - intros i Hi. destruct (H2 i Hi). split; [lia|done].
  - intros u c Hc. destruct (H3 u c Hc) as [Hk Hb]. split; [done|]. intros i Hi. apply Hb in Hi. lia.
Qed.
Lemma writers_same s objs pool calls lft fresh : writers_ok s -> (s_fresh s <= fresh)%nat -> writers_ok (set_readers s objs pool calls lft fresh).
Proof.
  intros [H1 H2 H3 H4 H5] Hf. split; cbn; try done.
  - intros i Hi. destruct (H2 i Hi). split; [lia|done].
  - intros u c Hc. destruct (H3 u c Hc) as [Hk Hb]. split; [done|]. intros i Hi. apply Hb in Hi. lia.
Qed.
Lemma known_insert {A} (m : gmap nat A) i x j : is_Some (m !! j) -> is_Some (<[i := x]> m !! j).
Proof. intros [y E]. destruct (decide (i = j)) as [->|]; [rewrite lookup_insert_eq|rewrite lookup_insert_ne by done]; by eexists. Qed.

(** a call other than [u]'s, whose writer is not [i] *)
Lemma wcall_frame s s' u' c : wcall_ok s u' c -> (forall j, whold c = Some j -> sw_objs s' !! j = sw_objs s !! j) -> sink s' u' = sink s u' -> wcall_ok s' u' c.
Proof.
  intros Hc Ho Hs. destruct c as [i w ok|i w ok|w ok]; cbn in *; [| |by rewrite Hs]; by rewrite Ho, Hs.
Qed.
(** [u] takes a writer nobody holds *)
Lemma open_writer s u i w pool fresh : writers_ok s -> sw_calls s !! u = None -> NoDup pool -> i ∉ pool ->
  (forall j, j ∈ pool -> j ∈ snappyWriterPool s) -> (s_fresh s <= fresh)%nat -> (i < fresh)%nat -> w_session w [] [] ->
  (forall u' c, sw_calls s !! u' = Some c -> whold c <> Some i) ->
  writers_ok (set_writers s (<[i := (u, w)]> (sw_objs s)) pool (<[u := WOpen i [] true]> (sw_calls s)) (sw_sinks s) fresh).
Proof.
  intros [H1 H2 H3 H4 H5] Hu Hnd Hi Hp Hf Hlt Hw Hfree. split; cbn.
  - done.
  - intros j Hj. destruct (H2 j (Hp j Hj)) as (Hjf & Hjk & Hjn). split; [lia|]. split; [by apply known_insert|]. intros u' c Hc.
    apply lookup_insert_Some in Hc as [[<- <-]|[Hne Hc]]; [cbn; congruence|by eapply Hjn].
  - intros u' c Hc. apply lookup_insert_Some in Hc as [[<- <-]|[Hne Hc]].
    + split; [|by intros j [= <-]]. exists w. split; [apply lookup_insert_eq|]. intros _. unfold sink. cbn. fold (sink s u). by rewrite H5.
    + destruct (H3 u' c Hc) as [Hk Hb]. split; [|intros j Hj; apply Hb in Hj; lia]. eapply wcall_frame; [exact Hk| |done].
      intros j Hj. apply lookup_insert_ne. intros <-. by eapply Hfree.
  - intros u1 u2 c1 c2 j E1 E2 F1 F2. apply lookup_insert_Some in E1 as [[<- <-]|[Hne1 E1]], E2 as [[<- <-]|[Hne2 E2]]; [done| | |by eapply H4].
    + cbn in F1. injection F1 as <-. by destruct (Hfree _ _ E2).
    + cbn in F2. injection F2 as <-. by destruct (Hfree _ _ E1).
  - intros u' Hc. apply lookup_insert_None in Hc as [Hc Hne]. by apply H5.
Qed.
(** [u] goes on with the writer it holds *)
Lemma use_writer s u i c c' w out : writers_ok s -> sw_calls s !! u = Some c -> whold c = Some i -> whold c' = Some i ->
  let s' := set_writers s (<[i := (u, w)]> (sw_objs s)) (snappyWriterPool s) (<[u := c']> (sw_calls s)) (<[u := sink s u ++ out]> (sw_sinks s)) (s_fresh s) in
  (sw_objs s' !! i = Some (u, w) -> sink s' u = sink s u ++ out -> wcall_ok s' u c') -> writers_ok s'.
Proof.
  intros [H1 H2 H3 H4 H5] Hu Hi Hi' s' Hok.
  assert (forall u', u' <> u -> sink s' u' = sink s u') as Hsk by (intros u' Hne; unfold sink; cbn; by rewrite lookup_insert_ne).
  specialize (Hok (lookup_insert_eq _ _ _) ltac:(unfold sink; cbn; by rewrite lookup_insert_eq)).
  split; cbn; try done.
  - intros j Hj. destruct (H2 j Hj) as (Hjf & Hjk & Hjn). split; [done|]. split; [by apply known_insert|]. intros u' x Hx. apply lookup_insert_Some in Hx as [[<- <-]|[Hne Hx]]; [|by eapply Hjn].
    rewrite Hi', <- Hi. by eapply Hjn.
  - intros u' x Hx. apply lookup_insert_Some in Hx as [[<- <-]|[Hne Hx]].
    + split; [done|]. intros j Hj. destruct (H3 _ _ Hu) as [_ Hb]. apply Hb. congruence.
    + destruct (H3 u' x Hx) as [Hk Hb]. split; [|done]. eapply wcall_frame; [exact Hk| |by apply Hsk].
      intros j Hj. apply lookup_insert_ne. intros <-. apply Hne. by eapply H4.
  - intros u1 u2 c1 c2 j E1 E2 F1 F2. apply lookup_insert_Some in E1 as [[<- <-]|[Hne1 E1]], E2 as [[<- <-]|[Hne2 E2]]; [done| | |by eapply H4].
    + eapply (H4 u u2 c c2 j); congruence.
    + eapply (H4 u1 u c1 c j); congruence.
  - intros u' Hx. apply lookup_insert_None in Hx as [Hx Hne]. rewrite Hsk by done. by apply H5.
Qed.
Lemma still_true ok err : still ok err = true -> ok = true /\ err = None.
Proof. unfold still. destruct ok, err; done. Qed.
Lemma put_writer s u i w ok : writers_ok s -> sw_calls s !! u = Some (WFlushed i w ok) -> writers_ok (snappyWriter_Put s u i w ok).
Proof.
  intros [H1 H2 H3 H4 H5] Hu. destruct (H3 _ _ Hu) as [[[o Ho] Hs] Hb]. split; cbn.
  - constructor; [|done]. intros Hin. destruct (H2 i Hin) as (_ & _ & Hn). by eapply Hn.
  - intros j [->|Hj]%elem_of_cons.
    + split; [by apply Hb|]. split; [by eexists|]. intros u' c Hc. apply lookup_insert_Some in Hc as [[<- <-]|[Hne Hc]]; [done|]. intros E. apply Hne. by eapply H4.
    + destruct (H2 j Hj) as (Hjf & Hjk & Hjn). split; [done|]. split; [done|]. intros u' c Hc. apply lookup_insert_Some in Hc as [[<- <-]|[Hne Hc]]; [done|by eapply Hjn].
  - intros u' c Hc. apply lookup_insert_Some in Hc as [[<- <-]|[Hne Hc]]; [by split|by apply H3].
  - intros u1 u2 c1 c2 j E1 E2 F1 F2. apply lookup_insert_Some in E1 as [[<- <-]|[Hne1 E1]], E2 as [[<- <-]|[Hne2 E2]]; [done|done|done|by eapply H4].
  - intros u' Hc. apply lookup_insert_None in Hc as [Hc Hne]. by apply H5.
Qed.
Lemma write_writer s u i l ok data f : writers_ok s -> sw_calls s !! u = Some (WOpen i l ok) -> writers_ok (snappyWriter_Write s u i l ok data f).
Proof.
  intros Hok Hu. destruct (so_wcalls _ Hok _ _ Hu) as [(w & Ho & Hs) _]. unfold snappyWriter_Write. rewrite Ho. destruct (lib_Write w data f) as [[w' out] err] eqn:El.
  eapply use_writer; [done|done|done|done|]. intros E1 E2. exists w'. split; [exact E1|]. intros [Hk ->]%still_true. rewrite E2. eapply ws_write; [by apply Hs|exact El].
Qed.
Lemma close_writer s u i l ok f : writers_ok s -> sw_calls s !! u = Some (WOpen i l ok) -> writers_ok (snappyWriter_Close s u i l ok f).
Proof.
  intros Hok Hu. destruct (so_wcalls _ Hok _ _ Hu) as [(w & Ho & Hs) _]. unfold snappyWriter_Close. rewrite Ho. destruct (lib_Writer_Close w f) as [[w' out] err] eqn:El.
  eapply use_writer; [done|done|done|done|]. intros E1 E2. split; [by exists w'|]. intros [Hk ->]%still_true. rewrite E2. eapply ws_close; [by apply Hs|exact El].
Qed.

Lemma rcall_frame s s' u' c : rcall_ok s u' c -> (forall j, rhold c = Some j -> sr_objs s' !! j = sr_objs s !! j) -> left s' u' = left s u' -> rcall_ok s' u' c.
Proof. intros Hc Ho Hs. destruct c as [i w ok|i w ok]; cbn in *; [by rewrite Ho, Hs|done]. Qed.
Lemma open_reader s u i r pool fresh : readers_ok s -> sr_calls s !! u = None -> NoDup pool -> i ∉ pool ->
  (forall j, j ∈ pool -> j ∈ snappyReaderPool s) -> (s_fresh s <= fresh)%nat -> (i < fresh)%nat -> r_session r (input u) (input u) [] ->
  (forall u' c, sr_calls s !! u' = Some c -> rhold c <> Some i) ->
  readers_ok (set_readers s (<[i := (u, r)]> (sr_objs s)) pool (<[u := ROpen i [] true]> (sr_calls s)) (<[u := input u]> (sr_left s)) fresh).
Proof.
  intros [H1 H2 H3 H4] Hu Hnd Hi Hp Hf Hlt Hrs Hfree. split; cbn.
  - done.
  - intros j Hj. destruct (H2 j (Hp j Hj)) as (Hjf & Hjk & Hjn). split; [lia|]. split; [by apply known_insert|]. intros u' c Hc.
    apply lookup_insert_Some in Hc as [[<- <-]|[Hne Hc]]; [cbn; congruence|by eapply Hjn].
  - intros u' c Hc. apply lookup_insert_Some in Hc as [[<- <-]|[Hne Hc]].
    + split; [|by intros j [= <-]]. exists r. unfold left. cbn. by rewrite !lookup_insert_eq.
    + destruct (H3 u' c Hc) as [Hk Hb]. split; [|intros j Hj; apply Hb in Hj; lia]. eapply rcall_frame; [exact Hk| |].
      * intros j Hj. apply lookup_insert_ne. intros <-. by eapply Hfree.
      * unfold left. cbn. by rewrite lookup_insert_ne.
  - intros u1 u2 c1 c2 j E1 E2 F1 F2. apply lookup_insert_Some in E1 as [[<- <-]|[Hne1 E1]], E2 as [[<- <-]|[Hne2 E2]]; [done| | |by eapply H4].
    + cbn in F1. injection F1 as <-. by destruct (Hfree _ _ E2).
    + cbn in F2. injection F2 as <-. by destruct (Hfree _ _ E1).
Qed.
(** [u] has read, and keeps its reader or returns it to the pool *)
Lemma use_reader s u i got ok r rest c' pool : readers_ok s -> sr_calls s !! u = Some (ROpen i got ok) ->
  (rhold c' = Some i /\ pool = snappyReaderPool s \/ rhold c' = None /\ pool = i :: snappyReaderPool s) ->
  let s' := set_readers s (<[i := (u, r)]> (sr_objs s)) pool (<[u := c']> (sr_calls s)) (<[u := rest]> (sr_left s)) (s_fresh s) in
  (sr_objs s' !! i = Some (u, r) -> left s' u = rest -> rcall_ok s' u c') -> readers_ok s'.
Proof.
  intros [H1 H2 H3 H4] Hu Hc' s' Hok. destruct (H3 _ _ Hu) as [_ Hb]. specialize (Hb i eq_refl).
  specialize (Hok (lookup_insert_eq _ _ _) ltac:(unfold left; cbn; by rewrite lookup_insert_eq)).
  assert (forall j, rhold c' = Some j -> j = i) as Hj by (intros j E; destruct Hc' as [[E' _]|[E' _]]; congruence).
  assert (i ∉ snappyReaderPool s) as Hni by (intros Hin; destruct (H2 i Hin) as (_ & _ & Hn); by eapply (Hn u)).
  assert (forall j, j ∈ snappyReaderPool s -> (j < s_fresh s)%nat /\ is_Some (sr_objs s' !! j) /\ forall u' c, <[u := c']> (sr_calls s) !! u' = Some c -> rhold c <> Some j) as Hold.
  { intros j Hin. destruct (H2 j Hin) as (Hjf & Hjk & Hjn). split; [done|]. split; [by apply known_insert|]. intros u' c Hc.
    apply lookup_insert_Some in Hc as [[<- <-]|[Hne Hc]]; [|by eapply Hjn]. intros E. apply Hj in E as ->. done. }
  split; cbn.
  - destruct Hc' as [[_ ->]|[_ ->]]; [done|]. by constructor.
  - intros j Hin. destruct Hc' as [[_ ->]|[E ->]]; [by apply Hold|]. apply elem_of_cons in Hin as [->|Hin]; [|by apply Hold].
    split; [done|]. split; [exists (u, r); apply lookup_insert_eq|]. intros u' c Hc. apply lookup_insert_Some in Hc as [[<- <-]|[Hne Hc]]; [congruence|].
    intros F. apply Hne. by eapply H4.
  - intros u' c Hc. apply lookup_insert_Some in Hc as [[<- <-]|[Hne Hc]]; [split; [done|]; by intros j ->%Hj|].
    destruct (H3 u' c Hc) as [Hk Hb']. split; [|done]. eapply rcall_frame; [exact Hk| |unfold left; cbn; by rewrite lookup_insert_ne].
    intros j F. apply lookup_insert_ne. intros <-. apply Hne. by eapply H4.
  - intros u1 u2 c1 c2 j E1 E2 F1 F2. apply lookup_insert_Some in E1 as [[<- <-]|[Hne1 E1]], E2 as [[<- <-]|[Hne2 E2]]; [done| | |by eapply H4].
    + apply Hj in F1 as ->. by eapply (H4 u u2).
    + apply Hj in F2 as ->. by eapply (H4 u1 u).
Qed.
Lemma read_reader s u i got ok n f : readers_ok s -> sr_calls s !! u = Some (ROpen i got ok) -> readers_ok (snappyReader_Read s u i got ok n f).
Proof.
  intros Hok Hu. destruct (so_rcalls _ Hok _ _ Hu) as [(r & Ho & Hs) _]. unfold snappyReader_Read. rewrite Ho.
  destruct (lib_Read r (left s u) n f) as [[[r' rest] data] err] eqn:El. cbn zeta. case_decide as Ee.
  - subst err. eapply use_reader; [done|done|by right|]. intros _ _ Hk x Hx. eapply rs_eof; [by apply Hs|exact El|exact Hx].
  - eapply use_reader; [done|done|by left|]. intros E1 E2. exists r'. split; [exact E1|]. intros [Hk ->]%still_true. rewrite E2. eapply rs_read; [by apply Hs|exact El].
Qed.

Lemma snappy_step_ok s s' : writers_ok s /\ readers_ok s -> snappy_step s s' -> writers_ok s' /\ readers_ok s'.
Proof.
  intros [Hw Hr] Hst. destruct Hst as [s u Hu|s u i Hu Hi|s u i w ok data f Hu|s u i w ok f Hu|s u i w ok Hu|s u Hu|s u i Hu Hi|s u i got ok n f Hu|s p q Hp Hq].
  - split; [|apply readers_same; [done|cbn; lia]]. destruct (Hw) as [W1 W2 W3 W4 W5]. eapply open_writer; [done|done|done| |done|lia|lia|apply ws_new|].
    + intros Hin. apply W2 in Hin as [? _]. lia.
    + intros u' c Hc E. apply W3 in Hc as [_ Hb]. apply Hb in E. lia.
  - destruct (so_wfree _ Hw i Hi) as (Hlt & [[d w] Ho] & Hfree). unfold Compress. rewrite Ho. split; [|by apply readers_same].
    pose proof (so_wpool _ Hw). eapply open_writer; [done|done|by apply take_one_NoDup|by apply take_one_gone|intros j; apply take_one_in|lia|done|apply ws_reset|done].
  - split; [by apply write_writer|]. destruct (so_wcalls _ Hw _ _ Hu) as [(o & Ho & _) _]. unfold snappyWriter_Write. rewrite Ho. destruct (lib_Write o data f) as [[? ?] ?]. by apply readers_same.
  - split; [by apply close_writer|]. destruct (so_wcalls _ Hw _ _ Hu) as [(o & Ho & _) _]. unfold snappyWriter_Close. rewrite Ho. destruct (lib_Writer_Close o f) as [[? ?] ?]. by apply readers_same.
  - split; [by apply put_writer|by apply readers_same].
  - split; [apply writers_same; [done|cbn; lia]|]. destruct (Hr) as [W1 W2 W3 W4]. eapply open_reader; [done|done|done| |done|lia|lia|apply rs_new|].
    + intros Hin. apply W2 in Hin as [? _]. lia.
    + intros u' c Hc E. apply W3 in Hc as [_ Hb]. apply Hb in E. lia.
  - destruct (so_rfree _ Hr i Hi) as (Hlt & [[d r] Ho] & Hfree). unfold Decompress. rewrite Ho. split; [by apply writers_same|].
    pose proof (so_rpool _ Hr). eapply open_reader; [done|done|by apply take_one_NoDup|by apply take_one_gone|intros j; apply take_one_in|lia|done|apply rs_reset|done].
  - split; [|by apply read_reader]. destruct (so_rcalls _ Hr _ _ Hu) as [(o & Ho & _) _]. unfold snappyReader_Read. rewrite Ho. destruct (lib_Read o (left s u) n f) as [[[? ?] ?] ?].
    cbn zeta. case_decide; by apply writers_same.
  - destruct Hw as [W1 W2 W3 W4 W5], Hr as [R1 R2 R3 R4]. split; split; cbn; try done.
    + exact (NoDup_submseteq_inv _ _ W1 Hp).
    + intros i Hi. apply W2. eapply elem_of_submseteq; eassumption.
    + exact (NoDup_submseteq_inv _ _ R1 Hq).
    + intros i Hi. apply R2. eapply elem_of_submseteq; eassumption.
Qed.
Lemma snappy_reach_ok s : rtc snappy_step no_snappy s -> writers_ok s /\ readers_ok s.
Proof.
  intros Hr. assert (writers_ok no_snappy /\ readers_ok no_snappy) as H0.
  { split; split; cbn; first [done | apply NoDup_nil_2 | by intros ? ?%elem_of_nil]. }
  revert H0. induction Hr as [|x y z Hxy _ IH]; [done|]. intros H0. apply IH. by eapply snappy_step_ok.
Qed.

(** C30: Readers and writers taken from the pools never mix streams, whatever errors the snappy
    library reports: the destination of a writer closed without an error decodes to exactly what it
    was given, a call on one stream, failing or not, leaves the destinations of the others alone, an
    open reader whose calls did not fail has returned a prefix of what its own source decodes to and
    at the end all of it, and no two open readers share an object; but a caller that reads again
    after the end of its stream can take the data of the stream that got its reader. The library is
    a parameter with its documented behaviour as hypotheses. *)
Theorem snappy_streams s : rtc snappy_step no_snappy s ->
  (forall u l, sw_calls s !! u = Some (WClosed l true) -> decoded (sink s u) = Some (mjoin l)) /\
  (forall u u' i l ok, u <> u' -> sw_calls s !! u = Some (WOpen i l ok) -> forall f,
    (forall data, sink (snappyWriter_Write s u i l ok data f) u' = sink s u') /\ sink (snappyWriter_Close s u i l ok f) u' = sink s u') /\
  (forall u x, decoded (input u) = Some x ->
    (forall i got, sr_calls s !! u = Some (ROpen i got true) -> got `prefix_of` x) /\ (forall i got, sr_calls s !! u = Some (REof i got true) -> got = x)) /\
  (forall u u' i got ok got' ok', sr_calls s !! u = Some (ROpen i got ok) -> sr_calls s !! u' = Some (ROpen i got' ok') -> u = u') /\
  (forall u u' i got ok got' ok', u <> u' -> sr_calls s !! u = Some (REof i got ok) -> sr_calls s !! u' = Some (ROpen i got' ok') ->
    exists r, sr_objs s !! i = Some (u', r) /\ forall n f r' rest data, lib_Read r (left s u') n f = (r', rest, data, None) ->
    sr_calls (snappyReader_Read s u i got ok n f) !! u = Some (ROpen i (got ++ data) (still ok None)) /\ left (snappyReader_Read s u i got ok n f) u' = rest).
Proof using Laws.
  intros [Hw Hr]%snappy_reach_ok. split; [|split; [|split; [|split]]].
  - intros u l Hu. apply (so_wcalls _ Hw) in Hu as [Hu _]. by apply Hu.
  - intros u u' i l ok Hne Hu f. destruct (so_wcalls _ Hw _ _ Hu) as [(w & Ho & _) _]. unfold snappyWriter_Write, snappyWriter_Close. rewrite Ho. split.
    + intros data. destruct (lib_Write w data f) as [[? ?] ?]. unfold sink. cbn. by rewrite lookup_insert_ne.
    + destruct (lib_Writer_Close w f) as [[? ?] ?]. unfold sink. cbn. by rewrite lookup_insert_ne.
  - intros u x Hx. split; intros i got Hu.
    + apply (so_rcalls _ Hr) in Hu as [(r & _ & Hs) _]. eapply rs_prefix; [by apply Hs|exact Hx].
    + apply (so_rcalls _ Hr) in Hu as [Hu _]. by apply Hu.
  - intros u u' i got ok got' ok' H1 H2. by eapply (so_rown _ Hr).
  - intros u u' i got ok got' ok' Hne H1 H2. destruct (so_rcalls _ Hr _ _ H2) as [(r & Ho & _) _]. exists r. split; [exact Ho|]. intros n f r' rest data El.
    unfold snappyReader_Read. rewrite Ho, El. cbn zeta. rewrite decide_False by done. cbn. unfold left. cbn. by rewrite !lookup_insert_eq.
Qed.
End Snappy.
