(* ===== verification/RequestPool.v ===== *)
(** The life of a write request (range_rangepartition.go: sendToWriteCh, Wait,
    DecrRef, reset and the [done] of writeRequests): requests are objects of a
    [sync.Pool] that the caller fills, the write loop writes and answers, and
    the caller gives back. Every step of a goroutine is one event; how the loop
    cuts the channel into batches is modelled in DoWrites. Also here: what
    [close] does to callers that are under way. *)
From Stdlib Require Import ZArith Lia.
From stdpp Require Import base option list numbers gmap fin_maps relations.
From S2P Require Import Prelude.

(** ** The code *)

(** [q_entries] names the call whose entries the request has *)
Record pooled_request := mkReq { q_entries : nat; q_wg : Z; q_Err : option error; q_ref : Z }.
Definition req_reset (q : pooled_request) : pooled_request := mkReq 0 0 None 0.
Definition req_IncrRef (q : pooled_request) : pooled_request := mkReq (q_entries q) (q_wg q) (q_Err q) (q_ref q + 1).
Definition req_set_entries (u : nat) (q : pooled_request) : pooled_request := mkReq u (q_wg q) (q_Err q) (q_ref q).
Definition req_wg_Add (d : Z) (q : pooled_request) : outcome pooled_request :=
  if q_wg q + d <? 0 then Panic else Ok (mkReq (q_entries q) (q_wg q + d) (q_Err q) (q_ref q)).

(** a call of [Write], [WriteAsync] or [Delete]: past the check of
    [blockWrites], with a request to send, in [Wait], past [wg.Wait] with the
    error it read, returned, refused *)
Inductive call := CChecked | CReady (i : nat) | CWaiting (i : nat) | CRead (i : nat) (e : option error) | CReturned (e : option error) | CRefused.
(** [writeRequests], which runs beside the loop: not running, with a batch, in
    the loop of [done(e)] ([true]: [r.Err] of the first one is set) *)
Inductive wpc := WIdle | WBatch (reqs : list nat) | WDone (e : option error) (reqs : list nat) (set : bool).
(** [doWrites]: collecting requests, past the [default] that found the channel
    empty after the stop, returned *)
Inductive loop_state := Collecting | Closing | Returned.
(** [rp_written] is the history of entries written and the error each got *)
Record rp_state := mkRPS {
  rp_objs : gmap nat pooled_request; requestPool : list nat; rp_fresh : nat; writeCh : list nat; ch_closed : bool; rp_block : bool;
  rp_loop : loop_state; rp_hand : list nat; rp_writer : wpc; rp_calls : gmap nat call; rp_written : list (nat * option error) }.
Definition set_obj (s : rp_state) (i : nat) (q : pooled_request) : rp_state :=
  mkRPS (<[i := q]> (rp_objs s)) (requestPool s) (rp_fresh s) (writeCh s) (ch_closed s) (rp_block s) (rp_loop s) (rp_hand s) (rp_writer s) (rp_calls s) (rp_written s).
Definition set_pool (s : rp_state) (pool : list nat) (fresh : nat) : rp_state :=
  mkRPS (rp_objs s) pool fresh (writeCh s) (ch_closed s) (rp_block s) (rp_loop s) (rp_hand s) (rp_writer s) (rp_calls s) (rp_written s).
Definition set_ch (s : rp_state) (ch : list nat) : rp_state :=
  mkRPS (rp_objs s) (requestPool s) (rp_fresh s) ch (ch_closed s) (rp_block s) (rp_loop s) (rp_hand s) (rp_writer s) (rp_calls s) (rp_written s).
Definition set_writer (s : rp_state) (pc : wpc) : rp_state :=
  mkRPS (rp_objs s) (requestPool s) (rp_fresh s) (writeCh s) (ch_closed s) (rp_block s) (rp_loop s) (rp_hand s) pc (rp_calls s) (rp_written s).
Definition set_loop (s : rp_state) (l : loop_state) (hand : list nat) : rp_state :=
  mkRPS (rp_objs s) (requestPool s) (rp_fresh s) (writeCh s) (ch_closed s) (rp_block s) l hand (rp_writer s) (rp_calls s) (rp_written s).
Definition set_call (s : rp_state) (u : nat) (c : call) : rp_state :=
  mkRPS (rp_objs s) (requestPool s) (rp_fresh s) (writeCh s) (ch_closed s) (rp_block s) (rp_loop s) (rp_hand s) (rp_writer s) (<[u := c]> (rp_calls s)) (rp_written s).
Definition no_requests : rp_state := mkRPS ∅ [] 0 [] false false Collecting [] WIdle ∅ [].

(** [sendToWriteCh]: the check, *)
Definition send_check (s : rp_state) (u : nat) : rp_state := if rp_block s then set_call s u CRefused else set_call s u CChecked.
(** the request ([got]: [requestPool.Get] found one, or [New] makes one) *)
Definition fill (u : nat) (q : pooled_request) : outcome pooled_request :=
  let q := req_set_entries u (req_reset q) in
  let! q := req_wg_Add 1 q in
  Ok (req_IncrRef q).
Definition send_fill (s : rp_state) (u : nat) (got : option nat) : outcome rp_state :=
  match got with
  | Some i =>
      match rp_objs s !! i with
      | None => Panic
      | Some q => let! q := fill u q in Ok (set_call (set_obj (set_pool s (filter (fun j => j <> i) (requestPool s)) (rp_fresh s)) i q) u (CReady i))
      end
  | None => let! q := fill u (mkReq 0 0 None 0) in Ok (set_call (set_obj (set_pool s (requestPool s) (S (rp_fresh s))) (rp_fresh s) q) u (CReady (rp_fresh s)))
  end.
(** and the send, which panics on a closed channel *)
Definition send_ch (s : rp_state) (u i : nat) : outcome rp_state :=
  if ch_closed s then Panic else Ok (set_call (set_ch s (writeCh s ++ [i])) u (CWaiting i)).
(** [Wait]: after [wg.Wait()], [err := req.Err]; then [DecrRef] *)
Definition wait_read (s : rp_state) (u i : nat) : outcome rp_state :=
  match rp_objs s !! i with None => Panic | Some q => Ok (set_call s u (CRead i (q_Err q))) end.
Definition req_DecrRef (s : rp_state) (i : nat) : outcome rp_state :=
  match rp_objs s !! i with
  | None => Panic
  | Some q =>
      let nRef := q_ref q - 1 in
      let s := set_obj s i (mkReq (q_entries q) (q_wg q) (q_Err q) nRef) in
      if 0 <? nRef then Ok s else Ok (set_pool s (i :: requestPool s) (rp_fresh s))
  end.
Definition wait_return (s : rp_state) (u i : nat) (e : option error) : outcome rp_state :=
  let! s := req_DecrRef s i in Ok (set_call s u (CReturned e)).
(** [writeRequests] writes the entries of its batch and calls [done] *)
Definition entries_of (s : rp_state) (i : nat) : nat := match rp_objs s !! i with Some q => q_entries q | None => 0%nat end.
Definition write_batch (s : rp_state) (reqs : list nat) (e : option error) : rp_state :=
  mkRPS (rp_objs s) (requestPool s) (rp_fresh s) (writeCh s) (ch_closed s) (rp_block s) (rp_loop s) (rp_hand s) (WDone e reqs false) (rp_calls s)
    (rp_written s ++ ((fun i => (entries_of s i, e)) <$> reqs)).
Definition done_err (s : rp_state) (e : option error) (i : nat) (reqs : list nat) : outcome rp_state :=
  match rp_objs s !! i with
  | None => Panic
  | Some q => Ok (set_writer (set_obj s i (mkReq (q_entries q) (q_wg q) e (q_ref q))) (WDone e (i :: reqs) true))
  end.
Definition done_wg (s : rp_state) (e : option error) (i : nat) (reqs : list nat) : outcome rp_state :=
  match rp_objs s !! i with
  | None => Panic
  | Some q => let! q := req_wg_Add (-1) q in Ok (set_writer (set_obj s i q) (WDone e reqs false))
  end.
(** [close]: [blockWrites], [writeStopper.Stop], [close(writeCh)] *)
Definition close_block (s : rp_state) : rp_state :=
  mkRPS (rp_objs s) (requestPool s) (rp_fresh s) (writeCh s) (ch_closed s) true (rp_loop s) (rp_hand s) (rp_writer s) (rp_calls s) (rp_written s).
Definition close_ch (s : rp_state) : rp_state :=
  mkRPS (rp_objs s) (requestPool s) (rp_fresh s) (writeCh s) true (rp_block s) (rp_loop s) (rp_hand s) (rp_writer s) (rp_calls s) (rp_written s).

Definition chCapacity : nat := 64.
(** the callers that are under way and the write loop *)
Inductive req_own : rp_state -> outcome rp_state -> Prop :=
  | rq_fill s u : rp_calls s !! u = Some CChecked -> req_own s (send_fill s u None)
  | rq_refill s u i : rp_calls s !! u = Some CChecked -> i ∈ requestPool s -> req_own s (send_fill s u (Some i))
  | rq_send s u i : rp_calls s !! u = Some (CReady i) -> (length (writeCh s) < chCapacity)%nat -> req_own s (send_ch s u i)
  | rq_wait s u i q : rp_calls s !! u = Some (CWaiting i) -> rp_objs s !! i = Some q -> q_wg q = 0 -> req_own s (wait_read s u i)
  | rq_return s u i e : rp_calls s !! u = Some (CRead i e) -> req_own s (wait_return s u i e)
  | rq_recv s i ch : rp_loop s = Collecting -> writeCh s = i :: ch -> req_own s (Ok (set_loop (set_ch s ch) Collecting (rp_hand s ++ [i])))
  | rq_take s : rp_loop s <> Returned -> rp_writer s = WIdle -> rp_hand s <> [] -> req_own s (Ok (set_writer (set_loop s (rp_loop s) []) (WBatch (rp_hand s))))
  | rq_write s reqs e : rp_writer s = WBatch reqs -> req_own s (Ok (write_batch s reqs e))
  | rq_err s e i reqs : rp_writer s = WDone e (i :: reqs) false -> req_own s (done_err s e i reqs)
  | rq_done s e i reqs : rp_writer s = WDone e (i :: reqs) true -> req_own s (done_wg s e i reqs)
  | rq_idle s e b : rp_writer s = WDone e [] b -> req_own s (Ok (set_writer s WIdle)).
(** new calls, [close], and the pool dropping objects *)
Inductive req_outer : rp_state -> outcome rp_state -> Prop :=
  | rq_call s u : rp_calls s !! u = None -> req_outer s (Ok (send_check s u))
  | rq_block s : req_outer s (Ok (close_block s))
  | rq_default s : rp_block s = true -> rp_loop s = Collecting -> writeCh s = [] -> req_outer s (Ok (set_loop s Closing (rp_hand s)))
  | rq_ended s : rp_loop s = Closing -> rp_hand s = [] -> rp_writer s = WIdle -> req_outer s (Ok (set_loop s Returned []))
  | rq_close s : rp_loop s = Returned -> ch_closed s = false -> req_outer s (Ok (close_ch s))
  | rq_drop s p : p `sublist_of` requestPool s -> req_outer s (Ok (set_pool s p (rp_fresh s))).
Definition req_step (s s' : rp_state) : Prop := req_own s (Ok s') \/ req_outer s (Ok s').

(** ** The invariant *)

Definition held (c : call) : option nat := match c with CReady i | CWaiting i | CRead i _ => Some i | _ => None end.
Definition phase_reqs (pc : wpc) : list nat := match pc with WIdle => [] | WBatch l => l | WDone _ l _ => l end.
(** sent and not answered; of these, not written *)
Definition flight (s : rp_state) : list nat := writeCh s ++ rp_hand s ++ phase_reqs (rp_writer s).
Definition unwritten (s : rp_state) : list nat := writeCh s ++ rp_hand s ++ match rp_writer s with WBatch l => l | _ => [] end.
Definition call_ok (s : rp_state) (u : nat) (c : call) : Prop :=
  match c with
  | CChecked | CRefused => u ∉ (rp_written s).*1
  | CReady i => (u ∉ (rp_written s).*1) /\ (i ∉ flight s) /\ exists q, rp_objs s !! i = Some q /\ q_entries q = u /\ q_ref q = 1 /\ q_wg q = 1
  | CWaiting i => exists q, rp_objs s !! i = Some q /\ q_entries q = u /\ q_ref q = 1 /\
      ((i ∈ flight s /\ q_wg q = 1) \/ ((i ∉ flight s) /\ q_wg q = 0 /\ (u, q_Err q) ∈ rp_written s))
  | CRead i e => (i ∉ flight s) /\ (u, e) ∈ rp_written s /\ exists q, rp_objs s !! i = Some q /\ q_entries q = u /\ q_ref q = 1 /\ q_wg q = 0
  | CReturned e => (u, e) ∈ rp_written s
  end.
Record pool_ok (s : rp_state) : Prop := mk_pool_ok {
  po_nodup : NoDup (requestPool s);
  po_objs : forall i, i ∈ requestPool s -> is_Some (rp_objs s !! i) /\ forall u c, rp_calls s !! u = Some c -> held c <> Some i;
  po_fresh : forall i, is_Some (rp_objs s !! i) -> (i < rp_fresh s)%nat;
  po_own : forall u u' c c' i, rp_calls s !! u = Some c -> rp_calls s !! u' = Some c' -> held c = Some i -> held c' = Some i -> u = u';
  po_calls : forall u c, rp_calls s !! u = Some c -> call_ok s u c;
  po_new : forall u, rp_calls s !! u = None -> u ∉ (rp_written s).*1;
  po_flight : NoDup (flight s);
  po_sent : forall i, i ∈ flight s -> exists u, rp_calls s !! u = Some (CWaiting i);
  po_unwritten : forall i u, i ∈ unwritten s -> rp_calls s !! u = Some (CWaiting i) -> u ∉ (rp_written s).*1;
  po_done : forall e l b i u, rp_writer s = WDone e l b -> i ∈ l -> rp_calls s !! u = Some (CWaiting i) -> (u, e) ∈ rp_written s;
  po_set : forall e l i q, rp_writer s = WDone e (i :: l) true -> rp_objs s !! i = Some q -> q_Err q = e;
  po_once : NoDup (rp_written s).*1 }.
Lemma no_requests_ok : pool_ok no_requests.
Proof.
  split; cbn; try (intros *; by rewrite ?lookup_empty); try (by constructor); try (intros; by apply not_elem_of_nil); try (intros i ?%not_elem_of_nil; done).
Qed.

(** an object in flight belongs to the call that waits for it *)
Lemma flight_call s i : pool_ok s -> i ∈ flight s -> exists u q, rp_calls s !! u = Some (CWaiting i) /\ rp_objs s !! i = Some q /\ q_entries q = u /\ q_ref q = 1 /\ q_wg q = 1.
Proof.
  intros Hok Hi. destruct (po_sent s Hok i Hi) as (u & Hu). destruct (po_calls s Hok u _ Hu) as (q & Hq & E1 & E2 & [[_ E3]|[Hn _]]); [|done].
  by exists u, q.
Qed.
Lemma flight_not_pool s i : pool_ok s -> i ∈ flight s -> i ∉ requestPool s.
Proof.
  intros Hok Hi Hp. destruct (po_sent s Hok i Hi) as (u & Hu). destruct (po_objs s Hok i Hp) as [_ Hn]. by apply (Hn u _ Hu).
Qed.
(** only the place of the requests changes *)
Lemma moved_ok s s' : pool_ok s -> rp_objs s' = rp_objs s -> requestPool s' `sublist_of` requestPool s -> rp_fresh s' = rp_fresh s -> rp_calls s' = rp_calls s -> rp_written s' = rp_written s ->
  Permutation (flight s') (flight s) -> (forall i, i ∈ unwritten s' -> i ∈ unwritten s) ->
  (forall e l b, rp_writer s' = WDone e l b -> rp_writer s = WDone e l b) -> pool_ok s'.
Proof.
  intros Hok Eo Ep Ef Ec Ew Hfl Hun Hwr. destruct Hok as [H1 H2 H3 H4 H5 H6 H7 H8 H9 H10 H11 H12].
  split; rewrite ?Eo, ?Ef, ?Ec, ?Ew; try done.
  - by apply (sublist_NoDup _ _ H1).
  - intros i Hi. apply H2. by eapply elem_of_sublist.
  - intros u c Hu. specialize (H5 u c Hu). unfold call_ok in *. assert (forall i, i ∈ flight s' <-> i ∈ flight s) as Hin by (intros i; by rewrite Hfl).
    destruct c; rewrite ?Eo, ?Ew, ?Hin; try done. setoid_rewrite Hin. done.
  - by rewrite Hfl.
  - intros i. rewrite Hfl. apply H8.
  - intros i u Hi. by apply H9, Hun.
  - intros e l b i u Hw. by eapply H10, Hwr.
  - intros e l i q Hw. by eapply H11, Hwr.
Qed.
(** a call goes on and keeps no request, or the one it has *)
Lemma set_call_ok s u c : pool_ok s -> call_ok s u c -> (forall i, rp_calls s !! u = Some (CWaiting i) -> i ∉ flight s) ->
  (forall i, held c = Some i -> exists c0, rp_calls s !! u = Some c0 /\ held c0 = Some i) -> (forall i, c <> CWaiting i) -> pool_ok (set_call s u c).
Proof.
  intros [H1 H2 H3 H4 H5 H6 H7 H8 H9 H10 H11 H12] Hc Hout Hheld Hnw. split; cbn [set_call rp_objs requestPool rp_fresh rp_calls rp_written rp_writer]; try done.
  - intros i Hi. destruct (H2 i Hi) as [Ho Hn]. split; [done|]. intros u' c'. destruct (decide (u = u')) as [<-|Hne].
    + rewrite lookup_insert_eq. intros [= <-] Hh. destruct (Hheld i Hh) as (c0 & E0 & Hh0). by apply (Hn u c0).
    + rewrite lookup_insert_ne by done. apply Hn.
  - assert (forall u' c' i, <[u := c]> (rp_calls s) !! u' = Some c' -> held c' = Some i -> exists c0, rp_calls s !! u' = Some c0 /\ held c0 = Some i) as Hold.
    { intros u' c' i. destruct (decide (u = u')) as [<-|Hne]; [rewrite lookup_insert_eq; intros [= <-]; apply Hheld|rewrite lookup_insert_ne by done; eauto]. }
    intros u1 u2 c1 c2 i E1 E2 Hh1 Hh2. destruct (Hold _ _ _ E1 Hh1) as (d1 & F1 & G1), (Hold _ _ _ E2 Hh2) as (d2 & F2 & G2). by eapply H4.
  - intros u' c'. destruct (decide (u = u')) as [<-|Hne]; [rewrite lookup_insert_eq; by intros [= <-]|rewrite lookup_insert_ne by done; apply H5].
  - intros u'. destruct (decide (u = u')) as [<-|Hne]; [by rewrite lookup_insert_eq|rewrite lookup_insert_ne by done; apply H6].
  - intros i Hi. destruct (H8 i Hi) as (u' & Hu'). exists u'. rewrite lookup_insert_ne; [done|]. intros <-. by apply (Hout i).
  - intros i u' Hi. destruct (decide (u = u')) as [<-|Hne]; [rewrite lookup_insert_eq; intros [= ->]; by destruct (Hnw i)|rewrite lookup_insert_ne by done; by apply H9].
  - intros e l b i u' Hw Hi. destruct (decide (u = u')) as [<-|Hne]; [rewrite lookup_insert_eq; intros [= ->]; by destruct (Hnw i)|rewrite lookup_insert_ne by done; by eapply H10].
Qed.
(** a request that nobody has is filled *)
Lemma fill_ok s u i pool fresh : pool_ok s -> rp_calls s !! u = Some CChecked -> (forall u' c, rp_calls s !! u' = Some c -> held c <> Some i) ->
  pool `sublist_of` requestPool s -> i ∉ pool -> (rp_fresh s <= fresh)%nat -> (i < fresh)%nat ->
  pool_ok (set_call (set_obj (set_pool s pool fresh) i (mkReq u 1 None 1)) u (CReady i)).
Proof.
  intros Hok Hu Hfree Hpool Hip Hfr Hi. assert (i ∉ flight s) as Hnf by (intros Hin; destruct (po_sent s Hok i Hin) as (u' & Hu'); by apply (Hfree u' _ Hu')).
  destruct Hok as [H1 H2 H3 H4 H5 H6 H7 H8 H9 H10 H11 H12]. pose proof (H5 u _ Hu) as Hfw. cbn [call_ok] in Hfw.
  split; cbn [set_call set_obj set_pool rp_objs requestPool rp_fresh rp_calls rp_written rp_writer]; try done.
  - by apply (sublist_NoDup _ _ H1).
  - intros j Hj. assert (j <> i) as Hji by (by intros ->). destruct (H2 j ltac:(by eapply elem_of_sublist)) as [Ho Hn]. split; [by rewrite lookup_insert_ne|].
    intros u' c'. destruct (decide (u = u')) as [<-|Hne]; [rewrite lookup_insert_eq; intros [= <-]; cbn; congruence|rewrite lookup_insert_ne by done; apply Hn].
  - intros j. destruct (decide (i = j)) as [<-|Hne]; [done|]. rewrite lookup_insert_ne by done. intros Hj. specialize (H3 j Hj). lia.
  - intros u1 u2 c1 c2 j. destruct (decide (u = u1)) as [<-|Hn1], (decide (u = u2)) as [<-|Hn2]; rewrite ?lookup_insert_eq, ?lookup_insert_ne by done; try done.
    + intros [= <-] E2 [= <-] Hh. by destruct (Hfree u2 c2 E2).
    + intros E1 [= <-] Hh [= <-]. by destruct (Hfree u1 c1 E1).
    + apply H4.
  - intros u' c'. destruct (decide (u = u')) as [<-|Hne]; [rewrite lookup_insert_eq; intros [= <-]|rewrite lookup_insert_ne by done].
    + cbn [call_ok]. split; [done|]. split; [done|]. exists (mkReq u 1 None 1). split; [apply lookup_insert_eq|done].
    + intros Hu'. specialize (H5 u' c' Hu'). pose proof (Hfree u' c' Hu') as Hh. destruct c'; cbn [call_ok held] in *; cbn [set_call set_obj set_pool rp_objs rp_written]; try done;
        rewrite ?lookup_insert_ne by congruence; done.
  - intros u'. destruct (decide (u = u')) as [<-|Hne]; [by rewrite lookup_insert_eq|rewrite lookup_insert_ne by done; apply H6].
  - intros j Hj. destruct (H8 j Hj) as (u' & Hu'). exists u'. rewrite lookup_insert_ne; [done|]. intros <-. congruence.
  - intros j u' Hj. destruct (decide (u = u')) as [<-|Hne]; [by rewrite lookup_insert_eq|rewrite lookup_insert_ne by done; by apply H9].
  - intros e l b j u' Hw Hj. destruct (decide (u = u')) as [<-|Hne]; [by rewrite lookup_insert_eq|rewrite lookup_insert_ne by done; by eapply H10].
  - intros e l j q Hw. destruct (decide (i = j)) as [<-|Hne]; [|rewrite lookup_insert_ne by done; by eapply H11].
    intros _. destruct Hnf. unfold flight. rewrite Hw. cbn [phase_reqs]. rewrite !elem_of_app. right. right. left.
Qed.
(** a request changes that only [u] has *)
Lemma other_obj s u c i q : pool_ok s -> rp_calls s !! u = Some c -> held c = Some i -> forall u' c', u' <> u -> rp_calls s !! u' = Some c' -> call_ok (set_obj s i q) u' c'.
Proof.
  intros Hok Hu Hh u' c' Hne Hu'. pose proof (po_calls s Hok u' c' Hu') as Hc. assert (held c' <> Some i) as Hh' by (intros Hx; apply Hne; by eapply (po_own s Hok)).
  destruct c'; cbn [call_ok held] in *; cbn [set_obj rp_objs rp_written]; try done; rewrite ?lookup_insert_ne by congruence; done.
Qed.
Lemma send_ok s u i : pool_ok s -> rp_calls s !! u = Some (CReady i) -> pool_ok (set_call (set_ch s (writeCh s ++ [i])) u (CWaiting i)).
Proof.
  intros Hok Hu. pose proof Hok as [H1 H2 H3 H4 H5 H6 H7 H8 H9 H10 H11 H12]. destruct (H5 u _ Hu) as (Hw & Hnf & q & Eq & E1 & E2 & E3).
  set (s' := set_call _ _ _). assert (Permutation (flight s') (i :: flight s)) as Hfl.
  { unfold s', flight. cbn [set_call set_ch writeCh rp_hand rp_writer]. rewrite <- app_assoc. symmetry. apply Permutation_middle. }
  assert (forall j, j ∈ flight s' <-> j = i \/ j ∈ flight s) as Hin by (intros j; by rewrite Hfl, elem_of_cons).
  assert (forall j, j ∈ unwritten s' -> j = i \/ j ∈ unwritten s) as Hun.
  { intros j. unfold s', unwritten. cbn [set_call set_ch writeCh rp_hand rp_writer]. rewrite !elem_of_app, list_elem_of_singleton. tauto. }
  split; cbn [s' set_call set_ch rp_objs requestPool rp_fresh rp_calls rp_written rp_writer]; try done.
  - intros j Hj. destruct (H2 j Hj) as [Ho Hn]. split; [done|]. intros u' c'. destruct (decide (u = u')) as [<-|Hne]; [rewrite lookup_insert_eq; intros [= <-]; exact (Hn u _ Hu)|rewrite lookup_insert_ne by done; apply Hn].
  - intros u1 u2 c1 c2 j. destruct (decide (u = u1)) as [<-|Hn1], (decide (u = u2)) as [<-|Hn2]; rewrite ?lookup_insert_eq, ?lookup_insert_ne by done; try done.
    + intros [= <-] E Hh1 Hh2. by apply (H4 u u2 _ c2 j Hu E).
    + intros E [= <-] Hh1 Hh2. by apply (H4 u1 u c1 _ j E Hu).
    + apply H4.
  - intros u' c'. destruct (decide (u = u')) as [<-|Hne]; [rewrite lookup_insert_eq; intros [= <-]|rewrite lookup_insert_ne by done].
    + exists q. do 3 (split; [done|]). left. split; [apply Hin; by left|done].
    + intros Hu'. assert (held c' <> Some i) as Hh' by (intros Hx; apply Hne; by apply (H4 u u' _ c' i Hu Hu')). specialize (H5 u' c' Hu').
      destruct c'; cbn [call_ok held] in *; rewrite ?Hin; try done.
      * split; [apply H5|]. split; [intros [->|Hx]; [done|by apply H5 in Hx]|apply H5].
      * destruct H5 as (q' & F1 & F2 & F3 & F4). exists q'. do 3 (split; [done|]). rewrite Hin. destruct F4 as [[Hx F4]|[Hx F4]]; [left; split; [by right|done]|right].
        split; [|done]. intros [->|Hy]; [by destruct Hh'|done].
      * split; [intros [->|Hx]; [done|by apply H5 in Hx]|apply H5].
  - intros u'. destruct (decide (u = u')) as [<-|Hne]; [by rewrite lookup_insert_eq|rewrite lookup_insert_ne by done; apply H6].
  - rewrite Hfl. by constructor.
  - intros j [->|Hj]%Hin; [exists u; by rewrite lookup_insert_eq|]. destruct (H8 j Hj) as (u' & Hu'). exists u'. rewrite lookup_insert_ne; [done|]. congruence.
  - intros j u' Hj. destruct (decide (u = u')) as [<-|Hne]; [done|rewrite lookup_insert_ne by done]. intros Hu'. destruct (Hun j Hj) as [->|Hj']; [|by apply (H9 j)].
    destruct Hne. by apply (H4 u u' _ _ i Hu Hu').
  - intros e l b j u' Ew Hj. destruct (decide (u = u')) as [<-|Hne]; [|rewrite lookup_insert_ne by done; by eapply H10]. rewrite lookup_insert_eq. intros [= <-].
    destruct Hnf. unfold flight. rewrite Ew, !elem_of_app. by right; right.
Qed.
Lemma return_ok s u i e q : pool_ok s -> rp_calls s !! u = Some (CRead i e) ->
  pool_ok (set_call (set_pool (set_obj s i q) (i :: requestPool s) (rp_fresh s)) u (CReturned e)).
Proof.
  intros Hok Hu. pose proof (other_obj s u _ i q Hok Hu eq_refl) as Hoth. pose proof Hok as [H1 H2 H3 H4 H5 H6 H7 H8 H9 H10 H11 H12].
  destruct (H5 u _ Hu) as (Hnf & Hw & q0 & Eq & _).
  split; cbn [set_call set_obj set_pool rp_objs requestPool rp_fresh rp_calls rp_written rp_writer]; try done.
  - constructor; [|done]. intros Hp. by apply (proj2 (H2 i Hp) u _ Hu).
  - intros j Hj. assert (is_Some (rp_objs s !! j) /\ forall u' c, u' <> u -> rp_calls s !! u' = Some c -> held c <> Some j) as [Ho Hn].
    { apply elem_of_cons in Hj as [->|Hj]; [split; [by eexists|]|destruct (H2 j Hj) as [? Hn]; split; [done|intros u' c _; apply Hn]].
      intros u' c Hne Hu' Hh. apply Hne. by eapply H4. }
    split; [destruct (decide (i = j)) as [<-|?]; [rewrite lookup_insert_eq; by eexists|by rewrite lookup_insert_ne]|].
    intros u' c'. destruct (decide (u = u')) as [<-|Hne]; [rewrite lookup_insert_eq; by intros [= <-]|rewrite lookup_insert_ne by done; intros Hu'; by apply (Hn u')].
  - intros j. destruct (decide (i = j)) as [<-|Hne]; [intros _; apply H3; by eexists|rewrite lookup_insert_ne by done; apply H3].
  - intros u1 u2 c1 c2 j. destruct (decide (u = u1)) as [<-|Hn1], (decide (u = u2)) as [<-|Hn2]; rewrite ?lookup_insert_eq, ?lookup_insert_ne by done; try done.
    + intros [= <-] _ Hh _. done.
    + intros _ [= <-] _ Hh. done.
    + apply H4.
  - intros u' c'. destruct (decide (u = u')) as [<-|Hne]; [rewrite lookup_insert_eq; by intros [= <-]|rewrite lookup_insert_ne by done]. intros Hu'. by apply Hoth.
  - intros u'. destruct (decide (u = u')) as [<-|Hne]; [by rewrite lookup_insert_eq|rewrite lookup_insert_ne by done; apply H6].
  - intros j Hj. destruct (H8 j Hj) as (u' & Hu'). exists u'. rewrite lookup_insert_ne; [done|]. congruence.
  - intros j u' Hj. destruct (decide (u = u')) as [<-|Hne]; [by rewrite lookup_insert_eq|rewrite lookup_insert_ne by done; by apply H9].
  - intros e' l b j u' Ew Hj. destruct (decide (u = u')) as [<-|Hne]; [by rewrite lookup_insert_eq|rewrite lookup_insert_ne by done; by eapply H10].
  - intros e' l j q' Ew. destruct (decide (i = j)) as [<-|Hne]; [|rewrite lookup_insert_ne by done; by eapply H11].
    intros _. destruct Hnf. unfold flight. rewrite Ew. cbn [phase_reqs]. rewrite !elem_of_app. right. right. left.
Qed.
Lemma write_ok s reqs e : pool_ok s -> rp_writer s = WBatch reqs -> pool_ok (write_batch s reqs e).
Proof.
  intros Hok Ew. pose proof Hok as [H1 H2 H3 H4 H5 H6 H7 H8 H9 H10 H11 H12].
  assert (flight (write_batch s reqs e) = flight s) as Hfl by (unfold flight, write_batch; cbn [writeCh rp_hand rp_writer phase_reqs]; by rewrite Ew).
  assert (forall i, i ∈ reqs -> i ∈ flight s) as Hrf by (intros i Hi; unfold flight; rewrite Ew, !elem_of_app; by right; right).
  assert (forall i u, i ∈ reqs -> rp_calls s !! u = Some (CWaiting i) -> entries_of s i = u) as Hent.
  { intros i u Hi Hu. destruct (H5 u _ Hu) as (q & Eq & Eu & _). unfold entries_of. by rewrite Eq. }
  assert (forall u, u ∈ (entries_of s <$> reqs) -> exists i, i ∈ reqs /\ rp_calls s !! u = Some (CWaiting i)) as Hnew.
  { intros u Hu. apply list_elem_of_fmap in Hu as (i & -> & Hi). exists i. split; [done|]. destruct (H8 i (Hrf i Hi)) as (u & Hu). by rewrite (Hent i u Hi Hu). }
  assert ((rp_written (write_batch s reqs e)).*1 = (rp_written s).*1 ++ (entries_of s <$> reqs)) as Hks.
  { cbn [write_batch rp_written]. rewrite fmap_app, <- list_fmap_compose. done. }
  assert (forall u, (forall i, rp_calls s !! u <> Some (CWaiting i)) -> u ∉ (rp_written s).*1 -> u ∉ (rp_written (write_batch s reqs e)).*1) as Hnot.
  { intros u Hn Hu. rewrite Hks. intros [Hx|Hx]%elem_of_app; [done|]. destruct (Hnew u Hx) as (i & _ & E). by apply (Hn i). }
  assert (forall p, p ∈ rp_written s -> p ∈ rp_written (write_batch s reqs e)) as Hsub by (intros p Hp; cbn [write_batch rp_written]; apply elem_of_app; by left).
  split; cbn [write_batch rp_objs requestPool rp_fresh rp_calls]; try done.
  - intros u c Hu. specialize (H5 u c Hu). destruct c; unfold call_ok in *; rewrite ?Hfl; cbn [write_batch rp_objs].
    + apply Hnot; [|done]. intros j. congruence.
    + destruct H5 as (A & B). split; [|done]. apply Hnot; [|done]. intros j. congruence.
    + destruct H5 as (q & A & B & C & D). exists q. do 3 (split; [done|]). destruct D as [D|(D1 & D2 & D3)]; [by left|right]. split; [done|]. split; [done|]. by apply Hsub.
    + destruct H5 as (A & B & C). split; [done|]. split; [by apply Hsub|done].
    + by apply Hsub.
    + apply Hnot; [|done]. intros j. congruence.
  - intros u Hu. apply Hnot; [intros j; congruence|by apply H6].
  - by rewrite Hfl.
  - intros i. rewrite Hfl. apply H8.
  - intros i u Hi Hu. unfold unwritten, write_batch in Hi. cbn [writeCh rp_hand rp_writer] in Hi. rewrite app_nil_r in Hi.
    assert (i ∈ unwritten s) as Hi' by (unfold unwritten; rewrite app_assoc; apply elem_of_app; by left).
    rewrite Hks. intros [Hx|Hx]%elem_of_app; [by apply (H9 i u Hi' Hu)|]. destruct (Hnew u Hx) as (j & Hj & Ej). rewrite Hu in Ej. injection Ej as <-.
    unfold flight in H7. rewrite app_assoc, Ew in H7. apply NoDup_app in H7 as (_ & Hd & _). by apply (Hd i Hi).
  - intros e' l b i u [= <- <- <-] Hi Hu. cbn [rp_written]. apply elem_of_app. right. apply list_elem_of_fmap. exists i. by rewrite (Hent i u Hi Hu).
  - rewrite Hks. apply NoDup_app. split; [done|]. split.
    + intros u Hx Hy. destruct (Hnew u Hy) as (i & Hi & Eu). apply (H9 i u); [|done|done]. unfold unwritten. rewrite Ew, !elem_of_app. by right; right.
    + assert (NoDup reqs) as Hnd by (unfold flight in H7; rewrite app_assoc, Ew in H7; by apply NoDup_app in H7 as (_ & _ & ?)).
      apply NoDup_fmap_2_strong; [|done]. intros i j Hi Hj Eij. destruct (H8 i (Hrf i Hi)) as (u & Hu), (H8 j (Hrf j Hj)) as (v & Hv).
      rewrite (Hent i u Hi Hu), (Hent j v Hj Hv) in Eij. subst v. congruence.
Qed.
(** [done]: the error is set, then the caller is released *)
Lemma done_err_ok s e i reqs q : pool_ok s -> rp_writer s = WDone e (i :: reqs) false -> rp_objs s !! i = Some q ->
  pool_ok (set_writer (set_obj s i (mkReq (q_entries q) (q_wg q) e (q_ref q))) (WDone e (i :: reqs) true)).
Proof.
  intros Hok Ew Eq. assert (i ∈ flight s) as Hif by (unfold flight; rewrite Ew; cbn [phase_reqs]; rewrite !elem_of_app; right; right; left).
  destruct (flight_call s i Hok Hif) as (u & q0 & Hu & Eq0 & E1 & E2 & E3). rewrite Eq in Eq0. injection Eq0 as <-.
  pose proof (other_obj s u _ i (mkReq (q_entries q) (q_wg q) e (q_ref q)) Hok Hu eq_refl) as Hoth. pose proof Hok as [H1 H2 H3 H4 H5 H6 H7 H8 H9 H10 H11 H12].
  set (s' := set_writer _ _). assert (flight s' = flight s) as Hfl by (unfold flight; cbn [s' set_writer set_obj writeCh rp_hand rp_writer phase_reqs]; by rewrite Ew).
  assert (unwritten s' = unwritten s) as Hun by (unfold unwritten; cbn [s' set_writer set_obj writeCh rp_hand rp_writer]; by rewrite Ew).
  split; cbn [s' set_writer set_obj rp_objs requestPool rp_fresh rp_calls rp_written rp_writer]; fold s'; rewrite ?Hfl, ?Hun; try done.
  - intros j Hj. destruct (H2 j Hj) as [Ho Hn]. split; [|done]. destruct (decide (i = j)) as [<-|?]; [rewrite lookup_insert_eq; by eexists|by rewrite lookup_insert_ne].
  - intros j. destruct (decide (i = j)) as [<-|Hne]; [intros _; apply H3; by eexists|rewrite lookup_insert_ne by done; apply H3].
  - intros u' c' Hu'. destruct (decide (u' = u)) as [->|Hne].
    + rewrite Hu in Hu'. injection Hu' as <-. exists (mkReq (q_entries q) (q_wg q) e (q_ref q)). split; [apply lookup_insert_eq|]. do 2 (split; [done|]). left. by rewrite Hfl.
    + specialize (Hoth u' c' Hne Hu'). destruct c'; unfold call_ok in *; rewrite ?Hfl; done.
  - intros e' l b j u' [= <- <- <-] Hj Hu'. by eapply (H10 e).
  - intros e' l j q' [= <- <- <-]. rewrite lookup_insert_eq. by intros [= <-].
Qed.
Lemma done_wg_ok s e i reqs q : pool_ok s -> rp_writer s = WDone e (i :: reqs) true -> rp_objs s !! i = Some q -> q_wg q = 1 /\
  pool_ok (set_writer (set_obj s i (mkReq (q_entries q) 0 (q_Err q) (q_ref q))) (WDone e reqs false)).
Proof.
  intros Hok Ew Eq. assert (i ∈ flight s) as Hif by (unfold flight; rewrite Ew; cbn [phase_reqs]; rewrite !elem_of_app; right; right; left).
  destruct (flight_call s i Hok Hif) as (u & q0 & Hu & Eq0 & E1 & E2 & E3). rewrite Eq in Eq0. injection Eq0 as <-. split; [done|].
  pose proof (other_obj s u _ i (mkReq (q_entries q) 0 (q_Err q) (q_ref q)) Hok Hu eq_refl) as Hoth. pose proof Hok as [H1 H2 H3 H4 H5 H6 H7 H8 H9 H10 H11 H12].
  set (s' := set_writer _ _). assert (Permutation (flight s) (i :: flight s')) as Hfl.
  { unfold flight. cbn [s' set_writer set_obj writeCh rp_hand rp_writer phase_reqs]. rewrite Ew. cbn [phase_reqs]. rewrite !app_assoc. symmetry. apply Permutation_middle. }
  assert (unwritten s' = unwritten s) as Hun by (unfold unwritten; cbn [s' set_writer set_obj writeCh rp_hand rp_writer]; by rewrite Ew).
  rewrite Hfl in H7. apply NoDup_cons in H7 as [Hni H7]. assert (forall j, j ∈ flight s <-> j = i \/ j ∈ flight s') as Hin by (intros j; by rewrite Hfl, elem_of_cons).
  split; cbn [s' set_writer set_obj rp_objs requestPool rp_fresh rp_calls rp_written rp_writer]; fold s'; rewrite ?Hun; try done.
  - intros j Hj. destruct (H2 j Hj) as [Ho Hn]. split; [|done]. destruct (decide (i = j)) as [<-|?]; [rewrite lookup_insert_eq; by eexists|by rewrite lookup_insert_ne].
  - intros j. destruct (decide (i = j)) as [<-|Hne]; [intros _; apply H3; by eexists|rewrite lookup_insert_ne by done; apply H3].
  - intros u' c' Hu'. destruct (decide (u' = u)) as [->|Hne].
    + rewrite Hu in Hu'. injection Hu' as <-. exists (mkReq (q_entries q) 0 (q_Err q) (q_ref q)). split; [apply lookup_insert_eq|]. do 2 (split; [done|]). right.
      split; [done|]. split; [done|]. cbn [q_Err]. rewrite (H11 e reqs i q Ew Eq). apply (H10 e (i :: reqs) true i u Ew); [left|done].
    + assert (held c' <> Some i) as Hh by (intros Hx; apply Hne; by apply (H4 u' u _ _ i Hu' Hu)).
      assert (forall j, held c' = Some j -> (j ∈ flight s <-> j ∈ flight s')) as Hj by (intros j Ej; rewrite Hin; split; [intros [->|?]; [done|done]|by right]).
      specialize (Hoth u' c' Hne Hu'). destruct c'; unfold call_ok in *; change (flight (set_obj s i _)) with (flight s) in Hoth; rewrite ?(Hj _ eq_refl) in Hoth; try done.
      destruct Hoth as (q' & A & B & C & D). exists q'. rewrite (Hj _ eq_refl) in D. done.
  - intros j Hj. apply H8, Hin. by right.
  - intros e' l b j u' [= <- <- <-] Hj Hu'. apply (H10 e (i :: reqs) true j u' Ew); [by right|done].
Qed.

(** ** Every step *)

(** what [close] has done so far *)
Record closing_ok (s : rp_state) : Prop := mk_closing_ok {
  cl_closed : ch_closed s = true -> rp_loop s = Returned;
  cl_block : rp_loop s <> Collecting -> rp_block s = true;
  cl_returned : rp_loop s = Returned -> rp_hand s = [] /\ rp_writer s = WIdle }.

Lemma req_own_ok s r : pool_ok s -> req_own s r -> (exists s', r = Ok s' /\ pool_ok s') \/ (r = Panic /\ ch_closed s = true /\ exists u i, rp_calls s !! u = Some (CReady i)).
Proof.
  intros Hok Hs. destruct Hs as [s u Hu|s u i Hu Hi|s u i Hu Hl|s u i q Hu Eq E0|s u i e Hu|s i ch El Ech|s Hl Ew Hh|s reqs e Ew|s e i reqs Ew|s e i reqs Ew|s e b Ew].
  - left. eexists. split; [reflexivity|]. assert (forall u' c, rp_calls s !! u' = Some c -> held c <> Some (rp_fresh s)) as Hfree.
    { intros u' c Hu' Hh. pose proof (po_calls s Hok u' c Hu') as Hc. assert (is_Some (rp_objs s !! rp_fresh s)) as Hx.
      { destruct c; cbn [held call_ok] in *; try done; injection Hh as ->; [destruct Hc as (_ & _ & q & -> & _)|destruct Hc as (q & -> & _)|destruct Hc as (_ & _ & q & -> & _)]; by eexists. }
      apply (po_fresh s Hok) in Hx. lia. }
    apply (fill_ok s u (rp_fresh s) (requestPool s) (S (rp_fresh s))); [done|done|done|done| |lia|lia].
    intros Hp. destruct (po_objs s Hok _ Hp) as [Hx _]. apply (po_fresh s Hok) in Hx. lia.
  - left. destruct (po_objs s Hok i Hi) as [[q Eq] Hfree]. unfold send_fill. rewrite Eq. eexists. split; [reflexivity|].
    apply (fill_ok s u i _ (rp_fresh s)); [done|done|done| | |lia|].
    + apply sublist_filter.
    + intros [Hx _]%list_elem_of_filter. done.
    + apply (po_fresh s Hok). by eexists.
  - unfold send_ch. destruct (ch_closed s) eqn:Ec; [right; split; [done|]; split; [done|]; by exists u, i|]. left. eexists. split; [reflexivity|]. by apply send_ok.
  - left. unfold wait_read. rewrite Eq. eexists. split; [reflexivity|]. destruct (po_calls s Hok u _ Hu) as (q' & Eq' & A & B & D). rewrite Eq in Eq'. injection Eq' as <-.
    destruct D as [[_ ?]|(D1 & _ & D3)]; [lia|]. apply set_call_ok; [done| | | |done].
    + split; [done|]. split; [done|]. by exists q.
    + intros j Hj. rewrite Hu in Hj. by injection Hj as <-.
    + intros j [= <-]. by eexists.
  - left. destruct (po_calls s Hok u _ Hu) as (_ & _ & q & Eq & _ & Er & _). unfold wait_return, req_DecrRef. rewrite Eq, Er. cbn [obind]. eexists. split; [reflexivity|].
    exact (return_ok s u i e _ Hok Hu).
  - left. eexists. split; [reflexivity|]. apply (moved_ok s); try done.
    + unfold flight. cbn. rewrite Ech. solve_Permutation.
    + intros j. unfold unwritten. cbn. rewrite Ech, !elem_of_app, !elem_of_cons, elem_of_nil. tauto.
  - left. eexists. split; [reflexivity|]. apply (moved_ok s); try done.
    + unfold flight. cbn. rewrite Ew. cbn. by rewrite app_nil_r.
    + intros j. unfold unwritten. cbn. rewrite Ew, !elem_of_app. tauto.
  - left. eexists. split; [reflexivity|]. by apply write_ok.
  - left. assert (i ∈ flight s) as Hif by (unfold flight; rewrite Ew; cbn [phase_reqs]; rewrite !elem_of_app; right; right; left).
    destruct (flight_call s i Hok Hif) as (u & q & _ & Eq & _). unfold done_err. rewrite Eq. eexists. split; [reflexivity|]. by apply done_err_ok.
  - left. assert (i ∈ flight s) as Hif by (unfold flight; rewrite Ew; cbn [phase_reqs]; rewrite !elem_of_app; right; right; left).
    destruct (flight_call s i Hok Hif) as (u & q & _ & Eq & _). unfold done_wg. rewrite Eq. destruct (done_wg_ok s e i reqs q Hok Ew Eq) as [E1 Hok'].
    unfold req_wg_Add. rewrite E1. eexists. split; [reflexivity|]. exact Hok'.
  - left. eexists. split; [reflexivity|]. apply (moved_ok s); try done.
    + unfold flight. cbn. by rewrite Ew.
    + intros j. unfold unwritten. cbn. by rewrite Ew.
Qed.
Lemma req_outer_ok s s' : pool_ok s -> req_outer s (Ok s') -> pool_ok s'.
Proof.
  intros Hok Hs. inversion Hs as [? u Hu E|? E|? Hb El Ech E|? El Eh Ew E|? El Ec E|? p Hp E]; subst; [|by apply (moved_ok s)|by apply (moved_ok s)| |by apply (moved_ok s)|by apply (moved_ok s)].
  2: { apply (moved_ok s); try done; [by unfold flight; cbn; rewrite Eh|intros i; unfold unwritten; cbn; by rewrite Eh]. }
  unfold send_check. pose proof (po_new s Hok u Hu) as Hn. destruct (rp_block s); (apply set_call_ok; [done|done|congruence|done|done]).
Qed.
Lemma req_step_ok s s' : pool_ok s -> req_step s s' -> pool_ok s'.
Proof. intros Hok [Hs|Hs]; [|by eapply req_outer_ok]. destruct (req_own_ok s _ Hok Hs) as [(s1 & [= <-] & Hok')|[? _]]; done. Qed.
Lemma closing_same s s' : closing_ok s -> ch_closed s' = ch_closed s -> rp_block s' = rp_block s -> rp_loop s' = rp_loop s -> rp_hand s' = rp_hand s -> rp_writer s' = rp_writer s -> closing_ok s'.
Proof. intros [H1 H2 H3] E1 E2 E3 E4 E5. split; rewrite ?E1, ?E2, ?E3, ?E4, ?E5; done. Qed.
(** the loop or [writeRequests] moves while the loop runs *)
Lemma closing_busy s s' : closing_ok s -> rp_loop s <> Returned -> ch_closed s' = ch_closed s -> rp_block s' = rp_block s -> rp_loop s' = rp_loop s -> closing_ok s'.
Proof. intros [H1 H2 H3] Hl E1 E2 E3. split; rewrite ?E1, ?E2, ?E3; [done|done|]. intros E. by destruct Hl. Qed.
Lemma closing_own s s' : closing_ok s -> req_own s (Ok s') -> closing_ok s'.
Proof.
  intros Hc Hs. pose proof (cl_returned s Hc) as H3. remember (Ok s') as r eqn:Er.
  destruct Hs as [s u Hu|s u i Hu Hi|s u i Hu Hl|s u i q Hu Eq E0|s u i e Hu|s i ch El Ech|s Hl Ew Hh|s reqs e Ew|s e i reqs Ew|s e i reqs Ew|s e b Ew].
  - injection Er as <-. by apply (closing_same s).
  - unfold send_fill in Er. destruct (rp_objs s !! i); [|done]. injection Er as <-. by apply (closing_same s).
  - unfold send_ch in Er. destruct (ch_closed s) eqn:Ec; [done|]. injection Er as <-. by apply (closing_same s).
  - unfold wait_read in Er. destruct (rp_objs s !! i); [|done]. injection Er as <-. by apply (closing_same s).
  - unfold wait_return, req_DecrRef in Er. destruct (rp_objs s !! i) as [q|]; [|done]. destruct (0 <? q_ref q - 1); injection Er as <-; by apply (closing_same s).
  - injection Er as <-. apply (closing_busy s); [done|by rewrite El|done..].
  - injection Er as <-. by apply (closing_busy s).
  - injection Er as <-. apply (closing_busy s); [done|intros E; destruct (H3 E); congruence|done..].
  - unfold done_err in Er. destruct (rp_objs s !! i); [|done]. injection Er as <-. apply (closing_busy s); [done|intros E; destruct (H3 E); congruence|done..].
  - unfold done_wg in Er. destruct (rp_objs s !! i) as [q|]; [|done]. unfold req_wg_Add in Er. destruct (q_wg q + -1 <? 0); [done|]. injection Er as <-.
    apply (closing_busy s); [done|intros E; destruct (H3 E); congruence|done..].
  - injection Er as <-. apply (closing_busy s); [done|intros E; destruct (H3 E); congruence|done..].
Qed.
Lemma closing_step s s' : closing_ok s -> req_step s s' -> closing_ok s'.
Proof.
  intros Hc [Hs|Hs]; [by eapply closing_own|]. pose proof Hc as [H1 H2 H3]. inversion Hs as [? u Hu E|? E|? Hb El Ech E|? El Eh Ew E|? El Ec E|? p Hp E]; subst.
  - unfold send_check. destruct (rp_block s) eqn:Eb; by apply (closing_same s).
  - split; cbn; done.
  - split; cbn; [intros E; rewrite (H1 E) in El; done|done|done].
  - split; cbn; [done|intros _; apply H2; by rewrite El|done].
  - split; cbn; [done|done|done].
  - by apply (closing_same s).
Qed.
Lemma req_steps_ok a s : rtc req_step a s -> pool_ok a -> closing_ok a -> pool_ok s /\ closing_ok s.
Proof. induction 1 as [|a b c Hs _ IH]; [done|]. intros Hp Hc. apply IH; [by eapply req_step_ok|by eapply closing_step]. Qed.
Lemma reach_ok s : rtc req_step no_requests s -> pool_ok s /\ closing_ok s.
Proof. intros Hr. apply (req_steps_ok _ _ Hr); [apply no_requests_ok|by split]. Qed.

(** ** Nothing is left waiting *)

Lemma req_not_stuck s u c : pool_ok s -> rp_loop s = Collecting -> ch_closed s = false -> rp_calls s !! u = Some c -> (forall e, c <> CReturned e) -> c <> CRefused -> exists s', req_own s (Ok s').
Proof.
  intros Hok El Ec Hu Hn1 Hn2.
  destruct (rp_writer s) as [|reqs|e [|i reqs] b] eqn:Ew.
  - destruct (rp_hand s) as [|h hand] eqn:Eh; [|exists (set_writer (set_loop s (rp_loop s) []) (WBatch (rp_hand s))); apply rq_take; congruence].
    destruct (writeCh s) as [|i ch] eqn:Ech; [|eexists; by apply (rq_recv s i ch)].
    assert (flight s = []) as Hf by (unfold flight; by rewrite Ech, Eh, Ew).
    assert (forall r, req_own s r -> exists s', req_own s (Ok s')) as Hstep.
    { intros r Hr. destruct (req_own_ok s r Hok Hr) as [(s' & -> & _)|(_ & E & _)]; [by exists s'|congruence]. }
    destruct c as [|i|i|i e|e|]; [..|by destruct (Hn1 e)|done].
    + eapply Hstep. by apply (rq_fill s u).
    + eapply Hstep. apply (rq_send s u i); [done|]. rewrite Ech. cbn. unfold chCapacity. lia.
    + destruct (po_calls s Hok u _ Hu) as (q & Eq & _ & _ & [[Hx _]|(_ & Hx & _)]); [rewrite Hf in Hx; by apply not_elem_of_nil in Hx|].
      eapply Hstep. by apply (rq_wait s u i q).
    + eapply Hstep. by apply (rq_return s u i e).
  - eexists. by apply (rq_write s reqs None).
  - eexists. by apply (rq_idle s e b).
  - destruct b; [destruct (req_own_ok s _ Hok (rq_done s e i reqs Ew)) as [(s' & E & _)|(_ & E & _)]|destruct (req_own_ok s _ Hok (rq_err s e i reqs Ew)) as [(s' & E & _)|(_ & E & _)]]; try congruence;
      exists s'; rewrite <- E; by constructor.
Qed.
(** a request that is sent when the loop has stopped collecting *)
Lemma abandoned_step s s' u i : pool_ok s -> closing_ok s -> rp_loop s <> Collecting /\ i ∈ writeCh s /\ rp_calls s !! u = Some (CWaiting i) -> req_step s s' ->
  rp_loop s' <> Collecting /\ i ∈ writeCh s' /\ rp_calls s' !! u = Some (CWaiting i).
Proof.
  intros Hok Hcl (Hl & Hi & Hu) [Hs|Hs].
  - remember (Ok s') as r eqn:Er.
    destruct Hs as [s v Hv|s v j Hv Hj|s v j Hv Hlen|s v j q Hv Eq E0|s v j e Hv|s j ch El Ech|s _ Ew Hh|s reqs e Ew|s e j reqs Ew|s e j reqs Ew|s e b Ew];
      try (assert (v <> u) as Hvu by congruence).
    + injection Er as <-. cbn. by rewrite lookup_insert_ne.
    + unfold send_fill in Er. destruct (rp_objs s !! j); [|done]. injection Er as <-. cbn. by rewrite lookup_insert_ne.
    + unfold send_ch in Er. destruct (ch_closed s); [done|]. injection Er as <-. cbn. rewrite lookup_insert_ne, elem_of_app by done. split; [done|]. split; [by left|done].
    + unfold wait_read in Er. destruct (rp_objs s !! j) eqn:E; [|done]. injection Er as <-. cbn. split; [done|]. split; [done|]. rewrite lookup_insert_ne; [done|]. intros ->.
      rewrite Hu in Hv. injection Hv as <-. assert (i ∈ flight s) as Hif by (unfold flight; apply elem_of_app; by left).
      destruct (flight_call s i Hok Hif) as (w & q' & _ & Eq' & _ & _ & E1). rewrite E in Eq'. injection Eq' as ->. injection Eq as ->. lia.
    + unfold wait_return, req_DecrRef in Er. destruct (rp_objs s !! j) as [q|]; [|done]. destruct (0 <? q_ref q - 1); injection Er as <-; cbn; by rewrite lookup_insert_ne.
    + by destruct Hl.
    + by injection Er as <-.
    + by injection Er as <-.
    + unfold done_err in Er. destruct (rp_objs s !! j); [|done]. by injection Er as <-.
    + unfold done_wg in Er. destruct (rp_objs s !! j) as [q|]; [|done]. unfold req_wg_Add in Er. destruct (q_wg q + -1 <? 0); [done|]. by injection Er as <-.
    + by injection Er as <-.
  - inversion Hs as [? v Hv E|? E|? Hb El Ech E|? El Eh Ew E|? El Ec E|? p Hp E]; subst; try done.
    unfold send_check. assert (v <> u) by congruence. destruct (rp_block s); cbn; by rewrite lookup_insert_ne.
Qed.
Lemma abandoned s s' u i : pool_ok s -> closing_ok s -> rp_loop s <> Collecting -> i ∈ writeCh s -> rp_calls s !! u = Some (CWaiting i) -> rtc req_step s s' ->
  rp_calls s' !! u = Some (CWaiting i).
Proof.
  intros Hp Hc H1 H2 H3 Hr. induction Hr as [|a b c Hs _ IH]; [done|]. destruct (abandoned_step a b u i Hp Hc ltac:(done) Hs) as (A & B & C).
  apply IH; [by eapply req_step_ok|by eapply closing_step|done..].
Qed.

(** C17: In every interleaving of callers, write loop and close, no two write calls share a pooled
    request and none in use is in the pool, every request the loop holds has the entries of the call
    that waits for it, each call's entries are written at most once and the call returns exactly the
    error of that write, and as long as the partition is not closed nothing panics and no call is
    left waiting. A call that is past its check when the partition is closed has no such luck: if
    the loop no longer collects it waits for ever, and once the channel is closed its send panics.
    *)
Theorem write_requests_answered s : rtc req_step no_requests s ->
  (forall r, req_own s r -> (exists s', r = Ok s') \/ (r = Panic /\ ch_closed s = true)) /\
  NoDup (rp_written s).*1 /\ (forall u e, rp_calls s !! u = Some (CReturned e) -> (u, e) ∈ rp_written s) /\
  (forall i, i ∈ flight s -> rp_calls s !! entries_of s i = Some (CWaiting i) /\ i ∉ requestPool s) /\
  (forall u u' c c' i, rp_calls s !! u = Some c -> rp_calls s !! u' = Some c' -> held c = Some i -> held c' = Some i -> u = u') /\
  (rp_block s = false -> (forall s', ~ req_own s (Ok s')) -> forall u c, rp_calls s !! u = Some c -> c = CRefused \/ exists e, c = CReturned e) /\
  (forall u i, rp_loop s <> Collecting -> i ∈ writeCh s -> rp_calls s !! u = Some (CWaiting i) -> forall s', rtc req_step s s' -> rp_calls s' !! u = Some (CWaiting i)) /\
  (forall u i, ch_closed s = true -> rp_calls s !! u = Some (CReady i) -> send_ch s u i = Panic).
Proof.
  intros [Hok Hcl]%reach_ok. split; [|split; [|split; [|split; [|split; [|split; [|split]]]]]].
  - intros r Hr. destruct (req_own_ok s r Hok Hr) as [(s' & -> & _)|(-> & E & _)]; [left; by exists s'|by right].
  - apply Hok.
  - intros u e Hu. exact (po_calls s Hok u _ Hu).
  - intros i Hi. split; [|by apply flight_not_pool]. destruct (flight_call s i Hok Hi) as (u & q & Hu & Eq & Eu & _). unfold entries_of. rewrite Eq. by subst u.
  - apply Hok.
  - intros Hb Hno u c Hu. destruct (rp_loop s) eqn:El; [|by rewrite (cl_block s Hcl) in Hb; [|rewrite El]..].
    assert (ch_closed s = false) as Ec by (destruct (ch_closed s) eqn:E; [|done]; apply (cl_closed s Hcl) in E; congruence).
    destruct c as [|i|i|i e|e|]; [..|right; by exists e|by left]; (destruct (req_not_stuck s u _ Hok El Ec Hu) as (s' & Hs); [done|done|by destruct (Hno s')]).
  - intros u i Hl Hi Hu s' Hr. by apply (abandoned s).
  - intros u i Hc _. unfold send_ch. by rewrite Hc.
Qed.
