(* ===== verification/Proto.v ===== *)
(** Wire codecs of the messages the data path stores (generated gogo-protobuf
    code of proto/pb and proto/pspb): varints, the backward-writing
    [MarshalToSizedBuffer], [Size], and the decoding loop with unknown-field
    skipping; the messages [pb.Entry], [pb.EntryInfo] and [pb.Block]. *)
From Stdlib Require Import ZArith Lia.
From stdpp Require Import base option list numbers strings.
From S2P Require Import Prelude GoLib.

Definition ErrIntOverflow : error := Errorf "proto: integer overflow".
Definition ErrInvalidLength : error := Errorf "proto: negative length found during unmarshaling".
Definition ErrUnexpectedEndOfGroup : error := Errorf "proto: unexpected end of group".
Definition ErrWrongWireType : error := Errorf "proto: wrong wireType".

(** ** Varints *)

(** [sovPb]: encoded length, [(bits.Len64(x|1)+6)/7] *)
Definition Len64 (x : Z) : Z := if x =? 0 then 0 else Z.log2 x + 1.
Definition sov (x : Z) : Z := (Len64 (Z.lor x 1) + 6) / 7.

(** the bytes [encodeVarintPb] stores *)
Fixpoint varint_bytes (fuel : nat) (v : Z) : bytes :=
  match fuel with
  | O => []
  | S f =>
      if 128 <=? v then byte_of (Z.lor (Z.land v 127) 128) :: varint_bytes f (Z.shiftr v 7)
      else [byte_of v]
  end.

(** [encodeVarintPb(dAtA, offset, v)]: the buffer is written backwards *)
Definition encodeVarintPb (dAtA : bytes) (offset v : Z) : outcome (bytes * Z) :=
  let base := offset - sov v in
  if base <? 0 then Panic else Ok (copy_at dAtA base (varint_bytes 10 v), base).

(** [i -= len(bs); copy(dAtA[i:], bs)] *)
Definition put_back (dAtA : bytes) (i : Z) (bs : bytes) : outcome (bytes * Z) :=
  let i' := i - zlen bs in
  if i' <? 0 then Panic else Ok (copy_at dAtA i' bs, i').

(** the inlined decoding loop, at the width [w] of the variable it fills *)
Fixpoint get_varint (w : Z) (fuel : nat) (shift acc idx : Z) (d : bytes) : outcome (Z * Z * bytes) :=
  match fuel with
  | O => Err ErrIntOverflow
  | S f =>
      match d with
      | [] => Err ErrUnexpectedEOF
      | b :: d' =>
          let acc' := Z.lor acc (Z.shiftl (Z.land (byte_Z b) 127) shift mod 2 ^ w) in
          if byte_Z b <? 128 then Ok (acc', idx + 1, d')
          else get_varint w f (shift + 7) acc' (idx + 1) d'
      end
  end.
Definition varint (w idx : Z) (d : bytes) : outcome (Z * Z * bytes) := get_varint w 10 0 0 idx d.

Definition int32 (z : Z) : Z := (z + 2 ^ 31) mod 2 ^ 32 - 2 ^ 31.

(** ** Decoding loop *)

(** [skipPb]: length of the field at the head of the buffer *)
Fixpoint skip_loop (fuel : nat) (depth idx : Z) (d : bytes) : outcome Z :=
  match fuel with
  | O => Panic
  | S f =>
      match d with
      | [] => Err ErrUnexpectedEOF
      | _ =>
          let! (wire, i1, d1) := varint 64 idx d in
          let continue (depth i : Z) (d : bytes) :=
            if i <? 0 then Err ErrInvalidLength
            else if depth =? 0 then Ok i else skip_loop f depth i d in
          match Z.land wire 7 with
          | 0 => let! (_, i2, d2) := varint 64 i1 d1 in continue depth i2 d2
          | 1 => continue depth (i1 + 8) (zdrop 8 d1)
          | 2 =>
              let! (n, i2, d2) := varint 64 i1 d1 in
              let length := int64 n in
              if length <? 0 then Err ErrInvalidLength
              else continue depth (int64 (i2 + length)) (zdrop length d2)
          | 3 => continue (depth + 1) i1 d1
          | 4 => if depth =? 0 then Err ErrUnexpectedEndOfGroup else continue (depth - 1) i1 d1
          | 5 => continue depth (i1 + 4) (zdrop 4 d1)
          | _ => Err (Errorf "proto: illegal wireType")
          end
      end
  end.
Definition skipPb (d : bytes) : outcome Z := skip_loop (S (length d)) 0 0 d.

Section unmarshal.
Context {M : Type}.
(** the message's [switch fieldNum]: [None] is its [default] branch *)
Variable field : Z -> Z -> M -> Z -> bytes -> option (outcome (M * Z * bytes)).

(** the outer loop of every [Unmarshal]; [idx] is [iNdEx] and [d] is
    [dAtA[iNdEx:]] *)
Fixpoint unmarshal_loop (fuel : nat) (m : M) (idx : Z) (d : bytes) : outcome M :=
  match fuel with
  | O => Panic
  | S f =>
      match d with
      | [] => Ok m
      | _ =>
          let! (wire, i1, d1) := varint 64 idx d in
          let fieldNum := int32 (Z.shiftr wire 3) in
          let wireType := Z.land wire 7 in
          if wireType =? 4 then Err (Errorf "proto: wiretype end group for non-group")
          else if fieldNum <=? 0 then Err (Errorf "proto: illegal tag")
          else match field fieldNum wireType m i1 d1 with
               | Some r => let! (m', i2, d2) := r in unmarshal_loop f m' i2 d2
               | None =>
                   let! skippy := skipPb d in
                   if skippy <? 0 then Err ErrInvalidLength
                   else if int64 (idx + skippy) <? 0 then Err ErrInvalidLength
                   else if zlen d <? skippy then Err ErrUnexpectedEOF
                   else unmarshal_loop f m (idx + skippy) (zdrop skippy d)
               end
      end
  end.
Definition unmarshal (m0 : M) (dAtA : bytes) : outcome M :=
  unmarshal_loop (S (length dAtA)) m0 0 dAtA.
End unmarshal.

(** a length-delimited field: the bytes, the index after them, the rest *)
Definition get_bytes (idx : Z) (d : bytes) : outcome (bytes * Z * bytes) :=
  let! (n, i1, d1) := varint 64 idx d in
  let byteLen := int64 n in
  if byteLen <? 0 then Err ErrInvalidLength
  else let postIndex := int64 (i1 + byteLen) in
  if postIndex <? 0 then Err ErrInvalidLength
  else if zlen d1 <? byteLen then Err ErrUnexpectedEOF
  else let! v := slice d1 0 byteLen in Ok (v, postIndex, zdrop byteLen d1).

Definition varint_field {M} (w wireType : Z) (set : Z -> M) (idx : Z) (d : bytes)
  : outcome (M * Z * bytes) :=
  if negb (wireType =? 0) then Err ErrWrongWireType
  else let! (v, i, d') := varint w idx d in Ok (set v, i, d').
Definition bytes_field {M} (wireType : Z) (set : bytes -> M) (idx : Z) (d : bytes)
  : outcome (M * Z * bytes) :=
  if negb (wireType =? 2) then Err ErrWrongWireType
  else let! (v, i, d') := get_bytes idx d in Ok (set v, i, d').

(** ** pb.Entry *)

Record Entry := mkEntry {
  Key : bytes; Value : bytes; Meta : Z; UserMeta : Z; ExpiresAt : Z }.
Definition emptyEntry : Entry := mkEntry [] [] 0 0 0.
#[export] Instance Entry_eq_dec : EqDecision Entry.
Proof. solve_decision. Defined.

Definition Entry_Size (m : Entry) : Z :=
  let n := 0 in
  let n := if 0 <? zlen (Key m) then n + (1 + zlen (Key m) + sov (zlen (Key m))) else n in
  let n := if 0 <? zlen (Value m) then n + (1 + zlen (Value m) + sov (zlen (Value m))) else n in
  let n := if negb (Meta m =? 0) then n + (1 + sov (Meta m)) else n in
  let n := if negb (UserMeta m =? 0) then n + (1 + sov (UserMeta m)) else n in
  let n := if negb (ExpiresAt m =? 0) then n + (1 + sov (ExpiresAt m)) else n in
  n.

(** one backward field: payload (for bytes), varint, tag *)
Definition back_varint (tag v : Z) (st : bytes * Z) : outcome (bytes * Z) :=
  if negb (v =? 0) then
    let! (d, i) := encodeVarintPb (fst st) (snd st) v in put_back d i [byte_of tag]
  else Ok st.
Definition back_bytes (tag : Z) (bs : bytes) (st : bytes * Z) : outcome (bytes * Z) :=
  if 0 <? zlen bs then
    let! (d, i) := put_back (fst st) (snd st) bs in
    let! (d', i') := encodeVarintPb d i (zlen bs) in
    put_back d' i' [byte_of tag]
  else Ok st.

Definition Entry_MarshalToSizedBuffer (m : Entry) (dAtA : bytes) : outcome (bytes * Z) :=
  let! st := back_varint 40 (ExpiresAt m) (dAtA, zlen dAtA) in
  let! st := back_varint 32 (UserMeta m) st in
  let! st := back_varint 24 (Meta m) st in
  let! st := back_bytes 18 (Value m) st in
  let! st := back_bytes 10 (Key m) st in
  Ok (fst st, zlen dAtA - snd st).

(** [MarshalTo(dAtA)] marshals into [dAtA[:size]] and leaves the rest *)
Definition Entry_MarshalTo (m : Entry) (dAtA : bytes) : outcome (bytes * Z) :=
  let size := Entry_Size m in
  let! head := slice dAtA 0 size in
  let! (d, n) := Entry_MarshalToSizedBuffer m head in
  Ok (d ++ zdrop size dAtA, n).

Definition Entry_field (fieldNum wireType : Z) (m : Entry) (idx : Z) (d : bytes)
  : option (outcome (Entry * Z * bytes)) :=
  match fieldNum with
  | 1 => Some (bytes_field wireType
           (fun v => mkEntry v (Value m) (Meta m) (UserMeta m) (ExpiresAt m)) idx d)
  | 2 => Some (bytes_field wireType
           (fun v => mkEntry (Key m) v (Meta m) (UserMeta m) (ExpiresAt m)) idx d)
  | 3 => Some (varint_field 32 wireType
           (fun v => mkEntry (Key m) (Value m) v (UserMeta m) (ExpiresAt m)) idx d)
  | 4 => Some (varint_field 32 wireType
           (fun v => mkEntry (Key m) (Value m) (Meta m) v (ExpiresAt m)) idx d)
  | 5 => Some (varint_field 64 wireType
           (fun v => mkEntry (Key m) (Value m) (Meta m) (UserMeta m) v) idx d)
  | _ => None
  end.
Definition Entry_Unmarshal (dAtA : bytes) : outcome Entry :=
  unmarshal Entry_field emptyEntry dAtA.

(** ** pb.EntryInfo and pb.Block *)

Record EntryInfo := mkEI { Log : Entry; EI_ExtentID : Z; EI_Offset : Z; EstimatedSize : Z }.
#[export] Instance EntryInfo_eq_dec : EqDecision EntryInfo.
Proof. solve_decision. Defined.
Definition EntryInfo_Size (m : EntryInfo) : Z :=
  let l := Entry_Size (Log m) in
  let n := 1 + l + sov l in
  let n := if negb (EI_ExtentID m =? 0) then n + (1 + sov (EI_ExtentID m)) else n in
  let n := if negb (EI_Offset m =? 0) then n + (1 + sov (EI_Offset m)) else n in
  let n := if negb (EstimatedSize m =? 0) then n + (1 + sov (EstimatedSize m)) else n in
  n.

Record Block := mkBlock { CheckSum : Z; BlockLength : Z; UserData : bytes; Data : bytes }.
#[export] Instance Block_eq_dec : EqDecision Block.
Proof. solve_decision. Defined.

Lemma varint_bytes_S f v : varint_bytes (S f) v =
  if 128 <=? v then byte_of (Z.lor (Z.land v 127) 128) :: varint_bytes f (Z.shiftr v 7)
  else [byte_of v].
Proof. done. Qed.
Lemma get_varint_S w f shift acc idx b d : get_varint w (S f) shift acc idx (b :: d) =
  let acc' := Z.lor acc (Z.shiftl (Z.land (byte_Z b) 127) shift mod 2 ^ w) in
  if byte_Z b <? 128 then Ok (acc', idx + 1, d)
  else get_varint w f (shift + 7) acc' (idx + 1) d.
Proof. done. Qed.
#[global] Arguments varint_bytes : simpl never.
#[global] Arguments get_varint : simpl never.

(** ** Lemmas on varints *)

Lemma varint_bytes_put fuel v : 0 <= v -> varint_bytes fuel v = put_uvarint fuel v.
Proof.
  revert v. induction fuel as [|f IH]; intros v Hv; [done|]. rewrite varint_bytes_S, put_uvarint_S.
  destruct (Z.leb_spec 128 v); [|done]. f_equal.
  - apply byte_Z_inj. rewrite !low7_cont by (try apply Z.land_nonneg; lia).
    change 127 with (Z.ones 7). rewrite Z.land_ones, Z.mod_mod by done. done.
  - apply IH. apply Z.shiftr_nonneg. lia.
Qed.

Lemma log2_lor1 x : 0 <= x -> Z.log2 (Z.lor x 1) = Z.log2 x.
Proof. intros. rewrite Z.log2_lor by lia. pose proof (Z.log2_nonneg x). simpl. lia. Qed.

Lemma lor1_pos x : 0 <= x -> Z.lor x 1 <> 0.
Proof. intros H E. apply Z.lor_eq_0_iff in E. lia. Qed.

Lemma put_uvarint_length fuel : forall x, (0 < fuel)%nat -> 0 <= x < 2 ^ (7 * Z.of_nat fuel) ->
  zlen (put_uvarint fuel x) = Z.log2 x / 7 + 1.
Proof.
  induction fuel as [|f IH]; intros x Hf Hx; [lia|]. rewrite put_uvarint_S.
  destruct (Z.leb_spec 128 x).
  - assert (E : Z.log2 (Z.shiftr x 7) = Z.log2 x - 7).
    { rewrite Z.log2_shiftr by lia. assert (7 <= Z.log2 x) by (apply (Z.log2_le_mono 128); lia). lia. }
    assert (Hs : 0 <= Z.shiftr x 7 < 2 ^ (7 * Z.of_nat f)).
    { rewrite Z.shiftr_div_pow2 by done. split; [apply Z.div_pos; lia|].
      apply Z.div_lt_upper_bound; [done|]. rewrite <- Z.pow_add_r by lia.
      replace (7 + 7 * Z.of_nat f) with (7 * Z.of_nat (S f)) by lia. lia. }
    rewrite zlen_cons. destruct f as [|f].
    { rewrite Z.shiftr_div_pow2 in Hs by done. change (2 ^ (7 * Z.of_nat 0)) with 1 in Hs.
      assert (1 <= x / 2 ^ 7) by (apply Z.div_le_lower_bound; lia). lia. }
    rewrite IH, E by lia. replace (Z.log2 x) with (Z.log2 x - 7 + 1 * 7) at 2 by lia.
    rewrite Z.div_add by done. lia.
  - rewrite zlen_cons, zlen_nil. rewrite Z.div_small; [done|].
    split; [apply Z.log2_nonneg|]. destruct (decide (x = 0)) as [->|]; [done|].
    apply Z.log2_lt_pow2; lia.
Qed.

(** [sovPb] is the length of the encoding. *)
Lemma sov_spec x : 0 <= x < 2 ^ 64 -> sov x = zlen (varint_bytes 10 x).
Proof.
  intros. rewrite varint_bytes_put, put_uvarint_length by (simpl; lia).
  unfold sov, Len64. destruct (Z.eqb_spec (Z.lor x 1) 0) as [E|E]; [destruct (lor1_pos x); lia|].
  rewrite log2_lor1 by lia. replace (Z.log2 x + 1 + 6) with (Z.log2 x + 1 * 7) by lia.
  by rewrite Z.div_add.
Qed.

Lemma varint_bytes_pos x : 0 <= x < 2 ^ 64 -> 1 <= zlen (varint_bytes 10 x) <= 10.
Proof. intros. rewrite varint_bytes_put by lia. by apply zlen_PutUvarint. Qed.

Lemma get_varint_put w fuel rest : 7 < w -> forall v shift acc idx,
  (0 < fuel)%nat -> 0 <= shift -> 0 <= acc < 2 ^ shift -> 0 <= v < 2 ^ (7 * Z.of_nat fuel) ->
  acc + v * 2 ^ shift < 2 ^ w ->
  get_varint w fuel shift acc idx (put_uvarint fuel v ++ rest) =
  Ok (acc + v * 2 ^ shift, idx + zlen (put_uvarint fuel v), rest).
Proof.
  intros Hw. induction fuel as [|f IH]; intros v shift acc idx Hn Hs Hacc Hv Hb; [lia|].
  assert (Hp : 0 < 2 ^ shift) by (apply Z.pow_pos_nonneg; lia).
  rewrite put_uvarint_S. destruct (Z.leb_spec 128 v) as [Hge|Hlt]; cbn [app]; rewrite get_varint_S; cbv zeta.
  - rewrite low7_cont by lia. pose proof (Z.mod_pos_bound v 128 ltac:(done)).
    destruct (Z.ltb_spec (v mod 128 + 128) 128); [lia|]. rewrite land_low7 by done.
    assert (Hdm : v = 128 * (v / 128) + v mod 128) by (apply Z.div_mod; done).
    assert (0 <= v / 128) by (apply Z.div_pos; lia).
    rewrite Z.shiftl_mul_pow2 by lia. rewrite (Z.mod_small (_ * _)) by nia.
    rewrite lor_mul_add by lia.
    assert (E7 : 2 ^ (shift + 7) = 128 * 2 ^ shift) by (rewrite Z.pow_add_r by lia; lia).
    assert (v / 128 < 2 ^ (7 * Z.of_nat f)).
    { apply Z.div_lt_upper_bound; [done|]. change 128 with (2 ^ 7) at 1.
      rewrite <- Z.pow_add_r by lia.
      replace (7 + 7 * Z.of_nat f) with (7 * Z.of_nat (S f)) by lia. lia. }
    assert (0 < f)%nat by (destruct f; [simpl in Hv|]; lia).
    rewrite Z.shiftr_div_pow2 by done. change (2 ^ 7) with 128.
    rewrite IH; [|lia|lia|rewrite E7; nia|lia|rewrite E7; nia].
    rewrite E7, zlen_cons.
    replace (acc + v mod 128 * 2 ^ shift + v / 128 * (128 * 2 ^ shift)) with (acc + v * 2 ^ shift) by nia.
    by rewrite Z.add_assoc.
  - rewrite byte_Z_small by lia. destruct (Z.ltb_spec v 128); [|lia].
    change 127 with (Z.ones 7). rewrite Z.land_ones, (Z.mod_small v) by lia.
    rewrite Z.shiftl_mul_pow2 by lia. rewrite (Z.mod_small (_ * _)) by nia.
    rewrite lor_mul_add by lia.
    rewrite zlen_cons, zlen_nil. by rewrite Z.add_0_r.
Qed.

Lemma varint_put w idx v rest :
  7 < w <= 64 -> 0 <= v < 2 ^ w ->
  varint w idx (varint_bytes 10 v ++ rest) = Ok (v, idx + zlen (varint_bytes 10 v), rest).
Proof.
  intros Hw Hv. assert (2 ^ w <= 2 ^ 64) by (apply Z.pow_le_mono_r; lia).
  rewrite varint_bytes_put by lia. unfold varint.
  rewrite get_varint_put by (try lia; change (2 ^ 0) with 1; lia).
  change (2 ^ 0) with 1. by rewrite Z.mul_1_r, Z.add_0_l.
Qed.

(** a variable narrower than the varint keeps its low bits *)
Lemma get_varint_trunc w fuel : 0 <= w <= 64 -> forall shift acc idx d v i d', 0 <= shift ->
  get_varint 64 fuel shift acc idx d = Ok (v, i, d') ->
  get_varint w fuel shift (acc mod 2 ^ w) idx d = Ok (v mod 2 ^ w, i, d').
Proof.
  intros Hw.
  induction fuel as [|f IH]; intros shift acc idx [|b d] v i d' Hs E; [done|done|done|].
  rewrite get_varint_S in *. cbv zeta in *.
  set (x := Z.shiftl _ shift) in *.
  assert ((Z.lor acc (x mod 2 ^ 64)) mod 2 ^ w = Z.lor (acc mod 2 ^ w) (x mod 2 ^ w)) as Hm.
  { rewrite <- (Z.mod_mod_divide x (2 ^ 64) (2 ^ w)); [|exists (2 ^ (64 - w)); rewrite <- Z.pow_add_r by lia; f_equal; lia].
    rewrite <- !(Z.land_ones _ w) by lia. by rewrite Z.land_lor_distr_l. }
  destruct (byte_Z b <? 128).
  - injection E as <- <- <-. by rewrite Hm.
  - rewrite <- Hm. apply IH; [lia|done].
Qed.
Lemma varint_put_trunc w idx v rest : 0 <= w <= 64 -> 0 <= v < 2 ^ 64 ->
  varint w idx (varint_bytes 10 v ++ rest) = Ok (v mod 2 ^ w, idx + zlen (varint_bytes 10 v), rest).
Proof.
  intros Hw Hv. unfold varint. replace (get_varint w 10 0 0) with (get_varint w 10 0 (0 mod 2 ^ w)) by (by rewrite Z.mod_0_l by (apply Z.pow_nonzero; lia)).
  apply get_varint_trunc; [done|done|]. by apply (varint_put 64).
Qed.

(** ** The backward writer stores the concatenation of the fields *)

(** reference encodings *)
Definition fld_varint (tag v : Z) : bytes :=
  if v =? 0 then [] else byte_of tag :: varint_bytes 10 v.
Definition fld_bytes (tag : Z) (bs : bytes) : bytes :=
  if zlen bs =? 0 then [] else byte_of tag :: varint_bytes 10 (zlen bs) ++ bs.
Definition Entry_bytes (m : Entry) : bytes :=
  fld_bytes 10 (Key m) ++ fld_bytes 18 (Value m) ++
  fld_varint 24 (Meta m) ++ fld_varint 32 (UserMeta m) ++ fld_varint 40 (ExpiresAt m).

Definition is_u32 (v : Z) : Prop := 0 <= v < 2 ^ 32.
Definition is_u64 (v : Z) : Prop := 0 <= v < 2 ^ 64.
Definition is_i32 (v : Z) : Prop := - 2 ^ 31 <= v < 2 ^ 31.
Lemma int32_u64 t : is_i32 t -> int32 (u64 t mod 2 ^ 32) = t.
Proof. unfold is_i32, int32, u64. intros. rewrite Zplus_mod_idemp_l. Z.div_mod_to_equations. lia. Qed.
Lemma is_u64_u64 t : is_u64 (u64 t).
Proof. apply u64_range. Qed.
#[export] Hint Resolve is_u64_u64 : core.
Lemma u64_i32_eqb t : is_i32 t -> (u64 t =? 0) = (t =? 0).
Proof. unfold is_i32, u64. intros. destruct (Z.eqb_spec t 0), (Z.eqb_spec (t mod 2 ^ 64) 0); Z.div_mod_to_equations; lia. Qed.
(** the integers of the struct are in range and the slices are addressable *)
Definition Entry_wf (m : Entry) : Prop :=
  is_u32 (Meta m) /\ is_u32 (UserMeta m) /\ is_u64 (ExpiresAt m) /\
  zlen (Key m) < 2 ^ 48 /\ zlen (Value m) < 2 ^ 48.

Lemma copy_at_tail (pre out bs : bytes) :
  zlen bs <= zlen pre ->
  copy_at (pre ++ out) (zlen pre - zlen bs) bs = ztake (zlen pre - zlen bs) pre ++ bs ++ out.
Proof.
  intros. pose proof (zlen_nonneg bs). set (n := zlen pre - zlen bs).
  pose proof (copy_at_fits (ztake n pre) (zdrop n pre) out bs) as E.
  rewrite app_assoc, ztake_zdrop, zlen_ztake in E by lia. apply E. rewrite zlen_zdrop; lia.
Qed.

Lemma put_back_ok pre out bs i :
  i = zlen pre -> zlen bs <= i ->
  put_back (pre ++ out) i bs = Ok (ztake (i - zlen bs) pre ++ bs ++ out, i - zlen bs).
Proof.
  intros -> H. unfold put_back. destruct (Z.ltb_spec (zlen pre - zlen bs) 0); [lia|].
  by rewrite copy_at_tail.
Qed.

Lemma encodeVarint_ok pre out v i :
  is_u64 v -> i = zlen pre -> zlen (varint_bytes 10 v) <= i ->
  encodeVarintPb (pre ++ out) i v =
  Ok (ztake (i - zlen (varint_bytes 10 v)) pre ++ varint_bytes 10 v ++ out,
      i - zlen (varint_bytes 10 v)).
Proof.
  intros Hv -> H. unfold encodeVarintPb. rewrite sov_spec by done.
  destruct (Z.ltb_spec (zlen pre - zlen (varint_bytes 10 v)) 0); [lia|].
  by rewrite copy_at_tail.
Qed.

(** state of the writer: [pre] still unwritten, [out] written *)
Lemma back_varint_ok tag v pre out :
  is_u64 v -> zlen (fld_varint tag v) <= zlen pre ->
  exists pre', zlen pre' = zlen pre - zlen (fld_varint tag v) /\
    back_varint tag v (pre ++ out, zlen pre) = Ok (pre' ++ fld_varint tag v ++ out, zlen pre').
Proof.
  unfold back_varint, fld_varint. intros Hv H.
  destruct (Z.eqb_spec v 0) as [|Hne]; cbn [negb fst snd] in *;
    [exists pre; rewrite zlen_nil, Z.sub_0_r; done|].
  rewrite zlen_cons in *. pose proof (varint_bytes_pos v Hv).
  rewrite encodeVarint_ok by (done || lia). cbn [obind].
  set (n := zlen (varint_bytes 10 v)) in *.
  assert (E : zlen (ztake (zlen pre - n) pre) = zlen pre - n) by (apply zlen_ztake; lia).
  rewrite put_back_ok by (rewrite ?E, ?zlen_cons, ?zlen_nil; lia).
  rewrite zlen_cons, zlen_nil. eexists. split; [|f_equal; f_equal];
    rewrite zlen_ztake; rewrite ?E; lia.
Qed.

Lemma back_bytes_ok tag bs pre out :
  zlen bs < 2 ^ 48 -> zlen (fld_bytes tag bs) <= zlen pre ->
  exists pre', zlen pre' = zlen pre - zlen (fld_bytes tag bs) /\
    back_bytes tag bs (pre ++ out, zlen pre) = Ok (pre' ++ fld_bytes tag bs ++ out, zlen pre').
Proof.
  unfold back_bytes, fld_bytes. intros Hv H. pose proof (zlen_nonneg bs).
  destruct (Z.eqb_spec (zlen bs) 0) as [E|E].
  { rewrite E. cbn. exists pre. rewrite zlen_nil, Z.sub_0_r. done. }
  destruct (Z.ltb_spec 0 (zlen bs)); [|lia]. rewrite zlen_cons, zlen_app in *.
  assert (is_u64 (zlen bs)) as Hu by (unfold is_u64; lia).
  pose proof (varint_bytes_pos (zlen bs) Hu). cbn [fst snd].
  rewrite put_back_ok by lia. cbn [obind].
  set (n := zlen (varint_bytes 10 (zlen bs))) in *.
  set (pre1 := ztake (zlen pre - zlen bs) pre).
  assert (E1 : zlen pre1 = zlen pre - zlen bs) by (apply zlen_ztake; lia).
  rewrite encodeVarint_ok by (done || lia). cbn [obind]. fold n.
  assert (E2 : zlen (ztake (zlen pre - zlen bs - n) pre1) = zlen pre - zlen bs - n)
    by (apply zlen_ztake; lia).
  rewrite put_back_ok by (rewrite ?E2, ?zlen_cons, ?zlen_nil; lia).
  rewrite zlen_cons, zlen_nil.
  set (pre2 := ztake (zlen pre - zlen bs - n) pre1) in *.
  exists (ztake (zlen pre - zlen bs - n - (1 + 0)) pre2).
  rewrite zlen_ztake by lia. split; [lia|]. cbn [app]. rewrite <- app_assoc. done.
Qed.

Lemma zlen_fld_varint tag v : is_u64 v ->
  zlen (fld_varint tag v) = if negb (v =? 0) then 1 + sov v else 0.
Proof. intros. unfold fld_varint. destruct (v =? 0); cbn [negb]; [done|]. rewrite zlen_cons, sov_spec; done. Qed.
Lemma zlen_fld_bytes tag bs : zlen bs < 2 ^ 48 ->
  zlen (fld_bytes tag bs) = if 0 <? zlen bs then 1 + zlen bs + sov (zlen bs) else 0.
Proof.
  intros. pose proof (zlen_nonneg bs). unfold fld_bytes.
  destruct (Z.eqb_spec (zlen bs) 0) as [->|]; [done|].
  destruct (Z.ltb_spec 0 (zlen bs)); [|lia]. rewrite zlen_cons, zlen_app, sov_spec by lia. lia.
Qed.

Lemma is_u32_u64 v : is_u32 v -> is_u64 v.
Proof. unfold is_u32, is_u64. lia. Qed.
#[export] Hint Resolve is_u32_u64 : core.

(** [Size] is the length of the encoding. *)
Lemma Entry_Size_bytes m : Entry_wf m -> Entry_Size m = zlen (Entry_bytes m).
Proof.
  intros (?&?&?&?&?). unfold Entry_bytes. rewrite !zlen_app, !zlen_fld_bytes, !zlen_fld_varint by auto.
  unfold Entry_Size. repeat case_match; lia.
Qed.

(** run one field of a backward writer that has room for it *)
Ltac back_step :=
  match goal with
  | |- context [back_varint ?t ?v (?p ++ ?o, zlen ?p)] =>
      let p' := fresh "p" in let L := fresh "L" in
      destruct (back_varint_ok t v p o) as (p' & L & ->); [by auto|lia|]
  | |- context [back_bytes ?t ?v (?p ++ ?o, zlen ?p)] =>
      let p' := fresh "p" in let L := fresh "L" in
      destruct (back_bytes_ok t v p o) as (p' & L & ->); [by auto|lia|]
  end; cbn [obind].

Lemma Entry_MarshalToSizedBuffer_ok m buf :
  Entry_wf m -> zlen buf = Entry_Size m ->
  Entry_MarshalToSizedBuffer m buf = Ok (Entry_bytes m, Entry_Size m).
Proof.
  intros Hwf Hlen. pose proof (Entry_Size_bytes m Hwf) as Hsz. rewrite Hsz in *.
  destruct Hwf as (?&?&?&?&?). unfold Entry_bytes in *. rewrite !zlen_app in Hlen.
  pose proof (zlen_nonneg (fld_bytes 10 (Key m))). pose proof (zlen_nonneg (fld_bytes 18 (Value m))).
  pose proof (zlen_nonneg (fld_varint 24 (Meta m))). pose proof (zlen_nonneg (fld_varint 32 (UserMeta m))).
  unfold Entry_MarshalToSizedBuffer. rewrite <- (app_nil_r buf) at 1.
  do 5 back_step. cbn [fst snd].
  assert (p3 = []) as -> by (apply zlen_0_nil; lia).
  rewrite app_nil_r, zlen_nil, Z.sub_0_r. simpl. f_equal. f_equal. rewrite !zlen_app. lia.
Qed.

(** ** Decoding what was encoded *)

Lemma unmarshal_loop_S {M} (field : Z -> Z -> M -> Z -> bytes -> option (outcome (M * Z * bytes))) f m idx b d :
  unmarshal_loop field (S f) m idx (b :: d) =
  (let! (wire, i1, d1) := varint 64 idx (b :: d) in
   let fieldNum := int32 (Z.shiftr wire 3) in
   let wireType := Z.land wire 7 in
   if wireType =? 4 then Err (Errorf "proto: wiretype end group for non-group")
   else if fieldNum <=? 0 then Err (Errorf "proto: illegal tag")
   else match field fieldNum wireType m i1 d1 with
        | Some r => let! (m', i2, d2) := r in unmarshal_loop field f m' i2 d2
        | None =>
            let! skippy := skipPb (b :: d) in
            if skippy <? 0 then Err ErrInvalidLength
            else if int64 (idx + skippy) <? 0 then Err ErrInvalidLength
            else if zlen (b :: d) <? skippy then Err ErrUnexpectedEOF
            else unmarshal_loop field f m (idx + skippy) (zdrop skippy (b :: d))
        end).
Proof. done. Qed.
#[global] Arguments unmarshal_loop : simpl never.

Lemma varint_tag idx tag rest :
  0 <= tag < 128 -> varint 64 idx (byte_of tag :: rest) = Ok (tag, idx + 1, rest).
Proof.
  intros. pose proof (varint_put 64 idx tag rest) as E. rewrite varint_bytes_S in E.
  destruct (Z.leb_spec 128 tag); [lia|]. apply E; lia.
Qed.

Section decode.
Context {M : Type} (field : Z -> Z -> M -> Z -> bytes -> option (outcome (M * Z * bytes))).

(** [d] decodes to [m'] from the partial message [m], whatever the offset *)
Definition decodes (d : bytes) (m m' : M) : Prop :=
  forall fuel idx, (length d < fuel)%nat -> 0 <= idx -> idx + zlen d < 2 ^ 62 ->
  unmarshal_loop field fuel m idx d = Ok m'.

Lemma decodes_nil m : decodes [] m m.
Proof. intros [|f] idx Hf _ _; [simpl in Hf; lia|done]. Qed.

(** [x] is what the field's variable holds after the varint of [v] *)
Lemma decodes_fld_as x tag v rest m m' (set : Z -> M) w :
  0 < tag < 128 -> Z.land tag 7 = 0 -> (v = 0 -> set x = m) ->
  (forall idx rest, varint w idx (varint_bytes 10 v ++ rest) = Ok (x, idx + zlen (varint_bytes 10 v), rest)) ->
  (forall idx d, field (Z.shiftr tag 3) 0 m idx d = Some (varint_field w 0 set idx d)) ->
  int32 (Z.shiftr tag 3) = Z.shiftr tag 3 -> 0 < Z.shiftr tag 3 ->
  decodes rest (set x) m' -> decodes (fld_varint tag v ++ rest) m m'.
Proof using Type.
  intros Ht Hwt H0 Hx Hfield H32 Hpos Hrest. unfold fld_varint.
  destruct (Z.eqb_spec v 0) as [->|Hne]; [by rewrite (H0 eq_refl) in Hrest|].
  intros [|f] idx Hf Hi Hb; [lia|]. cbn [app length] in *. rewrite zlen_cons in Hb.
  rewrite unmarshal_loop_S, varint_tag by lia. cbn [obind]. cbv zeta. rewrite H32, Hwt.
  destruct (Z.leb_spec (Z.shiftr tag 3) 0); [lia|]. change (0 =? 4) with false. cbv iota.
  rewrite Hfield. unfold varint_field. cbn [Z.eqb negb]. rewrite Hx. cbn [obind].
  rewrite zlen_app in Hb. pose proof (zlen_nonneg (varint_bytes 10 v)).
  apply Hrest; [rewrite length_app in Hf|..]; lia.
Qed.

Lemma decodes_fld_varint tag v rest m m' (set : Z -> M) w :
  0 < tag < 128 -> Z.land tag 7 = 0 -> 0 <= v < 2 ^ w -> 7 < w <= 64 ->
  (v = 0 -> set v = m) ->
  (forall idx d, field (Z.shiftr tag 3) 0 m idx d = Some (varint_field w 0 set idx d)) ->
  int32 (Z.shiftr tag 3) = Z.shiftr tag 3 -> 0 < Z.shiftr tag 3 ->
  decodes rest (set v) m' -> decodes (fld_varint tag v ++ rest) m m'.
Proof using Type. intros. eapply (decodes_fld_as v); try done. intros. by apply varint_put. Qed.

(** an enum is an [int32], written as the uint64 it converts to *)
Lemma decodes_fld_enum tag t rest m m' (set : Z -> M) :
  0 < tag < 128 -> Z.land tag 7 = 0 -> is_i32 t -> (t = 0 -> set t = m) ->
  (forall idx d, field (Z.shiftr tag 3) 0 m idx d = Some (varint_field 32 0 (fun v => set (int32 v)) idx d)) ->
  int32 (Z.shiftr tag 3) = Z.shiftr tag 3 -> 0 < Z.shiftr tag 3 ->
  decodes rest (set t) m' -> decodes (fld_varint tag (u64 t) ++ rest) m m'.
Proof using Type.
  intros Ht Hwt Hi H0 Hf H32 Hp Hr. assert (int32 (u64 t mod 2 ^ 32) = t) as E by (by apply int32_u64).
  eapply (decodes_fld_as (u64 t mod 2 ^ 32)); try done; cbn beta; rewrite ?E; [|intros; apply varint_put_trunc; [lia|apply u64_range]|done].
  intros Hz. apply H0. rewrite <- E, Hz. done.
Qed.

Lemma decodes_fld_bytes tag bs rest m m' (set : bytes -> M) :
  0 < tag < 128 -> Z.land tag 7 = 2 -> zlen bs < 2 ^ 48 ->
  (bs = [] -> set bs = m) ->
  (forall idx d, field (Z.shiftr tag 3) 2 m idx d = Some (bytes_field 2 set idx d)) ->
  int32 (Z.shiftr tag 3) = Z.shiftr tag 3 -> 0 < Z.shiftr tag 3 ->
  decodes rest (set bs) m' -> decodes (fld_bytes tag bs ++ rest) m m'.
Proof using Type.
  intros Ht Hwt Hlen H0 Hfield H32 Hpos Hrest. unfold fld_bytes.
  destruct (Z.eqb_spec (zlen bs) 0) as [E|Hne].
  { apply zlen_0_nil in E. by rewrite (H0 E) in Hrest. }
  intros [|f] idx Hf Hi Hb; [lia|]. cbn [app length] in *. rewrite zlen_cons in Hb.
  rewrite unmarshal_loop_S, varint_tag by lia. cbn [obind]. cbv zeta. rewrite H32, Hwt.
  destruct (Z.leb_spec (Z.shiftr tag 3) 0); [lia|]. change (2 =? 4) with false. cbv iota.
  rewrite Hfield. unfold bytes_field. change (negb (2 =? 2)) with false. cbv iota. pose proof (zlen_nonneg bs). pose proof (zlen_nonneg rest).
  rewrite <- !app_assoc in *. rewrite !zlen_app in Hb.
  pose proof (zlen_nonneg (varint_bytes 10 (zlen bs))).
  unfold get_bytes. rewrite varint_put by lia. cbn [obind].
  rewrite int64_small by lia. destruct (Z.ltb_spec (zlen bs) 0); [lia|].
  rewrite int64_small by lia.
  match goal with |- context [?a <? 0] => destruct (Z.ltb_spec a 0); [lia|] end.
  destruct (Z.ltb_spec (zlen (bs ++ rest)) (zlen bs)); [rewrite zlen_app in *; lia|].
  rewrite slice_Ok by (rewrite ?zlen_app; lia). cbn [obind]. rewrite Z.sub_0_r, zdrop_0, ztake_app_exact, zdrop_app_exact by done.
  apply Hrest; [rewrite !length_app in Hf|..]; lia.
Qed.
End decode.


(** peel one encoded field off a [decodes] goal *)
Ltac decode_field :=
  first [ eapply decodes_fld_bytes; [lia|done|done| |intros; reflexivity|done|done|]
        | eapply decodes_fld_varint; [lia|done|eassumption|lia| |intros; reflexivity|done|done|] ];
  [by intros ->|].

Lemma fld_varint_bound tag v : is_u64 v -> zlen (fld_varint tag v) <= 11.
Proof.
  intros Hv. pose proof (varint_bytes_pos v Hv). unfold fld_varint.
  destruct (v =? 0); rewrite ?zlen_cons, ?zlen_nil; lia.
Qed.
Lemma fld_bytes_bound tag bs : zlen bs < 2 ^ 48 -> zlen (fld_bytes tag bs) <= zlen bs + 11.
Proof.
  intros Hv. pose proof (zlen_nonneg bs). pose proof (varint_bytes_pos (zlen bs) ltac:(lia)).
  unfold fld_bytes. destruct (zlen bs =? 0); rewrite ?zlen_cons, ?zlen_app, ?zlen_nil; lia.
Qed.

Lemma Entry_bytes_bound m : Entry_wf m ->
  zlen (Entry_bytes m) <= zlen (Key m) + zlen (Value m) + 55.
Proof.
  intros (Hm & Hu & He & Hk & Hv). unfold Entry_bytes. rewrite !zlen_app.
  pose proof (fld_bytes_bound 10 _ Hk). pose proof (fld_bytes_bound 18 _ Hv).
  pose proof (fld_varint_bound 24 _ (is_u32_u64 _ Hm)).
  pose proof (fld_varint_bound 32 _ (is_u32_u64 _ Hu)).
  pose proof (fld_varint_bound 40 _ He). lia.
Qed.

(** [Entry.Unmarshal] inverts [Entry.Marshal]. *)
Lemma Entry_Unmarshal_bytes m : Entry_wf m -> Entry_Unmarshal (Entry_bytes m) = Ok m.
Proof.
  intros Hwf. pose proof Hwf as (Hm & Hu & He & Hk & Hv). unfold is_u32, is_u64 in *.
  assert (decodes Entry_field (Entry_bytes m) emptyEntry m) as H.
  { unfold Entry_bytes. rewrite <- (app_nil_r (fld_varint 40 _)).
    do 5 decode_field. destruct m. apply decodes_nil. }
  apply H; [lia|done|]. pose proof (Entry_bytes_bound m Hwf). simpl. lia.
Qed.

(** Entry.MarshalTo writes Size() bytes at the front of the buffer, leaves the rest alone, and
    Unmarshal of those bytes gives the entry back. *)
Theorem Entry_MarshalTo_Unmarshal m dAtA :
  Entry_wf m -> Entry_Size m <= zlen dAtA ->
  exists d, Entry_MarshalTo m dAtA = Ok (d, Entry_Size m) /\
    zlen d = zlen dAtA /\
    zdrop (Entry_Size m) d = zdrop (Entry_Size m) dAtA /\
    (let! b := slice d 0 (Entry_Size m) in Entry_Unmarshal b) = Ok m.
Proof.
  intros Hwf Hlen. pose proof (Entry_Size_bytes m Hwf) as Hsz.
  pose proof (zlen_nonneg (Entry_bytes m)).
  exists (Entry_bytes m ++ zdrop (Entry_Size m) dAtA). unfold Entry_MarshalTo.
  rewrite slice_Ok by lia. cbn [obind].
  rewrite Entry_MarshalToSizedBuffer_ok by first [done | rewrite Z.sub_0_r, zdrop_0, zlen_ztake by lia; lia].
  cbn [obind]. rewrite zlen_app, zlen_zdrop by lia.
  rewrite slice_Ok by (rewrite ?zlen_app, ?zlen_zdrop; lia). cbn [obind].
  rewrite Z.sub_0_r, (zdrop_0 0), ztake_app_exact by lia.
  split; [done|]. split; [lia|]. split; [|by apply Entry_Unmarshal_bytes].
  by rewrite zdrop_app_exact by lia.
Qed.
