(* ===== verification/ProtoSub.v ===== *)
(** Repeated submessages of the generated codecs: the backward loop of
    [MarshalToSizedBuffer] over a slice of messages and the decoding of its
    elements, over any message with a codec that writes and reads back a
    reference encoding. *)
From Stdlib Require Import ZArith Lia.
From stdpp Require Import base option list numbers strings.
From S2P Require Import Prelude GoLib Proto.

(** a submessage is written into the unwritten front of the buffer, then its
    size and its tag *)
Definition back_sub {E} (marshal : E -> bytes -> outcome (bytes * Z)) (tag : Z) (m : E) (st : bytes * Z) : outcome (bytes * Z) :=
  let '(dAtA, i) := st in
  let! front := slice dAtA 0 i in
  let! (front, size) := marshal m front in
  let! (d, i) := encodeVarintPb (front ++ zdrop i dAtA) (i - size) size in
  put_back d i [byte_of tag].
(** the loop from the last element down *)
Fixpoint back_subs {E} (marshal : E -> bytes -> outcome (bytes * Z)) (tag : Z) (ms : list E) (st : bytes * Z) : outcome (bytes * Z) :=
  match ms with
  | [] => Ok st
  | m :: ms => let! st := back_subs marshal tag ms st in back_sub marshal tag m st
  end.
Definition subs_Size {E} (size : E -> Z) (n : Z) (ms : list E) : Z :=
  foldl (fun n e => let l := size e in n + (1 + l + sov l)) n ms.
Definition sub_field {E M} (unmarshal_sub : bytes -> outcome E) (wireType : Z) (add : E -> M) (idx : Z) (d : bytes) : outcome (M * Z * bytes) :=
  if negb (wireType =? 2) then Err ErrWrongWireType else
  let! (sub, i, d') := get_bytes idx d in
  let! e := unmarshal_sub sub in
  Ok (add e, i, d').

(** reference encoding *)
Definition fld_sub (tag : Z) (b : bytes) : bytes := byte_of tag :: varint_bytes 10 (zlen b) ++ b.
Definition fld_subs {E} (enc : E -> bytes) (tag : Z) (ms : list E) : bytes := mjoin ((fun m => fld_sub tag (enc m)) <$> ms).

Section Sub.
Context {E : Type}.
Variable enc : E -> bytes.
Variable wf : E -> Prop.
Variable size : E -> Z.
Variable marshal : E -> bytes -> outcome (bytes * Z).
Variable dec : bytes -> outcome E.
Variable tag : Z.
Hypothesis enc_u64 : forall m, wf m -> is_u64 (zlen (enc m)).
Hypothesis size_ok : forall m, wf m -> size m = zlen (enc m).
Hypothesis marshal_ok : forall m pre, wf m -> zlen (enc m) <= zlen pre ->
  exists p, marshal m pre = Ok (p ++ enc m, zlen (enc m)) /\ zlen p = zlen pre - zlen (enc m).
Hypothesis dec_enc : forall m, wf m -> dec (enc m) = Ok m.

Lemma fld_subs_cons m ms : fld_subs enc tag (m :: ms) = fld_sub tag (enc m) ++ fld_subs enc tag ms.
Proof using. done. Qed.
Lemma zlen_fld_sub m : wf m -> zlen (fld_sub tag (enc m)) = 1 + size m + sov (size m).
Proof using enc_u64 size_ok.
  intros H. unfold fld_sub. rewrite zlen_cons, zlen_app, size_ok, sov_spec by (done || by apply enc_u64). lia.
Qed.
Lemma subs_Size_ok ms : forall n, Forall wf ms -> subs_Size size n ms = n + zlen (fld_subs enc tag ms).
Proof using enc_u64 size_ok.
  unfold subs_Size. induction ms as [|m ms IH]; intros n H; cbn [foldl].
  - change (fld_subs enc tag []) with (@nil byte). rewrite zlen_nil. lia.
  - apply Forall_cons in H as [Hm Hms]. rewrite IH, fld_subs_cons, zlen_app, zlen_fld_sub by done. lia.
Qed.

Lemma back_sub_ok m pre out : wf m -> zlen (fld_sub tag (enc m)) <= zlen pre ->
  exists pre', zlen pre' = zlen pre - zlen (fld_sub tag (enc m)) /\
    back_sub marshal tag m (pre ++ out, zlen pre) = Ok (pre' ++ fld_sub tag (enc m) ++ out, zlen pre').
Proof using enc_u64 marshal_ok.
  intros Hwf Hl. pose proof (enc_u64 m Hwf) as Hu. pose proof (varint_bytes_pos _ Hu) as Hv.
  unfold fld_sub in *. rewrite zlen_cons, zlen_app in Hl. set (n := zlen (enc m)) in *.
  assert (0 <= n) by apply zlen_nonneg. pose proof (zlen_nonneg out).
  unfold back_sub. rewrite slice_Ok by (rewrite ?zlen_app; lia). cbn [obind].
  rewrite Z.sub_0_r, (zdrop_0 0), ztake_app_exact by lia.
  destruct (marshal_ok m pre Hwf) as (p & -> & Hp); [lia|]. fold n in Hp |- *.
  cbn [obind]. rewrite zdrop_app_exact by done. rewrite <- app_assoc.
  rewrite encodeVarint_ok by (done || lia). cbn [obind]. set (k := zlen (varint_bytes 10 n)) in *.
  assert (Ez : zlen (ztake (zlen pre - n - k) p) = zlen pre - n - k) by (apply zlen_ztake; lia).
  rewrite put_back_ok by (rewrite ?Ez, ?zlen_cons, ?zlen_nil; lia).
  rewrite !zlen_cons, zlen_nil, zlen_app. fold n k.
  exists (ztake (zlen pre - n - k - (1 + 0)) (ztake (zlen pre - n - k) p)).
  rewrite zlen_ztake by (rewrite ?Ez; lia). split; [lia|]. cbn [app]. by rewrite <- app_assoc.
Qed.
Lemma back_subs_ok ms : forall pre out, Forall wf ms -> zlen (fld_subs enc tag ms) <= zlen pre ->
  exists pre', zlen pre' = zlen pre - zlen (fld_subs enc tag ms) /\
    back_subs marshal tag ms (pre ++ out, zlen pre) = Ok (pre' ++ fld_subs enc tag ms ++ out, zlen pre').
Proof using enc_u64 marshal_ok.
  induction ms as [|m ms IH]; intros pre out H Hl; cbn [back_subs].
  - exists pre. change (fld_subs enc tag []) with (@nil byte). rewrite zlen_nil, Z.sub_0_r. done.
  - apply Forall_cons in H as [Hm Hms]. rewrite fld_subs_cons, zlen_app in *. pose proof (zlen_nonneg (fld_sub tag (enc m))).
    destruct (IH pre out Hms) as (p1 & L1 & ->); [lia|]. cbn [obind].
    destruct (back_sub_ok m p1 (fld_subs enc tag ms ++ out) Hm) as (p2 & L2 & ->); [lia|].
    exists p2. split; [lia|]. by rewrite <- app_assoc.
Qed.
End Sub.

(** decoding, for a message whose field 1 is the list *)
Section Decode.
Context {E M : Type}.
Variable enc : E -> bytes.
Variable wf : E -> Prop.
Variable dec : bytes -> outcome E.
Hypothesis enc_u64 : forall m, wf m -> is_u64 (zlen (enc m)).
Hypothesis dec_enc : forall m, wf m -> dec (enc m) = Ok m.
Variable field : Z -> Z -> M -> Z -> bytes -> option (outcome (M * Z * bytes)).
Variable add : M -> list E -> M.
Hypothesis add_nil : forall m, add m [] = m.
Hypothesis add_app : forall m l l', add (add m l) l' = add m (l ++ l').
Hypothesis field_1 : forall m idx d, field 1 2 m idx d = Some (sub_field dec 2 (fun e => add m [e]) idx d).

Lemma decodes_sub e rest m m' : wf e -> decodes field rest (add m [e]) m' -> decodes field (fld_sub 10 (enc e) ++ rest) m m'.
Proof using enc_u64 dec_enc field_1.
  intros Hwf Hrest [|f] idx Hf Hi Hb; [lia|]. pose proof (enc_u64 e Hwf) as Hu.
  unfold fld_sub in *. cbn [app length] in *. rewrite zlen_cons in Hb.
  rewrite unmarshal_loop_S, varint_tag by lia. cbn [obind]. cbv zeta.
  change (Z.land 10 7) with 2. change (int32 (Z.shiftr 10 3)) with 1. cbn [Z.eqb Z.leb Z.compare].
  rewrite field_1. unfold sub_field. change (negb (2 =? 2)) with false. cbv iota.
  rewrite <- !app_assoc in *. rewrite !zlen_app in Hb. set (sub := enc e) in *.
  pose proof (zlen_nonneg sub). pose proof (zlen_nonneg rest). pose proof (zlen_nonneg (varint_bytes 10 (zlen sub))).
  unfold get_bytes. rewrite varint_put by (unfold is_u64 in Hu; lia). cbn [obind].
  rewrite int64_small by lia. destruct (Z.ltb_spec (zlen sub) 0); [lia|].
  rewrite int64_small by lia.
  match goal with |- context [?a <? 0] => destruct (Z.ltb_spec a 0); [lia|] end.
  destruct (Z.ltb_spec (zlen (sub ++ rest)) (zlen sub)); [rewrite zlen_app in *; lia|].
  rewrite slice_Ok by (rewrite ?zlen_app; lia). cbn [obind]. rewrite Z.sub_0_r, zdrop_0, ztake_app_exact, zdrop_app_exact by done.
  unfold sub. rewrite dec_enc by done. cbn [obind]. fold sub.
  apply Hrest; [rewrite !length_app in Hf|..]; lia.
Qed.
Lemma decodes_subs ms : forall rest m m', Forall wf ms ->
  decodes field rest (add m ms) m' -> decodes field (fld_subs enc 10 ms ++ rest) m m'.
Proof using enc_u64 dec_enc field_1 add_nil add_app.
  induction ms as [|e ms IH]; intros rest m m' H Hrest.
  - by rewrite add_nil in Hrest.
  - apply Forall_cons in H as [He Hms]. rewrite fld_subs_cons, <- app_assoc.
    apply decodes_sub; [done|]. apply IH; [done|]. by rewrite add_app.
Qed.
End Decode.
