(* ===== verification/ProtoPs.v ===== *)
(** Wire codecs of the pspb messages the data path stores: [MixedLog] (entry
    offsets of a log block), [RawBlockMeta] (user data of a table block),
    [BlockOffset] and [TableIndex] (the table's meta block). *)
From Stdlib Require Import ZArith Lia.
From stdpp Require Import base option list numbers strings.
From S2P Require Import Prelude GoLib Proto ProtoSub.

(** ** pspb.MixedLog *)

Abbreviation MixedLog := (list Z).

Definition MixedLog_Size (offsets : MixedLog) : Z :=
  if 0 <? zlen offsets then
    let l := foldl (fun l e => l + sov e) 0 offsets in 1 + sov l + l
  else 0.

(** the scratch buffer [dAtA2[:j1]] *)
Definition packed (offsets : MixedLog) : bytes := mjoin (varint_bytes 10 <$> offsets).

Definition MixedLog_MarshalToSizedBuffer (offsets : MixedLog) (dAtA : bytes) : outcome (bytes * Z) :=
  let! st :=
    (if 0 <? zlen offsets then
       let bs := packed offsets in
       let! (d, i) := put_back dAtA (zlen dAtA) bs in
       let! (d', i') := encodeVarintPb d i (zlen bs) in
       put_back d' i' [byte_of 10]
     else Ok (dAtA, zlen dAtA)) in
  Ok (fst st, zlen dAtA - snd st).

Definition MixedLog_Marshal (offsets : MixedLog) : outcome bytes :=
  let size := MixedLog_Size offsets in
  let! (d, n) := MixedLog_MarshalToSizedBuffer offsets (zrep size Byte.x00) in
  slice d 0 n.

(** elements read while [iNdEx < postIndex] *)
Fixpoint packed_loop (fuel : nat) (postIndex : Z) (offsets : MixedLog) (idx : Z) (d : bytes)
  : outcome (MixedLog * Z * bytes) :=
  match fuel with
  | O => Panic
  | S f =>
      if idx <? postIndex then
        let! (v, i, d') := varint 32 idx d in
        packed_loop f postIndex (offsets ++ [v]) i d'
      else Ok (offsets, idx, d)
  end.

Definition MixedLog_field (fieldNum wireType : Z) (m : MixedLog) (idx : Z) (d : bytes)
  : option (outcome (MixedLog * Z * bytes)) :=
  match fieldNum with
  | 1 => Some (
      if wireType =? 0 then varint_field 32 wireType (fun v => m ++ [v]) idx d
      else if wireType =? 2 then
        let! (n, i1, d1) := varint 64 idx d in
        let packedLen := int64 n in
        if packedLen <? 0 then Err ErrInvalidLength
        else let postIndex := int64 (i1 + packedLen) in
        if postIndex <? 0 then Err ErrInvalidLength
        else if zlen d1 <? packedLen then Err ErrUnexpectedEOF
        else let! _ := slice d1 0 packedLen in packed_loop (S (length d1)) postIndex m i1 d1
      else Err ErrWrongWireType)
  | _ => None
  end.
Definition MixedLog_Unmarshal (dAtA : bytes) : outcome MixedLog :=
  unmarshal MixedLog_field [] dAtA.

Definition is_packable (offsets : MixedLog) : Prop :=
  Forall is_u32 offsets /\ zlen offsets < 2 ^ 40.

Lemma packed_cons e l : packed (e :: l) = varint_bytes 10 e ++ packed l.
Proof. done. Qed.

Lemma MixedLog_sum l : forall acc, Forall is_u32 l ->
  foldl (fun l e => l + sov e) acc l = acc + zlen (packed l).
Proof.
  induction l as [|e l IH]; intros acc H; simpl.
  - change (packed []) with (@nil byte). rewrite zlen_nil. lia.
  - inversion H as [|? ? He Hl]; subst.
    rewrite IH, (sov_spec e (is_u32_u64 _ He)), packed_cons, zlen_app by done. lia.
Qed.

Lemma packed_bounds l : Forall is_u32 l -> zlen l <= zlen (packed l) <= 10 * zlen l.
Proof.
  induction 1 as [|e l He Hl IH]; [done|]. rewrite packed_cons, zlen_app, zlen_cons.
  pose proof (varint_bytes_pos e (is_u32_u64 _ He)). lia.
Qed.

(** reference encoding *)
Definition MixedLog_bytes (l : MixedLog) : bytes := fld_bytes 10 (packed l).

Lemma packed_nil_iff l : Forall is_u32 l -> (zlen (packed l) = 0 <-> zlen l = 0).
Proof.
  intros H. pose proof (packed_bounds l H). split; intros E; [lia|].
  apply zlen_0_nil in E as ->. done.
Qed.

Lemma MixedLog_Marshal_bytes l : is_packable l -> MixedLog_Marshal l = Ok (MixedLog_bytes l).
Proof.
  intros [Hu Hl]. pose proof (packed_bounds l Hu). pose proof (zlen_nonneg l).
  assert (Hp : zlen (packed l) < 2 ^ 48) by lia.
  assert (Hsz : MixedLog_Size l = zlen (MixedLog_bytes l)).
  { unfold MixedLog_Size, MixedLog_bytes. rewrite zlen_fld_bytes by done.
    destruct (Z.ltb_spec 0 (zlen l)), (Z.ltb_spec 0 (zlen (packed l))); try lia.
    rewrite MixedLog_sum by done. rewrite Z.add_0_l. lia. }
  unfold MixedLog_Marshal, MixedLog_MarshalToSizedBuffer. rewrite Hsz.
  set (buf := zrep _ _). assert (Hb : zlen buf = zlen (MixedLog_bytes l))
    by (apply zlen_zrep, zlen_nonneg). clearbody buf.
  pose proof (back_bytes_ok 10 (packed l) buf [] Hp) as (p & Lp & E);
    [unfold MixedLog_bytes in Hb; lia|].
  unfold MixedLog_bytes in *. assert (p = []) as -> by (apply zlen_0_nil; lia).
  unfold back_bytes in E. cbn [fst snd] in E. rewrite app_nil_r in E.
  assert ((0 <? zlen (packed l)) = (0 <? zlen l)) as Eb.
  { destruct (Z.ltb_spec 0 (zlen l)), (Z.ltb_spec 0 (zlen (packed l))); lia || done. }
  rewrite Eb in E. rewrite E. cbn [obind fst snd app].
  rewrite app_nil_r, (zlen_nil (A := byte)), Hb, Z.sub_0_r.
  rewrite slice_Ok by (pose proof (zlen_nonneg (fld_bytes 10 (packed l))); lia).
  rewrite zdrop_0, ztake_ge by lia. done.
Qed.

Lemma packed_loop_ok l : forall fuel acc idx rest, Forall is_u32 l -> (length l < fuel)%nat ->
  packed_loop fuel (idx + zlen (packed l)) acc idx (packed l ++ rest) =
  Ok (acc ++ l, idx + zlen (packed l), rest).
Proof.
  induction l as [|e l IH]; intros [|f] acc idx rest H Hf; cbn [length] in *; try lia.
  - change (packed []) with (@nil byte). cbn [packed_loop app]. rewrite zlen_nil, Z.add_0_r, Z.ltb_irrefl.
    by rewrite app_nil_r.
  - inversion H as [|? ? He Hl]; subst. cbn [packed_loop]. rewrite packed_cons, zlen_app.
    pose proof (varint_bytes_pos e (is_u32_u64 _ He)). pose proof (zlen_nonneg (packed l)).
    destruct (Z.ltb_spec idx (idx + (zlen (varint_bytes 10 e) + zlen (packed l)))); [|lia].
    rewrite <- app_assoc, varint_put by (lia || apply He). cbn [obind].
    rewrite Z.add_assoc, IH by (done || lia). by rewrite <- app_assoc.
Qed.

Lemma MixedLog_Unmarshal_bytes l : is_packable l -> MixedLog_Unmarshal (MixedLog_bytes l) = Ok l.
Proof.
  intros [Hu Hl]. pose proof (packed_bounds l Hu). pose proof (zlen_nonneg l).
  unfold MixedLog_Unmarshal, unmarshal, MixedLog_bytes, fld_bytes.
  destruct (Z.eqb_spec (zlen (packed l)) 0) as [E|E].
  { apply packed_nil_iff in E; [|done]. apply zlen_0_nil in E as ->. done. }
  rewrite unmarshal_loop_S, varint_tag by lia. cbn [obind]. cbv zeta.
  change (Z.land 10 7) with 2. change (int32 (Z.shiftr 10 3)) with 1. cbn [Z.eqb Z.leb Z.compare].
  unfold MixedLog_field. rewrite varint_put by lia. cbn [obind].
  pose proof (varint_bytes_pos (zlen (packed l)) ltac:(lia)).
  rewrite int64_small by lia. destruct (Z.ltb_spec (zlen (packed l)) 0); [lia|].
  rewrite int64_small by lia.
  match goal with |- context [?a <? 0] => destruct (Z.ltb_spec a 0); [lia|] end.
  rewrite Z.ltb_irrefl, slice_Ok by lia. cbn [obind]. pose proof (packed_loop_ok l (S (length (packed l))) []) as Hloop.
  specialize (Hloop (0 + 1 + zlen (varint_bytes 10 (zlen (packed l)))) []).
  rewrite app_nil_r in Hloop. rewrite Hloop by (try done; unfold zlen in *; lia). cbn [obind app].
  done.
Qed.

(** The packed offset list of a log block survives Marshal and Unmarshal and takes Size()
    bytes. *)
Theorem MixedLog_roundtrip offsets :
  Forall is_u32 offsets -> zlen offsets < 2 ^ 40 ->
  exists bs, MixedLog_Marshal offsets = Ok bs /\ zlen bs = MixedLog_Size offsets /\
    MixedLog_Unmarshal bs = Ok offsets.
Proof.
  intros Hu Hl. assert (is_packable offsets) as Hp by done.
  exists (MixedLog_bytes offsets). rewrite MixedLog_Marshal_bytes, MixedLog_Unmarshal_bytes by done.
  split; [done|]. split; [|done]. pose proof (packed_bounds offsets Hu). pose proof (zlen_nonneg offsets).
  unfold MixedLog_bytes, MixedLog_Size. rewrite zlen_fld_bytes, MixedLog_sum, Z.add_0_l by (done || lia).
  destruct (Z.ltb_spec 0 (zlen offsets)), (Z.ltb_spec 0 (zlen (packed offsets))); lia.
Qed.

(** ** pspb.RawBlockMeta *)

(** the enum [RawBlockType], an [int32] *)
Definition RawBlockType_data : Z := 0.
Definition RawBlockType_meta : Z := 1.
Record RawBlockMeta := mkRBM {
  RB_Type : Z; CompressedSize : Z; UnCompressedSize : Z;
  VpExtentID : Z; VpOffset : Z; SeqNum : Z }.
#[export] Instance RawBlockMeta_eq_dec : EqDecision RawBlockMeta.
Proof. solve_decision. Defined.
Definition emptyRBM : RawBlockMeta := mkRBM 0 0 0 0 0 0.

Definition RawBlockMeta_Size (m : RawBlockMeta) : Z :=
  let n := 0 in
  let n := if negb (RB_Type m =? 0) then n + (1 + sov (u64 (RB_Type m))) else n in
  let n := if negb (CompressedSize m =? 0) then n + (1 + sov (CompressedSize m)) else n in
  let n := if negb (UnCompressedSize m =? 0) then n + (1 + sov (UnCompressedSize m)) else n in
  let n := if negb (VpExtentID m =? 0) then n + (1 + sov (VpExtentID m)) else n in
  let n := if negb (VpOffset m =? 0) then n + (1 + sov (VpOffset m)) else n in
  let n := if negb (SeqNum m =? 0) then n + (1 + sov (SeqNum m)) else n in
  n.
Definition RawBlockMeta_MarshalToSizedBuffer (m : RawBlockMeta) (dAtA : bytes) : outcome (bytes * Z) :=
  let! st := back_varint 48 (SeqNum m) (dAtA, zlen dAtA) in
  let! st := back_varint 40 (VpOffset m) st in
  let! st := back_varint 32 (VpExtentID m) st in
  let! st := back_varint 24 (UnCompressedSize m) st in
  let! st := back_varint 16 (CompressedSize m) st in
  let! st := back_varint 8 (u64 (RB_Type m)) st in
  Ok (fst st, zlen dAtA - snd st).
Definition RawBlockMeta_Marshal (m : RawBlockMeta) : outcome bytes :=
  let! (d, n) := RawBlockMeta_MarshalToSizedBuffer m (zrep (RawBlockMeta_Size m) Byte.x00) in
  slice d 0 n.
Definition RawBlockMeta_field (fieldNum wireType : Z) (m : RawBlockMeta) (idx : Z) (d : bytes)
  : option (outcome (RawBlockMeta * Z * bytes)) :=
  match fieldNum with
  | 1 => Some (varint_field 32 wireType (fun v => mkRBM (int32 v) (CompressedSize m) (UnCompressedSize m)
           (VpExtentID m) (VpOffset m) (SeqNum m)) idx d)
  | 2 => Some (varint_field 32 wireType (fun v => mkRBM (RB_Type m) v (UnCompressedSize m)
           (VpExtentID m) (VpOffset m) (SeqNum m)) idx d)
  | 3 => Some (varint_field 32 wireType (fun v => mkRBM (RB_Type m) (CompressedSize m) v
           (VpExtentID m) (VpOffset m) (SeqNum m)) idx d)
  | 4 => Some (varint_field 64 wireType (fun v => mkRBM (RB_Type m) (CompressedSize m)
           (UnCompressedSize m) v (VpOffset m) (SeqNum m)) idx d)
  | 5 => Some (varint_field 32 wireType (fun v => mkRBM (RB_Type m) (CompressedSize m)
           (UnCompressedSize m) (VpExtentID m) v (SeqNum m)) idx d)
  | 6 => Some (varint_field 64 wireType (fun v => mkRBM (RB_Type m) (CompressedSize m)
           (UnCompressedSize m) (VpExtentID m) (VpOffset m) v) idx d)
  | _ => None
  end.
Definition RawBlockMeta_Unmarshal (dAtA : bytes) : outcome RawBlockMeta :=
  unmarshal RawBlockMeta_field emptyRBM dAtA.

Definition RawBlockMeta_wf (m : RawBlockMeta) : Prop :=
  is_i32 (RB_Type m) /\ is_u32 (CompressedSize m) /\ is_u32 (UnCompressedSize m) /\
  is_u64 (VpExtentID m) /\ is_u32 (VpOffset m) /\ is_u64 (SeqNum m).
Definition RawBlockMeta_bytes (m : RawBlockMeta) : bytes :=
  fld_varint 8 (u64 (RB_Type m)) ++ fld_varint 16 (CompressedSize m) ++ fld_varint 24 (UnCompressedSize m) ++
  fld_varint 32 (VpExtentID m) ++ fld_varint 40 (VpOffset m) ++ fld_varint 48 (SeqNum m).

Lemma RawBlockMeta_bytes_bound m : RawBlockMeta_wf m -> zlen (RawBlockMeta_bytes m) <= 66.
Proof.
  intros (H1&H2&H3&H4&H5&H6). unfold RawBlockMeta_bytes. rewrite !zlen_app.
  pose proof (fld_varint_bound 8 _ (u64_range (RB_Type m))). pose proof (fld_varint_bound 16 _ (is_u32_u64 _ H2)).
  pose proof (fld_varint_bound 24 _ (is_u32_u64 _ H3)). pose proof (fld_varint_bound 32 _ H4).
  pose proof (fld_varint_bound 40 _ (is_u32_u64 _ H5)). pose proof (fld_varint_bound 48 _ H6). lia.
Qed.

Lemma RawBlockMeta_Marshal_bytes m :
  RawBlockMeta_wf m -> RawBlockMeta_Marshal m = Ok (RawBlockMeta_bytes m).
Proof.
  intros (H1&H2&H3&H4&H5&H6).
  assert (Hsz : RawBlockMeta_Size m = zlen (RawBlockMeta_bytes m)).
  { unfold RawBlockMeta_bytes. rewrite !zlen_app, !zlen_fld_varint by auto.
    unfold RawBlockMeta_Size. rewrite u64_i32_eqb by done. repeat case_match; lia. }
  unfold RawBlockMeta_Marshal, RawBlockMeta_MarshalToSizedBuffer. rewrite Hsz.
  set (buf := zrep _ _). assert (Hb : zlen buf = zlen (RawBlockMeta_bytes m))
    by (apply zlen_zrep, zlen_nonneg). clearbody buf.
  pose proof (zlen_nonneg buf). unfold RawBlockMeta_bytes in *. rewrite !zlen_app in Hb.
  pose proof (fun t v => zlen_nonneg (fld_varint t v)) as Hn.
  pose proof (Hn 8 (u64 (RB_Type m))). pose proof (Hn 16 (CompressedSize m)).
  pose proof (Hn 24 (UnCompressedSize m)). pose proof (Hn 32 (VpExtentID m)).
  pose proof (Hn 40 (VpOffset m)). clear Hn.
  rewrite <- (app_nil_r buf) at 1. do 6 back_step. cbn [fst snd].
  assert (p4 = []) as -> by (apply zlen_0_nil; lia). cbn [app obind].
  rewrite app_nil_r, (zlen_nil (A := byte)), Z.sub_0_r.
  rewrite slice_Ok by (rewrite ?zlen_app; lia).
  rewrite zdrop_0, ztake_ge by (rewrite ?zlen_app; lia). done.
Qed.

(** [RawBlockMeta.Unmarshal] inverts [Marshal]. *)
Lemma RawBlockMeta_Unmarshal_bytes m :
  RawBlockMeta_wf m -> RawBlockMeta_Unmarshal (RawBlockMeta_bytes m) = Ok m.
Proof.
  intros Hwf. pose proof Hwf as (H1&H2&H3&H4&H5&H6). unfold is_u32, is_u64 in *.
  assert (decodes RawBlockMeta_field (RawBlockMeta_bytes m) emptyRBM m) as H.
  { unfold RawBlockMeta_bytes. rewrite <- (app_nil_r (fld_varint 48 _)).
    apply (decodes_fld_enum _ _ _ _ _ _ (fun v => mkRBM v 0 0 0 0 0)); [lia|done|done|by intros ->|intros; reflexivity|done|done|].
    do 5 decode_field. destruct m. apply decodes_nil. }
  apply H; [lia|done|]. pose proof (RawBlockMeta_bytes_bound m Hwf). simpl. lia.
Qed.

(** ** pspb.BlockOffset and pspb.TableIndex *)

Record BlockOffset := mkBO { BO_Key : bytes; BO_ExtentID : Z; BO_Offset : Z }.
#[export] Instance BlockOffset_eq_dec : EqDecision BlockOffset.
Proof. solve_decision. Defined.
Definition emptyBO : BlockOffset := mkBO [] 0 0.
Record TableIndex := mkTI {
  TI_Offsets : list BlockOffset; BloomFilter : bytes; TI_EstimatedSize : Z; NumOfBlocks : Z }.
#[export] Instance TableIndex_eq_dec : EqDecision TableIndex.
Proof. solve_decision. Defined.
Definition emptyTI : TableIndex := mkTI [] [] 0 0.

Definition BlockOffset_Size (m : BlockOffset) : Z :=
  let n := 0 in
  let l := zlen (BO_Key m) in
  let n := if 0 <? l then n + (1 + l + sov l) else n in
  let n := if negb (BO_ExtentID m =? 0) then n + (1 + sov (BO_ExtentID m)) else n in
  let n := if negb (BO_Offset m =? 0) then n + (1 + sov (BO_Offset m)) else n in
  n.
Definition TableIndex_Size (m : TableIndex) : Z :=
  let n := subs_Size BlockOffset_Size 0 (TI_Offsets m) in
  let l := zlen (BloomFilter m) in
  let n := if 0 <? l then n + (1 + l + sov l) else n in
  let n := if negb (TI_EstimatedSize m =? 0) then n + (1 + sov (TI_EstimatedSize m)) else n in
  let n := if negb (NumOfBlocks m =? 0) then n + (1 + sov (NumOfBlocks m)) else n in
  n.

Definition BlockOffset_MarshalToSizedBuffer (m : BlockOffset) (dAtA : bytes) : outcome (bytes * Z) :=
  let! st := back_varint 24 (BO_Offset m) (dAtA, zlen dAtA) in
  let! st := back_varint 16 (BO_ExtentID m) st in
  let! st := back_bytes 10 (BO_Key m) st in
  Ok (fst st, zlen dAtA - snd st).

Definition TableIndex_MarshalToSizedBuffer (m : TableIndex) (dAtA : bytes) : outcome (bytes * Z) :=
  let! st := back_varint 32 (NumOfBlocks m) (dAtA, zlen dAtA) in
  let! st := back_varint 24 (TI_EstimatedSize m) st in
  let! st := back_bytes 18 (BloomFilter m) st in
  let! st := back_subs BlockOffset_MarshalToSizedBuffer 10 (TI_Offsets m) st in
  Ok (fst st, zlen dAtA - snd st).
Definition TableIndex_MarshalTo (m : TableIndex) (dAtA : bytes) : outcome (bytes * Z) :=
  let size := TableIndex_Size m in
  let! head := slice dAtA 0 size in
  let! (d, n) := TableIndex_MarshalToSizedBuffer m head in
  Ok (d ++ zdrop size dAtA, n).

Definition BlockOffset_field (fieldNum wireType : Z) (m : BlockOffset) (idx : Z) (d : bytes)
  : option (outcome (BlockOffset * Z * bytes)) :=
  match fieldNum with
  | 1 => Some (bytes_field wireType (fun v => mkBO v (BO_ExtentID m) (BO_Offset m)) idx d)
  | 2 => Some (varint_field 64 wireType (fun v => mkBO (BO_Key m) v (BO_Offset m)) idx d)
  | 3 => Some (varint_field 32 wireType (fun v => mkBO (BO_Key m) (BO_ExtentID m) v) idx d)
  | _ => None
  end.
Definition BlockOffset_Unmarshal (dAtA : bytes) : outcome BlockOffset :=
  unmarshal BlockOffset_field emptyBO dAtA.
Definition TableIndex_field (fieldNum wireType : Z) (m : TableIndex) (idx : Z) (d : bytes)
  : option (outcome (TableIndex * Z * bytes)) :=
  match fieldNum with
  | 1 => Some (sub_field BlockOffset_Unmarshal wireType
           (fun bo => mkTI (TI_Offsets m ++ [bo]) (BloomFilter m) (TI_EstimatedSize m) (NumOfBlocks m)) idx d)
  | 2 => Some (bytes_field wireType (fun v => mkTI (TI_Offsets m) v (TI_EstimatedSize m) (NumOfBlocks m)) idx d)
  | 3 => Some (varint_field 64 wireType (fun v => mkTI (TI_Offsets m) (BloomFilter m) v (NumOfBlocks m)) idx d)
  | 4 => Some (varint_field 32 wireType (fun v => mkTI (TI_Offsets m) (BloomFilter m) (TI_EstimatedSize m) v) idx d)
  | _ => None
  end.
Definition TableIndex_Unmarshal (dAtA : bytes) : outcome TableIndex :=
  unmarshal TableIndex_field emptyTI dAtA.

(** reference encodings *)
Definition BlockOffset_bytes (m : BlockOffset) : bytes :=
  fld_bytes 10 (BO_Key m) ++ fld_varint 16 (BO_ExtentID m) ++ fld_varint 24 (BO_Offset m).
Abbreviation fld_offset m := (fld_sub 10 (BlockOffset_bytes m)).
Abbreviation fld_offsets ms := (fld_subs BlockOffset_bytes 10 ms).
Definition TableIndex_bytes (m : TableIndex) : bytes :=
  fld_offsets (TI_Offsets m) ++ fld_bytes 18 (BloomFilter m) ++
  fld_varint 24 (TI_EstimatedSize m) ++ fld_varint 32 (NumOfBlocks m).

Definition BlockOffset_wf (m : BlockOffset) : Prop :=
  zlen (BO_Key m) < 2 ^ 40 /\ is_u64 (BO_ExtentID m) /\ is_u32 (BO_Offset m).
Definition TableIndex_wf (m : TableIndex) : Prop :=
  Forall BlockOffset_wf (TI_Offsets m) /\ zlen (BloomFilter m) < 2 ^ 48 /\
  is_u64 (TI_EstimatedSize m) /\ is_u32 (NumOfBlocks m).

Lemma BlockOffset_bytes_bound m : BlockOffset_wf m -> zlen (BlockOffset_bytes m) <= zlen (BO_Key m) + 33.
Proof.
  intros (H1 & H2 & H3). unfold BlockOffset_bytes. rewrite !zlen_app.
  pose proof (fld_bytes_bound 10 (BO_Key m) ltac:(lia)). pose proof (fld_varint_bound 16 _ H2).
  pose proof (fld_varint_bound 24 _ (is_u32_u64 _ H3)). lia.
Qed.

Lemma BlockOffset_Size_bytes m : BlockOffset_wf m -> BlockOffset_Size m = zlen (BlockOffset_bytes m).
Proof.
  intros (H1 & H2 & H3). unfold BlockOffset_bytes.
  rewrite !zlen_app, !zlen_fld_varint, zlen_fld_bytes by (auto || lia).
  unfold BlockOffset_Size. repeat case_match; lia.
Qed.

Lemma BlockOffset_u64 m : BlockOffset_wf m -> is_u64 (zlen (BlockOffset_bytes m)).
Proof.
  intros H. pose proof (BlockOffset_bytes_bound m H). pose proof (zlen_nonneg (BlockOffset_bytes m)).
  destruct H. unfold is_u64. lia.
Qed.

Lemma TableIndex_Size_bytes m : TableIndex_wf m -> TableIndex_Size m = zlen (TableIndex_bytes m).
Proof.
  intros (H1 & H2 & H3 & H4). unfold TableIndex_Size, TableIndex_bytes.
  rewrite (subs_Size_ok BlockOffset_bytes BlockOffset_wf BlockOffset_Size 10 BlockOffset_u64 BlockOffset_Size_bytes), !zlen_app, !zlen_fld_varint, zlen_fld_bytes by auto.
  repeat case_match; lia.
Qed.

(** a submessage is written into the unwritten front of the buffer *)
Lemma BlockOffset_MarshalToSizedBuffer_ok m pre : BlockOffset_wf m -> zlen (BlockOffset_bytes m) <= zlen pre ->
  exists p, BlockOffset_MarshalToSizedBuffer m pre = Ok (p ++ BlockOffset_bytes m, zlen (BlockOffset_bytes m)) /\
    zlen p = zlen pre - zlen (BlockOffset_bytes m).
Proof.
  intros (H1 & H2 & H3) Hn. unfold BlockOffset_MarshalToSizedBuffer, BlockOffset_bytes in *.
  rewrite !zlen_app in Hn |- *. pose proof (zlen_nonneg (fld_bytes 10 (BO_Key m))).
  pose proof (zlen_nonneg (fld_varint 16 (BO_ExtentID m))). assert (zlen (BO_Key m) < 2 ^ 48) by lia.
  replace (pre, zlen pre) with (pre ++ [], zlen pre) by (by rewrite app_nil_r).
  do 3 back_step. cbn [fst snd]. exists p1. split; [|lia]. rewrite app_nil_r. do 2 f_equal. lia.
Qed.

Lemma TableIndex_MarshalTo_bytes m dAtA : TableIndex_wf m -> TableIndex_Size m <= zlen dAtA ->
  TableIndex_MarshalTo m dAtA =
    Ok (TableIndex_bytes m ++ zdrop (TableIndex_Size m) dAtA, TableIndex_Size m).
Proof.
  intros Hwf Hl. pose proof (TableIndex_Size_bytes m Hwf) as Hs. unfold TableIndex_MarshalTo.
  assert (0 <= TableIndex_Size m) by (rewrite Hs; apply zlen_nonneg).
  rewrite slice_Ok by lia. cbn [obind]. rewrite Z.sub_0_r, (zdrop_0 0) by lia.
  set (buf := ztake _ _). assert (Hb : zlen buf = TableIndex_Size m) by (apply zlen_ztake; lia). clearbody buf.
  unfold TableIndex_MarshalToSizedBuffer. destruct Hwf as (H1 & H2 & H3 & H4).
  rewrite Hs in Hb. unfold TableIndex_bytes in Hb. rewrite !zlen_app in Hb.
  pose proof (zlen_nonneg (fld_offsets (TI_Offsets m))). pose proof (zlen_nonneg (fld_bytes 18 (BloomFilter m))).
  pose proof (zlen_nonneg (fld_varint 24 (TI_EstimatedSize m))).
  rewrite <- (app_nil_r buf) at 1. do 3 back_step.
  match goal with |- context [back_subs _ _ _ (?p ++ ?o, _)] =>
    destruct (back_subs_ok BlockOffset_bytes BlockOffset_wf BlockOffset_MarshalToSizedBuffer 10 BlockOffset_u64
      BlockOffset_MarshalToSizedBuffer_ok (TI_Offsets m) p o H1) as (p' & L' & ->); [lia|] end.
  cbn [obind fst snd]. assert (p' = []) as -> by (apply zlen_0_nil; lia).
  cbn [app]. rewrite zlen_nil, app_nil_r, Z.sub_0_r. unfold TableIndex_bytes.
  do 2 f_equal. rewrite Hs. unfold TableIndex_bytes. rewrite !zlen_app. lia.
Qed.

Lemma BlockOffset_Unmarshal_bytes m : BlockOffset_wf m -> BlockOffset_Unmarshal (BlockOffset_bytes m) = Ok m.
Proof.
  intros Hwf. pose proof Hwf as (H1 & H2 & H3). unfold is_u32, is_u64 in *.
  assert (zlen (BO_Key m) < 2 ^ 48) by lia.
  assert (decodes BlockOffset_field (BlockOffset_bytes m) emptyBO m) as H'.
  { unfold BlockOffset_bytes. rewrite <- (app_nil_r (fld_varint 24 _)).
    do 3 decode_field. destruct m. apply decodes_nil. }
  apply H'; [lia|done|]. pose proof (BlockOffset_bytes_bound m Hwf). simpl. lia.
Qed.

Lemma decodes_offsets ms rest m m' : Forall BlockOffset_wf ms ->
  decodes TableIndex_field rest (mkTI (TI_Offsets m ++ ms) (BloomFilter m) (TI_EstimatedSize m) (NumOfBlocks m)) m' ->
  decodes TableIndex_field (fld_offsets ms ++ rest) m m'.
Proof.
  apply (decodes_subs BlockOffset_bytes BlockOffset_wf BlockOffset_Unmarshal BlockOffset_u64 BlockOffset_Unmarshal_bytes TableIndex_field
    (fun m l => mkTI (TI_Offsets m ++ l) (BloomFilter m) (TI_EstimatedSize m) (NumOfBlocks m))); [|intros; cbn; by rewrite <- app_assoc|done].
  intros []. cbn. by rewrite app_nil_r.
Qed.

Lemma TableIndex_Unmarshal_bytes m : TableIndex_wf m -> TableIndex_Size m < 2 ^ 48 ->
  TableIndex_Unmarshal (TableIndex_bytes m) = Ok m.
Proof.
  intros Hwf Hs. rewrite TableIndex_Size_bytes in Hs by done.
  destruct Hwf as (H1 & H2 & H3 & H4). unfold is_u32, is_u64 in *.
  assert (decodes TableIndex_field (TableIndex_bytes m) emptyTI m) as H.
  { unfold TableIndex_bytes. rewrite <- (app_nil_r (fld_varint 32 _)).
    apply decodes_offsets; [done|]. cbn [TI_Offsets BloomFilter TI_EstimatedSize NumOfBlocks emptyTI app].
    do 3 decode_field. destruct m. apply decodes_nil. }
  apply H; [lia|done|]. lia.
Qed.

(** A TableIndex with its block offsets and Bloom filter survives MarshalTo and Unmarshal. *)
Theorem TableIndex_roundtrip m dAtA :
  TableIndex_wf m -> TableIndex_Size m < 2 ^ 48 -> TableIndex_Size m <= zlen dAtA ->
  exists d, TableIndex_MarshalTo m dAtA = Ok (d, TableIndex_Size m) /\ zlen d = zlen dAtA /\
    (let! b := slice d 0 (TableIndex_Size m) in TableIndex_Unmarshal b) = Ok m.
Proof.
  intros Hwf Hs Hl. pose proof (TableIndex_Size_bytes m Hwf) as Hz. pose proof (zlen_nonneg (TableIndex_bytes m)).
  rewrite TableIndex_MarshalTo_bytes by done. eexists. split; [done|].
  split; [rewrite zlen_app, zlen_zdrop; lia|].
  rewrite slice_Ok by (rewrite ?zlen_app, ?zlen_zdrop; lia). cbn [obind].
  rewrite Z.sub_0_r, (zdrop_0 0), ztake_app_exact by lia. by apply TableIndex_Unmarshal_bytes.
Qed.
