(* ===== verification/ProtoSm.v ===== *)
(** Wire codecs of the pb messages the stream manager keeps in etcd:
    [StreamInfo], [ExtentInfo] and [NodeInfo]. *)
From Stdlib Require Import ZArith Lia.
From stdpp Require Import base option list numbers strings.
From S2P Require Import Prelude GoLib Proto ProtoPs.

(** ** Packed lists of uint64 *)

Definition packed_Size (l : list Z) : Z := foldl (fun n e => n + sov e) 0 l.
Definition back_packed (tag : Z) (l : list Z) (st : bytes * Z) : outcome (bytes * Z) :=
  if 0 <? zlen l then
    let bs := packed l in
    let! (d, i) := put_back (fst st) (snd st) bs in
    let! (d', i') := encodeVarintPb d i (zlen bs) in
    put_back d' i' [byte_of tag]
  else Ok st.
Fixpoint nums_loop (fuel : nat) (postIndex : Z) (l : list Z) (idx : Z) (d : bytes) : outcome (list Z * Z * bytes) :=
  match fuel with
  | O => Panic
  | S f =>
      if idx <? postIndex then
        let! (v, i, d') := varint 64 idx d in nums_loop f postIndex (l ++ [v]) i d'
      else Ok (l, idx, d)
  end.
Definition packed_field {M} (wireType : Z) (l : list Z) (set : list Z -> M) (idx : Z) (d : bytes) : outcome (M * Z * bytes) :=
  if wireType =? 0 then let! (v, i, d') := varint 64 idx d in Ok (set (l ++ [v]), i, d')
  else if wireType =? 2 then
    let! (n, i1, d1) := varint 64 idx d in
    let packedLen := int64 n in
    if packedLen <? 0 then Err ErrInvalidLength
    else let postIndex := int64 (i1 + packedLen) in
    if postIndex <? 0 then Err ErrInvalidLength
    else if zlen d1 <? packedLen then Err ErrUnexpectedEOF
    else let! _ := slice d1 0 packedLen in
    let! (l, i, d') := nums_loop (S (length d1)) postIndex l i1 d1 in Ok (set l, i, d')
  else Err ErrWrongWireType.

(** ** pb.StreamInfo *)

Record StreamInfo := mkSI { StreamID : Z; ExtentIDs : list Z }.
#[export] Instance StreamInfo_eq_dec : EqDecision StreamInfo.
Proof. solve_decision. Defined.
Definition StreamInfo_Size (m : StreamInfo) : Z :=
  let n := 0 in
  let n := if negb (StreamID m =? 0) then n + (1 + sov (StreamID m)) else n in
  if 0 <? zlen (ExtentIDs m) then let l := packed_Size (ExtentIDs m) in n + (1 + sov l + l) else n.
Definition StreamInfo_MarshalToSizedBuffer (m : StreamInfo) (dAtA : bytes) : outcome (bytes * Z) :=
  let! st := back_packed 18 (ExtentIDs m) (dAtA, zlen dAtA) in
  let! st := back_varint 8 (StreamID m) st in
  Ok (fst st, zlen dAtA - snd st).
Definition StreamInfo_Marshal (m : StreamInfo) : outcome bytes :=
  let! (d, n) := StreamInfo_MarshalToSizedBuffer m (zrep (StreamInfo_Size m) Byte.x00) in slice d 0 n.
Definition StreamInfo_field (fieldNum wireType : Z) (m : StreamInfo) (idx : Z) (d : bytes)
  : option (outcome (StreamInfo * Z * bytes)) :=
  match fieldNum with
  | 1 => Some (varint_field 64 wireType (fun v => mkSI v (ExtentIDs m)) idx d)
  | 2 => Some (packed_field wireType (ExtentIDs m) (fun l => mkSI (StreamID m) l) idx d)
  | _ => None
  end.
Definition StreamInfo_Unmarshal (dAtA : bytes) : outcome StreamInfo := unmarshal StreamInfo_field (mkSI 0 []) dAtA.

(** ** pb.ExtentInfo *)

Record ExtentInfo := mkXI { XI_ExtentID : Z; Replicates : list Z; SealSize : Z }.
#[export] Instance ExtentInfo_eq_dec : EqDecision ExtentInfo.
Proof. solve_decision. Defined.
Definition ExtentInfo_Size (m : ExtentInfo) : Z :=
  let n := 0 in
  let n := if negb (XI_ExtentID m =? 0) then n + (1 + sov (XI_ExtentID m)) else n in
  let n := if 0 <? zlen (Replicates m) then let l := packed_Size (Replicates m) in n + (1 + sov l + l) else n in
  if negb (SealSize m =? 0) then n + (1 + sov (SealSize m)) else n.
Definition ExtentInfo_MarshalToSizedBuffer (m : ExtentInfo) (dAtA : bytes) : outcome (bytes * Z) :=
  let! st := back_varint 24 (SealSize m) (dAtA, zlen dAtA) in
  let! st := back_packed 18 (Replicates m) st in
  let! st := back_varint 8 (XI_ExtentID m) st in
  Ok (fst st, zlen dAtA - snd st).
Definition ExtentInfo_Marshal (m : ExtentInfo) : outcome bytes :=
  let! (d, n) := ExtentInfo_MarshalToSizedBuffer m (zrep (ExtentInfo_Size m) Byte.x00) in slice d 0 n.
Definition ExtentInfo_field (fieldNum wireType : Z) (m : ExtentInfo) (idx : Z) (d : bytes)
  : option (outcome (ExtentInfo * Z * bytes)) :=
  match fieldNum with
  | 1 => Some (varint_field 64 wireType (fun v => mkXI v (Replicates m) (SealSize m)) idx d)
  | 2 => Some (packed_field wireType (Replicates m) (fun l => mkXI (XI_ExtentID m) l (SealSize m)) idx d)
  | 3 => Some (varint_field 64 wireType (fun v => mkXI (XI_ExtentID m) (Replicates m) v) idx d)
  | _ => None
  end.
Definition ExtentInfo_Unmarshal (dAtA : bytes) : outcome ExtentInfo := unmarshal ExtentInfo_field (mkXI 0 [] 0) dAtA.

(** ** pb.NodeInfo; the string [Address] as its bytes *)

Record NodeInfo := mkNI { NodeID : Z; Address : bytes }.
#[export] Instance NodeInfo_eq_dec : EqDecision NodeInfo.
Proof. solve_decision. Defined.
Definition NodeInfo_Size (m : NodeInfo) : Z :=
  let n := 0 in
  let n := if negb (NodeID m =? 0) then n + (1 + sov (NodeID m)) else n in
  let l := zlen (Address m) in
  if 0 <? l then n + (1 + l + sov l) else n.
Definition NodeInfo_MarshalToSizedBuffer (m : NodeInfo) (dAtA : bytes) : outcome (bytes * Z) :=
  let! st := back_bytes 18 (Address m) (dAtA, zlen dAtA) in
  let! st := back_varint 8 (NodeID m) st in
  Ok (fst st, zlen dAtA - snd st).
Definition NodeInfo_Marshal (m : NodeInfo) : outcome bytes :=
  let! (d, n) := NodeInfo_MarshalToSizedBuffer m (zrep (NodeInfo_Size m) Byte.x00) in slice d 0 n.
Definition NodeInfo_field (fieldNum wireType : Z) (m : NodeInfo) (idx : Z) (d : bytes)
  : option (outcome (NodeInfo * Z * bytes)) :=
  match fieldNum with
  | 1 => Some (varint_field 64 wireType (fun v => mkNI v (Address m)) idx d)
  | 2 => Some (bytes_field wireType (fun v => mkNI (NodeID m) v) idx d)
  | _ => None
  end.
Definition NodeInfo_Unmarshal (dAtA : bytes) : outcome NodeInfo := unmarshal NodeInfo_field (mkNI 0 []) dAtA.

(** ** Packed lists: what is written is read back *)

Definition nums_wf (l : list Z) : Prop := Forall is_u64 l /\ zlen l < 2 ^ 40.

Lemma packed64_bounds l : Forall is_u64 l -> zlen l <= zlen (packed l) <= 10 * zlen l.
Proof.
  induction 1 as [|e l He Hl IH]; [done|]. rewrite packed_cons, zlen_app, zlen_cons. pose proof (varint_bytes_pos e He). lia.
Qed.
Lemma packed_Size_ok l : Forall is_u64 l -> packed_Size l = zlen (packed l).
Proof.
  intros Hl. unfold packed_Size. rewrite <- (Z.add_0_l (zlen (packed l))). generalize 0. induction Hl as [|e l He Hl IH]; intros acc; cbn [foldl].
  - change (packed []) with (@nil byte). rewrite zlen_nil. lia.
  - rewrite IH, (sov_spec e He), packed_cons, zlen_app. lia.
Qed.
Lemma packed64_bytes tag l : Forall is_u64 l -> zlen l < 2 ^ 40 ->
  back_packed tag l = back_bytes tag (packed l) /\
  zlen (fld_bytes tag (packed l)) = (if 0 <? zlen l then let n := packed_Size l in 1 + sov n + n else 0).
Proof.
  intros Hu Hl. pose proof (packed64_bounds l Hu). pose proof (zlen_nonneg l). unfold back_packed, back_bytes.
  assert ((0 <? zlen (packed l)) = (0 <? zlen l)) as Eb by (destruct (Z.ltb_spec 0 (zlen l)), (Z.ltb_spec 0 (zlen (packed l))); lia || done).
  rewrite zlen_fld_bytes by lia. rewrite Eb, packed_Size_ok by done. split; [done|]. cbv zeta. destruct (0 <? zlen l); lia.
Qed.

Lemma nums_loop_ok l : forall fuel acc idx rest, Forall is_u64 l -> (length l < fuel)%nat ->
  nums_loop fuel (idx + zlen (packed l)) acc idx (packed l ++ rest) = Ok (acc ++ l, idx + zlen (packed l), rest).
Proof.
  induction l as [|e l IH]; intros [|f] acc idx rest Hu Hf; cbn [length] in *; try lia.
  - change (packed []) with (@nil byte). cbn [nums_loop app]. rewrite zlen_nil, Z.add_0_r, Z.ltb_irrefl. by rewrite app_nil_r.
  - apply Forall_cons in Hu as [He Hl]. cbn [nums_loop]. rewrite packed_cons, zlen_app.
    pose proof (varint_bytes_pos e He). pose proof (zlen_nonneg (packed l)).
    destruct (Z.ltb_spec idx (idx + (zlen (varint_bytes 10 e) + zlen (packed l)))); [|lia].
    rewrite <- app_assoc, varint_put by (lia || apply He). cbn [obind]. rewrite Z.add_assoc, IH by (done || lia). by rewrite <- app_assoc.
Qed.

Lemma decodes_packed {M} (field : Z -> Z -> M -> Z -> bytes -> option (outcome (M * Z * bytes))) fn l rest m m' (set : list Z -> M) :
  nums_wf l -> (l = [] -> set l = m) -> (fn = 1 \/ fn = 2) -> (forall idx d, field fn 2 m idx d = Some (packed_field 2 [] set idx d)) ->
  decodes field rest (set l) m' -> decodes field (fld_bytes (8 * fn + 2) (packed l) ++ rest) m m'.
Proof.
  intros [Hu Hl] H0' Hfn Hfield Hrest. pose proof (packed64_bounds l Hu) as Hpb. unfold fld_bytes. destruct (Z.eqb_spec (zlen (packed l)) 0) as [E|Hne].
  { assert (l = []) as -> by (apply zlen_0_nil; pose proof (zlen_nonneg l); lia). by rewrite (H0' eq_refl) in Hrest. }
  intros [|f] idx Hf Hi Hb; [lia|]. cbn [app length] in *. rewrite zlen_cons in Hb. rewrite <- !app_assoc in *. rewrite !zlen_app in Hb.
  pose proof (zlen_nonneg rest). pose proof (zlen_nonneg l). pose proof (varint_bytes_pos (zlen (packed l)) ltac:(lia)).
  rewrite unmarshal_loop_S, varint_tag by lia. cbn [obind]. cbv zeta.
  assert (Z.land (8 * fn + 2) 7 = 2 /\ int32 (Z.shiftr (8 * fn + 2) 3) = fn) as [-> ->] by (destruct Hfn as [-> | ->]; done).
  assert ((fn <=? 0) = false) as -> by (apply Z.leb_gt; lia).
  cbn [Z.eqb Z.leb Z.compare Pos.compare Pos.compare_cont Pos.eqb]. rewrite Hfield. unfold packed_field. change (2 =? 0) with false. change (2 =? 2) with true. cbv iota.
  rewrite varint_put by lia. cbn [obind]. rewrite int64_small by lia. destruct (Z.ltb_spec (zlen (packed l)) 0); [lia|].
  rewrite int64_small by lia. match goal with |- context [?a <? 0] => destruct (Z.ltb_spec a 0); [lia|] end.
  destruct (Z.ltb_spec (zlen (packed l ++ rest)) (zlen (packed l))); [rewrite zlen_app in *; lia|].
  rewrite slice_Ok by (rewrite ?zlen_app; lia). cbn [obind].
  rewrite nums_loop_ok by (done || (rewrite length_app; unfold zlen in *; lia)). cbn [obind app].
  apply Hrest; [rewrite !length_app in Hf|..]; lia.
Qed.

(** ** Round trips *)

Definition StreamInfo_wf (m : StreamInfo) : Prop := is_u64 (StreamID m) /\ nums_wf (ExtentIDs m).
Definition StreamInfo_bytes (m : StreamInfo) : bytes := fld_varint 8 (StreamID m) ++ fld_bytes 18 (packed (ExtentIDs m)).
Definition ExtentInfo_wf (m : ExtentInfo) : Prop := is_u64 (XI_ExtentID m) /\ nums_wf (Replicates m) /\ is_u64 (SealSize m).
Definition ExtentInfo_bytes (m : ExtentInfo) : bytes :=
  fld_varint 8 (XI_ExtentID m) ++ fld_bytes 18 (packed (Replicates m)) ++ fld_varint 24 (SealSize m).
Definition NodeInfo_wf (m : NodeInfo) : Prop := is_u64 (NodeID m) /\ zlen (Address m) < 2 ^ 40.
Definition NodeInfo_bytes (m : NodeInfo) : bytes := fld_varint 8 (NodeID m) ++ fld_bytes 18 (Address m).

(** a buffer the fields fill exactly *)
Ltac marshal_exact :=
  match goal with |- obind _ _ = Ok ?enc =>
    set (buf := zrep _ _);
    let Hb := fresh "Hb" in assert (zlen buf = zlen enc) as Hb by (subst buf; rewrite zlen_zrep by (first [lia | apply zlen_nonneg]); lia);
    clearbody buf; rewrite <- (app_nil_r buf) at 1; autorewrite with zlen in Hb; zlens
  end.
Ltac marshal_end :=
  cbn [fst snd];
  match goal with |- slice (?p ++ _) 0 (_ - zlen ?p) = _ => assert (p = []) as -> by (apply zlen_0_nil; lia) end;
  cbn [app obind]; rewrite ?app_nil_r, (zlen_nil (A := byte)), Z.sub_0_r; rewrite slice_Ok by (rewrite ?zlen_app; lia);
  rewrite zdrop_0, ztake_ge by (rewrite ?zlen_app; lia); done.

Lemma packed64_small l : nums_wf l -> zlen (packed l) < 2 ^ 48.
Proof. intros [Hu Hl]. pose proof (packed64_bounds l Hu). lia. Qed.
Lemma StreamInfo_Marshal_bytes m : StreamInfo_wf m -> StreamInfo_Marshal m = Ok (StreamInfo_bytes m).
Proof.
  intros [H1' [Hu Hl]]. destruct (packed64_bytes 18 (ExtentIDs m) Hu Hl) as [Ep Es]. pose proof (packed64_small _ (conj Hu Hl)) as Hsm.
  assert (StreamInfo_Size m = zlen (StreamInfo_bytes m)) as Hsz.
  { unfold StreamInfo_bytes. rewrite zlen_app, zlen_fld_varint, Es by done. unfold StreamInfo_Size. cbv zeta.
    destruct (StreamID m =? 0), (0 <? zlen (ExtentIDs m)); cbn [negb]; lia. }
  unfold StreamInfo_Marshal, StreamInfo_MarshalToSizedBuffer. rewrite Hsz, Ep. unfold StreamInfo_bytes.
  marshal_exact. do 2 back_step. marshal_end.
Qed.
Lemma StreamInfo_Unmarshal_bytes m : StreamInfo_wf m -> StreamInfo_Unmarshal (StreamInfo_bytes m) = Ok m.
Proof.
  intros [H1' H2']. pose proof (packed64_small _ H2') as Hsm. pose proof (fld_bytes_bound 18 _ Hsm). pose proof (fld_varint_bound 8 _ H1'). unfold is_u64 in H1'.
  assert (decodes StreamInfo_field (StreamInfo_bytes m) (mkSI 0 []) m) as Hd.
  { unfold StreamInfo_bytes. rewrite <- (app_nil_r (fld_bytes 18 _)). decode_field.
    eapply (decodes_packed _ 2); [done| |by right|intros; reflexivity|]; [by intros ->|]. destruct m. apply decodes_nil. }
  apply Hd; [lia|done|]. unfold StreamInfo_bytes. rewrite zlen_app. lia.
Qed.

Lemma ExtentInfo_Marshal_bytes m : ExtentInfo_wf m -> ExtentInfo_Marshal m = Ok (ExtentInfo_bytes m).
Proof.
  intros (H1' & [Hu Hl] & H3'). destruct (packed64_bytes 18 (Replicates m) Hu Hl) as [Ep Es]. pose proof (packed64_small _ (conj Hu Hl)) as Hsm.
  assert (ExtentInfo_Size m = zlen (ExtentInfo_bytes m)) as Hsz.
  { unfold ExtentInfo_bytes. rewrite !zlen_app, !zlen_fld_varint, Es by done. unfold ExtentInfo_Size. cbv zeta.
    destruct (XI_ExtentID m =? 0), (0 <? zlen (Replicates m)), (SealSize m =? 0); cbn [negb]; lia. }
  unfold ExtentInfo_Marshal, ExtentInfo_MarshalToSizedBuffer. rewrite Hsz, Ep. unfold ExtentInfo_bytes.
  marshal_exact. do 3 back_step. marshal_end.
Qed.
Lemma ExtentInfo_Unmarshal_bytes m : ExtentInfo_wf m -> ExtentInfo_Unmarshal (ExtentInfo_bytes m) = Ok m.
Proof.
  intros (H1' & H2' & H3'). pose proof (packed64_small _ H2') as Hsm. pose proof (fld_bytes_bound 18 _ Hsm).
  pose proof (fld_varint_bound 8 _ H1'). pose proof (fld_varint_bound 24 _ H3'). unfold is_u64 in H1', H3'.
  assert (decodes ExtentInfo_field (ExtentInfo_bytes m) (mkXI 0 [] 0) m) as Hd.
  { unfold ExtentInfo_bytes. rewrite <- (app_nil_r (fld_varint 24 _)). decode_field.
    eapply (decodes_packed _ 2); [done| |by right|intros; reflexivity|]; [by intros ->|]. decode_field. destruct m. apply decodes_nil. }
  apply Hd; [lia|done|]. unfold ExtentInfo_bytes. rewrite !zlen_app. lia.
Qed.

Lemma NodeInfo_Marshal_bytes m : NodeInfo_wf m -> NodeInfo_Marshal m = Ok (NodeInfo_bytes m).
Proof.
  intros [H1' H2']. assert (zlen (Address m) < 2 ^ 48) as Hsm by lia.
  assert (NodeInfo_Size m = zlen (NodeInfo_bytes m)) as Hsz.
  { unfold NodeInfo_bytes. rewrite zlen_app, zlen_fld_varint, zlen_fld_bytes by done. unfold NodeInfo_Size. cbv zeta.
    destruct (NodeID m =? 0), (0 <? zlen (Address m)); cbn [negb]; lia. }
  unfold NodeInfo_Marshal, NodeInfo_MarshalToSizedBuffer. rewrite Hsz. unfold NodeInfo_bytes.
  marshal_exact. do 2 back_step. marshal_end.
Qed.
Lemma NodeInfo_Unmarshal_bytes m : NodeInfo_wf m -> NodeInfo_Unmarshal (NodeInfo_bytes m) = Ok m.
Proof.
  intros [H1' H2']. assert (zlen (Address m) < 2 ^ 48) as Hsm by lia. pose proof (fld_bytes_bound 18 _ Hsm).
  pose proof (fld_varint_bound 8 _ H1'). unfold is_u64 in H1'.
  assert (decodes NodeInfo_field (NodeInfo_bytes m) (mkNI 0 []) m) as Hd.
  { unfold NodeInfo_bytes. rewrite <- (app_nil_r (fld_bytes 18 _)). do 2 decode_field. destruct m. apply decodes_nil. }
  apply Hd; [lia|done|]. unfold NodeInfo_bytes. rewrite zlen_app. lia.
Qed.

(** ** pb.MemberValue, the value of an election key; the strings as their bytes *)

Record MemberValue := mkMV { MV_ID : Z; MV_Name : bytes; GrpcURL : bytes }.
#[export] Instance MemberValue_eq_dec : EqDecision MemberValue.
Proof. solve_decision. Defined.
Definition MemberValue_Size (m : MemberValue) : Z :=
  let n := 0 in
  let n := if negb (MV_ID m =? 0) then n + (1 + sov (MV_ID m)) else n in
  let l := zlen (MV_Name m) in
  let n := if 0 <? l then n + (1 + l + sov l) else n in
  let l := zlen (GrpcURL m) in
  if 0 <? l then n + (1 + l + sov l) else n.
Definition MemberValue_MarshalToSizedBuffer (m : MemberValue) (dAtA : bytes) : outcome (bytes * Z) :=
  let! st := back_bytes 26 (GrpcURL m) (dAtA, zlen dAtA) in
  let! st := back_bytes 18 (MV_Name m) st in
  let! st := back_varint 8 (MV_ID m) st in
  Ok (fst st, zlen dAtA - snd st).
Definition MemberValue_Marshal (m : MemberValue) : outcome bytes :=
  let! (d, n) := MemberValue_MarshalToSizedBuffer m (zrep (MemberValue_Size m) Byte.x00) in slice d 0 n.
Definition MemberValue_field (fieldNum wireType : Z) (m : MemberValue) (idx : Z) (d : bytes)
  : option (outcome (MemberValue * Z * bytes)) :=
  match fieldNum with
  | 1 => Some (varint_field 64 wireType (fun v => mkMV v (MV_Name m) (GrpcURL m)) idx d)
  | 2 => Some (bytes_field wireType (fun v => mkMV (MV_ID m) v (GrpcURL m)) idx d)
  | 3 => Some (bytes_field wireType (fun v => mkMV (MV_ID m) (MV_Name m) v) idx d)
  | _ => None
  end.
Definition MemberValue_Unmarshal (dAtA : bytes) : outcome MemberValue := unmarshal MemberValue_field (mkMV 0 [] []) dAtA.
Definition MemberValue_wf (m : MemberValue) : Prop :=
  is_u64 (MV_ID m) /\ zlen (MV_Name m) < 2 ^ 40 /\ zlen (GrpcURL m) < 2 ^ 40.
Definition MemberValue_bytes (m : MemberValue) : bytes :=
  fld_varint 8 (MV_ID m) ++ fld_bytes 18 (MV_Name m) ++ fld_bytes 26 (GrpcURL m).
Lemma MemberValue_Marshal_bytes m : MemberValue_wf m -> MemberValue_Marshal m = Ok (MemberValue_bytes m).
Proof.
  intros (H1' & H2' & H3'). assert (zlen (MV_Name m) < 2 ^ 48) as Hn by lia. assert (zlen (GrpcURL m) < 2 ^ 48) as Hg by lia.
  assert (MemberValue_Size m = zlen (MemberValue_bytes m)) as Hsz.
  { unfold MemberValue_bytes. rewrite !zlen_app, zlen_fld_varint, !zlen_fld_bytes by done. unfold MemberValue_Size. cbv zeta.
    destruct (MV_ID m =? 0), (0 <? zlen (MV_Name m)), (0 <? zlen (GrpcURL m)); cbn [negb]; lia. }
  unfold MemberValue_Marshal, MemberValue_MarshalToSizedBuffer. rewrite Hsz. unfold MemberValue_bytes.
  marshal_exact. do 3 back_step. marshal_end.
Qed.
Lemma MemberValue_Unmarshal_bytes m : MemberValue_wf m -> MemberValue_Unmarshal (MemberValue_bytes m) = Ok m.
Proof.
  intros (H1' & H2' & H3'). assert (zlen (MV_Name m) < 2 ^ 48) as Hn by lia. assert (zlen (GrpcURL m) < 2 ^ 48) as Hg by lia.
  pose proof (fld_bytes_bound 18 _ Hn). pose proof (fld_bytes_bound 26 _ Hg).
  pose proof (fld_varint_bound 8 _ H1'). unfold is_u64 in H1'.
  assert (decodes MemberValue_field (MemberValue_bytes m) (mkMV 0 [] []) m) as Hd.
  { unfold MemberValue_bytes. rewrite <- (app_nil_r (fld_bytes 26 _)). do 3 decode_field. destruct m. apply decodes_nil. }
  apply Hd; [lia|done|]. unfold MemberValue_bytes. rewrite !zlen_app. lia.
Qed.
