(* ===== verification/ProtoPm.v ===== *)
(** Wire codecs of the pspb messages the partition manager keeps in etcd:
    [Range], [Location], [TableLocations], [BlobStreams] and [PSDetail]. *)
From Stdlib Require Import ZArith Lia.
From stdpp Require Import base option list numbers strings.
From S2P Require Import Prelude GoLib Proto ProtoSub ProtoPs ProtoSm.

(** ** pspb.Range *)

Record Range := mkRange { StartKey : bytes; EndKey : bytes }.
#[export] Instance Range_eq_dec : EqDecision Range.
Proof. solve_decision. Defined.
Definition Range_Size (m : Range) : Z :=
  let n := 0 in
  let l := zlen (StartKey m) in
  let n := if 0 <? l then n + (1 + l + sov l) else n in
  let l := zlen (EndKey m) in
  if 0 <? l then n + (1 + l + sov l) else n.
Definition Range_MarshalToSizedBuffer (m : Range) (dAtA : bytes) : outcome (bytes * Z) :=
  let! st := back_bytes 18 (EndKey m) (dAtA, zlen dAtA) in
  let! st := back_bytes 10 (StartKey m) st in
  Ok (fst st, zlen dAtA - snd st).
Definition Range_Marshal (m : Range) : outcome bytes :=
  let! (d, n) := Range_MarshalToSizedBuffer m (zrep (Range_Size m) Byte.x00) in slice d 0 n.
Definition Range_field (fieldNum wireType : Z) (m : Range) (idx : Z) (d : bytes) : option (outcome (Range * Z * bytes)) :=
  match fieldNum with
  | 1 => Some (bytes_field wireType (fun v => mkRange v (EndKey m)) idx d)
  | 2 => Some (bytes_field wireType (fun v => mkRange (StartKey m) v) idx d)
  | _ => None
  end.
Definition Range_Unmarshal (dAtA : bytes) : outcome Range := unmarshal Range_field (mkRange [] []) dAtA.

(** ** pspb.Location and pspb.TableLocations *)

Record Location := mkLoc { Loc_ExtentID : Z; Loc_Offset : Z }.
#[export] Instance Location_eq_dec : EqDecision Location.
Proof. solve_decision. Defined.
Definition Location_Size (m : Location) : Z :=
  let n := 0 in
  let n := if negb (Loc_ExtentID m =? 0) then n + (1 + sov (Loc_ExtentID m)) else n in
  if negb (Loc_Offset m =? 0) then n + (1 + sov (Loc_Offset m)) else n.
Definition Location_MarshalToSizedBuffer (m : Location) (dAtA : bytes) : outcome (bytes * Z) :=
  let! st := back_varint 16 (Loc_Offset m) (dAtA, zlen dAtA) in
  let! st := back_varint 8 (Loc_ExtentID m) st in
  Ok (fst st, zlen dAtA - snd st).
Definition Location_field (fieldNum wireType : Z) (m : Location) (idx : Z) (d : bytes) : option (outcome (Location * Z * bytes)) :=
  match fieldNum with
  | 1 => Some (varint_field 64 wireType (fun v => mkLoc v (Loc_Offset m)) idx d)
  | 2 => Some (varint_field 32 wireType (fun v => mkLoc (Loc_ExtentID m) v) idx d)
  | _ => None
  end.
Definition Location_Unmarshal (dAtA : bytes) : outcome Location := unmarshal Location_field (mkLoc 0 0) dAtA.

Record TableLocations := mkTL { Locs : list Location }.
#[export] Instance TableLocations_eq_dec : EqDecision TableLocations.
Proof. solve_decision. Defined.
Definition TableLocations_Size (m : TableLocations) : Z := subs_Size Location_Size 0 (Locs m).
Definition TableLocations_MarshalToSizedBuffer (m : TableLocations) (dAtA : bytes) : outcome (bytes * Z) :=
  let! st := back_subs Location_MarshalToSizedBuffer 10 (Locs m) (dAtA, zlen dAtA) in
  Ok (fst st, zlen dAtA - snd st).
Definition TableLocations_Marshal (m : TableLocations) : outcome bytes :=
  let! (d, n) := TableLocations_MarshalToSizedBuffer m (zrep (TableLocations_Size m) Byte.x00) in slice d 0 n.
Definition TableLocations_field (fieldNum wireType : Z) (m : TableLocations) (idx : Z) (d : bytes)
  : option (outcome (TableLocations * Z * bytes)) :=
  match fieldNum with
  | 1 => Some (sub_field Location_Unmarshal wireType (fun l => mkTL (Locs m ++ [l])) idx d)
  | _ => None
  end.
Definition TableLocations_Unmarshal (dAtA : bytes) : outcome TableLocations := unmarshal TableLocations_field (mkTL []) dAtA.

(** ** pspb.BlobStreams *)

Record BlobStreams := mkBS { Blob : list Z }.
#[export] Instance BlobStreams_eq_dec : EqDecision BlobStreams.
Proof. solve_decision. Defined.
Definition BlobStreams_Size (m : BlobStreams) : Z :=
  if 0 <? zlen (Blob m) then let l := packed_Size (Blob m) in 0 + (1 + sov l + l) else 0.
Definition BlobStreams_MarshalToSizedBuffer (m : BlobStreams) (dAtA : bytes) : outcome (bytes * Z) :=
  let! st := back_packed 10 (Blob m) (dAtA, zlen dAtA) in
  Ok (fst st, zlen dAtA - snd st).
Definition BlobStreams_Marshal (m : BlobStreams) : outcome bytes :=
  let! (d, n) := BlobStreams_MarshalToSizedBuffer m (zrep (BlobStreams_Size m) Byte.x00) in slice d 0 n.
Definition BlobStreams_field (fieldNum wireType : Z) (m : BlobStreams) (idx : Z) (d : bytes) : option (outcome (BlobStreams * Z * bytes)) :=
  match fieldNum with
  | 1 => Some (packed_field wireType (Blob m) (fun l => mkBS l) idx d)
  | _ => None
  end.
Definition BlobStreams_Unmarshal (dAtA : bytes) : outcome BlobStreams := unmarshal BlobStreams_field (mkBS []) dAtA.

(** ** pspb.PSDetail; the string [Address] as its bytes *)

Record PSDetail := mkPSD { PSID : Z; PS_Address : bytes }.
#[export] Instance PSDetail_eq_dec : EqDecision PSDetail.
Proof. solve_decision. Defined.
Definition PSDetail_Size (m : PSDetail) : Z :=
  let n := 0 in
  let n := if negb (PSID m =? 0) then n + (1 + sov (PSID m)) else n in
  let l := zlen (PS_Address m) in
  if 0 <? l then n + (1 + l + sov l) else n.
Definition PSDetail_MarshalToSizedBuffer (m : PSDetail) (dAtA : bytes) : outcome (bytes * Z) :=
  let! st := back_bytes 18 (PS_Address m) (dAtA, zlen dAtA) in
  let! st := back_varint 8 (PSID m) st in
  Ok (fst st, zlen dAtA - snd st).
Definition PSDetail_Marshal (m : PSDetail) : outcome bytes :=
  let! (d, n) := PSDetail_MarshalToSizedBuffer m (zrep (PSDetail_Size m) Byte.x00) in slice d 0 n.
Definition PSDetail_field (fieldNum wireType : Z) (m : PSDetail) (idx : Z) (d : bytes) : option (outcome (PSDetail * Z * bytes)) :=
  match fieldNum with
  | 1 => Some (varint_field 64 wireType (fun v => mkPSD v (PS_Address m)) idx d)
  | 2 => Some (bytes_field wireType (fun v => mkPSD (PSID m) v) idx d)
  | _ => None
  end.
Definition PSDetail_Unmarshal (dAtA : bytes) : outcome PSDetail := unmarshal PSDetail_field (mkPSD 0 []) dAtA.

(** ** Round trips *)

Definition Range_wf (m : Range) : Prop := zlen (StartKey m) < 2 ^ 40 /\ zlen (EndKey m) < 2 ^ 40.
Definition Range_bytes (m : Range) : bytes := fld_bytes 10 (StartKey m) ++ fld_bytes 18 (EndKey m).
Definition Location_wf (m : Location) : Prop := is_u64 (Loc_ExtentID m) /\ is_u32 (Loc_Offset m).
Definition Location_bytes (m : Location) : bytes := fld_varint 8 (Loc_ExtentID m) ++ fld_varint 16 (Loc_Offset m).
Definition TableLocations_wf (m : TableLocations) : Prop := Forall Location_wf (Locs m) /\ zlen (Locs m) < 2 ^ 40.
Definition TableLocations_bytes (m : TableLocations) : bytes := fld_subs Location_bytes 10 (Locs m).
Definition PSDetail_wf (m : PSDetail) : Prop := is_u64 (PSID m) /\ zlen (PS_Address m) < 2 ^ 40.
Definition PSDetail_bytes (m : PSDetail) : bytes := fld_varint 8 (PSID m) ++ fld_bytes 18 (PS_Address m).

Lemma Range_Marshal_bytes m : Range_wf m -> Range_Marshal m = Ok (Range_bytes m).
Proof.
  intros [H1' H2']. assert (zlen (StartKey m) < 2 ^ 48) as Hsm by lia. assert (zlen (EndKey m) < 2 ^ 48) as Hsm' by lia.
  assert (Range_Size m = zlen (Range_bytes m)) as Hsz.
  { unfold Range_bytes. rewrite zlen_app, !zlen_fld_bytes by done. unfold Range_Size. cbv zeta.
    destruct (0 <? zlen (StartKey m)), (0 <? zlen (EndKey m)); lia. }
  unfold Range_Marshal, Range_MarshalToSizedBuffer. rewrite Hsz. unfold Range_bytes.
  marshal_exact. do 2 back_step. marshal_end.
Qed.
Lemma Range_Unmarshal_bytes m : Range_wf m -> Range_Unmarshal (Range_bytes m) = Ok m.
Proof.
  intros [H1' H2']. assert (zlen (StartKey m) < 2 ^ 48) as Hsm by lia. assert (zlen (EndKey m) < 2 ^ 48) as Hsm' by lia.
  pose proof (fld_bytes_bound 10 _ Hsm). pose proof (fld_bytes_bound 18 _ Hsm').
  assert (decodes Range_field (Range_bytes m) (mkRange [] []) m) as Hd.
  { unfold Range_bytes. rewrite <- (app_nil_r (fld_bytes 18 _)). do 2 decode_field. destruct m. apply decodes_nil. }
  apply Hd; [lia|done|]. unfold Range_bytes. rewrite zlen_app. lia.
Qed.

Lemma PSDetail_Marshal_bytes m : PSDetail_wf m -> PSDetail_Marshal m = Ok (PSDetail_bytes m).
Proof.
  intros [H1' H2']. assert (zlen (PS_Address m) < 2 ^ 48) as Hsm by lia.
  assert (PSDetail_Size m = zlen (PSDetail_bytes m)) as Hsz.
  { unfold PSDetail_bytes. rewrite zlen_app, zlen_fld_varint, zlen_fld_bytes by done. unfold PSDetail_Size. cbv zeta.
    destruct (PSID m =? 0), (0 <? zlen (PS_Address m)); cbn [negb]; lia. }
  unfold PSDetail_Marshal, PSDetail_MarshalToSizedBuffer. rewrite Hsz. unfold PSDetail_bytes.
  marshal_exact. do 2 back_step. marshal_end.
Qed.
Lemma PSDetail_Unmarshal_bytes m : PSDetail_wf m -> PSDetail_Unmarshal (PSDetail_bytes m) = Ok m.
Proof.
  intros [H1' H2']. assert (zlen (PS_Address m) < 2 ^ 48) as Hsm by lia. pose proof (fld_bytes_bound 18 _ Hsm).
  pose proof (fld_varint_bound 8 _ H1'). unfold is_u64 in H1'.
  assert (decodes PSDetail_field (PSDetail_bytes m) (mkPSD 0 []) m) as Hd.
  { unfold PSDetail_bytes. rewrite <- (app_nil_r (fld_bytes 18 _)). do 2 decode_field. destruct m. apply decodes_nil. }
  apply Hd; [lia|done|]. unfold PSDetail_bytes. rewrite zlen_app. lia.
Qed.

Lemma Location_bytes_bound m : Location_wf m -> zlen (Location_bytes m) <= 22.
Proof.
  intros [H1' H2']. unfold Location_bytes. rewrite zlen_app. pose proof (fld_varint_bound 8 _ H1'). pose proof (fld_varint_bound 16 _ (is_u32_u64 _ H2')). lia.
Qed.
Lemma Location_u64 m : Location_wf m -> is_u64 (zlen (Location_bytes m)).
Proof. intros Hm. pose proof (Location_bytes_bound m Hm). pose proof (zlen_nonneg (Location_bytes m)). unfold is_u64. lia. Qed.
Lemma Location_Size_ok m : Location_wf m -> Location_Size m = zlen (Location_bytes m).
Proof.
  intros [H1' H2']. unfold Location_bytes. rewrite zlen_app, !zlen_fld_varint by auto using is_u32_u64. unfold Location_Size. cbv zeta.
  destruct (Loc_ExtentID m =? 0), (Loc_Offset m =? 0); cbn [negb]; lia.
Qed.
Lemma Location_MarshalToSizedBuffer_ok m pre : Location_wf m -> zlen (Location_bytes m) <= zlen pre ->
  exists p, Location_MarshalToSizedBuffer m pre = Ok (p ++ Location_bytes m, zlen (Location_bytes m)) /\
    zlen p = zlen pre - zlen (Location_bytes m).
Proof.
  intros [H1' H2'] Hn. unfold Location_MarshalToSizedBuffer, Location_bytes in *. rewrite zlen_app in Hn |- *.
  pose proof (zlen_nonneg (fld_varint 8 (Loc_ExtentID m))). replace (pre, zlen pre) with (pre ++ [], zlen pre) by (by rewrite app_nil_r).
  do 2 back_step. cbn [fst snd]. exists p0. split; [|lia]. rewrite app_nil_r. do 2 f_equal. lia.
Qed.
Lemma Location_Unmarshal_bytes m : Location_wf m -> Location_Unmarshal (Location_bytes m) = Ok m.
Proof.
  intros Hwf. pose proof (Location_bytes_bound m Hwf). destruct Hwf as [H1' H2']. unfold is_u64, is_u32 in *.
  assert (decodes Location_field (Location_bytes m) (mkLoc 0 0) m) as Hd.
  { unfold Location_bytes. rewrite <- (app_nil_r (fld_varint 16 _)). do 2 decode_field. destruct m. apply decodes_nil. }
  apply Hd; [lia|done|]. lia.
Qed.

Lemma TableLocations_bytes_bound m : TableLocations_wf m -> zlen (TableLocations_bytes m) < 2 ^ 48.
Proof.
  intros [H1' H2']. assert (zlen (TableLocations_bytes m) <= 33 * zlen (Locs m)) as Hb; [|lia]. clear H2'. unfold TableLocations_bytes.
  induction H1' as [|l ls Hl _ IH]; [done|]. rewrite (fld_subs_cons Location_bytes), zlen_app, zlen_cons. unfold fld_sub. rewrite zlen_cons, zlen_app.
  pose proof (Location_bytes_bound l Hl). pose proof (varint_bytes_pos _ (Location_u64 l Hl)). lia.
Qed.
Lemma TableLocations_Marshal_bytes m : TableLocations_wf m -> TableLocations_Marshal m = Ok (TableLocations_bytes m).
Proof.
  intros [H1' H2'].
  assert (TableLocations_Size m = zlen (TableLocations_bytes m)) as Hsz.
  { unfold TableLocations_Size. rewrite (subs_Size_ok Location_bytes Location_wf Location_Size 10 Location_u64 Location_Size_ok) by done. done. }
  unfold TableLocations_Marshal, TableLocations_MarshalToSizedBuffer. rewrite Hsz. unfold TableLocations_bytes.
  marshal_exact.
  destruct (back_subs_ok Location_bytes Location_wf Location_MarshalToSizedBuffer 10 Location_u64 Location_MarshalToSizedBuffer_ok
    (Locs m) buf [] H1' ltac:(lia)) as (p & Hp & ->). cbn [obind]. marshal_end.
Qed.
Lemma TableLocations_Unmarshal_bytes m : TableLocations_wf m -> TableLocations_Unmarshal (TableLocations_bytes m) = Ok m.
Proof.
  intros Hwf. pose proof (TableLocations_bytes_bound m Hwf). destruct Hwf as [H1' H2'].
  assert (decodes TableLocations_field (TableLocations_bytes m) (mkTL []) m) as Hd.
  { unfold TableLocations_bytes. rewrite <- (app_nil_r (fld_subs _ _ _)).
    apply (decodes_subs Location_bytes Location_wf Location_Unmarshal Location_u64 Location_Unmarshal_bytes TableLocations_field
      (fun m l => mkTL (Locs m ++ l))); [intros []; cbn; by rewrite app_nil_r|intros; cbn; by rewrite <- app_assoc|done|done|].
    destruct m. apply decodes_nil. }
  apply Hd; [lia|done|]. lia.
Qed.

Definition BlobStreams_wf (m : BlobStreams) : Prop := nums_wf (Blob m).
Definition BlobStreams_bytes (m : BlobStreams) : bytes := fld_bytes 10 (packed (Blob m)).
Lemma BlobStreams_Marshal_bytes m : BlobStreams_wf m -> BlobStreams_Marshal m = Ok (BlobStreams_bytes m).
Proof.
  intros [Hu Hl]. destruct (packed64_bytes 10 (Blob m) Hu Hl) as [Ep Es]. pose proof (packed64_small _ (conj Hu Hl)) as Hsm.
  assert (BlobStreams_Size m = zlen (BlobStreams_bytes m)) as Hsz.
  { unfold BlobStreams_bytes. rewrite Es. unfold BlobStreams_Size. cbv zeta. destruct (0 <? zlen (Blob m)); lia. }
  unfold BlobStreams_Marshal, BlobStreams_MarshalToSizedBuffer. rewrite Hsz, Ep. unfold BlobStreams_bytes.
  marshal_exact. back_step. marshal_end.
Qed.
Lemma BlobStreams_Unmarshal_bytes m : BlobStreams_wf m -> BlobStreams_Unmarshal (BlobStreams_bytes m) = Ok m.
Proof.
  intros H1'. pose proof (packed64_small _ H1') as Hsm. pose proof (fld_bytes_bound 10 _ Hsm).
  assert (decodes BlobStreams_field (BlobStreams_bytes m) (mkBS []) m) as Hd.
  { unfold BlobStreams_bytes. rewrite <- (app_nil_r (fld_bytes 10 _)).
    eapply (decodes_packed _ 1); [done| |by left|intros; reflexivity|]; [by intros ->|]. destruct m. apply decodes_nil. }
  apply Hd; [lia|done|]. unfold BlobStreams_bytes. lia.
Qed.
