(* ===== verification/ProtoTyped.v ===== *)
(** The decoders of the stored messages are total and typed: on every input
    [Unmarshal] returns a message whose integers are in the range of their Go
    types or an error; it neither indexes out of range nor loops.  A small
    program logic over outcomes ([safe]) carries the proofs field by field. *)
From Stdlib Require Import ZArith Lia.
From stdpp Require Import base option list numbers strings.
From S2P Require Import Prelude GoLib Proto ProtoSub ProtoPs ProtoSm ProtoPm.

(** ** Outcomes that do not panic *)

Definition safe {A} (P : A -> Prop) (o : outcome A) : Prop :=
  match o with Ok a => P a | Err _ => True | Panic => False end.
Lemma safe_bind {A B} (P : A -> Prop) (Q : B -> Prop) (m : outcome A) (k : A -> outcome B) :
  safe P m -> (forall a, P a -> safe Q (k a)) -> safe Q (obind m k).
Proof. destruct m; cbn; auto. Qed.
Lemma safe_mono {A} (P Q : A -> Prop) (m : outcome A) : safe P m -> (forall a, P a -> Q a) -> safe Q m.
Proof. destruct m; cbn; auto. Qed.
Create HintDb typed.
#[export] Hint Resolve I : typed.

(** ** Consuming the input *)

(** a reader that was at [idx] before [d] is at [i] before [d'], further on *)
Definition consumed (idx : Z) (d : bytes) (i : Z) (d' : bytes) : Prop :=
  zlen d' < zlen d /\ i = idx + (zlen d - zlen d').
Lemma consumed_trans idx d i d' j d'' : consumed idx d i d' -> consumed i d' j d'' -> consumed idx d j d''.
Proof. unfold consumed. lia. Qed.

Lemma lor_lt a b w : 0 <= w -> 0 <= a < 2 ^ w -> 0 <= b < 2 ^ w -> 0 <= Z.lor a b < 2 ^ w.
Proof.
  intros Hw Ha Hb. assert (Z.lor a b = Z.lor a b mod 2 ^ w) as ->; [|apply Z.mod_pos_bound; lia].
  rewrite <- Z.land_ones, Z.land_lor_distr_l, !Z.land_ones, !Z.mod_small by lia. done.
Qed.
Lemma get_varint_safe w fuel : 0 < w -> forall shift acc idx d, 0 <= acc < 2 ^ w ->
  safe (fun '(v, i, d') => 0 <= v < 2 ^ w /\ consumed idx d i d') (get_varint w fuel shift acc idx d).
Proof.
  intros Hw. induction fuel as [|f IH]; intros shift acc idx [|b d] Hacc; [exact I..|].
  rewrite get_varint_S. cbv zeta. set (acc' := Z.lor acc _).
  assert (0 <= acc' < 2 ^ w) as Ha by (apply lor_lt; [lia|done|apply Z.mod_pos_bound; lia]).
  destruct (byte_Z b <? 128).
  - cbn. split; [done|]. unfold consumed. rewrite zlen_cons. lia.
  - eapply safe_mono; [apply IH, Ha|]. intros [[v i] d'] [Hv Hc]. split; [done|].
    unfold consumed in *. rewrite zlen_cons. lia.
Qed.
Lemma varint_safe w idx d : 0 < w -> safe (fun '(v, i, d') => 0 <= v < 2 ^ w /\ consumed idx d i d') (varint w idx d).
Proof. intros Hw. apply get_varint_safe; [done|]. split; [done|]. apply Z.pow_pos_nonneg; lia. Qed.

(** a length that passed the checks of the generated code *)
Lemma get_bytes_safe idx d : 0 <= idx -> idx + zlen d < 2 ^ 62 ->
  safe (fun '(v, i, d') => zlen v <= zlen d - zlen d' /\ consumed idx d i d') (get_bytes idx d).
Proof.
  intros Hi Hb. eapply safe_bind; [by apply varint_safe|]. intros [[n i1] d1] [Hn [Hc1 Hc2]]. cbn beta iota zeta.
  destruct (Z.ltb_spec (int64 n) 0); [exact I|]. cbv zeta. destruct (_ <? 0); [exact I|].
  destruct (Z.ltb_spec (zlen d1) (int64 n)); [exact I|]. zlens. rewrite slice_Ok by lia. cbn. rewrite Z.sub_0_r, zdrop_0 by lia.
  rewrite (int64_small (i1 + int64 n)) by lia. unfold consumed. rewrite zlen_ztake, zlen_zdrop by lia. lia.
Qed.

(** [skipPb] advances, and stays within the input unless it leaves it for good *)
Definition in_step (L idx : Z) (d : bytes) : Prop := d = [] \/ idx + zlen d = L.
Lemma skip_loop_safe L fuel : L < 2 ^ 62 -> forall depth idx d, 0 <= idx -> in_step L idx d -> (length d < fuel)%nat ->
  safe (fun i => idx < i) (skip_loop fuel depth idx d).
Proof.
  intros HL. induction fuel as [|f IH]; intros depth idx d Hi Hs Hf; [lia|].
  destruct d as [|b d]; [exact I|]. destruct Hs as [?|Hs]; [done|]. cbn [skip_loop].
  eapply safe_bind; [by apply varint_safe|]. intros [[wire i1] d1] [_ [Hc1 Hc2]]. cbn beta iota zeta.
  assert (forall dp j d', in_step L j d' -> idx < j -> (length d' < f)%nat ->
    safe (fun i => idx < i) (if j <? 0 then Err ErrInvalidLength else if dp =? 0 then Ok j else skip_loop f dp j d')) as Hk.
  { intros dp j d' Hs' Hj Hf'. destruct (Z.ltb_spec j 0); [exact I|]. destruct (dp =? 0); [exact Hj|].
    eapply safe_mono; [apply IH; [lia|done|done]|]. intros i ?. cbn in *. lia. }
  assert (length d1 < f)%nat as Hf1 by (unfold zlen in *; lia).
  assert (forall n i2 d2, 0 <= n -> i2 = i1 + (zlen d1 - zlen d2) -> in_step L (i2 + n) (zdrop n d2)) as Hd.
  { intros n i2 d2 Hn ->. destruct (Z.le_gt_cases (zlen d2) n).
    - left. apply drop_ge. unfold zlen in *. lia.
    - right. rewrite zlen_zdrop; lia. }
  assert (forall n (d2 : bytes), (length d2 <= length d1 -> length (zdrop n d2) < f)%nat) as Hfd.
  { intros n d2 ?. unfold zdrop. rewrite length_drop. lia. }
  pose proof (Hd 0 i1 d1 ltac:(done) ltac:(lia)) as Hd0. rewrite Z.add_0_r, zdrop_0 in Hd0 by done.
  destruct (Z.land wire 7) as [|[[[]|[]|]|[[]|[]|]|]|]; try exact I.
  - eapply safe_bind; [by apply varint_safe|]. intros [[n i2] d2] [_ [H1 H2]]. cbn beta iota.
    apply Hk; [|lia|unfold zlen in *; lia]. pose proof (Hd 0 i2 d2 ltac:(done) H2) as Hd2. by rewrite Z.add_0_r, zdrop_0 in Hd2 by done.
  - apply Hk; [apply (Hd 4); lia|lia|by apply Hfd].
  - apply Hk; [done|lia|done].
  - destruct (depth =? 0); [exact I|]. apply Hk; [done|lia|done].
  - eapply safe_bind; [by apply varint_safe|]. intros [[n i2] d2] [Hn [H1 H2]]. cbn beta iota zeta.
    destruct (Z.ltb_spec (int64 n) 0); [exact I|].
    assert (int64 (i2 + int64 n) = i2 + int64 n \/ int64 (i2 + int64 n) < 0) as [->|Hneg].
    { zlens. unfold int64 in *. Z.div_mod_to_equations. lia. }
    + apply Hk; [by apply Hd|lia|apply Hfd; unfold zlen in *; lia].
    + destruct (Z.ltb_spec (int64 (i2 + int64 n)) 0); [exact I|lia].
  - apply Hk; [apply (Hd 8); lia|lia|by apply Hfd].
Qed.
Lemma skipPb_safe d : zlen d < 2 ^ 62 -> safe (fun i => 0 < i) (skipPb d).
Proof. intros. apply (skip_loop_safe (zlen d)); [done|done|by right|lia]. Qed.

(** ** The decoding loop *)

Section Message.
Context {M : Type} (field : Z -> Z -> M -> Z -> bytes -> option (outcome (M * Z * bytes))).
(** [P k m]: what holds of a message decoded from at most [k] bytes *)
Context (P : Z -> M -> Prop) (P_mono : forall k k' m, P k m -> k <= k' -> P k' m).

(** one field, read from [d] on top of a message with [k] bytes behind it *)
Definition reads (k idx : Z) (d : bytes) (r : outcome (M * Z * bytes)) : Prop :=
  safe (fun '(m, i, d') => P (k + (zlen d - zlen d')) m /\ consumed idx d i d') r.
Context (field_ok : forall fieldNum wireType m k idx d, 0 <= idx -> idx + zlen d < 2 ^ 62 -> 0 <= k -> P k m ->
  match field fieldNum wireType m idx d with None => True | Some r => reads k idx d r end).

Lemma unmarshal_loop_safe fuel : forall m k idx d, 0 <= k -> P k m -> 0 <= idx -> idx + zlen d < 2 ^ 62 -> (length d < fuel)%nat ->
  safe (P (k + zlen d)) (unmarshal_loop field fuel m idx d).
Proof using field_ok P_mono.
  induction fuel as [|f IH]; intros m k idx d Hk0 Hk Hi Hb Hf; [lia|].
  destruct d as [|b d]; [cbn; rewrite Z.add_0_r; done|]. rewrite unmarshal_loop_S. set (d0 := b :: d) in *.
  eapply safe_bind; [by apply varint_safe|]. intros [[wire i1] d1] [_ [Hc1 Hc2]]. cbn beta iota zeta. zlens.
  destruct (_ =? 4); [exact I|]. destruct (_ <=? 0); [exact I|].
  pose proof (field_ok (int32 (Z.shiftr wire 3)) (Z.land wire 7) m k i1 d1 ltac:(lia) ltac:(lia) Hk0 Hk) as Hfd.
  destruct (field _ _ _ _ _) as [r|].
  - eapply safe_bind; [exact Hfd|]. intros [[m' i2] d2] [Hp [H1 H2]]. zlens.
    eapply safe_mono; [exact (IH m' (k + (zlen d1 - zlen d2)) i2 d2 ltac:(lia) Hp ltac:(lia) ltac:(lia) ltac:(unfold zlen in *; lia))|].
    intros m'' Hm. eapply P_mono; [exact Hm|]. lia.
  - eapply safe_bind; [apply skipPb_safe; lia|]. intros sk Hsk. cbn beta in *.
    destruct (_ <? 0); [exact I|]. destruct (_ <? 0); [exact I|]. destruct (Z.ltb_spec (zlen d0) sk); [exact I|].
    assert (zlen (zdrop sk d0) = zlen d0 - sk) as Hz by (apply zlen_zdrop; lia).
    eapply safe_mono; [apply (IH m k); [done|done|lia|lia|unfold zlen in *; lia]|].
    intros m' Hm. eapply P_mono; [exact Hm|]. lia.
Qed.
Lemma unmarshal_safe m0 dAtA : P 0 m0 -> zlen dAtA < 2 ^ 62 -> safe (P (zlen dAtA)) (unmarshal field m0 dAtA).
Proof using field_ok P_mono. intros. apply (unmarshal_loop_safe _ m0 0 0); [done|done|done|lia|lia]. Qed.
End Message.
Arguments reads {M} P k idx d r.

(** ** The kinds of fields *)

(** the two loops over packed numbers, at their width *)
Definition nums_ok (w : Z) (vs : list Z) (n : Z) : Prop := Forall (fun v => 0 <= v < 2 ^ w) vs /\ zlen vs <= n.
Lemma nums_ok_snoc w l vs v n : nums_ok w vs n -> 0 <= v < 2 ^ w -> (l ++ vs) ++ [v] = l ++ (vs ++ [v]) /\ nums_ok w (vs ++ [v]) (n + 1).
Proof.
  intros [Hv Hl] Hr. split; [by rewrite app_assoc|]. split; [by apply Forall_app; split; [|constructor]|].
  rewrite zlen_app, zlen_cons, zlen_nil. lia.
Qed.
Lemma nums_loop_safe fuel postIndex l : forall vs j (e : bytes) n, nums_ok 64 vs n -> (length e < fuel)%nat ->
  safe (fun '(l', i, e') => exists vs', l' = l ++ vs' /\ nums_ok 64 vs' (n + (zlen e - zlen e')) /\ zlen e' <= zlen e /\ i = j + (zlen e - zlen e'))
    (nums_loop fuel postIndex (l ++ vs) j e).
Proof.
  induction fuel as [|f IH]; intros vs j e n Hn Hf; [lia|]. cbn [nums_loop]. destruct (_ <? _).
  - eapply safe_bind; [by apply varint_safe|]. intros [[v i] e'] [Hv [H1 H2]]. cbn beta iota.
    destruct (nums_ok_snoc 64 l vs v n Hn Hv) as [-> Hn']. eapply safe_mono; [apply IH; [exact Hn'|unfold zlen in *; lia]|].
    intros [[l' i'] e''] (vs' & -> & Hvs & Hle & ->). exists vs'. split; [done|].
    split; [split; [apply Hvs|]; destruct Hvs; lia|]. lia.
  - cbn. exists vs. rewrite Z.sub_diag, !Z.add_0_r. repeat split; try done; apply Hn.
Qed.
Lemma packed_loop_safe fuel postIndex l : forall vs j (e : bytes) n, nums_ok 32 vs n -> (length e < fuel)%nat ->
  safe (fun '(l', i, e') => exists vs', l' = l ++ vs' /\ nums_ok 32 vs' (n + (zlen e - zlen e')) /\ zlen e' <= zlen e /\ i = j + (zlen e - zlen e'))
    (packed_loop fuel postIndex (l ++ vs) j e).
Proof.
  induction fuel as [|f IH]; intros vs j e n Hn Hf; [lia|]. cbn [packed_loop]. destruct (_ <? _).
  - eapply safe_bind; [by apply varint_safe|]. intros [[v i] e'] [Hv [H1 H2]]. cbn beta iota.
    destruct (nums_ok_snoc 32 l vs v n Hn Hv) as [-> Hn']. eapply safe_mono; [apply IH; [exact Hn'|unfold zlen in *; lia]|].
    intros [[l' i'] e''] (vs' & -> & Hvs & Hle & ->). exists vs'. split; [done|].
    split; [split; [apply Hvs|]; destruct Hvs; lia|]. lia.
  - cbn. exists vs. rewrite Z.sub_diag, !Z.add_0_r. repeat split; try done; apply Hn.
Qed.

Section Fields.
Context {M : Type} (P : Z -> M -> Prop) (k idx : Z) (d : bytes) (Hi : 0 <= idx) (Hb : idx + zlen d < 2 ^ 62).

Lemma varint_field_reads w wt (set : Z -> M) : 0 < w ->
  (forall v n, 0 <= v < 2 ^ w -> 0 < n -> P (k + n) (set v)) -> reads P k idx d (varint_field w wt set idx d).
Proof using Type.
  intros Hw Hs. unfold varint_field. destruct (negb _); [exact I|].
  eapply safe_bind; [by apply varint_safe|]. intros [[v i] d'] [Hv Hc]. cbn. split; [|done]. apply Hs; [done|]. unfold consumed in Hc. lia.
Qed.
Lemma bytes_field_reads wt (set : bytes -> M) :
  (forall v n, zlen v <= n -> 0 < n -> P (k + n) (set v)) -> reads P k idx d (bytes_field wt set idx d).
Proof using Hi Hb.
  intros Hs. unfold bytes_field. destruct (negb _); [exact I|].
  eapply safe_bind; [by apply get_bytes_safe|]. intros [[v i] d'] [Hv Hc]. cbn. split; [|done]. apply Hs; [done|]. unfold consumed in Hc. lia.
Qed.
Lemma sub_field_reads {E} (unm : bytes -> outcome E) (Q : Z -> E -> Prop) wt (add : E -> M) :
  (forall b, zlen b < 2 ^ 62 -> safe (Q (zlen b)) (unm b)) ->
  (forall e z n, Q z e -> 0 <= z <= n -> 0 < n -> P (k + n) (add e)) -> reads P k idx d (sub_field unm wt add idx d).
Proof using Hi Hb.
  intros Hu Hs. unfold sub_field. destruct (negb _); [exact I|].
  eapply safe_bind; [by apply get_bytes_safe|]. intros [[b i] d'] [Hv Hc]. unfold consumed in Hc. zlens.
  eapply safe_bind; [apply Hu; lia|]. intros e He. cbn. split; [|done].
  eapply Hs; [exact He|split; [apply zlen_nonneg|exact Hv]|lia].
Qed.

Lemma packed_field_reads wt l (set : list Z -> M) :
  (forall vs n, nums_ok 64 vs n -> 0 < n -> P (k + n) (set (l ++ vs))) -> reads P k idx d (packed_field wt l set idx d).
Proof using Hi Hb.
  intros Hs. unfold packed_field. destruct (wt =? 0); [|destruct (wt =? 2); [|exact I]].
  - eapply safe_bind; [by apply varint_safe|]. intros [[v i] d'] [Hv Hc]. cbn. split; [|done]. unfold consumed in Hc.
    apply Hs; [|lia]. split; [by constructor|]. rewrite zlen_cons, zlen_nil. lia.
  - eapply safe_bind; [by apply varint_safe|]. intros [[v i1] d1] [Hv [H1 H2]]. cbn beta iota zeta.
    destruct (Z.ltb_spec (int64 v) 0); [exact I|]. destruct (_ <? 0); [exact I|]. destruct (Z.ltb_spec (zlen d1) (int64 v)); [exact I|].
    rewrite slice_Ok by lia. cbn [obind]. pose proof (nums_loop_safe (S (length d1)) (int64 (i1 + int64 v)) l [] i1 d1 0 ltac:(by split; [constructor|]) ltac:(lia)) as Hl.
    rewrite app_nil_r in Hl. eapply safe_bind; [exact Hl|].
    intros [[l' i] d'] (vs & -> & Hn & Hle & ->). cbn. split; [|unfold consumed; lia].
    apply Hs; [split; [apply Hn|destruct Hn; lia]|lia].
Qed.
End Fields.

(** ** The messages *)

(** the cases of a [switch fieldNum] *)
Ltac field_cases :=
  let fn := fresh "fn" in let wt := fresh "wt" in
  intros fn wt m k idx d Hi Hb Hk Hm;
  destruct fn as [|[[[]|[]|]|[[]|[]|]|]|]; try exact I;
  (apply varint_field_reads || apply bytes_field_reads || apply packed_field_reads || idtac); try done.

Definition Entry_in (k : Z) (m : Entry) : Prop :=
  is_u32 (Meta m) /\ is_u32 (UserMeta m) /\ is_u64 (ExpiresAt m) /\ zlen (Key m) <= k /\ zlen (Value m) <= k.
(** the ranges of a message after one field *)
Ltac in_range := intros; unfold is_u32, is_u64, is_i32 in *; cbn in *; intuition lia.

Ltac empty_range := vm_compute; intuition discriminate.

Lemma Entry_safe dAtA : zlen dAtA < 2 ^ 62 -> safe (Entry_in (zlen dAtA)) (Entry_Unmarshal dAtA).
Proof. apply unmarshal_safe; unfold Entry_in; [in_range|field_cases; in_range|empty_range]. Qed.

Definition MixedLog_in (k : Z) (l : MixedLog) : Prop := Forall is_u32 l /\ zlen l <= k.
Lemma MixedLog_in_app k l vs n : MixedLog_in k l -> nums_ok 32 vs n -> MixedLog_in (k + n) (l ++ vs).
Proof. intros [H1 H2] [H3 H4]. split; [by apply Forall_app|]. rewrite zlen_app. lia. Qed.
Lemma MixedLog_safe dAtA : zlen dAtA < 2 ^ 62 -> safe (MixedLog_in (zlen dAtA)) (MixedLog_Unmarshal dAtA).
Proof.
  apply unmarshal_safe; [unfold MixedLog_in; intuition lia| |by split; [constructor|]].
  field_cases. cbn [MixedLog_field]. destruct (wt =? 0); [|destruct (wt =? 2); [|exact I]].
  - apply varint_field_reads; [done|]. intros v n Hv Hn. apply MixedLog_in_app; [done|]. split; [by constructor|].
    rewrite zlen_cons, zlen_nil. lia.
  - eapply safe_bind; [by apply varint_safe|]. intros [[v i1] d1] [Hv [H1 H2]]. cbn beta iota zeta.
    destruct (Z.ltb_spec (int64 v) 0); [exact I|]. destruct (_ <? 0); [exact I|]. destruct (Z.ltb_spec (zlen d1) (int64 v)); [exact I|].
    rewrite slice_Ok by lia. cbn [obind]. pose proof (packed_loop_safe (S (length d1)) (int64 (i1 + int64 v)) m [] i1 d1 0 ltac:(by split; [constructor|]) ltac:(lia)) as Hl.
    rewrite app_nil_r in Hl. eapply safe_mono; [exact Hl|].
    intros [[l' i] d'] (vs & -> & Hn & Hle & ->). split; [|unfold consumed; lia].
    apply MixedLog_in_app; [done|]. split; [apply Hn|destruct Hn; lia].
Qed.

Lemma RawBlockMeta_safe dAtA : zlen dAtA < 2 ^ 62 -> safe RawBlockMeta_wf (RawBlockMeta_Unmarshal dAtA).
Proof.
  apply (unmarshal_safe _ (fun _ => RawBlockMeta_wf)); unfold RawBlockMeta_wf; [in_range|field_cases|empty_range].
  all: intros v n Hv Hn; unfold is_u32, is_u64, is_i32 in *; cbn; try intuition lia.
  unfold int32. Z.div_mod_to_equations. intuition lia.
Qed.

(** lists of ids *)
Definition nums_in (k : Z) (l : list Z) : Prop := Forall is_u64 l /\ zlen l <= k.
Lemma nums_in_app k l vs n : nums_in k l -> nums_ok 64 vs n -> nums_in (k + n) (l ++ vs).
Proof. intros [H1 H2] [H3 H4]. split; [by apply Forall_app|]. rewrite zlen_app. lia. Qed.
Lemma nums_in_mono k k' l : nums_in k l -> k <= k' -> nums_in k' l.
Proof. intros [H1 H2] ?. split; [done|lia]. Qed.
Lemma nums_in_nil : nums_in 0 [].
Proof. by split; [constructor|]. Qed.
#[export] Hint Resolve nums_in_app nums_in_nil : typed.
#[export] Hint Extern 1 (nums_in _ _) => (eapply nums_in_mono; [eassumption|lia]) : typed.
Ltac in_typed := intros; unfold is_u32, is_u64 in *; cbn in *; intuition (first [lia | eauto with typed]).

Definition StreamInfo_in (k : Z) (m : StreamInfo) : Prop := is_u64 (StreamID m) /\ nums_in k (ExtentIDs m).
Lemma StreamInfo_safe dAtA : zlen dAtA < 2 ^ 62 -> safe (StreamInfo_in (zlen dAtA)) (StreamInfo_Unmarshal dAtA).
Proof. apply unmarshal_safe; unfold StreamInfo_in; [in_typed|field_cases; in_typed|in_typed]. Qed.
Definition ExtentInfo_in (k : Z) (m : ExtentInfo) : Prop := is_u64 (XI_ExtentID m) /\ nums_in k (Replicates m) /\ is_u64 (SealSize m).
Lemma ExtentInfo_safe dAtA : zlen dAtA < 2 ^ 62 -> safe (ExtentInfo_in (zlen dAtA)) (ExtentInfo_Unmarshal dAtA).
Proof. apply unmarshal_safe; unfold ExtentInfo_in; [in_typed|field_cases; in_typed|in_typed]. Qed.
Definition BlobStreams_in (k : Z) (m : BlobStreams) : Prop := nums_in k (Blob m).
Lemma BlobStreams_safe dAtA : zlen dAtA < 2 ^ 62 -> safe (BlobStreams_in (zlen dAtA)) (BlobStreams_Unmarshal dAtA).
Proof. apply unmarshal_safe; unfold BlobStreams_in; [in_typed|field_cases; in_typed|in_typed]. Qed.
Definition NodeInfo_in (k : Z) (m : NodeInfo) : Prop := is_u64 (NodeID m) /\ zlen (Address m) <= k.
Lemma NodeInfo_safe dAtA : zlen dAtA < 2 ^ 62 -> safe (NodeInfo_in (zlen dAtA)) (NodeInfo_Unmarshal dAtA).
Proof. apply unmarshal_safe; unfold NodeInfo_in; [in_range|field_cases; in_range|empty_range]. Qed.
Definition MemberValue_in (k : Z) (m : MemberValue) : Prop := is_u64 (MV_ID m) /\ zlen (MV_Name m) <= k /\ zlen (GrpcURL m) <= k.
Lemma MemberValue_safe dAtA : zlen dAtA < 2 ^ 62 -> safe (MemberValue_in (zlen dAtA)) (MemberValue_Unmarshal dAtA).
Proof. apply unmarshal_safe; unfold MemberValue_in; [in_range|field_cases; in_range|empty_range]. Qed.
Definition Range_in (k : Z) (m : Range) : Prop := zlen (StartKey m) <= k /\ zlen (EndKey m) <= k.
Lemma Range_safe dAtA : zlen dAtA < 2 ^ 62 -> safe (Range_in (zlen dAtA)) (Range_Unmarshal dAtA).
Proof. apply unmarshal_safe; unfold Range_in; [in_range|field_cases; in_range|empty_range]. Qed.
Definition PSDetail_in (k : Z) (m : PSDetail) : Prop := is_u64 (PSID m) /\ zlen (PS_Address m) <= k.
Lemma PSDetail_safe dAtA : zlen dAtA < 2 ^ 62 -> safe (PSDetail_in (zlen dAtA)) (PSDetail_Unmarshal dAtA).
Proof. apply unmarshal_safe; unfold PSDetail_in; [in_range|field_cases; in_range|empty_range]. Qed.
Lemma Location_safe dAtA : zlen dAtA < 2 ^ 62 -> safe Location_wf (Location_Unmarshal dAtA).
Proof. apply (unmarshal_safe _ (fun _ => Location_wf)); unfold Location_wf; [in_range|field_cases; in_range|empty_range]. Qed.
Definition BlockOffset_in (k : Z) (m : BlockOffset) : Prop := zlen (BO_Key m) <= k /\ is_u64 (BO_ExtentID m) /\ is_u32 (BO_Offset m).
Lemma BlockOffset_safe dAtA : zlen dAtA < 2 ^ 62 -> safe (BlockOffset_in (zlen dAtA)) (BlockOffset_Unmarshal dAtA).
Proof. apply unmarshal_safe; unfold BlockOffset_in; [in_range|field_cases; in_range|empty_range]. Qed.
Definition TableLocations_in (k : Z) (m : TableLocations) : Prop := Forall Location_wf (Locs m) /\ zlen (Locs m) <= k.
Lemma TableLocations_safe dAtA : zlen dAtA < 2 ^ 62 -> safe (TableLocations_in (zlen dAtA)) (TableLocations_Unmarshal dAtA).
Proof.
  apply unmarshal_safe; unfold TableLocations_in; [in_range|field_cases|by split; [constructor|]].
  apply (sub_field_reads _ _ _ _ Hi Hb _ (fun _ => Location_wf)); [apply Location_safe|].
  intros e z n He Hz Hn. destruct Hm as [H1 H2]. cbn. split; [apply Forall_app; split; [done|by constructor]|].
  rewrite zlen_app, zlen_cons, zlen_nil. lia.
Qed.

(** what the offsets of an index take when they are encoded again, at most *)
Definition offsets_room (l : list BlockOffset) : Z := foldr (fun bo n => zlen (BO_Key bo) + 60 + n) 0 l.
Lemma offsets_room_app l l' : offsets_room (l ++ l') = offsets_room l + offsets_room l'.
Proof. induction l as [|bo l IH]; cbn; [done|]. unfold offsets_room in *. lia. Qed.
Lemma sov_small x : 0 <= x < 2 ^ 64 -> sov x <= 10.
Proof. intros Hx. rewrite sov_spec by done. pose proof (varint_bytes_pos x Hx). lia. Qed.
Lemma zlen_fld_offsets l : Forall BlockOffset_wf l -> zlen (fld_subs BlockOffset_bytes 10 l) <= offsets_room l.
Proof.
  induction 1 as [|bo l Hbo Hl IH]; [done|]. rewrite fld_subs_cons, zlen_app.
  rewrite (zlen_fld_sub BlockOffset_bytes BlockOffset_wf BlockOffset_Size 10 BlockOffset_u64 BlockOffset_Size_bytes) by done.
  rewrite BlockOffset_Size_bytes by done. pose proof (BlockOffset_bytes_bound bo Hbo). pose proof (sov_small _ (BlockOffset_u64 bo Hbo)).
  change (offsets_room (bo :: l)) with (zlen (BO_Key bo) + 60 + offsets_room l). lia.
Qed.
#[global] Arguments offsets_room : simpl never.
Definition TableIndex_in (k : Z) (m : TableIndex) : Prop :=
  Forall (BlockOffset_in k) (TI_Offsets m) /\ zlen (BloomFilter m) <= k /\ is_u64 (TI_EstimatedSize m) /\ is_u32 (NumOfBlocks m) /\
  offsets_room (TI_Offsets m) <= 61 * k.
Lemma BlockOffsets_mono k k' l : Forall (BlockOffset_in k) l -> k <= k' -> Forall (BlockOffset_in k') l.
Proof. intros Hl Hk. eapply Forall_impl; [exact Hl|]. unfold BlockOffset_in. intros bo. cbn. intuition lia. Qed.
Lemma TableIndex_safe dAtA : zlen dAtA < 2 ^ 62 -> safe (TableIndex_in (zlen dAtA)) (TableIndex_Unmarshal dAtA).
Proof.
  apply unmarshal_safe; unfold TableIndex_in; [|field_cases|].
  1: intros k k' m (H1 & Hm) Hle; (split; [by eapply BlockOffsets_mono|]); in_range.
  1-3: intros v n Hv Hn; destruct Hm as (H1 & Hm); (split; [eapply BlockOffsets_mono; [exact H1|lia]|]); in_range.
  - apply (sub_field_reads _ _ _ _ Hi Hb _ BlockOffset_in); [apply BlockOffset_safe|].
    intros e z n He Hz Hn. destruct Hm as (H1 & Hm). cbn. split.
    + apply Forall_app; split; [eapply BlockOffsets_mono; [exact H1|lia]|]. apply (BlockOffsets_mono z); [by constructor|lia].
    + rewrite offsets_room_app. change (offsets_room [e]) with (zlen (BO_Key e) + 60 + 0). destruct He as (He & _). cbn in *. intuition lia.
  - split; [constructor|]. by vm_compute.
Qed.

(** ** What is accepted can be written again *)

Definition Entry_Marshal (m : Entry) : outcome bytes :=
  let! (d, n) := Entry_MarshalToSizedBuffer m (zrep (Entry_Size m) Byte.x00) in slice d 0 n.
Definition TableIndex_Marshal (m : TableIndex) : outcome bytes :=
  let! (d, n) := TableIndex_MarshalToSizedBuffer m (zrep (TableIndex_Size m) Byte.x00) in slice d 0 n.

(** What a generated message promises: every input is refused with an error or
    gives a message whose fields have their types and whose byte strings and
    lists are no longer than the input ([within]), and a message as from an
    input below a terabyte survives [Marshal]. *)
Class Codec {M} (marshal : M -> outcome bytes) (unmarshal : bytes -> outcome M) (within : Z -> M -> Prop) := {
  codec_typed : forall d, zlen d < 2 ^ 62 -> safe (within (zlen d)) (unmarshal d);
  codec_back : forall k m, k < 2 ^ 40 -> within k m -> exists b, marshal m = Ok b /\ unmarshal b = Ok m }.
Definition decoder_ok {M} (marshal : M -> outcome bytes) (unmarshal : bytes -> outcome M) (within : Z -> M -> Prop) (d : bytes) : Prop :=
  safe (fun m => within (zlen d) m /\ exists b, marshal m = Ok b /\ unmarshal b = Ok m) (unmarshal d).
Lemma codec_ok `{Codec M mar unm within} d : zlen d < 2 ^ 40 -> decoder_ok mar unm within d.
Proof. intros Hd. eapply safe_mono; [apply codec_typed; lia|]. intros m Hm. split; [done|]. by eapply codec_back. Qed.

#[export] Instance Entry_codec : Codec Entry_Marshal Entry_Unmarshal Entry_in.
Proof.
  split; [apply Entry_safe|]. intros k m Hk Hin. assert (Entry_wf m) as Hm by (unfold Entry_in, Entry_wf in *; intuition lia).
  exists (Entry_bytes m). split; [|by apply Entry_Unmarshal_bytes]. pose proof (Entry_Size_bytes m Hm) as Hsz.
  pose proof (zlen_nonneg (Entry_bytes m)). unfold Entry_Marshal.
  rewrite Entry_MarshalToSizedBuffer_ok by (done || (rewrite zlen_zrep; lia)). cbn [obind].
  rewrite slice_Ok by lia. by rewrite zdrop_0, ztake_ge by lia.
Qed.
(** a message that is written as [bs m] and read from there *)
Lemma codec_by {M} (mar : M -> outcome bytes) unm (within : Z -> M -> Prop) (wf : M -> Prop) (bs : M -> bytes) :
  (forall m, wf m -> mar m = Ok (bs m)) -> (forall m, wf m -> unm (bs m) = Ok m) ->
  (forall k m, k < 2 ^ 40 -> within k m -> wf m) -> forall k m, k < 2 ^ 40 -> within k m -> exists b, mar m = Ok b /\ unm b = Ok m.
Proof. intros Hmar Hunm Hwf k m Hk Hm. exists (bs m). pose proof (Hwf k m Hk Hm). auto. Qed.
Ltac codec L M U := split; [apply L|apply (codec_by _ _ _ _ _ M U)].

#[export] Instance MixedLog_codec : Codec MixedLog_Marshal MixedLog_Unmarshal MixedLog_in.
Proof. codec MixedLog_safe MixedLog_Marshal_bytes MixedLog_Unmarshal_bytes. intros k m Hk [H1 H2]. split; [done|lia]. Qed.
#[export] Instance RawBlockMeta_codec : Codec RawBlockMeta_Marshal RawBlockMeta_Unmarshal (fun _ => RawBlockMeta_wf).
Proof. codec RawBlockMeta_safe RawBlockMeta_Marshal_bytes RawBlockMeta_Unmarshal_bytes. done. Qed.
#[export] Instance StreamInfo_codec : Codec StreamInfo_Marshal StreamInfo_Unmarshal StreamInfo_in.
Proof. codec StreamInfo_safe StreamInfo_Marshal_bytes StreamInfo_Unmarshal_bytes. intros k m Hk (H1 & H2 & H3). split; [done|]. split; [done|lia]. Qed.
#[export] Instance ExtentInfo_codec : Codec ExtentInfo_Marshal ExtentInfo_Unmarshal ExtentInfo_in.
Proof.
  codec ExtentInfo_safe ExtentInfo_Marshal_bytes ExtentInfo_Unmarshal_bytes. intros k m Hk (H1 & [H2 H3] & H4).
  split; [done|]. split; [split; [done|lia]|done].
Qed.
#[export] Instance NodeInfo_codec : Codec NodeInfo_Marshal NodeInfo_Unmarshal NodeInfo_in.
Proof. codec NodeInfo_safe NodeInfo_Marshal_bytes NodeInfo_Unmarshal_bytes. unfold NodeInfo_in, NodeInfo_wf. intros k m. intuition lia. Qed.
#[export] Instance MemberValue_codec : Codec MemberValue_Marshal MemberValue_Unmarshal MemberValue_in.
Proof. codec MemberValue_safe MemberValue_Marshal_bytes MemberValue_Unmarshal_bytes. unfold MemberValue_in, MemberValue_wf. intros k m. intuition lia. Qed.
#[export] Instance Range_codec : Codec Range_Marshal Range_Unmarshal Range_in.
Proof. codec Range_safe Range_Marshal_bytes Range_Unmarshal_bytes. unfold Range_in, Range_wf. intros k m. intuition lia. Qed.
#[export] Instance PSDetail_codec : Codec PSDetail_Marshal PSDetail_Unmarshal PSDetail_in.
Proof. codec PSDetail_safe PSDetail_Marshal_bytes PSDetail_Unmarshal_bytes. unfold PSDetail_in, PSDetail_wf. intros k m. intuition lia. Qed.
#[export] Instance TableLocations_codec : Codec TableLocations_Marshal TableLocations_Unmarshal TableLocations_in.
Proof. codec TableLocations_safe TableLocations_Marshal_bytes TableLocations_Unmarshal_bytes. intros k m Hk [H1 H2]. split; [done|lia]. Qed.
#[export] Instance BlobStreams_codec : Codec BlobStreams_Marshal BlobStreams_Unmarshal BlobStreams_in.
Proof. codec BlobStreams_safe BlobStreams_Marshal_bytes BlobStreams_Unmarshal_bytes. intros k m Hk [H1 H2]. split; [done|lia]. Qed.

Lemma TableIndex_in_small k m : k < 2 ^ 40 -> TableIndex_in k m -> TableIndex_wf m /\ TableIndex_Size m < 2 ^ 48.
Proof.
  intros Hk (Ho & Hb & Hs & Hn & Hr). assert (TableIndex_wf m) as Hwf.
  { split; [|split; [lia|done]]. eapply Forall_impl; [exact Ho|]. unfold BlockOffset_in, BlockOffset_wf. intros bo. cbn. intuition lia. }
  split; [done|]. rewrite TableIndex_Size_bytes by done. unfold TableIndex_bytes. rewrite !zlen_app. destruct Hwf as (H1 & H2 & H3 & H4).
  pose proof (zlen_fld_offsets _ H1). pose proof (fld_bytes_bound 18 _ H2). pose proof (fld_varint_bound 24 _ H3).
  pose proof (fld_varint_bound 32 _ (is_u32_u64 _ H4)). lia.
Qed.
#[export] Instance TableIndex_codec : Codec TableIndex_Marshal TableIndex_Unmarshal TableIndex_in.
Proof.
  split; [apply TableIndex_safe|]. intros k m Hk Hin. destruct (TableIndex_in_small k m Hk Hin) as [Hwf Hs].
  exists (TableIndex_bytes m). split; [|by apply TableIndex_Unmarshal_bytes].
  pose proof (TableIndex_Size_bytes m Hwf) as Hz. pose proof (zlen_nonneg (TableIndex_bytes m)).
  pose proof (TableIndex_MarshalTo_bytes m (zrep (TableIndex_Size m) Byte.x00) Hwf) as E.
  rewrite zlen_zrep in E by lia. specialize (E ltac:(lia)). unfold TableIndex_MarshalTo in E.
  rewrite slice_Ok in E by (rewrite ?zlen_zrep; lia). cbn [obind] in E. rewrite Z.sub_0_r, (zdrop_0 0) in E by lia.
  rewrite ztake_ge in E by (rewrite zlen_zrep; lia).
  assert (zdrop (TableIndex_Size m) (zrep (TableIndex_Size m) Byte.x00) = []) as En.
  { apply zlen_0_nil. rewrite zlen_zdrop; rewrite zlen_zrep; lia. }
  rewrite En in E. unfold TableIndex_Marshal. destruct (TableIndex_MarshalToSizedBuffer m _) as [[d n]|?|]; cbn [obind] in *; [|done..].
  injection E as E ->. rewrite app_nil_r in E. subst d. rewrite app_nil_r. rewrite slice_Ok by lia. by rewrite zdrop_0, ztake_ge by lia.
Qed.

(** C9: On every input shorter than 2^40 bytes, valid or not, the generated decoders of the twelve
    stored messages return an error or a message: no slice that they take is out of range, and they
    never panic. The message has the types of its fields: numbers within their width, enums within
    int32, byte strings and lists no longer than the input; such a message can be encoded, and
    decodes to itself. *)
Theorem decoders_typed d : zlen d < 2 ^ 40 ->
  decoder_ok Entry_Marshal Entry_Unmarshal Entry_in d /\ decoder_ok MixedLog_Marshal MixedLog_Unmarshal MixedLog_in d /\
  decoder_ok RawBlockMeta_Marshal RawBlockMeta_Unmarshal (fun _ => RawBlockMeta_wf) d /\ decoder_ok TableIndex_Marshal TableIndex_Unmarshal TableIndex_in d /\
  decoder_ok StreamInfo_Marshal StreamInfo_Unmarshal StreamInfo_in d /\ decoder_ok ExtentInfo_Marshal ExtentInfo_Unmarshal ExtentInfo_in d /\
  decoder_ok NodeInfo_Marshal NodeInfo_Unmarshal NodeInfo_in d /\ decoder_ok MemberValue_Marshal MemberValue_Unmarshal MemberValue_in d /\
  decoder_ok Range_Marshal Range_Unmarshal Range_in d /\ decoder_ok PSDetail_Marshal PSDetail_Unmarshal PSDetail_in d /\
  decoder_ok TableLocations_Marshal TableLocations_Unmarshal TableLocations_in d /\ decoder_ok BlobStreams_Marshal BlobStreams_Unmarshal BlobStreams_in d.
Proof. intros Hd. repeat split; by apply codec_ok. Qed.
