(* ===== verification/Keys.v ===== *)
(** Package rangepartition/y: versioned keys (user key followed by the
    inverted timestamp), their order, and the [ValueStruct] encoding. *)
From Stdlib Require Import ZArith Lia.
From stdpp Require Import base option list numbers strings.
From S2P Require Import Prelude GoLib Utils Proto ProtoPs.

(** ** y.go *)

Definition KeyWithTs (key : bytes) (ts : Z) : bytes :=
  let out := zrep (zlen key + 8) Byte.x00 in
  let out := copy_at out 0 key in
  copy_at out (zlen key) (PutUint64 (u64 (MaxUint64 - ts))).

Definition CompareKeys (key1 key2 : bytes) : outcome comparison :=
  let! k1 := slice key1 0 (zlen key1 - 8) in
  let! k2 := slice key2 0 (zlen key2 - 8) in
  match bytes_compare k1 k2 with
  | Eq =>
      let! t1 := slice_from key1 (zlen key1 - 8) in
      let! t2 := slice_from key2 (zlen key2 - 8) in
      Ok (bytes_compare t1 t2)
  | c => Ok c
  end.

(** [ParseKey]; a nil key is returned as it is *)
Definition ParseKey (key : option bytes) : outcome (option bytes) :=
  match key with
  | None => Ok None
  | Some k => let! p := slice k 0 (zlen k - 8) in Ok (Some p)
  end.

Definition SameKey (src dst : bytes) : outcome bool :=
  if negb (zlen src =? zlen dst) then Ok false
  else
    let! a := slice src 0 (zlen src - 8) in
    let! b := slice dst 0 (zlen dst - 8) in
    Ok (match bytes_compare a b with Eq => true | _ => false end).

Definition ParseTs (key : bytes) : outcome Z :=
  if zlen key <=? 8 then Ok 0
  else let! t := slice_from key (zlen key - 8) in Ok (u64 (MaxUint64 - be_get t)).

Definition BitDelete : Z := 1.
Definition BitValuePointer : Z := 2.
Definition ValueThrottle : Z := Z.shiftl 1 10.

Definition ShouldWriteValueToLSM (e : Entry) : bool :=
  (Z.land (Meta e) BitValuePointer =? 0) && (zlen (Value e) <=? ValueThrottle).

(** [U32ToBytes]/[BytesToU32] are big-endian; the slice conversions keep the
    machine's (little-endian) layout *)
Definition U32ToBytes (v : Z) : bytes := PutUint32 v.
Definition BytesToU32 (b : bytes) : outcome Z :=
  let! w := slice b 0 4 in Ok (be_get w).
Definition U32SliceToBytes (u32s : list Z) : bytes := mjoin (le_put 4 <$> u32s).
Fixpoint words (fuel : nat) (b : bytes) : list Z :=
  match fuel with
  | O => []
  | S f => le_get (ztake 4 b) :: words f (zdrop 4 b)
  end.
Definition BytesToU32Slice (b : bytes) : list Z := words (Z.to_nat (zlen b / 4)) b.

(** [ExtractLogEntry]: the entries of a log block *)
Fixpoint extract_loop (data : bytes) (offsets : list Z) : outcome (list Entry) :=
  match offsets with
  | o :: ((o' :: _) as rest) =>
      let length := u32 (o' - o) in
      let! b := slice data o (u32 (o + length)) in
      match Entry_Unmarshal b with
      | Ok e => let! es := extract_loop data rest in Ok (e :: es)
      | _ => Panic (* utils.Check(err) exits *)
      end
  | _ => Ok []
  end.
Definition ExtractLogEntry (block : Block) : outcome (list Entry) :=
  match MixedLog_Unmarshal (UserData block) with
  | Ok [] => Panic (* make([]*pb.Entry, -1) *)
  | Ok offsets => extract_loop (Data block) offsets
  | _ => Panic
  end.

(** ** iterator.go: ValueStruct *)

Record ValueStruct := mkVS {
  VMeta : Z; VUserMeta : Z; VExpiresAt : Z; VValue : bytes; Version : Z }.
#[export] Instance ValueStruct_eq_dec : EqDecision ValueStruct.
Proof. solve_decision. Defined.

Definition EncodedSize (v : ValueStruct) : Z :=
  let sz := zlen (VValue v) + 2 in
  let enc := SizeVarint (VExpiresAt v) in
  u32 (sz + enc).

(** [Decode]; the receiver's [Version] is left alone (zero in a fresh value) *)
Definition VS_Decode (b : bytes) : outcome ValueStruct :=
  let! meta := index b 0 in
  let! umeta := index b 1 in
  let! tail := slice_from b 2 in
  let '(exp, sz) := Uvarint tail in
  let! value := slice_from b (2 + sz) in
  Ok (mkVS (byte_Z meta) (byte_Z umeta) exp value 0).

(** [Encode] into [b]: the updated [b] and the number of bytes *)
Definition VS_Encode (v : ValueStruct) (b : bytes) : outcome (bytes * Z) :=
  if zlen b <? 2 then Panic else
  let b := copy_at b 0 [byte_of (VMeta v); byte_of (VUserMeta v)] in
  let enc := PutUvarint (VExpiresAt v) in
  let sz := zlen enc in
  if zlen b <? 2 + sz then Panic else
  let b := copy_at b 2 enc in
  let n := Z.min (zlen (VValue v)) (zlen b - (2 + sz)) in
  Ok (copy_at b (2 + sz) (VValue v), u32 (2 + sz + n)).

(** [EncodeTo]/[Write] append the same layout to a buffer *)
Definition VS_EncodeTo (v : ValueStruct) (buf : bytes) : bytes :=
  buf ++ [byte_of (VMeta v)] ++ [byte_of (VUserMeta v)] ++ PutUvarint (VExpiresAt v) ++ VValue v.

(** ** Lemmas: keys *)

Lemma zrep_plus {A} n m (x : A) : 0 <= n -> 0 <= m -> zrep (n + m) x = zrep n x ++ zrep m x.
Proof. intros. unfold zrep. rewrite Z2Nat.inj_add by done. apply replicate_add. Qed.

Lemma KeyWithTs_app key ts : KeyWithTs key ts = key ++ PutUint64 (u64 (MaxUint64 - ts)).
Proof.
  unfold KeyWithTs. pose proof (zlen_nonneg key). rewrite zrep_plus by lia.
  rewrite copy_at_0_fits by (apply zlen_zrep; done).
  rewrite <- (app_nil_r (zrep 8 _)).
  rewrite copy_at_fits by done. by rewrite app_nil_r.
Qed.

Lemma zlen_KeyWithTs key ts : zlen (KeyWithTs key ts) = zlen key + 8.
Proof. rewrite KeyWithTs_app, zlen_app. done. Qed.

Lemma split_versioned (key t : bytes) : zlen t = 8 ->
  slice (key ++ t) 0 (zlen (key ++ t) - 8) = Ok key /\
  slice_from (key ++ t) (zlen (key ++ t) - 8) = Ok t.
Proof.
  intros Ht. pose proof (zlen_nonneg key). rewrite zlen_app, Ht. split.
  - rewrite slice_Ok by (rewrite ?zlen_app; lia).
    rewrite zdrop_0, ztake_app_exact by lia. done.
  - rewrite slice_from_Ok by (rewrite ?zlen_app; lia). rewrite zdrop_app_exact by lia. done.
Qed.

Lemma CompareKeys_split (k1 t1 k2 t2 : bytes) : zlen t1 = 8 -> zlen t2 = 8 ->
  CompareKeys (k1 ++ t1) (k2 ++ t2) =
  Ok match bytes_compare k1 k2 with Eq => be_get t1 ?= be_get t2 | c => c end.
Proof.
  intros H1 H2. unfold CompareKeys.
  destruct (split_versioned k1 t1 H1) as [-> ->], (split_versioned k2 t2 H2) as [-> ->].
  cbn [obind]. rewrite (bytes_compare_be t1 t2) by lia. by destruct (bytes_compare k1 k2).
Qed.

(** every key of at least eight bytes is a user key and a suffix *)
Lemma versioned_split (k : bytes) : 8 <= zlen k ->
  exists u t : bytes, k = u ++ t /\ zlen t = 8.
Proof.
  intros. exists (ztake (zlen k - 8) k), (zdrop (zlen k - 8) k).
  rewrite ztake_zdrop, zlen_zdrop by lia. split; [done|lia].
Qed.

(** the order [CompareKeys] decides, as a total function *)
Definition ukey (k : bytes) : bytes := ztake (zlen k - 8) k.
Definition suffix (k : bytes) : bytes := zdrop (zlen k - 8) k.
Definition kcmp (a b : bytes) : comparison :=
  match bytes_compare (ukey a) (ukey b) with
  | Eq => bytes_compare (suffix a) (suffix b)
  | c => c
  end.

Lemma slice_ukey (k : bytes) : 8 <= zlen k -> slice k 0 (zlen k - 8) = Ok (ukey k).
Proof. intros. rewrite slice_Ok by lia. rewrite Z.sub_0_r, zdrop_0 by lia. done. Qed.
Lemma slice_suffix (k : bytes) : 8 <= zlen k -> slice_from k (zlen k - 8) = Ok (suffix k).
Proof. intros. by rewrite slice_from_Ok by lia. Qed.
Lemma slice_ukey_panic (k : bytes) : zlen k < 8 -> slice k 0 (zlen k - 8) = Panic.
Proof. intros. unfold slice. destruct (Z.leb_spec 0 (zlen k - 8)); [lia|done]. Qed.

Lemma CompareKeys_kcmp a b : 8 <= zlen a -> 8 <= zlen b -> CompareKeys a b = Ok (kcmp a b).
Proof.
  intros. unfold CompareKeys, kcmp. rewrite !slice_ukey, !slice_suffix by done. cbn [obind].
  by destruct (bytes_compare (ukey a) (ukey b)).
Qed.

Lemma ukey_suffix k : k = ukey k ++ suffix k.
Proof. unfold ukey, suffix. by rewrite ztake_zdrop. Qed.

Lemma kcmp_eq a b : kcmp a b = Eq <-> a = b.
Proof.
  unfold kcmp. split.
  - destruct (bytes_compare (ukey a) (ukey b)) eqn:E; try done.
    apply bytes_compare_eq in E. intros E'. apply bytes_compare_eq in E'.
    rewrite (ukey_suffix a), (ukey_suffix b). congruence.
  - intros ->. by rewrite !bytes_compare_refl.
Qed.
Lemma kcmp_refl a : kcmp a a = Eq.
Proof. by apply kcmp_eq. Qed.
Lemma kcmp_antisym a b : kcmp b a = CompOpp (kcmp a b).
Proof.
  unfold kcmp. rewrite (bytes_compare_antisym (ukey a)), (bytes_compare_antisym (suffix a)).
  by destruct (bytes_compare (ukey a) (ukey b)).
Qed.
Lemma kcmp_lt_trans a b c : kcmp a b = Lt -> kcmp b c = Lt -> kcmp a c = Lt.
Proof.
  unfold kcmp.
  destruct (bytes_compare (ukey a) (ukey b)) eqn:E1; [|intros _|done];
  (destruct (bytes_compare (ukey b) (ukey c)) eqn:E2; [|intros|done]).
  - apply bytes_compare_eq in E1, E2. rewrite E1, E2, bytes_compare_refl.
    apply bytes_compare_lt_trans.
  - apply bytes_compare_eq in E1. by rewrite E1, E2.
  - apply bytes_compare_eq in E2. by rewrite <- E2, E1.
  - by rewrite (bytes_compare_lt_trans _ _ _ E1 E2).
Qed.
Lemma kcmp_gt_lt a b : kcmp a b = Gt <-> kcmp b a = Lt.
Proof. rewrite (kcmp_antisym a b). by destruct (kcmp a b). Qed.

#[export] Instance kcmp_lt_irrefl : Irreflexive (fun a b => kcmp a b = Lt).
Proof. intros a H. by rewrite kcmp_refl in H. Qed.
#[export] Instance kcmp_lt_transitive : Transitive (fun a b => kcmp a b = Lt).
Proof. intros a b c. apply kcmp_lt_trans. Qed.

(** ** Properties *)

Lemma compare_versions k1 t1 k2 t2 :
  0 <= t1 <= MaxUint64 -> 0 <= t2 <= MaxUint64 ->
  CompareKeys (KeyWithTs k1 t1) (KeyWithTs k2 t2) =
  Ok match bytes_compare k1 k2 with Eq => t2 ?= t1 | c => c end.
Proof.
  unfold MaxUint64. intros H1 H2. rewrite !KeyWithTs_app, CompareKeys_split by done.
  rewrite !Uint64_Put. unfold MaxUint64. rewrite !(u64_small (u64 _)) by apply u64_range.
  rewrite !u64_small by lia.
  destruct (bytes_compare k1 k2); try done. f_equal.
  destruct (Z.compare_spec t2 t1); [apply Z.compare_eq_iff|apply Z.compare_lt_iff|apply Z.compare_gt_iff]; lia.
Qed.

(** Keys with timestamps compare by user key first and, for one user key, newer versions come
    before older ones. *)
Theorem CompareKeys_versions k1 t1 k2 t2 :
  0 <= t1 <= MaxUint64 -> 0 <= t2 <= MaxUint64 ->
  CompareKeys (KeyWithTs k1 t1) (KeyWithTs k2 t2) =
  Ok match bytes_compare k1 k2 with Eq => t2 ?= t1 | c => c end.
Proof. apply compare_versions. Qed.

(** CompareKeys is a total order on keys with timestamps: it is equality exactly on equal keys,
    antisymmetric, transitive and total. *)
Theorem CompareKeys_total_order a b c :
  8 <= zlen a -> 8 <= zlen b -> 8 <= zlen c ->
  (CompareKeys a b = Ok Eq <-> a = b) /\
  (CompareKeys a b = Ok Lt <-> CompareKeys b a = Ok Gt) /\
  (CompareKeys a b = Ok Lt -> CompareKeys b c = Ok Lt -> CompareKeys a c = Ok Lt) /\
  (CompareKeys a b = Ok Lt \/ CompareKeys a b = Ok Eq \/ CompareKeys a b = Ok Gt).
Proof.
  intros Ha Hb Hc. rewrite !CompareKeys_kcmp by done. repeat split.
  - intros [=E]. by apply kcmp_eq.
  - intros ->. by rewrite kcmp_refl.
  - intros [=E]. f_equal. by apply kcmp_gt_lt.
  - intros [=E]. f_equal. by apply kcmp_gt_lt.
  - intros [=E1] [=E2]. f_equal. by eapply kcmp_lt_trans.
  - destruct (kcmp a b); auto.
Qed.

Lemma parse_KeyWithTs key ts :
  0 <= ts <= MaxUint64 ->
  ParseKey (Some (KeyWithTs key ts)) = Ok (Some key) /\
  ParseTs (KeyWithTs key ts) = Ok (if decide (key = []) then 0 else ts) /\
  (forall key' ts', SameKey (KeyWithTs key ts) (KeyWithTs key' ts') = Ok (bool_decide (key = key'))).
Proof.
  unfold MaxUint64. intros Hts. rewrite KeyWithTs_app.
  destruct (split_versioned key (PutUint64 (u64 (MaxUint64 - ts))) eq_refl) as [E1 E2].
  unfold ParseKey, ParseTs. rewrite E1, E2. cbn [obind]. split; [done|]. split.
  - rewrite zlen_app. change (zlen (PutUint64 _)) with 8. pose proof (zlen_nonneg key).
    destruct (Z.leb_spec (zlen key + 8) 8).
    + rewrite decide_True by (apply zlen_0_nil; lia). done.
    + rewrite decide_False by (intros ->; rewrite zlen_nil in *; lia).
      rewrite Uint64_Put. unfold MaxUint64. rewrite (u64_small (2 ^ 64 - 1 - ts)) by lia.
      rewrite (u64_small (2 ^ 64 - 1 - ts)) by lia. f_equal. rewrite u64_small; lia.
  - intros key' ts'. rewrite KeyWithTs_app. unfold SameKey. rewrite E1.
    destruct (split_versioned key' (PutUint64 (u64 (MaxUint64 - ts'))) eq_refl) as [-> _].
    cbn [obind]. rewrite !zlen_app. change (zlen (PutUint64 _)) with 8.
    destruct (Z.eqb_spec (zlen key + 8) (zlen key' + 8)) as [El|El]; cbn [negb].
    + f_equal. destruct (bytes_compare key key') eqn:E.
      * apply bytes_compare_eq in E. by rewrite bool_decide_true.
      * rewrite bool_decide_false; [done|]. intros ->. by rewrite bytes_compare_refl in E.
      * rewrite bool_decide_false; [done|]. intros ->. by rewrite bytes_compare_refl in E.
    + rewrite bool_decide_false; [done|]. intros ->. done.
Qed.

(** ParseKey and SameKey recover the user key of a key with timestamp; ParseTs recovers the
    timestamp except for the empty user key, where it returns 0. *)
Theorem KeyWithTs_roundtrip key ts :
  0 <= ts <= MaxUint64 ->
  ParseKey (Some (KeyWithTs key ts)) = Ok (Some key) /\
  ParseTs (KeyWithTs key ts) = Ok (if decide (key = []) then 0 else ts) /\
  (forall key' ts', SameKey (KeyWithTs key ts) (KeyWithTs key' ts') = Ok (bool_decide (key = key'))).
Proof. apply parse_KeyWithTs. Qed.

(** ** ValueStruct encoding *)

Definition VS_bytes (v : ValueStruct) : bytes :=
  [byte_of (VMeta v); byte_of (VUserMeta v)] ++ PutUvarint (VExpiresAt v) ++ VValue v.
Definition VS_wf (v : ValueStruct) : Prop :=
  0 <= VMeta v < 256 /\ 0 <= VUserMeta v < 256 /\ is_u64 (VExpiresAt v) /\
  zlen (VValue v) < 2 ^ 32 - 12.

Lemma zlen_VS_bytes v : VS_wf v -> zlen (VS_bytes v) = EncodedSize v.
Proof.
  intros (_&_&He&Hv). unfold VS_bytes, EncodedSize.
  rewrite !zlen_app, SizeVarint_PutUvarint by done.
  pose proof (zlen_PutUvarint _ He). pose proof (zlen_nonneg (VValue v)).
  rewrite u32_small by lia. change (zlen [_; _]) with 2. lia.
Qed.

Lemma EncodedSize_bounds v : VS_wf v ->
  zlen (VValue v) + 3 <= EncodedSize v <= zlen (VValue v) + 12.
Proof.
  intros Hwf. rewrite <- zlen_VS_bytes by done. destruct Hwf as (_&_&He&_).
  pose proof (zlen_PutUvarint _ He). unfold VS_bytes. rewrite !zlen_app.
  change (zlen [_; _]) with 2. lia.
Qed.

Lemma VS_Decode_bytes v : VS_wf v ->
  VS_Decode (VS_bytes v) = Ok (mkVS (VMeta v) (VUserMeta v) (VExpiresAt v) (VValue v) 0).
Proof.
  intros (Hm&Hu&He&Hv). unfold VS_Decode, VS_bytes. cbn [app]. unfold index.
  change (0 <? 0) with false. change (1 <? 0) with false.
  change (Z.to_nat 0) with 0%nat. change (Z.to_nat 1) with 1%nat. cbv iota.
  cbn [lookup list_lookup obind]. pose proof (zlen_nonneg (PutUvarint (VExpiresAt v) ++ VValue v)).
  rewrite slice_from_Ok by (rewrite !zlen_cons; lia). cbn [obind].
  change (zdrop 2 (?a :: ?b :: ?l)) with l. rewrite Uvarint_Put by done.
  pose proof (zlen_PutUvarint _ He). pose proof (zlen_nonneg (VValue v)).
  rewrite slice_from_Ok by (rewrite !zlen_cons, zlen_app; lia). cbn [obind].
  rewrite !byte_Z_small by lia. do 2 f_equal.
  rewrite <- zdrop_zdrop by lia. change (zdrop 2 (?a :: ?b :: ?l)) with l.
  by rewrite zdrop_app_exact.
Qed.

Lemma VS_Encode_bytes v b : VS_wf v -> EncodedSize v <= zlen b ->
  VS_Encode v b = Ok (VS_bytes v ++ zdrop (EncodedSize v) b, EncodedSize v).
Proof.
  intros Hwf Hlen. pose proof (EncodedSize_bounds v Hwf).
  pose proof (zlen_VS_bytes v Hwf) as Hsz. unfold VS_bytes in Hsz. rewrite !zlen_app in Hsz.
  change (zlen [_; _]) with 2 in Hsz.
  destruct Hwf as (Hm&Hu&He&Hv). pose proof (zlen_PutUvarint _ He).
  pose proof (zlen_nonneg (VValue v)).
  set (enc := PutUvarint (VExpiresAt v)) in *.
  assert (exists b1 b2 b3 b4, b = b1 ++ b2 ++ b3 ++ b4 /\ zlen b1 = 2 /\ zlen b2 = zlen enc /\
    zlen b3 = zlen (VValue v)) as (b1&b2&b3&b4&->&L1&L2&L3).
  { exists (ztake 2 b), (ztake (zlen enc) (zdrop 2 b)),
      (ztake (zlen (VValue v)) (zdrop (zlen enc) (zdrop 2 b))),
      (zdrop (zlen (VValue v)) (zdrop (zlen enc) (zdrop 2 b))).
    rewrite !ztake_zdrop. split; [done|].
    rewrite !zlen_ztake; rewrite ?zlen_zdrop; rewrite ?zlen_zdrop; lia. }
  unfold VS_Encode. fold enc. rewrite !zlen_app in *. pose proof (zlen_nonneg b4).
  destruct (Z.ltb_spec (zlen b1 + (zlen b2 + (zlen b3 + zlen b4))) 2); [lia|].
  rewrite (copy_at_0_fits b1) by (rewrite L1; done).
  set (hd := [byte_of (VMeta v); byte_of (VUserMeta v)]).
  assert (zlen hd = 2) as Lh by done. rewrite !zlen_app.
  match goal with |- context [?a <? ?c] => destruct (Z.ltb_spec a c); [lia|] end.
  rewrite <- Lh. rewrite (copy_at_fits hd b2) by done. rewrite !zlen_app.
  rewrite Z.min_l by lia.
  replace (copy_at (hd ++ enc ++ b3 ++ b4) (zlen hd + zlen enc) (VValue v))
    with ((hd ++ enc) ++ VValue v ++ b4).
  2: { rewrite (app_assoc hd enc), <- zlen_app. by rewrite copy_at_fits. }
  f_equal. f_equal; [|rewrite u32_small; lia].
  unfold VS_bytes. fold enc hd. rewrite <- !app_assoc. do 3 f_equal.
  replace (EncodedSize v) with (zlen (b1 ++ b2 ++ b3)) by (rewrite !zlen_app; lia).
  rewrite (app_assoc b2 b3 b4), (app_assoc b1 (b2 ++ b3) b4). by rewrite zdrop_app_exact.
Qed.

(** A ValueStruct encodes into exactly EncodedSize() bytes, which decode to the same value
    without its version, and EncodeTo appends the same bytes. *)
Theorem ValueStruct_roundtrip v b :
  VS_wf v -> EncodedSize v <= zlen b ->
  exists b', VS_Encode v b = Ok (b', EncodedSize v) /\
    zlen b' = zlen b /\
    (let! enc := slice b' 0 (EncodedSize v) in VS_Decode enc) =
      Ok (mkVS (VMeta v) (VUserMeta v) (VExpiresAt v) (VValue v) 0) /\
    (forall buf, VS_EncodeTo v buf = buf ++ ztake (EncodedSize v) b').
Proof.
  intros Hwf Hlen. pose proof (zlen_VS_bytes v Hwf) as Hsz. pose proof (zlen_nonneg (VS_bytes v)).
  exists (VS_bytes v ++ zdrop (EncodedSize v) b). split; [by apply VS_Encode_bytes|].
  rewrite zlen_app, zlen_zdrop by lia. split; [lia|].
  rewrite slice_Ok by (rewrite ?zlen_app, ?zlen_zdrop; lia). cbn [obind].
  rewrite Z.sub_0_r, (zdrop_0 0), ztake_app_exact by lia.
  split; [by apply VS_Decode_bytes|]. done.
Qed.

(** ** uint32 slices reinterpreted as bytes *)

Lemma U32SliceToBytes_cons x l : U32SliceToBytes (x :: l) = le_put 4 x ++ U32SliceToBytes l.
Proof. done. Qed.
Lemma zlen_U32SliceToBytes l : zlen (U32SliceToBytes l) = 4 * zlen l.
Proof.
  induction l as [|x l IH]; [done|].
  rewrite U32SliceToBytes_cons, zlen_app, IH, zlen_cons, zlen_le_put. lia.
Qed.

Lemma BytesToU32Slice_inverse l : Forall is_u32 l -> BytesToU32Slice (U32SliceToBytes l) = l.
Proof.
  intros H. unfold BytesToU32Slice. rewrite zlen_U32SliceToBytes, Z.mul_comm, Z.div_mul by done.
  unfold zlen. rewrite Nat2Z.id. induction H as [|x l Hx Hl IH]; [done|].
  cbn [length words]. rewrite U32SliceToBytes_cons.
  rewrite ztake_app_exact, zdrop_app_exact, IH by apply (zlen_le_put 4).
  f_equal. rewrite le_get_put. apply Z.mod_small, Hx.
Qed.
