(* ===== verification/YIter.v ===== *)
(** Package rangepartition/y, the [Iterator] interface (iterator.go) and what
    its clients rely on: an iterator walks a sorted list of pairs, forwards or
    backwards. The skiplist, table, concat and merge iterators implement it. *)
From Stdlib Require Import ZArith Lia.
From stdpp Require Import base option list numbers sorting strings.
From S2P Require Import Prelude GoLib Utils Proto Keys.

Abbreviation kv := (bytes * ValueStruct)%type.

Class YIterator (I : Type) := {
  y_Next : I -> outcome I;
  y_Rewind : I -> outcome I;
  y_Seek : I -> bytes -> outcome I;
  y_Key : I -> outcome bytes;
  y_Value : I -> outcome ValueStruct;
  y_Valid : I -> bool }.

(** ** The list an iterator walks *)

(** the order of the walk *)
Definition kdir (reversed : bool) (a b : bytes) : comparison :=
  if reversed then kcmp b a else kcmp a b.
Definition kv_lt (reversed : bool) (a b : kv) : Prop := kdir reversed (fst a) (fst b) = Lt.
Definition walk_ok (reversed : bool) (kvs : list kv) : Prop :=
  StronglySorted (kv_lt reversed) kvs /\ Forall (fun p => 8 <= zlen (fst p)) kvs.

(** where [Seek] stops: the first pair that is not before [key] *)
Fixpoint seek_list (reversed : bool) (key : bytes) (kvs : list kv) : list kv :=
  match kvs with
  | [] => []
  | p :: rest => match kdir reversed (fst p) key with Lt => seek_list reversed key rest | _ => kvs end
  end.

(** [y_wf] iterators range over a list, [y_at] ones also have a position,
    given by the pairs not yet passed. *)
Class IteratorLaws (I : Type) `{YIterator I} := {
  y_wf : bool -> I -> list kv -> Prop;
  y_at : bool -> I -> list kv -> list kv -> Prop;
  y_at_wf : forall r it kvs rest, y_at r it kvs rest -> y_wf r it kvs;
  y_wf_walk : forall r it kvs, y_wf r it kvs -> walk_ok r kvs;
  y_at_walk : forall r it kvs rest, y_at r it kvs rest -> walk_ok r rest;
  y_Rewind_ok : forall r it kvs, y_wf r it kvs ->
    exists it', y_Rewind it = Ok it' /\ y_at r it' kvs kvs;
  y_Seek_ok : forall r it kvs key, y_wf r it kvs -> 8 <= zlen key ->
    exists it', y_Seek it key = Ok it' /\ y_at r it' kvs (seek_list r key kvs);
  y_Valid_ok : forall r it kvs rest, y_at r it kvs rest ->
    y_Valid it = match rest with [] => false | _ => true end;
  y_item_ok : forall r it kvs k v rest, y_at r it kvs ((k, v) :: rest) ->
    y_Key it = Ok k /\ y_Value it = Ok v /\
    exists it', y_Next it = Ok it' /\ y_at r it' kvs rest }.

(** ** Lemmas *)

Lemma reverse_sorted {A} (R : A -> A -> Prop) l : StronglySorted R l -> StronglySorted (flip R) (reverse l).
Proof.
  induction 1 as [|x l Hl IH Hx]; [constructor|]. rewrite reverse_cons.
  apply StronglySorted_app_2; [|done|by repeat constructor].
  intros a b Ha Hb%list_elem_of_singleton. subst b. rewrite Forall_forall in Hx. by apply Hx, elem_of_reverse.
Qed.

Lemma kdir_refl r a : kdir r a a = Eq.
Proof. destruct r; apply kcmp_refl. Qed.
Lemma kdir_eq r a b : kdir r a b = Eq <-> a = b.
Proof. destruct r; unfold kdir; rewrite kcmp_eq; naive_solver. Qed.
Lemma kdir_antisym r a b : kdir r b a = CompOpp (kdir r a b).
Proof. destruct r; apply kcmp_antisym. Qed.
Lemma kdir_gt r a b : kdir r a b = Gt <-> kdir r b a = Lt.
Proof. rewrite (kdir_antisym r a b). by destruct (kdir r a b). Qed.
Lemma kdir_trans r a b c : kdir r a b = Lt -> kdir r b c = Lt -> kdir r a c = Lt.
Proof. destruct r; unfold kdir; eauto using kcmp_lt_trans. Qed.

Lemma walk_app_r r l1 l2 : walk_ok r (l1 ++ l2) -> walk_ok r l2.
Proof. intros [Hs Hk]. split; [by apply StronglySorted_app_1_r in Hs|by apply Forall_app in Hk as []]. Qed.
Lemma walk_cons r p l : walk_ok r (p :: l) -> Forall (kv_lt r p) l /\ walk_ok r l.
Proof. intros [[Hf Hs]%StronglySorted_cons [_ Hk]%Forall_cons]. done. Qed.

Lemma seek_list_suffix r key kvs : exists passed, kvs = passed ++ seek_list r key kvs /\
  Forall (fun p => kdir r (fst p) key = Lt) passed.
Proof.
  induction kvs as [|p kvs (passed & E & Hp)]; cbn [seek_list]; [by exists []|].
  destruct (kdir r (fst p) key) eqn:Ek; [by exists []| |by exists []].
  exists (p :: passed). split; [cbn; by f_equal|by constructor].
Qed.
Lemma seek_list_ge r key kvs : walk_ok r kvs ->
  Forall (fun p => kdir r (fst p) key <> Lt) (seek_list r key kvs).
Proof.
  induction kvs as [|p kvs IH]; intros Hw; cbn [seek_list]; [done|].
  apply walk_cons in Hw as [Hf Hw]. destruct (kdir r (fst p) key) eqn:Ek; [|by apply IH|].
  - constructor; [by rewrite Ek|]. eapply Forall_impl; [exact Hf|]. intros q Hq Hlt.
    pose proof (kdir_trans _ _ _ _ Hq Hlt). congruence.
  - constructor; [by rewrite Ek|]. eapply Forall_impl; [exact Hf|]. intros q Hq Hlt.
    pose proof (kdir_trans _ _ _ _ Hq Hlt). congruence.
Qed.

Lemma seek_list_split r key l1 l2 : Forall (fun p => kdir r (fst p) key = Lt) l1 ->
  (match l2 with [] => True | p :: _ => kdir r (fst p) key <> Lt end) ->
  seek_list r key (l1 ++ l2) = l2.
Proof.
  induction 1 as [|p l1 Hp Hl1 IH]; intros H2; cbn [app seek_list].
  - destruct l2 as [|p l2]; [done|]. cbn [seek_list]. by destruct (kdir r (fst p) key).
  - rewrite Hp. by apply IH.
Qed.

(** ** Everything an iterator yields *)

Section Drain.
Context {I : Type} `{IteratorLaws I}.

Fixpoint drain (fuel : nat) (it : I) : outcome (list kv) :=
  match fuel with
  | O => Panic
  | S fuel =>
      if y_Valid it then
        let! k := y_Key it in
        let! v := y_Value it in
        let! it := y_Next it in
        let! r := drain fuel it in Ok ((k, v) :: r)
      else Ok []
  end.

Lemma drain_ok r kvs rest : forall fuel it, y_at r it kvs rest -> (length rest < fuel)%nat ->
  drain fuel it = Ok rest.
Proof.
  induction rest as [|[k v] rest IH]; intros [|fuel] it Hat Hf; cbn in Hf; try lia; cbn [drain];
    rewrite (y_Valid_ok _ _ _ _ Hat); [done|].
  destruct (y_item_ok _ _ _ _ _ _ Hat) as (-> & Hv & it' & Hn & Hat'). cbn [obind].
  rewrite Hv. cbn [obind]. rewrite Hn. cbn [obind]. rewrite (IH fuel it' Hat') by lia. done.
Qed.

Lemma scan_ok r it kvs fuel : y_wf r it kvs -> (length kvs < fuel)%nat ->
  (let! it := y_Rewind it in drain fuel it) = Ok kvs.
Proof.
  intros Hw Hf. destruct (y_Rewind_ok _ _ _ Hw) as (it' & -> & Hat). cbn [obind].
  by apply (drain_ok r kvs).
Qed.
End Drain.

(** ** Two kinds of iterators behind the interface *)

Section Sum.
Context {I J : Type} `{HI : IteratorLaws I} `{HJ : IteratorLaws J}.

Definition on_sum (it : I + J) (f : I -> outcome I) (g : J -> outcome J) : outcome (I + J) :=
  match it with
  | inl i => let! i := f i in Ok (inl i)
  | inr j => let! j := g j in Ok (inr j)
  end.
#[export] Instance sum_YIterator : YIterator (I + J) := {
  y_Next := fun it => on_sum it y_Next y_Next;
  y_Rewind := fun it => on_sum it y_Rewind y_Rewind;
  y_Seek := fun it key => on_sum it (fun i => y_Seek i key) (fun j => y_Seek j key);
  y_Key := fun it => match it with inl i => y_Key i | inr j => y_Key j end;
  y_Value := fun it => match it with inl i => y_Value i | inr j => y_Value j end;
  y_Valid := fun it => match it with inl i => y_Valid i | inr j => y_Valid j end }.

#[export] Program Instance sum_IteratorLaws : IteratorLaws (I + J) := {
  y_wf := fun r it kvs => match it with inl i => y_wf r i kvs | inr j => y_wf r j kvs end;
  y_at := fun r it kvs rest => match it with inl i => y_at r i kvs rest | inr j => y_at r j kvs rest end }.
Next Obligation. intros r [i|j] kvs rest Hat; [exact (y_at_wf r i kvs rest Hat)|exact (y_at_wf r j kvs rest Hat)]. Qed.
Next Obligation. intros r [i|j] kvs Hw; [exact (y_wf_walk r i kvs Hw)|exact (y_wf_walk r j kvs Hw)]. Qed.
Next Obligation. intros r [i|j] kvs rest Hat; [exact (y_at_walk r i kvs rest Hat)|exact (y_at_walk r j kvs rest Hat)]. Qed.
Next Obligation.
  intros r [i|j] kvs Hw; destruct (y_Rewind_ok _ _ _ Hw) as (it' & E & Hat); cbn; rewrite E; cbn [obind]; eauto.
Qed.
Next Obligation.
  intros r [i|j] kvs key Hw Hk; destruct (y_Seek_ok _ _ _ _ Hw Hk) as (it' & E & Hat); cbn; rewrite E; cbn [obind]; eauto.
Qed.
Next Obligation. intros r [i|j] kvs rest Hat; [exact (y_Valid_ok r i kvs rest Hat)|exact (y_Valid_ok r j kvs rest Hat)]. Qed.
Next Obligation.
  intros r [i|j] kvs k v rest Hat; destruct (y_item_ok _ _ _ _ _ _ Hat) as (Hk & Hv & it' & E & Hat'); cbn;
    rewrite E; cbn [obind]; eauto 6.
Qed.
End Sum.
