(* ===== verification/Extent.v ===== *)
(** Package extent (extent.go): the append-only extent file. An extent is a
    512-byte header followed by blocks, each a 512-byte metadata sector and
    [BlockLength] bytes of data; [commitLength] is the length of the
    committed prefix. *)
From Stdlib Require Import ZArith Lia.
From stdpp Require Import base option list numbers strings.
From S2P Require Import Prelude GoLib Utils Proto ProtoPs Keys.

Definition align (n : Z) : bool := negb (n =? 0) && (n mod 512 =? 0).

(** ** Files

    [content] and the extended attribute "seal" of the file; writes go to the
    end, since every writable extent is opened with O_APPEND. *)
Record File := mkFile { content : bytes; seal_attr : option bytes }.

(** one [Write]: [None] writes everything; [Some k] is a failing write that
    leaves the first [k] bytes behind *)
Abbreviation fault := (option Z).
Definition write (flt : fault) (f : File) (bs : bytes) : File * Z * option error :=
  match flt with
  | None => (mkFile (content f ++ bs) (seal_attr f), zlen bs, None)
  | Some k => let w := ztake k bs in
              (mkFile (content f ++ w) (seal_attr f), zlen w, Some (Errorf "write"))
  end.
(** [f.Truncate(n)] to a length inside the file, or growing it with zeros *)
Definition Truncate (f : File) (n : Z) : File :=
  mkFile (ztake n (content f) ++ zrep (n - zlen (content f)) Byte.x00) (seal_attr f).

Record Extent := mkExtent {
  mutex : SafeMutex; isSeal : Z; commitLength : Z; ID : Z;
  fileName : string; file : File; writable : bool }.

(** ** The header sector *)

Definition extentMagicNumber : bytes :=
  Byte.x45 :: Byte.x58 :: Byte.x54 :: Byte.x45 :: Byte.x4e :: Byte.x54 :: Byte.x58 :: [Byte.x58].

Definition header_sector (id : Z) : bytes :=
  let buf := zrep 512 Byte.x00 in
  let buf := copy_at buf 0 extentMagicNumber in
  copy_at buf 8 (PutUint64 id).

Definition extentHeader_Marshal (flt : fault) (id : Z) (w : File) : File * option error :=
  let '(w, n, err) := write flt w (header_sector id) in
  if negb (n =? 512) || bool_decide (err <> None)
  then (w, Some (Errorf "failed to create extent file")) else (w, None).

(** [io.ReadFull] at position [pos] of a file *)
Definition ReadFull (c : bytes) (pos n : Z) : outcome bytes :=
  if n <=? 0 then Ok [] else
  let avail := zdrop pos c in
  if n <=? zlen avail then Ok (ztake n avail)
  else if zlen avail =? 0 then Err EOF else Err ErrUnexpectedEOF.

(** [extentHeader.Unmarshal]: the extent ID *)
Definition extentHeader_Unmarshal (c : bytes) : outcome Z :=
  let! buf := ReadFull c 0 512 in
  match bytes_compare (ztake 8 buf) extentMagicNumber with
  | Eq => Ok (be_get (ztake 8 (zdrop 8 buf)))
  | _ => Err (Errorf "magic number fail")
  end.

(** ** Blocks on disk *)

(** the metadata sector [writeBlock] fills in, or the error it returns first *)
Definition block_sector (block : Block) : outcome bytes :=
  if negb (align (BlockLength block)) then Err (Errorf "block is not aligned") else
  if negb (CheckSum block =? AdlerCheckSum (Data block)) then Err (Errorf "alder32 checksum not match") else
  let buf := zrep 512 Byte.x00 in
  let buf := copy_at buf 0 (PutUint32 (CheckSum block)) in
  let sz := 4 in
  let bl := PutUvarint (BlockLength block) in
  let buf := copy_at buf sz bl in
  let sz := sz + zlen bl in
  if 0 <? zlen (UserData block) then
    let ul := PutUvarint (zlen (UserData block)) in
    let buf := copy_at buf sz ul in
    let sz := sz + zlen ul in
    if 512 <? sz + zlen (UserData block) then Err (Errorf "user data is too big")
    else Ok (copy_at buf sz (UserData block))
  else Ok buf.

(** [writeBlock]: sector, then data; the sector's write error is not looked at *)
Definition writeBlock (flt : fault * fault) (w : File) (block : Block) : outcome (File * option error) :=
  match block_sector block with
  | Ok buf =>
      let '(w, _, _) := write (fst flt) w buf in
      let '(w, _, err) := write (snd flt) w (Data block) in
      Ok (w, err)
  | Err e => Ok (w, Some e)
  | Panic => Panic
  end.

(** The two readers: an [*os.File] with its 64-bit position, and
    [extentBlockReader] with a uint32 one. *)
Inductive rkind := OsFile | BlockReader.
Definition advance (k : rkind) (pos n : Z) : Z :=
  match k with OsFile => pos + n | BlockReader => u32 (pos + n) end.

(** [make([]byte, n)] panics beyond the address space *)
Definition maxAlloc : Z := 2 ^ 48.

(** the user data of a metadata sector, which starts at [idx] *)
Definition parse_user (buf : bytes) (idx : Z) : outcome bytes :=
  let! b := slice_from buf idx in
  let '(len, n) := Uvarint b in
  let idx := idx + n in
  let till := int64 (int64 len + idx) in
  if 512 <? till then Err (Errorf "user data is too big") else
  if 0 <? len then slice buf idx till else Ok [].

(** checksum, block length and user data of a metadata sector *)
Definition parse_sector (buf : bytes) : outcome (Z * Z * bytes) :=
  let checkSum := be_get (ztake 4 buf) in
  let idx := 4 in
  let! b := slice_from buf idx in
  let '(blockLength, n) := Uvarint b in
  let! userData := parse_user buf (idx + n) in
  Ok (checkSum, blockLength, userData).

(** what [readBlock] and [readBlockEntries] do alike: checksum, block length,
    user data, data, and the position after the block *)
Definition read_raw (k : rkind) (c : bytes) (pos : Z) : outcome (Z * Z * bytes * bytes * Z) :=
  let! buf := ReadFull c pos 512 in
  let! (checkSum, blockLength, userData) := parse_sector buf in
  if maxAlloc <? blockLength then Panic else
  let pos := advance k pos 512 in
  let! data := match ReadFull c pos blockLength with
               | Err EOF => Err ErrUnexpectedEOF
               | r => r
               end in
  if negb (AdlerCheckSum data =? checkSum) then Err (Errorf "alder32 checksum not match") else
  if negb (align blockLength) then Err (Errorf "block is not aligned") else
  Ok (checkSum, blockLength, userData, data, advance k pos blockLength).

Definition readBlock (k : rkind) (c : bytes) (pos : Z) : outcome (Block * Z) :=
  let! (checkSum, blockLength, userData, data, pos) := read_raw k c pos in
  Ok (mkBlock checkSum (u32 blockLength) userData data, pos).

(** the loop of [readBlockEntries] over the entry boundaries of a log block;
    [offsets0] is the whole list, asserted to hold one entry for a big value *)
Fixpoint entries_loop (extentID offset blockLength : Z) (replay : bool) (data : bytes)
    (offsets0 offsets : list Z) (ret : list EntryInfo) : outcome (list EntryInfo) :=
  match offsets with
  | o :: ((o' :: _) as rest) =>
      let length := u32 (o' - o) in
      let! b := slice data o (u32 (o + length)) in
      match Entry_Unmarshal b with
      | Ok entry =>
          if ShouldWriteValueToLSM entry then
            if replay then
              entries_loop extentID offset blockLength replay data offsets0 rest
                (ret ++ [mkEI entry extentID offset (Entry_Size entry)])
            else Ok (ret ++ [mkEI emptyEntry extentID offset (u64 (blockLength + 512))])
          else
            let entry := mkEntry (Key entry) [] (Z.lor (Meta entry) BitValuePointer)
                           (UserMeta entry) (ExpiresAt entry) in
            assert (zlen offsets0 =? 2)
              (Ok (ret ++ [mkEI entry extentID offset (u64 (blockLength + 512))]))
      | _ => Panic (* utils.Check *)
      end
  | _ => Ok ret
  end.

Definition block_entries (extentID offset blockLength : Z) (replay : bool) (userData data : bytes)
    : outcome (list EntryInfo) :=
  match MixedLog_Unmarshal userData with
  | Ok offsets => entries_loop extentID offset blockLength replay data offsets offsets []
  | _ => Panic (* utils.MustUnMarshal *)
  end.

Definition readBlockEntries (k : rkind) (c : bytes) (pos : Z) (extentID offset : Z) (replay : bool)
    : outcome (list EntryInfo * Z) :=
  let! (_, blockLength, userData, data, _) := read_raw k c pos in
  let! ret := block_entries extentID offset blockLength replay userData data in
  Ok (ret, blockLength).

Definition sizeOfEntries (entries : list EntryInfo) : Z :=
  fold_left (fun ret e => ret + EntryInfo_Size e) entries 0.
Definition sizeOfBlocks (blocks : list Block) : Z :=
  fold_left (fun ret b => u32 (ret + u32 (512 + BlockLength b))) blocks 0.

(** ** Operations on extents *)

Definition emptyFile : File := mkFile [] None.

(** [CreateExtent]: the file afterwards, and the extent. O_CREATE without
    O_TRUNC or O_EXCL keeps the content of a file that exists. *)
Definition CreateExtent (existing : option File) (name : string) (id : Z) (flt : fault)
    : File * outcome Extent :=
  let f := default emptyFile existing in
  let '(f, err) := extentHeader_Marshal flt id f in
  match err with
  | Some e => (f, Err e)
  | None => (f, Ok (mkExtent newMutex 0 512 id name f true))
  end.

(** the replay loop of [OpenExtent]: the offset and the file; [None] while the
    loop has not ended *)
Fixpoint open_loop (fuel : nat) (f : File) (currentSize offset pos : Z) : option (outcome (Z * File)) :=
  match fuel with
  | O => None
  | S fuel =>
      if offset <? currentSize then
        match readBlock OsFile (content f) pos with
        | Ok (b, pos) => open_loop fuel f currentSize (u32 (offset + u32 (BlockLength b + 512))) pos
        | Err _ => Some (Ok (offset, Truncate f offset))
        | Panic => Some Panic
        end
      else Some (Ok (offset, f))
  end.

Definition is_sealed (f : File) : bool :=
  match seal_attr f with
  | Some d => bool_decide (d = [Byte.x74; Byte.x72; Byte.x75; Byte.x65])
  | None => false
  end.

Definition OpenExtent (name : string) (existing : option File) : outcome Extent :=
  match existing with
  | None => Err (Errorf "no such file")
  | Some f =>
      if is_sealed f then
        if MaxUint32 <? zlen (content f)
        then Err (Errorf "check extent file, the extent file is too big") else
        let! id := extentHeader_Unmarshal (content f) in
        Ok (mkExtent newMutex 1 (u32 (zlen (content f))) id name f false)
      else
        let currentSize := u32 (zlen (content f)) in
        let! id := extentHeader_Unmarshal (content f) in
        match open_loop (S (length (content f))) f currentSize 512 512 with
        | Some r => let! (offset, f) := r in Ok (mkExtent newMutex 0 offset id name f true)
        (** not reached: OpenExtent_replay_terminates *)
        | None => Panic
        end
  end.

Definition IsSeal (ex : Extent) : bool := isSeal ex =? 1.
Definition CommitLength (ex : Extent) : Z := commitLength ex.
Definition with_lock (ex : Extent) (m : SafeMutex) : Extent :=
  mkExtent m (isSeal ex) (commitLength ex) (ID ex) (fileName ex) (file ex) (writable ex).

(** [Seal]: the extent afterwards and the error; [attrErr] is what
    [xattr.FSet] reports. Truncating a read-only file fails unnoticed. *)
Definition Seal (ex : Extent) (commit : Z) (attrErr : option error) : outcome (Extent * option error) :=
  let! m := Lock (mutex ex) in
  let currentLength := commitLength ex in
  let sealed f := mkExtent m 1 (commitLength ex) (ID ex) (fileName ex) f (writable ex) in
  let! (ex, err) :=
    (if currentLength <? commit
     then Ok (sealed (file ex), Some (Errorf "commit is less than current commit length"))
     else
       let f := if (commit <? currentLength) && writable ex then Truncate (file ex) commit else file ex in
       match attrErr with
       | Some e => Ok (sealed f, Some e)
       | None => Ok (sealed (mkFile (content f) (Some [Byte.x74; Byte.x72; Byte.x75; Byte.x65])), None)
       end) in
  let! m := Unlock (mutex ex) in
  Ok (with_lock ex m, err).

(** the error of a read that finds nothing more *)
Definition at_end (ex : Extent) : error := if IsSeal ex then EndOfExtent else EndOfStream.

(** [ReadEntries]: entries, end offset, error *)
Fixpoint read_entries_loop (fuel : nat) (ex : Extent) (maxTotalSize : Z) (replay : bool)
    (offset size : Z) (ret : list EntryInfo) : outcome (list EntryInfo * Z * option error) :=
  match fuel with
  | O => Panic
  | S fuel =>
      match readBlockEntries BlockReader (content (file ex)) offset (ID ex) offset replay with
      | Ok (entries, blockLength) =>
          let ret := ret ++ entries in
          let size := size + sizeOfEntries entries in
          let offset := u32 (offset + u32 (u32 blockLength + 512)) in
          if maxTotalSize <? u32 size then Ok (ret, offset, None)
          else read_entries_loop fuel ex maxTotalSize replay offset size ret
      | Err EOF => Ok (ret, offset, Some (at_end ex))
      | Err e => Ok ([], 0, Some e)
      | Panic => Panic
      end
  end.
Definition ReadEntries (ex : Extent) (offset maxTotalSize : Z) (replay : bool)
    : outcome (list EntryInfo * Z * option error) :=
  if offset =? 0 then Ok ([], 0, Some (Errorf "offset can not be zero")) else
  if commitLength ex <=? offset then Ok ([], 0, Some (at_end ex)) else
  read_entries_loop (S (length (content (file ex)))) ex maxTotalSize replay offset 0 [].

(** [ReadBlocks]: blocks and error *)
Fixpoint read_blocks_loop (n : nat) (ex : Extent) (maxTotalSize offset size : Z) (ret : list Block)
    : outcome (list Block * option error) :=
  match n with
  | O => Ok (ret, None)
  | S n =>
      match readBlock BlockReader (content (file ex)) offset with
      | Ok (block, _) =>
          let ret := ret ++ [block] in
          let offset := u32 (offset + u32 (BlockLength block + 512)) in
          let size := u32 (size + u32 (BlockLength block + 512)) in
          if maxTotalSize <? size then Ok (ret, None)
          else read_blocks_loop n ex maxTotalSize offset size ret
      | Err EOF => Ok (ret, Some (at_end ex))
      | Err e => Ok ([], Some e)
      | Panic => Panic
      end
  end.
Definition ReadBlocks (ex : Extent) (offset maxNumOfBlocks maxTotalSize : Z)
    : outcome (list Block * option error) :=
  if commitLength ex <=? offset then Ok ([], Some (at_end ex)) else
  read_blocks_loop (Z.to_nat maxNumOfBlocks) ex maxTotalSize offset 0 [].

Definition next_fault (flts : list (fault * fault)) : fault * fault :=
  default (None, None) (head flts).

(** the loop of [AppendBlocks]: file, current length, offsets and the first
    error; [flts] are the faults of the writes, in order *)
Fixpoint append_loop (f : File) (currentLength : Z) (ret : list Z) (blocks : list Block)
    (flts : list (fault * fault)) : outcome (File * Z * list Z * option error) :=
  match blocks with
  | [] => Ok (f, currentLength, ret, None)
  | block :: blocks =>
      let! (f, err) := writeBlock (next_fault flts) f block in
      match err with
      | Some e => Ok (f, currentLength, ret, Some e)
      | None => append_loop f (u32 (currentLength + u32 (BlockLength block + 512)))
                  (ret ++ [currentLength]) blocks (tail flts)
      end
  end.

Definition AppendBlocks (ex : Extent) (blocks : list Block) (lastCommit : option Z)
    (flts : list (fault * fault)) : outcome (Extent * (list Z + error)) :=
  let! _ := AssertLock (mutex ex) in
  if isSeal ex =? 1 then Ok (ex, inr (Errorf "immuatble")) else
  if match lastCommit with Some c => negb (c =? CommitLength ex) | None => false end
  then Ok (ex, inr (Errorf "offset not match...")) else
  let set f n := mkExtent (mutex ex) (isSeal ex) n (ID ex) (fileName ex) f (writable ex) in
  let! (f, currentLength, ret, err) := append_loop (file ex) (commitLength ex) [] blocks flts in
  match err with
  | Some e => Ok (set (Truncate f currentLength) currentLength, inr e)
  | None => Ok (set f currentLength, inl ret)
  end.

(** ** The layout as a pure encoding *)

Definition pad512 (l : bytes) : bytes := l ++ zrep (512 - zlen l) Byte.x00.
Definition header_bytes (id : Z) : bytes := pad512 (extentMagicNumber ++ PutUint64 id).
Definition user_bytes (u : bytes) : bytes :=
  if 0 <? zlen u then PutUvarint (zlen u) ++ u else [].
Definition meta_bytes (b : Block) : bytes :=
  PutUint32 (CheckSum b) ++ PutUvarint (BlockLength b) ++ user_bytes (UserData b).
Definition block_bytes (b : Block) : bytes := pad512 (meta_bytes b) ++ Data b.
Definition blocks_bytes (bs : list Block) : bytes := mjoin (block_bytes <$> bs).

(** A block [writeBlock] accepts and whose data has the length it declares. *)
Record block_wf (b : Block) : Prop := mk_block_wf {
  wf_sum : CheckSum b = AdlerCheckSum (Data b);
  wf_len : zlen (Data b) = BlockLength b;
  wf_align : align (BlockLength b) = true;
  wf_u32 : BlockLength b + 512 < 2 ^ 32;
  wf_meta : zlen (meta_bytes b) <= 512 }.

Definition block_size (b : Block) : Z := BlockLength b + 512.
Definition blocks_size (bs : list Block) : Z := foldr (fun b n => block_size b + n) 0 bs.

Lemma align_spec n : 0 <= n -> align n = true -> 512 <= n /\ n mod 512 = 0.
Proof.
  unfold align. intros Hn H. apply andb_true_iff in H as [H1 H2].
  apply Z.eqb_eq in H2. split; [|done].
  destruct (Z.eqb_spec n 0); [done|].
  assert (n = 512 * (n / 512)) by (apply Z.div_exact; lia). lia.
Qed.

Lemma zlen_pad512 l : zlen l <= 512 -> zlen (pad512 l) = 512.
Proof. intros. unfold pad512. rewrite zlen_app, zlen_zrep by lia. lia. Qed.

Lemma zrep_tail {A} (x : A) n k : 0 <= k <= n -> zrep n x = zrep k x ++ zrep (n - k) x.
Proof. intros. rewrite <- zrep_plus by lia. f_equal. lia. Qed.

(** writing the next field into a zero-padded sector *)
Lemma copy_at_pad512 (l k : bytes) n :
  zlen l = n -> zlen l + zlen k <= 512 -> copy_at (pad512 l) n k = pad512 (l ++ k).
Proof.
  intros <- H. unfold pad512. pose proof (zlen_nonneg k).
  rewrite (zrep_tail _ (512 - zlen l) (zlen k)) by lia.
  rewrite copy_at_fits by (rewrite zlen_zrep; lia).
  rewrite <- app_assoc. do 3 f_equal. rewrite zlen_app. lia.
Qed.

Lemma zrep_pad512 : zrep 512 Byte.x00 = pad512 [].
Proof. done. Qed.

Lemma header_sector_bytes id : header_sector id = header_bytes id.
Proof.
  unfold header_sector. rewrite zrep_pad512, (copy_at_pad512 []) by done.
  by rewrite copy_at_pad512.
Qed.

Lemma zlen_header_bytes id : zlen (header_bytes id) = 512.
Proof. unfold header_bytes. by rewrite zlen_pad512. Qed.

Lemma block_wf_length b : block_wf b -> 512 <= BlockLength b.
Proof.
  intros []. apply (align_spec (BlockLength b)); [|done].
  rewrite <- wf_len0. apply zlen_nonneg.
Qed.

Lemma zlen_PutUint32 v : zlen (PutUint32 v) = 4.
Proof. done. Qed.

Lemma zlen_meta b : zlen (meta_bytes b) =
  4 + zlen (PutUvarint (BlockLength b)) + zlen (user_bytes (UserData b)).
Proof. unfold meta_bytes. rewrite !zlen_app, zlen_PutUint32. lia. Qed.

Lemma block_sector_ok b : block_wf b -> block_sector b = Ok (pad512 (meta_bytes b)).
Proof.
  intros Hwf. pose proof (zlen_meta b) as Hz. destruct Hwf as [Hs Hl Ha Hb Hm].
  unfold block_sector. rewrite Ha, Hs, Z.eqb_refl. cbn [negb].
  unfold meta_bytes in *. rewrite Hs in *. unfold user_bytes in *.
  set (bl := PutUvarint (BlockLength b)) in *. pose proof (zlen_nonneg bl).
  set (ul := PutUvarint (zlen (UserData b))) in *. pose proof (zlen_nonneg ul).
  rewrite zrep_pad512, (copy_at_pad512 []) by done.
  destruct (Z.ltb_spec 0 (zlen (UserData b))).
  - rewrite (zlen_app ul) in Hz.
    rewrite copy_at_pad512 by (rewrite ?zlen_app, ?zlen_nil, zlen_PutUint32; lia).
    rewrite copy_at_pad512 by (rewrite ?zlen_app, ?zlen_nil, zlen_PutUint32; lia).
    destruct (Z.ltb_spec 512 (4 + zlen bl + zlen ul + zlen (UserData b))); [lia|].
    rewrite copy_at_pad512 by (rewrite ?zlen_app, ?zlen_nil, zlen_PutUint32; lia).
    f_equal. f_equal. by rewrite <- !app_assoc.
  - rewrite zlen_nil in Hz.
    rewrite copy_at_pad512 by (rewrite ?zlen_app, ?zlen_nil, zlen_PutUint32; lia).
    by rewrite app_nil_r.
Qed.

Lemma zlen_block_bytes b : block_wf b -> zlen (block_bytes b) = block_size b.
Proof.
  intros []. unfold block_bytes, block_size. rewrite zlen_app, zlen_pad512 by done. lia.
Qed.

Lemma zlen_blocks_bytes bs : Forall block_wf bs -> zlen (blocks_bytes bs) = blocks_size bs.
Proof.
  induction 1 as [|b bs Hb Hbs IH]; [done|].
  change (blocks_bytes (b :: bs)) with (block_bytes b ++ blocks_bytes bs).
  by rewrite zlen_app, IH, zlen_block_bytes.
Qed.

Lemma blocks_size_nonneg bs : Forall block_wf bs -> 0 <= blocks_size bs.
Proof. intros. rewrite <- zlen_blocks_bytes by done. apply zlen_nonneg. Qed.

Lemma blocks_size_pos bs : Forall block_wf bs -> bs <> [] -> 0 < blocks_size bs.
Proof.
  intros H ?. destruct H as [|b cs Hb Hcs]; [done|].
  pose proof (blocks_size_nonneg cs Hcs). pose proof (block_wf_length b Hb).
  cbn [blocks_size foldr]. fold (blocks_size cs). unfold block_size. lia.
Qed.

Lemma blocks_bytes_app bs cs : blocks_bytes (bs ++ cs) = blocks_bytes bs ++ blocks_bytes cs.
Proof. unfold blocks_bytes. by rewrite fmap_app, join_app. Qed.
Lemma blocks_bytes_cons b bs : blocks_bytes (b :: bs) = block_bytes b ++ blocks_bytes bs.
Proof. done. Qed.
Lemma blocks_size_app bs cs : blocks_size (bs ++ cs) = blocks_size bs + blocks_size cs.
Proof. induction bs; simpl; lia. Qed.

(** ** Reading back *)

Lemma ReadFull_Ok c pos n pre mid post :
  c = pre ++ mid ++ post -> zlen pre = pos -> zlen mid = n -> ReadFull c pos n = Ok mid.
Proof.
  intros -> Hp Hm. unfold ReadFull. pose proof (zlen_nonneg mid). pose proof (zlen_nonneg post).
  rewrite zdrop_app_exact by done.
  destruct (Z.leb_spec n 0).
  - rewrite (zlen_0_nil mid) by lia. done.
  - rewrite zlen_app, ztake_app_exact by done. destruct (Z.leb_spec n (zlen mid + zlen post)); [done|lia].
Qed.

Lemma ReadFull_short c pos n pre rest :
  c = pre ++ rest -> zlen pre = pos -> zlen rest < n ->
  ReadFull c pos n = Err (if zlen rest =? 0 then EOF else ErrUnexpectedEOF).
Proof.
  intros -> Hp Hm. unfold ReadFull. pose proof (zlen_nonneg rest).
  rewrite zdrop_app_exact by done.
  destruct (Z.leb_spec n 0); [lia|]. destruct (Z.leb_spec n (zlen rest)); [lia|].
  by destruct (zlen rest =? 0).
Qed.

Lemma parse_user_ok (pre u z : bytes) idx :
  zlen (pre ++ user_bytes u) <= 512 -> (u = [] -> exists z', z = Byte.x00 :: z') ->
  zlen pre = idx -> idx <= 511 ->
  parse_user (pre ++ user_bytes u ++ z) idx = Ok u.
Proof.
  intros Hu Hz <- Hp. unfold parse_user, user_bytes in *. pose proof (zlen_nonneg pre).
  pose proof (zlen_nonneg u). pose proof (zlen_nonneg (PutUvarint (zlen u))).
  pose proof (zlen_nonneg z). rewrite zlen_app in Hu.
  rewrite slice_from_Ok by (rewrite !zlen_app; zlia). cbn [obind].
  rewrite zdrop_app_exact by done.
  destruct (Z.ltb_spec 0 (zlen u)).
  - rewrite zlen_app in Hu.
    rewrite <- app_assoc, Uvarint_Put by lia.
    rewrite (int64_small (zlen u)), int64_small by lia.
    destruct (Z.ltb_spec 512 (zlen u + (zlen pre + zlen (PutUvarint (zlen u))))); [lia|].
    destruct (Z.ltb_spec 0 (zlen u)); [|lia].
    rewrite slice_Ok by (rewrite ?zlen_app; lia). f_equal.
    rewrite app_assoc, zdrop_app_exact by (rewrite zlen_app; done).
    apply ztake_app_exact. lia.
  - assert (u = []) as -> by (apply zlen_0_nil; lia). destruct Hz as [z' ->]; [done|].
    cbn [app]. change (Uvarint (Byte.x00 :: z')) with (0, 1).
    cbv beta iota zeta. change (int64 0) with 0. rewrite int64_small by lia.
    destruct (Z.ltb_spec 512 (0 + (zlen pre + 1))); [lia|]. done.
Qed.

Lemma parse_sector_ok b : block_wf b ->
  parse_sector (pad512 (meta_bytes b)) = Ok (CheckSum b, BlockLength b, UserData b).
Proof.
  intros Hwf. pose proof (block_wf_length b Hwf) as Hbl. destruct Hwf as [Hs Hl Ha Hb Hm].
  unfold parse_sector, pad512, meta_bytes in *. set (z := zrep _ _).
  pose proof (zlen_PutUvarint_u32 (BlockLength b) ltac:(lia)). rewrite <- !app_assoc, (ztake_app_exact 4) by done.
  rewrite Uint32_Put, u32_small by (rewrite Hs; apply AdlerCheckSum_range).
  rewrite slice_from_Ok.
  2: { rewrite zlen_app, zlen_PutUint32. pose proof (zlen_nonneg (PutUvarint (BlockLength b) ++ user_bytes (UserData b) ++ z)). lia. }
  cbn [obind]. rewrite (zdrop_app_exact 4), Uvarint_Put by (done || lia).
  rewrite app_assoc in Hm |- *. rewrite parse_user_ok; [done|done| | |lia].
  - intros E. exists (zrep (511 - zlen (PutUint32 (CheckSum b) ++ PutUvarint (BlockLength b))) Byte.x00).
    subst z. rewrite E. unfold user_bytes. cbn [Z.ltb]. rewrite app_nil_r.
    rewrite (zrep_tail _ _ 1) by (rewrite zlen_app, zlen_PutUint32; lia).
    cbn [app]. do 2 f_equal. lia.
  - rewrite zlen_app, zlen_PutUint32. done.
Qed.

Lemma read_raw_sector k c pos pre b rest :
  block_wf b -> c = pre ++ pad512 (meta_bytes b) ++ rest -> zlen pre = pos ->
  read_raw k c pos =
    let! data := match ReadFull c (advance k pos 512) (BlockLength b) with
                 | Err EOF => Err ErrUnexpectedEOF | r => r end in
    if negb (AdlerCheckSum data =? CheckSum b) then Err (Errorf "alder32 checksum not match")
    else Ok (CheckSum b, BlockLength b, UserData b, data, advance k (advance k pos 512) (BlockLength b)).
Proof.
  intros Hwf Hc Hp. unfold read_raw.
  rewrite (ReadFull_Ok c pos 512 pre _ rest Hc Hp) by apply zlen_pad512, Hwf.
  cbn [obind]. rewrite parse_sector_ok by done. cbn [obind].
  destruct Hwf as [Hs Hl Ha Hb Hm]. unfold maxAlloc.
  destruct (Z.ltb_spec (2 ^ 48) (BlockLength b)); [lia|]. by rewrite Ha.
Qed.

Lemma read_raw_ok k c pos pre b post :
  block_wf b -> c = pre ++ block_bytes b ++ post -> zlen pre = pos -> zlen c < 2 ^ 32 ->
  read_raw k c pos = Ok (CheckSum b, BlockLength b, UserData b, Data b, pos + block_size b).
Proof.
  intros Hwf Hc Hp Hlen. pose proof (block_wf_length b Hwf).
  pose proof (zlen_block_bytes b Hwf) as Hbz. unfold block_size in *.
  pose proof (zlen_nonneg pre). pose proof (zlen_nonneg post).
  assert (forall p n, 0 <= p -> 0 <= n -> p + n < 2 ^ 32 -> advance k p n = p + n) as Hadv.
  { intros. destruct k; [done|]. apply u32_small. lia. }
  rewrite Hc, !zlen_app, Hbz in Hlen. unfold block_bytes in Hc. rewrite <- app_assoc in Hc.
  rewrite (read_raw_sector k c pos pre b (Data b ++ post)) by done.
  rewrite (Hadv pos 512) by lia. rewrite app_assoc in Hc.
  rewrite (ReadFull_Ok c (pos + 512) (BlockLength b) _ _ _ Hc).
  - cbn [obind]. rewrite Hadv by lia. destruct Hwf as [Hs _ _ _ _]. rewrite <- Hs, Z.eqb_refl.
    cbn [negb]. do 2 f_equal. lia.
  - rewrite zlen_app, zlen_pad512 by apply Hwf. lia.
  - apply Hwf.
Qed.

(** a block written at some offset is read back from it, by either reader *)
Lemma readBlock_ok k c pos pre b post :
  block_wf b -> c = pre ++ block_bytes b ++ post -> zlen pre = pos -> zlen c < 2 ^ 32 ->
  readBlock k c pos = Ok (b, pos + block_size b).
Proof.
  intros Hwf Hc Hp Hlen. unfold readBlock. rewrite (read_raw_ok k c pos pre b post) by done.
  cbn [obind]. pose proof (block_wf_length b Hwf). rewrite u32_small by (destruct Hwf; lia).
  by destruct b.
Qed.

(** a block cut short anywhere is an error, never a panic *)
Lemma readBlock_torn c pos pre b (torn cut : bytes) :
  block_wf b -> block_bytes b = torn ++ cut -> cut <> [] -> c = pre ++ torn -> zlen pre = pos ->
  exists e, readBlock OsFile c pos = Err e /\ (e = EOF <-> torn = []).
Proof.
  intros Hwf Hb Hcut Hc Hp. unfold readBlock.
  assert (zlen cut > 0) by (destruct cut; [done|rewrite zlen_cons; pose proof (zlen_nonneg cut); lia]).
  pose proof (zlen_block_bytes b Hwf) as Hbz. unfold block_size in *.
  pose proof (zlen_pad512 (meta_bytes b) ltac:(apply Hwf)) as Hpz.
  destruct (Z.le_gt_cases 512 (zlen torn)) as [Hlong|Hshort].
  - assert (torn = pad512 (meta_bytes b) ++ zdrop 512 torn) as Ht.
    { rewrite <- (ztake_zdrop 512 torn) at 1. f_equal.
      rewrite <- (ztake_app_le 512 torn cut) by done. rewrite <- Hb. unfold block_bytes.
      by apply ztake_app_exact. }
    rewrite Hb, zlen_app in Hbz.
    rewrite (read_raw_sector OsFile c pos pre b (zdrop 512 torn)) by (congruence || done).
    cbn [advance].
    assert (zlen (zdrop 512 torn) < BlockLength b) by (rewrite zlen_zdrop; lia).
    rewrite (ReadFull_short c (pos + 512) (BlockLength b) (pre ++ pad512 (meta_bytes b)) (zdrop 512 torn)).
    + exists ErrUnexpectedEOF. split; [by destruct (_ =? _)|]. split; [done|].
      intros ->. done.
    + by rewrite <- app_assoc, <- Ht.
    + rewrite zlen_app. lia.
    + done.
  - unfold read_raw. rewrite (ReadFull_short c pos 512 pre torn) by done.
    eexists. split; [done|]. destruct (Z.eqb_spec (zlen torn) 0) as [E|E].
    + apply zlen_0_nil in E. done.
    + split; [done|]. intros ->. done.
Qed.

(** ** The extent invariant

    The file holds the header and exactly the committed blocks [bs]. *)
Record extent_inv (ex : Extent) (bs : list Block) : Prop := mk_extent_inv {
  inv_content : content (file ex) = header_bytes (ID ex) ++ blocks_bytes bs;
  inv_wf : Forall block_wf bs;
  inv_commit : commitLength ex = 512 + blocks_size bs;
  inv_bound : commitLength ex < 2 ^ 32;
  inv_id : is_u64 (ID ex) }.

(** the offsets at which consecutive blocks start *)
Fixpoint block_offsets (base : Z) (bs : list Block) : list Z :=
  match bs with
  | [] => []
  | b :: bs => base :: block_offsets (base + block_size b) bs
  end.

(** [bs] are on disk from [offset] on, up to the end *)
Definition blocks_at (c : bytes) (offset : Z) (bs : list Block) : Prop :=
  exists pre, c = pre ++ blocks_bytes bs /\ zlen pre = offset.

Lemma blocks_at_cons c offset b bs : block_wf b ->
  blocks_at c offset (b :: bs) -> blocks_at c (offset + block_size b) bs.
Proof.
  intros Hb (pre & -> & <-). exists (pre ++ block_bytes b).
  rewrite blocks_bytes_cons, app_assoc, zlen_app, zlen_block_bytes by done. done.
Qed.

Lemma extent_inv_length ex bs : extent_inv ex bs -> zlen (content (file ex)) = commitLength ex.
Proof.
  intros []. rewrite inv_content0, zlen_app, zlen_header_bytes, zlen_blocks_bytes by done. lia.
Qed.

Lemma extent_inv_at ex bs cs : extent_inv ex (bs ++ cs) ->
  blocks_at (content (file ex)) (512 + blocks_size bs) cs.
Proof.
  intros []. exists (header_bytes (ID ex) ++ blocks_bytes bs).
  rewrite <- app_assoc, <- blocks_bytes_app. split; [done|].
  apply Forall_app in inv_wf0 as []. by rewrite zlen_app, zlen_header_bytes, zlen_blocks_bytes.
Qed.

(** *** Header *)

Lemma header_roundtrip id rest : is_u64 id ->
  extentHeader_Unmarshal (header_bytes id ++ rest) = Ok id.
Proof.
  intros Hid. unfold extentHeader_Unmarshal.
  rewrite (ReadFull_Ok _ 0 512 [] (header_bytes id) rest) by (done || apply zlen_header_bytes).
  cbn [obind]. unfold header_bytes, pad512. rewrite <- !app_assoc.
  rewrite (ztake_app_exact 8), (zdrop_app_exact 8), (ztake_app_exact 8) by done.
  rewrite bytes_compare_refl, Uint64_Put, u64_small by done. done.
Qed.

Lemma CreateExtent_inv name id : is_u64 id ->
  exists f ex, CreateExtent None name id None = (f, Ok ex) /\ file ex = f /\
    extent_inv ex [] /\ isSeal ex = 0 /\ mutex ex = newMutex.
Proof.
  intros Hid. unfold CreateExtent, extentHeader_Marshal, write.
  rewrite header_sector_bytes, zlen_header_bytes. cbn [content default emptyFile app].
  do 2 eexists. split; [done|]. cbn. split; [done|]. split; [|done].
  split; cbn; try done; by rewrite app_nil_r.
Qed.

(** *** Appending *)

Lemma write_app f bs : write None f bs = (mkFile (content f ++ bs) (seal_attr f), zlen bs, None).
Proof. done. Qed.

Lemma writeBlock_ok f b : block_wf b ->
  writeBlock (None, None) f b = Ok (mkFile (content f ++ block_bytes b) (seal_attr f), None).
Proof.
  intros Hwf. unfold writeBlock. rewrite block_sector_ok by done. cbn. unfold block_bytes.
  by rewrite app_assoc.
Qed.

Lemma append_loop_ok blocks : forall f cur ret, Forall block_wf blocks ->
  0 <= cur -> cur + blocks_size blocks < 2 ^ 32 ->
  append_loop f cur ret blocks [] =
    Ok (mkFile (content f ++ blocks_bytes blocks) (seal_attr f), cur + blocks_size blocks,
        ret ++ block_offsets cur blocks, None).
Proof.
  induction blocks as [|b blocks IH]; intros f cur ret Hwf Hc Hb.
  - cbn. rewrite !app_nil_r, Z.add_0_r. by destruct f.
  - apply Forall_cons in Hwf as [Hwf Hwfs]. cbn [append_loop]. change (next_fault []) with (None : fault, None : fault).
    cbn [blocks_size foldr] in Hb. fold (blocks_size blocks) in Hb.
    pose proof (blocks_size_nonneg blocks Hwfs). pose proof (block_wf_length b Hwf).
    unfold block_size in Hb.
    rewrite writeBlock_ok by done. cbn [obind]. rewrite u32_small by (rewrite u32_small; lia).
    rewrite u32_small by lia. cbn [tail]. fold (block_size b).
    rewrite IH by (done || unfold block_size; lia).
    cbn [content seal_attr block_offsets blocks_size foldr]. fold (blocks_size blocks).
    rewrite <- !app_assoc, blocks_bytes_cons, Z.add_assoc. done.
Qed.

(** *** Reading *)

(** reference reader: blocks until [n] are read or the sum of their sizes
    exceeds [max]; [None] means that the end was not reached *)
Fixpoint take_blocks (n : nat) (max size : Z) (bs : list Block) : list Block * bool :=
  match n, bs with
  | O, _ => ([], false)
  | S _, [] => ([], true)
  | S n, b :: bs =>
      let size := size + block_size b in
      if max <? size then ([b], false)
      else let '(r, e) := take_blocks n max size bs in (b :: r, e)
  end.

Lemma readBlock_EOF k c pos : zlen c = pos -> readBlock k c pos = Err EOF.
Proof.
  intros <-. unfold readBlock, read_raw. 
  rewrite (ReadFull_short c (zlen c) 512 c []); [done|by rewrite app_nil_r|done|done].
Qed.

Lemma read_blocks_loop_ok n : forall ex max offset size ret bs,
  Forall block_wf bs -> blocks_at (content (file ex)) offset bs ->
  zlen (content (file ex)) < 2 ^ 32 -> 0 <= offset -> 0 <= size ->
  size + blocks_size bs < 2 ^ 32 ->
  read_blocks_loop n ex max offset size ret =
    (let '(r, e) := take_blocks n max size bs in
     Ok (ret ++ r, if e then Some (at_end ex) else None)).
Proof.
  induction n as [|n IH]; intros ex max offset size ret bs Hwf Hat Hlen Ho Hs Hsz.
  { cbn. by rewrite app_nil_r. }
  destruct bs as [|b bs]; cbn [read_blocks_loop take_blocks].
  - destruct Hat as (pre & Hc & Hp). rewrite readBlock_EOF.
    2: { by rewrite Hc, app_nil_r. }
    by rewrite app_nil_r.
  - apply Forall_cons in Hwf as [Hwf Hwfs]. pose proof (blocks_at_cons _ _ _ _ Hwf Hat) as Hat'.
    destruct Hat as (pre & Hc & Hp). rewrite blocks_bytes_cons in Hc.
    rewrite (readBlock_ok BlockReader _ offset pre b (blocks_bytes bs)) by done.
    pose proof (block_wf_length b Hwf). pose proof (wf_u32 b Hwf).
    pose proof (blocks_size_nonneg bs Hwfs).
    rewrite Hc, !zlen_app, zlen_block_bytes in Hlen by done.
    pose proof (zlen_nonneg (blocks_bytes bs)).
    cbn [blocks_size foldr] in Hsz. fold (blocks_size bs) in Hsz. unfold block_size in Hsz, Hlen.
    rewrite (u32_small (BlockLength b + 512)) by lia. rewrite !u32_small by lia.
    fold (block_size b). destruct (max <? size + block_size b); [done|].
    rewrite (IH _ _ _ _ _ bs) by
      (done || (rewrite Hc, !zlen_app, zlen_block_bytes by done; unfold block_size; lia) || (unfold block_size; lia)).
    destruct (take_blocks n max (size + block_size b) bs) as [r e]. by rewrite <- app_assoc.
Qed.

Definition set_file (ex : Extent) (f : File) (n : Z) : Extent :=
  mkExtent (mutex ex) (isSeal ex) n (ID ex) (fileName ex) f (writable ex).

Lemma extent_inv_commit_nonneg ex bs : extent_inv ex bs -> 512 <= commitLength ex.
Proof. intros []. pose proof (blocks_size_nonneg bs inv_wf0). lia. Qed.

Lemma extent_inv_append ex bs blocks :
  extent_inv ex bs -> Forall block_wf blocks -> commitLength ex + blocks_size blocks < 2 ^ 32 ->
  extent_inv (set_file ex (mkFile (content (file ex) ++ blocks_bytes blocks) (seal_attr (file ex)))
                (commitLength ex + blocks_size blocks)) (bs ++ blocks).
Proof.
  intros [] Hwf Hb. split; cbn; try done.
  - by rewrite inv_content0, blocks_bytes_app, app_assoc.
  - by apply Forall_app.
  - rewrite blocks_size_app. lia.
Qed.

Lemma ReadBlocks_at ex bs cs n max :
  extent_inv ex (bs ++ cs) -> cs <> [] -> 0 <= n ->
  ReadBlocks ex (512 + blocks_size bs) n max =
    (let '(r, e) := take_blocks (Z.to_nat n) max 0 cs in
     Ok (r, if e then Some (at_end ex) else None)).
Proof.
  intros Hinv Hne Hn. pose proof (extent_inv_at ex bs cs Hinv) as Hat.
  pose proof (extent_inv_length _ _ Hinv) as Hlen. destruct Hinv as [Hc Hwf Hcl Hb Hid].
  apply Forall_app in Hwf as [Hwf1 Hwf2]. rewrite blocks_size_app in Hcl.
  pose proof (blocks_size_nonneg bs Hwf1).
  pose proof (blocks_size_pos cs Hwf2 Hne).
  unfold ReadBlocks. destruct (Z.leb_spec (commitLength ex) (512 + blocks_size bs)); [lia|].
  rewrite (read_blocks_loop_ok _ _ _ _ _ _ cs) by (done || lia). done.
Qed.

Lemma block_offsets_lookup base bs i off b :
  block_offsets base bs !! i = Some off -> bs !! i = Some b ->
  off = base + blocks_size (take i bs).
Proof.
  revert base i. induction bs as [|c bs IH]; intros base [|i]; cbn; try done.
  - intros [= <-] _. lia.
  - intros H1 H2. rewrite (IH _ _ H1 H2). fold (blocks_size (take i bs)). lia.
Qed.

Lemma AppendBlocks_ok ex bs blocks lastCommit :
  extent_inv ex bs -> AlreadyLocked (mutex ex) = true -> isSeal ex = 0 ->
  Forall block_wf blocks -> commitLength ex + blocks_size blocks < 2 ^ 32 ->
  (lastCommit = None \/ lastCommit = Some (commitLength ex)) ->
  AppendBlocks ex blocks lastCommit [] =
    Ok (set_file ex (mkFile (content (file ex) ++ blocks_bytes blocks) (seal_attr (file ex)))
          (commitLength ex + blocks_size blocks), inl (block_offsets (commitLength ex) blocks)).
Proof.
  intros Hinv Hl Hs Hwf Hb Hlc. pose proof (extent_inv_commit_nonneg _ _ Hinv).
  unfold AppendBlocks, AssertLock. rewrite Hl, Hs. cbn [assert obind].
  replace (match lastCommit with Some _ => _ | None => _ end) with false.
  2: { destruct Hlc as [->| ->]; [done|]. by rewrite Z.eqb_refl. }
  rewrite append_loop_ok by (done || lia). cbn [obind]. unfold set_file. by rewrite Hs.
Qed.

(** Without faults AppendBlocks appends every block, returns the offsets where they start, and
    each block can be read back at its offset. *)
Theorem AppendBlocks_commits ex bs blocks lastCommit :
  extent_inv ex bs -> AlreadyLocked (mutex ex) = true -> isSeal ex = 0 ->
  (lastCommit = None \/ lastCommit = Some (commitLength ex)) ->
  Forall block_wf blocks -> commitLength ex + blocks_size blocks < 2 ^ 32 ->
  exists ex', AppendBlocks ex blocks lastCommit [] =
      Ok (ex', inl (block_offsets (commitLength ex) blocks)) /\
    extent_inv ex' (bs ++ blocks) /\ mutex ex' = mutex ex /\ isSeal ex' = 0 /\
    (forall i off b max, block_offsets (commitLength ex) blocks !! i = Some off ->
       blocks !! i = Some b -> ReadBlocks ex' off 1 max = Ok ([b], None)).
Proof.
  intros Hinv Hl Hs Hlc Hwf Hb. pose proof (extent_inv_commit_nonneg _ _ Hinv).
  pose proof (extent_inv_append ex bs blocks Hinv Hwf Hb) as Hinv'.
  exists (set_file ex (mkFile (content (file ex) ++ blocks_bytes blocks) (seal_attr (file ex)))
                (commitLength ex + blocks_size blocks)).
  split; [|split; [done|split; [done|split; [done|]]]].
  - by apply (AppendBlocks_ok ex bs).
  - intros i off b max Ho Hi. rewrite (block_offsets_lookup _ _ _ _ _ Ho Hi).
    assert (bs ++ blocks = (bs ++ take i blocks) ++ b :: drop (S i) blocks) as Hsplit
      by (rewrite <- app_assoc, take_drop_middle; done).
    rewrite Hsplit in Hinv'.
    replace (commitLength ex + blocks_size (take i blocks))
      with (512 + blocks_size (bs ++ take i blocks)) by (rewrite blocks_size_app; destruct Hinv; lia).
    rewrite (ReadBlocks_at _ _ _ 1 max Hinv') by done.
    change (Z.to_nat 1) with 1%nat. cbn [take_blocks]. by destruct (max <? 0 + block_size b).
Qed.

(** ReadBlocks from a block boundary returns the blocks from there up to the requested number
    and size limit, and reports the end of the stream or of a sealed extent exactly when it reaches
    it. *)
Theorem ReadBlocks_spec ex bs cs n max :
  extent_inv ex (bs ++ cs) -> cs <> [] -> 0 <= n ->
  ReadBlocks ex (512 + blocks_size bs) n max =
    (let '(r, e) := take_blocks (Z.to_nat n) max 0 cs in
     Ok (r, if e then Some (if isSeal ex =? 1 then EndOfExtent else EndOfStream) else None)).
Proof. apply ReadBlocks_at. Qed.

(** *** Failing writes *)

(** what [writeBlock] refuses leaves the file alone; what it accepts is well formed *)
Lemma block_sector_cases b :
  zlen (Data b) = BlockLength b -> BlockLength b + 512 < 2 ^ 32 ->
  block_wf b \/ exists e, block_sector b = Err e.
Proof.
  intros Hl Hb. unfold block_sector. destruct (align (BlockLength b)) eqn:Ha; [|eauto].
  cbn [negb]. destruct (Z.eqb_spec (CheckSum b) (AdlerCheckSum (Data b))) as [Hs|]; [|eauto].
  cbn [negb]. assert (0 <= BlockLength b) by (rewrite <- Hl; apply zlen_nonneg).
  pose proof (zlen_PutUvarint_u32 (BlockLength b) ltac:(lia)).
  destruct (Z.ltb_spec 0 (zlen (UserData b))) as [Hu|Hu].
  - destruct (Z.ltb_spec 512 (4 + zlen (PutUvarint (BlockLength b)) +
      zlen (PutUvarint (zlen (UserData b))) + zlen (UserData b))); [eauto|].
    left. split; try done. rewrite zlen_meta. unfold user_bytes.
    destruct (Z.ltb_spec 0 (zlen (UserData b))); [|lia]. rewrite zlen_app. lia.
  - left. split; try done. rewrite zlen_meta. unfold user_bytes.
    destruct (Z.ltb_spec 0 (zlen (UserData b))); [lia|]. rewrite zlen_nil. lia.
Qed.

(** whatever happens, the file is the committed prefix plus left-over bytes *)
Lemma append_loop_faults blocks : forall f cur ret flts,
  Forall (fun b => zlen (Data b) = BlockLength b) blocks ->
  Forall (fun flt => fst flt = None) flts ->
  0 <= cur -> Forall (fun b => 0 <= BlockLength b) blocks -> cur + blocks_size blocks < 2 ^ 32 ->
  exists m junk err, append_loop f cur ret blocks flts =
      Ok (mkFile (content f ++ blocks_bytes (take m blocks) ++ junk) (seal_attr f),
          cur + blocks_size (take m blocks), ret ++ block_offsets cur (take m blocks), err) /\
    Forall block_wf (take m blocks) /\
    (err = None -> junk = [] /\ take m blocks = blocks) /\ (err <> None -> (m < length blocks)%nat).
Proof.
  induction blocks as [|b blocks IH]; intros f cur ret flts Hl Hf Hc Hbl Hb.
  - exists 0%nat, [], None. cbn. rewrite !app_nil_r, Z.add_0_r. by destruct f.
  - apply Forall_cons in Hl as [Hl Hls]. apply Forall_cons in Hbl as [Hb0 Hbs0].
    cbn [blocks_size foldr] in Hb. fold (blocks_size blocks) in Hb.
    assert (0 <= blocks_size blocks).
    { clear -Hbs0. induction Hbs0; cbn; [lia|]. fold (blocks_size l). unfold block_size. lia. }
    unfold block_size in Hb. cbn [append_loop].
    assert (Hfst : fst (next_fault flts) = None) by (destruct Hf; done).
    destruct (next_fault flts) as [fh fd]. cbn in Hfst. subst fh.
    destruct (block_sector_cases b Hl ltac:(lia)) as [Hwf|[e He]].
    2: { exists 0%nat, [], (Some e). unfold writeBlock. rewrite He. cbn.
         rewrite !app_nil_r, Z.add_0_r. destruct f. repeat split; try done. intros; lia. }
    destruct fd as [k|].
    + exists 0%nat, (pad512 (meta_bytes b) ++ ztake k (Data b)), (Some (Errorf "write")).
      unfold writeBlock. rewrite block_sector_ok by done.
      cbn [obind write fst snd content seal_attr take blocks_size foldr block_offsets].
      change (blocks_bytes []) with (@nil byte). cbn [app].
      rewrite <- !app_assoc, app_nil_r, Z.add_0_r. repeat split; try done. cbn. intros; lia.
    + rewrite writeBlock_ok by done. cbn [obind].
      rewrite (u32_small (BlockLength b + 512)), u32_small by lia. fold (block_size b).
      destruct (IH (mkFile (content f ++ block_bytes b) (seal_attr f)) (cur + block_size b)
        (ret ++ [cur]) (tail flts)) as (m & junk & err & Hr & Hw & Hn & He);
        try done; try (unfold block_size; lia).
      { by destruct Hf. }
      exists (S m), junk, err. rewrite Hr. cbn [take blocks_size foldr block_offsets content seal_attr].
      fold (blocks_size (take m blocks)). rewrite blocks_bytes_cons, <- !app_assoc, Z.add_assoc.
      split; [done|]. split; [by constructor|]. split.
      * intros E. destruct (Hn E) as [-> ->]. done.
      * intros E. specialize (He E). cbn. lia.
Qed.

Lemma Truncate_app f (pre junk : bytes) n : content f = pre ++ junk -> zlen pre = n ->
  Truncate f n = mkFile pre (seal_attr f).
Proof.
  intros Hc Hn. unfold Truncate. rewrite Hc, ztake_app_exact by done. f_equal.
  unfold zrep. rewrite zlen_app. pose proof (zlen_nonneg junk).
  replace (Z.to_nat _) with 0%nat by lia. apply app_nil_r.
Qed.

Lemma append_nothing ex bs (blocks : list Block) : extent_inv ex bs ->
  extent_inv ex (bs ++ take 0 blocks) /\
  commitLength ex = commitLength ex + blocks_size (take 0 blocks).
Proof. intros H. cbn [take blocks_size foldr]. rewrite app_nil_r, Z.add_0_r. done. Qed.

Lemma blocks_size_drop m blocks : Forall (fun b => 0 <= BlockLength b) blocks ->
  blocks_size (take m blocks) <= blocks_size blocks.
Proof.
  intros H. rewrite <- (take_drop m blocks) at 2. rewrite blocks_size_app.
  apply (Forall_drop _ m) in H. revert H. generalize (drop m blocks). intros l H.
  assert (0 <= blocks_size l); [|lia]. induction H; cbn; [lia|].
  fold (blocks_size l). unfold block_size. lia.
Qed.

Lemma AppendBlocks_outcome ex bs blocks lastCommit flts :
  extent_inv ex bs -> AlreadyLocked (mutex ex) = true ->
  Forall (fun b => zlen (Data b) = BlockLength b) blocks ->
  Forall (fun flt => fst flt = None) flts ->
  commitLength ex + blocks_size blocks < 2 ^ 32 ->
  exists m ex' r, AppendBlocks ex blocks lastCommit flts = Ok (ex', r) /\
    extent_inv ex' (bs ++ take m blocks) /\
    match r with
    | inl offs => take m blocks = blocks /\ offs = block_offsets (commitLength ex) blocks
    | inr _ => commitLength ex' = commitLength ex + blocks_size (take m blocks)
    end /\ mutex ex' = mutex ex /\ isSeal ex' = isSeal ex /\ ID ex' = ID ex.
Proof.
  intros Hinv Hl Hd Hf Hb. pose proof (extent_inv_commit_nonneg _ _ Hinv) as Hc0.
  assert (Forall (fun b => 0 <= BlockLength b) blocks).
  { eapply Forall_impl; [exact Hd|]. cbn. intros b <-. apply zlen_nonneg. }
  unfold AppendBlocks, AssertLock. rewrite Hl. cbn [assert obind].
  destruct (isSeal ex =? 1).
  { exists 0%nat. do 2 eexists. split; [done|]. destruct (append_nothing ex bs blocks Hinv). done. }
  destruct (match lastCommit with Some _ => _ | None => _ end).
  { exists 0%nat. do 2 eexists. split; [done|]. destruct (append_nothing ex bs blocks Hinv). done. }
  destruct (append_loop_faults blocks (file ex) (commitLength ex) [] flts) as
    (m & junk & err & -> & Hw & Hn & He); try done; [lia|]. cbn [obind].
  assert (commitLength ex + blocks_size (take m blocks) < 2 ^ 32) as Hm.
  { pose proof (blocks_size_drop m blocks H). lia. }
  pose proof (extent_inv_append _ _ _ Hinv Hw Hm) as Hinv'.
  assert (zlen (content (file ex) ++ blocks_bytes (take m blocks)) =
          commitLength ex + blocks_size (take m blocks)) as Hz.
  { rewrite zlen_app, (extent_inv_length _ _ Hinv), zlen_blocks_bytes by done. done. }
  exists m. destruct err as [e|].
  - rewrite (Truncate_app _ (content (file ex) ++ blocks_bytes (take m blocks)) junk)
      by (cbn [content]; rewrite ?app_assoc; done). cbn [seal_attr].
    do 2 eexists. split; [done|]. split; [apply Hinv'|done].
  - destruct (Hn eq_refl) as [-> Ht]. rewrite app_nil_r. do 2 eexists. split; [done|].
    split; [apply Hinv'|]. by rewrite Ht.
Qed.

(** C21: Whichever data writes fail, and however short, AppendBlocks of blocks whose BlockLength is
    the length of their data, into an extent that stays below 2^32 bytes, keeps the extent
    invariant: the file is the header and whole blocks, the old ones and a prefix of the new ones,
    and commitLength is its length; success is reported only if all were written. The writes of
    metadata sectors are taken to succeed: the code drops their errors. *)
Theorem AppendBlocks_faults ex bs blocks lastCommit flts :
  extent_inv ex bs -> AlreadyLocked (mutex ex) = true ->
  Forall (fun b => zlen (Data b) = BlockLength b) blocks ->
  Forall (fun flt => fst flt = None) flts ->
  commitLength ex + blocks_size blocks < 2 ^ 32 ->
  exists m ex' r, AppendBlocks ex blocks lastCommit flts = Ok (ex', r) /\
    extent_inv ex' (bs ++ take m blocks) /\
    match r with
    | inl offs => take m blocks = blocks /\ offs = block_offsets (commitLength ex) blocks
    | inr _ => commitLength ex' = commitLength ex + blocks_size (take m blocks)
    end.
Proof.
  intros Hinv Hl Hd Hf Hb.
  destruct (AppendBlocks_outcome ex bs blocks lastCommit flts Hinv Hl Hd Hf Hb) as (m & ex' & r & ? & ? & ? & _).
  by exists m, ex', r.
Qed.

(** *** Opening *)

(** the replay loop runs over well-formed blocks and stops at what follows *)
Lemma open_loop_blocks bs : forall fuel f size offset pre tail,
  Forall block_wf bs -> content f = pre ++ blocks_bytes bs ++ tail -> zlen pre = offset ->
  zlen (content f) < 2 ^ 32 -> size = zlen (content f) -> (length bs < fuel)%nat ->
  (tail = [] \/ exists e, readBlock OsFile (content f) (offset + blocks_size bs) = Err e) ->
  open_loop fuel f size offset offset =
    Some (Ok (offset + blocks_size bs, mkFile (pre ++ blocks_bytes bs) (seal_attr f))).
Proof.
  induction bs as [|b bs IH]; intros fuel f size offset pre tl Hwf Hc Hp Hlen -> Hf Ht;
    destruct fuel as [|fuel]; [cbn in Hf; lia| |cbn in Hf; lia|]; cbn [open_loop].
  - cbn [blocks_size foldr] in *. rewrite Z.add_0_r in *.
    change (blocks_bytes []) with (@nil byte) in *. cbn [app] in Hc. rewrite app_nil_r.
    destruct Ht as [->|[e He]].
    + rewrite app_nil_r in Hc. subst pre.
      destruct (Z.ltb_spec offset (zlen (content f))); [lia|]. by destruct f.
    + rewrite He. destruct (Z.ltb_spec offset (zlen (content f))) as [|Hge].
      * by rewrite (Truncate_app _ _ _ _ Hc).
      * rewrite Hc, zlen_app in Hge. pose proof (zlen_nonneg tl).
        rewrite (zlen_0_nil tl) in Hc by lia. rewrite app_nil_r in Hc. subst pre. by destruct f.
  - apply Forall_cons in Hwf as [Hwf Hwfs]. cbn [blocks_size foldr] in *. fold (blocks_size bs) in *.
    pose proof (block_wf_length b Hwf). pose proof (blocks_size_nonneg bs Hwfs).
    pose proof (wf_u32 b Hwf). pose proof (zlen_nonneg pre). pose proof (zlen_nonneg tl).
    rewrite blocks_bytes_cons in *. rewrite <- app_assoc in Hc.
    pose proof Hlen as Hlen'.
    rewrite Hc, !zlen_app, zlen_block_bytes, zlen_blocks_bytes in Hlen' by done.
    unfold block_size in Hlen'. 
    destruct (Z.ltb_spec offset (zlen (content f))) as [|Hge].
    2: { rewrite Hc, !zlen_app, zlen_block_bytes, zlen_blocks_bytes in Hge by done.
         unfold block_size in Hge. lia. }
    rewrite (readBlock_ok OsFile _ offset pre b _ Hwf Hc) by done.
    rewrite (u32_small (BlockLength b + 512)), u32_small by lia. fold (block_size b).
    rewrite (IH fuel f _ _ (pre ++ block_bytes b) tl); try done.
    + by rewrite <- !app_assoc, Z.add_assoc.
    + by rewrite <- app_assoc.
    + by rewrite zlen_app, zlen_block_bytes, Hp.
    + cbn in Hf. lia.
    + by rewrite <- Z.add_assoc.
Qed.

Lemma length_blocks bs : Forall block_wf bs -> (length bs <= length (blocks_bytes bs))%nat.
Proof.
  intros Hwf. pose proof (zlen_blocks_bytes bs Hwf) as Hz. unfold zlen in Hz.
  assert (Z.of_nat (length bs) <= blocks_size bs); [|lia]. clear Hz.
  induction Hwf as [|b bs Hb _ IH]; [done|]. cbn [blocks_size foldr length]. fold (blocks_size bs).
  pose proof (block_wf_length b Hb). unfold block_size. lia.
Qed.

Lemma OpenExtent_prefix name f id bs tail :
  is_sealed f = false -> is_u64 id -> Forall block_wf bs ->
  content f = header_bytes id ++ blocks_bytes bs ++ tail -> zlen (content f) < 2 ^ 32 ->
  (tail = [] \/ exists e, readBlock OsFile (content f) (512 + blocks_size bs) = Err e) ->
  exists ex, OpenExtent name (Some f) = Ok ex /\ extent_inv ex bs /\ isSeal ex = 0 /\
    mutex ex = newMutex /\ ID ex = id /\ seal_attr (file ex) = seal_attr f.
Proof.
  intros Hs Hid Hwf Hc Hlen Ht. unfold OpenExtent. rewrite Hs.
  replace (extentHeader_Unmarshal (content f)) with (Ok id)
    by (rewrite Hc; symmetry; by apply header_roundtrip).
  cbn [obind].
  rewrite u32_small by (pose proof (zlen_nonneg (content f)); lia).
  rewrite (open_loop_blocks bs _ f _ 512 (header_bytes id) tail) by
    (done || apply zlen_header_bytes ||
     (rewrite Hc, !length_app; pose proof (length_blocks bs Hwf); lia)).
  cbn [obind]. eexists. split; [done|]. split; [|done].
  pose proof (blocks_size_nonneg bs Hwf). pose proof (zlen_nonneg tail).
  rewrite Hc, !zlen_app, zlen_header_bytes, zlen_blocks_bytes in Hlen by done.
  split; cbn; try done. lia.
Qed.

(** C22: Opening an unsealed extent whose last write was torn at any byte truncates the torn block
    and recovers exactly the complete blocks before it. *)
Theorem OpenExtent_recovers name f id bs b torn cut :
  is_sealed f = false -> is_u64 id -> Forall block_wf bs -> block_wf b ->
  block_bytes b = torn ++ cut -> cut <> [] ->
  content f = header_bytes id ++ blocks_bytes bs ++ torn -> zlen (content f) < 2 ^ 32 ->
  exists ex, OpenExtent name (Some f) = Ok ex /\ extent_inv ex bs /\ ID ex = id /\
    isSeal ex = 0 /\ seal_attr (file ex) = seal_attr f.
Proof.
  intros Hs Hid Hwf Hb Ht Hcut Hc Hlen.
  destruct (readBlock_torn (content f) (512 + blocks_size bs) (header_bytes id ++ blocks_bytes bs)
    b torn cut Hb Ht Hcut) as (e & He & _).
  { by rewrite <- app_assoc. }
  { by rewrite zlen_app, zlen_header_bytes, zlen_blocks_bytes. }
  destruct (OpenExtent_prefix name f id bs torn) as (ex & ? & ? & ? & ? & ? & ?); eauto 10.
Qed.

(** *** Sealing *)

Definition seal_true : bytes := [Byte.x74; Byte.x72; Byte.x75; Byte.x65].

Lemma Seal_ok ex bs cs :
  extent_inv ex (bs ++ cs) -> mutex ex = newMutex -> writable ex = true ->
  Seal ex (512 + blocks_size bs) None =
    Ok (mkExtent newMutex 1 (commitLength ex) (ID ex) (fileName ex)
          (mkFile (header_bytes (ID ex) ++ blocks_bytes bs) (Some seal_true)) true, None).
Proof.
  intros Hinv Hm Hw. destruct Hinv as [Hc Hwf Hcl Hb Hid].
  apply Forall_app in Hwf as [Hwf1 Hwf2].
  rewrite blocks_size_app in Hcl. pose proof (blocks_size_nonneg cs Hwf2).
  unfold Seal. rewrite Hm, Hw. cbn [Lock newMutex assert writer readers Z.add Z.eqb obind].
  destruct (Z.ltb_spec (commitLength ex) (512 + blocks_size bs)); [lia|].
  rewrite andb_true_r. rewrite blocks_bytes_app, app_assoc in Hc.
  destruct (Z.ltb_spec (512 + blocks_size bs) (commitLength ex)).
  - rewrite (Truncate_app _ _ _ _ Hc) by
      (rewrite zlen_app, zlen_header_bytes, zlen_blocks_bytes; done). done.
  - assert (cs = []) as ->.
    { destruct cs as [|b cs]; [done|]. pose proof (blocks_size_pos _ Hwf2 ltac:(done)). lia. }
    rewrite app_nil_r in Hc. rewrite Hc. done.
Qed.

(** C25: Seal at a block boundary cuts the extent there for good: later appends are refused, the
    seal survives reopening, and the reopened extent holds the blocks kept; the running extent's
    CommitLength is not updated. *)
Theorem Seal_freezes ex bs cs :
  extent_inv ex (bs ++ cs) -> mutex ex = newMutex -> writable ex = true ->
  exists ex', Seal ex (512 + blocks_size bs) None = Ok (ex', None) /\
    IsSeal ex' = true /\ mutex ex' = newMutex /\ CommitLength ex' = CommitLength ex /\
    content (file ex') = header_bytes (ID ex) ++ blocks_bytes bs /\
    (forall m blocks lastCommit flts, AlreadyLocked m = true ->
       AppendBlocks (with_lock ex' m) blocks lastCommit flts =
         Ok (with_lock ex' m, inr (Errorf "immuatble"))) /\
    (forall name, exists ex'', OpenExtent name (Some (file ex')) = Ok ex'' /\
       extent_inv ex'' bs /\ IsSeal ex'' = true /\ ID ex'' = ID ex).
Proof.
  intros Hinv Hm Hw. eexists. split; [by apply (Seal_ok ex bs cs)|].
  repeat (split; [done|]). split.
  - intros m blocks lastCommit flts Hl. unfold AppendBlocks, AssertLock. cbn [mutex with_lock].
    rewrite Hl. done.
  - intros name. destruct Hinv as [Hc Hwf Hcl Hb Hid]. apply Forall_app in Hwf as [Hwf1 Hwf2].
    rewrite blocks_size_app in Hcl. pose proof (blocks_size_nonneg cs Hwf2).
    pose proof (blocks_size_nonneg bs Hwf1).
    cbn [file content]. unfold OpenExtent.
    change (is_sealed _) with true. cbn [content].
    rewrite zlen_app, zlen_header_bytes, zlen_blocks_bytes, header_roundtrip by done.
    unfold MaxUint32. destruct (Z.ltb_spec (2 ^ 32 - 1) (512 + blocks_size bs)); [lia|].
    cbn [obind]. eexists. split; [done|]. rewrite u32_small by lia.
    split; [|done]. split; try done. cbn. lia.
Qed.

(** *** Replay terminates: the fuel of the model is never used up *)

Lemma ReadFull_bound c pos n r : 0 <= pos -> 0 < n -> ReadFull c pos n = Ok r -> pos + n <= zlen c.
Proof.
  intros Hp Hn. unfold ReadFull. destruct (Z.leb_spec n 0); [lia|].
  destruct (Z.leb_spec n (zlen (zdrop pos c))); [|by destruct (_ =? _)]. intros _.
  destruct (Z.le_gt_cases pos (zlen c)); [rewrite zlen_zdrop in *; lia|].
  rewrite zdrop_ge, zlen_nil in * by lia. lia.
Qed.

Lemma uvarint_loop_nonneg buf : forall i x s, 0 <= x -> 0 <= s -> 0 <= fst (uvarint_loop i x s buf).
Proof.
  induction buf as [|b buf IH]; intros i x s Hx Hs; [done|]. unfold uvarint_loop; fold uvarint_loop.
  pose proof (byte_Z_range b).
  destruct (i =? 10); [cbn [fst]; lia|]. destruct (byte_Z b <? 128).
  - destruct (_ && _); cbn [fst]; [lia|].
    apply Z.lor_nonneg. split; [done|]. apply Z.shiftl_nonneg. lia.
  - apply IH; [|lia]. apply Z.lor_nonneg. split; [done|]. apply u64_range.
Qed.

Lemma read_raw_Ok_inv c pos ck bl u d pos' : 0 <= pos ->
  read_raw OsFile c pos = Ok (ck, bl, u, d, pos') -> pos + 1024 <= pos' <= zlen c /\ 512 <= bl.
Proof.
  intros Hp H. unfold read_raw in H. apply obind_Ok_inv in H as (buf & Hb & H).
  apply obind_Ok_inv in H as ([[ck' bl'] u'] & Hs & H).
  destruct (maxAlloc <? bl'); [done|]. apply obind_Ok_inv in H as (data & Hd & H).
  destruct (negb (AdlerCheckSum data =? ck')); [done|].
  destruct (align bl') eqn:Ha; [|done]. cbn [negb advance] in H. simplify_eq.
  assert (0 <= bl).
  { unfold parse_sector in Hs. apply obind_Ok_inv in Hs as (b & _ & Hs).
    pose proof (uvarint_loop_nonneg b 0 0 0 ltac:(done) ltac:(done)) as Hn.
    unfold Uvarint in Hs. destruct (uvarint_loop 0 0 0 b) as [v n].
    apply obind_Ok_inv in Hs as (? & _ & Hs). by simplify_eq. }
  apply align_spec in Ha as [Ha _]; [|done].
  cbn [advance] in Hd. revert Hd. destruct (ReadFull c (pos + 512) bl) as [d'|[]|] eqn:Hd'; try done. intros _.
  apply ReadFull_bound in Hd'; lia.
Qed.

Lemma readBlock_Ok_inv c pos b pos' : 0 <= pos -> zlen c < 2 ^ 32 ->
  readBlock OsFile c pos = Ok (b, pos') -> pos' = pos + block_size b /\ pos + 1024 <= pos' <= zlen c.
Proof.
  intros Hp Hc H. unfold readBlock in H. apply obind_Ok_inv in H as ([[[[ck bl] u] d] p] & Hr & H).
  simplify_eq. pose proof Hr as [Hb Hl]%read_raw_Ok_inv; [|done]. unfold read_raw in Hr. apply obind_Ok_inv in Hr as (buf & _ & Hr).
  apply obind_Ok_inv in Hr as ([[ck' bl'] u'] & _ & Hr). destruct (maxAlloc <? bl'); [done|]. apply obind_Ok_inv in Hr as (data & _ & Hr).
  destruct (negb _); [done|]. destruct (negb _); [done|]. cbn [advance] in Hr. simplify_eq. unfold block_size. cbn [BlockLength].
  rewrite u32_small by lia. split; lia.
Qed.

(** what a round of the loop leaves *)
Lemma open_loop_ends fuel : forall f pos, 512 <= pos <= zlen (content f) -> zlen (content f) < 2 ^ 32 -> zlen (content f) < pos + 1024 * Z.of_nat fuel ->
  exists r, open_loop fuel f (zlen (content f)) pos pos = Some r /\
    (r = Panic \/ exists off f', r = Ok (off, f') /\ pos <= off <= zlen (content f) /\ f' = mkFile (ztake off (content f)) (seal_attr f)) /\
    forall fuel', (fuel <= fuel')%nat -> open_loop fuel' f (zlen (content f)) pos pos = Some r.
Proof.
  induction fuel as [|fuel IH]; intros f pos Hp Hc Hf; [lia|].
  assert (forall r, (forall k, open_loop (S k) f (zlen (content f)) pos pos = Some r) -> forall fuel', (S fuel <= fuel')%nat -> open_loop fuel' f (zlen (content f)) pos pos = Some r) as Hnow
    by (intros r Hr [|fuel'] Hle; [lia|apply Hr]).
  destruct (pos <? zlen (content f)) eqn:Elt; [apply Z.ltb_lt in Elt as Hlt|apply Z.ltb_ge in Elt as Hge].
  2: { exists (Ok (pos, f)). cbn [open_loop]. rewrite Elt. split; [done|]. split; [|apply Hnow; intros k; cbn [open_loop]; by rewrite Elt].
       right. exists pos, f. split; [done|]. split; [lia|]. rewrite ztake_ge by lia. by destruct f. }
  destruct (readBlock OsFile (content f) pos) as [[b pos']|e|] eqn:Hr.
  - apply readBlock_Ok_inv in Hr as Hb; [|lia|done]. destruct Hb as [Hb Hb']. destruct (IH f pos' ltac:(lia) Hc ltac:(lia)) as (r & E & Hres & Hmore).
    assert (u32 (pos + u32 (BlockLength b + 512)) = pos') as Eoff by (unfold block_size in Hb; rewrite (u32_small (BlockLength b + 512)), u32_small by lia; lia).
    exists r. cbn [open_loop]. rewrite Elt, Hr, Eoff. split; [done|]. split.
    + destruct Hres as [->|(off & f' & -> & Ho & ->)]; [by left|right]. exists off, (mkFile (ztake off (content f)) (seal_attr f)). split; [done|]. split; [lia|done].
    + intros [|fuel'] Hle; [lia|]. cbn [open_loop]. rewrite Elt, Hr, Eoff. apply Hmore. lia.
  - exists (Ok (pos, Truncate f pos)). cbn [open_loop]. rewrite Elt, Hr. split; [done|]. split; [|apply Hnow; intros k; cbn [open_loop]; by rewrite Elt, Hr].
    right. exists pos, (Truncate f pos). split; [done|]. split; [lia|]. unfold Truncate. unfold zrep. replace (Z.to_nat (pos - zlen (content f))) with 0%nat by lia. cbn [replicate]. by rewrite app_nil_r.
  - exists Panic. cbn [open_loop]. rewrite Elt, Hr. split; [done|]. split; [by left|]. apply Hnow. intros k. cbn [open_loop]. by rewrite Elt, Hr.
Qed.

(** C33: The recovery loop of OpenExtent ends on every content of an unsealed file with a header and
    less than 4 GB: after at most one round per 1024 bytes of the file and one more it has returned,
    with the file cut at the offset it returns (and that offset within the file), or a broken block
    header has made the reader panic; and OpenExtent, once the header is accepted, answers with
    exactly that. *)
Theorem OpenExtent_replay_terminates f : 512 <= zlen (content f) < 2 ^ 32 ->
  exists r, (forall fuel, zlen (content f) / 1024 < Z.of_nat fuel -> open_loop fuel f (zlen (content f)) 512 512 = Some r) /\
    (r = Panic \/ exists offset, r = Ok (offset, mkFile (ztake offset (content f)) (seal_attr f)) /\ 512 <= offset <= zlen (content f)) /\
    forall name, is_sealed f = false -> OpenExtent name (Some f) =
      (let! id := extentHeader_Unmarshal (content f) in let! (offset, f) := r in Ok (mkExtent newMutex 0 offset id name f true)).
Proof.
  intros Hc. pose proof (Z.div_pos (zlen (content f)) 1024 ltac:(lia) ltac:(lia)) as Hd. pose proof (Z.div_mod (zlen (content f)) 1024 ltac:(lia)) as Hm. pose proof (Z.mod_pos_bound (zlen (content f)) 1024 ltac:(lia)) as Hb.
  destruct (open_loop_ends (S (Z.to_nat (zlen (content f) / 1024))) f 512) as (r & _ & Hr & Hall); [lia|lia|lia|]. exists r.
  assert (forall fuel, zlen (content f) / 1024 < Z.of_nat fuel -> open_loop fuel f (zlen (content f)) 512 512 = Some r) as Hany by (intros fuel Hf; apply Hall; lia).
  split; [done|]. split.
  - destruct Hr as [->|(off & f' & -> & Ho & ->)]; [by left|right]. by exists off.
  - intros name Hs. unfold OpenExtent. rewrite Hs, u32_small by lia. destruct (extentHeader_Unmarshal (content f)); cbn [obind]; [|done|done].
    rewrite Hany; [done|]. unfold zlen in *. lia.
Qed.

(** *** Reading log entries *)

Section ReadEntries.
Variables (id : Z) (replay : bool) (info : Block -> Z -> list EntryInfo).

(** what [block_entries] yields for the blocks of interest *)
Definition yields (bs : list Block) : Prop :=
  Forall (fun b => forall off,
    block_entries id off (BlockLength b) replay (UserData b) (Data b) = Ok (info b off)) bs.

(** the sum of the sizes of everything that can be returned *)
Fixpoint infos_size (off : Z) (bs : list Block) : Z :=
  match bs with
  | [] => 0
  | b :: bs => sizeOfEntries (info b off) + infos_size (off + block_size b) bs
  end.

(** reference reader: whole blocks until the size limit is exceeded *)
Fixpoint take_entries (max size off : Z) (bs : list Block) : list EntryInfo * Z * bool :=
  match bs with
  | [] => ([], off, true)
  | b :: bs =>
      let es := info b off in
      let size := size + sizeOfEntries es in
      let off := off + block_size b in
      if max <? size then (es, off, false)
      else let '(r, o, e) := take_entries max size off bs in (es ++ r, o, e)
  end.

Definition infos_nonneg : Prop := forall b off, 0 <= sizeOfEntries (info b off).

Lemma infos_size_nonneg off bs : infos_nonneg -> 0 <= infos_size off bs.
Proof.
  intros H. revert off. induction bs as [|b bs IH]; intros off; cbn; [lia|].
  specialize (IH (off + block_size b)). pose proof (H b off). lia.
Qed.

Lemma read_entries_loop_ok bs : forall fuel ex max offset size ret,
  yields bs -> infos_nonneg -> Forall block_wf bs -> ID ex = id ->
  blocks_at (content (file ex)) offset bs ->
  zlen (content (file ex)) < 2 ^ 32 -> 0 <= offset -> 0 <= size ->
  size + infos_size offset bs < 2 ^ 32 -> (length bs < fuel)%nat ->
  read_entries_loop fuel ex max replay offset size ret =
    (let '(r, o, e) := take_entries max size offset bs in
     Ok (ret ++ r, o, if e then Some (at_end ex) else None)).
Proof.
  induction bs as [|b bs IH]; intros [|fuel] ex max offset size ret Hy Hnn Hwf Hid Hat Hlen Ho Hs Hsz Hf;
    cbn in Hf; try lia; cbn [read_entries_loop take_entries].
  - destruct Hat as (pre & Hc & Hp). unfold readBlockEntries, read_raw.
    rewrite (ReadFull_short _ offset 512 pre []) by done. cbn. by rewrite app_nil_r.
  - apply Forall_cons in Hwf as [Hwf Hwfs], Hy as [Hy Hys].
    pose proof (blocks_at_cons _ _ _ _ Hwf Hat) as Hat'.
    destruct Hat as (pre & Hc & Hp). rewrite blocks_bytes_cons in Hc.
    unfold readBlockEntries. rewrite (read_raw_ok BlockReader _ offset pre b (blocks_bytes bs)) by done.
    cbn [obind]. rewrite Hid, Hy. cbn [obind].
    pose proof (block_wf_length b Hwf). pose proof (wf_u32 b Hwf).
    pose proof (zlen_nonneg (blocks_bytes bs)). pose proof (Hnn b offset).
    pose proof (infos_size_nonneg (offset + block_size b) bs Hnn).
    cbn [infos_size] in Hsz. pose proof Hlen as Hlen'.
    rewrite Hc, !zlen_app, zlen_block_bytes in Hlen' by done. unfold block_size in Hlen'.
    rewrite (u32_small (BlockLength b)), (u32_small (BlockLength b + 512)), (u32_small (offset + _)),
      (u32_small (size + _)) by lia. fold (block_size b).
    destruct (max <? size + sizeOfEntries (info b offset)); [done|].
    rewrite (IH fuel ex max (offset + block_size b)) by (done || unfold block_size in *; lia).
    destruct (take_entries _ _ _ bs) as [[r o] e]. by rewrite app_assoc.
Qed.

Lemma ReadEntries_at ex bs cs max :
  extent_inv ex (bs ++ cs) -> cs <> [] -> ID ex = id -> yields cs -> infos_nonneg ->
  infos_size (512 + blocks_size bs) cs < 2 ^ 32 ->
  ReadEntries ex (512 + blocks_size bs) max replay =
    (let '(r, o, e) := take_entries max 0 (512 + blocks_size bs) cs in
     Ok (r, o, if e then Some (at_end ex) else None)).
Proof.
  intros Hinv Hne Hid Hy Hnn Hsz. pose proof (extent_inv_at ex bs cs Hinv) as Hat.
  pose proof (extent_inv_length _ _ Hinv) as Hlen. destruct Hinv as [Hc Hwf Hcl Hb Hi].
  apply Forall_app in Hwf as [Hwf1 Hwf2]. rewrite blocks_size_app in Hcl.
  pose proof (blocks_size_nonneg bs Hwf1).
  pose proof (blocks_size_pos cs Hwf2 Hne).
  unfold ReadEntries. destruct (Z.eqb_spec (512 + blocks_size bs) 0); [lia|].
  destruct (Z.leb_spec (commitLength ex) (512 + blocks_size bs)); [lia|].
  rewrite (read_entries_loop_ok cs) by
    (done || lia || (rewrite Hc, blocks_bytes_app, !length_app; pose proof (length_blocks cs Hwf2); lia)).
  done.
Qed.
End ReadEntries.

(** *** Two gaps in [writeBlock] *)

Definition zero_block (len : Z) : Block :=
  let d := zrep 512 Byte.x00 in mkBlock (AdlerCheckSum d) len [] d.
Definition locked_extent : Extent :=
  mkExtent (mkMutex 1 0) 0 512 1 "e" (mkFile (header_bytes 1) None) true.

(** A short write of a block's metadata sector is not reported: AppendBlocks returns success
    and moves commitLength although the block cannot be read back. *)
Theorem writeBlock_ignores_sector_error :
  exists ex', AppendBlocks locked_extent [zero_block 512] None [(Some 100, None)] =
      Ok (ex', inl [512]) /\
    commitLength ex' = 1536 /\ zlen (content (file ex')) = 1124 /\
    ReadBlocks ex' 512 1 4096 <> Ok ([zero_block 512], None).
Proof. eexists. split; [vm_compute; reflexivity|]. vm_compute. repeat split; discriminate. Qed.

(** A block whose data is shorter than its BlockLength is accepted and committed, and reading
    it back fails. *)
Theorem writeBlock_trusts_BlockLength :
  exists ex', AppendBlocks locked_extent [zero_block 1024] None [] = Ok (ex', inl [512]) /\
    commitLength ex' = 2048 /\ zlen (content (file ex')) = 1536 /\
    ReadBlocks ex' 512 1 4096 = Ok ([], Some ErrUnexpectedEOF).
Proof. eexists. split; [vm_compute; reflexivity|]. vm_compute. repeat split. Qed.
