(* ===== verification/MixBlock.v ===== *)
(** streamclient/mix_block.go: packing log entries into blocks. Small entries
    share 4 KiB blocks whose user data lists the entry boundaries; a large
    entry gets a block of its own. *)
From Stdlib Require Import ZArith Lia Sorting.Permutation.
From stdpp Require Import base option list numbers strings sorting.
From S2P Require Import Prelude GoLib Utils Proto ProtoPs Keys Extent.

Definition KB : Z := 1024.
Definition MaxMixedBlockSize : Z := 4 * KB.
Definition MaxEntriesInBlock : Z := 100.

(** [sort.Slice] with a comparison of integer keys: some permutation in
    non-decreasing order; it is not stable. *)
Class SortSlice := {
  sort_slice : forall {A} (key : A -> Z), list A -> list A;
  sort_slice_perm : forall {A} (key : A -> Z) l, Permutation l (sort_slice key l);
  sort_slice_sorted : forall {A} (key : A -> Z) l,
    Sorted (fun x y => key x <= key y) (sort_slice key l);
  (** only the comparisons decide, not what is moved *)
  sort_slice_fmap : forall {A B} (f : A -> B) (key : B -> Z) l,
    sort_slice key (f <$> l) = f <$> sort_slice (fun a => key (f a)) l }.

(** ** mixedBlock *)

Record mixedBlock := mkMB { offsets : MixedLog; data : bytes; tail : Z }.
Definition NewMixedBlock : mixedBlock := mkMB [] (zrep MaxMixedBlockSize Byte.x00) 0.

Definition CanFill (mb : mixedBlock) (entry : Entry) : bool :=
  negb ((MaxMixedBlockSize <? tail mb + Entry_Size entry) ||
        (MaxEntriesInBlock <=? zlen (offsets mb))).

Definition Fill (mb : mixedBlock) (entry : Entry) : outcome (mixedBlock * Z) :=
  let offs := offsets mb ++ [u32 (tail mb)] in
  let! rest := slice_from (data mb) (tail mb) in
  let! (d, _) := Entry_MarshalTo entry rest in
  let offset := tail mb in
  Ok (mkMB offs (ztake (tail mb) (data mb) ++ d) (tail mb + Entry_Size entry), u32 offset).

Definition ToBlock (mb : mixedBlock) : outcome Block :=
  let offs := offsets mb ++ [u32 (tail mb)] in
  let! userData := MixedLog_Marshal offs in
  Ok (mkBlock (AdlerCheckSum (data mb)) (u32 MaxMixedBlockSize) userData (data mb)).

(** ** entriesToBlocks *)

(** the first loop: blocks so far, the open block, and the entries left *)
Fixpoint merge_loop (entries : list EntryInfo) (mblock : option mixedBlock) (blocks : list Block)
    : outcome (list Block * option mixedBlock * list EntryInfo) :=
  match entries with
  | [] => Ok (blocks, mblock, [])
  | e :: rest =>
      if negb (ShouldWriteValueToLSM (Log e)) then Ok (blocks, mblock, entries) else
      let mb := match mblock with Some mb => mb | None => NewMixedBlock end in
      let! (blocks, mb) :=
        (if negb (CanFill mb (Log e))
         then let! b := ToBlock mb in Ok (blocks ++ [b], NewMixedBlock)
         else Ok (blocks, mb)) in
      let! (mb, _) := Fill mb (Log e) in
      merge_loop rest (Some mb) blocks
  end.

(** the block of one large entry *)
Definition value_block (entry : Entry) : outcome Block :=
  let! blockLength := Ceil (u32 (Entry_Size entry)) 512 in
  let d := zrep blockLength Byte.x00 in
  let! (d, _) := Entry_MarshalTo entry d in
  let! userData := MixedLog_Marshal [0; u32 (Entry_Size entry)] in
  Ok (mkBlock (AdlerCheckSum d) blockLength userData d).

Fixpoint value_loop (entries : list EntryInfo) (blocks : list Block) : outcome (list Block) :=
  match entries with
  | [] => Ok blocks
  | e :: rest => let! b := value_block (Log e) in value_loop rest (blocks ++ [b])
  end.

(** [entriesToBlocks]: the slice as sorted in place, the blocks, and the
    indices of the first large entry and of its block *)
Definition entriesToBlocks `{SortSlice} (entries : list EntryInfo)
    : outcome (list EntryInfo * list Block * Z * Z) :=
  assert (negb (zlen entries =? 0)) (
  let entries := sort_slice (fun e => zlen (Value (Log e))) entries in
  let! (blocks, mblock, rest) := merge_loop entries None [] in
  let! blocks := match mblock with
                 | Some mb => let! b := ToBlock mb in Ok (blocks ++ [b])
                 | None => Ok blocks
                 end in
  let j := zlen entries - zlen rest in
  let k := zlen blocks in
  let! blocks := value_loop rest blocks in
  Ok (entries, blocks, j, k)).

(** merge sort is one [sort.Slice] *)
Definition key_le {A} (key : A -> Z) (x y : A) : Prop := key x <= key y.
#[export] Instance key_le_dec {A} (key : A -> Z) : RelDecision (key_le key).
Proof. intros x y. unfold key_le. apply _. Defined.
#[export] Instance key_le_total {A} (key : A -> Z) : Total (key_le key).
Proof. intros x y. unfold key_le. lia. Qed.
Section MergeFmap.
Context {A B : Type} (f : A -> B) (key : B -> Z).
Lemma list_merge_fmap l1 : forall l2,
  list_merge (key_le key) (f <$> l1) (f <$> l2) = f <$> list_merge (key_le (fun a => key (f a))) l1 l2.
Proof.
  induction l1 as [|x l1 IH1]; intros l2; [by destruct l2|]. induction l2 as [|y l2 IH2]; [done|].
  rewrite !fmap_cons. cbn [list_merge].
  destruct (decide (key_le key (f x) (f y))) as [H|H], (decide (key_le (fun a => key (f a)) x y)) as [H'|H'];
    try (exfalso; unfold key_le in *; lia); rewrite fmap_cons; f_equal; [apply (IH1 (y :: l2))|apply IH2].
Qed.
Definition fmap_stack (st : list (option (list A))) : list (option (list B)) :=
  (fun o : option (list A) => (fun l : list A => f <$> l) <$> o) <$> st.
Lemma merge_stack_fmap st :
  merge_stack (key_le key) (fmap_stack st) = f <$> merge_stack (key_le (fun a => key (f a))) st.
Proof.
  unfold fmap_stack. induction st as [|[l|] st IH]; [done| |done]. rewrite fmap_cons. cbn [merge_stack fmap option_fmap option_map].
  rewrite IH. apply list_merge_fmap.
Qed.
Lemma merge_list_to_stack_fmap st : forall l,
  merge_list_to_stack (key_le key) (fmap_stack st) (f <$> l) =
    fmap_stack (merge_list_to_stack (key_le (fun a => key (f a))) st l).
Proof.
  unfold fmap_stack. induction st as [|[l'|] st IH]; intros l; [done| |done].
  rewrite fmap_cons. cbn [merge_list_to_stack fmap option_fmap option_map]. rewrite fmap_cons. f_equal.
  rewrite <- IH. by rewrite list_merge_fmap.
Qed.
Lemma merge_sort_aux_fmap l : forall st,
  merge_sort_aux (key_le key) (fmap_stack st) (f <$> l) =
    f <$> merge_sort_aux (key_le (fun a => key (f a))) st l.
Proof.
  induction l as [|x l IH]; intros st; [apply merge_stack_fmap|]. rewrite fmap_cons. cbn [merge_sort_aux].
  rewrite <- IH. f_equal. apply (merge_list_to_stack_fmap st [x]).
Qed.
End MergeFmap.

#[export] Program Instance merge_SortSlice : SortSlice := {|
  sort_slice A key l := merge_sort (key_le key) l |}.
Next Obligation. intros. symmetry. apply merge_sort_Permutation. Qed.
Next Obligation. intros. apply (Sorted_merge_sort (key_le key)). Qed.
Next Obligation. intros A B f key l. apply (merge_sort_aux_fmap f key l []). Qed.

(** ** The layout of a log block *)

Definition entries_bytes (es : list Entry) : bytes := mjoin (Entry_bytes <$> es).

(** start offsets of the entries, and the end of the last *)
Fixpoint starts (base : Z) (es : list Entry) : list Z :=
  match es with
  | [] => []
  | e :: es => base :: starts (base + Entry_Size e) es
  end.
Definition entries_size (es : list Entry) : Z := foldr (fun e n => Entry_Size e + n) 0 es.
Definition bounds (base : Z) (es : list Entry) : list Z :=
  starts base es ++ [base + entries_size es].

(** [b] stores exactly the entries [es] *)
Record log_block (es : list Entry) (b : Block) : Prop := mk_log_block {
  lb_user : UserData b = MixedLog_bytes (bounds 0 es);
  lb_data : exists pad, Data b = entries_bytes es ++ pad;
  lb_wf : Forall Entry_wf es;
  lb_size : entries_size es < 2 ^ 32 }.

Lemma Entry_Size_nonneg e : Entry_wf e -> 0 <= Entry_Size e.
Proof. intros. rewrite Entry_Size_bytes by done. apply zlen_nonneg. Qed.
Lemma entries_size_nonneg es : Forall Entry_wf es -> 0 <= entries_size es.
Proof. induction 1 as [|e es He _ IH]; cbn; [done|]. pose proof (Entry_Size_nonneg e He). fold (entries_size es). lia. Qed.
Lemma zlen_entries_bytes es : Forall Entry_wf es -> zlen (entries_bytes es) = entries_size es.
Proof.
  induction 1 as [|e es He _ IH]; [done|].
  change (entries_bytes (e :: es)) with (Entry_bytes e ++ entries_bytes es).
  rewrite zlen_app, IH, <- Entry_Size_bytes by done. done.
Qed.
Lemma entries_size_app es fs : entries_size (es ++ fs) = entries_size es + entries_size fs.
Proof. induction es as [|e es IH]; [done|]. cbn. fold (entries_size (es ++ fs)) (entries_size es). lia. Qed.
Lemma entries_bytes_app es fs : entries_bytes (es ++ fs) = entries_bytes es ++ entries_bytes fs.
Proof. unfold entries_bytes. by rewrite fmap_app, join_app. Qed.
Lemma starts_app base es fs : starts base (es ++ fs) = starts base es ++ starts (base + entries_size es) fs.
Proof.
  revert base. induction es as [|e es IH]; intros base; cbn; [by rewrite Z.add_0_r|].
  fold (entries_size es). rewrite IH. do 3 f_equal. lia.
Qed.
Lemma zlen_starts base es : zlen (starts base es) = zlen es.
Proof. revert base. induction es; intros; cbn [starts]; [done|]. rewrite !zlen_cons, IHes. done. Qed.
Lemma bounds_cons base e es : bounds base (e :: es) = base :: bounds (base + Entry_Size e) es.
Proof. unfold bounds. cbn. fold (entries_size es). by rewrite Z.add_assoc. Qed.

Lemma bounds_range base es : Forall Entry_wf es -> 0 <= base ->
  Forall (fun o => base <= o <= base + entries_size es) (bounds base es).
Proof.
  intros Hwf. revert base. induction Hwf as [|e es He Hes IH]; intros base Hb.
  - repeat constructor; cbn; lia.
  - rewrite bounds_cons. cbn. fold (entries_size es).
    pose proof (Entry_Size_nonneg e He). pose proof (entries_size_nonneg es Hes).
    constructor; [lia|]. eapply Forall_impl; [apply (IH (base + Entry_Size e)); lia|]. cbn. intros. lia.
Qed.

Lemma bounds_head base es : exists l, bounds base es = base :: l.
Proof. destruct es; [cbn; rewrite Z.add_0_r; eauto|rewrite bounds_cons; eauto]. Qed.

Lemma zlen_bounds base es : zlen (bounds base es) = zlen es + 1.
Proof. unfold bounds. by rewrite zlen_app, zlen_starts. Qed.

Lemma bounds_packable es : Forall Entry_wf es -> entries_size es < 2 ^ 32 -> zlen es < 2 ^ 39 ->
  is_packable (bounds 0 es).
Proof.
  intros Hwf Hs Hl. split; [|rewrite zlen_bounds; lia].
  eapply Forall_impl; [by apply bounds_range|]. cbn. unfold is_u32. lia.
Qed.

(** ** Reading a log block back *)

Lemma slice_entry (pre pad : bytes) e es base : Entry_wf e -> zlen pre = base ->
  base + Entry_Size e < 2 ^ 32 ->
  slice (pre ++ entries_bytes (e :: es) ++ pad) base (u32 (base + u32 (base + Entry_Size e - base))) =
    Ok (Entry_bytes e).
Proof.
  intros He <- Hs. pose proof (zlen_nonneg pre). pose proof (Entry_Size_nonneg e He).
  change (entries_bytes (e :: es)) with (Entry_bytes e ++ entries_bytes es).
  pose proof (Entry_Size_bytes e He) as Hz. pose proof (zlen_nonneg (entries_bytes es)).
  pose proof (zlen_nonneg pad).
  rewrite (u32_small (_ - _)), u32_small by lia.
  rewrite slice_Ok by (rewrite ?zlen_app; lia). f_equal.
  rewrite zdrop_app_exact by done. rewrite <- app_assoc. apply ztake_app_exact. lia.
Qed.

(** the boundary list unfolds to two neighbours and a tail *)
Lemma bounds_two base e es : exists l, bounds base (e :: es) = base :: (base + Entry_Size e) :: l /\
  bounds (base + Entry_Size e) es = (base + Entry_Size e) :: l.
Proof.
  destruct (bounds_head (base + Entry_Size e) es) as [l Hl]. exists l.
  by rewrite bounds_cons, Hl.
Qed.

Lemma entries_bytes_step (pre : bytes) e es pad :
  pre ++ entries_bytes (e :: es) ++ pad = (pre ++ Entry_bytes e) ++ entries_bytes es ++ pad.
Proof.
  change (entries_bytes (e :: es)) with (Entry_bytes e ++ entries_bytes es). by rewrite <- !app_assoc.
Qed.

Lemma extract_loop_cons d o o' l : extract_loop d (o :: o' :: l) =
  (let! b := slice d o (u32 (o + u32 (o' - o))) in
   match Entry_Unmarshal b with
   | Ok e => let! es := extract_loop d (o' :: l) in Ok (e :: es)
   | _ => Panic
   end).
Proof. done. Qed.

Lemma extract_loop_bounds es : forall base pre pad, Forall Entry_wf es -> zlen pre = base ->
  base + entries_size es < 2 ^ 32 ->
  extract_loop (pre ++ entries_bytes es ++ pad) (bounds base es) = Ok es.
Proof.
  induction es as [|e es IH]; intros base pre pad Hwf Hp Hs; [done|].
  apply Forall_cons in Hwf as [He Hes]. cbn [entries_size foldr] in Hs. fold (entries_size es) in Hs.
  pose proof (entries_size_nonneg es Hes). pose proof (Entry_Size_nonneg e He).
  destruct (bounds_two base e es) as (l & Hb & Hb'). rewrite Hb, extract_loop_cons.
  rewrite (slice_entry pre pad e es base) by (done || lia). cbn [obind].
  rewrite Entry_Unmarshal_bytes by done. rewrite <- Hb', entries_bytes_step, IH; [done|done| |lia].
  rewrite zlen_app, <- Entry_Size_bytes by done. lia.
Qed.

Lemma ExtractLogEntry_log es b : log_block es b -> zlen es < 2 ^ 39 -> ExtractLogEntry b = Ok es.
Proof.
  intros [Hu [pad Hd] Hwf Hs] Hl. unfold ExtractLogEntry.
  rewrite Hu, MixedLog_Unmarshal_bytes by by apply bounds_packable.
  rewrite Hd. destruct (bounds_head 0 es) as [l Hb]. rewrite Hb, <- Hb.
  by apply (extract_loop_bounds es 0 [] pad).
Qed.

(** what replay reports for one entry: small ones whole, of large ones the
    place of the block and the key *)
Definition pointer_entry (e : Entry) : Entry :=
  mkEntry (Key e) [] (Z.lor (Meta e) BitValuePointer) (UserMeta e) (ExpiresAt e).
Definition replay_info (id off blockLength : Z) (e : Entry) : EntryInfo :=
  if ShouldWriteValueToLSM e then mkEI e id off (Entry_Size e)
  else mkEI (pointer_entry e) id off (u64 (blockLength + 512)).

(** a block of small entries, or of a single one *)
Definition pure_block (es : list Entry) : Prop :=
  Forall (fun e => ShouldWriteValueToLSM e = true) es \/ length es = 1%nat.

Lemma entries_loop_cons id off bl d offs0 o o' l ret :
  entries_loop id off bl true d offs0 (o :: o' :: l) ret =
  (let! b := slice d o (u32 (o + u32 (o' - o))) in
   match Entry_Unmarshal b with
   | Ok entry =>
       if ShouldWriteValueToLSM entry then
         entries_loop id off bl true d offs0 (o' :: l) (ret ++ [mkEI entry id off (Entry_Size entry)])
       else assert (zlen offs0 =? 2)
              (Ok (ret ++ [mkEI (pointer_entry entry) id off (u64 (bl + 512))]))
   | _ => Panic
   end).
Proof. done. Qed.

Lemma entries_loop_bounds es : forall id off bl base pre pad ret offsets0,
  Forall Entry_wf es -> zlen pre = base -> base + entries_size es < 2 ^ 32 ->
  Forall (fun e => ShouldWriteValueToLSM e = true) es \/ (length es = 1%nat /\ zlen offsets0 = 2) ->
  entries_loop id off bl true (pre ++ entries_bytes es ++ pad) offsets0 (bounds base es) ret =
    Ok (ret ++ (replay_info id off bl <$> es)).
Proof.
  induction es as [|e es IH]; intros id off bl base pre pad ret offsets0 Hwf Hp Hs Hpure.
  { cbn. by rewrite app_nil_r. }
  apply Forall_cons in Hwf as [He Hes]. cbn [entries_size foldr] in Hs. fold (entries_size es) in Hs.
  pose proof (entries_size_nonneg es Hes). pose proof (Entry_Size_nonneg e He).
  destruct (bounds_two base e es) as (l & Hb & Hb'). rewrite Hb, entries_loop_cons.
  rewrite (slice_entry pre pad e es base) by (done || lia). cbn [obind].
  rewrite Entry_Unmarshal_bytes by done. cbn [fmap list_fmap]. unfold replay_info at 1.
  destruct (ShouldWriteValueToLSM e) eqn:Hsm.
  - rewrite <- Hb', entries_bytes_step, IH; [by rewrite <- app_assoc|done| |lia|].
    + rewrite zlen_app, <- Entry_Size_bytes by done. lia.
    + destruct Hpure as [Hf|[H1 _]]; [left; by apply Forall_cons in Hf as []|].
      left. destruct es; [constructor|done].
  - destruct Hpure as [Hf|[H1 H2]]; [apply Forall_cons in Hf as [? _]; congruence|].
    rewrite H2. destruct es; [done|done].
Qed.

Lemma block_entries_log es b id off : log_block es b -> pure_block es -> zlen es < 2 ^ 39 ->
  block_entries id off (BlockLength b) true (UserData b) (Data b) =
    Ok (replay_info id off (BlockLength b) <$> es).
Proof.
  intros [Hu [pad Hd] Hwf Hs] Hp Hl. unfold block_entries.
  rewrite Hu, MixedLog_Unmarshal_bytes by by apply bounds_packable. rewrite Hd.
  rewrite (entries_loop_bounds es id off (BlockLength b) 0 [] pad) by
    (done || (destruct Hp as [?|Hp]; [by left|right; split; [done|rewrite zlen_bounds; unfold zlen; rewrite Hp; done]])).
  done.
Qed.

(** ** Filling blocks *)

(** the state of an open block that holds [es] *)
Record mb_inv (mb : mixedBlock) (es : list Entry) : Prop := mk_mb_inv {
  mb_offsets : offsets mb = starts 0 es;
  mb_tail : tail mb = entries_size es;
  mb_data : data mb = entries_bytes es ++ zrep (MaxMixedBlockSize - entries_size es) Byte.x00;
  mb_wf : Forall Entry_wf es;
  mb_room : entries_size es <= MaxMixedBlockSize;
  mb_count : zlen es <= MaxEntriesInBlock }.

Lemma NewMixedBlock_inv : mb_inv NewMixedBlock [].
Proof. by split. Qed.

Lemma Entry_MarshalTo_ok e (old rest : bytes) : Entry_wf e -> zlen old = Entry_Size e ->
  Entry_MarshalTo e (old ++ rest) = Ok (Entry_bytes e ++ rest, Entry_Size e).
Proof.
  intros He Ho. unfold Entry_MarshalTo. pose proof (Entry_Size_nonneg e He). pose proof (zlen_nonneg rest).
  rewrite slice_Ok by (rewrite ?zlen_app; lia). cbn [obind].
  rewrite Z.sub_0_r, (zdrop_0 0), ztake_app_exact by lia.
  rewrite Entry_MarshalToSizedBuffer_ok by (done || lia). cbn [obind].
  by rewrite zdrop_app_exact.
Qed.

Lemma Fill_ok mb es e : mb_inv mb es -> Entry_wf e -> CanFill mb e = true ->
  exists mb', Fill mb e = Ok (mb', entries_size es) /\ mb_inv mb' (es ++ [e]).
Proof.
  intros [Ho Ht Hd Hwf Hr Hc] He Hcan. unfold CanFill in Hcan.
  apply negb_true_iff, orb_false_iff in Hcan as [H1 H2].
  apply Z.ltb_ge in H1. apply Z.leb_gt in H2. rewrite Ho, zlen_starts in H2. rewrite Ht in H1.
  pose proof (entries_size_nonneg es Hwf). pose proof (Entry_Size_nonneg e He).
  assert (Hz : zlen (entries_bytes es) = entries_size es) by by apply zlen_entries_bytes.
  set (n := MaxMixedBlockSize) in *. assert (n < 2 ^ 32) by done.
  unfold Fill. rewrite Ht, Hd, u32_small by lia.
  rewrite slice_from_Ok by (rewrite zlen_app, zlen_zrep; lia). cbn [obind].
  rewrite zdrop_app_exact, (ztake_app_exact (entries_size es)) by done.
  rewrite (zrep_tail _ _ (Entry_Size e)) by lia.
  rewrite Entry_MarshalTo_ok by (done || (apply zlen_zrep; lia)). cbn [obind].
  eexists. split; [done|]. split; cbn [offsets tail data].
  - rewrite starts_app, Ho. done.
  - rewrite entries_size_app. cbn. lia.
  - rewrite entries_bytes_app, <- app_assoc. f_equal.
    change (entries_bytes [e]) with (Entry_bytes e ++ []). rewrite app_nil_r. do 2 f_equal.
    rewrite entries_size_app. cbn. lia.
  - apply Forall_app. split; [done|]. by constructor.
  - rewrite entries_size_app. cbn. lia.
  - rewrite zlen_app. unfold MaxEntriesInBlock in *. zlia.
Qed.

Lemma packed_small l : Forall (fun o => 0 <= o <= MaxMixedBlockSize) l -> zlen (packed l) <= 2 * zlen l.
Proof.
  induction 1 as [|o l Ho _ IH]; [done|]. rewrite packed_cons, zlen_app, zlen_cons.
  assert (zlen (varint_bytes 10 o) <= 2); [|lia].
  rewrite varint_bytes_put by lia. apply (put_uvarint_bound 10 2); [|lia].
  unfold MaxMixedBlockSize, KB in *. lia.
Qed.

Lemma MixedLog_bytes_small l : Forall (fun o => 0 <= o <= MaxMixedBlockSize) l ->
  1 <= zlen l <= 101 -> zlen (MixedLog_bytes l) <= 213.
Proof.
  intros Hl Hz. unfold MixedLog_bytes. pose proof (packed_small l Hl).
  pose proof (fld_bytes_bound 10 (packed l)). lia.
Qed.

Lemma sector_fits ck bl u d : is_u32 bl -> zlen u <= 213 -> zlen (meta_bytes (mkBlock ck bl u d)) <= 512.
Proof.
  intros Hb Hu. rewrite zlen_meta. cbn [BlockLength UserData]. pose proof (zlen_PutUvarint_u32 bl Hb).
  unfold user_bytes. destruct (Z.ltb_spec 0 (zlen u)); [|rewrite zlen_nil; lia].
  pose proof (zlen_PutUvarint_u32 (zlen u) ltac:(lia)). rewrite zlen_app. lia.
Qed.

(** a finished block: it holds [g], can be appended, and is readable *)
Record good_block (g : list Entry) (b : Block) : Prop := mk_good {
  gb_log : log_block g b; gb_wf : block_wf b; gb_pure : pure_block g; gb_count : zlen g <= MaxEntriesInBlock;
  gb_some : g <> []; gb_len : BlockLength b <= entries_size g + MaxMixedBlockSize }.
Abbreviation smalls := (Forall (fun e => ShouldWriteValueToLSM e = true)).

Lemma ToBlock_ok mb es : mb_inv mb es -> smalls es -> es <> [] ->
  exists b, ToBlock mb = Ok b /\ good_block es b /\ BlockLength b = MaxMixedBlockSize.
Proof.
  intros [Ho Ht Hd Hwf Hr Hc] Hsm Hne. pose proof (entries_size_nonneg es Hwf).
  pose proof (zlen_nonneg es). unfold MaxEntriesInBlock in *.
  assert (MaxMixedBlockSize = 4096) as HM by done.
  unfold ToBlock. rewrite Ho, Ht, u32_small by lia.
  change (starts 0 es ++ [entries_size es]) with (bounds 0 es).
  rewrite MixedLog_Marshal_bytes by (apply bounds_packable; done || lia). cbn [obind].
  assert (zlen (data mb) = 4096) as Hz.
  { rewrite Hd, zlen_app, zlen_entries_bytes, zlen_zrep by (done || lia). lia. }
  eexists. split; [done|]. split; [|done]. split; [| |by left|done|done|cbn [BlockLength]; rewrite u32_small; lia].
  - split; cbn [UserData Data]; try done; [eauto|lia].
  - split; cbn [CheckSum Data BlockLength]; try done.
    apply sector_fits; [done|]. apply MixedLog_bytes_small; [|rewrite zlen_bounds; lia].
    eapply Forall_impl; [by apply bounds_range|]. cbn. lia.
Qed.

Lemma value_block_ok e : Entry_wf e -> 0 < Entry_Size e -> Entry_Size e + 1024 < 2 ^ 32 ->
  exists b, value_block e = Ok b /\ good_block [e] b.
Proof.
  intros He H0 Hs. unfold value_block. rewrite u32_small by lia.
  destruct (Ceil_spec (Entry_Size e) 512) as (c & -> & Hc & Hb); [lia|lia|lia|]. cbn [obind].
  rewrite (zrep_tail _ c (Entry_Size e)) by lia.
  rewrite Entry_MarshalTo_ok by (done || apply zlen_zrep; lia). cbn [obind].
  change [0; Entry_Size e] with ([0] ++ [Entry_Size e]).
  assert (entries_size [e] = Entry_Size e) as Hes by (cbn [entries_size foldr]; lia).
  assert (bounds 0 [e] = [0] ++ [Entry_Size e]) as <- by (unfold bounds; by rewrite Hes).
  assert (Forall Entry_wf [e]) as Hwf by by constructor.
  assert (is_packable (bounds 0 [e])) as Hpk by (apply bounds_packable; done || lia).
  rewrite MixedLog_Marshal_bytes by done. cbn [obind].
  eexists. split; [done|]. split; [| |by right|done|done|cbn [BlockLength]; unfold MaxMixedBlockSize, KB; lia].
  - split; cbn [UserData Data]; try done; [|lia]. eexists.
    change (entries_bytes [e]) with (Entry_bytes e ++ []). by rewrite (app_nil_r (Entry_bytes e)).
  - pose proof (Entry_Size_bytes e He).
    split; cbn [CheckSum Data BlockLength]; try done; try lia.
    + rewrite zlen_app, zlen_zrep by lia. lia.
    + unfold align. rewrite Hc. destruct (Z.eqb_spec c 0); [lia|done].
    + apply sector_fits; [unfold is_u32; lia|]. unfold MixedLog_bytes.
      pose proof (packed_bounds (bounds 0 [e]) ltac:(apply Hpk)) as Hp.
      rewrite zlen_bounds in Hp. change (zlen [e]) with 1 in Hp.
      pose proof (fld_bytes_bound 10 (packed (bounds 0 [e]))). lia.
Qed.

(** ** The loops *)

(** entries that fit: a small one in an empty mixed block, any in a uint32 *)
Definition packable (e : Entry) : Prop :=
  Entry_wf e /\ 0 < Entry_Size e /\ Entry_Size e + 1024 < 2 ^ 32 /\
  (ShouldWriteValueToLSM e = true -> Entry_Size e <= MaxMixedBlockSize).

Definition open_inv (mblock : option mixedBlock) (es : list Entry) : Prop :=
  match mblock with Some mb => mb_inv mb es /\ smalls es /\ es <> [] | None => es = [] end.

Lemma CanFill_new e : packable e -> ShouldWriteValueToLSM e = true -> CanFill NewMixedBlock e = true.
Proof.
  intros (_ & _ & _ & H) Hs. unfold CanFill. cbn [tail offsets NewMixedBlock].
  specialize (H Hs). destruct (Z.ltb_spec MaxMixedBlockSize (0 + Entry_Size e)); [lia|done].
Qed.

Lemma merge_loop_ok entries : forall mblock open blocks,
  Forall (fun e => packable (Log e)) entries -> open_inv mblock open ->
  exists groups new mblock' open' dn rest,
    merge_loop entries mblock blocks = Ok (blocks ++ new, mblock', rest) /\
    entries = dn ++ rest /\ open ++ (Log <$> dn) = mjoin groups ++ open' /\
    Forall2 good_block groups new /\ open_inv mblock' open' /\ smalls (Log <$> dn).
Proof.
  induction entries as [|e entries IH]; intros mblock open blocks Hp Hm.
  { exists [], [], mblock, open, [], []. cbn. rewrite !app_nil_r. by repeat split. }
  cbn [merge_loop]. destruct (ShouldWriteValueToLSM (Log e)) eqn:Hsm; cbn [negb].
  2: { exists [], [], mblock, open, [], (e :: entries). cbn. rewrite !app_nil_r. by repeat split. }
  apply Forall_cons in Hp as [He Hp].
  set (mb := match mblock with Some mb => mb | None => NewMixedBlock end).
  assert (mb_inv mb open /\ smalls open) as [Hmb Hso].
  { subst mb. destruct mblock as [mb|]; [by destruct Hm as (? & ? & _)|]. cbn in Hm. subst open. split; [apply NewMixedBlock_inv|done]. }
  destruct (CanFill mb (Log e)) eqn:Hcan; cbn [negb obind].
  - destruct (Fill_ok mb open (Log e) Hmb ltac:(apply He) Hcan) as (mb' & -> & Hmb'). cbn [obind].
    destruct (IH (Some mb') (open ++ [Log e]) blocks Hp) as (groups & new & m' & o' & dn & rest & Hr & Hd & Hj & Hg & Ho & Hs).
    { split; [done|]. split; [apply Forall_app; split; [done|by constructor]|by destruct open]. }
    exists groups, new, m', o', (e :: dn), rest. rewrite Hr, Hd.
    repeat (split; [done|]). split; [rewrite <- Hj; cbn; by rewrite <- app_assoc|].
    repeat (split; [done|]). by constructor.
  - assert (open <> []) as Hopen.
    { destruct mblock as [mb0|]; [apply Hm|]. subst mb. by rewrite (CanFill_new _ He Hsm) in Hcan. }
    destruct (ToBlock_ok mb open Hmb Hso Hopen) as (b & -> & Hb & _). cbn [obind].
    destruct (Fill_ok NewMixedBlock [] (Log e) NewMixedBlock_inv ltac:(apply He) (CanFill_new _ He Hsm))
      as (mb' & -> & Hmb'). cbn [obind].
    destruct (IH (Some mb') [Log e] (blocks ++ [b]) Hp) as (groups & new & m' & o' & dn & rest & Hr & Hd & Hj & Hg & Ho & Hs).
    { split; [done|]. split; [by constructor|done]. }
    exists (open :: groups), (b :: new), m', o', (e :: dn), rest. rewrite Hr, Hd.
    split; [by rewrite <- app_assoc|]. split; [done|].
    split; [cbn; cbn in Hj; by rewrite Hj, app_assoc|].
    split; [by constructor|]. split; [done|]. by constructor.
Qed.

Lemma value_loop_ok entries : forall blocks, Forall (fun e => packable (Log e)) entries ->
  exists new, value_loop entries blocks = Ok (blocks ++ new) /\
    Forall2 (fun e b => good_block [Log e] b) entries new.
Proof.
  induction entries as [|e entries IH]; intros blocks Hp.
  { exists []. cbn. by rewrite app_nil_r. }
  apply Forall_cons in Hp as [(Hwf & H0 & H1 & _) Hp]. cbn [value_loop].
  destruct (value_block_ok (Log e) Hwf H0 H1) as (b & -> & Hb). cbn [obind].
  destruct (IH (blocks ++ [b]) Hp) as (new & -> & Hn).
  exists (b :: new). rewrite <- app_assoc. split; [done|by constructor].
Qed.

Lemma close_ok mblock open blocks : open_inv mblock open ->
  exists groups new, mjoin groups = open /\ Forall2 good_block groups new /\
    (match mblock with
     | Some mb => let! b := ToBlock mb in Ok (blocks ++ [b])
     | None => Ok blocks
     end) = Ok (blocks ++ new).
Proof.
  destruct mblock as [mb|]; cbn [open_inv].
  - intros (Hm & Hs & Hne). destruct (ToBlock_ok mb open Hm Hs Hne) as (b & -> & Hb & _).
    exists [open], [b]. cbn. rewrite app_nil_r. split; [done|]. split; [by constructor|done].
  - intros ->. exists [], []. rewrite app_nil_r. split; [done|]. by split.
Qed.

Lemma Forall2_singletons entries new :
  Forall2 (fun e b => good_block [Log e] b) entries new ->
  Forall2 good_block ((fun e => [Log e]) <$> entries) new.
Proof. induction 1; by constructor. Qed.

Lemma mjoin_singletons (entries : list EntryInfo) :
  mjoin ((fun e => [Log e]) <$> entries) = Log <$> entries.
Proof.
  induction entries as [|e l IH]; [done|].
  change (Log e :: mjoin ((fun e => [Log e]) <$> l) = Log e :: (Log <$> l)). by rewrite IH.
Qed.

(** Everything about [entriesToBlocks] in terms of the groups of entries the
    blocks hold. *)
Lemma entriesToBlocks_groups `{SortSlice} entries :
  entries <> [] -> Forall (fun e => packable (Log e)) entries ->
  exists sorted groups blocks j k,
    entriesToBlocks entries = Ok (sorted, blocks, j, k) /\
    sorted = sort_slice (fun e => zlen (Value (Log e))) entries /\
    Forall2 good_block groups blocks /\ mjoin groups = Log <$> sorted /\
    0 <= j <= zlen sorted /\ 0 <= k <= zlen blocks /\
    zdrop k groups = (fun e => [Log e]) <$> zdrop j sorted /\
    smalls (Log <$> ztake j sorted).
Proof.
  intros Hne Hp. unfold entriesToBlocks. set (key := fun e => zlen (Value (Log e))).
  pose proof (sort_slice_perm key entries) as Hperm. set (sorted := sort_slice key entries) in *.
  assert (Hps : Forall (fun e => packable (Log e)) sorted) by by rewrite <- Hperm.
  destruct (Z.eqb_spec (zlen entries) 0) as [E|_]; [by apply zlen_0_nil in E|]. cbn [negb assert].
  destruct (merge_loop_ok sorted None [] [] Hps eq_refl)
    as (groups & new & m' & o' & dn & rest & -> & Hd & Hj & Hg & Ho & Hs). cbn [obind app].
  destruct (close_ok m' o' new Ho) as (g2 & n2 & Hg2 & Hf2 & ->). cbn [obind].
  assert (Hpr : Forall (fun e => packable (Log e)) rest).
  { rewrite Hd in Hps. by apply Forall_app in Hps as []. }
  destruct (value_loop_ok rest (new ++ n2) Hpr) as (n3 & -> & Hn3). cbn [obind].
  exists sorted, (groups ++ g2 ++ ((fun e => [Log e]) <$> rest)), ((new ++ n2) ++ n3).
  do 2 eexists. split; [done|]. split; [done|].
  assert (zlen sorted - zlen rest = zlen dn) as -> by (rewrite Hd, zlen_app; lia).
  assert (zlen (new ++ n2) = zlen (groups ++ g2)) as ->.
  { rewrite !zlen_app. apply Forall2_length in Hg, Hf2. unfold zlen. lia. }
  split. { rewrite <- app_assoc. repeat apply Forall2_app; try done. by apply Forall2_singletons. }
  split. { rewrite !join_app, Hg2, mjoin_singletons, app_assoc, <- Hj, Hd, fmap_app. done. }
  split. { rewrite Hd, zlen_app. pose proof (zlen_nonneg dn). pose proof (zlen_nonneg rest). lia. }
  split. { rewrite !zlen_app. apply Forall2_length in Hg, Hf2. unfold zlen. lia. }
  rewrite app_assoc, !zdrop_app_exact by done. rewrite Hd, zdrop_app_exact, ztake_app_exact by done.
  done.
Qed.

(** the space the blocks of some entries take, at most *)
Definition room_for (es : list Entry) : Z :=
  foldr (fun e n => Entry_Size e + (MaxMixedBlockSize + 512) + n) 0 es.
Lemma room_for_app l k : room_for (l ++ k) = room_for l + room_for k.
Proof. unfold room_for. induction l as [|e l IH]; cbn [app foldr]; lia. Qed.
Lemma room_for_perm l k : Permutation l k -> room_for l = room_for k.
Proof. unfold room_for. induction 1; cbn [foldr]; lia. Qed.
Lemma room_for_group g : Forall Entry_wf g ->
  entries_size g <= room_for g /\ (g <> [] -> entries_size g + (MaxMixedBlockSize + 512) <= room_for g).
Proof.
  unfold room_for, entries_size, MaxMixedBlockSize, KB. induction 1 as [|e g He _ [IH _]]; cbn [foldr]; [split; [lia|done]|].
  pose proof (Entry_Size_nonneg e He). split; [|intros _]; lia.
Qed.
Lemma good_blocks_size groups blocks : Forall2 good_block groups blocks -> blocks_size blocks <= room_for (mjoin groups).
Proof.
  induction 1 as [|g b gs bs Hg _ IH]; [done|]. change (mjoin (g :: gs)) with (g ++ mjoin gs). rewrite room_for_app.
  destruct Hg as [[_ _ Hwf _] _ _ _ Hne Hl]. destruct (room_for_group g Hwf) as [_ Hr]. specialize (Hr Hne).
  cbn [blocks_size foldr]. fold (blocks_size bs). unfold block_size. lia.
Qed.

Lemma good_block_extract g b : good_block g b -> ExtractLogEntry b = Ok g.
Proof.
  intros []. apply ExtractLogEntry_log; [done|]. unfold MaxEntriesInBlock in *. lia.
Qed.

(** entriesToBlocks loses and duplicates no entry: the blocks are well formed, decode to a
    permutation of the entries, small ones first and sharing blocks, and every large one alone in
    its block. *)
Theorem entriesToBlocks_spec `{SortSlice} entries :
  entries <> [] -> Forall (fun e => packable (Log e)) entries ->
  exists sorted groups blocks j k,
    entriesToBlocks entries = Ok (sorted, blocks, j, k) /\
    Permutation entries sorted /\
    Forall block_wf blocks /\
    Forall2 (fun g b => ExtractLogEntry b = Ok g) groups blocks /\
    mjoin groups = Log <$> sorted /\
    0 <= j <= zlen sorted /\ 0 <= k <= zlen blocks /\
    zdrop k groups = (fun e => [Log e]) <$> zdrop j sorted /\
    smalls (Log <$> ztake j sorted).
Proof.
  intros Hne Hp. destruct (entriesToBlocks_groups entries Hne Hp) as
    (sorted & groups & blocks & j & k & He & -> & Hg & Hr).
  exists (sort_slice (fun e => zlen (Value (Log e))) entries), groups, blocks, j, k. split; [done|].
  split; [apply sort_slice_perm|]. split; [|split; [|done]].
  - clear -Hg. induction Hg as [|g b gs bs Hgb _ IH]; constructor; [apply Hgb|done].
  - eapply Forall2_impl; [done|]. apply good_block_extract.
Qed.

(** An entry with a small value whose encoding exceeds the 4 KiB mixed block makes Fill panic.
    *)
Theorem Fill_oversized_panics e :
  Entry_wf e -> MaxMixedBlockSize < Entry_Size e -> Fill NewMixedBlock e = Panic.
Proof.
  intros He Hs. unfold Fill. cbn [data tail NewMixedBlock].
  rewrite slice_from_Ok by by rewrite zlen_zrep. cbn [obind]. unfold Entry_MarshalTo, slice.
  assert (zlen (zdrop 0 (zrep MaxMixedBlockSize Byte.x00)) = MaxMixedBlockSize) as -> by done.
  destruct (Z.leb_spec (Entry_Size e) MaxMixedBlockSize); [lia|].
  by rewrite andb_false_r.
Qed.

(** ** From the log to its replay *)

Lemma Len64_nonneg x : 0 <= Len64 x.
Proof. unfold Len64. destruct (x =? 0); [done|]. pose proof (Z.log2_nonneg x). lia. Qed.
Lemma sov_nonneg x : 0 <= sov x.
Proof. unfold sov. apply Z.div_pos; [|done]. pose proof (Len64_nonneg (Z.lor x 1)). lia. Qed.
Lemma Entry_Size_nonneg_any e : 0 <= Entry_Size e.
Proof.
  unfold Entry_Size. pose proof (zlen_nonneg (Key e)). pose proof (zlen_nonneg (Value e)).
  pose proof (sov_nonneg (zlen (Key e))). pose proof (sov_nonneg (zlen (Value e))).
  pose proof (sov_nonneg (Meta e)). pose proof (sov_nonneg (UserMeta e)). pose proof (sov_nonneg (ExpiresAt e)).
  repeat case_match; lia.
Qed.
Lemma EntryInfo_Size_nonneg i : 0 <= EntryInfo_Size i.
Proof.
  unfold EntryInfo_Size. pose proof (Entry_Size_nonneg_any (Log i)).
  pose proof (sov_nonneg (Entry_Size (Log i))). pose proof (sov_nonneg (EI_ExtentID i)).
  pose proof (sov_nonneg (EI_Offset i)). pose proof (sov_nonneg (EstimatedSize i)).
  repeat case_match; lia.
Qed.
Lemma sizeOfEntries_nonneg l : 0 <= sizeOfEntries l.
Proof.
  unfold sizeOfEntries. assert (forall a, 0 <= a -> 0 <= fold_left (fun r e => r + EntryInfo_Size e) l a) as H;
    [|by apply H].
  induction l as [|i l IH]; intros a Ha; [done|]. cbn. apply IH. pose proof (EntryInfo_Size_nonneg i). lia.
Qed.

(** what replay yields for a block, by decoding it *)
Definition block_info (id : Z) (b : Block) (off : Z) : list EntryInfo :=
  match ExtractLogEntry b with
  | Ok es => replay_info id off (BlockLength b) <$> es
  | _ => []
  end.

Lemma good_block_info g b id off : good_block g b ->
  block_info id b off = replay_info id off (BlockLength b) <$> g.
Proof. intros Hg. unfold block_info. by rewrite (good_block_extract g b Hg). Qed.

Lemma good_blocks_yield id groups blocks : Forall2 good_block groups blocks ->
  yields id true (block_info id) blocks.
Proof.
  induction 1 as [|g b gs bs Hg _ IH]; constructor; [|done]. intros off.
  rewrite (good_block_info g b) by done. destruct Hg as [Hl Hw Hp Hc].
  apply block_entries_log; try done. unfold MaxEntriesInBlock in *. lia.
Qed.

(** without hitting the limit, everything is returned and the end is reached *)
Lemma take_entries_all info max bs : forall size off, infos_nonneg info ->
  size + infos_size info off bs <= max ->
  take_entries info max size off bs =
    (mjoin (zip_with info bs (block_offsets off bs)), off + blocks_size bs, true).
Proof.
  induction bs as [|b bs IH]; intros size off Hn Hm; cbn [take_entries infos_size blocks_size foldr] in *.
  { by rewrite Z.add_0_r. }
  pose proof (infos_size_nonneg info (off + block_size b) bs Hn). fold (blocks_size bs) in *.
  destruct (Z.ltb_spec max (size + sizeOfEntries (info b off))); [lia|].
  rewrite IH by (done || lia). by rewrite Z.add_assoc.
Qed.

(** how a replayed record stands for the entry [e] of the log in [ex] *)
Definition stands_for (ex : Extent) (e : Entry) (i : EntryInfo) : Prop :=
  if ShouldWriteValueToLSM e then Log i = e
  else Log i = pointer_entry e /\ exists b, ReadBlocks ex (EI_Offset i) 1 0 = Ok ([b], None) /\
         ExtractLogEntry b = Ok [e].

Lemma good_blocks_stand ex bs0 groups blocks : forall off,
  Forall2 good_block groups blocks -> extent_inv ex (bs0 ++ blocks) -> off = 512 + blocks_size bs0 ->
  Forall2 (stands_for ex) (mjoin groups) (mjoin (zip_with (block_info (ID ex)) blocks (block_offsets off blocks))).
Proof.
  intros off Hg. revert off bs0. induction Hg as [|g b gs bs Hgb Hgs IH]; intros off bs0 Hinv Ho; [constructor|].
  cbn [mjoin list_join zip_with block_offsets]. apply Forall2_app.
  - rewrite (good_block_info g b) by done.
    assert (forall max, ReadBlocks ex off 1 max = Ok ([b], None)) as Hrd.
    { intros max. rewrite Ho, (ReadBlocks_at ex bs0 (b :: bs) 1 max Hinv) by done.
      change (Z.to_nat 1) with 1%nat. cbn [take_blocks]. by destruct (max <? 0 + block_size b). }
    assert (Hst : forall e, e ∈ g -> stands_for ex e (replay_info (ID ex) off (BlockLength b) e)).
    { intros e Hin. unfold stands_for, replay_info. destruct (ShouldWriteValueToLSM e) eqn:Hsm; [done|].
      split; [done|]. exists b. split; [apply Hrd|].
      rewrite (good_block_extract g b) by done. f_equal.
      destruct (gb_pure g b Hgb) as [Hf|H1].
      - rewrite Forall_forall in Hf. specialize (Hf e Hin). congruence.
      - destruct g as [|e' [|]]; try done. apply list_elem_of_singleton in Hin. by subst. }
    clear -Hst. induction g as [|e g IHg]; cbn; constructor; [apply Hst; left|].
    apply IHg. intros e' He'. apply Hst. by right.
  - apply (IH _ (bs0 ++ [b])).
    + by rewrite <- app_assoc.
    + rewrite blocks_size_app, Ho. cbn [blocks_size foldr]. lia.
Qed.

(** C24: Log entries packed into blocks, appended to an extent and replayed by ReadEntries come back
    in the packed order; an entry with a large value comes back as a pointer whose block holds the
    entry. *)
Theorem append_then_replay `{SortSlice} ex bs entries sorted blocks j k max :
  extent_inv ex bs -> AlreadyLocked (mutex ex) = true -> isSeal ex = 0 ->
  entries <> [] -> Forall (fun e => packable (Log e)) entries ->
  entriesToBlocks entries = Ok (sorted, blocks, j, k) ->
  commitLength ex + blocks_size blocks < 2 ^ 32 ->
  infos_size (block_info (ID ex)) (commitLength ex) blocks <= max -> max < 2 ^ 32 ->
  exists ex' offs infos,
    AppendBlocks ex blocks None [] = Ok (ex', inl offs) /\
    ReadEntries ex' (commitLength ex) max true = Ok (infos, commitLength ex', Some EndOfStream) /\
    Forall2 (stands_for ex') (Log <$> sorted) infos.
Proof.
  intros Hinv Hl Hs Hne Hp He Hb Hm Hmax.
  destruct (entriesToBlocks_groups entries Hne Hp) as
    (sorted' & groups & blocks' & j' & k' & He' & Hsort & Hg & Hj & _).
  rewrite He in He'. simplify_eq.
  assert (Hwf : Forall block_wf blocks').
  { clear -Hg. induction Hg as [|g b gs bs Hgb _ IH]; constructor; [apply Hgb|done]. }
  pose proof (extent_inv_append ex bs blocks' Hinv Hwf Hb) as Hinv'.
  pose proof (extent_inv_commit_nonneg _ _ Hinv). pose proof (inv_commit ex bs Hinv) as Hc.
  set (ex' := set_file ex _ _) in Hinv'.
  assert (blocks' <> []) as Hbne.
  { intros ->. apply Forall2_nil_inv_r in Hg as ->. cbn in Hj. symmetry in Hj. apply fmap_nil_inv in Hj.
    apply Hne, Permutation_nil. rewrite <- Hj. symmetry. apply sort_slice_perm. }
  exists ex', (block_offsets (commitLength ex) blocks'). eexists. split; [|split].
  - by apply (AppendBlocks_ok ex bs); [..|left].
  - rewrite Hc. rewrite (ReadEntries_at (ID ex) true (block_info (ID ex)) ex' bs blocks' max Hinv' Hbne);
      try done.
    + rewrite take_entries_all by (first [rewrite <- Hc; lia | intros ? ?; apply sizeOfEntries_nonneg]).
      unfold at_end, IsSeal. change (isSeal ex') with (isSeal ex). rewrite Hs.
      change (commitLength ex') with (commitLength ex + blocks_size blocks'). rewrite Hc. done.
    + by eapply good_blocks_yield.
    + intros ? ?. apply sizeOfEntries_nonneg.
    + rewrite <- Hc. lia.
  - rewrite <- Hj. by apply (good_blocks_stand ex' bs groups blocks' (512 + blocks_size bs)).
Qed.
