(* ===== verification/Stream.v ===== *)
(** Package streamclient: the [StreamClient] interface with what its clients
    rely on, and the file-backed [MockStreamClient] (mockstreamclient.go),
    which rolls over to a new extent beyond one megabyte. *)
From Stdlib Require Import ZArith Lia.
From stdpp Require Import base option list numbers strings.
From S2P Require Import Prelude GoLib Utils Proto ProtoPs Keys Extent MixBlock.

(** ** The interface *)

Class StreamClient (S : Type) := {
  (** extent ID and offsets, or the error *)
  sc_Append : S -> list Block -> outcome (S * (Z * list Z + error));
  sc_Read : S -> Z -> Z -> Z -> outcome (list Block * option error) }.

(** What a client may rely on: a block appended is readable at the place
    reported, now and after later appends. [sc_inv n] streams take at least
    [n] more appends. *)
Class StreamLaws (S : Type) `{StreamClient S} := {
  sc_inv : nat -> S -> Prop;
  sc_stored : S -> Z -> Z -> Block -> Prop;
  sc_inv_le : forall n m s, sc_inv n s -> (m <= n)%nat -> sc_inv m s;
  sc_read_stored : forall n s e o b, sc_inv n s -> sc_stored s e o b ->
    sc_Read s e o 1 = Ok ([b], None) /\ is_u64 e /\ is_u32 o;
  sc_append_ok : forall n s blocks, sc_inv (1 + n) s -> blocks <> [] -> Forall block_wf blocks ->
    blocks_size blocks < 2 ^ 31 ->
    exists s' e offs, sc_Append s blocks = Ok (s', inl (e, offs)) /\ sc_inv n s' /\
      Forall2 (sc_stored s' e) offs blocks /\
      (forall e o b, sc_stored s e o b -> sc_stored s' e o b) }.

(** A log stream also takes entries, which it packs into blocks itself. The
    entries are pointers: their places are written back for the caller. *)
Class LogStream (S : Type) := {
  ls_AppendEntries : S -> list EntryInfo -> outcome (S * (list EntryInfo * Z * Z + error)) }.

(** what an appended entry is afterwards: a large one has its place *)
Definition logged {St : Type} `{StreamLaws St} (s : St) (a b : EntryInfo) : Prop :=
  Log b = Log a /\ (ShouldWriteValueToLSM (Log a) = false -> exists blk,
    sc_stored s (EI_ExtentID b) (EI_Offset b) blk /\ ExtractLogEntry blk = Ok [Log a]).

Class LogLaws (S : Type) `{StreamLaws S} `{LogStream S} := {
  (** the log ends at this offset of this extent; (0, 0) for an empty log *)
  ls_tail : S -> Z -> Z -> Prop;
  ls_append_ok : forall n s entries, sc_inv (1 + n) s -> entries <> [] ->
    Forall (fun e => packable (Log e)) entries -> room_for (Log <$> entries) < 2 ^ 31 ->
    exists s' entries' e o, ls_AppendEntries s entries = Ok (s', inl (entries', e, o)) /\ sc_inv n s' /\
      is_u64 e /\ is_u32 o /\ Forall2 (logged s') entries entries' /\ ls_tail s' e o /\
      (forall e o b, sc_stored s e o b -> sc_stored s' e o b) }.

(** Truncating a stream at an extent drops the extents before it. *)
Class TruncStream (S : Type) := {
  ts_Truncate : S -> Z -> S * (list Z * list Z + error) }.
(** [ts_after s e0 e]: in the stream, [e] is [e0] or comes after it. *)
Class TruncLaws (S : Type) `{StreamLaws S} `{TruncStream S} := {
  ts_after : S -> Z -> Z -> Prop;
  ts_stored_in : forall s e o b, sc_stored s e o b -> ts_after s e e;
  ts_append_after : forall n s blocks s' e offs e0, sc_inv (1 + n) s -> ts_after s e0 e0 ->
    blocks <> [] -> Forall block_wf blocks -> blocks_size blocks < 2 ^ 31 ->
    sc_Append s blocks = Ok (s', inl (e, offs)) -> ts_after s' e0 e /\ forall e1, ts_after s e0 e1 -> ts_after s' e0 e1;
  ts_truncate_ok : forall n s e0, sc_inv n s -> ts_after s e0 e0 ->
    sc_inv n (fst (ts_Truncate s e0)) /\
    forall e o b, ts_after s e0 e -> sc_stored s e o b -> sc_stored (fst (ts_Truncate s e0)) e o b }.

(** what is appended from now on survives a truncation at [e0] *)
Section After.
Context {St : Type} `{TL : TruncLaws St}.
Variable e0 : Z.

#[local] Program Instance after_StreamLaws : StreamLaws St := {
  sc_inv := fun n s => sc_inv n s /\ ts_after s e0 e0;
  sc_stored := fun s e o b => sc_stored s e o b /\ ts_after s e0 e }.
Next Obligation. intros n m s [Hi Ha] Hle. split; [by eapply sc_inv_le|done]. Qed.
Next Obligation. intros n s e o b [Hi _] [Hs _]. by eapply sc_read_stored. Qed.
Next Obligation.
  intros n s blocks [Hi Ha] Hne Hwf Hsz.
  destruct (sc_append_ok n s blocks Hi Hne Hwf Hsz) as (s' & e & offs & E & Hi' & Hst & Hm).
  destruct (ts_append_after n s blocks s' e offs e0 Hi Ha Hne Hwf Hsz E) as [He Hk].
  exists s', e, offs. split; [done|]. split; [split; [done|by apply Hk]|]. split.
  - eapply Forall2_impl; [exact Hst|]. by intros o b Hb.
  - intros e1 o b [Hs Ht]. split; [by apply Hm|by apply Hk].
Qed.
End After.

(** ** MockStreamClient *)

Definition testThreshold : Z := 1024 * KB.

(** [m_exs] is [exs]; [m_ids n] is the number the [n]-th call of [rand.Uint32]
    from now on returns *)
Record MockStreamClient := mkMock {
  m_lock : SafeMutex; m_exs : list Extent; m_ID : Z; m_suffix : string; m_ids : nat -> Z }.

Definition later (ids : nat -> Z) : nat -> Z := fun n => ids (S n).
Definition NewMockStreamClient (suffix : string) (ids : nat -> Z) : outcome MockStreamClient :=
  let sID := ids 0%nat in
  match CreateExtent None suffix sID None with
  | (_, Ok ex) => Ok (mkMock newMutex [ex] sID suffix (later ids))
  | _ => Panic (* utils.Check *)
  end.

(** [OpenMockStreamClient]: [files] are the extent files of the stream, in order *)
Fixpoint open_all (files : list (option File)) : outcome (list Extent) :=
  match files with
  | [] => Ok []
  | f :: files =>
      match OpenExtent "log" f with
      | Ok ex => let! exs := open_all files in Ok (ex :: exs)
      | _ => Panic
      end
  end.
Definition OpenMockStreamClient (sID : Z) (files : list (option File)) (ids : nat -> Z) : outcome MockStreamClient :=
  let! exs := open_all files in Ok (mkMock newMutex exs sID "log" ids).

Definition set_last (exs : list Extent) (ex : Extent) : list Extent :=
  <[(length exs - 1)%nat := ex]> exs.

(** [Append]: every file operation but the block writes succeeds; [flts] are
    the faults of those *)
Definition mock_Append (flts : list (fault * fault)) (c : MockStreamClient) (blocks : list Block)
    : outcome (MockStreamClient * (Z * list Z + error)) :=
  match last (m_exs c) with
  | None => Panic
  | Some ex =>
      let exID := ID ex in
      let commitLength := CommitLength ex in
      let! m := Lock (mutex ex) in
      let! (ex, r) := AppendBlocks (with_lock ex m) blocks (Some commitLength) flts in
      let! m := Unlock (mutex ex) in
      let ex := with_lock ex m in
      let res := match r with inl offs => inl (exID, offs) | inr e => inr e end in
      if testThreshold <? CommitLength ex then
        let! (ex, _) := Seal ex (CommitLength ex) None in
        let eID := m_ids c 0%nat in
        match CreateExtent None (m_suffix c) eID None with
        | (_, Ok newEx) =>
            let! l := Lock (m_lock c) in
            let! l := Unlock l in
            Ok (mkMock l (set_last (m_exs c) ex ++ [newEx]) (m_ID c) (m_suffix c) (later (m_ids c)), res)
        | _ => Panic
        end
      else Ok (mkMock (m_lock c) (set_last (m_exs c) ex) (m_ID c) (m_suffix c) (m_ids c), res)
  end.

(** [AppendEntries]: the sorted entries with places filled in, extent and tail *)
Fixpoint fill_places (exID : Z) (entries : list EntryInfo) (offs : list Z) : list EntryInfo :=
  match entries, offs with
  | e :: entries, o :: offs =>
      mkEI (Log e) exID o (EstimatedSize e) :: fill_places exID entries offs
  | _, _ => entries
  end.
Definition mock_AppendEntries `{SortSlice} (flts : list (fault * fault)) (c : MockStreamClient)
    (entries : list EntryInfo) : outcome (MockStreamClient * (list EntryInfo * Z * Z + error)) :=
  let! (entries, blocks, j, k) := entriesToBlocks entries in
  let! (c, r) := mock_Append flts c blocks in
  match r with
  | inr e => Ok (c, inr e)
  | inl (exID, offsets) =>
      let! offs := slice_from offsets k in
      let entries := ztake j entries ++ fill_places exID (zdrop j entries) offs in
      match last offsets, last blocks with
      | Some o, Some b => Ok (c, inl (entries, exID, u32 (u32 (o + BlockLength b) + 512)))
      | _, _ => Panic
      end
  end.

Definition find_extent (exs : list Extent) (extentID : Z) : option Extent :=
  head (filter (fun ex => ID ex = extentID) exs).

Definition mock_Read (c : MockStreamClient) (extentID offset numOfBlocks : Z)
    : outcome (list Block * option error) :=
  match find_extent (m_exs c) extentID with
  | None => Ok ([], Some (Errorf "extentID not good"))
  | Some ex =>
      let! (blocks, err) := ReadBlocks ex offset numOfBlocks (Z.shiftl 32 20) in
      match err with
      | Some EndOfExtent | Some EndOfStream => Ok (blocks, Some EOF)
      | Some e => Ok ([], Some e)
      | None => Ok (blocks, None)
      end
  end.

(** [Truncate]: the extents before the one named are given to a new blob
    stream; a Go [range] loop leaves [i] at the last index when nothing matches *)
Fixpoint find_index (ids : list Z) (extentID i : Z) : Z :=
  match ids with
  | [] => i - 1
  | id :: ids => if id =? extentID then i else find_index ids extentID (i + 1)
  end.
Definition errNoTrucate : error := Errorf "not have to truncate".
Definition mock_Truncate (c : MockStreamClient) (extentID : Z)
    : MockStreamClient * (list Z * list Z + error) :=
  let ids := ID <$> m_exs c in
  let i := Z.max 0 (find_index ids extentID 0) in
  if i =? 0 then (c, inr errNoTrucate)
  else (mkMock (m_lock c) (zdrop i (m_exs c)) (m_ID c) (m_suffix c) (m_ids c),
        inl (ztake i ids, zdrop i ids)).

(** ** Log iterators *)

Record ReadOption := mkRO { ReadFromStart : bool; RO_ExtentID : Z; RO_Offset : Z; Replay : bool }.
Record MockIter := mkIter {
  it_offset : Z; it_index : Z; noMore : bool; cache : list EntryInfo; it_replay : bool }.

(** the last index with the ID, 0 when there is none *)
Fixpoint last_index (exs : list Extent) (id i cur : Z) : Z :=
  match exs with
  | [] => cur
  | ex :: exs => last_index exs id (i + 1) (if ID ex =? id then i else cur)
  end.
Definition NewLogEntryIter (c : MockStreamClient) (opt : ReadOption) : MockIter :=
  if ReadFromStart opt then mkIter 512 0 false [] (Replay opt)
  else mkIter (RO_Offset opt) (last_index (m_exs c) (RO_ExtentID opt) 0 0) false [] (Replay opt).

Definition receiveEntries (c : MockStreamClient) (it : MockIter) : outcome (MockIter * option error) :=
  let! ex := index (m_exs c) (it_index it) in
  let! (res, tl, err) := ReadEntries ex (it_offset it) (16 * KB) (it_replay it) in
  let cache := match res with [] => cache it | _ => res end in
  match err with
  | None => Ok (mkIter tl (it_index it) (noMore it) cache (it_replay it), None)
  | Some EndOfExtent =>
      let i := it_index it + 1 in
      Ok (mkIter 512 i (if i =? zlen (m_exs c) then true else noMore it) cache (it_replay it), None)
  | Some EndOfStream => Ok (mkIter (it_offset it) (it_index it) true cache (it_replay it), None)
  | Some _ => Ok (mkIter (it_offset it) (it_index it) (noMore it) cache (it_replay it), Some (Errorf "unexpected error"))
  end.

Definition HasNext (c : MockStreamClient) (it : MockIter) : outcome (MockIter * (bool + error)) :=
  match cache it with
  | [] =>
      if noMore it then Ok (it, inl false) else
      let! (it, err) := receiveEntries c it in
      match err with
      | Some e => Ok (it, inr e)
      | None => Ok (it, inl (0 <? zlen (cache it)))
      end
  | _ => Ok (it, inl true)
  end.
Definition iter_Next (c : MockStreamClient) (it : MockIter) : outcome (MockIter * option EntryInfo) :=
  let! (it, r) := HasNext c it in
  match r, cache it with
  | inl true, e :: rest => Ok (mkIter (it_offset it) (it_index it) (noMore it) rest (it_replay it), Some e)
  | _, _ => Ok (it, None)
  end.

(** ** The mock client keeps the promises of the interface *)

(** Every extent holds its header and the blocks appended to it, the last
    extent is open for appending, and the next [n] numbers drawn are distinct
    and not in use. *)
Record mock_inv (n : nat) (c : MockStreamClient) : Prop := mk_mock_inv {
  mi_blocks : Forall (fun ex => exists bs, extent_inv ex bs) (m_exs c);
  mi_nodup : NoDup (ID <$> m_exs c);
  mi_lock : m_lock c = newMutex;
  mi_last : exists pre ex, m_exs c = pre ++ [ex] /\ isSeal ex = 0 /\ mutex ex = newMutex /\
    writable ex = true /\ commitLength ex <= testThreshold;
  mi_u64 : forall k, (k < n)%nat -> is_u64 (m_ids c k);
  mi_inj : forall k j, (k < n)%nat -> (j < n)%nat -> m_ids c k = m_ids c j -> k = j;
  mi_fresh : forall k, (k < n)%nat -> m_ids c k ∉ ID <$> m_exs c }.

(** [b] is at offset [o] of extent [e] *)
Definition mock_stored (c : MockStreamClient) (e o : Z) (b : Block) : Prop :=
  exists ex bs cs, ex ∈ m_exs c /\ ID ex = e /\ extent_inv ex (bs ++ b :: cs) /\
    o = 512 + blocks_size bs.

Lemma find_extent_ok exs ex : NoDup (ID <$> exs) -> ex ∈ exs -> find_extent exs (ID ex) = Some ex.
Proof.
  unfold find_extent. induction exs as [|x exs IH]; [by intros _ ?%elem_of_nil|].
  rewrite fmap_cons, NoDup_cons. intros [Hx Hnd] [->|Hin]%elem_of_cons.
  - by rewrite filter_cons_True.
  - rewrite filter_cons_False; [by apply IH|].
    intros E. apply Hx. rewrite E. by apply list_elem_of_fmap_2.
Qed.

Lemma mock_read_stored n c e o b : mock_inv n c -> mock_stored c e o b ->
  mock_Read c e o 1 = Ok ([b], None) /\ is_u64 e /\ is_u32 o.
Proof.
  intros Hc (ex & bs & cs & Hin & <- & Hex & ->).
  pose proof (extent_inv_length _ _ Hex) as Hlen. split; [|split; [apply Hex|]].
  - unfold mock_Read. rewrite find_extent_ok by (done || apply Hc).
    rewrite (ReadBlocks_at _ _ _ 1 _ Hex) by done.
    change (Z.to_nat 1) with 1%nat. cbn [take_blocks]. by destruct (_ <? 0 + block_size b).
  - destruct Hex as [_ Hwf Hcl Hb _]. apply Forall_app in Hwf as [Hwf1 Hwf2].
    rewrite blocks_size_app in Hcl. pose proof (blocks_size_nonneg bs Hwf1).
    pose proof (blocks_size_nonneg _ Hwf2). unfold is_u32. lia.
Qed.

Lemma set_last_app (pre : list Extent) ex ex' : set_last (pre ++ [ex]) ex' = pre ++ [ex'].
Proof.
  unfold set_last. rewrite length_app. cbn [length].
  replace (length pre + 1 - 1)%nat with (length pre + 0)%nat by lia.
  by rewrite insert_app_r.
Qed.

(** the last extent after [blocks] were appended *)
Definition appended (ex : Extent) (blocks : list Block) : Extent :=
  set_file ex (mkFile (content (file ex) ++ blocks_bytes blocks) (seal_attr (file ex)))
    (commitLength ex + blocks_size blocks).
Definition sealed_extent (ex : Extent) : Extent :=
  mkExtent newMutex 1 (commitLength ex) (ID ex) (fileName ex)
    (mkFile (content (file ex)) (Some seal_true)) true.

Lemma mock_Append_ok c pre ex bs blocks :
  m_exs c = pre ++ [ex] -> extent_inv ex bs -> m_lock c = newMutex -> is_u64 (m_ids c 0%nat) ->
  isSeal ex = 0 -> mutex ex = newMutex -> writable ex = true ->
  Forall block_wf blocks -> commitLength ex + blocks_size blocks < 2 ^ 32 ->
  exists newEx, extent_inv newEx [] /\ ID newEx = m_ids c 0%nat /\ isSeal newEx = 0 /\
    mutex newEx = newMutex /\ writable newEx = true /\
    mock_Append [] c blocks =
      Ok (if testThreshold <? commitLength ex + blocks_size blocks
          then mkMock newMutex ((pre ++ [sealed_extent (appended ex blocks)]) ++ [newEx])
                 (m_ID c) (m_suffix c) (later (m_ids c))
          else mkMock newMutex (pre ++ [appended ex blocks]) (m_ID c) (m_suffix c) (m_ids c),
          inl (ID ex, block_offsets (commitLength ex) blocks)).
Proof.
  intros Hexs Hinv Hl Hid Hs Hm Hw Hwf Hb.
  pose proof (extent_inv_append ex bs blocks Hinv Hwf Hb) as Hinv'.
  destruct (CreateExtent_inv (m_suffix c) (m_ids c 0%nat) Hid) as (f & nx & Hcr & Hf & Hnx & Hns & Hnm).
  exists nx. split; [done|].
  assert (ID nx = m_ids c 0%nat /\ writable nx = true) as [Hni Hnw].
  { unfold CreateExtent in Hcr. destruct (extentHeader_Marshal _ _ _) as [? [|]]; [done|].
    injection Hcr as <- <-. done. }
  repeat (split; [done|]).
  unfold mock_Append. rewrite Hexs, last_snoc. rewrite Hm, Lock_new. cbn [obind].
  rewrite (AppendBlocks_ok (with_lock ex heldMutex) bs); [|by destruct Hinv|done|done|done|done|by right].
  cbn [obind]. cbn [mutex with_lock set_file]. rewrite Unlock_held. cbn [obind].
  change (CommitLength _) with (commitLength ex + blocks_size blocks).
  destruct (testThreshold <? commitLength ex + blocks_size blocks).
  - match goal with |- context [Seal ?e ?n None] => replace (Seal e n None) with (Seal e (512 + blocks_size (bs ++ blocks)) None) end.
    2: { f_equal. pose proof (inv_commit _ _ Hinv') as Hcl. cbn [commitLength set_file] in Hcl. rewrite <- Hcl. done. }
    assert (forall e', e' = with_lock (appended ex blocks) newMutex -> extent_inv e' ((bs ++ blocks) ++ [])) as He.
    { intros e' ->. rewrite app_nil_r. by destruct Hinv'. }
    rewrite (Seal_ok _ (bs ++ blocks) []); [|by apply He|done|done].
    cbn [obind]. rewrite Hcr, Hl, Lock_new. cbn [obind]. rewrite Unlock_held. cbn [obind].
    rewrite set_last_app. unfold sealed_extent, appended.
    cbn [commitLength set_file ID fileName file content with_lock].
    rewrite blocks_bytes_app, app_assoc. by destruct Hinv as [<- _ _ _ _].
  - cbn. rewrite Hl, set_last_app. do 5 f_equal. unfold appended, with_lock, set_file. cbn. by rewrite Hm.
Qed.

Lemma extent_inv_sealed ex bs : extent_inv ex bs -> extent_inv (sealed_extent ex) bs.
Proof. by intros []. Qed.

Lemma blocks_size_single b : blocks_size [b] = block_size b.
Proof. cbn. lia. Qed.

(** the places [AppendBlocks] reports are where the blocks are *)
Lemma block_offsets_stored c ex blocks : forall bs cs,
  ex ∈ m_exs c -> extent_inv ex (bs ++ blocks ++ cs) ->
  Forall2 (mock_stored c (ID ex)) (block_offsets (512 + blocks_size bs) blocks) blocks.
Proof.
  induction blocks as [|b blocks IH]; intros bs cs Hin Hex; [by constructor|].
  cbn [block_offsets]. constructor.
  - exists ex, bs, (blocks ++ cs). done.
  - replace (512 + blocks_size bs + block_size b) with (512 + blocks_size (bs ++ [b]))
      by (rewrite blocks_size_app, blocks_size_single; lia).
    apply (IH _ cs); [done|]. by rewrite <- app_assoc.
Qed.

(** what a file holds is determined by its bytes *)
Lemma blocks_bytes_inj bs : forall cs, Forall block_wf bs -> Forall block_wf cs ->
  blocks_size bs < 2 ^ 32 -> blocks_bytes bs = blocks_bytes cs -> bs = cs.
Proof.
  induction bs as [|b bs IH]; intros cs Hb Hc Hz E.
  - destruct cs as [|c cs]; [done|]. pose proof (blocks_size_pos _ Hc ltac:(done)).
    apply (f_equal zlen) in E. rewrite !zlen_blocks_bytes in E by done. cbn [blocks_size foldr] in *. lia.
  - pose proof (f_equal zlen E) as El. rewrite !zlen_blocks_bytes in El by done.
    pose proof (blocks_size_pos _ Hb ltac:(done)).
    destruct cs as [|c cs]; [change (blocks_size []) with 0 in El; lia|].
    assert (zlen (blocks_bytes (b :: bs)) < 2 ^ 32) as Hlen by (rewrite zlen_blocks_bytes; done).
    pose proof Hb as Hbs. apply Forall_cons in Hb as [Hb1 Hb2]. apply Forall_cons in Hc as [Hc1 Hc2].
    pose proof (readBlock_ok OsFile (blocks_bytes (b :: bs)) 0 [] b (blocks_bytes bs) Hb1 eq_refl eq_refl Hlen) as R1.
    pose proof (readBlock_ok OsFile (blocks_bytes (b :: bs)) 0 [] c (blocks_bytes cs) Hc1 E eq_refl Hlen) as R2.
    rewrite R1 in R2. injection R2 as <- _. f_equal.
    cbn [blocks_size foldr] in Hz. fold (blocks_size bs) in Hz. pose proof (block_wf_length b Hb1).
    unfold block_size in Hz. apply IH; [done|done|lia|].
    rewrite !blocks_bytes_cons in E. by apply app_inv_head in E.
Qed.

Lemma extent_inv_unique ex bs cs : extent_inv ex bs -> extent_inv ex cs -> bs = cs.
Proof.
  intros [Hb1 Hb2 Hb3 Hb4 _] [Hc1 Hc2 _ _ _]. apply blocks_bytes_inj; [done|done|lia|].
  rewrite Hb1 in Hc1. by apply app_inv_head in Hc1.
Qed.

(** [ex'] takes the place of the last extent and holds more blocks *)
Lemma mock_stored_mono c c' pre ex ex' bs blocks new :
  m_exs c = pre ++ [ex] -> m_exs c' = (pre ++ [ex']) ++ new -> ID ex' = ID ex ->
  extent_inv ex bs -> extent_inv ex' (bs ++ blocks) ->
  forall e o b, mock_stored c e o b -> mock_stored c' e o b.
Proof.
  intros Hc Hc' Hid He He' e o b (x & l & r & Hin & <- & Hx & ->).
  rewrite Hc in Hin. apply elem_of_app in Hin as [Hin| ->%list_elem_of_singleton].
  - exists x, l, r. split; [|done]. rewrite Hc', !elem_of_app. by left; left.
  - rewrite <- (extent_inv_unique _ _ _ Hx He), <- app_assoc in He'. exists ex', l, (r ++ blocks).
    rewrite Hc', !elem_of_app, list_elem_of_singleton. split; [by left; right|done].
Qed.

Lemma mock_inv_le n m c : mock_inv n c -> (m <= n)%nat -> mock_inv m c.
Proof.
  intros [H1 H2 H3 H4 H5 H6 H7] Hle. split; try done; intros.
  - apply H5. lia.
  - apply H6; [lia|lia|done].
  - apply H7. lia.
Qed.

(** the blocks end extent [e] *)
Definition ends_at (c : MockStreamClient) (e : Z) (offs : list Z) (blocks : list Block) : Prop :=
  exists ex start, ex ∈ m_exs c /\ ID ex = e /\ 512 <= start /\ offs = block_offsets start blocks /\
    commitLength ex = start + blocks_size blocks /\ commitLength ex < 2 ^ 32.

Lemma mock_append_ends n c blocks : mock_inv (1 + n) c -> Forall block_wf blocks ->
  blocks_size blocks < 2 ^ 31 ->
  exists c' e offs, mock_Append [] c blocks = Ok (c', inl (e, offs)) /\ mock_inv n c' /\
    Forall2 (mock_stored c' e) offs blocks /\ ends_at c' e offs blocks /\
    (forall e o b, mock_stored c e o b -> mock_stored c' e o b).
Proof.
  intros [Hbl Hnd Hlk (pre & ex & Hexs & Hs & Hm & Hw & Hcl) Hu Hinj Hfr] Hwf Hsz.
  rewrite Hexs in Hbl. pose proof Hbl as Hbl'. apply Forall_app in Hbl' as [Hpre [[bs He] _]%Forall_cons].
  unfold testThreshold, KB in Hcl.
  assert (commitLength ex + blocks_size blocks < 2 ^ 32) as Hlt by lia.
  destruct (mock_Append_ok c pre ex bs blocks) as (nx & Hn & Hni & Hns & Hnm & Hnw & Hap); try done;
    [apply Hu; lia|].
  pose proof (extent_inv_append ex bs blocks He Hwf Hlt) as He'. fold (appended ex blocks) in He'.
  rewrite Hap. clear Hap. rewrite Hexs in Hnd, Hfr. rewrite fmap_app in Hnd, Hfr. cbn [fmap list_fmap] in Hnd, Hfr.
  assert (commitLength ex = 512 + blocks_size bs) as Hc by (by destruct He).
  assert (512 <= commitLength ex) by (rewrite Hc; pose proof (blocks_size_nonneg bs (inv_wf _ _ He)); lia).
  destruct (Z.ltb_spec testThreshold (commitLength ex + blocks_size blocks)) as [Hbig|Hsmall].
  - do 3 eexists. split; [done|].
    pose proof (extent_inv_sealed _ _ He') as Hse.
    split; [|split; [|split]].
    + split; cbn [m_exs m_lock m_ids].
      * rewrite !Forall_app, !Forall_singleton. eauto.
      * rewrite !fmap_app. cbn [fmap list_fmap sealed_extent ID appended set_file].
        apply NoDup_app. split; [done|]. split; [|by apply NoDup_singleton].
        intros i Hi ->%list_elem_of_singleton. rewrite Hni in Hi. apply (Hfr 0%nat); [lia|done].
      * done.
      * exists (pre ++ [sealed_extent (appended ex blocks)]), nx. repeat (split; [done|]).
        destruct Hn as [_ _ -> _ _]. done.
      * intros k Hk. apply Hu. lia.
      * intros k j Hk Hj E. apply Hinj in E; lia.
      * intros k Hk. rewrite !fmap_app. cbn [fmap list_fmap sealed_extent ID appended set_file]. rewrite Hni.
        intros [Hi|Hi%list_elem_of_singleton]%elem_of_app; [apply (Hfr (S k)); [lia|done]|]. apply Hinj in Hi; lia.
    + rewrite Hc. apply (block_offsets_stored _ (sealed_extent (appended ex blocks)) blocks bs []); [|by rewrite app_nil_r].
      cbn [m_exs]. rewrite !elem_of_app, !list_elem_of_singleton. auto.
    + exists (sealed_extent (appended ex blocks)), (commitLength ex). cbn [m_exs]. rewrite !elem_of_app, !list_elem_of_singleton.
      split; [auto|]. split; [done|]. split; [lia|]. split; [done|]. by split.
    + by eapply mock_stored_mono.
  - do 3 eexists. split; [done|]. split; [|split; [|split]].
    + split; cbn [m_exs m_lock m_ids].
      * rewrite !Forall_app, !Forall_singleton. eauto.
      * by rewrite !fmap_app.
      * done.
      * exists pre, (appended ex blocks). done.
      * intros k Hk. apply Hu. lia.
      * intros k j Hk Hj E. apply Hinj in E; lia.
      * intros k Hk. rewrite fmap_app. apply Hfr. lia.
    + rewrite Hc. apply (block_offsets_stored _ (appended ex blocks) blocks bs []); [|by rewrite app_nil_r].
      cbn [m_exs]. rewrite !elem_of_app, !list_elem_of_singleton. auto.
    + exists (appended ex blocks), (commitLength ex). cbn [m_exs]. rewrite !elem_of_app, !list_elem_of_singleton.
      split; [auto|]. split; [done|]. split; [lia|]. split; [done|]. by split.
    + eapply (mock_stored_mono _ _ _ _ _ _ _ []); [done|by rewrite app_nil_r|done|done|done].
Qed.

Lemma mock_append n c blocks : mock_inv (1 + n) c -> blocks <> [] -> Forall block_wf blocks ->
  blocks_size blocks < 2 ^ 31 ->
  exists c' e offs, mock_Append [] c blocks = Ok (c', inl (e, offs)) /\ mock_inv n c' /\
    Forall2 (mock_stored c' e) offs blocks /\
    (forall e o b, mock_stored c e o b -> mock_stored c' e o b).
Proof.
  intros Hc _ Hwf Hsz. destruct (mock_append_ends n c blocks Hc Hwf Hsz) as (c' & e & offs & ? & ? & ? & _ & ?). by exists c', e, offs.
Qed.

#[export] Instance mock_StreamClient : StreamClient MockStreamClient := {
  sc_Append := mock_Append [];
  sc_Read := mock_Read }.
#[export] Instance mock_StreamLaws : StreamLaws MockStreamClient := {
  sc_inv := mock_inv; sc_stored := mock_stored; sc_inv_le := mock_inv_le;
  sc_read_stored := mock_read_stored; sc_append_ok := mock_append }.

(** ** The mock client as a log stream *)

Definition writes {A} (h : list A) (ps : list (nat * A)) : list A :=
  foldl (fun h p => <[fst p := snd p]> h) h ps.

(** [AppendEntries] sorts the slice it is given and writes through its
    pointers; the caller's entries, by position, are updated accordingly *)
Definition caller_view `{SortSlice} (entries filled : list EntryInfo) : list EntryInfo :=
  let ptrs := fst <$> sort_slice (fun p => zlen (Value (Log (snd p)))) (imap pair entries) in
  writes entries (zip ptrs filled).

#[export] Instance mock_LogStream `{SortSlice} : LogStream MockStreamClient := {
  ls_AppendEntries := fun c entries =>
    let! (c, r) := mock_AppendEntries [] c entries in
    Ok (c, match r with
           | inl (filled, e, o) => inl (caller_view entries filled, e, o)
           | inr err => inr err
           end) }.

Lemma length_writes {A} (ps : list (nat * A)) : forall h,
  length (writes h ps) = length h.
Proof. unfold writes. induction ps as [|p ps IH]; intros h; [done|]. cbn [foldl]. by rewrite IH, length_insert. Qed.
Lemma writes_other {A} (ps : list (nat * A)) i : forall h, i ∉ (fst <$> ps) ->
  writes h ps !! i = h !! i.
Proof.
  unfold writes. induction ps as [|p ps IH]; intros h Hi; [done|]. rewrite fmap_cons in Hi. cbn [foldl].
  rewrite IH by (intros Hx; apply Hi; by right). rewrite list_lookup_insert_ne; [done|]. intros <-. apply Hi. left.
Qed.
Lemma writes_lookup {A} (ps : list (nat * A)) i x : forall h, NoDup (fst <$> ps) -> (i, x) ∈ ps -> (i < length h)%nat ->
  writes h ps !! i = Some x.
Proof.
  induction ps as [|p ps IH]; intros h Hn Hin Hi; [by apply elem_of_nil in Hin|]. rewrite fmap_cons in Hn.
  apply NoDup_cons in Hn as [Hp Hn]. change (writes (<[fst p := snd p]> h) ps !! i = Some x). apply elem_of_cons in Hin as [<-|Hin].
  - rewrite writes_other by done. by apply list_lookup_insert_eq.
  - apply IH; [done|done|by rewrite length_insert].
Qed.

Lemma caller_view_ok `{SortSlice} (R : EntryInfo -> EntryInfo -> Prop) entries filled :
  Forall2 R (sort_slice (fun e => zlen (Value (Log e))) entries) filled -> Forall2 R entries (caller_view entries filled).
Proof.
  intros HR. unfold caller_view. set (key := fun p : nat * EntryInfo => zlen (Value (Log (snd p)))).
  pose proof (sort_slice_perm key (imap pair entries)) as Hperm. set (tagged := sort_slice key (imap pair entries)) in *.
  assert (snd <$> imap pair entries = entries) as Hsnd.
  { rewrite fmap_imap. apply list_eq. intros i. rewrite list_lookup_imap. by destruct (entries !! i). }
  assert (sort_slice (fun e => zlen (Value (Log e))) entries = snd <$> tagged) as Hs.
  { pose proof (sort_slice_fmap snd (fun e => zlen (Value (Log e))) (imap pair entries)) as E. by rewrite Hsnd in E. }
  rewrite Hs in HR. assert (length (fst <$> tagged) = length filled) as Hlen.
  { apply Forall2_length in HR. rewrite length_fmap in HR; by rewrite length_fmap. }
  assert (NoDup (fst <$> tagged)) as Hnd.
  { rewrite <- Hperm. rewrite fmap_imap. apply NoDup_alt. intros i j x. rewrite !list_lookup_imap.
    destruct (entries !! i), (entries !! j); cbn; congruence. }
  apply Forall2_lookup. intros i.
  destruct (entries !! i) as [e|] eqn:He.
  - assert ((i, e) ∈ tagged) as Hin.
    { rewrite <- Hperm. apply elem_of_lookup_imap. eauto. }
    apply list_elem_of_lookup_1 in Hin as [q Hq].
    destruct (Forall2_lookup_l _ _ _ q e HR) as (g & Hg & HRg); [by rewrite list_lookup_fmap, Hq|].
    rewrite (writes_lookup _ i g); [by constructor|by rewrite fst_zip by lia| |by eapply lookup_lt_Some].
    apply list_elem_of_lookup_2 with q. rewrite lookup_zip_with, list_lookup_fmap, Hq, Hg. done.
  - assert (writes entries (zip (fst <$> tagged) filled) !! i = None) as ->.
    { apply lookup_ge_None. rewrite length_writes. by apply lookup_ge_None. }
    constructor.
Qed.

(** the places of the large entries, from the blocks that follow the mixed ones *)
Lemma fill_places_ok c e (large : list EntryInfo) : forall offs blocks,
  Forall2 (sc_stored c e) offs blocks -> Forall2 good_block ((fun i => [Log i]) <$> large) blocks ->
  Forall2 (logged c) large (fill_places e large offs).
Proof.
  induction large as [|i large IH]; intros offs blocks Hs Hg; cbn [fill_places]; [constructor|].
  rewrite fmap_cons in Hg. apply Forall2_cons_inv_l in Hg as (b & bs & Hb & Hg & ->).
  apply Forall2_cons_inv_r in Hs as (o & os & Ho & Hs & ->). constructor; [|by apply (IH os bs)].
  split; [done|]. intros _. exists b. split; [done|]. by apply good_block_extract.
Qed.
Lemma small_logged c (small : list EntryInfo) : smalls (Log <$> small) -> Forall2 (logged c) small small.
Proof.
  induction small as [|i small IH]; [constructor|]. intros [Hi Hs]%Forall_cons. constructor; [|by apply IH].
  split; [done|]. rewrite Hi. done.
Qed.

(** the end of the log: the end of the extent last appended to, or of the
    header of the only extent *)
Definition mock_tail (c : MockStreamClient) (e o : Z) : Prop :=
  (e = 0 /\ o = 0 /\ exists ex, m_exs c = [ex] /\ commitLength ex = 512) \/
  (512 < o /\ exists ex, ex ∈ m_exs c /\ ID ex = e /\ commitLength ex = o).

Lemma block_size_pos b : block_wf b -> 512 <= block_size b /\ 0 <= BlockLength b.
Proof.
  intros Hwf. pose proof (zlen_block_bytes b Hwf) as Hz. destruct Hwf as [Hd]. pose proof (zlen_nonneg (Data b)). unfold block_size. lia.
Qed.
Lemma block_offsets_last blocks : forall start o b, last (block_offsets start blocks) = Some o -> last blocks = Some b ->
  o + block_size b = start + blocks_size blocks.
Proof.
  induction blocks as [|b' blocks IH]; intros start o b Ho Hb; [done|]. cbn [block_offsets] in Ho.
  change (blocks_size (b' :: blocks)) with (block_size b' + blocks_size blocks).
  destruct blocks as [|b2 blocks]; [cbn in Ho, Hb; injection Ho as <-; injection Hb as <-; cbn; lia|].
  rewrite last_cons_cons in Hb. cbn [block_offsets] in Ho. rewrite last_cons_cons in Ho.
  rewrite (IH (start + block_size b') o b Ho Hb). lia.
Qed.
Lemma ends_at_tail c e offs blocks o b : ends_at c e offs blocks -> Forall block_wf blocks -> last offs = Some o -> last blocks = Some b ->
  mock_tail c e (u32 (u32 (o + BlockLength b) + 512)).
Proof.
  intros (ex & start & Hin & He & Hst & -> & Hcl & Hlt) Hwf Ho Hb. pose proof (block_offsets_last blocks start o b Ho Hb) as E.
  assert (b ∈ blocks) as Hbin by (apply last_Some in Hb as [l ->]; apply elem_of_app; right; left).
  rewrite Forall_forall in Hwf. pose proof (block_size_pos b (Hwf b Hbin)) as Hpos. unfold block_size in *.
  assert (512 <= o) as Hoge. { clear -Ho Hst Hwf. revert start Ho Hst. induction blocks as [|b' bs IH]; intros start Ho Hst; [done|].
    cbn [block_offsets] in Ho. destruct bs as [|b2 bs]; [by injection Ho as <-|]. cbn [block_offsets] in Ho. rewrite last_cons_cons in Ho.
    apply (IH ltac:(intros x Hx; apply Hwf; by right) (start + block_size b')); [done|].
    pose proof (block_size_pos b' (Hwf b' ltac:(left))). unfold block_size in *. lia. }
  right. rewrite (u32_small (o + BlockLength b)) by lia. rewrite u32_small by lia. split; [lia|]. exists ex. split; [done|]. split; [done|lia].
Qed.

Lemma mock_AppendEntries_ok `{SortSlice} n c entries : mock_inv (1 + n) c -> entries <> [] ->
  Forall (fun e => packable (Log e)) entries -> room_for (Log <$> entries) < 2 ^ 31 ->
  exists c' filled e o, mock_AppendEntries [] c entries = Ok (c', inl (filled, e, o)) /\ mock_inv n c' /\
    is_u64 e /\ is_u32 o /\ Forall2 (logged c') (sort_slice (fun e => zlen (Value (Log e))) entries) filled /\ mock_tail c' e o /\
    (forall e o b, mock_stored c e o b -> mock_stored c' e o b).
Proof.
  intros Hc Hne Hp Hroom. unfold mock_AppendEntries.
  destruct (entriesToBlocks_groups entries Hne Hp) as (sorted & groups & blocks & j & k & -> & Hsort & Hg & Hj & Hjr & Hkr & Hlarge & Hsmall).
  cbn [obind]. rewrite <- Hsort. pose proof (sort_slice_perm (fun e => zlen (Value (Log e))) entries) as Hperm. rewrite <- Hsort in Hperm.
  assert (blocks <> []) as Hbne.
  { intros ->. apply Forall2_nil_inv_r in Hg as ->. cbn in Hj. symmetry in Hj. apply fmap_nil_inv in Hj as ->.
    by apply Permutation_nil_r in Hperm. }
  assert (Forall block_wf blocks) as Hwf by (clear -Hg; induction Hg as [|g b gs bs Hgb _ IH]; constructor; [apply Hgb|done]).
  destruct (mock_append_ends n c blocks Hc Hwf) as (c' & e & offs & -> & Hc' & Hst & Hend & Hmono).
  { pose proof (good_blocks_size groups blocks Hg) as Hs. rewrite Hj in Hs.
    assert (room_for (Log <$> entries) = room_for (Log <$> sorted)) as Hr by (apply room_for_perm; by rewrite Hperm).
    rewrite <- Hr in Hs.
    eapply Z.le_lt_trans; [exact Hs|exact Hroom]. }
  cbn [obind]. pose proof (Forall2_length _ _ _ Hst) as Hlen.
  rewrite slice_from_Ok by (unfold zlen in *; lia). cbn [obind].
  destruct (last offs) as [o|] eqn:Ho; [|apply last_None in Ho as ->; by destruct blocks].
  destruct (last blocks) as [b|] eqn:Hb; [|by apply last_None in Hb].
  pose proof (ends_at_tail _ _ _ _ _ _ Hend Hwf Ho Hb) as Htail.
  do 4 eexists. split; [done|]. split; [done|]. destruct blocks as [|b0 blocks']; [done|].
  apply Forall2_cons_inv_r in Hst as (o0 & offs' & Ho0 & Hst' & ->).
  split; [by apply (sc_read_stored n c' e o0 b0)|]. split; [unfold is_u32, u32; apply Z.mod_pos_bound; done|].
  split; [|by split]. rewrite <- (ztake_zdrop j sorted) at 1. apply Forall2_app; [by apply small_logged|].
  apply (fill_places_ok c' e (zdrop j sorted) _ (zdrop k (b0 :: blocks'))).
  - unfold zdrop. apply Forall2_drop. by constructor.
  - rewrite <- Hlarge. unfold zdrop. by apply Forall2_drop.
Qed.

#[export] Program Instance mock_LogLaws `{SortSlice} : LogLaws MockStreamClient := { ls_tail := mock_tail }.
Next Obligation.
  intros ? n c entries Hc Hne Hp Hroom.
  destruct (mock_AppendEntries_ok n c entries Hc Hne Hp Hroom) as (c' & filled & e & o & E & Hc' & Hu1 & Hu2 & Hl & Ht & Hm).
  exists c', (caller_view entries filled), e, o. cbn. rewrite E. split; [done|]. split; [done|]. split; [done|]. split; [done|].
  split; [by apply caller_view_ok|by split].
Qed.

Lemma NewMockStreamClient_inv n suffix ids : (forall k, (k <= n)%nat -> is_u64 (ids k)) ->
  (forall k j, (k <= n)%nat -> (j <= n)%nat -> ids k = ids j -> k = j) ->
  exists c, NewMockStreamClient suffix ids = Ok c /\ mock_inv n c /\ mock_tail c 0 0.
Proof.
  intros Hu Hinj. unfold NewMockStreamClient.
  destruct (CreateExtent_inv suffix (ids 0%nat) (Hu 0%nat ltac:(lia))) as (f & ex & Hcr & Hf & Hx & Hs & Hm).
  rewrite Hcr. eexists. split; [done|].
  assert (ID ex = ids 0%nat /\ writable ex = true) as [Hi Hw].
  { unfold CreateExtent in Hcr. destruct (extentHeader_Marshal _ _ _) as [? [|]]; [done|].
    injection Hcr as <- <-. done. }
  split; [|left; split; [done|]; split; [done|]; exists ex; split; [done|]; by destruct Hx as [_ _ -> _ _]].
  split; cbn [m_exs m_lock m_ids fmap list_fmap].
  - apply Forall_singleton. eauto.
  - apply NoDup_singleton.
  - done.
  - exists [], ex. repeat (split; [done|]). destruct Hx as [_ _ -> _ _]. done.
  - intros k Hk. apply Hu. lia.
  - intros k j Hk Hj E. apply Hinj in E; lia.
  - intros k Hk Hin%list_elem_of_singleton. rewrite Hi in Hin. apply Hinj in Hin; lia.
Qed.

(** ** Truncation of the mock client *)

#[export] Instance mock_TruncStream : TruncStream MockStreamClient := { ts_Truncate := mock_Truncate }.
Definition mock_after (c : MockStreamClient) (e0 e : Z) : Prop :=
  exists i j, (ID <$> m_exs c) !! i = Some e0 /\ (ID <$> m_exs c) !! j = Some e /\ (i <= j)%nat.

Lemma mock_Append_ids n c blocks c' e offs : mock_inv (1 + n) c -> Forall block_wf blocks -> blocks_size blocks < 2 ^ 31 ->
  mock_Append [] c blocks = Ok (c', inl (e, offs)) ->
  last (ID <$> m_exs c) = Some e /\ exists new, ID <$> m_exs c' = (ID <$> m_exs c) ++ new.
Proof.
  intros [Hbl Hnd Hlk (pre & ex & Hexs & Hs & Hm & Hw & Hcl) Hu Hinj Hfr] Hwf Hsz E.
  rewrite Hexs in Hbl. apply Forall_app in Hbl as [Hpre [[bs He] _]%Forall_cons]. unfold testThreshold, KB in Hcl.
  destruct (mock_Append_ok c pre ex bs blocks) as (nx & _ & Hni & _ & _ & _ & Hap); try done; [apply Hu; lia|lia|].
  rewrite Hap in E. clear Hap. rewrite Hexs, fmap_app. cbn [fmap list_fmap]. rewrite last_snoc.
  destruct (testThreshold <? commitLength ex + blocks_size blocks); injection E as <- <- <-; (split; [done|]); cbn [m_exs].
  - exists [ID nx]. rewrite !fmap_app. done.
  - exists []. by rewrite app_nil_r, fmap_app.
Qed.

Lemma find_index_lookup l e : forall i k, NoDup l -> l !! i = Some e -> find_index l e k = k + Z.of_nat i.
Proof.
  induction l as [|x l IH]; intros i k Hn Hi; [done|]. apply NoDup_cons in Hn as [Hx Hn].
  destruct i as [|i]; cbn in Hi.
  - injection Hi as ->. cbn [find_index]. rewrite Z.eqb_refl. lia.
  - assert (x <> e) as Hne by (intros ->; apply Hx; by eapply list_elem_of_lookup_2).
    cbn [find_index]. destruct (Z.eqb_spec x e); [done|]. rewrite (IH i) by done. lia.
Qed.

Lemma mock_truncate_ok n c e0 : mock_inv n c -> mock_after c e0 e0 ->
  mock_inv n (fst (mock_Truncate c e0)) /\
  forall e o b, mock_after c e0 e -> mock_stored c e o b -> mock_stored (fst (mock_Truncate c e0)) e o b.
Proof.
  intros Hc (i & j & Hi & _). pose proof (mi_nodup _ _ Hc) as Hnd.
  unfold mock_Truncate. rewrite (find_index_lookup _ _ i) by done. rewrite Z.max_r by lia.
  destruct (Z.eqb_spec (0 + Z.of_nat i) 0) as [E0|E0]; [by cbn [fst]|]. rewrite Z.add_0_l in *. cbn [fst].
  assert (zdrop (Z.of_nat i) (m_exs c) = drop i (m_exs c)) as -> by (unfold zdrop; by rewrite Nat2Z.id).
  pose proof (lookup_lt_Some _ _ _ Hi) as Hlt. rewrite length_fmap in Hlt. split.
  - destruct Hc as [H1' H2' H3' H4' H5' H6' H7']. split; cbn [m_exs m_lock m_ids]; try done.
    + by apply Forall_drop.
    + rewrite fmap_drop. rewrite <- (take_drop i (ID <$> m_exs c)) in H2'. by apply NoDup_app in H2' as (_ & _ & ?).
    + destruct H4' as (pre & ex & E & Hr). exists (drop i pre), ex. split; [|done]. rewrite E, drop_app_le; [done|].
      rewrite E, length_app in Hlt. cbn in Hlt. lia.
    + intros k Hk Hin. apply (H7' k Hk). rewrite <- (take_drop i (m_exs c)), fmap_app. apply elem_of_app. by right.
  - intros e o b (i' & j' & Hi' & Hj' & Hle) (ex & bs & cs & Hex & <- & Hr). exists ex, bs, cs. cbn [m_exs]. split; [|done].
    pose proof (NoDup_lookup _ _ _ _ Hnd Hi Hi') as ->. apply list_elem_of_lookup_1 in Hex as (k & Hk).
    assert ((ID <$> m_exs c) !! k = Some (ID ex)) as Hk' by (by rewrite list_lookup_fmap, Hk).
    pose proof (NoDup_lookup _ _ _ _ Hnd Hk' Hj') as ->. apply list_elem_of_lookup. exists (j' - i')%nat. rewrite lookup_drop.
    by replace (i' + (j' - i'))%nat with j' by lia.
Qed.

#[export] Program Instance mock_TruncLaws : TruncLaws MockStreamClient := { ts_after := mock_after; ts_truncate_ok := mock_truncate_ok }.
Next Obligation.
  intros c e o b (ex & bs & cs & Hex & <- & _). apply list_elem_of_lookup_1 in Hex as (k & Hk).
  exists k, k. by rewrite list_lookup_fmap, Hk.
Qed.
Next Obligation.
  intros n c blocks c' e offs e0 Hc (i & j & Hi & Hj & Hle) _ Hwf Hsz E.
  destruct (mock_Append_ids n c blocks c' e offs Hc Hwf Hsz E) as [Hl (new & Hids)].
  assert (forall k x, (ID <$> m_exs c) !! k = Some x -> (ID <$> m_exs c') !! k = Some x) as Hk
    by (intros k x Hx; rewrite Hids; by apply lookup_app_l_Some).
  split.
  - rewrite last_lookup in Hl. exists i, (pred (length (ID <$> m_exs c))). split; [by apply Hk|]. split; [by apply Hk|].
    apply lookup_lt_Some in Hi. lia.
  - intros e1 (i1 & j1 & Hi1 & Hj1 & Hle1). exists i1, j1. auto.
Qed.

(** ** A client of the interface: batches appended one after the other *)

Section AppendAll.
Context {S : Type} `{StreamLaws S}.

(** extent and offsets of every batch *)
Fixpoint append_all (s : S) (batches : list (list Block)) : outcome (S * list (Z * list Z)) :=
  match batches with
  | [] => Ok (s, [])
  | blocks :: batches =>
      let! (s, r) := sc_Append s blocks in
      match r with
      | inl place => let! (s, places) := append_all s batches in Ok (s, place :: places)
      | inr e => Err e
      end
  end.

Definition batch_ok (blocks : list Block) : Prop :=
  blocks <> [] /\ Forall block_wf blocks /\ blocks_size blocks < 2 ^ 31.

Lemma append_all_ok batches : forall s, sc_inv (length batches) s -> Forall batch_ok batches ->
  exists s' places, append_all s batches = Ok (s', places) /\ sc_inv 0 s' /\
    Forall2 (fun p blocks => Forall2 (sc_stored s' (fst p)) (snd p) blocks) places batches /\
    (forall e o b, sc_stored s e o b -> sc_stored s' e o b).
Proof.
  induction batches as [|blocks batches IH]; intros s Hs Hb.
  - exists s, []. split; [done|]. split; [done|]. split; [constructor|done].
  - apply Forall_cons in Hb as [(Hne & Hwf & Hsz) Hb].
    destruct (sc_append_ok (length batches) s blocks Hs Hne Hwf Hsz) as (s1 & e & offs & Hap & Hs1 & Hst & Hmono).
    destruct (IH s1 Hs1 Hb) as (s2 & places & Hall & Hs2 & Hst2 & Hmono2).
    exists s2, ((e, offs) :: places). cbn [append_all]. rewrite Hap. cbn [obind]. rewrite Hall.
    split; [done|]. split; [done|]. split; [|by eauto].
    constructor; [|done]. cbn [fst snd]. eapply Forall2_impl; [exact Hst|]. eauto.
Qed.

(** every block of every batch is read back from the place reported for it *)
Lemma append_all_readable s batches : sc_inv (length batches) s -> Forall batch_ok batches ->
  exists s' places, append_all s batches = Ok (s', places) /\
    forall i j e offs blocks o b, places !! i = Some (e, offs) -> batches !! i = Some blocks ->
      offs !! j = Some o -> blocks !! j = Some b -> sc_Read s' e o 1 = Ok ([b], None).
Proof.
  intros Hs Hb. destruct (append_all_ok batches s Hs Hb) as (s' & places & Hall & Hs' & Hst & _).
  exists s', places. split; [done|]. intros i j e offs blocks o b Hp Hbl Ho Hbj.
  pose proof (Forall2_lookup_lr _ _ _ _ _ _ Hst Hp Hbl) as Hst'. cbn in Hst'.
  pose proof (Forall2_lookup_lr _ _ _ _ _ _ Hst' Ho Hbj) as Hst''.
  by apply (sc_read_stored 0 s' e o b Hs').
Qed.
End AppendAll.

(** Every block of every batch appended to a new file-backed stream can be read back at the
    place reported, after all later appends and extent roll-overs. *)
Theorem mock_stream_durable suffix ids batches :
  (forall k, (k <= length batches)%nat -> is_u64 (ids k)) ->
  (forall k j, (k <= length batches)%nat -> (j <= length batches)%nat -> ids k = ids j -> k = j) ->
  Forall batch_ok batches ->
  exists c c' places, NewMockStreamClient suffix ids = Ok c /\
    append_all c batches = Ok (c', places) /\
    forall i j e offs blocks o b, places !! i = Some (e, offs) -> batches !! i = Some blocks ->
      offs !! j = Some o -> blocks !! j = Some b -> mock_Read c' e o 1 = Ok ([b], None).
Proof.
  intros Hu Hinj Hb. destruct (NewMockStreamClient_inv (length batches) suffix ids Hu Hinj) as (c & Hnew & Hc & _).
  destruct (append_all_readable (H0 := mock_StreamLaws) c batches Hc Hb) as (c' & places & Hall & Hr).
  exists c, c', places. done.
Qed.
