(* ===== verification/Skiplist.v ===== *)
(** Package rangepartition/skiplist (arena.go, skl.go): the memtable. Keys and
    encoded values live in the arena's buffer; nodes are kept in a store
    indexed by their arena offset, offset 0 being nil. *)
From Stdlib Require Import ZArith Lia.
From stdpp Require Import base option list numbers gmap strings.
From S2P Require Import Prelude GoLib Utils Proto Keys.

(** ** arena.go *)

Definition offsetSize : Z := 4.
Definition nodeAlign : Z := 7.
Definition maxHeight : Z := 20.
(** value 8, keyOffset 4, keySize 2, height 2, tower 20 * 4 bytes *)
Definition MaxNodeSize : Z := 96.

Record Arena := mkArena { an : Z; buf : bytes }.
Definition newArena (n : Z) : Arena := mkArena 1 (zrep n Byte.x00).
Definition arena_size (s : Arena) : Z := an s.
Definition arena_reset (s : Arena) : Arena := mkArena 0 (buf s).

(** the aligned offset for a node with a tower of [height] words *)
Definition putNode (s : Arena) (height : Z) : outcome (Arena * Z) :=
  let unusedSize := (maxHeight - height) * offsetSize in
  let l := u32 (MaxNodeSize - unusedSize + nodeAlign) in
  let n := u32 (an s + l) in
  assert (n <=? zlen (buf s))
    (Ok (mkArena n (buf s), Z.ldiff (u32 (u32 (n - l) + nodeAlign)) nodeAlign)).

Definition putVal (s : Arena) (v : ValueStruct) : outcome (Arena * Z) :=
  let l := EncodedSize v in
  let n := u32 (an s + l) in
  assert (n <=? zlen (buf s))
    (let m := u32 (n - l) in
     let! tl := slice_from (buf s) m in
     let! (tl, _) := VS_Encode v tl in
     Ok (mkArena n (ztake m (buf s) ++ tl), m)).

Definition putKey (s : Arena) (key : bytes) : outcome (Arena * Z) :=
  let l := u32 (zlen key) in
  let n := u32 (an s + l) in
  assert (n <=? zlen (buf s))
    (let m := u32 (n - l) in
     let! dst := slice (buf s) m n in
     assert (zlen key =? Z.min (zlen dst) (zlen key))
       (Ok (mkArena n (copy_at (buf s) m (ztake (zlen dst) key)), m))).

Definition getKey (s : Arena) (offset size : Z) : outcome bytes :=
  slice (buf s) offset (u32 (offset + size)).
Definition getVal (s : Arena) (offset size : Z) : outcome ValueStruct :=
  let! b := slice (buf s) offset (u32 (offset + size)) in VS_Decode b.

(** ** skl.go: nodes *)

Record node := mkNode { value : Z; keyOffset : Z; keySize : Z; height : Z; tower : list Z }.

(** the memory of a list: [head] is an offset, [height] the current level count *)
Record SL := mkSL { sl_height : Z; head : Z; arena : Arena; nodes : gmap Z node }.

Definition encodeValue (valOffset valSize : Z) : Z := Z.lor (Z.shiftl valSize 32) valOffset.
Definition decodeValue (value : Z) : Z * Z := (u32 value, u32 (Z.shiftr value 32)).

Definition getNode (s : SL) (off : Z) : outcome node :=
  match nodes s !! off with Some n => Ok n | None => Panic end.
Definition set_arena (s : SL) (a : Arena) : SL := mkSL (sl_height s) (head s) a (nodes s).
Definition set_node (s : SL) (off : Z) (n : node) : SL :=
  mkSL (sl_height s) (head s) (arena s) (<[off := n]> (nodes s)).

(** [newNode]: tower words of fresh memory are zero *)
Definition newNode (s : SL) (key : bytes) (v : ValueStruct) (h : Z) : outcome (SL * Z) :=
  let! (a, offset) := putNode (arena s) h in
  let! (a, ko) := putKey a key in
  let! (a, vo) := putVal a v in
  let nd := mkNode (encodeValue vo (EncodedSize v)) ko (u16 (zlen key)) (u16 h)
              (replicate (Z.to_nat h) 0) in
  Ok (set_node (set_arena s a) offset nd, offset).

Definition emptyVS : ValueStruct := mkVS 0 0 0 [] 0.
Definition NewSkiplist (arenaSize : Z) : outcome SL :=
  let! (s, h) := newNode (mkSL 1 0 (newArena arenaSize) ∅) [] emptyVS maxHeight in
  Ok (mkSL 1 h (arena s) (nodes s)).

Definition node_key (s : SL) (nd : node) : outcome bytes := getKey (arena s) (keyOffset nd) (keySize nd).
Definition setValue (s : SL) (off : Z) (v : ValueStruct) : outcome SL :=
  let! nd := getNode s off in
  let! (a, vo) := putVal (arena s) v in
  Ok (set_node (set_arena s a) off
        (mkNode (encodeValue vo (EncodedSize v)) (keyOffset nd) (keySize nd) (height nd) (tower nd))).
Definition getNextOffset (nd : node) (h : Z) : outcome Z := index (tower nd) h.
(** [getNext]: the offset, 0 for nil *)
Definition getNext (s : SL) (off h : Z) : outcome Z :=
  let! nd := getNode s off in getNextOffset nd h.

(** [randomHeight]: [draws] are the numbers [z.FastRand] returns *)
Definition heightIncrease : Z := MaxUint32 / 3.
Fixpoint random_loop (fuel : nat) (h : Z) (draws : nat -> Z) : Z :=
  match fuel with
  | O => h
  | S f => if (h <? maxHeight) && (draws 0%nat <=? heightIncrease)
           then random_loop f (h + 1) (fun i => draws (S i)) else h
  end.
Definition randomHeight (draws : nat -> Z) : Z := random_loop 20 1 draws.

(** ** skl.go: searching *)

Fixpoint find_near (fuel : nat) (s : SL) (key : bytes) (less allowEqual : bool) (x level : Z)
    : outcome (Z * bool) :=
  match fuel with
  | O => Panic
  | S fuel =>
      let this := if x =? head s then Ok (0, false) else Ok (x, false) in
      let! next := getNext s x level in
      if next =? 0 then
        if 0 <? level then find_near fuel s key less allowEqual x (level - 1)
        else if negb less then Ok (0, false) else this
      else
        let! nd := getNode s next in
        let! nextKey := node_key s nd in
        let! cmp := CompareKeys key nextKey in
        match cmp with
        | Gt => find_near fuel s key less allowEqual next level
        | Eq =>
            if allowEqual then Ok (next, true)
            else if negb less then let! n := getNext s next 0 in Ok (n, false)
            else if 0 <? level then find_near fuel s key less allowEqual x (level - 1)
            else this
        | Lt =>
            if 0 <? level then find_near fuel s key less allowEqual x (level - 1)
            else if negb less then Ok (next, false) else this
        end
  end.
Definition search_fuel (s : SL) : nat := (size (nodes s) + 21)%nat.
Definition findNear (s : SL) (key : bytes) (less allowEqual : bool) : outcome (Z * bool) :=
  find_near (search_fuel s) s key less allowEqual (head s) (sl_height s - 1).

Fixpoint find_splice (fuel : nat) (s : SL) (key : bytes) (before level : Z) : outcome (Z * Z) :=
  match fuel with
  | O => Panic
  | S fuel =>
      let! next := getNext s before level in
      if next =? 0 then Ok (before, next)
      else
        let! nd := getNode s next in
        let! nextKey := node_key s nd in
        let! cmp := CompareKeys key nextKey in
        match cmp with
        | Eq => Ok (next, next)
        | Lt => Ok (before, next)
        | Gt => find_splice fuel s key next level
        end
  end.
Definition findSpliceForLevel (s : SL) (key : bytes) (before level : Z) : outcome (Z * Z) :=
  find_splice (search_fuel s) s key before level.

Fixpoint find_last (fuel : nat) (s : SL) (n level : Z) : outcome Z :=
  match fuel with
  | O => Panic
  | S fuel =>
      let! next := getNext s n level in
      if negb (next =? 0) then find_last fuel s next level
      else if level =? 0 then (if n =? head s then Ok 0 else Ok n)
      else find_last fuel s n (level - 1)
  end.
Definition findLast (s : SL) : outcome Z := find_last (search_fuel s) s (head s) (sl_height s - 1).
Definition Empty (s : SL) : outcome bool := let! n := findLast s in Ok (n =? 0).

(** [Get]; [None] stands for the zero [ValueStruct], the only one whose
    [Value] is nil: [Decode] never leaves a nil slice *)
Definition Get_opt (s : SL) (key : bytes) : outcome (option ValueStruct) :=
  let! (n, _) := findNear s key false true in
  if n =? 0 then Ok None else
  let! nd := getNode s n in
  let! nextKey := getKey (arena s) (keyOffset nd) (keySize nd) in
  let! same := SameKey key nextKey in
  if negb same then Ok None else
  let '(valOffset, valSize) := decodeValue (value nd) in
  let! vs := getVal (arena s) valOffset valSize in
  let! ts := ParseTs nextKey in
  Ok (Some (mkVS (VMeta vs) (VUserMeta vs) (VExpiresAt vs) (VValue vs) ts)).
Definition Get (s : SL) (key : bytes) : outcome ValueStruct :=
  let! r := Get_opt s key in Ok (default emptyVS r).

(** ** skl.go: Put *)

(** the arrays [prev], [next] are indexed by level; 0 is nil *)
Fixpoint splice_down (i : nat) (s : SL) (key : bytes) (v : ValueStruct) (prev next : list Z)
    : outcome (SL + list Z * list Z) :=
  match i with
  | O => Ok (inr (prev, next))
  | S i =>
      let! before := index prev (Z.of_nat i + 1) in
      let! (p, n) := findSpliceForLevel s key before (Z.of_nat i) in
      if p =? n then let! s := setValue s p v in Ok (inl s)
      else splice_down i s key v (<[i := p]> prev) (<[i := n]> next)
  end.

Definition set_tower (s : SL) (off : Z) (i : nat) (val : Z) : outcome SL :=
  let! nd := getNode s off in
  if (i <? length (tower nd))%nat
  then Ok (set_node s off (mkNode (value nd) (keyOffset nd) (keySize nd) (height nd) (<[i := val]> (tower nd))))
  else Panic.

(** the inner loop of the insertion at level [i]: [inl] when the key appeared
    meanwhile and its value was set; the retries use up [fuel] *)
Fixpoint link_level (fuel : nat) (s : SL) (key : bytes) (v : ValueStruct) (x : Z) (i : nat) (p n : Z)
    : outcome (SL + SL) :=
  match fuel with
  | O => Panic
  | S fuel =>
      let! (p, n) :=
        (if p =? 0 then
           assert (1 <? Z.of_nat i)
             (let! (p, n) := findSpliceForLevel s key (head s) (Z.of_nat i) in
              assert (negb (p =? n)) (Ok (p, n)))
         else Ok (p, n)) in
      let! s := set_tower s x i n in
      let! cur := getNext s p (Z.of_nat i) in
      if cur =? n then let! s := set_tower s p i x in Ok (inr s)
      else
        let! (p, n) := findSpliceForLevel s key p (Z.of_nat i) in
        if p =? n then assert (i =? 0)%nat (let! s := setValue s p v in Ok (inl s))
        else link_level fuel s key v x i p n
  end.

(** levels [i], [i + 1], ... of the new node, [k] of them *)
Fixpoint link_loop (k : nat) (s : SL) (key : bytes) (v : ValueStruct) (x : Z) (i : nat) (prev next : list Z)
    : outcome SL :=
  match k with
  | O => Ok s
  | S k =>
      let! p := index prev (Z.of_nat i) in
      let! n := index next (Z.of_nat i) in
      let! r := link_level (search_fuel s) s key v x i p n in
      match r with
      | inl s => Ok s
      | inr s => link_loop k s key v x (S i) prev next
      end
  end.

Definition Put (s : SL) (key : bytes) (v : ValueStruct) (draws : nat -> Z) : outcome SL :=
  let listHeight := sl_height s in
  let prev := <[Z.to_nat listHeight := head s]> (replicate 21 0) in
  let next := replicate 21 0 in
  let! r := splice_down (Z.to_nat listHeight) s key v prev next in
  match r with
  | inl s => Ok s
  | inr (prev, next) =>
      let h := randomHeight draws in
      let! (s, x) := newNode s key v h in
      let s := if sl_height s <? h then mkSL h (head s) (arena s) (nodes s) else s in
      link_loop (Z.to_nat h) s key v x 0 prev next
  end.

Definition MemSize (s : SL) : Z := arena_size (arena s).

(** ** Reference counting *)

Record Skiplist := mkSkiplist { mem : option SL; ref : Z }.
Definition IncrRef (s : Skiplist) : Skiplist := mkSkiplist (mem s) (ref s + 1).
Definition DecrRef (s : Skiplist) : Skiplist :=
  if 0 <? ref s - 1 then mkSkiplist (mem s) (ref s - 1) else mkSkiplist None (ref s - 1).

(** ** Iterators: the position is a node offset, 0 when invalid *)

Definition it_Valid (n : Z) : bool := negb (n =? 0).
Definition it_Key (s : SL) (n : Z) : outcome bytes := let! nd := getNode s n in node_key s nd.
Definition it_Value (s : SL) (n : Z) : outcome ValueStruct :=
  let! nd := getNode s n in
  let '(valOffset, valSize) := decodeValue (value nd) in getVal (arena s) valOffset valSize.
Definition it_Next (s : SL) (n : Z) : outcome Z := assert (it_Valid n) (getNext s n 0).
Definition it_Prev (s : SL) (n : Z) : outcome Z :=
  assert (it_Valid n)
    (let! k := it_Key s n in let! (n, _) := findNear s k true false in Ok n).
Definition it_Seek (s : SL) (target : bytes) : outcome Z :=
  let! (n, _) := findNear s target false true in Ok n.
Definition it_SeekForPrev (s : SL) (target : bytes) : outcome Z :=
  let! (n, _) := findNear s target true true in Ok n.
Definition it_SeekToFirst (s : SL) : outcome Z := getNext s (head s) 0.
Definition it_SeekToLast (s : SL) : outcome Z := findLast s.

(** [UniIterator] *)
Definition uni_Next (s : SL) (reversed : bool) (n : Z) : outcome Z :=
  if negb reversed then it_Next s n else it_Prev s n.
Definition uni_Rewind (s : SL) (reversed : bool) : outcome Z :=
  if negb reversed then it_SeekToFirst s else it_SeekToLast s.
Definition uni_Seek (s : SL) (reversed : bool) (key : bytes) : outcome Z :=
  if negb reversed then it_Seek s key else it_SeekForPrev s key.
