(* ===== verification/SkiplistSpec.v ===== *)
(** The skiplist refines a sorted association list: the representation
    predicate, the search lemmas, and the theorems about Get, the iterators
    and Put. *)
From Stdlib Require Import ZArith Lia.
From stdpp Require Import base option list numbers gmap sorting strings.
From S2P Require Import Prelude GoLib Utils Proto Keys Skiplist.

(** ** Representation *)

(** one node of the list as the abstraction sees it *)
Record snode := mkS { soff : Z; skey : bytes; sval : ValueStruct; sh : nat }.

Definition klt (a b : snode) : Prop := kcmp (skey a) (skey b) = Lt.
Definition head_node (s : SL) : snode := mkS (head s) [] emptyVS 20.

(** the offset a link at level [lvl] has when [l] is what follows *)
Fixpoint first_off (lvl : nat) (l : list snode) : Z :=
  match l with
  | [] => 0
  | n :: l => if (lvl <? sh n)%nat then soff n else first_off lvl l
  end.

(** a node's key and value are stored below the arena's allocation mark *)
Record node_ok (s : SL) (n : snode) : Prop := mk_node_ok {
  no_nz : 0 < soff n;
  no_key8 : 8 <= zlen (skey n);
  no_height : (1 <= sh n)%nat /\ Z.of_nat (sh n) <= sl_height s;
  no_node : exists nd, nodes s !! soff n = Some nd /\
    length (tower nd) = sh n /\
    0 <= keyOffset nd /\ 0 <= keySize nd /\ keyOffset nd + keySize nd <= an (arena s) /\
    node_key s nd = Ok (skey n) /\
    (let '(vo, vs) := decodeValue (value nd) in
     0 <= vo /\ 0 <= vs /\ vo + vs <= an (arena s) /\ getVal (arena s) vo vs = Ok (sval n)) }.

Record repr (s : SL) (L : list snode) : Prop := mk_repr {
  r_height : 1 <= sl_height s <= 20;
  r_arena : 0 < an (arena s) <= zlen (buf (arena s)) /\ zlen (buf (arena s)) < 2 ^ 32;
  r_sorted : StronglySorted klt L;
  r_nodup : NoDup (head s :: (soff <$> L));
  r_head : 0 < head s /\ exists nd, nodes s !! head s = Some nd /\ length (tower nd) = 20%nat;
  r_below : forall off nd, nodes s !! off = Some nd -> off < an (arena s);
  r_nodes : Forall (node_ok s) L;
  r_links : forall pre x post lvl, head_node s :: L = pre ++ x :: post -> (lvl < sh x)%nat ->
    getNext s (soff x) (Z.of_nat lvl) = Ok (first_off lvl post) }.

(** ** Lemmas about positions *)

Lemma first_off_cases lvl l : Forall (fun n => 0 < soff n) l ->
  (first_off lvl l = 0 /\ Forall (fun n => (sh n <= lvl)%nat) l) \/
  exists p1 y p2, l = p1 ++ y :: p2 /\ (lvl < sh y)%nat /\
    Forall (fun n => (sh n <= lvl)%nat) p1 /\ first_off lvl l = soff y /\ soff y <> 0.
Proof.
  induction 1 as [|n l Hn Hl IH]; [by left|]. cbn [first_off].
  destruct (Nat.ltb_spec lvl (sh n)).
  - right. exists [], n, l. repeat split; try done. lia.
  - destruct IH as [[? ?]|(p1 & y & p2 & -> & ? & ? & ? & ?)].
    + left. split; [done|]. by constructor.
    + right. exists (n :: p1), y, p2. repeat split; try done. by constructor.
Qed.

(** a suffix of the list with its head node *)
Lemma suffix_of_list {A} (h : A) L pre x post :
  h :: L = pre ++ x :: post -> (pre = [] /\ x = h /\ post = L) \/ exists pre', pre = h :: pre' /\ L = pre' ++ x :: post.
Proof. destruct pre as [|h' pre]; cbn; intros [= <- ->]; [by left|right; eauto]. Qed.

Lemma repr_post s L pre x post (P : snode -> Prop) :
  head_node s :: L = pre ++ x :: post -> Forall P L -> Forall P post.
Proof.
  intros E H. apply suffix_of_list in E as [(_ & _ & ->)|(pre' & _ & ->)]; [done|].
  by apply Forall_app in H as [_ H%Forall_cons_1%proj2].
Qed.

Lemma repr_post_sorted s L pre x post :
  head_node s :: L = pre ++ x :: post -> StronglySorted klt L -> StronglySorted klt post.
Proof.
  intros E H. apply suffix_of_list in E as [(_ & _ & ->)|(pre' & _ & ->)]; [done|].
  apply StronglySorted_app_1_r in H. by apply StronglySorted_cons in H as [].
Qed.

Lemma sorted_before l1 (a : snode) l2 b : StronglySorted klt (l1 ++ b :: l2) -> a ∈ l1 -> klt a b.
Proof.
  intros H Ha. eapply (StronglySorted_app_1_elem_of klt l1 (b :: l2)); [done|done|left].
Qed.

Lemma klt_trans a b c : klt a b -> klt b c -> klt a c.
Proof. apply kcmp_lt_trans. Qed.

Lemma node_ok_key s n : node_ok s n -> exists nd, getNode s (soff n) = Ok nd /\ node_key s nd = Ok (skey n).
Proof.
  intros [_ _ _ (nd & Hn & _ & _ & _ & _ & Hk & _)]. exists nd. unfold getNode. by rewrite Hn.
Qed.

(** comparing with a node of the list *)
Lemma compare_node s n key : node_ok s n -> 8 <= zlen key ->
  (let! nd := getNode s (soff n) in let! k := node_key s nd in CompareKeys key k) =
    Ok (kcmp key (skey n)).
Proof.
  intros Hn Hk. destruct (node_ok_key s n Hn) as (nd & -> & Hkey). cbn [obind]. rewrite Hkey. cbn [obind].
  apply CompareKeys_kcmp; [done|apply Hn].
Qed.

(** ** Searching *)

(** what [findNear] returns when [p] is the last node before [key] and [ge]
    are the nodes from [key] on *)
Definition near_spec (s : SL) (key : bytes) (less allowEqual : bool) (p : snode) (ge : list snode) : Z * bool :=
  let this := if soff p =? head s then (0, false) else (soff p, false) in
  match ge with
  | [] => if less then this else (0, false)
  | y :: ge' =>
      match kcmp key (skey y) with
      | Eq => if allowEqual then (soff y, true)
              else if less then this else (first_off 0 ge', false)
      | _ => if less then this else (soff y, false)
      end
  end.

Definition before (key : bytes) (n : snode) : Prop := kcmp (skey n) key = Lt.
Definition not_before (key : bytes) (n : snode) : Prop := kcmp (skey n) key <> Lt.

(** a node that the search meets lies in the part it compares with *)
Lemma split_before key p1 y p2 lt ge :
  p1 ++ y :: p2 = lt ++ ge -> Forall (not_before key) ge -> before key y ->
  exists lt', lt = p1 ++ y :: lt' /\ p2 = lt' ++ ge.
Proof.
  intros E Hge Hy. apply app_eq_inv in E as [(k & -> & E)|(k & -> & E)].
  - subst ge. apply Forall_app in Hge as [_ Hge]. by apply Forall_cons in Hge as [[] _].
  - destruct k as [|z k]; cbn in E.
    + subst ge. by apply Forall_cons in Hge as [[] _].
    + simplify_eq. eauto.
Qed.

Lemma split_not_before key p1 y p2 lt ge :
  p1 ++ y :: p2 = lt ++ ge -> Forall (before key) lt -> ~ before key y ->
  exists k, p1 = lt ++ k /\ ge = k ++ y :: p2.
Proof.
  intros E Hlt Hy. apply app_eq_inv in E as [(k & -> & E)|(k & -> & E)]; [eauto|].
  destruct k as [|z k]; cbn in E.
  - exists []. rewrite !app_nil_r. done.
  - simplify_eq. apply Forall_app in Hlt as [_ Hlt]. by apply Forall_cons in Hlt as [? _].
Qed.

Lemma low_nil (l : list snode) lvl : Forall (fun n => (1 <= sh n)%nat) l ->
  Forall (fun n => (sh n <= lvl)%nat) l -> lvl = 0%nat -> l = [].
Proof. intros [|n l' Hn _] H ->; [done|]. apply Forall_cons in H as [H _]. lia. Qed.

Lemma kcmp_before key n : kcmp key (skey n) = Gt <-> before key n.
Proof. apply kcmp_gt_lt. Qed.

(** the node equal to [key] is the first that is not before it *)
Lemma split_eq key p1 y p2 lt ge :
  p1 ++ y :: p2 = lt ++ ge -> StronglySorted klt (lt ++ ge) ->
  Forall (before key) lt -> Forall (not_before key) ge -> kcmp key (skey y) = Eq ->
  p1 = lt /\ ge = y :: p2.
Proof.
  intros E Hs Hlt Hge Hy. rewrite <- E in Hs.
  destruct (split_not_before key p1 y p2 lt ge E Hlt) as (k & -> & ->).
  { intros Hb. apply kcmp_before in Hb. congruence. }
  destruct k as [|z k]; [by rewrite app_nil_r|]. exfalso.
  apply Forall_cons in Hge as [Hz _]. apply Hz. apply kcmp_eq in Hy. rewrite Hy.
  eapply (sorted_before (lt ++ z :: k)); [done|]. apply elem_of_app. right. left.
Qed.

Section Search.
Variables (s : SL) (L : list snode) (key : bytes).
Hypothesis (Hr : repr s L) (Hkey : 8 <= zlen key).

(** a position: the nodes after [x] split into those before [key] and the rest *)
Record at_pos (x : snode) (lt ge : list snode) : Prop := mk_at_pos {
  ap_split : exists pre, head_node s :: L = pre ++ x :: lt ++ ge;
  ap_lt : Forall (before key) lt;
  ap_ge : Forall (not_before key) ge }.

Lemma at_pos_ok x lt ge : at_pos x lt ge -> Forall (node_ok s) (lt ++ ge) /\
  StronglySorted klt (lt ++ ge).
Proof.
  intros [[pre E] _ _]. split; [eapply repr_post; [exact E|apply Hr]|].
  eapply repr_post_sorted; [exact E|apply Hr].
Qed.

Lemma at_pos_next x lt ge lvl : at_pos x lt ge -> (lvl < sh x)%nat ->
  getNext s (soff x) (Z.of_nat lvl) = Ok (first_off lvl (lt ++ ge)).
Proof. intros [[pre E] _ _] Hl. by apply (r_links s L Hr pre). Qed.

Lemma at_pos_move x lt ge p1 y lt' : at_pos x lt ge -> lt = p1 ++ y :: lt' -> at_pos y lt' ge.
Proof.
  intros [[pre E] Hlt Hge] ->. split; [|by apply Forall_app in Hlt as [_ [_ ?]%Forall_cons]|done].
  exists (pre ++ x :: p1). rewrite E. by rewrite <- !app_assoc.
Qed.

(** the position just behind the first node that is not before [key] *)
Lemma at_pos_after x lt y p2 : at_pos x lt (y :: p2) -> at_pos y [] p2.
Proof.
  intros [[pre E] Hlt Hge]. apply Forall_cons in Hge as [_ Hge]. split; [|done|done].
  exists (pre ++ x :: lt). rewrite E. by rewrite <- app_assoc.
Qed.

Definition last_of (x : snode) (lt : list snode) : snode := default x (last lt).
Lemma last_of_move x p1 y lt' : last_of x (p1 ++ y :: lt') = last_of y lt'.
Proof. unfold last_of. rewrite last_app, last_cons. by destruct (last lt'). Qed.

Lemma find_near_ok less allowEqual fuel : forall x lt ge lvl,
  at_pos x lt ge -> (lvl < sh x)%nat -> (length lt + lvl < fuel)%nat ->
  find_near fuel s key less allowEqual (soff x) (Z.of_nat lvl) =
    Ok (near_spec s key less allowEqual (last_of x lt) ge).
Proof.
  induction fuel as [|fuel IH]; intros x lt ge lvl Hpos Hl Hf; [lia|]. cbn [find_near].
  pose proof (at_pos_ok x lt ge Hpos) as [Hok Hsort].
  rewrite (at_pos_next x lt ge lvl Hpos Hl). cbn [obind].
  assert (Hdown : (0 < lvl)%nat -> find_near fuel s key less allowEqual (soff x) (Z.of_nat lvl - 1) =
    Ok (near_spec s key less allowEqual (last_of x lt) ge)).
  { intros. replace (Z.of_nat lvl - 1) with (Z.of_nat (lvl - 1)) by lia. apply IH; [done|lia|lia]. }
  assert (Hh1 : Forall (fun n => (1 <= sh n)%nat) (lt ++ ge)).
  { eapply Forall_impl; [exact Hok|]. intros n Hn. apply Hn. }
  destruct (first_off_cases lvl (lt ++ ge)) as [[-> Hlow]|(p1 & y & p2 & E & Hy & Hp1 & -> & Hnz)].
  { eapply Forall_impl; [exact Hok|]. intros n Hn. apply Hn. }
  - cbn [Z.eqb]. destruct (Z.ltb_spec 0 (Z.of_nat lvl)); [apply Hdown; lia|].
    apply low_nil in Hlow; [|done|lia]. apply app_nil in Hlow as [-> ->]. cbn.
    by destruct less, (soff x =? head s).
  - destruct (Z.eqb_spec (soff y) 0); [done|].
    assert (Hoky : node_ok s y).
    { rewrite E in Hok. by apply Forall_app in Hok as [_ [? _]%Forall_cons]. }
    pose proof (compare_node s y key Hoky Hkey) as Hc.
    destruct (getNode s (soff y)) as [nd| |]; try done. cbn [obind] in *.
    destruct (node_key s nd) as [k| |]; try done. cbn [obind] in *. rewrite Hc. cbn [obind].
    destruct (kcmp key (skey y)) eqn:Hcmp.
    + destruct (split_eq key p1 y p2 lt ge (eq_sym E) Hsort (ap_lt _ _ _ Hpos) (ap_ge _ _ _ Hpos) Hcmp)
        as [-> ->]. cbn [near_spec]. rewrite Hcmp.
      destruct allowEqual; [done|]. destruct less; cbn [negb].
      * destruct (Z.ltb_spec 0 (Z.of_nat lvl)); [|].
        { rewrite Hdown by lia. cbn [near_spec]. by rewrite Hcmp. }
        apply low_nil in Hp1; [|by apply Forall_app in Hh1 as [? _]|lia]. subst lt.
        change (last_of x []) with x. by destruct (soff x =? head s).
      * change 0 with (Z.of_nat 0) at 1. rewrite (at_pos_next y [] p2 0); [done|by apply (at_pos_after x lt)|apply Hoky].
    + destruct (Z.ltb_spec 0 (Z.of_nat lvl)); [apply Hdown; lia|].
      destruct (split_not_before key p1 y p2 lt ge (eq_sym E) (ap_lt _ _ _ Hpos)) as (k' & -> & ->).
      { intros Hb. apply kcmp_before in Hb. congruence. }
      apply low_nil in Hp1; [|rewrite E in Hh1; by apply Forall_app in Hh1 as [? _]|lia].
      apply app_nil in Hp1 as [-> ->]. cbn. rewrite Hcmp. by destruct less, (soff x =? head s).
    + apply kcmp_before in Hcmp.
      destruct (split_before key p1 y p2 lt ge (eq_sym E) (ap_ge _ _ _ Hpos) Hcmp) as (lt' & -> & ->).
      rewrite last_of_move. apply IH; [by eapply at_pos_move| |].
      * done.
      * rewrite length_app in Hf. cbn in Hf. lia.
Qed.

(** *** Splices *)

(** the last node of level [lvl] in [x :: lt] *)
Fixpoint last_lvl (lvl : nat) (x : snode) (lt : list snode) : snode :=
  match lt with
  | [] => x
  | n :: lt => if (lvl <? sh n)%nat then last_lvl lvl n lt else last_lvl lvl x lt
  end.

Definition splice_spec (lvl : nat) (x : snode) (lt ge : list snode) : Z * Z :=
  match ge with
  | y :: _ => match kcmp key (skey y), (lvl <? sh y)%nat with
              | Eq, true => (soff y, soff y)
              | _, _ => (soff (last_lvl lvl x lt), first_off lvl ge)
              end
  | [] => (soff (last_lvl lvl x lt), 0)
  end.

Lemma last_lvl_low lvl x lt : Forall (fun n => (sh n <= lvl)%nat) lt -> last_lvl lvl x lt = x.
Proof.
  intros H. revert x. induction H as [|n l Hn _ IH]; intros x; [done|]. cbn [last_lvl].
  destruct (Nat.ltb_spec lvl (sh n)); [lia|apply IH].
Qed.
Lemma last_lvl_move lvl x p1 y lt' : (lvl < sh y)%nat ->
  last_lvl lvl x (p1 ++ y :: lt') = last_lvl lvl y lt'.
Proof.
  intros Hy. revert x. induction p1 as [|n p1 IH]; intros x; cbn [last_lvl app].
  - destruct (Nat.ltb_spec lvl (sh y)); [done|lia].
  - destruct (lvl <? sh n)%nat; apply IH.
Qed.
Lemma first_off_low lvl l k : Forall (fun n => (sh n <= lvl)%nat) l ->
  first_off lvl (l ++ k) = first_off lvl k.
Proof.
  induction 1 as [|n l Hn _ IH]; [done|]. cbn [first_off app].
  destruct (Nat.ltb_spec lvl (sh n)); [lia|done].
Qed.

Lemma splice_low lvl x lt ge : Forall (fun n => (sh n <= lvl)%nat) lt ->
  (match ge with y :: _ => kcmp key (skey y) = Eq -> (sh y <= lvl)%nat | [] => True end) ->
  splice_spec lvl x lt ge = (soff x, first_off lvl ge).
Proof.
  intros Hlow Hy. unfold splice_spec. rewrite last_lvl_low by done.
  destruct ge as [|y ge]; [done|].
  destruct (kcmp key (skey y)); try done. destruct (Nat.ltb_spec lvl (sh y)); [|done].
  specialize (Hy eq_refl). lia.
Qed.

Lemma find_splice_ok fuel : forall x lt ge lvl,
  at_pos x lt ge -> (lvl < sh x)%nat -> (length lt < fuel)%nat ->
  find_splice fuel s key (soff x) (Z.of_nat lvl) = Ok (splice_spec lvl x lt ge).
Proof.
  induction fuel as [|fuel IH]; intros x lt ge lvl Hpos Hl Hf; [lia|]. cbn [find_splice].
  pose proof (at_pos_ok x lt ge Hpos) as [Hok Hsort].
  rewrite (at_pos_next x lt ge lvl Hpos Hl). cbn [obind].
  destruct (first_off_cases lvl (lt ++ ge)) as [[-> Hlow]|(p1 & y & p2 & E & Hy & Hp1 & -> & Hnz)].
  { eapply Forall_impl; [exact Hok|]. intros n Hn. apply Hn. }
  - cbn [Z.eqb]. apply Forall_app in Hlow as [Hlow1 Hlow2].
    rewrite splice_low; [|done|].
    + rewrite <- (app_nil_r ge), first_off_low by done. done.
    + destruct Hlow2; [done|]. by intros _.
  - destruct (Z.eqb_spec (soff y) 0); [done|].
    assert (Hoky : node_ok s y).
    { rewrite E in Hok. by apply Forall_app in Hok as [_ [? _]%Forall_cons]. }
    pose proof (compare_node s y key Hoky Hkey) as Hc.
    destruct (getNode s (soff y)) as [nd| |]; try done. cbn [obind] in *.
    destruct (node_key s nd) as [k| |]; try done. cbn [obind] in *. rewrite Hc. cbn [obind].
    destruct (kcmp key (skey y)) eqn:Hcmp.
    + destruct (split_eq key p1 y p2 lt ge (eq_sym E) Hsort (ap_lt _ _ _ Hpos) (ap_ge _ _ _ Hpos) Hcmp)
        as [-> ->]. cbn [splice_spec]. rewrite Hcmp. destruct (Nat.ltb_spec lvl (sh y)); [done|lia].
    + destruct (split_not_before key p1 y p2 lt ge (eq_sym E) (ap_lt _ _ _ Hpos)) as (k' & -> & ->).
      { intros Hb. apply kcmp_before in Hb. congruence. }
      apply Forall_app in Hp1 as [Hp1 Hp1']. rewrite splice_low; [|done|].
      * rewrite first_off_low by done. cbn [first_off]. destruct (Nat.ltb_spec lvl (sh y)); [done|lia].
      * destruct Hp1' as [|z k' Hz _]; cbn; [by rewrite Hcmp|by intros _].
    + apply kcmp_before in Hcmp.
      destruct (split_before key p1 y p2 lt ge (eq_sym E) (ap_ge _ _ _ Hpos) Hcmp) as (lt' & -> & ->).
      rewrite (IH y lt' ge lvl); [|by eapply at_pos_move|done|rewrite length_app in Hf; cbn in Hf; lia].
      unfold splice_spec. by rewrite last_lvl_move.
Qed.
End Search.

(** ** The search functions on the whole list *)

(** the parts of a list before and from [key] on *)
Fixpoint lt_part (key : bytes) (l : list snode) : list snode :=
  match l with
  | [] => []
  | n :: l => match kcmp (skey n) key with Lt => n :: lt_part key l | _ => [] end
  end.
Fixpoint ge_part (key : bytes) (l : list snode) : list snode :=
  match l with
  | [] => []
  | n :: l' => match kcmp (skey n) key with Lt => ge_part key l' | _ => l end
  end.

Lemma lt_ge_part key l : l = lt_part key l ++ ge_part key l.
Proof. induction l as [|n l IH]; [done|]. cbn. destruct (kcmp (skey n) key); [done| |done]. cbn. by f_equal. Qed.
Lemma lt_part_before key l : Forall (before key) (lt_part key l).
Proof. induction l as [|n l IH]; cbn; [done|]. destruct (kcmp (skey n) key) eqn:E; by constructor. Qed.
Lemma ge_part_not_before key l : StronglySorted klt l -> Forall (not_before key) (ge_part key l).
Proof.
  induction 1 as [|n l Hl IH Hn]; cbn; [done|]. destruct (kcmp (skey n) key) eqn:E; [|done|].
  all: constructor; [unfold not_before; congruence|]; eapply Forall_impl; [exact Hn|];
    intros m Hm Hb; unfold klt in Hm; pose proof (kcmp_lt_trans _ _ _ Hm Hb); congruence.
Qed.

Lemma at_pos_start s L key : repr s L -> at_pos s L key (head_node s) (lt_part key L) (ge_part key L).
Proof.
  intros Hr. split; [|apply lt_part_before|apply ge_part_not_before, Hr].
  exists []. cbn. f_equal. apply lt_ge_part.
Qed.

Lemma repr_size s L : repr s L -> (length L < size (nodes s))%nat.
Proof.
  intros Hr. assert (list_to_set (head s :: (soff <$> L)) ⊆ dom (nodes s)) as Hsub.
  { intros off Hin. apply elem_of_list_to_set in Hin. apply elem_of_dom.
    apply elem_of_cons in Hin as [->|Hin].
    - destruct (r_head s L Hr) as (_ & nd & -> & _). eauto.
    - apply list_elem_of_fmap in Hin as (n & -> & Hn).
      pose proof (r_nodes s L Hr) as Hf. rewrite Forall_forall in Hf.
      destruct (Hf n Hn) as [_ _ _ (nd & -> & _)]. eauto. }
  apply subseteq_size in Hsub. rewrite size_dom, size_list_to_set in Hsub by apply Hr.
  cbn in Hsub. rewrite length_fmap in Hsub. lia.
Qed.

Lemma lt_part_length key L : (length (lt_part key L) <= length L)%nat.
Proof. rewrite (lt_ge_part key L) at 2. rewrite length_app. lia. Qed.

(** last node before [key], the head node if there is none *)
Definition pred_node (s : SL) (key : bytes) (L : list snode) : snode :=
  last_of (head_node s) (lt_part key L).

Lemma findNear_spec s L key less allowEqual : repr s L -> 8 <= zlen key ->
  findNear s key less allowEqual =
    Ok (near_spec s key less allowEqual (pred_node s key L) (ge_part key L)).
Proof.
  intros Hr Hk. unfold findNear, search_fuel. pose proof (r_height s L Hr).
  pose proof (repr_size s L Hr). pose proof (lt_part_length key L).
  replace (sl_height s - 1) with (Z.of_nat (Z.to_nat (sl_height s) - 1)) by lia.
  apply (find_near_ok s L key Hr Hk less allowEqual _ (head_node s) (lt_part key L));
    [by apply at_pos_start|cbn; lia|lia].
Qed.

Lemma getNode_ok s n : node_ok s n -> exists nd, getNode s (soff n) = Ok nd /\
  nodes s !! soff n = Some nd.
Proof. intros [_ _ _ (nd & Hn & _)]. exists nd. unfold getNode. by rewrite Hn. Qed.

(** the value a node holds, with the version of its key *)
Definition versioned (v : ValueStruct) (ts : Z) : ValueStruct :=
  mkVS (VMeta v) (VUserMeta v) (VExpiresAt v) (VValue v) ts.

Lemma Get_opt_first s L key : repr s L -> 8 <= zlen key ->
  Get_opt s key =
    match ge_part key L with
    | [] => Ok None
    | n :: _ => let! same := SameKey key (skey n) in
                if negb same then Ok None
                else let! ts := ParseTs (skey n) in Ok (Some (versioned (sval n) ts))
    end.
Proof.
  intros Hr Hk. unfold Get_opt. rewrite (findNear_spec s L) by done. cbn [obind].
  assert (Hge : Forall (node_ok s) (ge_part key L)).
  { pose proof (r_nodes s L Hr) as Hf. rewrite (lt_ge_part key L) in Hf. by apply Forall_app in Hf as []. }
  destruct (ge_part key L) as [|n ge]; [done|]. apply Forall_cons in Hge as [Hn _].
  assert (fst (near_spec s key false true (pred_node s key L) (n :: ge)) = soff n) as Hfst.
  { cbn. by destruct (kcmp key (skey n)). }
  destruct (near_spec _ _ _ _ _ _) as [off b]. cbn in Hfst. subst off.
  pose proof (no_nz s n Hn). destruct (Z.eqb_spec (soff n) 0); [lia|].
  destruct Hn as [_ _ _ (nd & Hnd & _ & _ & _ & _ & Hkey & Hval)].
  unfold getNode. rewrite Hnd. cbn [obind]. unfold node_key in Hkey. rewrite Hkey. cbn [obind].
  destruct (SameKey key (skey n)) as [[]| |]; try done. cbn [obind negb].
  destruct (decodeValue (value nd)) as [vo vs]. destruct Hval as (_ & _ & _ & ->). done.
Qed.

(** ** Versions *)

Lemma zlen_KeyWithTs8 k t : 8 <= zlen (KeyWithTs k t).
Proof. rewrite zlen_KeyWithTs. pose proof (zlen_nonneg k). lia. Qed.

Lemma kcmp_versions k t k' u : 0 <= t <= MaxUint64 -> 0 <= u <= MaxUint64 ->
  kcmp (KeyWithTs k t) (KeyWithTs k' u) = match bytes_compare k k' with Eq => u ?= t | c => c end.
Proof.
  intros Ht Hu. pose proof (compare_versions k t k' u Ht Hu) as H.
  rewrite CompareKeys_kcmp in H by apply zlen_KeyWithTs8. by injection H.
Qed.

(** every stored key is some user key at some version *)
Lemma key_versioned (k : bytes) : 8 <= zlen k ->
  exists u t, k = KeyWithTs u t /\ 0 <= t <= MaxUint64.
Proof.
  intros Hk. destruct (versioned_split k Hk) as (u & t & -> & Ht).
  pose proof (be_get_range t) as Hr. rewrite Ht in Hr. change (256 ^ 8) with (2 ^ 64) in Hr.
  exists u, (MaxUint64 - be_get t). unfold MaxUint64 in *. split; [|lia].
  rewrite KeyWithTs_app. f_equal. unfold MaxUint64.
  replace (2 ^ 64 - 1 - (2 ^ 64 - 1 - be_get t)) with (be_get t) by lia.
  rewrite u64_small by lia.
  apply bytes_compare_eq. rewrite bytes_compare_be by (rewrite Ht; done).
  rewrite Uint64_Put, u64_small by lia. apply Z.compare_refl.
Qed.

(** the first node at or after [key] in the list *)
Lemma ge_part_first key L n ge : StronglySorted klt L -> ge_part key L = n :: ge ->
  n ∈ L /\ not_before key n /\ forall m, m ∈ L -> not_before key m -> m = n \/ klt n m.
Proof.
  intros Hs E. pose proof (lt_ge_part key L) as EL. rewrite E in EL.
  pose proof (ge_part_not_before key L Hs) as Hge. rewrite E in Hge.
  apply Forall_cons in Hge as [Hn _]. split; [rewrite EL; apply elem_of_app; right; left|]. split; [done|].
  intros m Hm Hb. rewrite EL in Hm, Hs. apply elem_of_app in Hm as [Hm|Hm].
  - pose proof (lt_part_before key L) as Hlt. rewrite Forall_forall in Hlt. by destruct (Hb (Hlt m Hm)).
  - apply elem_of_cons in Hm as [->|Hm]; [by left|right].
    apply StronglySorted_app_1_r in Hs. apply StronglySorted_cons in Hs as [Hf _].
    rewrite Forall_forall in Hf. by apply Hf.
Qed.

Lemma not_before_version uk ts u t : 0 <= t <= MaxUint64 -> 0 <= ts <= MaxUint64 ->
  (kcmp (KeyWithTs u t) (KeyWithTs uk ts) <> Lt <->
   bytes_compare u uk = Gt \/ (u = uk /\ t <= ts)).
Proof.
  intros Ht Hts. rewrite kcmp_versions by done. destruct (bytes_compare u uk) eqn:E.
  - apply bytes_compare_eq in E as ->. destruct (Z.compare_spec ts t); split; try done; try lia;
      intros; try (right; split; [done|lia]). destruct H0 as [|[_ ?]]; [done|lia].
  - split; [done|]. intros [|[-> _]]; [done|]. by rewrite bytes_compare_refl in E.
  - split; [by left|done].
Qed.

Lemma Get_opt_latest s L uk ts :
  repr s L -> uk <> [] -> 0 <= ts <= MaxUint64 ->
  (forall n t, n ∈ L -> skey n = KeyWithTs uk t -> 0 <= t <= ts ->
     (forall n' t', n' ∈ L -> skey n' = KeyWithTs uk t' -> 0 <= t' <= ts -> t' <= t) ->
     Get_opt s (KeyWithTs uk ts) = Ok (Some (versioned (sval n) t))) /\
  ((forall n t, n ∈ L -> skey n = KeyWithTs uk t -> 0 <= t <= MaxUint64 -> ts < t) ->
     Get_opt s (KeyWithTs uk ts) = Ok None).
Proof.
  intros Hr Huk Hts. set (key := KeyWithTs uk ts). pose proof (r_sorted s L Hr) as Hsort.
  rewrite (Get_opt_first s L) by (done || apply zlen_KeyWithTs8).
  pose proof (r_nodes s L Hr) as Hok. rewrite Forall_forall in Hok.
  assert (forall n ge, ge_part key L = n :: ge -> exists u t,
    skey n = KeyWithTs u t /\ 0 <= t <= MaxUint64 /\ (bytes_compare u uk = Gt \/ (u = uk /\ t <= ts))) as Hfirst.
  { intros n ge E. destruct (ge_part_first key L n ge Hsort E) as (Hin & Hnb & _).
    destruct (key_versioned (skey n) ltac:(by apply Hok)) as (u & t & Hk & Ht). exists u, t.
    split; [done|]. split; [done|]. unfold not_before in Hnb. rewrite Hk in Hnb. by apply not_before_version in Hnb. }
  split.
  - intros n t Hin Hk Ht Hmax.
    assert (not_before key n) as Hnb.
    { unfold not_before. rewrite Hk. apply not_before_version; [lia|done|]. right. split; [done|lia]. }
    destruct (ge_part key L) as [|m ge] eqn:E.
    { exfalso. pose proof (lt_ge_part key L) as EL. rewrite E, app_nil_r in EL. rewrite EL in Hin.
      pose proof (lt_part_before key L) as Hlt. rewrite Forall_forall in Hlt. by apply Hnb, Hlt. }
    destruct (ge_part_first key L m ge Hsort E) as (Hm & _ & Hlow).
    destruct (Hfirst m ge eq_refl) as (u & t' & Hkm & Ht' & Hcase).
    assert (m = n) as ->.
    { destruct (Hlow n Hin Hnb) as [->|Hlt]; [done|]. exfalso. unfold klt in Hlt.
      rewrite Hkm, Hk, kcmp_versions in Hlt by (unfold MaxUint64 in *; lia).
      destruct Hcase as [Hg|[-> Hle]]; [by rewrite Hg in Hlt|].
      rewrite bytes_compare_refl in Hlt. rewrite Z.compare_lt_iff in Hlt.
      specialize (Hmax m t' Hm Hkm ltac:(lia)). lia. }
    destruct (parse_KeyWithTs uk ts Hts) as (_ & _ & Hsame).
    destruct (parse_KeyWithTs uk t ltac:(lia)) as (_ & Hp & _).
    rewrite Hk. unfold key. rewrite Hsame, Hp, bool_decide_true by done. cbn [obind negb].
    by rewrite decide_False.
  - intros Hnone. destruct (ge_part key L) as [|m ge] eqn:E; [done|].
    destruct (Hfirst m ge eq_refl) as (u & t & Hkm & Ht & Hcase).
    destruct (ge_part_first key L m ge Hsort E) as (Hm & _).
    destruct (parse_KeyWithTs uk ts Hts) as (_ & _ & Hsame).
    rewrite Hkm. unfold key. rewrite Hsame, bool_decide_false; [done|]. intros <-.
    destruct Hcase as [Hg|[_ Hle]]; [by rewrite bytes_compare_refl in Hg|].
    specialize (Hnone m t Hm Hkm Ht). lia.
Qed.

(** Skiplist.Get at a read timestamp returns the value of the newest version of the user key
    not after it, with that version's timestamp, and the zero value when there is none. *)
Theorem Get_latest s L uk ts :
  repr s L -> uk <> [] -> 0 <= ts <= MaxUint64 ->
  (forall n t, n ∈ L -> skey n = KeyWithTs uk t -> 0 <= t <= ts ->
     (forall n' t', n' ∈ L -> skey n' = KeyWithTs uk t' -> 0 <= t' <= ts -> t' <= t) ->
     Get s (KeyWithTs uk ts) = Ok (versioned (sval n) t)) /\
  ((forall n t, n ∈ L -> skey n = KeyWithTs uk t -> 0 <= t <= MaxUint64 -> ts < t) ->
     Get s (KeyWithTs uk ts) = Ok emptyVS).
Proof.
  intros Hr Huk Hts. destruct (Get_opt_latest s L uk ts Hr Huk Hts) as [H1 H2]. unfold Get. split.
  - intros n t Hin Hk Ht Hmax. by rewrite (H1 n t).
  - intros Hn. by rewrite H2.
Qed.

(** ** Iteration *)

(** the offset of a node found, 0 for the head node *)
Definition off_or_nil (s : SL) (n : snode) : Z := if soff n =? head s then 0 else soff n.

Lemma first_off_0 L : Forall (fun n => (1 <= sh n)%nat) L ->
  first_off 0 L = match L with [] => 0 | n :: _ => soff n end.
Proof. intros [|n L' Hn _]; [done|]. cbn [first_off]. destruct (Nat.ltb_spec 0 (sh n)); [done|lia]. Qed.

Lemma repr_heights s L : repr s L -> Forall (fun n => (1 <= sh n)%nat) L.
Proof. intros Hr. eapply Forall_impl; [apply Hr|]. intros n Hn. apply Hn. Qed.

Lemma find_last_ok s L fuel : repr s L -> forall pre x post lvl,
  head_node s :: L = pre ++ x :: post -> (lvl < sh x)%nat -> (length post + lvl < fuel)%nat ->
  find_last fuel s (soff x) (Z.of_nat lvl) = Ok (off_or_nil s (last_of x post)).
Proof.
  intros Hr. induction fuel as [|fuel IH]; intros pre x post lvl E Hl Hf; [lia|]. cbn [find_last].
  rewrite (r_links s L Hr pre x post lvl E Hl). cbn [obind].
  pose proof (repr_post _ _ _ _ _ _ E (r_nodes s L Hr)) as Hok.
  destruct (first_off_cases lvl post) as [[-> Hlow]|(p1 & y & p2 & -> & Hy & _ & -> & Hnz)].
  { eapply Forall_impl; [exact Hok|]. intros n Hn. apply Hn. }
  - cbn [Z.eqb negb]. destruct (Z.eqb_spec (Z.of_nat lvl) 0).
    + apply low_nil in Hlow; [|eapply Forall_impl; [exact Hok|]; intros n Hn; apply Hn|lia].
      subst post. unfold off_or_nil. change (last_of x []) with x. by destruct (soff x =? head s).
    + replace (Z.of_nat lvl - 1) with (Z.of_nat (lvl - 1)) by lia. by apply (IH pre); [|lia|lia].
  - destruct (Z.eqb_spec (soff y) 0); [done|]. cbn [negb]. rewrite last_of_move.
    apply (IH (pre ++ x :: p1)); [by rewrite <- app_assoc|done|].
    rewrite length_app in Hf. cbn in Hf. lia.
Qed.

Lemma findLast_spec s L : repr s L -> findLast s = Ok (off_or_nil s (last_of (head_node s) L)).
Proof.
  intros Hr. unfold findLast, search_fuel. pose proof (r_height s L Hr). pose proof (repr_size s L Hr).
  replace (sl_height s - 1) with (Z.of_nat (Z.to_nat (sl_height s) - 1)) by lia.
  apply (find_last_ok s L _ Hr [] (head_node s) L); [done|cbn; lia|lia].
Qed.

Lemma it_at s L l1 n l2 : repr s L -> L = l1 ++ n :: l2 ->
  it_Valid (soff n) = true /\ it_Key s (soff n) = Ok (skey n) /\ it_Value s (soff n) = Ok (sval n) /\
  it_Next s (soff n) = Ok (match l2 with [] => 0 | m :: _ => soff m end).
Proof.
  intros Hr ->. pose proof (r_nodes s _ Hr) as Hok. apply Forall_app in Hok as [_ Hok].
  apply Forall_cons in Hok as [Hn Hl2].
  assert (it_Valid (soff n) = true) as Hv.
  { unfold it_Valid. pose proof (no_nz s n Hn). destruct (Z.eqb_spec (soff n) 0); [lia|done]. }
  split; [done|]. unfold it_Next. rewrite Hv. cbn [assert].
  change 0 with (Z.of_nat 0) at 1. rewrite (r_links s _ Hr (head_node s :: l1) n l2 0); [|done|apply Hn].
  rewrite first_off_0 by (eapply Forall_impl; [exact Hl2|]; intros m Hm; apply Hm).
  destruct Hn as [_ _ _ (nd & Hnd & _ & _ & _ & _ & Hkey & Hval)].
  unfold it_Key, it_Value, getNode. rewrite Hnd. cbn [obind]. split; [done|].
  destruct (decodeValue (value nd)) as [vo vs]. by destruct Hval as (_ & _ & _ & ->).
Qed.

(** everything an iterator yields from position [n] on *)
Fixpoint collect (fuel : nat) (s : SL) (n : Z) : outcome (list (bytes * ValueStruct)) :=
  match fuel with
  | O => Panic
  | S fuel =>
      if it_Valid n then
        let! k := it_Key s n in
        let! v := it_Value s n in
        let! n' := it_Next s n in
        let! r := collect fuel s n' in Ok ((k, v) :: r)
      else Ok []
  end.
Definition contents (L : list snode) : list (bytes * ValueStruct) := (fun n => (skey n, sval n)) <$> L.

Lemma collect_ok s L : repr s L -> forall l2 l1 fuel, L = l1 ++ l2 -> (length l2 < fuel)%nat ->
  collect fuel s (match l2 with [] => 0 | n :: _ => soff n end) = Ok (contents l2).
Proof.
  intros Hr. induction l2 as [|n l2 IH]; intros l1 [|fuel] E Hf; cbn in Hf; try lia; [done|].
  destruct (it_at s L l1 n l2 Hr E) as (Hv & Hk & Hval & Hn).
  cbn [collect]. rewrite Hv, Hk. cbn [obind]. rewrite Hval. cbn [obind]. rewrite Hn. cbn [obind].
  rewrite (IH (l1 ++ [n]) fuel); [done|by rewrite <- app_assoc|lia].
Qed.

Lemma SeekToFirst_ok s L : repr s L ->
  it_SeekToFirst s = Ok (match L with [] => 0 | n :: _ => soff n end).
Proof.
  intros Hr. rewrite <- first_off_0 by by apply (repr_heights s).
  apply (r_links s L Hr [] (head_node s) L 0); [done|cbn; lia].
Qed.

Lemma Seek_ok s L target : repr s L -> 8 <= zlen target ->
  it_Seek s target = Ok (match ge_part target L with [] => 0 | n :: _ => soff n end).
Proof.
  intros Hr Ht. unfold it_Seek. rewrite (findNear_spec s L) by done. cbn [obind].
  destruct (ge_part target L) as [|n ge]; [done|]. cbn. by destruct (kcmp target (skey n)).
Qed.

Lemma contents_sorted L : StronglySorted klt L ->
  StronglySorted (fun a b => kcmp (fst a) (fst b) = Lt) (contents L).
Proof.
  induction 1 as [|n l Hl IH Hn]; cbn; constructor; [done|].
  unfold contents. rewrite Forall_fmap. done.
Qed.

(** The skiplist iterator yields the contents in strictly increasing key order from the first
    node, and from the first key not before the target after Seek. *)
Theorem iterator_yields_sorted s L target fuel :
  repr s L -> 8 <= zlen target -> (length L < fuel)%nat ->
  (let! n := it_SeekToFirst s in collect fuel s n) = Ok (contents L) /\
  (let! n := it_Seek s target in collect fuel s n) = Ok (contents (ge_part target L)) /\
  StronglySorted (fun a b => kcmp (fst a) (fst b) = Lt) (contents L).
Proof.
  intros Hr Ht Hf. split; [|split; [|apply contents_sorted, Hr]].
  - rewrite (SeekToFirst_ok s L Hr). by apply (collect_ok s L Hr L []).
  - rewrite (Seek_ok s L) by done. cbn [obind]. pose proof (lt_ge_part target L) as EL.
    apply (collect_ok s L Hr _ (lt_part target L)); [done|].
    rewrite EL, length_app in Hf. lia.
Qed.

(** the last node of the list is the head only for an empty list *)
Lemma off_or_nil_last s L : repr s L -> forall l, (exists k, L = l ++ k) ->
  off_or_nil s (last_of (head_node s) l) = match last l with Some n => soff n | None => 0 end.
Proof.
  intros Hr l [k ->]. unfold off_or_nil, last_of. destruct (last l) as [n|] eqn:E; cbn; [|by rewrite Z.eqb_refl].
  destruct (Z.eqb_spec (soff n) (head s)) as [Eh|]; [|done]. exfalso.
  pose proof (r_nodup s _ Hr) as Hn. apply NoDup_cons in Hn as [Hn _]. apply Hn. rewrite <- Eh.
  apply list_elem_of_fmap. exists n. split; [done|]. apply elem_of_app. left.
  apply last_Some in E as [l' ->]. apply elem_of_app. right. left.
Qed.

Definition end_off (l : list snode) : Z := match last l with Some n => soff n | None => 0 end.

Lemma SeekToLast_ok s L : repr s L -> it_SeekToLast s = Ok (end_off L).
Proof.
  intros Hr. unfold it_SeekToLast. rewrite (findLast_spec s L Hr), (off_or_nil_last s L Hr); [done|].
  exists []. by rewrite app_nil_r.
Qed.

Lemma Prev_ok s L l1 n l2 : repr s L -> L = l1 ++ n :: l2 -> it_Prev s (soff n) = Ok (end_off l1).
Proof.
  intros Hr E. destruct (it_at s L l1 n l2 Hr E) as (Hv & Hk & _).
  unfold it_Prev. rewrite Hv. cbn [assert]. rewrite Hk. cbn [obind].
  assert (node_ok s n) as Hn.
  { pose proof (r_nodes s L Hr) as Hok. rewrite E in Hok. by apply Forall_app in Hok as [_ [? _]%Forall_cons]. }
  rewrite (findNear_spec s L) by (done || apply Hn). cbn [obind].
  pose proof (r_sorted s L Hr) as Hs. rewrite (lt_ge_part (skey n) L) in E.
  destruct (split_eq (skey n) l1 n l2 (lt_part (skey n) L) (ge_part (skey n) L)) as [El Eg].
  - done.
  - by rewrite <- lt_ge_part.
  - apply lt_part_before.
  - by apply ge_part_not_before.
  - apply kcmp_refl.
  - unfold end_off. rewrite Eg, El. cbn [near_spec]. rewrite kcmp_refl. fold (off_or_nil s (pred_node s (skey n) L)).
    unfold pred_node. rewrite <- (off_or_nil_last s L Hr (lt_part (skey n) L))
      by (eexists; apply lt_ge_part). unfold off_or_nil. by destruct (_ =? _).
Qed.

Lemma SeekForPrev_ok s L target : repr s L -> 8 <= zlen target ->
  it_SeekForPrev s target =
    Ok (match ge_part target L with
        | n :: _ => if decide (skey n = target) then soff n else end_off (lt_part target L)
        | [] => end_off (lt_part target L)
        end).
Proof.
  intros Hr Ht. unfold it_SeekForPrev. rewrite (findNear_spec s L) by done. cbn [obind]. unfold end_off.
  rewrite <- (off_or_nil_last s L Hr (lt_part target L)) by (eexists; apply lt_ge_part).
  fold (pred_node s target L). unfold near_spec, off_or_nil.
  destruct (ge_part target L) as [|n ge]; [by destruct (_ =? _)|].
  destruct (kcmp target (skey n)) eqn:E.
  - apply kcmp_eq in E as <-. by rewrite decide_True.
  - rewrite decide_False by (intros <-; by rewrite kcmp_refl in E). by destruct (_ =? _).
  - rewrite decide_False by (intros <-; by rewrite kcmp_refl in E). by destruct (_ =? _).
Qed.

(** SeekToLast, Prev and SeekForPrev position the skiplist iterator at the last node, the
    predecessor and the last node not after the target. *)
Theorem iterator_backwards s L target :
  repr s L -> 8 <= zlen target ->
  it_SeekToLast s = Ok (end_off L) /\
  (forall l1 n l2, L = l1 ++ n :: l2 -> it_Prev s (soff n) = Ok (end_off l1)) /\
  it_SeekForPrev s target =
    Ok (match ge_part target L with
        | n :: _ => if decide (skey n = target) then soff n else end_off (lt_part target L)
        | [] => end_off (lt_part target L)
        end).
Proof. intros Hr Ht. split; [|split]; [by apply SeekToLast_ok|by eauto using Prev_ok|by apply SeekForPrev_ok]. Qed.
