(* ===== verification/SkiplistPut.v ===== *)
(** [Skiplist.Put]: arena allocation, and the proof that inserting a node
    level by level refines insertion into the sorted list. *)
From Stdlib Require Import ZArith Lia.
From stdpp Require Import base option list numbers gmap sorting strings.
From S2P Require Import Prelude GoLib Utils Proto Keys Skiplist SkiplistSpec.

(** ** The arena *)

(** [b] after: allocated further, and unchanged below the old mark *)
Record arena_ext (a b : Arena) : Prop := mk_ext {
  ext_mark : an a <= an b;
  ext_len : zlen (buf b) = zlen (buf a);
  ext_room : an b <= zlen (buf b);
  ext_read : forall lo hi, hi <= an a -> slice (buf b) lo hi = slice (buf a) lo hi }.

Lemma arena_ext_trans a b c : arena_ext a b -> arena_ext b c -> arena_ext a c.
Proof.
  intros [M1 L1 R1 S1] [M2 L2 R2 S2]. split; [lia|lia|lia|].
  intros lo hi H. rewrite S2, S1 by lia. done.
Qed.

Lemma ztake_ztake {A} n m (l : list A) : n <= m -> ztake n (ztake m l) = ztake n l.
Proof. intros. unfold ztake. rewrite take_take. f_equal. lia. Qed.

Lemma slice_prefix (b c : bytes) n lo hi : ztake n b = ztake n c -> zlen b = zlen c -> hi <= n ->
  slice b lo hi = slice c lo hi.
Proof.
  intros E El Hh. unfold slice. rewrite El.
  destruct (Z.leb_spec 0 lo); [|done]. destruct (Z.leb_spec lo hi); [|done]. cbn [andb].
  destruct (hi <=? zlen c); [|done]. f_equal. unfold ztake, zdrop in *.
  assert (forall l : bytes, take (Z.to_nat (hi - lo)) (drop (Z.to_nat lo) l) =
    drop (Z.to_nat lo) (take (Z.to_nat hi) (take (Z.to_nat n) l))) as Hx.
  { intros l. rewrite take_take, take_drop_commute. do 2 f_equal. lia. }
  by rewrite !Hx, E.
Qed.

Lemma copy_at_prefix {A} (b : list A) off src : 0 <= off <= zlen b -> ztake off (copy_at b off src) = ztake off b.
Proof. intros. unfold copy_at. apply ztake_app_exact. by apply zlen_ztake. Qed.

Lemma slice_copy_at (b src : bytes) off : 0 <= off -> off + zlen src <= zlen b ->
  slice (copy_at b off src) off (off + zlen src) = Ok src.
Proof.
  intros H0 H1. pose proof (zlen_nonneg src). rewrite slice_Ok by (rewrite ?zlen_copy_at; lia). f_equal.
  unfold copy_at. rewrite zdrop_app_exact by (apply zlen_ztake; lia).
  rewrite (ztake_ge (zlen b - off)) by lia. apply ztake_app_exact. lia.
Qed.

Lemma arena_copy_ext a (src : bytes) : 0 <= an a -> an a + zlen src <= zlen (buf a) ->
  arena_ext a (mkArena (an a + zlen src) (copy_at (buf a) (an a) src)).
Proof.
  intros H0 H1. pose proof (zlen_nonneg src).
  split; cbn [an buf]; rewrite ?zlen_copy_at by lia; try lia.
  intros lo hi Hh. apply (slice_prefix _ _ (an a)); [|by apply zlen_copy_at; lia|lia].
  apply copy_at_prefix. lia.
Qed.

Lemma putKey_ok a key : 0 <= an a -> an a + zlen key <= zlen (buf a) -> zlen (buf a) < 2 ^ 32 ->
  putKey a key = Ok (mkArena (an a + zlen key) (copy_at (buf a) (an a) key), an a).
Proof.
  intros H0 H1 H2. pose proof (zlen_nonneg key). unfold putKey.
  rewrite (u32_small (zlen key)), (u32_small (an a + zlen key)) by lia.
  destruct (Z.leb_spec (an a + zlen key) (zlen (buf a))); [|lia]. cbn [assert].
  replace (an a + zlen key - zlen key) with (an a) by lia. rewrite u32_small by lia.
  rewrite slice_Ok by lia. cbn [obind].
  rewrite zlen_ztake by (rewrite zlen_zdrop; lia).
  replace (an a + zlen key - an a) with (zlen key) by lia.
  rewrite Z.min_id, Z.eqb_refl. cbn [assert]. by rewrite ztake_ge by lia.
Qed.

Lemma putVal_ok a v : VS_wf v -> 0 <= an a -> an a + EncodedSize v <= zlen (buf a) ->
  zlen (buf a) < 2 ^ 32 ->
  putVal a v = Ok (mkArena (an a + zlen (VS_bytes v)) (copy_at (buf a) (an a) (VS_bytes v)), an a).
Proof.
  intros Hv H0 H1 H2. pose proof (zlen_VS_bytes v Hv) as Hz. pose proof (zlen_nonneg (VS_bytes v)).
  unfold putVal. rewrite (u32_small (an a + _)) by lia.
  destruct (Z.leb_spec (an a + EncodedSize v) (zlen (buf a))); [|lia]. cbn [assert].
  replace (an a + EncodedSize v - EncodedSize v) with (an a) by lia. rewrite u32_small by lia.
  rewrite slice_from_Ok by lia. cbn [obind].
  rewrite VS_Encode_bytes by (done || rewrite zlen_zdrop; lia). cbn [obind].
  rewrite <- Hz. unfold copy_at. rewrite zdrop_zdrop by lia. do 3 f_equal.
  by rewrite (ztake_ge (zlen (buf a) - an a)) by lia.
Qed.

(** the node's region lies inside what was allocated for it *)
Lemma putNode_ok a h : 1 <= h <= 20 -> 0 <= an a -> an a + (23 + 4 * h) <= zlen (buf a) ->
  zlen (buf a) < 2 ^ 32 ->
  exists m, putNode a h = Ok (mkArena (an a + (23 + 4 * h)) (buf a), m) /\
    an a <= m /\ m mod 8 = 0 /\ m + (16 + 4 * h) <= an a + (23 + 4 * h).
Proof.
  intros Hh H0 H1 H2. unfold putNode, maxHeight, offsetSize, MaxNodeSize, nodeAlign.
  replace (96 - (20 - h) * 4 + 7) with (23 + 4 * h) by lia.
  rewrite (u32_small (23 + 4 * h)), (u32_small (an a + _)) by lia.
  destruct (Z.leb_spec (an a + (23 + 4 * h)) (zlen (buf a))); [|lia]. cbn [assert].
  replace (an a + (23 + 4 * h) - (23 + 4 * h)) with (an a) by lia. rewrite !u32_small by (rewrite ?u32_small; lia).
  eexists. split; [done|]. change 7 with (Z.ones 3) at 2 4 6.
  rewrite Z.ldiff_ones_r, Z.shiftl_mul_pow2, Z.shiftr_div_pow2 by lia. change (2 ^ 3) with 8.
  pose proof (Z.div_mod (an a + 7) 8 ltac:(lia)). pose proof (Z.mod_pos_bound (an a + 7) 8 ltac:(lia)).
  rewrite Z.mod_mul by lia. lia.
Qed.

Lemma encode_decode vo vs : 0 <= vo < 2 ^ 32 -> 0 <= vs < 2 ^ 32 ->
  decodeValue (encodeValue vo vs) = (vo, vs).
Proof.
  intros Ho Hs. unfold decodeValue, encodeValue. rewrite Z.lor_comm, lor_disjoint_add by lia.
  rewrite Z.shiftr_div_pow2 by lia. unfold u32. f_equal.
  - rewrite Z.mod_add by lia. by apply Z.mod_small.
  - rewrite Z.div_add by lia. rewrite (Z.div_small vo) by lia. by apply Z.mod_small.
Qed.

Lemma getVal_stored a v : VS_wf v -> 0 <= an a -> an a + EncodedSize v <= zlen (buf a) -> zlen (buf a) < 2 ^ 32 ->
  getVal (mkArena (an a + zlen (VS_bytes v)) (copy_at (buf a) (an a) (VS_bytes v))) (an a) (EncodedSize v) =
    Ok (versioned v 0).
Proof.
  intros Hv H0 H1 H2. pose proof (zlen_VS_bytes v Hv) as Hz. pose proof (zlen_nonneg (VS_bytes v)).
  unfold getVal. cbn [buf]. rewrite u32_small, <- Hz, slice_copy_at by lia. cbn [obind].
  by rewrite VS_Decode_bytes.
Qed.

(** ** What a change keeps *)

(** Node [nd'] keeps what the list knows of [nd] except its links. *)
Definition same_core (nd nd' : node) : Prop :=
  value nd' = value nd /\ keyOffset nd' = keyOffset nd /\ keySize nd' = keySize nd /\
  length (tower nd') = length (tower nd).

Lemma node_key_ext s s' nd k : arena_ext (arena s) (arena s') ->
  0 <= keyOffset nd -> 0 <= keySize nd -> keyOffset nd + keySize nd <= an (arena s) ->
  an (arena s) < 2 ^ 32 -> node_key s nd = Ok k -> node_key s' nd = Ok k.
Proof.
  intros He H0 H1 H2 H3 Hk. unfold node_key, getKey in *. rewrite <- Hk.
  apply He. rewrite u32_small; lia.
Qed.

Lemma getVal_ext a b vo vs v : arena_ext a b -> 0 <= vo -> 0 <= vs -> vo + vs <= an a -> an a < 2 ^ 32 ->
  getVal a vo vs = Ok v -> getVal b vo vs = Ok v.
Proof.
  intros He H0 H1 H2 H3 Hv. unfold getVal in *. rewrite (ext_read a b He); [done|].
  rewrite u32_small; lia.
Qed.

(** a node survives when the arena grows and its entry keeps its core *)
Lemma node_ok_ext s s' n nd nd' : node_ok s n -> arena_ext (arena s) (arena s') ->
  an (arena s) < 2 ^ 32 -> sl_height s <= sl_height s' ->
  nodes s !! soff n = Some nd -> nodes s' !! soff n = Some nd' -> same_core nd nd' -> node_ok s' n.
Proof.
  intros [Hnz Hk8 Hh (nd0 & Hn & Ht & Hko & Hks & Hkb & Hkey & Hval)] He Hb Hsh Hnd Hnd' (Ev & Eo & Es & Et).
  rewrite Hnd in Hn. injection Hn as <-. split; [done|done|lia|]. exists nd'. split; [done|].
  rewrite Eo, Es, Ev, Et. pose proof (ext_mark _ _ He). repeat (split; [done || lia|]). split.
  - unfold node_key. rewrite Eo, Es. by apply (node_key_ext s s').
  - destruct (decodeValue (value nd)) as [vo vs]. destruct Hval as (? & ? & ? & Hv).
    repeat (split; [lia|]). by eapply getVal_ext.
Qed.

(** [set_tower] changes one link and nothing else *)
Lemma set_tower_ok s off i val nd : nodes s !! off = Some nd -> (i < length (tower nd))%nat ->
  exists s', set_tower s off i val = Ok s' /\ arena s' = arena s /\ head s' = head s /\
    sl_height s' = sl_height s /\
    (forall o d, nodes s !! o = Some d -> exists d', nodes s' !! o = Some d' /\ same_core d d') /\
    (forall o, is_Some (nodes s' !! o) <-> is_Some (nodes s !! o)) /\
    (forall o l, is_Some (nodes s !! o) -> getNext s' o (Z.of_nat l) =
       if decide (o = off /\ l = i) then Ok val else getNext s o (Z.of_nat l)).
Proof.
  intros Hn Hi. unfold set_tower, getNode. rewrite Hn. cbn [obind].
  destruct (Nat.ltb_spec i (length (tower nd))); [|lia]. eexists. split; [done|].
  cbn [arena head sl_height nodes set_node]. repeat (split; [done|]). split; [|split].
  - intros o d Ho. destruct (decide (o = off)) as [->|Hne].
    + rewrite lookup_insert_eq. eexists. split; [done|]. rewrite Hn in Ho. injection Ho as <-.
      repeat split. cbn. apply length_insert.
    + rewrite lookup_insert_ne by done. eexists. split; [done|]. by repeat split.
  - intros o. destruct (decide (o = off)) as [->|Hne].
    + rewrite lookup_insert_eq, Hn. split; eauto.
    + by rewrite lookup_insert_ne.
  - intros o l [d Hd]. unfold getNext, getNode. cbn [nodes set_node].
    destruct (decide (o = off)) as [->|Hne].
    + rewrite lookup_insert_eq, Hn. cbn [obind]. unfold getNextOffset, index. cbn [tower].
      destruct (Z.ltb_spec (Z.of_nat l) 0); [lia|]. rewrite Nat2Z.id.
      destruct (decide (l = i)) as [->|Hl].
      * rewrite decide_True by done. by rewrite list_lookup_insert_eq.
      * rewrite decide_False by tauto. by rewrite list_lookup_insert_ne.
    + rewrite lookup_insert_ne by done. rewrite decide_False by tauto. done.
Qed.

(** ** Overwriting a value *)

Definition with_val (n : snode) (v : ValueStruct) : snode := mkS (soff n) (skey n) v (sh n).

(** links only depend on the offsets and heights *)
Definition shape (l : list snode) : list (Z * nat) := (fun n => (soff n, sh n)) <$> l.

Lemma first_off_shape lvl l : forall k, shape l = shape k -> first_off lvl l = first_off lvl k.
Proof.
  induction l as [|n l IH]; intros [|m k] E; try done. cbn in E. injection E as Eo Eh E.
  cbn [first_off]. by rewrite Eo, Eh, (IH k E).
Qed.

Lemma shape_split l pre' x' post' : shape l = shape (pre' ++ x' :: post') ->
  exists pre x post, l = pre ++ x :: post /\ soff x = soff x' /\ sh x = sh x' /\ shape post = shape post'.
Proof.
  unfold shape. rewrite fmap_app. intros E. apply fmap_app_inv in E as (l1 & l2 & E1 & E2 & ->).
  cbn in E2. symmetry in E2. apply fmap_cons_inv in E2 as (x & post & Ex & Ep & ->). injection Ex as Eo Eh.
  by exists l1, x, post.
Qed.

Lemma links_shape s L L' : shape L' = shape L ->
  (forall pre x post lvl, head_node s :: L = pre ++ x :: post -> (lvl < sh x)%nat ->
     getNext s (soff x) (Z.of_nat lvl) = Ok (first_off lvl post)) ->
  forall pre x post lvl, head_node s :: L' = pre ++ x :: post -> (lvl < sh x)%nat ->
     getNext s (soff x) (Z.of_nat lvl) = Ok (first_off lvl post).
Proof.
  intros Es Hl pre x post lvl E Hx.
  destruct (shape_split (head_node s :: L) pre x post) as (p & y & q & E' & Eo & Eh & Eq).
  { rewrite <- E. unfold shape in *. cbn. by f_equal. }
  rewrite <- Eo, <- (first_off_shape lvl q post Eq). apply (Hl p); [done|]. by rewrite Eh.
Qed.

Lemma an_bound s L : repr s L -> 0 < an (arena s) < 2 ^ 32.
Proof. intros Hr. pose proof (r_arena s L Hr). lia. Qed.

Lemma repr_offsets s L n : repr s L -> n ∈ L -> soff n <> head s.
Proof.
  intros Hr Hn E. pose proof (r_nodup s L Hr) as Hd. apply NoDup_cons in Hd as [Hd _].
  apply Hd. rewrite <- E. apply list_elem_of_fmap. eauto.
Qed.

Lemma NoDup_soff L l1 y l2 n : NoDup (soff <$> L) -> L = l1 ++ y :: l2 -> n ∈ l1 ++ l2 -> soff n <> soff y.
Proof.
  intros Hd -> Hn E. rewrite fmap_app, fmap_cons in Hd. apply NoDup_app in Hd as (_ & H1 & H2).
  apply NoDup_cons in H2 as [H2 _]. apply elem_of_app in Hn as [Hn|Hn].
  - apply (H1 (soff n)); [apply list_elem_of_fmap; eauto|]. rewrite E. left.
  - apply H2. rewrite <- E. apply list_elem_of_fmap. eauto.
Qed.

Lemma sorted_keys L : forall L', (skey <$> L') = (skey <$> L) -> StronglySorted klt L -> StronglySorted klt L'.
Proof.
  induction L as [|n L IH]; intros [|n' L'] E Hs; try done. cbn in E. injection E as En E.
  apply StronglySorted_cons in Hs as [Hf Hs]. constructor; [by apply IH|].
  apply Forall_forall. intros m' Hm. assert (skey m' ∈ skey <$> L) as Hk.
  { rewrite <- E. apply list_elem_of_fmap. eauto. }
  apply list_elem_of_fmap in Hk as (m & Ek & Hm'). rewrite Forall_forall in Hf.
  unfold klt. rewrite En, Ek. by apply Hf.
Qed.

Lemma setValue_repr s L l1 y l2 v :
  repr s L -> L = l1 ++ y :: l2 -> VS_wf v ->
  an (arena s) + EncodedSize v <= zlen (buf (arena s)) ->
  exists s', setValue s (soff y) v = Ok s' /\ repr s' (l1 ++ with_val y (versioned v 0) :: l2) /\
    an (arena s') = an (arena s) + EncodedSize v /\ zlen (buf (arena s')) = zlen (buf (arena s)).
Proof.
  intros Hr EL Hv Hroom. pose proof (an_bound s L Hr). pose proof (r_arena s L Hr) as [Ha1 Ha2].
  pose proof (zlen_VS_bytes v Hv) as Hz. pose proof (EncodedSize_bounds v Hv). pose proof (zlen_nonneg (VValue v)).
  assert (node_ok s y) as Hy.
  { pose proof (r_nodes s L Hr) as Hok. rewrite EL in Hok. by apply Forall_app in Hok as [_ [? _]%Forall_cons]. }
  pose proof Hy as [_ _ _ (nd & Hnd & Htw & Hko & Hks & Hkb & Hkey & _)].
  unfold setValue, getNode. rewrite Hnd. cbn [obind]. rewrite putVal_ok by (done || lia). cbn [obind].
  eexists. split; [done|]. cbn [arena set_node set_arena an buf]. rewrite zlen_copy_at by lia.
  split; [|lia].
  set (a' := mkArena _ _). set (nd' := mkNode _ _ _ _ _).
  assert (He : arena_ext (arena s) a') by (apply arena_copy_ext; lia).
  assert (Hlook : forall o, o <> soff y -> <[soff y := nd']> (nodes s) !! o = nodes s !! o)
    by (intros; by rewrite lookup_insert_ne).
  assert (Hd : NoDup (soff <$> L)) by (pose proof (r_nodup s L Hr) as Hd; by apply NoDup_cons in Hd as []).
  assert (Hsh : shape (l1 ++ with_val y (versioned v 0) :: l2) = shape L).
  { rewrite EL. unfold shape. by rewrite !fmap_app. }
  split; cbn [sl_height arena head nodes set_node set_arena].
  - apply Hr.
  - unfold a'. cbn [an buf]. rewrite zlen_copy_at by lia. lia.
  - eapply sorted_keys; [|apply Hr]. by rewrite EL, !fmap_app.
  - replace (soff <$> l1 ++ with_val y (versioned v 0) :: l2) with (soff <$> L); [apply Hr|].
    rewrite EL, !fmap_app. done.
  - destruct (r_head s L Hr) as (Hh0 & hn & Hh & Hl). split; [done|]. exists hn. split; [|done].
    rewrite Hlook; [done|]. intros E. apply (repr_offsets s L y Hr); [|done].
    rewrite EL. apply elem_of_app. right. left.
  - intros o d Ho. pose proof (ext_mark _ _ He). destruct (decide (o = soff y)) as [->|Hne].
    + pose proof (r_below s L Hr _ _ Hnd). lia.
    + rewrite Hlook in Ho by done. pose proof (r_below s L Hr _ _ Ho). lia.
  - pose proof (r_nodes s L Hr) as Hok. rewrite EL in Hok. apply Forall_app in Hok as [Hok1 Hok2].
    apply Forall_cons in Hok2 as [_ Hok2].
    assert (Hkeep : forall n, n ∈ l1 ++ l2 -> node_ok s n ->
      node_ok (set_node (set_arena s a') (soff y) nd') n).
    { intros n Hn Hno. pose proof Hno as [_ _ _ (d & Hdn & _)].
      apply (node_ok_ext s _ n d d); try done; [lia|].
      cbn [nodes set_node set_arena]. rewrite Hlook; [done|]. by apply (NoDup_soff L l1 y l2). }
    apply Forall_app. rewrite Forall_cons. rewrite !Forall_forall in *. split; [|split].
    + intros n Hn. apply Hkeep; [apply elem_of_app; auto|by apply Hok1].
    + split; [apply Hy|apply Hy|apply Hy|].
      exists nd'. cbn [soff with_val sh nodes set_node set_arena skey sval].
      rewrite lookup_insert_eq. split; [done|]. cbn [tower nd' keyOffset keySize value arena set_node set_arena].
      pose proof (ext_mark _ _ He). repeat (split; [done || lia|]).
      split; [by apply (node_key_ext s _ nd); [|lia..|lia|]|].
      rewrite encode_decode by lia. repeat (split; [unfold a'; cbn [an]; lia|]).
      by apply getVal_stored; [|lia..].
    + intros n Hn. apply Hkeep; [apply elem_of_app; auto|by apply Hok2].
  - apply (links_shape (set_node (set_arena s a') (soff y) nd') L); [done|].
    intros pre x post lvl E Hx. rewrite <- (r_links s L Hr pre x post lvl E Hx).
    unfold getNext, getNode. cbn [nodes set_node set_arena].
    destruct (decide (soff x = soff y)) as [->|Hne]; [|by rewrite lookup_insert_ne].
    by rewrite lookup_insert_eq, Hnd.
Qed.

(** ** The splices of all levels *)

Lemma last_lvl_split lvl x lt : (lvl < sh x)%nat ->
  exists l1 l2, x :: lt = l1 ++ last_lvl lvl x lt :: l2 /\
    Forall (fun n => (sh n <= lvl)%nat) l2 /\ (lvl < sh (last_lvl lvl x lt))%nat.
Proof.
  revert x. induction lt as [|n lt IH]; intros x Hx; cbn [last_lvl]; [by exists [], []|].
  destruct (Nat.ltb_spec lvl (sh n)) as [Hn|Hn].
  - destruct (IH n Hn) as (l1 & l2 & E & ? & ?). exists (x :: l1), l2. by rewrite E.
  - destruct (IH x Hx) as (l1 & l2 & E & Hl & ?). destruct l1 as [|x' l1]; cbn in E.
    + injection E as Ex Elt. exists [], (n :: l2). cbn. rewrite <- Ex, Elt. repeat split; try done. by constructor.
    + injection E as _ Elt. exists (x :: n :: l1), l2. split; [|done]. cbn. by rewrite <- Elt.
Qed.

Lemma last_lvl_app lvl x lt l1 y l2 : x :: lt = l1 ++ y :: l2 -> (lvl < sh y)%nat ->
  last_lvl lvl x lt = last_lvl lvl y l2.
Proof.
  intros E Hy. destruct l1 as [|x' l1]; cbn in E; [by injection E as -> ->|].
  injection E as <- ->. by apply last_lvl_move.
Qed.

Section Put.
Variables (s : SL) (L : list snode) (key : bytes).
Hypothesis (Hr : repr s L) (Hkey : 8 <= zlen key).
Let lt := lt_part key L.
Let ge := ge_part key L.

(** the node before [key] and the offset after it at a level *)
Definition prev_at (i : nat) : snode := last_lvl i (head_node s) lt.
Definition next_at (i : nat) : Z := first_off i ge.

Lemma prev_at_split i : (i < 20)%nat -> exists l1 l2, head_node s :: lt = l1 ++ prev_at i :: l2 /\
  Forall (fun n => (sh n <= i)%nat) l2 /\ (i < sh (prev_at i))%nat.
Proof. intros Hi. by apply last_lvl_split. Qed.

Lemma prev_at_top i : sl_height s <= Z.of_nat i -> prev_at i = head_node s.
Proof.
  intros Hi. apply last_lvl_low. pose proof (r_nodes s L Hr) as Hok.
  rewrite (lt_ge_part key L) in Hok. apply Forall_app in Hok as [Hok _].
  eapply Forall_impl; [exact Hok|]. intros n Hn. destruct (no_height s n Hn). lia.
Qed.
Lemma next_at_top i : sl_height s <= Z.of_nat i -> next_at i = 0.
Proof.
  intros Hi. unfold next_at. rewrite <- (app_nil_r ge), first_off_low; [done|].
  pose proof (r_nodes s L Hr) as Hok. rewrite (lt_ge_part key L) in Hok. apply Forall_app in Hok as [_ Hok].
  eapply Forall_impl; [exact Hok|]. intros n Hn. destruct (no_height s n Hn). lia.
Qed.

Lemma prev_at_pos i : (i <= 20)%nat -> exists l2, at_pos s L key (prev_at i) l2 ge /\
  (length l2 <= length L)%nat /\
  forall j, (j <= i)%nat -> (j < 20)%nat -> last_lvl j (prev_at i) l2 = prev_at j /\ (j < sh (prev_at i))%nat.
Proof.
  intros Hi. pose proof (lt_part_length key L) as Hll. fold lt in Hll.
  destruct (decide (i = 20)%nat) as [->|Hne].
  { rewrite prev_at_top by (pose proof (r_height s L Hr); lia). exists lt.
    split; [by apply at_pos_start|]. by split. }
  destruct (prev_at_split i ltac:(lia)) as (l1 & l2 & E & Hlow & Hh). exists l2.
  split; [|split].
  - destruct (at_pos_start s L key Hr) as [[pre Ep] Hlt Hge]. split.
    + exists l1. rewrite (lt_ge_part key L) at 1. fold lt ge.
      rewrite app_comm_cons, E. by rewrite <- app_assoc.
    + fold lt in Hlt. destruct l1 as [|h l1]; cbn in E; injection E as E1 E2; [by rewrite E2 in Hlt|].
      rewrite E2 in Hlt. by apply Forall_app in Hlt as [_ [_ ?]%Forall_cons].
    + done.
  - apply (f_equal length) in E. rewrite length_app in E. cbn in E. lia.
  - intros j Hj _. split; [|lia]. symmetry. apply (last_lvl_app j _ _ l1); [done|lia].
Qed.

Lemma splice_at i j : (i < 20)%nat -> (i <= j <= 20)%nat ->
  findSpliceForLevel s key (soff (prev_at j)) (Z.of_nat i) = Ok (
    match ge with
    | y :: _ => match kcmp key (skey y), (i <? sh y)%nat with
                | Eq, true => (soff y, soff y)
                | _, _ => (soff (prev_at i), next_at i)
                end
    | [] => (soff (prev_at i), next_at i)
    end).
Proof.
  intros Hi Hj. pose proof (repr_size s L Hr).
  destruct (prev_at_pos j ltac:(lia)) as (l2 & Hpos & Hlen & Hlast).
  destruct (Hlast i ltac:(lia) Hi) as [Hl Hh].
  unfold findSpliceForLevel, search_fuel.
  rewrite (find_splice_ok s L key Hr Hkey _ _ l2 ge i) by (done || lia).
  f_equal. unfold splice_spec, next_at. rewrite Hl. by destruct ge as [|y g].
Qed.

(** offsets of the two sides of a splice differ *)
Lemma prev_next_ne i : (i < 20)%nat -> soff (prev_at i) <> next_at i.
Proof.
  intros Hi. destruct (prev_at_split i Hi) as (l1 & l2 & E & _).
  pose proof (r_nodup s L Hr) as Hd. pose proof (r_nodes s L Hr) as Hok.
  assert (Hin : soff (prev_at i) ∈ head s :: (soff <$> lt)).
  { change (head s :: (soff <$> lt)) with (soff <$> (head_node s :: lt)). rewrite E.
    apply list_elem_of_fmap. eexists. split; [done|]. apply elem_of_app. right. left. }
  assert (Hpos : 0 < soff (prev_at i)).
  { apply elem_of_cons in Hin as [->|Hin]; [apply Hr|].
    apply list_elem_of_fmap in Hin as (n & -> & Hn). rewrite Forall_forall in Hok. apply (Hok n).
    rewrite (lt_ge_part key L). apply elem_of_app. by left. }
  rewrite (lt_ge_part key L), fmap_app, app_comm_cons in Hd. apply NoDup_app in Hd as (_ & Hd & _).
  unfold next_at. destruct (first_off_cases i ge) as [[-> _]|(p1 & y & p2 & Eg & _ & _ & -> & _)].
  { rewrite (lt_ge_part key L) in Hok. apply Forall_app in Hok as [_ Hok].
    eapply Forall_impl; [exact Hok|]. intros n Hn. apply Hn. }
  - lia.
  - intros Ee. apply (Hd (soff (prev_at i))); [done|]. fold ge. rewrite Eg, Ee.
    apply list_elem_of_fmap. exists y. split; [done|]. apply elem_of_app. right. left.
Qed.

(** *** The key is present *)

Lemma splice_down_found v y g i : forall prev next, ge = y :: g -> kcmp key (skey y) = Eq ->
  (0 < i)%nat -> Z.of_nat i <= sl_height s -> (i < length prev)%nat ->
  prev !! i = Some (soff (prev_at i)) ->
  splice_down i s key v prev next = (let! s' := setValue s (soff y) v in Ok (inl s')).
Proof.
  induction i as [|i IH]; intros prev next Eg Hc Hi Hh Hl Hp; [lia|]. cbn [splice_down].
  pose proof (r_height s L Hr).
  unfold index. destruct (Z.ltb_spec (Z.of_nat i + 1) 0); [lia|].
  replace (Z.to_nat (Z.of_nat i + 1)) with (S i) by lia. rewrite Hp. cbn [obind].
  rewrite splice_at by lia. rewrite Eg, Hc.
  destruct (Nat.ltb_spec i (sh y)); cbn [obind]; [by rewrite Z.eqb_refl|].
  destruct (Z.eqb_spec (soff (prev_at i)) (next_at i)) as [E|_]; [by apply prev_next_ne in E; [|lia]|].
  assert (0 < i)%nat.
  { assert (node_ok s y) as Hy; [|destruct (no_height s y Hy); lia].
    pose proof (r_nodes s L Hr) as Hok. rewrite (lt_ge_part key L) in Hok. fold ge in Hok.
    rewrite Eg in Hok. by apply Forall_app in Hok as [_ [? _]%Forall_cons]. }
  apply IH; try done; [lia|rewrite length_insert; lia|]. apply list_lookup_insert_eq. lia.
Qed.

(** *** The key is absent *)

Definition absent : Prop := forall y g, ge = y :: g -> kcmp key (skey y) <> Eq.

Lemma splice_absent i j : absent -> (i < 20)%nat -> (i <= j <= 20)%nat ->
  findSpliceForLevel s key (soff (prev_at j)) (Z.of_nat i) = Ok (soff (prev_at i), next_at i).
Proof.
  intros Ha Hi Hj. rewrite splice_at by done. unfold absent in Ha. destruct ge as [|y g]; [done|].
  specialize (Ha y g eq_refl). by destruct (kcmp key (skey y)).
Qed.

Lemma splice_down_absent v i : forall prev next, absent ->
  Z.of_nat i <= sl_height s -> length prev = 21%nat -> length next = 21%nat ->
  prev !! i = Some (soff (prev_at i)) ->
  exists prev' next', splice_down i s key v prev next = Ok (inr (prev', next')) /\
    length prev' = 21%nat /\ length next' = 21%nat /\
    (forall j, (j < i)%nat -> prev' !! j = Some (soff (prev_at j)) /\ next' !! j = Some (next_at j)) /\
    (forall j, (i <= j)%nat -> prev' !! j = prev !! j /\ next' !! j = next !! j).
Proof.
  induction i as [|i IH]; intros prev next Ha Hh Hl1 Hl2 Hp; cbn [splice_down].
  { exists prev, next. repeat (split; [done|]). split; [lia|done]. }
  pose proof (r_height s L Hr).
  unfold index. destruct (Z.ltb_spec (Z.of_nat i + 1) 0); [lia|].
  replace (Z.to_nat (Z.of_nat i + 1)) with (S i) by lia. rewrite Hp. cbn [obind].
  rewrite splice_absent by (done || lia). cbn [obind].
  destruct (Z.eqb_spec (soff (prev_at i)) (next_at i)) as [E|_]; [by apply prev_next_ne in E; [|lia]|].
  destruct (IH (<[i := soff (prev_at i)]> prev) (<[i := next_at i]> next)) as
    (p' & n' & -> & Hp' & Hn' & Hlow & Hhigh); try done; try (by rewrite length_insert); [lia| |].
  { apply list_lookup_insert_eq. lia. }
  exists p', n'. repeat (split; [done|]). split.
  - intros j Hj. destruct (decide (j = i)) as [->|Hne]; [|apply Hlow; lia].
    destruct (Hhigh i ltac:(lia)) as [-> ->]. rewrite !list_lookup_insert_eq by lia. done.
  - intros j Hj. destruct (Hhigh j ltac:(lia)) as [-> ->]. by rewrite !list_lookup_insert_ne by lia.
Qed.
End Put.

(** ** A new node *)

(** the node [nd] of list [s] stores [key] and [v] *)
Definition stores (s : SL) (nd : node) (key : bytes) (v : ValueStruct) : Prop :=
  0 <= keyOffset nd /\ 0 <= keySize nd /\ keyOffset nd + keySize nd <= an (arena s) /\
  node_key s nd = Ok key /\
  (let '(vo, vs) := decodeValue (value nd) in
   0 <= vo /\ 0 <= vs /\ vo + vs <= an (arena s) /\ getVal (arena s) vo vs = Ok v).

Definition put_cost (key : bytes) (v : ValueStruct) (h : Z) : Z := 23 + 4 * h + zlen key + EncodedSize v.

Lemma newNode_ok s key v h : 0 < an (arena s) -> zlen (buf (arena s)) < 2 ^ 32 ->
  1 <= h <= 20 -> zlen key < 2 ^ 16 -> VS_wf v ->
  an (arena s) + put_cost key v h <= zlen (buf (arena s)) ->
  exists a m nd, newNode s key v h = Ok (set_node (set_arena s a) m nd, m) /\
    arena_ext (arena s) a /\ an a = an (arena s) + put_cost key v h /\
    an (arena s) <= m < an a /\ tower nd = replicate (Z.to_nat h) 0 /\
    stores (set_node (set_arena s a) m nd) nd key (versioned v 0).
Proof.
  unfold put_cost. intros H0 H1 Hh Hk Hv Hroom. pose proof (zlen_nonneg key).
  pose proof (EncodedSize_bounds v Hv). pose proof (zlen_nonneg (VValue v)).
  pose proof (zlen_VS_bytes v Hv) as Hz.
  destruct (putNode_ok (arena s) h Hh ltac:(lia) ltac:(lia) H1) as (m & Hn & Hm1 & _ & Hm2).
  unfold newNode. rewrite Hn. cbn [obind]. set (a1 := mkArena _ _).
  assert (He1 : arena_ext (arena s) a1) by (split; cbn [an buf a1]; try lia; done).
  rewrite putKey_ok by (cbn [an buf a1]; lia). cbn [obind]. set (a2 := mkArena _ _).
  assert (He2 : arena_ext a1 a2) by (apply arena_copy_ext; cbn [an buf a1]; lia).
  assert (zlen (buf a2) = zlen (buf (arena s))) as Hb2 by (cbn [buf a2]; rewrite zlen_copy_at; cbn [an buf a1]; lia).
  rewrite putVal_ok by (done || (rewrite Hb2; cbn [an a2 a1]; lia) || (cbn [an a2 a1]; lia)).
  cbn [obind]. set (a3 := mkArena _ _).
  assert (He3 : arena_ext a2 a3) by (apply arena_copy_ext; rewrite ?Hb2; cbn [an a2 a1]; lia).
  eexists a3, m, _. split; [done|].
  split; [by eapply arena_ext_trans; [|eapply arena_ext_trans]|].
  split; [cbn [an a3 a2 a1]; lia|]. split; [cbn [an a3 a2 a1]; lia|]. split; [done|].
  assert (an a1 = an (arena s) + (23 + 4 * h)) as Ha1 by done.
  assert (an a2 = an a1 + zlen key) as Ha2 by done.
  assert (an a3 = an a2 + zlen (VS_bytes v)) as Ha3 by done.
  unfold stores. cbn [keyOffset keySize value arena set_node set_arena]. rewrite u16_small by lia.
  repeat (split; [lia|]). split.
  - unfold node_key. cbn [keyOffset keySize arena set_node set_arena]. unfold getKey.
    rewrite (ext_read a2 a3 He3) by (rewrite u32_small; lia). rewrite u32_small by lia.
    apply (slice_copy_at (buf a1) key (an a1)); [lia|]. cbn [buf a1]. lia.
  - rewrite encode_decode by lia. repeat (split; [lia|]). apply getVal_stored; try done; lia.
Qed.

Lemma random_loop_range fuel : forall h draws, 1 <= h <= maxHeight ->
  h <= random_loop fuel h draws <= maxHeight.
Proof.
  induction fuel as [|f IH]; intros h draws Hh; cbn [random_loop]; [lia|].
  destruct (Z.ltb_spec h maxHeight); cbn [andb]; [|lia].
  destruct (draws 0%nat <=? heightIncrease); [|lia].
  specialize (IH (h + 1) (fun i => draws (S i)) ltac:(lia)). lia.
Qed.
Lemma randomHeight_range draws : 1 <= randomHeight draws <= 20.
Proof. apply (random_loop_range 20 1 draws). unfold maxHeight. lia. Qed.

(** ** Linking the new node *)

Lemma first_off_stop lvl l k k' y : y ∈ l -> (lvl < sh y)%nat -> first_off lvl (l ++ k) = first_off lvl (l ++ k').
Proof.
  induction l as [|n l IH]; intros Hy Hl; [by apply not_elem_of_nil in Hy|]. cbn [app first_off].
  destruct (Nat.ltb_spec lvl (sh n)); [done|]. apply elem_of_cons in Hy as [->|Hy]; [lia|by apply IH].
Qed.

(** in a list without repeated offsets a node has one position *)
Lemma position_unique (a b c d : list snode) y z : NoDup (soff <$> (a ++ y :: b)) ->
  a ++ y :: b = c ++ z :: d -> soff y = soff z -> a = c /\ y = z /\ b = d.
Proof.
  intros Hd E Es. revert c E. induction a as [|n a IH]; intros [|m c] E; cbn in E; injection E as E1 E2.
  - done.
  - exfalso. subst. cbn in Hd. apply NoDup_cons in Hd as [Hd _]. apply Hd. rewrite Es.
    apply list_elem_of_fmap. exists z. split; [done|]. apply elem_of_app. right. left.
  - exfalso. subst. cbn in Hd. apply NoDup_cons in Hd as [Hd _]. apply Hd. rewrite <- Es.
    apply list_elem_of_fmap. exists y. split; [done|]. apply elem_of_app. right. left.
  - cbn in Hd. apply NoDup_cons in Hd as [_ Hd]. destruct (IH Hd c E2) as (-> & -> & ->). by subst.
Qed.

Section Link.
Variables (s s1 : SL) (L : list snode) (key : bytes) (x : snode).
Hypothesis (Hr : repr s L) (Hkey : 8 <= zlen key).
Let lt := lt_part key L.
Let ge := ge_part key L.
Hypothesis (Habs : absent L key).

(** [s1] is [s] with the unlinked node [x] added *)
Hypothesis (Hh : (1 <= sh x <= 20)%nat) (Hx0 : 0 < soff x) (Hfresh : nodes s !! soff x = None)
  (Hnd : exists nd, nodes s1 !! soff x = Some nd /\ length (tower nd) = sh x)
  (Hold : forall o d, nodes s !! o = Some d -> nodes s1 !! o = Some d)
  (Hhead : head s1 = head s).

Record linked (i : nat) (t : SL) : Prop := mk_linked {
  lk_head : head t = head s1; lk_height : sl_height t = sl_height s1; lk_arena : arena t = arena s1;
  lk_core : forall o d, nodes s1 !! o = Some d -> exists d', nodes t !! o = Some d' /\ same_core d d';
  lk_dom : forall o, is_Some (nodes t !! o) <-> is_Some (nodes s1 !! o);
  lk_lt : forall pre y plt l, head_node s :: lt = pre ++ y :: plt -> (l < sh y)%nat ->
    getNext t (soff y) (Z.of_nat l) = Ok (first_off l (plt ++ (if (l <? i)%nat then x :: ge else ge)));
  lk_ge : forall pre y post l, ge = pre ++ y :: post -> (l < sh y)%nat ->
    getNext t (soff y) (Z.of_nat l) = Ok (first_off l post);
  lk_x : forall l, (l < i)%nat -> getNext t (soff x) (Z.of_nat l) = Ok (next_at L key l) }.

Lemma offsets_NoDup : NoDup (soff <$> (head_node s :: lt ++ ge)).
Proof. cbn. unfold lt, ge. rewrite <- lt_ge_part. apply Hr. Qed.

(** every old node is in the store with a tower of its height *)
Lemma old_node y : y ∈ head_node s :: lt ++ ge -> exists d, nodes s !! soff y = Some d /\
  length (tower d) = sh y.
Proof.
  intros Hy. apply elem_of_cons in Hy as [->|Hy].
  - destruct (r_head s L Hr) as (_ & d & Hd & Hl). by exists d.
  - pose proof (r_nodes s L Hr) as Hok. rewrite (lt_ge_part key L), Forall_forall in Hok.
    destruct (Hok y Hy) as [_ _ _ (d & Hd & Hl & _)]. by exists d.
Qed.
Lemma old_ne y : y ∈ head_node s :: lt ++ ge -> soff y <> soff x.
Proof. intros Hy E. destruct (old_node y Hy) as (d & Hd & _). rewrite E in Hd. congruence. Qed.
Lemma old_linked i t y : linked i t -> y ∈ head_node s :: lt ++ ge ->
  exists d, nodes t !! soff y = Some d /\ length (tower d) = sh y.
Proof.
  intros Hl Hy. destruct (old_node y Hy) as (d & Hd & Hlen). apply Hold in Hd.
  destruct (lk_core i t Hl _ _ Hd) as (d' & Hd' & _ & _ & _ & E). exists d'. by rewrite E.
Qed.

Lemma prev_in i : (i < 20)%nat -> prev_at s L key i ∈ head_node s :: lt ++ ge.
Proof.
  intros Hi. destruct (prev_at_split s L key i Hi) as (l1 & l2 & E & _).
  rewrite app_comm_cons. fold lt in E. rewrite E. apply elem_of_app. left. apply elem_of_app. right. left.
Qed.

Lemma getNext_old y l : y ∈ head_node s :: lt ++ ge -> getNext s1 (soff y) l = getNext s (soff y) l.
Proof.
  intros Hy. destruct (old_node y Hy) as (d & Hd & _). unfold getNext, getNode.
  by rewrite (Hold _ _ Hd), Hd.
Qed.

Lemma linked_start : linked 0 s1.
Proof.
  split; try done.
  - intros o d Ho. exists d. by repeat split.
  - intros pre y plt l E Hy. cbn [Nat.ltb Nat.leb].
    assert (head_node s :: L = pre ++ y :: (plt ++ ge)) as E'.
    { rewrite (lt_ge_part key L). fold lt ge. rewrite app_comm_cons, E. by rewrite <- app_assoc. }
    rewrite getNext_old; [by apply (r_links s L Hr pre)|].
    rewrite app_comm_cons, E. apply elem_of_app. left. apply elem_of_app. right. left.
  - intros pre y post l E Hy.
    assert (head_node s :: L = (head_node s :: lt ++ pre) ++ y :: post) as E'.
    { rewrite (lt_ge_part key L) at 1. fold lt ge. rewrite E. cbn. by rewrite <- app_assoc. }
    rewrite getNext_old; [by apply (r_links s L Hr _ _ _ _ E')|].
    right. rewrite E. apply elem_of_app. right. apply elem_of_app. right. left.
  - lia.
Qed.

Lemma same_core_trans a b c : same_core a b -> same_core b c -> same_core a c.
Proof. intros (?&?&?&?) (?&?&?&?). repeat split; congruence. Qed.

(** the links after one level, from those before *)
Lemma relink i t t' l1 P l2 : linked i t -> (i < sh x)%nat ->
  head_node s :: lt = l1 ++ P :: l2 -> Forall (fun n => (sh n <= i)%nat) l2 -> (i < sh P)%nat ->
  head t' = head t -> sl_height t' = sl_height t -> arena t' = arena t ->
  (forall o d, nodes t !! o = Some d -> exists d', nodes t' !! o = Some d' /\ same_core d d') ->
  (forall o, is_Some (nodes t' !! o) <-> is_Some (nodes t !! o)) ->
  (forall o l, is_Some (nodes t !! o) -> getNext t' o (Z.of_nat l) =
     if decide (o = soff P /\ l = i) then Ok (soff x)
     else if decide (o = soff x /\ l = i) then Ok (next_at L key i) else getNext t o (Z.of_nat l)) ->
  linked (S i) t'.
Proof.
  intros Hl Hi EP Hlow HhP E1 E2 E3 Hc Hd Hg. pose proof offsets_NoDup as Hdup.
  assert (Hin : forall y, y ∈ head_node s :: lt -> y ∈ head_node s :: lt ++ ge).
  { intros y Hy. rewrite app_comm_cons. apply elem_of_app. by left. }
  assert (HPin : P ∈ head_node s :: lt ++ ge).
  { apply Hin. rewrite EP. apply elem_of_app. right. left. }
  assert (Hsome : forall y, y ∈ head_node s :: lt ++ ge -> is_Some (nodes t !! soff y)).
  { intros y Hy. destruct (old_linked i t y Hl Hy) as (d & -> & _). eauto. }
  split; [by rewrite E1; apply Hl|by rewrite E2; apply Hl|by rewrite E3; apply Hl| | | | |].
  - intros o d Ho. destruct (lk_core i t Hl o d Ho) as (d1 & H1 & C1).
    destruct (Hc o d1 H1) as (d2 & H2 & C2). exists d2. split; [done|]. by eapply same_core_trans.
  - intros o. rewrite Hd. apply Hl.
  - intros pre y plt l E Hy. assert (y ∈ head_node s :: lt) as Hyin by (rewrite E; apply elem_of_app; right; left).
    rewrite Hg by auto. rewrite (decide_False (P := soff y = soff x /\ _)) by (pose proof (old_ne y (Hin y Hyin)); tauto).
    destruct (decide (soff y = soff P /\ l = i)) as [[Ey ->]|Hne].
    + destruct (position_unique pre plt l1 l2 y P) as (-> & -> & ->); [|congruence|done|].
      { rewrite <- E. rewrite app_comm_cons, fmap_app in Hdup. by apply NoDup_app in Hdup as []. }
      destruct (Nat.ltb_spec i (S i)); [|lia]. rewrite first_off_low by done. cbn [first_off].
      destruct (Nat.ltb_spec i (sh x)); [done|lia].
    + rewrite (lk_lt i t Hl pre y plt l E Hy).
      destruct (Nat.ltb_spec l i), (Nat.ltb_spec l (S i)); try lia; try done.
      assert (l = i) as -> by lia.
      assert (P ∈ plt) as HPp; [|f_equal; by apply (first_off_stop i plt _ _ P)].
      rewrite EP in E. apply app_eq_inv in E as [(k & -> & E)|(k & -> & E)].
      * destruct k as [|z k]; cbn in E; injection E as -> ->; [by destruct Hne|].
        apply elem_of_app. right. left.
      * destruct k as [|z k]; cbn in E; injection E as -> E; [by destruct Hne|].
        exfalso. rewrite E in Hlow. apply Forall_app in Hlow as [_ [Hz _]%Forall_cons]. lia.
  - intros pre y post l E Hy.
    assert (y ∈ ge) as Hyin by (rewrite E; apply elem_of_app; right; left).
    assert (y ∈ head_node s :: lt ++ ge) as Hyin' by (right; apply elem_of_app; by right).
    assert (soff y <> soff P) as HyP.
    { intros Ey. rewrite app_comm_cons, fmap_app in Hdup. apply NoDup_app in Hdup as (_ & Hdup & _).
      apply (Hdup (soff P)); [|rewrite <- Ey; apply list_elem_of_fmap; eauto].
      apply list_elem_of_fmap. exists P. split; [done|]. rewrite EP. apply elem_of_app. right. left. }
    pose proof (old_ne y Hyin'). rewrite Hg, !decide_False by (auto || tauto).
    by apply (lk_ge i t Hl pre).
  - intros l Hll. rewrite Hg by (apply Hl; destruct Hnd as (d & -> & _); eauto).
    rewrite decide_False by (intros [E _]; by apply (old_ne P HPin)).
    destruct (decide (soff x = soff x /\ l = i)) as [[_ ->]|Hne]; [done|].
    apply Hl. assert (l <> i) by tauto. lia.
Qed.

Lemma prev_nonzero i : (i < 20)%nat -> soff (prev_at s L key i) <> 0.
Proof.
  intros Hi. pose proof (prev_in i Hi) as HPin.
  apply elem_of_cons in HPin as [->|HPin]; [cbn; pose proof (r_head s L Hr); lia|].
  pose proof (r_nodes s L Hr) as Hok. rewrite (lt_ge_part key L), Forall_forall in Hok.
  pose proof (no_nz s _ (Hok _ HPin)). lia.
Qed.

(** at level [i] the predecessor still points to what follows *)
Lemma prev_links i t : linked i t -> (i < 20)%nat ->
  getNext t (soff (prev_at s L key i)) (Z.of_nat i) = Ok (next_at L key i).
Proof.
  intros Hl Hi. destruct (prev_at_split s L key i Hi) as (l1 & l2 & EP & Hlow & HhP).
  rewrite (lk_lt i t Hl l1 _ l2 i EP HhP). destruct (Nat.ltb_spec i i); [lia|].
  by rewrite first_off_low.
Qed.

(** above the old height the predecessor is searched from the head *)
Lemma splice_head i t : linked i t -> (i < 20)%nat -> sl_height s < Z.of_nat i ->
  findSpliceForLevel t key (head t) (Z.of_nat i) = Ok (soff (prev_at s L key i), next_at L key i).
Proof.
  intros Hl Hi Hhi. pose proof (prev_links i t Hl Hi) as HP.
  rewrite (prev_at_top s L key Hr i), (next_at_top s L key Hr i) in * by lia. cbn [soff head_node] in *.
  rewrite (lk_head i t Hl), Hhead. unfold findSpliceForLevel, search_fuel.
  rewrite Nat.add_comm. cbn [find_splice Nat.add]. by rewrite HP.
Qed.

(** one level: the new node points to what follows, its predecessor to it *)
Lemma link_step i t fuel v p n : linked i t -> (i < sh x)%nat ->
  (p = soff (prev_at s L key i) /\ n = next_at L key i) \/ (p = 0 /\ sl_height s < Z.of_nat i) ->
  exists t', link_level (S fuel) t key v (soff x) i p n = Ok (inr t') /\ linked (S i) t'.
Proof.
  intros Hl Hi Hpn. pose proof (r_height s L Hr) as Hsh. pose proof (prev_nonzero i ltac:(lia)) as HPnz.
  assert (Hpair : (if p =? 0 then
      assert (1 <? Z.of_nat i)
        (let! (p, n) := findSpliceForLevel t key (head t) (Z.of_nat i) in
         assert (negb (p =? n)) (Ok (p, n)))
     else Ok (p, n)) = Ok (soff (prev_at s L key i), next_at L key i)).
  { destruct Hpn as [[-> ->]|[-> Hhi]]; [by destruct (Z.eqb_spec (soff (prev_at s L key i)) 0)|].
    cbn [Z.eqb]. destruct (Z.ltb_spec 1 (Z.of_nat i)); [|lia]. cbn [assert].
    rewrite splice_head by (done || lia). cbn [obind].
    destruct (Z.eqb_spec (soff (prev_at s L key i)) (next_at L key i)) as [E|_]; [|done].
    by apply (prev_next_ne s L key Hr) in E; [|lia]. }
  cbn [link_level]. rewrite Hpair. cbn [obind]. clear Hpair Hpn.
  destruct (prev_at_split s L key i ltac:(lia)) as (l1 & l2 & EP & Hlow & HhP). fold lt in EP.
  pose proof (prev_links i t Hl ltac:(lia)) as HPnext. pose proof (prev_in i ltac:(lia)) as HPin.
  set (P := prev_at s L key i) in *.
  destruct Hnd as (ndx & Hndx & Htx). destruct (lk_core i t Hl _ _ Hndx) as (dx & Hdx & _ & _ & _ & Etx).
  destruct (set_tower_ok t (soff x) i (next_at L key i) dx Hdx ltac:(lia))
    as (t1 & -> & Ha1 & Hh1 & Hs1 & Hc1 & Hd1 & Hg1). cbn [obind].
  destruct (old_linked i t P Hl HPin) as (dP & HdP & HtP). pose proof (old_ne P HPin) as HPne.
  rewrite Hg1, decide_False, HPnext by (eauto || tauto). cbn [obind]. rewrite Z.eqb_refl.
  destruct (Hc1 _ _ HdP) as (dP1 & HdP1 & _ & _ & _ & EtP1).
  destruct (set_tower_ok t1 (soff P) i (soff x) dP1 HdP1 ltac:(lia))
    as (t2 & -> & Ha2 & Hh2 & Hs2 & Hc2 & Hd2 & Hg2). cbn [obind]. exists t2. split; [done|].
  apply (relink i t t2 l1 P l2); try done; try congruence.
  - intros o d Ho. destruct (Hc1 o d Ho) as (d1 & H1 & C1). destruct (Hc2 o d1 H1) as (d2 & H2 & C2).
    exists d2. split; [done|]. by eapply same_core_trans.
  - intros o. by rewrite Hd2, Hd1.
  - intros o l Ho. rewrite Hg2 by by apply Hd1. rewrite Hg1 by done. done.
Qed.

Lemma link_loop_ok v prev next : forall k i t, linked i t -> (i + k = sh x)%nat ->
  (forall j, (j < 20)%nat -> exists p n, prev !! j = Some p /\ next !! j = Some n /\
    ((p = soff (prev_at s L key j) /\ n = next_at L key j) \/ (p = 0 /\ sl_height s < Z.of_nat j))) ->
  exists t', link_loop k t key v (soff x) i prev next = Ok t' /\ linked (sh x) t'.
Proof.
  induction k as [|k IH]; intros i t Hl Hk Harr; cbn [link_loop].
  { exists t. rewrite <- Hk, Nat.add_0_r. done. }
  destruct (Harr i ltac:(lia)) as (p & n & Hp & Hn & Hpn).
  unfold index. destruct (Z.ltb_spec (Z.of_nat i) 0); [lia|]. rewrite Nat2Z.id, Hp, Hn. cbn [obind].
  replace (search_fuel t) with (S (size (nodes t) + 20)) by (unfold search_fuel; lia).
  destruct (link_step i t (size (nodes t) + 20) v p n Hl ltac:(lia) Hpn) as (t' & -> & Hl'). cbn [obind].
  apply IH; [done|lia|done].
Qed.

(** *** The linked list represents the insertion *)

Hypothesis (Hskey : skey x = key) (Hext : arena_ext (arena s) (arena s1))
  (Hlen : zlen (buf (arena s1)) < 2 ^ 32) (Hsh1 : sl_height s <= sl_height s1 <= 20)
  (Hshx : Z.of_nat (sh x) <= sl_height s1)
  (Hst : exists nd, nodes s1 !! soff x = Some nd /\ length (tower nd) = sh x /\ stores s1 nd key (sval x))
  (Hbelow : forall o d, nodes s1 !! o = Some d -> o < an (arena s1)).

Lemma linked_links t : linked (sh x) t -> forall pre y post l,
  head_node s :: lt ++ x :: ge = pre ++ y :: post -> (l < sh y)%nat ->
  getNext t (soff y) (Z.of_nat l) = Ok (first_off l post).
Proof.
  intros Hl pre y post l E Hy. rewrite app_comm_cons in E.
  symmetry in E. apply app_eq_inv in E as [(k & -> & E)|(k & Ek & E)].
  - destruct k as [|z k]; cbn in E; injection E as E1 E2.
    + subst y post. by rewrite (lk_x _ t Hl).
    + by apply (lk_ge _ t Hl k).
  - destruct k as [|z k]; cbn in E; injection E as E1 E2.
    + subst y post. by rewrite (lk_x _ t Hl).
    + subst z post. rewrite (lk_lt _ t Hl pre y k l Ek Hy). destruct (Nat.ltb_spec l (sh x)); [done|].
      f_equal. change (x :: ge) with ([x] ++ ge). rewrite app_assoc.
      clear -H. induction k as [|n k IH]; cbn [app first_off].
      * destruct (Nat.ltb_spec l (sh x)); [lia|done].
      * by rewrite IH.
Qed.

Lemma absent_after : Forall (fun n => kcmp key (skey n) = Lt) ge.
Proof.
  pose proof (ge_part_not_before key L (r_sorted s L Hr)) as Hge. fold ge in Hge.
  pose proof (r_sorted s L Hr) as Hs. rewrite (lt_ge_part key L) in Hs. fold ge in Hs.
  apply StronglySorted_app_1_r in Hs. unfold absent in Habs. fold ge in Habs. destruct Hs as [|y g Hg Hy]; [done|].
  apply Forall_cons in Hge as [Hny _]. specialize (Habs y g eq_refl).
  assert (kcmp key (skey y) = Lt) as Hk.
  { destruct (kcmp key (skey y)) eqn:E; [done|done|]. apply kcmp_before in E. by destruct Hny. }
  constructor; [done|]. eapply Forall_impl; [exact Hy|]. intros n Hn. by eapply kcmp_lt_trans.
Qed.

Lemma inserted_sorted : StronglySorted klt (lt ++ x :: ge).
Proof.
  pose proof (r_sorted s L Hr) as Hs. rewrite (lt_ge_part key L) in Hs. fold lt ge in Hs.
  pose proof absent_after as Hge. pose proof (lt_part_before key L) as Hlt. fold lt in Hlt.
  clear -Hs Hge Hlt Hskey. induction lt as [|n l IH]; cbn [app] in *.
  - constructor; [done|]. eapply Forall_impl; [exact Hge|]. intros m Hm. unfold klt. by rewrite Hskey.
  - apply StronglySorted_cons in Hs as [Hn Hs]. apply Forall_cons in Hlt as [Hb Hlt].
    constructor; [by apply IH|]. apply Forall_app in Hn as [Hn1 Hn2]. apply Forall_app. split; [done|].
    constructor; [|done]. unfold klt. by rewrite Hskey.
Qed.

Lemma linked_repr t : linked (sh x) t -> repr t (lt ++ x :: ge).
Proof.
  intros Hl. pose proof (r_height s L Hr). pose proof (an_bound s L Hr) as Ha.
  pose proof (ext_mark _ _ Hext). pose proof (ext_room _ _ Hext).
  assert (Hhd : head_node t = head_node s) by (unfold head_node; by rewrite (lk_head _ t Hl), Hhead).
  split.
  - rewrite (lk_height _ t Hl). lia.
  - rewrite (lk_arena _ t Hl). lia.
  - apply inserted_sorted.
  - rewrite (lk_head _ t Hl), Hhead. pose proof offsets_NoDup as Hd. cbn in Hd.
    rewrite fmap_app in Hd |- *. cbn [fmap list_fmap].
    change (head s :: (soff <$> lt) ++ soff x :: (soff <$> ge))
      with ((head s :: (soff <$> lt)) ++ soff x :: (soff <$> ge)).
    rewrite <- Permutation_middle. apply NoDup_cons. split; [|done].
    intros Hin. change (head s :: (soff <$> lt)) with (soff <$> (head_node s :: lt)) in Hin.
    rewrite <- fmap_app in Hin. apply list_elem_of_fmap in Hin as (y & E & Hy). by apply (old_ne y).
  - rewrite (lk_head _ t Hl), Hhead. destruct (r_head s L Hr) as (Hh0 & d & Hd & Hlen'). split; [done|].
    destruct (lk_core _ t Hl _ _ (Hold _ _ Hd)) as (d' & Hd' & _ & _ & _ & E). exists d'. by rewrite E.
  - intros o d Ho. rewrite (lk_arena _ t Hl). destruct (proj1 (lk_dom _ t Hl o)) as [d1 Hd1]; [eauto|].
    by apply (Hbelow o d1).
  - assert (Hold_ok : forall n, n ∈ lt ++ ge -> node_ok t n).
    { intros n Hn. pose proof (r_nodes s L Hr) as Hok. rewrite (lt_ge_part key L), Forall_forall in Hok.
      pose proof (Hok n Hn) as Hno. pose proof Hno as [_ _ _ (d & Hd & _)].
      destruct (lk_core _ t Hl _ _ (Hold _ _ Hd)) as (d' & Hd' & Hc).
      apply (node_ok_ext s t n d d'); try done; [by rewrite (lk_arena _ t Hl)|lia|].
      rewrite (lk_height _ t Hl). lia. }
    apply Forall_app. split; [|constructor].
    + apply Forall_forall. intros n Hn. apply Hold_ok, elem_of_app. by left.
    + destruct Hst as (nd & Hn & Htw & Hs). destruct (lk_core _ t Hl _ _ Hn) as (d' & Hd' & Ev & Eo & Es & Et).
      split; [done|by rewrite Hskey|rewrite (lk_height _ t Hl); lia|].
      exists d'. split; [done|]. rewrite Et, Eo, Es, Ev, Hskey, (lk_arena _ t Hl).
      unfold node_key. rewrite Eo, Es, (lk_arena _ t Hl). split; [done|]. apply Hs.
    + apply Forall_forall. intros n Hn. apply Hold_ok, elem_of_app. by right.
  - rewrite Hhd. by apply linked_links.
Qed.
End Link.

(** ** Put *)

(** insertion into a sorted association list, replacing an equal key *)
Fixpoint insert_kv (k : bytes) (v : ValueStruct) (l : list (bytes * ValueStruct)) : list (bytes * ValueStruct) :=
  match l with
  | [] => [(k, v)]
  | (k', v') :: l' =>
      match kcmp k k' with
      | Lt => (k, v) :: l
      | Eq => (k, v) :: l'
      | Gt => (k', v') :: insert_kv k v l'
      end
  end.

Lemma insert_kv_parts key v L : StronglySorted klt L ->
  insert_kv key v (contents L) =
    contents (lt_part key L) ++ (key, v) ::
      (match ge_part key L with
       | y :: g => match kcmp key (skey y) with Eq => contents g | _ => contents (y :: g) end
       | [] => []
       end).
Proof.
  induction L as [|n L IH]; intros Hs; [done|]. apply StronglySorted_cons in Hs as [Hn Hs].
  cbn [contents fmap list_fmap insert_kv lt_part ge_part]. fold (contents L).
  rewrite (kcmp_antisym key (skey n)). destruct (kcmp key (skey n)) eqn:E; cbn [CompOpp].
  - cbn. by rewrite E.
  - cbn. by rewrite E.
  - rewrite (IH Hs). done.
Qed.

Definition prev_init (s : SL) : list Z := <[Z.to_nat (sl_height s) := head s]> (replicate 21 0).

Lemma prev_init_top s L key : repr s L ->
  prev_init s !! Z.to_nat (sl_height s) = Some (soff (prev_at s L key (Z.to_nat (sl_height s)))).
Proof.
  intros Hr. pose proof (r_height s L Hr). unfold prev_init.
  rewrite list_lookup_insert_eq by (rewrite length_replicate; lia).
  by rewrite prev_at_top by (done || lia).
Qed.

(** the arrays after the search, as the insertion uses them *)
Lemma splice_arrays s L key (prev next : list Z) : repr s L ->
  (forall j, (j < Z.to_nat (sl_height s))%nat ->
     prev !! j = Some (soff (prev_at s L key j)) /\ next !! j = Some (next_at L key j)) ->
  (forall j, (Z.to_nat (sl_height s) <= j)%nat ->
     prev !! j = prev_init s !! j /\ next !! j = replicate 21 0 !! j) ->
  forall j, (j < 20)%nat -> exists p n, prev !! j = Some p /\ next !! j = Some n /\
    ((p = soff (prev_at s L key j) /\ n = next_at L key j) \/ (p = 0 /\ sl_height s < Z.of_nat j)).
Proof.
  intros Hr Hlow Hhigh j Hj. pose proof (r_height s L Hr).
  destruct (decide (j < Z.to_nat (sl_height s))%nat) as [Hjl|Hjl].
  { destruct (Hlow j Hjl). eauto 10. }
  destruct (Hhigh j ltac:(lia)) as [-> ->]. rewrite lookup_replicate_2 by lia.
  destruct (decide (j = Z.to_nat (sl_height s))) as [->|Hne].
  - rewrite (prev_init_top s L key Hr). rewrite next_at_top with (s := s) by (done || lia). eauto 10.
  - unfold prev_init. rewrite list_lookup_insert_ne, lookup_replicate_2 by lia.
    exists 0, 0. repeat (split; [done|]). right. split; [done|lia].
Qed.

Lemma Put_present s L key v draws y g :
  repr s L -> 8 <= zlen key -> VS_wf v -> ge_part key L = y :: g -> kcmp key (skey y) = Eq ->
  an (arena s) + EncodedSize v <= zlen (buf (arena s)) ->
  exists s', Put s key v draws = Ok s' /\
    repr s' (lt_part key L ++ with_val y (versioned v 0) :: g) /\
    an (arena s') = an (arena s) + EncodedSize v /\ zlen (buf (arena s')) = zlen (buf (arena s)).
Proof.
  intros Hr Hk Hv Eg Hc Hroom. pose proof (r_height s L Hr).
  destruct (setValue_repr s L (lt_part key L) y g v Hr) as (s' & Hs & Hr' & Ha & Hb); try done.
  { rewrite <- Eg. apply lt_ge_part. }
  exists s'. split; [|done]. unfold Put. fold (prev_init s).
  rewrite (splice_down_found s L key Hr Hk v y g) by
    (done || lia || (unfold prev_init; rewrite length_insert, length_replicate; lia) || by apply prev_init_top).
  rewrite Hs. done.
Qed.

Lemma Put_absent s L key v draws :
  repr s L -> 8 <= zlen key -> zlen key < 2 ^ 16 -> VS_wf v -> absent L key ->
  an (arena s) + put_cost key v 20 <= zlen (buf (arena s)) ->
  exists s' x, Put s key v draws = Ok s' /\ skey x = key /\ sval x = versioned v 0 /\
    repr s' (lt_part key L ++ x :: ge_part key L) /\
    an (arena s) + (zlen key + 27) <= an (arena s') <= an (arena s) + put_cost key v 20 /\
    zlen (buf (arena s')) = zlen (buf (arena s)).
Proof.
  unfold put_cost. intros Hr Hk1 Hk2 Hv Habs Hroom. pose proof (r_height s L Hr) as Hh.
  pose proof (zlen_nonneg (VValue v)). pose proof (EncodedSize_bounds v Hv).
  pose proof (r_arena s L Hr) as [Ha1 Ha2]. pose proof (randomHeight_range draws) as Hrh.
  unfold Put. fold (prev_init s).
  destruct (splice_down_absent s L key Hr Hk1 v (Z.to_nat (sl_height s)) (prev_init s) (replicate 21 0))
    as (prev & next & -> & Hl1 & Hl2 & Hlow & Hhigh); try done;
    [lia|unfold prev_init; by rewrite length_insert, length_replicate|by apply prev_init_top|]. cbn [obind].
  set (h := randomHeight draws) in *.
  destruct (newNode_ok s key v h) as (a & m & nd & -> & Hext & Han & Hm & Htw & Hst); try done; [lia|unfold put_cost; lia|].
  cbn [obind]. set (x := mkS m key (versioned v 0) (Z.to_nat h)).
  set (s1 := if _ <? h then _ else _).
  assert (Hs1 : nodes s1 = <[m := nd]> (nodes s) /\ arena s1 = a /\ head s1 = head s /\
    sl_height s1 = Z.max (sl_height s) h).
  { unfold s1. cbn [sl_height set_node set_arena]. destruct (Z.ltb_spec (sl_height s) h);
      cbn [nodes arena head sl_height set_node set_arena]; repeat split; lia. }
  clearbody s1. destruct Hs1 as (En & Ea & Ehd & Eh).
  assert (Hfresh : nodes s !! soff x = None).
  { destruct (nodes s !! soff x) as [d|] eqn:E; [|done]. pose proof (r_below s L Hr _ _ E). cbn in *. lia. }
  assert (Hnd : nodes s1 !! soff x = Some nd) by (rewrite En; apply lookup_insert_eq).
  assert (Hold : forall o d, nodes s !! o = Some d -> nodes s1 !! o = Some d).
  { intros o d Ho. rewrite En, lookup_insert_ne; [done|]. intros ->. cbn in Hfresh. congruence. }
  assert (Hlt : length (tower nd) = sh x) by (rewrite Htw; apply length_replicate).
  assert (Hhx : (1 <= sh x <= 20)%nat) by (change (sh x) with (Z.to_nat h); lia).
  assert (Hl0 : linked s s1 L key x 0 s1) by by apply linked_start.
  assert (Hx0 : 0 < soff x) by (change (soff x) with m; lia).
  assert (exists t, link_loop (Z.to_nat h) s1 key v (soff x) 0 prev next = Ok t /\
    linked s s1 L key x (sh x) t) as (t & Ht & Hlk).
  { apply link_loop_ok; try done; [eauto|by apply splice_arrays]. }
  exists t, x. cbn [soff x] in Ht. rewrite Ht. split; [done|]. split; [done|]. split; [done|].
  assert (Hext1 : arena_ext (arena s) (arena s1)) by by rewrite Ea.
  pose proof (ext_len _ _ Hext). split.
  - apply (linked_repr s s1 L key x); try done; try (cbn; lia).
    + rewrite Ea. lia.
    + change (sh x) with (Z.to_nat h). lia.
    + exists nd. split; [done|]. split; [done|]. unfold stores, node_key. rewrite Ea. apply Hst.
    + intros o d Ho. rewrite Ea. rewrite En in Ho. destruct (decide (o = m)) as [->|Hne]; [lia|].
      rewrite lookup_insert_ne in Ho by done. pose proof (r_below s L Hr _ _ Ho). lia.
  - rewrite (lk_arena _ _ _ _ _ _ _ Hlk), Ea. unfold put_cost in Han. lia.
Qed.

(** arena space taken at least by the keys of a memtable *)
Definition kv_bytes (l : list (bytes * ValueStruct)) : Z := foldr (fun p n => zlen (fst p) + 27 + n) 0 l.
Lemma kv_bytes_app l k : kv_bytes (l ++ k) = kv_bytes l + kv_bytes k.
Proof. unfold kv_bytes. induction l as [|p l IH]; cbn [app foldr]; lia. Qed.
Lemma kv_bytes_cons p l : kv_bytes (p :: l) = zlen (fst p) + 27 + kv_bytes l.
Proof. done. Qed.

Lemma Put_repr s L key v draws :
  repr s L -> 8 <= zlen key -> zlen key < 2 ^ 16 -> VS_wf v ->
  an (arena s) + put_cost key v 20 <= zlen (buf (arena s)) ->
  exists s' L', Put s key v draws = Ok s' /\ repr s' L' /\
    contents L' = insert_kv key (versioned v 0) (contents L) /\
    MemSize s' <= MemSize s + put_cost key v 20 /\
    zlen (buf (arena s')) = zlen (buf (arena s)) /\
    kv_bytes (contents L') + MemSize s <= kv_bytes (contents L) + MemSize s'.
Proof.
  intros Hr Hk1 Hk2 Hv Hroom. rewrite insert_kv_parts by apply Hr.
  pose proof (zlen_nonneg key). pose proof (EncodedSize_bounds v Hv). pose proof (zlen_nonneg (VValue v)).
  assert (kv_bytes (contents L) = kv_bytes (contents (lt_part key L)) + kv_bytes (contents (ge_part key L))) as Hkb.
  { rewrite (lt_ge_part key L) at 1. unfold contents. by rewrite fmap_app, kv_bytes_app. }
  destruct (ge_part key L) as [|y g] eqn:Eg; [|destruct (kcmp key (skey y)) eqn:Hc].
  2: { destruct (Put_present s L key v draws y g) as (s' & Hp & Hr' & Ha & Hb); try done; [unfold put_cost in *; lia|].
       exists s'. eexists. split; [done|]. split; [done|]. unfold MemSize, arena_size, put_cost in *.
       split; [unfold contents; rewrite fmap_app; cbn; apply kcmp_eq in Hc; by rewrite Hc|]. split; [lia|]. split; [done|].
       rewrite Hkb. unfold contents. rewrite fmap_app, !fmap_cons, kv_bytes_app, !kv_bytes_cons. cbn [fst with_val skey]. lia. }
  all: destruct (Put_absent s L key v draws) as (s' & x & Hp & Hkx & Hvx & Hr' & Ha & Hb); try done;
    [intros y' g'; rewrite Eg; first [intros [= <- <-]|intros [=]]; congruence|];
    rewrite Eg in Hr'; exists s'; eexists; split; [done|]; split; [done|]; unfold MemSize, arena_size in *;
    split; [unfold contents; rewrite fmap_app; cbn; by rewrite Hkx, Hvx|]; split; [lia|]; split; [done|];
    rewrite Hkb; unfold contents; rewrite fmap_app, !fmap_cons, kv_bytes_app, !kv_bytes_cons; cbn [fst]; rewrite Hkx;
    try (rewrite fmap_nil; change (kv_bytes []) with 0); lia.
Qed.

Lemma emptyVS_wf : VS_wf emptyVS.
Proof. repeat split; done. Qed.

Lemma NewSkiplist_repr n : 107 <= n -> n < 2 ^ 32 ->
  exists s, NewSkiplist n = Ok s /\ repr s [] /\ MemSize s = 107 /\ zlen (buf (arena s)) = n.
Proof.
  intros H1 H2. unfold NewSkiplist, maxHeight. set (s0 := mkSL 1 0 (newArena n) ∅).
  assert (Hz : zlen (buf (arena s0)) = n) by (apply zlen_zrep; lia).
  assert (Hc : put_cost [] emptyVS 20 = 106) by done.
  destruct (newNode_ok s0 [] emptyVS 20) as (a & m & nd & -> & Hext & Han & Hm & Htw & _);
    try done; [by rewrite Hz|rewrite Hz, Hc; change (an (arena s0)) with 1; lia|]. cbn [obind].
  pose proof (ext_len _ _ Hext) as El. pose proof (ext_room _ _ Hext). rewrite Hz in El.
  rewrite Hc in Han. change (an (arena s0)) with 1 in *.
  eexists. split; [done|]. cbn [arena nodes set_node set_arena]. unfold MemSize, arena_size. cbn [arena].
  split; [|split; [lia|done]].
  assert (Hlen : length (tower nd) = 20%nat) by (rewrite Htw; apply length_replicate).
  split; cbn [sl_height arena head nodes]; try done; try lia.
  - constructor.
  - apply NoDup_singleton.
  - split; [lia|]. exists nd. by rewrite lookup_insert_eq.
  - intros o d Ho. apply lookup_insert_Some in Ho as [[<- _]|[_ Ho]]; [lia|done].
  - intros pre x post lvl E Hl. destruct pre as [|? [|? ?]]; cbn in E; try discriminate. injection E as <- <-.
    cbn [soff head_node first_off]. unfold getNext, getNode. cbn [nodes]. rewrite lookup_insert_eq. cbn [obind].
    unfold getNextOffset, index. destruct (Z.ltb_spec (Z.of_nat lvl) 0); [lia|].
    cbn [sh head_node] in Hl. rewrite Nat2Z.id, Htw, lookup_replicate_2 by (change (Z.to_nat 20) with 20%nat; lia). done.
Qed.

(** ** A memtable's life: creation followed by puts *)

Definition put_op : Type := bytes * ValueStruct * (nat -> Z).
Fixpoint put_all (s : SL) (ops : list put_op) : outcome SL :=
  match ops with
  | [] => Ok s
  | (k, v, d) :: ops => let! s := Put s k v d in put_all s ops
  end.
Definition op_ok (o : put_op) : Prop :=
  let '(k, v, _) := o in 8 <= zlen k /\ zlen k < 2 ^ 16 /\ VS_wf v.
Definition ops_cost (ops : list put_op) : Z :=
  foldr (fun '(k, v, _) n => put_cost k v 20 + n) 0 ops.
Definition insert_all (ops : list put_op) (l : list (bytes * ValueStruct)) : list (bytes * ValueStruct) :=
  fold_left (fun l '(k, v, _) => insert_kv k (versioned v 0) l) ops l.

Lemma ops_cost_nonneg ops : Forall op_ok ops -> 0 <= ops_cost ops.
Proof.
  induction 1 as [|[[k v] d] ops (Hk & _ & Hv) _ IH]; cbn; [done|]. fold (ops_cost ops).
  pose proof (EncodedSize_bounds v Hv). pose proof (zlen_nonneg (VValue v)). unfold put_cost. lia.
Qed.

Lemma put_all_repr ops : forall s L, repr s L -> Forall op_ok ops ->
  MemSize s + ops_cost ops <= zlen (buf (arena s)) ->
  exists s' L', put_all s ops = Ok s' /\ repr s' L' /\ contents L' = insert_all ops (contents L) /\
    MemSize s' <= MemSize s + ops_cost ops /\ zlen (buf (arena s')) = zlen (buf (arena s)) /\
    kv_bytes (contents L') + MemSize s <= kv_bytes (contents L) + MemSize s'.
Proof.
  induction ops as [|[[k v] d] ops IH]; intros s L Hr Hops Hroom; cbn [put_all].
  { exists s, L. cbn [ops_cost foldr] in *. do 3 (split; [done|]). split; [lia|]. split; [done|lia]. }
  apply Forall_cons in Hops as [(Hk1 & Hk2 & Hv) Hops]. cbn [ops_cost foldr] in *. fold (ops_cost ops) in *.
  pose proof (ops_cost_nonneg ops Hops). unfold MemSize, arena_size in *.
  destruct (Put_repr s L k v d) as (s1 & L1 & -> & Hr1 & Hc & Hm & Hz & Hb); try done; [lia|]. cbn [obind].
  unfold MemSize, arena_size in *.
  destruct (IH s1 L1 Hr1 Hops) as (s2 & L2 & -> & Hr2 & Hc2 & Hm2 & Hz2 & Hb2); [lia|].
  exists s2, L2. split; [done|]. split; [done|]. split; [by rewrite Hc2, Hc|]. split; [lia|]. split; [congruence|lia].
Qed.

(** A memtable filled with any sequence of puts that fit its arena iterates over exactly the
    result of inserting them one by one into a sorted list. *)
Theorem memtable_contents n ops fuel :
  107 <= n < 2 ^ 32 -> Forall op_ok ops -> 107 + ops_cost ops <= n ->
  (length (insert_all ops []) < fuel)%nat ->
  exists s, (let! s := NewSkiplist n in put_all s ops) = Ok s /\
    (let! p := it_SeekToFirst s in collect fuel s p) = Ok (insert_all ops []) /\
    StronglySorted (fun a b => kcmp (fst a) (fst b) = Lt) (insert_all ops []).
Proof.
  intros Hn Hops Hroom Hf. destruct (NewSkiplist_repr n) as (s0 & -> & Hr & Hm & Hz); [lia|lia|]. cbn [obind].
  destruct (put_all_repr ops s0 [] Hr Hops) as (s & L & -> & HrL & Hc & _); [lia|].
  exists s. split; [done|]. change (contents []) with (@nil (bytes * ValueStruct)) in Hc.
  rewrite <- Hc in *. split; [|apply contents_sorted, HrL].
  rewrite (SeekToFirst_ok s L HrL). apply (collect_ok s L HrL L []); [done|].
  unfold contents in Hf. by rewrite length_fmap in Hf.
Qed.

(** C23: Skiplist.Put on a well-formed skiplist with room in the arena succeeds for every height
    draw, keeps the skiplist well formed, and refines insertion (or overwriting) into the sorted
    association list. *)
Theorem Put_refines_insert s L key v draws :
  repr s L -> 8 <= zlen key -> zlen key < 2 ^ 16 -> VS_wf v ->
  an (arena s) + put_cost key v 20 <= zlen (buf (arena s)) ->
  exists s' L', Put s key v draws = Ok s' /\ repr s' L' /\
    contents L' = insert_kv key (versioned v 0) (contents L) /\
    MemSize s' <= MemSize s + put_cost key v 20 /\
    zlen (buf (arena s')) = zlen (buf (arena s)).
Proof.
  intros Hr Hk1 Hk2 Hv Hroom. destruct (Put_repr s L key v draws Hr Hk1 Hk2 Hv Hroom) as (s' & L' & ? & ? & ? & ? & ? & _).
  by exists s', L'.
Qed.
