(* ===== verification/SkiplistIter.v ===== *)
(** The memtable's [UniIterator] (skl.go) keeps the promises of the iterator
    interface in both directions, so memtables can be merged with tables. *)
From Stdlib Require Import ZArith Lia.
From stdpp Require Import base option list numbers gmap sorting strings.
From S2P Require Import Prelude GoLib Utils Proto Keys YIter Skiplist SkiplistSpec.

Record UniIterator := mkUni { u_list : SL; u_n : Z; u_reversed : bool }.

Definition u_goto (it : UniIterator) (r : outcome Z) : outcome UniIterator :=
  let! n := r in Ok (mkUni (u_list it) n (u_reversed it)).

#[export] Instance uni_YIterator : YIterator UniIterator := {
  y_Next := fun it => u_goto it (uni_Next (u_list it) (u_reversed it) (u_n it));
  y_Rewind := fun it => u_goto it (uni_Rewind (u_list it) (u_reversed it));
  y_Seek := fun it key => u_goto it (uni_Seek (u_list it) (u_reversed it) key);
  y_Key := fun it => it_Key (u_list it) (u_n it);
  y_Value := fun it => it_Value (u_list it) (u_n it);
  y_Valid := fun it => it_Valid (u_n it) }.

Definition start_off (l : list snode) : Z := match l with n :: _ => soff n | [] => 0 end.
Definition walk_of (rev : bool) (L : list snode) : list kv :=
  if rev then reverse (contents L) else contents L.

Definition u_wf (rev : bool) (it : UniIterator) (kvs : list kv) : Prop :=
  u_reversed it = rev /\ exists L, repr (u_list it) L /\ kvs = walk_of rev L.
Definition u_at (rev : bool) (it : UniIterator) (kvs rest : list kv) : Prop :=
  u_reversed it = rev /\ exists L l1 l2, repr (u_list it) L /\ kvs = walk_of rev L /\ L = l1 ++ l2 /\
    (if rev then rest = reverse (contents l1) /\ u_n it = end_off l1
     else rest = contents l2 /\ u_n it = start_off l2).

Lemma walk_of_ok rev s L : repr s L -> walk_ok rev (walk_of rev L).
Proof.
  intros Hr. pose proof (contents_sorted L (r_sorted s L Hr)) as Hs.
  assert (Forall (fun p => 8 <= zlen (fst p)) (contents L)) as Hk.
  { unfold contents. rewrite Forall_fmap. eapply Forall_impl; [apply (r_nodes s L Hr)|]. by intros n []. }
  destruct rev; unfold walk_of; [|done]. split; [|by apply Forall_reverse].
  by apply reverse_sorted in Hs.
Qed.

Lemma contents_app l1 l2 : contents (l1 ++ l2) = contents l1 ++ contents l2.
Proof. apply fmap_app. Qed.

Lemma u_at_suffix rev it kvs rest : u_at rev it kvs rest -> exists passed, kvs = passed ++ rest.
Proof.
  intros (_ & L & l1 & l2 & _ & -> & -> & Hp). destruct rev; destruct Hp as [-> _]; unfold walk_of; rewrite contents_app.
  - exists (reverse (contents l2)). by rewrite reverse_app.
  - by exists (contents l1).
Qed.

Lemma end_off_snoc l n : end_off (l ++ [n]) = soff n.
Proof. unfold end_off. by rewrite last_snoc. Qed.

(** the position an iterator is at is a valid node unless nothing is left *)
Lemma u_at_item rev it kvs k v rest : u_at rev it kvs ((k, v) :: rest) ->
  exists L l1 n l2, repr (u_list it) L /\ kvs = walk_of rev L /\ L = l1 ++ n :: l2 /\ u_n it = soff n /\
    skey n = k /\ sval n = v /\ rest = (if rev then reverse (contents l1) else contents l2).
Proof.
  intros (_ & L & l1 & l2 & Hr & Hk & HL & Hp). destruct rev; destruct Hp as [Hrest Hn].
  - destruct l1 as [|n l1 _] using rev_ind; [done|]. rewrite contents_app, reverse_app in Hrest.
    injection Hrest as -> -> ->. rewrite end_off_snoc in Hn.
    exists L, l1, n, l2. rewrite <- app_assoc in HL. done.
  - destruct l2 as [|n l2]; [done|]. injection Hrest as -> -> ->. by exists L, l1, n, l2.
Qed.

Lemma u_Valid_ok rev it kvs rest : u_at rev it kvs rest ->
  it_Valid (u_n it) = match rest with [] => false | _ => true end.
Proof.
  intros Hat. destruct rest as [|[k v] rest].
  - destruct Hat as (_ & L & l1 & l2 & _ & _ & _ & Hp). destruct rev; destruct Hp as [Hrest ->].
    + symmetry in Hrest. apply (f_equal reverse) in Hrest. rewrite reverse_involutive in Hrest. by destruct l1.
    + by destruct l2.
  - destruct (u_at_item _ _ _ _ _ _ Hat) as (L & l1 & n & l2 & Hr & _ & HL & -> & _).
    by destruct (it_at _ L l1 n l2 Hr HL).
Qed.

Lemma u_item_ok rev it kvs k v rest : u_at rev it kvs ((k, v) :: rest) ->
  y_Key it = Ok k /\ y_Value it = Ok v /\ exists it', y_Next it = Ok it' /\ u_at rev it' kvs rest.
Proof.
  intros Hat. pose proof Hat as [Hrev _].
  destruct (u_at_item _ _ _ _ _ _ Hat) as (L & l1 & n & l2 & Hr & Hk & HL & Hn & <- & <- & ->).
  destruct (it_at _ L l1 n l2 Hr HL) as (Hv & Hkey & Hval & Hnext). cbn. rewrite Hn, Hrev.
  split; [done|]. split; [done|]. unfold uni_Next. destruct rev; cbn [negb].
  - rewrite (Prev_ok _ L l1 n l2) by done. eexists. split; [done|]. split; [done|]. by exists L, l1, (n :: l2).
  - rewrite Hnext. eexists. split; [done|]. split; [done|]. exists L, (l1 ++ [n]), l2.
    rewrite <- app_assoc. by destruct l2.
Qed.

Lemma u_Rewind_ok rev it kvs : u_wf rev it kvs -> exists it', y_Rewind it = Ok it' /\ u_at rev it' kvs kvs.
Proof.
  intros (Hrev & L & Hr & ->). cbn. unfold uni_Rewind. rewrite Hrev. destruct rev; cbn [negb].
  - rewrite (SeekToLast_ok _ L Hr). eexists. split; [done|]. split; [done|]. exists L, L, []. by rewrite app_nil_r.
  - rewrite (SeekToFirst_ok _ L Hr). eexists. split; [done|]. split; [done|]. by exists L, [], L.
Qed.

Lemma seek_list_forward s L key : repr s L -> seek_list false key (contents L) = contents (ge_part key L).
Proof.
  intros Hr. rewrite (lt_ge_part key L) at 1. rewrite contents_app. apply seek_list_split.
  - unfold contents. rewrite Forall_fmap. apply lt_part_before.
  - pose proof (ge_part_not_before key L (r_sorted s L Hr)) as Hg. destruct (ge_part key L); [done|].
    by apply Forall_cons in Hg as [Hg _].
Qed.

(** backwards: an equal key comes first, then the smaller ones *)
Definition le_part (key : bytes) (L : list snode) : list snode :=
  lt_part key L ++ match ge_part key L with n :: _ => if decide (skey n = key) then [n] else [] | [] => [] end.
Lemma le_part_prefix key L : exists l2, L = le_part key L ++ l2 /\
  (StronglySorted klt L -> Forall (fun n => kcmp key (skey n) = Lt) l2).
Proof.
  pose proof (lt_ge_part key L) as E. pose proof (ge_part_not_before key L) as Hg. unfold le_part.
  destruct (ge_part key L) as [|n ge]; [exists []; split; [by rewrite !app_nil_r in *|by constructor]|].
  assert (forall m, not_before key m -> skey m <> key -> kcmp key (skey m) = Lt) as Hlt.
  { intros m Hm Hne. destruct (kcmp key (skey m)) eqn:Ek; [|done|]; exfalso.
    - apply kcmp_eq in Ek. by subst.
    - by apply Hm, kcmp_before. }
  destruct (decide (skey n = key)) as [Hk|Hk].
  - exists ge. rewrite <- app_assoc. split; [done|]. intros Hs. rewrite E in Hs.
    apply StronglySorted_app_1_r, StronglySorted_cons in Hs as [Hn _]. eapply Forall_impl; [exact Hn|].
    intros m Hm. by rewrite <- Hk.
  - rewrite app_nil_r. exists (n :: ge). split; [done|]. intros Hs. specialize (Hg Hs). pose proof Hg as Hg'.
    rewrite E in Hs. apply StronglySorted_app_1_r, StronglySorted_cons in Hs as [Hn _].
    apply Forall_cons in Hg' as [Hn0 _]. constructor; [by apply Hlt|]. eapply Forall_impl; [exact Hn|].
    intros m Hm. eapply kcmp_lt_trans; [by apply Hlt|done].
Qed.
Lemma le_part_le key L : Forall (fun n => kcmp key (skey n) <> Lt) (le_part key L).
Proof.
  unfold le_part. apply Forall_app. split.
  - eapply Forall_impl; [apply lt_part_before|]. intros n Hb. apply kcmp_before in Hb. congruence.
  - destruct (ge_part key L) as [|n ge]; [done|]. destruct (decide (skey n = key)) as [<-|]; [|done].
    constructor; [|done]. by rewrite kcmp_refl.
Qed.
Lemma seek_list_backward s L key : repr s L ->
  seek_list true key (reverse (contents L)) = reverse (contents (le_part key L)).
Proof.
  intros Hr. destruct (le_part_prefix key L) as (l2 & E & Hl2). specialize (Hl2 (r_sorted s L Hr)).
  rewrite E at 1. rewrite contents_app, reverse_app. apply seek_list_split.
  - apply Forall_reverse. unfold contents. rewrite Forall_fmap. done.
  - pose proof (le_part_le key L) as Hle. destruct (le_part key L) as [|n l _] using rev_ind; [done|].
    rewrite contents_app, reverse_app. cbn. by apply Forall_app in Hle as [_ [Hle _]%Forall_cons].
Qed.

Lemma u_Seek_ok rev it kvs key : u_wf rev it kvs -> 8 <= zlen key ->
  exists it', y_Seek it key = Ok it' /\ u_at rev it' kvs (seek_list rev key kvs).
Proof.
  intros (Hrev & L & Hr & ->) Hk. cbn. unfold uni_Seek. rewrite Hrev. destruct rev; cbn [negb walk_of].
  - rewrite (SeekForPrev_ok _ L key Hr Hk), (seek_list_backward _ L key Hr). eexists. split; [done|]. split; [done|].
    destruct (le_part_prefix key L) as (l2 & E & _). exists L, (le_part key L), l2. repeat (split; [done|]). cbn [u_n].
    unfold le_part. destruct (ge_part key L) as [|n ge]; [by rewrite app_nil_r|].
    destruct (decide _); [by rewrite end_off_snoc|by rewrite app_nil_r].
  - rewrite (Seek_ok _ L key Hr Hk), (seek_list_forward _ L key Hr). eexists. split; [done|]. split; [done|].
    exists L, (lt_part key L), (ge_part key L). split; [done|]. split; [done|]. split; [apply lt_ge_part|done].
Qed.

#[export] Program Instance uni_IteratorLaws : IteratorLaws UniIterator := {
  y_wf := u_wf; y_at := u_at; y_Rewind_ok := u_Rewind_ok; y_Seek_ok := u_Seek_ok;
  y_Valid_ok := u_Valid_ok; y_item_ok := u_item_ok }.
Next Obligation. intros rev it kvs rest (Hrev & L & l1 & l2 & Hr & Hk & _). split; [done|]. by exists L. Qed.
Next Obligation. intros rev it kvs (_ & L & Hr & ->). by apply (walk_of_ok rev (u_list it)). Qed.
Next Obligation.
  intros rev it kvs rest Hat. destruct (u_at_suffix _ _ _ _ Hat) as [passed Hp].
  destruct Hat as (_ & L & l1 & l2 & Hr & Hk & _). pose proof (walk_of_ok rev _ L Hr) as Hw.
  rewrite <- Hk, Hp in Hw. by apply walk_app_r in Hw.
Qed.
