(* ===== verification/TableBlock.v ===== *)
(** Package rangepartition/table, block level (builder.go, iterator.go): how
    the builder lays entries out in a 64 KiB block with key prefixes removed,
    and the block iterator that reads them. *)
From Stdlib Require Import ZArith Lia.
From stdpp Require Import base option list numbers sorting strings.
From S2P Require Import Prelude GoLib Utils Proto ProtoPs Keys Extent.

(** ** header *)

Record header := mkHeader { overlap : Z; diff : Z }.
Definition headerSize : Z := 4.
(** [Encode]/[Decode] copy the struct: two little-endian uint16 *)
Definition header_Encode (h : header) : bytes := le_put 2 (overlap h) ++ le_put 2 (diff h).
Definition header_Decode (b : bytes) : outcome header :=
  let! w := slice b 0 headerSize in
  Ok (mkHeader (le_get (ztake 2 w)) (le_get (zdrop 2 w))).

(** ** Builder: filling a block *)

Definition BlockSize : Z := 64 * 1024.

(** The builder's state. [doneBlocks] are the blocks before [currentBlock] in
    [b.blocks]; [writeCh] are the blocks sent to the writer goroutine, in
    order, with their base keys; [farm] hashes are collected in [keyHashes]. *)
Record Builder := mkBuilder {
  doneBlocks : list Block; currentBlock : option Block; sz : Z; baseKey : bytes;
  entryOffsets : list Z; estimatedSize : Z; keyHashes : list Z; writeCh : list (Block * bytes) }.
Definition newBuilder : Builder := mkBuilder [] None 0 [] [] 0 [] [].
Definition Builder_Empty (b : Builder) : bool := sz b =? 0.
Definition getBlocks (b : Builder) : list Block := doneBlocks b ++ option_list (currentBlock b).

Definition set_block (b : Builder) (c : Block) (n : Z) : Builder :=
  mkBuilder (doneBlocks b) (Some c) n (baseKey b) (entryOffsets b) (estimatedSize b) (keyHashes b) (writeCh b).

(** index of the first difference, at most either length *)
Fixpoint common_prefix (newKey base : bytes) : Z :=
  match newKey, base with
  | x :: newKey, y :: base => if decide (x = y) then 1 + common_prefix newKey base else 0
  | _, _ => 0
  end.
Definition keyDiff (base newKey : bytes) : bytes := zdrop (common_prefix newKey base) newKey.

Definition blockGrow (c : Block) (n : Z) : outcome Block :=
  let! newSize := Ceil (u32 (BlockLength c + n)) 512 in
  let newBuf := zrep newSize Byte.x00 in
  Ok (mkBlock (CheckSum c) newSize (UserData c) (copy_at newBuf 0 (Data c))).

Definition current (b : Builder) : Block :=
  match currentBlock b with
  | Some c => c
  | None => mkBlock 0 BlockSize [] (zrep BlockSize Byte.x00)
  end.

Definition Builder_append (b : Builder) (d : bytes) : outcome Builder :=
  let c := current b in
  let! c := (if BlockLength c <? u32 (sz b + u32 (zlen d)) then blockGrow c (u32 (zlen d)) else Ok c) in
  let! _ := slice_from (Data c) (sz b) in
  Ok (set_block b (mkBlock (CheckSum c) (BlockLength c) (UserData c) (copy_at (Data c) (sz b) d))
        (u32 (sz b + u32 (zlen d)))).

(** the value part of [addHelper], encoded in place *)
Definition Builder_value (b : Builder) (v : ValueStruct) : outcome Builder :=
  let c := current b in
  let! c := (if BlockLength c <? u32 (sz b + EncodedSize v) then blockGrow c (EncodedSize v) else Ok c) in
  let! tl := slice_from (Data c) (sz b) in
  let! (tl, n) := VS_Encode v tl in
  let c := mkBlock (CheckSum c) (BlockLength c) (UserData c) (ztake (sz b) (Data c) ++ tl) in
  Ok (set_block b c (u32 (sz b + n))).

Section Farm.
(** [farm.Fingerprint64] *)
Variable Fingerprint64 : bytes -> Z.

Definition addHelper (b : Builder) (key : bytes) (v : ValueStruct) : outcome Builder :=
  let! pk := ParseKey (Some key) in
  let hashes := keyHashes b ++ [Fingerprint64 (default [] pk)] in
  let first := zlen (baseKey b) =? 0 in
  let base := if first then key else baseKey b in
  let diffKey := if first then key else keyDiff (baseKey b) key in
  let h := mkHeader (u16 (zlen key - zlen diffKey)) (u16 (zlen diffKey)) in
  assert (sz b <? MaxUint32) (
  let b := mkBuilder (doneBlocks b) (currentBlock b) (sz b) base (entryOffsets b ++ [sz b])
             (estimatedSize b) hashes (writeCh b) in
  let! b := Builder_append b (header_Encode h) in
  let! b := Builder_append b diffKey in
  let! b := Builder_value b v in
  let sstSz := u32 (u32 (headerSize + u32 (zlen diffKey)) + EncodedSize v) in
  Ok (mkBuilder (doneBlocks b) (currentBlock b) (sz b) (baseKey b) (entryOffsets b)
        (u64 (estimatedSize b + sstSz)) (keyHashes b) (writeCh b))).

Definition FinishBlock (b : Builder) : outcome Builder :=
  let! b := Builder_append b (U32SliceToBytes (entryOffsets b)) in
  let! b := Builder_append b (U32ToBytes (u32 (zlen (entryOffsets b)))) in
  let c := current b in
  let! ud := RawBlockMeta_Marshal (mkRBM RawBlockType_data 0 (sz b) 0 0 0) in
  let c := mkBlock (AdlerCheckSum (Data c)) (BlockLength c) ud (Data c) in
  Ok (mkBuilder (doneBlocks b) (Some c) (sz b) (baseKey b) (entryOffsets b) (estimatedSize b)
        (keyHashes b) (writeCh b ++ [(c, baseKey b)])).

Definition shouldFinishBlock (b : Builder) (key : bytes) (v : ValueStruct) : bool :=
  if zlen (entryOffsets b) <=? 0 then false else
  let entriesOffsetsSize := u32 (zlen (entryOffsets b) * 4 + 4) in
  let est := u32 (u32 (u32 (u32 (sz b + headerSize) + u32 (zlen key)) + EncodedSize v) + entriesOffsetsSize) in
  (BlockSize <? est) || (1000 <? zlen (entryOffsets b)).

Definition Builder_Add (b : Builder) (key : bytes) (v : ValueStruct) : outcome Builder :=
  let! b :=
    (if shouldFinishBlock b key v then
       let! b := FinishBlock b in
       Ok (mkBuilder (getBlocks b) None 0 [] [] (estimatedSize b) (keyHashes b) (writeCh b))
     else Ok b) in
  addHelper b key v.
End Farm.

(** ** blockIterator *)

Record blockIterator := mkBI {
  bi_data : bytes; bi_idx : Z; bi_err : option error; bi_baseKey : bytes; bi_key : bytes;
  bi_val : bytes; bi_offsets : list Z; prevOverlap : Z }.
Definition zeroBI : blockIterator := mkBI [] 0 None [] [] [] [] 0.

Definition setBlock (b : Block) : outcome blockIterator :=
  match RawBlockMeta_Unmarshal (UserData b) with
  | Ok blockMeta =>
      let sz := UnCompressedSize blockMeta in
      let! cnt := slice (Data b) (u32 (sz - 4)) sz in
      let! numEntries := BytesToU32 cnt in
      let entriesIndexStart := u32 (u32 (sz - 4) - u32 (numEntries * 4)) in
      let! offs := slice (Data b) entriesIndexStart (u32 (sz - 4)) in
      let! d := slice (Data b) 0 entriesIndexStart in
      Ok (mkBI d 0 None [] [] [] (BytesToU32Slice offs) 0)
  | _ => Panic (* utils.MustUnMarshal *)
  end.

(** [append(k[:n], x...)]; the capacity of [itr.key] keeps what was cut *)
Definition setIdx (itr : blockIterator) (i : Z) : outcome blockIterator :=
  let itr := mkBI (bi_data itr) i (bi_err itr) (bi_baseKey itr) (bi_key itr) (bi_val itr)
               (bi_offsets itr) (prevOverlap itr) in
  if (zlen (bi_offsets itr) <=? i) || (i <? 0)
  then Ok (mkBI (bi_data itr) i (Some EOF) (bi_baseKey itr) (bi_key itr) (bi_val itr)
             (bi_offsets itr) (prevOverlap itr))
  else
    let! startOffset := index (bi_offsets itr) i in
    let! base :=
      (if zlen (bi_baseKey itr) =? 0 then
         let! h := header_Decode (bi_data itr) in
         slice (bi_data itr) headerSize (u16 (headerSize + diff h))
       else Ok (bi_baseKey itr)) in
    let! endOffset := (if i + 1 =? zlen (bi_offsets itr) then Ok (zlen (bi_data itr))
                       else index (bi_offsets itr) (i + 1)) in
    let! entryData := slice (bi_data itr) startOffset endOffset in
    let! h := header_Decode entryData in
    let! key :=
      (if prevOverlap itr <? overlap h then
         let! k := slice (bi_key itr) 0 (prevOverlap itr) in
         let! x := slice base (prevOverlap itr) (overlap h) in Ok (k ++ x)
       else Ok (bi_key itr)) in
    let valueOff := u16 (headerSize + diff h) in
    let! diffKey := slice entryData headerSize valueOff in
    let! k := slice key 0 (overlap h) in
    let! val := slice_from entryData valueOff in
    Ok (mkBI (bi_data itr) i None base (k ++ diffKey) val (bi_offsets itr) (overlap h)).

Definition bi_Valid (itr : blockIterator) : bool := bool_decide (bi_err itr = None).

Inductive whence := origin | cur.
(** the closure of [seek]'s binary search *)
Definition seek_pred (key : bytes) (startIndex idx : Z) (itr : blockIterator) : outcome (bool * blockIterator) :=
  if idx <? startIndex then Ok (false, itr)
  else
    let! itr := setIdx itr idx in
    let! c := CompareKeys (bi_key itr) key in
    Ok (match c with Lt => false | _ => true end, itr).
Definition bi_seek (itr : blockIterator) (key : bytes) (w : whence) : outcome blockIterator :=
  let startIndex := match w with origin => 0 | cur => bi_idx itr end in
  let itr := mkBI (bi_data itr) (bi_idx itr) None (bi_baseKey itr) (bi_key itr) (bi_val itr)
               (bi_offsets itr) (prevOverlap itr) in
  let! (found, itr) := Search (zlen (bi_offsets itr)) (seek_pred key startIndex) itr in
  setIdx itr found.
Definition bi_seekToFirst (itr : blockIterator) : outcome blockIterator := setIdx itr 0.
Definition bi_seekToLast (itr : blockIterator) : outcome blockIterator := setIdx itr (zlen (bi_offsets itr) - 1).
Definition bi_next (itr : blockIterator) : outcome blockIterator := setIdx itr (bi_idx itr + 1).
Definition bi_prev (itr : blockIterator) : outcome blockIterator := setIdx itr (bi_idx itr - 1).

(** ** The layout of a block *)

(** an entry with the length of the prefix it shares with the base key *)
Record bentry := mkE { eo : Z; ekey : bytes; eval : ValueStruct }.
Definition enc (e : bentry) : bytes :=
  header_Encode (mkHeader (eo e) (zlen (ekey e) - eo e)) ++ zdrop (eo e) (ekey e) ++ VS_bytes (eval e).
Definition encs (es : list bentry) : bytes := mjoin (enc <$> es).
Fixpoint eoffs (base : Z) (es : list bentry) : list Z :=
  match es with
  | [] => []
  | e :: es => base :: eoffs (base + zlen (enc e)) es
  end.

(** keys are versioned and fit the uint16 lengths of the header *)
Definition kv_ok (k : bytes) (v : ValueStruct) : Prop := 8 <= zlen k < 2 ^ 16 - 4 /\ VS_wf v.
Record entry_wf (base : bytes) (e : bentry) : Prop := mk_entry_wf {
  ew_kv : kv_ok (ekey e) (eval e);
  ew_range : 0 <= eo e <= zlen (ekey e) /\ eo e <= zlen base;
  ew_prefix : ztake (eo e) (ekey e) = ztake (eo e) base }.

(** the first entry carries the base key whole *)
Definition block_entries_wf (base : bytes) (es : list bentry) : Prop :=
  Forall (entry_wf base) es /\ exists e es', es = e :: es' /\ eo e = 0 /\ ekey e = base.

Lemma le_put_2_get n : 0 <= n < 2 ^ 16 -> le_get (le_put 2 n) = n.
Proof. intros. rewrite le_get_put. by apply Z.mod_small. Qed.

Lemma bheader_roundtrip o d rest : 0 <= o < 2 ^ 16 -> 0 <= d < 2 ^ 16 ->
  header_Decode (header_Encode (mkHeader o d) ++ rest) = Ok (mkHeader o d).
Proof.
  intros Ho Hd. unfold header_Decode, header_Encode, headerSize. cbn [overlap diff].
  assert (zlen (le_put 2 o ++ le_put 2 d) = 4) as Hz by (rewrite zlen_app, !zlen_le_put; done).
  pose proof (zlen_nonneg rest).
  rewrite slice_Ok by (rewrite ?zlen_app, ?zlen_le_put; lia). cbn [obind].
  rewrite Z.sub_0_r, (zdrop_0 0), (ztake_app_exact 4) by (done || lia).
  rewrite (ztake_app_exact 2), (zdrop_app_exact 2) by apply (zlen_le_put 2).
  by rewrite !le_put_2_get.
Qed.

Lemma zlen_header h : zlen (header_Encode h) = 4.
Proof. unfold header_Encode. rewrite zlen_app, !zlen_le_put. done. Qed.

Lemma zlen_enc base e : entry_wf base e ->
  zlen (enc e) = 4 + (zlen (ekey e) - eo e) + EncodedSize (eval e).
Proof.
  intros [[Hk Hv] [Ho _] _]. unfold enc. rewrite !zlen_app, zlen_header, zlen_zdrop, zlen_VS_bytes by (done || lia). lia.
Qed.

Lemma encs_app es fs : encs (es ++ fs) = encs es ++ encs fs.
Proof. unfold encs. by rewrite fmap_app, join_app. Qed.
Lemma encs_cons e es : encs (e :: es) = enc e ++ encs es.
Proof. done. Qed.
Lemma eoffs_app base es fs : eoffs base (es ++ fs) = eoffs base es ++ eoffs (base + zlen (encs es)) fs.
Proof.
  revert base. induction es as [|e es IH]; intros base; cbn [app eoffs].
  - change (encs []) with (@nil byte). rewrite zlen_nil. by rewrite Z.add_0_r.
  - rewrite IH, encs_cons, zlen_app. cbn. do 3 f_equal. lia.
Qed.
Lemma length_eoffs base es : length (eoffs base es) = length es.
Proof. revert base. induction es; intros; cbn; [done|]. by rewrite IHes. Qed.
Lemma zlen_eoffs base es : zlen (eoffs base es) = zlen es.
Proof. unfold zlen. by rewrite length_eoffs. Qed.

(** the offset of the entry after a prefix of entries *)
Lemma eoffs_middle base l1 e l2 : eoffs base (l1 ++ e :: l2) !! length l1 = Some (base + zlen (encs l1)).
Proof. rewrite eoffs_app. rewrite lookup_app_r by (rewrite length_eoffs; lia). by rewrite length_eoffs, Nat.sub_diag. Qed.

Lemma index_Ok {A} (l : list A) i x : l !! i = Some x -> index l (Z.of_nat i) = Ok x.
Proof. intros H. unfold index. destruct (Z.ltb_spec (Z.of_nat i) 0); [lia|]. by rewrite Nat2Z.id, H. Qed.

(** ** Reading *)

(** what holds between two moves of a block iterator over [es] *)
Record bi_inv (base : bytes) (es : list bentry) (itr : blockIterator) : Prop := mk_bi_inv {
  bv_data : bi_data itr = encs es;
  bv_offs : bi_offsets itr = eoffs 0 es;
  bv_base : bi_baseKey itr = [] \/ bi_baseKey itr = base;
  bv_over : 0 <= prevOverlap itr <= zlen (bi_key itr) /\ prevOverlap itr <= zlen base;
  bv_key : ztake (prevOverlap itr) (bi_key itr) = ztake (prevOverlap itr) base;
  bv_from : bi_key itr = [] \/ exists e, e ∈ es /\ bi_key itr = ekey e }.

(** the iterator stands at entry [e] *)
Definition bi_at (itr : blockIterator) (i : Z) (e : bentry) : Prop :=
  bi_idx itr = i /\ bi_err itr = None /\ bi_key itr = ekey e /\ bi_val itr = VS_bytes (eval e).

Lemma slice_ztake_0 {A} (l : list A) n : 0 <= n <= zlen l -> slice l 0 n = Ok (ztake n l).
Proof. intros. rewrite slice_Ok by lia. by rewrite Z.sub_0_r, (zdrop_0 0) by lia. Qed.

Lemma base_key_read base es itr : block_entries_wf base es -> bi_inv base es itr ->
  (if zlen (bi_baseKey itr) =? 0 then
     let! h := header_Decode (bi_data itr) in
     slice (bi_data itr) headerSize (u16 (headerSize + diff h))
   else Ok (bi_baseKey itr)) = Ok base.
Proof.
  intros [Hwf (e & es' & -> & Ho & Hk)] Hi. apply Forall_cons in Hwf as [[[Hl Hv] _ _] _].
  rewrite Hk in Hl. destruct Hi as [Hd _ Hb _ _ _].
  destruct Hb as [->| ->].
  - cbn [Z.eqb]. rewrite zlen_nil. cbn [Z.eqb]. rewrite Hd, encs_cons. unfold enc at 1 2. rewrite Ho, Hk, Z.sub_0_r.
    rewrite <- !app_assoc, bheader_roundtrip by lia. cbn [obind diff]. unfold headerSize.
    pose proof (zlen_nonneg (VS_bytes (eval e) ++ encs es')).
    rewrite u16_small, (zdrop_0 0) by lia. rewrite slice_Ok by (rewrite ?zlen_app, ?zlen_header; rewrite ?zlen_app in *; lia).
    rewrite (zdrop_app_exact 4) by apply zlen_header. f_equal. apply ztake_app_exact. lia.
  - destruct (Z.eqb_spec (zlen base) 0); [lia|done].
Qed.

(** the slice of an entry and its decoding *)
Lemma entry_slice es l1 e l2 : es = l1 ++ e :: l2 ->
  slice (encs es) (zlen (encs l1)) (zlen (encs l1) + zlen (enc e)) = Ok (enc e).
Proof.
  intros ->. rewrite encs_app, encs_cons. pose proof (zlen_nonneg (encs l1)).
  pose proof (zlen_nonneg (enc e)). pose proof (zlen_nonneg (encs l2)).
  rewrite slice_Ok by (rewrite ?zlen_app; lia).
  rewrite zdrop_app_exact by done. f_equal. apply ztake_app_exact. lia.
Qed.

Lemma entry_offsets es l1 e l2 : es = l1 ++ e :: l2 ->
  index (eoffs 0 es) (zlen l1) = Ok (zlen (encs l1)) /\
  (if zlen l1 + 1 =? zlen es then Ok (zlen (encs es)) else index (eoffs 0 es) (zlen l1 + 1)) =
    Ok (zlen (encs l1) + zlen (enc e)).
Proof.
  intros E. assert (zlen es = zlen l1 + 1 + zlen l2) as Hes by (rewrite E, zlen_app, zlen_cons; lia).
  pose proof (zlen_nonneg l2). split; [apply index_Ok; rewrite E; apply (eoffs_middle 0)|].
  destruct (Z.eqb_spec (zlen l1 + 1) (zlen es)).
  - rewrite E, encs_app, encs_cons, !zlen_app. rewrite (zlen_0_nil l2) by lia.
    change (encs []) with (@nil byte). rewrite zlen_nil. f_equal; lia.
  - destruct l2 as [|e2 l2]; [change (zlen (@nil bentry)) with 0 in *; lia|]. unfold zlen at 1.
    replace (Z.of_nat (length l1) + 1) with (Z.of_nat (length (l1 ++ [e]))) by (rewrite length_app; cbn; lia).
    apply index_Ok. rewrite E. rewrite (app_assoc l1 [e] (e2 :: l2) : l1 ++ e :: e2 :: l2 = _).
    rewrite (eoffs_middle 0), encs_app, zlen_app. f_equal. cbn. rewrite app_nil_r. lia.
Qed.

(** an entry's parts, read with the cached prefix of the previous key *)
Lemma entry_read base e prevOv key : entry_wf base e ->
  0 <= prevOv <= zlen key -> prevOv <= zlen base -> ztake prevOv key = ztake prevOv base ->
  (let! h := header_Decode (enc e) in
   let! key' := (if prevOv <? overlap h then
       let! k := slice key 0 prevOv in let! x := slice base prevOv (overlap h) in Ok (k ++ x)
     else Ok key) in
   let valueOff := u16 (headerSize + diff h) in
   let! diffKey := slice (enc e) headerSize valueOff in
   let! k := slice key' 0 (overlap h) in
   let! val := slice_from (enc e) valueOff in
   Ok (k ++ diffKey, val, overlap h)) = Ok (ekey e, VS_bytes (eval e), eo e).
Proof.
  intros [[Hl Hv] [Hr1 Hr2] Hpre] Hp1 Hp2 Hkey. unfold enc at 1. rewrite bheader_roundtrip by lia.
  cbn [obind overlap diff]. unfold headerSize.
  assert (exists key', (if prevOv <? eo e then
       let! k := slice key 0 prevOv in let! x := slice base prevOv (eo e) in Ok (k ++ x)
     else Ok key) = Ok key' /\ eo e <= zlen key' /\ ztake (eo e) key' = ztake (eo e) base) as (key' & -> & Hk1 & Hk2).
  { destruct (Z.ltb_spec prevOv (eo e)).
    - rewrite slice_ztake_0 by lia. cbn [obind]. rewrite slice_Ok by lia. cbn [obind].
      eexists. split; [done|]. rewrite Hkey.
      assert (ztake prevOv base ++ ztake (eo e - prevOv) (zdrop prevOv base) = ztake (eo e) base) as ->.
      { rewrite <- (ztake_zdrop prevOv (ztake (eo e) base)) at 1. f_equal.
        - unfold ztake. rewrite take_take. f_equal. lia.
        - unfold ztake, zdrop. rewrite take_drop_commute. do 2 f_equal. lia. }
      rewrite zlen_ztake by lia. split; [lia|]. apply ztake_ge. rewrite zlen_ztake; lia.
    - exists key. split; [done|]. split; [lia|].
      assert (forall l : bytes, ztake (eo e) l = ztake (eo e) (ztake prevOv l)) as Ht.
      { intros l. unfold ztake. rewrite take_take. f_equal. lia. }
      by rewrite Ht, Hkey, <- Ht. }
  cbn [obind]. rewrite u16_small by lia. unfold enc.
  pose proof (zlen_VS_bytes _ Hv). pose proof (zlen_nonneg (VS_bytes (eval e))).
  assert (Hz : zlen (zdrop (eo e) (ekey e)) = zlen (ekey e) - eo e) by (apply zlen_zdrop; lia).
  rewrite slice_Ok by (rewrite ?zlen_app, ?zlen_header, ?Hz; lia). cbn [obind].
  rewrite (zdrop_app_exact 4) by apply zlen_header.
  rewrite (ztake_app_exact (4 + (zlen (ekey e) - eo e) - 4)) by lia.
  rewrite slice_ztake_0 by lia. cbn [obind].
  rewrite slice_from_Ok by (rewrite ?zlen_app, ?zlen_header, ?Hz; lia). cbn [obind].
  rewrite app_assoc, zdrop_app_exact by (rewrite zlen_app, zlen_header, Hz; lia).
  rewrite Hk2, <- Hpre, ztake_zdrop. done.
Qed.

Lemma setIdx_ok base es itr l1 e l2 : block_entries_wf base es -> bi_inv base es itr -> es = l1 ++ e :: l2 ->
  exists itr', setIdx itr (zlen l1) = Ok itr' /\ bi_inv base es itr' /\ bi_at itr' (zlen l1) e.
Proof.
  intros Hwf Hi E. pose proof (base_key_read base es itr Hwf Hi) as Hbase.
  assert (He : entry_wf base e).
  { destruct Hwf as [Hwf _]. rewrite E in Hwf. by apply Forall_app in Hwf as [_ [? _]%Forall_cons]. }
  pose proof Hi as [Hd Ho _ [Hp1 Hp2] Hkey _]. pose proof He as [[Hl Hv] [Hr1 Hr2] Hpre].
  pose proof (zlen_nonneg l1). pose proof (zlen_nonneg l2). destruct (entry_offsets es l1 e l2 E) as [Ho1 Ho2].
  pose proof (entry_read base e (prevOverlap itr) (bi_key itr) He Hp1 Hp2 Hkey) as Hread.
  unfold setIdx. cbn [bi_data bi_offsets bi_baseKey bi_key prevOverlap]. rewrite Ho, zlen_eoffs.
  assert (zlen es = zlen l1 + 1 + zlen l2) as Hes by (rewrite E, zlen_app, zlen_cons; lia).
  destruct (Z.leb_spec (zlen es) (zlen l1)); [lia|]. destruct (Z.ltb_spec (zlen l1) 0); [lia|]. cbn [orb].
  rewrite Ho1. cbn [obind]. rewrite Hbase. cbn [obind]. rewrite Hd, Ho2. cbn [obind].
  rewrite (entry_slice es l1 e l2 E). cbn [obind].
  destruct (header_Decode (enc e)) as [h| |]; try done. cbn [obind] in *.
  destruct (if prevOverlap itr <? overlap h then _ else _) as [key'| |]; try done. cbn [obind] in *.
  destruct (slice (enc e) headerSize _) as [dk| |]; try done. cbn [obind] in *.
  destruct (slice key' 0 (overlap h)) as [k| |]; try done. cbn [obind] in *.
  destruct (slice_from (enc e) _) as [val| |]; try done. cbn [obind] in *. injection Hread as Hk Hval Hov.
  eexists. split; [done|]. rewrite Hk, Hval, Hov. split; [|done].
  split; cbn [bi_data bi_offsets bi_baseKey bi_key prevOverlap]; try done; try by right.
  right. exists e. split; [|done]. rewrite E. apply elem_of_app. right. left.
Qed.

Lemma setIdx_end base es itr i : bi_inv base es itr -> i < 0 \/ zlen es <= i ->
  exists itr', setIdx itr i = Ok itr' /\ bi_inv base es itr' /\ bi_err itr' = Some EOF /\ bi_idx itr' = i.
Proof.
  intros [Hd Ho Hb Hp Hk Hkf] Hi. unfold setIdx. cbn [bi_data bi_offsets bi_baseKey bi_key prevOverlap].
  rewrite Ho, zlen_eoffs. replace ((zlen es <=? i) || (i <? 0)) with true.
  2: { symmetry. apply orb_true_iff. destruct Hi; [right; apply Z.ltb_lt; lia|left; apply Z.leb_le; lia]. }
  eexists. split; [done|]. split; [|done]. by split.
Qed.

(** the first index whose key is not before [key] *)
Fixpoint lower_bound (key : bytes) (es : list bentry) : Z :=
  match es with
  | [] => 0
  | e :: es => match kcmp (ekey e) key with Lt => 1 + lower_bound key es | _ => 0 end
  end.
Definition esorted (es : list bentry) : Prop := StronglySorted (fun a b => kcmp (ekey a) (ekey b) = Lt) es.

Lemma lower_bound_range key es : 0 <= lower_bound key es <= zlen es.
Proof. induction es as [|e es IH]; cbn; [done|]. rewrite zlen_cons. destruct (kcmp (ekey e) key); lia. Qed.

Lemma lower_bound_spec key es : esorted es -> forall i e, es !! i = Some e ->
  (Z.of_nat i < lower_bound key es <-> kcmp (ekey e) key = Lt).
Proof.
  induction 1 as [|a es Hs IH Hf]; intros i e Hi; [done|]. cbn [lower_bound].
  destruct i as [|i]; cbn in Hi.
  - injection Hi as <-. pose proof (lower_bound_range key es).
    destruct (kcmp (ekey a) key); split; try done; try lia.
  - specialize (IH i e Hi). assert (kcmp (ekey a) (ekey e) = Lt) as Hae.
    { rewrite Forall_forall in Hf. apply Hf. by apply list_elem_of_lookup_2 in Hi. }
    destruct (kcmp (ekey a) key) eqn:E.
    + split; [lia|]. intros H1. pose proof (kcmp_lt_trans _ _ _ Hae H1). congruence.
    + rewrite <- IH. lia.
    + split; [lia|]. intros H1. pose proof (kcmp_lt_trans _ _ _ Hae H1). congruence.
Qed.

Lemma split_at {A} (l : list A) i : 0 <= i < zlen l -> exists l1 x l2, l = l1 ++ x :: l2 /\ zlen l1 = i /\
  l !! Z.to_nat i = Some x.
Proof.
  intros Hi. destruct (lookup_lt_is_Some_2 l (Z.to_nat i)) as [x Hx]; [unfold zlen in *; lia|].
  exists (take (Z.to_nat i) l), x, (drop (S (Z.to_nat i)) l).
  split; [by rewrite take_drop_middle|]. split; [|done]. unfold zlen in *. rewrite length_take. lia.
Qed.

Lemma bi_seek_ok base es itr key w : block_entries_wf base es -> esorted es -> bi_inv base es itr ->
  8 <= zlen key -> (match w with origin => True | cur => bi_idx itr <= lower_bound key es end) ->
  exists itr', bi_seek itr key w = Ok itr' /\ bi_inv base es itr' /\ bi_idx itr' = lower_bound key es /\
    match es !! Z.to_nat (lower_bound key es) with
    | Some e => bi_at itr' (lower_bound key es) e
    | None => bi_err itr' = Some EOF
    end.
Proof.
  intros Hwf Hs Hi Hk Hw. unfold bi_seek. cbn [bi_offsets]. rewrite (bv_offs _ _ _ Hi), zlen_eoffs.
  set (start := match w with origin => 0 | cur => bi_idx itr end). set (itr0 := mkBI _ _ _ _ _ _ _ _).
  assert (Hi0 : bi_inv base es itr0) by (destruct Hi; by split).
  assert (Hstart : start <= lower_bound key es).
  { unfold start. destruct w; [apply lower_bound_range|done]. }
  destruct (Search_spec (zlen es) (seek_pred key start) (bi_inv base es)
    (fun h => lower_bound key es <=? h)) with (s := itr0) as (r & itr1 & -> & Hi1 & Hr & Hlo & Hhi); try done.
  - intros h itr1 Hh Hi1. unfold seek_pred. destruct (Z.ltb_spec h start).
    { exists itr1. split; [|done]. destruct (Z.leb_spec (lower_bound key es) h); [lia|done]. }
    destruct (split_at es h Hh) as (l1 & e & l2 & E & Hl1 & Hlook).
    destruct (setIdx_ok base es itr1 l1 e l2 Hwf Hi1 E) as (itr2 & Hset & Hi2 & Hat).
    rewrite <- Hl1, Hset. cbn [obind]. destruct Hat as (_ & _ & Hkey & _). rewrite Hkey.
    assert (8 <= zlen (ekey e)) as Hk8.
    { destruct Hwf as [Hwf _]. rewrite E in Hwf. apply Forall_app in Hwf as [_ Hwf].
      apply Forall_cons in Hwf as [[[Hkl _] _ _] _]. lia. }
    rewrite CompareKeys_kcmp by done. cbn [obind]. exists itr2. split; [|done]. do 2 f_equal.
    pose proof (lower_bound_spec key es Hs _ _ Hlook) as Hlb. rewrite Z2Nat.id in Hlb by lia. rewrite Hl1.
    destruct (Z.leb_spec (lower_bound key es) h) as [Hle|Hlt].
    + destruct (kcmp (ekey e) key) eqn:Ec; try done. assert (h < lower_bound key es) by by apply Hlb. lia.
    + assert (kcmp (ekey e) key = Lt) as -> by by apply Hlb. done.
  - intros h k Hhk Hk' Hp. apply Z.leb_le in Hp. apply Z.leb_le. lia.
  - apply zlen_nonneg.
  - cbn [obind]. pose proof (lower_bound_range key es) as Hlr.
    assert (r = lower_bound key es) as ->.
    { destruct (Z.lt_trichotomy r (lower_bound key es)) as [Hl|[?|Hg]]; [|done|].
      - specialize (Hhi r ltac:(lia)). apply Z.leb_le in Hhi. lia.
      - specialize (Hlo (lower_bound key es) ltac:(lia)). apply Z.leb_gt in Hlo. lia. }
    destruct (decide (lower_bound key es < zlen es)) as [Hlt|Hge].
    + destruct (split_at es (lower_bound key es)) as (l1 & e & l2 & E & Hl1 & Hlook); [lia|].
      destruct (setIdx_ok base es itr1 l1 e l2 Hwf Hi1 E) as (itr2 & Hset & Hi2 & Hat).
      rewrite Hl1 in *. exists itr2. split; [done|]. split; [done|]. split; [apply Hat|]. by rewrite Hlook.
    + destruct (setIdx_end base es itr1 (lower_bound key es) Hi1) as (itr2 & Hset & Hi2 & Herr & Hidx); [lia|].
      exists itr2. repeat (split; [done|]). rewrite lookup_ge_None_2; [done|]. unfold zlen in *. lia.
Qed.

(** ** Building *)

Lemma common_prefix_spec k base : 0 <= common_prefix k base <= zlen k /\ common_prefix k base <= zlen base /\
  ztake (common_prefix k base) k = ztake (common_prefix k base) base.
Proof.
  revert base. induction k as [|x k IH]; intros [|y base]; cbn [common_prefix];
    try (rewrite !zlen_nil || idtac; repeat split; try done; try apply zlen_nonneg; rewrite ?zlen_cons; pose proof (zlen_nonneg k); lia).
  destruct (decide (x = y)) as [->|].
  - destruct (IH base) as (H1 & H2 & H3). rewrite !zlen_cons. split; [lia|]. split; [lia|].
    unfold ztake in *. replace (Z.to_nat (1 + common_prefix k base)) with (S (Z.to_nat (common_prefix k base))) by lia.
    cbn [take firstn]. by rewrite H3.
  - rewrite !zlen_cons. pose proof (zlen_nonneg k). pose proof (zlen_nonneg base). repeat split; try lia.
Qed.

(** the block's data is [pre] and zeros *)
Record filled (c : Block) (pre : bytes) : Prop := mk_filled {
  fl_data : Data c = pre ++ zrep (BlockLength c - zlen pre) Byte.x00;
  fl_len : zlen pre <= BlockLength c;
  fl_align : align (BlockLength c) = true }.

Lemma filled_zlen c pre : filled c pre -> zlen (Data c) = BlockLength c.
Proof. intros [Hd Hl _]. rewrite Hd, zlen_app, zlen_zrep by lia. lia. Qed.

Lemma blockGrow_ok c pre n : filled c pre -> 0 < n -> BlockLength c + n + 512 < 2 ^ 32 ->
  exists c', blockGrow c n = Ok c' /\ filled c' pre /\ BlockLength c + n <= BlockLength c' < BlockLength c + n + 512.
Proof.
  intros Hf Hn Hb. pose proof (filled_zlen c pre Hf) as Hz. pose proof Hf as [Hd Hl Ha]. pose proof (zlen_nonneg pre).
  unfold blockGrow. rewrite u32_small by lia.
  destruct (Ceil_spec (BlockLength c + n) 512) as (s & -> & Hs & Hr); [lia|lia|lia|]. cbn [obind].
  eexists. split; [done|]. split; [|done]. split; cbn [Data BlockLength].
  - rewrite (zrep_tail _ s (zlen (Data c))) by lia. rewrite copy_at_0_fits by (rewrite zlen_zrep; lia).
    rewrite Hd, <- app_assoc. f_equal. rewrite <- zrep_plus by (rewrite ?zlen_app, ?zlen_zrep; lia).
    f_equal. rewrite zlen_app, zlen_zrep by lia. lia.
  - lia.
  - unfold align. rewrite Hs. destruct (Z.eqb_spec s 0); [lia|done].
Qed.

Lemma filled_write c pre d : filled c pre -> zlen pre + zlen d <= BlockLength c ->
  filled (mkBlock (CheckSum c) (BlockLength c) (UserData c) (copy_at (Data c) (zlen pre) d)) (pre ++ d).
Proof.
  intros [Hd Hl Ha] Hr. pose proof (zlen_nonneg d). pose proof (zlen_nonneg pre).
  split; cbn [Data BlockLength]; [|rewrite zlen_app; lia|done].
  rewrite Hd, (zrep_tail _ _ (zlen d)) by lia. rewrite copy_at_fits by (rewrite zlen_zrep; lia).
  rewrite <- app_assoc. do 3 f_equal. rewrite zlen_app. lia.
Qed.

(** both writers first make room for [n] more bytes *)
Lemma grow_ok b pre n : filled (current b) pre -> 0 <= n -> BlockLength (current b) + n + 512 < 2 ^ 32 ->
  exists c, (if BlockLength (current b) <? zlen pre + n then blockGrow (current b) n else Ok (current b)) = Ok c /\
    filled c pre /\ zlen pre + n <= BlockLength c /\
    BlockLength (current b) <= BlockLength c < BlockLength (current b) + n + 512 /\
    (zlen pre + n <= BlockLength (current b) -> BlockLength c = BlockLength (current b)).
Proof.
  intros Hf Hn Hb. pose proof (fl_len _ _ Hf).
  destruct (Z.ltb_spec (BlockLength (current b)) (zlen pre + n)).
  - destruct (blockGrow_ok (current b) pre n Hf) as (c & -> & Hc & Hr); [lia|lia|].
    exists c. repeat (split; [done || lia|]). lia.
  - exists (current b). repeat (split; [done || lia|]). done.
Qed.

Lemma Builder_append_ok b pre d : filled (current b) pre -> sz b = zlen pre ->
  BlockLength (current b) + zlen d + 512 < 2 ^ 32 ->
  exists c', Builder_append b d = Ok (set_block b c' (zlen (pre ++ d))) /\ filled c' (pre ++ d) /\
    BlockLength (current b) <= BlockLength c' < BlockLength (current b) + zlen d + 512 /\
    (zlen (pre ++ d) <= BlockLength (current b) -> BlockLength c' = BlockLength (current b)).
Proof.
  intros Hf Hsz Hb. pose proof (zlen_nonneg d). pose proof (zlen_nonneg pre). pose proof (fl_len _ _ Hf).
  unfold Builder_append. rewrite Hsz, (u32_small (zlen d)), (u32_small (zlen pre + zlen d)), zlen_app by lia.
  destruct (grow_ok b pre (zlen d) Hf) as (c & -> & Hc & Hr & Hm & Hsame); [lia|lia|].
  cbn [obind]. rewrite slice_from_Ok by (rewrite (filled_zlen c pre Hc); lia). cbn [obind].
  eexists. split; [done|]. split; [by apply filled_write|]. done.
Qed.

Lemma Builder_value_ok b pre v : filled (current b) pre -> sz b = zlen pre -> VS_wf v ->
  BlockLength (current b) + EncodedSize v + 512 < 2 ^ 32 ->
  exists c', Builder_value b v = Ok (set_block b c' (zlen (pre ++ VS_bytes v))) /\ filled c' (pre ++ VS_bytes v) /\
    BlockLength (current b) <= BlockLength c' < BlockLength (current b) + EncodedSize v + 512 /\
    (zlen (pre ++ VS_bytes v) <= BlockLength (current b) -> BlockLength c' = BlockLength (current b)).
Proof.
  intros Hf Hsz Hv Hb. pose proof (zlen_VS_bytes v Hv) as Hz. pose proof (zlen_nonneg (VS_bytes v)).
  pose proof (zlen_nonneg pre). pose proof (fl_len _ _ Hf).
  unfold Builder_value. rewrite Hsz, (u32_small (zlen pre + EncodedSize v)), zlen_app by lia.
  destruct (grow_ok b pre (EncodedSize v) Hf) as (c & -> & Hc & Hr & Hm & Hsame); [lia|lia|]. cbn [obind].
  pose proof (filled_zlen c pre Hc) as Hcz. rewrite slice_from_Ok by lia. cbn [obind].
  rewrite VS_Encode_bytes by (done || (rewrite zlen_zdrop; lia)). cbn [obind].
  rewrite u32_small by lia. eexists. split; [by rewrite Hz|]. cbn [BlockLength]. rewrite Hz. split; [|done].
  replace (ztake (zlen pre) (Data c) ++ VS_bytes v ++ zdrop (EncodedSize v) (zdrop (zlen pre) (Data c)))
    with (copy_at (Data c) (zlen pre) (VS_bytes v)).
  - apply filled_write; [done|lia].
  - unfold copy_at. rewrite (ztake_ge (zlen (Data c) - zlen pre)), zdrop_zdrop, Hz by lia. done.
Qed.

(** the builder holds the entries [es] of the current block *)
Record binv (b : Builder) (es : list bentry) : Prop := mk_binv {
  bn_fill : filled (current b) (encs es);
  bn_sz : sz b = zlen (encs es);
  bn_offs : entryOffsets b = eoffs 0 es;
  bn_base : match es with [] => baseKey b = [] | e :: _ => baseKey b = ekey e end;
  bn_wf : es <> [] -> block_entries_wf (baseKey b) es;
  bn_max : BlockSize <= BlockLength (current b) <= 2 ^ 21;
  bn_first : es = [] -> BlockLength (current b) = BlockSize;
  bn_count : zlen es <= 1001 }.

Lemma newBuilder_inv done est hashes ch : binv (mkBuilder done None 0 [] [] est hashes ch) [].
Proof. split; done. Qed.

(** the size of the current block if an entry is added *)
Definition room (es : list bentry) (k : bytes) (v : ValueStruct) : Z :=
  zlen (encs es) + 4 + zlen k + EncodedSize v + (4 * zlen es + 4).
Definition small_kv (k : bytes) (v : ValueStruct) : Prop := kv_ok k v /\ EncodedSize v < 2 ^ 20.

Section Farm.
Variable fp : bytes -> Z.

Definition next_entry (b : Builder) (es : list bentry) (k : bytes) (v : ValueStruct) : bentry :=
  mkE (match es with [] => 0 | _ => common_prefix k (baseKey b) end) k v.

Lemma next_entry_wf b es k v : kv_ok k v -> entry_wf (match es with [] => k | _ => baseKey b end) (next_entry b es k v).
Proof.
  intros Hkv. pose proof Hkv as [Hk _]. destruct (common_prefix_spec k (baseKey b)) as (H1 & H2 & H3).
  destruct es; split; cbn [next_entry eo ekey eval]; try done; lia.
Qed.

Lemma block_entries_snoc b es k v : kv_ok k v -> (es <> [] -> block_entries_wf (baseKey b) es) ->
  (match es with [] => True | e :: _ => baseKey b = ekey e end) ->
  block_entries_wf (if match es with [] => true | _ => false end then k else baseKey b) (es ++ [next_entry b es k v]).
Proof.
  intros Hkv Hwf Hb. pose proof (next_entry_wf b es k v Hkv) as Hn. destruct es as [|e0 es0].
  - split; [by constructor|]. by exists (next_entry b [] k v), [].
  - destruct (Hwf ltac:(done)) as [Hf (e1 & es1 & [= <- <-] & Ho & Hk)]. split.
    + apply Forall_app. split; [done|by constructor].
    + by exists e0, (es0 ++ [next_entry b (e0 :: es0) k v]).
Qed.

(** the parts of an entry, written one after the other *)
Lemma addHelper_ok b es k v : binv b es -> small_kv k v -> zlen es <= 1000 ->
  (es = [] \/ room es k v <= BlockSize) ->
  exists b', addHelper fp b k v = Ok b' /\ binv b' (es ++ [next_entry b es k v]) /\
    doneBlocks b' = doneBlocks b /\ writeCh b' = writeCh b /\ keyHashes b' = keyHashes b ++ [fp (ukey k)].
Proof.
  intros Hb [Hkv Hsm] Hcnt Hroom. pose proof (next_entry_wf b es k v Hkv) as Hwf.
  set (e := next_entry b es k v) in *. pose proof Hb as [Hfill Hsz Hoffs Hbase Hbwf Hmax Hfirst _].
  pose proof Hkv as [Hk Hv]. pose proof (zlen_nonneg (encs es)). pose proof (EncodedSize_bounds v Hv).
  pose proof (zlen_nonneg (VValue v)). pose proof (fl_len _ _ Hfill).
  unfold addHelper, ParseKey. rewrite slice_ukey by lia. cbn [obind default from_option].
  assert ((zlen (baseKey b) =? 0) = match es with [] => true | _ => false end) as ->.
  { destruct es as [|e0 es0]; [by rewrite Hbase|]. destruct (Hbwf ltac:(done)) as [Hf _].
    apply Forall_cons in Hf as [[[Hl _] _ _] _]. rewrite Hbase. destruct (Z.eqb_spec (zlen (ekey e0)) 0); [lia|done]. }
  assert ((if match es with [] => true | _ => false end then k else keyDiff (baseKey b) k) = zdrop (eo e) k) as ->.
  { destruct es; [done|]. done. }
  pose proof Hwf as [_ [He1 He2] Hpre]. cbn [e ekey eval next_entry] in He1, Hpre.
  change (match es with [] => 0 | _ :: _ => common_prefix k (baseKey b) end) with (eo e) in *.
  assert (Hzd : zlen (zdrop (eo e) k) = zlen k - eo e) by (apply zlen_zdrop; lia).
  rewrite Hzd. replace (zlen k - (zlen k - eo e)) with (eo e) by lia.
  rewrite (u16_small (eo e)), (u16_small (zlen k - eo e)) by lia.
  unfold MaxUint32. rewrite Hsz. destruct (Z.ltb_spec (zlen (encs es)) (2 ^ 32 - 1)); [|lia]. cbn [assert].
  set (hd := header_Encode _). set (b1 := mkBuilder _ _ _ _ _ _ _ _).
  destruct (Builder_append_ok b1 (encs es) hd) as (c1 & -> & Hf1 & Hm1 & Hs1);
    [done|done|unfold hd; rewrite zlen_header; change (current b1) with (current b); lia|]. cbn [obind].
  change (current b1) with (current b) in Hm1, Hs1. unfold hd in Hm1. rewrite zlen_header in Hm1. 
  set (b2 := set_block b1 c1 _).
  destruct (Builder_append_ok b2 (encs es ++ hd) (zdrop (eo e) k)) as (c2 & -> & Hf2 & Hm2 & Hs2);
    [done|done|change (current b2) with c1; lia|]. cbn [obind].
  change (current b2) with c1 in Hm2, Hs2. rewrite Hzd in Hm2. set (b3 := set_block b2 c2 _).
  change (current b3) with c2. change (sz b3) with (zlen ((encs es ++ hd) ++ zdrop (eo e) k)).
  set (pre := (encs es ++ hd) ++ zdrop (eo e) k) in *.
  assert (Hpz : zlen pre = zlen (encs es) + 4 + (zlen k - eo e)).
  { unfold pre, hd. rewrite !zlen_app, zlen_header. lia. }
  destruct (Builder_value_ok b3 pre v) as (c3 & -> & Hf3 & Hm3 & Hs3);
    [done|done|done|change (current b3) with c2; lia|]. cbn [obind].
  change (current b3) with c2 in Hm3, Hs3.
  eexists. split; [done|]. split; [|done].
  assert (Hencs : encs (es ++ [e]) = pre ++ VS_bytes v).
  { rewrite encs_app. unfold pre, hd. rewrite <- !app_assoc. f_equal. cbn. rewrite app_nil_r. done. }
  split; cbn [current currentBlock set_block sz entryOffsets baseKey].
  - by rewrite Hencs.
  - by rewrite Hencs.
  - rewrite eoffs_app, <- Hoffs. done.
  - destruct es as [|e0 es0]; [done|]. cbn. done.
  - intros _. apply (block_entries_snoc b es k v); [done|done|by destruct es].
  - split; [lia|]. destruct Hroom as [->|Hroom]; [rewrite Hfirst in * by done; unfold BlockSize in *; lia|].
    unfold room in Hroom. pose proof (zlen_nonneg es).
    assert (BlockLength c1 = BlockLength (current b)) by (apply Hs1; unfold hd; rewrite zlen_app, zlen_header; lia).
    assert (BlockLength c2 = BlockLength c1) by (apply Hs2; fold pre; lia).
    assert (BlockLength c3 = BlockLength c2) by (apply Hs3; rewrite zlen_app, zlen_VS_bytes by done; lia). lia.
  - by destruct es.
  - rewrite zlen_app. change (zlen [e]) with 1. lia.
Qed.

(** ** Finished blocks *)

Definition payload (es : list bentry) : bytes :=
  encs es ++ U32SliceToBytes (eoffs 0 es) ++ PutUint32 (zlen es).

Record block_holds (c : Block) (base : bytes) (es : list bentry) : Prop := mk_holds {
  bh_user : UserData c = RawBlockMeta_bytes (mkRBM RawBlockType_data 0 (zlen (payload es)) 0 0 0);
  bh_data : exists pad, Data c = payload es ++ pad;
  bh_wf : block_entries_wf base es;
  bh_size : zlen (payload es) < 2 ^ 32;
  bh_block : block_wf c;
  bh_max : BlockLength c <= 2 ^ 22 }.

Lemma zlen_payload es : zlen (payload es) = zlen (encs es) + 4 * zlen es + 4.
Proof.
  unfold payload. rewrite !zlen_app, zlen_U32SliceToBytes, zlen_eoffs.
  change (zlen (PutUint32 _)) with 4. lia.
Qed.

Lemma eoffs_u32 es base : 0 <= base -> base + zlen (encs es) < 2 ^ 32 -> Forall is_u32 (eoffs base es).
Proof.
  revert base. induction es as [|e es IH]; intros base H0 H1; cbn [eoffs]; [done|].
  rewrite encs_cons, zlen_app in H1. pose proof (zlen_nonneg (enc e)). pose proof (zlen_nonneg (encs es)).
  constructor; [unfold is_u32; lia|]. apply IH; lia.
Qed.

Lemma meta_wf n : is_u32 n -> RawBlockMeta_wf (mkRBM RawBlockType_data 0 n 0 0 0).
Proof. intros. by repeat split; try apply H. Qed.

Lemma FinishBlock_ok b es : binv b es -> es <> [] ->
  exists b' c, FinishBlock b = Ok b' /\ block_holds c (baseKey b) es /\ currentBlock b' = Some c /\
    writeCh b' = writeCh b ++ [(c, baseKey b)] /\ keyHashes b' = keyHashes b /\
    doneBlocks b' = doneBlocks b.
Proof.
  intros [Hfill Hsz Hoffs Hbase Hwf Hmax _ Hcnt] Hne. pose proof (zlen_nonneg es).
  pose proof (zlen_nonneg (encs es)). pose proof (fl_len _ _ Hfill).
  assert (Hz1 : zlen (U32SliceToBytes (eoffs 0 es)) = 4 * zlen es) by (rewrite zlen_U32SliceToBytes, zlen_eoffs; done).
  unfold FinishBlock. rewrite Hoffs.
  destruct (Builder_append_ok b (encs es) (U32SliceToBytes (eoffs 0 es))) as (c1 & -> & Hf1 & Hm1 & _);
    [done|done|lia|]. cbn [obind].
  set (b1 := set_block b c1 _). change (entryOffsets b1) with (entryOffsets b). rewrite Hoffs, zlen_eoffs.
  rewrite u32_small by lia. unfold U32ToBytes.
  destruct (Builder_append_ok b1 (encs es ++ U32SliceToBytes (eoffs 0 es)) (PutUint32 (zlen es)))
    as (c2 & -> & Hf2 & Hm2 & _); [done|done|change (current b1) with c1; change (zlen (PutUint32 _)) with 4; lia|].
  cbn [obind]. change (current b1) with c1 in Hm2. change (zlen (PutUint32 _)) with 4 in Hm2.
  rewrite <- app_assoc in *. fold (payload es) in *. set (b2 := set_block b1 c2 _).
  change (current b2) with c2. change (sz b2) with (zlen (payload es)).
  pose proof (fl_len _ _ Hf2). pose proof (zlen_nonneg (payload es)).
  assert (is_u32 (zlen (payload es))) as Hu by (unfold is_u32; lia).
  rewrite RawBlockMeta_Marshal_bytes by by apply meta_wf. cbn [obind].
  do 2 eexists. split; [done|]. split; [|done].
  pose proof (filled_zlen c2 _ Hf2) as Hz. destruct Hf2 as [Hd2 Hl2 Ha2].
  split; cbn [UserData Data BlockLength]; [done|eauto|by apply Hwf|lia| |lia].
  split; cbn [CheckSum Data BlockLength]; try done; [lia|].
  pose proof (RawBlockMeta_bytes_bound _ (meta_wf _ Hu)). rewrite zlen_meta. cbn [BlockLength UserData].
  pose proof (zlen_PutUvarint_u32 (BlockLength c2) ltac:(lia)). unfold user_bytes.
  set (u := RawBlockMeta_bytes _) in *. pose proof (zlen_nonneg u).
  destruct (Z.ltb_spec 0 (zlen u)); [|rewrite zlen_nil; lia].
  pose proof (zlen_PutUvarint_u32 (zlen u) ltac:(lia)). rewrite zlen_app. lia.
Qed.

Lemma setBlock_ok c base es : block_holds c base es -> exists itr, setBlock c = Ok itr /\ bi_inv base es itr.
Proof.
  intros [Hu [pad Hd] Hwf Hs _ _]. pose proof (zlen_payload es) as Hz. pose proof (zlen_nonneg es).
  pose proof (zlen_nonneg (encs es)). pose proof (zlen_nonneg pad).
  unfold setBlock. rewrite Hu, RawBlockMeta_Unmarshal_bytes by (apply meta_wf; unfold is_u32; lia).
  cbn [UnCompressedSize]. rewrite (u32_small (zlen (payload es) - 4)) by lia.
  rewrite Hd. set (offs := U32SliceToBytes (eoffs 0 es)) in *.
  assert (Ho : zlen offs = 4 * zlen es) by (unfold offs; rewrite zlen_U32SliceToBytes, zlen_eoffs; done).
  assert (Hcnt : slice (payload es ++ pad) (zlen (payload es) - 4) (zlen (payload es)) = Ok (PutUint32 (zlen es))).
  { rewrite slice_Ok by (rewrite ?zlen_app; lia). rewrite Hz. unfold payload.
    rewrite <- app_assoc, <- app_assoc, app_assoc. fold offs.
    rewrite zdrop_app_exact by (rewrite zlen_app; lia).
    f_equal. apply ztake_app_exact. change (zlen (PutUint32 _)) with 4. lia. }
  rewrite Hcnt. cbn [obind]. unfold BytesToU32. rewrite slice_Ok by done. cbn [obind].
  change (ztake (4 - 0) (zdrop 0 (PutUint32 (zlen es)))) with (PutUint32 (zlen es)).
  rewrite Uint32_Put, (u32_small (zlen es)) by lia. cbn [obind].
  rewrite (u32_small (zlen es * 4)), u32_small by lia.
  replace (zlen (payload es) - 4 - zlen es * 4) with (zlen (encs es)) by lia.
  assert (Hoffs : slice (payload es ++ pad) (zlen (encs es)) (zlen (payload es) - 4) = Ok offs).
  { rewrite slice_Ok by (rewrite ?zlen_app; lia). rewrite Hz. unfold payload. fold offs. rewrite <- !app_assoc.
    rewrite zdrop_app_exact by done. f_equal. apply ztake_app_exact. lia. }
  rewrite Hoffs. cbn [obind]. rewrite slice_ztake_0 by (rewrite ?zlen_app; lia). cbn [obind].
  eexists. split; [done|]. unfold payload. rewrite <- app_assoc, ztake_app_exact by done.
  unfold offs. rewrite BytesToU32Slice_inverse by (apply eoffs_u32; lia).
  split; cbn [bi_data bi_offsets bi_baseKey bi_key prevOverlap]; try done; [by left| |by left].
  pose proof (zlen_nonneg base). change (zlen (@nil byte)) with 0. lia.
Qed.

(** ** All blocks of a table *)

Fixpoint add_all (b : Builder) (kvs : list (bytes * ValueStruct)) : outcome Builder :=
  match kvs with
  | [] => Ok b
  | (k, v) :: kvs => let! b := Builder_Add fp b k v in add_all b kvs
  end.
(** what the callers do before [FinishAll] *)
Definition build_blocks (kvs : list (bytes * ValueStruct)) : outcome Builder :=
  let! b := add_all newBuilder kvs in FinishBlock b.

Definition kvs_of (es : list bentry) : list (bytes * ValueStruct) := (fun e => (ekey e, eval e)) <$> es.

Lemma shouldFinishBlock_spec b es k v : binv b es -> small_kv k v ->
  shouldFinishBlock b k v = match es with [] => false | _ => (BlockSize <? room es k v) || (1000 <? zlen es) end.
Proof.
  intros [Hfill Hsz Hoffs _ _ Hmax _ Hcnt] [[Hk Hv] Hsm]. pose proof (zlen_nonneg es). pose proof (fl_len _ _ Hfill).
  pose proof (zlen_nonneg (encs es)). pose proof (EncodedSize_bounds v Hv). pose proof (zlen_nonneg (VValue v)).
  unfold shouldFinishBlock. rewrite Hoffs, zlen_eoffs, Hsz. unfold headerSize.
  destruct es as [|e es]; [done|]. rewrite zlen_cons in *. pose proof (zlen_nonneg es).
  destruct (Z.leb_spec (1 + zlen es) 0); [lia|]. unfold room.
  rewrite (u32_small (zlen k)), (u32_small ((1 + zlen es) * 4 + 4)) by lia.
  rewrite (u32_small (zlen (encs (e :: es)) + 4)) by lia. rewrite (u32_small (_ + zlen k)) by lia.
  rewrite (u32_small (_ + EncodedSize v)) by lia. rewrite u32_small by lia. rewrite !zlen_cons.
  do 2 f_equal. lia.
Qed.

Lemma Builder_Add_ok b es k v : binv b es -> small_kv k v ->
  exists b' new es', Builder_Add fp b k v = Ok b' /\ binv b' es' /\
    Forall2 (fun g p => block_holds (fst p) (snd p) g) new (drop (length (writeCh b)) (writeCh b')) /\
    take (length (writeCh b)) (writeCh b') = writeCh b /\
    mjoin (kvs_of <$> new) ++ kvs_of es' = kvs_of es ++ [(k, v)] /\ es' <> [] /\
    keyHashes b' = keyHashes b ++ [fp (ukey k)].
Proof.
  intros Hb Hkv. unfold Builder_Add. rewrite (shouldFinishBlock_spec b es k v Hb Hkv).
  assert (Hstay : (match es with [] => false | _ => (BlockSize <? room es k v) || (1000 <? zlen es) end) = false ->
    zlen es <= 1000 /\ (es = [] \/ room es k v <= BlockSize)).
  { destruct es as [|e es]; [intros _; by split; [|left]|]. intros H. apply orb_false_iff in H as [H1 H2].
    apply Z.ltb_ge in H1, H2. auto. }
  destruct (match es with [] => false | _ => (BlockSize <? room es k v) || (1000 <? zlen es) end) eqn:Hfin.
  - assert (es <> []) as Hne by by destruct es.
    destruct (FinishBlock_ok b es Hb Hne) as (b1 & c & -> & Hc & Hcur & Hch & Hkh & Hdn). cbn [obind].
    set (b2 := mkBuilder _ _ _ _ _ _ _ _).
    destruct (addHelper_ok b2 [] k v) as (b' & -> & Hb' & Hdn' & Hch' & Hkh'); [apply newBuilder_inv|done|done|by left|].
    exists b', [es], [next_entry b2 [] k v]. split; [done|]. split; [done|].
    rewrite Hch'. change (writeCh b2) with (writeCh b1). rewrite Hch, drop_app_length, take_app_length.
    split; [by constructor|]. split; [done|]. split; [cbn; by rewrite app_nil_r|]. split; [done|].
    by rewrite Hkh'; change (keyHashes b2) with (keyHashes b1); rewrite Hkh.
  - cbn [obind]. destruct (Hstay eq_refl) as [Hc Hr].
    destruct (addHelper_ok b es k v Hb Hkv Hc Hr) as (b' & -> & Hb' & _ & Hch & Hkh).
    exists b', [], (es ++ [next_entry b es k v]). rewrite Hch, drop_all, firstn_all.
    split; [done|]. split; [done|]. split; [constructor|]. split; [done|].
    split; [cbn; unfold kvs_of; by rewrite fmap_app|]. split; [by destruct es|done].
Qed.

Lemma add_all_ok kvs : forall b es done, binv b es -> Forall (fun p => small_kv (fst p) (snd p)) kvs ->
  Forall2 (fun g p => block_holds (fst p) (snd p) g) done (writeCh b) -> (kvs <> [] \/ es <> []) ->
  exists b' es' done', add_all b kvs = Ok b' /\ binv b' es' /\ es' <> [] /\
    Forall2 (fun g p => block_holds (fst p) (snd p) g) done' (writeCh b') /\
    mjoin (kvs_of <$> done') ++ kvs_of es' = (mjoin (kvs_of <$> done) ++ kvs_of es) ++ kvs /\
    keyHashes b' = keyHashes b ++ ((fun p => fp (ukey (fst p))) <$> kvs).
Proof.
  induction kvs as [|[k v] kvs IH]; intros b es dn Hb Hkvs Hdn Hne; cbn [add_all].
  { exists b, es, dn. rewrite !app_nil_r. destruct Hne; done. }
  apply Forall_cons in Hkvs as [Hkv Hkvs].
  destruct (Builder_Add_ok b es k v Hb Hkv) as (b1 & new & es1 & -> & Hb1 & Hnew & Htake & Hcat & Hne1 & Hkh).
  cbn [obind]. destruct (IH b1 es1 (dn ++ new) Hb1 Hkvs) as (b' & es' & dn' & Hr & Hb' & Hne' & Hd' & Hcat' & Hkh').
  { rewrite <- (take_drop (length (writeCh b)) (writeCh b1)), Htake. by apply Forall2_app. }
  { by right. }
  exists b', es', dn'. split; [done|]. split; [done|]. split; [done|]. split; [done|]. split.
  - rewrite Hcat', fmap_app, join_app, <- !app_assoc. f_equal. rewrite app_assoc, Hcat. by rewrite <- app_assoc.
  - rewrite Hkh', Hkh, <- app_assoc. done.
Qed.

(** the blocks hold the pairs, in order *)
Lemma build_blocks_ok kvs : kvs <> [] -> Forall (fun p => small_kv (fst p) (snd p)) kvs ->
  exists b groups, build_blocks kvs = Ok b /\
    Forall2 (fun g p => block_holds (fst p) (snd p) g) groups (writeCh b) /\
    mjoin (kvs_of <$> groups) = kvs /\ keyHashes b = (fun p => fp (ukey (fst p))) <$> kvs.
Proof.
  intros Hne Hkvs. unfold build_blocks.
  destruct (add_all_ok kvs newBuilder [] []) as (b & es & dn & -> & Hb & Hes & Hd & Hcat & Hkh);
    [apply newBuilder_inv|done|constructor|by left|]. cbn [obind].
  destruct (FinishBlock_ok b es Hb Hes) as (b' & c & -> & Hc & _ & Hch & Hkh' & _).
  exists b', (dn ++ [es]). split; [done|]. rewrite Hch. split; [apply Forall2_app; [done|by constructor]|].
  split; [|by rewrite Hkh']. rewrite fmap_app, join_app. cbn. by rewrite app_nil_r.
Qed.
End Farm.
