(* ===== verification/Table.v ===== *)
(** Package rangepartition/table: the table file. The builder's writer
    goroutine and [FinishAll] (builder.go), [OpenTable] (table.go), the table
    [Iterator] and [ConcatIterator] (iterator.go), over any stream that keeps
    the promises of [StreamLaws]. *)
From Stdlib Require Import ZArith Lia.
From stdpp Require Import base option list numbers sorting strings.
From S2P Require Import Prelude GoLib Utils Proto ProtoPs Keys YIter Extent MixBlock Stream TableBlock.

(** ** ristretto/z.Bloom *)

Class BloomOps (Bloom : Type) := {
  NewBloomFilter : Z -> Bloom;
  bf_Add : Bloom -> Z -> Bloom;
  bf_Has : Bloom -> Z -> bool;
  bf_JSONMarshal : Bloom -> bytes;
  bf_JSONUnmarshal : bytes -> outcome Bloom }.

(** A Bloom filter has no false negatives and survives its JSON encoding. *)
Class BloomLaws (Bloom : Type) `{BloomOps Bloom} := {
  bf_add_has : forall b h, bf_Has (bf_Add b h) h = true;
  bf_add_keep : forall b h h', bf_Has b h = true -> bf_Has (bf_Add b h') h = true;
  bf_json : forall b, exists b', bf_JSONUnmarshal (bf_JSONMarshal b) = Ok b' /\
    forall h, bf_Has b' h = bf_Has b h }.

Section Table.
Context {St : Type} `{StreamLaws St}.
Context {Bloom : Type} `{BloomLaws Bloom}.

(** ** The writer goroutine *)

Definition MB : Z := 1024 * KB.
(** [slurpLoop]: [avail] more blocks are in the channel while it runs *)
Fixpoint slurp (avail : nat) (size : Z) (ch : list (Block * bytes)) {struct ch}
    : list (Block * bytes) * list (Block * bytes) :=
  match ch with
  | [] => ([], [])
  | w :: ch =>
      let size := u32 (size + BlockLength (fst w)) in
      if 10 * MB <? size then ([w], ch)
      else match avail with
           | O => ([w], ch)
           | S avail => let '(batch, rest) := slurp avail size ch in (w :: batch, rest)
           end
  end.
Definition addBlockToIndex (index : list BlockOffset) (baseKey : bytes) (extentID offset : Z) : list BlockOffset :=
  index ++ [mkBO baseKey extentID offset].
Fixpoint add_to_index (idx : list BlockOffset) (baseKeys : list bytes) (extentID : Z) (offsets : list Z)
    : outcome (list BlockOffset) :=
  match offsets, baseKeys with
  | [], _ => Ok idx
  | o :: offsets, k :: baseKeys => add_to_index (addBlockToIndex idx k extentID o) baseKeys extentID offsets
  | _ :: _, [] => Panic
  end.
(** the worker's loop until the channel is closed and empty; [sched] tells
    how many blocks each round finds waiting after the one it blocks on *)
Fixpoint writer_loop (fuel : nat) (sched : nat -> nat) (s : St) (idx : list BlockOffset)
    (ch : list (Block * bytes)) : outcome (St * list BlockOffset) :=
  match ch with
  | [] => Ok (s, idx)
  | _ =>
      match fuel with
      | O => Panic
      | S fuel =>
          let '(batch, rest) := slurp (sched fuel) 0 ch in
          let! (s, r) := sc_Append s (fst <$> batch) in
          match r with
          | inr _ => Panic (* utils.Check(err) *)
          | inl (extentID, offsets) =>
              let! idx := add_to_index idx (snd <$> batch) extentID offsets in
              writer_loop fuel sched s idx rest
          end
      end
  end.
Definition run_writer (sched : nat -> nat) (s : St) (b : Builder) : outcome (St * list BlockOffset) :=
  writer_loop (length (writeCh b)) sched s [] (writeCh b).

(** ** FinishAll *)

Definition FinishAll (sched : nat -> nat) (s : St) (b : Builder) (headExtentID headOffset seqNum : Z)
    : outcome (St * (Z * Z)) :=
  let! (s, offsets) := run_writer sched s b in
  let bf := foldl bf_Add (NewBloomFilter (zlen (keyHashes b))) (keyHashes b) in
  let tableIndex := mkTI offsets (bf_JSONMarshal bf) (estimatedSize b) 0 in
  let! sz := Ceil (u32 (TableIndex_Size tableIndex)) (4 * KB) in
  let! (data, _) := TableIndex_MarshalTo tableIndex (zrep sz Byte.x00) in
  let! ud := RawBlockMeta_Marshal (mkRBM RawBlockType_meta 0 (u32 (TableIndex_Size tableIndex))
               headExtentID headOffset seqNum) in
  let metaBlock := mkBlock (AdlerCheckSum data) sz ud data in
  let! (s, r) := sc_Append s [metaBlock] in
  match r with
  | inr e => Err e
  | inl (extentID, offsets) => let! o := index offsets 0 in Ok (s, (extentID, o))
  end.

(** ** Table and Iterator *)

Record Table := mkTable {
  blockIndex : list BlockOffset; t_ref : Z; smallest : bytes; biggest : bytes;
  t_estimatedSize : Z; bf : Bloom; Loc : Z * Z; LastSeq : Z; t_VpExtentID : Z; t_VpOffset : Z }.
Definition t_IncrRef (t : Table) : Table :=
  mkTable (blockIndex t) (t_ref t + 1) (smallest t) (biggest t) (t_estimatedSize t) (bf t) (Loc t)
    (LastSeq t) (t_VpExtentID t) (t_VpOffset t).
Definition DoesNotHave (t : Table) (hash : Z) : bool := negb (bf_Has (bf t) hash).

Record Iterator := mkTIt {
  it_t : Table; bpos : Z; bi : blockIterator; it_err : option error; reversed : bool }.

Section Ops.
(** the stream the tables read from, as it is when they read *)
Variable s : St.

Definition block (t : Table) (idx : Z) : outcome (Block + error) :=
  let! bo := index (blockIndex t) idx in
  let! (blocks, err) := sc_Read s (BO_ExtentID bo) (BO_Offset bo) 1 in
  match err with
  | Some e => Ok (inr e)
  | None => match blocks with
            | [b] => Ok (inl b)
            | _ => Ok (inr (Errorf "len of blocks is not 1"))
            end
  end.

(** load block [bpos] and move inside it; the parts [seekToFirst],
    [seekToLast], [seekHelper], [next] and [prev] have in common *)
Definition enter (itr : Iterator) (pos : Z) (move : blockIterator -> outcome blockIterator) : outcome Iterator :=
  let! r := block (it_t itr) pos in
  match r with
  | inr e => Ok (mkTIt (it_t itr) pos (bi itr) (Some e) (reversed itr))
  | inl b =>
      let! x := setBlock b in
      let! x := move x in
      Ok (mkTIt (it_t itr) pos x (bi_err x) (reversed itr))
  end.
Definition with_err (itr : Iterator) (e : option error) : Iterator :=
  mkTIt (it_t itr) (bpos itr) (bi itr) e (reversed itr).

Definition t_seekToFirst (itr : Iterator) : outcome Iterator :=
  if zlen (blockIndex (it_t itr)) =? 0 then Ok (with_err itr (Some EOF))
  else enter itr 0 bi_seekToFirst.
Definition t_seekToLast (itr : Iterator) : outcome Iterator :=
  let numBlocks := zlen (blockIndex (it_t itr)) in
  if numBlocks =? 0 then Ok (with_err itr (Some EOF))
  else enter itr (numBlocks - 1) bi_seekToLast.
Definition seekHelper (itr : Iterator) (blockIdx : Z) (key : bytes) : outcome Iterator :=
  enter itr blockIdx (fun x => bi_seek x key origin).

Definition index_pred (t : Table) (key : bytes) (idx : Z) (u : unit) : outcome (bool * unit) :=
  let! ko := index (blockIndex t) idx in
  let! c := CompareKeys (BO_Key ko) key in
  Ok (match c with Gt => true | _ => false end, u).
Definition seekFrom (itr : Iterator) (key : bytes) (w : whence) : outcome Iterator :=
  assert (8 <=? zlen key) (
  let itr := mkTIt (it_t itr) (match w with origin => 0 | cur => bpos itr end) (bi itr) None (reversed itr) in
  let n := zlen (blockIndex (it_t itr)) in
  let! (idx, _) := Search n (index_pred (it_t itr) key) tt in
  if idx =? 0 then seekHelper itr 0 key
  else
    let! itr := seekHelper itr (idx - 1) key in
    if bool_decide (it_err itr = Some EOF) then
      if idx =? n then Ok itr else seekHelper itr idx key
    else Ok itr).
Definition t_seek (itr : Iterator) (key : bytes) : outcome Iterator := seekFrom itr key origin.

(** [next] and [prev] call themselves once, with the block's data cleared *)
Fixpoint t_next (fuel : nat) (itr : Iterator) : outcome Iterator :=
  match fuel with
  | O => Panic
  | S fuel =>
      let itr := with_err itr None in
      if zlen (blockIndex (it_t itr)) <=? bpos itr then Ok (with_err itr (Some EOF))
      else match bi_data (bi itr) with
      | [] => enter itr (bpos itr) bi_seekToFirst
      | _ =>
          let! x := bi_next (bi itr) in
          if negb (bi_Valid x) then
            t_next fuel (mkTIt (it_t itr) (bpos itr + 1)
              (mkBI [] (bi_idx x) (bi_err x) (bi_baseKey x) (bi_key x) (bi_val x) (bi_offsets x) (prevOverlap x))
              None (reversed itr))
          else Ok (mkTIt (it_t itr) (bpos itr) x None (reversed itr))
      end
  end.
Fixpoint t_prev (fuel : nat) (itr : Iterator) : outcome Iterator :=
  match fuel with
  | O => Panic
  | S fuel =>
      let itr := with_err itr None in
      if bpos itr <? 0 then Ok (with_err itr (Some EOF))
      else match bi_data (bi itr) with
      | [] => enter itr (bpos itr) bi_seekToLast
      | _ =>
          let! x := bi_prev (bi itr) in
          if negb (bi_Valid x) then
            t_prev fuel (mkTIt (it_t itr) (bpos itr - 1)
              (mkBI [] (bi_idx x) (bi_err x) (bi_baseKey x) (bi_key x) (bi_val x) (bi_offsets x) (prevOverlap x))
              None (reversed itr))
          else Ok (mkTIt (it_t itr) (bpos itr) x None (reversed itr))
      end
  end.
Definition t_Key (itr : Iterator) : bytes := bi_key (bi itr).
Definition t_Value (itr : Iterator) : outcome ValueStruct := VS_Decode (bi_val (bi itr)).
Definition t_Valid (itr : Iterator) : bool := bool_decide (it_err itr = None).
Definition seekForPrev (itr : Iterator) (key : bytes) : outcome Iterator :=
  let! itr := seekFrom itr key origin in
  if negb (bool_decide (t_Key itr = key)) then t_prev 2 itr else Ok itr.

Definition t_Next (itr : Iterator) : outcome Iterator :=
  if negb (reversed itr) then t_next 2 itr else t_prev 2 itr.
Definition t_Rewind (itr : Iterator) : outcome Iterator :=
  if negb (reversed itr) then t_seekToFirst itr else t_seekToLast itr.
Definition t_Seek (itr : Iterator) (key : bytes) : outcome Iterator :=
  if negb (reversed itr) then t_seek itr key else seekForPrev itr key.

(** the new iterator holds a reference to the table *)
Definition NewIterator (t : Table) (rev : bool) : outcome (Table * Iterator) :=
  let t := t_IncrRef t in
  let! itr := t_next 2 (mkTIt t 0 zeroBI None rev) in Ok (t, itr).

Definition initBiggestAndSmallest (t : Table) : outcome Table :=
  let! bo := index (blockIndex t) 0 in
  let t := mkTable (blockIndex t) (t_ref t) (BO_Key bo) (biggest t) (t_estimatedSize t) (bf t) (Loc t)
             (LastSeq t) (t_VpExtentID t) (t_VpOffset t) in
  let! (t, it2) := NewIterator t true in
  let! it2 := t_Rewind it2 in
  if negb (t_Valid it2) then Err (Errorf "failed to initialize biggest for table")
  else Ok (mkTable (blockIndex t) (t_ref t) (smallest t) (t_Key it2) (t_estimatedSize t) (bf t) (Loc t)
             (LastSeq t) (t_VpExtentID t) (t_VpOffset t)).

Definition OpenTable (extentID offset : Z) : outcome Table :=
  let! (blocks, err) := sc_Read s extentID offset 1 in
  match err with
  | Some e => Err e
  | None =>
      match blocks with
      | [b] =>
          match RawBlockMeta_Unmarshal (UserData b) with
          | Ok metaBlock =>
              if negb (RB_Type metaBlock =? RawBlockType_meta) then Err (Errorf "block type error") else
              let! d := slice (Data b) 0 (UnCompressedSize metaBlock) in
              let! tableIndex := TableIndex_Unmarshal d in
              let! bf := bf_JSONUnmarshal (BloomFilter tableIndex) in
              initBiggestAndSmallest (mkTable (TI_Offsets tableIndex) 0 [] [] (TI_EstimatedSize tableIndex) bf
                (extentID, offset) (SeqNum metaBlock) (VpExtentID metaBlock) (VpOffset metaBlock))
          | _ => Panic (* utils.MustUnMarshal *)
          end
      | _ => Err (Errorf "len of block is not 1")
      end
  end.

(** ** ConcatIterator *)

Record ConcatIterator := mkConcat {
  c_idx : Z; c_iters : list (option Iterator); tables : list Table; c_reversed : bool }.
Definition NewConcatIterator (tbls : list Table) (rev : bool) : ConcatIterator :=
  mkConcat (-1) (replicate (length tbls) None) (t_IncrRef <$> tbls) rev.
(** [s.cur] is the element [idx] of [iters], nil outside of it *)
Definition c_cur (c : ConcatIterator) : option Iterator :=
  if (c_idx c <? 0) then None else mjoin (c_iters c !! Z.to_nat (c_idx c)).
Definition set_cur (c : ConcatIterator) (it : Iterator) : ConcatIterator :=
  mkConcat (c_idx c) (<[Z.to_nat (c_idx c) := Some it]> (c_iters c)) (tables c) (c_reversed c).
Definition c_setIdx (c : ConcatIterator) (idx : Z) : outcome ConcatIterator :=
  let c := mkConcat idx (c_iters c) (tables c) (c_reversed c) in
  if (idx <? 0) || (zlen (c_iters c) <=? idx) then Ok c
  else match mjoin (c_iters c !! Z.to_nat idx) with
       | Some _ => Ok c
       | None =>
           let! t := index (tables c) idx in
           let! (t, it) := NewIterator t (c_reversed c) in
           Ok (set_cur (mkConcat idx (c_iters c) (<[Z.to_nat idx := t]> (tables c)) (c_reversed c)) it)
       end.
(** a method of [*Iterator] on [s.cur]; nil panics *)
Definition on_cur (c : ConcatIterator) (f : Iterator -> outcome Iterator) : outcome ConcatIterator :=
  match c_cur c with
  | None => Panic
  | Some it => let! it := f it in Ok (set_cur c it)
  end.
Definition c_Valid (c : ConcatIterator) : bool :=
  match c_cur c with Some it => t_Valid it | None => false end.
Definition c_Key (c : ConcatIterator) : outcome bytes :=
  match c_cur c with Some it => Ok (t_Key it) | None => Panic end.
Definition c_Value (c : ConcatIterator) : outcome ValueStruct :=
  match c_cur c with Some it => t_Value it | None => Panic end.
Definition c_Rewind (c : ConcatIterator) : outcome ConcatIterator :=
  if zlen (c_iters c) =? 0 then Ok c else
  let! c := c_setIdx c (if negb (c_reversed c) then 0 else zlen (c_iters c) - 1) in
  on_cur c t_Rewind.
Definition biggest_pred (c : ConcatIterator) (key : bytes) (i : Z) (u : unit) : outcome (bool * unit) :=
  let! t := index (tables c) i in
  let! r := CompareKeys (biggest t) key in
  Ok (match r with Lt => false | _ => true end, u).
Definition smallest_pred (c : ConcatIterator) (key : bytes) (i : Z) (u : unit) : outcome (bool * unit) :=
  let! t := index (tables c) (zlen (tables c) - 1 - i) in
  let! r := CompareKeys (smallest t) key in
  Ok (match r with Gt => false | _ => true end, u).
Definition c_Seek (c : ConcatIterator) (key : bytes) : outcome ConcatIterator :=
  let n := zlen (tables c) in
  let! idx :=
    (if negb (c_reversed c) then let! (i, _) := Search n (biggest_pred c key) tt in Ok i
     else let! (i, _) := Search n (smallest_pred c key) tt in Ok (n - 1 - i)) in
  if (n <=? idx) || (idx <? 0) then c_setIdx c (-1)
  else let! c := c_setIdx c idx in on_cur c (fun it => t_Seek it key).
(** the loop over the following tables; [fuel] bounds their number *)
Fixpoint c_advance (fuel : nat) (c : ConcatIterator) : outcome ConcatIterator :=
  match fuel with
  | O => Panic
  | S fuel =>
      let! c := c_setIdx c (if negb (c_reversed c) then c_idx c + 1 else c_idx c - 1) in
      match c_cur c with
      | None => Ok c
      | Some _ => let! c := on_cur c t_Rewind in
                  if c_Valid c then Ok c else c_advance fuel c
      end
  end.
Definition c_Next (c : ConcatIterator) : outcome ConcatIterator :=
  let! c := on_cur c t_Next in
  if c_Valid c then Ok c else c_advance (S (length (c_iters c))) c.
End Ops.
End Table.
