(* ===== verification/TableSpec.v ===== *)
(** Tables read back what was built: the table iterator walks the pairs in
    order in both directions and [Seek] finds the first pair not before the
    key; a table written by the builder and reopened holds the pairs added. *)
From Stdlib Require Import ZArith Lia.
From stdpp Require Import base option list numbers sorting strings.
From S2P Require Import Prelude GoLib Utils Proto ProtoPs Keys YIter Extent MixBlock Stream TableBlock Table.

(** what [Decode] leaves of a value: the version is not stored *)
Definition plain (v : ValueStruct) : ValueStruct := mkVS (VMeta v) (VUserMeta v) (VExpiresAt v) (VValue v) 0.
Definition tkv (e : bentry) : kv := (ekey e, plain (eval e)).

Section TableSpec.
Context {St : Type} `{StreamLaws St}.
Context {Bloom : Type} `{BloomLaws Bloom}.
Variable s : St.
Hypothesis s_inv : sc_inv 0 s.

(** block [bo] of the index holds the entries [es] *)
Definition index_entry (bo : BlockOffset) (es : list bentry) : Prop :=
  exists c, sc_stored s (BO_ExtentID bo) (BO_Offset bo) c /\ block_holds c (BO_Key bo) es.
Record table_holds (t : Table (Bloom := Bloom)) (groups : list (list bentry)) : Prop := mk_table_holds {
  th_index : Forall2 index_entry (blockIndex t) groups;
  th_sorted : esorted (mjoin groups) }.

(** the iterator is at entry [e], with [l1] before and [l2] after it in its
    block, and [g1] and [g2] the blocks before and after *)
Definition in_block (t : Table (Bloom := Bloom)) (itr : Iterator) (g1 : list (list bentry)) (es : list bentry) : Prop :=
  it_t itr = t /\ bpos itr = zlen g1 /\ exists base, bi_inv base es (bi itr) /\ block_entries_wf base es.
Definition at_entry t itr g1 l1 e l2 : Prop :=
  in_block t itr g1 (l1 ++ e :: l2) /\ it_err itr = None /\ bi_at (bi itr) (zlen l1) e.

Lemma lookup_middle {A} (l1 : list A) x l2 : (l1 ++ x :: l2) !! length l1 = Some x.
Proof. by rewrite list_lookup_middle. Qed.

Lemma block_ok t groups g1 es g2 : table_holds t groups -> groups = g1 ++ es :: g2 ->
  exists bo c, blockIndex t !! length g1 = Some bo /\ block s t (zlen g1) = Ok (inl c) /\
    block_holds c (BO_Key bo) es.
Proof using s_inv.
  intros [Hidx _] ->. pose proof (lookup_middle g1 es g2) as Hes.
  destruct (Forall2_lookup_r _ _ _ _ _ Hidx Hes) as (bo & Hbo & c & Hst & Hc).
  exists bo, c. split; [done|]. split; [|done]. unfold block, zlen. rewrite (index_Ok _ _ _ Hbo). cbn [obind].
  by destruct (sc_read_stored 0 s _ _ c s_inv Hst) as [-> _].
Qed.

(** entering block [es] with a move that keeps the block iterator's invariant *)
Lemma enter_ok t groups g1 es g2 itr move (Q : blockIterator -> Prop) :
  table_holds t groups -> groups = g1 ++ es :: g2 -> it_t itr = t ->
  (forall base x, block_entries_wf base es -> bi_inv base es x ->
     exists x', move x = Ok x' /\ bi_inv base es x' /\ Q x') ->
  exists itr', enter s itr (zlen g1) move = Ok itr' /\ in_block t itr' g1 es /\
    it_err itr' = bi_err (bi itr') /\ reversed itr' = reversed itr /\ Q (bi itr').
Proof using s_inv.
  intros Ht Hg Hit Hmove. destruct (block_ok t groups g1 es g2 Ht Hg) as (bo & c & _ & Hb & Hc).
  destruct (setBlock_ok c _ es Hc) as (x & Hx & Hxi). pose proof (bh_wf _ _ _ Hc) as Hwf.
  destruct (Hmove _ x Hwf Hxi) as (x' & Hm & Hxi' & HQ).
  unfold enter. rewrite Hit, Hb. cbn [obind]. rewrite Hx. cbn [obind]. rewrite Hm. cbn [obind].
  eexists. split; [done|]. split; [|done]. split; [done|]. split; [done|]. exists (BO_Key bo). done.
Qed.

Lemma bi_move_first base e l2 x : block_entries_wf base (e :: l2) -> bi_inv base (e :: l2) x ->
  exists x', bi_seekToFirst x = Ok x' /\ bi_inv base (e :: l2) x' /\ bi_at x' 0 e.
Proof. intros Hwf Hx. by apply (setIdx_ok base (e :: l2) x [] e l2). Qed.
Lemma bi_move_last base l1 e x : block_entries_wf base (l1 ++ [e]) -> bi_inv base (l1 ++ [e]) x ->
  exists x', bi_seekToLast x = Ok x' /\ bi_inv base (l1 ++ [e]) x' /\ bi_at x' (zlen l1) e.
Proof.
  intros Hwf Hx. unfold bi_seekToLast. rewrite (bv_offs _ _ _ Hx), zlen_eoffs, zlen_app.
  change (zlen [e]) with 1. rewrite Z.add_simpl_r. by apply (setIdx_ok base _ x l1 e []).
Qed.

Lemma group_nonempty t groups es : table_holds t groups -> es ∈ groups -> exists e l, es = e :: l.
Proof.
  intros [Hidx _] Hin. apply list_elem_of_lookup_1 in Hin as [i Hi].
  destruct (Forall2_lookup_r _ _ _ _ _ Hidx Hi) as (bo & _ & c & _ & Hc).
  destruct (bh_wf _ _ _ Hc) as [_ (e & l & -> & _)]. eauto.
Qed.

Lemma zlen_index t groups : table_holds t groups -> zlen (blockIndex t) = zlen groups.
Proof. intros [Hidx _]. unfold zlen. by rewrite (Forall2_length _ _ _ Hidx). Qed.

Lemma enter_first t groups g1 e l2 g2 itr : table_holds t groups -> groups = g1 ++ (e :: l2) :: g2 ->
  it_t itr = t ->
  exists itr', enter s itr (zlen g1) bi_seekToFirst = Ok itr' /\ at_entry t itr' g1 [] e l2 /\
    reversed itr' = reversed itr.
Proof using s_inv.
  intros Ht Hg Hit.
  destruct (enter_ok t groups g1 (e :: l2) g2 itr bi_seekToFirst (fun x => bi_at x 0 e)) as (itr' & He & Hin & Herr & Hr & Hat);
    [done|done|done|intros base x; apply bi_move_first|].
  exists itr'. split; [done|]. split; [|done]. split; [done|]. split; [|done]. rewrite Herr. apply Hat.
Qed.
Lemma enter_last t groups g1 l1 e g2 itr : table_holds t groups -> groups = g1 ++ (l1 ++ [e]) :: g2 ->
  it_t itr = t ->
  exists itr', enter s itr (zlen g1) bi_seekToLast = Ok itr' /\ at_entry t itr' g1 l1 e [] /\
    reversed itr' = reversed itr.
Proof using s_inv.
  intros Ht Hg Hit.
  destruct (enter_ok t groups g1 (l1 ++ [e]) g2 itr bi_seekToLast (fun x => bi_at x (zlen l1) e)) as (itr' & He & Hin & Herr & Hr & Hat);
    [done|done|done|intros base x; apply bi_move_last|].
  exists itr'. split; [done|]. split; [|done]. split; [done|]. split; [|done]. rewrite Herr. apply Hat.
Qed.

Lemma encs_nonempty (e : bentry) l : encs (e :: l) <> [].
Proof. done. Qed.
Lemma in_block_data t itr g1 es : in_block t itr g1 es -> exists x d, bi_data (bi itr) = x :: d.
Proof.
  intros (_ & _ & base & Hbi & [_ (e & l & -> & _)]). rewrite (bv_data _ _ _ Hbi).
  destruct (encs (e :: l)) eqn:E; [done|eauto].
Qed.

(** [next] inside a block, across blocks, and at the end of the table *)
Lemma next_ok t groups itr g1 l1 e l2 g2 : table_holds t groups ->
  groups = g1 ++ (l1 ++ e :: l2) :: g2 -> at_entry t itr g1 l1 e l2 ->
  exists itr', t_next s 2 itr = Ok itr' /\ reversed itr' = reversed itr /\ it_t itr' = t /\
    match l2, g2 with
    | e' :: l2', _ => at_entry t itr' g1 (l1 ++ [e]) e' l2'
    | [], (e' :: l2') :: _ => at_entry t itr' (g1 ++ [l1 ++ [e]]) [] e' l2'
    | [], _ => it_err itr' = Some EOF
    end.
Proof using s_inv.
  intros Ht Hg [Hin [_ Hat]]. pose proof (in_block_data _ _ _ _ Hin) as (x0 & d0 & Hd).
  destruct Hin as (Hit & Hpos & base & Hbi & Hwf). pose proof (zlen_index _ _ Ht) as Hlen.
  assert (zlen groups = zlen g1 + 1 + zlen g2) as Hgl by (rewrite Hg, zlen_app, zlen_cons; lia).
  pose proof (zlen_nonneg g2). pose proof (zlen_nonneg g1). destruct Hat as (Hidx & _ & _ & _).
  cbn [t_next]. cbn [with_err it_t bpos bi reversed]. rewrite Hit, Hlen, Hpos, Hd.
  destruct (Z.leb_spec (zlen groups) (zlen g1)); [lia|]. unfold bi_next. rewrite Hidx.
  destruct l2 as [|e' l2].
  - destruct (setIdx_end base (l1 ++ [e]) (bi itr) (zlen l1 + 1) Hbi) as (x & Hx & Hxi & Hxe & _);
      [right; rewrite zlen_app; change (zlen [e]) with 1; lia|].
    rewrite Hx. cbn [obind]. unfold bi_Valid. rewrite Hxe, bool_decide_false by done. cbn [negb].
    cbn [with_err it_t bpos bi reversed bi_data].
    destruct g2 as [|es2 g2].
    + rewrite zlen_nil in Hgl. destruct (Z.leb_spec (zlen groups) (zlen g1 + 1)); [|lia].
      eexists. split; [done|]. done.
    + rewrite zlen_cons in Hgl. pose proof (zlen_nonneg g2).
      destruct (Z.leb_spec (zlen groups) (zlen g1 + 1)); [lia|].
      destruct (group_nonempty t groups es2 Ht) as (e' & l2' & ->);
        [rewrite Hg, elem_of_app; right; right; left|].
      rewrite cons_middle, app_assoc in Hg.
      match goal with |- context [enter s ?i _ _] =>
        destruct (enter_first t groups _ e' l2' g2 i Ht Hg eq_refl) as (itr' & He & Hat & Hr) end.
      rewrite zlen_app in He. change (zlen [l1 ++ [e]]) with 1 in He. rewrite He.
      exists itr'. split; [done|]. split; [done|]. split; [apply Hat|done].
  - replace (l1 ++ e :: e' :: l2) with ((l1 ++ [e]) ++ e' :: l2) in * by by rewrite <- app_assoc.
    destruct (setIdx_ok base _ (bi itr) (l1 ++ [e]) e' l2 Hwf Hbi eq_refl) as (x & Hx & Hxi & Hxat).
    rewrite zlen_app in Hx. change (zlen [e]) with 1 in Hx. rewrite Hx. cbn [obind].
    unfold bi_Valid. destruct (Hxat) as (_ & Hxe & _). rewrite Hxe. cbn [bool_decide decide decide_rel negb].
    eexists. split; [done|]. split; [done|]. split; [done|]. split; [|done]. split; [done|]. split; [done|].
    exists base. done.
Qed.

(** [prev] from index [length l1] of a block; the entry there need not exist *)
Lemma prev_ok t groups itr g1 l1 rest g2 : table_holds t groups ->
  groups = g1 ++ (l1 ++ rest) :: g2 -> in_block t itr g1 (l1 ++ rest) -> bi_idx (bi itr) = zlen l1 ->
  exists itr', t_prev s 2 itr = Ok itr' /\ reversed itr' = reversed itr /\ it_t itr' = t /\
    ((exists l e, l1 = l ++ [e] /\ at_entry t itr' g1 l e rest) \/
     (l1 = [] /\ exists g l e, g1 = g ++ [l ++ [e]] /\ at_entry t itr' g l e []) \/
     (l1 = [] /\ g1 = [] /\ it_err itr' = Some EOF)).
Proof using s_inv.
  intros Ht Hg Hin Hidx. pose proof (in_block_data _ _ _ _ Hin) as (x0 & d0 & Hd).
  destruct Hin as (Hit & Hpos & base & Hbi & Hwf). pose proof (zlen_nonneg g1).
  cbn [t_prev]. cbn [with_err it_t bpos bi reversed]. rewrite Hpos, Hd.
  destruct (Z.ltb_spec (zlen g1) 0); [lia|]. unfold bi_prev. rewrite Hidx.
  destruct l1 as [|e l1 _] using rev_ind.
  - destruct (setIdx_end base rest (bi itr) (-1) Hbi) as (x & Hx & Hxi & Hxe & _); [lia|].
    change (zlen (@nil bentry) - 1) with (-1). rewrite Hx. cbn [obind].
    unfold bi_Valid. rewrite Hxe, bool_decide_false by done. cbn [negb].
    cbn [with_err it_t bpos bi reversed bi_data].
    destruct g1 as [|es1 g1 _] using rev_ind.
    + change (zlen (@nil (list bentry)) - 1 <? 0) with true. eexists. split; [done|].
      split; [done|]. split; [done|]. right. right. done.
    + rewrite zlen_app in *. change (zlen [es1]) with 1 in *. pose proof (zlen_nonneg g1).
      destruct (Z.ltb_spec (zlen g1 + 1 - 1) 0); [lia|]. rewrite Z.add_simpl_r.
      destruct (group_nonempty t groups es1 Ht) as (e & l & Hes);
        [rewrite Hg, !elem_of_app; left; right; left|].
      destruct (exists_last (l := es1) ltac:(rewrite Hes; done)) as (l' & e' & ->).
      rewrite <- app_assoc in Hg. cbn [app] in Hg.
      match goal with |- context [enter s ?i _ _] =>
        destruct (enter_last t groups g1 l' e' _ i Ht Hg Hit) as (itr' & He & Hat & Hr) end.
      rewrite He. exists itr'. split; [done|]. split; [done|]. split; [apply Hat|].
      right. left. split; [done|]. exists g1, l', e'. done.
  - replace ((l1 ++ [e]) ++ rest) with (l1 ++ e :: rest) in * by by rewrite <- app_assoc.
    rewrite zlen_app. change (zlen [e]) with 1. rewrite Z.add_simpl_r.
    destruct (setIdx_ok base _ (bi itr) l1 e rest Hwf Hbi eq_refl) as (x & Hx & Hxi & Hxat).
    rewrite Hx. cbn [obind]. unfold bi_Valid. destruct (Hxat) as (_ & Hxe & _). rewrite Hxe.
    cbn [bool_decide decide decide_rel negb].
    eexists. split; [done|]. split; [done|]. split; [done|]. left. exists l1, e. split; [done|].
    split; [|done]. split; [done|]. split; [done|]. exists base. done.
Qed.

(** ** Seeking *)

Definition all_before (key : bytes) (es : list bentry) : Prop := Forall (fun e => kcmp (ekey e) key = Lt) es.

Lemma sorted_app_lt l1 l2 a b : esorted (l1 ++ l2) -> a ∈ l1 -> b ∈ l2 -> kcmp (ekey a) (ekey b) = Lt.
Proof.
  intros Hs Ha Hb. induction l1 as [|x l1 IH]; [by apply elem_of_nil in Ha|].
  cbn in Hs. apply StronglySorted_cons in Hs as [Hf Hs]. apply elem_of_cons in Ha as [->|Ha]; [|by apply IH].
  rewrite Forall_forall in Hf. apply Hf, elem_of_app. by right.
Qed.
Lemma mjoin_middle (g1 : list (list bentry)) es g2 : mjoin (g1 ++ es :: g2) = mjoin g1 ++ es ++ mjoin g2.
Proof. by rewrite join_app. Qed.

Lemma group_sorted t groups g1 es g2 : table_holds t groups -> groups = g1 ++ es :: g2 -> esorted es.
Proof.
  intros [_ Hs] ->. rewrite mjoin_middle in Hs.
  by apply StronglySorted_app_1_r, StronglySorted_app_1_l in Hs.
Qed.

Lemma lower_bound_before key es : esorted es -> lower_bound key es = zlen es -> all_before key es.
Proof.
  intros Hs Hlb. apply Forall_lookup_2. intros i e Hi. apply (lower_bound_spec key es Hs i e Hi).
  apply lookup_lt_Some in Hi. unfold zlen in Hlb. lia.
Qed.
Lemma lower_bound_split key es : esorted es -> lower_bound key es < zlen es ->
  exists l1 e l2, es = l1 ++ e :: l2 /\ zlen l1 = lower_bound key es /\ all_before key l1 /\
    kcmp (ekey e) key <> Lt /\ es !! Z.to_nat (lower_bound key es) = Some e.
Proof.
  intros Hs Hlt. pose proof (lower_bound_range key es).
  destruct (split_at es (lower_bound key es)) as (l1 & e & l2 & E & Hl1 & He); [lia|].
  exists l1, e, l2. split; [done|]. split; [done|]. split; [|split; [|done]].
  - apply Forall_lookup_2. intros i x Hi. apply (lower_bound_spec key es Hs i x).
    + rewrite E. rewrite lookup_app_l; [done|]. by eapply lookup_lt_Some.
    + apply lookup_lt_Some in Hi. unfold zlen in Hl1. lia.
  - intros Hk. apply (lower_bound_spec key es Hs _ _ He) in Hk. lia.
Qed.

Lemma seekHelper_ok t groups g1 es g2 itr key : table_holds t groups -> groups = g1 ++ es :: g2 ->
  it_t itr = t -> 8 <= zlen key ->
  exists itr', seekHelper s itr (zlen g1) key = Ok itr' /\ reversed itr' = reversed itr /\
    ((exists l1 e l2, es = l1 ++ e :: l2 /\ at_entry t itr' g1 l1 e l2 /\ all_before key l1 /\
        kcmp (ekey e) key <> Lt) \/
     (all_before key es /\ in_block t itr' g1 es /\ bi_idx (bi itr') = zlen es /\ it_err itr' = Some EOF)).
Proof using s_inv.
  intros Ht Hg Hit Hk. pose proof (group_sorted t groups g1 es g2 Ht Hg) as Hs.
  destruct (enter_ok t groups g1 es g2 itr (fun x => bi_seek x key origin)
    (fun x => bi_idx x = lower_bound key es /\ match es !! Z.to_nat (lower_bound key es) with
       | Some e => bi_at x (lower_bound key es) e | None => bi_err x = Some EOF end)) as (itr' & He & Hin & Herr & Hr & Hidx & Hat);
    [done|done|done|intros base x Hwf Hx; by apply (bi_seek_ok base es x key origin)|].
  exists itr'. split; [done|]. split; [done|]. pose proof (lower_bound_range key es) as Hlr.
  destruct (decide (lower_bound key es < zlen es)) as [Hlt|Hge].
  - left. destruct (lower_bound_split key es Hs Hlt) as (l1 & e & l2 & -> & Hl1 & Hb & Hne & Hlk).
    rewrite Hlk in Hat. exists l1, e, l2. split; [done|]. split; [|done].
    split; [done|]. rewrite <- Hl1 in Hat. rewrite Herr. split; [apply Hat|done].
  - right. assert (lower_bound key es = zlen es) as E by lia.
    split; [by apply lower_bound_before|]. split; [done|]. split; [lia|]. rewrite Herr.
    rewrite lookup_ge_None_2 in Hat; [done|]. unfold zlen in E. lia.
Qed.

Definition starts_after (key : bytes) (es : list bentry) : bool :=
  match es with e :: _ => match kcmp (ekey e) key with Gt => true | _ => false end | [] => false end.

(** the first entries of the blocks are in order *)
Lemma starts_mono t groups key i j a b : table_holds t groups -> (i <= j)%nat ->
  groups !! i = Some a -> groups !! j = Some b -> starts_after key a = true -> starts_after key b = true.
Proof.
  intros Ht Hij Ha Hb. destruct (decide (i = j)) as [->|Hne]; [naive_solver|].
  destruct (group_nonempty t groups a Ht) as (x & la & ->); [by eapply list_elem_of_lookup_2|].
  destruct (group_nonempty t groups b Ht) as (y & lb & ->); [by eapply list_elem_of_lookup_2|].
  cbn [starts_after]. intros Hx.
  assert (kcmp (ekey x) (ekey y) = Lt) as Hxy.
  { pose proof (th_sorted _ _ Ht) as Hs. rewrite <- (take_drop_middle groups j (y :: lb) Hb) in Hs.
    rewrite mjoin_middle in Hs. apply (sorted_app_lt _ _ x y Hs).
    - apply list_elem_of_join. exists (x :: la). split; [left|].
      apply (list_elem_of_lookup_2 _ i). rewrite lookup_take_lt by lia. done.
    - apply elem_of_app. left. left. }
  destruct (kcmp (ekey x) key) eqn:E; try done. rewrite kcmp_antisym in E.
  destruct (kcmp key (ekey x)) eqn:E'; try done.
  pose proof (kcmp_lt_trans _ _ _ E' Hxy) as Hlt. rewrite kcmp_antisym, Hlt. done.
Qed.

Lemma index_search t groups key : table_holds t groups -> 8 <= zlen key ->
  exists g1 g2, groups = g1 ++ g2 /\
    Search (zlen (blockIndex t)) (index_pred t key) tt = Ok (zlen g1, tt) /\
    Forall (fun es => starts_after key es = false) g1 /\ Forall (fun es => starts_after key es = true) g2.
Proof.
  intros Ht Hk. rewrite (zlen_index _ _ Ht).
  set (p := fun h => match groups !! Z.to_nat h with Some es => starts_after key es | None => false end).
  destruct (Search_spec (zlen groups) (index_pred t key) (fun _ => True) p) with (s := tt)
    as (r & [] & Hr & _ & Hrange & Hlo & Hhi); try done.
  - intros h [] Hh _. exists tt. split; [|done]. unfold index_pred.
    destruct (lookup_lt_is_Some_2 groups (Z.to_nat h)) as [es Hes]; [unfold zlen in Hh; lia|].
    destruct (Forall2_lookup_r _ _ _ _ _ (th_index _ _ Ht) Hes) as (bo & Hbo & c & _ & Hc).
    rewrite <- (Z2Nat.id h) by lia. rewrite (index_Ok _ _ _ Hbo). cbn [obind].
    destruct (bh_wf _ _ _ Hc) as [Hwf (e & l & -> & _ & He)]. rewrite <- He.
    apply Forall_cons in Hwf as [[[Hl _] _ _] _]. rewrite CompareKeys_kcmp by lia. cbn [obind].
    unfold p. rewrite Nat2Z.id, Hes. done.
  - intros h k Hhk Hk' Hp. unfold p in *.
    destruct (groups !! Z.to_nat h) as [a|] eqn:Ea; [|done].
    destruct (lookup_lt_is_Some_2 groups (Z.to_nat k)) as [b Hb]; [unfold zlen in Hk'; lia|].
    rewrite Hb. eapply (starts_mono t groups key (Z.to_nat h) (Z.to_nat k)); [done|lia|done|done|done].
  - apply zlen_nonneg.
  - exists (take (Z.to_nat r) groups), (drop (Z.to_nat r) groups). rewrite take_drop.
    split; [done|]. split; [|split].
    + rewrite Hr. do 2 f_equal. unfold zlen in *. rewrite length_take. lia.
    + apply Forall_lookup_2. intros i es Hi. pose proof (lookup_lt_Some _ _ _ Hi) as Hil.
      rewrite length_take in Hil. rewrite lookup_take_lt in Hi by lia.
      specialize (Hlo (Z.of_nat i) ltac:(lia)). unfold p in Hlo. rewrite Nat2Z.id, Hi in Hlo. done.
    + apply Forall_lookup_2. intros i es Hi. pose proof (lookup_lt_Some _ _ _ Hi) as Hil.
      rewrite length_drop in Hil. rewrite lookup_drop in Hi.
      specialize (Hhi (Z.of_nat (Z.to_nat r + i)) ltac:(unfold zlen; lia)). unfold p in Hhi.
      rewrite Nat2Z.id, Hi in Hhi. done.
Qed.

(** a block that starts after [key]: its first entry is the one sought *)
Lemma starts_after_true key e l : starts_after key (e :: l) = true -> kcmp (ekey e) key = Gt.
Proof. cbn. by destruct (kcmp (ekey e) key). Qed.
Lemma before_starts t groups g1 es g2 key : table_holds t groups -> groups = g1 ++ es :: g2 ->
  starts_after key es = false -> all_before key (mjoin g1).
Proof.
  intros Ht Hg Hs. destruct (group_nonempty t groups es Ht) as (e & l & ->);
    [rewrite Hg, elem_of_app; right; left|].
  pose proof (th_sorted _ _ Ht) as Hsort. rewrite Hg, mjoin_middle in Hsort.
  apply Forall_forall. intros x Hx. pose proof (sorted_app_lt _ _ x e Hsort Hx ltac:(left)) as Hlt.
  cbn in Hs. destruct (kcmp (ekey e) key) eqn:E; [apply kcmp_eq in E; congruence| |done].
  by apply (kcmp_lt_trans _ (ekey e)).
Qed.

(** where [seekFrom] ends up *)
Definition sought t groups (itr : Iterator) (key : bytes) : Prop :=
  (exists g1 l1 e l2 g2, groups = g1 ++ (l1 ++ e :: l2) :: g2 /\ at_entry t itr g1 l1 e l2 /\
     all_before key (mjoin g1 ++ l1) /\ kcmp (ekey e) key <> Lt) \/
  (exists g1 es, groups = g1 ++ [es] /\ in_block t itr g1 es /\ bi_idx (bi itr) = zlen es /\
     it_err itr = Some EOF /\ all_before key (mjoin groups) /\ t_Key itr <> key).

Lemma seekHelper_first t groups g1 es g2 itr key : table_holds t groups -> groups = g1 ++ es :: g2 ->
  it_t itr = t -> 8 <= zlen key -> all_before key (mjoin g1) -> starts_after key es = true ->
  exists itr', seekHelper s itr (zlen g1) key = Ok itr' /\ reversed itr' = reversed itr /\ sought t groups itr' key.
Proof using s_inv.
  intros Ht Hg Hit Hk Hb Hs. destruct (seekHelper_ok t groups g1 es g2 itr key Ht Hg Hit Hk) as (itr' & He & Hr & Hcase).
  exists itr'. split; [done|]. split; [done|]. left.
  destruct Hcase as [(l1 & e & l2 & -> & Hat & Hl1 & Hne)|(Hall & _)].
  - exists g1, l1, e, l2, g2. split; [done|]. split; [done|]. split; [|done]. by apply Forall_app.
  - exfalso. destruct es as [|e l]; [done|]. apply Forall_cons in Hall as [Hlt _].
    apply starts_after_true in Hs. congruence.
Qed.

Lemma seekFrom_ok t groups itr key w : table_holds t groups -> groups <> [] -> it_t itr = t -> 8 <= zlen key ->
  exists itr', seekFrom s itr key w = Ok itr' /\ reversed itr' = reversed itr /\ sought t groups itr' key.
Proof using s_inv.
  intros Ht Hne Hit Hk. unfold seekFrom. destruct (Z.leb_spec 8 (zlen key)); [|lia]. cbn [assert it_t].
  set (itr0 := mkTIt _ _ _ _ _). rewrite Hit.
  destruct (index_search t groups key Ht Hk) as (g1 & g2 & Hg & -> & Hlo & Hhi). cbn [obind].
  destruct g1 as [|es g1 _] using rev_ind.
  - cbn [app] in Hg. subst g2. destruct groups as [|es g2]; [done|]. apply Forall_cons in Hhi as [Hs _].
    change (zlen (@nil (list bentry)) =? 0) with true. cbv iota.
    apply (seekHelper_first t (es :: g2) [] es g2 itr0 key); try done. constructor.
  - apply Forall_app in Hlo as [_ [Hs _]%Forall_cons]. rewrite <- app_assoc in Hg. cbn [app] in Hg.
    pose proof (before_starts t groups g1 es g2 key Ht Hg Hs) as Hb1.
    rewrite zlen_app. change (zlen [es]) with 1. pose proof (zlen_nonneg g1).
    destruct (Z.eqb_spec (zlen g1 + 1) 0); [lia|]. rewrite Z.add_simpl_r.
    destruct (seekHelper_ok t groups g1 es g2 itr0 key Ht Hg Hit Hk) as (itr1 & -> & Hr1 & Hcase). cbn [obind].
    destruct Hcase as [(l1 & e & l2 & -> & Hat & Hl1 & Hge)|(Hall & Hin & Hidx & Herr)].
    + destruct Hat as (Hin & Herr & Hat). rewrite Herr. rewrite bool_decide_false by done.
      exists itr1. split; [done|]. split; [done|]. left. exists g1, l1, e, l2, g2.
      split; [done|]. split; [done|]. split; [|done]. by apply Forall_app.
    + rewrite Herr, bool_decide_true by done. rewrite (zlen_index _ _ Ht).
      assert (zlen groups = zlen g1 + 1 + zlen g2) as Hgl by (rewrite Hg, zlen_app, zlen_cons; lia).
      destruct (Z.eqb_spec (zlen g1 + 1) (zlen groups)).
      * assert (g2 = []) as -> by (apply zlen_0_nil; lia). exists itr1. split; [done|]. split; [done|].
        right. exists g1, es. split; [done|]. split; [done|]. split; [done|]. split; [done|].
        assert (all_before key (mjoin groups)) as Hbs.
        { rewrite Hg, mjoin_middle. change (mjoin (@nil (list bentry))) with (@nil bentry). rewrite app_nil_r.
          by apply Forall_app. }
        split; [done|]. destruct Hin as (_ & _ & base & Hbi & _). unfold t_Key.
        destruct (bv_from _ _ _ Hbi) as [->|(x & Hx & ->)]; [intros <-; done|].
        intros E. unfold all_before in Hall. rewrite Forall_forall in Hall. specialize (Hall x Hx). rewrite E, kcmp_refl in Hall. done.
      * destruct g2 as [|es2 g2]; [rewrite zlen_nil in Hgl; lia|]. apply Forall_cons in Hhi as [Hs2 _].
        rewrite cons_middle, app_assoc in Hg.
        destruct (seekHelper_first t groups (g1 ++ [es]) es2 g2 itr1 key) as (itr2 & He2 & Hr2 & Hs'); try done.
        -- apply Hin.
        -- rewrite join_app. cbn. rewrite app_nil_r. by apply Forall_app.
        -- rewrite zlen_app in He2. change (zlen [es]) with 1 in He2. rewrite He2.
           exists itr2. split; [done|]. split; [rewrite Hr2; exact Hr1|done].
Qed.

(** ** The table iterator keeps the promises of [IteratorLaws] *)

Definition walk (r : bool) (es : list bentry) : list kv :=
  if r then reverse (tkv <$> es) else tkv <$> es.
(** what is still to come from entry [e] on *)
Definition ahead (r : bool) (g1 : list (list bentry)) (l1 : list bentry) (e : bentry) (l2 : list bentry)
    (g2 : list (list bentry)) : list kv :=
  walk r (if r then (mjoin g1 ++ l1) ++ [e] else e :: l2 ++ mjoin g2).
Definition ti_wf (r : bool) (itr : Iterator) (kvs : list kv) : Prop :=
  exists groups, table_holds (it_t itr) groups /\ groups <> [] /\ reversed itr = r /\ kvs = walk r (mjoin groups).
Definition ti_at (r : bool) (itr : Iterator) (kvs rest : list kv) : Prop :=
  exists groups, table_holds (it_t itr) groups /\ groups <> [] /\ reversed itr = r /\ kvs = walk r (mjoin groups) /\
    ((rest = [] /\ it_err itr <> None) \/
     exists g1 l1 e l2 g2, groups = g1 ++ (l1 ++ e :: l2) :: g2 /\ at_entry (it_t itr) itr g1 l1 e l2 /\
       rest = ahead r g1 l1 e l2 g2).

Lemma tkv_sorted es : esorted es -> StronglySorted (kv_lt false) (tkv <$> es).
Proof.
  induction 1 as [|e es Hes IH Hf]; [constructor|]. rewrite fmap_cons. constructor; [done|].
  rewrite Forall_fmap. done.
Qed.

Lemma holds_entries t groups : table_holds t groups ->
  Forall (fun e => kv_ok (ekey e) (eval e)) (mjoin groups).
Proof.
  intros [Hidx _]. apply Forall_join. induction Hidx as [|bo es bos gs (c & _ & Hc) _ IH]; constructor; [|done].
  destruct (bh_wf _ _ _ Hc) as [Hf _]. eapply Forall_impl; [exact Hf|]. intros e He. apply He.
Qed.

Lemma walk_holds r t groups : table_holds t groups -> walk_ok r (walk r (mjoin groups)).
Proof.
  intros Ht. pose proof (tkv_sorted _ (th_sorted _ _ Ht)) as Hs.
  assert (Forall (fun p : kv => 8 <= zlen (fst p)) (tkv <$> mjoin groups)) as Hk.
  { rewrite Forall_fmap. eapply Forall_impl; [apply (holds_entries t groups Ht)|]. intros e [[He _] _]. done. }
  destruct r; cbn [walk]; split; try done; [by apply reverse_sorted in Hs|by rewrite Forall_reverse].
Qed.

Lemma in_block_t t itr g1 es : in_block t itr g1 es -> it_t itr = t.
Proof. by intros []. Qed.

Lemma ti_at_intro r itr t groups g1 l1 e l2 g2 : table_holds t groups -> groups = g1 ++ (l1 ++ e :: l2) :: g2 ->
  at_entry t itr g1 l1 e l2 -> reversed itr = r ->
  ti_at r itr (walk r (mjoin groups)) (ahead r g1 l1 e l2 g2).
Proof.
  intros Ht Hg Hat Hr. pose proof (in_block_t _ _ _ _ (proj1 Hat)) as Hit. exists groups. rewrite Hit.
  split; [done|]. split; [rewrite Hg; by destruct g1|]. split; [done|]. split; [done|]. right.
  exists g1, l1, e, l2, g2. done.
Qed.
Lemma ti_at_end r itr groups : table_holds (it_t itr) groups -> groups <> [] -> reversed itr = r ->
  it_err itr <> None -> ti_at r itr (walk r (mjoin groups)) [].
Proof. intros Ht Hne Hr He. exists groups. split; [done|]. split; [done|]. split; [done|]. split; [done|]. by left. Qed.

Lemma ti_Rewind r itr kvs : ti_wf r itr kvs -> exists itr', t_Rewind s itr = Ok itr' /\ ti_at r itr' kvs kvs.
Proof using s_inv.
  intros (groups & Ht & Hne & Hr & ->). unfold t_Rewind. rewrite Hr. pose proof (zlen_index _ _ Ht) as Hlen.
  destruct r; cbn [negb].
  - destruct (exists_last Hne) as (g1 & es & Hg).
    destruct (group_nonempty _ _ es Ht) as (e0 & l0 & Hes); [rewrite Hg, elem_of_app; right; left|].
    destruct (exists_last (l := es) ltac:(by rewrite Hes)) as (l1 & e & ->). clear Hes.
    unfold t_seekToLast. rewrite Hlen, Hg, zlen_app. change (zlen [l1 ++ [e]]) with 1.
    pose proof (zlen_nonneg g1). destruct (Z.eqb_spec (zlen g1 + 1) 0); [lia|]. rewrite Z.add_simpl_r.
    destruct (enter_last (it_t itr) groups g1 l1 e [] itr Ht Hg eq_refl) as (itr' & -> & Hat & Hr').
    exists itr'. split; [done|]. rewrite <- Hg.
    pose proof (ti_at_intro true itr' _ groups g1 l1 e [] [] Ht Hg Hat ltac:(congruence)) as Hres.
    unfold ahead in Hres. replace (mjoin groups) with ((mjoin g1 ++ l1) ++ [e]) in * ; [done|].
    rewrite Hg, mjoin_middle. cbn. by rewrite app_nil_r, app_assoc.
  - destruct groups as [|es g2]; [done|].
    destruct (group_nonempty _ _ es Ht) as (e & l2 & ->); [left|].
    unfold t_seekToFirst. rewrite Hlen, zlen_cons. pose proof (zlen_nonneg g2).
    destruct (Z.eqb_spec (1 + zlen g2) 0); [lia|].
    destruct (enter_first (it_t itr) _ [] e l2 g2 itr Ht eq_refl eq_refl) as (itr' & He & Hat & Hr').
    change (zlen []) with 0 in He. rewrite He. exists itr'. split; [done|].
    exact (ti_at_intro false itr' _ _ [] [] e l2 g2 Ht eq_refl Hat ltac:(congruence)).
Qed.

Lemma seek_walk_fwd key l1 l2 : all_before key l1 ->
  match l2 with [] => True | e :: _ => kcmp (ekey e) key <> Lt end ->
  seek_list false key (tkv <$> (l1 ++ l2)) = tkv <$> l2.
Proof.
  intros Hl1 Hl2. rewrite fmap_app. apply seek_list_split; [by rewrite Forall_fmap|]. by destruct l2.
Qed.
(** backwards: everything after [l1] is passed *)
Lemma seek_walk_rev key l1 l2 : esorted (l1 ++ l2) ->
  Forall (fun e => kcmp (ekey e) key = Gt) l2 ->
  match last l1 with None => True | Some e => kcmp (ekey e) key <> Gt end ->
  seek_list true key (reverse (tkv <$> (l1 ++ l2))) = reverse (tkv <$> l1).
Proof.
  intros Hs Hl2 Hl1. rewrite fmap_app, reverse_app. apply seek_list_split.
  - rewrite Forall_reverse, Forall_fmap. eapply Forall_impl; [exact Hl2|]. intros e He. cbn.
    rewrite kcmp_antisym. unfold compose. cbn. by rewrite He.
  - destruct l1 as [|e l1 _] using rev_ind; [done|]. rewrite last_snoc in Hl1.
    rewrite fmap_app, reverse_app. cbn. rewrite kcmp_antisym. by destruct (kcmp (ekey e) key).
Qed.

Lemma sorted_after l1 e l2 key : esorted (l1 ++ e :: l2) -> kcmp (ekey e) key = Gt ->
  Forall (fun x => kcmp (ekey x) key = Gt) (e :: l2).
Proof.
  intros Hs He. constructor; [done|]. apply StronglySorted_app_1_r, StronglySorted_cons in Hs as [Hf _].
  eapply Forall_impl; [exact Hf|]. intros x Hx. cbn in Hx. rewrite kcmp_antisym in He |- *.
  destruct (kcmp key (ekey e)) eqn:E; try done. by rewrite (kcmp_lt_trans _ _ _ E Hx).
Qed.
Lemma last_before key l : all_before key l ->
  match last l with None => True | Some e => kcmp (ekey e) key <> Gt end.
Proof.
  intros Hb. destruct (last l) as [e|] eqn:E; [|done]. apply last_Some in E as [l' ->].
  apply Forall_app in Hb as [_ [He _]%Forall_cons]. cbn in He. by rewrite He.
Qed.

(** one step back from index [length l1] of a block of the table *)
Lemma step_back t groups itr g1 l1 rest g2 : table_holds t groups ->
  groups = g1 ++ (l1 ++ rest) :: g2 -> in_block t itr g1 (l1 ++ rest) -> bi_idx (bi itr) = zlen l1 ->
  reversed itr = true ->
  exists itr', t_prev s 2 itr = Ok itr' /\
    ti_at true itr' (walk true (mjoin groups)) (reverse (tkv <$> (mjoin g1 ++ l1))).
Proof using s_inv.
  intros Ht Hg Hin Hidx Hr. destruct (prev_ok t groups itr g1 l1 rest g2 Ht Hg Hin Hidx) as (itr' & He & Hr' & Ht' & Hcase).
  exists itr'. split; [done|]. rewrite Hr in Hr'. destruct Hcase as [(l & e & -> & Hat)|[(-> & g & l & e & -> & Hat)|(-> & -> & Herr)]].
  - rewrite app_assoc. rewrite <- app_assoc in Hg. exact (ti_at_intro true itr' t groups g1 l e rest g2 Ht Hg Hat Hr').
  - rewrite <- app_assoc in Hg. cbn [app] in Hg.
    pose proof (ti_at_intro true itr' t groups g l e [] (rest :: g2) Ht Hg Hat Hr') as Hres.
    unfold ahead in Hres. rewrite join_app, app_nil_r. change (mjoin [l ++ [e]]) with ((l ++ [e]) ++ []).
    rewrite app_nil_r, app_assoc. exact Hres.
  - apply ti_at_end; [by rewrite Ht'|by rewrite Hg|done|by rewrite Herr].
Qed.

Lemma ti_Seek r itr kvs key : ti_wf r itr kvs -> 8 <= zlen key ->
  exists itr', t_Seek s itr key = Ok itr' /\ ti_at r itr' kvs (seek_list r key kvs).
Proof using s_inv.
  intros (groups & Ht & Hne & Hr & ->) Hk. unfold t_Seek. rewrite Hr. set (t := it_t itr) in *.
  destruct (seekFrom_ok t groups itr key origin Ht Hne eq_refl Hk) as (itr1 & Hs1 & Hr1 & Hs).
  assert (forall g1 l1 e l2 g2, groups = g1 ++ (l1 ++ e :: l2) :: g2 ->
    mjoin groups = (mjoin g1 ++ l1) ++ e :: l2 ++ mjoin g2) as Hflat.
  { intros g1 l1 e l2 g2 ->. rewrite mjoin_middle. by rewrite <- !app_assoc. }
  pose proof (th_sorted _ _ Ht) as Hsort. rewrite Hr in Hr1.
  destruct r; cbn [negb].
  - unfold seekForPrev. rewrite Hs1. cbn [obind].
    destruct Hs as [(g1 & l1 & e & l2 & g2 & Hg & Hat & Hb & Hge)|(g1 & es & Hg & Hin & Hidx & Herr & Hb & Hkey)].
    + pose proof (Hflat _ _ _ _ _ Hg) as Hf. destruct Hat as (Hin & Herr & Hbat).
      assert (t_Key itr1 = ekey e) as Hkey by apply Hbat. rewrite Hkey.
      destruct (decide (ekey e = key)) as [Ek|Ek].
      * rewrite bool_decide_true by done. cbn [negb]. exists itr1. split; [done|].
        pose proof (ti_at_intro true itr1 t groups g1 l1 e l2 g2 Ht Hg (conj Hin (conj Herr Hbat)) Hr1) as Hres.
        assert (seek_list true key (walk true (mjoin groups)) = ahead true g1 l1 e l2 g2) as ->; [|done].
        unfold ahead, walk. rewrite Hf, cons_middle, app_assoc. rewrite Hf, cons_middle, app_assoc in Hsort.
        apply seek_walk_rev; [done| |].
        -- rewrite <- app_assoc in Hsort. apply StronglySorted_app_1_r in Hsort. cbn [app] in Hsort.
           apply StronglySorted_cons in Hsort as [Hfa _]. eapply Forall_impl; [exact Hfa|].
           intros x Hx. cbn in Hx. rewrite <- Ek, kcmp_antisym, Hx. done.
        -- rewrite last_snoc, Ek, kcmp_refl. done.
      * rewrite bool_decide_false by done. cbn [negb].
        destruct (step_back t groups itr1 g1 l1 (e :: l2) g2 Ht Hg Hin) as (itr' & -> & Hres); [apply Hbat|done|].
        exists itr'. split; [done|].
        assert (seek_list true key (walk true (mjoin groups)) = reverse (tkv <$> (mjoin g1 ++ l1))) as ->; [|done].
        unfold walk. rewrite Hf in Hsort |- *. apply seek_walk_rev; [done| |by apply last_before].
        apply (sorted_after (mjoin g1 ++ l1)); [done|].
        destruct (kcmp (ekey e) key) eqn:E; [by apply kcmp_eq in E|done|done].
    + rewrite bool_decide_false by done. cbn [negb]. rewrite <- (app_nil_r es) in Hg, Hin.
      destruct (step_back t groups itr1 g1 es [] [] Ht Hg Hin Hidx Hr1) as (itr' & -> & Hres).
      exists itr'. split; [done|].
      assert (mjoin groups = mjoin g1 ++ es) as Hf.
      { rewrite Hg, mjoin_middle, app_nil_r. change (mjoin (@nil (list bentry))) with (@nil bentry). by rewrite app_nil_r. }
      rewrite Hf in *. cbn [walk]. pose proof (seek_walk_rev key (mjoin g1 ++ es) []) as Hsw.
      rewrite app_nil_r in Hsw. rewrite Hsw; [done|done|constructor|by apply last_before].
  - unfold t_seek. rewrite Hs1. exists itr1. split; [done|].
    destruct Hs as [(g1 & l1 & e & l2 & g2 & Hg & Hat & Hb & Hge)|(g1 & es & Hg & Hin & Hidx & Herr & Hb & Hkey)].
    + pose proof (ti_at_intro false itr1 t groups g1 l1 e l2 g2 Ht Hg Hat Hr1) as Hres.
      unfold walk at 2. rewrite (Hflat _ _ _ _ _ Hg) at 2. rewrite seek_walk_fwd by done. exact Hres.
    + cbn [walk]. pose proof (seek_walk_fwd key (mjoin groups) [] Hb I) as Hsw. rewrite app_nil_r in Hsw.
      rewrite Hsw. apply (ti_at_end false); [by rewrite (in_block_t _ _ _ _ Hin)|done|done|by rewrite Herr].
Qed.

Lemma ti_item r itr kvs k v rest : ti_at r itr kvs ((k, v) :: rest) ->
  t_Key itr = k /\ t_Value itr = Ok v /\ exists itr', t_Next s itr = Ok itr' /\ ti_at r itr' kvs rest.
Proof using s_inv.
  intros (groups & Ht & Hne & Hr & -> & [[? _]|(g1 & l1 & e & l2 & g2 & Hg & Hat & Hrest)]); [done|].
  pose proof Hat as (Hin & _ & Hbat). set (t := it_t itr) in *.
  assert (exists rest', ahead r g1 l1 e l2 g2 = tkv e :: rest' /\
    rest' = walk r (if r then mjoin g1 ++ l1 else l2 ++ mjoin g2)) as (rest' & Ha & Hw).
  { eexists. split; [|done]. unfold ahead, walk. destruct r; [|done]. by rewrite fmap_app, reverse_app. }
  rewrite Ha in Hrest. injection Hrest as -> -> ->.
  split; [apply Hbat|]. split.
  { unfold t_Value. destruct Hbat as (_ & _ & _ & ->). apply VS_Decode_bytes.
    pose proof (holds_entries t groups Ht) as Hf. rewrite Hg, mjoin_middle in Hf.
    apply Forall_app in Hf as [_ Hf]. rewrite <- app_assoc in Hf. apply Forall_app in Hf as [_ Hf].
    apply Forall_cons in Hf as [[_ Hv] _]. done. }
  unfold t_Next. rewrite Hr. subst rest'. destruct r; cbn [negb].
  - destruct (step_back t groups itr g1 l1 (e :: l2) g2 Ht Hg Hin) as (itr' & -> & Hres); [apply Hbat|done|].
    exists itr'. done.
  - destruct (next_ok t groups itr g1 l1 e l2 g2 Ht Hg Hat) as (itr' & -> & Hr' & Ht' & Hcase).
    exists itr'. split; [done|]. rewrite Hr in Hr'. destruct l2 as [|e' l2].
    + destruct g2 as [|es2 g2].
      * apply (ti_at_end false); [by rewrite Ht'|done|done|by rewrite Hcase].
      * destruct (group_nonempty t groups es2 Ht) as (e' & l2' & ->);
          [rewrite Hg, elem_of_app; right; right; left|].
        rewrite cons_middle, app_assoc in Hg.
        exact (ti_at_intro false itr' t groups _ [] e' l2' g2 Ht Hg Hcase Hr').
    + replace (l1 ++ e :: e' :: l2) with ((l1 ++ [e]) ++ e' :: l2) in Hg by by rewrite <- app_assoc.
      exact (ti_at_intro false itr' t groups g1 _ e' l2 g2 Ht Hg Hcase Hr').
Qed.

Lemma ti_suffix r itr kvs rest : ti_at r itr kvs rest -> exists passed, kvs = passed ++ rest.
Proof.
  intros (groups & _ & _ & _ & -> & [[-> _]|(g1 & l1 & e & l2 & g2 & Hg & _ & ->)]).
  { exists (walk r (mjoin groups)). by rewrite app_nil_r. }
  rewrite Hg, mjoin_middle. unfold ahead, walk. destruct r.
  - exists (reverse (tkv <$> (l2 ++ mjoin g2))). rewrite <- reverse_app, <- fmap_app. do 2 f_equal.
    rewrite <- !app_assoc. done.
  - exists (tkv <$> (mjoin g1 ++ l1)). rewrite <- fmap_app. f_equal. rewrite <- !app_assoc. done.
Qed.

#[local] Instance table_YIterator : YIterator (Iterator (Bloom := Bloom)) := {
  y_Next := t_Next s; y_Rewind := t_Rewind s; y_Seek := t_Seek s;
  y_Key := fun it => Ok (t_Key it); y_Value := t_Value; y_Valid := t_Valid }.
#[local] Program Instance table_IteratorLaws : IteratorLaws (Iterator (Bloom := Bloom)) := {
  y_wf := ti_wf; y_at := ti_at }.
Next Obligation. intros r it kvs rest (g & H1' & H2' & H3' & H4' & _). exists g. done. Qed.
Next Obligation. intros r it kvs (g & Ht & _ & _ & ->). by apply (walk_holds r (it_t it)). Qed.
Next Obligation.
  intros r it kvs rest Hat. pose proof (ti_suffix r it kvs rest Hat) as [passed Hp].
  destruct Hat as (g & Ht & _ & _ & Hk & _). pose proof (walk_holds r (it_t it) g Ht) as Hw.
  rewrite <- Hk, Hp in Hw. by apply walk_app_r in Hw.
Qed.
Next Obligation. intros r it kvs Hw. by apply ti_Rewind. Qed.
Next Obligation. intros r it kvs key Hw Hk. by apply ti_Seek. Qed.
Next Obligation.
  intros r it kvs rest (g & _ & _ & _ & _ & [[-> He]|(g1 & l1 & e & l2 & g2 & _ & (_ & He & _) & ->)]).
  - cbn. unfold t_Valid. by rewrite bool_decide_false.
  - cbn. unfold t_Valid. rewrite bool_decide_true by done. unfold ahead, walk.
    destruct r; [by rewrite fmap_app, reverse_app|done].
Qed.
Next Obligation.
  intros r it kvs k v rest Hat. destruct (ti_item r it kvs k v rest Hat) as (Hk & Hv & Hn). cbn. by rewrite Hk.
Qed.
End TableSpec.
