(* ===== verification/TableBuild.v ===== *)
(** A table written by the builder through any stream that keeps its promises,
    whatever the timing of the writer goroutine, reopens as the list of pairs
    that was added. *)
From Stdlib Require Import ZArith Lia.
From stdpp Require Import base option list numbers sorting strings.
From S2P Require Import Prelude GoLib Utils Proto ProtoSub ProtoPs Keys YIter Extent MixBlock Stream TableBlock Table TableSpec.

(** ** The builder's size counter stays a uint64 *)

Lemma u64_is_u64 x : is_u64 (u64 x).
Proof. unfold is_u64, u64. apply Z.mod_pos_bound. done. Qed.

Lemma Builder_append_est b d b' : Builder_append b d = Ok b' -> estimatedSize b' = estimatedSize b.
Proof.
  unfold Builder_append. intros (c & _ & E)%obind_Ok_inv.
  apply obind_Ok_inv in E as (x & _ & E). by injection E as <-.
Qed.
Lemma FinishBlock_est b b' : FinishBlock b = Ok b' -> estimatedSize b' = estimatedSize b.
Proof.
  unfold FinishBlock. intros (b1 & E1 & E)%obind_Ok_inv. apply obind_Ok_inv in E as (b2 & E2 & E).
  apply obind_Ok_inv in E as (x & _ & E). injection E as <-. cbn.
  apply Builder_append_est in E1, E2. congruence.
Qed.
Lemma addHelper_est fp b k v b' : addHelper fp b k v = Ok b' -> is_u64 (estimatedSize b').
Proof.
  unfold addHelper. intros (pk & _ & E)%obind_Ok_inv. apply assert_Ok_inv in E as [_ E].
  apply obind_Ok_inv in E as (b1 & _ & E). apply obind_Ok_inv in E as (b2 & _ & E).
  apply obind_Ok_inv in E as (b3 & _ & E). injection E as <-. apply u64_is_u64.
Qed.
Lemma add_all_est fp kvs : forall b b', is_u64 (estimatedSize b) -> add_all fp b kvs = Ok b' -> is_u64 (estimatedSize b').
Proof.
  induction kvs as [|[k v] kvs IH]; intros b b' Hb E; cbn [add_all] in E; [by injection E as <-|].
  apply obind_Ok_inv in E as (b1 & E1 & E). apply (IH b1); [|done].
  unfold Builder_Add in E1. apply obind_Ok_inv in E1 as (b2 & _ & E1). by apply addHelper_est in E1.
Qed.
Lemma build_blocks_est fp kvs b : build_blocks fp kvs = Ok b -> is_u64 (estimatedSize b).
Proof.
  unfold build_blocks. intros (b1 & E1 & E)%obind_Ok_inv. apply FinishBlock_est in E as ->.
  by apply add_all_est in E1.
Qed.

Section TableBuild.
Context {St : Type} `{StreamLaws St}.
Context {Bloom : Type} `{BloomLaws Bloom}.

(** ** The writer *)

Definition lengths (ws : list (Block * bytes)) : Z := foldr (fun w n => BlockLength (fst w) + n) 0 ws.
Definition ch_ok (ws : list (Block * bytes)) : Prop :=
  Forall (fun w => block_wf (fst w) /\ BlockLength (fst w) <= 2 ^ 22) ws.

Lemma slurp_ok ch : forall avail size, ch <> [] -> ch_ok ch -> 0 <= size <= 10 * MB ->
  exists batch rest, slurp avail size ch = (batch, rest) /\ ch = batch ++ rest /\ batch <> [] /\
    size + lengths batch <= 10 * MB + 2 ^ 22.
Proof.
  unfold MB, KB. induction ch as [|w ch IH]; intros avail size Hne Hok Hs; [done|].
  apply Forall_cons in Hok as [[Hwf Hmax] Hok]. pose proof (block_wf_length _ Hwf).
  cbn [slurp]. rewrite u32_small by lia. unfold MB, KB.
  destruct (Z.ltb_spec (10 * (1024 * 1024)) (size + BlockLength (fst w))).
  { exists [w], ch. split; [done|]. split; [done|]. split; [done|]. cbn. lia. }
  assert (size + lengths [w] <= 10 * (1024 * 1024) + 2 ^ 22) as Hone by (cbn; lia).
  destruct avail as [|avail]; [by exists [w], ch|].
  destruct ch as [|w2 ch]; [by exists [w], []|].
  destruct (IH avail (size + BlockLength (fst w))) as (batch & rest & -> & -> & Hb & Hl); [done|done|lia|].
  exists (w :: batch), rest. split; [done|]. split; [done|]. split; [done|].
  cbn [lengths foldr]. fold (lengths batch). lia.
Qed.

Lemma batch_size ws : ch_ok ws -> blocks_size (fst <$> ws) <= 2 * lengths ws.
Proof.
  induction 1 as [|w ws [Hwf _] Hws IH]; [done|]. pose proof (block_wf_length _ Hwf).
  cbn [fmap list_fmap blocks_size foldr lengths]. fold (blocks_size (fst <$> ws)). fold (lengths ws).
  unfold block_size. lia.
Qed.

Lemma add_to_index_ok ks : forall idx e offs, length ks = length offs ->
  add_to_index idx ks e offs = Ok (idx ++ zip_with (fun k o => mkBO k e o) ks offs).
Proof.
  induction ks as [|k ks IH]; intros idx e [|o offs] Hl; try done; cbn [add_to_index].
  - by rewrite app_nil_r.
  - rewrite IH by (cbn in Hl; lia). unfold addBlockToIndex. by rewrite <- app_assoc.
Qed.

(** each block of the channel holds its group of entries *)
Definition holds (g : list bentry) (w : Block * bytes) : Prop := block_holds (fst w) (snd w) g.

Lemma holds_ch groups ch : Forall2 holds groups ch -> ch_ok ch.
Proof. induction 1 as [|g w gs ws Hh _ IH]; constructor; [|done]. destruct Hh. done. Qed.

Lemma batch_indexed s e offs batch groups : Forall2 (sc_stored s e) offs (fst <$> batch) ->
  Forall2 holds groups batch ->
  Forall2 (index_entry s) (zip_with (fun k o => mkBO k e o) (snd <$> batch) offs) groups.
Proof.
  intros Hst Hh. revert offs Hst. induction Hh as [|g [c k] gs ws Hc _ IH]; intros offs Hst; cbn in *.
  - apply Forall2_nil_inv_r in Hst as ->. constructor.
  - apply Forall2_cons_inv_r in Hst as (o & offs' & Ho & Hst & ->). constructor; [|by apply IH].
    exists c. done.
Qed.

Lemma index_entry_mono s s' idx groups :
  (forall e o b, sc_stored s e o b -> sc_stored s' e o b) ->
  Forall2 (index_entry s) idx groups -> Forall2 (index_entry s') idx groups.
Proof. intros Hm Hf. eapply Forall2_impl; [exact Hf|]. intros bo g (c & Hc & Hh). exists c. auto. Qed.

Lemma writer_loop_ok sched m fuel : forall s idx ch groups done_groups,
  sc_inv (length ch + m) s -> (length ch <= fuel)%nat -> Forall2 holds groups ch -> Forall2 (index_entry s) idx done_groups ->
  exists s' idx', writer_loop fuel sched s idx ch = Ok (s', idx') /\ sc_inv m s' /\
    Forall2 (index_entry s') idx' (done_groups ++ groups) /\
    (forall e o b, sc_stored s e o b -> sc_stored s' e o b).
Proof.
  induction fuel as [|fuel IH]; intros s idx ch groups dg Hs Hf Hh Hd.
  { destruct ch; [|cbn in Hf; lia]. apply Forall2_nil_inv_r in Hh as ->. exists s, idx. rewrite app_nil_r. done. }
  destruct ch as [|w ch]; [apply Forall2_nil_inv_r in Hh as ->; exists s, idx; rewrite app_nil_r; done|].
  cbn [writer_loop]. pose proof (holds_ch _ _ Hh) as Hok.
  destruct (slurp_ok (w :: ch) (sched fuel) 0) as (batch & rest & -> & E & Hne & Hlen); [done|done|unfold MB, KB; lia|].
  rewrite E in Hh, Hok, Hf. apply Forall_app in Hok as [Hok _].
  apply Forall2_app_inv_r in Hh as (ga & gb & Ha & Hb & ->).
  pose proof (batch_size batch Hok) as Hsz.
  assert (sc_inv (1 + (length rest + m)) s) as Hs0.
  { apply (sc_inv_le (length (w :: ch) + m)); [done|]. rewrite E, length_app. destruct batch; [done|]. cbn. lia. }
  destruct (sc_append_ok _ s (fst <$> batch) Hs0) as (s1 & e & offs & -> & Hs1 & Hst & Hmono); [by destruct batch| | |].
  { rewrite Forall_fmap. eapply Forall_impl; [exact Hok|]. intros x [Hx _]. done. }
  { unfold MB, KB in Hlen. lia. }
  cbn [obind]. rewrite add_to_index_ok by (rewrite (Forall2_length _ _ _ Hst), !length_fmap; done). cbn [obind].
  destruct (IH s1 (idx ++ zip_with (fun k o => mkBO k e o) (snd <$> batch) offs) rest gb (dg ++ ga))
    as (s2 & idx2 & -> & Hs2 & Hi2 & Hm2); [done| |done| |].
  { rewrite length_app in Hf. destruct batch; [done|]. cbn in Hf. lia. }
  { apply Forall2_app; [by eapply index_entry_mono|]. by apply batch_indexed. }
  exists s2, idx2. split; [done|]. split; [done|]. split; [by rewrite app_assoc|]. auto.
Qed.

(** ** The meta block *)

Definition weight (kvs : list kv) : Z := foldr (fun p n => zlen (fst p) + 64 + n) 0 kvs.
Lemma weight_app l k : weight (l ++ k) = weight l + weight k.
Proof. induction l as [|p l IH]; cbn [app weight foldr]; [done|]. fold (weight (l ++ k)) (weight l). lia. Qed.
Lemma weight_nonneg l : 0 <= weight l.
Proof.
  induction l as [|p l IH]; cbn [weight foldr]; [done|]. fold (weight l). pose proof (zlen_nonneg (fst p)). lia.
Qed.

Lemma index_entry_wf m s bo es : sc_inv m s -> index_entry s bo es ->
  BlockOffset_wf bo /\ zlen (fld_offset bo) <= weight (kvs_of es).
Proof.
  intros Hs (c & Hst & Hc). destruct (sc_read_stored m s _ _ c Hs Hst) as (_ & Hu & Ho).
  destruct (bh_wf _ _ _ Hc) as [Hf (e & l & -> & _ & He)]. apply Forall_cons in Hf as [[[Hk _] _ _] _].
  rewrite He in Hk. assert (BlockOffset_wf bo) as Hwf by (split; [lia|done]). split; [done|].
  unfold fld_sub. rewrite zlen_cons, zlen_app. pose proof (varint_bytes_pos _ (BlockOffset_u64 bo Hwf)).
  pose proof (BlockOffset_bytes_bound bo Hwf). pose proof (weight_nonneg (kvs_of l)).
  cbn [kvs_of fmap list_fmap weight foldr fst]. fold (kvs_of l) (weight (kvs_of l)). rewrite He. lia.
Qed.

Lemma kvs_of_join groups : mjoin (kvs_of <$> groups) = kvs_of (mjoin groups).
Proof.
  induction groups as [|g gs IH]; [done|]. change (mjoin (kvs_of <$> g :: gs)) with (kvs_of g ++ mjoin (kvs_of <$> gs)).
  rewrite IH. unfold kvs_of. change (mjoin (g :: gs)) with (g ++ mjoin gs). by rewrite fmap_app.
Qed.

Lemma offsets_wf m s idx groups : sc_inv m s -> Forall2 (index_entry s) idx groups ->
  Forall BlockOffset_wf idx /\ zlen (fld_offsets idx) <= weight (kvs_of (mjoin groups)).
Proof.
  intros Hs. induction 1 as [|bo es idx gs Hbo _ [IH1 IH2]]; [done|].
  destruct (index_entry_wf m s bo es Hs Hbo) as [Hwf Hz]. split; [by constructor|].
  rewrite (fld_subs_cons BlockOffset_bytes), zlen_app. change (mjoin (es :: gs)) with (es ++ mjoin gs).
  unfold kvs_of in *. rewrite fmap_app, weight_app. lia.
Qed.

Lemma meta_block_wf m data sz : RawBlockMeta_wf m -> zlen data = sz -> align sz = true -> sz + 512 < 2 ^ 32 ->
  block_wf (mkBlock (AdlerCheckSum data) sz (RawBlockMeta_bytes m) data).
Proof.
  intros Hm Hd Ha Hb. pose proof (zlen_nonneg data). split; cbn [CheckSum Data BlockLength]; try done.
  pose proof (RawBlockMeta_bytes_bound m Hm). rewrite zlen_meta. cbn [BlockLength UserData].
  pose proof (zlen_PutUvarint_u32 sz ltac:(lia)). unfold user_bytes.
  set (u := RawBlockMeta_bytes m) in *. pose proof (zlen_nonneg u).
  destruct (Z.ltb_spec 0 (zlen u)); [|rewrite zlen_nil; lia].
  pose proof (zlen_PutUvarint_u32 (zlen u) ltac:(lia)). rewrite zlen_app. lia.
Qed.

Lemma align_4k sz : sz mod (4 * KB) = 0 -> 0 < sz -> align sz = true.
Proof.
  unfold KB, align. intros Hm Hp. apply Z.mod_divide in Hm as [q ->]; [|done].
  destruct (Z.eqb_spec (q * (4 * 1024)) 0); [lia|]. cbn [negb andb].
  replace (q * (4 * 1024)) with (q * 8 * 512) by lia. rewrite Z.mod_mul by done. done.
Qed.

(** the table index the builder writes *)
Definition filter_of (hashes : list Z) : Bloom := foldl bf_Add (NewBloomFilter (zlen hashes)) hashes.

Lemma FinishAll_ok sched m s b groups headExtentID headOffset seqNum :
  sc_inv (length (writeCh b) + (1 + m)) s -> Forall2 holds groups (writeCh b) -> groups <> [] -> is_u64 (estimatedSize b) ->
  weight (kvs_of (mjoin groups)) + zlen (bf_JSONMarshal (filter_of (keyHashes b))) < 2 ^ 30 ->
  is_u64 headExtentID -> is_u32 headOffset -> is_u64 seqNum ->
  exists s' idx e o c, FinishAll sched s b headExtentID headOffset seqNum = Ok (s', (e, o)) /\ sc_inv m s' /\
    Forall2 (index_entry s') idx groups /\ sc_stored s' e o c /\
    (forall e o b, sc_stored s e o b -> sc_stored s' e o b) /\
    (let ti := mkTI idx (bf_JSONMarshal (filter_of (keyHashes b))) (estimatedSize b) 0 in
     TableIndex_wf ti /\ TableIndex_Size ti < 2 ^ 31 /\
     UserData c = RawBlockMeta_bytes (mkRBM RawBlockType_meta 0 (TableIndex_Size ti) headExtentID headOffset seqNum) /\
     slice (Data c) 0 (TableIndex_Size ti) = Ok (TableIndex_bytes ti)).
Proof.
  intros Hs Hh Hne Hest Hw Hu1 Hu2 Hu3. unfold FinishAll, run_writer.
  destruct (writer_loop_ok sched (1 + m) (length (writeCh b)) s [] (writeCh b) groups []) as (s1 & idx & -> & Hs1 & Hidx & Hm1);
    [done|lia|done|constructor|]. cbn [app obind] in *.
  destruct (offsets_wf _ s1 idx groups Hs1 Hidx) as [Hiwf Hiz].
  fold (filter_of (keyHashes b)). set (bl := bf_JSONMarshal (filter_of (keyHashes b))) in *.
  set (ti := mkTI idx bl (estimatedSize b) 0). pose proof (zlen_nonneg bl). pose proof (weight_nonneg (kvs_of (mjoin groups))).
  assert (TableIndex_wf ti) as Hti by (split; [done|]; split; [cbn [BloomFilter ti]; lia|done]).
  pose proof (TableIndex_Size_bytes ti Hti) as Hsz.
  assert (0 < TableIndex_Size ti < 2 ^ 30 + 64) as Hti2.
  { rewrite Hsz. unfold TableIndex_bytes. rewrite !zlen_app. cbn [TI_Offsets BloomFilter TI_EstimatedSize NumOfBlocks ti].
    pose proof (fld_bytes_bound 18 bl ltac:(lia)). pose proof (fld_varint_bound 24 _ Hest).
    pose proof (zlen_nonneg (fld_bytes 18 bl)). pose proof (zlen_nonneg (fld_varint 24 (estimatedSize b))).
    change (zlen (fld_varint 32 0)) with 0.
    destruct groups as [|g gs]; [done|]. apply Forall2_cons_inv_r in Hidx as (bo & idx' & _ & _ & ->).
    rewrite (fld_subs_cons BlockOffset_bytes), zlen_app in *. unfold fld_sub in *. rewrite zlen_cons, zlen_app in *.
    pose proof (zlen_nonneg (varint_bytes 10 (zlen (BlockOffset_bytes bo)))).
    pose proof (zlen_nonneg (BlockOffset_bytes bo)). pose proof (zlen_nonneg (fld_offsets idx')). lia. }
  rewrite (u32_small (TableIndex_Size ti)) by lia.
  destruct (Ceil_spec (TableIndex_Size ti) (4 * KB)) as (sz & -> & Hmod & Hr); [unfold KB; lia|unfold KB; lia|unfold KB; lia|].
  cbn [obind]. unfold KB in Hr. pose proof (zlen_zrep (A := byte) sz Byte.x00 ltac:(lia)) as Hzr.
  rewrite TableIndex_MarshalTo_bytes by (done || lia). cbn [obind].
  assert (RawBlockMeta_wf (mkRBM RawBlockType_meta 0 (TableIndex_Size ti) headExtentID headOffset seqNum)) as Hmw.
  { split; [done|]. split; [done|]. split; [unfold is_u32; cbn [UnCompressedSize]; lia|done]. }
  rewrite RawBlockMeta_Marshal_bytes by done. cbn [obind].
  set (data := TableIndex_bytes ti ++ _). set (c := mkBlock _ _ _ _).
  assert (zlen data = sz) as Hdz by (unfold data; rewrite zlen_app, zlen_zdrop; lia).
  assert (block_wf c) as Hc by (apply meta_block_wf; [done|done|apply align_4k; [done|lia]|lia]).
  destruct (sc_append_ok m s1 [c]) as (s2 & e & offs & -> & Hs2 & Hst & Hm2); [done|done|by constructor| |].
  { rewrite blocks_size_single. unfold block_size. cbn [BlockLength c]. lia. }
  apply Forall2_cons_inv_r in Hst as (o & offs' & Ho & _ & ->). cbn [obind].
  exists s2, idx, e, o, c. split; [done|]. split; [done|]. split; [by eapply index_entry_mono|].
  split; [done|]. split; [auto|]. cbv zeta. fold ti. split; [done|]. split; [lia|]. split; [done|].
  cbn [Data c]. rewrite slice_ztake_0 by lia. unfold data. by rewrite ztake_app_exact.
Qed.
End TableBuild.

(** ** Opening *)

Section Open.
Context {St : Type} `{StreamLaws St}.
Context {Bloom : Type} `{BloomLaws Bloom}.
Variable s : St.
Hypothesis s_inv : sc_inv 0 s.

Lemma table_holds_index (t t' : Table (Bloom := Bloom)) groups : blockIndex t' = blockIndex t ->
  table_holds s t groups -> table_holds s t' groups.
Proof. intros E [Hi Hs]. split; [by rewrite E|done]. Qed.

Lemma NewIterator_ok (t : Table (Bloom := Bloom)) groups rev : table_holds s t groups -> groups <> [] ->
  exists it, NewIterator s t rev = Ok (t_IncrRef t, it) /\ ti_wf s rev it (walk rev (mjoin groups)) /\
    it_t it = t_IncrRef t.
Proof using s_inv.
  intros Ht Hne. pose proof (table_holds_index t (t_IncrRef t) groups eq_refl Ht) as Ht'.
  unfold NewIterator. cbn [t_next with_err it_t bpos bi reversed zeroBI bi_data].
  pose proof (zlen_index s _ _ Ht') as Hlen. destruct groups as [|es g2]; [done|].
  destruct (group_nonempty s _ _ es Ht') as (e & l2 & ->); [left|].
  rewrite Hlen, zlen_cons. pose proof (zlen_nonneg g2). destruct (Z.leb_spec (1 + zlen g2) 0); [lia|].
  match goal with |- context [enter s ?i 0 _] =>
    destruct (enter_first s s_inv (t_IncrRef t) _ [] e l2 g2 i Ht' eq_refl eq_refl) as (it & He & Hat & Hr) end.
  change (zlen []) with 0 in He. rewrite He. cbn [obind]. exists it. split; [done|].
  pose proof (in_block_t _ _ _ _ (proj1 Hat)) as Hit. split; [|done].
  exists ((e :: l2) :: g2). rewrite Hit. done.
Qed.

(** first and last key of the table *)
Lemma initBiggestAndSmallest_ok (t : Table (Bloom := Bloom)) groups e0 es e1 : table_holds s t groups ->
  mjoin groups = e0 :: es -> last (e0 :: es) = Some e1 ->
  exists t', initBiggestAndSmallest s t = Ok t' /\ table_holds s t' groups /\ smallest t' = ekey e0 /\
    biggest t' = ekey e1 /\ bf t' = bf t /\ Loc t' = Loc t /\ LastSeq t' = LastSeq t /\
    t_VpExtentID t' = t_VpExtentID t /\ t_VpOffset t' = t_VpOffset t.
Proof using s_inv.
  intros Ht Hflat Hlast. assert (groups <> []) as Hne by (intros ->; done).
  unfold initBiggestAndSmallest. destruct groups as [|g gs]; [done|].
  destruct (block_ok s s_inv t _ [] g gs Ht eq_refl) as (bo & c & Hbo & _ & Hc).
  apply index_Ok in Hbo. change (Z.of_nat (length [])) with 0 in Hbo. rewrite Hbo. cbn [obind].
  set (t1 := mkTable _ _ _ _ _ _ _ _ _ _).
  pose proof (table_holds_index t t1 _ eq_refl Ht) as Ht1.
  destruct (NewIterator_ok t1 _ true Ht1 Hne) as (it & -> & Hwf & Hit). cbn [obind].
  destruct (ti_Rewind s s_inv true it _ Hwf) as (it' & -> & Hat). cbn [obind].
  apply last_Some in Hlast as [l1 Hl]. rewrite Hflat, Hl in Hat. unfold walk in Hat. rewrite fmap_app, reverse_app in Hat.
  pose proof (y_Valid_ok (IteratorLaws := table_IteratorLaws s s_inv) true it' _ _ Hat) as Hv.
  cbn [app] in Hv. change (t_Valid it' = true) in Hv. rewrite Hv. cbn [negb].
  destruct (ti_item s s_inv true it' _ _ _ _ Hat) as (Hk & _ & _). rewrite Hk.
  eexists. split; [done|]. split; [by apply (table_holds_index t)|]. cbn.
  split; [|done]. destruct (bh_wf _ _ _ Hc) as [_ (e & l & Hg & _ & He)]. rewrite Hg in Hflat.
  injection Hflat as <- _. done.
Qed.

Lemma OpenTable_ok e o c (ti : TableIndex) (b : Bloom) groups e0 es e1 hE hO seq :
  sc_stored s e o c -> TableIndex_wf ti -> TableIndex_Size ti < 2 ^ 31 ->
  is_u64 hE -> is_u32 hO -> is_u64 seq ->
  UserData c = RawBlockMeta_bytes (mkRBM RawBlockType_meta 0 (TableIndex_Size ti) hE hO seq) ->
  slice (Data c) 0 (TableIndex_Size ti) = Ok (TableIndex_bytes ti) ->
  BloomFilter ti = bf_JSONMarshal b -> Forall2 (index_entry s) (TI_Offsets ti) groups ->
  esorted (mjoin groups) -> mjoin groups = e0 :: es -> last (e0 :: es) = Some e1 ->
  exists t, OpenTable s e o = Ok t /\ table_holds s t groups /\ smallest t = ekey e0 /\ biggest t = ekey e1 /\
    (forall h, bf_Has (bf t) h = bf_Has b h) /\ Loc t = (e, o) /\ LastSeq t = seq /\ t_VpExtentID t = hE /\ t_VpOffset t = hO.
Proof using H2 s_inv.
  intros Hst Hti Hsz Hu1 Hu2 Hu3 Hud Hsl Hbf Hidx Hsort Hflat Hlast. unfold OpenTable.
  destruct (sc_read_stored 0 s e o c s_inv Hst) as [-> _]. cbn [obind].
  pose proof (TableIndex_Size_bytes ti Hti) as Hz. pose proof (zlen_nonneg (TableIndex_bytes ti)).
  rewrite Hud, RawBlockMeta_Unmarshal_bytes.
  2: { split; [done|]. split; [done|]. split; [unfold is_u32; cbn [UnCompressedSize]; lia|done]. }
  cbn [RB_Type UnCompressedSize SeqNum VpExtentID VpOffset]. change (negb (RawBlockType_meta =? RawBlockType_meta)) with false.
  cbv iota. rewrite Hsl. cbn [obind]. rewrite TableIndex_Unmarshal_bytes by (done || lia). cbn [obind].
  rewrite Hbf. destruct (bf_json b) as (b' & -> & Hb'). cbn [obind].
  match goal with |- context [initBiggestAndSmallest s ?t] => set (t0 := t) end.
  assert (table_holds s t0 groups) as Ht0 by (split; done).
  destruct (initBiggestAndSmallest_ok t0 groups e0 es e1 Ht0 Hflat Hlast) as (t & -> & Ht & Hsm & Hbg & Hbft & Hloc & Hseq & Hv1 & Hv2).
  exists t. split; [done|]. split; [done|]. split; [done|]. split; [done|]. rewrite Hbft, Hloc, Hseq, Hv1, Hv2. done.
Qed.
End Open.

(** ** The whole life of a table *)

Section Life.
Context {St : Type} `{StreamLaws St}.
Context {Bloom : Type} `{BloomLaws Bloom}.
Variable fp : bytes -> Z.

(** what the flush and the compaction do: [Add] every pair, [FinishBlock], [FinishAll] *)
Definition build_table (sched : nat -> nat) (s : St) (kvs : list kv) (headExtentID headOffset seqNum : Z)
    : outcome (St * (Z * Z)) :=
  let! b := build_blocks fp kvs in FinishAll (Bloom := Bloom) sched s b headExtentID headOffset seqNum.

Record table_input (kvs : list kv) : Prop := mk_table_input {
  ti_some : kvs <> [];
  ti_sorted : StronglySorted (kv_lt false) kvs;
  ti_small : Forall (fun p => small_kv (fst p) (snd p)) kvs;
  ti_size : weight kvs + zlen (bf_JSONMarshal (filter_of (Bloom := Bloom) ((fun p => fp (ukey (fst p))) <$> kvs))) < 2 ^ 30 }.

Definition stored_kvs (kvs : list kv) : list kv := (fun p => (fst p, plain (snd p))) <$> kvs.

Lemma groups_length groups ch : Forall2 holds groups ch -> (length groups <= length (mjoin groups))%nat.
Proof.
  induction 1 as [|g w gs ws Hh _ IH]; [done|]. change (mjoin (g :: gs)) with (g ++ mjoin gs).
  rewrite length_app. destruct (bh_wf _ _ _ Hh) as [_ (e & l & -> & _)]. cbn. lia.
Qed.
Lemma esorted_kvs es : StronglySorted (kv_lt false) (kvs_of es) -> esorted es.
Proof.
  induction es as [|e es IH]; [constructor|]. unfold kvs_of. rewrite fmap_cons. intros [Hf Hs]%StronglySorted_cons.
  constructor; [by apply IH|]. by rewrite Forall_fmap in Hf.
Qed.
Lemma foldl_keep l : forall (b : Bloom) h, bf_Has b h = true -> bf_Has (foldl bf_Add b l) h = true.
Proof using H2. induction l as [|x l IH]; intros b h Hb; [done|]. apply IH. by apply bf_add_keep. Qed.
Lemma filter_of_has l h : forall b : Bloom, h ∈ l -> bf_Has (foldl bf_Add b l) h = true.
Proof using H2.
  induction l as [|x l IH]; intros b Hin; [by apply elem_of_nil in Hin|]. cbn [foldl].
  apply elem_of_cons in Hin as [->|Hin]; [apply foldl_keep, bf_add_has|by apply IH].
Qed.

(** a table on disk: its index block and the blocks the index names *)
Definition table_file (s : St) (e o : Z) (kvs : list kv) (hE hO seq : Z) : Prop :=
  exists c ti (b : Bloom) groups e0 es e1, sc_stored s e o c /\ TableIndex_wf ti /\ TableIndex_Size ti < 2 ^ 31 /\
    is_u64 hE /\ is_u32 hO /\ is_u64 seq /\
    UserData c = RawBlockMeta_bytes (mkRBM RawBlockType_meta 0 (TableIndex_Size ti) hE hO seq) /\
    slice (Data c) 0 (TableIndex_Size ti) = Ok (TableIndex_bytes ti) /\
    BloomFilter ti = bf_JSONMarshal b /\ Forall2 (index_entry s) (TI_Offsets ti) groups /\
    esorted (mjoin groups) /\ mjoin groups = e0 :: es /\ last (e0 :: es) = Some e1 /\ tkv <$> mjoin groups = kvs /\
    (forall p, p ∈ kvs -> bf_Has b (fp (ukey (fst p))) = true).

Lemma table_file_mono s s' e o kvs hE hO seq : (forall e o b, sc_stored s e o b -> sc_stored s' e o b) ->
  table_file s e o kvs hE hO seq -> table_file s' e o kvs hE hO seq.
Proof.
  intros Hm (c & ti & b & groups & e0 & es & e1 & Hst & Hti & Hsz & Hu1 & Hu2 & Hu3 & Hud & Hsl & Hbf & Hidx & Hr).
  exists c, ti, b, groups, e0, es, e1. repeat (split; [by auto|]). split; [by eapply index_entry_mono|exact Hr].
Qed.

Lemma table_file_open s e o kvs hE hO seq : sc_inv 0 s -> table_file s e o kvs hE hO seq ->
  exists t groups, OpenTable (Bloom := Bloom) s e o = Ok t /\ table_holds s t groups /\ groups <> [] /\ tkv <$> mjoin groups = kvs /\
    (forall p, head kvs = Some p -> smallest t = fst p) /\ (forall p, last kvs = Some p -> biggest t = fst p) /\
    (forall p, p ∈ kvs -> DoesNotHave t (fp (ukey (fst p))) = false) /\
    Loc t = (e, o) /\ LastSeq t = seq /\ t_VpExtentID t = hE /\ t_VpOffset t = hO.
Proof using H2.
  intros Hs (c & ti & b & groups & e0 & es & e1 & Hst & Hti & Hsz & Hu1 & Hu2 & Hu3 & Hud & Hsl & Hbf & Hidx & Hes & Hflat & Hlast & Hkv & Hbl).
  destruct (OpenTable_ok s Hs e o c ti b groups e0 es e1 hE hO seq Hst Hti Hsz Hu1 Hu2 Hu3 Hud Hsl Hbf Hidx Hes Hflat Hlast)
    as (t & Hop & Ht & Hsm & Hbg & Hb & Hrest).
  exists t, groups. split; [done|]. split; [done|]. split; [by intros ->|]. split; [done|]. rewrite Hflat in Hkv. split; [|split; [|split; [|exact Hrest]]].
  - rewrite <- Hkv. intros p [= <-]. done.
  - intros p Hp. rewrite <- Hkv, fmap_last, Hlast in Hp. by injection Hp as <-.
  - intros p Hp. unfold DoesNotHave. rewrite Hb. by rewrite (Hbl p Hp).
Qed.

Lemma build_file sched m s kvs hE hO seq : sc_inv (length kvs + (1 + m)) s -> table_input kvs -> is_u64 hE -> is_u32 hO -> is_u64 seq ->
  exists s' e o, build_table sched s kvs hE hO seq = Ok (s', (e, o)) /\ sc_inv m s' /\
    (forall e o b, sc_stored s e o b -> sc_stored s' e o b) /\ table_file s' e o (stored_kvs kvs) hE hO seq.
Proof using H2.
  intros Hs [Hne Hsort Hsmall Hsize] Hu1 Hu2 Hu3. unfold build_table.
  destruct (build_blocks_ok fp kvs Hne Hsmall) as (b & groups & Hb & Hh & Hcat & Hkh).
  rewrite Hb. cbn [obind]. rewrite kvs_of_join in Hcat. apply build_blocks_est in Hb.
  assert (groups <> []) as Hgne by (intros ->; done).
  assert (sc_inv (length (writeCh b) + (1 + m)) s) as Hs0.
  { apply (sc_inv_le (length kvs + (1 + m))); [done|]. rewrite <- (Forall2_length _ _ _ Hh).
    pose proof (groups_length groups (writeCh b) Hh) as Hgl. rewrite <- Hcat. unfold kvs_of. rewrite length_fmap. lia. }
  destruct (FinishAll_ok sched m s b groups hE hO seq Hs0) as (s' & idx & e & o & c & -> & Hs' & Hidx & Hst & Hm & Hti & Hsz & Hud & Hsl);
    try done; [by rewrite Hcat, Hkh|].
  assert (esorted (mjoin groups)) as Hes by (apply esorted_kvs; by rewrite Hcat).
  assert (tkv <$> mjoin groups = stored_kvs kvs) as Hkv by (rewrite <- Hcat; unfold stored_kvs, kvs_of; by rewrite <- list_fmap_compose).
  destruct (mjoin groups) as [|e0 es] eqn:Hflat; [by rewrite <- Hcat in Hne|].
  assert (exists e1, last (e0 :: es) = Some e1) as [e1 Hlast] by (destruct (last (e0 :: es)) eqn:E; [eauto|by apply last_None in E]).
  rewrite <- Hflat in Hes.
  exists s', e, o. split; [done|]. split; [done|]. split; [done|].
  do 2 eexists. exists (filter_of (keyHashes b)), groups, e0, es, e1. repeat (split; [done|]). split; [by rewrite Hflat|].
  intros p Hp. apply filter_of_has. rewrite Hkh. unfold stored_kvs in Hp. apply list_elem_of_fmap in Hp as (q & -> & Hq).
  apply list_elem_of_fmap. by exists q.
Qed.

Lemma build_open sched m s kvs hE hO seq : sc_inv (length kvs + (1 + m)) s -> table_input kvs -> is_u64 hE -> is_u32 hO -> is_u64 seq ->
  exists s' e o t groups, build_table sched s kvs hE hO seq = Ok (s', (e, o)) /\ sc_inv m s' /\
    (forall e o b, sc_stored s e o b -> sc_stored s' e o b) /\
    OpenTable s' e o = Ok t /\ table_holds s' t groups /\ groups <> [] /\ tkv <$> mjoin groups = stored_kvs kvs /\
    (forall p, head kvs = Some p -> smallest t = fst p) /\ (forall p, last kvs = Some p -> biggest t = fst p) /\
    (forall p, p ∈ kvs -> DoesNotHave t (fp (ukey (fst p))) = false) /\
    Loc t = (e, o) /\ LastSeq t = seq /\ t_VpExtentID t = hE /\ t_VpOffset t = hO.
Proof using H2.
  intros Hs Hin Hu1 Hu2 Hu3. destruct (build_file sched m s kvs hE hO seq Hs Hin Hu1 Hu2 Hu3) as (s' & e & o & E & Hs' & Hm & Hf).
  destruct (table_file_open s' e o _ _ _ _ (sc_inv_le m 0 s' Hs' ltac:(lia)) Hf) as (t & groups & Hop & Ht & Hgne & Hkv & Hsm & Hbg & Hbl & Hrest).
  exists s', e, o, t, groups. do 7 (split; [done|]). split; [|split; [|split; [|done]]].
  - intros p Hp. apply (Hsm (fst p, plain (snd p))). unfold stored_kvs. destruct kvs; [done|]. by injection Hp as ->.
  - intros p Hp. apply (Hbg (fst p, plain (snd p))). unfold stored_kvs. by rewrite fmap_last, Hp.
  - intros p Hp. apply (Hbl (fst p, plain (snd p))). unfold stored_kvs. by apply (list_elem_of_fmap_2 (fun p : kv => (fst p, plain (snd p)))).
Qed.

(** C13: A table built from a sorted list of pairs through any stream that keeps its promises,
    whatever the timing of the writer goroutine, reopens with the recorded sequence number, value-
    log head, smallest and biggest key, and its iterator yields exactly the pairs added, forwards
    and backwards. *)
Theorem table_roundtrip sched m s kvs hE hO seq rev fuel :
  sc_inv (length kvs + (1 + m)) s -> table_input kvs -> is_u64 hE -> is_u32 hO -> is_u64 seq ->
  (length kvs < fuel)%nat ->
  exists s' e o t it, build_table sched s kvs hE hO seq = Ok (s', (e, o)) /\ sc_inv m s' /\
    OpenTable s' e o = Ok t /\ LastSeq t = seq /\ t_VpExtentID t = hE /\ t_VpOffset t = hO /\
    (forall p, head kvs = Some p -> smallest t = fst p) /\ (forall p, last kvs = Some p -> biggest t = fst p) /\
    NewIterator s' t rev = Ok (t_IncrRef t, it) /\
    (let! it := t_Rewind s' it in drain (H := table_YIterator s') fuel it) =
      Ok (if rev then reverse (stored_kvs kvs) else stored_kvs kvs).
Proof using H2.
  intros Hs Hin Hu1 Hu2 Hu3 Hf.
  destruct (build_open sched m s kvs hE hO seq Hs Hin Hu1 Hu2 Hu3)
    as (s' & e & o & t & groups & Hb & Hs' & _ & Ho & Ht & Hne & Hkv & Hsm & Hbg & _ & _ & Hseq & Hv1 & Hv2).
  pose proof (sc_inv_le m 0 s' Hs' ltac:(lia)) as Hs0.
  destruct (NewIterator_ok s' Hs0 t groups rev Ht Hne) as (it & Hnew & Hwf & _).
  exists s', e, o, t, it. repeat (split; [done|]).
  unfold walk in Hwf. rewrite Hkv in Hwf.
  apply (scan_ok (H := table_YIterator s') (H0 := table_IteratorLaws s' Hs0) rev it); [done|].
  destruct rev; rewrite ?length_reverse; unfold stored_kvs; by rewrite length_fmap.
Qed.

(** Seek on a reopened table positions the iterator so that what remains is exactly the suffix
    of the pairs not before the key in the direction of the walk. *)
Theorem table_seek sched m s kvs hE hO seq rev key fuel :
  sc_inv (length kvs + (1 + m)) s -> table_input kvs -> is_u64 hE -> is_u32 hO -> is_u64 seq ->
  (length kvs < fuel)%nat -> 8 <= zlen key ->
  exists s' e o t it passed rest, build_table sched s kvs hE hO seq = Ok (s', (e, o)) /\
    OpenTable s' e o = Ok t /\ NewIterator s' t rev = Ok (t_IncrRef t, it) /\
    (let! it := t_Seek s' it key in drain (H := table_YIterator s') fuel it) = Ok rest /\
    (if rev then reverse (stored_kvs kvs) else stored_kvs kvs) = passed ++ rest /\
    Forall (fun p => kdir rev (fst p) key = Lt) passed /\
    Forall (fun p => kdir rev (fst p) key <> Lt) rest.
Proof using H2.
  intros Hs Hin Hu1 Hu2 Hu3 Hf Hk.
  destruct (build_open sched m s kvs hE hO seq Hs Hin Hu1 Hu2 Hu3)
    as (s' & e & o & t & groups & Hb & Hs' & _ & Ho & Ht & Hne & Hkv & _).
  pose proof (sc_inv_le m 0 s' Hs' ltac:(lia)) as Hs0.
  destruct (NewIterator_ok s' Hs0 t groups rev Ht Hne) as (it & Hnew & Hwf & _).
  pose proof (walk_holds s' rev t groups Ht) as Hw. unfold walk in Hwf, Hw. rewrite Hkv in Hwf, Hw.
  set (l := if rev then reverse (stored_kvs kvs) else stored_kvs kvs) in *.
  assert (length l = length kvs) as Hl.
  { unfold l, stored_kvs. destruct rev; rewrite ?length_reverse; by rewrite length_fmap. }
  destruct (seek_list_suffix rev key l) as (passed & Hp & Hlt).
  destruct (ti_Seek s' Hs0 rev it l key Hwf Hk) as (it' & Hseek & Hat).
  exists s', e, o, t, it, passed, (seek_list rev key l). repeat (split; [done|]).
  split; [|split; [done|split; [done|by apply seek_list_ge]]].
  rewrite Hseek. cbn [obind].
  apply (drain_ok (H := table_YIterator s') (H0 := table_IteratorLaws s' Hs0) rev l); [done|].
  rewrite Hp, length_app in Hl. lia.
Qed.

(** The Bloom filter stored in a table never claims that a key of the table is absent. *)
Theorem table_no_false_negative sched m s kvs hE hO seq k v :
  sc_inv (length kvs + (1 + m)) s -> table_input kvs -> is_u64 hE -> is_u32 hO -> is_u64 seq ->
  (k, v) ∈ kvs ->
  exists s' e o t, build_table sched s kvs hE hO seq = Ok (s', (e, o)) /\
    OpenTable s' e o = Ok t /\ DoesNotHave t (fp (ukey k)) = false.
Proof using H2.
  intros Hs Hin Hu1 Hu2 Hu3 Hkv.
  destruct (build_open sched m s kvs hE hO seq Hs Hin Hu1 Hu2 Hu3)
    as (s' & e & o & t & groups & Hb & Hs' & _ & Ho & _ & _ & _ & _ & _ & Hbf & _).
  exists s', e, o, t. split; [done|]. split; [done|]. apply (Hbf _ Hkv).
Qed.
End Life.
