(* ===== verification/Merge.v ===== *)
(** Package rangepartition/table, merge_iterator.go: the merge of sorted
    iterators, as a tree of two-way merges over any iterators that keep the
    promises of [IteratorLaws]. Of equal keys the leftmost iterator's wins. *)
From Stdlib Require Import ZArith Lia.
From stdpp Require Import base option list numbers sorting strings.
From S2P Require Import Prelude GoLib Utils Proto Keys YIter.

Inductive side := onLeft | onRight.

Section Merge.
Context {I : Type} `{YIterator I}.

(** a [y.Iterator]: one of the base iterators or a [*MergeIterator]; its
    [small] pointer is the side it points to *)
Inductive yiter :=
  | Leaf (i : I)
  | MergeIt (left right : node) (small : side) (curKey : bytes) (reverse : bool)
with node := mkNode (valid : bool) (key : bytes) (iter : yiter).

Definition n_valid (n : node) : bool := let '(mkNode v _ _) := n in v.
Definition n_key (n : node) : bytes := let '(mkNode _ k _) := n in k.
Definition n_iter (n : node) : yiter := let '(mkNode _ _ it) := n in it.
Definition pick (l r : node) (small : side) : node := match small with onLeft => l | onRight => r end.
Definition swapSmall (small : side) : side := match small with onLeft => onRight | onRight => onLeft end.
Definition bigger (l r : node) (small : side) : node := pick l r (swapSmall small).

Definition yi_Valid (t : yiter) : bool :=
  match t with Leaf i => y_Valid i | MergeIt l r sm _ _ => n_valid (pick l r sm) end.
Definition yi_Key (t : yiter) : outcome bytes :=
  match t with Leaf i => y_Key i | MergeIt l r sm _ _ => Ok (n_key (pick l r sm)) end.
Fixpoint yi_Value (t : yiter) : outcome ValueStruct :=
  match t with
  | Leaf i => y_Value i
  | MergeIt (mkNode _ _ l) (mkNode _ _ r) sm _ _ =>
      match sm with onLeft => yi_Value l | onRight => yi_Value r end
  end.

(** [setKey] after the iterator of a node moved to [it] *)
Definition setKey (n : node) (it : yiter) : outcome node :=
  if yi_Valid it then let! k := yi_Key it in Ok (mkNode true k it)
  else Ok (mkNode false (n_key n) it).
Definition node_next (nxt : yiter -> outcome yiter) (n : node) : outcome node :=
  let! it := nxt (n_iter n) in setKey n it.

Definition fix_small (nxt : yiter -> outcome yiter) (l r : node) (small : side) (reverse : bool)
    : outcome (node * node * side) :=
  if negb (n_valid (bigger l r small)) then Ok (l, r, small) else
  if negb (n_valid (pick l r small)) then Ok (l, r, swapSmall small) else
  let! cmp := CompareKeys (n_key (pick l r small)) (n_key (bigger l r small)) in
  match cmp with
  | Eq => let! r := node_next nxt r in
          Ok (l, r, match small with onRight => swapSmall small | onLeft => small end)
  | Lt => Ok (l, r, if reverse then swapSmall small else small)
  | Gt => Ok (l, r, if reverse then small else swapSmall small)
  end.

Definition setCurrent (l r : node) (small : side) (reverse : bool) : yiter :=
  MergeIt l r small (n_key (pick l r small)) reverse.

(** [Next]: the loop goes round with the same [curKey] *)
Fixpoint yi_Next (fuel : nat) (t : yiter) : outcome yiter :=
  match fuel with
  | O => Panic
  | S fuel =>
      match t with
      | Leaf i => let! i := y_Next i in Ok (Leaf i)
      | MergeIt l r small curKey reverse =>
          if n_valid (pick l r small) && bool_decide (n_key (pick l r small) = curKey) then
            let! n := node_next (yi_Next fuel) (pick l r small) in
            let '(l, r) := match small with onLeft => (n, r) | onRight => (l, n) end in
            let! (l, r, small) := fix_small (yi_Next fuel) l r small reverse in
            yi_Next fuel (MergeIt l r small curKey reverse)
          else Ok (setCurrent l r small reverse)
      end
  end.

Section Fuel.
Variable fuel : nat.

Fixpoint yi_Rewind (t : yiter) : outcome yiter :=
  match t with
  | Leaf i => let! i := y_Rewind i in Ok (Leaf i)
  | MergeIt (mkNode lv lk li) (mkNode rv rk ri) small _ reverse =>
      let! li := yi_Rewind li in
      let! l := setKey (mkNode lv lk li) li in
      let! ri := yi_Rewind ri in
      let! r := setKey (mkNode rv rk ri) ri in
      let! (l, r, small) := fix_small (yi_Next fuel) l r small reverse in
      Ok (setCurrent l r small reverse)
  end.
Fixpoint yi_Seek (t : yiter) (key : bytes) : outcome yiter :=
  match t with
  | Leaf i => let! i := y_Seek i key in Ok (Leaf i)
  | MergeIt (mkNode lv lk li) (mkNode rv rk ri) small _ reverse =>
      let! li := yi_Seek li key in
      let! l := setKey (mkNode lv lk li) li in
      let! ri := yi_Seek ri key in
      let! r := setKey (mkNode rv rk ri) ri in
      let! (l, r, small) := fix_small (yi_Next fuel) l r small reverse in
      Ok (setCurrent l r small reverse)
  end.

#[local] Instance merge_YIterator : YIterator yiter := {
  y_Next := yi_Next fuel; y_Rewind := yi_Rewind; y_Seek := yi_Seek;
  y_Key := yi_Key; y_Value := yi_Value; y_Valid := yi_Valid }.
End Fuel.

(** nil for no iterators; [fuel] bounds the depth of the halving *)
Fixpoint NewMergeIterator (fuel : nat) (iters : list yiter) (reverse : bool) : option yiter :=
  match iters with
  | [] => None
  | [it] => Some it
  | [a; b] => Some (MergeIt (mkNode false [] a) (mkNode false [] b) onLeft [] reverse)
  | _ =>
      match fuel with
      | O => None
      | S fuel =>
          let mid := (length iters / 2)%nat in
          match NewMergeIterator fuel (take mid iters) reverse, NewMergeIterator fuel (drop mid iters) reverse with
          | Some a, Some b => Some (MergeIt (mkNode false [] a) (mkNode false [] b) onLeft [] reverse)
          | _, _ => None
          end
      end
  end.
End Merge.

(** ** The merge of two walks *)

Fixpoint merge2 (rev : bool) (l1 : list kv) : list kv -> list kv :=
  match l1 with
  | [] => fun l2 => l2
  | a :: l1' =>
      fix go (l2 : list kv) :=
        match l2 with
        | [] => a :: l1'
        | b :: l2' =>
            match kdir rev (fst a) (fst b) with
            | Lt => a :: merge2 rev l1' l2
            | Eq => a :: merge2 rev l1' l2'
            | Gt => b :: go l2'
            end
        end
  end.

Lemma merge2_cons rev a l1 b l2 : merge2 rev (a :: l1) (b :: l2) =
  match kdir rev (fst a) (fst b) with
  | Lt => a :: merge2 rev l1 (b :: l2)
  | Eq => a :: merge2 rev l1 l2
  | Gt => b :: merge2 rev (a :: l1) l2
  end.
Proof. done. Qed.
Lemma merge2_nil_r rev l : merge2 rev l [] = l.
Proof. by destruct l. Qed.
Lemma merge2_nil_l rev l : merge2 rev [] l = l.
Proof. done. Qed.
#[global] Arguments merge2 : simpl never.

Lemma kdir_lt_le_trans r a b c : kdir r a b = Lt -> kdir r b c <> Gt -> kdir r a c = Lt.
Proof.
  intros Hab Hbc. destruct (kdir r b c) eqn:E; [apply kdir_eq in E as <-; done| |done].
  by apply (kdir_trans r a b c).
Qed.

Lemma kv_lt_trans r a b c : kv_lt r a b -> kv_lt r b c -> kv_lt r a c.
Proof. apply kdir_trans. Qed.
Lemma Forall_lt_trans r a b l : kv_lt r a b -> Forall (kv_lt r b) l -> Forall (kv_lt r a) l.
Proof. intros Hab Hf. eapply Forall_impl; [exact Hf|]. intros c. by apply kv_lt_trans. Qed.

(** a pair before both walks is before their merge *)
Lemma merge2_Forall rev (P : kv -> Prop) l1 : forall l2, Forall P l1 -> Forall P l2 -> Forall P (merge2 rev l1 l2).
Proof.
  induction l1 as [|a l1 IH1]; intros l2 H1; [done|]. pose proof H1 as [Ha H1']%Forall_cons.
  induction l2 as [|b l2 IH2]; intros H2; [done|]. pose proof H2 as [Hb H2']%Forall_cons.
  rewrite merge2_cons. destruct (kdir rev (fst a) (fst b)); constructor; auto.
Qed.

Lemma merge2_sorted rev l1 : forall l2, StronglySorted (kv_lt rev) l1 -> StronglySorted (kv_lt rev) l2 ->
  StronglySorted (kv_lt rev) (merge2 rev l1 l2).
Proof.
  induction l1 as [|a l1 IH1]; intros l2 H1; [done|].
  induction l2 as [|b l2 IH2]; intros H2; [done|].
  pose proof H1 as [Ha H1']%StronglySorted_cons. pose proof H2 as [Hb H2']%StronglySorted_cons.
  rewrite merge2_cons. destruct (kdir rev (fst a) (fst b)) eqn:E; constructor; auto.
  - apply merge2_Forall; [done|]. apply kdir_eq in E. eapply Forall_impl; [exact Hb|].
    intros c. unfold kv_lt. by rewrite E.
  - apply merge2_Forall; [done|]. constructor; [done|]. by apply (Forall_lt_trans rev a b).
  - apply kdir_gt in E. apply merge2_Forall; [|done]. constructor; [done|]. by apply (Forall_lt_trans rev b a).
Qed.
Lemma merge2_walk rev l1 l2 : walk_ok rev l1 -> walk_ok rev l2 -> walk_ok rev (merge2 rev l1 l2).
Proof. intros [H1 K1] [H2 K2]. split; [by apply merge2_sorted|by apply merge2_Forall]. Qed.

(** the head of a merge, by which walk's head comes first *)
Lemma merge2_left rev a l1 l2 : Forall (kv_lt rev a) l2 -> merge2 rev (a :: l1) l2 = a :: merge2 rev l1 l2.
Proof.
  destruct l2 as [|b l2]; intros Hf; [by rewrite !merge2_nil_r|]. apply Forall_cons in Hf as [Hb _].
  rewrite merge2_cons. unfold kv_lt in Hb. by rewrite Hb.
Qed.
Lemma merge2_right rev b l1 l2 : Forall (kv_lt rev b) l1 -> merge2 rev l1 (b :: l2) = b :: merge2 rev l1 l2.
Proof.
  destruct l1 as [|a l1]; intros Hf; [done|]. apply Forall_cons in Hf as [Ha _].
  rewrite merge2_cons. apply kdir_gt in Ha. by rewrite Ha.
Qed.

(** seeking commutes with merging *)
Lemma seek_merge2 rev key l1 : forall l2, walk_ok rev l1 -> walk_ok rev l2 ->
  seek_list rev key (merge2 rev l1 l2) = merge2 rev (seek_list rev key l1) (seek_list rev key l2).
Proof.
  induction l1 as [|a l1 IH1]; intros l2 H1; [done|].
  induction l2 as [|b l2 IH2]; intros H2; [by rewrite !merge2_nil_r|].
  pose proof (walk_cons _ _ _ H1) as [Ha H1']. pose proof (walk_cons _ _ _ H2) as [Hb H2'].
  rewrite merge2_cons. destruct (kdir rev (fst a) (fst b)) eqn:E.
  - apply kdir_eq in E. cbn [seek_list]. rewrite <- E. destruct (kdir rev (fst a) key) eqn:Ek; [|by apply IH1|];
      rewrite merge2_cons, (proj2 (kdir_eq rev (fst a) (fst b)) E); done.
  - change (seek_list rev key (a :: merge2 rev l1 (b :: l2))) with
      (match kdir rev (fst a) key with Lt => seek_list rev key (merge2 rev l1 (b :: l2)) | _ => a :: merge2 rev l1 (b :: l2) end).
    change (seek_list rev key (a :: l1)) with (match kdir rev (fst a) key with Lt => seek_list rev key l1 | _ => a :: l1 end).
    destruct (kdir rev (fst a) key) eqn:Ek; [|by apply IH1|].
    + assert (kdir rev (fst b) key <> Lt) as Hbk.
      { apply kdir_eq in Ek. rewrite <- Ek. rewrite (kdir_antisym rev (fst a)), E. done. }
      cbn [seek_list]. destruct (kdir rev (fst b) key) eqn:Eb; try done; by rewrite merge2_cons, E.
    + assert (kdir rev (fst b) key <> Lt) as Hbk.
      { intros Hlt. pose proof (kdir_trans _ _ _ _ E Hlt). congruence. }
      cbn [seek_list]. destruct (kdir rev (fst b) key) eqn:Eb; try done; by rewrite merge2_cons, E.
  - pose proof (proj1 (kdir_gt _ _ _) E) as E'.
    change (seek_list rev key (b :: merge2 rev (a :: l1) l2)) with
      (match kdir rev (fst b) key with Lt => seek_list rev key (merge2 rev (a :: l1) l2) | _ => b :: merge2 rev (a :: l1) l2 end).
    change (seek_list rev key (b :: l2)) with (match kdir rev (fst b) key with Lt => seek_list rev key l2 | _ => b :: l2 end).
    destruct (kdir rev (fst b) key) eqn:Ek; [|by apply IH2|].
    + assert (kdir rev (fst a) key <> Lt) as Hak.
      { apply kdir_eq in Ek. rewrite <- Ek, E. done. }
      cbn [seek_list]. destruct (kdir rev (fst a) key) eqn:Ea; try done; by rewrite merge2_cons, E.
    + assert (kdir rev (fst a) key <> Lt) as Hak.
      { intros Hlt. pose proof (kdir_trans _ _ _ _ E' Hlt). congruence. }
      cbn [seek_list]. destruct (kdir rev (fst a) key) eqn:Ea; try done; by rewrite merge2_cons, E.
Qed.

(** ** The merge iterator keeps the promises of [IteratorLaws] *)

Inductive mshape := SLeaf | SNode (a b : mshape).
Fixpoint need (sh : mshape) : nat :=
  match sh with SLeaf => 1 | SNode a b => S (S (Nat.max (need a) (need b))) end.

Section MergeSpec.
Context {I : Type} `{IteratorLaws I}.

(** the tree has this mshape and its leaves range over walks *)
Fixpoint yi_wf (sh : mshape) (rev : bool) (t : yiter) (kvs : list kv) : Prop :=
  match sh, t with
  | SLeaf, Leaf i => y_wf rev i kvs
  | SNode a b, MergeIt l r _ _ reverse =>
      reverse = rev /\ exists kl kr, yi_wf a rev (n_iter l) kl /\ yi_wf b rev (n_iter r) kr /\ kvs = merge2 rev kl kr
  | _, _ => False
  end.

(** which side a fixed merge points to *)
Definition small_ok (rev : bool) (small : side) (rl rr : list kv) : Prop :=
  match rl, rr with
  | [], [] => True
  | _ :: _, [] => small = onLeft
  | [], _ :: _ => small = onRight
  | a :: _, b :: _ => (kdir rev (fst a) (fst b) = Lt /\ small = onLeft) \/
                      (kdir rev (fst a) (fst b) = Gt /\ small = onRight)
  end.
(** [setKey] was run *)
Definition mnode_ok (n : node (I := I)) (rest : list kv) : Prop :=
  match rest with [] => n_valid n = false | p :: _ => n_valid n = true /\ n_key n = fst p end.

Fixpoint yi_at (sh : mshape) (rev : bool) (t : yiter) (kvs rest : list kv) : Prop :=
  match sh, t with
  | SLeaf, Leaf i => y_at rev i kvs rest
  | SNode a b, MergeIt l r small curKey reverse =>
      reverse = rev /\ exists kl kr rl rr,
        yi_at a rev (n_iter l) kl rl /\ yi_at b rev (n_iter r) kr rr /\
        mnode_ok l rl /\ mnode_ok r rr /\ kvs = merge2 rev kl kr /\ rest = merge2 rev rl rr /\
        small_ok rev small rl rr /\ (rest <> [] -> curKey = n_key (pick l r small))
  | _, _ => False
  end.

Lemma yi_at_wf sh rev : forall t kvs rest, yi_at sh rev t kvs rest -> yi_wf sh rev t kvs.
Proof.
  induction sh as [|a IHa b IHb]; intros [i|l r sm ck rv] kvs rest Hat; try done; cbn in *.
  - by eapply y_at_wf.
  - destruct Hat as (-> & kl & kr & rl & rr & Hl & Hr & _ & _ & -> & _). split; [done|]. eauto 10.
Qed.
Lemma yi_wf_walk sh rev : forall t kvs, yi_wf sh rev t kvs -> walk_ok rev kvs.
Proof.
  induction sh as [|a IHa b IHb]; intros [i|l r sm ck rv] kvs Hw; try done; cbn in *.
  - by eapply y_wf_walk.
  - destruct Hw as (-> & kl & kr & Hl & Hr & ->). apply merge2_walk; eauto.
Qed.
Lemma yi_at_walk sh rev : forall t kvs rest, yi_at sh rev t kvs rest -> walk_ok rev rest.
Proof.
  induction sh as [|a IHa b IHb]; intros [i|l r sm ck rv] kvs rest Hat; try done; cbn in *.
  - by eapply y_at_walk.
  - destruct Hat as (-> & kl & kr & rl & rr & Hl & Hr & _ & _ & _ & -> & _). apply merge2_walk; eauto.
Qed.

(** the head of the merge is at the small side *)
Lemma small_pick rev l r small rl rr : small_ok rev small rl rr -> mnode_ok l rl -> mnode_ok r rr ->
  walk_ok rev rl -> walk_ok rev rr ->
  match merge2 rev rl rr with
  | [] => n_valid (pick l r small) = false
  | p :: rest => n_valid (pick l r small) = true /\ n_key (pick l r small) = fst p /\
      match small with
      | onLeft => exists rl', rl = p :: rl' /\ rest = merge2 rev rl' rr /\ Forall (kv_lt rev p) rr
      | onRight => exists rr', rr = p :: rr' /\ rest = merge2 rev rl rr' /\ Forall (kv_lt rev p) rl
      end
  end.
Proof.
  intros Hsm Hl Hr Wl Wr. destruct rl as [|a rl], rr as [|b rr]; cbn [small_ok] in Hsm.
  - rewrite merge2_nil_l. by destruct small.
  - subst small. rewrite merge2_nil_l. destruct Hr as [Hv Hk]. split; [done|]. split; [done|]. by exists rr.
  - subst small. rewrite merge2_nil_r. destruct Hl as [Hv Hk]. split; [done|]. split; [done|]. exists rl.
    by rewrite merge2_nil_r.
  - apply walk_cons in Wl as [Fl _]. apply walk_cons in Wr as [Fr _]. destruct Hl as [Hv Hk], Hr as [Hv' Hk'].
    rewrite merge2_cons. destruct Hsm as [[E ->]|[E ->]]; rewrite E.
    + split; [done|]. split; [done|]. exists rl. split; [done|]. split; [done|].
      constructor; [done|]. by apply (Forall_lt_trans rev a b).
    + apply kdir_gt in E. split; [done|]. split; [done|]. exists rr. split; [done|]. split; [done|].
      constructor; [done|]. by apply (Forall_lt_trans rev b a).
Qed.

Lemma yi_Valid_ok sh rev t kvs rest : yi_at sh rev t kvs rest ->
  yi_Valid t = match rest with [] => false | _ => true end.
Proof.
  destruct sh as [|a b], t as [i|l r sm ck rv]; intros Hat; try done; cbn in *.
  - by eapply y_Valid_ok.
  - destruct Hat as (-> & kl & kr & rl & rr & Hl & Hr & Nl & Nr & _ & -> & Hsm & _).
    pose proof (small_pick rev l r sm rl rr Hsm Nl Nr (yi_at_walk _ _ _ _ _ Hl) (yi_at_walk _ _ _ _ _ Hr)) as Hp.
    destruct (merge2 rev rl rr); [done|apply Hp].
Qed.
Lemma yi_Key_ok sh rev t kvs p rest : yi_at sh rev t kvs (p :: rest) -> yi_Key t = Ok (fst p).
Proof.
  destruct sh as [|a b], t as [i|l r sm ck rv]; intros Hat; try done; cbn in *.
  - destruct p as [k v]. by apply (y_item_ok _ _ _ _ _ _ Hat).
  - destruct Hat as (-> & kl & kr & rl & rr & Hl & Hr & Nl & Nr & _ & E & Hsm & _).
    pose proof (small_pick rev l r sm rl rr Hsm Nl Nr (yi_at_walk _ _ _ _ _ Hl) (yi_at_walk _ _ _ _ _ Hr)) as Hp.
    rewrite <- E in Hp. by destruct Hp as (_ & -> & _).
Qed.
Lemma yi_Value_ok sh rev : forall t kvs p rest, yi_at sh rev t kvs (p :: rest) -> yi_Value t = Ok (snd p).
Proof.
  induction sh as [|a IHa b IHb]; intros [i|l r sm ck rv] kvs p rest Hat; try done; cbn in *.
  - destruct p as [k v]. by apply (y_item_ok _ _ _ _ _ _ Hat).
  - destruct Hat as (-> & kl & kr & rl & rr & Hl & Hr & Nl & Nr & _ & E & Hsm & _).
    pose proof (small_pick rev l r sm rl rr Hsm Nl Nr (yi_at_walk _ _ _ _ _ Hl) (yi_at_walk _ _ _ _ _ Hr)) as Hp.
    rewrite <- E in Hp. destruct Hp as (_ & _ & Hp). destruct l as [lv lk li], r as [vr rk ri].
    destruct sm; destruct Hp as (x & -> & _ & _); [by eapply IHa|by eapply IHb].
Qed.

(** a node after its iterator moved *)
Lemma setKey_ok sh rev n it kvs rest : yi_at sh rev it kvs rest ->
  exists n', setKey n it = Ok n' /\ n_iter n' = it /\ mnode_ok n' rest.
Proof.
  intros Hat. unfold setKey. rewrite (yi_Valid_ok _ _ _ _ _ Hat). destruct rest as [|p rest].
  - eexists. done.
  - rewrite (yi_Key_ok _ _ _ _ _ _ Hat). cbn [obind]. eexists. done.
Qed.

Definition next_ok_at (sh : mshape) (rev : bool) : Prop :=
  forall fuel t kvs p rest, (need sh <= fuel)%nat -> yi_at sh rev t kvs (p :: rest) ->
    exists t', yi_Next fuel t = Ok t' /\ yi_at sh rev t' kvs rest.

Lemma node_next_ok sh rev fuel n kvs p rest : next_ok_at sh rev -> (need sh <= fuel)%nat ->
  yi_at sh rev (n_iter n) kvs (p :: rest) ->
  exists n', node_next (yi_Next fuel) n = Ok n' /\ yi_at sh rev (n_iter n') kvs rest /\ mnode_ok n' rest.
Proof.
  intros Hn Hf Hat. destruct (Hn fuel (n_iter n) kvs p rest Hf Hat) as (it & Hit & Hat').
  unfold node_next. rewrite Hit. cbn [obind]. destruct (setKey_ok sh rev n it kvs rest Hat') as (n' & -> & Hi & Hok).
  exists n'. rewrite Hi. done.
Qed.

(** [fix] points [small] at the right side and drops a shadowed pair *)
Lemma fix_small_ok a b rev fuel l r small kl kr rl rr : next_ok_at b rev -> (need b <= fuel)%nat ->
  yi_at a rev (n_iter l) kl rl -> yi_at b rev (n_iter r) kr rr -> mnode_ok l rl -> mnode_ok r rr ->
  exists r' small' rr', fix_small (yi_Next fuel) l r small rev = Ok (l, r', small') /\
    yi_at b rev (n_iter r') kr rr' /\ mnode_ok r' rr' /\ merge2 rev rl rr' = merge2 rev rl rr /\
    small_ok rev small' rl rr'.
Proof.
  intros Hn Hf Hl Hr Nl Nr. pose proof (yi_at_walk _ _ _ _ _ Hl) as Wl. pose proof (yi_at_walk _ _ _ _ _ Hr) as Wr.
  unfold fix_small, bigger. destruct rl as [|p rl], rr as [|q rr].
  - exists r, small, []. split; [|done]. destruct small; cbn [pick swapSmall]; [by rewrite Nr|by rewrite Nl].
  - destruct Nr as [Vr Kr]. exists r, onRight, (q :: rr). split; [|done].
    destruct small; cbn [pick swapSmall]; [by rewrite Vr, Nl|by rewrite Nl].
  - destruct Nl as [Vl Kl]. exists r, onLeft, []. split; [|done].
    destruct small; cbn [pick swapSmall]; [by rewrite Nr|by rewrite Vl, Nr].
  - pose proof Nl as [Vl Kl]. pose proof Nr as [Vr Kr]. pose proof (walk_cons _ _ _ Wl) as [Fl Wl']. pose proof (walk_cons _ _ _ Wr) as [Fr Wr'].
    assert (8 <= zlen (fst p)) by (destruct Wl as [_ [? _]%Forall_cons]; done).
    assert (8 <= zlen (fst q)) by (destruct Wr as [_ [? _]%Forall_cons]; done).
    assert (negb (n_valid (pick l r (swapSmall small))) = false) as -> by (destruct small; cbn; by rewrite ?Vl, ?Vr).
    assert (negb (n_valid (pick l r small)) = false) as -> by (destruct small; cbn; by rewrite ?Vl, ?Vr).
    rewrite CompareKeys_kcmp by (destruct small; cbn; by rewrite ?Kl, ?Kr). cbn [obind].
    set (c := kcmp _ _).
    assert (c = match small with onLeft => kcmp (fst p) (fst q) | onRight => kcmp (fst q) (fst p) end) as Hc.
    { unfold c. destruct small; cbn; by rewrite Kl, Kr. }
    assert (kdir rev (fst p) (fst q) = if rev then CompOpp (kcmp (fst p) (fst q)) else kcmp (fst p) (fst q)) as Hd.
    { destruct rev; [apply kcmp_antisym|done]. }
    assert (kcmp (fst q) (fst p) = CompOpp (kcmp (fst p) (fst q))) as Ho by apply kcmp_antisym.
    destruct (kcmp (fst p) (fst q)) eqn:E.
    + replace c with Eq by (rewrite Hc; by destruct small; rewrite ?Ho). apply kcmp_eq in E.
      destruct (node_next_ok b rev fuel r kr q rr Hn Hf Hr) as (r' & -> & Hr' & Nr'). cbn [obind].
      exists r', onLeft, rr. split; [by destruct small|]. split; [done|]. split; [done|].
      assert (Forall (kv_lt rev p) rr) as Fp.
      { eapply Forall_impl; [exact Fr|]. intros x. unfold kv_lt. by rewrite E. }
      split; [rewrite merge2_left, merge2_cons, Hd by done; by destruct rev|].
      destruct rr as [|q' rr]; [done|]. apply Forall_cons in Fp as [Hq' _]. left. done.
    + exists r, (if rev then onRight else onLeft), (q :: rr). split.
      { rewrite Hc. destruct small; [|rewrite Ho]; cbn; by destruct rev. }
      split; [done|]. split; [done|]. split; [done|]. cbn [small_ok]. rewrite Hd. destruct rev; cbn; auto.
    + exists r, (if rev then onLeft else onRight), (q :: rr). split.
      { rewrite Hc. destruct small; [|rewrite Ho]; cbn; by destruct rev. }
      split; [done|]. split; [done|]. split; [done|]. cbn [small_ok]. rewrite Hd. destruct rev; cbn; auto.
Qed.

(** a fixed merge with [setCurrent] run is at its position *)
Lemma setCurrent_at a b rev l r small kl kr rl rr :
  yi_at a rev (n_iter l) kl rl -> yi_at b rev (n_iter r) kr rr -> mnode_ok l rl -> mnode_ok r rr ->
  small_ok rev small rl rr ->
  yi_at (SNode a b) rev (setCurrent l r small rev) (merge2 rev kl kr) (merge2 rev rl rr).
Proof. intros Hl Hr Nl Nr Hsm. split; [done|]. exists kl, kr, rl, rr. done. Qed.

(** the loop of [Next] stops when the current key is before what is left *)
Lemma loop_stops a b rev fuel l r small ck kl kr rl rr : (0 < fuel)%nat ->
  yi_at a rev (n_iter l) kl rl -> yi_at b rev (n_iter r) kr rr -> mnode_ok l rl -> mnode_ok r rr ->
  small_ok rev small rl rr -> Forall (fun p => kdir rev ck (fst p) = Lt) (merge2 rev rl rr) ->
  yi_Next fuel (MergeIt l r small ck rev) = Ok (setCurrent l r small rev).
Proof.
  intros Hf Hl Hr Nl Nr Hsm Hck. destruct fuel as [|fuel]; [lia|]. cbn [yi_Next].
  pose proof (small_pick rev l r small rl rr Hsm Nl Nr (yi_at_walk _ _ _ _ _ Hl) (yi_at_walk _ _ _ _ _ Hr)) as Hp.
  destruct (merge2 rev rl rr) as [|p rest]; [by rewrite Hp|]. destruct Hp as (-> & Hk & _).
  apply Forall_cons in Hck as [Hlt _]. rewrite bool_decide_false; [done|].
  rewrite Hk. intros <-. by rewrite kdir_refl in Hlt.
Qed.

Lemma yi_Next_ok sh rev : next_ok_at sh rev.
Proof.
  induction sh as [|a IHa b IHb]; intros fuel t kvs p rest Hf Hat.
  - destruct t as [i|]; [|done]. destruct fuel as [|fuel]; [cbn in Hf; lia|]. destruct p as [k v]. cbn in Hat.
    destruct (y_item_ok _ _ _ _ _ _ Hat) as (_ & _ & i' & Hn & Hat'). cbn [yi_Next]. rewrite Hn.
    by exists (Leaf i').
  - destruct t as [|l r small ck rv]; [done|]. cbn [need] in Hf. destruct fuel as [|fuel]; [lia|].
    destruct Hat as (-> & kl & kr & rl & rr & Hl & Hr & Nl & Nr & -> & E & Hsm & Hck).
    pose proof (yi_at_walk _ _ _ _ _ Hl) as Wl. pose proof (yi_at_walk _ _ _ _ _ Hr) as Wr.
    pose proof (small_pick rev l r small rl rr Hsm Nl Nr Wl Wr) as Hp. rewrite <- E in Hp.
    destruct Hp as (Hv & Hk & Hp).
    assert (Forall (fun x => kdir rev ck (fst x) = Lt) rest) as Hafter.
    { pose proof (merge2_walk rev rl rr Wl Wr) as Hw. rewrite <- E in Hw. apply walk_cons in Hw as [Hw _].
      rewrite Hck, Hk by done. exact Hw. }
    cbn [yi_Next]. rewrite Hv, bool_decide_true by (symmetry; by apply Hck). cbn [andb].
    destruct small; cbn [pick].
    + destruct Hp as (rl' & -> & -> & Hlt).
      destruct (node_next_ok a rev fuel l kl p rl' IHa ltac:(lia) Hl) as (l' & -> & Hl' & Nl'). cbn [obind].
      destruct (fix_small_ok a b rev fuel l' r onLeft kl kr rl' rr IHb ltac:(lia) Hl' Hr Nl' Nr)
        as (r' & small' & rr' & -> & Hr' & Nr' & Em & Hsm'). cbn [obind]. rewrite <- Em in Hafter |- *.
      exists (setCurrent l' r' small' rev). split; [|by apply setCurrent_at].
      apply (loop_stops a b rev fuel l' r' small' ck kl kr rl' rr'); try done. lia.
    + destruct Hp as (rr1 & -> & -> & Hlt).
      destruct (node_next_ok b rev fuel r kr p rr1 IHb ltac:(lia) Hr) as (r1 & -> & Hr1 & Nr1). cbn [obind].
      destruct (fix_small_ok a b rev fuel l r1 onRight kl kr rl rr1 IHb ltac:(lia) Hl Hr1 Nl Nr1)
        as (r' & small' & rr' & -> & Hr' & Nr' & Em & Hsm'). cbn [obind]. rewrite <- Em in Hafter |- *.
      exists (setCurrent l r' small' rev). split; [|by apply setCurrent_at].
      apply (loop_stops a b rev fuel l r' small' ck kl kr rl rr'); try done. lia.
Qed.

(** both children positioned, then [fix] and [setCurrent] *)
Lemma position_ok a b rev fuel nl nr li ri small kl kr rl rr : (need b <= fuel)%nat ->
  yi_at a rev li kl rl -> yi_at b rev ri kr rr ->
  exists t, (let! l := setKey nl li in
             let! r := setKey nr ri in
             let! (l, r, small) := fix_small (yi_Next fuel) l r small rev in
             Ok (setCurrent l r small rev)) = Ok t /\
    yi_at (SNode a b) rev t (merge2 rev kl kr) (merge2 rev rl rr).
Proof.
  intros Hf Hl Hr. destruct (setKey_ok a rev nl li kl rl Hl) as (l & -> & <- & Nl). cbn [obind].
  destruct (setKey_ok b rev nr ri kr rr Hr) as (r & -> & <- & Nr). cbn [obind].
  destruct (fix_small_ok a b rev fuel l r small kl kr rl rr (yi_Next_ok b rev) Hf Hl Hr Nl Nr)
    as (r' & small' & rr' & -> & Hr' & Nr' & <- & Hsm'). cbn [obind].
  eexists. split; [done|]. by apply setCurrent_at.
Qed.

Lemma yi_Rewind_ok fuel sh rev : forall t kvs, (need sh <= fuel)%nat -> yi_wf sh rev t kvs ->
  exists t', yi_Rewind fuel t = Ok t' /\ yi_at sh rev t' kvs kvs.
Proof.
  induction sh as [|a IHa b IHb]; intros [i|[lv lk li] [vr rk ri] small ck rv] kvs Hf Hw; try done; cbn in Hw.
  - destruct (y_Rewind_ok _ _ _ Hw) as (i' & Hi & Hat). cbn. rewrite Hi. by exists (Leaf i').
  - destruct Hw as (-> & kl & kr & Hl & Hr & ->). cbn [need] in Hf.
    destruct (IHa li kl ltac:(lia) Hl) as (li' & Hli & Hla). destruct (IHb ri kr ltac:(lia) Hr) as (ri' & Hri & Hra).
    cbn [yi_Rewind]. rewrite Hli. cbn [obind]. rewrite Hri. 
    destruct (position_ok a b rev fuel (mkNode lv lk li') (mkNode vr rk ri') li' ri' small kl kr kl kr ltac:(lia) Hla Hra) as (t & Ht & Hat).
    destruct (setKey (mkNode lv lk li') li') as [l'| |]; try done. cbn [obind] in *.
    exists t. done.
Qed.

Lemma yi_Seek_ok fuel sh rev key : forall t kvs, 8 <= zlen key -> (need sh <= fuel)%nat -> yi_wf sh rev t kvs ->
  exists t', yi_Seek fuel t key = Ok t' /\ yi_at sh rev t' kvs (seek_list rev key kvs).
Proof.
  induction sh as [|a IHa b IHb]; intros [i|[lv lk li] [vr rk ri] small ck rv] kvs Hk Hf Hw; try done; cbn in Hw.
  - destruct (y_Seek_ok _ _ _ key Hw Hk) as (i' & Hi & Hat). cbn. rewrite Hi. by exists (Leaf i').
  - destruct Hw as (-> & kl & kr & Hl & Hr & ->). cbn [need] in Hf.
    destruct (IHa li kl Hk ltac:(lia) Hl) as (li' & Hli & Hla). destruct (IHb ri kr Hk ltac:(lia) Hr) as (ri' & Hri & Hra).
    cbn [yi_Seek]. rewrite Hli. cbn [obind]. rewrite Hri.
    rewrite seek_merge2 by (eapply yi_wf_walk; done).
    destruct (position_ok a b rev fuel (mkNode lv lk li') (mkNode vr rk ri') li' ri' small kl kr _ _ ltac:(lia) Hla Hra) as (t & Ht & Hat).
    destruct (setKey (mkNode lv lk li') li') as [l'| |]; try done. cbn [obind] in *.
    exists t. done.
Qed.

(** merges nest: a merge of merges is again an iterator of the interface *)
#[local] Program Instance merge_IteratorLaws (fuel : nat) : IteratorLaws yiter (H := merge_YIterator fuel) := {
  y_wf := fun rev t kvs => exists sh, (need sh <= fuel)%nat /\ yi_wf sh rev t kvs;
  y_at := fun rev t kvs rest => exists sh, (need sh <= fuel)%nat /\ yi_at sh rev t kvs rest }.
Next Obligation. intros fuel r t kvs rest (sh & Hf & Hat). exists sh. split; [done|]. by eapply yi_at_wf. Qed.
Next Obligation. intros fuel r t kvs (sh & Hf & Hw). by eapply yi_wf_walk. Qed.
Next Obligation. intros fuel r t kvs rest (sh & Hf & Hat). by eapply yi_at_walk. Qed.
Next Obligation.
  intros fuel r t kvs (sh & Hf & Hw). destruct (yi_Rewind_ok fuel sh r t kvs Hf Hw) as (t' & ? & ?). eauto.
Qed.
Next Obligation.
  intros fuel r t kvs key (sh & Hf & Hw) Hk. destruct (yi_Seek_ok fuel sh r key t kvs Hk Hf Hw) as (t' & ? & ?). eauto.
Qed.
Next Obligation. intros fuel r t kvs rest (sh & Hf & Hat). by eapply yi_Valid_ok. Qed.
Next Obligation.
  intros fuel r t kvs k v rest (sh & Hf & Hat). split; [by eapply (yi_Key_ok sh r t kvs (k, v))|].
  split; [by eapply (yi_Value_ok sh r t kvs (k, v))|].
  destruct (yi_Next_ok sh r fuel t kvs (k, v) rest Hf Hat) as (t' & ? & ?). eauto.
Qed.
End MergeSpec.

(** ** Merging many iterators *)

Fixpoint kv_lookup (k : bytes) (l : list kv) : option ValueStruct :=
  match l with
  | [] => None
  | p :: l => if decide (fst p = k) then Some (snd p) else kv_lookup k l
  end.
(** the value of the leftmost walk that has the key *)
Fixpoint first_lookup (k : bytes) (ls : list (list kv)) : option ValueStruct :=
  match ls with
  | [] => None
  | l :: ls => match kv_lookup k l with Some v => Some v | None => first_lookup k ls end
  end.

Lemma kv_lookup_after rev p l : Forall (kv_lt rev p) l -> kv_lookup (fst p) l = None.
Proof.
  induction 1 as [|q l Hq Hl IH]; cbn; [done|]. rewrite decide_False; [done|].
  intros E. unfold kv_lt in Hq. rewrite E, kdir_refl in Hq. done.
Qed.

Lemma merge2_lookup rev k l1 : forall l2, walk_ok rev l1 -> walk_ok rev l2 ->
  kv_lookup k (merge2 rev l1 l2) = match kv_lookup k l1 with Some v => Some v | None => kv_lookup k l2 end.
Proof.
  induction l1 as [|a l1 IH1]; intros l2 H1; [done|].
  induction l2 as [|b l2 IH2]; intros H2; [rewrite merge2_nil_r; by destruct (kv_lookup k (a :: l1))|].
  pose proof (walk_cons _ _ _ H1) as [Ha H1']. pose proof (walk_cons _ _ _ H2) as [Hb H2'].
  rewrite merge2_cons. destruct (kdir rev (fst a) (fst b)) eqn:E.
  - apply kdir_eq in E. cbn [kv_lookup]. rewrite <- E. case_decide; [done|]. by apply IH1.
  - cbn [kv_lookup]. case_decide; [done|]. rewrite IH1 by done. done.
  - apply kdir_gt in E. change (kv_lookup k (b :: merge2 rev (a :: l1) l2))
      with (if decide (fst b = k) then Some (snd b) else kv_lookup k (merge2 rev (a :: l1) l2)).
    rewrite IH2 by done. change (kv_lookup k (b :: l2)) with (if decide (fst b = k) then Some (snd b) else kv_lookup k l2).
    destruct (decide (fst b = k)) as [<-|]; [|done].
    rewrite (kv_lookup_after rev b (a :: l1)); [done|]. constructor; [done|]. by apply (Forall_lt_trans rev b a).
Qed.

Lemma first_lookup_app k ls1 ls2 : first_lookup k (ls1 ++ ls2) =
  match first_lookup k ls1 with Some v => Some v | None => first_lookup k ls2 end.
Proof. induction ls1 as [|l ls1 IH]; cbn; [done|]. by destruct (kv_lookup k l). Qed.

Section MergeMany.
Context {I : Type} `{IteratorLaws I}.

(** [t] ranges over the merge of the walks [kvss] *)
Definition merges (n : nat) (rev : bool) (t : yiter) (kvss : list (list kv)) : Prop :=
  exists sh m, (need sh <= n)%nat /\ yi_wf sh rev t m /\ (forall k, kv_lookup k m = first_lookup k kvss) /\
    (length m <= length (mjoin kvss))%nat.

Lemma length_merge2 rev l1 : forall l2, (length (merge2 rev l1 l2) <= length l1 + length l2)%nat.
Proof.
  induction l1 as [|a l1 IH1]; intros l2; [done|]. induction l2 as [|b l2 IH2]; [rewrite merge2_nil_r; lia|].
  rewrite merge2_cons. destruct (kdir rev (fst a) (fst b)); cbn [length].
  - specialize (IH1 l2). lia.
  - specialize (IH1 (b :: l2)). cbn [length] in IH1. lia.
  - cbn [length] in IH2. lia.
Qed.

Lemma merges_two n rev a b ka kb : merges n rev a ka -> merges n rev b kb ->
  merges (S (S n)) rev (MergeIt (mkNode false [] a) (mkNode false [] b) onLeft [] rev) (ka ++ kb).
Proof.
  intros (sa & ma & Na & Wa & La & Za) (sb & mb & Nb & Wb & Lb & Zb).
  exists (SNode sa sb), (merge2 rev ma mb). split; [cbn; lia|]. split; [|split].
  - split; [done|]. exists ma, mb. done.
  - intros k. rewrite merge2_lookup by (eapply yi_wf_walk; done). by rewrite La, Lb, first_lookup_app.
  - pose proof (length_merge2 rev ma mb). rewrite join_app, length_app. lia.
Qed.
Lemma merges_mono n m rev t kvss : (n <= m)%nat -> merges n rev t kvss -> merges m rev t kvss.
Proof. intros Hle (sh & l & Hn & Hr). exists sh, l. split; [lia|done]. Qed.

Lemma merges_leaf rev i kvs : y_wf rev i kvs -> merges 1 rev (Leaf i) [kvs].
Proof.
  intros Hw. exists SLeaf, kvs. split; [done|]. split; [done|]. split.
  - intros k. cbn. by destruct (kv_lookup k kvs).
  - cbn. rewrite length_app. lia.
Qed.

Lemma NewMergeIterator_halves fuel (l : list (yiter (I := I))) rev : (3 <= length l)%nat ->
  NewMergeIterator (S fuel) l rev =
    match NewMergeIterator fuel (take (length l / 2) l) rev, NewMergeIterator fuel (drop (length l / 2) l) rev with
    | Some a, Some b => Some (MergeIt (mkNode false [] a) (mkNode false [] b) onLeft [] rev)
    | _, _ => None
    end.
Proof using Type. destruct l as [|x [|y [|z l]]]; intros Hl; cbn in Hl; [lia|lia|lia|done]. Qed.

Lemma NewMergeIterator_merges rev fuel : forall iters kvss, iters <> [] -> (length iters <= fuel)%nat ->
  Forall2 (y_wf rev) iters kvss ->
  exists t, NewMergeIterator fuel (Leaf <$> iters) rev = Some t /\ merges (2 * length iters) rev t kvss.
Proof.
  induction fuel as [|fuel IH]; intros iters kvss Hne Hf Hw; [destruct iters; [done|cbn in Hf; lia]|].
  destruct Hw as [|i1 k1 iters kvss H1 Hw]; [done|].
  destruct Hw as [|i2 k2 iters kvss H2 Hw].
  { exists (Leaf i1). split; [done|]. apply (merges_mono 1); [cbn; lia|]. by apply merges_leaf. }
  destruct Hw as [|i3 k3 iters kvss H3 Hw].
  { eexists. split; [done|]. apply (merges_mono 3); [cbn; lia|].
    by apply (merges_two 1 rev _ _ [k1] [k2]); apply merges_leaf. }
  remember (i1 :: i2 :: i3 :: iters) as its eqn:Ei. remember (k1 :: k2 :: k3 :: kvss) as ks eqn:Ek.
  assert (Forall2 (y_wf rev) its ks) as Hall by (subst; by repeat constructor).
  assert (3 <= length its)%nat as Hlen by (subst its; cbn; lia).
  set (mid := (length its / 2)%nat).
  assert (1 <= mid < length its)%nat as Hmid.
  { unfold mid. split; [apply Nat.div_le_lower_bound; lia|apply Nat.div_lt; lia]. }
  rewrite NewMergeIterator_halves, length_fmap, <- fmap_take, <- fmap_drop by (rewrite length_fmap; done). fold mid.
  destruct (IH (take mid its) (take mid ks)) as (ta & -> & Ha).
  { intros E. apply (f_equal length) in E. rewrite length_take in E. cbn [length] in E. lia. }
  { rewrite length_take. lia. }
  { by apply Forall2_take. }
  destruct (IH (drop mid its) (drop mid ks)) as (tb & -> & Hb).
  { intros E. apply (f_equal length) in E. rewrite length_drop in E. cbn [length] in E. lia. }
  { rewrite length_drop. lia. }
  { by apply Forall2_drop. }
  eexists. split; [done|]. rewrite <- (take_drop mid ks). rewrite length_take in Ha. rewrite length_drop in Hb.
  apply (merges_mono (S (S (2 * (length its - 1))))); [lia|].
  apply merges_two; [eapply merges_mono; [|exact Ha]|eapply merges_mono; [|exact Hb]]; lia.
Qed.

(** C14: The merge tree over any iterators that keep the interface's promises walks one sorted
    duplicate-free list in which every key has the value of the leftmost iterator that has it;
    Rewind and Seek both do, and the recursion terminates with fuel twice the number of iterators.
    *)
Theorem MergeIterator_merges rev iters kvss : iters <> [] -> Forall2 (y_wf rev) iters kvss ->
  exists t m, NewMergeIterator (length iters) (Leaf <$> iters) rev = Some t /\
    walk_ok rev m /\ (forall k, kv_lookup k m = first_lookup k kvss) /\
    forall fuel n key, (2 * length iters <= fuel)%nat -> (length (mjoin kvss) < n)%nat -> 8 <= zlen key ->
      (let! t := yi_Rewind fuel t in drain (H := merge_YIterator fuel) n t) = Ok m /\
      (let! t := yi_Seek fuel t key in drain (H := merge_YIterator fuel) n t) = Ok (seek_list rev key m).
Proof.
  intros Hne Hw. destruct (NewMergeIterator_merges rev (length iters) iters kvss Hne ltac:(lia) Hw)
    as (t & Ht & sh & m & Hn & Hwf & Hl & Hz).
  exists t, m. split; [done|]. split; [by eapply yi_wf_walk|]. split; [done|].
  intros fuel n key Hf Hd Hk. split.
  - destruct (yi_Rewind_ok fuel sh rev t m ltac:(lia) Hwf) as (t' & -> & Hat). cbn [obind].
    apply (drain_ok (H0 := merge_IteratorLaws fuel) rev m m); [|lia]. exists sh. split; [lia|done].
  - destruct (yi_Seek_ok fuel sh rev key t m Hk ltac:(lia) Hwf) as (t' & -> & Hat). cbn [obind].
    apply (drain_ok (H0 := merge_IteratorLaws fuel) rev m); [exists sh; split; [lia|done]|].
    destruct (seek_list_suffix rev key m) as (passed & E & _). apply (f_equal length) in E.
    rewrite length_app in E. lia.
Qed.
End MergeMany.
