(* ===== verification/Node.v ===== *)
(** Package node (node.go, node_service.go): an extent node's extents and its
    RPC handlers, and replication: the primary's [Append] writes its own
    extent and asks the two peers for the same bytes at the same offset. *)
From Stdlib Require Import ZArith Lia.
From stdpp Require Import base option list numbers gmap strings.
From S2P Require Import Prelude GoLib Utils Proto ProtoPs Extent.

(** [extentMap] *)
Abbreviation ExtentNode := (gmap Z Extent).
Definition getExtent (en : ExtentNode) (ID : Z) : option Extent := en !! ID.
Definition setExtent (en : ExtentNode) (ID : Z) (ex : Extent) : ExtentNode := <[ID := ex]> en.

(** the nodes reachable by address, and what the network does to one call *)
Abbreviation Cluster := (gmap string ExtentNode).
Inductive delivery :=
  | Delivered
  | Lost (e : error)      (* the handler never runs *)
  | NoReply (e : error).  (* it runs, the caller gets an error *)

(** ** ReplicateBlocks *)

Definition ReplicateBlocks (en : ExtentNode) (extentID commit : Z) (blocks : list Block)
    (flts : list (fault * fault)) : outcome (ExtentNode * (list Z + error)) :=
  match getExtent en extentID with
  | None => Ok (en, inr (Errorf "no suck extent"))
  | Some ex =>
      let! m := Lock (mutex ex) in
      let! (ex, r) := AppendBlocks (with_lock ex m) blocks (Some commit) flts in
      let! m := Unlock (mutex ex) in
      Ok (<[extentID := with_lock ex m]> en, r)
  end.

(** the client side of the call *)
Definition call_ReplicateBlocks (net : delivery) (cl : Cluster) (peer : string) (extentID commit : Z)
    (blocks : list Block) (flts : list (fault * fault)) : outcome (Cluster * (list Z + error)) :=
  match net, cl !! peer with
  | Lost e, _ => Ok (cl, inr e)
  | _, None => Ok (cl, inr (Errorf "unavailable"))
  | _, Some en =>
      let! (en, r) := ReplicateBlocks en extentID commit blocks flts in
      Ok (<[peer := en]> cl, match net with NoReply e => inr e | _ => r end)
  end.

(** ** Append *)

Abbreviation Result := (option error * list Z)%type.
Definition to_result (r : list Z + error) : Result :=
  match r with inl offs => (None, offs) | inr e => (Some e, []) end.

(** the loop over [retChan]; [inl None] is a nil response with a nil error *)
Fixpoint collect_results (preOffsets : list Z) (rs : list Result) : option (list Z) + error :=
  match rs with
  | [] => inl (Some preOffsets)
  | (err, offsets) :: rs =>
      let preOffsets := match preOffsets with [] => offsets | _ => preOffsets end in
      if bool_decide (err <> None) || negb (EqualUint32 offsets preOffsets)
      then match err with Some e => inr e | None => inl None end
      else collect_results preOffsets rs
  end.

Section Append.
(** [Pool.IsHealthy], the faults of each node's disk, the network, and the
    order in which the three workers finish *)
Variable healthy : string -> bool.
Variable flts : string -> list (fault * fault).
Variable net : string -> delivery.
Variable order : list Result -> list Result.

Definition node_Append (cl : Cluster) (self : string) (extentID : Z) (peers : list string) (blocks : list Block)
    : outcome (Cluster * (option (list Z) + error)) :=
  match cl !! self with
  | None => Panic
  | Some en =>
      match getExtent en extentID with
      | None => Ok (cl, inr (Errorf "not such extent"))
      | Some ex =>
          let! m := Lock (mutex ex) in
          if negb (forallb healthy peers) then
            let! m := Unlock m in
            Ok (<[self := <[extentID := with_lock ex m]> en]> cl, inr (Errorf "remote peer not healthy"))
          else
            let offset := CommitLength ex in
            let! (ex, r0) := AppendBlocks (with_lock ex m) blocks (Some offset) (flts self) in
            let cl := <[self := <[extentID := ex]> en]> cl in
            let! p1 := index peers 1 in
            let! (cl, r1) := call_ReplicateBlocks (net p1) cl p1 extentID offset blocks (flts p1) in
            let! p2 := index peers 2 in
            let! (cl, r2) := call_ReplicateBlocks (net p2) cl p2 extentID offset blocks (flts p2) in
            let! m := Unlock (mutex ex) in
            Ok (<[self := <[extentID := with_lock ex m]> en]> cl,
                collect_results [] (order [to_result r0; to_result r1; to_result r2]))
      end
  end.
End Append.

(** ** The other handlers *)

Inductive Code := Code_OK | Code_ERROR | Code_EndOfExtent | Code_EndOfStream | Code_TruncateNotMatch.
Definition errorToCode (err : option error) : outcome Code :=
  match err with
  | Some EndOfStream => Ok Code_EndOfStream
  | Some EndOfExtent => Ok Code_EndOfExtent
  | None => Ok Code_OK
  | Some _ => Panic (* Fatalf *)
  end.
Definition node_ReadBlocks (en : ExtentNode) (extentID offset numOfBlocks : Z) : outcome (Code * list Block) :=
  match getExtent en extentID with
  | None => Err (Errorf "no such extent")
  | Some ex =>
      let! (blocks, err) := ReadBlocks ex offset numOfBlocks (Z.shiftl 32 20) in
      match err with
      | None | Some EndOfStream | Some EndOfExtent => let! c := errorToCode err in Ok (c, blocks)
      | Some e => Err e
      end
  end.
Definition node_ReadEntries (en : ExtentNode) (extentID offset replay : Z) : outcome (Code * list EntryInfo * Z) :=
  match getExtent en extentID with
  | None => Err (Errorf "no such extent")
  | Some ex =>
      let! (ei, endOffset, err) := ReadEntries ex offset (Z.shiftl 25 20) (0 <? replay) in
      match err with
      | None | Some EndOfStream | Some EndOfExtent => let! c := errorToCode err in Ok (c, ei, endOffset)
      | Some e => Err e
      end
  end.
(** [AllocExtent]: the file of that name may exist, when it could not be opened *)
Definition node_AllocExtent (flt : fault) (existing : option File) (name : string) (en : ExtentNode) (extentID : Z) : outcome (ExtentNode * option error) :=
  match getExtent en extentID with
  | Some _ => Ok (en, Some (Errorf "have extent, can not alloc new"))
  | None =>
      match CreateExtent existing name extentID flt with
      | (_, Ok newEx) => Ok (setExtent en (ID newEx) newEx, None)
      | (_, Err e) => Ok (en, Some e)
      | (_, Panic) => Panic
      end
  end.
(** [Seal] and [CommitLength] refuse the extents they have and use the nil
    pointer for those they do not *)
Definition node_Seal (en : ExtentNode) (extentID commitLength : Z) : outcome (ExtentNode * option error) :=
  match getExtent en extentID with
  | Some _ => Ok (en, Some (Errorf "have extent, can not alloc new"))
  | None => Panic
  end.
Definition node_CommitLength (en : ExtentNode) (extentID : Z) : outcome Z :=
  match getExtent en extentID with
  | Some _ => Err (Errorf "have extent, can not alloc new")
  | None => Panic
  end.
(** [strings.HasSuffix] *)
Fixpoint HasSuffix (s suffix : string) : bool :=
  String.eqb s suffix || match s with String.EmptyString => false | String.String _ s => HasSuffix s suffix end.
(** [LoadExtents]: [dir] is what ReadDir lists *)
Fixpoint LoadExtents (en : ExtentNode) (dir : list (string * File)) : outcome ExtentNode :=
  match dir with
  | [] => Ok en
  | (name, f) :: dir =>
      if HasSuffix name ".ext" then
        match OpenExtent name (Some f) with
        | Ok ext => LoadExtents (setExtent en (ID ext) ext) dir
        | Err _ => LoadExtents en dir
        | Panic => Panic
        end
      else LoadExtents en dir
  end.

(** ** Replication *)

(** node [p] holds the blocks [bs] in extent [eid], open and unlocked *)
Definition replica (cl : Cluster) (eid : Z) (p : string) (bs : list Block) : Prop :=
  exists en ex, cl !! p = Some en /\ en !! eid = Some ex /\ extent_inv ex bs /\
    mutex ex = newMutex /\ isSeal ex = 0.

Definition append_input (blocks : list Block) (flts : list (fault * fault)) : Prop :=
  Forall (fun b => zlen (Data b) = BlockLength b) blocks /\ Forall (fun flt => fst flt = None) flts.

Lemma extent_inv_commit ex ex' bs : extent_inv ex bs -> extent_inv ex' bs -> commitLength ex' = commitLength ex.
Proof. intros [] []. lia. Qed.

(** a locked append, whatever the disk does *)
Lemma locked_append_outcome ex bs blocks commit flts : extent_inv ex bs -> mutex ex = newMutex -> isSeal ex = 0 ->
  append_input blocks flts -> commitLength ex + blocks_size blocks < 2 ^ 32 ->
  exists m ex' r, AppendBlocks (with_lock ex heldMutex) blocks (Some commit) flts = Ok (ex', r) /\
    mutex ex' = heldMutex /\ isSeal ex' = 0 /\ extent_inv (with_lock ex' newMutex) (bs ++ take m blocks) /\
    match r with
    | inl offs => take m blocks = blocks /\ offs = block_offsets (commitLength ex) blocks
    | inr _ => True
    end.
Proof.
  intros Hi Hm Hs [Hd Hf] Hb.
  destruct (AppendBlocks_outcome (with_lock ex heldMutex) bs blocks (Some commit) flts) as (m & ex' & r & He & Hi' & Hr & Hmu & Hse & _);
    try done; [by destruct Hi|].
  exists m, ex', r. split; [done|]. split; [done|]. split; [by rewrite Hse|]. split; [by destruct Hi'|]. by destruct r.
Qed.

Lemma ReplicateBlocks_outcome cl eid p bs commit blocks flts net : replica cl eid p bs ->
  append_input blocks flts -> 512 + blocks_size bs + blocks_size blocks < 2 ^ 32 ->
  exists m cl' r, call_ReplicateBlocks net cl p eid commit blocks flts = Ok (cl', r) /\
    replica cl' eid p (bs ++ take m blocks) /\ (forall q, q <> p -> cl' !! q = cl !! q) /\
    match r with
    | inl offs => take m blocks = blocks /\ offs = block_offsets (512 + blocks_size bs) blocks
    | inr _ => True
    end.
Proof.
  intros (en & ex & Hp & He & Hi & Hm & Hs) Hin Hb. pose proof (inv_commit _ _ Hi) as Hc.
  assert (forall e, exists m cl' (r : list Z + error), Ok (cl, inr e) = Ok (cl', r) /\
    replica cl' eid p (bs ++ take m blocks) /\ (forall q, q <> p -> cl' !! q = cl !! q) /\
    match r with
    | inl offs => take m blocks = blocks /\ offs = block_offsets (512 + blocks_size bs) blocks
    | inr _ => True
    end) as Hlost.
  { intros e. exists 0%nat, cl, (inr e). split; [done|]. split; [|done]. rewrite app_nil_r. by exists en, ex. }
  assert (exists m en' r, ReplicateBlocks en eid commit blocks flts = Ok (en', r) /\
    replica (<[p := en']> cl) eid p (bs ++ take m blocks) /\
    match r with
    | inl offs => take m blocks = blocks /\ offs = block_offsets (512 + blocks_size bs) blocks
    | inr _ => True
    end) as (m & en' & r & Hrep & Hpost & Hr).
  { destruct (locked_append_outcome ex bs blocks commit flts Hi Hm Hs Hin ltac:(lia)) as (m & ex' & r & Happ & Hmu & Hse & Hi' & Hr).
    exists m, (<[eid := with_lock ex' newMutex]> en), r. unfold ReplicateBlocks, getExtent. rewrite He, Hm, Lock_new. cbn [obind].
    rewrite Happ. cbn [obind]. rewrite Hmu, Unlock_held. split; [done|]. rewrite <- Hc. split; [|done].
    eexists _, _. rewrite lookup_insert_eq. split; [done|]. rewrite lookup_insert_eq. done. }
  unfold call_ReplicateBlocks. destruct net as [|e|e]; [|apply Hlost|]; rewrite Hp, Hrep; cbn [obind].
  - exists m, (<[p := en']> cl), r. split; [done|]. split; [done|]. split; [|done].
    intros q Hq. by rewrite lookup_insert_ne.
  - exists m, (<[p := en']> cl), (inr e). split; [done|]. split; [done|]. split; [|done].
    intros q Hq. by rewrite lookup_insert_ne.
Qed.

Lemma replica_other cl cl' eid p bs : cl' !! p = cl !! p -> replica cl eid p bs -> replica cl' eid p bs.
Proof. unfold replica. intros ->. done. Qed.

(** an OK answer means that no worker failed and all agree *)
Lemma collect_results_ok rs : forall pre offs, collect_results pre rs = inl (Some offs) ->
  Forall (fun r => fst r = None /\ (pre <> [] -> snd r = pre)) rs /\
  (pre <> [] -> offs = pre) /\ (pre = [] -> forall l, Forall (fun r => snd r = l) rs -> rs <> [] -> offs = l).
Proof.
  induction rs as [|[err o] rs IH]; intros pre offs E; cbn [collect_results] in E.
  { injection E as ->. done. }
  destruct (bool_decide (err <> None)) eqn:Ee; [cbn in E; by destruct err; apply bool_decide_eq_true in Ee|].
  apply bool_decide_eq_false in Ee. assert (err = None) as -> by (by destruct err as [e|]; [destruct Ee|]). cbn [orb] in E.
  destruct (EqualUint32 o _) eqn:Eq; [|done]. cbn [negb] in E. apply EqualUint32_spec in Eq.
  destruct (IH _ _ E) as (Hf & Hne & Hnil). split; [|split].
  - constructor.
    + split; [done|]. intros Hp. by destruct pre.
    + eapply Forall_impl; [exact Hf|]. intros r [H1 H2]. split; [done|]. intros Hp. destruct pre; [done|]. by apply H2.
  - intros Hp. destruct pre; [done|]. by apply Hne.
  - intros -> l Hl _. apply Forall_cons in Hl as [<- Hl]. cbn [snd] in *. destruct o as [|x o]; [|by apply Hne].
    destruct rs as [|r rs]; [cbn in E; by injection E as <-|]. by apply (Hnil eq_refl [] Hl).
Qed.

Lemma node_Append_outcome healthy flts net order cl eid p0 p1 p2 bs blocks :
  (forall rs, Permutation (order rs) rs) -> NoDup [p0; p1; p2] ->
  replica cl eid p0 bs -> replica cl eid p1 bs -> replica cl eid p2 bs ->
  (forall p, append_input blocks (flts p)) -> 512 + blocks_size bs + blocks_size blocks < 2 ^ 32 ->
  exists cl' r, node_Append healthy flts net order cl p0 eid [p0; p1; p2] blocks = Ok (cl', r) /\
    (forall p, p ∈ [p0; p1; p2] -> exists m, replica cl' eid p (bs ++ take m blocks)) /\
    (forall offs, r = inl (Some offs) ->
       offs = block_offsets (512 + blocks_size bs) blocks /\
       forall p, p ∈ [p0; p1; p2] -> replica cl' eid p (bs ++ blocks)).
Proof.
  intros Hord Hnd (en & ex & Hp & He & Hi & Hm & Hs) R1 R2 Hin Hb.
  apply NoDup_cons in Hnd as [Hn0 Hnd]. apply NoDup_cons in Hnd as [Hn1 _].
  assert (p1 <> p0 /\ p2 <> p0 /\ p2 <> p1) as (N1 & N2 & N3) by set_solver.
  pose proof (inv_commit _ _ Hi) as Hc.
  unfold node_Append, getExtent. rewrite Hp, He, Hm, Lock_new. cbn [obind].
  destruct (negb (forallb healthy [p0; p1; p2])).
  { rewrite Unlock_held. cbn [obind]. do 2 eexists. split; [done|]. split; [|done].
    intros p Hpin. exists 0%nat. rewrite app_nil_r. apply elem_of_cons in Hpin as [->|Hpin].
    - exists (<[eid := with_lock ex newMutex]> en), (with_lock ex newMutex). rewrite !lookup_insert_eq.
      split; [done|]. split; [done|]. split; [by destruct Hi|done].
    - eapply replica_other; [rewrite lookup_insert_ne; [done|set_solver]|].
      apply elem_of_cons in Hpin as [->|Hpin%list_elem_of_singleton]; [done|by subst]. }
  destruct (locked_append_outcome ex bs blocks (CommitLength ex) (flts p0) Hi Hm Hs (Hin p0) ltac:(lia))
    as (m0 & ex' & r0 & Happ & Hmu & Hse & Hi' & Hr0).
  rewrite Happ. cbn [obind index]. set (cl0 := <[p0 := _]> cl).
  change (index [p0; p1; p2] 1) with (Ok p1). change (index [p0; p1; p2] 2) with (Ok p2). cbn [obind].
  destruct (ReplicateBlocks_outcome cl0 eid p1 bs (CommitLength ex) blocks (flts p1) (net p1)) as (m1 & cl1 & r1 & -> & R1' & O1 & Hr1).
  { eapply replica_other; [|exact R1]. unfold cl0. by rewrite lookup_insert_ne. }
  { done. }
  { done. }
  cbn [obind].
  destruct (ReplicateBlocks_outcome cl1 eid p2 bs (CommitLength ex) blocks (flts p2) (net p2)) as (m2 & cl2 & r2 & -> & R2' & O2 & Hr2).
  { eapply replica_other; [|exact R2]. rewrite O1 by done. unfold cl0. by rewrite lookup_insert_ne. }
  { done. }
  { done. }
  cbn [obind]. rewrite Hmu, Unlock_held. cbn [obind]. set (cl3 := <[p0 := _]> cl2).
  assert (replica cl3 eid p0 (bs ++ take m0 blocks)) as F0.
  { unfold cl3. do 2 eexists. rewrite lookup_insert_eq. split; [done|]. rewrite lookup_insert_eq. done. }
  assert (replica cl3 eid p1 (bs ++ take m1 blocks)) as F1.
  { eapply replica_other; [|exact R1']. unfold cl3. rewrite lookup_insert_ne by done. by apply O2. }
  assert (replica cl3 eid p2 (bs ++ take m2 blocks)) as F2.
  { eapply replica_other; [|exact R2']. unfold cl3. by rewrite lookup_insert_ne. }
  do 2 eexists. split; [done|]. split.
  { intros p Hpin. rewrite !elem_of_cons in Hpin. destruct Hpin as [->|[->|[->|?%elem_of_nil]]]; eauto; done. }
  intros offs Hok. apply collect_results_ok in Hok as (Hf & _ & Hall). rewrite Hord in Hf.
  apply Forall_cons in Hf as [[E0 _] Hf]. apply Forall_cons in Hf as [[E1 _] Hf]. apply Forall_cons in Hf as [[E2 _] _].
  destruct r0 as [o0|]; [|done]. destruct r1 as [o1|]; [|done]. destruct r2 as [o2|]; [|done].
  destruct Hr0 as [T0 ->], Hr1 as [T1 ->], Hr2 as [T2 ->]. rewrite T0 in F0. rewrite T1 in F1. rewrite T2 in F2. split.
  - rewrite Hc in Hall. apply (Hall eq_refl).
    + rewrite Hord. by repeat constructor.
    + intros E. pose proof (Permutation_length (Hord [to_result (inl (block_offsets (512 + blocks_size bs) blocks)); to_result (inl (block_offsets (512 + blocks_size bs) blocks)); to_result (inl (block_offsets (512 + blocks_size bs) blocks))])) as Hl.
      rewrite E in Hl. done.
  - intros p Hpin. rewrite !elem_of_cons in Hpin. destruct Hpin as [->|[->|[->|?%elem_of_nil]]]; done.
Qed.

(** C19: Whichever data writes fail and whatever the network does to an append with three replicas
    that agree, each replica still holds the old blocks followed by a prefix of the new ones, and
    offsets are returned to the client only when all three hold every block, at the offsets of the
    primary. It asks that the writes of metadata sectors do not fail (their errors are dropped,
    extent.go:470), that BlockLength is the length of each block's data (not checked) and that the
    extent stays below 2^32 bytes. *)
Theorem node_Append_replicates healthy flts net order cl eid p0 p1 p2 bs blocks :
  (forall rs, Permutation (order rs) rs) -> NoDup [p0; p1; p2] ->
  replica cl eid p0 bs -> replica cl eid p1 bs -> replica cl eid p2 bs ->
  (forall p, append_input blocks (flts p)) -> 512 + blocks_size bs + blocks_size blocks < 2 ^ 32 ->
  exists cl' r, node_Append healthy flts net order cl p0 eid [p0; p1; p2] blocks = Ok (cl', r) /\
    (forall p, p ∈ [p0; p1; p2] -> exists m, replica cl' eid p (bs ++ take m blocks)) /\
    (forall offs, r = inl (Some offs) ->
       offs = block_offsets (512 + blocks_size bs) blocks /\
       forall p, p ∈ [p0; p1; p2] -> replica cl' eid p (bs ++ blocks)).
Proof. apply node_Append_outcome. Qed.

Lemma ReplicateBlocks_ok cl eid p bs blocks : replica cl eid p bs -> Forall block_wf blocks ->
  512 + blocks_size bs + blocks_size blocks < 2 ^ 32 ->
  exists cl', call_ReplicateBlocks Delivered cl p eid (512 + blocks_size bs) blocks [] =
      Ok (cl', inl (block_offsets (512 + blocks_size bs) blocks)) /\ (forall q, q <> p -> cl' !! q = cl !! q).
Proof.
  intros (en & ex & Hp & He & Hi & Hm & Hs) Hwf Hb. pose proof (inv_commit _ _ Hi) as Hc.
  unfold call_ReplicateBlocks, ReplicateBlocks, getExtent. rewrite Hp, He, Hm, Lock_new. cbn [obind].
  rewrite (AppendBlocks_ok (with_lock ex heldMutex) bs); try done; [|by destruct Hi|cbn; lia|right; cbn; by f_equal].
  cbn [obind mutex with_lock set_file]. rewrite Unlock_held. cbn [obind]. cbn [commitLength with_lock]. rewrite Hc.
  eexists. split; [done|]. intros q Hq. by rewrite lookup_insert_ne.
Qed.

Lemma collect_results_same l rs : Forall (fun r => r = (None, l)) rs -> rs <> [] ->
  collect_results [] rs = inl (Some l).
Proof.
  assert (forall pre rs, Forall (fun r => r = (None, l)) rs -> (pre = [] \/ pre = l) -> rs <> [] ->
    collect_results pre rs = inl (Some l)) as H.
  { intros pre rs0 Hf. revert pre. induction Hf as [|r rs1 -> Hf IH]; intros pre Hp Hne; [done|].
    cbn [collect_results]. assert (match pre with [] => l | _ => pre end = l) as -> by (destruct Hp as [->| ->]; [done|by destruct l]).
    rewrite bool_decide_false by (intros E; by apply E). cbn [orb].
    rewrite (proj2 (EqualUint32_spec l l) eq_refl). cbn [negb].
    destruct rs1 as [|r rs1]; [done|]. apply IH; [by right|done]. }
  intros Hf. apply H; [done|by left].
Qed.

Lemma node_Append_ok healthy order cl eid p0 p1 p2 bs blocks :
  (forall rs, Permutation (order rs) rs) -> NoDup [p0; p1; p2] ->
  replica cl eid p0 bs -> replica cl eid p1 bs -> replica cl eid p2 bs ->
  (forall p, healthy p = true) -> Forall block_wf blocks -> 512 + blocks_size bs + blocks_size blocks < 2 ^ 32 ->
  exists cl', node_Append healthy (fun _ => []) (fun _ => Delivered) order cl p0 eid [p0; p1; p2] blocks =
    Ok (cl', inl (Some (block_offsets (512 + blocks_size bs) blocks))).
Proof.
  intros Hord Hnd (en & ex & Hp & He & Hi & Hm & Hs) R1 R2 Hh Hwf Hb.
  apply NoDup_cons in Hnd as [Hn0 Hnd]. apply NoDup_cons in Hnd as [Hn1 _].
  assert (p1 <> p0 /\ p2 <> p0 /\ p2 <> p1) as (N1 & N2 & N3) by set_solver.
  pose proof (inv_commit _ _ Hi) as Hc.
  unfold node_Append, getExtent. rewrite Hp, He, Hm, Lock_new. cbn [obind forallb]. rewrite !Hh. cbn [andb negb].
  rewrite (AppendBlocks_ok (with_lock ex heldMutex) bs); try done; [|by destruct Hi|cbn; lia|by right].
  cbn [obind mutex with_lock set_file]. set (cl0 := <[p0 := _]> cl).
  change (index [p0; p1; p2] 1) with (Ok p1). change (index [p0; p1; p2] 2) with (Ok p2). cbn [obind].
  unfold CommitLength. cbn [commitLength with_lock]. rewrite Hc.
  destruct (ReplicateBlocks_ok cl0 eid p1 bs blocks) as (cl1 & -> & O1); [|done|done|].
  { eapply replica_other; [|exact R1]. unfold cl0. by rewrite lookup_insert_ne. }
  cbn [obind]. destruct (ReplicateBlocks_ok cl1 eid p2 bs blocks) as (cl2 & -> & O2); [|done|done|].
  { eapply replica_other; [|exact R2]. rewrite O1 by done. unfold cl0. by rewrite lookup_insert_ne. }
  cbn [obind]. rewrite Unlock_held. cbn [obind]. eexists. do 2 f_equal.
  set (rs := [_; _; _]). apply collect_results_same; [rewrite Hord; by repeat constructor|].
  intros E. pose proof (Permutation_length (Hord rs)) as Hl. by rewrite E in Hl.
Qed.

(** With healthy connections, no lost messages and no disk faults an append of well-formed
    blocks to three replicas in agreement succeeds and returns the block offsets. *)
Theorem node_Append_succeeds healthy order cl eid p0 p1 p2 bs blocks :
  (forall rs, Permutation (order rs) rs) -> NoDup [p0; p1; p2] ->
  replica cl eid p0 bs -> replica cl eid p1 bs -> replica cl eid p2 bs ->
  (forall p, healthy p = true) -> Forall block_wf blocks -> 512 + blocks_size bs + blocks_size blocks < 2 ^ 32 ->
  exists cl', node_Append healthy (fun _ => []) (fun _ => Delivered) order cl p0 eid [p0; p1; p2] blocks =
    Ok (cl', inl (Some (block_offsets (512 + blocks_size bs) blocks))).
Proof. apply node_Append_ok. Qed.

(** The Seal and CommitLength handlers of an extent node, whose guards test for the presence of
    the extent where absence was meant, never succeed: on a known extent they refuse, on an unknown
    one they dereference nil. *)
Theorem node_Seal_never_seals en extentID commitLength :
  (forall en' : ExtentNode, node_Seal en extentID commitLength <> Ok (en', None)) /\
  (forall n, node_CommitLength en extentID <> Ok n) /\
  (forall ex, en !! extentID = Some ex ->
     node_Seal en extentID commitLength = Ok (en, Some (Errorf "have extent, can not alloc new"))).
Proof.
  unfold node_Seal, node_CommitLength, getExtent. split; [|split].
  - intros en'. by destruct (en !! extentID).
  - intros n. by destruct (en !! extentID).
  - by intros ex ->.
Qed.
