(* ===== verification/Partition.v ===== *)
(** Package rangepartition (range_rangepartition.go, valuelog.go): the
    partition engine. A write goes to the log stream and then to the memtable;
    full memtables wait in [imm] until the flusher has turned them into tables
    on the row stream; a read looks at the memtables, newest first, and then
    at the tables. Reference counts, which only free memory, are left out. *)
From Stdlib Require Import ZArith Lia.
From stdpp Require Import base option list numbers gmap sorting strings.
From S2P Require Import Prelude GoLib Utils Proto ProtoPs Keys YIter Extent MixBlock Stream.
From S2P Require Import Skiplist SkiplistSpec SkiplistPut SkiplistIter TableBlock Table TableSpec TableBuild Merge.

Definition maxSkipList : Z := 1 * MB.
Definition writeChCapacity : Z := 64.
Definition flushCapacity : nat := 16.
Definition errNotFound : error := Errorf "not found".
Definition ErrBlockedWrites : error := Errorf "Writes are blocked, possibly due to DropAll or Close".

(** ** valuePointer: the struct's 16 bytes of memory, little endian *)

Record valuePointer := mkVP { vp_extentID : Z; vp_offset : Z; vp_len : Z }.
Definition vptrSize : Z := 16.
Definition vp_Encode (p : valuePointer) : bytes :=
  le_put 8 (vp_extentID p) ++ le_put 4 (vp_offset p) ++ le_put 4 (vp_len p).
Definition vp_Decode (b : bytes) : outcome valuePointer :=
  let! b := slice b 0 vptrSize in
  Ok (mkVP (le_get (ztake 8 b)) (le_get (ztake 4 (zdrop 8 b))) (le_get (zdrop 12 b))).

(** ** Sizes *)

Definition estimatedSizeInSkl (e : Entry) : Z :=
  let sz := zlen (Key e) in
  let sz := sz + (if ShouldWriteValueToLSM e then zlen (Value e) + 2 else vptrSize + 2) in
  let sz := sz + SizeVarint (ExpiresAt e) in
  sz + (MaxNodeSize + 8).
Definition estimatedVS (key : bytes) (vs : ValueStruct) : Z :=
  let sz := zlen key in
  let sz := sz + (if (Z.land (VMeta vs) BitValuePointer =? 0) && (zlen (VValue vs) <=? ValueThrottle)
                  then zlen (VValue vs) + 2 else vptrSize + 2) in
  let sz := sz + SizeVarint (VExpiresAt vs) in
  sz + (MaxNodeSize + 8).

(** a request is the list of its entries; [Size] is what they take in the log *)
Definition request_Size (r : list EntryInfo) : Z := foldr (fun e n => Entry_Size (Log e) + n) 0 r.
Fixpoint too_big_loop (reqs : list (list EntryInfo)) (size n : Z) : bool :=
  match reqs with
  | [] => false
  | r :: reqs =>
      let size := size + request_Size r in
      if 30 * MB <? size then true else
      let n := n + zlen r in
      if 3 * writeChCapacity <? n then true else too_big_loop reqs size n
  end.
Definition isReqsTooBig (reqs : list (list EntryInfo)) : bool := too_big_loop reqs 0 0.

(** ** What an entry is in the memtable *)

Definition getLowerByte (a : Z) : Z := Z.land a 255.
Definition lsm_value (entry : EntryInfo) : ValueStruct :=
  let log := Log entry in
  if ShouldWriteValueToLSM log then
    mkVS (getLowerByte (Meta log)) (getLowerByte (UserMeta log)) (ExpiresAt log) (Value log) 0
  else
    let vp := mkVP (EI_ExtentID entry) (EI_Offset entry) (u32 (zlen (Value log))) in
    mkVS (Z.lor (getLowerByte (Meta log)) BitValuePointer) (getLowerByte (UserMeta log)) (ExpiresAt log) (vp_Encode vp) 0.

(** [isDeletedOrExpired] at time [now] (Unix seconds) *)
Definition isDeletedOrExpired (now meta expiresAt : Z) : bool :=
  if 0 <? Z.land meta BitDelete then true
  else if expiresAt =? 0 then false
  else expiresAt <=? now.

(** ** The partition *)

Section Partition.
Context {LogSt RowSt Bloom : Type}.
Context `{StreamClient LogSt} `{!LogStream LogSt} `{StreamClient RowSt} `{BloomOps Bloom} `{SortSlice}.
(** farm.Fingerprint64 *)
Variable fp : bytes -> Z.
(** the random bits a [Put] consults, and the timing of a table's writer *)
Variable rnd : SL -> bytes -> nat -> Z.
Variable sched : Z -> nat -> nat.

Abbreviation Tab := (Table (Bloom := Bloom)).

(** a memtable and the pointer it is known by *)
Record Mem := mkMem { m_ptr : nat; m_sl : SL }.
(** [ft_resultCh] names the channel that a compaction waits on, 0 is nil *)
Record flushTask := mkFT { ft_mt : Mem; ft_vptr : valuePointer; ft_seqNum : Z; ft_isCompact : bool; ft_resultCh : nat }.
Record RangePartition := mkRP {
  logStream : LogSt; rowStream : RowSt; logRotates : Z; blockWrites : bool;
  rp_mt : Mem; rp_imm : list Mem; flushChan : list flushTask;
  rp_tables : list Tab; seqNumber : Z; vhead : valuePointer;
  (** the table locations the partition manager was told last *)
  pm_tables : list (Z * Z);
  (** pointers handed out so far *)
  nextPtr : nat }.

Definition with_log (rp : RangePartition) (s : LogSt) : RangePartition :=
  mkRP s (rowStream rp) (logRotates rp) (blockWrites rp) (rp_mt rp) (rp_imm rp) (flushChan rp) (rp_tables rp)
    (seqNumber rp) (vhead rp) (pm_tables rp) (nextPtr rp).
Definition with_seq (rp : RangePartition) (n : Z) : RangePartition :=
  mkRP (logStream rp) (rowStream rp) (logRotates rp) (blockWrites rp) (rp_mt rp) (rp_imm rp) (flushChan rp) (rp_tables rp)
    n (vhead rp) (pm_tables rp) (nextPtr rp).
Definition with_vhead (rp : RangePartition) (h : valuePointer) : RangePartition :=
  mkRP (logStream rp) (rowStream rp) (logRotates rp) (blockWrites rp) (rp_mt rp) (rp_imm rp) (flushChan rp) (rp_tables rp)
    (seqNumber rp) h (pm_tables rp) (nextPtr rp).
Definition with_sl (rp : RangePartition) (s : SL) : RangePartition :=
  mkRP (logStream rp) (rowStream rp) (logRotates rp) (blockWrites rp) (mkMem (m_ptr (rp_mt rp)) s) (rp_imm rp) (flushChan rp)
    (rp_tables rp) (seqNumber rp) (vhead rp) (pm_tables rp) (nextPtr rp).

(** the struct [OpenRangePartition] starts from *)
Definition new_partition (log : LogSt) (row : RowSt) : outcome RangePartition :=
  let! s := NewSkiplist maxSkipList in
  Ok (mkRP log row 0 false (mkMem 0 s) [] [] [] 0 (mkVP 0 0 0) [] 1).

(** the table with the highest sequence number, the first of equal ones *)
Fixpoint last_table (tbls : list Tab) (seq : Z) (lastTable : option Tab) : Z * option Tab :=
  match tbls with
  | [] => (seq, lastTable)
  | t :: tbls => if seq <? LastSeq t then last_table tbls (LastSeq t) (Some t) else last_table tbls seq lastTable
  end.
(** where the log is replayed from *)
Definition replay_from (tbls : list Tab) : Z * Z :=
  match snd (last_table tbls 0 None) with Some t => (t_VpExtentID t, t_VpOffset t) | None => (0, 0) end.

(** *** Writing *)

Fixpoint put_entries (s : SL) (entries : list EntryInfo) : outcome SL :=
  match entries with
  | [] => Ok s
  | e :: entries =>
      let! s := Put s (Key (Log e)) (lsm_value e) (rnd s (Key (Log e))) in put_entries s entries
  end.
Definition writeToLSM (rp : RangePartition) (entries : list EntryInfo) : outcome RangePartition :=
  let! s := put_entries (m_sl (rp_mt rp)) entries in Ok (with_sl rp s).

(** [true] when there is room, [false] for [errNoRoom] *)
Definition ensureRoomForWrite (rp : RangePartition) (entries : list EntryInfo) (head : valuePointer)
    : outcome (RangePartition * bool) :=
  let forceFlush := 1 <=? logRotates rp in
  let n := foldr (fun e n => estimatedSizeInSkl (Log e) + n) 0 entries in
  assert (n <=? maxSkipList) (
  if negb forceFlush && (MemSize (m_sl (rp_mt rp)) + n <? maxSkipList) then Ok (rp, true) else
  let seqNum := u64 (seqNumber rp + 1) in
  if (length (flushChan rp) <? flushCapacity)%nat then
    let! s := NewSkiplist maxSkipList in
    Ok (mkRP (logStream rp) (rowStream rp) 0 (blockWrites rp) (mkMem (nextPtr rp) s) (rp_imm rp ++ [rp_mt rp])
          (flushChan rp ++ [mkFT (rp_mt rp) head seqNum false 0]) (rp_tables rp) seqNum (vhead rp) (pm_tables rp)
          (S (nextPtr rp)), true)
  else Ok (with_seq rp seqNum, false)).

(** *** Flushing *)

(** the loop over the memtable's iterator; [fuel] bounds the nodes *)
Fixpoint flush_loop (fuel : nat) (s : SL) (n : Z) (b : Builder) : outcome Builder :=
  match fuel with
  | O => Panic
  | S fuel =>
      if it_Valid n then
        let! k := it_Key s n in
        let! v := it_Value s n in
        let! b := Builder_Add fp b k v in
        let! n := it_Next s n in flush_loop fuel s n b
      else Ok b
  end.
Definition handleFlushTask (rp : RangePartition) (ft : flushTask) : outcome RangePartition :=
  let s := m_sl (ft_mt ft) in
  let! empty := Empty s in
  if empty then Ok rp else
  let! n := it_SeekToFirst s in
  let! b := flush_loop (S (size (nodes s))) s n newBuilder in
  let! b := FinishBlock b in
  let! (row, (id, offset)) :=
    FinishAll (Bloom := Bloom) (sched (ft_seqNum ft)) (rowStream rp) b (vp_extentID (ft_vptr ft)) (vp_offset (ft_vptr ft)) (ft_seqNum ft) in
  let! tbl := OpenTable row id offset in
  Ok (mkRP (logStream rp) row (logRotates rp) (blockWrites rp) (rp_mt rp) (rp_imm rp) (flushChan rp) (rp_tables rp ++ [tbl])
        (seqNumber rp) (vhead rp) (pm_tables rp) (nextPtr rp)).

Definition updateTableLocs (rp : RangePartition) (locs : list (Z * Z)) : list (Z * Z) :=
  match locs with [] => pm_tables rp | _ => locs end.

(** one round of the flusher, [Err] while its table cannot be written (the
    goroutine retries); an empty channel leaves it waiting. The round of a
    compaction's task ends in a send on its channel, which
    [PartitionOpen.flusher_round] adds. *)
Definition flushMemtable (rp : RangePartition) : outcome RangePartition :=
  match flushChan rp with
  | [] => Ok rp
  | ft :: rest =>
      let! rp := handleFlushTask rp ft in
      let! imm := (if ft_isCompact ft then Ok (rp_imm rp) else
                   match rp_imm rp with
                   | m :: imm => assert (m_ptr (ft_mt ft) =? m_ptr m)%nat (Ok imm)
                   | [] => Panic
                   end) in
      Ok (mkRP (logStream rp) (rowStream rp) (logRotates rp) (blockWrites rp) (rp_mt rp) imm rest (rp_tables rp)
            (seqNumber rp) (vhead rp) (updateTableLocs rp (Loc <$> rp_tables rp)) (nextPtr rp))
  end.

(** the loop that waits for room: the flusher works while it sleeps *)
Fixpoint make_room (tries : nat) (rp : RangePartition) (entries : list EntryInfo) (head : valuePointer)
    : outcome RangePartition :=
  match tries with
  | O => Panic
  | S tries =>
      let! (rp, ok) := ensureRoomForWrite rp entries head in
      if ok then Ok rp else
      let! rp := flushMemtable rp in make_room tries rp entries head
  end.

(** [writeRequests]: the error every request gets. The loop over the requests
    writes the entries of all of them, which [AppendEntries] has updated. *)
Definition writeRequests (tries : nat) (rp : RangePartition) (reqs : list (list EntryInfo))
    : outcome (RangePartition * option error) :=
  match reqs with
  | [] => Ok (rp, None)
  | _ =>
      let! (log, r) := ls_AppendEntries (logStream rp) (mjoin reqs) in
      let rp := with_log rp log in
      match r with
      | inr e => Ok (rp, Some e)
      | inl (entriesReady, extentID, offset) =>
          let! rp := make_room tries rp entriesReady (vhead rp) in
          let! rp := writeToLSM rp entriesReady in
          Ok (with_vhead rp (mkVP extentID offset 0), None)
      end
  end.

(** *** The client operations that write *)

(** take the next sequence number and build the entry *)
Definition new_entry (rp : RangePartition) (key value : bytes) (meta : Z) : RangePartition * EntryInfo :=
  let newSeqNumber := u64 (seqNumber rp + 1) in
  (with_seq rp newSeqNumber, mkEI (mkEntry (KeyWithTs key newSeqNumber) value meta 0 0) 0 0 0).
(** [sendToWriteCh] and [Wait] when the request makes a batch of its own *)
Definition send_and_wait (tries : nat) (rp : RangePartition) (e : EntryInfo) : outcome (RangePartition * option error) :=
  if blockWrites rp then Ok (rp, Some ErrBlockedWrites) else writeRequests tries rp [[e]].
Definition Write (tries : nat) (rp : RangePartition) (key value : bytes) : outcome (RangePartition * option error) :=
  let '(rp, e) := new_entry rp key value 0 in send_and_wait tries rp e.
(** several concurrent [Write]s that end up in one batch of [doWrites] *)
Fixpoint new_entries (rp : RangePartition) (kvs : list (bytes * bytes)) : RangePartition * list EntryInfo :=
  match kvs with
  | [] => (rp, [])
  | (k, v) :: kvs =>
      let '(rp, e) := new_entry rp k v 0 in
      let '(rp, es) := new_entries rp kvs in (rp, e :: es)
  end.
Definition WriteAll (tries : nat) (rp : RangePartition) (kvs : list (bytes * bytes)) : outcome (RangePartition * option error) :=
  let '(rp, es) := new_entries rp kvs in
  if blockWrites rp then Ok (rp, Some ErrBlockedWrites) else writeRequests tries rp ((fun e => [e]) <$> es).

(** *** Reading *)

Definition getMemTables (rp : RangePartition) : list SL := m_sl <$> rp_mt rp :: reverse (rp_imm rp).

(** [bytes.Compare(userKey, start) >= 0 && bytes.Compare(userKey, end) <= 0] *)
Definition spans (userKey start stop : bytes) : bool :=
  match bytes_compare userKey start with Lt => false | _ =>
  match bytes_compare userKey stop with Gt => false | _ => true end end.
(** [sort.Slice] by descending [LastSeq] *)
Fixpoint covering (userKey : bytes) (tbls : list Tab) : outcome (list Tab) :=
  match tbls with
  | [] => Ok []
  | t :: tbls =>
      let! start := ParseKey (Some (smallest t)) in
      let! stop := ParseKey (Some (biggest t)) in
      let! out := covering userKey tbls in
      Ok (if spans userKey (default [] start) (default [] stop) then t :: out else out)
  end.
Definition getTablesForKey (rp : RangePartition) (userKey : bytes) : outcome (list Tab) :=
  let! out := covering userKey (rp_tables rp) in Ok (sort_slice (fun t => - LastSeq t) out).

Fixpoint search_memtables (mts : list SL) (internalKey : bytes) : outcome (option ValueStruct) :=
  match mts with
  | [] => Ok None
  | m :: mts =>
      let! r := Get_opt m internalKey in
      match r with
      | None => search_memtables mts internalKey
      | Some vs => Ok (Some vs)
      end
  end.
Fixpoint search_tables (row : RowSt) (tbls : list Tab) (hash : Z) (internalKey : bytes) (maxVs : ValueStruct)
    : outcome ValueStruct :=
  match tbls with
  | [] => Ok maxVs
  | th :: tbls =>
      if DoesNotHave th hash then search_tables row tbls hash internalKey maxVs else
      let! (_, iter) := NewIterator row th false in
      let! iter := t_Seek row iter internalKey in
      if negb (t_Valid iter) then search_tables row tbls hash internalKey maxVs else
      let! same := SameKey internalKey (t_Key iter) in
      if same then
        let! version := ParseTs (t_Key iter) in
        if Version maxVs <? version then
          let! vs := t_Value iter in
          search_tables row tbls hash internalKey (mkVS (VMeta vs) (VUserMeta vs) (VExpiresAt vs) (VValue vs) version)
        else search_tables row tbls hash internalKey maxVs
      else search_tables row tbls hash internalKey maxVs
  end.
Definition getValueStruct (rp : RangePartition) (userKey : bytes) (version : Z) : outcome ValueStruct :=
  let internalKey := KeyWithTs userKey (if version =? 0 then seqNumber rp else version) in
  let! r := search_memtables (getMemTables rp) internalKey in
  match r with
  | Some vs => Ok vs
  | None =>
      let! tbls := getTablesForKey rp userKey in
      search_tables (rowStream rp) tbls (fp userKey) internalKey emptyVS
  end.

(** [Get]; [blockReader] reads the log's extents *)
Definition rp_Get (rp : RangePartition) (userKey : bytes) (version : Z) : outcome (bytes + error) :=
  let! vs := getValueStruct rp userKey version in
  if Version vs =? 0 then Ok (inr errNotFound)
  else if 0 <? Z.land (VMeta vs) BitDelete then Ok (inr errNotFound)
  else if 0 <? Z.land (VMeta vs) BitValuePointer then
    let! vp := vp_Decode (VValue vs) in
    let! (blocks, err) := sc_Read (logStream rp) (vp_extentID vp) (vp_offset vp) 1 in
    match err with
    | Some e => Ok (inr e)
    | None =>
        let! b := index blocks 0 in
        let! entries := ExtractLogEntry b in
        let! e := index entries 0 in
        Ok (inl (Value e))
    end
  else Ok (inl (VValue vs)).

Definition Delete (tries : nat) (rp : RangePartition) (key : bytes) : outcome (RangePartition * option error) :=
  let! vs := getValueStruct rp key 0 in
  if (Version vs =? 0) || (0 <? Z.land (VMeta vs) BitDelete) then Ok (rp, Some errNotFound) else
  let '(rp, e) := new_entry rp key [] BitDelete in send_and_wait tries rp e.

(** *** Range scans *)

Abbreviation riter := (UniIterator + Iterator (Bloom := Bloom))%type.

Fixpoint table_iters (row : RowSt) (tbls : list Tab) : outcome (list riter) :=
  match tbls with
  | [] => Ok []
  | t :: tbls => let! (_, it) := NewIterator row t false in let! its := table_iters row tbls in Ok (inr it :: its)
  end.
Definition newIterator (rp : RangePartition) : outcome (list riter * option (yiter (I := riter))) :=
  let mts := (fun m => inl (mkUni m 0 false)) <$> getMemTables rp in
  let! tbls := table_iters (rowStream rp) (reverse (rp_tables rp)) in
  let iters := mts ++ tbls in
  Ok (iters, NewMergeIterator (length iters) (Leaf <$> iters) false).

Definition HasPrefix (s prefix : bytes) : bool := bool_decide (ztake (zlen prefix) s = prefix).

(** the loop over any iterator; [skipKey] is empty when there is none *)
Fixpoint range_loop {I : Type} `{YIterator I} (fuel : nat) (now : Z) (prefix : bytes) (limit : Z) (iter : I) (skipKey : bytes)
    (out : list bytes) : outcome (list bytes) :=
  match fuel with
  | O => Panic
  | S fuel =>
      if y_Valid iter && (u32 (zlen out) <? limit) then
        let! key := y_Key iter in
        if negb (HasPrefix key prefix) then Ok out else
        let! same := (if 0 <? zlen skipKey then SameKey key skipKey else Ok false) in
        if same then let! iter := y_Next iter in range_loop fuel now prefix limit iter skipKey out else
        let! vs := y_Value iter in
        if isDeletedOrExpired now (VMeta vs) (VExpiresAt vs) then
          let! iter := y_Next iter in range_loop fuel now prefix limit iter key out
        else
          let! uk := ParseKey (Some key) in
          let! iter := y_Next iter in range_loop fuel now prefix limit iter key (out ++ [default [] uk])
      else Ok out
  end.
Definition Range (fuel : nat) (now : Z) (rp : RangePartition) (prefix start : bytes) (limit : Z) : outcome (list bytes) :=
  let! (iters, t) := newIterator rp in
  let riter_ops := sum_YIterator (H0 := table_YIterator (rowStream rp)) in
  let mf := (2 * length iters)%nat in
  match t with
  | None => Panic
  | Some t =>
      let! t := yi_Seek (H := riter_ops) mf t (KeyWithTs start (seqNumber rp)) in
      range_loop (H3 := merge_YIterator (H := riter_ops) mf) fuel now prefix limit t [] []
  end.
End Partition.
