(* ===== verification/PartitionSpec.v ===== *)
(** The partition engine refines a map: what a read finds in the memtables
    and tables of a partition, and that writes, deletes and flushes keep the
    newest version of every key readable. *)
From Stdlib Require Import ZArith Lia.
From stdpp Require Import base option list numbers gmap sorting strings.
From S2P Require Import Prelude GoLib Utils Proto ProtoPs Keys YIter Extent MixBlock Stream.
From S2P Require Import Skiplist SkiplistSpec SkiplistPut SkiplistIter TableBlock Table TableSpec TableBuild Merge Partition.

(** ** Versions of a key in a list of pairs *)

Lemma KeyWithTs_inj u t u' t' : 0 <= t <= MaxUint64 -> 0 <= t' <= MaxUint64 ->
  KeyWithTs u t = KeyWithTs u' t' -> u = u' /\ t = t'.
Proof.
  intros Ht Ht' E. pose proof (kcmp_versions u t u' t' Ht Ht') as Hc. rewrite E, kcmp_refl in Hc.
  destruct (bytes_compare u u') eqn:Eu; [|done|done]. apply bytes_compare_eq in Eu as ->.
  symmetry in Hc. by apply Z.compare_eq in Hc.
Qed.
Lemma ukey_KeyWithTs u t : ukey (KeyWithTs u t) = u.
Proof. unfold ukey. rewrite zlen_KeyWithTs, KeyWithTs_app. apply ztake_app_exact. lia. Qed.

Definition version_of (k : bytes) : Z := u64 (MaxUint64 - be_get (suffix k)).
Lemma version_KeyWithTs u t : 0 <= t <= MaxUint64 -> version_of (KeyWithTs u t) = t.
Proof.
  intros Ht. unfold version_of, suffix. rewrite zlen_KeyWithTs, KeyWithTs_app, zdrop_app_exact by lia.
  rewrite Uint64_Put. unfold MaxUint64 in *. rewrite (u64_small (2 ^ 64 - 1 - t)) by lia.
  rewrite (u64_small (2 ^ 64 - 1 - t)) by lia. rewrite u64_small; lia.
Qed.

(** the version of [uk] a reader at [ts] is to see in [kvs] *)
Definition newest (uk : bytes) (ts : Z) (kvs : list kv) (t : Z) (vs : ValueStruct) : Prop :=
  (KeyWithTs uk t, vs) ∈ kvs /\ 0 <= t <= ts /\
  forall t' vs', (KeyWithTs uk t', vs') ∈ kvs -> 0 <= t' <= ts -> t' <= t.
Definition none_at (uk : bytes) (ts : Z) (kvs : list kv) : Prop :=
  forall t vs, (KeyWithTs uk t, vs) ∈ kvs -> 0 <= t <= MaxUint64 -> ts < t.

(** what a search of one sorted list finds *)
Definition rd (uk : bytes) (ts : Z) (kvs : list kv) : option (Z * ValueStruct) :=
  match seek_list false (KeyWithTs uk ts) kvs with
  | (k, vs) :: _ => if decide (ukey k = uk) then Some (version_of k, vs) else None
  | [] => None
  end.

Lemma seek_list_in r key kvs p rest : seek_list r key kvs = p :: rest -> p ∈ kvs.
Proof.
  intros E. destruct (seek_list_suffix r key kvs) as (passed & Ek & _). rewrite Ek, E. apply elem_of_app. right. left.
Qed.
(** everything not before the key comes at or after the place found *)
Lemma seek_list_first r key kvs p : walk_ok r kvs -> p ∈ kvs -> kdir r (fst p) key <> Lt ->
  exists q rest, seek_list r key kvs = q :: rest /\ (q = p \/ kdir r (fst q) (fst p) = Lt).
Proof.
  intros Hw Hin Hge. destruct (seek_list_suffix r key kvs) as (passed & Ek & Hp).
  rewrite Ek in Hin, Hw. apply elem_of_app in Hin as [Hin|Hin].
  { rewrite Forall_forall in Hp. by destruct (Hge (Hp _ Hin)). }
  apply walk_app_r in Hw. destruct (seek_list r key kvs) as [|q rest]; [by apply elem_of_nil in Hin|].
  exists q, rest. split; [done|]. apply elem_of_cons in Hin as [->|Hin]; [by left|right].
  apply walk_cons in Hw as [Hf _]. rewrite Forall_forall in Hf. by apply Hf.
Qed.

Lemma rd_spec uk ts kvs : walk_ok false kvs -> 0 <= ts <= MaxUint64 ->
  match rd uk ts kvs with
  | Some (t, vs) => newest uk ts kvs t vs /\ t <= MaxUint64
  | None => none_at uk ts kvs
  end.
Proof.
  intros Hw Hts. set (key := KeyWithTs uk ts).
  assert (forall t vs, (KeyWithTs uk t, vs) ∈ kvs -> 0 <= t <= ts ->
    exists q rest, seek_list false key kvs = q :: rest /\ (q = (KeyWithTs uk t, vs) \/ kcmp (fst q) (KeyWithTs uk t) = Lt)) as Hfirst.
  { intros t vs Hin Ht. apply (seek_list_first false key kvs _ Hw Hin). cbn [fst kdir].
    apply not_before_version; [lia|done|]. right. split; [done|lia]. }
  unfold rd. fold key. pose proof (seek_list_ge false key kvs Hw) as Hge.
  destruct (seek_list false key kvs) as [|[k vs] rest] eqn:E.
  { intros t vs Hin Ht. destruct (Z.lt_ge_cases ts t); [done|].
    destruct (Hfirst t vs Hin ltac:(lia)) as (q & r & ? & _). done. }
  pose proof (seek_list_in _ _ _ _ _ E) as Hk. apply Forall_cons in Hge as [Hge _]. cbn [fst kdir] in Hge.
  destruct Hw as [_ H8]. rewrite Forall_forall in H8. specialize (H8 _ Hk). cbn in H8.
  destruct (key_versioned k H8) as (u & t & -> & Ht). unfold key in Hge. apply not_before_version in Hge; [|done|done].
  rewrite ukey_KeyWithTs, version_KeyWithTs by done. destruct (decide (u = uk)) as [->|Hne].
  - destruct Hge as [Hg|[_ Hle]]; [by rewrite bytes_compare_refl in Hg|]. split; [|lia]. split; [done|]. split; [lia|].
    intros t' vs' Hin Ht'. destruct (Hfirst t' vs' Hin Ht') as (q & r & [= <- <-] & [Hq|Hq]).
    + injection Hq as Hq _. apply KeyWithTs_inj in Hq as [_ ->]; lia.
    + cbn [fst] in Hq. rewrite kcmp_versions, bytes_compare_refl, Z.compare_lt_iff in Hq by lia. lia.
  - intros t' vs' Hin Ht'. destruct (Z.lt_ge_cases ts t'); [done|]. exfalso.
    destruct Hge as [Hg|[-> _]]; [|done].
    destruct (Hfirst t' vs' Hin ltac:(lia)) as (q & r & [= <- <-] & [Hq|Hq]).
    + injection Hq as Hq _. apply KeyWithTs_inj in Hq as [-> _]; [done|lia|lia].
    + cbn [fst] in Hq. by rewrite kcmp_versions, Hg in Hq by lia.
Qed.

Lemma newest_unique uk ts kvs t vs t' vs' : newest uk ts kvs t vs -> newest uk ts kvs t' vs' -> t = t'.
Proof. intros (Hin & Ht & Hm) (Hin' & Ht' & Hm'). specialize (Hm _ _ Hin' Ht'). specialize (Hm' _ _ Hin Ht). lia. Qed.
Lemma walk_unique kvs k v v' : walk_ok false kvs -> (k, v) ∈ kvs -> (k, v') ∈ kvs -> v = v'.
Proof.
  intros Hw Hin Hin'. destruct (seek_list_first false k kvs (k, v) Hw Hin) as (q & r & E & Hq); [by rewrite kdir_refl|].
  destruct (seek_list_first false k kvs (k, v') Hw Hin') as (q' & r' & E' & Hq'); [by rewrite kdir_refl|].
  rewrite E in E'. injection E' as <- <-. pose proof (seek_list_ge false k kvs Hw) as Hge. rewrite E in Hge.
  apply Forall_cons in Hge as [Hge _]. destruct Hq as [->|Hq]; [|by destruct (Hge Hq)].
  destruct Hq' as [Hq'|Hq']; [by injection Hq'|]. by rewrite kdir_refl in Hq'.
Qed.
Lemma rd_newest uk ts kvs t vs : walk_ok false kvs -> 0 <= ts <= MaxUint64 -> newest uk ts kvs t vs -> rd uk ts kvs = Some (t, vs).
Proof.
  intros Hw Hts Hn. pose proof (rd_spec uk ts kvs Hw Hts) as Hr. destruct (rd uk ts kvs) as [[t' vs']|].
  - destruct Hr as [Hr _]. pose proof (newest_unique _ _ _ _ _ _ _ Hn Hr) as <-.
    destruct Hn as (Hin & _), Hr as (Hin' & _). by rewrite (walk_unique _ _ _ _ Hw Hin Hin').
  - destruct Hn as (Hin & Ht & _). specialize (Hr _ _ Hin ltac:(lia)). lia.
Qed.
Lemma rd_none uk ts kvs : walk_ok false kvs -> 0 <= ts <= MaxUint64 -> none_at uk ts kvs -> rd uk ts kvs = None.
Proof.
  intros Hw Hts Hn. pose proof (rd_spec uk ts kvs Hw Hts) as Hr. destruct (rd uk ts kvs) as [[t vs]|]; [|done].
  destruct Hr as [(Hin & Ht & _) Hm]. specialize (Hn _ _ Hin ltac:(lia)). lia.
Qed.

(** ** Searching memtables and tables *)

Definition found (r : Z * ValueStruct) : ValueStruct := versioned (snd r) (fst r).

Lemma Get_opt_rd s L uk ts : repr s L -> uk <> [] -> 0 <= ts <= MaxUint64 ->
  Get_opt s (KeyWithTs uk ts) = Ok (found <$> rd uk ts (contents L)).
Proof.
  intros Hr Huk Hts. destruct (Get_opt_latest s L uk ts Hr Huk Hts) as [H1 H2].
  pose proof (rd_spec uk ts (contents L) (walk_of_ok false s L Hr) Hts) as Hs.
  assert (forall n t, n ∈ L -> skey n = KeyWithTs uk t -> (KeyWithTs uk t, sval n) ∈ contents L) as Hin.
  { intros n t Hn <-. by apply (list_elem_of_fmap_2 (fun n => (skey n, sval n))). }
  destruct (rd uk ts (contents L)) as [[t vs]|].
  - destruct Hs as [(Ht & Hle & Hmax) _]. apply list_elem_of_fmap in Ht as (n & [= Hk ->] & Hn).
    rewrite (H1 n t); [done|done|done|done|]. intros n' t' Hn' Hk' Ht'. eapply Hmax; eauto.
  - rewrite H2; [done|]. intros n t Hn Hk Ht. eapply Hs; eauto.
Qed.

(** the first hit *)
Fixpoint first_hit (rs : list (option (Z * ValueStruct))) : option (Z * ValueStruct) :=
  match rs with
  | [] => None
  | Some r :: _ => Some r
  | None :: rs => first_hit rs
  end.
Definition sl_holds (s : SL) (kvs : list kv) : Prop := exists L, repr s L /\ contents L = kvs.

Lemma search_memtables_rd mts kvss uk ts : Forall2 sl_holds mts kvss -> uk <> [] -> 0 <= ts <= MaxUint64 ->
  search_memtables mts (KeyWithTs uk ts) = Ok (found <$> first_hit (rd uk ts <$> kvss)).
Proof.
  intros Hm Huk Hts. induction Hm as [|m kvs mts kvss (L & Hr & <-) _ IH]; [done|].
  rewrite fmap_cons. cbn [search_memtables first_hit]. rewrite (Get_opt_rd m L) by done. cbn [obind].
  by destruct (rd uk ts (contents L)).
Qed.

(** the table with the highest version wins *)
Definition upd (acc : ValueStruct) (r : option (Z * ValueStruct)) : ValueStruct :=
  match r with Some (t, vs) => if Version acc <? t then versioned vs t else acc | None => acc end.

Lemma upd_none acc rs : Forall (fun r => r = None) rs -> foldl upd acc rs = acc.
Proof. induction 1 as [|r rs -> _ IH]; done. Qed.
Lemma upd_below acc rs : Forall (fun r => match r with Some (t, _) => t <= Version acc | None => True end) rs ->
  foldl upd acc rs = acc.
Proof.
  induction 1 as [|[[t vs]|] rs Hr _ IH]; [done| |done]. cbn [foldl upd].
  destruct (Z.ltb_spec (Version acc) t); [lia|done].
Qed.
Lemma upd_newest rs t vs : forall acc, Some (t, vs) ∈ rs -> Version acc < t ->
  (forall t' vs', Some (t', vs') ∈ rs -> t' <= t /\ (t' = t -> vs' = vs)) -> foldl upd acc rs = versioned vs t.
Proof.
  induction rs as [|r rs IH]; intros acc Hin Hacc Hmax; [by apply elem_of_nil in Hin|]. cbn [foldl].
  assert (forall t' vs', Some (t', vs') ∈ rs -> t' <= t /\ (t' = t -> vs' = vs)) as Hmax'
    by (intros t' vs' H'; apply Hmax; by right).
  destruct r as [[t1 v1]|]; cbn [upd].
  - destruct (Hmax t1 v1 ltac:(left)) as [Hle Heq]. destruct (Z.ltb_spec (Version acc) t1).
    + destruct (decide (t1 = t)) as [->|Hne].
      * rewrite Heq by done. apply upd_below. apply Forall_forall. intros [[t' v']|] Hr; [|done].
        cbn. by apply Hmax' in Hr as [? _].
      * apply IH; [|cbn; lia|done]. apply elem_of_cons in Hin as [[= -> ->]|Hin]; done.
    + apply IH; [|done|done]. apply elem_of_cons in Hin as [[= -> ->]|Hin]; [lia|done].
  - apply IH; [|done|done]. by apply elem_of_cons in Hin as [Hin|Hin].
Qed.

Section Tables.
Context {RowSt Bloom : Type} `{RowL : StreamLaws RowSt} `{BloomL : BloomLaws Bloom} `{Sort : SortSlice}.
Variable fp : bytes -> Z.

Record tab_holds (row : RowSt) (t : Table (Bloom := Bloom)) (kvs : list kv) : Prop := mk_tab_holds {
  tb_groups : exists groups, table_holds row t groups /\ groups <> [] /\ tkv <$> mjoin groups = kvs;
  tb_smallest : forall p, hd_error kvs = Some p -> smallest t = fst p;
  tb_biggest : forall p, last kvs = Some p -> biggest t = fst p;
  tb_bloom : forall p, p ∈ kvs -> DoesNotHave t (fp (ukey (fst p))) = false;
  tb_file : table_file (Bloom := Bloom) fp row (fst (Loc t)) (snd (Loc t)) kvs (t_VpExtentID t) (t_VpOffset t) (LastSeq t) }.

(** a table can be opened wherever its file is *)
Lemma table_file_holds row e o kvs hE hO seq : sc_inv 0 row -> table_file (Bloom := Bloom) fp row e o kvs hE hO seq ->
  exists t, OpenTable row e o = Ok t /\ tab_holds row t kvs /\ Loc t = (e, o) /\ LastSeq t = seq /\ t_VpExtentID t = hE /\ t_VpOffset t = hO.
Proof.
  intros Hrow Hf. destruct (table_file_open fp row e o kvs hE hO seq Hrow Hf) as (t & groups & Hop & Ht & Hne & Hkv & Hsm & Hbg & Hbl & Hloc & Hseq & Hx & Ho).
  exists t. split; [done|]. split; [|done]. split; [by exists groups|exact Hsm|exact Hbg|exact Hbl|]. by rewrite Hloc, Hseq, Hx, Ho.
Qed.

Lemma tab_holds_walk row t kvs : tab_holds row t kvs -> walk_ok false kvs.
Proof. intros [(groups & Ht & _ & <-) _ _ _ _]. by apply (walk_holds row false t groups). Qed.
Lemma tab_holds_some row t kvs : tab_holds row t kvs -> kvs <> [].
Proof.
  intros [(groups & Ht & Hne & <-) _ _ _ _] E. destruct groups as [|g gs]; [done|].
  destruct (group_nonempty row t _ g Ht) as (e & l & ->); [left|]. done.
Qed.
Lemma tab_holds_mono row row' t kvs : (forall e o b, sc_stored row e o b -> sc_stored row' e o b) ->
  tab_holds row t kvs -> tab_holds row' t kvs.
Proof.
  intros Hm [(groups & [Hi Hs] & Hne & Hk) H1' H2' H3' H4']. split; [|done|done|done|by eapply table_file_mono].
  exists groups. split; [|done]. split; [|done]. by eapply index_entry_mono.
Qed.

(** one table of the search *)
Lemma search_one row (rinv : sc_inv 0 row) t kvs tbls uk ts acc : tab_holds row t kvs -> uk <> [] -> 0 <= ts <= MaxUint64 ->
  search_tables row (t :: tbls) (fp uk) (KeyWithTs uk ts) acc =
    search_tables row tbls (fp uk) (KeyWithTs uk ts) (upd acc (rd uk ts kvs)).
Proof.
  intros Ht Huk Hts. pose proof (tab_holds_walk _ _ _ Ht) as Hw. pose proof (rd_spec uk ts kvs Hw Hts) as Hs.
  destruct Ht as [(groups & Hh & Hne & Hk) _ _ Hb _]. cbn [search_tables].
  destruct (DoesNotHave t (fp uk)) eqn:Hbloom.
  { destruct (rd uk ts kvs) as [[t' vs]|]; [|done]. destruct Hs as [(Hin & _) _].
    specialize (Hb _ Hin). cbn [fst] in Hb. rewrite ukey_KeyWithTs in Hb. congruence. }
  destruct (NewIterator_ok row rinv t groups false Hh Hne) as (it & -> & Hwf & _). cbn [obind].
  unfold walk in Hwf. rewrite Hk in Hwf.
  destruct (ti_Seek row rinv false it kvs (KeyWithTs uk ts) Hwf (zlen_KeyWithTs8 uk ts)) as (it' & -> & Hat). cbn [obind].
  pose proof (y_Valid_ok (IteratorLaws := table_IteratorLaws row rinv) false it' _ _ Hat) as Hv.
  change (t_Valid it' = match seek_list false (KeyWithTs uk ts) kvs with [] => false | _ => true end) in Hv. rewrite Hv.
  unfold rd in *. destruct (seek_list false (KeyWithTs uk ts) kvs) as [|[k vs] rest] eqn:E; [done|]. cbn [negb].
  destruct (ti_item row rinv false it' _ _ _ _ Hat) as (Hkey & Hval & _). rewrite Hkey.
  destruct Hw as [_ H8]. rewrite Forall_forall in H8. specialize (H8 _ (seek_list_in _ _ _ _ _ E)). cbn in H8.
  destruct (key_versioned k H8) as (u & t' & -> & Ht').
  destruct (parse_KeyWithTs uk ts Hts) as (_ & _ & Hsame). rewrite Hsame. cbn [obind].
  rewrite ukey_KeyWithTs in *. destruct (decide (u = uk)) as [->|Hu].
  - rewrite bool_decide_true by done. destruct (parse_KeyWithTs uk t' Ht') as (_ & -> & _).
    rewrite decide_False by done. cbn [obind upd]. rewrite version_KeyWithTs by done.
    destruct (Version acc <? t'); [|done]. change (t_Value it' = Ok vs) in Hval. by rewrite Hval.
  - by rewrite bool_decide_false by congruence.
Qed.

Lemma search_tables_rd row (rinv : sc_inv 0 row) tbls kvss uk ts : uk <> [] -> 0 <= ts <= MaxUint64 ->
  Forall2 (tab_holds row) tbls kvss -> forall acc,
  search_tables row tbls (fp uk) (KeyWithTs uk ts) acc = Ok (foldl upd acc (rd uk ts <$> kvss)).
Proof.
  intros Huk Hts. induction 1 as [|t kvs tbls kvss Ht _ IH]; intros acc; [done|].
  rewrite (search_one row rinv t kvs) by done. rewrite IH. done.
Qed.

(** a table that does not span the user key has no version of it *)
Lemma walk_head kvs p q : walk_ok false kvs -> p ∈ kvs -> hd_error kvs = Some q -> bytes_compare (ukey (fst p)) (ukey (fst q)) <> Lt.
Proof.
  intros Hw Hin Hq. destruct kvs as [|q' kvs]; [done|]. injection Hq as ->. apply walk_cons in Hw as [Hf _].
  apply elem_of_cons in Hin as [->|Hin]; [by rewrite bytes_compare_refl|]. rewrite Forall_forall in Hf. specialize (Hf _ Hin).
  unfold kv_lt in Hf. cbn [kdir] in Hf. unfold kcmp in Hf. rewrite (bytes_compare_antisym (ukey (fst q))).
  by destruct (bytes_compare (ukey (fst q)) (ukey (fst p))).
Qed.
Lemma walk_last kvs p q : walk_ok false kvs -> p ∈ kvs -> last kvs = Some q -> bytes_compare (ukey (fst p)) (ukey (fst q)) <> Gt.
Proof.
  intros [Hs _] Hin Hq. apply last_Some in Hq as [l ->]. apply elem_of_app in Hin as [Hin|Hin%list_elem_of_singleton].
  - assert (kv_lt false p q) as Hf by (eapply StronglySorted_app; [exact Hs|done|left]).
    unfold kv_lt in Hf. cbn [kdir] in Hf. unfold kcmp in Hf. by destruct (bytes_compare (ukey (fst p)) (ukey (fst q))).
  - subst. by rewrite bytes_compare_refl.
Qed.

Lemma ParseKey_ukey k : 8 <= zlen k -> ParseKey (Some k) = Ok (Some (ukey k)).
Proof.
  intros Hk. destruct (key_versioned k Hk) as (u & t & -> & Ht). destruct (parse_KeyWithTs u t Ht) as (-> & _).
  by rewrite ukey_KeyWithTs.
Qed.
Lemma in_8 kvs p : walk_ok false kvs -> p ∈ kvs -> 8 <= zlen (fst p).
Proof. intros [_ H8] Hin. rewrite Forall_forall in H8. by apply H8. Qed.

Lemma covering_ok row uk ts tbls kvss : 0 <= ts <= MaxUint64 -> Forall2 (tab_holds row) tbls kvss ->
  exists tbls' kvss', covering uk tbls = Ok tbls' /\ Forall2 (tab_holds row) tbls' kvss' /\
    (forall kvs, kvs ∈ kvss' -> kvs ∈ kvss) /\ (forall kvs, kvs ∈ kvss -> rd uk ts kvs = None \/ kvs ∈ kvss').
Proof.
  intros Hts. induction 1 as [|t kvs tbls kvss Ht _ (tbls' & kvss' & Hc & Hf & Hin & Hout)].
  { exists [], []. split; [done|]. split; [done|]. split; [done|]. intros kvs Hk. by apply elem_of_nil in Hk. }
  pose proof (tab_holds_walk _ _ _ Ht) as Hw. pose proof (tab_holds_some _ _ _ Ht) as Hne.
  destruct (hd_error kvs) as [p|] eqn:Hp; [|by destruct kvs]. destruct (last kvs) as [q|] eqn:Hq; [|by apply last_None in Hq].
  assert (p ∈ kvs) as Hpin by (destruct kvs; [done|injection Hp as ->; left]).
  assert (q ∈ kvs) as Hqin by (apply last_Some in Hq as [l ->]; apply elem_of_app; right; left).
  cbn [covering]. rewrite (tb_smallest _ _ _ Ht p Hp), (tb_biggest _ _ _ Ht q Hq), !ParseKey_ukey by (eapply in_8; eauto).
  cbn [obind]. rewrite Hc. cbn [obind]. unfold default, from_option, id.
  assert (rd uk ts kvs <> None -> bytes_compare uk (ukey (fst p)) <> Lt /\ bytes_compare uk (ukey (fst q)) <> Gt) as Hspan.
  { pose proof (rd_spec uk ts kvs Hw Hts) as Hs. destruct (rd uk ts kvs) as [[t' vs]|]; [|done]. intros _.
    destruct Hs as [(Hk & _) _]. pose proof (walk_head _ _ _ Hw Hk Hp) as H1. pose proof (walk_last _ _ _ Hw Hk Hq) as H2.
    cbn [fst] in H1, H2. by rewrite ukey_KeyWithTs in H1, H2. }
  assert (spans uk (ukey (fst p)) (ukey (fst q)) = true \/ rd uk ts kvs = None) as Hkeep.
  { unfold spans. destruct (rd uk ts kvs) as [r|]; [left|by right]. destruct (Hspan ltac:(done)) as [H1 H2].
    by destruct (bytes_compare uk (ukey (fst p))), (bytes_compare uk (ukey (fst q))). }
  destruct (spans uk (ukey (fst p)) (ukey (fst q))).
  - exists (t :: tbls'), (kvs :: kvss'). split; [done|]. split; [by constructor|]. split.
    + intros k Hk. apply elem_of_cons in Hk as [->|Hk]; [left|right; by apply Hin].
    + intros k Hk. apply elem_of_cons in Hk as [->|Hk]; [right; left|]. destruct (Hout k Hk); [by left|right; by right].
  - exists tbls', kvss'. split; [done|]. split; [done|]. split; [intros k Hk; right; by apply Hin|].
    intros k Hk. apply elem_of_cons in Hk as [->|Hk]; [left; by destruct Hkeep|by apply Hout].
Qed.
End Tables.

(** ** What a read finds *)

(** every version of a key in [A] is newer than those in [B] *)
Definition newer (A B : list kv) : Prop :=
  forall uk t t' v v', (KeyWithTs uk t, v) ∈ A -> (KeyWithTs uk t', v') ∈ B ->
    0 <= t <= MaxUint64 -> 0 <= t' <= MaxUint64 -> t' < t.
(** memtables, newest first, are newer than what follows them *)
Fixpoint ordered (mems : list (list kv)) (rest : list kv) : Prop :=
  match mems with
  | [] => True
  | K :: mems => newer K (mjoin mems ++ rest) /\ ordered mems rest
  end.

Lemma first_hit_newest uk ts mems rest t vs : 0 <= ts <= MaxUint64 -> Forall (walk_ok false) mems -> ordered mems rest ->
  newest uk ts (mjoin mems ++ rest) t vs ->
  first_hit (rd uk ts <$> mems) = Some (t, vs) \/
  (first_hit (rd uk ts <$> mems) = None /\ newest uk ts rest t vs).
Proof.
  intros Hts. induction mems as [|K mems IH]; intros Hw Ho Hn; [by right|].
  apply Forall_cons in Hw as [HwK Hw]. destruct Ho as [HK Ho]. rewrite fmap_cons. cbn [first_hit].
  change (mjoin (K :: mems)) with (K ++ mjoin mems) in Hn. rewrite <- app_assoc in Hn.
  destruct Hn as (Hin & Ht & Hmax). pose proof (rd_spec uk ts K HwK Hts) as Hs.
  destruct (rd uk ts K) as [[t0 vs0]|].
  - left. destruct Hs as [(Hin0 & Ht0 & Hmax0) Hm]. apply elem_of_app in Hin as [Hin|Hin].
    + assert (t0 = t) as ->.
      { pose proof (Hmax0 _ _ Hin Ht). pose proof (Hmax t0 vs0 ltac:(apply elem_of_app; by left) Ht0). lia. }
      by rewrite (walk_unique _ _ _ _ HwK Hin0 Hin).
    + exfalso. pose proof (HK uk t0 t vs0 vs Hin0 Hin ltac:(lia) ltac:(lia)).
      pose proof (Hmax t0 vs0 ltac:(apply elem_of_app; by left) Ht0). lia.
  - apply IH; [done|done|]. apply elem_of_app in Hin as [Hin|Hin]; [specialize (Hs _ _ Hin ltac:(lia)); lia|].
    split; [done|]. split; [done|]. intros t' vs' H' Ht'. apply (Hmax t' vs'); [|done]. apply elem_of_app. by right.
Qed.
Lemma first_hit_none uk ts mems : 0 <= ts <= MaxUint64 -> Forall (walk_ok false) mems -> none_at uk ts (mjoin mems) ->
  first_hit (rd uk ts <$> mems) = None.
Proof.
  intros Hts. induction mems as [|K mems IH]; intros Hw Hn; [done|]. apply Forall_cons in Hw as [HwK Hw].
  rewrite fmap_cons. cbn [first_hit]. change (mjoin (K :: mems)) with (K ++ mjoin mems) in Hn.
  rewrite (rd_none uk ts K HwK Hts); [apply IH; [done|]|];
    intros t vs Hin; apply (Hn t vs); apply elem_of_app; [by right|by left].
Qed.

Lemma tabs_elem (tabs : list (list kv)) p : p ∈ mjoin tabs <-> exists kvs, kvs ∈ tabs /\ p ∈ kvs.
Proof. rewrite list_elem_of_join. split; intros (x & ? & ?); eauto. Qed.

Lemma unique_pair (l : list kv) k v v' : NoDup (fst <$> l) -> (k, v) ∈ l -> (k, v') ∈ l -> v = v'.
Proof.
  intros Hn Hin Hin'. apply list_elem_of_lookup_1 in Hin as [i Hi]. apply list_elem_of_lookup_1 in Hin' as [j Hj].
  assert (i = j) as ->; [|congruence].
  apply (NoDup_lookup _ i j k Hn); rewrite list_lookup_fmap; [by rewrite Hi|by rewrite Hj].
Qed.

Section Engine.
Context {LogSt RowSt Bloom : Type}.
Context `{LogL : StreamLaws LogSt} `{LogS : !LogStream LogSt} `{LogA : !LogLaws LogSt}.
Context `{RowL : StreamLaws RowSt} `{BloomL : BloomLaws Bloom} `{Sort : SortSlice}.
Variable fp : bytes -> Z.
Abbreviation RP := (RangePartition (LogSt := LogSt) (RowSt := RowSt) (Bloom := Bloom)).

Definition user_version (n : Z) (k : bytes) : Prop := exists uk t, k = KeyWithTs uk t /\ uk <> [] /\ 1 <= t <= n.

(** the levels of a partition and the versions they hold *)
Record levels (rp : RP) (mems tabs : list (list kv)) : Prop := mk_levels {
  lv_mems : Forall2 sl_holds (getMemTables rp) mems;
  lv_tabs : Forall2 (tab_holds fp (rowStream rp)) (rp_tables rp) tabs;
  lv_row : sc_inv 0 (rowStream rp);
  lv_order : ordered mems (mjoin tabs);
  lv_unique : NoDup (fst <$> mjoin tabs);
  lv_seq : 0 <= seqNumber rp <= MaxUint64;
  lv_versions : Forall (fun p => user_version (seqNumber rp) (fst p)) (mjoin mems ++ mjoin tabs) }.

Lemma sl_holds_walk s kvs : sl_holds s kvs -> walk_ok false kvs.
Proof. intros (L & Hr & <-). by apply (walk_of_ok false s). Qed.
Lemma levels_walk rp mems tabs : levels rp mems tabs -> Forall (walk_ok false) mems /\ Forall (walk_ok false) tabs.
Proof.
  intros Hl. split.
  - pose proof (lv_mems _ _ _ Hl) as Hm. clear Hl. induction Hm; constructor; [by eapply sl_holds_walk|done].
  - pose proof (lv_tabs _ _ _ Hl) as Ht. clear Hl. induction Ht; constructor; [by eapply tab_holds_walk|done].
Qed.

Lemma table_search_rd rp mems tabs uk ts : levels rp mems tabs -> uk <> [] -> 0 <= ts <= MaxUint64 ->
  exists kvss, (let! tbls := getTablesForKey rp uk in search_tables (rowStream rp) tbls (fp uk) (KeyWithTs uk ts) emptyVS) =
      Ok (foldl upd emptyVS (rd uk ts <$> kvss)) /\
    (forall kvs, kvs ∈ kvss -> kvs ∈ tabs) /\ (forall kvs, kvs ∈ tabs -> rd uk ts kvs = None \/ kvs ∈ kvss).
Proof.
  intros Hl Huk Hts. unfold getTablesForKey.
  destruct (covering_ok fp (rowStream rp) uk ts _ _ Hts (lv_tabs _ _ _ Hl)) as (tbls & kvss & -> & Hf & Hin & Hout). cbn [obind].
  pose proof (sort_slice_perm (fun t => - LastSeq t) tbls) as Hperm.
  destruct (Permutation_Forall2 Hperm Hf) as (kvss' & Hp & Hf').
  exists kvss'. split; [by apply (search_tables_rd fp _ (lv_row _ _ _ Hl))|]. split.
  - intros kvs Hk. apply Hin. by rewrite Hp.
  - intros kvs Hk. destruct (Hout kvs Hk); [by left|right]. by rewrite <- Hp.
Qed.

(** the tables alone *)
Lemma table_search_newest rp mems tabs uk ts t vs : levels rp mems tabs -> uk <> [] -> 0 <= ts <= MaxUint64 ->
  newest uk ts (mjoin tabs) t vs ->
  (let! tbls := getTablesForKey rp uk in search_tables (rowStream rp) tbls (fp uk) (KeyWithTs uk ts) emptyVS) = Ok (versioned vs t).
Proof.
  intros Hl Huk Hts (Hin & Ht & Hmax). destruct (table_search_rd rp mems tabs uk ts Hl Huk Hts) as (kvss & -> & Hsub & Hcov).
  destruct (levels_walk _ _ _ Hl) as [_ Hw]. rewrite Forall_forall in Hw.
  apply tabs_elem in Hin as (kvs & Hk & Hin).
  assert (newest uk ts kvs t vs) as Hn.
  { split; [done|]. split; [done|]. intros t' v' H'. apply (Hmax t' v'). apply tabs_elem. eauto. }
  pose proof (rd_newest uk ts kvs t vs (Hw _ Hk) Hts Hn) as Hrd.
  f_equal. apply upd_newest.
  - rewrite <- Hrd. apply list_elem_of_fmap_2. destruct (Hcov kvs Hk) as [E|]; [congruence|done].
  - pose proof (lv_versions _ _ _ Hl) as Hv. rewrite Forall_forall in Hv.
    destruct (Hv (KeyWithTs uk t, vs)) as (u & t1 & E & _ & Hge); [apply elem_of_app; right; apply tabs_elem; eauto|].
    pose proof (lv_seq _ _ _ Hl). apply KeyWithTs_inj in E as [_ ->]; cbn; lia.
  - intros t' vs' Hr. apply list_elem_of_fmap in Hr as (kvs' & Hr & Hk'). apply Hsub in Hk'.
    pose proof (rd_spec uk ts kvs' (Hw _ Hk') Hts) as Hs. rewrite <- Hr in Hs. destruct Hs as [(Hin' & Ht' & _) _].
    assert ((KeyWithTs uk t', vs') ∈ mjoin tabs) as Hin'' by (apply tabs_elem; eauto).
    split; [by eapply Hmax|]. intros ->. eapply (unique_pair (mjoin tabs)); [apply Hl|exact Hin''|apply tabs_elem; eauto].
Qed.

(** a read returns the newest version at or before the version asked for *)
Lemma getValueStruct_newest rp mems tabs uk version t vs : levels rp mems tabs -> uk <> [] -> 0 <= version <= MaxUint64 ->
  newest uk (if version =? 0 then seqNumber rp else version) (mjoin mems ++ mjoin tabs) t vs ->
  getValueStruct fp rp uk version = Ok (versioned vs t).
Proof.
  intros Hl Huk Hv Hn. unfold getValueStruct. set (ts := if version =? 0 then seqNumber rp else version) in *.
  assert (0 <= ts <= MaxUint64) as Hts by (subst ts; pose proof (lv_seq _ _ _ Hl); by destruct (version =? 0)).
  rewrite (search_memtables_rd _ _ uk ts (lv_mems _ _ _ Hl) Huk Hts). cbn [obind].
  destruct (levels_walk _ _ _ Hl) as [Hw _].
  destruct (first_hit_newest uk ts mems (mjoin tabs) t vs Hts Hw (lv_order _ _ _ Hl) Hn) as [->|[-> Hn']]; [done|].
  by apply (table_search_newest rp mems tabs).
Qed.
Lemma getValueStruct_none rp mems tabs uk version : levels rp mems tabs -> uk <> [] -> 0 <= version <= MaxUint64 ->
  none_at uk (if version =? 0 then seqNumber rp else version) (mjoin mems ++ mjoin tabs) ->
  getValueStruct fp rp uk version = Ok emptyVS.
Proof.
  intros Hl Huk Hv Hn. unfold getValueStruct. set (ts := if version =? 0 then seqNumber rp else version) in *.
  assert (0 <= ts <= MaxUint64) as Hts by (subst ts; pose proof (lv_seq _ _ _ Hl); by destruct (version =? 0)).
  rewrite (search_memtables_rd _ _ uk ts (lv_mems _ _ _ Hl) Huk Hts). cbn [obind].
  destruct (levels_walk _ _ _ Hl) as [Hw Hwt]. rewrite Forall_forall in Hwt.
  rewrite (first_hit_none uk ts mems Hts Hw) by (intros t vs Hin; apply (Hn t vs), elem_of_app; by left). cbn [fmap option_fmap option_map].
  destruct (table_search_rd rp mems tabs uk ts Hl Huk Hts) as (kvss & -> & Hsub & _). f_equal.
  apply upd_none. apply Forall_forall. intros r Hr. apply list_elem_of_fmap in Hr as (kvs & -> & Hk). apply Hsub in Hk.
  apply rd_none; [by apply Hwt|done|]. intros t vs Hin. apply (Hn t vs), elem_of_app. right. apply tabs_elem. eauto.
Qed.

(** C6: A read at a version (0 meaning now) returns the newest version of the key at or before it
    among all memtables and tables, with its timestamp, and the zero value when there is none. *)
Theorem getValueStruct_reads rp mems tabs uk version : levels rp mems tabs -> uk <> [] -> 0 <= version <= MaxUint64 ->
  let ts := if version =? 0 then seqNumber rp else version in
  (forall t vs, newest uk ts (mjoin mems ++ mjoin tabs) t vs -> getValueStruct fp rp uk version = Ok (versioned vs t)) /\
  (none_at uk ts (mjoin mems ++ mjoin tabs) -> getValueStruct fp rp uk version = Ok emptyVS).
Proof.
  intros Hl Huk Hv ts. split.
  - intros t vs. by apply getValueStruct_newest.
  - by apply getValueStruct_none.
Qed.
End Engine.
