(* ===== verification/PartitionRun.v ===== *)
(** The partition engine refines a map: batches of writes, deletes, reads and
    flushes in any order return what a map from keys to values returns. *)
From Stdlib Require Import ZArith Lia.
From stdpp Require Import base option list numbers gmap sorting strings.
From S2P Require Import Prelude GoLib Utils Proto ProtoPs Keys YIter Extent MixBlock Stream.
From S2P Require Import Skiplist SkiplistSpec SkiplistPut SkiplistIter TableBlock Table TableSpec TableBuild Merge.
From S2P Require Import Partition PartitionSpec.

(** ** valuePointer *)

Lemma vp_roundtrip p : is_u64 (vp_extentID p) -> is_u32 (vp_offset p) -> is_u32 (vp_len p) ->
  vp_Decode (vp_Encode p) = Ok p.
Proof.
  unfold is_u64, is_u32. intros Hx Ho Hl. unfold vp_Decode, vp_Encode, vptrSize.
  pose proof (zlen_le_put 8 (vp_extentID p)). pose proof (zlen_le_put 4 (vp_offset p)). pose proof (zlen_le_put 4 (vp_len p)).
  rewrite slice_Ok by (rewrite ?zlen_app; lia). cbn [obind].
  rewrite Z.sub_0_r, (zdrop_0 0), (ztake_ge 16) by (rewrite ?zlen_app; lia).
  rewrite ztake_app_exact by lia. rewrite (zdrop_app_exact 8) by lia. rewrite ztake_app_exact by lia.
  rewrite app_assoc, zdrop_app_exact by (rewrite zlen_app; lia).
  rewrite !le_get_put. destruct p as [x o l]. cbn [vp_extentID vp_offset vp_len] in *.
  rewrite !Z.mod_small; [done|lia|lia|lia].
Qed.
Lemma zlen_vp_Encode p : zlen (vp_Encode p) = 16.
Proof. unfold vp_Encode. rewrite !zlen_app, !zlen_le_put. done. Qed.

(** ** Entries in the memtable *)

Lemma insert_kv_fresh k v l : k ∉ (fst <$> l) -> Permutation (insert_kv k v l) ((k, v) :: l).
Proof.
  induction l as [|[k' v'] l IH]; intros Hf; [done|]. rewrite fmap_cons in Hf. cbn [insert_kv].
  destruct (kcmp k k') eqn:E; [|done|].
  - apply kcmp_eq in E as ->. destruct Hf. left.
  - rewrite IH; [apply perm_swap|]. intros Hin. apply Hf. by right.
Qed.

Lemma lsm_value_version e : versioned (lsm_value e) 0 = lsm_value e.
Proof. unfold lsm_value. by destruct (ShouldWriteValueToLSM (Log e)). Qed.

Definition putable (e : EntryInfo) : Prop :=
  8 <= zlen (Key (Log e)) < 2 ^ 16 - 4 /\ VS_wf (lsm_value e) /\ EncodedSize (lsm_value e) < 2 ^ 20.
Definition est_size (entries : list EntryInfo) : Z := foldr (fun e n => estimatedSizeInSkl (Log e) + n) 0 entries.

Lemma estimated_covers e : putable e -> put_cost (Key (Log e)) (lsm_value e) 20 <= estimatedSizeInSkl (Log e).
Proof.
  intros (Hk & Hv & _). unfold put_cost, estimatedSizeInSkl, MaxNodeSize. unfold EncodedSize.
  pose proof (Hv) as (_ & _ & Hx & Hl). pose proof (zlen_nonneg (VValue (lsm_value e))).
  rewrite SizeVarint_PutUvarint by done. pose proof (zlen_PutUvarint (VExpiresAt (lsm_value e)) ltac:(apply Hx)).
  rewrite u32_small by lia. unfold lsm_value in *. destruct (ShouldWriteValueToLSM (Log e)); cbn [VValue VExpiresAt] in *.
  - rewrite SizeVarint_PutUvarint by done. lia.
  - rewrite SizeVarint_PutUvarint by done. rewrite zlen_vp_Encode. unfold vptrSize. lia.
Qed.

(** the value is of a size the compaction expects *)
Definition shaped (k : bytes) (vs : ValueStruct) : Prop :=
  put_cost k vs 20 <= estimatedVS k vs /\ (0 < Z.land (VMeta vs) BitValuePointer -> zlen (VValue vs) = 16).
Definition plain_kv (p : kv) : Prop := small_kv (fst p) (snd p) /\ Version (snd p) = 0 /\ shaped (fst p) (snd p).

Lemma lsm_shaped e : putable e -> plain_kv (Key (Log e), lsm_value e).
Proof.
  intros He. pose proof (estimated_covers e He) as Hc. pose proof He as (Hk & Hv & Hs). split; [split; [split; [cbn [fst]; lia|done]|done]|].
  split; [unfold lsm_value; by destruct (ShouldWriteValueToLSM (Log e))|].
  unfold shaped. cbn [fst snd]. unfold estimatedVS, estimatedSizeInSkl, lsm_value in *.
  destruct (ShouldWriteValueToLSM (Log e)) eqn:E; cbn [VMeta VValue VExpiresAt] in *.
  - apply andb_true_iff in E as [E1 E2]. unfold getLowerByte. rewrite <- Z.land_assoc. change (Z.land 255 BitValuePointer) with BitValuePointer.
    rewrite E1, E2. split; [done|]. apply Z.eqb_eq in E1. rewrite E1. done.
  - split; [|intros _; apply zlen_vp_Encode]. rewrite Z.land_lor_distr_l. change (Z.land BitValuePointer BitValuePointer) with 2.
    destruct (Z.eqb_spec (Z.lor (Z.land (getLowerByte (Meta (Log e))) BitValuePointer) 2) 0) as [E0|]; [|done].
    apply Z.lor_eq_0_iff in E0 as [_ E0]. done.
Qed.

Lemma est_size_cons e l : est_size (e :: l) = estimatedSizeInSkl (Log e) + est_size l.
Proof. done. Qed.
Lemma est_size_nonneg entries : Forall putable entries -> 0 <= est_size entries.
Proof.
  induction 1 as [|e l He _ IH]; [done|]. rewrite est_size_cons. pose proof (estimated_covers e He) as Hc.
  destruct He as (Hk & Hv & _). pose proof (EncodedSize_bounds _ Hv). pose proof (zlen_nonneg (VValue (lsm_value e))).
  unfold put_cost in Hc. lia.
Qed.

(** ** Entries of the client operations *)

Definition new_log (k v : bytes) (t meta : Z) : Entry := mkEntry (KeyWithTs k t) v meta 0 0.
(** what a client may write *)
Definition client_kv (k v : bytes) : Prop := k <> [] /\ zlen k <= 2048 /\ zlen v < 2 ^ 30.

Lemma new_log_packable k v t meta : client_kv k v -> meta = 0 \/ meta = BitDelete -> packable (new_log k v t meta).
Proof.
  intros (Hne & Hk & Hv) Hm. pose proof (zlen_nonneg k). pose proof (zlen_nonneg v).
  assert (Entry_wf (new_log k v t meta)) as Hwf.
  { unfold Entry_wf, new_log, is_u32, is_u64. cbn [Meta UserMeta ExpiresAt Key Value]. rewrite zlen_KeyWithTs.
    unfold BitDelete in Hm. repeat split; destruct Hm; lia. }
  pose proof (Entry_bytes_bound _ Hwf) as Hb. pose proof (Entry_Size_bytes _ Hwf) as Hs.
  unfold new_log in Hb at 2 3. cbn [Key Value] in Hb. rewrite zlen_KeyWithTs in Hb.
  split; [done|]. split; [|split; [lia|]].
  - unfold Entry_Size, new_log. cbn [Key Value Meta UserMeta ExpiresAt]. rewrite zlen_KeyWithTs.
    destruct (Z.ltb_spec 0 (zlen k + 8)); [|lia].
    pose proof (sov_nonneg (zlen k + 8)). pose proof (sov_nonneg (zlen v)). pose proof (sov_nonneg meta).
    change (negb (0 =? 0)) with false. destruct (0 <? zlen v), (negb (meta =? 0)); cbv zeta iota; lia.
  - intros Hsm. assert (zlen v <= 1024) as Hl.
    { unfold ShouldWriteValueToLSM, new_log in Hsm. cbn [Meta Value] in Hsm. apply andb_true_iff in Hsm as [_ Hl].
      by apply Z.leb_le in Hl. }
    change MaxMixedBlockSize with 4096. lia.
Qed.

Lemma logged_putable {St} `{StreamLaws St} (s : St) k v t meta e x o z : client_kv k v -> meta = 0 \/ meta = BitDelete ->
  logged s (mkEI (new_log k v t meta) x o z) e -> putable e.
Proof.
  intros (Hne & Hk & Hv) Hm [Hlog _]. cbn [Log] in Hlog. pose proof (zlen_nonneg k). pose proof (zlen_nonneg v).
  assert (VS_wf (lsm_value e) /\ zlen (VValue (lsm_value e)) <= 1024) as [Hwf Hl].
  { unfold lsm_value. rewrite Hlog. destruct (ShouldWriteValueToLSM (new_log k v t meta)) eqn:Hs.
    - assert (zlen v <= 1024) as Hl.
      { unfold ShouldWriteValueToLSM, new_log in Hs. cbn [Meta Value] in Hs. apply andb_true_iff in Hs as [_ Hl].
        by apply Z.leb_le in Hl. }
      unfold VS_wf, new_log, is_u64, getLowerByte. cbn [VMeta VUserMeta VExpiresAt VValue Meta UserMeta ExpiresAt Value].
      split; [|done]. repeat split; try lia; by destruct Hm as [-> | ->].
    - unfold VS_wf, new_log, is_u64, getLowerByte. cbn [VMeta VUserMeta VExpiresAt VValue Meta UserMeta ExpiresAt].
      rewrite zlen_vp_Encode. split; [|done]. repeat split; try lia; by destruct Hm as [-> | ->]. }
  split; [rewrite Hlog; unfold new_log; cbn [Key]; rewrite zlen_KeyWithTs; lia|]. split; [done|].
  pose proof (EncodedSize_bounds _ Hwf). lia.
Qed.

(** ** What a stored value stands for *)

Section Values.
Context {LogSt : Type} `{LogL : StreamLaws LogSt}.

(** [Some v] for a value, [None] for a deletion *)
Definition stands (log : LogSt) (vs : ValueStruct) (ov : option bytes) : Prop :=
  VExpiresAt vs = 0 /\
  match ov with
  | None => 0 < Z.land (VMeta vs) BitDelete
  | Some v => Z.land (VMeta vs) BitDelete = 0 /\
      if 0 <? Z.land (VMeta vs) BitValuePointer then
        exists vp b e, VValue vs = vp_Encode vp /\ is_u64 (vp_extentID vp) /\ is_u32 (vp_offset vp) /\ is_u32 (vp_len vp) /\
          sc_stored log (vp_extentID vp) (vp_offset vp) b /\ ExtractLogEntry b = Ok [e] /\ Value e = v
      else VValue vs = v
  end.
Lemma stands_mono log log' vs ov : (forall e o b, sc_stored log e o b -> sc_stored log' e o b) ->
  stands log vs ov -> stands log' vs ov.
Proof.
  intros Hm. unfold stands. intros [Hx Hv]. split; [done|]. destruct ov as [v|]; [|done]. destruct Hv as [Hd Hv]. split; [done|].
  destruct (0 <? Z.land (VMeta vs) BitValuePointer); [|done].
  destruct Hv as (vp & b & e & H1 & H2 & H3 & H4 & H5 & H6 & H7). exists vp, b, e. eauto 10.
Qed.

Lemma logged_stands n log k v t e x o z : sc_inv n log -> client_kv k v ->
  logged log (mkEI (new_log k v t 0) x o z) e -> stands log (lsm_value e) (Some v).
Proof.
  intros Hinv (_ & _ & Hv) [Hlog Hpl]. cbn [Log] in *. unfold lsm_value. rewrite Hlog. pose proof (zlen_nonneg v).
  destruct (ShouldWriteValueToLSM (new_log k v t 0)) eqn:Hs; [done|]. split; [done|]. split; [done|].
  destruct (Hpl eq_refl) as (b & Hb & Hx). destruct (sc_read_stored n log _ _ b Hinv Hb) as (_ & Hu1 & Hu2).
  eexists (mkVP (EI_ExtentID e) (EI_Offset e) (u32 (zlen v))), b, _. cbn [vp_extentID vp_offset vp_len].
  split; [done|]. split; [done|]. split; [done|]. split; [unfold is_u32; apply u32_range|]. split; [done|]. split; [exact Hx|done].
Qed.
Lemma tombstone_stands log k t e x o z : logged log (mkEI (new_log k [] t BitDelete) x o z) e -> stands log (lsm_value e) None.
Proof. intros [Hlog _]. cbn [Log] in Hlog. unfold lsm_value. rewrite Hlog. done. Qed.
End Values.

(** ** Flushing a memtable *)

Lemma flush_loop_ok fp s L : repr s L -> forall l2 l1 fuel b, L = l1 ++ l2 -> (length l2 < fuel)%nat ->
  flush_loop fp fuel s (start_off l2) b = add_all fp b (contents l2).
Proof.
  intros Hr. induction l2 as [|n l2 IH]; intros l1 fuel b HL Hf; (destruct fuel as [|fuel]; [cbn in Hf; lia|]); [done|].
  destruct (it_at s L l1 n l2 Hr HL) as (Hv & Hk & Hval & Hn). cbn [flush_loop start_off].
  rewrite Hv, Hk. cbn [obind]. rewrite Hval. cbn [obind contents fmap list_fmap add_all].
  destruct (Builder_Add fp b (skey n) (sval n)) as [b'| |]; [|done|done]. cbn [obind]. rewrite Hn. cbn [obind].
  apply (IH (l1 ++ [n])); [by rewrite <- app_assoc|cbn in Hf; lia].
Qed.

Section Run.
Context {LogSt RowSt Bloom : Type}.
Context `{LogL : StreamLaws LogSt} `{LogS : !LogStream LogSt} `{LogA : !LogLaws LogSt}.
Context `{RowL : StreamLaws RowSt} `{BloomL : BloomLaws Bloom} `{Sort : SortSlice}.
Variable fp : bytes -> Z.
Variable rnd : SL -> bytes -> nat -> Z.
Variable sched : Z -> nat -> nat.
(** the JSON form of the filter of a memtable's keys stays below half a gigabyte *)
Hypothesis bloom_small : forall hs : list Z, zlen hs <= 2 ^ 21 -> zlen (bf_JSONMarshal (filter_of (Bloom := Bloom) hs)) < 2 ^ 29.
Abbreviation RP := (RangePartition (LogSt := LogSt) (RowSt := RowSt) (Bloom := Bloom)).

Record mem_ok (m : Mem) (kvs : list kv) : Prop := mk_mem_ok {
  mo_holds : sl_holds (m_sl m) kvs;
  mo_buf : maxSkipList <= zlen (buf (arena (m_sl m))) <= 2 * maxSkipList;
  mo_bytes : kv_bytes kvs + 107 <= MemSize (m_sl m);
  mo_small : Forall (fun p => small_kv (fst p) (snd p)) kvs;
  mo_plain : Forall (fun p => Version (snd p) = 0) kvs }.

Lemma mem_ok_size m kvs : mem_ok m kvs -> kv_bytes kvs <= 2 * maxSkipList.
Proof.
  intros [(L & Hr & _) Hb Hs _ _]. pose proof (r_arena _ _ Hr) as [[_ Ha] _]. unfold MemSize, arena_size in Hs. lia.
Qed.
Lemma kv_bytes_weight kvs : weight kvs <= 3 * kv_bytes kvs /\ zlen kvs <= kv_bytes kvs.
Proof.
  induction kvs as [|p kvs [IH1 IH2]]; [done|]. rewrite kv_bytes_cons, zlen_cons. cbn [weight foldr]. fold (weight kvs).
  pose proof (zlen_nonneg (fst p)). lia.
Qed.
Lemma mem_ok_input m kvs : mem_ok m kvs -> kvs <> [] -> table_input (Bloom := Bloom) fp kvs.
Proof using bloom_small.
  intros Hm Hne. pose proof (mem_ok_size m kvs Hm) as Hb. destruct (kv_bytes_weight kvs) as [Hw Hz].
  pose proof (sl_holds_walk _ _ (mo_holds _ _ Hm)) as [Hs _]. split; [done|done|by destruct Hm|].
  change (2 * maxSkipList) with (2 ^ 21) in Hb.
  pose proof (bloom_small ((fun p => fp (ukey (fst p))) <$> kvs)) as Hbl. unfold zlen at 1 in Hbl. rewrite length_fmap in Hbl.
  fold (zlen kvs) in Hbl. specialize (Hbl ltac:(lia)). lia.
Qed.
Lemma stored_plain kvs : Forall (fun p => Version (snd p) = 0) kvs -> stored_kvs kvs = kvs.
Proof.
  unfold stored_kvs. induction 1 as [|[k [m u x v ver]] kvs Hp _ IH]; [done|]. cbn in Hp. subst ver.
  rewrite fmap_cons, IH. done.
Qed.

Definition with_row (rp : RP) (row : RowSt) (t : Table (Bloom := Bloom)) : RP :=
  mkRP (logStream rp) row (logRotates rp) (blockWrites rp) (rp_mt rp) (rp_imm rp) (flushChan rp) (rp_tables rp ++ [t])
        (seqNumber rp) (vhead rp) (pm_tables rp) (nextPtr rp).

Definition task_ok (ft : flushTask) : Prop :=
  is_u64 (vp_extentID (ft_vptr ft)) /\ is_u32 (vp_offset (ft_vptr ft)) /\ is_u64 (ft_seqNum ft).

Lemma Empty_ok s L : repr s L -> Empty s = Ok (match L with [] => true | _ => false end).
Proof.
  intros Hr. unfold Empty. pose proof (SeekToLast_ok s L Hr) as E. unfold it_SeekToLast in E. rewrite E. cbn [obind]. f_equal.
  unfold end_off. destruct (last L) as [n|] eqn:El; [|by apply last_None in El as ->].
  assert (n ∈ L) as Hin by (apply last_Some in El as [l ->]; apply elem_of_app; right; left).
  pose proof (r_nodes s L Hr) as Hok. rewrite Forall_forall in Hok. pose proof (no_nz s n (Hok n Hin)).
  destruct (Z.eqb_spec (soff n) 0); [lia|]. by destruct L.
Qed.

Lemma handleFlushTask_empty (rp : RP) ft : mem_ok (ft_mt ft) [] -> handleFlushTask fp sched rp ft = Ok rp.
Proof.
  intros [(L & Hr & Hc) _ _ _ _]. unfold handleFlushTask. rewrite (Empty_ok _ L Hr). by destruct L.
Qed.
Lemma handleFlushTask_ok m (rp : RP) ft kvs : mem_ok (ft_mt ft) kvs -> kvs <> [] -> task_ok ft ->
  sc_inv (length kvs + (1 + m)) (rowStream rp) ->
  exists row t, handleFlushTask fp sched rp ft = Ok (with_row rp row t) /\ sc_inv m row /\
    (forall e o b, sc_stored (rowStream rp) e o b -> sc_stored row e o b) /\ tab_holds fp row t kvs /\ LastSeq t = ft_seqNum ft /\
    t_VpExtentID t = vp_extentID (ft_vptr ft) /\ t_VpOffset t = vp_offset (ft_vptr ft).
Proof using bloom_small BloomL RowL.
  intros Hm Hne (Hu1 & Hu2 & Hu3) Hrow. pose proof (mem_ok_input _ _ Hm Hne) as Hin.
  destruct (build_file (Bloom := Bloom) fp (sched (ft_seqNum ft)) m (rowStream rp) kvs _ _ _ Hrow Hin Hu1 Hu2 Hu3)
    as (row & e & o & Hb & Hrow' & Hmono & Hf). rewrite (stored_plain kvs (mo_plain _ _ Hm)) in Hf.
  destruct (table_file_holds fp row e o _ _ _ _ (sc_inv_le m 0 row Hrow' ltac:(lia)) Hf) as (t & Ho & Ht & _ & Hseq & Hx & Hoff).
  exists row, t. unfold handleFlushTask. destruct (mo_holds _ _ Hm) as (L & Hr & Hc).
  rewrite (Empty_ok _ L Hr). destruct L as [|n L]; [destruct Hne; exact (eq_sym Hc)|]. cbn [obind].
  rewrite (SeekToFirst_ok _ _ Hr). cbn [obind].
  change (soff n) with (start_off (n :: L)). rewrite (flush_loop_ok fp _ _ Hr (n :: L) []) by
    (done || (pose proof (repr_size _ _ Hr); lia)). rewrite Hc.
  unfold build_table, build_blocks in Hb. destruct (add_all fp newBuilder kvs) as [b| |]; [|done|done].
  cbn [obind] in *. destruct (FinishBlock b) as [b'| |]; [|done|done]. cbn [obind] in *. rewrite Hb. cbn [obind].
  rewrite Ho. cbn [obind]. by repeat (split; [done|]).
Qed.

(** ** The invariant *)

(** the history of a partition, newest first; [None] is a deletion *)
Fixpoint spec_get (h : list (bytes * option bytes)) (k : bytes) : option (option bytes) :=
  match h with
  | [] => None
  | (k', ov) :: h => if decide (k' = k) then Some ov else spec_get h k
  end.

Definition store (mems tabs : list (list kv)) : list kv := mjoin mems ++ mjoin tabs.
(** appends the row stream still has to take for the memtables in hand *)
Definition need (mems : list (list kv)) : nat := foldr (fun kvs n => S (length kvs) + n)%nat 0%nat mems.

(** what a reader sees of [uk] is what the history says; a compaction drops
    the versions of a deleted key *)
Definition agrees (log : LogSt) (h : list (bytes * option bytes)) (st : list kv) (uk : bytes) : Prop :=
  match spec_get h uk with
  | Some (Some v) => exists t vs, newest uk MaxUint64 st t vs /\ stands log vs (Some v)
  | Some None => (forall t v, (KeyWithTs uk t, v) ∉ st) \/ exists t vs, newest uk MaxUint64 st t vs /\ stands log vs None
  | None => forall t v, (KeyWithTs uk t, v) ∉ st
  end.
(** the two ways of reading *)
Lemma agrees_cases log h st uk : agrees log h st uk <->
  ((forall t v, (KeyWithTs uk t, v) ∉ st) /\ (forall v, spec_get h uk <> Some (Some v))) \/
  exists ov t vs, spec_get h uk = Some ov /\ newest uk MaxUint64 st t vs /\ stands log vs ov.
Proof.
  unfold agrees. destruct (spec_get h uk) as [[v|]|]; split.
  - intros (t & vs & Hn & Hs). right. by exists (Some v), t, vs.
  - intros [[_ Hno]|(ov & t & vs & [= <-] & Hn & Hs)]; [by destruct (Hno v)|by exists t, vs].
  - intros [Hno|(t & vs & Hn & Hs)]; [left; by split|right; by exists None, t, vs].
  - intros [[Hno _]|(ov & t & vs & [= <-] & Hn & Hs)]; [by left|right; by exists t, vs].
  - intros Hno. left. by split.
  - intros [[Hno _]|(ov & t & vs & E & _)]; [done|done].
Qed.

(** [b] bounds what is still to come: appends and sequence numbers *)
Record rp_inv (b : nat) (rp : RP) (h : list (bytes * option bytes)) (mems tabs : list (list kv)) : Prop := mk_rp_inv {
  ri_mems : Forall2 mem_ok (rp_mt rp :: reverse (rp_imm rp)) mems;
  ri_tabs : Forall2 (tab_holds fp (rowStream rp)) (rp_tables rp) tabs;
  ri_row : sc_inv (need mems + b) (rowStream rp);
  ri_log : sc_inv b (logStream rp);
  ri_order : ordered mems (mjoin tabs);
  ri_unique : NoDup (fst <$> store mems tabs);
  ri_seq : 0 <= seqNumber rp /\ seqNumber rp + Z.of_nat b <= MaxUint64;
  ri_versions : Forall (fun p => user_version (seqNumber rp) (fst p)) (store mems tabs);
  ri_chan : ft_mt <$> flushChan rp = rp_imm rp;
  ri_tasks : Forall (fun ft => task_ok ft /\ ft_isCompact ft = false) (flushChan rp);
  ri_full : (length (flushChan rp) <= flushCapacity)%nat;
  ri_open : blockWrites rp = false;
  ri_head : is_u64 (vp_extentID (vhead rp)) /\ is_u32 (vp_offset (vhead rp));
  ri_values : forall uk, uk <> [] -> agrees (logStream rp) h (store mems tabs) uk;
  ri_size : (length (store mems tabs) <= length h)%nat;
  ri_plain : Forall plain_kv (store mems tabs);
  (** what the partition manager was told, and the numbers of the tables *)
  ri_pm : pm_tables rp = Loc <$> rp_tables rp;
  ri_last : Forall (fun t => 1 <= LastSeq t <= seqNumber rp) (rp_tables rp) /\ Forall (fun ft => 1 <= ft_seqNum ft <= seqNumber rp) (flushChan rp) }.

Lemma newest_perm uk ts s s' t vs : Permutation s s' -> newest uk ts s t vs -> newest uk ts s' t vs.
Proof.
  intros Hp (Hin & Ht & Hm). split; [by rewrite <- Hp|]. split; [done|]. intros t' v' H'. apply (Hm t' v'). by rewrite Hp.
Qed.
Lemma agrees_perm log h s s' uk : Permutation s s' -> agrees log h s uk -> agrees log h s' uk.
Proof.
  intros Hp. rewrite !agrees_cases. intros [[Hno Hl]|(ov & t & vs & E & Hn & Hs)]; [left|right].
  - split; [|done]. intros t v. rewrite <- Hp. apply Hno.
  - exists ov, t, vs. split; [done|]. split; [by eapply newest_perm|done].
Qed.
Lemma user_version_le n n' k : n <= n' -> user_version n k -> user_version n' k.
Proof. intros Hle (uk & t & -> & Hne & Ht). exists uk, t. split; [done|]. split; [done|lia]. Qed.
Lemma newest_at uk n st t vs : 0 <= n <= MaxUint64 -> Forall (fun p => user_version n (fst p)) st ->
  newest uk MaxUint64 st t vs -> newest uk n st t vs.
Proof.
  intros Hn Hv (Hin & Ht & Hm). split; [done|]. split.
  - rewrite Forall_forall in Hv. destruct (Hv _ Hin) as (u & t' & E & _ & Ht'). cbn [fst] in E.
    apply KeyWithTs_inj in E as [_ ->]; lia.
  - intros t' v' H' Ht'. apply (Hm t' v' H'). lia.
Qed.

Lemma newest_pos uk n st t vs : n <= MaxUint64 -> Forall (fun p => user_version n (fst p)) st -> newest uk n st t vs -> 1 <= t.
Proof.
  intros Hn Hv (Hin & Ht & _). rewrite Forall_forall in Hv. destruct (Hv _ Hin) as (u & t' & E & _ & Ht'). cbn [fst] in E.
  apply KeyWithTs_inj in E as [_ ->]; lia.
Qed.

Lemma rp_inv_le b b' rp h mems tabs : (b' <= b)%nat -> rp_inv b rp h mems tabs -> rp_inv b' rp h mems tabs.
Proof.
  intros Hle [H1' H2' H3' H4' H5' H6' H7' H8' H9' H10' H11' H12' H13' H14' H15' H16' H17' H18']. split; try done.
  - apply (sc_inv_le (need mems + b)); [done|lia].
  - by apply (sc_inv_le b).
  - lia.
Qed.
Lemma rp_inv_levels b rp h mems tabs : rp_inv b rp h mems tabs -> levels fp rp mems tabs.
Proof.
  intros Hi. split.
  - pose proof (ri_mems _ _ _ _ _ Hi) as Hm. unfold getMemTables. clear Hi.
    induction Hm; rewrite ?fmap_cons; constructor; [by apply mo_holds|done].
  - apply Hi.
  - eapply sc_inv_le; [apply Hi|lia].
  - apply Hi.
  - pose proof (ri_unique _ _ _ _ _ Hi) as Hn. unfold store in Hn. rewrite fmap_app in Hn. by apply NoDup_app in Hn as (_ & _ & ?).
  - pose proof (ri_seq _ _ _ _ _ Hi). lia.
  - apply Hi.
Qed.

(** ** Reading *)

(** the value the newest version of the key stands for *)
Lemma rp_Get_ok b rp h mems tabs uk : rp_inv b rp h mems tabs -> uk <> [] ->
  rp_Get fp rp uk 0 = Ok (match spec_get h uk with Some (Some v) => inl v | _ => inr errNotFound end).
Proof using LogL.
  intros Hi Huk. pose proof (ri_values _ _ _ _ _ Hi uk Huk) as Ha. apply agrees_cases in Ha.
  pose proof (rp_inv_levels _ _ _ _ _ Hi) as Hl. pose proof (ri_seq _ _ _ _ _ Hi) as Hs. pose proof (ri_versions _ _ _ _ _ Hi) as Hv.
  unfold rp_Get. destruct Ha as [[Hno Hsp]|(ov & t & vs & -> & Hn & Hst)].
  - rewrite (getValueStruct_none fp rp mems tabs uk 0 Hl Huk ltac:(done)) by (intros t vs Hin; by destruct (Hno t vs)).
    cbn [obind]. destruct (spec_get h uk) as [[v|]|]; [by destruct (Hsp v)|done|done].
  - apply (newest_at uk (seqNumber rp)) in Hn; [|lia|done].
    rewrite (getValueStruct_newest fp rp mems tabs uk 0 t vs Hl Huk ltac:(done) Hn). cbn [obind versioned Version VMeta VValue].
    pose proof (newest_pos uk (seqNumber rp) _ t vs ltac:(lia) Hv Hn).
    destruct (Z.eqb_spec t 0); [lia|]. destruct Hst as [_ Hst]. destruct ov as [v|].
    + destruct Hst as [Hd Hst]. rewrite Hd. change (0 <? 0) with false. cbv iota.
      destruct (0 <? Z.land (VMeta vs) BitValuePointer); [|by rewrite Hst].
      destruct Hst as (vp & blk & e & -> & Hu1 & Hu2 & Hu3 & Hstored & Hext & <-).
      rewrite vp_roundtrip by done. cbn [obind].
      destruct (sc_read_stored b (logStream rp) _ _ blk (ri_log _ _ _ _ _ Hi) Hstored) as [-> _]. cbn [obind].
      change (index [blk] 0) with (Ok blk). cbn [obind]. rewrite Hext. done.
    + destruct (Z.ltb_spec 0 (Z.land (VMeta vs) BitDelete)); [done|lia].
Qed.

(** the check [Delete] makes *)
Lemma getValueStruct_live b rp h mems tabs uk : rp_inv b rp h mems tabs -> uk <> [] ->
  exists vs, getValueStruct fp rp uk 0 = Ok vs /\
    (Version vs =? 0) || (0 <? Z.land (VMeta vs) BitDelete) = match spec_get h uk with Some (Some _) => false | _ => true end.
Proof.
  intros Hi Huk. pose proof (ri_values _ _ _ _ _ Hi uk Huk) as Ha. apply agrees_cases in Ha.
  pose proof (rp_inv_levels _ _ _ _ _ Hi) as Hl. pose proof (ri_seq _ _ _ _ _ Hi) as Hs. pose proof (ri_versions _ _ _ _ _ Hi) as Hv.
  destruct Ha as [[Hno Hsp]|(ov & t & vs & -> & Hn & Hst)].
  - exists emptyVS. rewrite (getValueStruct_none fp rp mems tabs uk 0 Hl Huk ltac:(done)) by (intros t vs Hin; by destruct (Hno t vs)).
    split; [done|]. destruct (spec_get h uk) as [[v|]|]; [by destruct (Hsp v)|done|done].
  - apply (newest_at uk (seqNumber rp)) in Hn; [|lia|done].
    rewrite (getValueStruct_newest fp rp mems tabs uk 0 t vs Hl Huk ltac:(done) Hn). eexists. split; [done|].
    cbn [versioned Version VMeta]. pose proof (newest_pos uk (seqNumber rp) _ t vs ltac:(lia) Hv Hn).
    destruct (Z.eqb_spec t 0); [lia|]. cbn [orb]. destruct Hst as [_ Hst]. destruct ov as [v|].
    + by rewrite (proj1 Hst).
    + by apply Z.ltb_lt.
Qed.

(** ** Flushing *)

Lemma newer_sub A B B' : (forall p, p ∈ B' -> p ∈ B) -> newer A B -> newer A B'.
Proof. intros Hs Hn uk t t' v v' Ha Hb. apply (Hn uk t t' v v' Ha). by apply Hs. Qed.
Lemma ordered_snoc ms K T T' : (forall p, p ∈ T' -> p ∈ K ++ T) -> ordered (ms ++ [K]) T -> ordered ms T'.
Proof.
  intros Hs. induction ms as [|M ms IH]; [done|]. cbn [app ordered]. intros [Hn Ho]. split; [|by apply IH].
  eapply newer_sub; [|exact Hn]. intros p Hp. apply elem_of_app in Hp as [Hp|Hp].
  - apply elem_of_app. left. rewrite join_app. apply elem_of_app. by left.
  - apply Hs in Hp. rewrite join_app. apply elem_of_app in Hp as [Hp|Hp]; apply elem_of_app; [left|by right].
    apply elem_of_app. right. cbn. by rewrite app_nil_r.
Qed.
Lemma need_snoc ms K : need (ms ++ [K]) = (need ms + S (length K))%nat.
Proof. induction ms as [|M ms IH]; cbn [app need foldr]; [lia|]. fold (need (ms ++ [K])) (need ms). lia. Qed.

Definition flushed (rp rp' : RP) : Prop :=
  logStream rp' = logStream rp /\ rp_mt rp' = rp_mt rp /\ seqNumber rp' = seqNumber rp /\ vhead rp' = vhead rp /\
  logRotates rp' = logRotates rp /\ length (flushChan rp') = pred (length (flushChan rp)).

Lemma store_flush mems K tabs tabs' : (tabs' = tabs ++ [K] \/ (K = [] /\ tabs' = tabs)) ->
  Permutation (store (mems ++ [K]) tabs) (store mems tabs').
Proof.
  unfold store. rewrite join_app. change (mjoin [K]) with (K ++ []). rewrite app_nil_r, <- app_assoc.
  intros [->|[-> ->]]; [|done]. rewrite join_app. change (mjoin [K]) with (K ++ []). rewrite app_nil_r.
  by rewrite (Permutation_app_comm K).
Qed.

(** the flusher's round on a state whose table is written and loaded *)
Lemma flush_inv b rp h ms K tabs ft rest row tbls tabs' pm :
  rp_inv b rp h (ms ++ [K]) tabs -> flushChan rp = ft :: rest -> ms <> [] ->
  (tabs' = tabs ++ [K] \/ (K = [] /\ tabs' = tabs)) ->
  sc_inv (need ms + b) row -> Forall2 (tab_holds fp row) tbls tabs' -> pm = Loc <$> tbls ->
  Forall (fun t => 1 <= LastSeq t <= seqNumber rp) tbls ->
  rp_inv b (mkRP (logStream rp) row (logRotates rp) (blockWrites rp) (rp_mt rp) (ft_mt <$> rest) rest tbls
    (seqNumber rp) (vhead rp) pm (nextPtr rp)) h ms tabs'.
Proof.
  intros Hi Hch Hne Htabs Hrow Htb Hpm' Hlt. pose proof (store_flush ms K tabs tabs' Htabs) as Hp.
  pose proof (ri_chan _ _ _ _ _ Hi) as Hchan. rewrite Hch, fmap_cons in Hchan.
  pose proof (ri_tasks _ _ _ _ _ Hi) as Htasks. rewrite Hch in Htasks. apply Forall_cons in Htasks as [_ Htasks].
  pose proof (ri_full _ _ _ _ _ Hi) as Hfull. rewrite Hch in Hfull.
  destruct Hi as [Hmem _ _ Hlog Hord Huniq Hseq Hver _ _ _ Hopen Hhead Hval Hsize Hpl Hpm Hlast].
  split; cbn [logStream rowStream rp_mt rp_imm flushChan rp_tables seqNumber vhead blockWrites pm_tables]; try done.
  - rewrite <- Hchan, reverse_cons, app_comm_cons in Hmem. apply Forall2_app_inv_l in Hmem as (m1 & m2 & H1' & H2' & E).
    apply Forall2_cons_inv_l in H2' as (K' & nil & _ & Hnil & ->). apply Forall2_nil_inv_l in Hnil as ->.
    apply app_inj_tail in E as [-> _]. done.
  - eapply ordered_snoc; [|exact Hord]. intros p Hin. destruct Htabs as [->|[-> ->]]; [|done].
    rewrite join_app in Hin. change (mjoin [K]) with (K ++ []) in Hin. rewrite app_nil_r in Hin.
    apply elem_of_app in Hin as [Hin|Hin]; apply elem_of_app; auto.
  - by rewrite <- Hp.
  - by rewrite <- Hp.
  - cbn in Hfull. lia.
  - intros uk Huk. eapply agrees_perm; [exact Hp|by apply Hval].
  - by rewrite <- (Permutation_length Hp).
  - by rewrite <- Hp.
  - split; [done|]. destruct Hlast as [_ Hlast]. rewrite Hch in Hlast. by apply Forall_cons in Hlast as [].
Qed.

(** the table of the first task, unless its memtable was empty *)
Definition tables_grow (rp rp' : RP) (mems mems' : list (list kv)) : Prop :=
  match flushChan rp with
  | [] => rp_tables rp' = rp_tables rp
  | ft :: rest => flushChan rp' = rest /\ exists K, mems = mems' ++ [K] /\
      ((K = [] /\ rp_tables rp' = rp_tables rp) \/
       exists t, rp_tables rp' = rp_tables rp ++ [t] /\ LastSeq t = ft_seqNum ft /\
         t_VpExtentID t = vp_extentID (ft_vptr ft) /\ t_VpOffset t = vp_offset (ft_vptr ft))
  end.

Lemma flushMemtable_ok b rp h mems tabs : rp_inv b rp h mems tabs ->
  exists rp' mems' tabs', flushMemtable fp sched rp = Ok rp' /\ rp_inv b rp' h mems' tabs' /\ flushed rp rp' /\
    Permutation (store mems tabs) (store mems' tabs') /\ hd_error mems' = hd_error mems /\ tables_grow rp rp' mems mems'.
Proof using bloom_small BloomL RowL.
  intros Hi. unfold flushMemtable. destruct (flushChan rp) as [|ft rest] eqn:Hch.
  { exists rp, mems, tabs. split; [done|]. split; [done|]. split; [repeat split; try done; by rewrite Hch|].
    split; [done|]. split; [done|]. unfold tables_grow. by rewrite Hch. }
  pose proof (ri_chan _ _ _ _ _ Hi) as Hchan. rewrite Hch, fmap_cons in Hchan.
  pose proof (ri_mems _ _ _ _ _ Hi) as Hmem. rewrite <- Hchan, reverse_cons, app_comm_cons in Hmem.
  apply Forall2_app_inv_l in Hmem as (ms & m2 & Hms & Hm2 & ->).
  apply Forall2_cons_inv_l in Hm2 as (K & nil & HK & Hnil & ->). apply Forall2_nil_inv_l in Hnil as ->.
  assert (ms <> []) as Hne by (intros ->; by apply Forall2_nil_inv_r in Hms).
  pose proof (ri_tasks _ _ _ _ _ Hi) as Htasks. rewrite Hch in Htasks. apply Forall_cons in Htasks as [[Htask Hcomp] _].
  pose proof (ri_row _ _ _ _ _ Hi) as Hrow. rewrite need_snoc in Hrow. rewrite Hcomp.
  destruct K as [|kv0 K].
  - rewrite (handleFlushTask_empty rp ft HK). cbn [obind]. rewrite <- Hchan, Nat.eqb_refl. cbn [assert obind].
    do 3 eexists. split; [done|]. split.
    + apply (flush_inv b rp h ms [] tabs ft rest (rowStream rp) (rp_tables rp) tabs); try done; [by right|..|apply Hi| |apply Hi].
      * eapply sc_inv_le; [exact Hrow|cbn; lia].
      * unfold updateTableLocs. rewrite (ri_pm _ _ _ _ _ Hi). by destruct (Loc <$> rp_tables rp).
    + split; [unfold flushed; cbn; by rewrite Hch|]. split; [apply store_flush; by right|]. split; [by destruct ms|].
      unfold tables_grow. rewrite Hch. cbn. split; [done|]. exists []. split; [done|]. by left.
  - destruct (handleFlushTask_ok (need ms + b) rp ft (kv0 :: K) HK ltac:(done) Htask) as (row & t & -> & Hrow' & Hmono & Ht & Hseq & Hvx & Hvo).
    { eapply sc_inv_le; [exact Hrow|cbn [length]; lia]. }
    cbn [obind with_row rp_imm]. rewrite <- Hchan, Nat.eqb_refl. cbn [assert obind].
    do 3 eexists. split; [done|]. split.
    + apply (flush_inv b rp h ms (kv0 :: K) tabs ft rest row (rp_tables rp ++ [t]) (tabs ++ [kv0 :: K])); try done; [by left|..].
      * apply Forall2_app; [|by constructor]. eapply Forall2_impl; [apply Hi|]. intros t0 k0. by apply tab_holds_mono.
      * cbn [with_row rp_tables pm_tables updateTableLocs]. unfold updateTableLocs. rewrite fmap_app. by destruct (Loc <$> rp_tables rp).
      * pose proof (ri_last _ _ _ _ _ Hi) as [Hl1 Hl2]. rewrite Hch in Hl2. apply Forall_cons in Hl2 as [Hl2 _].
        apply Forall_app. split; [done|]. constructor; [by rewrite Hseq|done].
    + split; [unfold flushed; cbn; by rewrite Hch|]. split; [apply store_flush; by left|]. split; [by destruct ms|].
      unfold tables_grow. rewrite Hch. cbn. split; [done|]. exists (kv0 :: K). split; [done|]. right. by exists t.
Qed.

(** between batches: the log ends at [vhead], or, while nothing was written
    since the partition was opened, where it was replayed from; the tables then
    have every sequence number given out *)
Definition settled (rp : RP) (mems : list (list kv)) : Prop :=
  match mems with
  | [] :: ms => ms = [] /\ seqNumber rp = fst (last_table (rp_tables rp) 0 None) /\
      ls_tail (logStream rp) (fst (replay_from (rp_tables rp))) (snd (replay_from (rp_tables rp)))
  | _ => ls_tail (logStream rp) (vp_extentID (vhead rp)) (vp_offset (vhead rp))
  end.
Lemma written_settled rp mems : hd_error mems <> Some [] -> ls_tail (logStream rp) (vp_extentID (vhead rp)) (vp_offset (vhead rp)) ->
  settled rp mems.
Proof. by destruct mems as [|[|kv M] ms]. Qed.

Lemma flush_settled b rp h mems tabs : rp_inv b rp h mems tabs -> settled rp mems ->
  exists rp' mems' tabs', flushMemtable fp sched rp = Ok rp' /\ rp_inv b rp' h mems' tabs' /\ settled rp' mems' /\ logStream rp' = logStream rp /\
    rp_mt rp' = rp_mt rp /\ seqNumber rp' = seqNumber rp /\ vhead rp' = vhead rp /\ hd_error mems' = hd_error mems /\
    length (flushChan rp') = pred (length (flushChan rp)) /\ Permutation (store mems tabs) (store mems' tabs').
Proof using bloom_small BloomL RowL.
  intros Hi Hs. destruct (flushChan rp) as [|ft rest] eqn:Ech.
  { exists rp, mems, tabs. unfold flushMemtable. rewrite Ech. by repeat (split; [done|]). }
  destruct (flushMemtable_ok b rp h mems tabs Hi) as (rp' & mems' & tabs' & E & Hi' & (Hl & Hm & Hsq & Hv & _ & Hlen) & Hp & Hh & _).
  exists rp', mems', tabs'. split; [done|]. split; [done|]. rewrite Ech in Hlen. split; [|by repeat (split; [done|])].
  destruct mems as [|[|kv M] ms]; cbn [settled] in Hs.
  - apply written_settled; [by rewrite Hh|by rewrite Hl, Hv].
  - exfalso. destruct Hs as [-> _]. pose proof (ri_mems _ _ _ _ _ Hi) as Hmem. apply Forall2_length in Hmem. cbn [length] in Hmem.
    rewrite <- (ri_chan _ _ _ _ _ Hi), length_reverse, length_fmap, Ech in Hmem. done.
  - apply written_settled; [by rewrite Hh|by rewrite Hl, Hv].
Qed.

(** ** Making room *)

Lemma new_mem_ok ptr : exists s, NewSkiplist maxSkipList = Ok s /\ mem_ok (mkMem ptr s) [] /\ MemSize s = 107.
Proof.
  destruct (NewSkiplist_repr maxSkipList) as (s & E & Hr & Hm & Hz); [done|done|]. exists s. split; [done|]. split; [|done].
  split; cbn [m_sl]; [exists []; split; [exact Hr|reflexivity]|rewrite Hz; unfold maxSkipList; change MB with 1048576; lia|rewrite Hm; unfold kv_bytes; cbn [foldr]; lia|constructor|constructor].
Qed.

Lemma rp_inv_seq b rp h mems tabs n : seqNumber rp <= n -> n + Z.of_nat b <= MaxUint64 ->
  rp_inv b rp h mems tabs -> rp_inv b (with_seq rp n) h mems tabs.
Proof.
  intros Hle Hn [H1' H2' H3' H4' H5' H6' H7' H8' H9' H10' H11' H12' H13' H14' H15' H16' H17' H18'].
  split; cbn [with_seq logStream rowStream rp_mt rp_imm flushChan rp_tables seqNumber vhead blockWrites pm_tables]; try done; [lia|..].
  - eapply Forall_impl; [exact H8'|]. intros p. by apply user_version_le.
  - destruct H18' as [Ha Hb]. split; (eapply Forall_impl; [eassumption|]); intros x Hx; cbn in Hx; lia.
Qed.

Definition same_front (rp rp' : RP) : Prop :=
  logStream rp' = logStream rp /\ vhead rp' = vhead rp /\ seqNumber rp <= seqNumber rp'.

(** the state in which the memtable waits in [imm] and a new one is in place *)
Definition swapped (rp : RP) (head : valuePointer) (s : SL) : RP :=
  mkRP (logStream rp) (rowStream rp) 0 (blockWrites rp) (mkMem (nextPtr rp) s) (rp_imm rp ++ [rp_mt rp])
    (flushChan rp ++ [mkFT (rp_mt rp) head (seqNumber rp + 1) false 0]) (rp_tables rp) (seqNumber rp + 1) (vhead rp) (pm_tables rp)
    (S (nextPtr rp)).
Lemma swapped_ok b rp h mems tabs head s : rp_inv (S b) rp h mems tabs -> mem_ok (mkMem (nextPtr rp) s) [] ->
  (length (flushChan rp) < flushCapacity)%nat -> is_u64 (vp_extentID head) -> is_u32 (vp_offset head) ->
  rp_inv b (swapped rp head s) h ([] :: mems) tabs.
Proof.
  intros Hi Hs Hch Hh1 Hh2. pose proof (ri_seq _ _ _ _ _ Hi) as Hseq. pose proof (ri_row _ _ _ _ _ Hi) as Hrow.
  assert (rp_inv b (with_seq rp (seqNumber rp + 1)) h mems tabs) as Hi'
    by (apply rp_inv_seq; [lia|lia|by apply (rp_inv_le (S b)); [lia|]]).
  destruct Hi' as [H1' H2' H3' H4' H5' H6' H7' H8' H9' H10' H11' H12' H13' H14' H15' H16' H17' H18'].
  split; cbn [swapped with_seq logStream rowStream rp_mt rp_imm flushChan rp_tables seqNumber vhead blockWrites pm_tables] in *; try done.
  - rewrite reverse_app. by constructor.
  - cbn [need foldr length]. fold (need mems). eapply sc_inv_le; [exact Hrow|lia].
  - split; [|done]. intros uk t t' v v' Hin. by apply elem_of_nil in Hin.
  - rewrite fmap_app, H9'. done.
  - apply Forall_app. split; [done|]. constructor; [|constructor]. split; [|done]. split; [done|]. split; [done|].
    unfold is_u64. cbn [ft_seqNum]. unfold MaxUint64 in *. lia.
  - rewrite length_app. cbn. lia.
  - destruct H18' as [Ha Hb]. split; [done|]. apply Forall_app. split; [done|]. constructor; [cbn [ft_seqNum]; lia|constructor].
Qed.

Lemma ensureRoom_ok b rp h mems tabs entries head : rp_inv (S b) rp h mems tabs ->
  107 + est_size entries <= maxSkipList -> is_u64 (vp_extentID head) -> is_u32 (vp_offset head) ->
  exists rp' ok mems', ensureRoomForWrite rp entries head = Ok (rp', ok) /\ rp_inv b rp' h mems' tabs /\
    store mems' tabs = store mems tabs /\ same_front rp rp' /\
    if ok : bool then MemSize (m_sl (rp_mt rp')) + est_size entries <= maxSkipList
    else (flushCapacity <= length (flushChan rp'))%nat.
Proof.
  intros Hi Hroom Hh1 Hh2. unfold ensureRoomForWrite. fold (est_size entries).
  destruct (Z.leb_spec (est_size entries) maxSkipList); [|lia]. cbn [assert].
  destruct (negb (1 <=? logRotates rp) && (MemSize (m_sl (rp_mt rp)) + est_size entries <? maxSkipList)) eqn:E.
  { apply andb_true_iff in E as [_ E%Z.ltb_lt]. exists rp, true, mems. split; [done|].
    split; [by apply (rp_inv_le (S b)); [lia|]|]. split; [done|]. split; [|lia]. by repeat split. }
  pose proof (ri_seq _ _ _ _ _ Hi) as Hseq. assert (u64 (seqNumber rp + 1) = seqNumber rp + 1) as -> by (apply u64_small; unfold MaxUint64 in *; lia).
  assert (rp_inv b (with_seq rp (seqNumber rp + 1)) h mems tabs) as Hi'
    by (apply rp_inv_seq; [lia|lia|by apply (rp_inv_le (S b)); [lia|]]).
  destruct (Nat.ltb_spec (length (flushChan rp)) flushCapacity) as [Hch|Hch].
  2: { exists (with_seq rp (seqNumber rp + 1)), false, mems. split; [done|]. split; [done|]. split; [done|].
       split; [|done]. repeat split; cbn [with_seq seqNumber]; lia. }
  destruct (new_mem_ok (nextPtr rp)) as (s & -> & Hs & Hms). cbn [obind].
  exists (swapped rp head s), true, ([] :: mems). split; [done|]. split; [by apply swapped_ok|]. split; [done|]. split.
  - repeat split; cbn [swapped seqNumber]; lia.
  - cbn [swapped rp_mt m_sl]. rewrite Hms. done.
Qed.

Lemma make_room_ok b tries rp h mems tabs entries head : rp_inv (2 + b) rp h mems tabs -> (2 <= tries)%nat ->
  107 + est_size entries <= maxSkipList -> is_u64 (vp_extentID head) -> is_u32 (vp_offset head) ->
  exists rp' mems' tabs', make_room fp sched tries rp entries head = Ok rp' /\ rp_inv b rp' h mems' tabs' /\
    Permutation (store mems tabs) (store mems' tabs') /\ same_front rp rp' /\
    MemSize (m_sl (rp_mt rp')) + est_size entries <= maxSkipList.
Proof using bloom_small BloomL RowL.
  intros Hi Ht Hroom Hh1 Hh2. destruct tries as [|[|tries]]; [lia|lia|]. cbn [make_room].
  destruct (ensureRoom_ok (S b) rp h mems tabs entries head Hi Hroom Hh1 Hh2) as (rp1 & ok & mems1 & -> & Hi1 & Hst1 & (Hl1 & Hv1 & Hs1) & Hok).
  cbn [obind]. destruct ok.
  { exists rp1, mems1, tabs. split; [done|]. split; [by apply (rp_inv_le (S b)); [lia|]|]. rewrite Hst1. by repeat split. }
  destruct (flushMemtable_ok (S b) rp1 h mems1 tabs Hi1) as (rp2 & mems2 & tabs2 & -> & Hi2 & (Hl2 & Hm2 & Hs2 & Hv2 & Hr2 & Hc2) & Hp2 & _ & _).
  cbn [obind].
  destruct (ensureRoom_ok b rp2 h mems2 tabs2 entries head Hi2 Hroom Hh1 Hh2) as (rp3 & ok & mems3 & E3 & Hi3 & Hst3 & (Hl3 & Hv3 & Hs3) & Hok3).
  rewrite E3. cbn [obind]. destruct ok.
  - exists rp3, mems3, tabs2. split; [done|]. split; [done|]. rewrite Hst3, <- Hst1. split; [done|]. split; [|done].
    split; [congruence|]. split; [congruence|lia].
  - exfalso. pose proof (ri_full _ _ _ _ _ Hi1). unfold flushCapacity in *.
    unfold ensureRoomForWrite in E3. destruct (est_size entries <=? maxSkipList) eqn:El; [|by unfold est_size in El; rewrite El in E3].
    fold (est_size entries) in E3. rewrite El in E3. cbn [assert] in E3.
    destruct (negb _ && _) in E3; [by injection E3|].
    destruct (Nat.ltb_spec (length (flushChan rp2)) flushCapacity) as [Hlt|Hge]; [|unfold flushCapacity in Hge; lia].
    destruct (NewSkiplist maxSkipList); [by injection E3|done|done].
Qed.

(** ** Writing one entry to the memtable *)

Lemma fresh_version n k t (st : list kv) v : Forall (fun p => user_version n (fst p)) st -> 0 <= n -> n < t <= MaxUint64 -> (KeyWithTs k t, v) ∉ st.
Proof.
  intros Hv Hn Ht Hin. rewrite Forall_forall in Hv. destruct (Hv _ Hin) as (u & t' & E & _ & Ht'). cbn [fst] in E.
  apply KeyWithTs_inj in E as [_ ->]; lia.
Qed.

Lemma agrees_put log h st k ov n t vs uk : Forall (fun p => user_version n (fst p)) st -> 0 <= n -> n < t <= MaxUint64 ->
  stands log vs ov -> agrees log h st uk -> agrees log ((k, ov) :: h) ((KeyWithTs k t, vs) :: st) uk.
Proof.
  intros Hv Hn Ht Hst. rewrite !agrees_cases. intros Ha. cbn [spec_get]. destruct (decide (k = uk)) as [->|Hne].
  - right. exists ov, t, vs. split; [done|]. split; [|done]. split; [left|]. split; [lia|]. intros t' v' Hin Ht'.
    apply elem_of_cons in Hin as [[= E _]|Hin]; [apply KeyWithTs_inj in E as [_ ->]; lia|].
    destruct (Z.le_gt_cases t' t); [done|]. exfalso. by apply (fresh_version n uk t' st v' Hv Hn ltac:(lia)).
  - assert (forall t' v', (KeyWithTs uk t', v') ∈ (KeyWithTs k t, vs) :: st -> (KeyWithTs uk t', v') ∈ st) as Hold.
    { intros t' v' Hin. apply elem_of_cons in Hin as [[= E _]|Hin]; [|done].
      exfalso. apply Hne. apply (f_equal ukey) in E. by rewrite !ukey_KeyWithTs in E. }
    destruct Ha as [[Hno Hsp]|(ov' & t0 & vs0 & E & (Hin & Ht0 & Hmax) & Hs0)]; [left|right].
    + split; [|done]. intros t' v' Hin. by apply (Hno t' v'), Hold.
    + exists ov', t0, vs0. split; [done|]. split; [|done]. split; [by right|]. split; [done|].
      intros t' v' Hin' Ht'. apply (Hmax t' v'); [by apply Hold|done].
Qed.

Lemma newer_cons n k t v (M R : list kv) : newer M R -> Forall (fun p => user_version n (fst p)) R -> 0 <= n -> n < t <= MaxUint64 ->
  newer ((KeyWithTs k t, v) :: M) R.
Proof.
  intros Hn Hv H0' Ht uk t1 t2 v1 v2 H1' H2' Ht1 Ht2. apply elem_of_cons in H1' as [[= E _]|H1']; [|by eapply Hn].
  apply KeyWithTs_inj in E as [-> ->]; [|lia|lia]. destruct (Z.lt_ge_cases t2 t); [done|]. exfalso.
  by apply (fresh_version n k t2 R v2 Hv H0' ltac:(lia)).
Qed.

Lemma put_step b rp h mems tabs n e k t ov : rp_inv (S b) rp h mems tabs ->
  Forall (fun p => user_version n (fst p)) (store mems tabs) -> 0 <= n -> n < t <= seqNumber rp -> k <> [] ->
  putable e -> Key (Log e) = KeyWithTs k t -> stands (logStream rp) (lsm_value e) ov ->
  MemSize (m_sl (rp_mt rp)) + estimatedSizeInSkl (Log e) <= maxSkipList ->
  exists s' mems', Put (m_sl (rp_mt rp)) (Key (Log e)) (lsm_value e) (rnd (m_sl (rp_mt rp)) (Key (Log e))) = Ok s' /\
    rp_inv b (with_sl rp s') ((k, ov) :: h) mems' tabs /\ MemSize s' <= MemSize (m_sl (rp_mt rp)) + estimatedSizeInSkl (Log e) /\
    Permutation (store mems' tabs) ((KeyWithTs k t, lsm_value e) :: store mems tabs) /\ hd_error mems' <> Some [] /\ List.tl mems' = List.tl mems.
Proof.
  intros Hi Hold Hn Ht Hk He Hkey Hst Hroom. pose proof (estimated_covers e He) as Hc. pose proof He as (Hk8 & Hvs & Hsz).
  pose proof (ri_mems _ _ _ _ _ Hi) as Hmem. apply Forall2_cons_inv_l in Hmem as (M & ms & HM & Hms & ->).
  pose proof HM as [(L & Hr & HL) Hbuf Hbytes Hsmall Hplain].
  destruct (Put_repr (m_sl (rp_mt rp)) L (Key (Log e)) (lsm_value e) (rnd (m_sl (rp_mt rp)) (Key (Log e))))
    as (s' & L' & Hput & Hr' & HL' & Hm' & Hz' & Hb'); [done|lia|lia|done|unfold MemSize, arena_size in Hroom; lia|].
  rewrite lsm_value_version, HL, Hkey in HL'. rewrite HL in Hb'.
  pose proof (ri_seq _ _ _ _ _ Hi) as Hseq.
  assert (Permutation (contents L') ((KeyWithTs k t, lsm_value e) :: M)) as HpM.
  { rewrite HL'. apply insert_kv_fresh. intros Hin. apply list_elem_of_fmap in Hin as ([k' v'] & E & Hin). cbn [fst] in E. subst k'.
    apply (fresh_version n k t (store (M :: ms) tabs) v' Hold Hn ltac:(lia)). unfold store.
    change (mjoin (M :: ms)) with (M ++ mjoin ms). rewrite <- app_assoc. apply elem_of_app. by left. }
  assert (Permutation (store (contents L' :: ms) tabs) ((KeyWithTs k t, lsm_value e) :: store (M :: ms) tabs)) as HpS.
  { unfold store. change (mjoin (contents L' :: ms)) with (contents L' ++ mjoin ms). rewrite HpM. done. }
  exists s', (contents L' :: ms). split; [done|].
  split; [|split; [lia|split; [done|]]; split; [|done]; intros [= E]; rewrite E in HpM; by apply Permutation_nil_l in HpM].
  destruct Hi as [_ Htb Hrow Hlog Hord Huniq _ Hver Hchan Htask Hfull Hopen Hhead Hval Hsize Hpl Hpm Hlast].
  split; cbn [with_sl logStream rowStream rp_mt rp_imm flushChan rp_tables seqNumber vhead blockWrites pm_tables]; try done.
  - constructor; [|done]. split; cbn [m_sl]; [by exists L'|congruence|lia|rewrite HpM; constructor; [|done]|rewrite HpM; constructor; [|done]].
    + cbn [fst snd]. rewrite <- Hkey. split; [split; [lia|done]|done].
    + cbn [snd]. unfold lsm_value. by destruct (ShouldWriteValueToLSM (Log e)).
  - eapply sc_inv_le; [exact Hrow|]. cbn [need foldr]. rewrite (Permutation_length HpM). cbn [length]. lia.
  - eapply sc_inv_le; [exact Hlog|lia].
  - destruct Hord as [Hnew Hord]. split; [|done]. intros uk t1 t2 v1 v2 H1'. rewrite HpM in H1'. revert H1'.
    apply (newer_cons n); [done| |done|lia]. unfold store in Hold. change (mjoin (M :: ms)) with (M ++ mjoin ms) in Hold.
    rewrite <- app_assoc in Hold. by apply Forall_app in Hold as [_ Hold].
  - rewrite HpS, fmap_cons. apply NoDup_cons. split; [|done]. intros Hin. apply list_elem_of_fmap in Hin as ([k' v'] & E & Hin).
    cbn [fst] in E. subst k'. by apply (fresh_version n k t (store (M :: ms) tabs) v' Hold Hn ltac:(lia)).
  - lia.
  - rewrite HpS. constructor; [|done]. exists k, t. split; [done|]. split; [done|lia].
  - intros uk Huk. eapply agrees_perm; [symmetry; exact HpS|]. apply (agrees_put _ _ _ _ _ n); try done; [lia|by apply Hval].
  - rewrite (Permutation_length HpS). cbn [length]. lia.
  - rewrite HpS. constructor; [|done]. rewrite <- Hkey. by apply lsm_shaped.
Qed.

(** the entries of a batch: consecutive versions, values to be read back *)
Fixpoint batch_entries (log : LogSt) (n : Z) (ops : list (bytes * option bytes)) (entries : list EntryInfo) : Prop :=
  match ops, entries with
  | [], [] => True
  | (k, ov) :: ops, e :: entries =>
      k <> [] /\ putable e /\ Key (Log e) = KeyWithTs k (n + 1) /\ stands log (lsm_value e) ov /\ batch_entries log (n + 1) ops entries
  | _, _ => False
  end.

Lemma writeToLSM_ok ops : forall b rp h mems tabs n entries, rp_inv (length ops + b) rp h mems tabs ->
  Forall (fun p => user_version n (fst p)) (store mems tabs) -> 0 <= n -> n + zlen ops <= seqNumber rp ->
  batch_entries (logStream rp) n ops entries -> MemSize (m_sl (rp_mt rp)) + est_size entries <= maxSkipList ->
  exists rp' mems', writeToLSM rnd rp entries = Ok rp' /\ rp_inv b rp' (rev ops ++ h) mems' tabs /\
    logStream rp' = logStream rp /\ seqNumber rp' = seqNumber rp /\ (hd_error mems <> Some [] \/ ops <> [] -> hd_error mems' <> Some []).
Proof.
  unfold writeToLSM. induction ops as [|[k ov] ops IH]; intros b rp h mems tabs n entries Hi Hold Hn Hs Hb Hroom;
    (destruct entries as [|e entries]; [try done|try done]).
  - exists rp, mems. split; [|repeat (split; [done|]); by intros [|]]. cbn [put_entries obind]. by destruct rp as [? ? ? ? [? ?] ? ? ? ? ? ? ?].
  - destruct Hb as (Hk & He & Hkey & Hst & Hb). rewrite est_size_cons in Hroom. rewrite zlen_cons in Hs. pose proof (zlen_nonneg ops).
    assert (Forall putable entries) as Hps.
    { clear -Hb. revert entries Hb. generalize (n + 1). induction ops as [|[k' ov'] ops IH]; intros m [|e' es] Hb; try done.
      destruct Hb as (_ & He & _ & _ & Hb). constructor; [done|by eapply IH]. }
    pose proof (est_size_nonneg entries Hps).
    destruct (put_step (length ops + b) rp h mems tabs n e k (n + 1) ov) as (s' & mems' & Hput & Hi' & Hm & Hp & Hhd & _); try done; [lia|lia|].
    cbn [put_entries]. rewrite Hput. cbn [obind].
    destruct (IH b (with_sl rp s') ((k, ov) :: h) mems' tabs (n + 1) entries) as (rp' & mems'' & E & Hi'' & Hl & Hsq & Hhd');
      [done| |lia|cbn [with_sl seqNumber]; lia|done|cbn [with_sl rp_mt m_sl]; lia|].
    { rewrite Hp. constructor; [exists k, (n + 1); split; [done|]; split; [done|lia]|].
      eapply Forall_impl; [exact Hold|]. intros p. apply user_version_le. lia. }
    exists rp', mems''. cbn [with_sl rp_mt m_sl] in E. split.
    + destruct (put_entries rnd s' entries); [|done|done]. exact E.
    + split; [cbn [rev]; by rewrite <- app_assoc|]. split; [done|]. split; [done|]. intros _.
      apply Hhd'. by left.
Qed.

(** ** Batches *)

Lemma rp_inv_log b rp h mems tabs log : rp_inv (S b) rp h mems tabs -> sc_inv b log ->
  (forall e o blk, sc_stored (logStream rp) e o blk -> sc_stored log e o blk) -> rp_inv b (with_log rp log) h mems tabs.
Proof.
  intros Hi Hlog Hm. apply (rp_inv_le _ b) in Hi; [|lia]. destruct Hi as [H1' H2' H3' H4' H5' H6' H7' H8' H9' H10' H11' H12' H13' H14' H15' H16' H17' H18'].
  split; cbn [with_log logStream rowStream rp_mt rp_imm flushChan rp_tables seqNumber vhead blockWrites pm_tables]; try done.
  intros uk Huk. specialize (H14' uk Huk). rewrite agrees_cases in H14' |- *. destruct H14' as [|(ov & t & vs & E & Hn & Hs)]; [by left|right].
  exists ov, t, vs. split; [done|]. split; [done|]. by eapply stands_mono.
Qed.
Lemma rp_inv_vhead b rp h mems tabs vp : is_u64 (vp_extentID vp) -> is_u32 (vp_offset vp) ->
  rp_inv b rp h mems tabs -> rp_inv b (with_vhead rp vp) h mems tabs.
Proof.
  intros Hv1 Hv2 [H1' H2' H3' H4' H5' H6' H7' H8' H9' H10' H11' H12' H13' H14' H15' H16' H17' H18'].
  by split; cbn [with_vhead logStream rowStream rp_mt rp_imm flushChan rp_tables seqNumber vhead blockWrites pm_tables].
Qed.

Lemma est_size_logged (log : LogSt) es es' : Forall2 (logged log) es es' -> est_size es' = est_size es.
Proof. induction 1 as [|a b es es' [E _] _ IH]; [done|]. rewrite !est_size_cons. congruence. Qed.

Lemma writeRequests_ok b tries rp h mems tabs n ops reqs : rp_inv (length ops + (3 + b)) rp h mems tabs -> (2 <= tries)%nat ->
  Forall (fun p => user_version n (fst p)) (store mems tabs) -> 0 <= n -> n + zlen ops <= seqNumber rp ->
  ops <> [] -> mjoin reqs <> [] -> Forall (fun e => packable (Log e)) (mjoin reqs) -> room_for (Log <$> mjoin reqs) < 2 ^ 31 ->
  107 + est_size (mjoin reqs) <= maxSkipList ->
  (forall (log : LogSt) es m, sc_inv m log -> Forall2 (logged log) (mjoin reqs) es -> batch_entries log n ops es) ->
  exists rp' mems' tabs', writeRequests fp rnd sched tries rp reqs = Ok (rp', None) /\ rp_inv b rp' (rev ops ++ h) mems' tabs' /\ settled rp' mems'.
Proof using bloom_small BloomL RowL LogA.
  intros Hi Ht Hold Hn Hs Hops Hne Hpk Hroom Hest Hbatch. unfold writeRequests. destruct reqs as [|r0 reqs]; [done|].
  assert (sc_inv (1 + (length ops + (2 + b))) (logStream rp)) as Hlog by (eapply sc_inv_le; [apply Hi|lia]).
  destruct (ls_append_ok _ (logStream rp) _ Hlog Hne Hpk Hroom) as (log & es & e & o & -> & Hlog' & Hu1 & Hu2 & Hl & Htail & Hmono). cbn [obind].
  assert (rp_inv (length ops + (2 + b)) (with_log rp log) h mems tabs) as Hi1
    by (apply rp_inv_log; [eapply rp_inv_le; [|exact Hi]; lia|done|done]).
  pose proof (est_size_logged _ _ _ Hl) as Hes.
  destruct (make_room_ok (length ops + b) tries (with_log rp log) h mems tabs es (vhead (with_log rp log)))
    as (rp2 & mems2 & tabs2 & -> & Hi2 & Hp2 & (Hl2 & Hv2 & Hs2) & Hm2);
    [eapply rp_inv_le; [|exact Hi1]; lia|done|lia|apply Hi|apply Hi|]. cbn [obind].
  destruct (writeToLSM_ok ops b rp2 h mems2 tabs2 n es) as (rp3 & mems3 & -> & Hi3 & Hl3 & Hs3 & Hhd3).
  - done.
  - by rewrite <- Hp2.
  - done.
  - cbn [with_log seqNumber] in Hs2. lia.
  - rewrite Hl2. by eapply Hbatch.
  - done.
  - cbn [obind]. exists (with_vhead rp3 (mkVP e o 0)), mems3, tabs2. split; [done|]. split; [by apply rp_inv_vhead|].
    apply written_settled; [by apply Hhd3; right|]. cbn [with_vhead logStream vhead vp_extentID vp_offset]. by rewrite Hl3, Hl2.
Qed.

(** ** The client operations *)

Fixpoint fresh_entries (n : Z) (kvs : list (bytes * bytes)) : list EntryInfo :=
  match kvs with
  | [] => []
  | (k, v) :: kvs => mkEI (new_log k v (n + 1) 0) 0 0 0 :: fresh_entries (n + 1) kvs
  end.
Lemma new_entries_ok kvs : forall (rp : RP), 0 <= seqNumber rp -> seqNumber rp + zlen kvs <= MaxUint64 ->
  new_entries rp kvs = (with_seq rp (seqNumber rp + zlen kvs), fresh_entries (seqNumber rp) kvs).
Proof.
  induction kvs as [|[k v] kvs IH]; intros rp H0' Hs; cbn [new_entries fresh_entries].
  { rewrite zlen_nil, Z.add_0_r. by destruct rp. }
  rewrite zlen_cons in *. pose proof (zlen_nonneg kvs). unfold new_entry, MaxUint64 in *. rewrite u64_small by lia.
  rewrite IH by (cbn [with_seq seqNumber]; lia). cbn [with_seq seqNumber]. f_equal. unfold with_seq. cbn. f_equal. lia.
Qed.

Definition live (p : bytes * bytes) : bytes * option bytes := (fst p, Some (snd p)).
(** what the sizes of a batch are, whatever its versions *)
Definition logs_of (kvs : list (bytes * bytes)) : list Entry := (fun p => new_log (fst p) (snd p) 0 0) <$> kvs.
Lemma new_log_size k v t m : Entry_Size (new_log k v t m) = Entry_Size (new_log k v 0 m).
Proof. unfold Entry_Size, new_log. cbn [Key Value Meta UserMeta ExpiresAt]. by rewrite !zlen_KeyWithTs. Qed.
Lemma new_log_est k v t m : estimatedSizeInSkl (new_log k v t m) = estimatedSizeInSkl (new_log k v 0 m).
Proof. unfold estimatedSizeInSkl, new_log, ShouldWriteValueToLSM. cbn [Key Value Meta ExpiresAt]. by rewrite !zlen_KeyWithTs. Qed.
Lemma fresh_sizes kvs : forall n, room_for (Log <$> fresh_entries n kvs) = room_for (logs_of kvs) /\
  est_size (fresh_entries n kvs) = foldr (fun e m => estimatedSizeInSkl e + m) 0 (logs_of kvs).
Proof.
  induction kvs as [|[k v] kvs IH]; intros n; [done|]. destruct (IH (n + 1)) as [IH1 IH2]. unfold logs_of in *.
  cbn [fresh_entries]. rewrite !fmap_cons, est_size_cons. cbn [room_for foldr Log fst snd].
  fold (room_for (Log <$> fresh_entries (n + 1) kvs)). rewrite (new_log_size k v (n + 1)), (new_log_est k v (n + 1)), IH1, IH2. done.
Qed.

Definition batch_fits (kvs : list (bytes * bytes)) : Prop :=
  kvs <> [] /\ Forall (fun p => client_kv (fst p) (snd p)) kvs /\ room_for (logs_of kvs) < 2 ^ 31 /\
  107 + foldr (fun e m => estimatedSizeInSkl e + m) 0 (logs_of kvs) <= maxSkipList.

Lemma fresh_batch kvs : Forall (fun p => client_kv (fst p) (snd p)) kvs -> forall n (log : LogSt) es m, sc_inv m log ->
  Forall2 (logged log) (fresh_entries n kvs) es -> batch_entries log n (live <$> kvs) es.
Proof.
  induction 1 as [|[k v] kvs Hkv _ IH]; intros n log es m Hlog Hl; cbn [fresh_entries] in Hl.
  { by apply Forall2_nil_inv_l in Hl as ->. }
  apply Forall2_cons_inv_l in Hl as (e & es' & He & Hl & ->). rewrite fmap_cons. cbn [batch_entries live fst snd] in *.
  split; [by destruct Hkv|]. split; [exact (logged_putable log k v _ 0 e _ _ _ Hkv (or_introl eq_refl) He)|].
  split; [destruct He as [-> _]; done|]. split; [by eapply logged_stands|]. by eapply IH.
Qed.
Lemma fresh_packable kvs : Forall (fun p => client_kv (fst p) (snd p)) kvs -> forall n, Forall (fun e => packable (Log e)) (fresh_entries n kvs).
Proof.
  induction 1 as [|[k v] kvs Hkv _ IH]; intros n; [constructor|]. cbn [fresh_entries]. constructor; [|apply IH].
  apply new_log_packable; [done|by left].
Qed.
Lemma mjoin_singles {A} (l : list A) : mjoin ((fun e => [e]) <$> l) = l.
Proof. induction l as [|x l IH]; [done|]. rewrite fmap_cons. change (x :: mjoin ((fun e => [e]) <$> l) = x :: l). by rewrite IH. Qed.

Lemma WriteAll_ok b tries rp h mems tabs kvs : rp_inv (length kvs + (length kvs + 3) + b) rp h mems tabs -> (2 <= tries)%nat -> batch_fits kvs ->
  exists rp' mems' tabs', WriteAll fp rnd sched tries rp kvs = Ok (rp', None) /\ rp_inv b rp' (rev (live <$> kvs) ++ h) mems' tabs' /\ settled rp' mems'.
Proof using bloom_small BloomL RowL LogA.
  intros Hi Ht (Hne & Hkv & Hroom & Hest). unfold WriteAll. pose proof (ri_seq _ _ _ _ _ Hi) as Hs.
  assert (zlen kvs = Z.of_nat (length kvs)) as Hz by done.
  rewrite new_entries_ok by lia. cbn [with_seq blockWrites]. rewrite (ri_open _ _ _ _ _ Hi).
  set (n := seqNumber rp) in *. destruct (fresh_sizes kvs n) as [Hf1 Hf2].
  apply (writeRequests_ok b tries (with_seq rp (n + zlen kvs)) h mems tabs n (live <$> kvs)); rewrite ?mjoin_singles, ?Hf1, ?Hf2; try done.
  - rewrite length_fmap. apply rp_inv_seq; [fold n; lia|lia|]. eapply rp_inv_le; [|exact Hi]. lia.
  - apply Hi.
  - unfold n. lia.
  - cbn [with_seq seqNumber]. unfold zlen. rewrite length_fmap. fold n. lia.
  - by destruct kvs.
  - destruct kvs as [|[k v] kvs]; done.
  - by apply fresh_packable.
  - intros log es m Hlog Hl. rewrite ?mjoin_singles in Hl. by eapply fresh_batch.
Qed.

Lemma Delete_ok b tries rp h mems tabs k : rp_inv (5 + b) rp h mems tabs -> settled rp mems -> (2 <= tries)%nat -> k <> [] -> zlen k <= 2048 ->
  exists rp' mems' tabs' h', Delete fp rnd sched tries rp k =
      Ok (rp', match spec_get h k with Some (Some _) => None | _ => Some errNotFound end) /\
    rp_inv b rp' h' mems' tabs' /\ settled rp' mems' /\ h' = match spec_get h k with Some (Some _) => (k, None) :: h | _ => h end.
Proof using bloom_small BloomL RowL LogA.
  intros Hi Hset Ht Hk Hlen. unfold Delete. destruct (getValueStruct_live _ _ _ _ _ k Hi Hk) as (vs & -> & Hlive). cbn [obind]. rewrite Hlive.
  assert (forall h', h' = h -> exists rp' mems' tabs' h'', Ok (rp, Some errNotFound) = Ok (rp', Some errNotFound) /\
    rp_inv b rp' h'' mems' tabs' /\ settled rp' mems' /\ h'' = h') as Hno.
  { intros h' ->. exists rp, mems, tabs, h. split; [done|]. split; [|done]. eapply rp_inv_le; [|exact Hi]. lia. }
  destruct (spec_get h k) as [[v|]|]; [|by apply Hno..]. clear Hno.
  pose proof (ri_seq _ _ _ _ _ Hi) as Hs. unfold new_entry. set (n := seqNumber rp) in *.
  assert (u64 (n + 1) = n + 1) as -> by (apply u64_small; unfold MaxUint64 in *; lia).
  unfold send_and_wait. cbn [with_seq blockWrites]. rewrite (ri_open _ _ _ _ _ Hi).
  assert (client_kv k []) as Hkv by (split; [done|]; split; [done|done]).
  assert (zlen (KeyWithTs k (n + 1)) <= 2056) as Hz by (rewrite zlen_KeyWithTs; lia). pose proof (zlen_nonneg (KeyWithTs k (n + 1))).
  fold (new_log k [] (n + 1) BitDelete).
  destruct (writeRequests_ok b tries (with_seq rp (n + 1)) h mems tabs n [(k, None)] [[mkEI (new_log k [] (n + 1) BitDelete) 0 0 0]])
    as (rp' & mems' & tabs' & E & Hi' & Hset'); try done.
  - apply rp_inv_seq; [fold n; lia|cbn [length]; lia|]. eapply rp_inv_le; [|exact Hi]. cbn [length]. lia.
  - apply Hi.
  - unfold n. lia.
  - constructor; [|constructor]. apply new_log_packable; [done|by right].
  - destruct (new_log_packable k [] (n + 1) BitDelete Hkv (or_intror eq_refl)) as (Hwf & _).
    pose proof (Entry_bytes_bound _ Hwf) as Hb. rewrite <- Entry_Size_bytes in Hb by done. unfold new_log in Hb at 2 3. cbn [Key Value] in Hb.
    change (zlen (@nil byte)) with 0 in Hb. change (room_for [new_log k [] (n + 1) BitDelete] < 2 ^ 31). unfold room_for. cbn [foldr].
    change MaxMixedBlockSize with 4096. lia.
  - change (107 + est_size [mkEI (new_log k [] (n + 1) BitDelete) 0 0 0] <= maxSkipList). unfold est_size. cbn [foldr Log]. rewrite new_log_est.
    unfold estimatedSizeInSkl, new_log. cbn [Log Key Value ExpiresAt]. rewrite zlen_KeyWithTs.
    change (SizeVarint 0) with 1. unfold MaxNodeSize, maxSkipList, vptrSize. change (1 * MB) with 1048576.
    change (zlen (@nil byte)) with 0. pose proof (zlen_nonneg k). destruct (ShouldWriteValueToLSM _); lia.
  - intros log es m Hlog Hl. change (mjoin _) with [mkEI (new_log k [] (n + 1) BitDelete) 0 0 0] in Hl.
    apply Forall2_cons_inv_l in Hl as (e & es' & He & Hnil & ->). apply Forall2_nil_inv_l in Hnil as ->.
    cbn [batch_entries]. split; [done|]. split; [exact (logged_putable log k [] _ BitDelete e _ _ _ Hkv (or_intror eq_refl) He)|].
    split; [by rewrite (proj1 He)|]. split; [by eapply tombstone_stands|done].
  - exists rp', mems', tabs', ((k, None) :: h). by rewrite E.
Qed.
End Run.
