(* ===== verification/PartitionScan.v ===== *)
(** Range scans of a partition (range_rangepartition.go, Range): the merge of
    the memtables and tables is walked once and gives the live keys in order. *)
From Stdlib Require Import ZArith Lia.
From stdpp Require Import base option list numbers gmap sorting strings.
From S2P Require Import Prelude GoLib Utils Proto ProtoPs Keys YIter Extent MixBlock Stream.
From S2P Require Import Skiplist SkiplistSpec SkiplistPut SkiplistIter TableBlock Table TableSpec TableBuild Merge.
From S2P Require Import Partition PartitionSpec PartitionRun.

(** ** The scan of a list of pairs *)

(** the first pair of every user key *)
Fixpoint heads (skip : option bytes) (l : list kv) : list kv :=
  match l with
  | [] => []
  | p :: l => if decide (skip = Some (ukey (fst p))) then heads skip l else p :: heads (Some (ukey (fst p))) l
  end.
Fixpoint take_while {A} (f : A -> bool) (l : list A) : list A :=
  match l with
  | [] => []
  | x :: l => if f x then x :: take_while f l else []
  end.
Definition alive (now : Z) (p : kv) : bool := negb (isDeletedOrExpired now (VMeta (snd p)) (VExpiresAt (snd p))).
Definition user_keys (now : Z) (l : list kv) : list bytes := (fun p => ukey (fst p)) <$> filter (fun p => alive now p = true) l.

Lemma user_keys_cons now p l : user_keys now (p :: l) = (if alive now p then [ukey (fst p)] else []) ++ user_keys now l.
Proof. unfold user_keys. rewrite filter_cons. destruct (alive now p); [by rewrite decide_True|by rewrite decide_False]. Qed.

Lemma SameKey_ukey k k' : 8 <= zlen k -> 8 <= zlen k' -> SameKey k k' = Ok (bool_decide (ukey k = ukey k')).
Proof.
  intros Hk Hk'. destruct (key_versioned k Hk) as (u & t & -> & Ht). destruct (key_versioned k' Hk') as (u' & t' & -> & Ht').
  destruct (parse_KeyWithTs u t Ht) as (_ & _ & Hs). by rewrite Hs, !ukey_KeyWithTs.
Qed.

Section Loop.
Context {I : Type} `{HI : IteratorLaws I}.

Lemma range_loop_ok now prefix limit kvs rest : 0 <= limit < 2 ^ 32 -> forall fuel it skip out, y_at false it kvs rest ->
  (length rest < fuel)%nat -> zlen out <= limit -> skip = [] \/ 8 <= zlen skip ->
  range_loop fuel now prefix limit it skip out =
    Ok (out ++ take (Z.to_nat (limit - zlen out))
      (user_keys now (heads (if decide (skip = []) then None else Some (ukey skip)) (take_while (fun p => HasPrefix (fst p) prefix) rest)))).
Proof.
  intros Hlim. induction rest as [|[k v] rest IH]; intros fuel it skip out Hat Hf Hout Hsk; (destruct fuel as [|fuel]; [cbn in Hf; lia|]);
    cbn [range_loop]; rewrite (y_Valid_ok _ _ _ _ Hat).
  { cbn. by rewrite take_nil, app_nil_r. }
  pose proof (zlen_nonneg out). rewrite u32_small by lia. cbn [andb take_while fst].
  destruct (Z.ltb_spec (zlen out) limit) as [Hlt|Hge].
  2: { replace (limit - zlen out) with 0 by lia. cbn [Z.to_nat take]. by rewrite app_nil_r. }
  destruct (y_item_ok _ _ _ _ _ _ Hat) as (-> & Hv & it' & Hn & Hat'). cbn [obind].
  pose proof (y_at_walk _ _ _ _ Hat) as [_ H8]. apply Forall_cons in H8 as [H8 _]. cbn [fst] in H8.
  destruct (HasPrefix k prefix); cbn [negb]; [|by cbn; rewrite take_nil, app_nil_r].
  assert ((if 0 <? zlen skip then SameKey k skip else Ok false) =
    Ok (bool_decide ((if decide (skip = []) then None else Some (ukey skip)) = Some (ukey k)))) as ->.
  { destruct Hsk as [->|Hsk]; [done|]. destruct (Z.ltb_spec 0 (zlen skip)); [|lia].
    rewrite decide_False by (intros ->; by vm_compute in Hsk). rewrite SameKey_ukey by done. f_equal. apply bool_decide_ext. split; [by intros ->|by intros [= ->]]. }
  cbn [obind heads fst]. set (sk := if decide (skip = []) then None else Some (ukey skip)) in *.
  destruct (decide (sk = Some (ukey k))) as [E|E].
  { rewrite bool_decide_true by done. rewrite Hn. cbn [obind]. cbn in Hf. by rewrite IH by (done || lia). }
  rewrite bool_decide_false by done. rewrite Hv. cbn [obind]. rewrite user_keys_cons. unfold alive at 1. cbn [fst snd].
  assert (k <> []) as Hne by (intros ->; by vm_compute in H8). cbn in Hf.
  destruct (isDeletedOrExpired now (VMeta v) (VExpiresAt v)); cbn [negb app].
  - rewrite Hn. cbn [obind]. rewrite IH by (done || lia || by right). by rewrite (decide_False _ _ Hne).
  - rewrite ParseKey_ukey by done. cbn [obind]. rewrite Hn. cbn [obind]. change (default [] (Some (ukey k))) with (ukey k).
    rewrite IH by (done || (by right) || (rewrite ?zlen_app; change (zlen [ukey k]) with 1; lia)).
    rewrite (decide_False _ _ Hne), zlen_app. change (zlen [ukey k]) with 1. rewrite <- app_assoc. cbn [app].
    replace (Z.to_nat (limit - zlen out)) with (S (Z.to_nat (limit - (zlen out + 1)))) by lia. done.
Qed.
End Loop.

(** ** The keys of a sorted list *)

(** user keys in strictly ascending order *)
Definition key_lt (a b : bytes) : Prop := bytes_compare a b = Lt.
Definition key_le (a b : bytes) : Prop := bytes_compare a b <> Gt.
Lemma key_le_cases a b : key_le a b -> a = b \/ key_lt a b.
Proof. unfold key_le, key_lt. destruct (bytes_compare a b) eqn:E; [by apply bytes_compare_eq in E; left|by right|done]. Qed.
Lemma key_lt_le a b : key_lt a b -> key_le a b.
Proof. unfold key_lt, key_le. congruence. Qed.
Lemma key_le_refl a : key_le a a.
Proof. unfold key_le. by rewrite bytes_compare_refl. Qed.
Lemma key_lt_irrefl a : ~ key_lt a a.
Proof. unfold key_lt. by rewrite bytes_compare_refl. Qed.
Lemma key_le_antisym a b : key_le a b -> key_le b a -> a = b.
Proof.
  unfold key_le. rewrite (bytes_compare_antisym a b). destruct (bytes_compare a b) eqn:E; [by apply bytes_compare_eq in E|done|done].
Qed.
Lemma key_le_lt_trans a b c : key_le a b -> key_lt b c -> key_lt a c.
Proof. intros [->|Hab]%key_le_cases Hbc; [done|]. by eapply bytes_compare_lt_trans. Qed.
Lemma key_lt_le_trans a b c : key_lt a b -> key_le b c -> key_lt a c.
Proof. intros Hab [<-|Hbc]%key_le_cases; [done|]. by eapply bytes_compare_lt_trans. Qed.
Lemma key_le_trans a b c : key_le a b -> key_le b c -> key_le a c.
Proof. intros [->|Hab]%key_le_cases Hbc; [done|]. eapply key_lt_le, key_lt_le_trans; done. Qed.
Lemma key_not_lt a b : ~ key_lt a b <-> key_le b a.
Proof. unfold key_lt, key_le. rewrite (bytes_compare_antisym a b). by destruct (bytes_compare a b). Qed.

Lemma kv_lt_ukey a b : kv_lt false a b -> key_le (ukey (fst a)) (ukey (fst b)).
Proof. unfold kv_lt, kdir, kcmp, key_le. by destruct (bytes_compare (ukey (fst a)) (ukey (fst b))). Qed.

(** [p] is the first pair of its user key *)
Definition leads (l : list kv) (p : kv) : Prop :=
  p ∈ l /\ forall q, q ∈ l -> ukey (fst q) = ukey (fst p) -> q = p \/ kv_lt false p q.

Lemma heads_spec l : walk_ok false l -> forall skip, (forall u p, skip = Some u -> p ∈ l -> key_le u (ukey (fst p))) ->
  (forall p, p ∈ heads skip l <-> leads l p /\ skip <> Some (ukey (fst p))) /\
  StronglySorted key_lt ((fun p => ukey (fst p)) <$> heads skip l).
Proof.
  induction l as [|a l IH]; intros Hw skip Hsk.
  { split; [|constructor]. intros p. cbn. split; [intros Hin; destruct (not_elem_of_nil _ Hin)|intros [[Hin _] _]; destruct (not_elem_of_nil _ Hin)]. }
  apply walk_cons in Hw as [Hf Hw]. rewrite Forall_forall in Hf. cbn [heads].
  destruct (decide (skip = Some (ukey (fst a)))) as [E|E].
  { destruct (IH Hw skip) as [IH1 IH2]; [intros u p E' Hp; apply (Hsk u p E'); by right|]. split; [|done].
    intros p. rewrite IH1. split; intros [[Hin Hl] Hne]; (split; [|done]).
    - split; [by right|]. intros q [->|Hq]%elem_of_cons Eq; [congruence|by apply Hl].
    - apply elem_of_cons in Hin as [->|Hin]; [congruence|]. split; [done|]. intros q Hq. apply Hl. by right. }
  assert (forall u p, Some (ukey (fst a)) = Some u -> p ∈ l -> key_le u (ukey (fst p))) as Hsk'.
  { intros u p [= <-] Hp. by apply kv_lt_ukey, Hf. }
  destruct (IH Hw (Some (ukey (fst a))) Hsk') as [IH1 IH2]. split.
  - intros p. rewrite elem_of_cons, IH1. split.
    + intros [->|[[Hin Hl] Hne]].
      { split; [|done]. split; [left|]. intros q [->|Hq]%elem_of_cons _; [by left|right; by apply Hf]. }
      split; [split; [by right|]|].
      * intros q [->|Hq]%elem_of_cons Eq; [congruence|by apply Hl].
      * intros Es. pose proof (Hsk _ a Es ltac:(left)) as H1'. pose proof (Hsk' _ _ eq_refl Hin) as H2'.
        apply Hne. f_equal. by apply key_le_antisym.
    + intros [[[->|Hin]%elem_of_cons Hl] Hne]; [by left|right]. split; [split; [done|]|].
      * intros q Hq. apply Hl. by right.
      * intros [= Eu]. destruct (Hl a ltac:(left) Eu) as [->|Hlt]; [|].
        { pose proof (Hf _ Hin) as Hc. unfold kv_lt in Hc. by rewrite kdir_refl in Hc. }
        pose proof (kv_lt_trans _ _ _ _ Hlt (Hf _ Hin)) as Hc. unfold kv_lt in Hc. by rewrite kdir_refl in Hc.
  - rewrite fmap_cons. constructor; [done|]. apply Forall_fmap, Forall_forall. intros p Hp. apply IH1 in Hp as [[Hin _] Hne].
    destruct (key_le_cases _ _ (Hsk' _ _ eq_refl Hin)) as [Eu|]; [congruence|done].
Qed.

(** *** Prefixes *)

Lemma HasPrefix_spec s prefix : HasPrefix s prefix = true <-> prefix `prefix_of` s.
Proof.
  unfold HasPrefix. rewrite bool_decide_eq_true. unfold ztake, zlen. rewrite Nat2Z.id. split.
  - intros <-. apply prefix_take.
  - intros [x ->]. by rewrite take_app_length.
Qed.
Lemma bytes_compare_prefix (p a b : bytes) : bytes_compare (p ++ a) (p ++ b) = bytes_compare a b.
Proof. rewrite bytes_compare_app by done. by rewrite bytes_compare_refl. Qed.
Lemma prefix_gt (a x : bytes) : x <> [] -> key_lt a (a ++ x).
Proof. intros Hx. unfold key_lt. rewrite <- (app_nil_r a) at 1. rewrite bytes_compare_prefix. by destruct x. Qed.
(** the keys between two keys with a prefix have it too *)
Lemma prefix_convex (p a c : bytes) : forall b, p `prefix_of` a -> p `prefix_of` c -> key_le a b -> key_le b c -> p `prefix_of` b.
Proof.
  intros b [a' ->] [c' ->]. revert b. induction p as [|x p IH]; intros b H1' H2'; [by exists b|].
  destruct b as [|y b]; [by destruct H1'|]. cbn [app] in *. unfold key_le in *. cbn [bytes_compare] in *.
  destruct (byte_Z x ?= byte_Z y) eqn:E1; [|by rewrite Z.compare_antisym, E1 in H2'|by destruct H1'].
  rewrite Z.compare_antisym, E1 in H2'. cbn in H2'. destruct (IH b H1' H2') as [b' ->].
  apply Z.compare_eq, byte_Z_inj in E1 as ->. by exists b'.
Qed.
Lemma prefix_of_key (p start u s : bytes) : p `prefix_of` start -> key_le start u -> p `prefix_of` u ++ s -> p `prefix_of` u.
Proof.
  intros Hs Hle Hp. destruct (prefix_weak_total p u (u ++ s) Hp) as [|[x ->]]; [by exists s|done|].
  destruct x as [|c x]; [by rewrite app_nil_r|]. exfalso. destruct Hs as [y ->]. rewrite <- app_assoc in Hle.
  apply (key_lt_irrefl u). eapply key_lt_le_trans; [|exact Hle]. by apply prefix_gt.
Qed.

(** on a sorted list from [start] on, the pairs with the prefix come first *)
Lemma take_while_prefix prefix start l : walk_ok false l -> prefix `prefix_of` start ->
  Forall (fun p => key_le start (ukey (fst p))) l ->
  walk_ok false (take_while (fun p => HasPrefix (fst p) prefix) l) /\
  forall p, p ∈ take_while (fun p => HasPrefix (fst p) prefix) l <-> p ∈ l /\ prefix `prefix_of` ukey (fst p).
Proof.
  intros Hw Hs Hge. assert (forall p, p ∈ l -> HasPrefix (fst p) prefix = true <-> prefix `prefix_of` ukey (fst p)) as Hpre.
  { intros p Hin. rewrite Forall_forall in Hge. specialize (Hge p Hin). rewrite HasPrefix_spec.
    assert (fst p = ukey (fst p) ++ suffix (fst p)) as E by (unfold ukey, suffix; by rewrite ztake_zdrop).
    split; [|intros [x Hx]; rewrite E, Hx, <- app_assoc; by eexists].
    rewrite E at 1. by apply (prefix_of_key _ start). }
  induction l as [|a l IH]; cbn [take_while].
  { split; [done|]. intros p. split; [intros Hin; destruct (not_elem_of_nil _ Hin)|intros [Hin _]; destruct (not_elem_of_nil _ Hin)]. }
  pose proof (walk_cons _ _ _ Hw) as [Hf Hw']. apply Forall_cons in Hge as [Ha Hge].
  assert (forall p, p ∈ l -> p ∈ a :: l) as Hsub by (intros; by right).
  destruct (IH Hw' Hge ltac:(intros p Hin; apply Hpre; by right)) as [IH1 IH2].
  destruct (HasPrefix (fst a) prefix) eqn:Ea.
  - split.
    + destruct Hw as [_ H8]. apply Forall_cons in H8 as [H8 _]. destruct IH1 as [IH1 IH8]. split; [|by constructor].
      constructor; [done|]. apply Forall_forall. intros p Hp. rewrite Forall_forall in Hf. apply Hf. by apply IH2 in Hp as [].
    + intros p. rewrite !elem_of_cons, IH2. split.
      * intros [->|[Hin Hp]]; [split; [by left|by apply Hpre; [left|]]|by split; [right|]].
      * intros [[->|Hin] Hp]; [by left|by right].
  - split; [by split; constructor|]. intros p. split; [intros Hin; destruct (not_elem_of_nil _ Hin)|]. intros [Hin Hp]. exfalso.
    assert (prefix `prefix_of` ukey (fst a)) as Hc; [|by apply (Hpre a ltac:(left)) in Hc; congruence].
    apply elem_of_cons in Hin as [->|Hin]; [done|]. rewrite Forall_forall in Hf.
    by apply (prefix_convex prefix start (ukey (fst p))), kv_lt_ukey, Hf.
Qed.

(** ** The merged levels *)

Lemma walk_NoDup r l : walk_ok r l -> NoDup (fst <$> l).
Proof.
  intros [Hs _]. induction Hs as [|p l _ IH Hf]; [constructor|]. rewrite fmap_cons. constructor; [|done].
  intros Hin. apply list_elem_of_fmap in Hin as (q & E & Hq). rewrite Forall_forall in Hf. specialize (Hf _ Hq).
  unfold kv_lt in Hf. by rewrite E, kdir_refl in Hf.
Qed.
Lemma kv_lookup_in k v l : NoDup (fst <$> l) -> kv_lookup k l = Some v <-> (k, v) ∈ l.
Proof.
  induction l as [|[k' v'] l IH]; intros Hn; cbn [kv_lookup].
  { split; [done|intros Hin; destruct (not_elem_of_nil _ Hin)]. }
  rewrite fmap_cons in Hn. apply NoDup_cons in Hn as [Hk Hn]. cbn [fst snd] in *. rewrite elem_of_cons. case_decide as E.
  - subst k'. split; [intros [= ->]; by left|]. intros [[= ->]|Hin]; [done|]. destruct Hk. by apply (list_elem_of_fmap_2 fst _ (k, v)).
  - rewrite (IH Hn). split; [by right|]. intros [[= -> _]|]; done.
Qed.
Lemma first_lookup_join k ls : first_lookup k ls = kv_lookup k (mjoin ls).
Proof.
  induction ls as [|l ls IH]; [done|]. cbn [first_lookup]. change (mjoin (l :: ls)) with (l ++ mjoin ls). rewrite IH.
  induction l as [|p l IHl]; [done|]. cbn [app kv_lookup]. case_decide; [done|]. exact IHl.
Qed.

Lemma seek_list_elem r key l p : walk_ok r l -> p ∈ seek_list r key l <-> p ∈ l /\ kdir r (fst p) key <> Lt.
Proof.
  intros Hw. pose proof (seek_list_ge r key l Hw) as Hge. rewrite Forall_forall in Hge.
  destruct (seek_list_suffix r key l) as (passed & E & Hp). rewrite Forall_forall in Hp. split.
  - intros Hin. split; [|by apply Hge]. rewrite E. apply elem_of_app. by right.
  - intros [Hin Hne]. rewrite E in Hin. apply elem_of_app in Hin as [Hin|Hin]; [|done]. by destruct (Hne (Hp _ Hin)).
Qed.
Lemma seek_list_walk r key l : walk_ok r l -> walk_ok r (seek_list r key l).
Proof. intros Hw. destruct (seek_list_suffix r key l) as (passed & E & _). rewrite E in Hw. by apply walk_app_r in Hw. Qed.

Section Scan.
Context {LogSt RowSt Bloom : Type}.
Context `{LogL : StreamLaws LogSt} `{LogS : !LogStream LogSt} `{LogA : !LogLaws LogSt}.
Context `{RowL : StreamLaws RowSt} `{BloomL : BloomLaws Bloom} `{Sort : SortSlice}.
Variable fp : bytes -> Z.
Abbreviation RP := (RangePartition (LogSt := LogSt) (RowSt := RowSt) (Bloom := Bloom)).
Abbreviation riter := (UniIterator + Iterator (Bloom := Bloom))%type.

Definition riter_laws (row : RowSt) (rinv : sc_inv 0 row) :
  IteratorLaws riter (H := sum_YIterator (H0 := table_YIterator row)) :=
  sum_IteratorLaws (HJ := table_IteratorLaws row rinv).

Lemma table_iters_ok row (rinv : sc_inv 0 row) tbls kvss : Forall2 (tab_holds fp row) tbls kvss ->
  exists its, table_iters row tbls = Ok its /\ Forall2 (y_wf (IteratorLaws := riter_laws row rinv) false) its kvss.
Proof.
  induction 1 as [|t kvs tbls kvss Ht _ (its & IH & Hw)]; [by exists []|].
  destruct (tb_groups _ _ _ _ Ht) as (groups & Hh & Hne & <-).
  destruct (NewIterator_ok row rinv t groups false Hh Hne) as (it & E & Hwf & _).
  exists (inr it :: its). cbn [table_iters]. rewrite E. cbn [obind]. rewrite IH. cbn [obind]. split; [done|]. by constructor.
Qed.

Lemma newIterator_ok (rp : RP) mems tabs : levels fp rp mems tabs -> NoDup (fst <$> mjoin mems ++ mjoin tabs) ->
  forall rinv : sc_inv 0 (rowStream rp),
  exists iters t sh m, newIterator rp = Ok (iters, Some t) /\ (Merge.need sh <= 2 * length iters)%nat /\
    yi_wf (H0 := riter_laws (rowStream rp) rinv) sh false t m /\ (length m <= length (mjoin mems ++ mjoin tabs))%nat /\
    walk_ok false m /\ forall p, p ∈ m <-> p ∈ mjoin mems ++ mjoin tabs.
Proof.
  intros Hl Hnd rinv. unfold newIterator.
  destruct (table_iters_ok (rowStream rp) rinv (reverse (rp_tables rp)) (reverse tabs)) as (its & E & Hw).
  { apply Forall2_reverse. apply Hl. }
  rewrite E. cbn [obind]. set (mts := (fun m => inl (mkUni m 0 false)) <$> getMemTables rp : list riter).
  assert (Forall2 (y_wf (IteratorLaws := riter_laws (rowStream rp) rinv) false) mts mems) as Hm.
  { unfold mts. pose proof (lv_mems _ _ _ _ Hl) as Hmem. clear -Hmem. induction Hmem as [|s kvs ss kvss (L & Hr & Hc) _ IH]; [constructor|].
    rewrite fmap_cons. constructor; [|done]. split; [done|]. exists L. by split. }
  pose proof (Forall2_app Hm Hw) as Hall.
  destruct (NewMergeIterator_merges (H0 := riter_laws (rowStream rp) rinv) false (length (mts ++ its)) (mts ++ its) (mems ++ reverse tabs))
    as (t & -> & sh & m & Hn & Hwf & Hlk & Hz); [by unfold mts, getMemTables|lia|done|].
  assert (Permutation (mjoin (mems ++ reverse tabs)) (mjoin mems ++ mjoin tabs)) as Hp.
  { rewrite join_app. apply Permutation_app_head. apply join_Permutation. apply reverse_Permutation. }
  exists (mts ++ its), t, sh, m. split; [done|]. split; [done|]. split; [done|]. split; [by rewrite <- Hp|].
  pose proof (yi_wf_walk (H0 := riter_laws (rowStream rp) rinv) _ _ _ _ Hwf) as Hwalk. split; [done|]. intros [k v].
  rewrite <- (kv_lookup_in k v m) by (by eapply walk_NoDup). rewrite Hlk, first_lookup_join, kv_lookup_in by (by rewrite Hp). by rewrite Hp.
Qed.

Lemma leads_sub l l' p : (forall q, ukey (fst q) = ukey (fst p) -> q ∈ l <-> q ∈ l') -> leads l p <-> leads l' p.
Proof.
  intros Hs. unfold leads. rewrite (Hs p eq_refl). split; intros [Hin Hl]; (split; [done|]); intros q Hq E; apply Hl; try done; by apply Hs.
Qed.
(** the leading pair of a key is its newest version *)
Lemma leads_newest l uk p : Forall (fun p => user_version MaxUint64 (fst p)) l -> ukey (fst p) = uk ->
  leads l p <-> exists t vs, p = (KeyWithTs uk t, vs) /\ newest uk MaxUint64 l t vs /\
    forall vs', (KeyWithTs uk t, vs') ∈ l -> vs' = vs.
Proof.
  intros Hv Hu. rewrite Forall_forall in Hv. split.
  - intros [Hin Hl]. destruct (Hv p Hin) as (u & t & E & Hne & Ht). destruct p as [k vs]. cbn [fst] in *. subst k.
    rewrite ukey_KeyWithTs in Hu. subst u. exists t, vs. split; [done|]. split; [split; [done|split; [lia|]]|].
    + intros t' vs' Hin' Ht'. destruct (Hl (KeyWithTs uk t', vs') Hin') as [[= E _]|Hlt]; [cbn; by rewrite !ukey_KeyWithTs| |].
      * apply KeyWithTs_inj in E as [_ ->]; lia.
      * unfold kv_lt, kdir in Hlt. cbn [fst] in Hlt. rewrite kcmp_versions, bytes_compare_refl, Z.compare_lt_iff in Hlt by lia. lia.
    + intros vs' Hin'. destruct (Hl _ Hin' eq_refl) as [[= ->]|Hlt]; [done|]. unfold kv_lt in Hlt. cbn [fst] in Hlt. by rewrite kdir_refl in Hlt.
  - intros (t & vs & -> & (Hin & Ht & Hm) & Hvs). split; [done|]. intros [k v] Hq E. cbn [fst] in *.
    destruct (Hv _ Hq) as (u & t' & Ek & Hne & Ht'). cbn [fst] in Ek. subst k. rewrite !ukey_KeyWithTs in E. subst u.
    specialize (Hm t' v Hq ltac:(lia)). destruct (decide (t' = t)) as [->|Hnt]; [left; by rewrite (Hvs v Hq)|right].
    unfold kv_lt, kdir. cbn [fst]. rewrite kcmp_versions, bytes_compare_refl, Z.compare_lt_iff by lia. lia.
Qed.

Lemma stands_alive (log : LogSt) now vs ov : stands log vs ov -> isDeletedOrExpired now (VMeta vs) (VExpiresAt vs) = match ov with Some _ => false | None => true end.
Proof.
  intros [Hx Hs]. unfold isDeletedOrExpired. rewrite Hx. destruct ov as [v|].
  - destruct Hs as [-> _]. done.
  - destruct (Z.ltb_spec 0 (Z.land (VMeta vs) BitDelete)); [done|lia].
Qed.

Lemma scan_keys h (log : LogSt) st l start prefix now uk : Forall (fun p => user_version MaxUint64 (fst p)) st -> NoDup (fst <$> st) ->
  (forall uk, uk <> [] -> agrees log h st uk) -> walk_ok false l ->
  (forall p, p ∈ l <-> p ∈ st /\ key_le start (ukey (fst p)) /\ prefix `prefix_of` ukey (fst p)) ->
  uk ∈ user_keys now (heads None l) <-> uk <> [] /\ (exists v, spec_get h uk = Some (Some v)) /\ key_le start uk /\ prefix `prefix_of` uk.
Proof.
  intros Hv Hnd Ha Hw Hl. destruct (heads_spec l Hw None ltac:(done)) as [Hh _].
  assert (forall u t vs, newest u MaxUint64 st t vs -> forall vs', (KeyWithTs u t, vs') ∈ st -> vs' = vs) as Huniq.
  { intros u t vs (Hin & _) vs' Hin'. by eapply unique_pair. }
  assert (forall p, key_le start (ukey (fst p)) -> prefix `prefix_of` ukey (fst p) -> leads l p <-> leads st p) as Hlead.
  { intros p H1' H2'. apply leads_sub. intros q E. rewrite Hl, E. tauto. }
  unfold user_keys. rewrite list_elem_of_fmap. split.
  - intros (p & -> & Hp). apply list_elem_of_filter in Hp as [Hal Hp]. apply Hh in Hp as [Hp _].
    pose proof (proj1 (Hl p) (proj1 Hp)) as (Hin & Hge & Hpre).
    assert (ukey (fst p) <> []) as Hne.
    { rewrite Forall_forall in Hv. destruct (Hv p Hin) as (u & t & E & Hu & _). by rewrite E, ukey_KeyWithTs. }
    split; [done|]. split; [|done]. apply (Hlead p Hge Hpre) in Hp.
    apply (leads_newest st _ p Hv eq_refl) in Hp as (t & vs & E & Hn & _).
    specialize (Ha _ Hne). apply agrees_cases in Ha. destruct Ha as [[Hno _]|(ov & t0 & vs0 & E0 & Hn0 & Hs)]; [by destruct (Hno t vs (proj1 Hn))|].
    pose proof (newest_unique _ _ _ _ _ _ _ Hn Hn0) as <-.
    pose proof (Huniq _ _ _ Hn0 vs (proj1 Hn)) as ->. pose proof (stands_alive log now vs0 ov Hs) as Hd. unfold alive in Hal. rewrite E in Hal.
    cbn [snd] in Hal. rewrite Hd in Hal. destruct ov as [v|]; [by exists v|done].
  - intros (Hne & [v Hg] & Hge & Hpre).
    specialize (Ha _ Hne). unfold agrees in Ha. rewrite Hg in Ha. destruct Ha as (t & vs & Hn & Hs).
    exists (KeyWithTs uk t, vs). cbn [fst]. rewrite ukey_KeyWithTs. split; [done|]. apply list_elem_of_filter. split.
    + unfold alive. cbn [snd]. by rewrite (stands_alive log now vs _ Hs).
    + apply Hh. split; [|done]. apply Hlead; cbn [fst]; rewrite ?ukey_KeyWithTs; [done|done|].
      apply (leads_newest st uk); [done|apply ukey_KeyWithTs|]. exists t, vs. split; [done|]. split; [done|]. by apply Huniq.
Qed.

Lemma Range_ok b (rp : RP) h mems tabs fuel now prefix start limit : rp_inv fp b rp h mems tabs ->
  prefix `prefix_of` start -> 0 <= limit < 2 ^ 32 -> (length h < fuel)%nat ->
  exists keys, Range fuel now rp prefix start limit = Ok (take (Z.to_nat limit) keys) /\ StronglySorted key_lt keys /\
    forall uk, uk ∈ keys <-> uk <> [] /\ (exists v, spec_get h uk = Some (Some v)) /\ key_le start uk /\ prefix `prefix_of` uk.
Proof.
  intros Hi Hpre Hlim Hfuel. pose proof (rp_inv_levels _ _ _ _ _ _ Hi) as Hl. pose proof (ri_unique _ _ _ _ _ _ Hi) as Hnd.
  pose proof (lv_row _ _ _ _ Hl) as rinv. pose proof (ri_seq _ _ _ _ _ _ Hi) as Hseq.
  assert (Forall (fun p => user_version MaxUint64 (fst p)) (store mems tabs)) as Hv.
  { eapply Forall_impl; [apply Hi|]. intros p. apply user_version_le. lia. }
  destruct (newIterator_ok rp mems tabs Hl Hnd rinv) as (iters & t & sh & m & E & Hsh & Hwf & Hz & Hw & Hm).
  set (key := KeyWithTs start (seqNumber rp)). unfold Range. rewrite E. cbn [obind]. fold key.
  destruct (yi_Seek_ok (H0 := riter_laws (rowStream rp) rinv) (2 * length iters) sh false key t m (zlen_KeyWithTs8 _ _) Hsh Hwf) as (t' & Et & Hat).
  rewrite Et. cbn [obind]. set (l := seek_list false key m) in *.
  assert (walk_ok false l) as Hwl by by apply seek_list_walk.
  assert (forall p, p ∈ l <-> p ∈ store mems tabs /\ key_le start (ukey (fst p))) as Hel.
  { intros p. unfold l. rewrite seek_list_elem by done. rewrite Hm. fold (store mems tabs).
    split; intros [Hin Hc]; (split; [done|]); rewrite Forall_forall in Hv;
      (pose proof (ri_versions _ _ _ _ _ _ Hi) as Hvs; rewrite Forall_forall in Hvs; destruct (Hvs _ Hin) as (u & tt & Ek & Hne & Ht); rewrite Ek in * );
      cbn [kdir] in *; rewrite ukey_KeyWithTs in *.
    - apply not_before_version in Hc as [Hc|[-> _]]; [|apply key_le_refl|lia|lia]. unfold key_le. rewrite bytes_compare_antisym, Hc. done.
    - apply not_before_version; [lia|lia|]. destruct (key_le_cases _ _ Hc) as [->|Hlt]; [right; split; [done|lia]|left].
      unfold key_lt in Hlt. by rewrite bytes_compare_antisym, Hlt. }
  destruct (take_while_prefix prefix start l Hwl Hpre) as [Hwt Het]; [apply Forall_forall; intros p Hp; by apply Hel in Hp as []|].
  set (l' := take_while _ l) in *. destruct (heads_spec l' Hwt None ltac:(done)) as [Hh Hs].
  exists (user_keys now (heads None l')). split; [|split].
  - rewrite (range_loop_ok (HI := merge_IteratorLaws (H0 := riter_laws (rowStream rp) rinv) (2 * length iters)) now prefix limit m l Hlim fuel t' [] []).
    + rewrite decide_True by done. change (zlen (@nil bytes)) with 0. by rewrite Z.sub_0_r.
    + exists sh. by split.
    + pose proof (seek_list_suffix false key m) as (passed & Ep & _). fold l in Ep. apply (f_equal length) in Ep. rewrite length_app in Ep.
      pose proof (ri_size _ _ _ _ _ _ Hi) as Hsz. unfold store in Hsz. lia.
    + change (zlen (@nil bytes)) with 0. lia.
    + by left.
  - unfold user_keys. clear -Hs. induction (heads None l') as [|p ps IH]; [constructor|]. rewrite fmap_cons in Hs.
    apply StronglySorted_cons in Hs as [Hf Hs]. rewrite filter_cons. case_decide; [|by apply IH]. rewrite fmap_cons. constructor; [by apply IH|].
    rewrite Forall_fmap in Hf |- *. rewrite Forall_forall in Hf |- *. intros q Hq. apply list_elem_of_filter in Hq as [_ Hq]. by apply Hf.
  - intros uk. apply (scan_keys h (logStream rp) (store mems tabs) l' start prefix now uk); try done.
    + apply Hi.
    + intros p. rewrite Het, Hel. tauto.
Qed.
End Scan.
