(* ===== verification/PartitionOpen.v ===== *)
(** Opening, closing and compacting a partition (range_rangepartition.go:
    OpenRangePartition and close; valuelog.go: replayLog; compaction.go:
    doCompact). *)
From Stdlib Require Import ZArith Lia.
From stdpp Require Import base option list numbers gmap sorting strings.
From S2P Require Import Prelude GoLib Utils Proto ProtoPs Keys YIter Extent MixBlock Stream.
From S2P Require Import Skiplist SkiplistSpec SkiplistPut SkiplistIter TableBlock Table TableSpec TableBuild Merge.
From S2P Require Import Partition.

(** ** replayLog *)

(** the iterators a stream hands out for its log entries *)
Class LogIters (S It : Type) := {
  li_New : S -> ReadOption -> It;
  li_HasNext : S -> It -> outcome (It * (bool + error));
  li_Next : S -> It -> outcome (It * option EntryInfo) }.
#[export] Instance mock_LogIters : LogIters MockStreamClient MockIter := {
  li_New := NewLogEntryIter; li_HasNext := HasNext; li_Next := iter_Next }.

(** nothing is left to replay at the end of the log *)
Definition replay_option (startExtentID startOffset : Z) (replay : bool) : ReadOption :=
  if (startOffset =? 0) && (startExtentID =? 0) then mkRO true 0 0 replay else mkRO false startExtentID startOffset replay.
Class LogTail (S It : Type) `{LogLaws S} `{!LogIters S It} := {
  lt_done : forall n s e o, sc_inv n s -> ls_tail s e o ->
    exists it, li_HasNext s (li_New s (replay_option e o true)) = Ok (it, inl false) }.

Section Replay.
Context {St It A : Type} `{LogIters St It}.
(** [replayFunc], which changes a state *)
Variable f : A -> EntryInfo -> outcome (A * (bool + error)).

(** a nil entry makes [replayFunc] panic *)
Fixpoint replay_loop (fuel : nat) (s : St) (iter : It) (a : A) : outcome (A * option error) :=
  match fuel with
  | O => Panic
  | S fuel =>
      let! (iter, r) := li_HasNext s iter in
      match r with
      | inr e => Ok (a, Some e)
      | inl false => Ok (a, None)
      | inl true =>
          let! (iter, ei) := li_Next s iter in
          match ei with
          | None => Panic
          | Some ei =>
              let! (a, next) := f a ei in
              match next with
              | inr e => Ok (a, Some e)
              | inl false => Ok (a, None)
              | inl true => replay_loop fuel s iter a
              end
          end
      end
  end.
Definition replayLog (fuel : nat) (s : St) (startExtentID startOffset : Z) (replay : bool) (a : A) : outcome (A * option error) :=
  replay_loop fuel s (li_New s (replay_option startExtentID startOffset replay)) a.
End Replay.

Section Open.
Context {LogSt RowSt Bloom LogIt : Type}.
Context `{StreamClient LogSt} `{!LogStream LogSt} `{!LogIters LogSt LogIt}.
Context `{StreamClient RowSt} `{!TruncStream RowSt} `{BloomOps Bloom} `{SortSlice}.
Variable fp : bytes -> Z.
Variable rnd : SL -> bytes -> nat -> Z.
Variable sched : Z -> nat -> nat.
Abbreviation RP := (RangePartition (LogSt := LogSt) (RowSt := RowSt) (Bloom := Bloom)).
Abbreviation Tab := (Table (Bloom := Bloom)).

Definition with_tables (rp : RP) (tbls : list Tab) (seq : Z) : RP :=
  mkRP (logStream rp) (rowStream rp) (logRotates rp) (blockWrites rp) (rp_mt rp) (rp_imm rp) (flushChan rp) tbls
    seq (vhead rp) (pm_tables rp) (nextPtr rp).
Definition with_row_stream (rp : RP) (row : RowSt) : RP :=
  mkRP (logStream rp) row (logRotates rp) (blockWrites rp) (rp_mt rp) (rp_imm rp) (flushChan rp) (rp_tables rp)
    (seqNumber rp) (vhead rp) (pm_tables rp) (nextPtr rp).
Definition with_pm (rp : RP) (locs : list (Z * Z)) : RP :=
  mkRP (logStream rp) (rowStream rp) (logRotates rp) (blockWrites rp) (rp_mt rp) (rp_imm rp) (flushChan rp) (rp_tables rp)
    (seqNumber rp) (vhead rp) locs (nextPtr rp).
Definition blocked (rp : RP) : RP :=
  mkRP (logStream rp) (rowStream rp) (logRotates rp) true (rp_mt rp) (rp_imm rp) (flushChan rp) (rp_tables rp)
    (seqNumber rp) (vhead rp) (pm_tables rp) (nextPtr rp).
Definition push_task (rp : RP) (imm : list Mem) (ft : flushTask) : RP :=
  mkRP (logStream rp) (rowStream rp) (logRotates rp) (blockWrites rp) (rp_mt rp) imm (flushChan rp ++ [ft]) (rp_tables rp)
    (seqNumber rp) (vhead rp) (pm_tables rp) (S (nextPtr rp)).

Definition new_ptr (rp : RP) : RP :=
  mkRP (logStream rp) (rowStream rp) (logRotates rp) (blockWrites rp) (rp_mt rp) (rp_imm rp) (flushChan rp) (rp_tables rp)
    (seqNumber rp) (vhead rp) (pm_tables rp) (S (nextPtr rp)).

(** the flusher makes room when the channel is full *)
Definition flusher_room (rp : RP) : outcome RP :=
  if (length (flushChan rp) <? flushCapacity)%nat then Ok rp else flushMemtable fp sched rp.
(** and works until the channel is empty *)
Fixpoint drain_flusher (n : nat) (rp : RP) : outcome RP :=
  match n with
  | O => Ok rp
  | S n => let! rp := flushMemtable fp sched rp in drain_flusher n rp
  end.

(** ** Loading *)

Fixpoint open_tables (row : RowSt) (tableLocs : list (Z * Z)) : outcome (list Tab) :=
  match tableLocs with
  | [] => Ok []
  | (e, o) :: locs => let! tbl := OpenTable row e o in let! tbls := open_tables row locs in Ok (tbl :: tbls)
  end.

(** the function [replay] of OpenRangePartition *)
Definition replay_entry (tries : nat) (rp : RP) (ei : EntryInfo) : outcome (RP * (bool + error)) :=
  let head := mkVP (EI_ExtentID ei) (EI_Offset ei) 0 in
  let! ts := ParseTs (Key (Log ei)) in
  let rp := if seqNumber rp <? ts then with_seq rp (u64 (seqNumber rp + 1)) else rp in
  let! rp := make_room fp sched tries rp [ei] head in
  let! rp := writeToLSM rnd rp [ei] in
  Ok (rp, inl true).

(** up to the start of the write loop; the error of [replayLog] is dropped *)
Definition load_partition (fuel tries : nat) (log : LogSt) (row : RowSt) (tableLocs : list (Z * Z)) : outcome RP :=
  let! rp := new_partition log row in
  let! tbls := open_tables row tableLocs in
  let rp := with_pm (with_tables rp tbls (fst (last_table tbls 0 None))) tableLocs in
  let '(e, o) := replay_from tbls in
  let! (rp, _) := replayLog (replay_entry tries) fuel log e o true rp in
  Ok rp.

(** ** Compaction *)

Definition capacity : Z := 2 * maxSkipList.

Definition updateStats (stats : gmap Z Z) (vs : ValueStruct) : outcome (gmap Z Z) :=
  if 0 <? Z.land (VMeta vs) BitValuePointer then
    let! vp := vp_Decode (VValue vs) in
    let id := u32 (vp_extentID vp) in
    Ok (<[id := default 0 (stats !! id) + vp_len vp]> stats)
  else Ok stats.

(** the loop that fills one memStore *)
Fixpoint compact_fill {I : Type} `{YIterator I} (fuel : nat) (now : Z) (major : bool) (it : I) (memStore : SL) (skipKey : bytes)
    (stats : gmap Z Z) : outcome (I * SL * gmap Z Z) :=
  match fuel with
  | O => Panic
  | S fuel =>
      if y_Valid it then
        let! key := y_Key it in
        let! same := (if 0 <? zlen skipKey then SameKey key skipKey else Ok false) in
        let! vs := y_Value it in
        if same then
          let! stats := updateStats stats vs in
          let! it := y_Next it in compact_fill fuel now major it memStore skipKey stats
        else if major && isDeletedOrExpired now (VMeta vs) (VExpiresAt vs) then
          let! stats := updateStats stats vs in
          let! it := y_Next it in compact_fill fuel now major it memStore key stats
        else if capacity <? MemSize memStore + estimatedVS key vs then Ok (it, memStore, stats)
        else
          let! memStore := Put memStore key vs (rnd memStore key) in
          let! it := y_Next it in compact_fill fuel now major it memStore key stats
      else Ok (it, memStore, stats)
  end.

(** While a compaction runs, the flusher is at the top of its loop or, as
    [Some ch], in the send on the unbuffered channel [ch] of the task that it
    has just finished, where it stays until somebody receives. *)
Abbreviation flusher := (option nat).

(** a round of the flusher: it takes a task and ends in the send, if any; with
    an empty channel it waits for a task *)
Definition flusher_round (rp : RP) : outcome (flusher * RP) :=
  match flushChan rp with
  | [] => Err Deadlock
  | ft :: _ => let! rp := flushMemtable fp sched rp in Ok (if ft_isCompact ft then Some (ft_resultCh ft) else None, rp)
  end.
(** [rp.flushChan <- ft]: a full channel needs a flusher that is not itself
    waiting for the sender. (When the flusher works is not observable: it
    takes the tasks in order, and only a full channel makes the sender wait.) *)
Definition send_task (fl : flusher) (rp : RP) (ft : flushTask) : outcome (flusher * RP) :=
  if (length (flushChan rp) <? flushCapacity)%nat then Ok (fl, push_task rp (rp_imm rp) ft) else
  match fl with
  | Some _ => Err Deadlock
  | None => let! (fl, rp) := flusher_round rp in Ok (fl, push_task rp (rp_imm rp) ft)
  end.
(** [<-resultCh]: the flusher works until it sends *)
Fixpoint receive (n : nat) (resultCh : nat) (fl : flusher) (rp : RP) : outcome RP :=
  match fl with
  | Some ch => if (ch =? resultCh)%nat then Ok rp else Err Deadlock
  | None =>
      match n with
      | O => Err Deadlock
      | S n => let! (fl, rp) := flusher_round rp in receive n resultCh fl rp
      end
  end.
Fixpoint wait_results (numBuilds resultCh : nat) (fl : flusher) (rp : RP) : outcome RP :=
  match numBuilds with
  | O => Ok rp
  | S numBuilds => let! rp := receive (length (flushChan rp)) resultCh fl rp in wait_results numBuilds resultCh None rp
  end.

(** the loop over memStores; every one becomes a flush task *)
Fixpoint compact_loop {I : Type} `{YIterator I} (n fuel : nat) (now : Z) (major : bool) (head : valuePointer) (maxSeq : Z)
    (resultCh : nat) (it : I) (stats : gmap Z Z) (numBuilds : nat) (fl : flusher) (rp : RP) : outcome (nat * flusher * RP) :=
  match n with
  | O => Panic
  | S n =>
      if y_Valid it then
        let! memStore := NewSkiplist capacity in
        let! (it, memStore, stats) := compact_fill fuel now major it memStore [] stats in
        let! (fl, rp) := send_task fl rp (mkFT (mkMem (nextPtr rp) memStore) head maxSeq true resultCh) in
        compact_loop n fuel now major head maxSeq resultCh it stats (S numBuilds) fl rp
      else Ok (numBuilds, fl, rp)
  end.

(** [NewIterator] of every table, in order *)
Fixpoint tables_iters (row : RowSt) (tbls : list Tab) : outcome (list (Iterator (Bloom := Bloom))) :=
  match tbls with
  | [] => Ok []
  | t :: tbls => let! (_, it) := NewIterator row t false in let! its := tables_iters row tbls in Ok (it :: its)
  end.
Definition doCompact (n fuel : nat) (now : Z) (rp : RP) (tbls : list Tab) (major : bool) : outcome RP :=
  match last tbls with
  | None => Ok rp
  | Some lastTbl =>
      let '(maxSeq, maxTbl) := last_table tbls 0 None in
      let head := match maxTbl with Some t => mkVP (t_VpExtentID t) (t_VpOffset t) 0 | None => mkVP 0 0 0 end in
      let! iters := tables_iters (rowStream rp) tbls in
      match NewMergeIterator (length iters) (Leaf <$> iters) false with
      | None => Panic
      | Some it =>
          let ops := table_YIterator (rowStream rp) in
          let mf := (2 * length iters)%nat in
          let! it := yi_Rewind (H := ops) mf it in
          let resultCh := nextPtr rp in
          let! (numBuilds, fl, rp) :=
            compact_loop (H3 := merge_YIterator (H := ops) mf) n fuel now major head maxSeq resultCh it ∅ 0 None (new_ptr rp) in
          let! rp := wait_results numBuilds resultCh fl rp in
          Ok (with_row_stream rp (fst (ts_Truncate (rowStream rp) (fst (Loc lastTbl)))))
      end
  end.

(** the tables of [rp] that are not in [tbls]; both are in the order of [LastSeq] *)
Fixpoint surplus (tbls tables : list Tab) {struct tables} : list Tab :=
  let fix skip (tbls : list Tab) : list Tab :=
    match tbls with
    | [] => tables
    | t :: tbls' =>
        match tables with
        | [] => []
        | t' :: tables' =>
            if LastSeq t =? LastSeq t' then surplus tbls' tables'
            else if LastSeq t <? LastSeq t' then skip tbls'
            else t' :: surplus tbls tables'
        end
    end in
  skip tbls.

Definition OpenRangePartition (n fuel tries : nat) (now : Z) (log : LogSt) (row : RowSt) (tableLocs : list (Z * Z)) : outcome RP :=
  let! rp := load_partition fuel tries log row tableLocs in
  let tbls := rp_tables rp in
  if (length tbls <=? 1)%nat then Ok rp else
  let! rp := doCompact n fuel now rp tbls true in
  let newTables := surplus tbls (rp_tables rp) in
  Ok (with_tables (with_pm rp (updateTableLocs rp (Loc <$> newTables))) newTables (seqNumber rp)).

(** ** close *)

(** once the write loop has returned; [None] is the nil memtable, the field
    [rp_mt] of the rest is then stale *)
Definition close (rp : RP) (gracefull : bool) : outcome (option Mem * RP) :=
  let rp := blocked rp in
  let! empty := Empty (m_sl (rp_mt rp)) in
  if gracefull && negb empty then
    let! rp := flusher_room rp in
    let rp := push_task rp (rp_imm rp ++ [rp_mt rp]) (mkFT (rp_mt rp) (vhead rp) (u64 (seqNumber rp + 1)) false 0) in
    let! rp := drain_flusher (length (flushChan rp)) rp in Ok (None, rp)
  else
    let! rp := drain_flusher (length (flushChan rp)) rp in Ok (Some (rp_mt rp), rp).
End Open.

(** ** The file-backed stream *)

Lemma last_index_app exs1 ex exs2 : forall i cur, NoDup (ID <$> exs1 ++ ex :: exs2) ->
  last_index (exs1 ++ ex :: exs2) (ID ex) i cur = i + zlen exs1.
Proof.
  induction exs1 as [|x exs1 IH]; intros i cur Hn; cbn [app last_index] in *.
  - rewrite Z.eqb_refl. change (zlen (@nil Extent)) with 0. rewrite Z.add_0_r. rewrite fmap_cons in Hn. apply NoDup_cons in Hn as [Hn _].
    clear -Hn. generalize (i + 1). induction exs2 as [|y exs2 IH]; intros k; [done|]. cbn [last_index]. rewrite fmap_cons in Hn.
    apply not_elem_of_cons in Hn as [Hne Hn]. destruct (Z.eqb_spec (ID y) (ID ex)); [congruence|]. by apply IH.
  - rewrite fmap_cons in Hn. apply NoDup_cons in Hn as [_ Hn]. rewrite IH by done. rewrite zlen_cons. lia.
Qed.
(** at or past the end of an extent an iterator with nothing buffered stops *)
Lemma HasNext_at_end c exs1 ex exs2 it : m_exs c = exs1 ++ ex :: exs2 -> it_index it = zlen exs1 -> cache it = [] -> noMore it = false ->
  0 < commitLength ex <= it_offset it ->
  exists it', HasNext c it = Ok (it', inl false) /\
    it_index it' = (match at_end ex with EndOfExtent => zlen exs1 + 1 | _ => zlen exs1 end).
Proof.
  intros Hexs Hi Hc Hn Ho. unfold HasNext, receiveEntries. rewrite Hc, Hn, Hi, Hexs.
  assert (index (exs1 ++ ex :: exs2) (zlen exs1) = Ok ex) as ->.
  { unfold zlen. apply index_Ok. by rewrite list_lookup_middle. }
  cbn [obind]. unfold ReadEntries. destruct (Z.eqb_spec (it_offset it) 0); [lia|]. destruct (Z.leb_spec (commitLength ex) (it_offset it)); [|lia].
  cbn [obind]. unfold at_end. destruct (IsSeal ex); eexists; split; reflexivity.
Qed.

#[export] Program Instance mock_LogTail `{SortSlice} : LogTail MockStreamClient MockIter.
Next Obligation.
  intros ? n c e o Hc [(-> & -> & ex & Hexs & Hcl)|(Ho & ex & Hin & <- & <-)]; unfold replay_option.
  - cbn [Z.eqb andb]. destruct (HasNext_at_end c [] ex [] (NewLogEntryIter c (mkRO true 0 0 true))) as (it' & E & _); try done; [cbn; lia|].
    by exists it'.
  - destruct (Z.eqb_spec (commitLength ex) 0); [lia|]. cbn [andb].
    apply list_elem_of_split in Hin as (exs1 & exs2 & Hexs). pose proof (mi_nodup _ _ Hc) as Hnd. rewrite Hexs in Hnd.
    destruct (HasNext_at_end c exs1 ex exs2 (NewLogEntryIter c (mkRO false (ID ex) (commitLength ex) true))) as (it' & E & _); try done; [|cbn; lia|by exists it'].
    unfold NewLogEntryIter. cbn [ReadFromStart RO_ExtentID it_index]. rewrite Hexs, last_index_app by done. lia.
Qed.
