(* ===== verification/LogReplay.v ===== *)
(** What replaying a log gives (valuelog.go: replayLog): the entries appended
    since a position, in the order in which they were packed. The interface
    says it of any log stream; the file-backed stream keeps it as long as it has
    not started a new extent. *)
From Stdlib Require Import ZArith Lia.
From stdpp Require Import base option list numbers sorting strings.
From S2P Require Import Prelude GoLib Utils Proto ProtoPs Keys Extent MixBlock Stream.
From S2P Require Import TableBlock Partition PartitionOpen.

(** ** The interface *)

(** the iterator hands out these entries and then ends *)
Inductive yielding {St It : Type} `{LogIters St It} (s : St) : It -> list EntryInfo -> Prop :=
  | yl_done it it' : li_HasNext s it = Ok (it', inl false) -> yielding s it []
  | yl_more it it1 it2 e L : li_HasNext s it = Ok (it1, inl true) -> li_Next s it1 = Ok (it2, Some e) ->
      yielding s it2 L -> yielding s it (e :: L).

(** what the replay of an appended entry gives: a large one comes back as a
    pointer to the block that holds it *)
Definition replayed {St : Type} `{StreamLaws St} (s : St) (a i : EntryInfo) : Prop :=
  is_u64 (EI_ExtentID i) /\ is_u32 (EI_Offset i) /\
  if ShouldWriteValueToLSM (Log a) then Log i = Log a
  else Log i = pointer_entry (Log a) /\ exists blk, sc_stored s (EI_ExtentID i) (EI_Offset i) blk /\ ExtractLogEntry blk = Ok [Log a].

(** [lr_since s e o L]: [L] are the entries appended since the position; they
    can be replayed while the log has started no new extent since ([lr_here]);
    [lr_room s z]: [z] more bytes start none *)
Class LogReplay (St It : Type) `{LogLaws St} `{!LogIters St It} := {
  lr_here : St -> Z -> Z -> Prop;
  lr_since : St -> Z -> Z -> list EntryInfo -> Prop;
  lr_room : St -> Z -> Prop;
  lr_tail : forall n s e o, sc_inv n s -> ls_tail s e o -> lr_since s e o [];
  lr_replay : forall n s e o L, sc_inv n s -> lr_here s e o -> lr_since s e o L -> yielding s (li_New s (replay_option e o true)) L;
  lr_append : forall n s e o L entries s' entries' e' o', sc_inv (1 + n) s -> lr_since s e o L -> entries <> [] ->
    Forall (fun e => packable (Log e)) entries -> room_for (Log <$> entries) < 2 ^ 31 ->
    ls_AppendEntries s entries = Ok (s', inl (entries', e', o')) ->
    exists perm R, Permutation entries perm /\ Sorted (fun a b => zlen (Value (Log a)) <= zlen (Value (Log b))) perm /\
      Forall2 (replayed s') perm R /\ lr_since s' e o (L ++ R);
  lr_stay : forall n s e o z entries s' entries' e' o', sc_inv (1 + n) s -> lr_here s e o -> lr_room s z -> entries <> [] ->
    Forall (fun e => packable (Log e)) entries -> room_for (Log <$> entries) <= z -> z < 2 ^ 31 ->
    ls_AppendEntries s entries = Ok (s', inl (entries', e', o')) ->
    lr_here s' e o /\ lr_room s' (z - room_for (Log <$> entries)) }.

(** they are determined *)
Lemma yielding_unique {St It : Type} `{LogIters St It} (s : St) it L : yielding s it L -> forall L', yielding s it L' -> L' = L.
Proof.
  induction 1 as [it it' Hd|it it1 it2 e L Hh Hn _ IH]; intros L' Hy'; inversion Hy'; subst; try congruence.
  assert (it1 = it3) as <- by congruence. assert (it2 = it4 /\ e = e0) as [<- <-] by (split; congruence). f_equal. by apply IH.
Qed.

Section Loop.
Context {St It A : Type} `{LogIters St It}.
Variable f : A -> EntryInfo -> outcome (A * (bool + error)).

(** the callback on every entry *)
Fixpoint replay_all (a : A) (L : list EntryInfo) : outcome (A * option error) :=
  match L with
  | [] => Ok (a, None)
  | ei :: L =>
      let! (a, next) := f a ei in
      match next with
      | inr e => Ok (a, Some e)
      | inl false => Ok (a, None)
      | inl true => replay_all a L
      end
  end.
Lemma replay_loop_yielding (s : St) it L : yielding s it L -> forall fuel a, (length L < fuel)%nat -> replay_loop f fuel s it a = replay_all a L.
Proof.
  induction 1 as [it it' Hd|it it1 it2 e L Hh Hn _ IH]; intros [|fuel] a Hf; cbn [length] in Hf; try lia; cbn [replay_loop replay_all].
  - by rewrite Hd.
  - rewrite Hh. cbn [obind]. rewrite Hn. cbn [obind]. destruct (f a e) as [[a' [[|]|err]]| |]; cbn [obind]; [|done..]. apply IH. lia.
Qed.
End Loop.

(** ** Sizes of what a replay returns *)

Lemma sov_bound x : is_u64 x -> sov x <= 10.
Proof.
  intros Hx. unfold sov, Len64. unfold is_u64 in Hx.
  assert (0 < Z.lor x 1 < 2 ^ 64) as Hl.
  { split; [|apply (Z.log2_lt_cancel _ (2 ^ 64)); rewrite Z.log2_lor by lia; rewrite Z.log2_pow2 by lia].
    - assert (0 <= Z.lor x 1) as H0' by (apply Z.lor_nonneg; lia). destruct (Z.eq_dec (Z.lor x 1) 0) as [E|]; [|lia]. apply Z.lor_eq_0_iff in E as [_ E]. done.
    - destruct (Z.eq_dec x 0) as [->|]; [done|]. assert (Z.log2 x < 64) by (apply Z.log2_lt_pow2; lia). change (Z.log2 1) with 0. lia. }
  destruct (Z.eqb_spec (Z.lor x 1) 0); [lia|]. assert (Z.log2 (Z.lor x 1) < 64) by (apply Z.log2_lt_pow2; lia).
  apply Z.div_le_upper_bound; lia.
Qed.
Lemma EntryInfo_Size_bound i : is_u64 (Entry_Size (Log i)) -> is_u64 (EI_ExtentID i) -> is_u64 (EI_Offset i) -> is_u64 (EstimatedSize i) ->
  EntryInfo_Size i <= Entry_Size (Log i) + 44.
Proof.
  intros H1' H2' H3' H4'. unfold EntryInfo_Size. pose proof (sov_bound _ H1'). pose proof (sov_bound _ H2'). pose proof (sov_bound _ H3'). pose proof (sov_bound _ H4').
  destruct (negb _), (negb _), (negb _); lia.
Qed.
Lemma pointer_size e : Entry_wf e -> Entry_Size (pointer_entry e) <= Entry_Size e + 11.
Proof.
  intros (Hm & Hu & Hx & _). pose proof (zlen_nonneg (Value e)). pose proof (sov_nonneg (zlen (Value e))). pose proof (sov_nonneg (Meta e)).
  unfold Entry_Size, pointer_entry. cbn [Key Value Meta UserMeta ExpiresAt]. change (0 <? zlen (@nil byte)) with false.
  assert (is_u64 (Z.lor (Meta e) BitValuePointer)) as Hl.
  { unfold is_u32, is_u64 in *. split; [apply Z.lor_nonneg; unfold BitValuePointer; lia|].
    apply (Z.log2_lt_cancel _ (2 ^ 64)). rewrite Z.log2_lor, Z.log2_pow2 by (unfold BitValuePointer; lia). change (Z.log2 BitValuePointer) with 1.
    destruct (Z.eq_dec (Meta e) 0) as [->|]; [done|]. assert (Z.log2 (Meta e) < 32) by (apply Z.log2_lt_pow2; lia). lia. }
  pose proof (sov_bound _ Hl). pose proof (sov_nonneg (Z.lor (Meta e) BitValuePointer)).
  destruct (0 <? zlen (Key e)), (0 <? zlen (Value e)), (negb (Meta e =? 0)), (negb (Z.lor (Meta e) BitValuePointer =? 0)), (negb (UserMeta e =? 0)), (negb (ExpiresAt e =? 0)); cbv zeta iota; lia.
Qed.
Lemma sizeOfEntries_cons i l : sizeOfEntries (i :: l) = EntryInfo_Size i + sizeOfEntries l.
Proof.
  unfold sizeOfEntries. cbn [fold_left]. assert (forall a, fold_left (fun r e => r + EntryInfo_Size e) l a = a + fold_left (fun r e => r + EntryInfo_Size e) l 0) as Hf.
  { induction l as [|j l IH]; intros a; cbn [fold_left]; [lia|]. rewrite (IH (a + _)), (IH (0 + _)). lia. }
  rewrite Hf. lia.
Qed.
Lemma replay_info_size id off bl g : Forall Entry_wf g -> entries_size g < 2 ^ 32 -> is_u64 id -> is_u32 off -> is_u32 bl ->
  sizeOfEntries (replay_info id off bl <$> g) <= entries_size g + 55 * zlen g.
Proof.
  intros Hg Hs Hid Hoff Hbl. induction Hg as [|e g He Hg IH]; [done|]. rewrite fmap_cons, sizeOfEntries_cons, zlen_cons. cbn [entries_size foldr] in *. fold (entries_size g) in *.
  pose proof (entries_size_nonneg g Hg). pose proof (Entry_Size_nonneg e He). specialize (IH ltac:(lia)). unfold is_u32, is_u64 in *.
  enough (EntryInfo_Size (replay_info id off bl e) <= Entry_Size e + 55) by lia. pose proof (pointer_size e He). pose proof (Entry_Size_nonneg_any (pointer_entry e)).
  unfold replay_info. destruct (ShouldWriteValueToLSM e); (etrans; [apply EntryInfo_Size_bound; unfold is_u64; cbn [Log EI_ExtentID EI_Offset EstimatedSize]; rewrite ?u64_small by lia; lia|]); cbn [Log]; lia.
Qed.
Lemma block_info_size g b id off : good_block g b -> is_u64 id -> is_u32 off -> sizeOfEntries (block_info id b off) <= 12 * block_size b.
Proof.
  intros Hg Hid Hoff. rewrite (good_block_info g b) by done. destruct Hg as [[_ [pad Hd] Hwf Hs] Hb _ Hc _ _].
  pose proof (block_size_pos b Hb) as [Hp Hp0]. pose proof (wf_u32 b Hb).
  pose proof (replay_info_size id off (BlockLength b) g Hwf Hs Hid Hoff ltac:(unfold is_u32; lia)) as Hz.
  pose proof (wf_len b Hb) as Hl. rewrite Hd, zlen_app, zlen_entries_bytes in Hl by done. pose proof (zlen_nonneg pad). unfold block_size, MaxEntriesInBlock in *. lia.
Qed.
Lemma infos_size_bound id groups bs : Forall2 good_block groups bs -> is_u64 id -> forall off, 0 <= off -> off + blocks_size bs < 2 ^ 32 ->
  infos_size (block_info id) off bs <= 12 * blocks_size bs.
Proof.
  intros Hg Hid. induction Hg as [|g b gs bs Hgb Hg IH]; intros off H0' Hoff; [done|]. cbn [infos_size blocks_size foldr] in *. fold (blocks_size bs) in *.
  assert (Forall block_wf bs) as Hwf by (clear -Hg; induction Hg as [|g b gs bs Hgb _ IH]; constructor; [apply Hgb|done]).
  pose proof (blocks_size_nonneg bs Hwf). pose proof (block_size_pos b (gb_wf _ _ Hgb)) as [Hp _].
  pose proof (block_info_size g b id off Hgb Hid ltac:(unfold is_u32; lia)). specialize (IH (off + block_size b) ltac:(lia) ltac:(lia)). lia.
Qed.

(** ** The file-backed stream *)

(** the entries of the blocks [cs] that start at [off] *)
Definition log_of (id off : Z) (cs : list Block) : list EntryInfo := mjoin (zip_with (block_info id) cs (block_offsets off cs)).
Lemma log_of_cons id off b cs : log_of id off (b :: cs) = block_info id b off ++ log_of id (off + block_size b) cs.
Proof. done. Qed.
Lemma log_of_app id cs1 : forall off cs2, log_of id off (cs1 ++ cs2) = log_of id off cs1 ++ log_of id (off + blocks_size cs1) cs2.
Proof.
  induction cs1 as [|b cs1 IH]; intros off cs2; cbn [app blocks_size foldr]; [by rewrite Z.add_0_r|]. fold (blocks_size cs1).
  rewrite !log_of_cons, IH, <- app_assoc. by rewrite Z.add_assoc.
Qed.
(** a reading stops after some of the blocks, or at the end *)
Lemma take_entries_split id max cs : forall size off, exists cs1 cs2 e, take_entries (block_info id) max size off cs = (log_of id off cs1, off + blocks_size cs1, e) /\
  cs = cs1 ++ cs2 /\ (e = true -> cs2 = []) /\ (cs <> [] -> cs1 <> []).
Proof.
  induction cs as [|b cs IH]; intros size off; cbn [take_entries].
  { exists [], [], true. cbn [blocks_size foldr]. rewrite Z.add_0_r. done. }
  destruct (max <? size + sizeOfEntries (block_info id b off)).
  - exists [b], cs, false. rewrite log_of_cons. cbn [blocks_size foldr]. rewrite Z.add_0_r. unfold log_of. cbn. by rewrite app_nil_r.
  - destruct (IH (size + sizeOfEntries (block_info id b off)) (off + block_size b)) as (cs1 & cs2 & e & -> & -> & He & _).
    exists (b :: cs1), cs2, e. rewrite log_of_cons. cbn [blocks_size foldr]. fold (blocks_size cs1). by rewrite Z.add_assoc.
Qed.
Lemma log_of_nonempty id groups cs off : Forall2 good_block groups cs -> cs <> [] -> log_of id off cs <> [].
Proof.
  intros Hg Hne. destruct Hg as [|g b gs bs Hgb _]; [done|]. rewrite log_of_cons, (good_block_info g b) by done.
  pose proof (gb_some _ _ Hgb). by destruct g.
Qed.

(** handing out what is cached *)
Lemma yielding_cache (c : MockStreamClient) o i nm L : yielding c (mkIter o i nm [] true) L -> forall r, yielding c (mkIter o i nm r true) (r ++ L).
Proof. intros Hy. induction r as [|e r IH]; [done|]. by eapply yl_more. Qed.

Lemma mock_yields c pre ex : m_exs c = pre ++ [ex] -> isSeal ex = 0 -> commitLength ex <= testThreshold -> forall n bs cs groups, (length cs <= n)%nat ->
  extent_inv ex (bs ++ cs) -> Forall2 good_block groups cs ->
  yielding c (mkIter (512 + blocks_size bs) (zlen pre) false [] true) (log_of (ID ex) (512 + blocks_size bs) cs).
Proof.
  intros Hexs Hseal Hcl. induction n as [|n IH]; intros bs cs groups Hn Hinv Hg.
  all: pose proof (inv_commit _ _ Hinv) as Hc; pose proof (inv_wf _ _ Hinv) as Hwf; apply Forall_app in Hwf as [Hwf1 Hwf2]; rewrite blocks_size_app in Hc.
  all: pose proof (blocks_size_nonneg _ Hwf1); pose proof (blocks_size_nonneg _ Hwf2).
  all: destruct cs as [|b cs]; [|try (cbn in Hn; lia)].
  1, 2: destruct (HasNext_at_end c pre ex [] (mkIter (512 + blocks_size bs) (zlen pre) false [] true)) as (it' & E & _); try done;
    [cbn [it_offset blocks_size foldr] in *; lia|by eapply yl_done].
  unfold testThreshold in Hcl. change (1024 * KB) with 1048576 in Hcl.
  pose proof (infos_size_bound (ID ex) _ _ Hg (inv_id _ _ Hinv) (512 + blocks_size bs) ltac:(lia) ltac:(lia)) as Hsz.
  pose proof (ReadEntries_at (ID ex) true (block_info (ID ex)) ex bs (b :: cs) (16 * KB) Hinv ltac:(done) eq_refl (good_blocks_yield _ _ _ Hg) (fun b off => sizeOfEntries_nonneg _) ltac:(lia)) as Hre.
  destruct (take_entries_split (ID ex) (16 * KB) (b :: cs) 0 (512 + blocks_size bs)) as (cs1 & cs2 & e & Et & Ecs & He & Hne). rewrite Et in Hre. specialize (Hne ltac:(done)).
  assert (index (m_exs c) (zlen pre) = Ok ex) as Hix by (rewrite Hexs; unfold zlen; apply index_Ok; by rewrite list_lookup_middle).
  rewrite Ecs in Hg |- *. pose proof Hg as Hg'. apply Forall2_app_inv_r in Hg' as (g1 & g2 & Hg1 & Hg2 & ->). rewrite log_of_app.
  pose proof (log_of_nonempty (ID ex) _ _ (512 + blocks_size bs) Hg1 Hne) as Hlog. destruct (log_of (ID ex) (512 + blocks_size bs) cs1) as [|x xs] eqn:El; [done|].
  set (it1 := if e then mkIter (512 + blocks_size bs) (zlen pre) true (x :: xs) true else mkIter (512 + blocks_size bs + blocks_size cs1) (zlen pre) false (x :: xs) true).
  assert (HasNext c (mkIter (512 + blocks_size bs) (zlen pre) false [] true) = Ok (it1, inl true)) as Hh.
  { unfold HasNext, receiveEntries. cbn [cache noMore it_index it_offset it_replay]. rewrite Hix. cbn [obind]. rewrite Hre. cbn [obind].
    unfold at_end, IsSeal. rewrite Hseal. unfold it1. destruct e; reflexivity. }
  assert (yielding c it1 ((x :: xs) ++ log_of (ID ex) (512 + blocks_size bs + blocks_size cs1) cs2)) as Hy.
  { unfold it1. destruct e; apply yielding_cache.
    - rewrite He by done. by eapply yl_done.
    - replace (512 + blocks_size bs + blocks_size cs1) with (512 + blocks_size (bs ++ cs1)) by (rewrite blocks_size_app; lia).
      apply (IH _ cs2 g2); [|by rewrite <- app_assoc, <- Ecs|done]. apply (f_equal length) in Ecs. rewrite length_app in Ecs. cbn [length] in *.
      destruct cs1; [done|]. cbn [length] in Ecs. lia. }
  clear -Hh Hy. inversion Hy as [|? it2 it3 x' L' Hh' Hn' Hy']; subst. cbn [li_HasNext li_Next mock_LogIters] in *. eapply yl_more; [exact Hh| |exact Hy'].
  assert (li_HasNext c it1 = Ok (it1, inl true)) as E by (unfold it1; by destruct e). cbn [li_HasNext mock_LogIters] in E. rewrite E in Hh'. by injection Hh' as <-.
Qed.

(** the position is in the extent that takes the next append *)
Definition mock_here (c : MockStreamClient) (e o : Z) : Prop :=
  (e = 0 /\ o = 0 /\ exists ex, m_exs c = [ex]) \/ (o <> 0 /\ exists pre ex, m_exs c = pre ++ [ex] /\ ID ex = e).
Definition mock_since (c : MockStreamClient) (e o : Z) (L : list EntryInfo) : Prop :=
  ((e = 0 /\ o = 0) \/ e ∈ ID <$> m_exs c) /\
  (mock_here c e o -> exists pre ex bs cs groups, m_exs c = pre ++ [ex] /\ extent_inv ex (bs ++ cs) /\
    (if o =? 0 then bs = [] else o = 512 + blocks_size bs) /\ Forall2 good_block groups cs /\ L = log_of (ID ex) (512 + blocks_size bs) cs).
Definition mock_room (c : MockStreamClient) (z : Z) : Prop := exists pre ex, m_exs c = pre ++ [ex] /\ commitLength ex + z <= testThreshold.

Lemma mock_lr_tail n c e o : mock_inv n c -> mock_tail c e o -> mock_since c e o [].
Proof.
  intros Hc Ht. assert (forall ex, ex ∈ m_exs c -> exists bs, extent_inv ex bs) as Hbl by (apply Forall_forall, Hc).
  destruct Ht as [(-> & -> & ex & Hexs & Hcl)|(Ho & ex & Hin & <- & <-)].
  - split; [by left|]. intros _. destruct (Hbl ex ltac:(rewrite Hexs; left)) as [bs Hb]. exists [], ex, [], [], []. cbn [app]. split; [done|].
    pose proof (inv_commit _ _ Hb) as E. destruct bs as [|b bs]; [|pose proof (blocks_size_pos _ (inv_wf _ _ Hb) ltac:(done)); lia]. split; [exact Hb|]. split; [reflexivity|]. split; [constructor|reflexivity].
  - split; [right; by apply list_elem_of_fmap_2|]. intros [(_ & E & _)|(_ & pre & ex' & Hexs & Hid)]; [lia|].
    assert (ex' = ex) as ->.
    { pose proof (mi_nodup _ _ Hc) as Hnd. assert (ex' ∈ m_exs c) as Hin' by (rewrite Hexs; apply elem_of_app; right; left).
      apply list_elem_of_lookup in Hin as [i Hi], Hin' as [j Hj]. assert (i = j) as ->; [|congruence].
      eapply (NoDup_lookup _ _ _ (ID ex) Hnd); rewrite list_lookup_fmap; [by rewrite Hi|by rewrite Hj; cbn; rewrite Hid]. }
    destruct (Hbl ex ltac:(done)) as [bs Hb]. exists pre, ex, bs, [], []. rewrite app_nil_r. split; [done|]. split; [done|]. split; [|split; [constructor|reflexivity]].
    destruct (Z.eqb_spec (commitLength ex) 0); [lia|]. apply Hb.
Qed.

Lemma mock_lr_replay n c e o L : mock_inv n c -> mock_here c e o -> mock_since c e o L -> yielding c (NewLogEntryIter c (replay_option e o true)) L.
Proof.
  intros Hc Hh [_ Hs]. destruct (Hs Hh) as (pre & ex & bs & cs & groups & Hexs & Hinv & Ho & Hg & ->). clear Hs.
  pose proof (mi_last _ _ Hc) as (pre' & ex' & Hexs' & Hseal & _ & _ & Hcl). rewrite Hexs in Hexs'. apply app_inj_tail in Hexs' as [<- <-].
  pose proof (mock_yields c pre ex Hexs Hseal Hcl (length cs) bs cs groups ltac:(lia) Hinv Hg) as Hy.
  assert (NewLogEntryIter c (replay_option e o true) = mkIter (512 + blocks_size bs) (zlen pre) false [] true) as ->; [|exact Hy].
  unfold replay_option. destruct Hh as [(-> & -> & ex0 & E)|(Hne & pre0 & ex0 & E & <-)].
  - rewrite Hexs in E. destruct pre as [|? [|]]; [|done|done]. cbn in Ho. subst bs. done.
  - rewrite Hexs in E. apply app_inj_tail in E as [<- <-]. destruct (Z.eqb_spec o 0) as [|_]; [done|]. cbn [andb]. unfold NewLogEntryIter.
    cbn [ReadFromStart RO_ExtentID RO_Offset Replay]. rewrite Hexs, last_index_app by (rewrite <- Hexs; apply Hc). by rewrite Ho.
Qed.

(** the entries of appended blocks *)
Lemma good_blocks_replayed c ex groups blocks : forall (sorted : list EntryInfo) bs0 rest off,
  Forall2 good_block groups blocks -> mjoin groups = Log <$> sorted -> ex ∈ m_exs c -> extent_inv ex (bs0 ++ blocks ++ rest) -> off = 512 + blocks_size bs0 ->
  Forall2 (replayed c) sorted (log_of (ID ex) off blocks).
Proof.
  intros sorted bs0 rest off Hg. revert sorted bs0 off. induction Hg as [|g b gs bs Hgb Hgs IH]; intros sorted bs0 off Hj Hin Hinv Ho.
  { cbn in Hj. symmetry in Hj. apply fmap_nil_inv in Hj as ->. constructor. }
  change (mjoin (g :: gs)) with (g ++ mjoin gs) in Hj. symmetry in Hj. apply fmap_app_inv in Hj as (s1 & s2 & E2 & E3 & ->).
  rewrite log_of_cons, (good_block_info g b) by done. apply Forall2_app.
  - pose proof (inv_commit _ _ Hinv) as Hc. pose proof (inv_bound _ _ Hinv) as Hb. pose proof (inv_wf _ _ Hinv) as Hwf. rewrite !Forall_app in Hwf. destruct Hwf as (Hw1 & Hw2 & Hw3).
    rewrite !blocks_size_app in Hc. pose proof (blocks_size_nonneg _ Hw1). pose proof (blocks_size_nonneg _ Hw2). pose proof (blocks_size_nonneg _ Hw3).
    assert (forall a, a ∈ s1 -> replayed c a (replay_info (ID ex) off (BlockLength b) (Log a))) as Hst.
    { intros a Ha. unfold replayed, replay_info. destruct (ShouldWriteValueToLSM (Log a)) eqn:Hsm; cbn [EI_ExtentID EI_Offset Log].
      - split; [apply Hinv|]. split; [unfold is_u32; lia|done].
      - split; [apply Hinv|]. split; [unfold is_u32; lia|]. split; [done|]. exists b. split; [exists ex, bs0, (bs ++ rest); done|].
        rewrite (good_block_extract g b) by done. destruct (gb_pure g b Hgb) as [Hf|H1'].
        + rewrite E2, Forall_fmap, Forall_forall in Hf. specialize (Hf a Ha). cbn in Hf. congruence.
        + rewrite E2, length_fmap in H1'. destruct s1 as [|a' [|]]; try done. apply list_elem_of_singleton in Ha as ->. by rewrite E2. }
    rewrite E2. clear -Hst. induction s1 as [|a s1 IHs]; [constructor|]. rewrite !fmap_cons. constructor; [apply Hst; left|].
    apply IHs. intros a' Ha. apply Hst. by right.
  - apply (IH s2 (bs0 ++ [b])); [done|done|by rewrite <- app_assoc|rewrite blocks_size_app, Ho, blocks_size_single; lia].
Qed.

(** an append in terms of the blocks that it packs the entries into *)
Lemma mock_append_blocks `{SortSlice} n c entries c' r : mock_inv (1 + n) c -> entries <> [] -> Forall (fun e => packable (Log e)) entries ->
  room_for (Log <$> entries) < 2 ^ 31 -> ls_AppendEntries c entries = Ok (c', inl r) ->
  exists pre ex bs sorted groups blocks, m_exs c = pre ++ [ex] /\ extent_inv ex bs /\ Permutation entries sorted /\
    Sorted (fun a b => zlen (Value (Log a)) <= zlen (Value (Log b))) sorted /\ Forall2 good_block groups blocks /\ mjoin groups = Log <$> sorted /\
    blocks_size blocks <= room_for (Log <$> entries) /\ extent_inv (appended ex blocks) (bs ++ blocks) /\
    ((commitLength ex + blocks_size blocks <= testThreshold /\ m_exs c' = pre ++ [appended ex blocks]) \/
     (testThreshold < commitLength ex + blocks_size blocks /\ exists nx, m_exs c' = (pre ++ [sealed_extent (appended ex blocks)]) ++ [nx] /\ ID nx ∉ ID <$> m_exs c)).
Proof.
  intros Hc Hne Hp Hroom Ha. cbn [ls_AppendEntries mock_LogStream] in Ha. apply obind_Ok_inv in Ha as ([c1 r1] & Ha & Hr). injection Hr as -> Hr.
  unfold mock_AppendEntries in Ha. destruct (entriesToBlocks_groups entries Hne Hp) as (sorted & groups & blocks & j & k & E & Hsort & Hg & Hj & _).
  rewrite E in Ha. cbn [obind] in Ha. clear E. pose proof (sort_slice_perm (fun e => zlen (Value (Log e))) entries) as Hperm. rewrite <- Hsort in Hperm.
  pose proof (sort_slice_sorted (fun e => zlen (Value (Log e))) entries) as Hso. rewrite <- Hsort in Hso.
  assert (blocks_size blocks <= room_for (Log <$> entries)) as Hbs.
  { pose proof (good_blocks_size groups blocks Hg) as Hs. rewrite Hj in Hs. by rewrite (room_for_perm (Log <$> entries) (Log <$> sorted)) by (by rewrite Hperm). }
  assert (Forall block_wf blocks) as Hwf by (clear -Hg; induction Hg as [|g b gs bs Hgb _ IH]; constructor; [apply Hgb|done]).
  destruct Hc as [Hbl Hnd Hlk (pre & ex & Hexs & Hs & Hm & Hw & Hcl) Hu Hinj Hfr].
  assert (exists bs, extent_inv ex bs) as [bs He] by (rewrite Forall_forall in Hbl; apply Hbl; rewrite Hexs; apply elem_of_app; right; left).
  unfold testThreshold in Hcl. change (1024 * KB) with 1048576 in Hcl. assert (commitLength ex + blocks_size blocks < 2 ^ 32) as Hlt by lia.
  destruct (mock_Append_ok c pre ex bs blocks) as (nx & _ & Hni & _ & _ & _ & Hap); try done; [apply Hu; lia|].
  rewrite Hap in Ha. clear Hap. cbn [obind] in Ha. apply obind_Ok_inv in Ha as (offs & _ & Ha).
  assert (c' = (if testThreshold <? commitLength ex + blocks_size blocks
          then mkMock newMutex ((pre ++ [sealed_extent (appended ex blocks)]) ++ [nx]) (m_ID c) (m_suffix c) (later (m_ids c))
          else mkMock newMutex (pre ++ [appended ex blocks]) (m_ID c) (m_suffix c) (m_ids c))) as ->.
  { destruct (last (block_offsets _ _)); [|done]. destruct (last blocks); [|done]. injection Ha as -> _. done. }
  exists pre, ex, bs, sorted, groups, blocks. do 7 (split; [done|]). split; [by apply extent_inv_append|].
  destruct (Z.ltb_spec testThreshold (commitLength ex + blocks_size blocks)) as [Hb|Hb]; cbn [m_exs]; [right|left; by split].
  split; [done|]. exists nx. split; [done|]. rewrite Hni. apply Hfr. lia.
Qed.

Lemma mock_lr_append `{SortSlice} n c e o L entries c' entries' e' o' : mock_inv (1 + n) c -> mock_since c e o L -> entries <> [] ->
  Forall (fun e => packable (Log e)) entries -> room_for (Log <$> entries) < 2 ^ 31 ->
  ls_AppendEntries c entries = Ok (c', inl (entries', e', o')) ->
  exists perm R, Permutation entries perm /\ Sorted (fun a b => zlen (Value (Log a)) <= zlen (Value (Log b))) perm /\
    Forall2 (replayed c') perm R /\ mock_since c' e o (L ++ R).
Proof.
  intros Hc [Hpos Hs] Hne Hp Hroom Ha.
  destruct (mock_append_blocks n c entries c' _ Hc Hne Hp Hroom Ha) as (pre & ex & bs0 & sorted & groups & blocks & Hexs & He & Hperm & Hso & Hg & Hj & Hbs & He' & Hcase).
  exists sorted, (log_of (ID ex) (512 + blocks_size bs0) blocks). split; [done|]. split; [done|].
  destruct Hcase as [[Hle Hexs']|[Hgt (nx & Hexs' & Hnx)]].
  - split; [apply (good_blocks_replayed c' (appended ex blocks) groups blocks sorted bs0 []); try done; [rewrite Hexs'; apply elem_of_app; right; left|by rewrite app_nil_r]|].
    split; [destruct Hpos as [|Hpos]; [by left|right]; rewrite Hexs', fmap_app; rewrite Hexs, fmap_app in Hpos; done|].
    intros Hh. assert (mock_here c e o) as Hh0.
    { destruct Hh as [(-> & -> & x & E)|(Ho & p & x & E & <-)]; rewrite Hexs' in E.
      - left. split; [done|]. split; [done|]. exists ex. by destruct pre as [|? [|]].
      - right. split; [done|]. exists pre, ex. apply app_inj_tail in E as [_ <-]. done. }
    destruct (Hs Hh0) as (p & x & bs & cs & gs & E & Hx & Ho & Hgs & ->). rewrite Hexs in E. apply app_inj_tail in E as [<- <-].
    pose proof (extent_inv_unique _ _ _ Hx He) as <-. exists pre, (appended ex blocks), bs, (cs ++ blocks), (gs ++ groups).
    split; [done|]. split; [by rewrite app_assoc|]. split; [done|]. split; [by apply Forall2_app|]. rewrite log_of_app, blocks_size_app. by rewrite Z.add_assoc.
  - split.
    { apply (good_blocks_replayed c' (sealed_extent (appended ex blocks)) groups blocks sorted bs0 []); try done; [|by rewrite app_nil_r; apply extent_inv_sealed].
      rewrite Hexs'. rewrite !elem_of_app. left. right. left. }
    split; [destruct Hpos as [|Hpos]; [by left|right]; rewrite Hexs', !fmap_app; rewrite Hexs, fmap_app in Hpos; apply elem_of_app; by left|].
    intros [(-> & -> & x & E)|(Ho & p & x & E & <-)]; rewrite Hexs' in E.
    + exfalso. apply (f_equal length) in E. rewrite !length_app in E. cbn in E. lia.
    + exfalso. apply app_inj_tail in E as [_ ->]. destruct Hpos as [[_ ->]|Hpos]; [done|]. by apply Hnx.
Qed.

Lemma mock_lr_stay `{SortSlice} n c e o z entries c' entries' e' o' : mock_inv (1 + n) c -> mock_here c e o -> mock_room c z -> entries <> [] ->
  Forall (fun e => packable (Log e)) entries -> room_for (Log <$> entries) <= z -> z < 2 ^ 31 ->
  ls_AppendEntries c entries = Ok (c', inl (entries', e', o')) ->
  mock_here c' e o /\ mock_room c' (z - room_for (Log <$> entries)).
Proof.
  intros Hc Hh (pre0 & ex0 & E0 & Hz) Hne Hp Hroom Hlt Ha.
  destruct (mock_append_blocks n c entries c' _ Hc Hne Hp ltac:(lia) Ha) as (pre & ex & bs0 & sorted & groups & blocks & Hexs & He & Hperm & Hso & Hg & Hj & Hbs & He' & Hcase).
  rewrite Hexs in E0. apply app_inj_tail in E0 as [<- <-]. destruct Hcase as [[Hle Hexs']|[Hgt _]]; [|lia]. split.
  - destruct Hh as [(-> & -> & x & E)|(Ho & p & x & E & <-)]; rewrite Hexs in E.
    + left. split; [done|]. split; [done|]. exists (appended ex blocks). rewrite Hexs'. by destruct pre as [|? [|]].
    + right. split; [done|]. exists pre, (appended ex blocks). apply app_inj_tail in E as [_ <-]. done.
  - exists pre, (appended ex blocks). split; [done|]. change (commitLength (appended ex blocks)) with (commitLength ex + blocks_size blocks). lia.
Qed.

#[export] Instance mock_LogReplay `{SortSlice} : LogReplay MockStreamClient MockIter := {
  lr_here := mock_here; lr_since := mock_since; lr_room := mock_room; lr_tail := mock_lr_tail; lr_replay := mock_lr_replay;
  lr_append := mock_lr_append; lr_stay := mock_lr_stay }.
(** a new stream is at its start, with room for a megabyte *)
Lemma new_mock_here c : mock_tail c 0 0 -> mock_here c 0 0 /\ mock_room c (testThreshold - 512).
Proof.
  intros [(_ & _ & ex & E & Hcl)|(Ho & _)]; [|lia]. split; [left; eauto|]. exists [], ex. split; [done|]. lia.
Qed.
