(* ===== verification/Compact.v ===== *)
(** Compaction (compaction.go): the tables of a partition are merged into new
    ones that hold the newest version of every key that is not deleted. *)
From Stdlib Require Import ZArith Lia.
From stdpp Require Import base option list numbers gmap sorting strings.
From S2P Require Import Prelude GoLib Utils Proto ProtoPs Keys YIter Extent MixBlock Stream.
From S2P Require Import Skiplist SkiplistSpec SkiplistPut SkiplistIter TableBlock Table TableSpec TableBuild Merge.
From S2P Require Import Partition PartitionSpec PartitionRun PartitionScan PartitionOpen.

(** ** Filling a memStore *)

Lemma insert_kv_last k v M : Forall (fun q => kcmp (fst q) k = Lt) M -> insert_kv k v M = M ++ [(k, v)].
Proof.
  induction 1 as [|q M Hq _ IH]; [done|]. destruct q as [k' v']. cbn [insert_kv fst app] in *.
  rewrite (kcmp_antisym k' k), Hq. cbn [CompOpp]. by rewrite IH.
Qed.

Lemma estimatedVS_bound k vs : VS_wf vs -> estimatedVS k vs <= zlen k + 2000.
Proof.
  intros (_ & _ & Hx & _). unfold estimatedVS, MaxNodeSize, vptrSize. rewrite SizeVarint_PutUvarint by done.
  pose proof (zlen_PutUvarint (VExpiresAt vs) ltac:(apply Hx)). change ValueThrottle with 1024.
  destruct (Z.land (VMeta vs) BitValuePointer =? 0); cbn [andb]; [|lia]. destruct (Z.leb_spec (zlen (VValue vs)) 1024); lia.
Qed.

Lemma versioned_same vs : Version vs = 0 -> versioned vs 0 = vs.
Proof. destruct vs as [m u x v ver]. cbn. by intros ->. Qed.

(** appending to a memStore *)
Lemma put_last ptr s M k vs r : mem_ok (mkMem ptr s) M -> zlen (buf (arena s)) = capacity -> plain_kv (k, vs) ->
  Forall (fun q => kcmp (fst q) k = Lt) M -> MemSize s + estimatedVS k vs <= capacity ->
  exists s', Put s k vs r = Ok s' /\ mem_ok (mkMem ptr s') (M ++ [(k, vs)]) /\ zlen (buf (arena s')) = capacity /\
    MemSize s' <= MemSize s + estimatedVS k vs.
Proof.
  intros [(L & Hr & HL) Hbuf Hbytes Hsmall Hplain] Hcap (Hkv & Hver & Hsh & Hptr) Hlt Hroom. cbn [m_sl fst snd] in *.
  pose proof Hkv as [[Hk Hwf] Henc]. 
  destruct (Put_repr s L k vs r) as (s' & L' & Hput & Hr' & HL' & Hm' & Hz' & Hb'); [done|lia|lia|done|unfold MemSize, arena_size in Hroom; lia|].
  exists s'. split; [done|]. rewrite versioned_same, HL, insert_kv_last in HL' by done. split; [|lia].
  split; cbn [m_sl]; [by exists L'|lia|rewrite <- HL'; rewrite HL in Hb'; lia|..].
  - apply Forall_app. by split; [|constructor].
  - apply Forall_app. by split; [|constructor].
Qed.

Definition survivors (now : Z) (l : list kv) : list kv := filter (fun p => alive now p = true) l.
Lemma survivors_cons now p l : survivors now (p :: l) = (if alive now p then [p] else []) ++ survivors now l.
Proof. unfold survivors. rewrite filter_cons. destruct (alive now p); [by rewrite decide_True|by rewrite decide_False]. Qed.

Lemma updateStats_ok stats k vs : shaped k vs -> exists stats', updateStats stats vs = Ok stats'.
Proof.
  intros [_ Hp]. unfold updateStats. destruct (Z.ltb_spec 0 (Z.land (VMeta vs) BitValuePointer)) as [Hb|]; [|by eexists].
  pose proof (Hp Hb). unfold vp_Decode. rewrite slice_Ok by (unfold vptrSize; lia). cbn [obind]. by eexists.
Qed.

(** what [doCompact] estimates for pairs *)
Definition kv_est (l : list kv) : Z := foldr (fun p n => estimatedVS (fst p) (snd p) + n) 0 l.
Lemma kv_est_app l k : kv_est (l ++ k) = kv_est l + kv_est k.
Proof. induction l as [|p l IH]; [done|]. cbn [app kv_est foldr]. fold (kv_est (l ++ k)) (kv_est l). lia. Qed.
Lemma kv_est_nonneg l : Forall plain_kv l -> 0 <= kv_est l.
Proof.
  induction 1 as [|p l ([[Hk Hwf] _] & _ & Hc & _) _ IH]; [done|]. cbn [kv_est foldr]. fold (kv_est l).
  pose proof (EncodedSize_bounds _ Hwf). pose proof (zlen_nonneg (VValue (snd p))). unfold put_cost in Hc. lia.
Qed.
Lemma kv_est_bound l : Forall plain_kv l -> kv_est l <= zlen l * (2 ^ 16 + 2000).
Proof.
  induction 1 as [|p l ([[Hk Hwf] _] & _) _ IH]; [done|]. cbn [kv_est foldr]. fold (kv_est l). rewrite zlen_cons.
  pose proof (estimatedVS_bound (fst p) (snd p) Hwf). lia.
Qed.

Section Fill.
Context {I : Type} `{HI : IteratorLaws I}.
Variable rnd : SL -> bytes -> nat -> Z.

Lemma compact_fill_ok now kvs ptr rest : forall fuel it s M skip stats, y_at false it kvs rest -> (length rest < fuel)%nat ->
  skip = [] \/ 8 <= zlen skip -> mem_ok (mkMem ptr s) M -> zlen (buf (arena s)) = capacity -> Forall plain_kv rest ->
  (forall q p, q ∈ M -> p ∈ rest -> kcmp (fst q) (fst p) = Lt) ->
  exists it' s' stats' rest' out, compact_fill rnd fuel now true it s skip stats = Ok (it', s', stats') /\ y_at false it' kvs rest' /\
    mem_ok (mkMem ptr s') (M ++ out) /\ Forall plain_kv rest' /\ (length out + length rest' <= length rest)%nat /\
    survivors now (heads (if decide (skip = []) then None else Some (ukey skip)) rest) = out ++ survivors now (heads None rest') /\
    (MemSize s + 2 ^ 16 + 2000 <= capacity -> rest <> [] -> (length rest' < length rest)%nat) /\
    MemSize s' <= MemSize s + kv_est out /\ (rest' <> [] -> capacity < MemSize s' + 2 ^ 16 + 2000).
Proof.
  induction rest as [|[k v] rest IH]; intros fuel it s M skip stats Hat Hf Hsk Hm Hcap Hpl Hlt; (destruct fuel as [|fuel]; [cbn in Hf; lia|]);
    cbn [compact_fill]; rewrite (y_Valid_ok _ _ _ _ Hat).
  { exists it, s, stats, [], []. rewrite app_nil_r. repeat (split; [done|]). cbn [kv_est foldr]. split; [lia|done]. }
  destruct (y_item_ok _ _ _ _ _ _ Hat) as (-> & Hv & it' & Hn & Hat'). cbn [obind].
  pose proof (y_at_walk _ _ _ _ Hat) as Hw. pose proof Hw as [_ H8]. apply Forall_cons in H8 as [H8 _]. cbn [fst] in H8.
  pose proof (walk_cons _ _ _ Hw) as [Hsort _]. rewrite Forall_forall in Hsort.
  apply Forall_cons in Hpl as [Hp Hpl]. pose proof Hp as (Hkv & _ & Hsh). cbn [fst snd] in Hsh. cbn [length] in Hf.
  assert (forall q p, q ∈ M -> p ∈ rest -> kcmp (fst q) (fst p) = Lt) as Hlt' by (intros q p Hq Hr; apply Hlt; [done|by right]).
  assert ((if 0 <? zlen skip then SameKey k skip else Ok false) =
    Ok (bool_decide ((if decide (skip = []) then None else Some (ukey skip)) = Some (ukey k)))) as ->.
  { destruct Hsk as [->|Hsk]; [done|]. destruct (Z.ltb_spec 0 (zlen skip)); [|lia].
    rewrite decide_False by (intros ->; by vm_compute in Hsk). rewrite SameKey_ukey by done. f_equal.
    apply bool_decide_ext. split; [by intros ->|by intros [= ->]]. }
  cbn [obind]. rewrite Hv. cbn [obind heads fst]. set (sk := if decide (skip = []) then None else Some (ukey skip)) in *.
  assert (k <> []) as Hne by (intros ->; by vm_compute in H8).
  destruct (updateStats_ok stats k v Hsh) as [stats1 Hst].
  destruct (decide (sk = Some (ukey k))) as [E|E].
  { rewrite bool_decide_true by done. rewrite Hst. cbn [obind]. rewrite Hn. cbn [obind].
    destruct (IH fuel it' s M skip stats1 Hat' ltac:(lia) Hsk Hm Hcap Hpl Hlt') as (it2 & s2 & stats2 & rest2 & out & Hc & Hat2 & Hm2 & Hp2 & Hle & Ho & _ & Hz2 & Hr2).
    exists it2, s2, stats2, rest2, out. repeat (split; [done|]). split; [cbn [length]; lia|]. split; [done|]. split; [intros _ _; cbn [length]; lia|done]. }
  rewrite bool_decide_false by done. rewrite survivors_cons. unfold alive at 1. cbn [fst snd andb].
  destruct (isDeletedOrExpired now (VMeta v) (VExpiresAt v)) eqn:Hdel; cbn [negb app].
  { rewrite Hst. cbn [obind]. rewrite Hn. cbn [obind].
    destruct (IH fuel it' s M k stats1 Hat' ltac:(lia) (or_intror H8) Hm Hcap Hpl Hlt') as (it2 & s2 & stats2 & rest2 & out & Hc & Hat2 & Hm2 & Hp2 & Hle & Ho & _ & Hz2 & Hr2).
    rewrite (decide_False _ _ Hne) in Ho. exists it2, s2, stats2, rest2, out. repeat (split; [done|]). split; [cbn [length]; lia|]. split; [done|].
    split; [intros _ _; cbn [length]; lia|done]. }
  destruct (Z.ltb_spec capacity (MemSize s + estimatedVS k v)) as [Hfull|Hfit].
  { exists it, s, stats, ((k, v) :: rest), []. rewrite app_nil_r. split; [done|]. split; [done|]. split; [done|]. split; [by constructor|].
    split; [done|]. split; [cbn [heads fst]; rewrite decide_False, survivors_cons by done; unfold alive; cbn [snd]; by rewrite Hdel|].
    destruct Hkv as [[Hk Hwf] _]. cbn [fst snd kv_est foldr] in *. pose proof (estimatedVS_bound k v Hwf). split; [intros Hroom _; lia|]. split; [lia|]. intros _. lia. }
  destruct (put_last ptr s M k v (rnd s k) Hm Hcap Hp) as (s1 & Hput & Hm1 & Hcap1 & Hz1); [|done|].
  { apply Forall_forall. intros q Hq. apply (Hlt q (k, v) Hq). left. }
  rewrite Hput. cbn [obind]. rewrite Hn. cbn [obind].
  destruct (IH fuel it' s1 (M ++ [(k, v)]) k stats Hat' ltac:(lia) (or_intror H8) Hm1 Hcap1 Hpl) as (it2 & s2 & stats2 & rest2 & out & Hc & Hat2 & Hm2 & Hp2 & Hle & Ho & _ & Hz2 & Hr2).
  { intros q p Hq Hr. apply elem_of_app in Hq as [Hq|Hq%list_elem_of_singleton]; [by apply Hlt'|]. subst q. by apply Hsort. }
  rewrite (decide_False _ _ Hne) in Ho. exists it2, s2, stats2, rest2, ((k, v) :: out). split; [done|]. split; [done|].
  rewrite <- app_assoc in Hm2. split; [done|]. split; [done|]. split; [cbn [length]; lia|]. split; [by rewrite Ho|]. split; [intros _ _; cbn [length]; lia|].
  split; [|done]. cbn [kv_est foldr fst snd]. fold (kv_est out). lia.
Qed.
End Fill.

(** ** The new tables *)

Section Compact.
Context {LogSt RowSt Bloom LogIt : Type}.
Context `{LogL : StreamLaws LogSt} `{LogS : !LogStream LogSt} `{LogA : !LogLaws LogSt} `{LogI : !LogIters LogSt LogIt}.
Context `{RowL : StreamLaws RowSt} `{RowT : !TruncStream RowSt} `{RowA : !TruncLaws RowSt}.
Context `{BloomL : BloomLaws Bloom} `{Sort : SortSlice}.
Variable fp : bytes -> Z.
Variable rnd : SL -> bytes -> nat -> Z.
Variable sched : Z -> nat -> nat.
Hypothesis bloom_small : forall hs : list Z, zlen hs <= 2 ^ 21 -> zlen (bf_JSONMarshal (filter_of (Bloom := Bloom) hs)) < 2 ^ 29.
Abbreviation RP := (RangePartition (LogSt := LogSt) (RowSt := RowSt) (Bloom := Bloom)).
Abbreviation Tab := (Table (Bloom := Bloom)).

(** blocks count as stored when they survive a truncation at [e0] *)
Variable e0 : Z.
Abbreviation RowE := (after_StreamLaws (St := RowSt) e0).
(** the channel of the compaction *)
Variable ch : nat.

Definition same_rest (rp0 rp : RP) : Prop :=
  logStream rp = logStream rp0 /\ logRotates rp = logRotates rp0 /\ blockWrites rp = blockWrites rp0 /\ rp_mt rp = rp_mt rp0 /\
  rp_imm rp = rp_imm rp0 /\ seqNumber rp = seqNumber rp0 /\ vhead rp = vhead rp0.

Record compact_task (head : valuePointer) (maxSeq : Z) (ft : flushTask) (K : list kv) : Prop := mk_compact_task {
  ct_mem : mem_ok (ft_mt ft) K; ct_head : ft_vptr ft = head; ct_seq : ft_seqNum ft = maxSeq; ct_compact : ft_isCompact ft = true; ct_ch : ft_resultCh ft = ch }.
Record compact_table (row : RowSt) (head : valuePointer) (maxSeq : Z) (t : Tab) (K : list kv) : Prop := mk_compact_table {
  cb_holds : tab_holds (RowL := RowE) fp row t K; cb_seq : LastSeq t = maxSeq;
  cb_head : t_VpExtentID t = vp_extentID head /\ t_VpOffset t = vp_offset head }.
Abbreviation nonempty := (filter (fun K : list kv => K <> [])).

(** memStores [done] are tables, [pend] wait in the channel *)
Record cstate (m : nat) (rp0 rp : RP) (head : valuePointer) (maxSeq : Z) (done pend : list (list kv)) : Prop := mk_cstate {
  cs_row : sc_inv (StreamLaws := RowE) (need pend + m) (rowStream rp);
  cs_tables : exists newt, rp_tables rp = rp_tables rp0 ++ newt /\ Forall2 (compact_table (rowStream rp) head maxSeq) newt (nonempty done);
  cs_chan : Forall2 (compact_task head maxSeq) (flushChan rp) pend;
  cs_same : same_rest rp0 rp }.

Lemma cstate_flush m rp0 rp head maxSeq done K pend : is_u64 (vp_extentID head) -> is_u32 (vp_offset head) -> is_u64 maxSeq ->
  cstate m rp0 rp head maxSeq done (K :: pend) ->
  exists rp', flushMemtable fp sched rp = Ok rp' /\ cstate m rp0 rp' head maxSeq (done ++ [K]) pend.
Proof using bloom_small BloomL RowL.
  intros Hu1 Hu2 Hu3 [Hrow (newt & Htb & Hnew) Hch Hsame]. apply Forall2_cons_inv_r in Hch as (ft & rest & Hft & Hch & Ech).
  unfold flushMemtable. rewrite Ech. destruct Hft as [Hm Hh Hs Hc _]. unfold need in Hrow. cbn [foldr] in Hrow. fold (need pend) in Hrow.
  destruct K as [|kv0 K].
  - rewrite (handleFlushTask_empty fp sched rp ft Hm). cbn [obind]. rewrite Hc. cbn [obind].
    eexists. split; [done|]. split; cbn [rowStream rp_tables flushChan]; [eapply sc_inv_le; [exact Hrow|cbn; lia]| |done|done].
    exists newt. split; [done|]. rewrite filter_app. cbn. by rewrite app_nil_r.
  - destruct (handleFlushTask_ok (RowL := RowE) fp sched bloom_small (need pend + m) rp ft (kv0 :: K) Hm ltac:(done)) as (row & t & -> & Hrow' & Hmono & Ht & Hseq & Hvx & Hvo).
    { unfold task_ok. rewrite Hh, Hs. by split. }
    { eapply sc_inv_le; [exact Hrow|cbn [length]; lia]. }
    cbn [obind]. rewrite Hc. cbn [obind]. eexists. split; [done|]. split; cbn [with_row rowStream rp_tables flushChan]; [done| |done|done].
    exists (newt ++ [t]). rewrite Htb, app_assoc. split; [done|]. rewrite filter_app. apply Forall2_app.
    + eapply Forall2_impl; [exact Hnew|]. intros t0 k0 [H1' H2' H3']. split; [|done|done]. eapply tab_holds_mono; [exact Hmono|done].
    + cbn. constructor; [|constructor]. split; [done|congruence|]. rewrite Hvx, Hvo, Hh. done.
Qed.

Lemma cstate_le m m' rp0 rp head maxSeq done pend : (m' <= m)%nat -> cstate m rp0 rp head maxSeq done pend -> cstate m' rp0 rp head maxSeq done pend.
Proof. intros Hle [Hrow Htb Hch Hs]. split; [|done|done|done]. eapply sc_inv_le; [exact Hrow|lia]. Qed.

(** a round of the flusher ends in the send *)
Lemma cstate_round m rp0 rp head maxSeq done K pend : is_u64 (vp_extentID head) -> is_u32 (vp_offset head) -> is_u64 maxSeq ->
  cstate m rp0 rp head maxSeq done (K :: pend) ->
  exists rp', flusher_round fp sched rp = Ok (Some ch, rp') /\ cstate m rp0 rp' head maxSeq (done ++ [K]) pend.
Proof using bloom_small BloomL RowL.
  intros Hu1 Hu2 Hu3 Hc. destruct (cstate_flush _ _ _ _ _ _ _ _ Hu1 Hu2 Hu3 Hc) as (rp' & E & Hc'). exists rp'. split; [|done].
  pose proof (cs_chan _ _ _ _ _ _ _ Hc) as Hch. apply Forall2_cons_inv_r in Hch as (ft & rest & [_ _ _ Hco Hcc] & _ & Ech).
  unfold flusher_round. rewrite Ech, E. cbn [obind]. by rewrite Hco, Hcc.
Qed.
Lemma cstate_wait m rp0 head maxSeq : is_u64 (vp_extentID head) -> is_u32 (vp_offset head) -> is_u64 maxSeq ->
  forall pend fl rp done, cstate m rp0 rp head maxSeq done pend -> fl = None \/ fl = Some ch ->
  exists rp', wait_results fp sched (length pend + match fl with Some _ => 1 | None => 0 end) ch fl rp = Ok rp' /\
    cstate m rp0 rp' head maxSeq (done ++ pend) [].
Proof using bloom_small BloomL RowL.
  intros Hu1 Hu2 Hu3. assert (forall pend rp done, cstate m rp0 rp head maxSeq done pend ->
    exists rp', wait_results fp sched (length pend) ch None rp = Ok rp' /\ cstate m rp0 rp' head maxSeq (done ++ pend) []) as Hnone.
  { induction pend as [|K pend IH]; intros rp done Hc; [exists rp; cbn; by rewrite app_nil_r|].
    pose proof (cs_chan _ _ _ _ _ _ _ Hc) as Hch. apply Forall2_length in Hch. cbn [length wait_results]. rewrite Hch. cbn [length receive].
    destruct (cstate_round _ _ _ _ _ _ _ _ Hu1 Hu2 Hu3 Hc) as (rp1 & -> & Hc1). cbn [obind]. destruct pend; cbn [length receive]; rewrite Nat.eqb_refl; cbn [obind].
    all: destruct (IH rp1 _ Hc1) as (rp' & E & Hc'); exists rp'; split; [done|]; by rewrite <- app_assoc in Hc'. }
  intros pend fl rp done Hc [->| ->]; [rewrite Nat.add_0_r; by apply Hnone|]. rewrite Nat.add_1_r. cbn [wait_results].
  assert (receive fp sched (length (flushChan rp)) ch (Some ch) rp = Ok rp) as -> by (destruct (length (flushChan rp)); cbn; by rewrite Nat.eqb_refl).
  cbn [obind]. by apply Hnone.
Qed.

Lemma mem_ok_ptr p q s K : mem_ok (mkMem p s) K -> mem_ok (mkMem q s) K.
Proof. intros [H1' H2' H3' H4' H5']. by split. Qed.
Lemma new_memStore ptr : exists s, NewSkiplist capacity = Ok s /\ mem_ok (mkMem ptr s) [] /\ MemSize s = 107 /\ zlen (buf (arena s)) = capacity.
Proof.
  destruct (NewSkiplist_repr capacity) as (s & E & Hr & Hm & Hz); [done|done|]. exists s. split; [exact E|]. clear E. split; [|exact (conj Hm Hz)].
  split; cbn [m_sl]; [exists []; split; [exact Hr|reflexivity]|rewrite Hz; unfold capacity, maxSkipList; change MB with 1048576; lia| |constructor|constructor].
  rewrite Hm. unfold kv_bytes. cbn [foldr]. lia.
Qed.

Lemma cstate_push m rp0 rp head maxSeq done pend K s ptr : cstate (S (length K) + m) rp0 rp head maxSeq done pend ->
  (forall ptr, mem_ok (mkMem ptr s) K) ->
  cstate m rp0 (push_task rp (rp_imm rp) (mkFT (mkMem ptr s) head maxSeq true ch)) head maxSeq done (pend ++ [K]).
Proof.
  intros [Hrow Htb Hch Hs] Hm. split; cbn [push_task rowStream rp_tables flushChan]; [|done| |done].
  - rewrite need_snoc. eapply sc_inv_le; [exact Hrow|lia].
  - apply Forall2_app; [done|]. constructor; [|constructor]. split; [apply Hm|reflexivity..].
Qed.

(** how many memStores a compaction can hand over before it waits: a full
    channel, and the one the flusher waits to report *)
Definition maxBuilds : nat := S flushCapacity.
(** where the flusher is while the compaction sends *)
Definition flusher_at (fl : option nat) (done pend : list (list kv)) : Prop :=
  (length pend <= flushCapacity)%nat /\ (fl = None /\ done = [] \/ fl = Some ch /\ exists K, done = [K]).

Lemma cstate_send m rp0 rp head maxSeq fl done pend K s ptr : is_u64 (vp_extentID head) -> is_u32 (vp_offset head) -> is_u64 maxSeq ->
  cstate (S (length K) + m) rp0 rp head maxSeq done pend -> flusher_at fl done pend -> (forall ptr, mem_ok (mkMem ptr s) K) ->
  let r := send_task fp sched fl rp (mkFT (mkMem ptr s) head maxSeq true ch) in
  if (length (done ++ pend) <? maxBuilds)%nat
  then exists fl' rp' done' pend', r = Ok (fl', rp') /\ cstate m rp0 rp' head maxSeq done' pend' /\ flusher_at fl' done' pend' /\
    done' ++ pend' = done ++ pend ++ [K]
  else r = Err Deadlock.
Proof using bloom_small BloomL RowL.
  intros Hu1 Hu2 Hu3 Hc [Hle Hfl] Hm r. subst r. unfold send_task. pose proof (cs_chan _ _ _ _ _ _ _ Hc) as Hch. apply Forall2_length in Hch. rewrite Hch.
  rewrite length_app. unfold maxBuilds. destruct (Nat.ltb_spec (length pend) flushCapacity) as [Hroom|Hfull].
  { destruct (Nat.ltb_spec (length done + length pend) (S flushCapacity)) as [_|Hge]; [|destruct Hfl as [[_ ->]|[_ [K0 ->]]]; cbn in Hge; lia].
    exists fl, (push_task rp (rp_imm rp) (mkFT (mkMem ptr s) head maxSeq true ch)), done, (pend ++ [K]). split; [done|]. split; [by apply cstate_push|].
    split; [|done]. split; [rewrite length_app; cbn [length]; lia|done]. }
  destruct Hfl as [[-> ->]|[-> [K0 ->]]]; cbn [length].
  - destruct (Nat.ltb_spec (0 + length pend) (S flushCapacity)); [|lia]. destruct pend as [|K0 pend]; [cbn in Hfull; unfold flushCapacity in Hfull; lia|].
    destruct (cstate_round _ _ _ _ _ _ _ _ Hu1 Hu2 Hu3 Hc) as (rp1 & -> & Hc1). cbn [obind].
    eexists _, _, [K0], (pend ++ [K]). split; [reflexivity|]. split; [by apply cstate_push|]. split; [|done]. cbn [length] in *.
    split; [rewrite length_app; cbn [length]; lia|]. right. split; [done|by exists K0].
  - by destruct (Nat.ltb_spec (1 + length pend) (S flushCapacity)); [lia|].
Qed.

Section Loop.
Context {I : Type} `{HI : IteratorLaws I}.

(** what every memStore but the last takes at least *)
Definition memStore_fill : Z := capacity - 107 - 2 ^ 16 - 2000.

Lemma compact_loop_ok m rp0 head maxSeq now kvs fuel : is_u64 (vp_extentID head) -> is_u32 (vp_offset head) -> is_u64 maxSeq ->
  forall n rest it stats nb fl rp done pend, y_at false it kvs rest -> (length rest < n)%nat -> (length rest < fuel)%nat -> Forall plain_kv rest ->
  cstate (2 * length rest + m) rp0 rp head maxSeq done pend -> flusher_at fl done pend ->
  exists Ks tail, let r := compact_loop fp rnd sched n fuel now true head maxSeq ch it stats nb fl rp in
    survivors now (heads None rest) = mjoin Ks ++ tail /\ (rest = [] -> Ks = []) /\ Forall (fun K => kv_bytes K <= capacity) Ks /\
    (Ks <> [] -> (Z.of_nat (length Ks) - 1) * memStore_fill <= kv_est (mjoin Ks)) /\
    if (length (done ++ pend) + length Ks <=? maxBuilds)%nat
    then tail = [] /\ exists fl' rp' done' pend', r = Ok ((nb + length Ks)%nat, fl', rp') /\ cstate m rp0 rp' head maxSeq done' pend' /\
      flusher_at fl' done' pend' /\ done' ++ pend' = done ++ pend ++ Ks
    else r = Err Deadlock.
Proof using bloom_small BloomL RowL.
  intros Hu1 Hu2 Hu3. induction n as [|n IH]; intros rest it stats nb fl rp done pend Hat Hn Hf Hpl Hc Hfl; [lia|].
  cbn [compact_loop]. rewrite (y_Valid_ok _ _ _ _ Hat). destruct rest as [|p rest].
  { exists [], []. do 2 (split; [done|]). split; [constructor|]. split; [done|]. rewrite !app_nil_r, !Nat.add_0_r.
    destruct (Nat.leb_spec (length (done ++ pend)) maxBuilds) as [_|Hgt]; [split; [done|]; by exists fl, rp, done, pend|].
    destruct Hfl as [Hle [[_ ->]|[_ [K0 ->]]]]; rewrite length_app in Hgt; unfold maxBuilds in Hgt; cbn in Hgt; lia. }
  destruct (new_memStore 0) as (s & -> & Hm0 & Hsz & Hcap). cbn [obind].
  destruct (compact_fill_ok rnd now kvs 0 (p :: rest) fuel it s [] [] stats Hat Hf (or_introl eq_refl) Hm0 Hcap Hpl)
    as (it' & s' & stats' & rest' & out & -> & Hat' & Hm' & Hpl' & Hlen & Hout & Hprog & Hz & Hfull); [intros q r Hq; destruct (not_elem_of_nil _ Hq)|].
  cbn [obind]. rewrite decide_True in Hout by reflexivity. cbn [app] in Hm'.
  assert (length rest' < length (p :: rest))%nat as Hlt by (apply Hprog; [rewrite Hsz; unfold capacity, maxSkipList; change MB with 1048576; lia|discriminate]).
  apply (cstate_le _ (S (length out) + (2 * length rest' + m))) in Hc; [|lia].
  pose proof (cstate_send _ _ _ _ _ _ _ _ out s' (nextPtr rp) Hu1 Hu2 Hu3 Hc Hfl (fun ptr => mem_ok_ptr 0 ptr s' out Hm')) as Hsend. cbv zeta in Hsend.
  pose proof (mo_bytes _ _ Hm') as Hb. cbn [m_sl] in Hb. pose proof (mem_ok_size _ _ Hm') as Hbytes. destruct (kv_bytes_weight out) as [_ Hw].
  pose proof (zlen_nonneg out). rewrite Hsz in Hz. destruct (Nat.ltb_spec (length (done ++ pend)) maxBuilds) as [Hroom|Hno]; cycle 1.
  { exists [out], (survivors now (heads None rest')). rewrite Hsend. change (mjoin [out]) with (out ++ []). rewrite app_nil_r.
    split; [exact Hout|]. split; [discriminate|]. split; [by repeat constructor|]. split; [intros _; cbn [length]; lia|]. cbn [length].
    by destruct (Nat.leb_spec (length (done ++ pend) + 1) maxBuilds); [lia|]. }
  destruct Hsend as (fl1 & rp1 & done1 & pend1 & -> & Hc1 & Hfl1 & E1). cbn [obind].
  destruct (IH rest' it' stats' (S nb) fl1 rp1 done1 pend1 Hat' ltac:(lia) ltac:(lia) Hpl' Hc1 Hfl1) as (Ks & tail & Hs & Hnil & Hcaps & Hest & Hres).
  cbv zeta in Hres. exists (out :: Ks), tail. change (mjoin (out :: Ks)) with (out ++ mjoin Ks).
  split; [by rewrite Hout, Hs, app_assoc|]. split; [discriminate|]. split; [by constructor|]. split.
  { intros _. rewrite kv_est_app. cbn [length]. destruct Ks as [|K Ks]; [change (kv_est (mjoin [])) with 0; cbn [length]; lia|].
    specialize (Hest ltac:(discriminate)). assert (rest' <> []) as Hne by (intros E; by discriminate (Hnil E)). specialize (Hfull Hne).
    unfold memStore_fill in *. cbn [length] in *. lia. }
  rewrite E1, (app_assoc done1 pend1), E1, (app_assoc done pend), length_app, <- (app_assoc (done ++ pend)) in Hres. rewrite app_assoc. cbn [length app] in *.
  replace (length (done ++ pend) + 1 + length Ks)%nat with (length (done ++ pend) + S (length Ks))%nat in Hres by lia.
  by replace (nb + S (length Ks))%nat with (S nb + length Ks)%nat by lia.
Qed.
End Loop.
End Compact.
