(* ===== verification/PartitionRestart.v ===== *)
(** Closing a partition and opening it again (range_rangepartition.go,
    compaction.go): every key keeps its value through the flush of the
    memtables, the replay and the compaction of the tables. *)
From Stdlib Require Import ZArith Lia.
From stdpp Require Import base option list numbers gmap sorting strings.
From S2P Require Import Prelude GoLib Utils Proto ProtoPs Keys YIter Extent MixBlock Stream.
From S2P Require Import Skiplist SkiplistSpec SkiplistPut SkiplistIter TableBlock Table TableSpec TableBuild Merge.
From S2P Require Import Partition PartitionSpec PartitionRun PartitionScan PartitionOpen Compact.

Lemma mjoin_nonempty {A} (Ks : list (list A)) : mjoin (filter (fun K => K <> []) Ks) = mjoin Ks.
Proof.
  induction Ks as [|K Ks IH]; [done|]. rewrite filter_cons. change (mjoin (K :: Ks)) with (K ++ mjoin Ks).
  rewrite <- IH. destruct (decide (K <> [])) as [E|E]; [done|]. by apply dec_stable in E as ->.
Qed.

Section Restart.
Context {LogSt RowSt Bloom LogIt : Type}.
Context `{LogL : StreamLaws LogSt} `{LogS : !LogStream LogSt} `{LogA : !LogLaws LogSt} `{LogI : !LogIters LogSt LogIt} `{LogT : !LogTail LogSt LogIt}.
Context `{RowL : StreamLaws RowSt} `{RowT : !TruncStream RowSt} `{RowA : !TruncLaws RowSt}.
Context `{BloomL : BloomLaws Bloom} `{Sort : SortSlice}.
Variable fp : bytes -> Z.
Variable rnd : SL -> bytes -> nat -> Z.
Variable sched : Z -> nat -> nat.
Hypothesis bloom_small : forall hs : list Z, zlen hs <= 2 ^ 21 -> zlen (bf_JSONMarshal (filter_of (Bloom := Bloom) hs)) < 2 ^ 29.
Abbreviation RP := (RangePartition (LogSt := LogSt) (RowSt := RowSt) (Bloom := Bloom)).
Abbreviation Tab := (Table (Bloom := Bloom)).

Lemma tab_holds_other (L1 L2 : StreamLaws RowSt) row row' (t : Tab) K :
  (forall e o b, sc_stored (StreamLaws := L1) row e o b -> sc_stored (StreamLaws := L2) row' e o b) ->
  tab_holds (RowL := L1) fp row t K -> tab_holds (RowL := L2) fp row' t K.
Proof.
  intros Hm [(groups & [Hi Hs] & Hne & Hk) H1' H2' H3' H4'].
  assert (forall idx gs, Forall2 (index_entry (H0 := L1) row) idx gs -> Forall2 (index_entry (H0 := L2) row') idx gs) as Hidx.
  { intros idx gs Hf. eapply Forall2_impl; [exact Hf|]. intros bo g (c & Hc & Hh). exists c. auto. }
  split; [|done|done|done|].
  - exists groups. split; [|done]. split; [by apply Hidx|done].
  - destruct H4' as (c & ti & b & gs & x0 & es & x1 & Hst & Hti & Hsz & Hu1 & Hu2 & Hu3 & Hud & Hsl & Hbf & Hix & Hr).
    exists c, ti, b, gs, x0, es, x1. do 9 (split; [by auto|]). split; [by apply Hidx|exact Hr].
Qed.

(** ** doCompact *)

Lemma tables_iters_ok row (rinv : sc_inv 0 row) (tbls : list Tab) kvss : Forall2 (tab_holds fp row) tbls kvss ->
  exists its, tables_iters row tbls = Ok its /\ Forall2 (y_wf (IteratorLaws := table_IteratorLaws row rinv) false) its kvss.
Proof.
  induction 1 as [|t kvs tbls kvss Ht _ (its & IH & Hw)]; [by exists []|].
  destruct (tb_groups _ _ _ _ Ht) as (groups & Hh & Hne & <-).
  destruct (NewIterator_ok row rinv t groups false Hh Hne) as (it & E & Hwf & _).
  exists (it :: its). cbn [tables_iters]. rewrite E. cbn [obind]. rewrite IH. cbn [obind]. split; [done|]. by constructor.
Qed.

(** the versions a compaction keeps *)
Definition compacted (now : Z) (st l : list kv) : Prop :=
  exists m, walk_ok false m /\ (forall p, p ∈ m <-> p ∈ st) /\ l = survivors now (heads None m).

Definition max_head (tbls : list Tab) : valuePointer := mkVP (fst (replay_from tbls)) (snd (replay_from tbls)) 0.
Definition max_seq (tbls : list Tab) : Z := fst (last_table tbls 0 None).

Lemma heads_sublist l : forall skip, heads skip l `sublist_of` l.
Proof.
  induction l as [|p l IH]; intros skip; cbn [heads]; [constructor|]. destruct (decide _); [by apply sublist_cons|by apply sublist_skip].
Qed.
Lemma survivors_sublist now l : survivors now l `sublist_of` l.
Proof. unfold survivors. induction l as [|p l IH]; [constructor|]. rewrite filter_cons. case_decide; [by apply sublist_skip|by apply sublist_cons]. Qed.

(** what a compaction surely finishes, and what it surely does not: the 17
    memStores of [maxBuilds] *)
Definition maxCompact : Z := 32 * MB.
Definition minDeadlock : Z := Z.of_nat maxBuilds * capacity.

Lemma kv_bytes_builds Ks : Forall (fun K => kv_bytes K <= capacity) Ks -> kv_bytes (mjoin Ks) <= Z.of_nat (length Ks) * capacity.
Proof.
  induction 1 as [|K Ks HK _ IH]; [done|]. change (mjoin (K :: Ks)) with (K ++ mjoin Ks). rewrite kv_bytes_app. cbn [length]. lia.
Qed.

Lemma doCompact_ok b n fuel now (rp : RP) tabs : Forall2 (tab_holds fp (rowStream rp)) (rp_tables rp) tabs -> tabs <> [] ->
  NoDup (fst <$> mjoin tabs) -> Forall plain_kv (mjoin tabs) -> flushChan rp = [] ->
  sc_inv (2 * length (mjoin tabs) + b) (rowStream rp) -> (length (mjoin tabs) < n)%nat -> (length (mjoin tabs) < fuel)%nat ->
  is_u64 (vp_extentID (max_head (rp_tables rp))) -> is_u32 (vp_offset (max_head (rp_tables rp))) -> is_u64 (max_seq (rp_tables rp)) ->
  exists l, compacted now (mjoin tabs) l /\
    (kv_est l <= maxCompact -> exists rp' newt Ks, doCompact fp rnd sched n fuel now rp (rp_tables rp) true = Ok rp' /\ rp_tables rp' = rp_tables rp ++ newt /\
      Forall2 (tab_holds fp (rowStream rp')) newt Ks /\ mjoin Ks = l /\
      Forall (fun t => LastSeq t = max_seq (rp_tables rp) /\ t_VpExtentID t = vp_extentID (max_head (rp_tables rp)) /\
        t_VpOffset t = vp_offset (max_head (rp_tables rp))) newt /\
      same_rest rp rp' /\ flushChan rp' = [] /\ sc_inv b (rowStream rp')) /\
    (minDeadlock < kv_bytes l -> doCompact fp rnd sched n fuel now rp (rp_tables rp) true = Err Deadlock).
Proof using bloom_small BloomL RowL RowA.
  intros Htb Hne Hnd Hpl Hch Hrow Hn Hf Hu1 Hu2 Hu3. pose proof (sc_inv_le _ 0 _ Hrow ltac:(lia)) as rinv.
  destruct (last (rp_tables rp)) as [lastTbl|] eqn:El; [|apply last_None in El; rewrite El in Htb; by apply Forall2_nil_inv_l in Htb].
  set (e0 := fst (Loc lastTbl)). unfold doCompact. rewrite El. fold e0.
  assert (ts_after (rowStream rp) e0 e0) as Haft.
  { assert (lastTbl ∈ rp_tables rp) as Hin by (apply last_Some in El as [l ->]; apply elem_of_app; right; left).
    apply list_elem_of_lookup in Hin as [i Hi]. destruct (Forall2_lookup_l _ _ _ _ _ Htb Hi) as (K & _ & HK).
    destruct (tb_file _ _ _ _ HK) as (c & ti & bl & gs & x0 & es & x1 & Hst & _). by eapply ts_stored_in. }
  assert (last_table (rp_tables rp) 0 None = (max_seq (rp_tables rp), snd (last_table (rp_tables rp) 0 None))) as -> by apply surjective_pairing.
  cbv zeta.
  assert ((match snd (last_table (rp_tables rp) 0 None) with Some t => mkVP (t_VpExtentID t) (t_VpOffset t) 0 | None => mkVP 0 0 0 end)
    = max_head (rp_tables rp)) as -> by (unfold max_head, replay_from; by destruct (snd (last_table (rp_tables rp) 0 None))).
  set (head := max_head (rp_tables rp)) in *. set (maxSeq := max_seq (rp_tables rp)) in *.
  destruct (tables_iters_ok (rowStream rp) rinv _ _ Htb) as (its & -> & Hw). cbn [obind].
  destruct (NewMergeIterator_merges (H0 := table_IteratorLaws (rowStream rp) rinv) false (length its) its tabs) as (t & -> & sh & m & Hsh & Hwf & Hlk & Hz);
    [intros ->; by apply Forall2_nil_inv_l in Hw|lia|done|].
  destruct (yi_Rewind_ok (H0 := table_IteratorLaws (rowStream rp) rinv) (2 * length its) sh false t m Hsh Hwf) as (t' & -> & Hat). cbn [obind].
  pose proof (yi_wf_walk (H0 := table_IteratorLaws (rowStream rp) rinv) _ _ _ _ Hwf) as Hwalk.
  assert (forall p, p ∈ m <-> p ∈ mjoin tabs) as Hm.
  { intros [k v]. rewrite <- (kv_lookup_in k v m) by (by eapply walk_NoDup). by rewrite Hlk, first_lookup_join, kv_lookup_in. }
  destruct (compact_loop_ok (HI := merge_IteratorLaws (H0 := table_IteratorLaws (rowStream rp) rinv) (2 * length its)) fp rnd sched bloom_small e0 (nextPtr rp) b rp head maxSeq now m fuel
    Hu1 Hu2 Hu3 n m t' ∅ 0%nat None (new_ptr rp) [] []) as (Ks & tail & El1 & _ & Hcaps & Hest & Hres).
  { exists sh. by split. }
  { lia. }
  { lia. }
  { apply Forall_forall. intros p Hp. rewrite Forall_forall in Hpl. by apply Hpl, Hm. }
  { split; [|exists []; rewrite app_nil_r; split; [done|constructor]|cbn [new_ptr flushChan]; rewrite Hch; constructor|by repeat split].
    split; [eapply sc_inv_le; [exact Hrow|cbn; lia]|done]. }
  { split; [cbn; lia|by left]. }
  cbv zeta in Hres. cbn [app length Nat.add] in Hres. exists (survivors now (heads None m)). split; [by exists m|].
  assert (Forall plain_kv (survivors now (heads None m))) as Hpls.
  { apply Forall_forall. intros p Hp. rewrite Forall_forall in Hpl. apply Hpl, Hm. 

    eapply elem_of_sublist; [exact Hp|]. etrans; [apply survivors_sublist|apply heads_sublist]. }
  rewrite El1 in Hpls |- *. destruct (Nat.leb_spec (length Ks) maxBuilds) as [Hfew|Hmore]; cycle 1.
  { rewrite Hres. split; [|done]. intros Hle. rewrite kv_est_app in Hle. apply Forall_app in Hpls as [_ Hpt]. pose proof (kv_est_nonneg _ Hpt).
    assert (Ks <> []) as Hk by (intros ->; cbn in Hmore; lia). specialize (Hest Hk). exfalso. unfold maxBuilds, flushCapacity in Hmore.
    unfold maxCompact, memStore_fill, capacity, maxSkipList in *. change MB with 1048576 in *. nia. }
  destruct Hres as (-> & fl1 & rp1 & done1 & pend1 & -> & Hc1 & Hfl1 & E1). rewrite app_nil_r in *. split; [intros _|].
  2: { intros Hbig. pose proof (kv_bytes_builds Ks Hcaps). unfold minDeadlock, capacity, maxSkipList in *. change MB with 1048576 in *. lia. }
  cbn [obind]. assert (length Ks = (length pend1 + match fl1 with Some _ => 1 | None => 0 end)%nat) as ->.
  { rewrite <- E1, length_app. destruct Hfl1 as [_ [[-> ->]|[-> [K0 ->]]]]; cbn [length]; lia. }
  destruct (cstate_wait fp sched bloom_small e0 (nextPtr rp) b rp head maxSeq Hu1 Hu2 Hu3 pend1 fl1 rp1 done1 Hc1) as (rp2 & -> & Hc2).
  { destruct Hfl1 as [_ [[-> _]|[-> _]]]; auto. }
  cbn [obind]. rewrite E1 in Hc2. destruct Hc2 as [[Hrow2 Haft2] (newt & Htb2 & Hnew) Hch2 Hs2]. cbn [need foldr] in Hrow2.
  destruct (ts_truncate_ok _ _ e0 Hrow2 Haft2) as [Hrow3 Hkeep].
  eexists _, newt, _. split; [done|]. cbn [with_row_stream rp_tables rowStream]. split; [done|]. split; [|split; [|split; [|split; [done|split; [|done]]]]].
  - eapply Forall2_impl; [exact Hnew|]. intros t1 K [Ht1 _ _]. apply (tab_holds_other (after_StreamLaws e0) RowL (rowStream rp2)); [|exact Ht1]. intros e o blk [Hs Ha]. by apply Hkeep.
  - apply mjoin_nonempty.
  - clear -Hnew. induction Hnew as [|t1 K ts Ks' [_ Hq [Hv1 Hv2]] _ IH]; constructor; [done|done].
  - by apply Forall2_nil_inv_r in Hch2.
Qed.

(** ** What a compaction keeps *)

Lemma compacted_spec now st l : NoDup (fst <$> st) -> compacted now st l ->
  NoDup (fst <$> l) /\ (length l <= length st)%nat /\ forall p, p ∈ l <-> leads st p /\ alive now p = true.
Proof.
  intros Hnd (m & Hw & Hm & ->). destruct (heads_spec m Hw None ltac:(done)) as [Hh _].
  assert (survivors now (heads None m) `sublist_of` m) as Hsub by (etrans; [apply survivors_sublist|apply heads_sublist]).
  split; [|split].
  - eapply sublist_NoDup; [by eapply walk_NoDup|]. exact (fmap_sublist fst _ _ Hsub).
  - apply sublist_length in Hsub. assert (Permutation m st) as Hp.
    { apply NoDup_Permutation; [|by eapply NoDup_fmap_1|done]. eapply NoDup_fmap_1. by eapply walk_NoDup. }
    by rewrite <- Hp.
  - intros p. unfold survivors. rewrite list_elem_of_filter, Hh. rewrite (leads_sub m st p) by (intros q _; apply Hm).
    split; [intros (Ha & Hl & _); done|intros [Hl Ha]; done].
Qed.

Lemma agrees_compact (log : LogSt) h now st l uk : NoDup (fst <$> st) -> Forall (fun p => user_version MaxUint64 (fst p)) st ->
  compacted now st l -> agrees log h st uk -> agrees log h l uk.
Proof.
  intros Hnd Hv Hc. destruct (compacted_spec now st l Hnd Hc) as (_ & _ & Hl). rewrite !agrees_cases.
  intros [[Hno Hsp]|(ov & t & vs & E & Hn & Hst)].
  { left. split; [|done]. intros t v Hin. apply Hl in Hin as [[Hin _] _]. by apply (Hno t v). }
  pose proof (stands_alive log now vs ov Hst) as Hd.
  assert (leads st (KeyWithTs uk t, vs)) as Hlead.
  { apply (leads_newest st uk); [done|apply ukey_KeyWithTs|]. exists t, vs. split; [done|]. split; [done|].
    intros vs' Hin'. eapply unique_pair; [exact Hnd|exact Hin'|apply Hn]. }
  destruct ov as [v|].
  - right. exists (Some v), t, vs. split; [done|]. split; [|done]. split; [|split; [apply Hn|]].
    + apply Hl. split; [done|]. unfold alive. cbn [snd]. by rewrite Hd.
    + intros t' vs' Hin Ht'. apply Hl in Hin as [[Hin _] _]. by apply (proj2 (proj2 Hn) t' vs').
  - left. split; [|congruence]. intros t' vs' Hin. apply Hl in Hin as [Hlead' Ha].
    apply (leads_newest st uk) in Hlead' as (t2 & vs2 & [= E1 E2] & Hn2 & _); [|done|apply ukey_KeyWithTs].
    pose proof (newest_unique _ _ _ _ _ _ _ Hn Hn2) as <-. assert (vs' = vs) as ->.
    { eapply unique_pair; [exact Hnd| |apply Hn]. rewrite E2. apply Hn2. }
    unfold alive in Ha. cbn [snd] in Ha. by rewrite Hd in Ha.
Qed.

(** *** The size of what is kept *)

(** an entry of the map in a memStore, at most *)
Definition live_est (k v : bytes) : Z := zlen k + Z.min (zlen v) ValueThrottle + 150.
Definition map_est (m : gmap bytes bytes) : Z := map_fold (fun k v n => live_est k v + n) 0 m.

Lemma map_est_delete m k v : m !! k = Some v -> map_est m = live_est k v + map_est (delete k m).
Proof. intros E. unfold map_est. rewrite (map_fold_delete_L _ _ k v m); [done| |done]. intros. lia. Qed.
Lemma map_est_nonneg m : 0 <= map_est m.
Proof.
  unfold map_est. apply (map_fold_weak_ind (fun n _ => 0 <= n)); [lia|]. intros k v m' n _ Hn. unfold live_est. change ValueThrottle with 1024.
  pose proof (zlen_nonneg k). pose proof (zlen_nonneg v). lia.
Qed.
Lemma estimatedVS_live (log : LogSt) uk t vs v : stands log vs (Some v) -> estimatedVS (KeyWithTs uk t) vs <= live_est uk v.
Proof.
  intros (Hx & _ & Hv). unfold estimatedVS, live_est, MaxNodeSize, vptrSize. rewrite zlen_KeyWithTs, Hx. change (SizeVarint 0) with 1. change ValueThrottle with 1024 in *.
  pose proof (zlen_nonneg v). pose proof (Z.land_nonneg (VMeta vs) BitValuePointer) as Hnn.
  destruct (Z.ltb_spec 0 (Z.land (VMeta vs) BitValuePointer)) as [Hb|Hb].
  - destruct (Z.eqb_spec (Z.land (VMeta vs) BitValuePointer) 0); [lia|]. cbn [andb]. lia.
  - rewrite Hv. destruct (Z.eqb_spec (Z.land (VMeta vs) BitValuePointer) 0); cbn [andb]; [|lia]. destruct (Z.leb_spec (zlen v) 1024); lia.
Qed.
Lemma kv_est_map l : forall m : gmap bytes bytes, NoDup ((fun p => ukey (fst p)) <$> l) ->
  (forall p, p ∈ l -> exists v, m !! ukey (fst p) = Some v /\ estimatedVS (fst p) (snd p) <= live_est (ukey (fst p)) v) -> kv_est l <= map_est m.
Proof.
  induction l as [|p l IH]; intros m Hnd Hin; [apply map_est_nonneg|]. rewrite fmap_cons in Hnd. apply NoDup_cons in Hnd as [Hni Hnd].
  destruct (Hin p ltac:(left)) as (v & E & Hle). rewrite (map_est_delete m _ _ E). cbn [kv_est foldr]. fold (kv_est l).
  enough (kv_est l <= map_est (delete (ukey (fst p)) m)) by lia. apply IH; [done|]. intros q Hq. destruct (Hin q ltac:(by right)) as (w & Ew & Hw).
  exists w. split; [|done]. rewrite lookup_delete_ne; [done|]. intros Eu. apply Hni. rewrite Eu. apply list_elem_of_fmap. by exists q.
Qed.
Lemma compacted_est (m : gmap bytes bytes) (log : LogSt) h now st l : NoDup (fst <$> st) -> Forall (fun p => user_version MaxUint64 (fst p)) st ->
  compacted now st l -> (forall uk, uk <> [] -> agrees log h st uk) ->
  (forall k v, spec_get h k = Some (Some v) -> m !! k = Some v) -> kv_est l <= map_est m.
Proof.
  intros Hnd Hv Hc Ha Hm. destruct (compacted_spec now st l Hnd Hc) as (_ & _ & Hl). destruct Hc as (mm & Hw & Hmm & ->).
  apply kv_est_map.
  - destruct (heads_spec mm Hw None ltac:(done)) as [_ Hs]. apply (sublist_NoDup _ ((fun p => ukey (fst p)) <$> heads None mm)).
    + clear -Hs. induction Hs as [|k l _ IH Hf]; constructor; [|done]. intros Hin. rewrite Forall_forall in Hf. by apply (key_lt_irrefl k), Hf.
    + apply fmap_sublist, survivors_sublist.
  - intros p Hp. apply Hl in Hp as [Hlead Hal]. apply (leads_newest st (ukey (fst p)) p Hv eq_refl) in Hlead as (t & vs & Ep & Hn & _).
    set (uk := ukey (fst p)) in *. clearbody uk. subst p. cbn [fst snd] in *. assert (uk <> []) as Hne.
    { rewrite Forall_forall in Hv. destruct (Hv _ (proj1 Hn)) as (u & t' & E & Hu & _). cbn [fst] in E. apply (f_equal ukey) in E. rewrite !ukey_KeyWithTs in E. congruence. }
    specialize (Ha uk Hne). apply agrees_cases in Ha as [[Hno _]|(ov & t' & vs' & E & Hn' & Hst)]; [destruct (Hno t vs (proj1 Hn))|].
    pose proof (newest_unique _ _ _ _ _ _ _ Hn Hn') as <-. pose proof (unique_pair _ _ _ _ Hnd (proj1 Hn) (proj1 Hn')) as <-.
    destruct ov as [v|].
    + exists v. split; [by apply Hm|by eapply estimatedVS_live].
    + pose proof (stands_alive log now vs None Hst) as Hd. unfold alive in Hal. cbn [snd] in Hal. by rewrite Hd in Hal.
Qed.

Lemma last_table_const (s : Z) (tbls : list Tab) : forall t, Forall (fun t => LastSeq t = s) tbls -> last_table tbls s (Some t) = (s, Some t).
Proof.
  induction tbls as [|t' tbls IH]; intros t Hf; [done|]. apply Forall_cons in Hf as [Ht Hf]. cbn [last_table]. rewrite Ht, Z.ltb_irrefl. by apply IH.
Qed.
Lemma last_table_max (tbls : list Tab) : forall seq lt, Forall (fun t => 1 <= LastSeq t) tbls -> tbls <> [] -> 0 <= seq -> (lt = None -> seq = 0) ->
  exists t, snd (last_table tbls seq lt) = Some t /\ 1 <= fst (last_table tbls seq lt) /\ (t ∈ tbls \/ lt = Some t).
Proof.
  induction tbls as [|t tbls IH]; intros seq lt Hf Hne Hs Hlt; [done|]. apply Forall_cons in Hf as [Ht Hf]. cbn [last_table].
  destruct (Z.ltb_spec seq (LastSeq t)) as [Hl|Hg].
  - destruct tbls as [|t2 tbls]; [exists t; cbn; split; [done|]; split; [done|left; left]|].
    destruct (IH (LastSeq t) (Some t) Hf ltac:(done) ltac:(lia) ltac:(done)) as (t' & E & Hp & [Hin|[= ->]]); exists t'; (split; [done|]); (split; [done|]); left; [by right|left].
  - destruct lt as [t0|]; [|specialize (Hlt eq_refl); lia]. destruct tbls as [|t2 tbls]; [exists t0; cbn; split; [done|]; split; [lia|by right]|].
    destruct (IH seq (Some t0) Hf ltac:(done) Hs ltac:(done)) as (t' & E & Hp & [Hin|[= ->]]); exists t'; (split; [done|]); (split; [done|]); [left; by right|by right].
Qed.
Lemma last_table_seq (tbls : list Tab) : forall seq lt t, snd (last_table tbls seq lt) = Some t -> (forall t', lt = Some t' -> LastSeq t' = seq) ->
  fst (last_table tbls seq lt) = LastSeq t.
Proof.
  induction tbls as [|t' tbls IH]; intros seq lt t E Hl; cbn [last_table fst snd] in *; [by rewrite (Hl t E)|].
  destruct (seq <? LastSeq t'); (apply IH; [done|]); [by intros t2 [= <-]|done].
Qed.
Lemma surplus_app (old new : list Tab) : surplus old (old ++ new) = new.
Proof. induction old as [|t old IH]; [by destruct new|]. cbn [app surplus]. rewrite Z.eqb_refl. exact IH. Qed.

(** ** Loading *)

(** what is on disk when a partition is closed *)
Record durable (b : nat) (log : LogSt) (row : RowSt) (tbls : list Tab) (h : list (bytes * option bytes)) (tabs : list (list kv)) : Prop := mk_durable {
  du_log : sc_inv b log;
  du_row : sc_inv (1 + b) row;
  du_tabs : Forall2 (tab_holds fp row) tbls tabs;
  du_unique : NoDup (fst <$> mjoin tabs);
  du_versions : Forall (fun p => user_version (max_seq tbls) (fst p)) (mjoin tabs);
  du_seq : max_seq tbls + Z.of_nat b <= MaxUint64;
  du_values : forall uk, uk <> [] -> agrees log h (mjoin tabs) uk;
  du_size : (length (mjoin tabs) <= length h)%nat;
  du_plain : Forall plain_kv (mjoin tabs);
  du_last : Forall (fun t => 1 <= LastSeq t) tbls;
  du_tail : ls_tail log (fst (replay_from tbls)) (snd (replay_from tbls)) }.

Definition same_table (t t' : Tab) : Prop :=
  Loc t' = Loc t /\ LastSeq t' = LastSeq t /\ t_VpExtentID t' = t_VpExtentID t /\ t_VpOffset t' = t_VpOffset t.
Lemma open_tables_ok row (tbls : list Tab) tabs : sc_inv 0 row -> Forall2 (tab_holds fp row) tbls tabs ->
  exists tbls', open_tables row (Loc <$> tbls) = Ok tbls' /\ Forall2 (tab_holds fp row) tbls' tabs /\ Forall2 same_table tbls tbls'.
Proof.
  intros Hrow. induction 1 as [|t K tbls tabs Ht _ (tbls' & E & Hf & Hs)]; [by exists []|]. rewrite fmap_cons. destruct (Loc t) as [e o] eqn:El.
  pose proof (tb_file _ _ _ _ Ht) as Hfile. rewrite El in Hfile. cbn [fst snd] in Hfile.
  destruct (table_file_holds fp row e o K _ _ _ Hrow Hfile) as (t' & Ho & Ht' & Hl & Hsq & Hx & Hoff).
  exists (t' :: tbls'). cbn [open_tables]. rewrite Ho. cbn [obind]. rewrite E. cbn [obind]. split; [done|]. split; [by constructor|].
  constructor; [|done]. unfold same_table. by rewrite Hl, El.
Qed.
Lemma last_table_same (tbls tbls' : list Tab) : Forall2 same_table tbls tbls' -> forall seq lt lt',
  match lt, lt' with None, None => True | Some t, Some t' => same_table t t' | _, _ => False end ->
  fst (last_table tbls' seq lt') = fst (last_table tbls seq lt) /\
  match snd (last_table tbls seq lt), snd (last_table tbls' seq lt') with None, None => True | Some t, Some t' => same_table t t' | _, _ => False end.
Proof.
  induction 1 as [|t t' tbls tbls' Ht _ IH]; intros seq lt lt' Hl; [by split|]. cbn [last_table]. pose proof Ht as (_ & -> & _ & _).
  destruct (seq <? LastSeq t); [by apply IH|by apply IH].
Qed.
Lemma replay_from_same (tbls tbls' : list Tab) : Forall2 same_table tbls tbls' -> max_seq tbls' = max_seq tbls /\ replay_from tbls' = replay_from tbls.
Proof.
  intros Hs. destruct (last_table_same _ _ Hs 0 None None I) as [E1 E2]. unfold max_seq, replay_from. split; [done|].
  destruct (snd (last_table tbls 0 None)), (snd (last_table tbls' 0 None)); try done. destruct E2 as (_ & _ & -> & ->). done.
Qed.
Lemma max_seq_le (tbls : list Tab) : forall seq lt, seq <= fst (last_table tbls seq lt) /\ Forall (fun t => LastSeq t <= fst (last_table tbls seq lt)) tbls.
Proof.
  induction tbls as [|t tbls IH]; intros seq lt; [cbn; split; [lia|constructor]|]. cbn [last_table].
  destruct (Z.ltb_spec seq (LastSeq t)).
  - destruct (IH (LastSeq t) (Some t)) as [H1' H2']. split; [lia|]. by constructor.
  - destruct (IH seq lt) as [H1' H2']. split; [lia|]. constructor; [lia|done].
Qed.
Lemma replay_nothing {A} (f : A -> EntryInfo -> outcome (A * (bool + error))) fuel n (log : LogSt) e o a : sc_inv n log -> ls_tail log e o -> (0 < fuel)%nat ->
  replayLog f fuel log e o true a = Ok (a, None).
Proof using LogT.
  intros Hlog Ht Hf. destruct (lt_done n log e o Hlog Ht) as (it & E). unfold replayLog. destruct fuel as [|fuel]; [lia|].
  cbn [replay_loop]. by rewrite E.
Qed.

(** the partition on its tables, before the replay *)
Definition loaded (s : SL) (log : LogSt) (row : RowSt) (tbls : list Tab) : RP :=
  with_pm (with_tables (mkRP log row 0 false (mkMem 0 s) [] [] [] 0 (mkVP 0 0 0) [] 1) tbls (max_seq tbls)) (Loc <$> tbls).
Lemma loaded_ok b s log row tbls h tabs : mem_ok (mkMem 0 s) [] -> sc_inv b log -> sc_inv (1 + b) row -> Forall2 (tab_holds fp row) tbls tabs ->
  NoDup (fst <$> mjoin tabs) -> Forall (fun p => user_version (max_seq tbls) (fst p)) (mjoin tabs) -> max_seq tbls + Z.of_nat b <= MaxUint64 ->
  (forall uk, uk <> [] -> agrees log h (mjoin tabs) uk) -> (length (mjoin tabs) <= length h)%nat -> Forall plain_kv (mjoin tabs) ->
  Forall (fun t => 1 <= LastSeq t) tbls -> rp_inv fp b (loaded s log row tbls) h [[]] tabs.
Proof.
  intros Hm Hlog Hrow Htb Hun Hver Hseq Hval Hsz Hpl Hlast. destruct (max_seq_le tbls 0 None) as [Hm0 Hmx].
  split; cbn [loaded with_pm with_tables logStream rowStream rp_mt rp_imm flushChan rp_tables seqNumber vhead blockWrites pm_tables].
  - constructor; [exact Hm|constructor].
  - exact Htb.
  - exact Hrow.
  - exact Hlog.
  - split; [|exact I]. intros uk t t' v v' Hin. destruct (not_elem_of_nil _ Hin).
  - exact Hun.
  - unfold max_seq in *. lia.
  - exact Hver.
  - reflexivity.
  - constructor.
  - cbn [length]. lia.
  - reflexivity.
  - unfold is_u64, is_u32. cbn [vp_extentID vp_offset]. lia.
  - exact Hval.
  - exact Hsz.
  - exact Hpl.
  - reflexivity.
  - split; [|constructor]. unfold max_seq. rewrite Forall_forall in *. intros t Ht. specialize (Hlast t Ht). specialize (Hmx t Ht). lia.
Qed.
Lemma load_partition_eq fuel tries log row tbls tabs : sc_inv 0 row -> Forall2 (tab_holds fp row) tbls tabs ->
  exists s tbls', load_partition fp rnd sched fuel tries log row (Loc <$> tbls) =
      (let! (rp, _) := replayLog (replay_entry fp rnd sched tries) fuel log (fst (replay_from tbls)) (snd (replay_from tbls)) true (loaded s log row tbls') in Ok rp) /\
    mem_ok (mkMem 0 s) [] /\ MemSize s = 107 /\ Forall2 (tab_holds fp row) tbls' tabs /\ Forall2 same_table tbls tbls'.
Proof.
  intros Hrow Htb. unfold load_partition. destruct (new_mem_ok 0) as (s & E & Hm & Hz). unfold new_partition. rewrite E. clear E. cbn [obind].
  destruct (open_tables_ok row tbls tabs Hrow Htb) as (tbls' & -> & Htb' & Hs). cbn [obind]. exists s, tbls'. split; [|done].
  destruct (replay_from_same _ _ Hs) as [_ Er]. rewrite Er. destruct (replay_from tbls) as [e o]. cbn [fst snd]. unfold loaded, max_seq.
  assert (Loc <$> tbls' = Loc <$> tbls) as ->; [|done]. clear -Hs. induction Hs as [|t t' tbls tbls' (E & _) _ IH]; [done|]. by rewrite !fmap_cons, E, IH.
Qed.
Lemma same_tables_last (tbls tbls' : list Tab) : Forall2 same_table tbls tbls' -> Forall (fun t => 1 <= LastSeq t) tbls -> Forall (fun t => 1 <= LastSeq t) tbls'.
Proof.
  intros Hs Hl. induction Hs as [|t t' tbls tbls' (_ & E & _) _ IH]; [constructor|]. apply Forall_cons in Hl as [Ht Hl]. constructor; [by rewrite E|by apply IH].
Qed.

Lemma load_ok b fuel tries log row tbls h tabs : durable b log row tbls h tabs -> (0 < fuel)%nat ->
  exists rp : RP, load_partition fp rnd sched fuel tries log row (Loc <$> tbls) = Ok rp /\ rp_inv fp b rp h [[]] tabs /\ settled rp [[]] /\
    length (rp_tables rp) = length tbls /\ flushChan rp = [] /\ rowStream rp = row.
Proof using LogT BloomL RowL.
  intros [Hlog Hrow Htb Hun Hver Hseq Hval Hsz Hpl Hlast Htail] Hf.
  destruct (load_partition_eq fuel tries log row tbls tabs (sc_inv_le _ 0 _ Hrow ltac:(lia)) Htb) as (s & tbls' & -> & Hm & _ & Htb' & Hs).
  rewrite (replay_nothing _ _ b log _ _ _ Hlog Htail Hf). cbn [obind]. exists (loaded s log row tbls'). split; [reflexivity|].
  destruct (replay_from_same _ _ Hs) as [Em Er]. split; [|split; [|split; [|split; reflexivity]]].
  - apply loaded_ok; rewrite ?Em; try done. by eapply same_tables_last.
  - split; [reflexivity|]. cbn [loaded with_pm with_tables logStream rp_tables seqNumber]. rewrite Er. split; [reflexivity|exact Htail].
  - cbn [loaded with_pm with_tables rp_tables]. symmetry. by eapply Forall2_length.
Qed.

(** ** OpenRangePartition *)

Lemma max_units (row : RowSt) (tbls : list Tab) tabs : Forall2 (tab_holds fp row) tbls tabs -> Forall (fun t => 1 <= LastSeq t) tbls -> tbls <> [] ->
  is_u64 (vp_extentID (max_head tbls)) /\ is_u32 (vp_offset (max_head tbls)) /\ 1 <= max_seq tbls.
Proof.
  intros Htb Hl Hne. destruct (last_table_max tbls 0 None Hl Hne ltac:(lia) ltac:(done)) as (t & E & Hge & [Hin|]); [|done].
  unfold max_head, replay_from, max_seq. rewrite E. cbn [fst snd vp_extentID vp_offset].
  apply list_elem_of_lookup in Hin as [i Hi]. destruct (Forall2_lookup_l _ _ _ _ _ Htb Hi) as (K & _ & HK).
  destruct (tb_file _ _ _ _ HK) as (c & ti & bl & gs & x0 & es & x1 & _ & _ & _ & Hu1 & Hu2 & _). done.
Qed.

Lemma max_seq_bound (tbls : list Tab) s : tbls <> [] -> Forall (fun t => 1 <= LastSeq t <= s) tbls -> max_seq tbls <= s.
Proof.
  intros Hne Hl. destruct (last_table_max tbls 0 None (Forall_impl _ _ _ Hl (fun t => @proj1 _ _)) Hne ltac:(lia) ltac:(done)) as (t & E & _ & [Ht|]); [|done].
  rewrite Forall_forall in Hl. specialize (Hl t Ht). pose proof (last_table_seq tbls 0 None t E ltac:(done)). unfold max_seq. lia.
Qed.
(** with nothing but an empty memtable no flush is pending *)
Lemma mem_chan_nil b (rp : RP) h tabs : rp_inv fp b rp h [[]] tabs -> flushChan rp = [].
Proof.
  intros Hi. pose proof (Forall2_length _ _ _ (ri_mems _ _ _ _ _ _ Hi)) as Hl. rewrite <- (ri_chan _ _ _ _ _ _ Hi) in Hl.
  cbn [length] in Hl. rewrite length_reverse, length_fmap in Hl. destruct (flushChan rp); [done|]. cbn in Hl. lia.
Qed.
(** the tables of a compaction in place of the old ones *)
Lemma installed_ok b (rp rp' : RP) h tabs newt Ks now : rp_inv fp b rp h [[]] tabs -> settled rp [[]] -> flushChan rp = [] -> rp_tables rp <> [] ->
  Forall2 (tab_holds fp (rowStream rp')) newt Ks -> compacted now (mjoin tabs) (mjoin Ks) -> newt <> [] ->
  Forall (fun t => LastSeq t = max_seq (rp_tables rp) /\ t_VpExtentID t = vp_extentID (max_head (rp_tables rp)) /\
      t_VpOffset t = vp_offset (max_head (rp_tables rp))) newt ->
  same_rest rp rp' -> flushChan rp' = [] -> sc_inv (1 + b) (rowStream rp') ->
  rp_inv fp b (with_tables (with_pm rp' (Loc <$> newt)) newt (seqNumber rp')) h [[]] Ks /\
  settled (with_tables (with_pm rp' (Loc <$> newt)) newt (seqNumber rp')) [[]].
Proof.
  intros Hi (_ & Hsq0 & Hset) Hch0 Hne0 Htb Hc Hne Hnew (El & Er & Eb & Em & Ei & Es & Ev) Hch Hrow.
  pose proof Hi as [H1' H2' H3' H4' H5' H6' H7' H8' H9' H10' H11' H12' H13' H14' H15' H16' H17' H18'].
  change (store [[]] tabs) with (mjoin tabs) in *. destruct (compacted_spec now _ _ H6' Hc) as (Hnd & Hlen & Hin).
  destruct H18' as [Hl1 _]. destruct (max_units _ _ _ H2' (Forall_impl _ _ _ Hl1 (fun t => @proj1 _ _)) Hne0) as (_ & _ & Hmax1).
  pose proof (max_seq_bound _ _ Hne0 Hl1) as Hmax2.
  assert (forall P : kv -> Prop, Forall P (mjoin tabs) -> Forall P (mjoin Ks)) as Hsub.
  { intros P HP. apply Forall_forall. intros p Hp. rewrite Forall_forall in HP. apply HP. by apply Hin in Hp as [[Hp _] _]. }
  assert (replay_from newt = replay_from (rp_tables rp) /\ fst (last_table newt 0 None) = max_seq (rp_tables rp)) as [Hrf Hms].
  { destruct newt as [|t newt]; [done|]. apply Forall_cons in Hnew as [(Hs1 & Hx1 & Hx2) Hnew]. unfold replay_from at 1. cbn [last_table].
    destruct (Z.ltb_spec 0 (LastSeq t)); [|lia]. rewrite Hs1, last_table_const by (eapply Forall_impl; [exact Hnew|]; cbn; tauto). cbn [fst snd].
    rewrite Hx1, Hx2. unfold max_head. cbn [vp_extentID vp_offset]. by destruct (replay_from (rp_tables rp)). }
  split; [|split; [reflexivity|]; cbn [with_pm with_tables logStream rp_tables seqNumber]; rewrite El, Es, Hrf, Hms; by split].
  split; cbn [with_pm with_tables logStream rowStream rp_mt rp_imm flushChan rp_tables seqNumber vhead blockWrites pm_tables];
    change (store [[]] Ks) with (mjoin Ks); rewrite ?El, ?Eb, ?Em, ?Ei, ?Es, ?Ev, ?Hch; try done.
  - split; [|done]. intros uk t t' v v' Hx. by apply elem_of_nil in Hx.
  - by apply Hsub.
  - by rewrite <- H9', Hch0.
  - cbn. lia.
  - intros uk Huk. apply (agrees_compact _ _ now (mjoin tabs)); [done| |done|by apply H14'].
    eapply Forall_impl; [exact H8'|]. intros p. apply user_version_le. lia.
  - lia.
  - by apply Hsub.
  - split; [|constructor]. eapply Forall_impl; [exact Hnew|]. intros t (-> & _). lia.
Qed.

Lemma open_ok (m : gmap bytes bytes) b n fuel tries now log row tbls h tabs uk v : durable (2 * length h + b) log row tbls h tabs ->
  uk <> [] -> spec_get h uk = Some (Some v) -> (forall k v, spec_get h k = Some (Some v) -> m !! k = Some v) -> map_est m <= maxCompact ->
  (length h < n)%nat -> (length h < fuel)%nat ->
  exists (rp : RP) tabs', OpenRangePartition fp rnd sched n fuel tries now log row (Loc <$> tbls) = Ok rp /\ rp_inv fp b rp h [[]] tabs' /\ settled rp [[]].
Proof using bloom_small LogT BloomL RowL RowA.
  intros Hd Huk Hlive Hm Hmax Hn Hf. pose proof (du_size _ _ _ _ _ _ Hd) as Hsz.
  destruct (load_ok _ fuel tries log row tbls h tabs Hd ltac:(lia)) as (rp & E & Hi & Hset & Hlen & Hch & Hr). unfold OpenRangePartition.
  rewrite E. clear E. cbn [obind]. destruct (Nat.leb_spec (length (rp_tables rp)) 1) as [|Hmany].
  { exists rp, tabs. split; [done|]. split; [|done]. eapply rp_inv_le; [|exact Hi]. lia. }
  pose proof (ri_tabs _ _ _ _ _ _ Hi) as Htb. pose proof (ri_last _ _ _ _ _ _ Hi) as [Hl _].
  assert (rp_tables rp <> []) as Hne by (intros E0; rewrite E0 in Hmany; cbn in Hmany; lia).
  destruct (max_units _ _ _ Htb (Forall_impl _ _ _ Hl (fun t => @proj1 _ _)) Hne) as (Hu1 & Hu2 & Hmax1).
  pose proof (ri_unique _ _ _ _ _ _ Hi) as Hun. pose proof (ri_plain _ _ _ _ _ _ Hi) as Hpl. pose proof (ri_row _ _ _ _ _ _ Hi) as Hrow.
  change (store [[]] tabs) with (mjoin tabs) in *. change (need [[]]) with 1%nat in Hrow.
  assert (Forall (fun p => user_version MaxUint64 (fst p)) (mjoin tabs)) as Hver.
  { eapply Forall_impl; [apply Hi|]; intros p; apply user_version_le; pose proof (ri_seq _ _ _ _ _ _ Hi); lia. }
  destruct (doCompact_ok (1 + b) n fuel now rp tabs) as (l & Hc & Hdo & _); try assumption.
  { intros ->. by apply Forall2_nil_inv_r in Htb. }
  { eapply sc_inv_le; [exact Hrow|lia]. }
  { lia. }
  { lia. }
  { pose proof (ri_seq _ _ _ _ _ _ Hi) as Hs. pose proof (max_seq_bound _ _ Hne Hl) as Hb. unfold is_u64, MaxUint64 in *. lia. }
  destruct Hdo as (rp1 & newt & Ks & -> & Ht1 & Hnew & <- & Hsq & Hsame & Hch1 & Hrow1).
  { etrans; [eapply (compacted_est m (logStream rp) h now); [exact Hun|exact Hver|exact Hc|apply Hi|exact Hm]|exact Hmax]. }
  cbn [obind]. rewrite Ht1, surplus_app.
  assert (newt <> []) as Hnne.
  { intros ->. apply Forall2_nil_inv_l in Hnew as ->. pose proof (ri_values _ _ _ _ _ _ Hi uk Huk) as Ha.
    apply (agrees_compact _ _ now _ (mjoin [])) in Ha; [|done|exact Hver|done].
    unfold agrees in Ha. rewrite Hlive in Ha. destruct Ha as (t & vs & (Hin & _) & _). by apply elem_of_nil in Hin. }
  assert (updateTableLocs rp1 (Loc <$> newt) = Loc <$> newt) as -> by (by destruct newt).
  eexists _, Ks. split; [done|]. apply (installed_ok b rp rp1 h tabs newt Ks now); try done. eapply rp_inv_le; [|exact Hi]. lia.
Qed.

(** C12: A major compaction of all tables of a partition, with the handshake between the compacting
    goroutine and the flusher over flushChan and the unbuffered resultCh: when the newest live
    versions are estimated at no more than 32 MB it adds tables that together hold exactly the
    newest version of every key that is neither deleted nor expired, once each, with the sequence
    number and log position of the newest old table, and leaves log, memtable and sequence number
    alone; when they are more than fill 17 memtables, the flusher waits to send a result, the
    compaction waits to send a task, and neither ever goes on. *)
Theorem doCompact_keeps_newest b n fuel now (rp : RP) h tabs : rp_inv fp (2 * length h + b) rp h [[]] tabs -> rp_tables rp <> [] ->
  (length h < n)%nat -> (length h < fuel)%nat ->
  exists l, NoDup (fst <$> l) /\ (forall p, p ∈ l <-> leads (mjoin tabs) p /\ alive now p = true) /\
    (kv_est l <= maxCompact -> exists rp' newt Ks, doCompact fp rnd sched n fuel now rp (rp_tables rp) true = Ok rp' /\ rp_tables rp' = rp_tables rp ++ newt /\
      Forall2 (tab_holds fp (rowStream rp')) newt Ks /\ mjoin Ks = l /\
      Forall (fun t => LastSeq t = max_seq (rp_tables rp) /\ (t_VpExtentID t, t_VpOffset t) = replay_from (rp_tables rp)) newt /\
      logStream rp' = logStream rp /\ rp_mt rp' = rp_mt rp /\ seqNumber rp' = seqNumber rp /\ sc_inv b (rowStream rp')) /\
    (minDeadlock < kv_bytes l -> doCompact fp rnd sched n fuel now rp (rp_tables rp) true = Err Deadlock).
Proof using bloom_small BloomL RowL RowA.
  intros Hi Hne Hn Hf. pose proof (ri_size _ _ _ _ _ _ Hi) as Hsz. pose proof (ri_tabs _ _ _ _ _ _ Hi) as Htb. pose proof (ri_last _ _ _ _ _ _ Hi) as [Hl _].
  destruct (max_units _ _ _ Htb (Forall_impl _ _ _ Hl (fun t => @proj1 _ _)) Hne) as (Hu1 & Hu2 & Hmax1).
  pose proof (ri_unique _ _ _ _ _ _ Hi) as Hun. pose proof (ri_plain _ _ _ _ _ _ Hi) as Hpl. pose proof (ri_row _ _ _ _ _ _ Hi) as Hrow.
  change (store [[]] tabs) with (mjoin tabs) in *. pose proof (mem_chan_nil _ _ _ _ Hi) as Hch.
  destruct (doCompact_ok b n fuel now rp tabs) as (l & Hc & Hdo & Hdead); try assumption; try lia.
  { intros ->. by apply Forall2_nil_inv_r in Htb. }
  { eapply sc_inv_le; [exact Hrow|]. change (need [[]]) with 1%nat. lia. }
  { pose proof (ri_seq _ _ _ _ _ _ Hi) as Hs. pose proof (max_seq_bound _ _ Hne Hl) as Hb. unfold is_u64, MaxUint64 in *. lia. }
  destruct (compacted_spec now _ _ Hun Hc) as (Hnd & _ & Hin). exists l. split; [exact Hnd|]. split; [exact Hin|]. split; [|exact Hdead].
  intros Hle. destruct (Hdo Hle) as (rp1 & newt & Ks & E & Ht1 & Hnew & Hj & Hsq & (El & _ & _ & Em & _ & Es & _) & Hch1 & Hrow1). exists rp1, newt, Ks.
  do 4 (split; [assumption|]). split; [|done]. eapply Forall_impl; [exact Hsq|]. intros t (E1 & E2 & E3). split; [exact E1|]. rewrite E2, E3. unfold max_head. cbn [vp_extentID vp_offset]. by destruct (replay_from (rp_tables rp)).
Qed.

(** ** close *)

(** the flusher does not look at these fields *)
Definition refront (rp : RP) (rot : Z) (blk : bool) (mt : Mem) (seq : Z) (np : nat) : RP :=
  mkRP (logStream rp) (rowStream rp) rot blk mt (rp_imm rp) (flushChan rp) (rp_tables rp) seq (vhead rp) (pm_tables rp) np.
Lemma flush_refront (rp : RP) rot blk mt seq np :
  flushMemtable fp sched (refront rp rot blk mt seq np) = (let! rp' := flushMemtable fp sched rp in Ok (refront rp' rot blk mt seq np)).
Proof.
  unfold flushMemtable. cbn [refront flushChan]. destruct (flushChan rp) as [|ft rest]; [reflexivity|]. unfold handleFlushTask.
  destruct (Empty (m_sl (ft_mt ft))) as [[|]| |]; cbn [obind]; [|..|reflexivity|reflexivity].
  - cbn [refront rp_imm]. destruct (ft_isCompact ft); cbn [obind]; [reflexivity|]. destruct (rp_imm rp) as [|m imm]; [reflexivity|].
    destruct (m_ptr (ft_mt ft) =? m_ptr m)%nat; reflexivity.
  - destruct (it_SeekToFirst _) as [n| |]; cbn [obind]; [|reflexivity|reflexivity]. destruct (flush_loop _ _ _ _ _) as [bd| |]; cbn [obind]; [|reflexivity|reflexivity].
    destruct (FinishBlock bd) as [bd'| |]; cbn [obind]; [|reflexivity|reflexivity]. cbn [refront rowStream].
    destruct (FinishAll _ _ _ _ _ _) as [[row [id offset]]| |]; cbn [obind]; [|reflexivity|reflexivity].
    destruct (OpenTable row id offset) as [t| |]; cbn [obind]; [|reflexivity|reflexivity]. cbn [refront rp_imm].
    destruct (ft_isCompact ft); cbn [obind]; [reflexivity|]. destruct (rp_imm rp) as [|m imm]; [reflexivity|].
    destruct (m_ptr (ft_mt ft) =? m_ptr m)%nat; reflexivity.
Qed.
Lemma drain_refront n : forall (rp : RP) rot blk mt seq np,
  drain_flusher fp sched n (refront rp rot blk mt seq np) = (let! rp' := drain_flusher fp sched n rp in Ok (refront rp' rot blk mt seq np)).
Proof.
  induction n as [|n IH]; intros rp rot blk mt seq np; [reflexivity|]. cbn [drain_flusher]. rewrite flush_refront.
  destruct (flushMemtable fp sched rp) as [rp'| |]; cbn [obind]; [apply IH|reflexivity|reflexivity].
Qed.

(** draining the channel: the last table is that of the last task *)
Lemma drain_tasks_ok b h M0 K ft (s : Z) : K <> [] -> forall pre (rp : RP) ms tabs, rp_inv fp b rp h (M0 :: K :: ms) tabs -> flushChan rp = pre ++ [ft] ->
  Forall (fun t => LastSeq t <= s) (rp_tables rp) -> Forall (fun ft => ft_seqNum ft <= s) pre ->
  exists rp' tabs' tbls t, drain_flusher fp sched (length (flushChan rp)) rp = Ok rp' /\ rp_inv fp b rp' h [M0] tabs' /\
    logStream rp' = logStream rp /\ seqNumber rp' = seqNumber rp /\ flushChan rp' = [] /\ rp_tables rp' = tbls ++ [t] /\
    Forall (fun t => LastSeq t <= s) tbls /\ LastSeq t = ft_seqNum ft /\ t_VpExtentID t = vp_extentID (ft_vptr ft) /\ t_VpOffset t = vp_offset (ft_vptr ft).
Proof using bloom_small BloomL RowL.
  intros HK. induction pre as [|ft0 pre IH]; intros rp ms tabs Hi Hch Hl Hp;
    destruct (flushMemtable_ok fp sched bloom_small b rp h _ tabs Hi) as (rp1 & mems1 & tabs1 & E & Hi1 & (Hlog & Hmt & Hsq & Hv & _ & _) & _ & Hh & Hg);
    unfold tables_grow in Hg; rewrite Hch in Hg |- *; cbn [app] in Hg; destruct Hg as (Hch1 & K0 & Hm & Hg); cbn [length app drain_flusher]; rewrite E; cbn [obind]; clear E.
  - pose proof (Forall2_length _ _ _ (ri_mems _ _ _ _ _ _ Hi1)) as Hlen. rewrite <- (ri_chan _ _ _ _ _ _ Hi1), Hch1 in Hlen. cbn in Hlen.
    destruct mems1 as [|M1 [|]]; [done| |done]. cbn in Hm. injection Hm as <- -> ->. destruct Hg as [[-> _]|(t & Ht & Hs & Hx & Ho)]; [done|].
    exists rp1, tabs1, (rp_tables rp), t. repeat (split; [solve [assumption | reflexivity]|]). assumption.
  - destruct mems1 as [|M1 mems1]; [done|]. injection Hh as ->. cbn in Hm. injection Hm as Hm.
    assert (exists ms1, mems1 = K :: ms1) as [ms1 ->].
    { destruct mems1 as [|K1 ms1]; [|injection Hm as -> _; by exists ms1]. exfalso. pose proof (Forall2_length _ _ _ (ri_mems _ _ _ _ _ _ Hi1)) as Hlen.
      rewrite <- (ri_chan _ _ _ _ _ _ Hi1), Hch1 in Hlen. cbn [length] in Hlen. rewrite length_reverse, length_fmap, length_app in Hlen. cbn in Hlen. lia. }
    apply Forall_cons in Hp as [Hp0 Hp].
    destruct (IH rp1 ms1 tabs1 Hi1 Hch1) as (rp' & tabs' & tbls & t & E & Hi' & Hlog' & Hsq' & Hr); [|done|].
    { destruct Hg as [[_ ->]|(t & -> & Hs & _)]; [done|]. apply Forall_app. split; [done|]. constructor; [lia|constructor]. }
    rewrite Hch1 in E. exists rp', tabs', tbls, t. split; [exact E|]. split; [exact Hi'|]. rewrite Hlog', Hsq'. by repeat (split; [assumption|]).
Qed.

Lemma last_table_snoc (tbls : list Tab) t s : Forall (fun t => LastSeq t <= s) tbls -> s < LastSeq t -> forall seq lt, seq <= s ->
  last_table (tbls ++ [t]) seq lt = (LastSeq t, Some t).
Proof.
  intros Hf Ht. induction Hf as [|t' tbls Hl _ IH]; intros seq lt Hs; cbn [app last_table].
  - destruct (Z.ltb_spec seq (LastSeq t)); [done|lia].
  - destruct (Z.ltb_spec seq (LastSeq t')); apply IH; lia.
Qed.

(** a state with nothing in memory is durable *)
Lemma flushed_durable b (rp : RP) h tabs : rp_inv fp b rp h [[]] tabs -> seqNumber rp = max_seq (rp_tables rp) ->
  ls_tail (logStream rp) (fst (replay_from (rp_tables rp))) (snd (replay_from (rp_tables rp))) ->
  durable b (logStream rp) (rowStream rp) (rp_tables rp) h tabs.
Proof.
  intros [H1' H2' H3' H4' H5' H6' H7' H8' H9' H10' H11' H12' H13' H14' H15' H16' H17' H18'] Hs Ht.
  rewrite Hs in *. split; try assumption; [by destruct H7'|]. destruct H18' as [Hl _]. eapply Forall_impl; [exact Hl|]. intros t Hx. apply Hx.
Qed.

Lemma close_partition_ok b (rp : RP) h mems tabs : rp_inv fp (S b) rp h mems tabs -> settled rp mems ->
  exists mt rp' tabs', close fp sched rp true = Ok (mt, rp') /\ durable b (logStream rp') (rowStream rp') (rp_tables rp') h tabs' /\
    pm_tables rp' = Loc <$> rp_tables rp'.
Proof using bloom_small BloomL RowL.
  intros Hi Hset. pose proof (ri_mems _ _ _ _ _ _ Hi) as Hmem. apply Forall2_cons_inv_l in Hmem as (M & ms & HM & Hms & ->).
  unfold close. destruct (mo_holds _ _ HM) as (L & Hr & HL). cbn [blocked rp_mt]. rewrite (Empty_ok _ L Hr). cbn [obind].
  destruct M as [|kv0 M].
  { destruct L; [|done]. cbn [andb negb]. destruct Hset as (-> & Hsq & Htail). apply Forall2_nil_inv_r in Hms. apply (f_equal reverse) in Hms.
    rewrite reverse_involutive in Hms. pose proof (ri_chan _ _ _ _ _ _ Hi) as Hch. rewrite Hms in Hch. apply fmap_nil_inv in Hch.
    cbn [blocked flushChan]. rewrite Hch. cbn [length drain_flusher obind]. do 3 eexists. split; [reflexivity|].
    split; [|apply Hi]. apply (flushed_durable b rp); [by eapply rp_inv_le; [|exact Hi]; lia|done|done]. }
  assert (match L with [] => true | _ => false end = false) as -> by (by destruct L). cbn [andb negb settled] in Hset |- *.
  change (blocked rp) with (refront rp (logRotates rp) true (rp_mt rp) (seqNumber rp) (nextPtr rp)).
  assert (exists rp1 mems1 tabs1, flusher_room fp sched (refront rp (logRotates rp) true (rp_mt rp) (seqNumber rp) (nextPtr rp)) =
      Ok (refront rp1 (logRotates rp) true (rp_mt rp) (seqNumber rp) (nextPtr rp)) /\ rp_inv fp (S b) rp1 h ((kv0 :: M) :: mems1) tabs1 /\
    logStream rp1 = logStream rp /\ rp_mt rp1 = rp_mt rp /\ seqNumber rp1 = seqNumber rp /\ vhead rp1 = vhead rp /\
    (length (flushChan rp1) < flushCapacity)%nat) as (rp1 & mems1 & tabs1 & -> & Hi1 & Hlog1 & Hmt1 & Hsq1 & Hv1 & Hroom).
  { unfold flusher_room. change (flushChan (refront _ _ _ _ _ _)) with (flushChan rp). destruct (Nat.ltb_spec (length (flushChan rp)) flushCapacity) as [Hlt|Hge].
    - exists rp, ms, tabs. by repeat (split; [reflexivity || exact Hi|]).
    - rewrite flush_refront. destruct (flushMemtable_ok fp sched bloom_small (S b) rp h _ tabs Hi) as (rp1 & mems1 & tabs1 & -> & Hi1 & (Hlog & Hmt & Hsq & Hv & _ & Hc) & _ & Hh & _).
      cbn [obind]. destruct mems1 as [|M1 mems1]; [done|]. injection Hh as ->. exists rp1, mems1, tabs1. pose proof (ri_full _ _ _ _ _ _ Hi).
      split; [reflexivity|]. do 5 (split; [assumption|]). rewrite Hc. unfold flushCapacity in *. lia. }
  cbn [obind]. destruct (new_mem_ok (nextPtr rp1)) as (s0 & E0 & Hs0 & _). clear E0. pose proof (ri_head _ _ _ _ _ _ Hi1) as [Hu1 Hu2].
  pose proof (swapped_ok fp b rp1 h _ tabs1 (vhead rp1) s0 Hi1 Hs0 Hroom Hu1 Hu2) as Hi2. pose proof (ri_seq _ _ _ _ _ _ Hi1) as Hsq.
  pose proof (ri_last _ _ _ _ _ _ Hi1) as [Hl1 Hl2].
  change (vhead (refront rp1 (logRotates rp) true (rp_mt rp) (seqNumber rp) (nextPtr rp))) with (vhead rp1).
  cbn [refront rp_imm rp_mt seqNumber]. rewrite u64_small by (unfold MaxUint64 in *; lia). rewrite <- Hmt1, <- Hsq1.
  match goal with |- context [push_task ?a ?x ?y] =>
    change (push_task a x y) with (refront (swapped rp1 (vhead rp1) s0) (logRotates rp) true (rp_mt rp1) (seqNumber rp1) (S (nextPtr rp))) end.
  destruct (drain_tasks_ok b h [] (kv0 :: M) (mkFT (rp_mt rp1) (vhead rp1) (seqNumber rp1 + 1) false 0) (seqNumber rp1) ltac:(done) (flushChan rp1) _ _ _ Hi2 eq_refl)
    as (rp3 & tabs3 & tbls & t & E3 & Hi3 & Hlog3 & Hsq3 & Hch3 & Ht3 & Hf3 & Hs3 & Hx3 & Ho3).
  { eapply Forall_impl; [exact Hl1|]. intros t Hx. apply Hx. }
  { eapply Forall_impl; [exact Hl2|]. intros t Hx. apply Hx. }
  change (flushChan (refront ?a _ _ _ _ _)) with (flushChan a). rewrite drain_refront, E3. clear E3. cbn [obind]. do 3 eexists. split; [reflexivity|].
  split; [|apply Hi3]. cbn [ft_seqNum ft_vptr swapped logStream seqNumber vhead] in *.
  assert (last_table (rp_tables rp3) 0 None = (LastSeq t, Some t)) as Hlast by (rewrite Ht3; apply (last_table_snoc tbls t (seqNumber rp1)); [done|lia|lia]).
  apply (flushed_durable b rp3); [exact Hi3|unfold max_seq; rewrite Hlast; cbn [fst]; lia|].
  unfold replay_from. rewrite Hlast. cbn [fst snd]. by rewrite Hx3, Ho3, Hlog3, Hlog1, Hv1.
Qed.
End Restart.
