(* ===== verification/PartitionMap.v ===== *)
(** The partition engine as a key-value map: any sequence of client
    operations returns what the same operations on a finite map return. *)
From Stdlib Require Import ZArith Lia.
From stdpp Require Import base option list numbers gmap sorting strings.
From S2P Require Import Prelude GoLib Utils Proto ProtoPs Keys YIter Extent MixBlock Stream.
From S2P Require Import Skiplist SkiplistSpec SkiplistPut TableBlock Table TableSpec TableBuild.
From S2P Require Import Partition PartitionSpec PartitionRun PartitionScan PartitionOpen Compact PartitionRestart.

(** ** The specification *)

(** [OpWrite] is a batch of concurrent writes, [OpFlush] a round of the
    flusher in the background, [OpRestart] closes the partition and opens it
    again from its streams and the tables the partition manager knows *)
Inductive client_op :=
  | OpWrite (kvs : list (bytes * bytes)) | OpDelete (key : bytes) | OpGet (key : bytes)
  | OpRange (prefix start : bytes) (limit : Z) | OpFlush | OpRestart.
Inductive reply := RDone (err : option error) | RValue (r : bytes + error) | RKeys (keys : list bytes).

Abbreviation kvmap := (gmap bytes bytes).
#[export] Instance key_le_dec : RelDecision key_le.
Proof. intros a b. unfold key_le. apply _. Defined.
(** the keys from [start] on that have the prefix, in order *)
Definition map_keys (m : kvmap) (prefix start : bytes) : list bytes :=
  merge_sort key_le (filter (fun k => key_le start k /\ prefix `prefix_of` k) (map_to_list m).*1).
Definition map_op (m : kvmap) (op : client_op) : kvmap * reply :=
  match op with
  | OpWrite kvs => (foldl (fun m p => <[fst p := snd p]> m) m kvs, RDone None)
  | OpDelete k =>
      match m !! k with
      | Some _ => (delete k m, RDone None)
      | None => (m, RDone (Some errNotFound))
      end
  | OpGet k => (m, RValue (match m !! k with Some v => inl v | None => inr errNotFound end))
  | OpRange prefix start limit => (m, RKeys (take (Z.to_nat limit) (map_keys m prefix start)))
  | OpFlush | OpRestart => (m, RDone None)
  end.
Fixpoint map_run (m : kvmap) (ops : list client_op) : list reply :=
  match ops with
  | [] => []
  | op :: ops => let '(m, r) := map_op m op in r :: map_run m ops
  end.

(** What a client may ask. Keys are not empty and have at most 2 KB, the values
    of a batch have room ([batch_fits]), the prefix of a scan is a prefix of the
    key it starts at, and a partition is opened again only when some key is
    live (a compaction of nothing else leaves the old locations behind) and the
    live entries are no more than a compaction can take. *)
Definition client_ok (m : kvmap) (op : client_op) : Prop :=
  match op with
  | OpWrite kvs => batch_fits kvs
  | OpDelete k => k <> [] /\ zlen k <= 2048
  | OpGet k => k <> []
  | OpRange prefix start limit => prefix `prefix_of` start /\ 0 <= limit < 2 ^ 32
  | OpFlush => True
  | OpRestart => m <> ∅ /\ map_est m <= maxCompact
  end.
Fixpoint ops_ok (m : kvmap) (ops : list client_op) : Prop :=
  match ops with
  | [] => True
  | op :: ops => client_ok m op /\ ops_ok (fst (map_op m op)) ops
  end.
(** the appends and sequence numbers it takes after [w] writes; a compaction
    writes every key again *)
Definition op_writes (op : client_op) : nat := match op with OpWrite kvs => length kvs | OpDelete _ => 1 | _ => 0 end.
Definition op_cost (w : nat) (op : client_op) : nat :=
  match op with OpWrite kvs => length kvs + (length kvs + 3) | OpDelete _ => 5 | OpRestart => S (2 * w) | _ => 0 end.
Fixpoint ops_cost (w : nat) (ops : list client_op) : nat :=
  match ops with [] => 0 | op :: ops => op_cost w op + ops_cost (op_writes op + w) ops end.
Definition ops_writes (ops : list client_op) : nat := foldr (fun op n => op_writes op + n)%nat 0%nat ops.

(** the map a history leaves *)
Definition view (h : list (bytes * option bytes)) (m : kvmap) : Prop :=
  (forall k, m !! k = match spec_get h k with Some (Some v) => Some v | _ => None end) /\ m !! [] = None.

Lemma view_nil : view [] ∅.
Proof. split; [|done]. intros k. apply lookup_empty. Qed.
Lemma view_put h m k v : k <> [] -> view h m -> view ((k, Some v) :: h) (<[k := v]> m).
Proof.
  intros Hk [Hv H0']. split; [|by rewrite lookup_insert_ne]. intros k'. cbn [spec_get]. destruct (decide (k = k')) as [->|Hne].
  - apply lookup_insert_eq.
  - rewrite lookup_insert_ne by done. apply Hv.
Qed.
Lemma view_delete h m k : k <> [] -> view h m -> view ((k, None) :: h) (delete k m).
Proof.
  intros Hk [Hv H0']. split; [|by rewrite lookup_delete_ne]. intros k'. cbn [spec_get]. destruct (decide (k = k')) as [->|Hne].
  - apply lookup_delete_eq.
  - rewrite lookup_delete_ne by done. apply Hv.
Qed.
Lemma view_batch kvs : Forall (fun p => client_kv (fst p) (snd p)) kvs -> forall h m, view h m ->
  view (rev (live <$> kvs) ++ h) (foldl (fun m p => <[fst p := snd p]> m) m kvs).
Proof.
  induction 1 as [|[k v] kvs Hkv _ IH]; intros h m Hv; [done|]. rewrite fmap_cons. cbn [rev foldl live fst snd].
  rewrite <- app_assoc. apply IH, view_put; [apply Hkv|done].
Qed.
(** a map with an entry has a live key *)
Lemma view_live h m : view h m -> m <> ∅ -> exists k v, k <> [] /\ spec_get h k = Some (Some v).
Proof.
  intros [Hv H0'] Hne. apply map_choose in Hne as (k & v & E). exists k, v. split; [by intros ->; rewrite H0' in E|].
  rewrite Hv in E. destruct (spec_get h k) as [[v'|]|]; congruence.
Qed.

Lemma view_lookup h m : view h m -> forall k v, spec_get h k = Some (Some v) -> m !! k = Some v.
Proof. intros [Hv _] k v E. by rewrite Hv, E. Qed.

#[local] Instance key_le_total : Total key_le.
Proof. intros a b. unfold key_le. rewrite (bytes_compare_antisym a b). destruct (bytes_compare a b); auto. Qed.
#[local] Instance key_le_transitive : Transitive key_le.
Proof. intros a b c. apply key_le_trans. Qed.
#[local] Instance key_le_antisymm : AntiSymm (=) key_le.
Proof. intros a b. apply key_le_antisym. Qed.

Lemma view_keys h m prefix start keys : view h m -> StronglySorted key_lt keys ->
  (forall uk, uk ∈ keys <-> uk <> [] /\ (exists v, spec_get h uk = Some (Some v)) /\ key_le start uk /\ prefix `prefix_of` uk) ->
  map_keys m prefix start = keys.
Proof.
  intros [Hv H0'] Hs Hk. assert (StronglySorted key_le keys) as Hle.
  { clear -Hs. induction Hs as [|k l _ IH Hf]; constructor; [done|]. eapply Forall_impl; [exact Hf|]. intros x. apply key_lt_le. }
  unfold map_keys. apply (StronglySorted_unique key_le); [apply (StronglySorted_merge_sort key_le)|done|].
  rewrite merge_sort_Permutation. apply NoDup_Permutation.
  - apply NoDup_filter, NoDup_fst_map_to_list.
  - clear -Hs. induction Hs as [|k l _ IH Hf]; [constructor|]. constructor; [|done]. intros Hin. rewrite Forall_forall in Hf.
    by apply (key_lt_irrefl k), Hf.
  - intros uk. rewrite list_elem_of_filter, Hk. assert (uk ∈ (map_to_list m).*1 <-> uk <> [] /\ exists v, spec_get h uk = Some (Some v)) as ->; [|tauto].
    rewrite list_elem_of_fmap. split.
    + intros ([k v] & -> & Hin). apply elem_of_map_to_list in Hin. cbn [fst]. split; [by intros ->; rewrite H0' in Hin|]. rewrite Hv in Hin. destruct (spec_get h k) as [[v'|]|]; [by exists v'|done|done].
    + intros [_ [v E]]. exists (uk, v). split; [done|]. apply elem_of_map_to_list. by rewrite Hv, E.
Qed.

Section Client.
Context {LogSt RowSt Bloom LogIt : Type}.
Context `{LogL : StreamLaws LogSt} `{LogS : !LogStream LogSt} `{LogA : !LogLaws LogSt} `{LogI : !LogIters LogSt LogIt} `{LogT : !LogTail LogSt LogIt}.
Context `{RowL : StreamLaws RowSt} `{RowT : !TruncStream RowSt} `{RowA : !TruncLaws RowSt} `{BloomL : BloomLaws Bloom} `{Sort : SortSlice}.
Variable fp : bytes -> Z.
Variable rnd : SL -> bytes -> nat -> Z.
Variable sched : Z -> nat -> nat.
Hypothesis bloom_small : forall hs : list Z, zlen hs <= 2 ^ 21 -> zlen (bf_JSONMarshal (filter_of (Bloom := Bloom) hs)) < 2 ^ 29.
Abbreviation RP := (RangePartition (LogSt := LogSt) (RowSt := RowSt) (Bloom := Bloom)).

(** [fuel] bounds the loops of a scan, a replay and a compaction, [now] is the clock *)
Definition run_op (fuel : nat) (now : Z) (tries : nat) (rp : RP) (op : client_op) : outcome (RP * reply) :=
  match op with
  | OpWrite kvs => let! (rp, err) := WriteAll fp rnd sched tries rp kvs in Ok (rp, RDone err)
  | OpDelete k => let! (rp, err) := Delete fp rnd sched tries rp k in Ok (rp, RDone err)
  | OpGet k => let! r := rp_Get fp rp k 0 in Ok (rp, RValue r)
  | OpRange prefix start limit => let! keys := Range fuel now rp prefix start limit in Ok (rp, RKeys keys)
  | OpFlush => let! rp := flushMemtable fp sched rp in Ok (rp, RDone None)
  | OpRestart =>
      let! (_, rp) := close fp sched rp true in
      let! rp := OpenRangePartition fp rnd sched fuel fuel tries now (logStream rp) (rowStream rp) (pm_tables rp) in Ok (rp, RDone None)
  end.
Fixpoint run_ops (fuel : nat) (now : Z) (tries : nat) (rp : RP) (ops : list client_op) : outcome (RP * list reply) :=
  match ops with
  | [] => Ok (rp, [])
  | op :: ops =>
      let! (rp, r) := run_op fuel now tries rp op in
      let! (rp, rs) := run_ops fuel now tries rp ops in Ok (rp, r :: rs)
  end.

Lemma run_op_ok b fuel now tries w rp h mems tabs m op : rp_inv fp (op_cost w op + b) rp h mems tabs -> settled rp mems -> view h m -> (2 <= tries)%nat ->
  client_ok m op -> (length h <= w)%nat -> (w < fuel)%nat ->
  exists rp' h' mems' tabs', run_op fuel now tries rp op = Ok (rp', snd (map_op m op)) /\
    rp_inv fp b rp' h' mems' tabs' /\ settled rp' mems' /\ view h' (fst (map_op m op)) /\ (length h' <= op_writes op + w)%nat.
Proof using bloom_small BloomL RowL LogA LogT RowA.
  intros Hi Hset Hv Ht Hok Hw Hf. pose proof (proj1 Hv) as Hlk. destruct op as [kvs|k|k|prefix start limit| |]; cbn [run_op map_op client_ok op_cost op_writes] in *.
  - destruct (WriteAll_ok fp rnd sched bloom_small b tries rp h mems tabs kvs Hi Ht Hok) as (rp' & mems' & tabs' & -> & Hi' & Hs').
    cbn [obind]. do 4 eexists. split; [done|]. split; [done|]. split; [done|]. split; [apply view_batch; [apply Hok|done]|]. rewrite length_app, length_rev, length_fmap. lia.
  - destruct Hok as [Hk Hlen].
    destruct (Delete_ok fp rnd sched bloom_small b tries rp h mems tabs k Hi Hset Ht Hk Hlen) as (rp' & mems' & tabs' & h' & -> & Hi' & Hs' & ->).
    cbn [obind]. rewrite (Hlk k). destruct (spec_get h k) as [[v|]|]; do 4 eexists; (split; [done|]; split; [done|]; split; [done|]); [|split; [done|lia]..].
    split; [by apply view_delete|cbn [length]; lia].
  - rewrite (rp_Get_ok fp b rp h mems tabs k Hi Hok). cbn [obind]. rewrite (Hlk k). do 4 eexists. split; [|done].
    by destruct (spec_get h k) as [[v|]|].
  - destruct Hok as (Hpre & Hlim).
    destruct (Range_ok fp b rp h mems tabs fuel now prefix start limit Hi Hpre Hlim ltac:(lia)) as (keys & -> & Hs & Hk).
    cbn [obind]. rewrite (view_keys h m prefix start keys Hv Hs Hk). by do 4 eexists.
  - destruct (flush_settled fp sched bloom_small b rp h mems tabs Hi Hset) as (rp' & mems' & tabs' & -> & Hi' & Hs' & _).
    cbn [obind]. by do 4 eexists.
  - destruct Hok as [Hne Hmax]. destruct (view_live h m Hv Hne) as (k & v & Hk & Hlive).
    destruct (close_partition_ok fp sched bloom_small (2 * length h + b) rp h mems tabs ltac:(eapply rp_inv_le; [|exact Hi]; lia) Hset)
      as (mt & rp1 & tabs1 & -> & Hd & Epm). cbn [obind]. rewrite Epm.
    destruct (open_ok fp rnd sched bloom_small m b fuel fuel tries now _ _ _ h tabs1 k v Hd Hk Hlive (view_lookup h m Hv) Hmax ltac:(lia) ltac:(lia)) as (rp2 & tabs2 & E & Hi2 & Hs2).
    rewrite E. clear E. cbn [obind]. do 4 eexists. split; [reflexivity|]. split; [exact Hi2|]. split; [exact Hs2|]. split; [exact Hv|lia].
Qed.
Lemma run_ops_ok fuel now tries ops : forall w rp h mems tabs m, rp_inv fp (ops_cost w ops) rp h mems tabs -> settled rp mems -> view h m -> (2 <= tries)%nat ->
  ops_ok m ops -> (length h <= w)%nat -> (w + ops_writes ops < fuel)%nat -> exists rp', run_ops fuel now tries rp ops = Ok (rp', map_run m ops).
Proof using bloom_small BloomL RowL LogA LogT RowA.
  induction ops as [|op ops IH]; intros w rp h mems tabs m Hi Hset Hv Ht Hok Hw Hf; [by eexists|]. destruct Hok as [Hop Hok].
  unfold ops_writes in Hf. cbn [ops_cost foldr] in *. fold (ops_writes ops) in Hf.
  destruct (run_op_ok (ops_cost (op_writes op + w) ops) fuel now tries w rp h mems tabs m op Hi Hset Hv Ht Hop Hw ltac:(lia))
    as (rp' & h' & mems' & tabs' & E & Hi' & Hset' & Hv' & Hh).
  cbn [run_ops map_run]. rewrite E. clear E. cbn [obind]. destruct (map_op m op) as [m' r]. cbn [fst snd] in *.
  destruct (IH (op_writes op + w)%nat rp' h' mems' tabs' m' Hi' Hset' Hv' Ht Hok Hh ltac:(lia)) as (rp'' & E). exists rp''. by rewrite E.
Qed.

Lemma new_partition_ok b log row : sc_inv b log -> ls_tail log 0 0 -> sc_inv (1 + b) row -> Z.of_nat b <= MaxUint64 ->
  exists rp : RP, new_partition log row = Ok rp /\ rp_inv fp b rp [] [[]] [] /\ settled rp [[]].
Proof.
  intros Hlog Htail Hrow Hb. destruct (new_mem_ok 0) as (s & E & Hm & _). unfold new_partition. rewrite E. clear E. cbn [obind].
  eexists. split; [reflexivity|]. split; [|exact (conj eq_refl (conj eq_refl Htail))].
  split; cbn [logStream rowStream rp_mt rp_imm flushChan rp_tables seqNumber vhead blockWrites].
  - constructor; [exact Hm|constructor].
  - constructor.
  - exact Hrow.
  - exact Hlog.
  - split; [|exact I]. intros uk t t' v v' Hin. destruct (not_elem_of_nil _ Hin).
  - constructor.
  - lia.
  - constructor.
  - reflexivity.
  - constructor.
  - cbn [length]. lia.
  - reflexivity.
  - unfold is_u64, is_u32. cbn [vp_extentID vp_offset]. lia.
  - intros uk _ t v Hin. destruct (not_elem_of_nil _ Hin).
  - cbn. lia.
  - constructor.
  - reflexivity.
  - split; constructor.
Qed.

(** C1: A partition opened on empty streams whose calls succeed answers every sequence of client
    operations (batches of concurrent writes, deletes, reads, range scans), with rounds of the
    flusher and restarts in between, exactly as a finite map from keys to values does: writes
    succeed, a read returns the last value written, a scan the keys of the map from the start key on
    that have the prefix, in order, and deleting or reading an absent key returns 'not found'.
    Values above the threshold travel through the log stream, memtables are flushed to tables of the
    row stream, a restart closes the partition, loads its tables and compacts them, and nothing
    panics or waits for ever. It asks of the operations what the code does not check (client_ok):
    keys are not empty and have at most 2 KB, values have less than 1 GB and a batch fits a memtable
    and 2 GB of log, the prefix of a scan is a prefix of its start key, and a restart happens only
    while some key is live and the live entries are estimated at no more than 32 MB, beyond which
    the compaction of the restart can deadlock. *)
Theorem partition_refines_map log row fuel now tries ops : sc_inv (ops_cost 0 ops) log -> ls_tail log 0 0 -> sc_inv (1 + ops_cost 0 ops) row ->
  Z.of_nat (ops_cost 0 ops) <= MaxUint64 -> (2 <= tries)%nat -> (ops_writes ops < fuel)%nat -> ops_ok ∅ ops ->
  exists rp rp' : RP, new_partition log row = Ok rp /\ run_ops fuel now tries rp ops = Ok (rp', map_run ∅ ops).
Proof using bloom_small BloomL RowL LogA LogT RowA.
  intros Hlog Htail Hrow Hb Ht Hf Hok. destruct (new_partition_ok _ log row Hlog Htail Hrow Hb) as (rp & E & Hi & Hset).
  destruct (run_ops_ok fuel now tries ops 0 rp [] [[]] [] ∅ Hi Hset view_nil Ht Hok ltac:(cbn; lia) Hf) as (rp' & E'). exists rp, rp'. exact (conj E E').
Qed.
End Client.
