(* ===== verification/Crash.v ===== *)
(** A partition that dies without being closed (range_rangepartition.go:
    OpenRangePartition with its replay): what was acknowledged is in the tables
    or in the log since the last of them, and opening the partition again puts
    it back into a memtable. *)
From Stdlib Require Import ZArith Lia.
From stdpp Require Import base option list numbers gmap sorting strings.
From S2P Require Import Prelude GoLib Utils Proto ProtoPs Keys YIter Extent MixBlock Stream.
From S2P Require Import Skiplist SkiplistSpec SkiplistPut TableBlock Table TableSpec TableBuild.
From S2P Require Import Partition PartitionSpec PartitionRun PartitionScan PartitionOpen LogReplay Compact PartitionRestart PartitionMap.

Section Crash.
Context {LogSt RowSt Bloom LogIt : Type}.
Context `{LogL : StreamLaws LogSt} `{LogS : !LogStream LogSt} `{LogA : !LogLaws LogSt} `{LogI : !LogIters LogSt LogIt} `{LogT : !LogTail LogSt LogIt} `{LogR : !LogReplay LogSt LogIt}.
Context `{RowL : StreamLaws RowSt} `{RowT : !TruncStream RowSt} `{RowA : !TruncLaws RowSt} `{BloomL : BloomLaws Bloom} `{Sort : SortSlice}.
Variable fp : bytes -> Z.
Variable rnd : SL -> bytes -> nat -> Z.
Variable sched : Z -> nat -> nat.
Hypothesis bloom_small : forall hs : list Z, zlen hs <= 2 ^ 21 -> zlen (bf_JSONMarshal (filter_of (Bloom := Bloom) hs)) < 2 ^ 29.
Abbreviation RP := (RangePartition (LogSt := LogSt) (RowSt := RowSt) (Bloom := Bloom)).
Abbreviation Tab := (Table (Bloom := Bloom)).

(** ** Entries that come back *)

(** [i] stands for version [t] of [k] *)
Record entry_ok (log : LogSt) (i : EntryInfo) (k : bytes) (t : Z) (ov : option bytes) : Prop := mk_entry_ok {
  eo_key : k <> []; eo_put : putable i; eo_version : Key (Log i) = KeyWithTs k t; eo_value : stands log (lsm_value i) ov;
  eo_place : is_u64 (EI_ExtentID i) /\ is_u32 (EI_Offset i); eo_size : estimatedSizeInSkl (Log i) <= 3300 }.

Lemma entry_ok_mono log log' i k t ov : (forall e o b, sc_stored log e o b -> sc_stored log' e o b) -> entry_ok log i k t ov -> entry_ok log' i k t ov.
Proof. intros Hm [H1' H2' H3' H4' H5' H6']. split; try done. by eapply stands_mono. Qed.

Lemma small_estimate e : zlen (Key e) <= 2056 -> (ShouldWriteValueToLSM e = true -> zlen (Value e) <= 1024) -> ExpiresAt e = 0 -> estimatedSizeInSkl e <= 3300.
Proof.
  intros Hk Hv Hx. unfold estimatedSizeInSkl. rewrite Hx. change (SizeVarint 0) with 1. unfold MaxNodeSize, vptrSize.
  destruct (ShouldWriteValueToLSM e); [specialize (Hv eq_refl); lia|lia].
Qed.

(** a client's entry, whole or as the pointer that a replay gives *)
Lemma replayed_ok n log k v t meta ov i x o z : sc_inv n log -> client_kv k v -> meta = 0 /\ ov = Some v \/ meta = BitDelete /\ v = [] /\ ov = None ->
  replayed log (mkEI (new_log k v t meta) x o z) i -> entry_ok log i k t ov.
Proof.
  intros Hlog Hkv Hm (Hu1 & Hu2 & Hr). pose proof Hkv as (Hk & Hlk & Hlv). cbn [Log] in Hr. pose proof (zlen_nonneg k). pose proof (zlen_nonneg v).
  assert (meta = 0 \/ meta = BitDelete) as Hm' by tauto.
  destruct (ShouldWriteValueToLSM (new_log k v t meta)) eqn:Hs.
  - assert (logged log (mkEI (new_log k v t meta) x o z) i) as Hl by (split; [done|]; cbn [Log]; rewrite Hs; done).
    assert (zlen v <= 1024) as Hl2 by (unfold ShouldWriteValueToLSM, new_log in Hs; cbn [Meta Value] in Hs; apply andb_true_iff in Hs as [_ Hs]; by apply Z.leb_le in Hs).
    split; [done|exact (logged_putable log k v t meta i x o z Hkv Hm' Hl)|by rewrite Hr| |done|].
    + destruct Hm as [[-> ->]|(-> & -> & ->)]; [by eapply logged_stands|by eapply tombstone_stands].
    + apply small_estimate; rewrite Hr; unfold new_log; cbn [Key Value ExpiresAt]; [rewrite zlen_KeyWithTs; lia|done|done].
  - destruct Hr as (Hlog' & blk & Hst & Hx).
    assert (meta = 0 /\ ov = Some v) as [-> ->].
    { destruct Hm as [|(-> & -> & _)]; [done|]. by unfold ShouldWriteValueToLSM, new_log in Hs. }
    assert (ShouldWriteValueToLSM (Log i) = false) as Hs' by (rewrite Hlog'; done).
    assert (lsm_value i = mkVS 2 0 0 (vp_Encode (mkVP (EI_ExtentID i) (EI_Offset i) 0)) 0) as Hv by (unfold lsm_value; rewrite Hs', Hlog'; done).
    split; [done| |by rewrite Hlog'| |done|].
    + unfold putable. rewrite Hv, Hlog'. unfold pointer_entry, new_log. cbn [Key]. rewrite zlen_KeyWithTs.
      assert (VS_wf (mkVS 2 0 0 (vp_Encode (mkVP (EI_ExtentID i) (EI_Offset i) 0)) 0)) as Hwf by (unfold VS_wf, is_u64; cbn [VMeta VUserMeta VExpiresAt VValue]; rewrite zlen_vp_Encode; repeat split; lia).
      split; [lia|]. split; [done|]. pose proof (EncodedSize_bounds _ Hwf) as Hb. cbn [VValue] in Hb. rewrite zlen_vp_Encode in Hb. lia.
    + rewrite Hv. split; [done|]. split; [done|]. cbn [VMeta VValue]. change (0 <? Z.land 2 BitValuePointer) with true. cbn match.
      exists (mkVP (EI_ExtentID i) (EI_Offset i) 0), blk, (new_log k v t 0). cbn [vp_extentID vp_offset vp_len].
      split; [done|]. split; [done|]. split; [done|]. split; [unfold is_u32; lia|]. split; [done|]. split; [exact Hx|done].
    + apply small_estimate; rewrite Hlog'; unfold pointer_entry, new_log; cbn [Key Value ExpiresAt]; [rewrite zlen_KeyWithTs; lia|done|done].
Qed.

(** the versions rise, none by more than one above the sequence number, which
    the replay raises from [s] to [s'] *)
Fixpoint chain (log : LogSt) (n s : Z) (ops : list (bytes * option bytes)) (L : list EntryInfo) (n' s' : Z) : Prop :=
  match ops, L with
  | [], [] => n' = n /\ s' = s
  | (k, ov) :: ops, i :: L => exists t, entry_ok log i k t ov /\ n < t <= s + 1 /\ chain log t (Z.max s t) ops L n' s'
  | _, _ => False
  end.
Lemma chain_mono log log' ops : (forall e o b, sc_stored log e o b -> sc_stored log' e o b) -> forall n s L n' s', chain log n s ops L n' s' -> chain log' n s ops L n' s'.
Proof.
  intros Hm. induction ops as [|[k ov] ops IH]; intros n s [|i L] n' s' Hc; try done. destruct Hc as (t & He & Ht & Hc).
  exists t. split; [by eapply entry_ok_mono|]. split; [done|]. by apply IH.
Qed.
Lemma chain_snoc log ops : forall n s L n' s' i k t ov, chain log n s ops L n' s' -> entry_ok log i k t ov -> n' < t <= s' + 1 ->
  chain log n s (ops ++ [(k, ov)]) (L ++ [i]) t (Z.max s' t).
Proof.
  induction ops as [|[k' ov'] ops IH]; intros n s [|i' L] n' s' i k t ov Hc He Ht; try done.
  - destruct Hc as [-> ->]. exists t. done.
  - destruct Hc as (t' & He' & Ht' & Hc). exists t'. split; [done|]. split; [done|]. by eapply IH.
Qed.
Lemma chain_bound log ops : forall n s L n' s', chain log n s ops L n' s' -> n <= s -> n <= n' <= s' /\ s <= s'.
Proof.
  induction ops as [|[k ov] ops IH]; intros n s [|i L] n' s' Hc Hn; try done; [destruct Hc; lia|]. destruct Hc as (t & _ & Ht & Hc). apply IH in Hc; lia.
Qed.
Lemma chain_length log ops : forall n s L n' s', chain log n s ops L n' s' -> length L = length ops.
Proof. induction ops as [|[k ov] ops IH]; intros n s [|i L] n' s' Hc; try done. destruct Hc as (t & _ & _ & Hc). cbn. by erewrite IH. Qed.

(** ** Replaying them *)

Lemma make_room_fits tries (rp : RP) entries head : (0 < tries)%nat -> logRotates rp = 0 -> 0 <= MemSize (m_sl (rp_mt rp)) ->
  MemSize (m_sl (rp_mt rp)) + est_size entries < maxSkipList -> make_room fp sched tries rp entries head = Ok rp.
Proof.
  intros Ht Hr Hm Hs. destruct tries as [|tries]; [lia|]. cbn [make_room]. unfold ensureRoomForWrite. fold (est_size entries).
  destruct (Z.leb_spec (est_size entries) maxSkipList); [|lia]. cbn [assert]. rewrite Hr. destruct (Z.ltb_spec (MemSize (m_sl (rp_mt rp)) + est_size entries) maxSkipList); [done|lia].
Qed.
Lemma rp_inv_mem b (rp : RP) h mems tabs : rp_inv fp b rp h mems tabs -> 107 <= MemSize (m_sl (rp_mt rp)).
Proof.
  intros Hi. pose proof (ri_mems _ _ _ _ _ _ Hi) as Hm. apply Forall2_cons_inv_l in Hm as (M & ms & HM & _). pose proof (mo_bytes _ _ HM).
  pose proof (proj2 (kv_bytes_weight M)). pose proof (zlen_nonneg M). lia.
Qed.

(** what a replay leaves alone *)
Definition same_disk (rp rp' : RP) : Prop :=
  logStream rp' = logStream rp /\ rowStream rp' = rowStream rp /\ rp_tables rp' = rp_tables rp /\ logRotates rp' = logRotates rp.

Lemma replay_entry_ok b tries (rp : RP) h M tabs n i k t ov : rp_inv fp (2 + b) rp h [M] tabs -> Forall (fun p => user_version n (fst p)) (store [M] tabs) -> 0 <= n ->
  entry_ok (logStream rp) i k t ov -> n < t <= seqNumber rp + 1 -> logRotates rp = 0 -> (0 < tries)%nat ->
  MemSize (m_sl (rp_mt rp)) + estimatedSizeInSkl (Log i) < maxSkipList ->
  exists rp' M', replay_entry fp rnd sched tries rp i = Ok (rp', inl true) /\ rp_inv fp b rp' ((k, ov) :: h) [M'] tabs /\
    Forall (fun p => user_version t (fst p)) (store [M'] tabs) /\ seqNumber rp' = Z.max (seqNumber rp) t /\ same_disk rp rp' /\
    MemSize (m_sl (rp_mt rp')) <= MemSize (m_sl (rp_mt rp)) + estimatedSizeInSkl (Log i).
Proof.
  intros Hi Hold Hn [Hk Hput Hkey Hval Hplace _] Ht Hrot Htr Hroom. unfold replay_entry. rewrite Hkey. pose proof (ri_seq _ _ _ _ _ _ Hi) as Hseq.
  destruct (parse_KeyWithTs k t ltac:(unfold MaxUint64 in *; lia)) as (_ & -> & _). rewrite decide_False by done. cbn [obind].
  set (rp1 := if seqNumber rp <? t then with_seq rp (u64 (seqNumber rp + 1)) else rp).
  assert (rp_inv fp (1 + b) rp1 h [M] tabs /\ seqNumber rp1 = Z.max (seqNumber rp) t /\ rp_mt rp1 = rp_mt rp /\ same_disk rp rp1) as (Hi1 & Hs1 & Hm1 & Hd1).
  { unfold rp1. destruct (Z.ltb_spec (seqNumber rp) t) as [Hlt|Hge].
    - rewrite u64_small by (unfold MaxUint64 in *; lia). split; [apply rp_inv_seq; [lia|lia|eapply rp_inv_le; [|exact Hi]; lia]|].
      cbn [with_seq seqNumber rp_mt]. split; [lia|]. split; [done|]. by repeat split.
    - split; [eapply rp_inv_le; [|exact Hi]; lia|]. split; [lia|]. split; [done|]. by repeat split. }
  pose proof Hd1 as (El & Er & Et & Ero). pose proof (rp_inv_mem _ _ _ _ _ Hi) as Hmem.
  rewrite (make_room_fits tries rp1 [i]) by (done || (rewrite ?Hm1, ?Ero; unfold est_size; cbn [foldr]; lia) || congruence). cbn [obind].
  destruct (put_step fp rnd b rp1 h [M] tabs n i k t ov) as (s' & mems' & Hp & Hi' & Hms & Hperm & Hhd & Htl); try done; [lia|by rewrite El|rewrite Hm1; lia|].
  unfold writeToLSM. cbn [put_entries]. rewrite Hp. cbn [obind]. pose proof (ri_mems _ _ _ _ _ _ Hi') as Hmm. destruct mems' as [|M' [|]]; [by apply Forall2_nil_inv_r in Hmm| |done].
  exists (with_sl rp1 s'), M'. split; [done|]. split; [done|]. split.
  - rewrite Hperm. constructor; [exists k, t; split; [done|]; split; [done|lia]|]. eapply Forall_impl; [exact Hold|]. intros p. apply user_version_le. lia.
  - split; [done|]. split; [done|]. cbn [with_sl rp_mt m_sl]. by rewrite <- Hm1.
Qed.
Lemma same_disk_trans rp1 rp2 rp3 : same_disk rp1 rp2 -> same_disk rp2 rp3 -> same_disk rp1 rp3.
Proof. unfold same_disk. intros (-> & -> & -> & ->). done. Qed.
Lemma replay_chain_ok tries : (0 < tries)%nat -> forall ops b (rp : RP) h M tabs n s L n' s', rp_inv fp (2 * length ops + b) rp h [M] tabs ->
  Forall (fun p => user_version n (fst p)) (store [M] tabs) -> 0 <= n -> s <= seqNumber rp -> chain (logStream rp) n s ops L n' s' -> logRotates rp = 0 ->
  MemSize (m_sl (rp_mt rp)) + est_size L < maxSkipList ->
  exists rp' M', replay_all (replay_entry fp rnd sched tries) rp L = Ok (rp', None) /\ rp_inv fp b rp' (rev ops ++ h) [M'] tabs /\ s' <= seqNumber rp' /\ same_disk rp rp'.
Proof.
  intros Htr. induction ops as [|[k ov] ops IH]; intros b rp h M tabs n s [|i L] n' s' Hi Hold Hn Hs Hc Hrot Hroom; try done.
  { destruct Hc as [_ ->]. exists rp, M. split; [done|]. split; [done|]. split; [done|]. by repeat split. }
  destruct Hc as (t & He & Ht & Hc). rewrite est_size_cons in Hroom.
  assert (0 <= est_size L) as Hpos.
  { clear -Hc. revert L Hc. generalize (Z.max s t). generalize t. clear t s. induction ops as [|[k ov] ops IH]; intros t s [|i L] Hc; try done. destruct Hc as (t' & He & _ & Hc).
    rewrite est_size_cons. pose proof (IH _ _ _ Hc). pose proof (est_size_nonneg [i] ltac:(constructor; [apply He|done])) as Hz. unfold est_size in Hz. cbn [foldr] in Hz. lia. }
  destruct (replay_entry_ok (2 * length ops + b) tries rp h M tabs n i k t ov) as (rp1 & M1 & E1 & Hi1 & Hold1 & Hs1 & Hd1 & Hm1); try done.
  { eapply rp_inv_le; [|exact Hi]. cbn [length]. lia. }
  { lia. }
  { lia. }
  cbn [replay_all]. rewrite E1. cbn [obind]. pose proof Hd1 as (El & _ & _ & Ero).
  destruct (IH b rp1 ((k, ov) :: h) M1 tabs t (Z.max s t) L n' s') as (rp2 & M2 & E2 & Hi2 & Hs2 & Hd2); try done; [lia|lia|by rewrite El|congruence|lia|].
  exists rp2, M2. split; [done|]. split; [cbn [rev]; by rewrite <- app_assoc|]. split; [done|by eapply same_disk_trans].
Qed.

(** ** What the log has of a running partition *)

(** where the replay will start once the flusher is done, and the sequence
    number it will start with *)
Definition head_pos (rp : RP) : Z * Z :=
  match last (flushChan rp) with Some ft => (vp_extentID (ft_vptr ft), vp_offset (ft_vptr ft)) | None => replay_from (rp_tables rp) end.
Definition head_seq (rp : RP) : Z := match last (flushChan rp) with Some ft => ft_seqNum ft | None => max_seq (rp_tables rp) end.

(** the memtables that wait are not empty and have rising sequence numbers *)
Record queue_ok (rp : RP) (mems : list (list kv)) : Prop := mk_queue_ok {
  qo_rot : logRotates rp = 0;
  qo_rest : Forall (fun M => M <> []) (List.tl mems);
  qo_empty : hd_error mems = Some [] -> MemSize (m_sl (rp_mt rp)) = 107;
  qo_sorted : StronglySorted (fun a b => ft_seqNum a < ft_seqNum b) (flushChan rp);
  qo_after : Forall (fun t => Forall (fun ft => LastSeq t < ft_seqNum ft) (flushChan rp)) (rp_tables rp) }.

(** [hT] is in tables or on the way there, [hL] in the log since *)
Definition resumes (rp : RP) (h : list (bytes * option bytes)) (mems tabs : list (list kv)) : Prop :=
  exists hL hT L n n', h = rev hL ++ hT /\ chain (logStream rp) n (head_seq rp) hL L n' (seqNumber rp) /\
    lr_since (logStream rp) (fst (head_pos rp)) (snd (head_pos rp)) L /\ 0 <= n <= head_seq rp /\
    Forall (fun p => user_version n (fst p)) (store (List.tl mems) tabs) /\
    (forall uk, uk <> [] -> agrees (logStream rp) hT (store (List.tl mems) tabs) uk) /\
    (length (store (List.tl mems) tabs) <= length hT)%nat.

Lemma store_tail M ms tabs : store (M :: ms) tabs = M ++ store ms tabs.
Proof. unfold store. change (mjoin (M :: ms)) with (M ++ mjoin ms). by rewrite app_assoc. Qed.

(** a round of the flusher *)
Lemma flush_queue b (rp : RP) h mems tabs : rp_inv fp b rp h mems tabs -> queue_ok rp mems ->
  exists rp' mems' tabs', flushMemtable fp sched rp = Ok rp' /\ rp_inv fp b rp' h mems' tabs' /\ queue_ok rp' mems' /\ flushed rp rp' /\
    hd_error mems' = hd_error mems /\ Permutation (store (List.tl mems) tabs) (store (List.tl mems') tabs') /\
    head_pos rp' = head_pos rp /\ head_seq rp' = head_seq rp.
Proof using bloom_small BloomL RowL.
  intros Hi Hq. destruct (flushChan rp) as [|ft rest] eqn:Hch.
  { exists rp, mems, tabs. unfold flushMemtable. rewrite Hch. split; [done|]. split; [done|]. split; [done|]. split; [|by repeat split]. unfold flushed. by rewrite Hch. }
  destruct (flushMemtable_ok fp sched bloom_small b rp h mems tabs Hi) as (rp' & mems' & tabs' & E & Hi' & Hfl & Hp & Hh & Hg).
  exists rp', mems', tabs'. split; [done|]. split; [done|]. pose proof Hfl as (El & Em & Es & Ev & Er & _).
  unfold tables_grow in Hg. rewrite Hch in Hg. destruct Hg as (Hch' & K & -> & Hg).
  pose proof (ri_mems _ _ _ _ _ _ Hi') as Hm'. apply Forall2_cons_inv_l in Hm' as (M & ms & _ & _ & ->). cbn [app List.tl hd_error] in *.
  destruct Hq as [Hrot Hrest Hempty Hsort Haft]. cbn [app List.tl hd_error] in *. apply Forall_app in Hrest as [Hrest HK]. apply Forall_cons in HK as [HK _].
  destruct Hg as [[EK _]|(t & Ht & Hs & Hx & Ho)]; [by destruct (HK EK)|]. rewrite Hch in Hsort, Haft. apply StronglySorted_inv in Hsort as [Hsort Hlt].
  assert (Forall (fun t => LastSeq t <= ft_seqNum ft - 1) (rp_tables rp)) as Hbelow.
  { eapply Forall_impl; [exact Haft|]. intros t0 Ht0. apply Forall_cons in Ht0 as [Ht0 _]. lia. }
  assert (last_table (rp_tables rp') 0 None = (LastSeq t, Some t)) as Hlast.
  { rewrite Ht. destruct (rp_tables rp) as [|t0 tb] eqn:Etb.
    - cbn. destruct (Z.ltb_spec 0 (LastSeq t)); [done|]. pose proof (ri_last _ _ _ _ _ _ Hi) as [_ Hl]. rewrite Hch in Hl. apply Forall_cons in Hl as [Hl _]. lia.
    - apply (last_table_snoc (t0 :: tb) t (ft_seqNum ft - 1)); [done|lia|]. pose proof (ri_last _ _ _ _ _ _ Hi) as [_ Hl]. rewrite Hch in Hl. apply Forall_cons in Hl as [Hl _]. lia. }
  split; [|split; [done|split; [done|split]]].
  - split; cbn [List.tl hd_error]; [congruence|exact Hrest|rewrite Em; exact Hempty|rewrite Hch'; exact Hsort|]. rewrite Ht, Hch'. apply Forall_app. split; [|constructor; [by rewrite Hs|constructor]].
    eapply Forall_impl; [exact Haft|]. intros t0 Ht0. by apply Forall_cons in Ht0 as [].
  - rewrite !store_tail in Hp. by apply Permutation_app_inv_l in Hp.
  - unfold head_pos, head_seq, replay_from, max_seq. rewrite Hch', Hch, Hlast. cbn [fst snd]. destruct rest as [|ft' rest]; [cbn [last]; by rewrite Hs, Hx, Ho|].
    rewrite last_cons_cons. destruct (last (ft' :: rest)) eqn:El2; [done|by apply last_None in El2].
Qed.

Lemma flush_resumes b (rp : RP) h mems tabs : rp_inv fp b rp h mems tabs -> queue_ok rp mems -> resumes rp h mems tabs -> settled rp mems ->
  exists rp' mems' tabs', flushMemtable fp sched rp = Ok rp' /\ rp_inv fp b rp' h mems' tabs' /\ queue_ok rp' mems' /\ resumes rp' h mems' tabs' /\ settled rp' mems' /\
    length (flushChan rp') = pred (length (flushChan rp)).
Proof using bloom_small BloomL RowL.
  intros Hi Hq Hr Hset. destruct (flushChan rp) as [|ft rest] eqn:Hch.
  { exists rp, mems, tabs. unfold flushMemtable. rewrite Hch. by repeat (split; [done|]). }
  destruct (flush_queue b rp h mems tabs Hi Hq) as (rp' & mems' & tabs' & E & Hi' & Hq' & (El & Em & Es & Ev & _ & Hlen) & Hh & Hp & Epos & Eseq).
  exists rp', mems', tabs'. rewrite Hch in Hlen. split; [done|]. split; [done|]. split; [done|]. split; [|split; [|done]].
  - destruct Hr as (hL & hT & L & n & n' & -> & Hc & Hl & Hn & Hv & Ha & Hz). exists hL, hT, L, n, n'. rewrite El, Es, Epos, Eseq. do 4 (split; [done|]). split; [by rewrite <- Hp|].
    split; [|by rewrite <- (Permutation_length Hp)]. intros uk Huk. eapply agrees_perm; [exact Hp|by apply Ha].
  - assert (hd_error mems <> Some []) as Hhd.
    { destruct mems as [|[|kv M] ms]; [done| |done]. destruct Hset as [-> _]. pose proof (ri_mems _ _ _ _ _ _ Hi) as Hmem. apply Forall2_length in Hmem. cbn [length] in Hmem.
      rewrite <- (ri_chan _ _ _ _ _ _ Hi), length_reverse, length_fmap, Hch in Hmem. done. }
    apply written_settled; [by rewrite Hh|]. rewrite El, Ev. destruct mems as [|[|kv M] ms]; [done|done|exact Hset].
Qed.
Lemma drain_resumes b h : forall m (rp : RP) mems tabs, rp_inv fp b rp h mems tabs -> queue_ok rp mems -> resumes rp h mems tabs -> settled rp mems -> (length (flushChan rp) <= m)%nat ->
  exists rp' mems' tabs', drain_flusher fp sched m rp = Ok rp' /\ rp_inv fp b rp' h mems' tabs' /\ queue_ok rp' mems' /\ resumes rp' h mems' tabs' /\ flushChan rp' = [].
Proof using bloom_small BloomL RowL.
  induction m as [|m IH]; intros rp mems tabs Hi Hq Hr Hset Hlen; cbn [drain_flusher].
  { exists rp, mems, tabs. repeat (split; [done|]). destruct (flushChan rp); [done|]. cbn in Hlen. lia. }
  destruct (flush_resumes b rp h mems tabs Hi Hq Hr Hset) as (rp1 & mems1 & tabs1 & -> & Hi1 & Hq1 & Hr1 & Hset1 & Hlen1). cbn [obind].
  apply (IH rp1 mems1 tabs1); try done. lia.
Qed.

(** a full memtable is replaced *)
Lemma swapped_queue b (rp : RP) h mems tabs head s : rp_inv fp b rp h mems tabs -> queue_ok rp mems -> hd_error mems <> Some [] -> MemSize s = 107 ->
  queue_ok (swapped rp head s) ([] :: mems) /\ head_pos (swapped rp head s) = (vp_extentID head, vp_offset head) /\ head_seq (swapped rp head s) = seqNumber rp + 1.
Proof.
  intros Hi [Hrot Hrest Hempty Hsort Haft] Hhd Hs. pose proof (ri_last _ _ _ _ _ _ Hi) as [Hl1 Hl2]. split; [|unfold head_pos, head_seq; cbn [swapped flushChan]; by rewrite last_snoc].
  split; cbn [swapped logRotates rp_mt m_sl flushChan rp_tables List.tl hd_error]; [done| |done| |].
  - destruct mems as [|M ms]; [constructor|]. constructor; [by intros ->|done].
  - clear -Hsort Hl2. induction Hsort as [|ft fts _ IH Hf]; cbn [app]; [repeat constructor|]. apply Forall_cons in Hl2 as [Hl Hl2]. constructor; [by apply IH|].
    apply Forall_app. split; [done|]. constructor; [cbn [ft_seqNum]; lia|constructor].
  - rewrite Forall_forall in *. intros t Ht. specialize (Haft t Ht). specialize (Hl1 t Ht). apply Forall_app. split; [done|]. constructor; [cbn [ft_seqNum]; lia|constructor].
Qed.
Lemma ensureRoom_full (rp : RP) entries head : logRotates rp = 0 -> est_size entries <= maxSkipList -> maxSkipList <= MemSize (m_sl (rp_mt rp)) + est_size entries ->
  0 <= seqNumber rp -> seqNumber rp + 1 <= MaxUint64 -> exists s, mem_ok (mkMem (nextPtr rp) s) [] /\ MemSize s = 107 /\
    ensureRoomForWrite rp entries head = Ok (if (length (flushChan rp) <? flushCapacity)%nat then (swapped rp head s, true) else (with_seq rp (seqNumber rp + 1), false)).
Proof.
  intros Hr He Hf H0' Hs. destruct (new_mem_ok (nextPtr rp)) as (s & E & Hm & Hz). exists s. split; [done|]. split; [done|]. unfold ensureRoomForWrite. fold (est_size entries).
  destruct (Z.leb_spec (est_size entries) maxSkipList); [|lia]. cbn [assert]. rewrite Hr. destruct (Z.ltb_spec (MemSize (m_sl (rp_mt rp)) + est_size entries) maxSkipList); [lia|].
  cbn [negb Z.leb andb]. rewrite andb_false_r. rewrite u64_small by (unfold MaxUint64 in *; lia). destruct (length (flushChan rp) <? flushCapacity)%nat; [|done]. by rewrite E.
Qed.
Lemma make_room_cases b tries (rp : RP) h mems tabs entries head : rp_inv fp (2 + b) rp h mems tabs -> queue_ok rp mems -> (2 <= tries)%nat ->
  0 <= est_size entries -> 107 + est_size entries < maxSkipList ->
  exists rp', make_room fp sched tries rp entries head = Ok rp' /\ MemSize (m_sl (rp_mt rp')) + est_size entries <= maxSkipList /\
    (rp' = rp \/ maxSkipList <= MemSize (m_sl (rp_mt rp)) + est_size entries /\ hd_error mems <> Some [] /\ exists rp1 mems1 tabs1 s, rp_inv fp (1 + b) rp1 h mems1 tabs1 /\ queue_ok rp1 mems1 /\ hd_error mems1 <> Some [] /\
      Permutation (store mems tabs) (store mems1 tabs1) /\ same_front rp rp1 /\ (length (flushChan rp1) < flushCapacity)%nat /\
      mem_ok (mkMem (nextPtr rp1) s) [] /\ MemSize s = 107 /\ rp' = swapped rp1 head s).
Proof using bloom_small BloomL RowL.
  intros Hi Hq Ht Hpos Hest. pose proof (rp_inv_mem _ _ _ _ _ Hi) as Hmem. pose proof (ri_seq _ _ _ _ _ _ Hi) as Hseq.
  destruct (Z.lt_ge_cases (MemSize (m_sl (rp_mt rp)) + est_size entries) maxSkipList) as [Hfit|Hfull].
  { exists rp. split; [apply make_room_fits; [lia|apply Hq|lia|done]|]. split; [lia|by left]. }
  assert (hd_error mems <> Some []) as Hhd by (intros E; pose proof (qo_empty _ _ Hq E); lia).
  destruct tries as [|[|tries]]; [lia|lia|]. cbn [make_room].
  destruct (ensureRoom_full rp entries head (qo_rot _ _ Hq) ltac:(lia) Hfull ltac:(lia) ltac:(lia)) as (s & Hs & Hz & ->). cbn [obind].
  destruct (Nat.ltb_spec (length (flushChan rp)) flushCapacity) as [Hch|Hch].
  { exists (swapped rp head s). cbn [swapped rp_mt m_sl]. split; [done|]. split; [lia|]. right. split; [done|]. split; [done|]. exists rp, mems, tabs, s.
    split; [eapply rp_inv_le; [|exact Hi]; lia|]. do 3 (split; [done|]). split; [by repeat split|]. done. }
  assert (rp_inv fp (1 + b) (with_seq rp (seqNumber rp + 1)) h mems tabs) as Hi1 by (apply rp_inv_seq; [lia|lia|eapply rp_inv_le; [|exact Hi]; lia]).
  assert (queue_ok (with_seq rp (seqNumber rp + 1)) mems) as Hq1 by (by destruct Hq).
  destruct (flush_queue (1 + b) _ h mems tabs Hi1 Hq1) as (rp1 & mems1 & tabs1 & -> & Hi2 & Hq2 & (El & Em & Es & Ev & _ & Hlen) & Hh & Hp & _). cbn [obind].
  cbn [with_seq flushChan seqNumber rp_mt logStream vhead] in *. pose proof (ri_full _ _ _ _ _ _ Hi) as Hle. unfold flushCapacity in *.
  destruct (ensureRoom_full rp1 entries head (qo_rot _ _ Hq2) ltac:(lia) ltac:(rewrite Em; lia) ltac:(lia) ltac:(pose proof (ri_seq _ _ _ _ _ _ Hi2); lia)) as (s1 & Hs1 & Hz1 & ->). cbn [obind].
  destruct (Nat.ltb_spec (length (flushChan rp1)) flushCapacity) as [_|Hge]; [|unfold flushCapacity in Hge; lia]. exists (swapped rp1 head s1). cbn [swapped rp_mt m_sl]. split; [done|]. split; [lia|].
  right. split; [done|]. split; [done|]. exists rp1, mems1, tabs1, s1. split; [done|]. split; [done|]. split; [by rewrite Hh|]. split.
  - pose proof (ri_mems _ _ _ _ _ _ Hi) as H1'. pose proof (ri_mems _ _ _ _ _ _ Hi2) as H2'. apply Forall2_cons_inv_l in H1' as (M & ms & _ & _ & ->). apply Forall2_cons_inv_l in H2' as (M1 & ms1 & _ & _ & ->).
    cbn in Hh. injection Hh as ->. rewrite !store_tail. by apply Permutation_app_head.
  - split; [split; [done|split; [done|lia]]|]. split; [lia|]. done.
Qed.

(** ** A write of its own *)

Lemma agrees_mono (log log' : LogSt) h st uk : (forall e o b, sc_stored log e o b -> sc_stored log' e o b) -> agrees log h st uk -> agrees log' h st uk.
Proof.
  intros Hm. rewrite !agrees_cases. intros [|(ov & t & vs & E & Hn & Hs)]; [by left|right]. exists ov, t, vs. split; [done|]. split; [done|by eapply stands_mono].
Qed.
Lemma written_queue (rp : RP) mems mems' s vp : queue_ok rp mems -> List.tl mems' = List.tl mems -> hd_error mems' <> Some [] -> queue_ok (with_vhead (with_sl rp s) vp) mems'.
Proof. intros [H1' H2' H3' H4' H5'] Et Hh. split; cbn [with_vhead with_sl logRotates flushChan rp_tables]; [done|by rewrite Et|done|done|done]. Qed.

(** The log takes an entry: what the replay will give. *)
Section Append.
Variables (m : nat) (log log' : LogSt) (k v : bytes) (t meta : Z) (ov : option bytes) (es : list EntryInfo) (e o : Z).
Hypothesis log_ok : sc_inv (1 + m) log.
Hypothesis log_ok' : sc_inv m log'.
Hypothesis kv_ok : client_kv k v.
Hypothesis op_ok : meta = 0 /\ ov = Some v \/ meta = BitDelete /\ v = [] /\ ov = None.
Hypothesis room_ok : room_for [new_log k v t meta] < 2 ^ 31.
Hypothesis append_ok : ls_AppendEntries log [mkEI (new_log k v t meta) 0 0 0] = Ok (log', inl (es, e, o)).
Hypothesis keeps : forall e o b, sc_stored log e o b -> sc_stored log' e o b.

Lemma append_one e0 o0 L : lr_since log e0 o0 L -> exists i, entry_ok log' i k t ov /\ lr_since log' e0 o0 (L ++ [i]).
Proof using fp sched LogR log_ok log_ok' kv_ok op_ok room_ok append_ok.
  intros Hs. assert (packable (new_log k v t meta)) as Hp by (apply new_log_packable; [done|tauto]).
  destruct (lr_append m log e0 o0 L [mkEI (new_log k v t meta) 0 0 0] log' es e o log_ok Hs ltac:(done) ltac:(by constructor) room_ok append_ok) as (perm & R & Hperm & _ & HR & Hs').
  apply Permutation_length_1_inv in Hperm as ->. apply Forall2_cons_inv_l in HR as (i & R' & Hi & HR & ->). apply Forall2_nil_inv_l in HR as ->. exists i. split; [|done]. by eapply replayed_ok.
Qed.

(** the memtable has room *)
Lemma resumes_extend (rp rp' : RP) h mems mems' tabs : logStream rp = log -> t = seqNumber rp + 1 -> resumes rp h mems tabs -> List.tl mems' = List.tl mems -> logStream rp' = log' ->
  seqNumber rp' = seqNumber rp + 1 -> flushChan rp' = flushChan rp -> rp_tables rp' = rp_tables rp -> resumes rp' ((k, ov) :: h) mems' tabs.
Proof using fp sched LogR log_ok log_ok' kv_ok op_ok room_ok append_ok keeps.
  intros El Et (hL & hT & L & nT & n' & -> & Hc & Hsince & Hn & Hv & Ha & Hz) Etl El' Es Ech Etb. rewrite El in *. destruct (append_one _ _ _ Hsince) as (i & Hri & Hsince').
  assert (head_pos rp' = head_pos rp /\ head_seq rp' = head_seq rp) as [Ep Eq] by (unfold head_pos, head_seq; by rewrite Ech, Etb).
  pose proof (chain_bound _ _ _ _ _ _ _ Hc ltac:(lia)) as Hb.
  exists (hL ++ [(k, ov)]), hT, (L ++ [i]), nT, t. rewrite El', Es, Ep, Eq, Etl. split; [by rewrite rev_app_distr|]. split; [|split; [done|split; [done|split; [done|split; [|done]]]]].
  - replace (seqNumber rp + 1) with (Z.max (seqNumber rp) t) by lia. apply (chain_snoc _ _ _ _ _ n'); [by eapply chain_mono|done|lia].
  - intros uk Huk. eapply agrees_mono; [exact keeps|by apply Ha].
Qed.
(** it was replaced by a new one, and waits with what came before *)
Lemma resumes_rotate b (rp rp' : RP) h mems mems' tabs vp : rp_inv fp b rp h mems tabs -> ls_tail log (vp_extentID vp) (vp_offset vp) -> 1 <= t <= seqNumber rp ->
  Forall (fun p => user_version (t - 1) (fst p)) (store mems tabs) -> List.tl mems' = mems -> logStream rp = log' -> logStream rp' = log' -> seqNumber rp' = seqNumber rp + 1 ->
  head_pos rp' = (vp_extentID vp, vp_offset vp) -> head_seq rp' = seqNumber rp + 1 -> resumes rp' ((k, ov) :: h) mems' tabs.
Proof using fp sched LogR log_ok log_ok' kv_ok op_ok room_ok append_ok.
  intros Hi Htl Ht Hv Etl El El' Es Ep Eq. destruct (append_one _ _ _ (lr_tail _ _ _ _ log_ok Htl)) as (i & Hri & Hsince).
  exists [(k, ov)], h, [i], (t - 1), t. rewrite El', Es, Ep, Eq, Etl. split; [done|]. split; [|split; [done|split; [lia|split; [done|split; [|apply Hi]]]]].
  - cbn [chain]. exists t. split; [done|]. split; [lia|]. split; [done|]. lia.
  - intros uk Huk. rewrite <- El. by apply Hi.
Qed.
End Append.

Lemma write_one_ok b tries (rp : RP) h mems tabs k v meta ov : rp_inv fp (5 + b) rp h mems tabs -> queue_ok rp mems -> resumes rp h mems tabs -> settled rp mems ->
  (2 <= tries)%nat -> client_kv k v -> meta = 0 /\ ov = Some v \/ meta = BitDelete /\ v = [] /\ ov = None ->
  room_for [new_log k v 0 meta] < 2 ^ 31 ->
  exists rp' mems' tabs', writeRequests fp rnd sched tries (with_seq rp (seqNumber rp + 1)) [[mkEI (new_log k v (seqNumber rp + 1) meta) 0 0 0]] = Ok (rp', None) /\
    rp_inv fp b rp' ((k, ov) :: h) mems' tabs' /\ queue_ok rp' mems' /\ resumes rp' ((k, ov) :: h) mems' tabs' /\ settled rp' mems' /\
    (MemSize (m_sl (rp_mt rp)) + 3300 < maxSkipList -> flushChan rp' = flushChan rp /\ rp_tables rp' = rp_tables rp /\ MemSize (m_sl (rp_mt rp')) <= MemSize (m_sl (rp_mt rp)) + 3300) /\
    (forall e o z, lr_here (logStream rp) e o -> lr_room (logStream rp) z -> room_for [new_log k v 0 meta] <= z < 2 ^ 31 -> lr_here (logStream rp') e o /\ lr_room (logStream rp') (z - room_for [new_log k v 0 meta])).
Proof using bloom_small BloomL RowL LogR.
  intros Hi Hq Hr Hset Ht Hkv Hm Hroom. set (n := seqNumber rp) in *. set (a := mkEI (new_log k v (n + 1) meta) 0 0 0). pose proof (ri_seq _ _ _ _ _ _ Hi) as Hseq. fold n in Hseq.
  assert (packable (Log a)) as Hpk by (apply new_log_packable; [done|tauto]).
  assert (room_for [Log a] = room_for [new_log k v 0 meta]) as Hra by (unfold a; cbn [Log]; unfold room_for; cbn [foldr]; by rewrite new_log_size).
  assert (room_for [Log a] < 2 ^ 31) as Hroom' by (by rewrite Hra).
  assert (sc_inv (1 + (3 + b)) (logStream rp)) as Hlog by (eapply sc_inv_le; [apply Hi|lia]).
  destruct (ls_append_ok (3 + b) (logStream rp) [a] Hlog ltac:(done) ltac:(by constructor) Hroom') as (log & es & e & o & Ea & Hlog' & Hu1 & Hu2 & Hl & Htail & Hmono).
  apply Forall2_cons_inv_l in Hl as (e1 & es' & He1 & Hnil & ->). apply Forall2_nil_inv_l in Hnil as ->.
  assert (putable e1) as Hput by (exact (logged_putable log k v (n + 1) meta e1 0 0 0 Hkv ltac:(tauto) He1)).
  assert (stands log (lsm_value e1) ov) as Hst by (destruct Hm as [[-> ->]|(-> & -> & ->)]; [by eapply logged_stands|by eapply tombstone_stands]).
  assert (Log e1 = new_log k v (n + 1) meta) as Hle by apply He1.
  assert (estimatedSizeInSkl (Log e1) <= 3300) as Hest.
  { destruct Hkv as (_ & Hlk & _). pose proof (zlen_nonneg k). apply small_estimate; rewrite Hle; unfold new_log; cbn [Key ExpiresAt Value]; [rewrite zlen_KeyWithTs; lia| |done].
    unfold ShouldWriteValueToLSM. cbn [Meta Value]. intros [_ E]%andb_true_iff. by apply Z.leb_le in E. }
  unfold writeRequests. change (mjoin [[a]]) with [a]. cbn [with_seq logStream]. rewrite Ea. cbn [obind].
  set (rp1 := with_log (with_seq rp (n + 1)) log).
  assert (rp_inv fp (1 + (2 + b)) rp1 h mems tabs) as Hi1.
  { apply rp_inv_log; [|done|done]. apply rp_inv_seq; [fold n; lia|lia|]. eapply rp_inv_le; [|exact Hi]. lia. }
  assert (queue_ok rp1 mems) as Hq1 by (by destruct Hq).
  assert (est_size [e1] = estimatedSizeInSkl (Log e1)) as Hes by (unfold est_size; cbn [foldr]; lia). assert (maxSkipList = 1048576) as Hmx by done.
  pose proof (est_size_nonneg [e1] ltac:(by constructor)) as Hpos.
  destruct (make_room_cases (1 + b) tries rp1 h mems tabs [e1] (vhead rp1)) as (rp2 & -> & Hfit & Hcase); [eapply rp_inv_le; [|exact Hi1]; lia|done|done|lia|lia|]. cbn [obind].
  assert (MemSize (m_sl (rp_mt rp)) + 3300 < maxSkipList -> rp2 = rp1) as Hstay by (intros Hlt; destruct Hcase as [|[Hge _]]; [done|]; change (rp_mt rp1) with (rp_mt rp) in Hge; lia).
  pose proof (ri_versions _ _ _ _ _ _ Hi) as Hver. fold n in Hver.
  assert (exists mems2 tabs2, rp_inv fp (1 + b) rp2 h mems2 tabs2 /\ queue_ok rp2 mems2 /\ logStream rp2 = log /\ n + 1 <= seqNumber rp2 /\ Permutation (store mems tabs) (store mems2 tabs2) /\
    forall rp3 mems3, List.tl mems3 = List.tl mems2 -> logStream rp3 = log -> seqNumber rp3 = seqNumber rp2 -> flushChan rp3 = flushChan rp2 -> rp_tables rp3 = rp_tables rp2 -> resumes rp3 ((k, ov) :: h) mems3 tabs2) as (mems2 & tabs2 & Hi2 & Hq2 & El2 & Hs2 & Hp2 & Hres).
  { destruct Hcase as [->|(_ & Hhd & rp0 & mems0 & tabs0 & s & Hi0 & Hq0 & Hhd0 & Hp0 & (El0 & Ev0 & Hs0) & Hch0 & Hmo & Hms & ->)].
    - exists mems, tabs. split; [eapply rp_inv_le; [|exact Hi1]; lia|]. do 2 (split; [done|]). split; [reflexivity|]. split; [done|]. intros rp3 mems3 Etl El3 Es3 Ec3 Et3.
      by apply (resumes_extend (3 + b) (logStream rp) log k v (n + 1) meta ov _ e o Hlog Hlog' Hkv Hm Hroom' Ea Hmono rp rp3 h mems mems3 tabs).
    - exists ([] :: mems0), tabs0. change (vhead rp1) with (vhead rp) in *. change (logStream rp1) with log in El0. change (seqNumber rp1) with (n + 1) in Hs0.
      destruct (swapped_queue _ rp0 h mems0 tabs0 (vhead rp) s Hi0 Hq0 Hhd0 Hms) as (Hq0' & Ep & Eq). split; [apply swapped_ok; try done; apply Hi|]. split; [done|].
      split; [done|]. split; [cbn [swapped seqNumber]; lia|]. split; [done|]. intros rp3 mems3 Etl El3 Es3 Ec3 Et3.
      apply (resumes_rotate (3 + b) (logStream rp) log k v (n + 1) meta ov _ e o Hlog Hlog' Hkv Hm Hroom' Ea (1 + (1 + b)) rp0 rp3 h mems0 mems3 tabs0 (vhead rp)); try done; [by destruct mems as [|[|kv0 M] ms]|lia|..].
      + replace (n + 1 - 1) with n by lia. by rewrite <- Hp0.
      + rewrite <- Ep. unfold head_pos. by rewrite Ec3, Et3.
      + rewrite <- Eq. unfold head_seq. by rewrite Ec3, Et3. }
  destruct (put_step fp rnd b rp2 h mems2 tabs2 n e1 k (n + 1) ov) as (s' & mems3 & Hp & Hi3 & Hms3 & _ & Hhd3 & Htl3); try done;
    [by rewrite <- Hp2|lia|lia|apply Hkv|by rewrite Hle|by rewrite El2|lia|].
  unfold writeToLSM. cbn [put_entries]. rewrite Hp. cbn [obind]. exists (with_vhead (with_sl rp2 s') (mkVP e o 0)), mems3, tabs2. split; [done|].
  split; [by apply rp_inv_vhead|]. split; [by eapply written_queue|]. split; [by apply Hres|].
  split; [apply written_settled; [done|]; cbn [with_vhead with_sl logStream vhead vp_extentID vp_offset]; by rewrite El2|]. cbn [with_vhead with_sl logStream flushChan rp_tables rp_mt m_sl]. split.
  - intros Hlt. rewrite (Hstay Hlt) in *. cbn [rp1 with_log with_seq flushChan rp_tables rp_mt] in *. split; [done|]. split; [done|]. lia.
  - intros e0 o0 z Hhere Hz Hle'. rewrite El2, <- Hra in *. apply (lr_stay (3 + b) (logStream rp) e0 o0 z [a] log [e1] e o); [exact Hlog|exact Hhere|exact Hz|done|by constructor|apply Hle'|apply Hle'|exact Ea].
Qed.

(** ** Opening after the crash *)

(** a compaction below a memtable *)
Lemma agrees_compact_below (log : LogSt) h now M st l uk : NoDup (fst <$> st) -> Forall (fun p => user_version MaxUint64 (fst p)) (M ++ st) -> newer M st ->
  compacted now st l -> agrees log h (M ++ st) uk -> agrees log h (M ++ l) uk.
Proof.
  intros Hnd Hv Hnew Hc Ha. pose proof Hv as Hv'. apply Forall_app in Hv' as [HvM Hvs].
  destruct (compacted_spec now st l Hnd Hc) as (_ & _ & Hl). assert (forall p, p ∈ M ++ l -> p ∈ M ++ st) as Hsub.
  { intros p. rewrite !elem_of_app. intros [Hp|Hp]; [by left|right]. by apply Hl in Hp as [[Hp _] _]. }
  apply agrees_cases in Ha as [[Hno Hsp]|(ov & t & vs & E & (Hin & Ht & Hmax) & Hst)].
  { apply agrees_cases. left. split; [|done]. intros t v Hin. by apply (Hno t v), Hsub. }
  apply elem_of_app in Hin as [Hin|Hin].
  { apply agrees_cases. right. exists ov, t, vs. split; [done|]. split; [|done]. split; [apply elem_of_app; by left|]. split; [done|]. intros t' v' Hin' Ht'. by apply (Hmax t' v'), Ht'; apply Hsub. }
  assert (forall t' v', (KeyWithTs uk t', v') ∉ M) as HM.
  { intros t' v' Hin'. rewrite Forall_forall in HvM. destruct (HvM _ Hin') as (u & x & E1 & _ & Hx). cbn [fst] in E1. assert (u = uk) as -> by (apply (f_equal ukey) in E1; by rewrite !ukey_KeyWithTs in E1).
    rewrite E1 in Hin'. pose proof (Hnew uk x t v' vs Hin' Hin ltac:(lia) Ht). pose proof (Hmax x v' ltac:(apply elem_of_app; by left) ltac:(lia)). lia. }
  assert (forall k, agrees log h k uk -> agrees log h (M ++ k) uk) as Hup.
  { intros k Ha. apply agrees_cases in Ha. apply agrees_cases. destruct Ha as [[Hno Hsp]|(ov' & t' & vs' & E' & (Hin' & Ht' & Hmax') & Hst')]; [left|right].
    - split; [|done]. intros t' v' [Hx|Hx]%elem_of_app; [by apply (HM t' v')|by apply (Hno t' v')].
    - exists ov', t', vs'. split; [done|]. split; [|done]. split; [apply elem_of_app; by right|]. split; [done|]. intros t2 v2 [Hx|Hx]%elem_of_app Ht2; [by apply HM in Hx|by apply (Hmax' t2 v2)]. }
  apply Hup, (agrees_compact log h now st l uk Hnd Hvs Hc), agrees_cases. right. exists ov, t, vs. split; [done|]. split; [|done]. split; [done|]. split; [done|].
  intros t' v' Hin' Ht'. apply (Hmax t' v'); [|done]. apply elem_of_app. by right.
Qed.

(** the tables of a compaction in place of the old ones, below a memtable *)
Lemma installed_below b (rp rp' : RP) h M tabs newt Ks now : rp_inv fp b rp h [M] tabs -> flushChan rp = [] -> rp_tables rp <> [] ->
  Forall2 (tab_holds fp (rowStream rp')) newt Ks -> compacted now (mjoin tabs) (mjoin Ks) ->
  Forall (fun t => LastSeq t = max_seq (rp_tables rp)) newt -> same_rest rp rp' -> flushChan rp' = [] -> sc_inv (need [M] + b) (rowStream rp') ->
  rp_inv fp b (with_tables (with_pm rp' (Loc <$> newt)) newt (seqNumber rp')) h [M] Ks.
Proof.
  intros Hi Hch0 Hne0 Htb Hc Hnew (El & Er & Eb & Em & Ei & Es & Ev) Hch Hrow.
  pose proof Hi as [H1' H2' H3' H4' H5' H6' H7' H8' H9' H10' H11' H12' H13' H14' H15' H16' H17' H18']. rewrite store_tail in *. change (store [] ?x) with (mjoin x) in *.
  rewrite fmap_app in H6'. apply NoDup_app in H6' as (Hu1 & Hu2 & Hu3). destruct (compacted_spec now _ _ Hu3 Hc) as (Hnd & Hlen & Hin).
  assert (forall P : kv -> Prop, Forall P (M ++ mjoin tabs) -> Forall P (M ++ mjoin Ks)) as Hsub.
  { intros P HP. apply Forall_app in HP as [HM HP]. apply Forall_app. split; [done|]. apply Forall_forall. intros p Hp. rewrite Forall_forall in HP. apply HP. by apply Hin in Hp as [[Hp _] _]. }
  destruct H18' as [Hl1 _]. destruct (max_units _ _ _ _ H2' (Forall_impl _ _ _ Hl1 (fun t => @proj1 _ _)) Hne0) as (_ & _ & Hmax1). pose proof (max_seq_bound _ _ Hne0 Hl1) as Hmax2.
  split; cbn [with_pm with_tables logStream rowStream rp_mt rp_imm flushChan rp_tables seqNumber vhead blockWrites pm_tables];
    rewrite ?store_tail; change (store [] Ks) with (mjoin Ks); rewrite ?El, ?Eb, ?Em, ?Ei, ?Es, ?Ev, ?Hch; try done.
  - destruct H5' as [Hn _]. split; [|done]. change (mjoin []) with (@nil kv) in *. eapply newer_sub; [|exact Hn]. intros p. rewrite !elem_of_app. intros [|Hp]; [by left|right]. by apply Hin in Hp as [[Hp _] _].
  - rewrite fmap_app. apply NoDup_app. split; [done|]. split; [|done]. intros k Hk (p & -> & Hp)%list_elem_of_fmap. apply Hin in Hp as [[Hp _] _]. apply (Hu2 (fst p) Hk). by apply list_elem_of_fmap_2.
  - by apply Hsub.
  - by rewrite <- H9', Hch0.
  - cbn. lia.
  - intros uk Huk. apply (agrees_compact_below _ _ now M (mjoin tabs)); [done| |apply H5'|done|by apply H14'].
    eapply Forall_impl; [exact H8'|]. intros p. apply user_version_le. lia.
  - rewrite length_app in *. lia.
  - by apply Hsub.
  - split; [|constructor]. eapply Forall_impl; [exact Hnew|]. intros t ->. lia.
Qed.

(** the live versions in the tables are no more than a compaction can take,
    whatever the time *)
Definition compactable (rp : RP) : Prop :=
  forall tabs now l, Forall2 (tab_holds fp (rowStream rp)) (rp_tables rp) tabs -> compacted now (mjoin tabs) l -> kv_est l <= maxCompact.
(** The conditions under which the replay of [rp]'s log is complete: no new
    extent since the last table, the entries fit a memtable, and, when there are
    tables to compact, a live key is not among the entries and the tables are
    [compactable]. *)
Definition replayable (rp : RP) (m : kvmap) : Prop :=
  lr_here (logStream rp) (fst (replay_from (rp_tables rp))) (snd (replay_from (rp_tables rp))) /\
  forall L, lr_since (logStream rp) (fst (replay_from (rp_tables rp))) (snd (replay_from (rp_tables rp))) L ->
    107 + est_size L < maxSkipList /\
    ((length (rp_tables rp) <= 1)%nat \/ (exists k v, m !! k = Some v /\ Forall (fun i => ukey (Key (Log i)) <> k) L) /\ compactable rp).

Lemma chain_keys log ops : forall n s L n' s' k hT, chain log n s ops L n' s' -> Forall (fun i => ukey (Key (Log i)) <> k) L -> spec_get (rev ops ++ hT) k = spec_get hT k.
Proof.
  induction ops as [|[k' ov] ops IH]; intros n s [|i L] n' s' k hT Hc Hf; try done. destruct Hc as (t & He & _ & Hc). apply Forall_cons in Hf as [Hi Hf].
  cbn [rev]. rewrite <- app_assoc. rewrite (IH _ _ _ _ _ k _ Hc Hf). cbn [app spec_get]. destruct (decide (k' = k)) as [->|]; [|done].
  rewrite (eo_version _ _ _ _ _ He), ukey_KeyWithTs in Hi. done.
Qed.

(** up to the end of the replay *)
Lemma crash_load_ok b fuel tries (rp : RP) h mems tabs m : rp_inv fp (2 * length h + b) rp h mems tabs -> flushChan rp = [] -> resumes rp h mems tabs -> replayable rp m ->
  (length h < fuel)%nat -> (0 < tries)%nat ->
  exists rp' M, load_partition fp rnd sched fuel tries (logStream rp) (rowStream rp) (pm_tables rp) = Ok rp' /\ rp_inv fp b rp' h [M] tabs /\
    logStream rp' = logStream rp /\ rowStream rp' = rowStream rp /\ logRotates rp' = 0 /\ Forall2 same_table (rp_tables rp) (rp_tables rp').
Proof using LogR BloomL RowL.
  intros Hi Hch (hL & hT & L & n & n' & -> & Hc & Hsince & Hn & Hv & Ha & Hz) [Hhere Hrep] Hf Ht. unfold head_pos, head_seq in *. rewrite Hch in *. cbn [last] in *.
  destruct (Hrep L Hsince) as [Hest _]. clear Hrep. rewrite length_app, length_rev in *.
  pose proof (ri_mems _ _ _ _ _ _ Hi) as Hm. pose proof (ri_chan _ _ _ _ _ _ Hi) as Himm. rewrite Hch in Himm. change (ft_mt <$> []) with (@nil Mem) in Himm. rewrite <- Himm in Hm.
  apply Forall2_cons_inv_l in Hm as (M & ms & _ & Hms & ->). apply Forall2_nil_inv_l in Hms as ->. cbn [List.tl] in *. change (store [] tabs) with (mjoin tabs) in *.
  pose proof (chain_bound _ _ _ _ _ _ _ Hc ltac:(lia)) as Hb. pose proof (chain_length _ _ _ _ _ _ _ Hc) as HlL.
  pose proof Hi as [_ Htb Hrow Hlog _ Hun Hseq _ _ _ _ _ _ _ _ Hpl Hpm [Hlast _]]. rewrite store_tail in Hun, Hpl. change (store [] tabs) with (mjoin tabs) in *.
  rewrite fmap_app in Hun. apply NoDup_app in Hun as (_ & _ & Hun). apply Forall_app in Hpl as [_ Hpl]. cbn [need foldr] in Hrow.
  rewrite Hpm. destruct (load_partition_eq fp rnd sched fuel tries (logStream rp) (rowStream rp) (rp_tables rp) tabs (sc_inv_le _ 0 _ Hrow ltac:(lia)) Htb) as (s & tbls' & -> & Hmo & Hms & Htb' & Hsame).
  destruct (replay_from_same _ _ Hsame) as [Em Er].
  assert (rp_inv fp (2 * length hL + b) (loaded s (logStream rp) (rowStream rp) tbls') hT [[]] tabs) as Hi0.
  { apply loaded_ok; rewrite ?Em; try done.
    - eapply sc_inv_le; [exact Hlog|lia].
    - eapply sc_inv_le; [exact Hrow|lia].
    - eapply Forall_impl; [exact Hv|]. intros p. apply user_version_le. lia.
    - lia.
    - eapply same_tables_last; [exact Hsame|]. eapply Forall_impl; [exact Hlast|]. intros t. apply proj1. }
  destruct (replay_chain_ok tries Ht hL b (loaded s (logStream rp) (rowStream rp) tbls') hT [] tabs n (max_seq (rp_tables rp)) L n' (seqNumber rp) Hi0) as (rp' & M' & E & Hi' & _ & (El & Ero & Etb & Erot)); try done.
  { lia. }
  { cbn [loaded with_pm with_tables seqNumber]. lia. }
  { cbn [loaded with_pm with_tables rp_mt m_sl]. lia. }
  unfold replayLog. rewrite (replay_loop_yielding _ _ _ L) by (try (eapply lr_replay; done); lia). rewrite E. cbn [obind].
  exists rp', M'. split; [done|]. split; [done|]. split; [done|]. split; [done|]. split; [done|]. by rewrite Etb.
Qed.

Lemma crash_open_ok b n fuel tries now (rp : RP) h mems tabs m : rp_inv fp (4 * length h + b) rp h mems tabs -> flushChan rp = [] -> resumes rp h mems tabs -> view h m -> replayable rp m ->
  (length h < n)%nat -> (length h < fuel)%nat -> (0 < tries)%nat ->
  exists rp' M tabs', OpenRangePartition fp rnd sched n fuel tries now (logStream rp) (rowStream rp) (pm_tables rp) = Ok rp' /\ rp_inv fp b rp' h [M] tabs'.
Proof using bloom_small LogR BloomL RowL RowA.
  intros Hi Hch Hr Hvw Hrep Hn Hf Ht. destruct (crash_load_ok (2 * length h + b) fuel tries rp h mems tabs m ltac:(eapply rp_inv_le; [|exact Hi]; lia) Hch Hr Hrep Hf Ht) as (rp1 & M & E & Hi1 & El & Ero & _ & Hsame).
  unfold OpenRangePartition. rewrite E. clear E. cbn [obind]. pose proof (Forall2_length _ _ _ Hsame) as Hlen.
  destruct (Nat.leb_spec (length (rp_tables rp1)) 1) as [|Hmany]; [exists rp1, M, tabs; split; [reflexivity|]; eapply rp_inv_le; [|exact Hi1]; lia|].
  pose proof (ri_tabs _ _ _ _ _ _ Hi1) as Htb. pose proof (ri_last _ _ _ _ _ _ Hi1) as [Hl _]. pose proof (ri_size _ _ _ _ _ _ Hi1) as Hsz. pose proof (ri_row _ _ _ _ _ _ Hi1) as Hrow.
  assert (rp_tables rp1 <> []) as Hne by (intros E0; rewrite E0 in Hmany; cbn in Hmany; lia).
  destruct (max_units _ _ _ _ Htb (Forall_impl _ _ _ Hl (fun t => @proj1 _ _)) Hne) as (Hu1 & Hu2 & Hmax1).
  pose proof (ri_unique _ _ _ _ _ _ Hi1) as Hun. pose proof (ri_plain _ _ _ _ _ _ Hi1) as Hpl. rewrite store_tail in Hun, Hpl, Hsz. change (store [] tabs) with (mjoin tabs) in *.
  rewrite fmap_app in Hun. apply NoDup_app in Hun as (_ & _ & Hun). apply Forall_app in Hpl as [_ Hpl]. rewrite length_app in Hsz.
  assert (flushChan rp1 = []) as Hch1.
  { pose proof (Forall2_length _ _ _ (ri_mems _ _ _ _ _ _ Hi1)) as Hx. rewrite <- (ri_chan _ _ _ _ _ _ Hi1) in Hx. cbn [length] in Hx. rewrite length_reverse, length_fmap in Hx. destruct (flushChan rp1); [done|]. cbn in Hx. lia. }
  destruct (doCompact_ok fp rnd sched bloom_small (need [M] + b) n fuel now rp1 tabs) as (l & Hc & Hdo & _); try assumption; try lia.
  { intros ->. by apply Forall2_nil_inv_r in Htb. }
  { eapply sc_inv_le; [exact Hrow|]. lia. }
  { pose proof (ri_seq _ _ _ _ _ _ Hi1) as Hs. pose proof (max_seq_bound _ _ Hne Hl) as Hb. unfold is_u64, MaxUint64 in *. lia. }
  destruct Hdo as (rp2 & newt & Ks & -> & Ht2 & Hnew & <- & Hsq & Hsrest & Hch2 & Hrow2).
  { destruct Hr as (hL & hT & L & nT & n' & _ & _ & Hsince & _). unfold head_pos in Hsince. rewrite Hch in Hsince. cbn [last] in Hsince.
    destruct (proj2 Hrep L Hsince) as [_ [Hle|[_ Hco]]]; [lia|]. apply (Hco tabs now); [apply Hi|exact Hc]. }
  cbn [obind]. rewrite Ht2, surplus_app. assert (newt <> []) as Hnne.
  { destruct Hr as (hL & hT & L & nT & n' & -> & Hch0 & Hsince & Hn0 & Hv & Ha & Hz). unfold head_pos, head_seq in *. rewrite Hch in *. cbn [last] in *.
    destruct (proj2 Hrep L Hsince) as [_ [Hle|[(k & v & Hmk & HfL) _]]]; [lia|].
    assert (k <> []) as Hk by (intros ->; by rewrite (proj2 Hvw) in Hmk). pose proof (proj1 Hvw k) as Hlive. rewrite Hmk in Hlive.
    assert (spec_get (rev hL ++ hT) k = Some (Some v)) as Hlive' by (destruct (spec_get (rev hL ++ hT) k) as [[v'|]|]; congruence). clear Hlive. rename Hlive' into Hlive. intros ->. apply Forall2_nil_inv_l in Hnew as ->. rewrite (chain_keys _ _ _ _ _ _ _ _ _ Hch0 HfL) in Hlive.
    pose proof (Ha k Hk) as Hak. apply (agrees_perm _ _ _ (mjoin tabs)) in Hak.
    - apply (agrees_compact _ _ now _ (mjoin [])) in Hak; [|done| |done].
      + unfold agrees in Hak. rewrite Hlive in Hak. destruct Hak as (t & vs & (Hin & _) & _). by apply elem_of_nil in Hin.
      + pose proof (ri_versions _ _ _ _ _ _ Hi1) as Hver. rewrite store_tail in Hver. apply Forall_app in Hver as [_ Hver]. eapply Forall_impl; [exact Hver|]. intros p. apply user_version_le. pose proof (ri_seq _ _ _ _ _ _ Hi1). lia.
    - pose proof (ri_mems _ _ _ _ _ _ Hi) as Hm. pose proof (ri_chan _ _ _ _ _ _ Hi) as Himm. rewrite Hch in Himm. change (ft_mt <$> []) with (@nil Mem) in Himm. rewrite <- Himm in Hm.
      apply Forall2_cons_inv_l in Hm as (M0 & ms & _ & Hms & ->). apply Forall2_nil_inv_l in Hms as ->. done. }
  assert (updateTableLocs rp2 (Loc <$> newt) = Loc <$> newt) as -> by (by destruct newt).
  eexists _, M, Ks. split; [reflexivity|]. apply (installed_below b rp1 rp2 h M tabs newt Ks now);
    [eapply rp_inv_le; [|exact Hi1]; lia|exact Hch1|exact Hne|exact Hnew|exact Hc| |exact Hsrest|exact Hch2|exact Hrow2]. eapply Forall_impl; [exact Hsq|]. intros t. apply proj1.
Qed.

(** ** Runs that end in a crash *)

(** every write is a batch of its own, and nothing restarts *)
Definition lone (op : client_op) : Prop := match op with OpWrite kvs => length kvs = 1%nat | OpRestart => False | _ => True end.
Definition is_read (op : client_op) : Prop := match op with OpGet _ | OpRange _ _ _ => True | _ => False end.
(** the bytes an operation may take in the log *)
Definition op_room (op : client_op) : Z :=
  match op with OpWrite kvs => room_for (logs_of kvs) | OpDelete k => room_for [new_log k [] 0 BitDelete] | _ => 0 end.
Definition ops_room (ops : list client_op) : Z := foldr (fun op z => op_room op + z) 0 ops.
Definition map_after (m : kvmap) (ops : list client_op) : kvmap := foldl (fun m op => fst (map_op m op)) m ops.

(** after few writes since the partition was new, on a log with [z] bytes of room *)
Record young (rp : RP) (w : nat) (z : Z) : Prop := mk_young {
  yg_chan : flushChan rp = []; yg_tables : rp_tables rp = []; yg_mem : MemSize (m_sl (rp_mt rp)) <= 107 + 3300 * Z.of_nat w;
  yg_here : lr_here (logStream rp) 0 0; yg_room : exists z', z <= z' < 2 ^ 31 /\ lr_room (logStream rp) z' }.
Lemma young_le rp w w' z z' : young rp w z -> (w <= w')%nat -> z' <= z -> young rp w' z'.
Proof. intros [H1' H2' H3' H4' (x & Hx & Hr)] Hw Hz. split; try done; [lia|]. exists x. split; [lia|done]. Qed.

Lemma room_for_nonneg es : 0 <= room_for es.
Proof.
  unfold room_for. induction es as [|e es IH]; cbn [foldr]; [done|]. pose proof (Entry_Size_nonneg_any e). unfold MaxMixedBlockSize, KB in *. lia.
Qed.
Lemma tombstone_room k : zlen k <= 2048 -> room_for [new_log k [] 0 BitDelete] < 2 ^ 31.
Proof.
  intros Hk. destruct (Z.eq_dec (zlen k) 0) as [E|Hne].
  { apply zlen_0_nil in E as ->. vm_compute. done. }
  assert (client_kv k []) as Hkv by (split; [by intros ->|]; split; [done|done]). destruct (new_log_packable k [] 0 BitDelete Hkv (or_intror eq_refl)) as (Hwf & _).
  pose proof (Entry_bytes_bound _ Hwf) as Hb. rewrite <- Entry_Size_bytes in Hb by done. unfold new_log in Hb at 2 3. cbn [Key Value] in Hb. rewrite zlen_KeyWithTs in Hb.
  change (zlen (@nil byte)) with 0 in Hb. unfold room_for. cbn [foldr]. change MaxMixedBlockSize with 4096. lia.
Qed.

Lemma lone_write_ok b tries (rp : RP) h mems tabs w k v meta ov : rp_inv fp (5 + b) rp h mems tabs -> queue_ok rp mems -> resumes rp h mems tabs -> settled rp mems ->
  (2 <= tries)%nat -> client_kv k v -> meta = 0 /\ ov = Some v \/ meta = BitDelete /\ v = [] /\ ov = None -> room_for [new_log k v 0 meta] < 2 ^ 31 ->
  exists rp' mems' tabs', writeRequests fp rnd sched tries (with_seq rp (seqNumber rp + 1)) [[mkEI (new_log k v (seqNumber rp + 1) meta) 0 0 0]] = Ok (rp', None) /\
    rp_inv fp b rp' ((k, ov) :: h) mems' tabs' /\ queue_ok rp' mems' /\ resumes rp' ((k, ov) :: h) mems' tabs' /\ settled rp' mems' /\
    forall z, young rp w z -> (w < 300)%nat -> room_for [new_log k v 0 meta] <= z -> young rp' (1 + w) (z - room_for [new_log k v 0 meta]).
Proof using bloom_small BloomL RowL LogR.
  intros Hi Hq Hr Hset Ht Hkv Hm Hroom. destruct (write_one_ok b tries rp h mems tabs k v meta ov Hi Hq Hr Hset Ht Hkv Hm Hroom) as (rp' & mems' & tabs' & E & Hi' & Hq' & Hr' & Hset' & Hmem & Hlog).
  exists rp', mems', tabs'. do 5 (split; [assumption|]). intros z [Y1 Y2 Y3 Y4 (x & Hx & Y5)] Hw Hz. assert (maxSkipList = 1048576) as Hmx by done. destruct (Hmem ltac:(lia)) as (C1 & C2 & C3).
  destruct (Hlog 0 0 x Y4 Y5 ltac:(lia)) as (C4 & C5). pose proof (room_for_nonneg [new_log k v 0 meta]). split; [congruence|congruence|lia|done|]. eexists. split; [|exact C5]. lia.
Qed.

Lemma lone_op_ok b fuel now tries w (rp : RP) h mems tabs m op : rp_inv fp (op_cost w op + b) rp h mems tabs -> queue_ok rp mems -> resumes rp h mems tabs -> settled rp mems -> view h m ->
  (2 <= tries)%nat -> client_ok m op -> lone op -> (length h <= w)%nat -> (w < fuel)%nat ->
  exists rp' h' mems' tabs', run_op fp rnd sched fuel now tries rp op = Ok (rp', snd (map_op m op)) /\ rp_inv fp b rp' h' mems' tabs' /\ queue_ok rp' mems' /\ resumes rp' h' mems' tabs' /\
    settled rp' mems' /\ view h' (fst (map_op m op)) /\ (length h' <= op_writes op + w)%nat /\
    forall z, young rp w z -> (op_writes op + w <= 300)%nat -> op_room op <= z -> young rp' (op_writes op + w) (z - op_room op).
Proof using bloom_small BloomL RowL LogR.
  intros Hi Hq Hr Hset Hv Ht Hok Hlone Hw Hf. pose proof (proj1 Hv) as Hlk. pose proof (ri_seq _ _ _ _ _ _ Hi) as Hseq.
  destruct op as [kvs|k|k|prefix start limit| |]; cbn [run_op map_op client_ok op_cost op_writes lone op_room] in *; [..|done].
  - destruct kvs as [|[k v] [|]]; [done| |done]. destruct Hok as (_ & Hkv & Hroom & _). apply Forall_cons in Hkv as [Hkv _]. cbn [fst snd length] in *.
    destruct (lone_write_ok b tries rp h mems tabs w k v 0 (Some v) Hi Hq Hr Hset Ht Hkv ltac:(by left) Hroom) as (rp' & mems' & tabs' & E & Hi' & Hq' & Hr' & Hset' & Hy).
    unfold WriteAll. cbn [new_entries]. unfold new_entry. rewrite u64_small by (unfold MaxUint64 in *; lia). cbn [with_seq blockWrites]. rewrite (ri_open _ _ _ _ _ _ Hi).
    rewrite fmap_cons. change ((fun e => [e]) <$> []) with (@nil (list EntryInfo)). fold (new_log k v (seqNumber rp + 1) 0). rewrite E. cbn [obind]. exists rp', ((k, Some v) :: h), mems', tabs'.
    do 5 (split; [done|]). split; [by apply view_put; [apply Hkv|]|]. split; [cbn [length]; lia|]. intros z Hyz Hle Hz. apply Hy; [done|lia|done].
  - destruct Hok as [Hk Hlen]. unfold Delete. destruct (getValueStruct_live fp _ _ _ _ _ k Hi Hk) as (vs & -> & Hlive). cbn [obind]. rewrite Hlive, (Hlk k).
    assert (rp_inv fp b rp h mems tabs) as Hib by (eapply rp_inv_le; [|exact Hi]; lia).
    assert (forall z, young rp w z -> (1 + w <= 300)%nat -> room_for [new_log k [] 0 BitDelete] <= z -> young rp (1 + w) (z - room_for [new_log k [] 0 BitDelete])) as Hyno.
    { intros z Hyz _ _. pose proof (room_for_nonneg [new_log k [] 0 BitDelete]). eapply young_le; [exact Hyz|lia|lia]. }
    destruct (spec_get h k) as [[v|]|]; [|exists rp, h, mems, tabs; do 6 (split; [done|]); split; [lia|done]..].
    assert (client_kv k []) as Hkv by (split; [done|]; split; [done|done]). unfold new_entry, send_and_wait. rewrite u64_small by (unfold MaxUint64 in *; lia). cbn [with_seq blockWrites]. rewrite (ri_open _ _ _ _ _ _ Hi).
    destruct (lone_write_ok b tries rp h mems tabs w k [] BitDelete None Hi Hq Hr Hset Ht Hkv ltac:(by right) (tombstone_room k Hlen)) as (rp' & mems' & tabs' & E & Hi' & Hq' & Hr' & Hset' & Hy).
    fold (new_log k [] (seqNumber rp + 1) BitDelete). rewrite E. cbn [obind]. exists rp', ((k, None) :: h), mems', tabs'. do 5 (split; [done|]). split; [by apply view_delete|].
    split; [cbn [length]; lia|]. intros z Hyz Hle Hz. apply Hy; [done|lia|done].
  - rewrite (rp_Get_ok fp b rp h mems tabs k Hi Hok). cbn [obind]. rewrite (Hlk k). exists rp, h, mems, tabs. split; [by destruct (spec_get h k) as [[v|]|]|].
    do 6 (split; [done|]). intros z Hyz _ Hz. eapply young_le; [exact Hyz|lia|lia].
  - destruct Hok as (Hpre & Hlim). destruct (Range_ok fp b rp h mems tabs fuel now prefix start limit Hi Hpre Hlim ltac:(lia)) as (keys & -> & Hs & Hk).
    cbn [obind]. rewrite (view_keys h m prefix start keys Hv Hs Hk). exists rp, h, mems, tabs. do 7 (split; [done|]). intros z Hyz _ Hz. eapply young_le; [exact Hyz|lia|lia].
  - destruct (flush_resumes b rp h mems tabs Hi Hq Hr Hset) as (rp' & mems' & tabs' & E & Hi' & Hq' & Hr' & Hset' & Hlen). rewrite E. cbn [obind]. exists rp', h, mems', tabs'.
    do 7 (split; [done|]). intros z Hyz _ Hz. unfold flushMemtable in E. rewrite (yg_chan _ _ _ Hyz) in E. injection E as <-. eapply young_le; [exact Hyz|lia|lia].
Qed.
Lemma lone_ops_ok b fuel now tries ops : (2 <= tries)%nat -> forall w (rp : RP) h mems tabs m, rp_inv fp (ops_cost w ops + b) rp h mems tabs -> queue_ok rp mems -> resumes rp h mems tabs -> settled rp mems -> view h m ->
  ops_ok m ops -> Forall lone ops -> (length h <= w)%nat -> (w + ops_writes ops < fuel)%nat ->
  exists rp' h' mems' tabs', run_ops fp rnd sched fuel now tries rp ops = Ok (rp', map_run m ops) /\ rp_inv fp b rp' h' mems' tabs' /\ queue_ok rp' mems' /\ resumes rp' h' mems' tabs' /\
    settled rp' mems' /\ view h' (map_after m ops) /\ (length h' <= ops_writes ops + w)%nat /\
    forall z, young rp w z -> (ops_writes ops + w <= 300)%nat -> ops_room ops <= z -> young rp' (ops_writes ops + w) (z - ops_room ops).
Proof using bloom_small BloomL RowL LogR.
  intros Ht. induction ops as [|op ops IH]; intros w rp h mems tabs m Hi Hq Hr Hset Hv Hok Hlone Hw Hf.
  { exists rp, h, mems, tabs. do 7 (split; [done|]). intros z Hyz _ _. eapply young_le; [exact Hyz|lia|cbn; lia]. }
  destruct Hok as [Hop Hok]. apply Forall_cons in Hlone as [Hl Hlone]. unfold ops_writes in Hf |- *. cbn [ops_cost foldr] in *. fold (ops_writes ops) in *.
  destruct (lone_op_ok (ops_cost (op_writes op + w) ops + b) fuel now tries w rp h mems tabs m op ltac:(eapply rp_inv_le; [|exact Hi]; lia) Hq Hr Hset Hv Ht Hop Hl Hw ltac:(lia))
    as (rp' & h' & mems' & tabs' & E & Hi' & Hq' & Hr' & Hset' & Hv' & Hh & Hy).
  destruct (IH (op_writes op + w)%nat rp' h' mems' tabs' (fst (map_op m op)) Hi' Hq' Hr' Hset' Hv' Hok Hlone Hh ltac:(lia)) as (rp2 & h2 & mems2 & tabs2 & E2 & Hi2 & Hq2 & Hr2 & Hset2 & Hv2 & Hh2 & Hy2).
  exists rp2, h2, mems2, tabs2. cbn [run_ops map_run]. rewrite E. cbn [obind]. rewrite E2. destruct (map_op m op) as [m' r] eqn:Em. cbn [fst snd obind] in *.
  split; [done|]. do 4 (split; [done|]). split; [unfold map_after; cbn [foldl]; by rewrite Em|]. split; [lia|]. intros z Hyz Hle Hz. unfold ops_room in Hz |- *. cbn [foldr] in Hz |- *. fold (ops_room ops) in Hz |- *.
  assert (0 <= ops_room ops) as Hpos by (clear; unfold ops_room; induction ops as [|o l IHl]; cbn [foldr]; [done|]; destruct o; cbn [op_room]; try lia; match goal with |- context [room_for ?l] => pose proof (room_for_nonneg l) end; lia).
  eapply young_le; [apply Hy2; [apply Hy; [done|lia|lia]|lia|lia]|lia|lia].
Qed.

(** ** From a new partition to a crash and on *)

Lemma new_partition_eq log row : exists s, MemSize s = 107 /\ new_partition log row = Ok (mkRP log row 0 false (mkMem 0 s) [] [] [] 0 (mkVP 0 0 0) [] 1 : RP).
Proof. destruct (new_mem_ok 0) as (s & E & _ & Hz). exists s. split; [exact Hz|]. unfold new_partition. rewrite E. reflexivity. Qed.
Lemma new_resumes b log row (rp : RP) : sc_inv b log -> ls_tail log 0 0 -> new_partition log row = Ok rp ->
  queue_ok rp [[]] /\ resumes rp [] [[]] [] /\ forall z, lr_here log 0 0 -> lr_room log z -> 0 <= z < 2 ^ 31 -> young rp 0 z.
Proof.
  intros Hlog Htail E. destruct (new_partition_eq log row) as (s & Hz & Es). rewrite Es in E. clear Es. injection E as <-. split; [|split].
  - split; cbn [logRotates flushChan rp_tables rp_mt m_sl]; try done; constructor.
  - exists [], [], [], 0, 0. unfold head_seq, head_pos. cbn [logStream rp_tables flushChan seqNumber last replay_from max_seq]. split; [done|]. split; [done|].
    split; [by eapply lr_tail|]. split; [cbn; lia|]. split; [constructor|]. split; [|done]. intros uk _ t v Hin. destruct (not_elem_of_nil _ Hin).
  - intros z Hh Hr Hz'. split; cbn [logRotates flushChan rp_tables rp_mt m_sl logStream]; [done|done|lia|exact Hh|exists z; split; [lia|exact Hr]].
Qed.

Lemma chain_est log ops : forall n s L n' s', chain log n s ops L n' s' -> est_size L <= 3300 * Z.of_nat (length ops).
Proof.
  induction ops as [|[k ov] ops IH]; intros n s [|i L] n' s' Hc; try done. destruct Hc as (t & He & _ & Hc). rewrite est_size_cons. pose proof (IH _ _ _ _ _ Hc).
  pose proof (eo_size _ _ _ _ _ He). cbn [length]. lia.
Qed.
Lemma young_replayable b (rp : RP) h mems tabs w z m : rp_inv fp b rp h mems tabs -> resumes rp h mems tabs -> young rp w z -> (length h <= w)%nat -> (w <= 300)%nat -> replayable rp m.
Proof using LogR.
  intros Hi (hL & hT & L & n & n' & -> & Hc & Hsince & _) [Y1 Y2 _ Y4 _] Hw Hw3. unfold head_pos, replayable in *. rewrite Y1, Y2 in *. cbn [last replay_from fst snd] in *. split; [done|].
  intros L' Hs'. pose proof (ri_log _ _ _ _ _ _ Hi) as Hlog.
  pose proof (yielding_unique _ _ _ (lr_replay _ _ _ _ _ Hlog Y4 Hsince) _ (lr_replay _ _ _ _ _ Hlog Y4 Hs')) as ->.
  pose proof (chain_est _ _ _ _ _ _ _ Hc). rewrite length_app, length_rev in Hw. assert (maxSkipList = 1048576) as -> by done. split; [lia|left; cbn; lia].
Qed.

(** reads need nothing of the position that the log was replayed from *)
Lemma run_reads_ok fuel now tries reads : Forall is_read reads -> forall w (rp : RP) h mems tabs m kvs ops2, rp_inv fp (ops_cost w (reads ++ OpWrite kvs :: ops2)) rp h mems tabs -> view h m ->
  (2 <= tries)%nat -> ops_ok m (reads ++ OpWrite kvs :: ops2) -> (length h <= w)%nat -> (w + ops_writes (reads ++ OpWrite kvs :: ops2) < fuel)%nat ->
  exists rp', run_ops fp rnd sched fuel now tries rp (reads ++ OpWrite kvs :: ops2) = Ok (rp', map_run m (reads ++ OpWrite kvs :: ops2)).
Proof using bloom_small BloomL RowL LogA LogT RowA.
  induction 1 as [|op reads Hop _ IH]; intros w rp h mems tabs m kvs ops2 Hi Hv Ht Hok Hw Hf; cbn [app] in *.
  - destruct Hok as [Hwr Hok]. unfold ops_writes in Hf. cbn [ops_cost foldr op_cost op_writes] in *. fold (ops_writes ops2) in Hf.
    destruct (WriteAll_ok fp rnd sched bloom_small (ops_cost (length kvs + w) ops2) tries rp h mems tabs kvs Hi Ht Hwr) as (rp1 & mems1 & tabs1 & E & Hi1 & Hs1).
    cbn [run_ops run_op map_run map_op]. rewrite E. clear E. cbn [obind].
    destruct (run_ops_ok fp rnd sched bloom_small fuel now tries ops2 (length kvs + w) rp1 _ mems1 tabs1 _ Hi1 Hs1 (view_batch kvs (proj1 (proj2 Hwr)) h m Hv) Ht Hok) as (rp2 & E2).
    + rewrite length_app, length_rev, length_fmap. lia.
    + lia.
    + exists rp2. by rewrite E2.
  - destruct Hok as [Hc Hok]. unfold ops_writes in Hf. cbn [ops_cost foldr] in *. fold (ops_writes (reads ++ OpWrite kvs :: ops2)) in Hf.
    assert (op_writes op = 0%nat /\ op_cost w op = 0%nat /\ fst (map_op m op) = m) as (E1 & E2 & E3) by (by destruct op). rewrite E1, E2 in *. rewrite E3 in Hok.
    destruct (IH w rp h mems tabs m kvs ops2 Hi Hv Ht Hok Hw Hf) as (rp' & E). exists rp'. cbn [run_ops map_run].
    assert (run_op fp rnd sched fuel now tries rp op = Ok (rp, snd (map_op m op))) as Er.
    { pose proof (proj1 Hv) as Hlk. destruct op as [| |k|prefix start limit| |]; try done; cbn [run_op map_op client_ok snd] in *.
      - rewrite (rp_Get_ok fp _ rp h mems tabs k Hi Hc). cbn [obind]. rewrite (Hlk k). by destruct (spec_get h k) as [[v|]|].
      - destruct Hc as (Hpre & Hlim). destruct (Range_ok fp _ rp h mems tabs fuel now prefix start limit Hi Hpre Hlim ltac:(lia)) as (keys & -> & Hs & Hk).
        cbn [obind]. by rewrite (view_keys h m prefix start keys Hv Hs Hk). }
    rewrite Er. cbn [obind]. rewrite E. destruct (map_op m op) as [m' r]. cbn [fst snd] in *. by subst m'.
Qed.

End Crash.
