(* ===== verification/CrashLoss.v ===== *)
(** A batch that a crash takes back (range_rangepartition.go: [replay] in
    OpenRangePartition): a batch reaches the log sorted by the length of the
    values, while the replay raises the sequence number by one for an entry that
    is ahead of it, so the last write of the batch may end up in the future. *)
From Stdlib Require Import ZArith Lia.
From stdpp Require Import base option list numbers gmap sorting strings.
From S2P Require Import Prelude GoLib Utils Proto ProtoPs Keys YIter Extent MixBlock Stream.
From S2P Require Import Skiplist SkiplistSpec SkiplistPut TableBlock Table TableSpec TableBuild.
From S2P Require Import Partition PartitionSpec PartitionRun PartitionScan PartitionOpen LogReplay Compact PartitionRestart PartitionMap Crash.

Section CrashLoss.
Context {LogSt RowSt Bloom LogIt : Type}.
Context `{LogL : StreamLaws LogSt} `{LogS : !LogStream LogSt} `{LogA : !LogLaws LogSt} `{LogI : !LogIters LogSt LogIt} `{LogT : !LogTail LogSt LogIt} `{LogR : !LogReplay LogSt LogIt}.
Context `{RowL : StreamLaws RowSt} `{RowT : !TruncStream RowSt} `{RowA : !TruncLaws RowSt} `{BloomL : BloomLaws Bloom} `{Sort : SortSlice}.
Variable fp : bytes -> Z.
Variable rnd : SL -> bytes -> nat -> Z.
Variable sched : Z -> nat -> nat.
Hypothesis bloom_small : forall hs : list Z, zlen hs <= 2 ^ 21 -> zlen (bf_JSONMarshal (filter_of (Bloom := Bloom) hs)) < 2 ^ 29.
Abbreviation RP := (RangePartition (LogSt := LogSt) (RowSt := RowSt) (Bloom := Bloom)).

(** opening a partition that died: only the streams and the tables that the
    partition manager knows are left of it *)
Definition open_after_crash (n fuel tries : nat) (now : Z) (rp : RP) : outcome RP :=
  OpenRangePartition fp rnd sched n fuel tries now (logStream rp) (rowStream rp) (pm_tables rp).

Lemma insert_kv_sub k v l p : p ∈ insert_kv k v l -> p = (k, v) \/ p ∈ l.
Proof.
  induction l as [|[k' v'] l IH]; cbn [insert_kv]; [intros ->%list_elem_of_singleton; by left|]. destruct (kcmp k k'); rewrite !elem_of_cons; tauto.
Qed.

(** an entry is replayed whatever its version *)
Lemma replay_entry_any tries (rp : RP) M (log : LogSt) i k t ov : sl_holds (m_sl (rp_mt rp)) M -> maxSkipList <= zlen (buf (arena (m_sl (rp_mt rp)))) ->
  entry_ok log i k t ov -> 0 <= t <= MaxUint64 -> 0 <= seqNumber rp < MaxUint64 -> logRotates rp = 0 -> (0 < tries)%nat -> MemSize (m_sl (rp_mt rp)) + 3300 < maxSkipList ->
  exists s' M', replay_entry fp rnd sched tries rp i = Ok (with_sl (with_seq rp (seqNumber rp + if seqNumber rp <? t then 1 else 0)) s', inl true) /\
    sl_holds s' M' /\ maxSkipList <= zlen (buf (arena s')) /\ MemSize s' <= MemSize (m_sl (rp_mt rp)) + 3300 /\
    forall p, p ∈ M' -> fst p = KeyWithTs k t \/ p ∈ M.
Proof.
  intros (L & Hr & HL) Hbuf [Hk Hput Hkey _ _ Hsz] Ht Hs Hrot Htr Hroom. pose proof (proj1 (r_arena _ _ Hr)) as Han. unfold MemSize, arena_size in *.
  unfold replay_entry. rewrite Hkey. destruct (parse_KeyWithTs k t ltac:(lia)) as (_ & -> & _). rewrite decide_False by done. cbn [obind].
  assert ((if seqNumber rp <? t then with_seq rp (u64 (seqNumber rp + 1)) else rp) = with_seq rp (seqNumber rp + if seqNumber rp <? t then 1 else 0)) as ->.
  { destruct (seqNumber rp <? t); [by rewrite u64_small by (unfold MaxUint64 in *; lia)|rewrite Z.add_0_r; by destruct rp]. }
  rewrite make_room_fits by (done || (cbn [with_seq rp_mt logRotates]; unfold est_size, MemSize, arena_size; cbn [foldr]; lia)). cbn [obind].
  pose proof (estimated_covers i Hput) as Hc. pose proof Hput as (Hk8 & Hvs & Hz).
  destruct (Put_repr (m_sl (rp_mt rp)) L (Key (Log i)) (lsm_value i) (rnd (m_sl (rp_mt rp)) (Key (Log i)))) as (s' & L' & Hp & Hr' & HL' & Hm' & Hz' & Hb');
    [done|lia|lia|done|lia|]. unfold MemSize, arena_size in *.
  unfold writeToLSM. cbn [with_seq rp_mt put_entries]. rewrite Hp. cbn [obind]. exists s', (contents L'). split; [done|]. split; [by exists L'|]. split; [by rewrite Hz'|].
  split; [lia|]. intros p Hin. rewrite HL' in Hin. apply insert_kv_sub in Hin as [->|Hin]; [left; by rewrite <- Hkey|right; by rewrite <- HL].
Qed.

(** an entry in the future is not seen *)
Lemma get_future (rp : RP) M uk : rp_tables rp = [] -> rp_imm rp = [] -> sl_holds (m_sl (rp_mt rp)) M -> uk <> [] -> 0 <= seqNumber rp <= MaxUint64 -> none_at uk (seqNumber rp) M ->
  rp_Get fp rp uk 0 = Ok (inr errNotFound).
Proof.
  intros Et Ei Hh Huk Hs Hn. unfold rp_Get, getValueStruct. change (0 =? 0) with true. cbv iota. unfold getMemTables. rewrite Ei.
  rewrite (search_memtables_rd [m_sl (rp_mt rp)] [M]) by (done || (constructor; [exact Hh|constructor])). rewrite fmap_cons. change (fmap _ []) with (@nil (option (Z * ValueStruct))).
  rewrite (rd_none uk _ M (sl_holds_walk _ _ Hh) Hs Hn). cbn [first_hit fmap option_fmap option_map obind]. unfold getTablesForKey. rewrite Et. cbn [covering obind].
  pose proof (sort_slice_perm (fun t => - LastSeq t) (@nil (Table (Bloom := Bloom)))) as Hp. apply Permutation_nil_l in Hp. rewrite <- Hp. reflexivity.
Qed.
(** the second write of two is replayed first *)
Lemma replay_swapped tries s (log log' : LogSt) row i1 i2 k1 k2 ov1 ov2 : mem_ok (mkMem 0 s) [] -> MemSize s = 107 -> (0 < tries)%nat -> entry_ok log i1 k1 1 ov1 -> entry_ok log i2 k2 2 ov2 -> k1 <> k2 ->
  exists rp' : RP, replay_all (replay_entry fp rnd sched tries) (loaded s log' row []) [i2; i1] = Ok (rp', None) /\ rp_tables rp' = [] /\ rp_Get fp rp' k2 0 = Ok (inr errNotFound).
Proof.
  intros Hm Hz Ht H1' H2' Hne. assert (maxSkipList = 1048576) as Hmx by done. pose proof (mo_holds _ _ Hm) as Hh. pose proof (proj1 (mo_buf _ _ Hm)) as Hb. cbn [m_sl] in *.
  set (rp := loaded s log' row [] : RP). assert (forall t, 1 <= t <= 2 -> 0 <= t <= MaxUint64) as Hu by (unfold MaxUint64; lia).
  destruct (replay_entry_any tries rp [] log i2 k2 2 ov2 Hh Hb H2' ltac:(apply Hu; lia) ltac:(done) eq_refl Ht ltac:(change (m_sl (rp_mt rp)) with s; lia)) as (s1 & M1 & E1 & Hh1 & Hb1 & Hm1 & Hin1).
  change (seqNumber rp) with 0 in E1. change (0 + (if 0 <? 2 then 1 else 0)) with 1 in E1. change (m_sl (rp_mt rp)) with s in Hm1. set (rp1 := with_sl (with_seq rp 1) s1) in *.
  destruct (replay_entry_any tries rp1 M1 log i1 k1 1 ov1 Hh1 Hb1 H1' ltac:(apply Hu; lia) ltac:(done) eq_refl Ht ltac:(change (m_sl (rp_mt rp1)) with s1; lia)) as (s2 & M2 & E2 & Hh2 & _ & _ & Hin2).
  change (seqNumber rp1) with 1 in E2. change (1 + (if 1 <? 1 then 1 else 0)) with 1 in E2. exists (with_sl (with_seq rp1 1) s2). cbn [replay_all]. rewrite E1. cbn [obind]. rewrite E2. cbn [obind]. split; [reflexivity|]. split; [reflexivity|].
  apply (get_future _ M2); [reflexivity|reflexivity|exact Hh2|apply H2'|done|]. intros t v Hin Hts. change (seqNumber _) with 1.
  apply Hin2 in Hin as [E|Hin]; [cbn [fst] in E; apply KeyWithTs_inj in E as [E _]; [congruence|done|done]|].
  apply Hin1 in Hin as [E|Hin]; [|by apply elem_of_nil in Hin]. cbn [fst] in E. apply KeyWithTs_inj in E as [_ ->]; [lia|done|done].
Qed.
(** a batch that fits the memtable: what is on the streams after it *)
Lemma batch_streams tries (rp rp1 : RP) kvs log es e o : WriteAll fp rnd sched tries rp kvs = Ok (rp1, None) -> 0 <= seqNumber rp -> seqNumber rp + zlen kvs <= MaxUint64 -> kvs <> [] -> blockWrites rp = false ->
  ls_AppendEntries (logStream rp) (fresh_entries (seqNumber rp) kvs) = Ok (log, inl (es, e, o)) -> logRotates rp = 0 -> (0 < tries)%nat -> 0 <= MemSize (m_sl (rp_mt rp)) ->
  MemSize (m_sl (rp_mt rp)) + est_size es < maxSkipList -> logStream rp1 = log /\ rowStream rp1 = rowStream rp /\ pm_tables rp1 = pm_tables rp.
Proof.
  intros E H0' Hs Hne Hb Ha Hrot Ht Hm Hfit. unfold WriteAll in E. rewrite new_entries_ok in E by done. cbn [with_seq blockWrites] in E. rewrite Hb in E. unfold writeRequests in E.
  assert ((fun e => [e]) <$> fresh_entries (seqNumber rp) kvs <> []) as Hne' by (by destruct kvs as [|[]]).
  destruct ((fun e => [e]) <$> fresh_entries (seqNumber rp) kvs) as [|r rs] eqn:Er; [done|]. rewrite <- Er, mjoin_singles in E. cbn [with_seq logStream] in E. rewrite Ha in E. cbn [obind] in E.
  rewrite make_room_fits in E by done. cbn [obind] in E. unfold writeToLSM in E. apply obind_Ok_inv in E as (rp2 & E2 & E). apply obind_Ok_inv in E2 as (s & _ & E2). injection E2 as <-. injection E as <-. done.
Qed.

(** C39: A batch of two concurrent writes whose second value is the shorter one is acknowledged and
    read back, but after a crash the second key is not found: the log holds the batch sorted by the
    length of the values, and the replay, which raises the sequence number by one for an entry that
    is ahead of it, leaves it below the version of the entry it met first. *)
Theorem crash_loses_newest log row n fuel tries now z k1 v1 k2 v2 : sc_inv 7 log -> ls_tail log 0 0 -> lr_here log 0 0 -> lr_room log z -> sc_inv 8 row ->
  room_for (logs_of [(k1, v1); (k2, v2)]) <= z < 2 ^ 31 -> client_kv k1 v1 -> client_kv k2 v2 -> k1 <> k2 -> zlen v2 < zlen v1 -> (2 <= tries)%nat -> (2 < fuel)%nat ->
  exists rp rp1 rp2 : RP, new_partition log row = Ok rp /\ WriteAll fp rnd sched tries rp [(k1, v1); (k2, v2)] = Ok (rp1, None) /\ rp_Get fp rp1 k2 0 = Ok (inl v2) /\
    open_after_crash n fuel tries now rp1 = Ok rp2 /\ rp_Get fp rp2 k2 0 = Ok (inr errNotFound).
Proof using bloom_small BloomL RowL LogA LogT RowA LogR.
  intros Hlog Htail Hhere Hroom Hrow Hz Hkv1 Hkv2 Hne Hlt Ht Hf.
  destruct (new_partition_eq (Bloom := Bloom) log row) as (s0 & Hs0 & E0). destruct (new_partition_ok (Bloom := Bloom) fp 7 log row Hlog Htail Hrow ltac:(done)) as (rp & E & Hi & _).
  rewrite E0 in E. assert (logStream rp = log /\ rowStream rp = row /\ pm_tables rp = [] /\ seqNumber rp = 0 /\ blockWrites rp = false /\ logRotates rp = 0 /\ MemSize (m_sl (rp_mt rp)) = 107) as (El & Er & Ep & Es & Eb & Erot & Em) by (injection E as <-; exact (conj eq_refl (conj eq_refl (conj eq_refl (conj eq_refl (conj eq_refl (conj eq_refl Hs0))))))).
  assert (maxSkipList = 1048576) as Hmx by done.
  assert (Forall (fun p => client_kv (fst p) (snd p)) [(k1, v1); (k2, v2)]) as Hkvs by (constructor; [exact Hkv1|constructor; [exact Hkv2|constructor]]).
  assert (forall k v, client_kv k v -> estimatedSizeInSkl (new_log k v 0 0) <= 3300) as Hest.
  { intros k v (_ & Hk & _). pose proof (zlen_nonneg k). apply small_estimate; unfold new_log; cbn [Key Value ExpiresAt]; [rewrite zlen_KeyWithTs; lia| |done].
    unfold ShouldWriteValueToLSM. cbn [Meta Value]. intros [_ H']%andb_true_iff. by apply Z.leb_le in H'. }
  pose proof (Hest k1 v1 Hkv1) as He1. pose proof (Hest k2 v2 Hkv2) as He2.
  assert (batch_fits [(k1, v1); (k2, v2)]) as Hbf by (split; [done|]; split; [exact Hkvs|]; split; [lia|]; unfold logs_of; rewrite !fmap_cons; cbn [foldr fst snd]; change (fmap _ []) with (@nil Entry); cbn [foldr]; lia).
  destruct (WriteAll_ok fp rnd sched bloom_small 0 tries rp [] [[]] [] [(k1, v1); (k2, v2)] Hi Ht Hbf) as (rp1 & mems1 & tabs1 & Ew & Hi1 & _).
  destruct (fresh_sizes [(k1, v1); (k2, v2)] 0) as [Hsz1 Hsz2].
  destruct (ls_append_ok 6 log (fresh_entries 0 [(k1, v1); (k2, v2)]) Hlog ltac:(done) (fresh_packable _ Hkvs 0) ltac:(lia)) as (log' & es & e & o & Ea & Hlog' & _ & _ & Hl & _ & _).
  pose proof (est_size_logged _ _ _ Hl) as Hes. rewrite Hsz2 in Hes. destruct Hbf as (_ & _ & _ & Hbf).
  destruct (batch_streams tries rp rp1 _ log' es e o Ew ltac:(lia) ltac:(rewrite Es; vm_compute; done) ltac:(done) Eb ltac:(rewrite El, Es; exact Ea) Erot ltac:(lia) ltac:(lia)) as (El1 & Er1 & Ep1).
  { unfold logs_of in Hes. rewrite !fmap_cons in Hes. cbn [foldr fst snd] in Hes. change (fmap _ []) with (@nil Entry) in Hes. cbn [foldr] in Hes. lia. }
  destruct (lr_append 6 log 0 0 [] (fresh_entries 0 [(k1, v1); (k2, v2)]) log' es e o Hlog (lr_tail _ _ _ _ Hlog Htail) ltac:(done) (fresh_packable _ Hkvs 0) ltac:(lia) Ea) as (perm & R & Hperm & Hso & HR & Hsince).
  destruct (lr_stay 6 log 0 0 z (fresh_entries 0 [(k1, v1); (k2, v2)]) log' es e o Hlog Hhere Hroom ltac:(done) (fresh_packable _ Hkvs 0) ltac:(lia) ltac:(lia) Ea) as [Hhere' _].
  cbn [fresh_entries] in Hperm. apply Permutation_length_2_inv in Hperm as [->| ->].
  { exfalso. apply Sorted_inv in Hso as [_ Hso]. inversion Hso as [|? ? Hle]; subst. unfold new_log in Hle. cbn [Log Value] in Hle. lia. }
  apply Forall2_cons_inv_l in HR as (i2 & R' & HR2 & HR & ->). apply Forall2_cons_inv_l in HR as (i1 & R'' & HR1 & HR & ->). apply Forall2_nil_inv_l in HR as ->.
  pose proof (replayed_ok fp sched 6 log' k2 v2 _ 0 (Some v2) i2 _ _ _ Hlog' Hkv2 (or_introl (conj eq_refl eq_refl)) HR2) as He2'. pose proof (replayed_ok fp sched 6 log' k1 v1 _ 0 (Some v1) i1 _ _ _ Hlog' Hkv1 (or_introl (conj eq_refl eq_refl)) HR1) as He1'.
  destruct (load_partition_eq (Bloom := Bloom) fp rnd sched fuel tries log' row [] [] (sc_inv_le _ 0 _ Hrow ltac:(lia)) ltac:(constructor)) as (s & tbls' & Eload & Hmo & Hms & _ & Hsame).
  apply Forall2_nil_inv_l in Hsame as ->.
  destruct (replay_swapped tries s log' log' row i1 i2 k1 k2 _ _ Hmo Hms ltac:(lia) He1' He2' Hne) as (rp2 & Erep & Etb & Hget).
  exists rp, rp1, rp2. split; [rewrite E0; exact E|]. split; [exact Ew|]. split; [|split; [|exact Hget]].
  { rewrite (rp_Get_ok fp _ rp1 _ mems1 tabs1 k2 Hi1) by apply Hkv2. cbn [fmap list_fmap rev app live fst snd spec_get]. by rewrite decide_True. }
  unfold open_after_crash, OpenRangePartition. rewrite El1, Er1, Ep1, Er, Ep. change (@nil (Z * Z)) with (Loc <$> (@nil (Table (Bloom := Bloom)))). rewrite Eload. unfold replayLog. cbn [replay_from fst snd].
  rewrite (replay_loop_yielding _ _ _ [i2; i1]) by (exact (lr_replay _ _ _ _ _ Hlog' Hhere' Hsince) || (cbn [length]; lia)). rewrite Erep. cbn [obind]. rewrite Etb. reflexivity.
Qed.
End CrashLoss.
