(* ===== verification/DoWrites.v ===== *)
(** The write loop of a partition (range_rangepartition.go, doWrites): requests
    arrive on [writeCh] and are gathered into batches, at most one of which is
    being written at a time. The scheduler's choices are events. *)
From Stdlib Require Import ZArith Lia.
From stdpp Require Import base option list numbers gmap sorting strings.
From S2P Require Import Prelude GoLib Utils Proto ProtoPs Keys YIter Extent MixBlock Stream.
From S2P Require Import Skiplist SkiplistSpec SkiplistPut TableBlock Table TableSpec TableBuild.
From S2P Require Import Partition PartitionSpec PartitionRun.

Abbreviation request := (list EntryInfo).

(** where the loop is: at the first select, at the inner select, waiting for
    [pendingCh] with a full batch, in the drain loop of [closedCase], waiting
    for [pendingCh] with the last batch, returned *)
Inductive wphase := Receiving | Collecting | Full | Draining | Last | Exited.
Record writer := mkWriter {
  w_ch : list request; w_reqs : list request; w_phase : wphase;
  (** [pendingCh] is taken: a batch is being written *)
  w_pending : bool;
  (** the stopper was told to stop *)
  w_stop : bool;
  (** the batches handed to [writeRequests] so far *)
  w_batches : list (list request) }.
Definition new_writer : writer := mkWriter [] [] Receiving false false [].

Inductive wevent :=
  | EvSend (r : request)   (** a client sends on [writeCh] *)
  | EvRecv                 (** the loop receives from [writeCh] *)
  | EvWrite                (** the loop gets [pendingCh] and starts its batch *)
  | EvDone                 (** [writeRequests] returns and frees [pendingCh] *)
  | EvSignal               (** [writeStopper.Stop] *)
  | EvStop                 (** the loop takes the [ShouldStop] case *)
  | EvDefault.             (** the drain loop finds [writeCh] empty *)

Definition start_batch (w : writer) (phase : wphase) : writer :=
  mkWriter (w_ch w) [] phase true (w_stop w) (w_batches w ++ [w_reqs w]).

(** [None] when the event cannot happen in the state *)
Definition w_step (w : writer) (ev : wevent) : option writer :=
  match ev with
  | EvSend r =>
      if zlen (w_ch w) <? writeChCapacity then
        Some (mkWriter (w_ch w ++ [r]) (w_reqs w) (w_phase w) (w_pending w) (w_stop w) (w_batches w))
      else None
  | EvRecv =>
      match w_phase w, w_ch w with
      | Receiving, r :: ch | Collecting, r :: ch =>
          let reqs := w_reqs w ++ [r] in
          Some (mkWriter ch reqs (if isReqsTooBig reqs then Full else Collecting) (w_pending w) (w_stop w) (w_batches w))
      | Draining, r :: ch =>
          let reqs := w_reqs w ++ [r] in
          Some (mkWriter ch reqs (if isReqsTooBig reqs then Full else Draining) (w_pending w) (w_stop w) (w_batches w))
      | _, _ => None
      end
  | EvWrite =>
      if w_pending w then None else
      match w_phase w with
      | Collecting | Full => Some (start_batch w Receiving)
      | Last => Some (start_batch w Exited)
      | _ => None
      end
  | EvDone =>
      if w_pending w then Some (mkWriter (w_ch w) (w_reqs w) (w_phase w) false (w_stop w) (w_batches w)) else None
  | EvSignal => Some (mkWriter (w_ch w) (w_reqs w) (w_phase w) (w_pending w) true (w_batches w))
  | EvStop =>
      if w_stop w then
        match w_phase w with
        | Receiving | Collecting => Some (mkWriter (w_ch w) (w_reqs w) Draining (w_pending w) true (w_batches w))
        | _ => None
        end
      else None
  | EvDefault =>
      match w_phase w, w_ch w with
      | Draining, [] => Some (mkWriter [] (w_reqs w) Last (w_pending w) (w_stop w) (w_batches w))
      | _, _ => None
      end
  end.
Fixpoint w_run (w : writer) (evs : list wevent) : option writer :=
  match evs with
  | [] => Some w
  | ev :: evs => match w_step w ev with Some w => w_run w evs | None => None end
  end.
Definition sent (evs : list wevent) : list request := omap (fun ev => match ev with EvSend r => Some r | _ => None end) evs.

(** ** The batches *)

(** a batch stops growing at the first request that makes it too big *)
Definition closed_early (reqs : list request) : Prop :=
  isReqsTooBig reqs = false \/ exists p r, reqs = p ++ [r] /\ isReqsTooBig p = false.
Definition phase_ok (w : writer) : Prop :=
  match w_phase w with
  | Receiving | Exited => w_reqs w = []
  | Collecting => w_reqs w <> [] /\ isReqsTooBig (w_reqs w) = false
  | Draining | Last => isReqsTooBig (w_reqs w) = false
  | Full => w_reqs w <> [] /\ closed_early (w_reqs w)
  end.
Record w_inv (w : writer) (sends : list request) : Prop := mk_w_inv {
  wi_fifo : mjoin (w_batches w) ++ w_reqs w ++ w_ch w = sends;
  wi_phase : phase_ok w;
  wi_early : Forall closed_early (w_batches w);
  wi_work : w_phase w <> Exited -> Forall (fun b => b <> []) (w_batches w);
  wi_ch : zlen (w_ch w) <= writeChCapacity;
  wi_drain : w_phase w = Draining \/ w_phase w = Last \/ w_phase w = Exited -> w_stop w = true }.

Lemma phase_closed w : phase_ok w -> closed_early (w_reqs w).
Proof.
  unfold phase_ok. destruct (w_phase w); intros Hp; first [by rewrite Hp; left|by left; apply Hp|apply Hp].
Qed.

Lemma start_inv w sends phase : w_inv w sends -> phase = Receiving \/ phase = Exited -> w_pending w = false ->
  (phase = Receiving -> w_reqs w <> [] /\ w_phase w <> Exited) -> (phase = Exited -> w_stop w = true) ->
  w_inv (start_batch w phase) sends.
Proof.
  intros [Hf Hp He Hw Hc Hd] Hph _ Hne Hst. split; cbn [start_batch w_batches w_reqs w_ch w_phase w_stop].
  - rewrite join_app. change (mjoin [w_reqs w]) with (w_reqs w ++ []). rewrite app_nil_r, <- app_assoc. exact Hf.
  - by destruct Hph as [-> | ->].
  - apply Forall_app. split; [done|]. constructor; [by apply phase_closed|done].
  - intros Hx. destruct Hph as [-> | ->]; [|done]. destruct (Hne eq_refl). apply Forall_app. split; [by apply Hw|by constructor].
  - done.
  - intros [-> | [-> | ->]]; destruct Hph; try done. by apply Hst.
Qed.

Lemma recv_inv w sends r ch phase : w_inv w sends -> w_ch w = r :: ch -> isReqsTooBig (w_reqs w) = false ->
  w_phase w <> Exited -> phase = Collecting \/ (phase = Draining /\ w_phase w = Draining) ->
  let reqs := w_reqs w ++ [r] in
  w_inv (mkWriter ch reqs (if isReqsTooBig reqs then Full else phase) (w_pending w) (w_stop w) (w_batches w)) sends.
Proof.
  intros [Hf Hp He Hw Hc Hd] Hch Hsmall Hx Hph reqs. rewrite Hch in *. assert (reqs <> []) by (unfold reqs; by destruct (w_reqs w)).
  split; cbn [w_batches w_reqs w_ch w_phase w_stop].
  - unfold reqs. rewrite <- Hf, <- app_assoc. done.
  - unfold phase_ok. cbn [w_phase w_reqs]. destruct (isReqsTooBig reqs) eqn:Eb.
    + split; [done|]. right. by exists (w_reqs w), r.
    + by destruct Hph as [-> | [-> _]].
  - done.
  - intros _. by apply Hw.
  - rewrite zlen_cons in Hc. lia.
  - destruct (isReqsTooBig reqs); [by intros [|[|]]|]. destruct Hph as [-> | [-> Hdr]]; [by intros [|[|]]|]. intros _. apply Hd. by left.
Qed.

Lemma step_inv w ev w' sends : w_inv w sends -> w_step w ev = Some w' -> w_inv w' (sends ++ sent [ev]).
Proof.
  intros Hi Hs. pose proof Hi as [Hf Hp He Hw Hc Hd]. unfold phase_ok in Hp.
  destruct ev; cbn [w_step sent omap list_omap] in *; rewrite ?app_nil_r.
  - destruct (Z.ltb_spec (zlen (w_ch w)) writeChCapacity); [|done]. injection Hs as <-.
    split; cbn [w_batches w_reqs w_ch w_phase w_stop]; try done.
    + rewrite <- Hf, <- !app_assoc. done.
    + rewrite zlen_app. change (zlen [r]) with 1. lia.
  - destruct (w_phase w) eqn:Eph, (w_ch w) as [|r ch] eqn:Ech; try done; injection Hs as <-; apply recv_inv; try done;
      try (by rewrite Eph); try (by left); try (by right).
    + by rewrite Hp.
    + apply Hp.
  - destruct (w_pending w) eqn:Epd; [done|]. destruct (w_phase w) eqn:Eph; try done; injection Hs as <-; apply start_inv; try done;
      try (by left); try (by right); try (intros _; split; [apply Hp|by rewrite Eph]).
    intros _. apply Hd. by right; left.
  - destruct (w_pending w); [|done]. by injection Hs as <-.
  - injection Hs as <-. by split.
  - destruct (w_stop w) eqn:Est; [|done]. destruct (w_phase w) eqn:Eph; try done; injection Hs as <-;
      (split; cbn [w_batches w_reqs w_ch w_phase w_stop]; [done| |done|by intros _; apply Hw|done|done]); unfold phase_ok; cbn [w_phase w_reqs].
    + by rewrite Hp.
    + apply Hp.
  - destruct (w_phase w) eqn:Eph, (w_ch w) as [|r ch] eqn:Ech; try done. injection Hs as <-.
    split; cbn [w_batches w_reqs w_ch w_phase w_stop]; [done|exact Hp|done|by intros _; apply Hw|done|].
    intros _. apply Hd. by left.
Qed.
Lemma run_inv evs : forall w sends w', w_inv w sends -> w_run w evs = Some w' -> w_inv w' (sends ++ sent evs).
Proof.
  induction evs as [|ev evs IH]; intros w sends w' Hi Hr; cbn [w_run] in Hr.
  { injection Hr as <-. by rewrite app_nil_r. }
  destruct (w_step w ev) as [w1|] eqn:Es; [|done]. apply (step_inv _ _ _ _ Hi) in Es.
  apply (IH _ _ _ Es) in Hr. rewrite <- app_assoc in Hr. change (ev :: evs) with ([ev] ++ evs). unfold sent in *. by rewrite omap_app.
Qed.
Lemma new_writer_inv : w_inv new_writer [].
Proof. split; [done|done|constructor|constructor|done|by intros [|[|]]]. Qed.

(** ** Termination *)

Definition loop_event (ev : wevent) : bool := match ev with EvSend _ | EvSignal => false | _ => true end.
Definition phase_weight (p : wphase) : nat :=
  match p with Exited => 0 | Last => 2 | Draining => 3 | Receiving => 4 | Collecting | Full => 6 end.
Definition w_budget (w : writer) : nat :=
  (8 * length (w_ch w) + phase_weight (w_phase w) + if w_pending w then 1 else 0)%nat.

Lemma step_budget w ev w' : loop_event ev = true -> w_step w ev = Some w' -> (w_budget w' < w_budget w)%nat.
Proof.
  unfold w_budget. destruct w as [ch reqs ph pd st bs]. destruct ev; try done; intros _; cbn [w_step w_pending w_phase w_ch w_stop w_reqs w_batches];
    [destruct ph, ch|destruct pd, ph|destruct pd|destruct st, ph|destruct ph, ch]; try done; intros [= <-];
    cbn [w_pending w_phase w_ch start_batch length phase_weight]; try lia;
    destruct (isReqsTooBig _); cbn [phase_weight]; lia.
Qed.
Lemma run_budget evs : forall w w', Forall (fun ev => loop_event ev = true) evs -> w_run w evs = Some w' ->
  (length evs + w_budget w' <= w_budget w)%nat.
Proof.
  induction evs as [|ev evs IH]; intros w w' Hl Hr; cbn [w_run] in Hr; [injection Hr as <-; cbn; lia|].
  apply Forall_cons in Hl as [Hev Hl]. destruct (w_step w ev) as [w1|] eqn:Es; [|done].
  pose proof (step_budget _ _ _ Hev Es). pose proof (IH _ _ Hl Hr). cbn [length]. lia.
Qed.

(** a stopped loop with nothing to do has returned *)
Lemma stuck_exited w sends : w_inv w sends -> w_stop w = true ->
  (forall ev, loop_event ev = true -> w_step w ev = None) -> w_phase w = Exited /\ w_pending w = false.
Proof.
  intros Hi Hst Hno. pose proof (Hno EvDone eq_refl) as Hd. cbn [w_step] in Hd. destruct (w_pending w) eqn:Hp; [done|]. split; [|done].
  pose proof (Hno EvWrite eq_refl) as Hw. pose proof (Hno EvStop eq_refl) as Hs. pose proof (Hno EvRecv eq_refl) as Hr.
  pose proof (Hno EvDefault eq_refl) as Hf. cbn [w_step] in *. rewrite Hp in Hw. rewrite Hst in Hs.
  by destruct (w_phase w), (w_ch w).
Qed.

Definition emptied (w : writer) : Prop := w_phase w = Last \/ w_phase w = Exited -> w_ch w = [].
Lemma step_emptied w ev w' : loop_event ev = true -> emptied w -> w_step w ev = Some w' ->
  emptied w' /\ (w_stop w = true -> w_stop w' = true).
Proof.
  unfold emptied. destruct w as [ch reqs ph pd st bs]. destruct ev; try done; intros _; cbn [w_step w_pending w_phase w_ch w_stop w_reqs w_batches];
    intros Hem; [destruct ph, ch|destruct pd, ph|destruct pd|destruct st, ph|destruct ph, ch]; try done; intros [= <-];
    cbn [w_pending w_phase w_ch w_stop start_batch]; (split; [|done]); intros [|]; try done; auto;
    by destruct (isReqsTooBig _).
Qed.
Lemma run_emptied evs : forall w w', Forall (fun ev => loop_event ev = true) evs -> emptied w -> w_run w evs = Some w' ->
  emptied w' /\ (w_stop w = true -> w_stop w' = true) /\ sent evs = [].
Proof.
  induction evs as [|ev evs IH]; intros w w' Hl He Hr; cbn [w_run] in Hr; [by injection Hr as <-|].
  apply Forall_cons in Hl as [Hev Hl]. destruct (w_step w ev) as [w1|] eqn:Es; [|done].
  destruct (step_emptied _ _ _ Hev He Es) as [He1 Hs1]. destruct (IH _ _ Hl He1 Hr) as (He' & Hs' & Hn).
  split; [done|]. split; [auto|]. by destruct ev.
Qed.

(** C15: Whatever the scheduler does, the write loop loses, duplicates and reorders no request: the
    batches handed to writeRequests, the batch in hand and the channel together are exactly the
    requests sent, in order, while it runs no batch is empty, and a batch stops growing at the first
    request that makes it too big. *)
Theorem doWrites_fifo evs w : w_run new_writer evs = Some w ->
  mjoin (w_batches w) ++ w_reqs w ++ w_ch w = sent evs /\ Forall closed_early (w_batches w) /\
  (w_phase w <> Exited -> Forall (fun b => b <> []) (w_batches w)) /\ (w_phase w = Exited -> w_reqs w = []).
Proof.
  intros Hr. apply (run_inv _ _ _ _ new_writer_inv) in Hr. destruct Hr as [Hf Hp He Hw _ _].
  split; [done|]. split; [done|]. split; [done|]. intros E. unfold phase_ok in Hp. by rewrite E in Hp.
Qed.

(** C16: Once the write loop is told to stop and nothing more is sent, its own events are bounded in
    number, and when none is left it has returned with every request sent in a batch. *)
Theorem doWrites_drains evs w evs' w' : w_run new_writer evs = Some w -> w_stop w = true ->
  Forall (fun ev => loop_event ev = true) evs' -> w_run w evs' = Some w' ->
  (length evs' <= w_budget w)%nat /\
  ((forall ev, loop_event ev = true -> w_step w' ev = None) -> w_phase w <> Last -> w_phase w <> Exited ->
    w_phase w' = Exited /\ w_pending w' = false /\ mjoin (w_batches w') = sent evs).
Proof.
  intros Hr Hst Hl Hr'. pose proof (run_budget _ _ _ Hl Hr'). split; [lia|]. intros Hno Hn1 Hn2.
  apply (run_inv _ _ _ _ new_writer_inv) in Hr. pose proof (run_inv _ _ _ _ Hr Hr') as Hi'.
  destruct (run_emptied _ _ _ Hl ltac:(by intros [|]) Hr') as (He & Hs & Hsent).
  destruct (stuck_exited _ _ Hi' (Hs Hst) Hno) as [Hx Hp]. split; [done|]. split; [done|].
  pose proof (wi_fifo _ _ Hi') as Hf. pose proof (wi_phase _ _ Hi') as Hph. unfold phase_ok in Hph. rewrite Hx in Hph.
  rewrite Hph, (He (or_intror Hx)), Hsent, !app_nil_r in Hf. exact Hf.
Qed.

(** ** What a batch takes *)

Lemma too_big_bounds reqs : forall size n, too_big_loop reqs size n = false -> size <= 30 * MB -> n <= 3 * writeChCapacity ->
  size + request_Size (mjoin reqs) <= 30 * MB /\ n + zlen (mjoin reqs) <= 3 * writeChCapacity.
Proof.
  induction reqs as [|r reqs IH]; intros size n Hb Hs Hn.
  { change (mjoin []) with (@nil EntryInfo). change (zlen (@nil EntryInfo)) with 0. cbn [request_Size foldr]. lia. }
  cbn [too_big_loop] in Hb. destruct (Z.ltb_spec (30 * MB) (size + request_Size r)); [done|].
  destruct (Z.ltb_spec (3 * writeChCapacity) (n + zlen r)); [done|].
  destruct (IH _ _ Hb ltac:(lia) ltac:(lia)) as [IH1 IH2]. change (mjoin (r :: reqs)) with (r ++ mjoin reqs).
  rewrite zlen_app. unfold request_Size in *. rewrite foldr_app.
  assert (forall l (m : Z), foldr (fun e n => Entry_Size (Log e) + n) m l = foldr (fun e n => Entry_Size (Log e) + n) 0 l + m) as Hfold
    by (induction l as [|e l IHl]; intros m; cbn [foldr]; [lia|rewrite IHl; lia]).
  rewrite Hfold. lia.
Qed.

(** a request of [Write], [WriteAsync] or [Delete] *)
Definition client_request (r : request) : Prop :=
  exists k v t meta, client_kv k v /\ (meta = 0 \/ (meta = BitDelete /\ v = [])) /\ r = [mkEI (new_log k v t meta) 0 0 0].
Definition client_entry (e : EntryInfo) : Prop :=
  packable (Log e) /\ Entry_Size (Log e) <= 2 ^ 30 + 2111 /\ 0 <= estimatedSizeInSkl (Log e) <= 3200.

Lemma client_request_entry r : client_request r -> exists e, r = [e] /\ client_entry e.
Proof.
  intros (k & v & t & meta & Hkv & Hm & ->). eexists. split; [done|]. cbn [Log].
  assert (meta = 0 \/ meta = BitDelete) as Hm' by (destruct Hm as [|[]]; auto).
  pose proof (new_log_packable k v t meta Hkv Hm') as Hp. pose proof Hkv as (Hne & Hk & Hv).
  split; [done|]. destruct Hp as (Hwf & _). pose proof (Entry_bytes_bound _ Hwf) as Hb. rewrite <- Entry_Size_bytes in Hb by done.
  unfold new_log in Hb at 2 3. cbn [Key Value] in Hb. rewrite zlen_KeyWithTs in Hb. split; [cbn [Log]; lia|]. cbn [Log].
  unfold estimatedSizeInSkl. change (Key (new_log k v t meta)) with (KeyWithTs k t). change (Value (new_log k v t meta)) with v.
  change (SizeVarint (ExpiresAt (new_log k v t meta))) with 1. rewrite zlen_KeyWithTs. cbv zeta.
  unfold MaxNodeSize, vptrSize. pose proof (zlen_nonneg k). pose proof (zlen_nonneg v).
  destruct (ShouldWriteValueToLSM _) eqn:Es; [|lia].
  unfold ShouldWriteValueToLSM, new_log in Es. cbn [Meta Value] in Es. apply andb_true_iff in Es as [_ Es]. apply Z.leb_le in Es.
  change ValueThrottle with 1024 in Es. lia.
Qed.
Lemma client_entries b : Forall client_request b -> Forall client_entry (mjoin b) /\ zlen (mjoin b) = zlen b.
Proof.
  induction 1 as [|r b Hr _ [IH1 IH2]]; [by split|]. destruct (client_request_entry r Hr) as (e & -> & He).
  change (mjoin ([e] :: b)) with (e :: mjoin b). rewrite !zlen_cons, IH2. by split; [constructor|].
Qed.
Lemma entries_size es : Forall client_entry es ->
  room_for (Log <$> es) = request_Size es + 4608 * zlen es /\ 0 <= est_size es <= 3200 * zlen es.
Proof.
  induction 1 as [|e es (_ & _ & He) _ [IH1 IH2]]; [done|]. rewrite fmap_cons, est_size_cons, zlen_cons.
  unfold request_Size, room_for in *. cbn [foldr]. change MaxMixedBlockSize with 4096 in *. lia.
Qed.

(** C18: Every batch the write loop makes of client requests with keys of at most 2 KB and values
    below 1 GB fits a new memtable and the log: fewer than 2^31 bytes of blocks, and at most the
    arena that ensureRoomForWrite provides. The code checks neither limit; a key as long as a
    memtable fails the assertion of ensureRoomForWrite (long_key_panics). *)
Theorem batches_fit evs w b : w_run new_writer evs = Some w -> Forall client_request (sent evs) -> b ∈ w_batches w ->
  zlen (mjoin b) <= 193 /\ Forall (fun e => packable (Log e)) (mjoin b) /\
  room_for (Log <$> mjoin b) < 2 ^ 31 /\ 107 + est_size (mjoin b) <= maxSkipList.
Proof.
  intros Hr Hc Hb. apply (run_inv _ _ _ _ new_writer_inv) in Hr.
  pose proof (wi_early _ _ Hr) as He. rewrite Forall_forall in He. specialize (He b Hb).
  pose proof (wi_fifo _ _ Hr) as Hf. cbn [app] in Hf. rewrite <- Hf in Hc. apply Forall_app in Hc as [Hc _].
  assert (Forall client_request b) as Hcb.
  { rewrite Forall_forall in Hc |- *. intros r Hin. apply Hc. apply list_elem_of_join. by exists b. }
  destruct (client_entries b Hcb) as [Hes _]. destruct (entries_size _ Hes) as [Hroom Hest].
  assert (zlen (mjoin b) <= 193 /\ request_Size (mjoin b) <= 30 * MB + (2 ^ 30 + 2111)) as [Hn Hs].
  { destruct He as [He|(p & r & -> & He)]; apply too_big_bounds in He as [Hs Hn]; try done; change MB with 1048576 in *; unfold writeChCapacity in *; [lia|].
    apply Forall_app in Hcb as [_ Hcr]. apply Forall_cons in Hcr as [Hcr _]. destruct (client_request_entry r Hcr) as (e & -> & _ & Hsz & _).
    rewrite join_app. change (mjoin [[e]]) with [e]. rewrite zlen_app. change (zlen [e]) with 1.
    assert (request_Size (mjoin p ++ [e]) = request_Size (mjoin p) + Entry_Size (Log e)) as ->; [|lia].
    generalize (mjoin p) as l. intros l. unfold request_Size. induction l as [|x l IH]; cbn [foldr app]; lia. }
  split; [done|]. split; [eapply Forall_impl; [exact Hes|]; by intros e [He' _]|].
  rewrite Hroom. change MB with 1048576 in *. change maxSkipList with 1048576. split; lia.
Qed.

(** The bound needs the limit on keys, which the code does not check: an entry
    whose key is as long as a memtable fails the assertion of ensureRoomForWrite. *)
Lemma long_key_panics {LogSt RowSt Bloom : Type} (rp : RangePartition (LogSt := LogSt) (RowSt := RowSt) (Bloom := Bloom)) e head :
  is_u64 (ExpiresAt (Log e)) -> maxSkipList <= zlen (Key (Log e)) -> ensureRoomForWrite rp [e] head = Panic.
Proof.
  intros Hx Hk. unfold ensureRoomForWrite. cbn [foldr]. destruct (Z.leb_spec (estimatedSizeInSkl (Log e) + 0) maxSkipList) as [Hle|_]; [|done].
  unfold estimatedSizeInSkl in Hle. pose proof (zlen_nonneg (Value (Log e))). rewrite SizeVarint_PutUvarint in Hle by (unfold is_u64 in Hx; lia). pose proof (zlen_nonneg (PutUvarint (ExpiresAt (Log e)))).
  change MaxNodeSize with 96 in Hle. change vptrSize with 16 in Hle. destruct (ShouldWriteValueToLSM (Log e)); lia.
Qed.
