(* ===== verification/Etcd.v ===== *)
(** The etcd operations of the managers (manager/etcd_op.go) and the keys they
    use (streammanager/sm_service.go). etcd itself is a map from keys to values
    with atomic transactions; what the network does to a request is an input. *)
From Stdlib Require Import ZArith Lia Strings.String Strings.Ascii.
From stdpp Require Import base option list numbers gmap sorting strings.
From S2P Require Import Prelude GoLib Proto.

(** ** Decimal numbers: [fmt.Sprintf("%d")] and [strconv.ParseUint(s, 10, 64)] *)

Definition digit (d : Z) : ascii := ascii_of_nat (Z.to_nat (48 + d)).
Fixpoint dec_loop (fuel : nat) (n : Z) (acc : string) : string :=
  match fuel with
  | O => acc
  | S fuel =>
      let acc := String (digit (n mod 10)) acc in
      if n / 10 =? 0 then acc else dec_loop fuel (n / 10) acc
  end.
(** a uint64 has at most 20 digits *)
Definition format_uint (n : Z) : string := dec_loop 20 n EmptyString.

Definition errSyntax : error := Errorf "invalid syntax".
Definition errRange : error := Errorf "value out of range".
Fixpoint parse_loop (s : string) (n : Z) : outcome Z :=
  match s with
  | EmptyString => Ok n
  | String c s =>
      let d := Z.of_nat (nat_of_ascii c) - 48 in
      if (0 <=? d) && (d <=? 9) then
        let n := n * 10 + d in
        if MaxUint64 <? n then Err errRange else parse_loop s n
      else Err errSyntax
  end.
Definition ParseUint (s : string) : outcome Z := match s with EmptyString => Err errSyntax | _ => parse_loop s 0 end.

Definition slash : ascii := "/"%char.
(** [strings.Split(s, "/")] *)
Fixpoint split_slash (s : string) : list string :=
  match s with
  | EmptyString => [EmptyString]
  | String c s =>
      if decide (c = slash) then EmptyString :: split_slash s
      else match split_slash s with p :: ps => String c p :: ps | [] => [String c EmptyString] end
  end.

Definition formatStreamKey (id : Z) : string := String.append "streams/" (format_uint id).
Definition formatNodeKey (id : Z) : string := String.append "nodes/" (format_uint id).
Definition formatExtentReplicate (id : Z) : string := String.append "extents/" (format_uint id).
Definition parseKey (s prefix : string) : outcome Z :=
  match split_slash s with
  | [p; n] => if decide (p = prefix) then ParseUint n else Err (Errorf "parse key failed, parts[0] not match")
  | _ => Err (Errorf "parse key failed")
  end.

(** ** Transactions *)

Abbreviation etcd := (gmap string bytes).
(** [Value(key) = v] and [CreateRevision(key) = 0] *)
Inductive Cmp := CmpValue (key : string) (v : bytes) | CmpAbsent (key : string).
Inductive Op := OpPut (key : string) (v : bytes).
Definition cmp_holds (db : etcd) (c : Cmp) : bool :=
  match c with
  | CmpValue k v => bool_decide (db !! k = Some v)
  | CmpAbsent k => bool_decide (db !! k = None)
  end.
Definition apply_op (db : etcd) (op : Op) : etcd := match op with OpPut k v => <[k := v]> db end.
Definition txn (db : etcd) (cmps : list Cmp) (ops : list Op) : etcd * bool :=
  if forallb (cmp_holds db) cmps then (foldl apply_op db ops, true) else (db, false).

(** a request is answered, is lost before it takes effect, or its answer is *)
Inductive net := Delivered | Lost | NoReply.
(** [Commit]: the response is nil when there is an error *)
Definition Commit (n : net) (cmps : list Cmp) (ops : list Op) (db : etcd) : etcd * option bool :=
  match n with
  | Delivered => let '(db, ok) := txn db cmps ops in (db, Some ok)
  | Lost => (db, None)
  | NoReply => (fst (txn db cmps ops), None)
  end.

(** computations that change etcd and may fail *)
Definition tx (A : Type) : Type := etcd -> etcd * outcome A.
Definition tret {A} (o : outcome A) : tx A := fun db => (db, o).
Definition tbind {A B} (m : tx A) (k : A -> tx B) : tx B := fun db =>
  match m db with
  | (db, Ok a) => k a db
  | (db, Err e) => (db, Err e)
  | (db, Panic) => (db, Panic)
  end.
Notation "'let*' x := m 'in' k" := (tbind m (fun x => k))
  (at level 10, x pattern, m at level 100, k at level 200) : go_scope.

(** [errors.Wrap(nil, msg)] is nil *)
Definition Wrap (err : option error) (msg : string) : option error := match err with None => None | Some _ => Some (Errorf msg) end.
Definition result (err : option error) : outcome unit := match err with None => Ok tt | Some e => Err e end.
Definition EtctSetKVS (n : net) (cmps : list Cmp) (ops : list Op) : tx unit := fun db =>
  match Commit n cmps ops db with
  (** [res.Succeeded] of a nil response *)
  | (db, None) => (db, Panic)
  | (db, Some succeeded) => (db, if negb succeeded then result (Wrap None "SetKVs failed") else Ok tt)
  end.

Definition errTimeout : error := Errorf "context deadline exceeded".
Definition EtcdSetKV (n : net) (key : string) (val : bytes) : tx unit := fun db =>
  match n with
  | Delivered => (<[key := val]> db, Ok tt)
  | Lost => (db, Err errTimeout)
  | NoReply => (<[key := val]> db, Err errTimeout)
  end.
Definition EtcdGetKV (n : net) (key : string) : tx (option bytes) := fun db =>
  (db, match n with Delivered => Ok (db !! key) | _ => Err errTimeout end).
Definition key_ord (a b : string * bytes) : Prop := String.compare (fst a) (fst b) <> Gt.
#[export] Instance key_ord_dec : RelDecision key_ord.
Proof. intros a b. unfold key_ord. solve_decision. Defined.
Definition EtcdRange (n : net) (prefix : string) : tx (list (string * bytes)) := fun db =>
  (db, match n with
       | Delivered => Ok (merge_sort key_ord (filter (fun kv => String.prefix prefix (fst kv) = true) (map_to_list db)))
       | _ => Err errTimeout
       end).

(** ** Unique ids *)

(** [binary.BigEndian.Uint64] *)
Definition Uint64 (b : bytes) : outcome Z := let! b := slice b 0 8 in Ok (be_get b).
(** the value read, the next id and the guard of the transaction *)
Definition alloc_read (n : net) (idKey : string) : tx (Z * Cmp) :=
  let* curValue := EtcdGetKV n idKey in
  tret (match curValue with
        | None => Ok (1, CmpAbsent idKey)
        | Some v => let! curr := Uint64 v in Ok (curr, CmpValue idKey v)
        end).
(** whether the transaction succeeded is not looked at *)
Definition alloc_commit (n : net) (idKey : string) (count : Z) (curr : Z) (cmp : Cmp) : tx (Z * Z) := fun db =>
  match Commit n [cmp] [OpPut idKey (PutUint64 (u64 (curr + count)))] db with
  | (db, None) => (db, Err errTimeout)
  | (db, Some _) => (db, Ok (curr, u64 (curr + count)))
  end.
Definition EtcdAllocUniqID (n1 n2 : net) (idKey : string) (count : Z) : tx (Z * Z) :=
  let* (curr, cmp) := alloc_read n1 idKey in alloc_commit n2 idKey count curr cmp.

(** ** What both managers use *)

(** the order in which [range] walks a map, and what [sort.Slice] does with a
    comparison *)
Class GoOrder := {
  map_range : forall {A}, gmap Z A -> list (Z * A);
  map_range_perm : forall {A} (m : gmap Z A), Permutation (map_to_list m) (map_range m);
  sort_less : forall {A} (less : A -> A -> bool), list A -> list A;
  sort_less_perm : forall {A} (less : A -> A -> bool) l, Permutation l (sort_less less l) }.

(** [utils.Check] *)
Definition must {A} (o : outcome A) : outcome A := match o with Err _ => Panic | _ => o end.

(** the loop that loads one kind of entry into memory (runAsLeader of both
    managers); after a bad entry the process does not become the
    leader, and what it has loaded so far is never looked at *)
Fixpoint load_kvs {A} (unmarshal : bytes -> outcome A) (prefix : string) (kvs : list (string * bytes)) (m : gmap Z A) : outcome (gmap Z A) :=
  match kvs with
  | [] => Ok m
  | (k, v) :: kvs =>
      let! id := parseKey k prefix in
      let! info := unmarshal v in
      load_kvs unmarshal prefix kvs (<[id := info]> m)
  end.

(** ** Numbers *)

Lemma digit_ok d : 0 <= d <= 9 -> Z.of_nat (nat_of_ascii (digit d)) - 48 = d.
Proof. intros Hd. unfold digit. rewrite nat_ascii_embedding by lia. lia. Qed.
Lemma digit_no_slash d : 0 <= d <= 9 -> digit d <> slash.
Proof. intros Hd E. pose proof (digit_ok d Hd) as Ed. rewrite E in Ed. vm_compute in Ed. lia. Qed.

Lemma dec_loop_ok fuel : forall n acc, 0 <= n <= MaxUint64 -> n < 10 ^ Z.of_nat fuel -> (0 < fuel)%nat ->
  parse_loop (dec_loop fuel n acc) 0 = parse_loop acc n.
Proof.
  induction fuel as [|fuel IH]; intros n acc Hn Hlt Hf; [lia|]. cbn [dec_loop].
  pose proof (Z.mod_pos_bound n 10 ltac:(lia)) as Hm. pose proof (Z.div_mod n 10 ltac:(lia)) as Hd.
  destruct (Z.eqb_spec (n / 10) 0) as [E|E].
  - cbn [parse_loop]. rewrite digit_ok by lia. destruct (Z.leb_spec 0 (n mod 10)), (Z.leb_spec (n mod 10) 9); try lia. cbn [andb].
    destruct (Z.ltb_spec MaxUint64 (0 * 10 + n mod 10)); [lia|]. f_equal. lia.
  - assert (0 <= n / 10) by (apply Z.div_pos; lia).
    assert (n / 10 < 10 ^ Z.of_nat fuel) by (apply Z.div_lt_upper_bound; [lia|]; rewrite Nat2Z.inj_succ, Z.pow_succ_r in Hlt; lia).
    rewrite IH; [|lia|done|destruct fuel; [cbn in *; lia|lia]]. cbn [parse_loop]. rewrite digit_ok by lia.
    destruct (Z.leb_spec 0 (n mod 10)), (Z.leb_spec (n mod 10) 9); try lia. cbn [andb].
    destruct (Z.ltb_spec MaxUint64 (n / 10 * 10 + n mod 10)); [lia|]. f_equal. lia.
Qed.
Lemma dec_loop_cons fuel : forall n acc, (0 < fuel)%nat -> exists c s, dec_loop fuel n acc = String c s.
Proof.
  induction fuel as [|fuel IH]; intros n acc Hf; [lia|]. cbn [dec_loop]. destruct (n / 10 =? 0); [by eexists _, _|].
  destruct fuel as [|fuel]; [by eexists _, _|]. apply IH. lia.
Qed.
Lemma ParseUint_format n : is_u64 n -> ParseUint (format_uint n) = Ok n.
Proof.
  unfold is_u64. intros Hn. unfold format_uint. pose proof (dec_loop_ok 20 n EmptyString) as E. cbn [parse_loop] in E.
  destruct (dec_loop_cons 20 n EmptyString ltac:(lia)) as (c & s & Ec). unfold ParseUint. rewrite Ec in *.
  apply E; [unfold MaxUint64; lia|change (10 ^ Z.of_nat 20) with 100000000000000000000; lia|lia].
Qed.

(** ** Keys *)

Fixpoint no_slash (s : string) : Prop := match s with EmptyString => True | String c s => c <> slash /\ no_slash s end.
Lemma dec_loop_no_slash fuel : forall n acc, 0 <= n -> no_slash acc -> no_slash (dec_loop fuel n acc).
Proof.
  induction fuel as [|fuel IH]; intros n acc Hn Ha; [done|]. cbn [dec_loop].
  pose proof (Z.mod_pos_bound n 10 ltac:(lia)) as Hm. assert (no_slash (String (digit (n mod 10)) acc)) by (split; [apply digit_no_slash; lia|done]).
  destruct (n / 10 =? 0); [done|]. apply IH; [by apply Z.div_pos|done].
Qed.
Lemma split_no_slash s : no_slash s -> split_slash s = [s].
Proof. induction s as [|c s IH]; [done|]. intros [Hc Hs]. cbn [split_slash]. rewrite decide_False, IH by done. done. Qed.
Lemma split_append p s : no_slash p -> no_slash s -> split_slash (String.append p (String slash s)) = [p; s].
Proof.
  intros Hp Hs. induction p as [|c p IH].
  - change (split_slash (String slash s) = [EmptyString; s]). cbn [split_slash]. rewrite decide_True by done. by rewrite split_no_slash.
  - destruct Hp as [Hc Hp]. change (split_slash (String c (String.append p (String slash s))) = [String c p; s]). cbn [split_slash].
    rewrite decide_False, IH by done. done.
Qed.
Lemma parse_format prefix id : no_slash prefix -> is_u64 id ->
  parseKey (String.append prefix (String slash (format_uint id))) prefix = Ok id.
Proof.
  intros Hp Hid. unfold parseKey. rewrite split_append; [|done|apply dec_loop_no_slash; [apply Hid|done]].
  rewrite decide_True by done. by apply ParseUint_format.
Qed.
Lemma parse_stream id : is_u64 id -> parseKey (formatStreamKey id) "streams" = Ok id.
Proof. intros Hid. apply (parse_format "streams" id); [|done]. repeat split; discriminate. Qed.
Lemma parse_node id : is_u64 id -> parseKey (formatNodeKey id) "nodes" = Ok id.
Proof. intros Hid. apply (parse_format "nodes" id); [|done]. repeat split; discriminate. Qed.
Lemma parse_extent id : is_u64 id -> parseKey (formatExtentReplicate id) "extents" = Ok id.
Proof. intros Hid. apply (parse_format "extents" id); [|done]. repeat split; discriminate. Qed.

(** ** Unique ids *)

(** the next id to be given out *)
Definition next_id (db : etcd) (idKey : string) (n : Z) : Prop :=
  1 <= n < 2 ^ 64 /\ match db !! idKey with None => n = 1 | Some v => v = PutUint64 n end.

Lemma alloc_read_ok db idKey n : next_id db idKey n ->
  exists cmp, alloc_read Delivered idKey db = (db, Ok (n, cmp)) /\ cmp_holds db cmp = true.
Proof.
  intros [Hn Hv]. unfold alloc_read, tbind, EtcdGetKV, tret. destruct (db !! idKey) as [v|] eqn:E; cbn [obind].
  - exists (CmpValue idKey v). subst v. split; [|cbn; by rewrite bool_decide_true].
    unfold Uint64. pose proof (zlen_be_put 8 n) as Hz. fold (PutUint64 n) in Hz. rewrite slice_Ok by lia. cbn [obind].
    rewrite Z.sub_0_r, (zdrop_0 0), (ztake_ge 8) by lia. rewrite Uint64_Put, u64_small by lia. done.
  - exists (CmpAbsent idKey). subst n. split; [done|]. cbn. by rewrite bool_decide_true.
Qed.
Lemma EtcdAllocUniqID_ok db idKey n count : next_id db idKey n -> 0 <= count -> n + count < 2 ^ 64 ->
  exists db', EtcdAllocUniqID Delivered Delivered idKey count db = (db', Ok (n, n + count)) /\ next_id db' idKey (n + count) /\
    forall k, k <> idKey -> db' !! k = db !! k.
Proof.
  intros Hn Hc Hlt. destruct (alloc_read_ok db idKey n Hn) as (cmp & E & Hcmp). destruct Hn as [Hn _].
  unfold EtcdAllocUniqID, tbind. rewrite E. unfold alloc_commit, Commit, txn. cbn [forallb]. rewrite Hcmp. cbn [andb foldl apply_op].
  rewrite u64_small by lia. eexists. split; [done|]. split; [split; [lia|]; by rewrite lookup_insert_eq|]. intros k Hk. by rewrite lookup_insert_ne.
Qed.
