(* ===== verification/EtcdSpec.v ===== *)
(** What both managers rely on: entries of one kind in etcd mirror a map and are
    loaded back as that map; what can happen to an allocation of ids and to a
    guarded write when messages get lost. *)
From Stdlib Require Import ZArith Lia Strings.String.
From stdpp Require Import base option list numbers gmap sorting strings.
From S2P Require Import Prelude GoLib Proto Etcd.

(** ** One kind of key in etcd *)

Section Part.
Context {A : Type}.
Variable fmt : Z -> string.
Variable pre : string.
Variable enc : A -> bytes.
Variable dec : bytes -> outcome A.
Variable wf : A -> Prop.
Hypothesis fmt_parse : forall id, is_u64 id -> parseKey (fmt id) pre = Ok id.
Hypothesis fmt_prefix : forall id, String.prefix pre (fmt id) = true.
Hypothesis dec_enc : forall a, wf a -> dec (enc a) = Ok a.

(** the keys with the prefix are exactly the entries of [m] *)
Record part (db : etcd) (m : gmap Z A) : Prop := mk_part {
  pa_has : forall id a, m !! id = Some a -> is_u64 id /\ wf a /\ db !! fmt id = Some (enc a);
  pa_only : forall k v, db !! k = Some v -> String.prefix pre k = true -> exists id a, k = fmt id /\ m !! id = Some a }.

Lemma fmt_inj id id' : is_u64 id -> is_u64 id' -> fmt id = fmt id' -> id = id'.
Proof using fmt_parse. intros H1' H2' E. apply fmt_parse in H1', H2'. rewrite E in H1'. congruence. Qed.
Lemma part_put db m id a : part db m -> is_u64 id -> wf a -> part (<[fmt id := enc a]> db) (<[id := a]> m).
Proof using fmt_parse fmt_prefix.
  intros [Hh Ho] Hid Hwf. split.
  - intros id' a'. destruct (decide (id = id')) as [<-|Hne].
    + rewrite lookup_insert_eq. intros [= <-]. by rewrite lookup_insert_eq.
    + rewrite lookup_insert_ne by done. intros E. destruct (Hh _ _ E) as (H1' & H2' & H3'). rewrite lookup_insert_ne; [done|].
      intros Ef. by apply Hne, fmt_inj.
  - intros k v Hk Hp. destruct (decide (k = fmt id)) as [->|Hne]; [exists id, a; by rewrite lookup_insert_eq|].
    rewrite lookup_insert_ne in Hk by done. destruct (Ho k v Hk Hp) as (id' & a' & -> & E). exists id', a'. split; [done|].
    rewrite lookup_insert_ne; [done|]. congruence.
Qed.
Lemma part_other db db' m : part db m -> (forall k, String.prefix pre k = true -> db' !! k = db !! k) -> part db' m.
Proof using fmt_prefix.
  intros [Hh Ho] Hk. split.
  - intros id a E. rewrite Hk by done. by apply Hh.
  - intros k v E Hp. rewrite Hk in E by done. by eapply Ho.
Qed.
Lemma part_insert_other db m k v : part db m -> String.prefix pre k = false -> part (<[k := v]> db) m.
Proof using fmt_prefix. intros Hp Hk. apply (part_other db); [done|]. intros k' Hk'. rewrite lookup_insert_ne; [done|]. congruence. Qed.
Lemma part_empty : part ∅ ∅.
Proof. split; intros *; by rewrite lookup_empty. Qed.


Definition kv_of (p : Z * A) : string * bytes := (fmt (fst p), enc (snd p)).
Lemma load_kvs_fold l : Forall (fun p => is_u64 (fst p) /\ wf (snd p)) l -> forall acc,
  load_kvs dec pre (kv_of <$> l) acc = Ok (foldl (fun m p => <[fst p := snd p]> m) acc l).
Proof using fmt_parse dec_enc.
  induction 1 as [|[id a] l [Hid Hwf] _ IH]; intros acc; [done|]. rewrite fmap_cons. unfold kv_of at 1. cbn [load_kvs fst snd foldl] in *.
  rewrite (fmt_parse id Hid). cbn [obind]. rewrite (dec_enc a Hwf). cbn [obind]. apply IH.
Qed.
Lemma foldl_insert (l : list (Z * A)) : forall (acc : gmap Z A) id, NoDup l.*1 ->
  foldl (fun m p => <[fst p := snd p]> m) acc l !! id = match (list_to_map l : gmap Z A) !! id with Some a => Some a | None => acc !! id end.
Proof.
  induction l as [|[k a] l IH]; intros acc id Hnd; [by cbn; rewrite lookup_empty|]. rewrite fmap_cons in Hnd. apply NoDup_cons in Hnd as [Hk Hnd].
  cbn [foldl fst snd] in *. rewrite IH, list_to_map_cons by done. destruct (decide (k = id)) as [->|Hne].
  - rewrite !lookup_insert_eq. assert ((list_to_map l : gmap Z A) !! id = None) as -> by (by apply not_elem_of_list_to_map_1). done.
  - by rewrite !lookup_insert_ne by done.
Qed.

(** loading finds exactly the entries *)
Lemma load_part db m : part db m ->
  load_kvs dec pre (merge_sort key_ord (filter (fun kv => String.prefix pre (fst kv) = true) (map_to_list db))) ∅ = Ok m.
Proof using fmt_parse fmt_prefix dec_enc.
  intros [Hh Ho]. set (kvs := merge_sort _ _).
  assert (Permutation kvs (kv_of <$> map_to_list m)) as Hp.
  { unfold kvs. rewrite merge_sort_Permutation. apply NoDup_Permutation.
    - apply NoDup_filter, NoDup_map_to_list.
    - apply NoDup_fmap_2_strong; [|apply NoDup_map_to_list]. intros [id a] [id' a'] Hx Hy E. unfold kv_of in E. cbn [fst snd] in E.
      apply elem_of_map_to_list in Hx, Hy. injection E as E _. apply fmt_inj in E as ->; [congruence|by apply (Hh _ _ Hx)|by apply (Hh _ _ Hy)].
    - intros [k v]. rewrite list_elem_of_filter, elem_of_map_to_list, list_elem_of_fmap. cbn [fst]. split.
      + intros [Hpre Hk]. destruct (Ho k v Hk Hpre) as (id & a & -> & E). exists (id, a). split; [|by apply elem_of_map_to_list].
        unfold kv_of. cbn [fst snd]. destruct (Hh _ _ E) as (_ & _ & E'). congruence.
      + intros ([id a] & [= -> ->] & Hin). apply elem_of_map_to_list in Hin. split; [apply fmt_prefix|]. by apply (Hh id a). }
  apply Permutation_map_inv in Hp as (l & -> & Hl). change (map kv_of l) with (kv_of <$> l).
  assert (Forall (fun p => is_u64 (fst p) /\ wf (snd p)) l) as Hwf.
  { apply Forall_forall. intros [id a] Hin. rewrite <- Hl in Hin. apply elem_of_map_to_list in Hin. destruct (Hh _ _ Hin) as (H1' & H2' & _). done. }
  rewrite load_kvs_fold by done. f_equal. apply map_eq. intros id. rewrite foldl_insert by (rewrite <- Hl; apply NoDup_fst_map_to_list).
  assert ((list_to_map l : gmap Z A) = m) as ->.
  { rewrite <- (list_to_map_proper (map_to_list m) l) by (try apply NoDup_fst_map_to_list; done). apply list_to_map_to_list. }
  rewrite lookup_empty. by destruct (m !! id).
Qed.
End Part.

(** ** What the network can do *)

Lemma EtcdAllocUniqID_any db idKey n1 n2 next count : next_id db idKey next -> 0 <= count -> next + count < 2 ^ 64 ->
  exists db' next' r, EtcdAllocUniqID n1 n2 idKey count db = (db', r) /\ next_id db' idKey next' /\ next <= next' <= next + count /\
    (forall k, k <> idKey -> db' !! k = db !! k) /\ (r = Err errTimeout \/ (r = Ok (next, next + count) /\ next' = next + count)).
Proof.
  intros Hn Hc Hlt. destruct (EtcdAllocUniqID_ok db idKey next count Hn Hc Hlt) as (db' & E & Hn' & Hk).
  destruct (alloc_read_ok db idKey next Hn) as (cmp & Er & Hcmp). unfold EtcdAllocUniqID, tbind in *.
  destruct n1; [rewrite Er in *|exists db, next, (Err errTimeout); by repeat (split; [done || lia|]); left..].
  destruct n2.
  - exists db', (next + count), (Ok (next, next + count)). rewrite E. split; [done|]. split; [done|]. split; [lia|]. split; [done|by right].
  - exists db, next, (Err errTimeout). by repeat (split; [done || lia|]); left.
  - exists db', (next + count), (Err errTimeout). unfold alloc_commit, Commit in *. destruct (txn _ _ _) as [db1 ok]. injection E as -> _.
    split; [done|]. split; [done|]. split; [lia|]. split; [done|by left].
Qed.

Lemma EtctSetKVS_any db key member n ops : db !! key = Some member ->
  exists db', (EtctSetKVS n [CmpValue key member] ops db = (db', Ok tt) /\ db' = foldl apply_op db ops) \/
    (EtctSetKVS n [CmpValue key member] ops db = (db', Panic) /\ (db' = db \/ db' = foldl apply_op db ops)).
Proof.
  intros Hl. unfold EtctSetKVS, Commit, txn. cbn [forallb cmp_holds]. rewrite bool_decide_true by done. cbn [andb fst].
  destruct n; eexists; [by left|right; split; [done|by left]|right; split; [done|by right]].
Qed.
