(* ===== verification/Discard.v ===== *)
(** The statistics that choose the value log to collect (rangepartition/
    discard.go): how many bytes of each blob stream are no longer needed. *)
From Stdlib Require Import ZArith Lia.
From stdpp Require Import base option list numbers gmap sorting strings.
From S2P Require Import Prelude GoLib Utils Proto ProtoSub ProtoPs ProtoSm Etcd.

(** [reverseIndex]: the streams an extent belongs to *)
Record discardManager := mkDM { dm_streams : gmap Z StreamInfo; reverseIndex : gmap Z (list Z); discardOfStream : gmap Z Z }.

Section Discard.
Context `{GoOrder}.

Definition add_index (idx : gmap Z (list Z)) (extentID streamID : Z) : gmap Z (list Z) := <[extentID := default [] (idx !! extentID) ++ [streamID]]> idx.
Definition index_stream (idx : gmap Z (list Z)) (p : Z * StreamInfo) : gmap Z (list Z) :=
  foldl (fun idx e => add_index idx e (fst p)) idx (ExtentIDs (snd p)).
Definition NewDiscardManager (si : gmap Z StreamInfo) : discardManager := mkDM si (foldl index_stream ∅ (map_range si)) ∅.

(** a missing entry counts as 0; the sum wraps at 64 bits *)
Definition add_discard (discard : Z) (d : gmap Z Z) (streamID : Z) : gmap Z Z := <[streamID := int64 (default 0 (d !! streamID) + discard)]> d.
Definition update_extent (idx : gmap Z (list Z)) (d : gmap Z Z) (p : Z * Z) : gmap Z Z := foldl (add_discard (snd p)) d (default [] (idx !! fst p)).
Definition UpdateDiscardStats (dm : discardManager) (stats : gmap Z Z) : discardManager :=
  mkDM (dm_streams dm) (reverseIndex dm) (foldl (update_extent (reverseIndex dm)) (discardOfStream dm) (map_range stats)).

(** nil when there are no statistics; the zero value when no discard is positive *)
Definition max_step (best p : Z * Z) : Z * Z := if snd best <? snd p then p else best.
Definition MaxDiscard (dm : discardManager) : option StreamInfo :=
  if decide (discardOfStream dm = ∅) then None
  else Some (default (mkSI 0 []) (dm_streams dm !! fst (foldl max_step (0, 0) (map_range (discardOfStream dm))))).
(** the extent is added where the stream was meant *)
Definition AddBlobStream (dm : discardManager) (si : StreamInfo) : discardManager :=
  mkDM (<[StreamID si := si]> (dm_streams dm)) (foldl (fun idx e => add_index idx e e) (reverseIndex dm) (ExtentIDs si)) (discardOfStream dm).

(** ** The index *)

Definition occ (x : Z) (l : list Z) : Z := Z.of_nat (length (filter (fun y => y = x) l)).
Lemma occ_cons x y l : occ x (y :: l) = (if decide (y = x) then 1 else 0) + occ x l.
Proof using. unfold occ. rewrite filter_cons. destruct (decide (y = x)); cbn [length]; lia. Qed.
Lemma occ_app x l k : occ x (l ++ k) = occ x l + occ x k.
Proof using. unfold occ. rewrite filter_app, length_app. lia. Qed.
Definition indexed (idx : gmap Z (list Z)) (e : Z) : list Z := default [] (idx !! e).
Lemma indexed_add idx e s e' : indexed (add_index idx e s) e' = indexed idx e' ++ (if decide (e = e') then [s] else []).
Proof using.
  unfold indexed, add_index. destruct (decide (e = e')) as [->|Hne]; [by rewrite lookup_insert_eq|]. by rewrite lookup_insert_ne, app_nil_r.
Qed.
Lemma index_stream_occ p : forall idx e s, occ s (indexed (index_stream idx p) e) = occ s (indexed idx e) + (if decide (fst p = s) then occ e (ExtentIDs (snd p)) else 0).
Proof using.
  unfold index_stream. induction (ExtentIDs (snd p)) as [|x xs IH]; intros idx e s; cbn [foldl]; [change (occ e []) with 0; destruct (decide _); lia|].
  rewrite IH, indexed_add, occ_app, (occ_cons e x). assert (occ s [fst p] = if decide (fst p = s) then 1 else 0) as E1 by (rewrite occ_cons; apply Z.add_0_r).
  destruct (decide (x = e)); rewrite ?E1; change (occ s []) with 0; destruct (decide (fst p = s)); lia.
Qed.
Lemma index_streams_occ ps : forall idx e s, occ s (indexed (foldl index_stream idx ps) e) =
  occ s (indexed idx e) + foldr (fun p n => (if decide (fst p = s) then occ e (ExtentIDs (snd p)) else 0) + n) 0 ps.
Proof using. induction ps as [|p ps IH]; intros idx e s; cbn [foldl foldr]; [lia|]. rewrite IH, index_stream_occ. lia. Qed.
(** sums over the entries of a map *)
Lemma sum_perm {A} (f : A -> Z) l k : Permutation l k -> foldr (fun p n => f p + n) 0 l = foldr (fun p n => f p + n) 0 k.
Proof using. induction 1; cbn [foldr]; lia. Qed.
Lemma sum_at {A} (f : A -> Z) (m : gmap Z A) k : foldr (fun p n => (if decide (fst p = k) then f (snd p) else 0) + n) 0 (map_to_list m) = match m !! k with Some a => f a | None => 0 end.
Proof using.
  induction m as [|i x m Hi IH] using map_ind; [by rewrite map_to_list_empty, lookup_empty|].
  rewrite (sum_perm _ _ ((i, x) :: map_to_list m)) by (by apply map_to_list_insert). cbn [foldr fst snd]. rewrite IH. destruct (decide (i = k)) as [->|Hne].
  - rewrite lookup_insert_eq, Hi. lia.
  - rewrite lookup_insert_ne by done. lia.
Qed.
Lemma NewDiscardManager_index si e s : occ s (indexed (reverseIndex (NewDiscardManager si)) e) = match si !! s with Some info => occ e (ExtentIDs info) | None => 0 end.
Proof using.
  cbn [NewDiscardManager reverseIndex]. rewrite index_streams_occ. change (occ s (indexed ∅ e)) with 0.
  rewrite <- (sum_perm _ _ _ (map_range_perm si)). rewrite (sum_at (fun info => occ e (ExtentIDs info))). lia.
Qed.

(** ** The statistics *)

Lemma int64_add a b : int64 (int64 a + b) = int64 (a + b).
Proof using.
  unfold int64. replace ((a + 2 ^ 63) mod 2 ^ 64 - 2 ^ 63 + b + 2 ^ 63) with ((a + 2 ^ 63) mod 2 ^ 64 + b) by lia. rewrite Z.add_mod_idemp_l by lia. by replace (a + 2 ^ 63 + b) with (a + b + 2 ^ 63) by lia.
Qed.
Lemma int64_idem a : int64 (int64 a) = int64 a.
Proof using. rewrite <- (Z.add_0_r (int64 a)) at 1. rewrite int64_add. f_equal. lia. Qed.
Definition discard_of (d : gmap Z Z) (s : Z) : Z := default 0 (d !! s).
(** every value is a 64-bit integer *)
Definition ranged (d : gmap Z Z) : Prop := forall s, int64 (discard_of d s) = discard_of d s.
Lemma ranged_empty : ranged ∅.
Proof using. intros s. unfold discard_of. by rewrite lookup_empty. Qed.

Lemma add_discards x l : forall d s, ranged d -> ranged (foldl (add_discard x) d l) /\ discard_of (foldl (add_discard x) d l) s = int64 (discard_of d s + x * occ s l).
Proof using.
  induction l as [|y l IH]; intros d s Hr; cbn [foldl]; [split; [done|]; change (occ s []) with 0; rewrite Z.mul_0_r, Z.add_0_r; symmetry; apply Hr|].
  assert (forall s', discard_of (add_discard x d y) s' = if decide (y = s') then int64 (discard_of d s' + x) else discard_of d s') as Hd.
  { intros s'. unfold discard_of, add_discard. destruct (decide (y = s')) as [->|Hne]; [by rewrite lookup_insert_eq|by rewrite lookup_insert_ne]. }
  destruct (IH (add_discard x d y) s) as [Hr' ->]; [intros s'; rewrite Hd; destruct (decide (y = s')); [apply int64_idem|apply Hr]|]. split; [done|].
  rewrite Hd, occ_cons. destruct (decide (y = s)); [rewrite int64_add|]; f_equal; lia.
Qed.
Lemma update_extents idx l : forall d s, ranged d -> ranged (foldl (update_extent idx) d l) /\
  discard_of (foldl (update_extent idx) d l) s = int64 (discard_of d s + foldr (fun p n => snd p * occ s (indexed idx (fst p)) + n) 0 l).
Proof using.
  induction l as [|p l IH]; intros d s Hr; cbn [foldl foldr]; [split; [done|]; rewrite Z.add_0_r; symmetry; apply Hr|].
  destruct (add_discards (snd p) (default [] (idx !! fst p)) d s Hr) as [Hr1 E1]. destruct (IH (update_extent idx d p) s Hr1) as [Hr2 ->]. split; [done|].
  unfold update_extent at 1. rewrite E1, int64_add. f_equal. unfold indexed. lia.
Qed.

(** what the statistics say of the extents of a stream *)
Definition stream_sum (stats : gmap Z Z) (extents : list Z) : Z := foldr (fun e n => default 0 (stats !! e) + n) 0 extents.
Lemma sum_plus {A} (f g : A -> Z) l : foldr (fun p n => (f p + g p) + n) 0 l = foldr (fun p n => f p + n) 0 l + foldr (fun p n => g p + n) 0 l.
Proof using. induction l as [|p l IH]; cbn [foldr]; lia. Qed.
Lemma sum_ext {A} (f g : A -> Z) l : (forall p, f p = g p) -> foldr (fun p n => f p + n) 0 l = foldr (fun p n => g p + n) 0 l.
Proof using. intros E. induction l as [|p l IH]; cbn [foldr]; [done|]. by rewrite E, IH. Qed.
Lemma sum_zero {A} (l : list A) : foldr (fun _ n => 0 + n) 0 l = 0.
Proof using. induction l as [|p l IH]; cbn [foldr]; lia. Qed.
Lemma sum_extents stats extents : foldr (fun p n => snd p * occ (fst p) extents + n) 0 (map_range stats) = stream_sum stats extents.
Proof using.
  rewrite <- (sum_perm _ _ _ (map_range_perm stats)). induction extents as [|x xs IH]; cbn [stream_sum foldr].
  - rewrite (sum_ext _ (fun _ => 0)) by (intros p; change (occ (fst p) []) with 0; lia). apply sum_zero.
  - fold (stream_sum stats xs). rewrite <- IH. rewrite (sum_ext _ (fun p => (if decide (fst p = x) then snd p else 0) + snd p * occ (fst p) xs)).
    + rewrite sum_plus, (sum_at (fun d => d)). by destruct (stats !! x).
    + intros p. rewrite occ_cons. destruct (decide (x = fst p)), (decide (fst p = x)); congruence || lia.
Qed.

Definition updates (dm : discardManager) (us : list (gmap Z Z)) : discardManager := foldl UpdateDiscardStats dm us.
(** the bytes of a stream that a sequence of updates reports *)
Definition reported (si : gmap Z StreamInfo) (us : list (gmap Z Z)) (s : Z) : Z :=
  match si !! s with Some info => foldr (fun u n => stream_sum u (ExtentIDs info) + n) 0 us | None => 0 end.

Lemma updates_static us : forall dm, dm_streams (updates dm us) = dm_streams dm /\ reverseIndex (updates dm us) = reverseIndex dm.
Proof using. induction us as [|u us IH]; intros dm; [done|]. cbn [updates foldl]. fold (updates (UpdateDiscardStats dm u) us). destruct (IH (UpdateDiscardStats dm u)) as [-> ->]. done. Qed.
Lemma updates_total si idx us : idx = reverseIndex (NewDiscardManager si) -> forall d, ranged d -> forall s, ranged (discardOfStream (updates (mkDM si idx d) us)) /\
  discard_of (discardOfStream (updates (mkDM si idx d) us)) s = int64 (discard_of d s + reported si us s).
Proof using.
  intros Hidx. induction us as [|u us IH]; intros d Hr s; cbn [updates foldl].
  - split; [done|]. cbn [discardOfStream]. unfold reported. cbn [foldr]. destruct (si !! s); rewrite Z.add_0_r; symmetry; apply Hr.
  - fold (updates (UpdateDiscardStats (mkDM si idx d) u) us). unfold UpdateDiscardStats. cbn [reverseIndex dm_streams discardOfStream].
    destruct (update_extents idx (map_range u) d s Hr) as [Hr1 E1]. destruct (IH _ Hr1 s) as [Hr2 ->]. split; [done|].
    rewrite E1, int64_add. f_equal. rewrite <- Z.add_assoc. f_equal. unfold reported. cbn [foldr].
    rewrite (sum_ext _ (fun p => match si !! s with Some info => snd p * occ (fst p) (ExtentIDs info) | None => 0 end)).
    + destruct (si !! s) as [info|]; [by rewrite sum_extents|by rewrite sum_zero].
    + intros p. rewrite Hidx, NewDiscardManager_index. destruct (si !! s); lia.
Qed.

Lemma max_steps l : forall best, snd best <= snd (foldl max_step best l) /\ (forall p, p ∈ l -> snd p <= snd (foldl max_step best l)) /\
  (foldl max_step best l = best \/ foldl max_step best l ∈ l).
Proof using.
  induction l as [|p l IH]; intros best; cbn [foldl]; [split; [lia|]; split; [intros p Hp; by apply not_elem_of_nil in Hp|by left]|].
  destruct (IH (max_step best p)) as (H1' & H2' & H3'). assert (snd best <= snd (max_step best p) /\ snd p <= snd (max_step best p)) as [Hb Hp] by (unfold max_step; destruct (Z.ltb_spec (snd best) (snd p)); lia).
  split; [lia|]. split; [intros q Hq; apply elem_of_cons in Hq as [->|Hq]; [lia|by apply H2']|].
  destruct H3' as [->|H3']; [|right; by right]. unfold max_step. destruct (snd best <? snd p); [right; left|by left].
Qed.

(** When some blob stream has a positive total of discarded bytes after any updates of the
    statistics, MaxDiscard returns a stream with the largest total, counted at 64 bits over the
    extents of the stream, whatever the order of map iteration. *)
Theorem MaxDiscard_picks si us s : 0 < int64 (reported si us s) ->
  exists best info, si !! best = Some info /\ MaxDiscard (updates (NewDiscardManager si) us) = Some info /\
    forall s', int64 (reported si us s') <= int64 (reported si us best).
Proof using.
  intros Hpos. set (dm := updates (NewDiscardManager si) us). assert (forall s', discard_of (discardOfStream dm) s' = int64 (reported si us s')) as Hd.
  { intros s'. destruct (updates_total si (reverseIndex (NewDiscardManager si)) us eq_refl ∅ ranged_empty s') as [_ E].
    unfold discard_of in E at 2. by rewrite lookup_empty in E. }
  destruct (max_steps (map_range (discardOfStream dm)) (0, 0)) as (H1' & H2' & H3'). set (b := foldl max_step (0, 0) _) in *. cbn [snd] in H1'.
  assert (forall s', int64 (reported si us s') <= snd b) as Hmax.
  { intros s'. rewrite <- Hd. unfold discard_of. destruct (discardOfStream dm !! s') as [x|] eqn:E; cbn [default]; [|exact H1'].
    apply (H2' (s', x)). rewrite <- (map_range_perm (discardOfStream dm)). by apply elem_of_map_to_list. }
  assert (discardOfStream dm !! fst b = Some (snd b)) as Hb.
  { destruct H3' as [E|Hin]; [pose proof (Hmax s) as Hm; rewrite E in Hm; cbn [snd] in Hm; lia|].
    rewrite <- (map_range_perm (discardOfStream dm)) in Hin. apply elem_of_map_to_list. by destruct b. }
  assert (snd b = int64 (reported si us (fst b))) as Eb by (rewrite <- Hd; unfold discard_of; by rewrite Hb).
  assert (exists info, si !! fst b = Some info) as [info Ei].
  { pose proof (Hmax s). destruct (si !! fst b) as [info|] eqn:E; [by exists info|]. rewrite Eb in H2'. unfold reported in Eb. rewrite E in Eb. change (int64 0) with 0 in Eb. lia. }
  exists (fst b), info. split; [done|]. split; [|intros s'; rewrite <- Eb; apply Hmax]. unfold MaxDiscard. rewrite decide_False by (intros E; by rewrite E in Hb).
  fold b. unfold dm. rewrite (proj1 (updates_static us _)). cbn [NewDiscardManager dm_streams]. by rewrite Ei.
Qed.

(** After AddBlobStream the bytes discarded in an extent of the new stream are counted for a
    stream whose id is the extent's id, and the new stream is never credited. *)
Theorem AddBlobStream_misattributes dm id e x : reverseIndex dm !! e = None -> e <> id -> ranged (discardOfStream dm) ->
  let dm' := UpdateDiscardStats (AddBlobStream dm (mkSI id [e])) {[e := x]} in
  discard_of (discardOfStream dm') id = discard_of (discardOfStream dm) id /\
  discard_of (discardOfStream dm') e = int64 (discard_of (discardOfStream dm) e + x).
Proof using.
  intros He Hne Hr dm'. assert (map_range ({[e := x]} : gmap Z Z) = [(e, x)]) as Em.
  { apply Permutation_length_1_inv. rewrite <- map_range_perm. by rewrite map_to_list_singleton. }
  unfold dm'. cbn [UpdateDiscardStats AddBlobStream reverseIndex discardOfStream ExtentIDs foldl]. rewrite Em.
  split; match goal with |- discard_of _ ?s = _ => destruct (update_extents (add_index (reverseIndex dm) e e) [(e, x)] (discardOfStream dm) s Hr) as [_ ->] end;
    cbn [foldr fst snd]; rewrite indexed_add, (decide_True _ _ eq_refl); unfold indexed; rewrite He; cbn [default app]; rewrite occ_cons.
  - rewrite decide_False by congruence. change (occ id []) with 0. rewrite Z.mul_0_r, !Z.add_0_r. apply Hr.
  - rewrite decide_True by done. change (occ e []) with 0. f_equal. lia.
Qed.
End Discard.
