(* ===== verification/Gc.v ===== *)
(** Collecting a value log (rangepartition/valuelog.go: pickLog, discardEntry,
    runGC): the entries of a stream that are still referred to are to be written
    again. Nothing calls runGC, and [rp.discard] is never set. *)
From Stdlib Require Import ZArith Lia.
From stdpp Require Import base option list numbers gmap sorting strings.
From S2P Require Import Prelude GoLib Utils Proto ProtoPs ProtoSm Keys YIter Extent MixBlock Stream Skiplist TableBlock Table.
From S2P Require Import Partition PartitionSpec PartitionOpen LogReplay Etcd Discard.

(** the variables of the closure [fe]; [gc_sent] are the requests it has sent *)
Record gcState := mkGC { gc_count : Z; gc_moved : Z; gc_freed : Z; gc_size : Z; gc_wb : list EntryInfo; gc_sent : list (list EntryInfo) }.
Definition gc_start : gcState := mkGC 0 0 0 0 [] [].

Definition discardEntry (now : Z) (ei : EntryInfo) (vs : ValueStruct) : outcome bool :=
  let! ts := ParseTs (Key (Log ei)) in
  Ok (negb (Version vs =? ts) || isDeletedOrExpired now (VMeta vs) (VExpiresAt vs)).
(** the entry that is written again *)
Definition gc_again (ei : EntryInfo) : EntryInfo := mkEI (mkEntry (Key (Log ei)) (Value (Log ei)) 0 0 0) 0 0 0.

Section Gc.
Context `{GoOrder}.
Context {LogSt RowSt Bloom CSt CIt : Type}.
Context `{StreamClient LogSt} `{StreamClient RowSt} `{BloomOps Bloom} `{SortSlice} `{LogIters CSt CIt}.
Variable fp : bytes -> Z.
Abbreviation RP := (RangePartition (LogSt := LogSt) (RowSt := RowSt) (Bloom := Bloom)).
(** the partition's range and the clock; other goroutines write meanwhile, so
    [see n] is the partition when the [n]-th entry is looked at *)
Variables (StartKey EndKey : bytes) (now : Z) (see : Z -> RP).

Definition gc_move (rp : RP) (st : gcState) (ei : EntryInfo) : gcState * (bool + error) :=
  let st := mkGC (gc_count st) (gc_moved st + 1) (gc_freed st) (gc_size st) (gc_wb st) (gc_sent st) in
  let full := (4 <? zlen (gc_wb st)) || (16 * MB <? u64 (EstimatedSize ei + gc_size st)) in
  if full && blockWrites rp then (st, inr ErrBlockedWrites)
  else (mkGC (gc_count st) (gc_moved st) (gc_freed st) (u64 (gc_size st + EstimatedSize ei)) (gc_wb st ++ [gc_again ei])
          (if full then gc_sent st ++ [gc_wb st] else gc_sent st), inl true).
(** the closure [fe] *)
Definition gc_entry (st : gcState) (ei : EntryInfo) : outcome (gcState * (bool + error)) :=
  let st := mkGC (gc_count st + 1) (gc_moved st) (u64 (gc_freed st + EstimatedSize ei)) (gc_size st) (gc_wb st) (gc_sent st) in
  let rp := see (gc_count st) in
  if decide (Key (Log ei) = [] /\ Value (Log ei) = []) then Ok (st, inl true) else
  let! userKey := ParseKey (Some (Key (Log ei))) in
  let userKey := default [] userKey in
  if match bytes_compare userKey StartKey with Lt => true | _ => false end then Ok (st, inl true) else
  if (0 <? zlen EndKey) && match bytes_compare EndKey userKey with Lt => true | _ => false end then Ok (st, inl true) else
  let! vs := getValueStruct fp rp userKey 0 in
  let! discard := discardEntry now ei vs in
  if discard : bool then Ok (st, inl true) else
  assert (0 <? zlen (VValue vs))
    (let! vp := vp_Decode (VValue vs) in
     if (vp_extentID vp =? EI_ExtentID ei) && (vp_offset vp =? EI_Offset ei) then Ok (gc_move rp st ei) else Ok (st, inl true)).

(** [pickLog] of the discard manager, which may be nil; nothing to collect gives [None] *)
Definition pickLog (discard : option discardManager) : outcome (option StreamInfo) :=
  match discard with None => Panic | Some dm => Ok (MaxDiscard dm) end.
Definition runGC (fuel : nat) (discard : option discardManager) (openStream : StreamInfo -> CSt) : outcome (option gcState) :=
  let! info := pickLog discard in
  match info with
  | None => Ok None
  | Some info => let! (st, _) := replayLog gc_entry fuel (openStream info) 0 0 false gc_start in Ok (Some st)
  end.

(** ** What is written again *)

(** the newest version of the entry's key is this one, alive and stored there *)
Definition referred (rp : RP) (ei : EntryInfo) : Prop :=
  exists k t vs vp, Key (Log ei) = KeyWithTs k t /\ k <> [] /\ 0 <= t <= MaxUint64 /\ bytes_compare StartKey k <> Gt /\ (EndKey = [] \/ bytes_compare k EndKey <> Gt) /\
    getValueStruct fp rp k 0 = Ok vs /\ Version vs = t /\ isDeletedOrExpired now (VMeta vs) (VExpiresAt vs) = false /\
    0 < zlen (VValue vs) /\ vp_Decode (VValue vs) = Ok vp /\ vp_extentID vp = EI_ExtentID ei /\ vp_offset vp = EI_Offset ei.

Lemma gc_entry_moves st ei : referred (see (gc_count st + 1)) ei ->
  gc_entry st ei = Ok (gc_move (see (gc_count st + 1)) (mkGC (gc_count st + 1) (gc_moved st) (u64 (gc_freed st + EstimatedSize ei)) (gc_size st) (gc_wb st) (gc_sent st)) ei).
Proof using.
  intros (k & t & vs & vp & Ek & Hk & Ht & Hs & He & Eg & Ev & Hd & Hz & Edec & E1 & E2). unfold gc_entry. cbn [gc_count]. destruct (parse_KeyWithTs k t Ht) as (Ep & Et & _).
  rewrite decide_False by (intros [E _]; rewrite Ek in E; apply (f_equal zlen) in E; rewrite zlen_KeyWithTs in E; pose proof (zlen_nonneg k); unfold zlen at 2 in E; cbn in E; lia).
  rewrite Ek, Ep. cbn [obind]. change (default [] (Some k)) with k. rewrite decide_False in Et by done.
  assert (match bytes_compare k StartKey with Lt => true | _ => false end = false) as -> by (rewrite bytes_compare_antisym; by destruct (bytes_compare StartKey k)).
  assert ((0 <? zlen EndKey) && match bytes_compare EndKey k with Lt => true | _ => false end = false) as ->.
  { destruct He as [->|He]; [done|]. apply andb_false_iff. right. rewrite bytes_compare_antisym. by destruct (bytes_compare k EndKey). }
  rewrite Eg. cbn [obind]. unfold discardEntry. rewrite Ek, Et. cbn [obind]. rewrite Ev, Z.eqb_refl, Hd. cbn [negb orb].
  destruct (Z.ltb_spec 0 (zlen (VValue vs))); [|lia]. cbn [assert]. rewrite Edec. cbn [obind]. by rewrite E1, E2, !Z.eqb_refl.
Qed.

Definition sizes (L : list EntryInfo) : Z := foldr (fun ei n => EstimatedSize ei + n) 0 L.
(** the requests sent after [n] entries: every prefix of five or more *)
Definition prefixes (L : list EntryInfo) : list (list EntryInfo) := (fun j => take j (gc_again <$> L)) <$> seq 5 (length L - 5).

Lemma prefixes_snoc L ei : prefixes (L ++ [ei]) = if (5 <=? length L)%nat then prefixes L ++ [gc_again <$> L] else prefixes L.
Proof using.
  unfold prefixes. rewrite length_app, fmap_app. cbn [length fmap list_fmap]. destruct (Nat.leb_spec 5 (length L)) as [H5|H5].
  - replace (length L + 1 - 5)%nat with (length L - 5 + 1)%nat by lia. rewrite seq_app, fmap_app. replace (5 + (length L - 5))%nat with (length L) by lia. f_equal.
    + apply list_fmap_ext. intros i j Hj. apply lookup_seq in Hj as [-> Hj]. rewrite take_app_le; [done|]. rewrite length_fmap. lia.
    + cbn. by rewrite take_app_length' by (by rewrite length_fmap).
  - replace (length L + 1 - 5)%nat with 0%nat by lia. by replace (length L - 5)%nat with 0%nat by lia.
Qed.
Lemma sizes_app L K : sizes (L ++ K) = sizes L + sizes K.
Proof using. unfold sizes. induction L as [|x L IH]; cbn [app foldr]; [done|]. rewrite IH. lia. Qed.

(** the state after the entries [L] *)
Record after (L : list EntryInfo) (st : gcState) : Prop := mk_after {
  af_count : gc_count st = zlen L; af_moved : gc_moved st = zlen L; af_size : gc_size st = sizes L;
  af_wb : gc_wb st = gc_again <$> L; af_sent : gc_sent st = prefixes L }.
Lemma gc_all_moved L2 : forall L1 st, after L1 st -> (forall i ei, (L1 ++ L2) !! i = Some ei -> referred (see (Z.of_nat i + 1)) ei /\ blockWrites (see (Z.of_nat i + 1)) = false) ->
  Forall (fun ei => 0 <= EstimatedSize ei) (L1 ++ L2) -> sizes (L1 ++ L2) <= 16 * MB ->
  exists st', replay_all gc_entry st L2 = Ok (st', None) /\ after (L1 ++ L2) st'.
Proof using.
  induction L2 as [|ei L2 IH]; intros L1 st Ha Hr Hp Hs; [exists st; rewrite app_nil_r; done|]. pose proof Ha as [Hc Hm Hz Hw Hsent].
  destruct (Hr (length L1) ei) as [Href Hb]; [by rewrite list_lookup_middle|]. cbn [replay_all].
  assert (gc_count st + 1 = Z.of_nat (length L1) + 1) as Ec by (rewrite Hc; done). rewrite gc_entry_moves by (by rewrite Ec). rewrite Ec. unfold gc_move. cbn [gc_count gc_moved gc_freed gc_size gc_wb gc_sent]. rewrite Hb, andb_false_r. cbn [obind].
  assert (0 <= sizes L1 /\ 0 <= EstimatedSize ei /\ sizes L1 + EstimatedSize ei <= 16 * MB) as (Hp1 & Hp2 & Hp3).
  { rewrite sizes_app in Hs. unfold sizes in Hs at 2. cbn [foldr] in Hs. fold (sizes L2) in Hs. apply Forall_app in Hp as [Hp1 Hp]. apply Forall_cons in Hp as [Hp2 Hp].
    assert (forall l, Forall (fun ei => 0 <= EstimatedSize ei) l -> 0 <= sizes l) as Hnn by (clear; unfold sizes; induction 1 as [|x l Hx _ IHl]; cbn [foldr]; cbn beta in *; lia).
    pose proof (Hnn L1 Hp1). pose proof (Hnn L2 Hp). lia. }
  assert (MB = 1048576) as HMB by done. rewrite Hz, (u64_small (EstimatedSize ei + sizes L1)), (u64_small (sizes L1 + EstimatedSize ei)) by lia.
  destruct (Z.ltb_spec (16 * MB) (EstimatedSize ei + sizes L1)); [lia|]. rewrite orb_false_r.
  destruct (IH (L1 ++ [ei]) (mkGC (Z.of_nat (length L1) + 1) (gc_moved st + 1) (u64 (gc_freed st + EstimatedSize ei)) (sizes L1 + EstimatedSize ei) (gc_wb st ++ [gc_again ei])
    (if 4 <? zlen (gc_wb st) then gc_sent st ++ [gc_wb st] else gc_sent st))) as (st' & E & Ha'); rewrite <- ?app_assoc; try done.
  - split; cbn [gc_count gc_moved gc_size gc_wb gc_sent]; rewrite ?zlen_app, ?sizes_app, ?fmap_app, ?prefixes_snoc; cbn [fmap list_fmap].
    + done.
    + rewrite Hm. done.
    + unfold sizes at 3. cbn [foldr]. lia.
    + by rewrite Hw.
    + rewrite Hw, Hsent. unfold zlen. rewrite length_fmap. destruct (Z.ltb_spec 4 (Z.of_nat (length L1))), (Nat.leb_spec 5 (length L1)); done || lia.
  - exists st'. split; [exact E|]. by rewrite <- app_assoc in Ha'.
Qed.

(** C40: Collecting a value log whose entries are all still referred to moves every one of them but
    never empties its batch: with entries of at most 16 MB in all, the requests it sends are the
    prefixes of five, six and more entries, so early entries are written again and again and the
    last one never; and with the discard manager that is never set it panics. *)
Theorem runGC_resends fuel dm info openStream L : MaxDiscard dm = Some info -> yielding (openStream info) (li_New (openStream info) (replay_option 0 0 false)) L -> (length L < fuel)%nat ->
  (forall i ei, L !! i = Some ei -> referred (see (Z.of_nat i + 1)) ei /\ blockWrites (see (Z.of_nat i + 1)) = false) ->
  Forall (fun ei => 0 <= EstimatedSize ei) L -> sizes L <= 16 * MB ->
  runGC fuel None openStream = Panic /\
  exists st, runGC fuel (Some dm) openStream = Ok (Some st) /\ gc_moved st = zlen L /\ gc_sent st = prefixes L /\
    forall l ei, L = l ++ [ei] -> forall req, req ∈ gc_sent st -> exists j, (5 <= j <= length l)%nat /\ req = take j (gc_again <$> l).
Proof using.
  intros Hmax Hy Hf Hr Hp Hs. split; [done|]. unfold runGC, pickLog. rewrite Hmax. cbn [obind]. unfold replayLog. rewrite (replay_loop_yielding _ _ _ L) by done.
  destruct (gc_all_moved L [] gc_start) as (st & E & [_ Hm _ _ Hsent]); try done. cbn [app] in *. rewrite E. cbn [obind]. exists st. split; [done|]. split; [done|]. split; [done|].
  intros l ei -> req Hin. rewrite Hsent in Hin. unfold prefixes in Hin. apply list_elem_of_fmap in Hin as (j & -> & Hj). apply elem_of_seq in Hj. rewrite length_app in Hj. change (length [ei]) with 1%nat in Hj.
  exists j. split; [lia|]. rewrite fmap_app. apply take_app_le. rewrite length_fmap. lia.
Qed.
End Gc.
