(* ===== verification/StreamManager.v ===== *)
(** The stream manager (manager/streammanager): streams, extents and nodes live
    in etcd and, while this process is the leader, in memory. The handlers of
    sm_service.go, the loading of sm.go and the policy of policy.go. *)
From Stdlib Require Import ZArith Lia Strings.String.
From stdpp Require Import base option list numbers gmap sorting strings.
From S2P Require Import Prelude GoLib Utils Proto ProtoPs ProtoSm Etcd.

Record NodeStatus := mkNS { ns_info : NodeInfo; usage : Z; lastEcho : Z }.
Record StreamManager := mkSM {
  streams : gmap Z StreamInfo; extents : gmap Z ExtentInfo; nodes : gmap Z NodeStatus;
  isLeader : bool; memberValue : bytes; leaderKey : string; streamLock : SafeMutex }.
Definition idKey : string := "AutumnSMIDKey".
Definition errNotLeader : error := Errorf "not a leader".

Section Manager.
Context `{GoOrder}.

Definition with_maps (sm : StreamManager) (s : gmap Z StreamInfo) (e : gmap Z ExtentInfo) (n : gmap Z NodeStatus) : StreamManager :=
  mkSM s e n (isLeader sm) (memberValue sm) (leaderKey sm) (streamLock sm).

(** ** policy.go *)

Definition node_less (a b : NodeStatus) : bool :=
  if lastEcho b <? lastEcho a then true else if lastEcho a <? lastEcho b then false else usage a <? usage b.
(** the first [count] nodes, less those in [keepNodes] *)
Fixpoint pick_nodes (count : nat) (ns : list NodeStatus) (keepNodes : list Z) : outcome (list NodeStatus) :=
  match count with
  | O => Ok []
  | S count =>
      match ns with
      | [] => Panic
      | n :: ns =>
          let! ret := pick_nodes count ns keepNodes in
          Ok (if decide (NodeID (ns_info n) ∈ keepNodes) then ret else n :: ret)
      end
  end.
Definition AllocExtent (ns : list NodeStatus) (count : nat) (keepNodes : list Z) : outcome (list NodeStatus) :=
  let! ret := pick_nodes count (sort_less node_less ns) keepNodes in
  if (length ret <? count)%nat then Err (Errorf "cannot find enough nodes") else Ok ret.

(** ** Helpers *)

Definition allocUniqID (n1 n2 : net) (count : Z) : tx (Z * Z) := EtcdAllocUniqID n1 n2 idKey count.
Definition cloneNodeStatus (sm : StreamManager) : list NodeStatus := snd <$> map_range (nodes sm).
Definition extractNodeId (ns : list NodeStatus) : list Z := (fun n => NodeID (ns_info n)) <$> ns.
(** [answer]: which nodes allocate the extent; [still]: [AmLeader] afterwards *)
Definition sendAllocToNodes (answer : NodeStatus -> bool) (still : bool) (ns : list NodeStatus) : outcome unit :=
  let complets := length (filter (fun n => answer n = true) ns) in
  if negb (complets =? 3)%nat || negb still then Err (Errorf "not to create stream") else Ok tt.

Definition addNode (sm : StreamManager) (now id : Z) (addr : bytes) : StreamManager :=
  with_maps sm (streams sm) (extents sm) (<[id := mkNS (mkNI id addr) 0 now]> (nodes sm)).
Definition addExtent (sm : StreamManager) (streamID : Z) (extent : ExtentInfo) : StreamManager :=
  let s := match streams sm !! streamID with
           | Some s => mkSI (StreamID s) (ExtentIDs s ++ [XI_ExtentID extent])
           | None => mkSI streamID [XI_ExtentID extent]
           end in
  with_maps sm (<[streamID := s]> (streams sm)) (<[XI_ExtentID extent := extent]> (extents sm)) (nodes sm).
Definition hasDuplicateAddr (sm : StreamManager) (addr : bytes) : bool :=
  existsb (fun n => bool_decide (Address (ns_info (snd n)) = addr)) (map_range (nodes sm)).
Definition getStreamInfo (sm : StreamManager) (streamID : Z) : option StreamInfo := streams sm !! streamID.

(** the leader still owns its key *)
Definition leader_guard (sm : StreamManager) : list Cmp := [CmpValue (leaderKey sm) (memberValue sm)].

(** ** CreateStream *)

Definition CreateStream (sm : StreamManager) (n1 n2 n3 : net) (answer : NodeStatus -> bool) (still : bool) : tx (StreamManager * StreamInfo) :=
  if negb (isLeader sm) then tret (Err errNotLeader) else
  let* (start, _) := allocUniqID n1 n2 2 in
  let streamID := start in
  let extentID := u64 (start + 1) in
  let* ns := tret (AllocExtent (cloneNodeStatus sm) 3 []) in
  let* _ := tret (sendAllocToNodes answer still ns) in
  let streamInfo := mkSI streamID [extentID] in
  let* sdata := tret (must (StreamInfo_Marshal streamInfo)) in
  let extentInfo := mkXI extentID (extractNodeId ns) 0 in
  let* edata := tret (must (ExtentInfo_Marshal extentInfo)) in
  let* _ := EtctSetKVS n3 (leader_guard sm) [OpPut (formatStreamKey streamID) sdata; OpPut (formatExtentReplicate extentID) edata] in
  tret (Ok (addExtent sm streamID extentInfo, streamInfo)).

(** ** RegisterNode *)

Definition RegisterNode (sm : StreamManager) (n1 n2 n3 : net) (now : Z) (addr : bytes) : tx (StreamManager * Z) :=
  if negb (isLeader sm) then tret (Err errNotLeader) else
  if hasDuplicateAddr sm addr then tret (Err (Errorf "duplicated addr")) else
  let* (id, _) := (fun db => match allocUniqID n1 n2 1 db with
                             | (db, Err _) => (db, Err (Errorf "failed to alloc uniq id"))
                             | r => r
                             end) in
  let* data := tret (must (NodeInfo_Marshal (mkNI id addr))) in
  let* _ := EtctSetKVS n3 (leader_guard sm) [OpPut (formatNodeKey id) data] in
  tret (Ok (addNode sm now id addr, id)).

(** ** Queries *)

Definition cloneNodesInfo (sm : StreamManager) : gmap Z NodeInfo := ns_info <$> nodes sm.
Definition NodesInfo (sm : StreamManager) : outcome (gmap Z NodeInfo) :=
  if negb (isLeader sm) then Err errNotLeader else Ok (cloneNodesInfo sm).
(** a nil entry for an extent that does not exist *)
Definition sm_ExtentInfo (sm : StreamManager) (ids : list Z) : outcome (gmap Z (option ExtentInfo)) :=
  if negb (isLeader sm) then Err errNotLeader else
  Ok (foldl (fun out id => <[id := extents sm !! id]> out) ∅ ids).
(** a stream that does not exist is a nil pointer, which is dereferenced; an
    extent that does not exist is a nil entry *)
Fixpoint stream_infos (sm : StreamManager) (ids : list Z) (resStreams : gmap Z StreamInfo) (resExtents : gmap Z (option ExtentInfo))
    : outcome (gmap Z StreamInfo * gmap Z (option ExtentInfo)) :=
  match ids with
  | [] => Ok (resStreams, resExtents)
  | id :: ids =>
      match streams sm !! id with
      | None => Panic
      | Some s =>
          stream_infos sm ids (<[id := s]> resStreams)
            (foldl (fun out e => <[e := extents sm !! e]> out) resExtents (ExtentIDs s))
      end
  end.
(** [None] is a nil list: every stream *)
Definition sm_StreamInfo (sm : StreamManager) (ids : option (list Z)) : outcome (gmap Z StreamInfo * gmap Z (option ExtentInfo)) :=
  if negb (isLeader sm) then Err errNotLeader else
  stream_infos sm (match ids with Some ids => ids | None => fst <$> map_range (streams sm) end) ∅ ∅.

(** ** Truncate *)

Inductive Code := Code_OK | Code_TruncateNotMatch.
(** the index at which the loop stops: that of the extent, or the last one *)
Fixpoint extent_index (ids : list Z) (extentID : Z) (i : nat) : nat :=
  match ids with
  | [] => i
  | [_] => i
  | e :: ids => if e =? extentID then i else extent_index ids extentID (S i)
  end.
Definition sm_Truncate (sm : StreamManager) (n : net) (streamID extentID : Z) : tx (StreamManager * Code) :=
  if negb (isLeader sm) then tret (Err errNotLeader) else
  match streams sm !! streamID with
  | None => tret (Ok (sm, Code_TruncateNotMatch))
  | Some streamInfo =>
      let i := extent_index (ExtentIDs streamInfo) extentID 0 in
      if (i =? 0)%nat then tret (Ok (sm, Code_OK)) else
      let newStreamInfo := mkSI streamID (drop i (ExtentIDs streamInfo)) in
      let* sdata := tret (must (StreamInfo_Marshal newStreamInfo)) in
      let* _ := EtctSetKVS n (leader_guard sm) [OpPut (formatStreamKey streamID) sdata] in
      tret (Ok (with_maps sm (<[streamID := newStreamInfo]> (streams sm)) (extents sm) (nodes sm), Code_OK))
  end.

(** ** StreamAllocExtent *)

(** a node that is not in the map is a nil pointer *)
Fixpoint replicate_nodes (sm : StreamManager) (ids : list Z) : outcome (list NodeStatus) :=
  match ids with
  | [] => Ok []
  | id :: ids =>
      match nodes sm !! id with
      | None => Panic
      | Some n => let! ns := replicate_nodes sm ids in Ok (n :: ns)
      end
  end.
(** the stream is dereferenced before it is known to exist *)
Definition getAppendExtentsAddr (sm : StreamManager) (streamID : Z) : outcome (list NodeStatus * Z) :=
  match streams sm !! streamID with
  | None => Panic
  | Some s =>
      match last (ExtentIDs s) with
      | None => Panic
      | Some lastExtentID =>
          match extents sm !! lastExtentID with
          | None => Err (Errorf "no such extentd")
          | Some extInfo => let! ret := replicate_nodes sm (Replicates extInfo) in Ok (ret, lastExtentID)
          end
      end
  end.
(** [RLock] is paired with a deferred [Unlock] *)
Definition cloneStream (sm : StreamManager) (streamID : Z) : outcome (SafeMutex * option StreamInfo) :=
  let! l := RLock (streamLock sm) in
  let stream := streams sm !! streamID in
  let! l := Unlock l in
  Ok (l, stream).
(** the handler, once [receiveCommitlength] has returned; the seals are sent
    and forgotten *)
Definition StreamAllocExtent (sm : StreamManager) (n1 n2 n3 : net) (answer : NodeStatus -> bool) (still : bool) (streamID extentToSeal : Z)
    : tx (StreamManager * ExtentInfo) :=
  if negb (isLeader sm) then tret (Err errNotLeader) else
  let* (ns, id) := tret (getAppendExtentsAddr sm streamID) in
  if negb (id =? extentToSeal) then tret (Err (Errorf "extentID no match")) else
  let* (extentID, _) := (fun db => match allocUniqID n1 n2 1 db with
                                   | (db, Err _) => (db, Err (Errorf "can not alloc id"))
                                   | r => r
                                   end) in
  let* ns := tret (AllocExtent (cloneNodeStatus sm) 3 []) in
  let* _ := tret (sendAllocToNodes answer still ns) in
  let* (_, stream) := tret (cloneStream sm streamID) in
  match stream with
  | None => tret Panic
  | Some stream =>
      let* sdata := tret (must (StreamInfo_Marshal (mkSI (StreamID stream) (ExtentIDs stream ++ [extentID])))) in
      let extentInfo := mkXI extentID (extractNodeId ns) 0 in
      let* edata := tret (must (ExtentInfo_Marshal extentInfo)) in
      let* _ := EtctSetKVS n3 (leader_guard sm) [OpPut (formatStreamKey streamID) sdata; OpPut (formatExtentReplicate extentID) edata] in
      tret (Ok (addExtent sm streamID extentInfo, extentInfo))
  end.

(** *** receiveCommitlength: a goroutine per node, and the caller *)

(** a worker is in its RPC, has a value to send on [reCh], or is done; the
    caller is in [stopper.Wait], in the loop over [reCh], or has returned *)
Inductive rc_worker := WCalling | WSending (size : Z) | WDone.
Inductive rc_main := RWaiting | RReceiving | RReturned.
Record rc_state := mkRC { rc_workers : list rc_worker; rc_caller : rc_main; rc_ret : Z }.
Definition rc_start (ns : list NodeStatus) : rc_state := mkRC ((fun _ => WCalling) <$> ns) RWaiting 512.
(** [reCh] has no buffer: a worker's send waits for the caller's receive; an
    error sends [math.MaxUint32] *)
Inductive rc_step : rc_state -> rc_state -> Prop :=
  | rc_reply ws m ret i size : ws !! i = Some WCalling ->
      rc_step (mkRC ws m ret) (mkRC (<[i := WSending size]> ws) m ret)
  | rc_waited ws ret : Forall (fun w => w = WDone) ws ->
      rc_step (mkRC ws RWaiting ret) (mkRC ws RReceiving ret)
  | rc_receive ws ret i size : ws !! i = Some (WSending size) ->
      rc_step (mkRC ws RReceiving ret)
        (mkRC (<[i := WDone]> ws) RReceiving (if (negb (size =? MaxUint32)) && (size <? ret) then size else ret))
  | rc_closed ws ret : Forall (fun w => w = WDone) ws ->
      rc_step (mkRC ws RReceiving ret) (mkRC ws RReturned ret).

(** *** sealExtents: a goroutine per node, and a caller that does not wait *)

Inductive se_worker := SCalling | SSealed | SFailed.
(** when the caller has returned, the deferred [cancel] has cancelled the context
    of the calls *)
Record se_state := mkSE { se_workers : list se_worker; se_returned : bool }.
Definition se_start (ns : list NodeStatus) : se_state := mkSE ((fun _ => SCalling) <$> ns) false.
(** [faults]: whether nodes and network may fail a call *)
Inductive se_step (faults : bool) : se_state -> se_state -> Prop :=
  | se_sealed ws r i : ws !! i = Some SCalling -> se_step faults (mkSE ws r) (mkSE (<[i := SSealed]> ws) r)
  | se_error ws r i : faults = true -> ws !! i = Some SCalling -> se_step faults (mkSE ws r) (mkSE (<[i := SFailed]> ws) r)
  | se_cancelled ws i : ws !! i = Some SCalling -> se_step faults (mkSE ws true) (mkSE (<[i := SFailed]> ws) true)
  | se_return ws : se_step faults (mkSE ws false) (mkSE ws true).

(** ** runAsLeader *)

(** [time.Time{}] is before every clock value *)
Definition zeroTime : Z := 0.
Definition runAsLeader (n1 n2 n3 : net) (sm : StreamManager) : tx StreamManager :=
  let* kvs := EtcdRange n1 "streams" in
  let* ss := tret (load_kvs StreamInfo_Unmarshal "streams" kvs ∅) in
  let* kvs := EtcdRange n2 "extents" in
  let* es := tret (load_kvs ExtentInfo_Unmarshal "extents" kvs ∅) in
  let* kvs := EtcdRange n3 "nodes" in
  let* ns := tret (load_kvs (fun v => let! i := NodeInfo_Unmarshal v in Ok (mkNS i 0 zeroTime)) "nodes" kvs ∅) in
  tret (Ok (mkSM ss es ns true (memberValue sm) (leaderKey sm) (streamLock sm))).
End Manager.
