(* ===== verification/StreamManagerSpec.v ===== *)
(** The stream manager keeps etcd consistent and its memory a mirror of etcd,
    whatever requests come, messages get lost and leaders change. *)
From Stdlib Require Import ZArith Lia Strings.String.
From stdpp Require Import base option list numbers gmap sorting strings relations.
From S2P Require Import Prelude GoLib Utils Proto ProtoPs ProtoSm Etcd EtcdSpec StreamManager.

(** the three kinds *)
Abbreviation streams_part := (part formatStreamKey "streams" StreamInfo_bytes StreamInfo_wf).
Abbreviation extents_part := (part formatExtentReplicate "extents" ExtentInfo_bytes ExtentInfo_wf).
Abbreviation nodes_part := (part formatNodeKey "nodes" NodeInfo_bytes NodeInfo_wf).

(** ** Consistency *)

Record cluster (S : gmap Z StreamInfo) (E : gmap Z ExtentInfo) (N : gmap Z NodeInfo) (next : Z) : Prop := mk_cluster {
  cl_streams : forall id s, S !! id = Some s -> StreamID s = id /\ 1 <= id < next /\ ExtentIDs s <> [] /\ NoDup (ExtentIDs s) /\
    forall e, e ∈ ExtentIDs s -> is_Some (E !! e);
  cl_extents : forall id x, E !! id = Some x -> XI_ExtentID x = id /\ 1 <= id < next /\ length (Replicates x) = 3%nat /\ NoDup (Replicates x) /\
    forall n, n ∈ Replicates x -> is_Some (N !! n);
  cl_nodes : forall id n, N !! id = Some n -> NodeID n = id /\ 1 <= id < next;
  cl_addr : forall i j n n', N !! i = Some n -> N !! j = Some n' -> Address n = Address n' -> i = j }.

Record db_ok (db : etcd) (S : gmap Z StreamInfo) (E : gmap Z ExtentInfo) (N : gmap Z NodeInfo) (next : Z) : Prop := mk_db_ok {
  do_streams : streams_part db S;
  do_extents : extents_part db E;
  do_nodes : nodes_part db N;
  do_next : next_id db idKey next;
  do_cluster : cluster S E N next }.

(** neither a stream, an extent, a node nor the id counter *)
Definition other_key (k : string) : Prop :=
  String.prefix "streams" k = false /\ String.prefix "extents" k = false /\ String.prefix "nodes" k = false /\ k <> idKey.

Lemma db_ok_other db db' S E N next : db_ok db S E N next -> (forall k, ~ other_key k -> db' !! k = db !! k) -> db_ok db' S E N next.
Proof.
  intros [H1' H2' H3' H4' H5'] Hk. split; [eapply part_other; [reflexivity|exact H1'|]|eapply part_other; [reflexivity|exact H2'|]|eapply part_other; [reflexivity|exact H3'|]| |done].
  - intros k Hp. apply Hk. intros (E1 & _). congruence.
  - intros k Hp. apply Hk. intros (_ & E1 & _). congruence.
  - intros k Hp. apply Hk. intros (_ & _ & E1 & _). congruence.
  - unfold next_id. rewrite Hk; [done|]. intros (_ & _ & _ & E1). done.
Qed.
Lemma cluster_le S E N next next' : next <= next' -> cluster S E N next -> cluster S E N next'.
Proof.
  intros Hle [H1' H2' H3' H4']. split; [|..|done].
  - intros id s E1. destruct (H1' id s E1) as (A1 & A2 & A3). split; [done|]. split; [lia|done].
  - intros id x E1. destruct (H2' id x E1) as (A1 & A2 & A3). split; [done|]. split; [lia|done].
  - intros id n E1. destruct (H3' id n E1) as (A1 & A2). split; [done|lia].
Qed.

(** ** Loading *)

Lemma node_load l : forall acc : gmap Z NodeStatus, Forall (fun kv => exists id a, kv = kv_of formatNodeKey NodeInfo_bytes (id, a) /\ is_u64 id /\ NodeInfo_wf a) l ->
  exists m, load_kvs NodeInfo_Unmarshal "nodes" l (ns_info <$> acc) = Ok (ns_info <$> m) /\
    load_kvs (fun v => let! i := NodeInfo_Unmarshal v in Ok (mkNS i 0 zeroTime)) "nodes" l acc = Ok m.
Proof.
  induction l as [|kv l IH]; intros acc Hl; [by exists acc|]. apply Forall_cons in Hl as [(id & a & -> & Hid & Hwf) Hl].
  unfold kv_of. cbn [load_kvs fst snd]. rewrite (parse_node id Hid). cbn [obind]. rewrite (NodeInfo_Unmarshal_bytes a Hwf). cbn [obind].
  destruct (IH (<[id := mkNS a 0 zeroTime]> acc) Hl) as (m & E1 & E2). exists m. rewrite fmap_insert in E1. done.
Qed.

Lemma runAsLeader_any n1 n2 n3 sm db S E N next : db_ok db S E N next ->
  exists ns, ns_info <$> ns = N /\ (n1 = Delivered -> n2 = Delivered -> n3 = Delivered ->
      runAsLeader n1 n2 n3 sm db = (db, Ok (mkSM S E ns true (memberValue sm) (leaderKey sm) (streamLock sm)))) /\
    (runAsLeader n1 n2 n3 sm db = (db, Ok (mkSM S E ns true (memberValue sm) (leaderKey sm) (streamLock sm))) \/
     runAsLeader n1 n2 n3 sm db = (db, Err errTimeout)).
Proof.
  intros [Hs He Hn _ _]. unfold runAsLeader, tbind, EtcdRange, tret.
  pose proof (load_part formatStreamKey "streams" StreamInfo_bytes StreamInfo_Unmarshal StreamInfo_wf parse_stream ltac:(reflexivity) StreamInfo_Unmarshal_bytes db S Hs) as E1.
  pose proof (load_part formatExtentReplicate "extents" ExtentInfo_bytes ExtentInfo_Unmarshal ExtentInfo_wf parse_extent ltac:(reflexivity) ExtentInfo_Unmarshal_bytes db E He) as E2.
  pose proof (load_part formatNodeKey "nodes" NodeInfo_bytes NodeInfo_Unmarshal NodeInfo_wf parse_node ltac:(reflexivity) NodeInfo_Unmarshal_bytes db N Hn) as Hl.
  set (kvs := merge_sort _ (filter (fun kv => String.prefix "nodes" _ = true) _)) in *.
  destruct (node_load kvs ∅) as (m & E3 & E4).
  { apply Forall_forall. intros [k v] Hin. unfold kvs in Hin. rewrite merge_sort_Permutation in Hin. apply list_elem_of_filter in Hin as [Hp Hin].
    apply elem_of_map_to_list in Hin. destruct (pa_only _ _ _ _ _ _ Hn k v Hin Hp) as (id & a & -> & Ea).
    destruct (pa_has _ _ _ _ _ _ Hn id a Ea) as (H1' & H2' & H3'). exists id, a. split; [|done]. unfold kv_of. cbn [fst snd]. congruence. }
  exists m. split; [rewrite fmap_empty in E3; rewrite Hl in E3; by injection E3 as <-|].
  destruct n1; [rewrite E1|by split; [|right]..]. destruct n2; [rewrite E2|by split; [|right]..]. destruct n3; [rewrite E4|by split; [|right]..].
  split; [done|by left].
Qed.

(** ** What the network can do *)

Lemma alloc_any db n1 n2 next count : next_id db idKey next -> 0 <= count -> next + count < 2 ^ 64 ->
  exists db' next' r, allocUniqID n1 n2 count db = (db', r) /\ next_id db' idKey next' /\ next <= next' <= next + count /\
    (forall k, k <> idKey -> db' !! k = db !! k) /\ (r = Err errTimeout \/ (r = Ok (next, next + count) /\ next' = next + count)).
Proof. apply EtcdAllocUniqID_any. Qed.

Lemma SetKVS_any (sm : StreamManager) db n ops : db !! leaderKey sm = Some (memberValue sm) ->
  exists db', (EtctSetKVS n (leader_guard sm) ops db = (db', Ok tt) /\ db' = foldl apply_op db ops) \/
    (EtctSetKVS n (leader_guard sm) ops db = (db', Panic) /\ (db' = db \/ db' = foldl apply_op db ops)).
Proof. apply EtctSetKVS_any. Qed.

(** ** Choosing nodes *)

Lemma pick_nodes_take count : forall ns, pick_nodes count ns [] = if (length ns <? count)%nat then Panic else Ok (take count ns).
Proof.
  induction count as [|count IH]; intros [|n ns]; [done..|]. cbn [pick_nodes length take]. rewrite IH.
  change (S (length ns) <? S count)%nat with (length ns <? count)%nat. destruct (length ns <? count)%nat; [done|]. cbn [obind].
  rewrite decide_False by apply not_elem_of_nil. done.
Qed.

Section Spec.
Context `{GoOrder}.

Lemma AllocExtent_any ns : (length ns < 3)%nat /\ AllocExtent ns 3 [] = Panic \/
  exists ret, AllocExtent ns 3 [] = Ok ret /\ length ret = 3%nat /\ ret `sublist_of` sort_less node_less ns.
Proof.
  unfold AllocExtent. rewrite pick_nodes_take. pose proof (Permutation_length (sort_less_perm node_less ns)) as Hl. rewrite <- Hl.
  destruct (Nat.ltb_spec (length ns) 3); [left; by split|right]. cbn [obind]. exists (take 3 (sort_less node_less ns)).
  assert (length (take 3 (sort_less node_less ns)) = 3%nat) as E by (rewrite length_take; lia). rewrite E. split; [done|]. split; [done|apply sublist_take].
Qed.

(** the nodes a stream's extent is put on *)
Lemma chosen_nodes (sm : StreamManager) N next S E ret : ns_info <$> nodes sm = N -> cluster S E N next ->
  ret `sublist_of` sort_less node_less (cloneNodeStatus sm) ->
  NoDup (extractNodeId ret) /\ forall n, n ∈ extractNodeId ret -> is_Some (N !! n).
Proof.
  intros HN Hc Hsub. assert (Permutation (extractNodeId (sort_less node_less (cloneNodeStatus sm))) (map_to_list (nodes sm)).*1) as Hp.
  { unfold extractNodeId. rewrite <- sort_less_perm. unfold cloneNodeStatus. rewrite <- map_range_perm, <- list_fmap_compose.
    match goal with |- Permutation ?a ?b => assert (a = b) as ->; [|done] end. apply list_fmap_ext. intros i [id n] Hi. cbn. apply list_elem_of_lookup_2, elem_of_map_to_list in Hi.
    destruct (cl_nodes _ _ _ _ Hc id (ns_info n)) as [E1 _]; [|done]. by rewrite <- HN, lookup_fmap, Hi. }
  assert (extractNodeId ret `sublist_of` extractNodeId (sort_less node_less (cloneNodeStatus sm))) as Hs by (by apply fmap_sublist). split.
  - eapply sublist_NoDup; [|exact Hs]. rewrite Hp. apply NoDup_fst_map_to_list.
  - intros n Hn. assert (n ∈ (map_to_list (nodes sm)).*1) as Hin by (rewrite <- Hp; by eapply elem_of_sublist).
    apply list_elem_of_fmap in Hin as ([id a] & -> & Hin). apply elem_of_map_to_list in Hin. cbn [fst]. rewrite <- HN, lookup_fmap, Hin. by eexists.
Qed.

(** ** The world: the current process and etcd *)

Record sm_inv (b : nat) (sm : StreamManager) (db : etcd) (S : gmap Z StreamInfo) (E : gmap Z ExtentInfo) (N : gmap Z NodeInfo) (next : Z) : Prop := mk_sm_inv {
  si_db : db_ok db S E N next;
  (** ids for [b] more requests *)
  si_room : next + 2 * Z.of_nat b < 2 ^ 64;
  si_mem : isLeader sm = true -> streams sm = S /\ extents sm = E /\ ns_info <$> nodes sm = N /\ db !! leaderKey sm = Some (memberValue sm);
  si_key : other_key (leaderKey sm);
  si_lock : streamLock sm = newMutex }.

(** a panic ends the process *)
Definition crashed (sm : StreamManager) : StreamManager := mkSM ∅ ∅ ∅ false (memberValue sm) (leaderKey sm) newMutex.
Definition finish {R} (sm : StreamManager) (r : etcd * outcome (StreamManager * R)) : StreamManager * etcd :=
  match r with
  | (db, Ok (sm, _)) => (sm, db)
  | (db, Err _) => (sm, db)
  | (db, Panic) => (crashed sm, db)
  end.
Definition holds (b : nat) (w : StreamManager * etcd) : Prop := exists S E N next, sm_inv b (fst w) (snd w) S E N next.

Lemma other_stream k id : other_key k -> formatStreamKey id <> k.
Proof. intros (E & _) <-. discriminate E. Qed.
Lemma other_extent k id : other_key k -> formatExtentReplicate id <> k.
Proof. intros (_ & E & _) <-. discriminate E. Qed.
Lemma other_node k id : other_key k -> formatNodeKey id <> k.
Proof. intros (_ & _ & E & _) <-. discriminate E. Qed.

Lemma db_ok_alloc db db' S E N next next' : db_ok db S E N next -> next_id db' idKey next' -> next <= next' ->
  (forall k, k <> idKey -> db' !! k = db !! k) -> db_ok db' S E N next'.
Proof.
  intros [H1' H2' H3' H4' H5'] Hn Hle Hk. split; [eapply part_other; [reflexivity|exact H1'|]|eapply part_other; [reflexivity|exact H2'|]|eapply part_other; [reflexivity|exact H3'|]|done|by eapply cluster_le].
  - intros k Hp. apply Hk. by intros ->.
  - intros k Hp. apply Hk. by intros ->.
  - intros k Hp. apply Hk. by intros ->.
Qed.

(** the state an allocation of ids leaves, whatever it returns *)
Lemma sm_inv_alloc b sm db db' S E N next next' : sm_inv (Datatypes.S b) sm db S E N next -> next_id db' idKey next' -> next <= next' <= next + 2 ->
  (forall k, k <> idKey -> db' !! k = db !! k) -> sm_inv b sm db' S E N next'.
Proof.
  intros [H1' H2' H3' H4' H5'] Hn Hle Hk. split; [eapply db_ok_alloc; [exact H1'|done|lia|done]|lia| |done|done].
  intros Hl. destruct (H3' Hl) as (A1 & A2 & A3 & A4). repeat (split; [done|]). rewrite Hk; [done|]. by destruct H4' as (_ & _ & _ & ?).
Qed.
Lemma sm_inv_le b b' sm db S E N next : (b' <= b)%nat -> sm_inv b sm db S E N next -> sm_inv b' sm db S E N next.
Proof. intros Hle [H1' H2' H3' H4' H5']. split; [done|lia|done|done|done]. Qed.
Lemma sm_inv_crashed b sm db S E N next : sm_inv b sm db S E N next -> sm_inv b (crashed sm) db S E N next.
Proof. intros [H1' H2' H3' H4' H5']. by split. Qed.

Lemma nums_single id : is_u64 id -> nums_wf [id].
Proof. intros Hid. split; [by constructor|done]. Qed.

(** *** A new stream *)

Definition new_stream (db : etcd) (si : StreamInfo) (xi : ExtentInfo) : etcd :=
  foldl apply_op db [OpPut (formatStreamKey (StreamID si)) (StreamInfo_bytes si); OpPut (formatExtentReplicate (XI_ExtentID xi)) (ExtentInfo_bytes xi)].
Lemma db_ok_create db S E N next next' id reps : db_ok db S E N next' -> 1 <= next -> next' = next + 2 -> next' < 2 ^ 64 -> id = next ->
  length reps = 3%nat -> NoDup reps -> (forall n, n ∈ reps -> is_Some (N !! n)) -> ExtentInfo_wf (mkXI (id + 1) reps 0) ->
  db_ok (new_stream db (mkSI id [id + 1]) (mkXI (id + 1) reps 0)) (<[id := mkSI id [id + 1]]> S) (<[id + 1 := mkXI (id + 1) reps 0]> E) N next'.
Proof.
  intros [H1' H2' H3' H4' H5'] Hn Hn' Hlt -> Hlen Hnd Hreps Hwf. unfold new_stream. cbn [foldl apply_op StreamID XI_ExtentID].
  assert (is_u64 next /\ is_u64 (next + 1)) as [Hu1 Hu2] by (unfold is_u64; lia).
  split.
  - eapply part_insert_other; [reflexivity| |reflexivity].
    eapply (part_put _ _ _ _ parse_stream); [reflexivity|exact H1'|done|split; [done|by apply nums_single]].
  - eapply (part_put _ _ _ _ parse_extent); [reflexivity| |done|done]. by eapply part_insert_other.
  - do 2 (eapply part_insert_other; [reflexivity| |reflexivity]). exact H3'.
  - unfold next_id in *. by rewrite !lookup_insert_ne by done.
  - destruct H5' as [C1 C2 C3 C4]. split; [..|done|done].
    + intros id s Hs. destruct (decide (id = next)) as [->|Hne].
      * rewrite lookup_insert_eq in Hs. injection Hs as <-. cbn [StreamID ExtentIDs]. split; [done|]. split; [lia|]. split; [done|]. split; [apply NoDup_singleton|].
        intros e He. apply list_elem_of_singleton in He as ->. by rewrite lookup_insert_eq.
      * rewrite lookup_insert_ne in Hs by done. destruct (C1 id s Hs) as (D1 & D2 & D3 & D4 & D5). do 4 (split; [done|]). intros e He.
        destruct (decide (e = next + 1)) as [->|Hne']; [by rewrite lookup_insert_eq|]. rewrite lookup_insert_ne by done. by apply D5.
    + intros id x Hx. destruct (decide (id = next + 1)) as [->|Hne].
      * rewrite lookup_insert_eq in Hx. injection Hx as <-. cbn [XI_ExtentID Replicates]. split; [done|]. split; [lia|]. done.
      * rewrite lookup_insert_ne in Hx by done. by apply C2.
Qed.

Lemma replicas_wf db N next S E id reps : db_ok db S E N next -> is_u64 id -> length reps = 3%nat -> (forall n, n ∈ reps -> is_Some (N !! n)) ->
  ExtentInfo_wf (mkXI id reps 0).
Proof.
  intros Hdb Hid Hlen Hreps. split; [done|]. split; [|done]. split; [|unfold zlen; cbn [Replicates]; rewrite Hlen; done].
  apply Forall_forall. intros n Hn. destruct (Hreps n Hn) as [a Ha]. by apply (pa_has _ _ _ _ _ _ (do_nodes _ _ _ _ _ Hdb) n a).
Qed.

Lemma CreateStream_ok b sm db n1 n2 n3 answer still : holds (Datatypes.S b) (sm, db) -> holds b (finish sm (CreateStream sm n1 n2 n3 answer still db)).
Proof.
  intros (S & E & N & next & Hi). cbn [fst snd] in Hi. unfold CreateStream. destruct (isLeader sm) eqn:El; cbn [negb].
  2: { cbn. exists S, E, N, next. eapply sm_inv_le; [|exact Hi]. lia. }
  destruct (si_mem _ _ _ _ _ _ _ Hi El) as (HS & HE & HN & Hkey). pose proof (si_room _ _ _ _ _ _ _ Hi) as Hroom.
  pose proof (do_next _ _ _ _ _ (si_db _ _ _ _ _ _ _ Hi)) as Hnx. pose proof (proj1 Hnx) as Hn1.
  destruct (alloc_any db n1 n2 next 2 Hnx ltac:(lia) ltac:(lia)) as (db1 & next1 & r & Ea & Hnx1 & Hle & Hk & Hr).
  pose proof (sm_inv_alloc b sm db db1 S E N next next1 Hi Hnx1 ltac:(lia) Hk) as Hi1. unfold tbind at 1. rewrite Ea.
  destruct Hr as [->|[-> ->]]; [by exists S, E, N, next1|]. rewrite u64_small by lia.
  assert (holds b (crashed sm, db1)) as Hcrash by (exists S, E, N, (next + 2); by apply sm_inv_crashed).
  unfold tbind at 1, tret at 1. destruct (AllocExtent_any (cloneNodeStatus sm)) as [[_ ->]|(ret & -> & Hlen & Hsub)]; [done|].
  unfold tbind at 1, tret at 1. unfold sendAllocToNodes. destruct (negb _ || negb still); [by exists S, E, N, (next + 2)|].
  destruct (chosen_nodes sm N _ S E ret HN (do_cluster _ _ _ _ _ (si_db _ _ _ _ _ _ _ Hi)) Hsub) as [Hnd Hin].
  assert (length (extractNodeId ret) = 3%nat) as Hlen' by (unfold extractNodeId; by rewrite length_fmap).
  pose proof (si_db _ _ _ _ _ _ _ Hi1) as Hdb1. assert (is_u64 next /\ is_u64 (next + 1)) as [Hu1 Hu2] by (unfold is_u64; lia).
  pose proof (replicas_wf _ _ _ _ _ (next + 1) _ Hdb1 Hu2 Hlen' Hin) as Hxwf.
  rewrite StreamInfo_Marshal_bytes by (split; [done|by apply nums_single]). rewrite ExtentInfo_Marshal_bytes by done. unfold tbind, tret. cbn [must].
  pose proof (db_ok_create db1 S E N next (next + 2) next (extractNodeId ret) Hdb1 ltac:(lia) eq_refl ltac:(lia) eq_refl Hlen' Hnd Hin Hxwf) as Hdb2.
  pose proof (si_key _ _ _ _ _ _ _ Hi) as Hok.
  assert (new_stream db1 (mkSI next [next + 1]) (mkXI (next + 1) (extractNodeId ret) 0) !! leaderKey sm = Some (memberValue sm)) as Hkey2.
  { unfold new_stream. cbn [foldl apply_op]. rewrite !lookup_insert_ne by (by apply other_extent || by apply other_stream). apply (si_mem _ _ _ _ _ _ _ Hi1 El). }
  assert (holds b (crashed sm, new_stream db1 (mkSI next [next + 1]) (mkXI (next + 1) (extractNodeId ret) 0))) as Hcrash2.
  { do 4 eexists. split; [exact Hdb2|lia|done|exact Hok|done]. }
  destruct (SetKVS_any sm db1 n3 [OpPut (formatStreamKey next) (StreamInfo_bytes (mkSI next [next + 1]));
      OpPut (formatExtentReplicate (next + 1)) (ExtentInfo_bytes (mkXI (next + 1) (extractNodeId ret) 0))]) as (db2 & [[-> ->]|[-> [->| ->]]]);
    [apply (si_mem _ _ _ _ _ _ _ Hi1 El)| |done|done].
  do 4 eexists. cbn [finish fst snd]. split; [exact Hdb2|lia| |exact Hok|apply Hi].
  intros _. unfold addExtent. cbn [XI_ExtentID]. assert (streams sm !! next = None) as ->.
  { rewrite HS. destruct (S !! next) as [s|] eqn:Es; [|done]. destruct (cl_streams _ _ _ _ (do_cluster _ _ _ _ _ (si_db _ _ _ _ _ _ _ Hi)) next s Es) as (_ & Hx & _). lia. }
  cbn [with_maps streams extents nodes leaderKey memberValue]. rewrite HS, HE, HN. done.
Qed.

(** *** A new node *)

Lemma db_ok_register db S E N next next' addr : db_ok db S E N next' -> 1 <= next -> next' = next + 1 -> next' < 2 ^ 64 -> zlen addr < 2 ^ 40 ->
  (forall id n, N !! id = Some n -> Address n <> addr) -> (forall id n, N !! id = Some n -> id < next) ->
  db_ok (<[formatNodeKey next := NodeInfo_bytes (mkNI next addr)]> db) S E (<[next := mkNI next addr]> N) next'.
Proof.
  intros [H1' H2' H3' H4' H5'] Hn Hn' Hlt Hz Hd Hfresh. assert (is_u64 next) as Hu by (unfold is_u64; lia). split.
  - by eapply part_insert_other.
  - by eapply part_insert_other.
  - eapply (part_put _ _ _ _ parse_node); [reflexivity|done|done|by split].
  - unfold next_id in *. by rewrite lookup_insert_ne by done.
  - destruct H5' as [C1 C2 C3 C4]. assert (forall n, is_Some (N !! n) -> is_Some (<[next := mkNI next addr]> N !! n)) as Hs.
    { intros n Hs. destruct (decide (n = next)) as [->|]; [by rewrite lookup_insert_eq|by rewrite lookup_insert_ne]. }
    split; [done|..].
    + intros id x Hx. destruct (C2 id x Hx) as (D1 & D2 & D3 & D4 & D5). do 4 (split; [done|]). auto.
    + intros id n Hx. destruct (decide (id = next)) as [->|Hne]; [rewrite lookup_insert_eq in Hx; injection Hx as <-; split; [done|lia]|].
      rewrite lookup_insert_ne in Hx by done. by apply C3.
    + intros i j n n' Hi Hj Ea. destruct (decide (i = next)) as [->|Hni], (decide (j = next)) as [->|Hnj]; [done|..].
      * rewrite lookup_insert_eq in Hi. rewrite lookup_insert_ne in Hj by done. injection Hi as <-. by destruct (Hd j n' Hj).
      * rewrite lookup_insert_eq in Hj. rewrite lookup_insert_ne in Hi by done. injection Hj as <-. by destruct (Hd i n Hi).
      * rewrite !lookup_insert_ne in Hi, Hj by done. by eapply C4.
Qed.

Lemma no_duplicate (sm : StreamManager) addr : hasDuplicateAddr sm addr = false -> forall id n, (ns_info <$> nodes sm) !! id = Some n -> Address n <> addr.
Proof.
  intros Hd id n Hn Ea. rewrite lookup_fmap in Hn. destruct (nodes sm !! id) as [ns|] eqn:E; [|done]. injection Hn as <-.
  unfold hasDuplicateAddr in Hd. apply not_true_iff_false in Hd. apply Hd, existsb_exists. exists (id, ns). split; [|cbn [snd]; by apply bool_decide_eq_true].
  apply base.list_elem_of_In. rewrite <- map_range_perm. by apply elem_of_map_to_list.
Qed.

Lemma RegisterNode_ok b sm db n1 n2 n3 now addr : holds (Datatypes.S b) (sm, db) -> zlen addr < 2 ^ 40 ->
  holds b (finish sm (RegisterNode sm n1 n2 n3 now addr db)).
Proof.
  intros (S & E & N & next & Hi) Hz. cbn [fst snd] in Hi. unfold RegisterNode.
  assert (holds b (sm, db)) as Hsame by (exists S, E, N, next; eapply sm_inv_le; [|exact Hi]; lia).
  destruct (isLeader sm) eqn:El; cbn [negb]; [|done]. destruct (hasDuplicateAddr sm addr) eqn:Ed; [done|].
  destruct (si_mem _ _ _ _ _ _ _ Hi El) as (HS & HE & HN & Hkey). pose proof (si_room _ _ _ _ _ _ _ Hi) as Hroom.
  pose proof (do_next _ _ _ _ _ (si_db _ _ _ _ _ _ _ Hi)) as Hnx. pose proof (proj1 Hnx) as Hn1.
  destruct (alloc_any db n1 n2 next 1 Hnx ltac:(lia) ltac:(lia)) as (db1 & next1 & r & Ea & Hnx1 & Hle & Hk & Hr).
  pose proof (sm_inv_alloc b sm db db1 S E N next next1 Hi Hnx1 ltac:(lia) Hk) as Hi1. unfold tbind at 1. rewrite Ea.
  destruct Hr as [->|[-> ->]]; [by exists S, E, N, next1|].
  assert (is_u64 next) as Hu by (unfold is_u64; lia). rewrite NodeInfo_Marshal_bytes by done. unfold tbind, tret. cbn [must].
  pose proof (db_ok_register db1 S E N next (next + 1) addr (si_db _ _ _ _ _ _ _ Hi1) ltac:(lia) eq_refl ltac:(lia) Hz) as Hdb2.
  rewrite <- HN in Hdb2. specialize (Hdb2 (no_duplicate sm addr Ed)). rewrite HN in Hdb2. specialize (Hdb2 (fun id n Hx =>
    proj2 (proj2 (cl_nodes _ _ _ _ (do_cluster _ _ _ _ _ (si_db _ _ _ _ _ _ _ Hi)) id n Hx)))).
  pose proof (si_key _ _ _ _ _ _ _ Hi) as Hok.
  assert (holds b (crashed sm, <[formatNodeKey next := NodeInfo_bytes (mkNI next addr)]> db1)) as Hcrash2.
  { do 4 eexists. split; [exact Hdb2|lia|done|exact Hok|done]. }
  destruct (SetKVS_any sm db1 n3 [OpPut (formatNodeKey next) (NodeInfo_bytes (mkNI next addr))]) as (db2 & [[-> ->]|[-> [->| ->]]]);
    [apply (si_mem _ _ _ _ _ _ _ Hi1 El)| |by exists S, E, N, (next + 1); apply sm_inv_crashed|done].
  do 4 eexists. cbn [finish fst snd foldl apply_op]. split; [exact Hdb2|lia| |exact Hok|apply Hi].
  intros _. cbn [addNode with_maps streams extents nodes leaderKey memberValue]. rewrite fmap_insert, HN, HS, HE. cbn [ns_info].
  split; [done|]. split; [done|]. split; [done|]. rewrite lookup_insert_ne by (by apply other_node). apply (si_mem _ _ _ _ _ _ _ Hi1 El).
Qed.

(** *** A shorter stream *)

Lemma extent_index_cons x y ids e i : extent_index (x :: y :: ids) e i = if x =? e then i else extent_index (y :: ids) e (Datatypes.S i).
Proof. done. Qed.
Lemma extent_index_lt ids e : ids <> [] -> forall i, (i <= extent_index ids e i < i + length ids)%nat.
Proof.
  induction ids as [|x [|y ids] IH]; intros Hne i; [done|cbn [length extent_index]; lia|].
  rewrite extent_index_cons. cbn [length] in *. destruct (x =? e); [lia|].
  specialize (IH ltac:(done) (Datatypes.S i)). lia.
Qed.
Lemma extent_index_found e : forall ids i k, ids !! k = Some e -> NoDup ids -> extent_index ids e i = (i + k)%nat.
Proof.
  induction ids as [|x [|y ids] IH]; intros i k Hk Hn; [done|destruct k; [cbn; lia|done]|]. rewrite extent_index_cons.
  apply NoDup_cons in Hn as [Hx Hn]. destruct k as [|k]; cbn in Hk.
  - injection Hk as ->. rewrite Z.eqb_refl. lia.
  - destruct (Z.eqb_spec x e) as [->|Hne]; [destruct Hx; by eapply list_elem_of_lookup_2|]. rewrite (IH (Datatypes.S i) k Hk Hn). lia.
Qed.
Lemma extent_index_missing e : forall ids i, e ∉ ids -> ids <> [] -> extent_index ids e i = (i + pred (length ids))%nat.
Proof.
  induction ids as [|x [|y ids] IH]; intros i Hx Hne; [done|cbn; lia|]. rewrite extent_index_cons. apply not_elem_of_cons in Hx as [Hxe Hx].
  destruct (Z.eqb_spec x e); [congruence|]. rewrite IH by done. cbn [length]. lia.
Qed.

Lemma db_ok_truncate db S E N next id s i : db_ok db S E N next -> S !! id = Some s -> (i < length (ExtentIDs s))%nat ->
  StreamInfo_wf (mkSI id (drop i (ExtentIDs s))) /\
  db_ok (<[formatStreamKey id := StreamInfo_bytes (mkSI id (drop i (ExtentIDs s)))]> db) (<[id := mkSI id (drop i (ExtentIDs s))]> S) E N next.
Proof.
  intros [H1' H2' H3' H4' H5'] Hs Hi. destruct (pa_has _ _ _ _ _ _ H1' id s Hs) as (Hu & [Hw1 [Hw2 Hw3]] & _).
  assert (StreamInfo_wf (mkSI id (drop i (ExtentIDs s)))) as Hwf.
  { split; [done|]. cbn [ExtentIDs]. split; [by apply Forall_drop|]. unfold zlen in *. rewrite length_drop. lia. }
  split; [done|]. split.
  - by eapply (part_put _ _ _ _ parse_stream).
  - by eapply part_insert_other.
  - by eapply part_insert_other.
  - unfold next_id in *. by rewrite lookup_insert_ne by done.
  - destruct H5' as [C1 C2 C3 C4]. split; [|done..]. intros id' s' Hs'. destruct (decide (id' = id)) as [->|Hne].
    + rewrite lookup_insert_eq in Hs'. injection Hs' as <-. cbn [StreamID ExtentIDs]. destruct (C1 id s Hs) as (D1 & D2 & D3 & D4 & D5).
      split; [done|]. split; [done|]. split; [intros E0; apply (f_equal length) in E0; rewrite length_drop in E0; cbn in E0; lia|].
      split; [rewrite <- (take_drop i (ExtentIDs s)) in D4; by apply NoDup_app in D4 as (_ & _ & ?)|].
      intros e He. apply D5. rewrite <- (take_drop i (ExtentIDs s)). apply elem_of_app. by right.
    + rewrite lookup_insert_ne in Hs' by done. by apply C1.
Qed.

Lemma Truncate_ok b sm db n streamID extentID : holds (Datatypes.S b) (sm, db) -> holds b (finish sm (sm_Truncate sm n streamID extentID db)).
Proof.
  intros (S & E & N & next & Hi). cbn [fst snd] in Hi. unfold sm_Truncate.
  assert (holds b (sm, db)) as Hsame by (exists S, E, N, next; eapply sm_inv_le; [|exact Hi]; lia).
  destruct (isLeader sm) eqn:El; cbn [negb]; [|done]. destruct (si_mem _ _ _ _ _ _ _ Hi El) as (HS & HE & HN & Hkey).
  destruct (streams sm !! streamID) as [s|] eqn:Es; [|done]. pose proof (si_db _ _ _ _ _ _ _ Hi) as Hdb. rewrite HS in Es.
  destruct (cl_streams _ _ _ _ (do_cluster _ _ _ _ _ Hdb) streamID s Es) as (_ & _ & Hne & _).
  pose proof (extent_index_lt (ExtentIDs s) extentID Hne 0) as Hlt. set (i := extent_index (ExtentIDs s) extentID 0) in *.
  destruct (i =? 0)%nat; [done|]. destruct (db_ok_truncate db S E N next streamID s i Hdb Es ltac:(lia)) as [Hwf Hdb2].
  rewrite StreamInfo_Marshal_bytes by done. unfold tbind, tret. cbn [must]. pose proof (si_room _ _ _ _ _ _ _ Hi) as Hroom. pose proof (si_key _ _ _ _ _ _ _ Hi) as Hok.
  destruct (SetKVS_any sm db n [OpPut (formatStreamKey streamID) (StreamInfo_bytes (mkSI streamID (drop i (ExtentIDs s))))] Hkey) as (db2 & [[-> ->]|[-> [->| ->]]]).
  - do 4 eexists. cbn [finish fst snd foldl apply_op]. split; [exact Hdb2|lia| |exact Hok|apply Hi].
    intros _. cbn [with_maps streams extents nodes leaderKey memberValue]. rewrite HS. repeat (split; [done|]). by rewrite lookup_insert_ne by (by apply other_stream).
  - exists S, E, N, next. apply sm_inv_crashed. eapply sm_inv_le; [|exact Hi]. lia.
  - do 4 eexists. cbn [finish fst snd foldl apply_op]. split; [exact Hdb2|lia|done|exact Hok|done].
Qed.

(** *** StreamAllocExtent gets no further than [cloneStream] *)

Lemma cloneStream_panics (sm : StreamManager) id : writer (streamLock sm) = 0 -> cloneStream sm id = Panic.
Proof. intros Hw. unfold cloneStream, RLock, Unlock. cbn [obind writer]. rewrite Hw. done. Qed.
Lemma StreamAllocExtent_fails b sm db n1 n2 n3 answer still streamID extentID S E N next : sm_inv (Datatypes.S b) sm db S E N next ->
  exists db' next' r, StreamAllocExtent sm n1 n2 n3 answer still streamID extentID db = (db', r) /\ sm_inv b sm db' S E N next' /\
    (r = Panic \/ exists e, r = Err e).
Proof.
  intros Hi. assert (forall e, exists db' next' r, (db, @Err (StreamManager * ExtentInfo) e) = (db', r) /\ sm_inv b sm db' S E N next' /\ (r = Panic \/ exists e, r = Err e)) as Herr.
  { intros e. exists db, next, (Err e). split; [done|]. split; [eapply sm_inv_le; [|exact Hi]; lia|right; by eexists]. }
  assert (exists db' next' r, (db, @Panic (StreamManager * ExtentInfo)) = (db', r) /\ sm_inv b sm db' S E N next' /\ (r = Panic \/ exists e, r = Err e)) as Hpanic.
  { exists db, next, Panic. split; [done|]. split; [eapply sm_inv_le; [|exact Hi]; lia|by left]. }
  unfold StreamAllocExtent. destruct (isLeader sm) eqn:El; cbn [negb]; [|apply Herr]. unfold tbind at 1, tret at 1.
  destruct (getAppendExtentsAddr sm streamID) as [[ns id]|e|]; [|apply Herr|apply Hpanic]. destruct (id =? extentID); cbn [negb]; [|apply Herr].
  pose proof (si_room _ _ _ _ _ _ _ Hi) as Hroom. pose proof (do_next _ _ _ _ _ (si_db _ _ _ _ _ _ _ Hi)) as Hnx.
  destruct (alloc_any db n1 n2 next 1 Hnx ltac:(lia) ltac:(lia)) as (db1 & next1 & r & Ea & Hnx1 & Hle & Hk & Hr).
  pose proof (sm_inv_alloc b sm db db1 S E N next next1 Hi Hnx1 ltac:(lia) Hk) as Hi1. unfold tbind at 1. rewrite Ea.
  exists db1, next1. destruct Hr as [->|[-> ->]]; [eexists; split; [done|]; split; [done|right; by eexists]|].
  unfold tbind at 1, tret at 1. destruct (AllocExtent_any (cloneNodeStatus sm)) as [[_ ->]|(ret & -> & _)]; [eexists; split; [done|]; split; [done|by left]|].
  unfold tbind at 1, tret at 1. destruct (sendAllocToNodes answer still ret) as [?|e|]; [|eexists; split; [done|]; split; [done|right; by eexists]|eexists; split; [done|]; split; [done|by left]].
  unfold tbind at 1, tret at 1. rewrite cloneStream_panics by (by rewrite (si_lock _ _ _ _ _ _ _ Hi)). eexists. split; [done|]. split; [done|by left].
Qed.

(** ** Runs *)

Definition electionKey (lease : string) : string := String.append "AutumnSMLeader/" lease.
Inductive sm_event :=
  | EvCreateStream (n1 n2 n3 : net) (answer : NodeStatus -> bool) (still : bool)
  | EvRegisterNode (n1 n2 n3 : net) (now : Z) (addr : bytes)
  | EvTruncate (n : net) (streamID extentID : Z)
  | EvAllocExtent (n1 n2 n3 : net) (answer : NodeStatus -> bool) (still : bool) (streamID extentID : Z)
  | EvElect (lease : string) (member : bytes) (n1 n2 n3 : net).
(** [LeaderLoop]: the key of the last leader's session is gone from etcd, a
    process wins the election and loads. The process that lost its key is not
    this one: what it does until it notices is part of the runs in SharedEtcd. *)
Definition elect (lease : string) (member : bytes) (n1 n2 n3 : net) (sm : StreamManager) (db : etcd) : StreamManager * etcd :=
  let sm' := mkSM ∅ ∅ ∅ false member (electionKey lease) newMutex in
  match runAsLeader n1 n2 n3 sm' (<[electionKey lease := member]> (delete (leaderKey sm) db)) with
  | (db, Ok sm') => (sm', db)
  | (db, _) => (sm', db)
  end.
(** [LeaderLoop]: the process sees that its session is over *)
Definition session_done (sm : StreamManager) : StreamManager := mkSM (streams sm) (extents sm) (nodes sm) false (memberValue sm) (leaderKey sm) (streamLock sm).
Definition sm_step (w : StreamManager * etcd) (ev : sm_event) : StreamManager * etcd :=
  let '(sm, db) := w in
  match ev with
  | EvCreateStream n1 n2 n3 answer still => finish sm (CreateStream sm n1 n2 n3 answer still db)
  | EvRegisterNode n1 n2 n3 now addr => finish sm (RegisterNode sm n1 n2 n3 now addr db)
  | EvTruncate n s e => finish sm (sm_Truncate sm n s e db)
  | EvAllocExtent n1 n2 n3 answer still s e => finish sm (StreamAllocExtent sm n1 n2 n3 answer still s e db)
  | EvElect lease member n1 n2 n3 => elect lease member n1 n2 n3 sm db
  end.
Definition event_ok (ev : sm_event) : Prop := match ev with EvRegisterNode _ _ _ _ addr => zlen addr < 2 ^ 40 | _ => True end.
Definition is_request (ev : sm_event) : Prop := match ev with EvElect _ _ _ _ _ => False | _ => True end.
(** nothing in etcd and no leader *)
Definition sm_init : StreamManager * etcd := (mkSM ∅ ∅ ∅ false [] EmptyString newMutex, ∅).

Lemma election_other lease : other_key (electionKey lease).
Proof. repeat split; try reflexivity. intros E. discriminate E. Qed.
Lemma elect_db (sm : StreamManager) db S E N next lease member : db_ok db S E N next -> other_key (leaderKey sm) ->
  db_ok (<[electionKey lease := member]> (delete (leaderKey sm) db)) S E N next.
Proof.
  intros Hdb Hok. apply (db_ok_other db); [done|]. intros k Hk. rewrite lookup_insert_ne by (intros <-; apply Hk, election_other).
  apply lookup_delete_ne. by intros <-.
Qed.
Lemma sm_step_ok b w ev : holds (Datatypes.S b) w -> event_ok ev -> holds b (sm_step w ev).
Proof.
  destruct w as [sm db]. intros Hw Hev. destruct ev as [n1 n2 n3 answer still|n1 n2 n3 now addr|n s e|n1 n2 n3 answer still s e|lease member n1 n2 n3]; cbn [sm_step].
  - by apply CreateStream_ok.
  - by apply RegisterNode_ok.
  - by apply Truncate_ok.
  - destruct Hw as (S & E & N & next & Hi). cbn [fst snd] in Hi.
    destruct (StreamAllocExtent_fails b sm db n1 n2 n3 answer still s e S E N next Hi) as (db' & next' & r & -> & Hi' & [->|[er ->]]); exists S, E, N, next'; [by apply sm_inv_crashed|done].
  - destruct Hw as (S & E & N & next & Hi). cbn [fst snd] in Hi. unfold elect. set (sm' := mkSM ∅ ∅ ∅ false member (electionKey lease) newMutex).
    pose proof (elect_db sm db S E N next lease member (si_db _ _ _ _ _ _ _ Hi) (si_key _ _ _ _ _ _ _ Hi)) as Hdb. pose proof (si_room _ _ _ _ _ _ _ Hi).
    destruct (runAsLeader_any n1 n2 n3 sm' _ S E N next Hdb) as (ns & HN & _ & [->| ->]); exists S, E, N, next; cbn [fst snd].
    + split; [done|lia| |apply election_other|done]. intros _. cbn. rewrite lookup_insert_eq. done.
    + split; [done|lia|done|apply election_other|done].
Qed.
Lemma sm_run_ok b evs : forall w, holds (length evs + b) w -> Forall event_ok evs -> holds b (foldl sm_step w evs).
Proof.
  induction evs as [|ev evs IH]; intros w Hw Hev; [done|]. apply Forall_cons in Hev as [He Hev]. cbn [foldl]. apply IH; [|done]. by apply sm_step_ok.
Qed.
Lemma sm_init_ok b : 2 * Z.of_nat b + 1 < 2 ^ 64 -> holds b sm_init.
Proof.
  intros Hb. exists ∅, ∅, ∅, 1. cbn [sm_init fst snd]. split; [|lia|done|repeat split; done|done].
  split; [apply part_empty|apply part_empty|apply part_empty|split; [lia|]; by rewrite lookup_empty|]. split; intros *; by rewrite lookup_empty.
Qed.

(** Whatever requests reach the stream manager, whichever of its etcd messages are lost
    or unanswered, and however often processes crash and leaders change, etcd stays consistent
    (every stream has extents, every extent three distinct registered nodes, addresses and ids are
    unique and ids below the counter), the leader's memory is exactly what etcd holds, and the next
    leader loads exactly that state. *)
Theorem stream_manager_mirrors evs sm db : 2 * zlen evs + 1 < 2 ^ 64 -> Forall event_ok evs -> foldl sm_step sm_init evs = (sm, db) ->
  exists S E N next, db_ok db S E N next /\
    (isLeader sm = true -> streams sm = S /\ extents sm = E /\ ns_info <$> nodes sm = N) /\
    forall lease member, exists ns,
      elect lease member Delivered Delivered Delivered sm db =
        (mkSM S E ns true member (electionKey lease) newMutex, <[electionKey lease := member]> (delete (leaderKey sm) db)) /\ ns_info <$> ns = N.
Proof.
  intros Hb Hev Hrun. destruct (sm_run_ok 0 evs sm_init) as (S & E & N & next & Hi); [apply sm_init_ok; unfold zlen in Hb; lia|done|].
  rewrite Hrun in Hi. cbn [fst snd] in Hi. exists S, E, N, next. split; [apply Hi|]. split.
  - intros Hl. destruct (si_mem _ _ _ _ _ _ _ Hi Hl) as (H1' & H2' & H3' & _). done.
  - intros lease member. pose proof (elect_db sm db S E N next lease member (si_db _ _ _ _ _ _ _ Hi) (si_key _ _ _ _ _ _ _ Hi)) as Hdb.
    destruct (runAsLeader_any Delivered Delivered Delivered (mkSM ∅ ∅ ∅ false member (electionKey lease) newMutex) _ S E N next Hdb) as (ns & HN & E1 & _).
    exists ns. split; [|done]. unfold elect. by rewrite E1.
Qed.
End Spec.
