(* ===== verification/StreamManagerOps.v ===== *)
(** What single requests to the stream manager do: ids, truncation, and the
    paths on which the code does not do what it means to. *)
From Stdlib Require Import ZArith Lia Strings.String.
From stdpp Require Import base option list numbers gmap sorting strings relations.
From S2P Require Import Prelude GoLib Utils Proto ProtoPs ProtoSm Etcd EtcdSpec StreamManager StreamManagerSpec.

(** ** Unique ids *)

(** requests for ids, one after the other, with what the network does to them *)
Fixpoint alloc_all (reqs : list (net * net * Z)) (db : etcd) : etcd * list (outcome (Z * Z)) :=
  match reqs with
  | [] => (db, [])
  | (n1, n2, count) :: reqs =>
      let '(db, r) := allocUniqID n1 n2 count db in
      let '(db, rs) := alloc_all reqs db in (db, r :: rs)
  end.
Definition total (reqs : list (net * net * Z)) : Z := foldr (fun r n => snd r + n) 0 reqs.

Lemma alloc_all_ok reqs : forall db next, next_id db idKey next -> Forall (fun r => 0 <= snd r) reqs -> next + total reqs < 2 ^ 64 ->
  forall i a b, (snd (alloc_all reqs db)) !! i = Some (Ok (a, b)) ->
    next <= a /\ (exists n1 n2, reqs !! i = Some (n1, n2, b - a)) /\
    forall j c d, (i < j)%nat -> (snd (alloc_all reqs db)) !! j = Some (Ok (c, d)) -> b <= c.
Proof.
  induction reqs as [|[[n1 n2] count] reqs IH]; intros db next Hn Hc Ht i a b Hi; [done|]. apply Forall_cons in Hc as [Hc0 Hc].
  unfold total in Ht. cbn [foldr snd] in Ht. fold (total reqs) in Ht. cbn [snd] in Hc0.
  assert (0 <= total reqs) as Htot.
  { clear -Hc. unfold total. induction Hc as [|r l Hr _ IH]; cbn [foldr]; [lia|]. cbn beta in Hr. lia. }
  cbn [alloc_all] in *. destruct (alloc_any db n1 n2 next count Hn Hc0 ltac:(lia)) as (db' & next' & r & E & Hn' & Hle & _ & Hr).
  rewrite E in *. specialize (IH db' next' Hn' Hc ltac:(lia)). destruct (alloc_all reqs db') as [db2 rs]. cbn [snd] in *.
  destruct i as [|i]; cbn [lookup list_lookup] in Hi.
  - injection Hi as ->. destruct Hr as [|[[= -> ->] ->]]; [done|]. split; [lia|]. split; [exists n1, n2; cbn; do 2 f_equal; lia|].
    intros [|j] c d Hj Hd; [lia|]. cbn [lookup list_lookup] in Hd. apply (IH j c d) in Hd as (Hx & _). lia.
  - destruct (IH i a b Hi) as (Hx & Hreq & Hlater). split; [lia|]. split; [done|].
    intros [|j] c d Hj Hd; [lia|]. cbn [lookup list_lookup] in Hd. apply (Hlater j c d); [lia|done].
Qed.

(** C34: Ids allocated one request after the other are never given out twice, whatever happens to
    the messages: the ranges returned have the sizes asked for, start at 1 and do not overlap. *)
Theorem allocUniqID_disjoint reqs i j a b c d : Forall (fun r => 0 <= snd r) reqs -> 1 + total reqs < 2 ^ 64 -> (i < j)%nat ->
  snd (alloc_all reqs ∅) !! i = Some (Ok (a, b)) -> snd (alloc_all reqs ∅) !! j = Some (Ok (c, d)) ->
  1 <= a <= b /\ b <= c <= d /\ (exists n1 n2, reqs !! i = Some (n1, n2, b - a)).
Proof.
  intros Hc Ht Hij Hi Hj. assert (next_id ∅ idKey 1) as Hn by (split; [lia|]; by rewrite lookup_empty).
  destruct (alloc_all_ok reqs ∅ 1 Hn Hc Ht i a b Hi) as (H1' & H2' & H3'). destruct (alloc_all_ok reqs ∅ 1 Hn Hc Ht j c d Hj) as (_ & (m1 & m2 & Hr2) & _).
  specialize (H3' j c d Hij Hj). rewrite Forall_forall in Hc. destruct H2' as (n1 & n2 & Hr1).
  pose proof (Hc _ (list_elem_of_lookup_2 _ _ _ Hr1)) as Hc1. pose proof (Hc _ (list_elem_of_lookup_2 _ _ _ Hr2)) as Hc2. cbn [snd] in *.
  split; [lia|]. split; [lia|by exists n1, n2].
Qed.

(** two processes that read the counter before either writes it *)
Definition alloc_race (count1 count2 : Z) (db : etcd) : etcd * outcome (Z * Z) * outcome (Z * Z) :=
  match alloc_read Delivered idKey db with
  | (db, Ok (curr1, cmp1)) =>
      match alloc_read Delivered idKey db with
      | (db, Ok (curr2, cmp2)) =>
          let '(db, r1) := alloc_commit Delivered idKey count1 curr1 cmp1 db in
          let '(db, r2) := alloc_commit Delivered idKey count2 curr2 cmp2 db in (db, r1, r2)
      | (db, _) => (db, Panic, Panic)
      end
  | (db, _) => (db, Panic, Panic)
  end.

(** Two processes that both read the counter before either writes it are given
    the same ids: the failed compare-and-set of the second is not noticed. *)
Theorem EtcdAllocUniqID_race db next c1 c2 : next_id db idKey next -> 0 < c1 -> 0 < c2 -> next + c1 < 2 ^ 64 -> next + c2 < 2 ^ 64 ->
  exists db', alloc_race c1 c2 db = (db', Ok (next, next + c1), Ok (next, next + c2)) /\ next_id db' idKey (next + c1).
Proof.
  intros Hn H1' H2' Hlt Hlt2. destruct (alloc_read_ok db idKey next Hn) as (cmp & E & Hcmp). unfold alloc_race. rewrite E, E.
  unfold alloc_commit, Commit, txn. cbn [forallb]. rewrite Hcmp. cbn [andb foldl apply_op]. destruct Hn as [Hr Hv].
  rewrite !u64_small by lia.
  assert (cmp_holds (<[idKey := PutUint64 (next + c1)]> db) cmp = false) as ->.
  { unfold alloc_read, tbind, EtcdGetKV, tret in E. destruct (db !! idKey) as [v|] eqn:Ev.
    - unfold Uint64 in E. pose proof (zlen_be_put 8 next) as Hz. fold (PutUint64 next) in Hz. subst v. rewrite slice_Ok in E by lia. cbn [obind] in E.
      injection E as _ <-. cbn [cmp_holds]. rewrite lookup_insert_eq. apply bool_decide_false. intros Eq.
      apply (f_equal (fun o => be_get (default [] o))) in Eq. change (be_get (PutUint64 (next + c1)) = be_get (PutUint64 next)) in Eq. rewrite !Uint64_Put, !u64_small in Eq by lia. lia.
    - injection E as _ <-. cbn [cmp_holds]. rewrite lookup_insert_eq. by apply bool_decide_false. }
  eexists. split; [done|]. split; [lia|]. by rewrite lookup_insert_eq.
Qed.

Section Ops.
Context `{GoOrder}.

(** ** Truncate *)

(** where the stream is cut: at the extent, or at its last one *)
Definition cut_at (ids : list Z) (extentID : Z) : nat :=
  match list_find (fun e => e = extentID) ids with Some (i, _) => i | None => pred (length ids) end.
Lemma extent_index_cut ids e : NoDup ids -> extent_index ids e 0 = cut_at ids e.
Proof.
  intros Hnd. unfold cut_at. destruct (list_find _ _) as [[i x]|] eqn:Ef.
  - apply list_find_Some in Ef as (Hi & -> & _). by rewrite (extent_index_found e _ 0 i Hi Hnd).
  - apply list_find_None in Ef. destruct ids as [|x l]; [done|]. rewrite extent_index_missing; [done| |done].
    intros Hin. rewrite Forall_forall in Ef. by apply (Ef e Hin).
Qed.

(** Truncate on the leader drops the extents before the given one from the stream, in memory
    and in etcd; an extent that the stream does not have makes it drop all but the last. *)
Theorem sm_Truncate_spec sm db streamID extentID s : isLeader sm = true -> db !! leaderKey sm = Some (memberValue sm) ->
  streams sm !! streamID = Some s -> StreamInfo_wf s -> StreamID s = streamID -> NoDup (ExtentIDs s) ->
  let k := cut_at (ExtentIDs s) extentID in
  let s' := mkSI streamID (drop k (ExtentIDs s)) in
  sm_Truncate sm Delivered streamID extentID db =
    (if (k =? 0)%nat then db else <[formatStreamKey streamID := StreamInfo_bytes s']> db,
     Ok (with_maps sm (<[streamID := s']> (streams sm)) (extents sm) (nodes sm), Code_OK)).
Proof.
  intros Hl Hkey Hs [Hu [Hw1 Hw2]] Hid Hnd k s'. unfold sm_Truncate. rewrite Hl, Hs. cbn [negb]. rewrite extent_index_cut by done. fold k.
  destruct (Nat.eqb_spec k 0) as [E0|Hne].
  { unfold s'. rewrite E0, drop_0. unfold tret. do 3 f_equal. destruct sm as [ss es ns l mv lk lock]. unfold with_maps. cbn in *. f_equal.
    symmetry. apply insert_id. rewrite Hs. f_equal. destruct s. cbn in *. by subst. }
  fold s'. rewrite StreamInfo_Marshal_bytes.
  2: { split; [by rewrite Hid in Hu|]. split; [by apply Forall_drop|]. cbn [ExtentIDs s']. unfold zlen in *. rewrite length_drop. lia. }
  unfold tbind, tret. cbn [must]. unfold EtctSetKVS, Commit, txn, leader_guard. cbn [forallb cmp_holds]. rewrite bool_decide_true by done. done.
Qed.

(** ** A leader that has lost its key *)

(** the process still takes itself for the leader *)
Definition lost_leadership (sm : StreamManager) (db : etcd) : Prop :=
  isLeader sm = true /\ db !! leaderKey sm <> Some (memberValue sm) /\ leaderKey sm <> idKey.

(** C35: A process that believes to be the leader after its key in etcd is gone answers CreateStream
    with success and adds the stream to its memory, although the guarded transaction failed and etcd
    has no trace of the stream. *)
Theorem stale_leader_acknowledges sm db next : lost_leadership sm db ->
  next_id db idKey next -> next + 2 < 2 ^ 64 -> (3 <= size (nodes sm))%nat -> streams sm !! next = None ->
  (forall id n, nodes sm !! id = Some n -> is_u64 (NodeID (ns_info n))) ->
  exists sm' db', CreateStream sm Delivered Delivered Delivered (fun _ => true) true db = (db', Ok (sm', mkSI next [next + 1])) /\
    streams sm' !! next = Some (mkSI next [next + 1]) /\ is_Some (extents sm' !! (next + 1)) /\
    forall k, k <> idKey -> db' !! k = db !! k.
Proof.
  intros (Hl & Hkey & Hne) Hn Hlt Hsz Hfresh Hids. unfold CreateStream. rewrite Hl. cbn [negb].
  destruct (EtcdAllocUniqID_ok db idKey next 2 Hn ltac:(lia) Hlt) as (db1 & Ea & Hn1 & Hk). unfold tbind at 1, allocUniqID. rewrite Ea.
  pose proof (proj1 Hn). rewrite u64_small by lia.
  destruct (AllocExtent_any (cloneNodeStatus sm)) as [[Hlen _]|(ret & Er & Hlen & Hsub)].
  { unfold cloneNodeStatus in Hlen. rewrite length_fmap, <- (Permutation_length (map_range_perm (nodes sm))), length_map_to_list in Hlen. lia. }
  unfold tbind, tret. rewrite Er. unfold sendAllocToNodes.
  assert (filter (fun _ : NodeStatus => true = true) ret = ret) as ->
    by (clear; induction ret as [|x l IH]; [done|]; rewrite filter_cons, decide_True, IH by done; done). rewrite Hlen. cbn [Nat.eqb negb orb].
  rewrite StreamInfo_Marshal_bytes by (split; [unfold is_u64; cbn; lia|]; apply nums_single; unfold is_u64; lia). cbn [must].
  rewrite ExtentInfo_Marshal_bytes.
  2: { split; [unfold is_u64; cbn; lia|]. split; [|done]. cbn [Replicates]. split; [|unfold zlen, extractNodeId; rewrite length_fmap, Hlen; done].
       apply Forall_forall. intros x Hx. unfold extractNodeId in Hx. apply list_elem_of_fmap in Hx as (n & -> & Hn'). apply (elem_of_sublist _ _ _ Hn') in Hsub.
       rewrite <- sort_less_perm in Hsub. unfold cloneNodeStatus in Hsub. apply list_elem_of_fmap in Hsub as ([id n'] & -> & Hin).
       rewrite <- map_range_perm in Hin. apply elem_of_map_to_list in Hin. by apply (Hids id). }
  cbn [must]. unfold EtctSetKVS, Commit, txn, leader_guard. cbn [forallb cmp_holds]. rewrite Hk by done. rewrite bool_decide_false by done. cbn [andb negb Wrap result].
  eexists _, db1. split; [done|]. unfold addExtent. rewrite Hfresh. cbn [with_maps streams extents XI_ExtentID]. split; [by rewrite lookup_insert_eq|].
  split; [by rewrite lookup_insert_eq|done].
Qed.

(** ** StreamAllocExtent *)

Definition rc_returns (ns : list NodeStatus) : Prop := exists s, rtc rc_step (rc_start ns) s /\ rc_caller s = RReturned.
(** a worker that is not done stays so while the caller waits for it *)
Lemma rc_stuck ns s : ns <> [] -> rtc rc_step (rc_start ns) s -> rc_caller s = RWaiting /\ ~ Forall (fun w => w = WDone) (rc_workers s).
Proof.
  intros Hne. assert (forall s0 s1, rtc rc_step s0 s1 -> rc_caller s0 = RWaiting /\ ~ Forall (fun w => w = WDone) (rc_workers s0) ->
    rc_caller s1 = RWaiting /\ ~ Forall (fun w => w = WDone) (rc_workers s1)) as Hinv.
  { induction 1 as [|s0 s1 s2 Hstep _ IH]; [done|]. intros [Hc Hw]. apply IH. destruct Hstep; cbn [rc_caller rc_workers] in *; try done. split; [done|].
    intros Hf. rewrite Forall_lookup in Hf. specialize (Hf i (WSending size)). rewrite list_lookup_insert_eq in Hf by (by eapply lookup_lt_Some). by specialize (Hf eq_refl). }
  intros Hr. apply (Hinv _ _ Hr). cbn. split; [done|]. destruct ns as [|n ns]; [done|]. cbn. intros Hf. by apply Forall_cons in Hf as [? _].
Qed.

Lemma StreamAllocExtent_no_answer sm db n1 n2 n3 answer still streamID extentID : writer (streamLock sm) = 0 ->
  forall sm' info db', StreamAllocExtent sm n1 n2 n3 answer still streamID extentID db <> (db', Ok (sm', info)).
Proof.
  intros Hw sm' info db'. unfold StreamAllocExtent. destruct (negb (isLeader sm)); [done|]. unfold tbind at 1, tret at 1.
  destruct (getAppendExtentsAddr sm streamID) as [[ns id]|e|]; [|done|done]. destruct (negb (id =? extentID)); [done|].
  unfold tbind at 1. destruct (allocUniqID n1 n2 1 db) as [db1 [[x y]|e|]]; [|done|done].
  unfold tbind at 1, tret at 1. destruct (AllocExtent (cloneNodeStatus sm) 3 []) as [ret|e|]; [|done|done].
  unfold tbind at 1, tret at 1. destruct (sendAllocToNodes answer still ret) as [[]|e|]; [|done|done].
  unfold tbind at 1, tret at 1. by rewrite cloneStream_panics.
Qed.

(** all calls are cancelled before they reach their nodes *)
Lemma se_cancel_all n : forall k, rtc (se_step false) (mkSE (replicate k SFailed ++ replicate n SCalling) true) (mkSE (replicate (k + n) SFailed) true).
Proof.
  induction n as [|n IH]; intros k; [by rewrite app_nil_r, Nat.add_0_r|]. eapply rtc_l.
  - apply (se_cancelled false _ k). rewrite lookup_app_r, length_replicate, Nat.sub_diag by (rewrite length_replicate; lia). done.
  - rewrite insert_app_r_alt, length_replicate, Nat.sub_diag by (rewrite length_replicate; lia). cbn [replicate insert list_insert].
    specialize (IH (S k)). replace (k + S n)%nat with (S k + n)%nat by lia. rewrite replicate_S_end, <- app_assoc in IH. exact IH.
Qed.
Lemma se_seals_none ns : rtc (se_step false) (se_start ns) (mkSE (replicate (length ns) SFailed) true).
Proof.
  unfold se_start. rewrite (const_fmap (fun _ : NodeStatus => SCalling) ns SCalling) by done. eapply rtc_l; [apply se_return|]. exact (se_cancel_all (length ns) 0).
Qed.

(** C36: StreamAllocExtent never succeeds: cloneStream releases a write lock it does not hold and
    panics, and before that receiveCommitlength, which waits for its workers before it receives from
    the unbuffered channel they send on, never returns when there is a node to ask; and sealExtents,
    which would follow, does not wait for its workers but cancels their calls, so that without any
    fault no replica may be sealed. *)
Theorem StreamAllocExtent_never_succeeds sm db n1 n2 n3 answer still streamID extentID :
  writer (streamLock sm) = 0 ->
  (forall sm' info db', StreamAllocExtent sm n1 n2 n3 answer still streamID extentID db <> (db', Ok (sm', info))) /\
  (forall ns, ns <> [] -> ~ rc_returns ns) /\
  (forall ns, rtc (se_step false) (se_start ns) (mkSE (replicate (length ns) SFailed) true)).
Proof.
  intros Hw. split; [by apply StreamAllocExtent_no_answer|]. split; [|apply se_seals_none].
  intros ns Hne (s & Hr & E). destruct (rc_stuck ns s Hne Hr) as [E' _]. congruence.
Qed.
End Ops.
