(* ===== verification/PartitionManager.v ===== *)
(** The partition manager (manager/partitionmanager): partitions and the servers
    that serve them live in etcd and, while this process is the leader, in
    memory. The loading of pm.go and the handlers of pm_service.go. *)
From Stdlib Require Import ZArith Lia Strings.String.
From stdpp Require Import base option list numbers gmap sorting strings.
From S2P Require Import Prelude GoLib Proto ProtoSub ProtoPs ProtoSm ProtoPm Etcd.

Record PartitionMeta := mkMeta {
  Meta_Blobs : option BlobStreams; Meta_LogStream : Z; Meta_RowStream : Z; Meta_Locs : option TableLocations;
  Meta_Parent : Z; Meta_Discard : bytes; Meta_Rg : option Range; Meta_PartID : Z }.
#[export] Instance PartitionMeta_eq_dec : EqDecision PartitionMeta.
Proof. solve_decision. Defined.
Record PartitionManager := mkPM {
  psNodes : gmap Z PSDetail; partMeta : gmap Z PartitionMeta;
  pm_isLeader : bool; pm_memberValue : bytes; pm_leaderKey : string }.

Definition pm_idKey : string := "AutumnPMIDKey".
Definition pm_errNotLeader : error := Errorf "not a leader".
Inductive pm_Code := PM_OK | PM_ERROR | PM_NOT_LEADER.

(** ** Keys *)

(** [fmt.Sprintf("PSSERVER/%d", id)] and [fmt.Sprintf("PART/%d/suffix", id)] *)
Definition psKey (id : Z) : string := String.append "PSSERVER/" (format_uint id).
Definition partKey (id : Z) (suffix : string) : string :=
  String.append "PART/" (String.append (format_uint id) (String slash suffix)).
Definition uint64ToBig (x : Z) : bytes := PutUint64 x.
Definition parseError : error := Errorf "parse error".
Definition parse_part (s : string) : outcome (Z * string) :=
  match split_slash s with
  | [_; n; suffix] => let! id := ParseUint n in Ok (id, suffix)
  | _ => Err parseError
  end.

(** ** parseParts *)

Definition emptyMeta (partID : Z) : PartitionMeta := mkMeta None 0 0 None 0 [] None partID.
Definition set_Blobs (b : BlobStreams) (m : PartitionMeta) : PartitionMeta :=
  mkMeta (Some b) (Meta_LogStream m) (Meta_RowStream m) (Meta_Locs m) (Meta_Parent m) (Meta_Discard m) (Meta_Rg m) (Meta_PartID m).
Definition set_LogStream (x : Z) (m : PartitionMeta) : PartitionMeta :=
  mkMeta (Meta_Blobs m) x (Meta_RowStream m) (Meta_Locs m) (Meta_Parent m) (Meta_Discard m) (Meta_Rg m) (Meta_PartID m).
Definition set_RowStream (x : Z) (m : PartitionMeta) : PartitionMeta :=
  mkMeta (Meta_Blobs m) (Meta_LogStream m) x (Meta_Locs m) (Meta_Parent m) (Meta_Discard m) (Meta_Rg m) (Meta_PartID m).
Definition set_Locs (l : TableLocations) (m : PartitionMeta) : PartitionMeta :=
  mkMeta (Meta_Blobs m) (Meta_LogStream m) (Meta_RowStream m) (Some l) (Meta_Parent m) (Meta_Discard m) (Meta_Rg m) (Meta_PartID m).
Definition set_Discard (b : bytes) (m : PartitionMeta) : PartitionMeta :=
  mkMeta (Meta_Blobs m) (Meta_LogStream m) (Meta_RowStream m) (Meta_Locs m) (Meta_Parent m) b (Meta_Rg m) (Meta_PartID m).
Definition set_Parent (x : Z) (m : PartitionMeta) : PartitionMeta :=
  mkMeta (Meta_Blobs m) (Meta_LogStream m) (Meta_RowStream m) (Meta_Locs m) x (Meta_Discard m) (Meta_Rg m) (Meta_PartID m).
Definition set_Rg (r : Range) (m : PartitionMeta) : PartitionMeta :=
  mkMeta (Meta_Blobs m) (Meta_LogStream m) (Meta_RowStream m) (Meta_Locs m) (Meta_Parent m) (Meta_Discard m) (Some r) (Meta_PartID m).

(** an [Unmarshal] whose error is logged and skipped *)
Definition or_skip {A B} (o : outcome A) (k : A -> B) : outcome (option B) :=
  match o with Ok a => Ok (Some (k a)) | Err _ => Ok None | Panic => Panic end.
(** the [switch]: the assignment to [ret[partID]], [None] when the entry is
    skipped *)
Definition suffix_update (suffix : string) (v : bytes) : outcome (option (PartitionMeta -> PartitionMeta)) :=
  if decide (suffix = "blobStreams"%string) then or_skip (BlobStreams_Unmarshal v) set_Blobs
  else if decide (suffix = "logStream"%string) then let! x := Uint64 v in Ok (Some (set_LogStream x))
  else if decide (suffix = "rowStream"%string) then let! x := Uint64 v in Ok (Some (set_RowStream x))
  else if decide (suffix = "tables"%string) then or_skip (TableLocations_Unmarshal v) set_Locs
  else if decide (suffix = "discard"%string) then Ok (Some (set_Discard v))
  else if decide (suffix = "parent"%string) then let! x := Uint64 v in Ok (Some (set_Parent x))
  else if decide (suffix = "range"%string) then or_skip (Range_Unmarshal v) set_Rg
  else Ok None.
(** a partition id that differs from the last one starts a new partition; no
    entry for the id is a nil pointer *)
Fixpoint parse_parts_loop (kvs : list (string * bytes)) (lastPartID : Z) (ret : gmap Z PartitionMeta) : outcome (gmap Z PartitionMeta) :=
  match kvs with
  | [] => Ok ret
  | (k, v) :: kvs =>
      match parse_part k with
      | Panic => Panic
      | Err _ => parse_parts_loop kvs lastPartID ret
      | Ok (partID, suffix) =>
          let ret := if negb (partID =? lastPartID) then <[partID := emptyMeta partID]> ret else ret in
          let! f := suffix_update suffix v in
          match f with
          | None => parse_parts_loop kvs partID ret
          | Some f =>
              match ret !! partID with
              | None => Panic
              | Some m => parse_parts_loop kvs partID (<[partID := f m]> ret)
              end
          end
      end
  end.
Definition parseParts (kvs : list (string * bytes)) : outcome (gmap Z PartitionMeta) := parse_parts_loop kvs 0 ∅.

Definition pm_runAsLeader (n1 n2 : net) (pm : PartitionManager) : tx PartitionManager :=
  let* kvs := EtcdRange n1 "PSSERVER" in
  let* ps := tret (load_kvs PSDetail_Unmarshal "PSSERVER" kvs ∅) in
  let* kvs := EtcdRange n2 "PART" in
  let* parts := tret (parseParts kvs) in
  tret (Ok (mkPM ps parts true (pm_memberValue pm) (pm_leaderKey pm))).

(** ** pm_service.go *)

Section Handlers.
Context `{GoOrder}.

Definition with_parts (pm : PartitionManager) (parts : gmap Z PartitionMeta) : PartitionManager :=
  mkPM (psNodes pm) parts (pm_isLeader pm) (pm_memberValue pm) (pm_leaderKey pm).
Definition pm_guard (pm : PartitionManager) : list Cmp := [CmpValue (pm_leaderKey pm) (pm_memberValue pm)].
Definition pm_allocUniqID (n1 n2 : net) (count : Z) : tx (Z * Z) := EtcdAllocUniqID n1 n2 pm_idKey count.

Definition GetPartitionMeta (pm : PartitionManager) (psid : Z) : pm_Code * list PartitionMeta :=
  if negb (pm_isLeader pm) then (PM_NOT_LEADER, []) else
  (PM_OK, filter (fun m => Meta_Parent m = psid) (snd <$> map_range (partMeta pm))).

(** [locs]: [None] is a nil pointer *)
Definition SetRowStreamTables (pm : PartitionManager) (n : net) (locs : option TableLocations) (partitionID : Z) : tx (PartitionManager * pm_Code) :=
  if negb (pm_isLeader pm) then tret (Ok (pm, PM_ERROR)) else
  match locs with
  | None => tret Panic
  | Some locs =>
      if (zlen (Locs locs) =? 0) || (partitionID =? 0) then tret (Ok (pm, PM_ERROR)) else
      let* data := tret (TableLocations_Marshal locs) in
      fun db =>
        match EtctSetKVS n (pm_guard pm) [OpPut (partKey partitionID "tables") data] db with
        | (db, Panic) => (db, Panic)
        | (db, Err _) => (db, Ok (pm, PM_ERROR))
        | (db, Ok _) =>
            match partMeta pm !! partitionID with
            | None => (db, Panic)
            | Some m => (db, Ok (with_parts pm (<[partitionID := set_Locs locs m]> (partMeta pm)), PM_OK))
            end
        end
  end.

(** the loop over [psNodes] looks for the address and breaks, but never sets
    [hasDup] *)
Definition RegisterPS (pm : PartitionManager) (n1 n2 n3 : net) (addr : bytes) : tx (PartitionManager * (pm_Code * Z)) :=
  if negb (pm_isLeader pm) then tret (Err pm_errNotLeader) else
  if zlen addr =? 0 then tret (Err (Errorf "no address")) else
  let hasDup := false in
  if hasDup then tret (Ok (pm, (PM_ERROR, 0))) else
  let* (id, _) := (fun db => match pm_allocUniqID n1 n2 1 db with
                             | (db, Err _) => (db, Err (Errorf "failed to alloc uniq id"))
                             | r => r
                             end) in
  let psDetail := mkPSD id addr in
  let* data := tret (must (PSDetail_Marshal psDetail)) in
  let* _ := EtctSetKVS n3 (pm_guard pm) [OpPut (psKey id) data] in
  tret (Ok (mkPM (<[id := psDetail]> (psNodes pm)) (partMeta pm) (pm_isLeader pm) (pm_memberValue pm) (pm_leaderKey pm), (PM_OK, id))).

Definition GetPSInfo (pm : PartitionManager) : outcome (list PSDetail) :=
  if negb (pm_isLeader pm) then Err pm_errNotLeader else Ok (snd <$> map_range (psNodes pm)).

(** the error of [EtctSetKVS] is not looked at *)
Definition Bootstrap (pm : PartitionManager) (n1 n2 n3 : net) (logID rowID parent : Z) : tx (PartitionManager * Z) :=
  if negb (pm_isLeader pm) then tret (Err pm_errNotLeader) else
  let* (partID, _) := pm_allocUniqID n1 n2 2 in
  let rg := mkRange [] [] in
  let* rangeValue := tret (Range_Marshal rg) in
  let ops := [OpPut (partKey partID "logStream") (uint64ToBig logID); OpPut (partKey partID "rowStream") (uint64ToBig rowID);
              OpPut (partKey partID "parent") (uint64ToBig parent); OpPut (partKey partID "range") rangeValue] in
  fun db =>
    match EtctSetKVS n3 (pm_guard pm) ops db with
    | (db, Panic) => (db, Panic)
    | (db, _) => (db, Ok (with_parts pm (<[partID := mkMeta None logID rowID None parent [] (Some rg) partID]> (partMeta pm)), partID))
    end.

Record RegionInfo := mkRI { RI_Rg : option Range; RI_PartID : Z; RI_PSID : Z; RI_Addr : bytes }.
(** a partition whose server is not known is skipped *)
Fixpoint regions_loop (ps : gmap Z PSDetail) (parts : list (Z * PartitionMeta)) : outcome (list RegionInfo) :=
  match parts with
  | [] => Ok []
  | (partID, meta) :: parts =>
      match Meta_Rg meta with
      | None => Panic
      | Some rg =>
          match ps !! Meta_Parent meta with
          | None => regions_loop ps parts
          | Some detail => let! rs := regions_loop ps parts in Ok (mkRI (Some rg) partID (Meta_Parent meta) (PS_Address detail) :: rs)
          end
      end
  end.
Definition GetRegions (pm : PartitionManager) : outcome (pm_Code * list RegionInfo) :=
  if negb (pm_isLeader pm) then Ok (PM_ERROR, []) else
  let! regions := regions_loop (psNodes pm) (map_range (partMeta pm)) in Ok (PM_OK, regions).
End Handlers.
