(* ===== verification/PartitionParse.v ===== *)
(** [parseParts] (partitionmanager/pm.go): the entries of one partition are next
    to each other in the order in which etcd returns them, so the loop that
    compares each id with the last one gathers every partition completely. *)
From Stdlib Require Import ZArith Lia Strings.String Strings.Ascii.
From stdpp Require Import base option list numbers gmap sorting strings.
From S2P Require Import Prelude GoLib Proto ProtoSub ProtoPs ProtoSm ProtoPm Etcd PartitionManager.

(** ** The order of keys *)

Lemma compare_refl s : String.compare s s = Eq.
Proof. induction s as [|c s IH]; [done|]. cbn. unfold Ascii.compare. by rewrite N.compare_refl. Qed.
Lemma compare_trans : forall a b c, String.compare a b <> Gt -> String.compare b c <> Gt -> String.compare a c <> Gt.
Proof.
  induction a as [|x a IH]; intros [|y b] [|z c] Hab Hbc; try done. cbn in *. unfold Ascii.compare in *.
  destruct (N.compare_spec (N_of_ascii x) (N_of_ascii y)) as [E1|E1|E1], (N.compare_spec (N_of_ascii y) (N_of_ascii z)) as [E2|E2|E2], (N.compare_spec (N_of_ascii x) (N_of_ascii z)) as [E3|E3|E3]; try done; try lia.
  by apply (IH b).
Qed.
#[export] Instance key_ord_trans : Transitive key_ord.
Proof. intros a b c. apply compare_trans. Qed.
#[export] Instance key_ord_total : Total key_ord.
Proof. intros a b. unfold key_ord. rewrite (String.compare_antisym (fst b)). destruct (String.compare (fst a) (fst b)); cbn; [left|left|right]; done. Qed.

Lemma append_cons c p s : String.append (String c p) s = String c (String.append p s).
Proof. done. Qed.
(** what is between two keys with a common prefix has it too *)
Lemma compare_between p : forall x y z, String.compare (String.append p x) y <> Gt -> String.compare y (String.append p z) <> Gt ->
  exists w, y = String.append p w.
Proof.
  induction p as [|c p IH]; intros x y z Hxy Hyz; [by exists y|]. destruct y as [|d y]; [done|].
  rewrite append_cons in Hxy, Hyz. cbn [String.compare] in Hxy, Hyz. unfold Ascii.compare in *. revert Hxy Hyz.
  destruct (N.compare_spec (N_of_ascii c) (N_of_ascii d)) as [E1|E1|E1], (N.compare_spec (N_of_ascii d) (N_of_ascii c)) as [E2|E2|E2]; intros Hxy Hyz; try congruence; try lia.
  destruct (IH x y z Hxy Hyz) as (w & ->). exists w. rewrite append_cons. f_equal. by rewrite <- (ascii_N_embedding d), <- (ascii_N_embedding c), E1.
Qed.

(** ** Keys of partitions *)

Definition part_prefix (id : Z) : string := String.append "PART/" (String.append (format_uint id) (String slash EmptyString)).
Lemma append_assoc a b c : String.append (String.append a b) c = String.append a (String.append b c).
Proof. induction a as [|x a IH]; [done|]. by rewrite !append_cons, IH. Qed.
Lemma partKey_prefix id s : partKey id s = String.append (part_prefix id) s.
Proof. unfold partKey, part_prefix. rewrite !append_assoc. done. Qed.
Lemma split_cons p s : no_slash p -> split_slash (String.append p (String slash s)) = p :: split_slash s.
Proof.
  intros Hp. induction p as [|c p IH].
  - change (split_slash (String slash s) = EmptyString :: split_slash s). cbn [split_slash]. by rewrite decide_True by done.
  - destruct Hp as [Hc Hp]. rewrite append_cons. cbn [split_slash]. rewrite decide_False, IH by done. done.
Qed.
Lemma format_no_slash id : 0 <= id -> no_slash (format_uint id).
Proof. intros Hid. by apply dec_loop_no_slash. Qed.
Lemma split_partKey id s : is_u64 id -> split_slash (partKey id s) = "PART"%string :: format_uint id :: split_slash s.
Proof.
  intros Hid. unfold partKey. change (String.append "PART/" ?x) with (String.append "PART" (String slash x)).
  rewrite split_cons by (repeat split; discriminate). by rewrite split_cons by (apply format_no_slash, Hid).
Qed.
Lemma parse_partKey id s : is_u64 id -> no_slash s -> parse_part (partKey id s) = Ok (id, s).
Proof. intros Hid Hs. unfold parse_part. rewrite split_partKey, split_no_slash by done. by rewrite ParseUint_format. Qed.
Lemma partKey_inj id s id' s' : is_u64 id -> is_u64 id' -> no_slash s -> no_slash s' -> partKey id s = partKey id' s' -> id = id' /\ s = s'.
Proof. intros H1' H2' H3' H4' E. pose proof (parse_partKey id s H1' H3') as E1. rewrite E, parse_partKey in E1 by done. by injection E1 as -> ->. Qed.
(** a key with the prefix of a partition belongs to it *)
Lemma partKey_of id w id' s : is_u64 id -> is_u64 id' -> no_slash s -> partKey id' s = String.append (part_prefix id) w -> id' = id.
Proof.
  intros H1' H2' Hs E. rewrite <- partKey_prefix in E. pose proof (split_partKey id' s H2') as E1. rewrite E, split_partKey in E1 by done.
  injection E1 as E1 _. pose proof (ParseUint_format id H1') as E2. rewrite E1, ParseUint_format in E2 by done. by injection E2.
Qed.

(** ** The entries of one partition *)

Lemma filter_all {A} (P : A -> Prop) `{forall x, Decision (P x)} (l : list A) : (forall x, x ∈ l -> P x) -> filter P l = l.
Proof. induction l as [|x l IH]; intros Hl; [done|]. rewrite filter_cons_True by (apply Hl; by left). f_equal. apply IH. intros y Hy. apply Hl. by right. Qed.
Lemma filter_none {A} (P : A -> Prop) `{forall x, Decision (P x)} (l : list A) : (forall x, x ∈ l -> ~ P x) -> filter P l = [].
Proof. intros Hl. apply elem_of_nil_inv. intros x [Hx Hin]%list_elem_of_filter. by apply (Hl x). Qed.

(** an entry that loads: its key and the assignment it makes *)
Definition entry : Type := Z * string * bytes.
Definition entry_id (e : entry) : Z := fst (fst e).
Definition entry_suffix (e : entry) : string := snd (fst e).
Definition entry_value (e : entry) : bytes := snd e.
Definition entry_kv (e : entry) : string * bytes := (partKey (entry_id e) (entry_suffix e), entry_value e).
Definition update (e : entry) (m : PartitionMeta) : PartitionMeta :=
  match suffix_update (entry_suffix e) (entry_value e) with Ok (Some f) => f m | _ => m end.
Definition entry_ok (e : entry) : Prop :=
  is_u64 (entry_id e) /\ entry_id e <> 0 /\ no_slash (entry_suffix e) /\ exists f, suffix_update (entry_suffix e) (entry_value e) = Ok (Some f).
(** the partition the entries describe *)
Definition assemble (es : list entry) (id : Z) : PartitionMeta :=
  foldl (fun m e => update e m) (emptyMeta id) (filter (fun e => entry_id e = id) es).
Definition assembled (es : list entry) (M : gmap Z PartitionMeta) : Prop :=
  forall id, M !! id = if decide (id ∈ entry_id <$> es) then Some (assemble es id) else None.
Definition grouped (es : list entry) : Prop :=
  forall l1 e l2, es = l1 ++ e :: l2 -> entry_id e ∈ entry_id <$> l1 -> last (entry_id <$> l1) = Some (entry_id e).

Lemma assemble_snoc es e id : assemble (es ++ [e]) id = if decide (entry_id e = id) then update e (assemble es id) else assemble es id.
Proof.
  unfold assemble. rewrite filter_app, foldl_app. destruct (decide (entry_id e = id)) as [He|He].
  - by rewrite filter_cons_True.
  - by rewrite filter_cons_False.
Qed.
Lemma assemble_fresh es id : id ∉ entry_id <$> es -> assemble es id = emptyMeta id.
Proof.
  intros Hid. unfold assemble. rewrite filter_none; [done|]. intros e He <-. apply Hid. by apply list_elem_of_fmap_2.
Qed.
Lemma assembled_snoc es e M M' : assembled es M -> M' = <[entry_id e := update e (assemble es (entry_id e))]> M -> assembled (es ++ [e]) M'.
Proof.
  intros HM -> id. rewrite fmap_app, assemble_snoc. destruct (decide (entry_id e = id)) as [<-|Hne].
  - rewrite lookup_insert_eq, decide_True; [done|]. apply elem_of_app. right. by left.
  - rewrite lookup_insert_ne, HM by done. destruct (decide (id ∈ entry_id <$> es)) as [Hin|Hin].
    + rewrite decide_True; [done|]. apply elem_of_app. by left.
    + rewrite decide_False; [done|]. intros [?|Hx]%elem_of_app; [done|]. apply list_elem_of_singleton in Hx. done.
Qed.

Lemma parse_loop_groups todo : forall done M, Forall entry_ok (done ++ todo) -> grouped (done ++ todo) -> assembled done M ->
  exists M', parse_parts_loop (entry_kv <$> todo) (default 0 (last (entry_id <$> done))) M = Ok M' /\ assembled (done ++ todo) M'.
Proof.
  induction todo as [|e todo IH]; intros dn M Hok Hg HM; [exists M; by rewrite app_nil_r|].
  assert (entry_ok e) as (Hid & H0' & Hs & f & Hf) by (apply Forall_app in Hok as [_ Hok]; by inversion Hok).
  rewrite fmap_cons. unfold entry_kv at 1. cbn [parse_parts_loop]. rewrite parse_partKey by done. rewrite Hf. cbn [obind].
  set (id := entry_id e) in *. set (M1 := if negb _ then _ else M).
  assert (M1 !! id = Some (assemble dn id) /\ (<[id := update e (assemble dn id)]> M1 = <[id := update e (assemble dn id)]> M)) as [E1 E2].
  { unfold M1. destruct (Z.eqb_spec id (default 0 (last (entry_id <$> dn)))) as [El|El]; cbn [negb].
    - split; [|done]. rewrite HM, decide_True; [done|]. destruct (last (entry_id <$> dn)) as [x|] eqn:Ex; [|done]. cbn in El. subst x.
      rewrite last_lookup in Ex. by eapply list_elem_of_lookup_2.
    - assert (id ∉ entry_id <$> dn) as Hn by (intros Hin; apply El; by rewrite (Hg dn e todo eq_refl Hin)).
      rewrite lookup_insert_eq, assemble_fresh by done. split; [done|]. by rewrite insert_insert_eq. }
  rewrite E1. assert (f (assemble dn id) = update e (assemble dn id)) as -> by (unfold update; by rewrite Hf). rewrite E2.
  destruct (IH (dn ++ [e]) (<[id := update e (assemble dn id)]> M)) as (M' & Hl & HM').
  - by rewrite <- app_assoc.
  - by rewrite <- app_assoc.
  - by eapply assembled_snoc.
  - rewrite fmap_app, last_app in Hl. cbn in Hl. exists M'. by rewrite <- app_assoc in HM'.
Qed.

(** sorted keys are grouped *)
Lemma sorted_grouped es : Forall entry_ok es -> StronglySorted key_ord (entry_kv <$> es) -> grouped es.
Proof.
  intros Hok Hss l1 e l2 -> Hin. destruct l1 as [|z l1 _] using rev_ind; [by apply not_elem_of_nil in Hin|].
  rewrite fmap_app, last_app. cbn. f_equal. rewrite fmap_app in Hin. apply elem_of_app in Hin as [Hin|Hin]; [|by apply list_elem_of_singleton in Hin].
  apply list_elem_of_fmap in Hin as (y & Ey & Hy). apply Forall_app in Hok as [Hok1 Hok2]. apply Forall_app in Hok1 as [Hok1 Hz].
  apply Forall_cons in Hz as [(Hz1 & _ & Hz2 & _) _]. apply Forall_cons in Hok2 as [(He1 & _ & _) _].
  rewrite fmap_app in Hss. cbn [fmap list_fmap] in Hss. rewrite fmap_app in Hss. 
  assert (key_ord (entry_kv y) (entry_kv z)) as Hyz.
  { apply (StronglySorted_app_1_elem_of _ ((entry_kv <$> l1)) [entry_kv z]); [by eapply StronglySorted_app_1_l|by apply list_elem_of_fmap_2|by left]. }
  assert (key_ord (entry_kv z) (entry_kv e)) as Hze.
  { apply (StronglySorted_app_1_elem_of _ ((entry_kv <$> l1) ++ [entry_kv z]) (entry_kv e :: (entry_kv <$> l2))); [exact Hss|apply elem_of_app; right; by left|by left]. }
  unfold key_ord, entry_kv in Hyz, Hze. cbn [fst] in *. rewrite <- Ey, (partKey_prefix (entry_id e)) in *.
  destruct (compare_between _ _ _ _ Hyz Hze) as (w & Ew). by eapply partKey_of.
Qed.
