(* ===== verification/PartitionManagerSpec.v ===== *)
(** The partition manager keeps etcd consistent and its memory a mirror of etcd,
    whatever requests come, messages get lost and leaders change. *)
From Stdlib Require Import ZArith Lia Strings.String.
From stdpp Require Import base option list numbers gmap sorting strings.
From S2P Require Import Prelude GoLib Proto ProtoSub ProtoPs ProtoSm ProtoPm Etcd EtcdSpec PartitionManager PartitionParse.

(** ** What etcd holds for a partition *)

Definition meta_entries (m : PartitionMeta) : list entry :=
  [(Meta_PartID m, "logStream"%string, uint64ToBig (Meta_LogStream m));
   (Meta_PartID m, "rowStream"%string, uint64ToBig (Meta_RowStream m));
   (Meta_PartID m, "parent"%string, uint64ToBig (Meta_Parent m))] ++
  option_list ((fun r => (Meta_PartID m, "range"%string, Range_bytes r)) <$> Meta_Rg m) ++
  option_list ((fun l => (Meta_PartID m, "tables"%string, TableLocations_bytes l)) <$> Meta_Locs m).
(** a partition as the manager makes them *)
Record meta_ok (m : PartitionMeta) : Prop := mk_meta_ok {
  mo_id : is_u64 (Meta_PartID m) /\ 0 < Meta_PartID m;
  mo_streams : is_u64 (Meta_LogStream m) /\ is_u64 (Meta_RowStream m) /\ is_u64 (Meta_Parent m);
  mo_rg : exists r, Meta_Rg m = Some r /\ Range_wf r;
  mo_locs : forall l, Meta_Locs m = Some l -> TableLocations_wf l;
  mo_unused : Meta_Blobs m = None /\ Meta_Discard m = [] }.
(** the entries under PART are those of the partitions in [P] *)
Record parts_stored (db : etcd) (P : gmap Z PartitionMeta) : Prop := mk_parts_stored {
  pp_has : forall id m, P !! id = Some m -> Meta_PartID m = id /\ meta_ok m /\ forall e, e ∈ meta_entries m -> db !! fst (entry_kv e) = Some (entry_value e);
  pp_only : forall k v, db !! k = Some v -> String.prefix "PART" k = true -> exists id m e, P !! id = Some m /\ e ∈ meta_entries m /\ (k, v) = entry_kv e }.

Lemma elem_option_list {A} (o : option A) (x : A) : x ∈ option_list o <-> o = Some x.
Proof. destruct o as [y|]; cbn; [rewrite list_elem_of_singleton|split; [by intros ?%not_elem_of_nil|done]]. split; [by intros ->|by intros [= ->]]. Qed.
Lemma meta_entries_id m e : e ∈ meta_entries m -> entry_id e = Meta_PartID m /\ entry_suffix e ∈ ["logStream"; "rowStream"; "parent"; "range"; "tables"]%string.
Proof.
  unfold meta_entries. rewrite !elem_of_app, !elem_option_list, !elem_of_cons. unfold entry_id, entry_suffix.
  intros [[->|[->|[->|?%not_elem_of_nil]]]|[E|E]]; [..|destruct (Meta_Rg m); [|done]; injection E as <-|destruct (Meta_Locs m); [|done]; injection E as <-]; cbn; rewrite ?elem_of_cons; tauto.
Qed.
Lemma Uint64_big x : is_u64 x -> Uint64 (uint64ToBig x) = Ok x.
Proof.
  unfold is_u64. intros Hx. unfold Uint64, uint64ToBig. pose proof (zlen_be_put 8 x) as Hz. fold (PutUint64 x) in Hz. rewrite slice_Ok by lia. cbn [obind].
  rewrite Z.sub_0_r, (zdrop_0 0), (ztake_ge 8) by lia. by rewrite Uint64_Put, u64_small by lia.
Qed.
Lemma load_logStream x : is_u64 x -> suffix_update "logStream" (uint64ToBig x) = Ok (Some (set_LogStream x)).
Proof. intros Hx. change (suffix_update "logStream" ?v) with (let! x := Uint64 v in Ok (Some (set_LogStream x))). by rewrite Uint64_big. Qed.
Lemma load_rowStream x : is_u64 x -> suffix_update "rowStream" (uint64ToBig x) = Ok (Some (set_RowStream x)).
Proof. intros Hx. change (suffix_update "rowStream" ?v) with (let! x := Uint64 v in Ok (Some (set_RowStream x))). by rewrite Uint64_big. Qed.
Lemma load_parent x : is_u64 x -> suffix_update "parent" (uint64ToBig x) = Ok (Some (set_Parent x)).
Proof. intros Hx. change (suffix_update "parent" ?v) with (let! x := Uint64 v in Ok (Some (set_Parent x))). by rewrite Uint64_big. Qed.
Lemma load_range r : Range_wf r -> suffix_update "range" (Range_bytes r) = Ok (Some (set_Rg r)).
Proof. intros Hr. change (suffix_update "range" ?v) with (or_skip (Range_Unmarshal v) set_Rg). by rewrite Range_Unmarshal_bytes. Qed.
Lemma load_tables l : TableLocations_wf l -> suffix_update "tables" (TableLocations_bytes l) = Ok (Some (set_Locs l)).
Proof. intros Hl. change (suffix_update "tables" ?v) with (or_skip (TableLocations_Unmarshal v) set_Locs). by rewrite TableLocations_Unmarshal_bytes. Qed.
Lemma meta_entries_ok m e : meta_ok m -> e ∈ meta_entries m -> entry_ok e.
Proof.
  intros Hm He. destruct (meta_entries_id m e He) as [Hid Hs]. destruct Hm as [[Hi1 Hi2] (Hl & Hr & Hp) (r & Erg & Hrg) Hlocs _].
  assert (no_slash (entry_suffix e) /\ exists f, suffix_update (entry_suffix e) (entry_value e) = Ok (Some f)) as [Hns Hf]; [|split; [by rewrite Hid|split; [rewrite Hid; lia|done]]].
  clear Hid Hs. unfold meta_entries in He. rewrite !elem_of_app, !elem_option_list, !elem_of_cons, Erg in He.
  destruct He as [[->|[->|[->|?%not_elem_of_nil]]]|[E|E]]; [..|done| |destruct (Meta_Locs m) as [l|] eqn:El; [|done]];
    try injection E as <-; unfold entry_suffix, entry_value; cbn [fst snd]; (split; [repeat split; discriminate|]).
  - rewrite load_logStream by done. by eexists.
  - rewrite load_rowStream by done. by eexists.
  - rewrite load_parent by done. by eexists.
  - rewrite load_range by done. by eexists.
  - rewrite load_tables by (by apply Hlocs). by eexists.
Qed.

(** ** Loading a partition *)

(** what an entry assigns *)
Inductive assigns (e : entry) : Prop :=
  | as_none : (forall m, update e m = m) -> assigns e
  | as_Blobs b : entry_suffix e = "blobStreams"%string -> (forall m, update e m = set_Blobs b m) -> assigns e
  | as_LogStream x : entry_suffix e = "logStream"%string -> (forall m, update e m = set_LogStream x m) -> assigns e
  | as_RowStream x : entry_suffix e = "rowStream"%string -> (forall m, update e m = set_RowStream x m) -> assigns e
  | as_Locs l : entry_suffix e = "tables"%string -> (forall m, update e m = set_Locs l m) -> assigns e
  | as_Discard b : entry_suffix e = "discard"%string -> (forall m, update e m = set_Discard b m) -> assigns e
  | as_Parent x : entry_suffix e = "parent"%string -> (forall m, update e m = set_Parent x m) -> assigns e
  | as_Rg r : entry_suffix e = "range"%string -> (forall m, update e m = set_Rg r m) -> assigns e.
Lemma update_assigns e : assigns e.
Proof.
  assert (forall f, suffix_update (entry_suffix e) (entry_value e) = Ok (Some f) -> forall m, update e m = f m) as Hf by (intros f E m; unfold update; by rewrite E).
  assert (suffix_update (entry_suffix e) (entry_value e) = Ok None \/ suffix_update (entry_suffix e) (entry_value e) = Panic -> assigns e) as H0'.
  { intros E. apply as_none. intros m. unfold update. by destruct E as [-> | ->]. }
  assert (forall x, Uint64 (entry_value e) <> Err x) as Hu by (intros x; unfold Uint64; unfold slice; by case_match).
  unfold suffix_update, or_skip in *. repeat case_decide.
  - destruct (BlobStreams_Unmarshal (entry_value e)); [|by auto..]. eapply as_Blobs; [done|]. by apply Hf.
  - destruct (Uint64 (entry_value e)); [|by edestruct Hu|by auto]. eapply as_LogStream; [done|]. by apply Hf.
  - destruct (Uint64 (entry_value e)); [|by edestruct Hu|by auto]. eapply as_RowStream; [done|]. by apply Hf.
  - destruct (TableLocations_Unmarshal (entry_value e)); [|by auto..]. eapply as_Locs; [done|]. by apply Hf.
  - eapply as_Discard; [done|]. by apply Hf.
  - destruct (Uint64 (entry_value e)); [|by edestruct Hu|by auto]. eapply as_Parent; [done|]. by apply Hf.
  - destruct (Range_Unmarshal (entry_value e)); [|by auto..]. eapply as_Rg; [done|]. by apply Hf.
  - by auto.
Qed.
(** assignments of different fields commute *)
Lemma update_comm e e' m : entry_suffix e <> entry_suffix e' -> update e (update e' m) = update e' (update e m).
Proof. intros Hne. destruct (update_assigns e), (update_assigns e'); congruence || (repeat match goal with E : forall _, _ = _ |- _ => rewrite !E end; reflexivity). Qed.
Lemma updates_perm es es' : Permutation es es' -> NoDup (entry_suffix <$> es) ->
  forall m, foldl (fun m e => update e m) m es = foldl (fun m e => update e m) m es'.
Proof.
  induction 1 as [|e es es' _ IH|e e' es|es1 es2 es3 Hp IH1 _ IH2]; intros Hnd m; [done|..].
  - rewrite fmap_cons in Hnd. apply NoDup_cons in Hnd as [_ Hnd]. by apply IH.
  - rewrite !fmap_cons in Hnd. apply NoDup_cons in Hnd as [Hne _]. cbn [foldl]. rewrite update_comm; [done|]. intros E. apply Hne. rewrite E. by left.
  - rewrite IH1 by done. apply IH2. by rewrite <- Hp.
Qed.
Lemma meta_entries_nodup m : NoDup (entry_suffix <$> meta_entries m).
Proof. unfold meta_entries. destruct (Meta_Rg m), (Meta_Locs m); by refine (bool_decide_unpack _ _). Qed.
Lemma updates_meta m : meta_ok m -> foldl (fun m e => update e m) (emptyMeta (Meta_PartID m)) (meta_entries m) = m.
Proof.
  intros [_ (Hl & Hr & Hp) (r & Erg & Hrg) Hlocs [Hb Hd]]. unfold meta_entries. rewrite Erg. destruct m as [bl lo ro lc pa di rg id].
  cbn [Meta_Blobs Meta_LogStream Meta_RowStream Meta_Locs Meta_Parent Meta_Discard Meta_Rg Meta_PartID] in *. subst.
  destruct lc as [l|]; cbn [fmap option_fmap option_map option_list option_rect app foldl]; unfold update, entry_suffix, entry_value; cbn [fst snd];
    rewrite load_logStream, load_rowStream, load_parent, load_range by done; [|done]. by rewrite load_tables by (by apply Hlocs).
Qed.

(** ** Loading all partitions *)

Definition all_entries (P : gmap Z PartitionMeta) : list entry := map_to_list P ≫= (fun p => meta_entries (snd p)).
Lemma elem_all_entries P e : e ∈ all_entries P <-> exists id m, P !! id = Some m /\ e ∈ meta_entries m.
Proof.
  unfold all_entries. rewrite list_elem_of_bind. split.
  - intros ([id m] & He & Hin). apply elem_of_map_to_list in Hin. by exists id, m.
  - intros (id & m & E & He). exists (id, m). split; [done|]. by apply elem_of_map_to_list.
Qed.
Lemma pp_entry_ok db P e : parts_stored db P -> e ∈ all_entries P -> entry_ok e /\ db !! fst (entry_kv e) = Some (entry_value e).
Proof.
  intros [Hh _] (id & m & E & He)%elem_all_entries. destruct (Hh id m E) as (_ & Hok & Hdb). split; [by eapply meta_entries_ok|by apply Hdb].
Qed.
Lemma entry_kv_inj e e' : entry_ok e -> entry_ok e' -> entry_kv e = entry_kv e' -> e = e'.
Proof.
  destruct e as [[id s] v], e' as [[id' s'] v']. unfold entry_ok, entry_kv, entry_id, entry_suffix, entry_value. cbn [fst snd].
  intros (H1' & _ & H2' & _) (H3' & _ & H4' & _) E.
  pose proof (f_equal fst E) as E1. pose proof (f_equal snd E) as E2. cbn [fst snd] in E1, E2. destruct (partKey_inj id s id' s') as [-> ->]; try done. by rewrite E2.
Qed.
Lemma all_entries_filter db P id : parts_stored db P ->
  filter (fun e => entry_id e = id) (all_entries P) = match P !! id with Some m => meta_entries m | None => [] end.
Proof.
  intros [Hh _]. unfold all_entries.
  assert (forall l : list (Z * PartitionMeta), NoDup l.*1 -> (forall i m, (i, m) ∈ l -> Meta_PartID m = i) ->
    filter (fun e => entry_id e = id) (l ≫= (fun p => meta_entries (snd p))) = match (list_to_map l : gmap Z PartitionMeta) !! id with Some m => meta_entries m | None => [] end) as Hgen.
  { induction l as [|[i m] l IH]; intros Hnd Hid; [done|]. rewrite fmap_cons in Hnd. apply NoDup_cons in Hnd as [Hni Hnd].
    rewrite bind_cons, filter_app, IH by (try done; intros i' m' Hin; apply Hid; by right). cbn [snd]. rewrite list_to_map_cons.
    pose proof (Hid i m ltac:(by left)) as Em. destruct (decide (i = id)) as [->|Hne].
    - rewrite lookup_insert_eq. assert ((list_to_map l : gmap Z PartitionMeta) !! id = None) as -> by (by apply not_elem_of_list_to_map_1).
      rewrite app_nil_r. apply filter_all. intros e He. by rewrite (proj1 (meta_entries_id m e He)).
    - rewrite lookup_insert_ne by done. rewrite filter_none; [done|]. intros e He. rewrite (proj1 (meta_entries_id m e He)). congruence. }
  rewrite Hgen, list_to_map_to_list; [done|apply NoDup_fst_map_to_list|]. intros i m Hin. apply elem_of_map_to_list in Hin. by apply (Hh i m).
Qed.
Lemma meta_entries_nodup_list m : NoDup (meta_entries m).
Proof. eapply NoDup_fmap_1, meta_entries_nodup. Qed.
Lemma all_entries_nodup db P : parts_stored db P -> NoDup (all_entries P).
Proof.
  intros [Hh _]. apply NoDup_bind; [|intros [id m] _; apply meta_entries_nodup_list|apply NoDup_map_to_list].
  intros [i m] [i' m'] e Hi Hi' He He'. apply elem_of_map_to_list in Hi, Hi'. cbn [snd] in *.
  destruct (meta_entries_id m e He) as [E _], (meta_entries_id m' e He') as [E' _], (Hh i m Hi) as [E1 _], (Hh i' m' Hi') as [E2 _].
  assert (i = i') as <- by congruence. congruence.
Qed.
Abbreviation part_kvs db := (merge_sort key_ord (filter (fun kv => String.prefix "PART" (fst kv) = true) (map_to_list db))).
(** whatever entries etcd has under PART: each partition is what its entries say *)
Lemma parse_assembles (db : etcd) : (forall k v, db !! k = Some v -> String.prefix "PART" k = true -> exists e, entry_ok e /\ (k, v) = entry_kv e) ->
  exists es M, parseParts (part_kvs db) = Ok M /\ assembled es M /\ NoDup es /\
    forall e, e ∈ es <-> entry_ok e /\ db !! fst (entry_kv e) = Some (entry_value e).
Proof.
  intros Hdb. set (kvs := part_kvs db).
  assert (forall kv, kv ∈ kvs <-> db !! fst kv = Some (snd kv) /\ String.prefix "PART" (fst kv) = true) as Hel.
  { intros [k v]. unfold kvs. rewrite merge_sort_Permutation, list_elem_of_filter, elem_of_map_to_list. cbn [fst snd]. tauto. }
  assert (exists es, kvs = entry_kv <$> es /\ Forall entry_ok es) as (es & Ees & Hok).
  { assert (forall kv, kv ∈ kvs -> exists e, entry_ok e /\ kv = entry_kv e) as Hall by (intros [k v] [H1' H2']%Hel; by apply Hdb). clear -Hall.
    induction kvs as [|kv kvs IH]; [by exists []|]. destruct (Hall kv ltac:(by left)) as (e & He & ->).
    destruct IH as (es & -> & Hes); [intros kv Hkv; apply Hall; by right|]. exists (e :: es). split; [done|by constructor]. }
  assert (StronglySorted key_ord kvs) as Hss by (apply StronglySorted_merge_sort; apply _). rewrite Ees in *.
  destruct (parse_loop_groups es [] ∅) as (M & EM & HM); [done|by apply sorted_grouped|intros id; by rewrite lookup_empty|].
  exists es, M. split; [done|]. split; [done|]. split.
  - apply (NoDup_fmap_1 entry_kv). rewrite <- Ees. unfold kvs. rewrite merge_sort_Permutation. apply NoDup_filter, NoDup_map_to_list.
  - intros e. rewrite Forall_forall in Hok. split.
    + intros He. split; [by apply Hok|]. destruct (Hel (entry_kv e)) as [Hx _]. destruct Hx as [Hx _]; [by apply list_elem_of_fmap_2|done].
    + intros [He Hk]. assert (entry_kv e ∈ entry_kv <$> es) as Hin by (apply Hel; done).
      apply list_elem_of_fmap in Hin as (e' & E & He'). by rewrite (entry_kv_inj e e' He (Hok e' He') E).
Qed.

Lemma parseParts_loads db P : parts_stored db P -> parseParts (part_kvs db) = Ok P.
Proof.
  intros HP. pose proof HP as [Hh Ho]. destruct (parse_assembles db) as (es & M & EM & HM & Hnd & Hel).
  { intros k v Hk Hpre. destruct (Ho k v Hk Hpre) as (id & m & e & Em & He & Ekv). exists e. split; [|done]. by eapply meta_entries_ok; [apply (Hh id m)|]. }
  assert (Permutation es (all_entries P)) as Hes.
  { apply NoDup_Permutation; [done|by eapply all_entries_nodup|]. intros e. rewrite Hel. split; [|by apply pp_entry_ok].
    intros [He Hk]. destruct (Ho _ _ Hk) as (id & m & e' & Em & He' & Ekv); [reflexivity|]. apply elem_all_entries. exists id, m. split; [done|].
    rewrite (entry_kv_inj e e'); [done|done| |done]. by eapply meta_entries_ok; [apply (Hh id m)|]. }
  rewrite EM. f_equal. apply map_eq. intros id. rewrite HM. unfold assemble.
  assert (Permutation (filter (fun e => entry_id e = id) es) (match P !! id with Some m => meta_entries m | None => [] end)) as Hf
    by (rewrite <- (all_entries_filter db P id HP), Hes; done).
  destruct (P !! id) as [m|] eqn:Em.
  - destruct (Hh id m Em) as (<- & Hmok & _). rewrite decide_True.
    + rewrite <- (updates_perm (meta_entries m)); [by rewrite updates_meta|done|apply meta_entries_nodup].
    + assert ((Meta_PartID m, "logStream"%string, uint64ToBig (Meta_LogStream m)) ∈ es) as Hin; [|by apply (list_elem_of_fmap_2 entry_id) in Hin].
      rewrite Hes. apply elem_all_entries. exists (Meta_PartID m), m. split; [done|]. by left.
  - apply Permutation_nil_r in Hf. rewrite decide_False; [done|]. intros (e & -> & He)%list_elem_of_fmap.
    assert (e ∈ filter (fun e' => entry_id e' = entry_id e) es) as Hin by (by apply list_elem_of_filter). rewrite Hf in Hin. by apply not_elem_of_nil in Hin.
Qed.

(** a partition that is added, or gets more entries *)
Lemma parts_stored_insert db db' P id m : parts_stored db P -> Meta_PartID m = id -> meta_ok m ->
  (forall e, e ∈ meta_entries m -> db' !! fst (entry_kv e) = Some (entry_value e)) ->
  (forall k, (forall e, e ∈ meta_entries m -> k <> fst (entry_kv e)) -> db' !! k = db !! k) ->
  (forall m0, P !! id = Some m0 -> forall e, e ∈ meta_entries m0 -> entry_suffix e ∈ entry_suffix <$> meta_entries m) ->
  parts_stored db' (<[id := m]> P).
Proof.
  intros [Hh Ho] Hid Hok Hnew Hold Hsup. split.
  - intros id' m'. destruct (decide (id = id')) as [<-|Hne]; [rewrite lookup_insert_eq; by intros [= <-]|]. rewrite lookup_insert_ne by done. intros Em.
    destruct (Hh id' m' Em) as (Hid' & Hok' & Hdb). split; [done|]. split; [done|]. intros e He. rewrite Hold; [by apply Hdb|]. intros e' He' E.
    destruct (meta_entries_ok m' e Hok' He) as (A1 & _ & A2 & _), (meta_entries_ok m e' Hok He') as (B1 & _ & B2 & _).
    destruct (partKey_inj _ _ _ _ A1 B1 A2 B2 E) as [E1 _]. rewrite (proj1 (meta_entries_id _ _ He)), (proj1 (meta_entries_id _ _ He')) in E1. congruence.
  - intros k v Hk Hpre. destruct (decide (Exists (fun e => k = fst (entry_kv e)) (meta_entries m))) as [Hex|Hex].
    + apply Exists_exists in Hex as (e & He & ->). exists id, m, e. rewrite lookup_insert_eq. split; [done|]. split; [done|]. rewrite Hnew in Hk by done. injection Hk as <-. done.
    + rewrite Hold in Hk by (intros e He ->; apply Hex, Exists_exists; by exists e). destruct (Ho k v Hk Hpre) as (id' & m' & e & Em & He & Ekv).
      exists id', m', e. split; [|done]. rewrite lookup_insert_ne; [done|]. intros <-. apply Hex.
      pose proof (Hsup m' Em e He) as Hin. apply list_elem_of_fmap in Hin as (e' & Es & He'). apply Exists_exists. exists e'. split; [done|].
      unfold entry_kv in *. injection Ekv as -> _. cbn [fst]. rewrite Es, (proj1 (meta_entries_id _ _ He)), (proj1 (meta_entries_id _ _ He')), Hid. by rewrite (proj1 (Hh id m' Em)).
Qed.
Lemma parts_stored_other db db' P : parts_stored db P -> (forall k, String.prefix "PART" k = true -> db' !! k = db !! k) -> parts_stored db' P.
Proof.
  intros [Hh Ho] Hk. split.
  - intros id m Em. destruct (Hh id m Em) as (H1' & H2' & H3'). split; [done|]. split; [done|]. intros e He. rewrite Hk by reflexivity. by apply H3'.
  - intros k v E Hp. rewrite Hk in E by done. by apply Ho.
Qed.
