(* ===== verification/PartitionManagerRun.v ===== *)
(** Runs of the partition manager: requests, lost messages, crashes and changes
    of leader. *)
From Stdlib Require Import ZArith Lia Strings.String.
From stdpp Require Import base option list numbers gmap sorting strings.
From S2P Require Import Prelude GoLib Proto ProtoSub ProtoPs ProtoSm ProtoPm Etcd EtcdSpec PartitionManager PartitionParse PartitionManagerSpec.

Abbreviation servers_part := (part psKey "PSSERVER" PSDetail_bytes PSDetail_wf).
Lemma parse_ps id : is_u64 id -> parseKey (psKey id) "PSSERVER" = Ok id.
Proof. intros Hid. apply (parse_format "PSSERVER" id); [|done]. repeat split; discriminate. Qed.

Record pm_db_ok (db : etcd) (N : gmap Z PSDetail) (P : gmap Z PartitionMeta) (next : Z) : Prop := mk_pm_db_ok {
  pd_servers : servers_part db N;
  pd_parts : parts_stored db P;
  pd_next : next_id db pm_idKey next;
  pd_server_ids : forall id d, N !! id = Some d -> PSID d = id /\ 1 <= id < next;
  pd_part_ids : forall id m, P !! id = Some m -> 1 <= id < next }.

(** neither a server, a partition nor the id counter *)
Definition pm_other_key (k : string) : Prop := String.prefix "PSSERVER" k = false /\ String.prefix "PART" k = false /\ k <> pm_idKey.
Lemma pm_other_ps k id : pm_other_key k -> psKey id <> k.
Proof. intros (E & _) <-. discriminate E. Qed.
Lemma pm_other_part k id s : pm_other_key k -> partKey id s <> k.
Proof. intros (_ & E & _) <-. discriminate E. Qed.

Lemma pm_db_ok_other db db' N P next : pm_db_ok db N P next -> (forall k, ~ pm_other_key k -> db' !! k = db !! k) -> pm_db_ok db' N P next.
Proof.
  intros [H1' H2' H3' H4' H5'] Hk. split; [eapply part_other; [reflexivity|exact H1'|]|eapply parts_stored_other; [exact H2'|]| |done|done].
  - intros k Hp. apply Hk. intros (E & _). congruence.
  - intros k Hp. apply Hk. intros (_ & E & _). congruence.
  - unfold next_id. rewrite Hk; [done|]. by intros (_ & _ & E).
Qed.
Lemma pm_db_ok_alloc db db' N P next next' : pm_db_ok db N P next -> next_id db' pm_idKey next' -> next <= next' ->
  (forall k, k <> pm_idKey -> db' !! k = db !! k) -> pm_db_ok db' N P next'.
Proof.
  intros [H1' H2' H3' H4' H5'] Hn Hle Hk. split; [eapply part_other; [reflexivity|exact H1'|]|eapply parts_stored_other; [exact H2'|]|done|..].
  - intros k Hp. apply Hk. by intros ->.
  - intros k Hp. apply Hk. by intros ->.
  - intros id d E. destruct (H4' id d E). split; [done|lia].
  - intros id m E. specialize (H5' id m E). lia.
Qed.

(** ** The changes requests make *)

Lemma pm_db_ok_register db N P next id addr : pm_db_ok db N P next -> 1 <= id < next -> zlen addr < 2 ^ 40 ->
  pm_db_ok (<[psKey id := PSDetail_bytes (mkPSD id addr)]> db) (<[id := mkPSD id addr]> N) P next.
Proof.
  intros [H1' H2' H3' H4' H5'] Hid Hz. assert (is_u64 id) as Hu by (unfold is_u64; destruct H3'; lia). split; [..|done].
  - eapply (part_put _ _ _ _ parse_ps); [reflexivity|done|done|by split].
  - eapply parts_stored_other; [exact H2'|]. intros k Hp. rewrite lookup_insert_ne; [done|]. intros <-. discriminate Hp.
  - unfold next_id in *. by rewrite lookup_insert_ne by done.
  - intros id' d. destruct (decide (id = id')) as [<-|Hne]; [rewrite lookup_insert_eq; by intros [= <-]|]. rewrite lookup_insert_ne by done. apply H4'.
Qed.

Definition new_meta (id logID rowID parent : Z) : PartitionMeta := mkMeta None logID rowID None parent [] (Some (mkRange [] [])) id.
Definition put_meta (db : etcd) (es : list entry) : etcd := foldl (fun db e => <[fst (entry_kv e) := entry_value e]> db) db es.
Lemma put_meta_other es : forall (db : etcd) k, (forall e, e ∈ es -> k <> fst (entry_kv e)) -> put_meta db es !! k = db !! k.
Proof.
  induction es as [|e es IH]; intros db k Hk; [done|]. cbn [put_meta foldl]. change (put_meta (<[fst (entry_kv e) := entry_value e]> db) es !! k = db !! k).
  rewrite IH by (intros e' He'; apply Hk; by right). apply lookup_insert_ne. intros E. by apply (Hk e ltac:(by left)).
Qed.
Lemma put_meta_has es : Forall entry_ok es -> NoDup (entry_kv <$> es).*1 -> forall (db : etcd) e, e ∈ es -> put_meta db es !! fst (entry_kv e) = Some (entry_value e).
Proof.
  induction 1 as [|e es He Hes IH]; intros Hnd db e' Hin; [by apply not_elem_of_nil in Hin|]. rewrite !fmap_cons in Hnd. apply NoDup_cons in Hnd as [Hni Hnd].
  cbn [put_meta foldl]. change (put_meta (<[fst (entry_kv e) := entry_value e]> db) es !! fst (entry_kv e') = Some (entry_value e')).
  apply elem_of_cons in Hin as [->|Hin]; [|by apply IH]. rewrite put_meta_other; [by rewrite lookup_insert_eq|].
  intros e' Hin E. apply Hni. rewrite E. by do 2 apply list_elem_of_fmap_2.
Qed.
Lemma meta_keys_nodup m : meta_ok m -> NoDup (entry_kv <$> meta_entries m).*1.
Proof.
  intros Hm. rewrite <- list_fmap_compose. apply NoDup_fmap_2_strong; [|apply meta_entries_nodup_list]. intros e e' He He' E.
  destruct (meta_entries_ok m e Hm He) as (A1 & _ & A2 & _), (meta_entries_ok m e' Hm He') as (B1 & _ & B2 & _).
  destruct (partKey_inj _ _ _ _ A1 B1 A2 B2 E) as [_ Es]. pose proof (meta_entries_nodup m) as Hnd. 
  apply list_elem_of_lookup in He as [i Hi], He' as [j Hj]. assert (i = j) as <-; [|congruence].
  eapply NoDup_lookup; [exact Hnd| |]; rewrite list_lookup_fmap; [by rewrite Hi|rewrite Hj; cbn; by rewrite Es].
Qed.
Lemma pm_db_ok_meta db N P next m : pm_db_ok db N P next -> 1 <= Meta_PartID m < next -> meta_ok m ->
  (forall m0, P !! Meta_PartID m = Some m0 -> forall e, e ∈ meta_entries m0 -> entry_suffix e ∈ entry_suffix <$> meta_entries m) ->
  pm_db_ok (put_meta db (meta_entries m)) N (<[Meta_PartID m := m]> P) next.
Proof.
  intros [H1' H2' H3' H4' H5'] Hid Hm Hsup. assert (forall k, pm_other_key k \/ String.prefix "PSSERVER" k = true \/ k = pm_idKey -> put_meta db (meta_entries m) !! k = db !! k) as Hother.
  { intros k Hk. apply put_meta_other. intros e He ->. destruct Hk as [(_ & E & _)|[E|E]]; discriminate E. }
  split; [..|done|].
  - eapply part_other; [reflexivity|exact H1'|]. intros k Hp. apply Hother. auto.
  - eapply parts_stored_insert; [exact H2'|done|done| | |done].
    + intros e He. apply put_meta_has; [|by apply meta_keys_nodup|done]. apply Forall_forall. intros e' He'. by eapply meta_entries_ok.
    + intros k Hk. by apply put_meta_other.
  - unfold next_id in *. rewrite Hother by auto. done.
  - intros id m'. destruct (decide (Meta_PartID m = id)) as [<-|Hne]; [done|]. rewrite lookup_insert_ne by done. apply H5'.
Qed.
Lemma new_meta_ok id logID rowID parent : is_u64 id -> 0 < id -> is_u64 logID -> is_u64 rowID -> is_u64 parent -> meta_ok (new_meta id logID rowID parent).
Proof. intros. split; cbn; [done|done| |done|done]. exists (mkRange [] []). by repeat split. Qed.
Lemma set_Locs_ok m l : meta_ok m -> TableLocations_wf l -> meta_ok (set_Locs l m).
Proof. intros [H1' H2' H3' H4' H5'] Hl. split; cbn; [done|done|done| |done]. by intros l' [= <-]. Qed.
Lemma set_Locs_suffixes m l e : e ∈ meta_entries m -> entry_suffix e ∈ entry_suffix <$> meta_entries (set_Locs l m).
Proof.
  unfold meta_entries. cbn [Meta_PartID Meta_LogStream Meta_RowStream Meta_Parent Meta_Rg Meta_Locs set_Locs]. rewrite !fmap_app, !elem_of_app.
  intros [He|[He|He]]; [left; by apply list_elem_of_fmap_2|right; left; by apply list_elem_of_fmap_2|].
  right. right. apply elem_option_list in He. destruct (Meta_Locs m); [|done]. injection He as <-. by left.
Qed.
Lemma put_tables db P id m l : parts_stored db P -> P !! id = Some m ->
  put_meta db (meta_entries (set_Locs l m)) = <[partKey id "tables" := TableLocations_bytes l]> db.
Proof.
  intros [Hh _] Em. destruct (Hh id m Em) as (<- & _ & He). unfold meta_entries in *. cbn [Meta_PartID Meta_LogStream Meta_RowStream Meta_Parent Meta_Rg Meta_Locs set_Locs].
  assert (forall es, (forall e, e ∈ es -> db !! fst (entry_kv e) = Some (entry_value e)) -> put_meta db es = db) as Hsame.
  { induction es as [|e es IH]; intros Hes; [done|]. cbn [put_meta foldl]. rewrite insert_id by (apply Hes; by left). apply IH. intros e' He'. apply Hes. by right. }
  rewrite app_assoc. unfold put_meta. rewrite foldl_app. change (foldl _ db ?l) with (put_meta db l). rewrite Hsame; [done|].
  intros e Hin. apply He. rewrite app_assoc. apply elem_of_app. by left.
Qed.

Section Run.
Context `{GoOrder}.

(** ** The world: the current process and etcd *)

Record pm_inv (b : nat) (pm : PartitionManager) (db : etcd) (N : gmap Z PSDetail) (P : gmap Z PartitionMeta) (next : Z) : Prop := mk_pm_inv {
  pi_db : pm_db_ok db N P next;
  (** ids for [b] more requests *)
  pi_room : next + 2 * Z.of_nat b < 2 ^ 64;
  pi_mem : pm_isLeader pm = true -> psNodes pm = N /\ partMeta pm = P /\ db !! pm_leaderKey pm = Some (pm_memberValue pm);
  pi_key : pm_other_key (pm_leaderKey pm) }.
(** a panic ends the process *)
Definition pm_crashed (pm : PartitionManager) : PartitionManager := mkPM ∅ ∅ false (pm_memberValue pm) (pm_leaderKey pm).
Definition pm_finish {R} (pm : PartitionManager) (r : etcd * outcome (PartitionManager * R)) : PartitionManager * etcd :=
  match r with
  | (db, Ok (pm, _)) => (pm, db)
  | (db, Err _) => (pm, db)
  | (db, Panic) => (pm_crashed pm, db)
  end.
Definition pm_holds (b : nat) (w : PartitionManager * etcd) : Prop := exists N P next, pm_inv b (fst w) (snd w) N P next.

Lemma pm_inv_le b b' pm db N P next : (b' <= b)%nat -> pm_inv b pm db N P next -> pm_inv b' pm db N P next.
Proof using. intros Hle [H1' H2' H3' H4']. split; [done|lia|done|done]. Qed.
Lemma pm_inv_crashed b pm db N P next : pm_inv b pm db N P next -> pm_inv b (pm_crashed pm) db N P next.
Proof using. intros [H1' H2' H3' H4']. by split. Qed.
Lemma pm_inv_alloc b pm db db' N P next next' : pm_inv (S b) pm db N P next -> next_id db' pm_idKey next' -> next <= next' <= next + 2 ->
  (forall k, k <> pm_idKey -> db' !! k = db !! k) -> pm_inv b pm db' N P next'.
Proof using.
  intros [H1' H2' H3' H4'] Hn Hle Hk. split; [eapply pm_db_ok_alloc; [exact H1'|done|lia|done]|lia| |done].
  intros Hl. destruct (H3' Hl) as (A1 & A2 & A3). split; [done|]. split; [done|]. rewrite Hk; [done|]. by destruct H4' as (_ & _ & ?).
Qed.
(** a guarded write: done and answered, or the process ends, with or without it *)
Lemma pm_write b pm db db' N P N' P' next n ops : pm_inv b pm db N P next -> pm_isLeader pm = true -> db' = foldl apply_op db ops ->
  pm_db_ok db' N' P' next -> db' !! pm_leaderKey pm = db !! pm_leaderKey pm ->
  (EtctSetKVS n (pm_guard pm) ops db = (db', Ok tt) /\ forall pm', psNodes pm' = N' -> partMeta pm' = P' -> pm_memberValue pm' = pm_memberValue pm -> pm_leaderKey pm' = pm_leaderKey pm -> pm_inv b pm' db' N' P' next) \/
  exists d, EtctSetKVS n (pm_guard pm) ops db = (d, Panic) /\ pm_holds b (pm_crashed pm, d).
Proof using.
  intros Hi El Edb Hdb' Hkey. destruct Hi as [H1' H2' H3' H4'] eqn:Ei. destruct (H3' El) as (HN & HP & Hk).
  destruct (EtctSetKVS_any db (pm_leaderKey pm) (pm_memberValue pm) n ops Hk) as (d & [[E ->]|[E Hd]]); unfold pm_guard; rewrite E, <- ?Edb.
  - left. split; [done|]. intros pm' A1 A2 A3 A4. split; [done|done|rewrite A3, A4, Hkey; done|by rewrite A4].
  - right. exists d. split; [done|]. rewrite <- Edb in Hd. destruct Hd as [->| ->].
    + exists N, P, next. by apply pm_inv_crashed.
    + exists N', P', next. cbn [fst snd]. by split.
Qed.

(** ** The handlers keep the invariant *)

Lemma RegisterPS_ok b pm db n1 n2 n3 addr : pm_holds (S b) (pm, db) -> zlen addr < 2 ^ 40 -> pm_holds b (pm_finish pm (RegisterPS pm n1 n2 n3 addr db)).
Proof using.
  intros (N & P & next & Hi) Hz. cbn [fst snd] in Hi. unfold RegisterPS.
  assert (pm_holds b (pm, db)) as Hsame by (exists N, P, next; eapply pm_inv_le; [|exact Hi]; lia).
  destruct (pm_isLeader pm) eqn:El; cbn [negb]; [|done]. destruct (zlen addr =? 0); [done|].
  pose proof (pi_room _ _ _ _ _ _ Hi) as Hroom. pose proof (pd_next _ _ _ _ (pi_db _ _ _ _ _ _ Hi)) as Hnx. pose proof (proj1 Hnx) as Hn1.
  destruct (EtcdAllocUniqID_any db pm_idKey n1 n2 next 1 Hnx ltac:(lia) ltac:(lia)) as (db1 & next1 & r & Ea & Hnx1 & Hle & Hk & Hr).
  pose proof (pm_inv_alloc b pm db db1 N P next next1 Hi Hnx1 ltac:(lia) Hk) as Hi1. unfold tbind at 1, pm_allocUniqID. rewrite Ea.
  destruct Hr as [->|[-> ->]]; [by exists N, P, next1|].
  assert (is_u64 next) as Hu by (unfold is_u64; lia). rewrite PSDetail_Marshal_bytes by done. unfold tbind, tret. cbn [must].
  pose proof (pm_db_ok_register db1 N P (next + 1) next addr (pi_db _ _ _ _ _ _ Hi1) ltac:(lia) Hz) as Hdb2.
  destruct (pm_write b pm db1 _ N P _ P (next + 1) n3 [OpPut (psKey next) (PSDetail_bytes (mkPSD next addr))] Hi1 El eq_refl Hdb2) as [[-> Hw]|(d & -> & Hd)]; [|..|exact Hd].
  - cbn [foldl apply_op]. apply lookup_insert_ne, pm_other_ps, Hi.
  - destruct (pi_mem _ _ _ _ _ _ Hi El) as (HN & HP & _). exists (<[next := mkPSD next addr]> N), P, (next + 1). cbn [pm_finish fst snd]. apply Hw; cbn; [by rewrite HN|done..].
Qed.

Lemma Bootstrap_ok b pm db n1 n2 n3 logID rowID parent : pm_holds (S b) (pm, db) -> is_u64 logID -> is_u64 rowID -> is_u64 parent ->
  pm_holds b (pm_finish pm (Bootstrap pm n1 n2 n3 logID rowID parent db)).
Proof using.
  intros (N & P & next & Hi) Hlog Hrow Hpar. cbn [fst snd] in Hi. unfold Bootstrap.
  assert (pm_holds b (pm, db)) as Hsame by (exists N, P, next; eapply pm_inv_le; [|exact Hi]; lia).
  destruct (pm_isLeader pm) eqn:El; cbn [negb]; [|done].
  pose proof (pi_room _ _ _ _ _ _ Hi) as Hroom. pose proof (pd_next _ _ _ _ (pi_db _ _ _ _ _ _ Hi)) as Hnx. pose proof (proj1 Hnx) as Hn1.
  destruct (EtcdAllocUniqID_any db pm_idKey n1 n2 next 2 Hnx ltac:(lia) ltac:(lia)) as (db1 & next1 & r & Ea & Hnx1 & Hle & Hk & Hr).
  pose proof (pm_inv_alloc b pm db db1 N P next next1 Hi Hnx1 ltac:(lia) Hk) as Hi1. unfold tbind at 1, pm_allocUniqID. rewrite Ea.
  destruct Hr as [->|[-> ->]]; [by exists N, P, next1|]. rewrite Range_Marshal_bytes by done. unfold tbind, tret.
  set (m := new_meta next logID rowID parent). assert (meta_ok m) as Hm by (apply new_meta_ok; unfold is_u64; lia || done).
  assert (P !! next = None) as HPn.
  { destruct (P !! next) as [m0|] eqn:E; [|done]. pose proof (pd_part_ids _ _ _ _ (pi_db _ _ _ _ _ _ Hi) next m0 E). lia. }
  pose proof (pm_db_ok_meta db1 N P (next + 2) m (pi_db _ _ _ _ _ _ Hi1) ltac:(cbn; lia) Hm ltac:(cbn; congruence)) as Hdb2.
  set (ops := [OpPut _ _; _; _; _]).
  destruct (pm_write b pm db1 (put_meta db1 (meta_entries m)) N P _ _ (next + 2) n3 ops Hi1 El eq_refl Hdb2) as [[-> Hw]|(d & -> & Hd)]; [|..|exact Hd].
  - apply put_meta_other. intros e _ E. by apply (pm_other_part _ (entry_id e) (entry_suffix e) (pi_key _ _ _ _ _ _ Hi)).
  - destruct (pi_mem _ _ _ _ _ _ Hi El) as (HN & HP & _). exists N, (<[next := m]> P), (next + 2). cbn [pm_finish fst snd].
    apply Hw; cbn; [done|by rewrite HP|done..].
Qed.

(** the request names a partition that was bootstrapped *)
Definition part_known (db : etcd) (id : Z) : Prop := is_u64 id /\ is_Some (db !! partKey id "logStream").
Lemma known_part db P id : parts_stored db P -> part_known db id -> is_Some (P !! id).
Proof using.
  intros [Hh Ho] [Hu [v Hv]]. destruct (Ho _ v Hv eq_refl) as (id' & m & e & Em & He & Ekv).
  destruct (Hh id' m Em) as (Hid & Hm & _). destruct (meta_entries_ok m e Hm He) as (A1 & _ & A2 & _).
  pose proof (f_equal fst Ekv) as E. cbn [fst entry_kv] in E. apply partKey_inj in E as [E _]; [|done|done|by repeat split|done].
  rewrite E, (proj1 (meta_entries_id m e He)), Hid. by eexists.
Qed.
Lemma SetRowStreamTables_ok b pm db n locs id : pm_holds (S b) (pm, db) -> (forall l, locs = Some l -> TableLocations_wf l) -> part_known db id ->
  pm_holds b (pm_finish pm (SetRowStreamTables pm n locs id db)).
Proof using.
  intros (N & P & next & Hi) Hlocs Hknown. cbn [fst snd] in Hi. unfold SetRowStreamTables.
  apply (pm_inv_le _ b) in Hi; [|lia]. assert (pm_holds b (pm, db)) as Hsame by (by exists N, P, next).
  destruct (pm_isLeader pm) eqn:El; cbn [negb]; [|done]. destruct locs as [l|]; [|exists N, P, next; by apply pm_inv_crashed].
  destruct ((zlen (Locs l) =? 0) || (id =? 0)); [done|]. specialize (Hlocs l eq_refl). rewrite TableLocations_Marshal_bytes by done. unfold tbind, tret.
  pose proof (pi_db _ _ _ _ _ _ Hi) as Hdb. destruct (known_part db P id (pd_parts _ _ _ _ Hdb) Hknown) as [m Em].
  destruct (pp_has _ _ (pd_parts _ _ _ _ Hdb) id m Em) as (Hid & Hm & _).
  pose proof (pm_db_ok_meta db N P next (set_Locs l m) Hdb ltac:(cbn; rewrite Hid; by eapply pd_part_ids) (set_Locs_ok m l Hm Hlocs)) as Hdb2.
  rewrite (put_tables db P id m l (pd_parts _ _ _ _ Hdb) Em) in Hdb2. cbn [Meta_PartID set_Locs] in Hdb2. rewrite Hid in Hdb2.
  destruct (pm_write b pm db _ N P _ _ next n [OpPut (partKey id "tables") (TableLocations_bytes l)] Hi El eq_refl (Hdb2 ltac:(intros m0 E0; rewrite Em in E0; injection E0 as <-; apply set_Locs_suffixes))) as [[-> Hw]|(d & -> & Hd)]; [|..|exact Hd].
  - apply lookup_insert_ne, pm_other_part, Hi.
  - destruct (pi_mem _ _ _ _ _ _ Hi El) as (HN & HP & _). rewrite HP, Em. exists N, (<[id := set_Locs l m]> P), next. cbn [pm_finish fst snd].
    apply Hw; cbn; [done..].
Qed.

(** ** Runs *)

Definition pm_electionKey (lease : string) : string := String.append "AutumnPMLeader/" lease.
(** [LeaderLoop]: the key of the last leader's session is gone from etcd, a
    process wins the election and loads. The process that lost its key is not
    this one: what it does until it notices is part of the runs in SharedEtcd. *)
Definition pm_elect (lease : string) (member : bytes) (n1 n2 : net) (pm : PartitionManager) (db : etcd) : PartitionManager * etcd :=
  let pm' := mkPM ∅ ∅ false member (pm_electionKey lease) in
  match pm_runAsLeader n1 n2 pm' (<[pm_electionKey lease := member]> (delete (pm_leaderKey pm) db)) with
  | (db, Ok pm') => (pm', db)
  | (db, _) => (pm', db)
  end.
(** [LeaderLoop]: the process sees that its session is over *)
Definition pm_session_done (pm : PartitionManager) : PartitionManager := mkPM (psNodes pm) (partMeta pm) false (pm_memberValue pm) (pm_leaderKey pm).
(** the requests that write *)
Inductive pm_event :=
  | EvRegisterPS (n1 n2 n3 : net) (addr : bytes)
  | EvBootstrap (n1 n2 n3 : net) (logID rowID parent : Z)
  | EvSetTables (n : net) (locs : option TableLocations) (id : Z).
Definition pm_handle (w : PartitionManager * etcd) (ev : pm_event) : PartitionManager * etcd :=
  let '(pm, db) := w in
  match ev with
  | EvRegisterPS n1 n2 n3 addr => pm_finish pm (RegisterPS pm n1 n2 n3 addr db)
  | EvBootstrap n1 n2 n3 logID rowID parent => pm_finish pm (Bootstrap pm n1 n2 n3 logID rowID parent db)
  | EvSetTables n locs id => pm_finish pm (SetRowStreamTables pm n locs id db)
  end.
(** clients send well-formed messages and set the tables of partitions they were
    given: the handler does not check the latter, see
    PartitionManagerOps.unknown_partition_breaks_routing *)
Definition pm_event_ok (db : etcd) (ev : pm_event) : Prop :=
  match ev with
  | EvRegisterPS _ _ _ addr => zlen addr < 2 ^ 40
  | EvBootstrap _ _ _ logID rowID parent => is_u64 logID /\ is_u64 rowID /\ is_u64 parent
  | EvSetTables _ locs id => (forall l, locs = Some l -> TableLocations_wf l) /\ part_known db id
  end.
Inductive pm_step : PartitionManager * etcd -> PartitionManager * etcd -> Prop :=
  | step_request pm db ev : pm_event_ok db ev -> pm_step (pm, db) (pm_handle (pm, db) ev)
  | step_elect pm db lease member n1 n2 : pm_step (pm, db) (pm_elect lease member n1 n2 pm db).
(** nothing in etcd and no leader *)
Definition pm_init : PartitionManager * etcd := (mkPM ∅ ∅ false [] EmptyString, ∅).
Inductive pm_run : nat -> PartitionManager * etcd -> Prop :=
  | run_init : pm_run 0 pm_init
  | run_step n w w' : pm_run n w -> pm_step w w' -> pm_run (S n) w'.

Lemma pm_election_other lease : pm_other_key (pm_electionKey lease).
Proof using. repeat split; try reflexivity. intros E. discriminate E. Qed.
Lemma pm_elect_db (pm : PartitionManager) db N P next lease member : pm_db_ok db N P next -> pm_other_key (pm_leaderKey pm) ->
  pm_db_ok (<[pm_electionKey lease := member]> (delete (pm_leaderKey pm) db)) N P next.
Proof using.
  intros Hdb Hok. apply (pm_db_ok_other db); [done|]. intros k Hk. rewrite lookup_insert_ne by (intros <-; apply Hk, pm_election_other).
  apply lookup_delete_ne. by intros <-.
Qed.
Lemma pm_runAsLeader_any n1 n2 pm db N P next : pm_db_ok db N P next ->
  pm_runAsLeader n1 n2 pm db = (db, match n1, n2 with Delivered, Delivered => Ok (mkPM N P true (pm_memberValue pm) (pm_leaderKey pm)) | _, _ => Err errTimeout end).
Proof using.
  intros [H1' H2' _ _ _]. unfold pm_runAsLeader, tbind, EtcdRange, tret.
  pose proof (load_part psKey "PSSERVER" PSDetail_bytes PSDetail_Unmarshal PSDetail_wf parse_ps ltac:(reflexivity) PSDetail_Unmarshal_bytes db N H1') as E1.
  pose proof (parseParts_loads db P H2') as E2. destruct n1; [rewrite E1|done..]. destruct n2; [rewrite E2|done..]. done.
Qed.
Lemma pm_handle_ok b pm db ev : pm_holds (S b) (pm, db) -> pm_event_ok db ev -> pm_holds b (pm_handle (pm, db) ev).
Proof using.
  destruct ev; cbn [pm_handle pm_event_ok]; [apply RegisterPS_ok|intros Hw (H1' & H2' & H3'); by apply Bootstrap_ok|intros Hw [Hl Hk]; by apply SetRowStreamTables_ok].
Qed.
Lemma pm_step_ok b w w' : pm_holds (S b) w -> pm_step w w' -> pm_holds b w'.
Proof using.
  intros Hw Hs. destruct Hs as [pm db ev Hev|pm db lease member n1 n2].
  - by apply pm_handle_ok.
  - destruct Hw as (N & P & next & Hi). cbn [fst snd] in Hi. pose proof (pi_room _ _ _ _ _ _ Hi) as Hroom.
    pose proof (pm_elect_db pm db N P next lease member (pi_db _ _ _ _ _ _ Hi) (pi_key _ _ _ _ _ _ Hi)) as Hdb.
    unfold pm_elect. rewrite (pm_runAsLeader_any n1 n2 _ _ N P next Hdb). exists N, P, next.
    destruct n1, n2; cbn [fst snd]; (split; [done|lia| |apply pm_election_other]); [|done..].
    intros _. cbn. by rewrite lookup_insert_eq.
Qed.
Lemma pm_run_ok n w : pm_run n w -> forall b, 2 * Z.of_nat (n + b) + 1 < 2 ^ 64 -> pm_holds b w.
Proof using.
  induction 1 as [|n w w' _ IH Hs]; intros b Hb.
  - exists ∅, ∅, 1. cbn [pm_init fst snd]. split; [|lia|done|repeat split; done]. split; [apply part_empty|split; intros *; by rewrite lookup_empty|split; [lia|by rewrite lookup_empty]|intros *; by rewrite lookup_empty..].
  - eapply pm_step_ok; [|exact Hs]. apply IH. lia.
Qed.

(** Whatever requests reach the partition manager, whichever of its etcd messages are lost or
    unanswered, and however often the process crashes and is elected again, etcd stays consistent
    (every server record and every key of a partition decodes to what was set, ids are not reused)
    and what the leader serves from memory is exactly what etcd holds. *)
Theorem partition_manager_mirrors n pm db : pm_run n (pm, db) -> 2 * Z.of_nat n + 1 < 2 ^ 64 ->
  exists N P next, pm_db_ok db N P next /\ (pm_isLeader pm = true -> psNodes pm = N /\ partMeta pm = P) /\
    forall lease member, pm_elect lease member Delivered Delivered pm db =
      (mkPM N P true member (pm_electionKey lease), <[pm_electionKey lease := member]> (delete (pm_leaderKey pm) db)).
Proof using.
  intros Hrun Hn. destruct (pm_run_ok n (pm, db) Hrun 0) as (N & P & next & Hi); [lia|]. cbn [fst snd] in Hi. exists N, P, next.
  split; [apply Hi|]. split; [intros El; by destruct (pi_mem _ _ _ _ _ _ Hi El) as (? & ? & _)|]. intros lease member.
  pose proof (pm_elect_db pm db N P next lease member (pi_db _ _ _ _ _ _ Hi) (pi_key _ _ _ _ _ _ Hi)) as Hdb.
  unfold pm_elect. by rewrite (pm_runAsLeader_any Delivered Delivered _ _ N P next Hdb).
Qed.

(** ** The routing table *)

Lemma regions_ok ps parts : (forall id m, (id, m) ∈ parts -> Meta_Rg m <> None) ->
  exists rs, regions_loop ps parts = Ok rs /\
    forall r, r ∈ rs <-> exists m d, (RI_PartID r, m) ∈ parts /\ ps !! Meta_Parent m = Some d /\ r = mkRI (Meta_Rg m) (RI_PartID r) (Meta_Parent m) (PS_Address d).
Proof using.
  induction parts as [|[id m] parts IH]; intros Hrg; cbn [regions_loop].
  { exists []. split; [done|]. intros r. split; [by intros ?%not_elem_of_nil|by intros (m & d & ?%not_elem_of_nil & _)]. }
  destruct IH as (rs & -> & Hrs); [intros id' m' Hin; apply (Hrg id'); by right|]. destruct (Meta_Rg m) as [rg|] eqn:Erg; [|by destruct (Hrg id m ltac:(by left))].
  destruct (ps !! Meta_Parent m) as [d|] eqn:Ed; cbn [obind].
  - eexists. split; [done|]. intros r. rewrite elem_of_cons, Hrs. split.
    + intros [->|(m' & d' & Hin & Hd & E)]; [|exists m', d'; split; [by right|done]]. exists m, d. cbn [RI_PartID]. rewrite Erg. split; [by left|done].
    + intros (m' & d' & Hin & Hd & E). apply elem_of_cons in Hin as [Hin|Hin]; [left|right; by exists m', d'].
      injection Hin as E1 ->. rewrite Ed in Hd. injection Hd as <-. rewrite E, E1, Erg. done.
  - exists rs. split; [done|]. intros r. rewrite Hrs. split; intros (m' & d' & Hin & Hd & E).
    + exists m', d'. split; [by right|done].
    + apply elem_of_cons in Hin as [Hin|Hin]; [|by exists m', d']. injection Hin as E1 ->. congruence.
Qed.
Lemma GetRegions_ok b pm db N P next : pm_inv b pm db N P next -> pm_isLeader pm = true ->
  exists rs, GetRegions pm = Ok (PM_OK, rs) /\
    forall r, r ∈ rs <-> exists m d, partMeta pm !! RI_PartID r = Some m /\ psNodes pm !! Meta_Parent m = Some d /\
      r = mkRI (Meta_Rg m) (RI_PartID r) (Meta_Parent m) (PS_Address d).
Proof using.
  intros Hi El. destruct (pi_mem _ _ _ _ _ _ Hi El) as (HN & HP & _). unfold GetRegions. rewrite El. cbn [negb].
  assert (forall id m, (id, m) ∈ map_range (partMeta pm) <-> partMeta pm !! id = Some m) as Hin
    by (intros id m; rewrite <- map_range_perm; apply elem_of_map_to_list).
  destruct (regions_ok (psNodes pm) (map_range (partMeta pm))) as (rs & -> & Hrs).
  { intros id m E%Hin. rewrite HP in E. destruct (pp_has _ _ (pd_parts _ _ _ _ (pi_db _ _ _ _ _ _ Hi)) id m E) as (_ & [_ _ (rg & -> & _) _ _] & _). done. }
  exists rs. split; [done|]. intros r. rewrite Hrs. split; intros (m & d & E & Hd & Er); exists m, d; (split; [|done]); by apply Hin.
Qed.
(** GetRegions on a leader lists exactly the partitions whose parent is a registered server, with its
    address. *)
Theorem GetRegions_complete n pm db : pm_run n (pm, db) -> 2 * Z.of_nat n + 1 < 2 ^ 64 -> pm_isLeader pm = true ->
  exists rs, GetRegions pm = Ok (PM_OK, rs) /\
    forall r, r ∈ rs <-> exists m d, partMeta pm !! RI_PartID r = Some m /\ psNodes pm !! Meta_Parent m = Some d /\
      r = mkRI (Meta_Rg m) (RI_PartID r) (Meta_Parent m) (PS_Address d).
Proof using.
  intros Hrun Hn El. destruct (pm_run_ok n (pm, db) Hrun 0) as (N & P & next & Hi); [lia|]. by eapply GetRegions_ok.
Qed.
End Run.
