(* ===== verification/PartitionManagerOps.v ===== *)
(** What single requests to the partition manager do: the routing of partitions
    to servers, and the paths on which the code does not do what it means to. *)
From Stdlib Require Import ZArith Lia Strings.String.
From stdpp Require Import base option list numbers gmap sorting strings.
From S2P Require Import Prelude GoLib Proto ProtoSub ProtoPs ProtoSm ProtoPm Etcd EtcdSpec PartitionManager PartitionParse PartitionManagerSpec PartitionManagerRun.

Section Ops.
Context `{GoOrder}.

(** the whole life of a partition up to its server: registered, bootstrapped, found *)
Definition pm_setup (addr : bytes) (logID rowID : Z) (pm : PartitionManager) : tx (PartitionManager * (Z * Z)) :=
  let* (pm, (_, ps)) := RegisterPS pm Delivered Delivered Delivered addr in
  let* (pm, part) := Bootstrap pm Delivered Delivered Delivered logID rowID ps in
  tret (Ok (pm, (ps, part))).

Lemma GetPartitionMeta_elem pm psid m : pm_isLeader pm = true -> GetPartitionMeta pm psid = (PM_OK, snd (GetPartitionMeta pm psid)) /\
  (m ∈ snd (GetPartitionMeta pm psid) <-> Meta_Parent m = psid /\ exists id, partMeta pm !! id = Some m).
Proof using.
  intros El. unfold GetPartitionMeta. rewrite El. cbn [negb snd]. split; [done|]. rewrite list_elem_of_filter, list_elem_of_fmap. apply and_iff_compat_l. split.
  - intros ([id m'] & -> & Hin). rewrite <- map_range_perm in Hin. apply elem_of_map_to_list in Hin. by exists id.
  - intros (id & E). exists (id, m). split; [done|]. rewrite <- map_range_perm. by apply elem_of_map_to_list.
Qed.

Lemma RegisterPS_delivered b pm db N P next addr : pm_inv (S b) pm db N P next -> pm_isLeader pm = true -> addr <> [] -> zlen addr < 2 ^ 40 ->
  exists pm' db', RegisterPS pm Delivered Delivered Delivered addr db = (db', Ok (pm', (PM_OK, next))) /\ pm_isLeader pm' = true /\
    psNodes pm' = <[next := mkPSD next addr]> N /\ partMeta pm' = P /\ pm_inv b pm' db' (<[next := mkPSD next addr]> N) P (next + 1).
Proof using.
  intros Hi El Hne Hz. destruct (pi_mem _ _ _ _ _ _ Hi El) as (HN & HP & Hkey). pose proof (pi_room _ _ _ _ _ _ Hi) as Hroom.
  pose proof (pd_next _ _ _ _ (pi_db _ _ _ _ _ _ Hi)) as Hnx. pose proof (proj1 Hnx) as Hn1. unfold RegisterPS. rewrite El. cbn [negb].
  destruct (Z.eqb_spec (zlen addr) 0) as [E|_]; [by apply zlen_0_nil in E|].
  destruct (EtcdAllocUniqID_ok db pm_idKey next 1 Hnx ltac:(lia) ltac:(lia)) as (db1 & Ea & Hnx1 & Hk).
  pose proof (pm_inv_alloc b pm db db1 N P next (next + 1) Hi Hnx1 ltac:(lia) Hk) as Hi1. unfold tbind at 1, pm_allocUniqID. rewrite Ea.
  assert (is_u64 next) as Hu by (unfold is_u64; lia). rewrite PSDetail_Marshal_bytes by done. unfold tbind, tret. cbn [must].
  pose proof (pm_db_ok_register db1 N P (next + 1) next addr (pi_db _ _ _ _ _ _ Hi1) ltac:(lia) Hz) as Hdb2.
  destruct (pi_mem _ _ _ _ _ _ Hi1 El) as (_ & _ & Hkey1). unfold EtctSetKVS, Commit, txn, pm_guard. cbn [forallb cmp_holds]. rewrite bool_decide_true by done. cbn [andb negb foldl apply_op].
  do 2 eexists. split; [done|]. split; [done|]. rewrite HN. split; [done|]. split; [done|]. cbn.
  split; [done|apply Hi1| |apply Hi]. intros _. cbn. split; [done|]. split; [done|]. rewrite lookup_insert_ne; [done|]. apply pm_other_ps, Hi.
Qed.
Lemma Bootstrap_delivered b pm db N P next logID rowID parent : pm_inv (S b) pm db N P next -> pm_isLeader pm = true ->
  is_u64 logID -> is_u64 rowID -> is_u64 parent ->
  exists pm' db', Bootstrap pm Delivered Delivered Delivered logID rowID parent db = (db', Ok (pm', next)) /\ pm_isLeader pm' = true /\
    psNodes pm' = N /\ partMeta pm' = <[next := new_meta next logID rowID parent]> P /\ pm_inv b pm' db' N (<[next := new_meta next logID rowID parent]> P) (next + 2) /\
    forall k, pm_other_key k -> db' !! k = db !! k.
Proof using.
  intros Hi El Hlog Hrow Hpar. destruct (pi_mem _ _ _ _ _ _ Hi El) as (HN & HP & _). pose proof (pi_room _ _ _ _ _ _ Hi) as Hroom.
  pose proof (pd_next _ _ _ _ (pi_db _ _ _ _ _ _ Hi)) as Hnx. pose proof (proj1 Hnx) as Hn1. unfold Bootstrap. rewrite El. cbn [negb].
  destruct (EtcdAllocUniqID_ok db pm_idKey next 2 Hnx ltac:(lia) ltac:(lia)) as (db1 & Ea & Hnx1 & Hk).
  pose proof (pm_inv_alloc b pm db db1 N P next (next + 2) Hi Hnx1 ltac:(lia) Hk) as Hi1. unfold tbind at 1, pm_allocUniqID. rewrite Ea.
  rewrite Range_Marshal_bytes by done. unfold tbind, tret. set (m := new_meta next logID rowID parent).
  assert (meta_ok m) as Hm by (apply new_meta_ok; unfold is_u64; lia || done).
  assert (P !! next = None) as HPn.
  { destruct (P !! next) as [m0|] eqn:E; [|done]. pose proof (pd_part_ids _ _ _ _ (pi_db _ _ _ _ _ _ Hi) next m0 E). lia. }
  pose proof (pm_db_ok_meta db1 N P (next + 2) m (pi_db _ _ _ _ _ _ Hi1) ltac:(cbn; lia) Hm ltac:(cbn; congruence)) as Hdb2.
  destruct (pi_mem _ _ _ _ _ _ Hi1 El) as (_ & _ & Hkey1). unfold EtctSetKVS, Commit, txn, pm_guard. cbn [forallb cmp_holds]. rewrite bool_decide_true by done. cbn [andb negb].
  do 2 eexists. split; [done|]. split; [done|]. split; [done|]. rewrite HP. split; [done|]. change (foldl apply_op db1 _) with (put_meta db1 (meta_entries m)).
  assert (forall k, pm_other_key k -> put_meta db1 (meta_entries m) !! k = db1 !! k) as Hot by (intros k Hk'; apply put_meta_other; intros e _ ->; by apply (pm_other_part _ (entry_id e) (entry_suffix e) Hk')).
  split; [|intros k Hk'; rewrite Hot by done; apply Hk; by destruct Hk' as (_ & _ & ?)].
  split; [exact Hdb2|apply Hi1| |apply Hi]. intros _. cbn [with_parts psNodes partMeta pm_leaderKey pm_memberValue]. split; [done|]. split; [done|]. by rewrite Hot by apply Hi.
Qed.

(** On a leader, registering a partition server and bootstrapping the first partition on it
    succeed, the server then finds in GetPartitionMeta the partition with its log and row stream and
    the whole key range, and GetRegions routes to it. *)
Theorem bootstrap_routes n pm db addr logID rowID : pm_run n (pm, db) -> 2 * Z.of_nat (n + 2) + 1 < 2 ^ 64 -> pm_isLeader pm = true ->
  addr <> [] -> zlen addr < 2 ^ 40 -> is_u64 logID -> is_u64 rowID ->
  exists pm' db' ps part metas rs, pm_setup addr logID rowID pm db = (db', Ok (pm', (ps, part))) /\
    psNodes pm !! ps = None /\ partMeta pm !! part = None /\
    GetPartitionMeta pm' ps = (PM_OK, metas) /\ new_meta part logID rowID ps ∈ metas /\
    GetRegions pm' = Ok (PM_OK, rs) /\ mkRI (Some (mkRange [] [])) part ps addr ∈ rs.
Proof using.
  intros Hrun Hn El Hne Hz Hlog Hrow. destruct (pm_run_ok n (pm, db) Hrun 2) as (N & P & next & Hi); [lia|]. cbn [fst snd] in Hi.
  destruct (pi_mem _ _ _ _ _ _ Hi El) as (HN & HP & _). pose proof (pi_room _ _ _ _ _ _ Hi) as Hroom. pose proof (pi_db _ _ _ _ _ _ Hi) as Hdb. pose proof (proj1 (pd_next _ _ _ _ Hdb)) as Hn1.
  destruct (RegisterPS_delivered 1 pm db N P next addr Hi El Hne Hz) as (pm1 & db1 & E1 & El1 & HN1 & HP1 & Hi1).
  destruct (Bootstrap_delivered 0 pm1 db1 _ P (next + 1) logID rowID next Hi1 El1 Hlog Hrow ltac:(unfold is_u64; lia)) as (pm2 & db2 & E2 & El2 & HN2 & HP2 & Hi2 & _).
  assert (partMeta pm2 !! (next + 1) = Some (new_meta (next + 1) logID rowID next)) as Hpart by (rewrite HP2; apply lookup_insert_eq).
  destruct (GetRegions_ok 0 pm2 db2 _ _ _ Hi2 El2) as (rs & Ers & Hrs).
  exists pm2, db2, next, (next + 1), (snd (GetPartitionMeta pm2 next)), rs. split; [unfold pm_setup, tbind, tret; by rewrite E1, E2|].
  split; [rewrite HN; destruct (N !! next) as [d|] eqn:E; [|done]; destruct (pd_server_ids _ _ _ _ Hdb next d E); lia|].
  split; [rewrite HP; destruct (P !! (next + 1)) as [m|] eqn:E; [|done]; pose proof (pd_part_ids _ _ _ _ Hdb (next + 1) m E); lia|].
  destruct (GetPartitionMeta_elem pm2 next (new_meta (next + 1) logID rowID next) El2) as [Eg Hg]. split; [done|]. split; [apply Hg; split; [done|by eexists]|].
  split; [done|]. apply Hrs. cbn [RI_PartID]. exists (new_meta (next + 1) logID rowID next), (mkPSD next addr). split; [done|]. split; [|done].
  rewrite HN2. apply lookup_insert_eq.
Qed.

(** ** A request for a partition that does not exist *)

Lemma tables_keep_Rg es id : (forall e, e ∈ es -> entry_id e = id -> entry_suffix e = "tables"%string) -> Meta_Rg (assemble es id) = None.
Proof using.
  induction es as [|e es IH] using rev_ind; intros Hes; [done|]. rewrite assemble_snoc.
  specialize (IH (fun e' He' => Hes e' ltac:(apply elem_of_app; by left))). case_decide as Hid; [|done].
  pose proof (Hes e ltac:(apply elem_of_app; right; by left) Hid) as Hs. destruct (update_assigns e) as [E|b Hs' E|x Hs' E|x Hs' E|l Hs' E|b Hs' E|x Hs' E|r Hs' E]; rewrite E; try done. congruence.
Qed.
Lemma regions_panic ps id m parts : (id, m) ∈ parts -> Meta_Rg m = None -> regions_loop ps parts = Panic.
Proof using.
  intros Hin Hm. induction parts as [|[id' m'] parts IH]; [by apply not_elem_of_nil in Hin|]. cbn [regions_loop].
  apply elem_of_cons in Hin as [[= <- <-]|Hin]; [by rewrite Hm|]. rewrite (IH Hin). destruct (Meta_Rg m'); [|done]. by destruct (ps !! Meta_Parent m').
Qed.

(** whoever leads next loads what etcd has and cannot list the regions *)
Definition no_routes_after (pm : PartitionManager) (db : etcd) : Prop :=
  forall lease member, exists pm' db', pm_elect lease member Delivered Delivered (pm_crashed pm) db = (pm', db') /\
    pm_isLeader pm' = true /\ GetRegions pm' = Panic.
(** SetRowStreamTables for a partition that was never bootstrapped stores its key in etcd
    before it dereferences the missing partition; the process ends, and GetRegions of every later
    leader dereferences the stream and range that partition does not have. *)
Theorem unknown_partition_breaks_routing n pm db l id : pm_run n (pm, db) -> 2 * Z.of_nat n + 1 < 2 ^ 64 -> pm_isLeader pm = true ->
  partMeta pm !! id = None -> is_u64 id -> id <> 0 -> TableLocations_wf l -> Locs l <> [] ->
  exists db', SetRowStreamTables pm Delivered (Some l) id db = (db', Panic) /\
    no_routes_after pm db'.
Proof using.
  intros Hrun Hn El Hnone Hu H0' Hwf Hl. destruct (pm_run_ok n (pm, db) Hrun 0) as (N & P & next & Hi); [lia|]. cbn [fst snd] in Hi.
  destruct (pi_mem _ _ _ _ _ _ Hi El) as (HN & HP & Hkey). pose proof (pi_db _ _ _ _ _ _ Hi) as Hdb. rewrite HP in Hnone.
  exists (<[partKey id "tables" := TableLocations_bytes l]> db). split.
  { unfold SetRowStreamTables. rewrite El. cbn [negb]. destruct (Z.eqb_spec (zlen (Locs l)) 0) as [E|_]; [by apply zlen_0_nil in E|]. destruct (Z.eqb_spec id 0); [done|]. cbn [orb].
    rewrite TableLocations_Marshal_bytes by done. unfold tbind, tret, EtctSetKVS, Commit, txn, pm_guard. cbn [forallb cmp_holds]. rewrite bool_decide_true by done.
    cbn [andb negb foldl apply_op]. rewrite HP. by destruct (P !! id). }
  intros lease member. unfold pm_elect. set (db2 := <[pm_electionKey lease := member]> _).
  assert (forall k, String.prefix "PART" k = true -> k <> partKey id "tables" -> db2 !! k = db !! k) as Hold.
  { intros k Hk Hne. unfold db2. rewrite lookup_insert_ne by (intros <-; discriminate Hk). rewrite lookup_delete_ne by (intros <-; destruct (pi_key _ _ _ _ _ _ Hi) as (_ & E & _); exact (eq_true_false_abs _ Hk E)). by apply lookup_insert_ne. }
  assert (db2 !! partKey id "tables" = Some (TableLocations_bytes l)) as Hnew.
  { unfold db2. rewrite lookup_insert_ne, lookup_delete_ne by (apply not_eq_sym, pm_other_part; [apply pm_election_other || apply (pi_key _ _ _ _ _ _ Hi)]). apply lookup_insert_eq. }
  assert (servers_part db2 N) as Hps.
  { eapply part_other; [reflexivity|apply (pd_servers _ _ _ _ Hdb)|]. intros k Hk. unfold db2. rewrite lookup_insert_ne by (intros <-; discriminate Hk).
    rewrite lookup_delete_ne by (intros <-; destruct (pi_key _ _ _ _ _ _ Hi) as (E & _); exact (eq_true_false_abs _ Hk E)). apply lookup_insert_ne. intros <-. discriminate Hk. }
  assert (entry_ok (id, "tables"%string, TableLocations_bytes l)) as Hok0 by (split; [done|]; split; [done|]; split; [repeat split; discriminate|eexists; by apply load_tables]).
  destruct (parse_assembles db2) as (es & M & EM & HM & _ & Hel).
  { intros k v Hk Hpre. destruct (decide (k = partKey id "tables")) as [->|Hne]; [rewrite Hnew in Hk; injection Hk as <-; by eexists|].
    rewrite (Hold k Hpre Hne) in Hk. destruct (pp_only _ _ (pd_parts _ _ _ _ Hdb) k v Hk Hpre) as (id' & m & e & Em & He & Ekv). exists e. split; [|done].
    eapply meta_entries_ok; [|done]. by apply (pp_has _ _ (pd_parts _ _ _ _ Hdb) id' m). }
  unfold pm_runAsLeader, tbind, EtcdRange, tret.
  rewrite (load_part psKey "PSSERVER" PSDetail_bytes PSDetail_Unmarshal PSDetail_wf parse_ps ltac:(reflexivity) PSDetail_Unmarshal_bytes db2 N Hps), EM.
  do 2 eexists. split; [done|]. split; [done|]. unfold GetRegions. cbn [pm_isLeader negb psNodes partMeta].
  rewrite (regions_panic N id (assemble es id)); [done| |].
  - rewrite <- map_range_perm. apply elem_of_map_to_list. rewrite HM, decide_True; [done|].
    change id with (entry_id (id, "tables"%string, TableLocations_bytes l)) at 1. apply list_elem_of_fmap_2, Hel. done.
  - apply tables_keep_Rg. intros e He Hid. apply Hel in He as [Hok Hk]. destruct Hok as (A1 & _ & A2 & _).
    destruct (decide (entry_suffix e = "tables"%string)) as [|Hne]; [done|]. rewrite Hold in Hk; [|reflexivity|].
    + destruct (pp_only _ _ (pd_parts _ _ _ _ Hdb) _ _ Hk eq_refl) as (id' & m & e' & Em & He' & Ekv). destruct (pp_has _ _ (pd_parts _ _ _ _ Hdb) id' m Em) as (Hm1 & Hm2 & _).
      destruct (meta_entries_ok m e' Hm2 He') as (B1 & _ & B2 & _). destruct (partKey_inj _ _ _ _ A1 B1 A2 B2 (f_equal fst Ekv)) as [E _].
      rewrite (proj1 (meta_entries_id m e' He')) in E. congruence.
    + intros E. cbn [entry_kv fst] in E. destruct (partKey_inj _ _ _ _ A1 Hu A2 (proj1 (proj2 (proj2 Hok0))) E) as [_ Es]. done.
Qed.
End Ops.
