(* ===== verification/Clients.v ===== *)
(** The manager clients (manager/smclient/sm_client.go, manager/pmclient/
    pm_client.go): a request goes to the manager that answered last and then to
    the next ones in turn, until one answers or two rounds have passed. *)
From Stdlib Require Import ZArith Lia Strings.String.
From stdpp Require Import base option list numbers gmap sorting strings.
From S2P Require Import Prelude GoLib Utils Proto ProtoSub ProtoPs ProtoSm ProtoPm Etcd EtcdSpec StreamManager StreamManagerSpec StreamManagerOps PartitionManager PartitionManagerRun.

(** what a remote call returns: an answer, an error of the caller's context, or
    another error *)
Inductive rpc (A : Type) := Reply (a : A) | Canceled (e : error) | Failed (e : error).
Arguments Reply {A} a.
Arguments Canceled {A} e.
Arguments Failed {A} e.

(** ** smclient *)

(** a connection may be nil *)
Record SMClient := mkSMC { sm_conns : list bool; sm_lastLeader : Z }.

Section Loop.
Context {W A : Type}.
(** the call of the [k]-th iteration to the manager at index [i] *)
Variable call : nat -> Z -> W -> W * rpc A.

(** the loop all methods have *)
Fixpoint sm_loop (conns : list bool) (loops k : nat) (current : Z) (w : W) : W * outcome (Z * A) :=
  match loops with
  | O => (w, Err (Errorf "timeout"))
  | S loops =>
      match conns !! Z.to_nat current with
      | None => (w, Panic)
      | Some false => sm_loop conns loops (S k) current w
      | Some true =>
          match call k current w with
          | (w, Canceled e) => (w, Err e)
          | (w, Failed _) => sm_loop conns loops (S k) ((current + 1) mod zlen conns) w
          | (w, Reply a) => (w, Ok (current, a))
          end
      end
  end.
Definition sm_try (c : SMClient) (w : W) : W * outcome (SMClient * A) :=
  match sm_loop (sm_conns c) (length (sm_conns c) * 2) 0 (sm_lastLeader c) w with
  | (w, Ok (current, a)) => (w, Ok (mkSMC (sm_conns c) current, a))
  | (w, Err e) => (w, Err e)
  | (w, Panic) => (w, Panic)
  end.

(** no answer ever comes *)
Lemma sm_loop_unanswered (I : W -> Prop) : (forall k i w, I w -> I (fst (call k i w)) /\ forall a, snd (call k i w) <> Reply a) ->
  forall conns loops k current w, I w -> I (fst (sm_loop conns loops k current w)) /\ forall r, snd (sm_loop conns loops k current w) <> Ok r.
Proof using.
  intros Hcall conns loops. induction loops as [|loops IH]; intros k current w Hw; cbn [sm_loop]; [done|].
  destruct (conns !! Z.to_nat current) as [[]|]; [|by apply IH|done]. destruct (Hcall k current w Hw) as [Hw' Hno].
  destruct (call k current w) as [w' [a|e|e]]; cbn [fst snd] in *; [by destruct (Hno a)|done|by apply IH].
Qed.

Lemma sm_loop_no_panic conns loops : forall k current w, 0 <= current < zlen conns -> snd (sm_loop conns loops k current w) <> Panic.
Proof using.
  induction loops as [|loops IH]; intros k current w Hc; cbn [sm_loop]; [done|].
  destruct (lookup_lt_is_Some_2 conns (Z.to_nat current)) as [[] E]; [unfold zlen in *; lia|rewrite E..]; [|by apply IH].
  destruct (call k current w) as [w' [a|e|e]]; [done|done|]. apply IH. apply Z.mod_pos_bound. lia.
Qed.

(** every manager but the one at [l] refuses *)
Variable l : Z.
Variables (w w' : W) (a : A).
Hypothesis refused : forall k i, 0 <= i -> i <> l -> exists e, call k i w = (w, Failed e).
Hypothesis answered : forall k, call k l w = (w', Reply a).

Lemma sm_loop_finds conns d : forall loops k current, Forall (fun c => c = true) conns -> 0 <= l < zlen conns -> 0 <= current < zlen conns ->
  l = (current + Z.of_nat d) mod zlen conns -> (d < length conns)%nat -> (d < loops)%nat ->
  sm_loop conns loops k current w = (w', Ok (l, a)).
Proof using refused answered.
  induction d as [|d IH]; intros [|loops] k current Hc Hl Hcur Hd Hlt Hn; try lia; cbn [sm_loop].
  - assert (exists c, conns !! Z.to_nat current = Some c /\ c = true) as (c & -> & ->).
    { destruct (lookup_lt_is_Some_2 conns (Z.to_nat current)) as [c E]; [unfold zlen in *; lia|]. exists c. split; [done|]. rewrite Forall_lookup in Hc. by eapply Hc. }
    rewrite Z.add_0_r, Z.mod_small in Hd by lia. subst current. by rewrite answered.
  - assert (exists c, conns !! Z.to_nat current = Some c /\ c = true) as (c & -> & ->).
    { destruct (lookup_lt_is_Some_2 conns (Z.to_nat current)) as [c E]; [unfold zlen in *; lia|]. exists c. split; [done|]. rewrite Forall_lookup in Hc. by eapply Hc. }
    destruct (decide (current = l)) as [->|Hne]; [by rewrite answered|]. destruct (refused k current ltac:(lia) Hne) as [e ->].
    apply IH; [done|done|apply Z.mod_pos_bound; lia| |lia|lia]. rewrite Hd, Z.add_mod_idemp_l by lia. f_equal. lia.
Qed.
Lemma sm_try_finds c : Forall (fun x => x = true) (sm_conns c) -> 0 <= l < zlen (sm_conns c) -> 0 <= sm_lastLeader c < zlen (sm_conns c) ->
  sm_try c w = (w', Ok (mkSMC (sm_conns c) l, a)).
Proof using refused answered.
  intros Hc Hl Hlast. unfold sm_try. rewrite (sm_loop_finds (sm_conns c) (Z.to_nat ((l - sm_lastLeader c) mod zlen (sm_conns c)))); [done|done|done|done|..];
    pose proof (Z.mod_pos_bound (l - sm_lastLeader c) (zlen (sm_conns c)) ltac:(lia)) as Hm.
  - rewrite Z2Nat.id, Z.add_mod_idemp_r by lia. rewrite Z.mod_small by lia. lia.
  - unfold zlen in *. lia.
  - unfold zlen in *. lia.
Qed.
End Loop.

(** *** The requests *)

Inductive sm_request :=
  | ReqRegisterNode (addr : bytes)
  | ReqCreateStream
  | ReqStreamAllocExtent (streamID extentToSeal : Z)
  | ReqNodesInfo
  | ReqExtentInfo (extentIDs : list Z)
  | ReqStreamInfo (streamIDs : option (list Z))
  | ReqTruncate (streamID extentID : Z).
Inductive sm_response :=
  | ResNode (id : Z)
  | ResStream (s : StreamInfo)
  | ResExtent (x : ExtentInfo)
  | ResNodes (ns : gmap Z NodeInfo)
  | ResExtents (xs : gmap Z (option ExtentInfo))
  | ResStreams (ss : gmap Z StreamInfo) (xs : gmap Z (option ExtentInfo))
  | ResCode (c : StreamManager.Code).
(** what happens to one attempt: the fate of the call and of the manager's etcd
    messages, which nodes answer, whether it is still the leader, the clock *)
Record sm_env := mkEnv { ev_call : net; ev_n1 : net; ev_n2 : net; ev_n3 : net; ev_answer : NodeStatus -> bool; ev_still : bool; ev_now : Z }.

Section SM.
Context `{GoOrder}.

Definition keep {R} (sm : StreamManager) (o : outcome R) : tx (StreamManager * R) := tret (let! r := o in Ok (sm, r)).
Definition respond {R} (k : R -> sm_response) (m : tx (StreamManager * R)) : tx (StreamManager * sm_response) :=
  let* (sm, r) := m in tret (Ok (sm, k r)).
Definition sm_handle (e : sm_env) (req : sm_request) (sm : StreamManager) : tx (StreamManager * sm_response) :=
  match req with
  | ReqRegisterNode addr => respond ResNode (RegisterNode sm (ev_n1 e) (ev_n2 e) (ev_n3 e) (ev_now e) addr)
  | ReqCreateStream => respond ResStream (CreateStream sm (ev_n1 e) (ev_n2 e) (ev_n3 e) (ev_answer e) (ev_still e))
  | ReqStreamAllocExtent s x => respond ResExtent (StreamAllocExtent sm (ev_n1 e) (ev_n2 e) (ev_n3 e) (ev_answer e) (ev_still e) s x)
  | ReqNodesInfo => respond ResNodes (keep sm (NodesInfo sm))
  | ReqExtentInfo ids => respond ResExtents (keep sm (sm_ExtentInfo sm ids))
  | ReqStreamInfo ids => respond (fun '(ss, xs) => ResStreams ss xs) (keep sm (sm_StreamInfo sm ids))
  | ReqTruncate s x => respond ResCode (sm_Truncate sm (ev_n1 e) s x)
  end.
Definition errUnavailable : error := Errorf "unavailable".
(** the managers, one per address, over one etcd *)
Definition sm_world : Type := list StreamManager * etcd.
Definition sm_serve (env : nat -> sm_env) (req : sm_request) (k : nat) (i : Z) (w : sm_world) : sm_world * rpc sm_response :=
  let '(sms, db) := w in
  match sms !! Z.to_nat i, ev_call (env k) with
  | None, _ | _, Lost => (w, Failed errUnavailable)
  | Some sm, d =>
      match sm_handle (env k) req sm db with
      | (db, Ok (sm, r)) => ((<[Z.to_nat i := sm]> sms, db), match d with Delivered => Reply r | _ => Failed errUnavailable end)
      | (db, Err e) => ((sms, db), Failed e)
      | (db, Panic) => ((<[Z.to_nat i := crashed sm]> sms, db), Failed errUnavailable)
      end
  end.
(** the code of a truncation is turned into an error *)
Definition errTruncateNoMatch : error := Errorf "truncateNoMatch".
Definition sm_request_call (env : nat -> sm_env) (c : SMClient) (req : sm_request) (w : sm_world) : sm_world * outcome (SMClient * sm_response) :=
  match sm_try (sm_serve env req) c w with
  | (w, Ok (c', ResCode StreamManager.Code_TruncateNotMatch)) => (w, Err errTruncateNoMatch)
  | r => r
  end.

(** the methods: each is the loop over its own call *)
Definition expect {R} (proj : sm_response -> option R) (r : sm_world * outcome (SMClient * sm_response)) : sm_world * outcome (SMClient * R) :=
  let '(w, o) := r in (w, let! (c, r) := o in match proj r with Some x => Ok (c, x) | None => Panic end).
Definition smc_RegisterNode (env : nat -> sm_env) (addr : bytes) (c : SMClient) (w : sm_world) : sm_world * outcome (SMClient * Z) :=
  expect (fun r => match r with ResNode id => Some id | _ => None end) (sm_request_call env c (ReqRegisterNode addr) w).
Definition smc_CreateStream (env : nat -> sm_env) (c : SMClient) (w : sm_world) : sm_world * outcome (SMClient * StreamInfo) :=
  expect (fun r => match r with ResStream s => Some s | _ => None end) (sm_request_call env c ReqCreateStream w).
Definition smc_StreamAllocExtent (env : nat -> sm_env) (streamID extentToSeal : Z) (c : SMClient) (w : sm_world) : sm_world * outcome (SMClient * ExtentInfo) :=
  expect (fun r => match r with ResExtent x => Some x | _ => None end) (sm_request_call env c (ReqStreamAllocExtent streamID extentToSeal) w).
Definition smc_NodesInfo (env : nat -> sm_env) (c : SMClient) (w : sm_world) : sm_world * outcome (SMClient * gmap Z NodeInfo) :=
  expect (fun r => match r with ResNodes ns => Some ns | _ => None end) (sm_request_call env c ReqNodesInfo w).
Definition smc_ExtentInfo (env : nat -> sm_env) (extentIDs : list Z) (c : SMClient) (w : sm_world) : sm_world * outcome (SMClient * gmap Z (option ExtentInfo)) :=
  expect (fun r => match r with ResExtents xs => Some xs | _ => None end) (sm_request_call env c (ReqExtentInfo extentIDs) w).
Definition smc_StreamInfo (env : nat -> sm_env) (streamIDs : option (list Z)) (c : SMClient) (w : sm_world) : sm_world * outcome (SMClient * (gmap Z StreamInfo * gmap Z (option ExtentInfo))) :=
  expect (fun r => match r with ResStreams ss xs => Some (ss, xs) | _ => None end) (sm_request_call env c (ReqStreamInfo streamIDs) w).
Definition smc_TruncateStream (env : nat -> sm_env) (streamID extentID : Z) (c : SMClient) (w : sm_world) : sm_world * outcome (SMClient * unit) :=
  expect (fun r => match r with ResCode _ => Some tt | _ => None end) (sm_request_call env c (ReqTruncate streamID extentID) w).

Lemma sm_refuses e req sm db : isLeader sm = false -> sm_handle e req sm db = (db, Err errNotLeader).
Proof using.
  intros Hl. destruct req; unfold sm_handle, respond, keep, RegisterNode, CreateStream, StreamAllocExtent, NodesInfo, sm_ExtentInfo, sm_StreamInfo, sm_Truncate, tbind, tret; by rewrite Hl.
Qed.

Lemma request_reaches_leader env req c sms db l sm sm' db' r :
  Forall (fun x => x = true) (sm_conns c) -> length sms = length (sm_conns c) -> 0 <= sm_lastLeader c < zlen (sm_conns c) ->
  0 <= l < zlen (sm_conns c) -> sms !! Z.to_nat l = Some sm -> (forall j s, j <> Z.to_nat l -> sms !! j = Some s -> isLeader s = false) ->
  (forall k, ev_call (env k) = Delivered) -> (forall k, sm_handle (env k) req sm db = (db', Ok (sm', r))) ->
  r <> ResCode StreamManager.Code_TruncateNotMatch ->
  sm_request_call env c req (sms, db) = ((<[Z.to_nat l := sm']> sms, db'), Ok (mkSMC (sm_conns c) l, r)).
Proof using.
  intros Hc Hlen Hlast Hl Hsm Hothers Hcall Hh Hr. unfold sm_request_call.
  rewrite (sm_try_finds (sm_serve env req) l (sms, db) (<[Z.to_nat l := sm']> sms, db') r); [|..|done|done|done].
  - by destruct r as [| | | | | |[]].
  - intros k i Hi Hne. unfold sm_serve. destruct (sms !! Z.to_nat i) as [s|] eqn:Es; [|by eexists]. rewrite Hcall.
    rewrite (sm_refuses (env k) req s db (Hothers (Z.to_nat i) s ltac:(lia) Es)). by eexists.
  - intros k. unfold sm_serve. by rewrite Hsm, Hcall, Hh.
Qed.
(** Whichever manager the client asked last, a request whose calls are delivered reaches the
    one leader within one round: its answer is returned, only its state and etcd change, and it is
    remembered as the leader. *)
Theorem client_reaches_leader env req c sms db l sm sm' db' r :
  Forall (fun x => x = true) (sm_conns c) -> length sms = length (sm_conns c) -> 0 <= sm_lastLeader c < zlen (sm_conns c) ->
  0 <= l < zlen (sm_conns c) -> sms !! Z.to_nat l = Some sm -> (forall j s, j <> Z.to_nat l -> sms !! j = Some s -> isLeader s = false) ->
  (forall k, ev_call (env k) = Delivered) -> (forall k, sm_handle (env k) req sm db = (db', Ok (sm', r))) ->
  r <> ResCode StreamManager.Code_TruncateNotMatch ->
  sm_request_call env c req (sms, db) = ((<[Z.to_nat l := sm']> sms, db'), Ok (mkSMC (sm_conns c) l, r)).
Proof using. apply request_reaches_leader. Qed.

(** no manager ever answers a request for a new extent *)
Definition unlocked (w : sm_world) : Prop := Forall (fun sm => writer (streamLock sm) = 0) (fst w).
Lemma alloc_unanswered env s x c w : unlocked w -> 0 <= sm_lastLeader c < zlen (sm_conns c) ->
  exists w' e, sm_request_call env c (ReqStreamAllocExtent s x) w = (w', Err e) /\ unlocked w'.
Proof using.
  intros Hw Hr. unfold sm_request_call, sm_try. pose proof (sm_loop_no_panic (sm_serve env (ReqStreamAllocExtent s x)) (sm_conns c) (length (sm_conns c) * 2) 0 (sm_lastLeader c) w Hr) as Hp.
  destruct (sm_loop_unanswered (sm_serve env (ReqStreamAllocExtent s x)) unlocked) with (conns := sm_conns c) (loops := (length (sm_conns c) * 2)%nat) (k := 0%nat) (current := sm_lastLeader c) (w := w) as [H1' H2']; [|done|].
  - clear w Hw Hp. intros k i [sms db] Hw. unfold sm_serve. destruct (sms !! Z.to_nat i) as [sm|] eqn:Es; [|done].
    assert (writer (streamLock sm) = 0) as Hsm by (unfold unlocked in Hw; rewrite Forall_lookup in Hw; by eapply Hw).
    assert (forall sm', writer (streamLock sm') = 0 -> unlocked (<[Z.to_nat i := sm']> sms, db)) as Hins by (intros sm' Hs; by apply Forall_insert).
    destruct (ev_call (env k)); [|done|].
    all: destruct (sm_handle (env k) (ReqStreamAllocExtent s x) sm db) as [db' [[sm' r]|e|]] eqn:Eh; [|done|split; [by apply Hins|done]].
    all: unfold sm_handle, respond, tbind, tret in Eh; destruct (StreamAllocExtent _ _ _ _ _ _ _ _ db) as [db1 [[sm1 info]|e|]] eqn:Ea; try done; by apply StreamAllocExtent_no_answer in Ea.
  - destruct (sm_loop _ _ _ _ _ w) as [w' [[cur r]|e|]]; cbn [fst snd] in *; [by destruct (H2' (cur, r))|by exists w', e|done].
Qed.
End SM.

(** ** pmclient *)

Record AutumnPMClient := mkPMC { pm_conns : list bool; pm_lastLeader : Z; pm_lock : SafeMutex }.

Section PMLoop.
Context {W : Type}.
(** what [f] does in the [k]-th iteration with the connection at index [i]: [Ok true] to go on *)
Variable f : nat -> Z -> W -> W * outcome bool.
(** a nil connection leaves the iteration with the read lock held *)
Fixpoint pm_try_loop (c : AutumnPMClient) (loops k : nat) (current : Z) (lock : SafeMutex) (w : W) : W * outcome AutumnPMClient :=
  match loops with
  | O => (w, Ok (mkPMC (pm_conns c) (pm_lastLeader c) lock))
  | S loops =>
      match RLock lock with
      | Ok lock =>
          match pm_conns c !! Z.to_nat current with
          | None => (w, Panic)
          | Some false => pm_try_loop c loops (S k) current lock w
          | Some true =>
              match f k current w with
              | (w, Ok more) =>
                  match RUnlock lock with
                  | Ok lock =>
                      if more : bool then pm_try_loop c loops (S k) ((current + 1) mod zlen (pm_conns c)) lock w
                      else (w, Ok (mkPMC (pm_conns c) current lock))
                  | _ => (w, Panic)
                  end
              | (w, _) => (w, Panic)
              end
          end
      | _ => (w, Panic)
      end
  end.
Definition pm_try (c : AutumnPMClient) (w : W) : W * outcome AutumnPMClient :=
  match (let! lock := RLock (pm_lock c) in RUnlock lock) with
  | Ok lock => pm_try_loop c (length (pm_conns c) * 2) 0 (pm_lastLeader c) lock w
  | _ => (w, Panic)
  end.

Lemma pm_loop_leaks c loops : forall k lock w current, pm_conns c !! Z.to_nat current = Some false ->
  pm_try_loop c loops k current lock w = (w, Ok (mkPMC (pm_conns c) (pm_lastLeader c) (mkMutex (writer lock) (readers lock + Z.of_nat loops)))).
Proof using.
  induction loops as [|loops IH]; intros k lock w current Hc; cbn [pm_try_loop].
  - destruct lock. cbn. by rewrite Z.add_0_r.
  - cbn [RLock]. rewrite Hc, IH by done. cbn [writer readers]. do 4 f_equal. lia.
Qed.
Lemma pm_loop_finds c l w w' d : (forall k i, 0 <= i -> i <> l -> f k i w = (w, Ok true)) -> (forall k, f k l w = (w', Ok false)) ->
  forall loops k current lock, Forall (fun c => c = true) (pm_conns c) -> 0 <= l < zlen (pm_conns c) -> 0 <= current < zlen (pm_conns c) ->
  l = (current + Z.of_nat d) mod zlen (pm_conns c) -> (d < length (pm_conns c))%nat -> (d < loops)%nat ->
  pm_try_loop c loops k current lock w = (w', Ok (mkPMC (pm_conns c) l lock)).
Proof using.
  intros Href Hans. induction d as [|d IH]; intros [|loops] k current lock Hc Hl Hcur Hd Hlt Hn; try lia; cbn [pm_try_loop].
  all: destruct (lookup_lt_is_Some_2 (pm_conns c) (Z.to_nat current)) as [b E]; [unfold zlen in *; lia|].
  all: assert (b = true) as -> by (rewrite Forall_lookup in Hc; by eapply Hc); rewrite E; cbn [RLock].
  - rewrite Z.add_0_r, Z.mod_small in Hd by lia. subst current. rewrite Hans. cbn [RUnlock]. destruct lock. cbn. do 4 f_equal. lia.
  - destruct (decide (current = l)) as [->|Hne]; [rewrite Hans|rewrite Href by (lia || done)]; cbn [RUnlock writer readers].
    + destruct lock. cbn. do 4 f_equal. lia.
    + replace (mkMutex (writer lock) (readers lock + 1 - 1)) with lock by (destruct lock; cbn; f_equal; lia).
      apply IH; [done|done|apply Z.mod_pos_bound; lia| |lia|lia]. rewrite Hd, Z.add_mod_idemp_l by lia. f_equal. lia.
Qed.
Lemma pm_try_finds c l w w' : (forall k i, 0 <= i -> i <> l -> f k i w = (w, Ok true)) -> (forall k, f k l w = (w', Ok false)) ->
  Forall (fun c => c = true) (pm_conns c) -> 0 <= l < zlen (pm_conns c) -> 0 <= pm_lastLeader c < zlen (pm_conns c) ->
  pm_try c w = (w', Ok (mkPMC (pm_conns c) l (pm_lock c))).
Proof using.
  intros Href Hans Hc Hl Hlast. unfold pm_try. cbn [RLock RUnlock obind writer readers].
  replace (mkMutex (writer (pm_lock c)) (readers (pm_lock c) + 1 - 1)) with (pm_lock c) by (destruct (pm_lock c); cbn; f_equal; lia).
  pose proof (Z.mod_pos_bound (l - pm_lastLeader c) (zlen (pm_conns c)) ltac:(lia)) as Hm.
  apply (pm_loop_finds c l w w' (Z.to_nat ((l - pm_lastLeader c) mod zlen (pm_conns c)))); try done.
  - rewrite Z2Nat.id, Z.add_mod_idemp_r by lia. rewrite Z.mod_small; lia.
  - unfold zlen in *. lia.
  - unfold zlen in *. lia.
Qed.
(** every call fails *)
Lemma pm_loop_fails c w loops : (forall k i, f k i w = (w, Ok true)) -> Forall (fun x => x = true) (pm_conns c) ->
  forall k current lock, 0 <= current < zlen (pm_conns c) -> pm_try_loop c loops k current lock w = (w, Ok (mkPMC (pm_conns c) (pm_lastLeader c) lock)).
Proof using.
  intros Hf Hc. induction loops as [|loops IH]; intros k current lock Hcur; cbn [pm_try_loop]; [done|].
  destruct (lookup_lt_is_Some_2 (pm_conns c) (Z.to_nat current)) as [b E]; [unfold zlen in *; lia|].
  assert (b = true) as -> by (rewrite Forall_lookup in Hc; by eapply Hc). rewrite E. cbn [RLock]. rewrite Hf. cbn [RUnlock writer readers].
  replace (mkMutex (writer lock) (readers lock + 1 - 1)) with lock by (destruct lock; cbn; f_equal; lia). apply IH. apply Z.mod_pos_bound. lia.
Qed.
End PMLoop.

(** *** The methods *)

Record pm_env := mkPEnv { pe_call : net; pe_n1 : net; pe_n2 : net; pe_n3 : net }.
Definition pm_world : Type := list PartitionManager * etcd.
(** the call of a handler at the manager with index [i] *)
Definition pm_serve {R} (h : PartitionManager -> tx (PartitionManager * R)) (d : net) (i : Z) (w : pm_world) : pm_world * (R + error) :=
  let '(pms, db) := w in
  match pms !! Z.to_nat i, d with
  | None, _ | _, Lost => (w, inr errUnavailable)
  | Some pm, d =>
      match h pm db with
      | (db, Ok (pm, r)) => ((<[Z.to_nat i := pm]> pms, db), match d with Delivered => inl r | _ => inr errUnavailable end)
      | (db, Err e) => ((pms, db), inr e)
      | (db, Panic) => ((<[Z.to_nat i := pm_crashed pm]> pms, db), inr errUnavailable)
      end
  end.

Section PM.
Context `{GoOrder}.
Variable env : nat -> pm_env.

(** the error of the closure hides the one that is returned, which stays nil; an
    answer with another code dereferences the nil error *)
Definition client_SetRowStreamTables (c : AutumnPMClient) (id : Z) (tables : list Location) (w : pm_world) : pm_world * outcome (AutumnPMClient * option error) :=
  let f k i w :=
    match pm_serve (fun pm => SetRowStreamTables pm (pe_n1 (env k)) (Some (mkTL tables)) id) (pe_call (env k)) i w with
    | (w, inr _) => (w, Ok true)
    | (w, inl PM_OK) => (w, Ok false)
    | (w, inl _) => (w, Panic)
    end in
  let '(w, r) := pm_try f c w in
  (w, let! c := r in Ok (c, None)).
(** the closures' variables travel with the world *)
Definition client_GetPartitionMeta (c : AutumnPMClient) (psid : Z) (w : pm_world) : pm_world * outcome (AutumnPMClient * list PartitionMeta) :=
  let f k i '(ret, w) :=
    match pm_serve (fun pm => tret (Ok (pm, GetPartitionMeta pm psid))) (pe_call (env k)) i w with
    | (w, inl (PM_OK, metas)) => ((metas, w), Ok false)
    | (w, _) => ((ret, w), Ok true)
    end in
  let '(ret, w, r) := pm_try f c ([], w) in
  (w, let! c := r in Ok (c, ret)).
Definition client_Bootstrap (c : AutumnPMClient) (logID rowID psID : Z) (w : pm_world) : pm_world * outcome (AutumnPMClient * (Z + error)) :=
  let f k i '(ret, w) :=
    match pm_serve (fun pm => Bootstrap pm (pe_n1 (env k)) (pe_n2 (env k)) (pe_n3 (env k)) logID rowID psID) (pe_call (env k)) i w with
    | (w, inl partID) => ((inl partID, w), Ok false)
    | (w, inr _) => ((ret, w), Ok true)
    end in
  let '(ret, w, r) := pm_try f c (inr (Errorf "unknow err"), w) in
  (w, let! c := r in Ok (c, ret)).
Definition client_GetPSInfo (c : AutumnPMClient) (w : pm_world) : pm_world * outcome (AutumnPMClient * list PSDetail) :=
  let f k i '(ret, w) :=
    match pm_serve (fun pm => tret (let! r := GetPSInfo pm in Ok (pm, r))) (pe_call (env k)) i w with
    | (w, inl servers) => ((servers, w), Ok false)
    | (w, inr _) => ((ret, w), Ok true)
    end in
  let '(ret, w, r) := pm_try f c ([], w) in
  (w, let! c := r in Ok (c, ret)).
Definition client_GetRegions (c : AutumnPMClient) (w : pm_world) : pm_world * outcome (AutumnPMClient * list RegionInfo) :=
  let f k i '(ret, w) :=
    match pm_serve (fun pm => tret (let! r := GetRegions pm in Ok (pm, r))) (pe_call (env k)) i w with
    | (w, inl (PM_OK, regions)) => ((regions, w), Ok false)
    | (w, _) => ((ret, w), Ok true)
    end in
  let '(ret, w, r) := pm_try f c ([], w) in
  (w, let! c := r in Ok (c, ret)).
(** a code other than OK is logged, and the id used all the same *)
Definition client_RegisterSelf (c : AutumnPMClient) (address : bytes) (w : pm_world) : pm_world * outcome (AutumnPMClient * (Z + error)) :=
  let f k i '(ret, w) :=
    match pm_serve (fun pm => RegisterPS pm (pe_n1 (env k)) (pe_n2 (env k)) (pe_n3 (env k)) address) (pe_call (env k)) i w with
    | (w, inl (_, id)) => ((inl id, w), Ok false)
    | (w, inr e) => ((inr e, w), Ok true)
    end in
  let '(ret, w, r) := pm_try f c (inr (Errorf "error"), w) in
  (w, let! c := r in Ok (c, ret)).

(** ** What callers can rely on *)

Lemma pm_serve_reply {R} (h : PartitionManager -> tx (PartitionManager * R)) i pms db pm db' pm' r : pms !! Z.to_nat i = Some pm ->
  h pm db = (db', Ok (pm', r)) -> pm_serve h Delivered i (pms, db) = ((<[Z.to_nat i := pm']> pms, db'), inl r).
Proof using. intros Hpm Hh. unfold pm_serve. by rewrite Hpm, Hh. Qed.
Lemma pm_serve_refused {R} (h : PartitionManager -> tx (PartitionManager * R)) i pms db : (forall pm, pms !! Z.to_nat i = Some pm -> exists e, h pm db = (db, Err e)) ->
  exists e, pm_serve h Delivered i (pms, db) = ((pms, db), inr e).
Proof using.
  intros Hh. unfold pm_serve. destruct (pms !! Z.to_nat i) as [pm|] eqn:E; [|by eexists]. destruct (Hh pm eq_refl) as [e ->]. by eexists.
Qed.
(** the managers behind the client: one leader, at [l] *)
Record pm_managers (c : AutumnPMClient) (pms : list PartitionManager) (l : Z) (pm : PartitionManager) : Prop := mk_managers {
  mg_conns : Forall (fun x => x = true) (pm_conns c);
  mg_len : length pms = length (pm_conns c);
  mg_last : 0 <= pm_lastLeader c < zlen (pm_conns c);
  mg_range : 0 <= l < zlen (pm_conns c);
  mg_leader : pms !! Z.to_nat l = Some pm /\ pm_isLeader pm = true;
  mg_others : forall j p, j <> Z.to_nat l -> pms !! j = Some p -> pm_isLeader p = false }.

Lemma Bootstrap_refuses pm n1 n2 n3 a b p db : pm_isLeader pm = false -> Bootstrap pm n1 n2 n3 a b p db = (db, Err pm_errNotLeader).
Proof using. intros Hl. unfold Bootstrap. by rewrite Hl. Qed.
Lemma RegisterPS_refuses pm n1 n2 n3 a db : pm_isLeader pm = false -> RegisterPS pm n1 n2 n3 a db = (db, Err pm_errNotLeader).
Proof using. intros Hl. unfold RegisterPS. by rewrite Hl. Qed.

(** Bootstrap of the client reaches the leader and returns the id of the new partition. *)
Theorem client_Bootstrap_reaches_leader c pms db l pm pm' db' partID logID rowID psID :
  pm_managers c pms l pm -> (forall k, pe_call (env k) = Delivered) ->
  (forall k, Bootstrap pm (pe_n1 (env k)) (pe_n2 (env k)) (pe_n3 (env k)) logID rowID psID db = (db', Ok (pm', partID))) ->
  client_Bootstrap c logID rowID psID (pms, db) = ((<[Z.to_nat l := pm']> pms, db'), Ok (mkPMC (pm_conns c) l (pm_lock c), inl partID)).
Proof using.
  intros [Hc Hlen Hlast Hl [Hpm _] Hoth] Hcall Hb. unfold client_Bootstrap.
  rewrite (pm_try_finds _ c l (inr (Errorf "unknow err"), (pms, db)) (inl partID, (<[Z.to_nat l := pm']> pms, db'))); [done|..|done|done|done].
  - intros k i Hi Hne. rewrite Hcall. match goal with |- context [pm_serve ?h _ _ _] => destruct (pm_serve_refused h i pms db) as [e ->]; [|done] end.
    intros p Hp. rewrite (Bootstrap_refuses p); [by eexists|]. apply (Hoth (Z.to_nat i) p); [lia|done].
  - intros k. rewrite Hcall. match goal with |- context [pm_serve ?h _ _ _] => rewrite (pm_serve_reply h l pms db pm db' pm' partID) end; [done|done|apply Hb].
Qed.

(** SetRowStreamTables of the partition manager client returns nil when no manager answered,
    and panics when the manager asked is not the leader. *)
Theorem client_SetRowStreamTables_errors c id tables pms db : Forall (fun x => x = true) (pm_conns c) -> 0 <= pm_lastLeader c < zlen (pm_conns c) ->
  ((forall k, pe_call (env k) = Lost) -> client_SetRowStreamTables c id tables (pms, db) = ((pms, db), Ok (c, None))) /\
  (forall pm, pms !! Z.to_nat (pm_lastLeader c) = Some pm -> pm_isLeader pm = false -> pe_call (env 0%nat) = Delivered ->
    exists w, client_SetRowStreamTables c id tables (pms, db) = (w, Panic)).
Proof using.
  intros Hc Hlast. split.
  - intros Hlost. unfold client_SetRowStreamTables, pm_try. cbn [RLock RUnlock obind writer readers].
    replace (mkMutex (writer (pm_lock c)) (readers (pm_lock c) + 1 - 1)) with (pm_lock c) by (destruct (pm_lock c); cbn; f_equal; lia).
    rewrite pm_loop_fails; [by destruct c| |done|done]. intros k i. rewrite Hlost. unfold pm_serve. by destruct (pms !! Z.to_nat i).
  - intros pm Hpm Hl Hd. unfold client_SetRowStreamTables, pm_try. cbn [RLock RUnlock obind writer readers].
    destruct (length (pm_conns c) * 2)%nat as [|n] eqn:En; [unfold zlen in *; lia|]. cbn [pm_try_loop RLock].
    destruct (lookup_lt_is_Some_2 (pm_conns c) (Z.to_nat (pm_lastLeader c))) as [b E]; [unfold zlen in *; lia|].
    assert (b = true) as -> by (rewrite Forall_lookup in Hc; by eapply Hc). rewrite E, Hd. unfold pm_serve, SetRowStreamTables. rewrite Hpm, Hl. cbn. by eexists.
Qed.
End PM.
