(* ===== verification/NodeRun.v ===== *)
(** An extent node over its life (node/node.go: RegisterNode, LoadExtents;
    node_service.go: formatExtentName): the id it keeps in a file, and what a
    node that died finds on its disk when it starts again. *)
From Stdlib Require Import ZArith Lia Strings.String.
From stdpp Require Import base option list numbers gmap sorting strings.
From S2P Require Import Prelude GoLib Utils Proto ProtoPs ProtoSm Extent Node Etcd EtcdSpec StreamManager StreamManagerSpec Stream PartitionParse Clients.

(** ** RegisterNode *)

Section Register.
Context `{GoOrder}.
(** the environment of every attempt *)
Variable env : nat -> nat -> sm_env.

(** the loop; the twelfth failure ends the process *)
Fixpoint register_loop (attempts k : nat) (addr : bytes) (c : SMClient) (w : sm_world) : sm_world * outcome (SMClient * Z) :=
  match attempts with
  | O => (w, Panic)
  | S attempts =>
      match smc_RegisterNode (env k) addr c w with
      | (w, Ok r) => (w, Ok r)
      | (w, Err _) => register_loop attempts (S k) addr c w
      | (w, Panic) => (w, Panic)
      end
  end.
(** [file] is the content of the file node_id, [None] when it cannot be read,
    [writable] whether it can be written; after the connections are up *)
Definition node_RegisterNode (addr : bytes) (file : option string) (writable : bool) (c : SMClient) (w : sm_world) :
    sm_world * outcome (SMClient * option string * Z) :=
  match file with
  | Some idString =>
      match ParseUint idString with
      | Ok id => (w, Ok (c, file, id))
      | _ => (w, Panic)
      end
  | None =>
      match register_loop 12 0 addr c w with
      | (w, Ok (c, id)) => if writable then (w, Ok (c, Some (format_uint id), id)) else (w, Panic)
      | (w, _) => (w, Panic)
      end
  end.

(** a node that has its id asks nobody *)
Lemma registered_node addr id writable c w : is_u64 id -> node_RegisterNode addr (Some (format_uint id)) writable c w = (w, Ok (c, Some (format_uint id), id)).
Proof using. intros Hid. unfold node_RegisterNode. by rewrite ParseUint_format. Qed.

Lemma RegisterNode_delivered b sm db S E N next now addr : sm_inv (Datatypes.S b) sm db S E N next -> isLeader sm = true -> hasDuplicateAddr sm addr = false -> zlen addr < 2 ^ 40 ->
  exists sm' db', RegisterNode sm Delivered Delivered Delivered now addr db = (db', Ok (sm', next)) /\ isLeader sm' = true /\ sm_inv b sm' db' S E (<[next := mkNI next addr]> N) (next + 1).
Proof using.
  intros Hi El Ed Hz. pose proof (RegisterNode_ok b sm db Delivered Delivered Delivered now addr ltac:(do 4 eexists; exact Hi) Hz) as Hh.
  destruct (si_mem _ _ _ _ _ _ _ Hi El) as (HS & HE & HN & Hkey). pose proof (si_room _ _ _ _ _ _ _ Hi) as Hroom.
  pose proof (do_next _ _ _ _ _ (si_db _ _ _ _ _ _ _ Hi)) as Hnx. pose proof (proj1 Hnx) as Hn1. pose proof (si_key _ _ _ _ _ _ _ Hi) as Hok.
  destruct (EtcdAllocUniqID_ok db idKey next 1 Hnx ltac:(lia) ltac:(lia)) as (db1 & Ea & Hnx1 & Hk).
  pose proof (sm_inv_alloc b sm db db1 S E N next (next + 1) Hi Hnx1 ltac:(lia) Hk) as Hi1. destruct (si_mem _ _ _ _ _ _ _ Hi1 El) as (_ & _ & _ & Hkey1).
  unfold RegisterNode. rewrite El, Ed. cbn [negb]. unfold tbind at 1, allocUniqID. rewrite Ea.
  assert (is_u64 next) as Hu by (unfold is_u64; lia). rewrite NodeInfo_Marshal_bytes by done. unfold tbind, tret. cbn [must].
  unfold EtctSetKVS, Commit, txn, leader_guard. cbn [forallb cmp_holds]. rewrite bool_decide_true by done. cbn [andb negb foldl apply_op].
  do 2 eexists. split; [done|]. split; [done|]. split; [|lia| |done|apply Hi].
  - apply (db_ok_register db1 S E N next (next + 1) addr (si_db _ _ _ _ _ _ _ Hi1)); [lia|done|lia|done| |].
    + rewrite <- HN. by apply no_duplicate.
    + intros id n Hx. destruct (cl_nodes _ _ _ _ (do_cluster _ _ _ _ _ (si_db _ _ _ _ _ _ _ Hi)) id n Hx) as (_ & Hlt). lia.
  - intros _. cbn [addNode with_maps streams extents nodes leaderKey memberValue]. rewrite fmap_insert, HN, HS, HE. cbn [ns_info].
    split; [done|]. split; [done|]. split; [done|]. rewrite lookup_insert_ne by (by apply other_node). done.
Qed.

(** every message arrives and the manager stays the leader *)
Definition smooth (e : sm_env) : Prop :=
  ev_call e = Delivered /\ ev_n1 e = Delivered /\ ev_n2 e = Delivered /\ ev_n3 e = Delivered /\ (forall n, ev_answer e n = true) /\ ev_still e = true.
(** the stream managers behind a client: one leader, at [l] *)
Record sm_managers (c : SMClient) (sms : list StreamManager) (l : Z) (sm : StreamManager) : Prop := mk_sm_managers {
  sg_conns : Forall (fun x => x = true) (sm_conns c);
  sg_len : length sms = length (sm_conns c);
  sg_last : 0 <= sm_lastLeader c < zlen (sm_conns c);
  sg_range : 0 <= l < zlen (sm_conns c);
  sg_leader : sms !! Z.to_nat l = Some sm /\ isLeader sm = true;
  sg_others : forall j s, j <> Z.to_nat l -> sms !! j = Some s -> isLeader s = false }.

(** A node without an id file reaches the leading stream manager, which adds it under an id no
    node has, in memory and in etcd, and writes the id to the file; when it starts again, with any
    address and any managers, it reads the same id and asks nobody. *)
Theorem node_registers_once c sms db l sm S E N next addr : sm_managers c sms l sm -> sm_inv 1 sm db S E N next -> (forall k, smooth (env 0%nat k)) -> (forall k k', ev_now (env 0%nat k) = ev_now (env 0%nat k')) ->
  hasDuplicateAddr sm addr = false -> zlen addr < 2 ^ 40 ->
  N !! next = None /\
  exists sm' db', node_RegisterNode addr None true c (sms, db) = ((<[Z.to_nat l := sm']> sms, db'), Ok (mkSMC (sm_conns c) l, Some (format_uint next), next)) /\
    NodesInfo sm' = Ok (<[next := mkNI next addr]> N) /\ sm_inv 0 sm' db' S E (<[next := mkNI next addr]> N) (next + 1) /\
    forall addr' writable c' w, node_RegisterNode addr' (Some (format_uint next)) writable c' w = (w, Ok (c', Some (format_uint next), next)).
Proof using.
  intros [Hc Hlen Hlast Hl [Hsm El] Hoth] Hi Henv Hnow Hd Hz. pose proof (do_next _ _ _ _ _ (si_db _ _ _ _ _ _ _ Hi)) as Hnx. pose proof (proj1 Hnx) as Hn1. pose proof (si_room _ _ _ _ _ _ _ Hi) as Hroom.
  split. { destruct (N !! next) as [n|] eqn:En; [|done]. destruct (cl_nodes _ _ _ _ (do_cluster _ _ _ _ _ (si_db _ _ _ _ _ _ _ Hi)) next n En) as (_ & Hx). lia. }
  destruct (RegisterNode_delivered 0 sm db S E N next (ev_now (env 0%nat 0%nat)) addr Hi El Hd Hz) as (sm' & db' & Eh & El' & Hi'). exists sm', db'. split; [|split; [|split; [done|]]].
  - unfold node_RegisterNode. cbn [register_loop]. unfold smc_RegisterNode.
    rewrite (request_reaches_leader (env 0%nat) (ReqRegisterNode addr) c sms db l sm sm' db' (ResNode next)); try done; [intros k; apply Henv|].
    intros k. destruct (Henv k) as (_ & E1 & E2 & E3 & _). unfold sm_handle, respond, tbind, tret. rewrite E1, E2, E3, (Hnow k 0%nat), Eh. done.
  - unfold NodesInfo. rewrite El'. cbn [negb]. unfold cloneNodesInfo. by destruct (si_mem _ _ _ _ _ _ _ Hi' El') as (_ & _ & -> & _).
  - intros addr' writable c' w. apply registered_node. unfold is_u64. lia.
Qed.
End Register.

(** ** Starting again *)

Definition node_extentName (id : Z) : string := String.append "extent_" (String.append (format_uint id) ".ext").

Lemma HasSuffix_refl s : HasSuffix s s = true.
Proof. destruct s; cbn [HasSuffix]; by rewrite String.eqb_refl. Qed.
Lemma HasSuffix_append p s : HasSuffix (String.append p s) s = true.
Proof. induction p as [|a p IH]; [apply HasSuffix_refl|]. change (String.append (String a p) s) with (String a (String.append p s)). cbn [HasSuffix]. by rewrite IH, orb_true_r. Qed.
Lemma extentName_suffix id : HasSuffix (node_extentName id) ".ext" = true.
Proof. unfold node_extentName. rewrite <- append_assoc. apply HasSuffix_append. Qed.

(** the extents of a node, each under its id and with the blocks [held] *)
Definition node_ok (en : ExtentNode) (held : Z -> list Block) : Prop :=
  forall id ex, en !! id = Some ex -> ID ex = id /\ extent_inv ex (held id) /\ is_sealed (file ex) = IsSeal ex.
(** a sealed file stays; another may have grown by blocks that nobody was told of
    and by the beginning of one more *)
Definition left_by_crash (f f' : File) (bs more : list Block) : Prop :=
  if is_sealed f then f' = f /\ more = []
  else exists torn, seal_attr f' = seal_attr f /\ Forall block_wf more /\ content f' = content f ++ blocks_bytes more ++ torn /\ zlen (content f') < 2 ^ 32 /\
    (torn = [] \/ exists b cut, block_wf b /\ block_bytes b = torn ++ cut /\ cut <> []).
(** the directory: the files of the extents, and files of other names *)
Definition node_dir (en : ExtentNode) (disk : Z -> File) (dir : list (string * File)) : Prop :=
  (forall id ex, en !! id = Some ex -> (node_extentName id, disk id) ∈ dir) /\
  (forall name f, (name, f) ∈ dir -> HasSuffix name ".ext" = true -> exists id ex, en !! id = Some ex /\ name = node_extentName id /\ f = disk id).

Lemma open_sealed name f id bs : is_sealed f = true -> is_u64 id -> Forall block_wf bs -> content f = header_bytes id ++ blocks_bytes bs -> 512 + blocks_size bs < 2 ^ 32 ->
  exists ex, OpenExtent name (Some f) = Ok ex /\ extent_inv ex bs /\ isSeal ex = 1 /\ mutex ex = newMutex /\ ID ex = id /\ file ex = f.
Proof.
  intros Hs Hid Hwf Hc Hlt. assert (zlen (content f) = 512 + blocks_size bs) as Hz by (by rewrite Hc, zlen_app, zlen_header_bytes, zlen_blocks_bytes).
  pose proof (blocks_size_nonneg bs Hwf). unfold OpenExtent. rewrite Hs. destruct (Z.ltb_spec MaxUint32 (zlen (content f))) as [Hbig|_]; [unfold MaxUint32 in Hbig; lia|].
  replace (extentHeader_Unmarshal (content f)) with (Ok id) by (rewrite Hc; symmetry; by apply header_roundtrip). cbn [obind]. rewrite u32_small by lia.
  eexists. split; [done|]. split; [|done]. split; cbn [file ID commitLength]; try done; lia.
Qed.
(** one extent *)
Lemma reopened name ex bs f' more : extent_inv ex bs -> is_sealed (file ex) = IsSeal ex -> left_by_crash (file ex) f' bs more ->
  exists ex', OpenExtent name (Some f') = Ok ex' /\ ID ex' = ID ex /\ extent_inv ex' (bs ++ more) /\ isSeal ex' = (if IsSeal ex then 1 else 0) /\ is_sealed (file ex') = IsSeal ex' /\ mutex ex' = newMutex.
Proof.
  intros Hi Hs Hl. pose proof Hi as [Hc Hwf Hcm Hb Hid]. unfold left_by_crash in Hl. destruct (is_sealed (file ex)) eqn:Es.
  - destruct Hl as [-> ->]. rewrite app_nil_r. destruct (open_sealed name (file ex) (ID ex) bs Es Hid Hwf Hc ltac:(lia)) as (ex' & E & Hi' & Hseal & Hm & Eid & Ef).
    exists ex'. split; [done|]. split; [done|]. split; [done|]. rewrite <- Hs, Ef. unfold IsSeal. by rewrite Hseal.
  - destruct Hl as (torn & Ea & Hwf2 & Hc' & Hlen & Ht).
    destruct (OpenExtent_prefix name f' (ID ex) (bs ++ more) torn) as (ex' & E & Hi' & Hseal & Hm & Eid & Ea').
    + unfold is_sealed in *. by rewrite Ea.
    + done.
    + by apply Forall_app.
    + by rewrite Hc', Hc, blocks_bytes_app, <- !app_assoc.
    + done.
    + destruct Ht as [->|(b & cut & Hwb & Hb' & Hcut)]; [by left|right].
      destruct (readBlock_torn (content f') (512 + blocks_size (bs ++ more)) (header_bytes (ID ex) ++ blocks_bytes (bs ++ more)) b torn cut Hwb Hb' Hcut) as (e & He & _).
      * by rewrite Hc', Hc, blocks_bytes_app, <- !app_assoc.
      * by rewrite zlen_app, zlen_header_bytes, zlen_blocks_bytes by (by apply Forall_app).
      * by exists e.
    + exists ex'. split; [done|]. split; [done|]. split; [done|]. rewrite <- Hs. unfold IsSeal, is_sealed in *. by rewrite Hseal, Ea', Ea, Es.
Qed.
(** the loop *)
Lemma LoadExtents_ok (R : Z -> Extent -> Prop) dir : forall en, (forall name f, (name, f) ∈ dir -> HasSuffix name ".ext" = true -> exists ex, OpenExtent name (Some f) = Ok ex /\ R (ID ex) ex) ->
  exists en', LoadExtents en dir = Ok en' /\ (forall id ex, en' !! id = Some ex -> R id ex \/ en !! id = Some ex) /\
    (forall id, is_Some (en !! id) -> is_Some (en' !! id)) /\
    (forall name f ex, (name, f) ∈ dir -> HasSuffix name ".ext" = true -> OpenExtent name (Some f) = Ok ex -> is_Some (en' !! ID ex)).
Proof.
  induction dir as [|[name f] dir IH]; intros en Hdir; cbn [LoadExtents].
  { exists en. split; [done|]. split; [by right|]. split; [done|]. intros ? ? ? Hin. by apply elem_of_nil in Hin. }
  assert (forall n g, (n, g) ∈ dir -> HasSuffix n ".ext" = true -> exists ex, OpenExtent n (Some g) = Ok ex /\ R (ID ex) ex) as Hdir' by (intros n g Hin; apply Hdir; by right).
  destruct (HasSuffix name ".ext") eqn:Es.
  - destruct (Hdir name f ltac:(left) Es) as (ex & E & HR). rewrite E. destruct (IH (setExtent en (ID ex) ex) Hdir') as (en' & El & H1' & H2' & H3').
    exists en'. split; [done|]. unfold setExtent in *. split; [|split].
    + intros id ex' Hl. destruct (H1' id ex' Hl) as [|Hi]; [by left|]. destruct (decide (ID ex = id)) as [<-|Hne]; [|rewrite lookup_insert_ne in Hi by done; by right].
      rewrite lookup_insert_eq in Hi. injection Hi as <-. by left.
    + intros id Hid. apply H2'. destruct (decide (ID ex = id)) as [<-|Hne]; [by rewrite lookup_insert_eq|by rewrite lookup_insert_ne].
    + intros n g x [[= -> ->]|Hin]%elem_of_cons Hn Ex; [|by eapply H3']. assert (x = ex) as -> by congruence. apply H2'. by rewrite lookup_insert_eq.
  - destruct (IH en Hdir') as (en' & El & H1' & H2' & H3'). exists en'. split; [done|]. split; [done|]. split; [done|].
    intros n g x [[= -> ->]|Hin]%elem_of_cons Hn Ex; [congruence|by eapply H3'].
Qed.

(** C20: An extent node that died at any point of an append starts again with every extent it had
    under the same id, open or sealed as before, holding all the blocks it had acknowledged and
    those that reached the file complete, and without the block that was torn; what was replicated
    to it is still there, and files of other names are ignored. *)
Theorem node_restarts en held disk more dir : node_ok en held -> node_dir en disk dir ->
  (forall id ex, en !! id = Some ex -> left_by_crash (file ex) (disk id) (held id) (more id)) ->
  exists en', LoadExtents ∅ dir = Ok en' /\ node_ok en' (fun id => held id ++ more id) /\ dom en' = dom en /\
    (forall id ex, en !! id = Some ex -> exists ex', en' !! id = Some ex' /\ IsSeal ex' = IsSeal ex /\ mutex ex' = newMutex) /\
    forall cl p eid bs, cl !! p = Some en -> replica cl eid p bs -> replica (<[p := en']> cl) eid p (bs ++ more eid).
Proof.
  intros Hok [Hd1 Hd2] Hl.
  destruct (LoadExtents_ok (fun id ex' => exists ex, en !! id = Some ex /\ ID ex' = id /\ extent_inv ex' (held id ++ more id) /\ isSeal ex' = (if IsSeal ex then 1 else 0) /\ is_sealed (file ex') = IsSeal ex' /\ mutex ex' = newMutex) dir ∅)
    as (en' & E & H1' & _ & H3').
  - intros name f Hin Hs. destruct (Hd2 name f Hin Hs) as (id & ex & Hex & -> & ->). destruct (Hok id ex Hex) as (Hid & Hi & Hse).
    destruct (reopened (node_extentName id) ex (held id) (disk id) (more id) Hi Hse (Hl id ex Hex)) as (ex' & E & Eid & Hi' & Hs' & Hse' & Hm). rewrite Hid in Eid.
    exists ex'. split; [done|]. rewrite Eid. by exists ex.
  - assert (forall id ex, en !! id = Some ex -> exists ex', en' !! id = Some ex') as Hall.
    { intros id ex Hex. destruct (Hok id ex Hex) as (Hid & Hi & Hse). destruct (reopened (node_extentName id) ex (held id) (disk id) (more id) Hi Hse (Hl id ex Hex)) as (ex' & Eo & Eid & _).
      destruct (H3' (node_extentName id) (disk id) ex' (Hd1 id ex Hex) (extentName_suffix id) Eo) as [x Hx]. exists x. by rewrite <- Hx, Eid, Hid. }
    assert (forall id ex, en !! id = Some ex -> exists ex', en' !! id = Some ex' /\ extent_inv ex' (held id ++ more id) /\ isSeal ex' = (if IsSeal ex then 1 else 0) /\ mutex ex' = newMutex) as Hex'.
    { intros id ex Hex. destruct (Hall id ex Hex) as [ex' Hl']. exists ex'. split; [done|]. destruct (H1' id ex' Hl') as [(ex0 & Hex0 & _ & Hi & Hs & _ & Hm)|He]; [|by rewrite lookup_empty in He].
      assert (ex0 = ex) as -> by congruence. done. }
    exists en'. split; [done|]. split; [|split; [|split]].
    + intros id ex' Hl'. destruct (H1' id ex' Hl') as [(ex & _ & ? & ? & _ & ? & _)|He]; [done|by rewrite lookup_empty in He].
    + apply set_eq. intros id. rewrite !elem_of_dom. split.
      * intros [ex' Hl']. destruct (H1' id ex' Hl') as [(ex & Hex & _)|He]; [by exists ex|by rewrite lookup_empty in He].
      * intros [ex Hex]. by eapply Hall.
    + intros id ex Hex. destruct (Hex' id ex Hex) as (ex' & ? & _ & Hs & ?). exists ex'. split; [done|]. split; [|done]. unfold IsSeal at 1. rewrite Hs. by destruct (IsSeal ex).
    + intros cl p eid bs Hp (en0 & ex & Hp0 & Hex & Hbs & Hm & Hseal). assert (en0 = en) as -> by congruence. destruct (Hex' eid ex Hex) as (ex' & He' & Hi' & Hs' & Hm').
      exists en', ex'. split; [apply lookup_insert_eq|]. split; [done|]. rewrite (extent_inv_unique ex bs (held eid) Hbs (proj1 (proj2 (Hok eid ex Hex)))). split; [done|]. split; [done|].
      unfold IsSeal in Hs'. by rewrite Hseal in Hs'.
Qed.
