(* ===== verification/Bootstrap.v ===== *)
(** The bootstrap command (cmd/autumn-client/main.go: bootstrap): the client asks
    the partition managers for the partition servers, the stream managers for two
    streams, and the partition managers for the first partition. All managers
    keep their state in one etcd. *)
From Stdlib Require Import ZArith Lia Strings.String Strings.Ascii.
From stdpp Require Import base option list numbers gmap sorting strings.
From S2P Require Import Prelude GoLib Utils Proto ProtoSub ProtoPs ProtoSm ProtoPm Etcd EtcdSpec StreamManager StreamManagerSpec.
From S2P Require Import PartitionManager PartitionParse PartitionManagerSpec PartitionManagerRun PartitionManagerOps Clients NodeRun.

Section Bootstrap.
Context `{GoOrder}.

(** every manager, and the etcd they share *)
Record world := mkWorld { w_sms : list StreamManager; w_pms : list PartitionManager; w_db : etcd }.
Definition on_sm {R} (f : sm_world -> sm_world * R) (w : world) : world * R :=
  let '((sms, db), r) := f (w_sms w, w_db w) in (mkWorld sms (w_pms w) db, r).
Definition on_pm {R} (f : pm_world -> pm_world * R) (w : world) : world * R :=
  let '((pms, db), r) := f (w_pms w, w_db w) in (mkWorld (w_sms w) pms db, r).

Lemma on_sm_eq {R} (f : sm_world -> sm_world * R) sms pms db sms' db' r : f (sms, db) = ((sms', db'), r) -> on_sm f (mkWorld sms pms db) = (mkWorld sms' pms db', r).
Proof using. intros E. unfold on_sm. cbn [w_sms w_db w_pms]. by rewrite E. Qed.
Lemma on_pm_eq {R} (f : pm_world -> pm_world * R) sms pms db pms' db' r : f (pms, db) = ((pms', db'), r) -> on_pm f (mkWorld sms pms db) = (mkWorld sms pms' db', r).
Proof using. intros E. unfold on_pm. cbn [w_sms w_db w_pms]. by rewrite E. Qed.

(** after the connections are up; [senv] and [penv] give the environment of each
    call's attempts *)
Definition bootstrap (senv : nat -> nat -> sm_env) (penv : nat -> nat -> pm_env) (smc : SMClient) (pmc : AutumnPMClient) (w : world) : world * outcome Z :=
  match on_pm (client_GetPSInfo (penv 0%nat) pmc) w with
  | (w, Ok (pmc, [])) => (w, Err (Errorf "no Partition Servers..."))
  | (w, Ok (pmc, ps :: _)) =>
      match on_sm (smc_CreateStream (senv 0%nat) smc) w with
      | (w, Ok (smc, log)) =>
          match on_sm (smc_CreateStream (senv 1%nat) smc) w with
          | (w, Ok (smc, row)) =>
              match on_pm (client_Bootstrap (penv 1%nat) pmc (StreamID log) (StreamID row) (PSID ps)) w with
              | (w, Ok (_, inl partID)) => (w, Ok partID)
              | (w, Ok (_, inr e)) => (w, Err e)
              | (w, Err e) => (w, Err e)
              | (w, Panic) => (w, Panic)
              end
          | (w, Err e) => (w, Err e)
          | (w, Panic) => (w, Panic)
          end
      | (w, Err e) => (w, Err e)
      | (w, Panic) => (w, Panic)
      end
  | (w, Err e) => (w, Err e)
  | (w, Panic) => (w, Panic)
  end.

(** ** A stream is created *)

Lemma CreateStream_delivered b sm db S E N next : sm_inv (Datatypes.S b) sm db S E N next -> isLeader sm = true -> (3 <= size (nodes sm))%nat ->
  exists sm' db' x, (forall answer, (forall n, answer n = true) -> CreateStream sm Delivered Delivered Delivered answer true db = (db', Ok (sm', mkSI next [next + 1]))) /\ isLeader sm' = true /\ nodes sm' = nodes sm /\
    leaderKey sm' = leaderKey sm /\ sm_inv b sm' db' (<[next := mkSI next [next + 1]]> S) (<[next + 1 := x]> E) N (next + 2) /\
    forall k, other_key k -> db' !! k = db !! k.
Proof using.
  intros Hi El Hsz. destruct (si_mem _ _ _ _ _ _ _ Hi El) as (HS & HE & HN & Hkey). pose proof (si_room _ _ _ _ _ _ _ Hi) as Hroom.
  pose proof (do_next _ _ _ _ _ (si_db _ _ _ _ _ _ _ Hi)) as Hnx. pose proof (proj1 Hnx) as Hn1. pose proof (si_key _ _ _ _ _ _ _ Hi) as Hok.
  destruct (EtcdAllocUniqID_ok db idKey next 2 Hnx ltac:(lia) ltac:(lia)) as (db1 & Ea & Hnx1 & Hk).
  pose proof (sm_inv_alloc b sm db db1 S E N next (next + 2) Hi Hnx1 ltac:(lia) Hk) as Hi1. destruct (si_mem _ _ _ _ _ _ _ Hi1 El) as (_ & _ & _ & Hkey1).
  destruct (AllocExtent_any (cloneNodeStatus sm)) as [[Hlen _]|(ret & Er & Hlen & Hsub)].
  { unfold cloneNodeStatus in Hlen. rewrite length_fmap, <- (Permutation_length (map_range_perm (nodes sm))), length_map_to_list in Hlen. lia. }
  destruct (chosen_nodes sm N _ S E ret HN (do_cluster _ _ _ _ _ (si_db _ _ _ _ _ _ _ Hi)) Hsub) as [Hnd Hin].
  assert (length (extractNodeId ret) = 3%nat) as Hlen' by (unfold extractNodeId; by rewrite length_fmap).
  pose proof (si_db _ _ _ _ _ _ _ Hi1) as Hdb1. assert (is_u64 next /\ is_u64 (next + 1)) as [Hu1 Hu2] by (unfold is_u64; lia).
  pose proof (replicas_wf _ _ _ _ _ (next + 1) _ Hdb1 Hu2 Hlen' Hin) as Hxwf.
  pose proof (db_ok_create db1 S E N next (next + 2) next (extractNodeId ret) Hdb1 ltac:(lia) eq_refl ltac:(lia) eq_refl Hlen' Hnd Hin Hxwf) as Hdb2.
  set (x := mkXI (next + 1) (extractNodeId ret) 0) in *. exists (addExtent sm next x), (new_stream db1 (mkSI next [next + 1]) x), x. split.
  { intros answer Hans. unfold CreateStream. rewrite El. cbn [negb]. unfold tbind at 1, allocUniqID. rewrite Ea, u64_small by lia. unfold tbind, tret. rewrite Er. unfold sendAllocToNodes.
    assert (filter (fun n => answer n = true) ret = ret) as -> by (clear -Hans; induction ret as [|x l IH]; [done|]; by rewrite filter_cons, decide_True, IH by done).
    rewrite Hlen. cbn [Nat.eqb negb orb]. rewrite StreamInfo_Marshal_bytes by (split; [done|by apply nums_single]). rewrite ExtentInfo_Marshal_bytes by done. cbn [must].
    unfold EtctSetKVS, Commit, txn, leader_guard. cbn [forallb cmp_holds]. rewrite bool_decide_true by done. done. }
  split; [done|]. split; [done|]. split; [done|]. unfold new_stream in *. cbn [StreamID XI_ExtentID] in *. split.
  - split; [exact Hdb2|lia| |done|apply Hi]. intros _. unfold addExtent. cbn [XI_ExtentID]. assert (streams sm !! next = None) as ->.
    { rewrite HS. destruct (S !! next) as [s|] eqn:Es; [|done]. destruct (cl_streams _ _ _ _ (do_cluster _ _ _ _ _ (si_db _ _ _ _ _ _ _ Hi)) next s Es) as (_ & Hx & _). lia. }
    cbn [with_maps streams extents nodes leaderKey memberValue]. rewrite HS, HE, HN. do 3 (split; [done|]). cbn [foldl apply_op].
    rewrite !lookup_insert_ne by (by apply other_extent || by apply other_stream). done.
  - intros k Hkk. cbn [foldl apply_op]. rewrite !lookup_insert_ne by (by apply other_extent || by apply other_stream). apply Hk. by destruct Hkk as (_ & _ & _ & ?).
Qed.
Lemma client_creates senv c sms db l sm b S E N next : sm_managers c sms l sm -> sm_inv (Datatypes.S b) sm db S E N next -> (3 <= size (nodes sm))%nat -> (forall k, smooth (senv k)) ->
  exists sm' db' x c', smc_CreateStream senv c (sms, db) = ((<[Z.to_nat l := sm']> sms, db'), Ok (c', mkSI next [next + 1])) /\ sm_managers c' (<[Z.to_nat l := sm']> sms) l sm' /\
    nodes sm' = nodes sm /\ leaderKey sm' = leaderKey sm /\ sm_inv b sm' db' (<[next := mkSI next [next + 1]]> S) (<[next + 1 := x]> E) N (next + 2) /\ forall k, other_key k -> db' !! k = db !! k.
Proof using.
  intros [Hc Hlen Hlast Hl [Hsm El] Hoth] Hi Hsz Henv.
  destruct (CreateStream_delivered b sm db S E N next Hi El Hsz) as (sm' & db' & x & Eh & El' & En & Ek & Hi' & Hk). exists sm', db', x, (mkSMC (sm_conns c) l).
  split; [|split; [|done]].
  - unfold smc_CreateStream. rewrite (request_reaches_leader senv ReqCreateStream c sms db l sm sm' db' (ResStream (mkSI next [next + 1]))); try done; [intros k; apply Henv|].
    intros k. destruct (Henv k) as (_ & E1 & E2 & E3 & Ha & Hst). unfold sm_handle, respond, tbind, tret. rewrite E1, E2, E3, Hst.
    by rewrite Eh.
  - split; cbn [sm_conns sm_lastLeader]; [done|by rewrite length_insert|done|done| |].
    + split; [|done]. apply list_lookup_insert_eq. by eapply lookup_lt_Some.
    + intros j s Hj Hs. rewrite list_lookup_insert_ne in Hs by done. by eapply Hoth.
Qed.

(** ** The partition managers *)

Lemma client_lists_servers penv c pms db l pm : pm_managers c pms l pm -> (forall k, pe_call (penv k) = Delivered) ->
  client_GetPSInfo penv c (pms, db) = ((pms, db), Ok (mkPMC (pm_conns c) l (pm_lock c), snd <$> map_range (psNodes pm))).
Proof using.
  intros [Hc Hlen Hlast Hl [Hpm El] Hoth] Hcall. unfold client_GetPSInfo.
  rewrite (pm_try_finds _ c l ([], (pms, db)) (snd <$> map_range (psNodes pm), (pms, db))); [done|..|done|done|done].
  - intros k i Hi Hne. rewrite Hcall. match goal with |- context [pm_serve ?h _ _ _] => destruct (pm_serve_refused h i pms db) as [e ->]; [|done] end.
    intros p Hp. unfold tret, GetPSInfo. rewrite (Hoth (Z.to_nat i) p) by (lia || done). by eexists.
  - intros k. rewrite Hcall. match goal with |- context [pm_serve ?h _ _ _] => rewrite (pm_serve_reply h l pms db pm db pm (snd <$> map_range (psNodes pm))) end; [by rewrite list_insert_id|done|].
    unfold tret, GetPSInfo. by rewrite El.
Qed.
Lemma managers_later c pms l pm pm' : pm_managers c pms l pm -> pm_isLeader pm' = true -> pm_managers (mkPMC (pm_conns c) l (pm_lock c)) (<[Z.to_nat l := pm']> pms) l pm'.
Proof using.
  intros [Hc Hlen Hlast Hl [Hpm El] Hoth] El'. split; cbn [pm_conns pm_lastLeader]; [done|by rewrite length_insert|done|done| |].
  - split; [|done]. apply list_lookup_insert_eq. by eapply lookup_lt_Some.
  - intros j s Hj Hs. rewrite list_lookup_insert_ne in Hs by done. by eapply Hoth.
Qed.

(** *** The managers share etcd without touching each other's keys *)

Lemma prefix_head c s k : String.prefix (String c s) k = true -> exists k', k = String c k'.
Proof using. destruct k as [|x k]; [done|]. cbn [String.prefix]. destruct (ascii_dec c x) as [<-|]; [by exists k|done]. Qed.
Lemma sm_key_not_pm k : other_key k \/ pm_other_key k.
Proof using.
  unfold other_key, pm_other_key.
  destruct (String.prefix "streams" k) eqn:E1; [apply prefix_head in E1 as [k' ->]; by right|]. destruct (String.prefix "extents" k) eqn:E2; [apply prefix_head in E2 as [k' ->]; by right|].
  destruct (String.prefix "nodes" k) eqn:E3; [apply prefix_head in E3 as [k' ->]; by right|]. destruct (decide (k = idKey)) as [->|]; [by right|by left].
Qed.
Lemma pm_inv_frame b pm db db' N P next : pm_inv b pm db N P next -> (forall k, ~ pm_other_key k \/ k = pm_leaderKey pm -> db' !! k = db !! k) -> pm_inv b pm db' N P next.
Proof using.
  intros [H1' H2' H3' H4'] Hf. split; [eapply pm_db_ok_other; [exact H1'|]; auto|done| |done].
  intros El. destruct (H3' El) as (A1 & A2 & A3). split; [done|]. split; [done|]. rewrite Hf; auto.
Qed.
Lemma sm_inv_frame b sm db db' S E N next : sm_inv b sm db S E N next -> (forall k, ~ other_key k \/ k = leaderKey sm -> db' !! k = db !! k) -> sm_inv b sm db' S E N next.
Proof using.
  intros [H1' H2' H3' H4' H5'] Hf. split; [eapply db_ok_other; [exact H1'|]; auto|done| |done|done].
  intros El. destruct (H3' El) as (A1 & A2 & A3 & A4). do 3 (split; [done|]). rewrite Hf; auto.
Qed.

(** with one partition, it is the routing table *)
Lemma GetRegions_only pm id m rg d rs : pm_isLeader pm = true -> partMeta pm = <[id := m]> ∅ -> Meta_Rg m = Some rg -> psNodes pm !! Meta_Parent m = Some d ->
  GetRegions pm = Ok (PM_OK, rs) -> rs = [mkRI (Some rg) id (Meta_Parent m) (PS_Address d)].
Proof using.
  intros El HP Hrg Hd. unfold GetRegions. rewrite El, HP. cbn [negb]. pose proof (map_range_perm (<[id := m]> ∅ : gmap Z PartitionMeta)) as Hp.
  rewrite map_to_list_insert, map_to_list_empty in Hp by apply lookup_empty. apply Permutation_singleton_l in Hp. rewrite <- Hp. cbn [regions_loop]. rewrite Hrg, Hd. cbn [obind]. by intros [= <-].
Qed.

(** C8: With no messages lost, at least three registered nodes that answer and the leaders stable,
    the bootstrap command, whichever managers its clients asked last, reaches the leaders of the
    stream and the partition managers: it creates two new streams of one extent each and one new
    partition over the whole key range that names them, on a partition server that is registered;
    GetRegions then lists that partition with the server's address, and lists nothing else when it
    is the first partition, so that every key is routed to that server; both managers and the etcd
    they share stay consistent, neither touching the keys of the other. Without a partition server
    it returns an error and changes nothing. *)
Theorem bootstrap_creates senv penv smc pmc sms pms db ls lp sm pm S E N next PN P pnext : sm_managers smc sms ls sm -> pm_managers pmc pms lp pm ->
  sm_inv 2 sm db S E N next -> pm_inv 1 pm db PN P pnext -> other_key (pm_leaderKey pm) -> pm_other_key (leaderKey sm) -> (3 <= size (nodes sm))%nat ->
  (forall i k, smooth (senv i k)) -> (forall i k, penv i k = mkPEnv Delivered Delivered Delivered Delivered) ->
  (PN = ∅ -> bootstrap senv penv smc pmc (mkWorld sms pms db) = (mkWorld sms pms db, Err (Errorf "no Partition Servers..."))) /\
  (PN <> ∅ -> exists sm' pm' db' ps d x y rs,
    bootstrap senv penv smc pmc (mkWorld sms pms db) = (mkWorld (<[Z.to_nat ls := sm']> sms) (<[Z.to_nat lp := pm']> pms) db', Ok pnext) /\
    PN !! ps = Some d /\ P !! pnext = None /\ S !! next = None /\ S !! (next + 2) = None /\
    sm_inv 0 sm' db' (<[next + 2 := mkSI (next + 2) [next + 3]]> (<[next := mkSI next [next + 1]]> S)) (<[next + 3 := y]> (<[next + 1 := x]> E)) N (next + 4) /\
    pm_inv 0 pm' db' PN (<[pnext := new_meta pnext next (next + 2) ps]> P) (pnext + 2) /\
    GetRegions pm' = Ok (PM_OK, rs) /\ mkRI (Some (mkRange [] [])) pnext ps (PS_Address d) ∈ rs /\
    (P = ∅ -> rs = [mkRI (Some (mkRange [] [])) pnext ps (PS_Address d)])).
Proof using.
  intros Hsm Hpm Hsi Hpi Hk1 Hk2 Hsz Hsenv Hpenv. pose proof (proj2 (mg_leader _ _ _ _ Hpm)) as Elp. destruct (pi_mem _ _ _ _ _ _ Hpi Elp) as (HPN & HP & _).
  pose proof (client_lists_servers (penv 0%nat) pmc pms db lp pm Hpm ltac:(intros k; by rewrite Hpenv)) as El. rewrite HPN in El.
  pose proof (map_range_perm PN) as Hperm. unfold bootstrap. rewrite (on_pm_eq _ _ _ _ _ _ _ El). split.
  { intros ->. rewrite map_to_list_empty in Hperm. apply Permutation_nil_l in Hperm. rewrite <- Hperm. done. }
  intros Hne. destruct (map_range PN) as [|[ps d] rest] eqn:Er.
  { exfalso. apply Permutation_nil_r in Hperm. by apply map_to_list_empty_iff in Hperm. }
  assert (PN !! ps = Some d) as Hd by (apply elem_of_map_to_list; rewrite Hperm; by left). destruct (pd_server_ids _ _ _ _ (pi_db _ _ _ _ _ _ Hpi) ps d Hd) as [Hid Hps].
  pose proof (pi_room _ _ _ _ _ _ Hpi) as Hpr. pose proof (si_room _ _ _ _ _ _ _ Hsi) as Hsr. pose proof (proj1 (do_next _ _ _ _ _ (si_db _ _ _ _ _ _ _ Hsi))) as Hn1.
  cbn [fmap list_fmap snd]. destruct (client_creates (senv 0%nat) smc sms db ls sm 1 S E N next Hsm Hsi Hsz (Hsenv 0%nat)) as (sm1 & db1 & x & c1 & E1 & Hsm1 & En1 & Ek1 & Hsi1 & Hf1).
  rewrite (on_sm_eq _ _ _ _ _ _ _ E1).
  destruct (client_creates (senv 1%nat) c1 _ db1 ls sm1 0 _ _ N _ Hsm1 Hsi1 ltac:(by rewrite En1) (Hsenv 1%nat)) as (sm2 & db2 & y & c2 & E2 & Hsm2 & En2 & Ek2 & Hsi2 & Hf2).
  rewrite (on_sm_eq _ _ _ _ _ _ _ E2). cbn [StreamID]. rewrite list_insert_insert_eq.
  assert (pm_inv 1 pm db2 PN P pnext) as Hpi2 by (eapply pm_inv_frame; [exact Hpi|]; intros k Hk; assert (other_key k) by (destruct Hk as [Hk| ->]; [by destruct (sm_key_not_pm k)|done]); by rewrite Hf2, Hf1).
  destruct (Bootstrap_delivered 0 pm db2 PN P pnext next (next + 2) (PSID d) Hpi2 Elp) as (pm' & db' & Eb & Elp' & HN' & HP' & Hpi' & Hf3); [unfold is_u64; lia|unfold is_u64; lia|unfold is_u64; lia|].
  assert (pm_managers (mkPMC (pm_conns pmc) lp (pm_lock pmc)) pms lp pm) as Hpm1 by (destruct Hpm; by split).
  pose proof (client_Bootstrap_reaches_leader (penv 1%nat) _ pms db2 lp pm pm' db' pnext next (next + 2) (PSID d) Hpm1 ltac:(intros k; by rewrite Hpenv) ltac:(intros k; by rewrite Hpenv)) as E3.
  rewrite (on_pm_eq _ _ _ _ _ _ _ E3).
  destruct (GetRegions_ok 0 pm' db' PN _ _ Hpi' Elp') as (rs & Ers & Hrs). rewrite Hid in *.
  exists sm2, pm', db', ps, d, x, y, rs. split; [done|]. split; [done|].
  split; [destruct (P !! pnext) as [m|] eqn:Em; [|done]; pose proof (pd_part_ids _ _ _ _ (pi_db _ _ _ _ _ _ Hpi) pnext m Em); lia|].
  assert (forall i, next <= i -> S !! i = None) as Hfresh.
  { intros i Hi. destruct (S !! i) as [s|] eqn:Es; [|done]. destruct (cl_streams _ _ _ _ (do_cluster _ _ _ _ _ (si_db _ _ _ _ _ _ _ Hsi)) i s Es) as (_ & Hx & _). lia. }
  split; [apply Hfresh; lia|]. split; [apply Hfresh; lia|]. split; [|split; [done|split; [done|split]]].
  - replace (next + 2 + 1) with (next + 3) in Hsi2 by lia. replace (next + 2 + 2) with (next + 4) in Hsi2 by lia. eapply sm_inv_frame; [exact Hsi2|].
    intros k Hk. apply Hf3. destruct Hk as [Hk| ->]; [by destruct (sm_key_not_pm k)|by rewrite Ek2, Ek1].
  - apply Hrs. cbn [RI_PartID]. exists (new_meta pnext next (next + 2) ps), d. rewrite HP', HN'. split; [apply lookup_insert_eq|]. done.
  - intros ->. apply (GetRegions_only pm' pnext (new_meta pnext next (next + 2) ps) (mkRange [] []) d rs Elp'); [done|done|by rewrite HN'|done].
Qed.
End Bootstrap.
