(* ===== verification/SharedEtcd.v ===== *)
(** Both managers keep their state in one etcd (cmd/autumn-manager starts them in
    one process). A small program logic for computations on etcd, [keeps], says
    which keys a computation can change and what its answer satisfies; with it
    every handler is shown to stay on its manager's keys, so that the two
    invariants survive any interleaving of the two managers' steps. *)
From Stdlib Require Import ZArith Lia Strings.String Strings.Ascii.
From stdpp Require Import base option list numbers gmap sorting strings.
From S2P Require Import Prelude GoLib Utils Proto ProtoSub ProtoPs ProtoSm ProtoPm Etcd EtcdSpec StreamManager StreamManagerSpec.
From S2P Require Import PartitionManager PartitionParse PartitionManagerSpec PartitionManagerRun Bootstrap.

(** ** A manager that starts *)

Definition smName (name : bytes) : bytes := name ++ list_byte_of_string "_SM".
Definition pmName (name : bytes) : bytes := name ++ list_byte_of_string "_PM".
Definition NewStreamManager (id : Z) (name grpcUrl : bytes) : outcome StreamManager :=
  let! data := must (MemberValue_Marshal (mkMV id (smName name) grpcUrl)) in
  Ok (mkSM ∅ ∅ ∅ false data EmptyString newMutex).
Definition NewPartitionManager (id : Z) (name grpcUrl : bytes) : outcome PartitionManager :=
  let! data := must (MemberValue_Marshal (mkMV id (pmName name) grpcUrl)) in
  Ok (mkPM ∅ ∅ false data EmptyString).
Definition member_value (v : bytes) : Prop := exists x, MemberValue_wf x /\ v = MemberValue_bytes x.
(** the configuration of a process *)
Definition config_ok (id : Z) (name url : bytes) : Prop := is_u64 id /\ zlen name < 2 ^ 39 /\ zlen url < 2 ^ 40.

Lemma NewStreamManager_member id name url : config_ok id name url -> exists sm, NewStreamManager id name url = Ok sm /\ member_value (memberValue sm).
Proof.
  intros (Hid & Hn & Hu). pose proof (zlen_app name (list_byte_of_string "_SM")) as Hz. change (zlen (list_byte_of_string "_SM")) with 3 in Hz.
  set (x := mkMV id (smName name) url). assert (MemberValue_wf x) as Hx by (split; [done|]; split; [cbn; unfold smName; lia|done]).
  unfold NewStreamManager. fold x. rewrite MemberValue_Marshal_bytes by done. eexists. split; [reflexivity|]. by exists x.
Qed.
Lemma NewPartitionManager_member id name url : config_ok id name url -> exists pm, NewPartitionManager id name url = Ok pm /\ member_value (pm_memberValue pm).
Proof.
  intros (Hid & Hn & Hu). pose proof (zlen_app name (list_byte_of_string "_PM")) as Hz. change (zlen (list_byte_of_string "_PM")) with 3 in Hz.
  set (x := mkMV id (pmName name) url). assert (MemberValue_wf x) as Hx by (split; [done|]; split; [cbn; unfold pmName; lia|done]).
  unfold NewPartitionManager. fold x. rewrite MemberValue_Marshal_bytes by done. eexists. split; [reflexivity|]. by exists x.
Qed.

(** ** A logic for computations on etcd *)

(** keys outside [K] are not changed, an answer satisfies [Q] *)
Definition keeps (K : string -> Prop) {A} (Q : A -> Prop) (m : tx A) : Prop := forall db,
  (forall k, ~ K k -> fst (m db) !! k = db !! k) /\ (forall a, snd (m db) = Ok a -> Q a).

Lemma keeps_ret K {A} (Q : A -> Prop) o : (forall a, o = Ok a -> Q a) -> keeps K Q (tret o).
Proof. intros Ho db. by split. Qed.
Lemma keeps_bind K {A B} (Q : A -> Prop) (R : B -> Prop) (m : tx A) (f : A -> tx B) : keeps K Q m -> (forall a, Q a -> keeps K R (f a)) -> keeps K R (tbind m f).
Proof.
  intros Hm Hf db. destruct (Hm db) as [Hk Ha]. unfold tbind. destruct (m db) as [db1 [a|e|]]; cbn [fst snd] in *; [|by split..].
  destruct (Hf a (Ha a eq_refl) db1) as [Hk' Ha']. split; [|done]. intros k Hn. by rewrite Hk', Hk.
Qed.
Lemma keeps_true K {A} (Q : A -> Prop) (m : tx A) : keeps K Q m -> keeps K (fun _ => True) m.
Proof. intros Hm db. split; [apply Hm|done]. Qed.
Lemma keeps_wrap K {A} (Q : A -> Prop) (m : tx A) e : keeps K Q m ->
  keeps K Q (fun db => match m db with (db, Err _) => (db, Err e) | r => r end).
Proof. intros Hm db. destruct (Hm db) as [Hk Ha]. by destruct (m db) as [db1 [a|e'|]]. Qed.

Definition op_key (op : Op) : string := match op with OpPut k _ => k end.
Lemma apply_ops_other ops : forall (db : etcd) k, (forall op, op ∈ ops -> op_key op <> k) -> foldl apply_op db ops !! k = db !! k.
Proof.
  induction ops as [|[k' v] ops IH]; intros db k Hk; [done|]. cbn [foldl]. rewrite IH by (intros op Hop; apply Hk; by right).
  cbn [apply_op]. apply lookup_insert_ne. exact (Hk (OpPut k' v) ltac:(by left)).
Qed.
Lemma Commit_keeps (K : string -> Prop) n cmps ops (db : etcd) k : Forall (fun op => K (op_key op)) ops -> ~ K k -> fst (Commit n cmps ops db) !! k = db !! k.
Proof.
  intros Hops Hk. assert (foldl apply_op db ops !! k = db !! k) as E.
  { apply apply_ops_other. intros op Hop <-. apply Hk. by apply (proj1 (Forall_forall _ _) Hops). }
  unfold Commit, txn. destruct n, (forallb (cmp_holds db) cmps); done.
Qed.
Lemma keeps_set K n cmps ops : Forall (fun op => K (op_key op)) ops -> keeps K (fun _ => True) (EtctSetKVS n cmps ops).
Proof.
  intros Hops db. split; [|done]. intros k Hk. pose proof (Commit_keeps K n cmps ops db k Hops Hk) as E. unfold EtctSetKVS.
  by destruct (Commit n cmps ops db) as [db1 [b|]].
Qed.
Lemma keeps_alloc (K : string -> Prop) n1 n2 key count : K key -> keeps K (fun _ => True) (EtcdAllocUniqID n1 n2 key count).
Proof.
  intros Hkey. unfold EtcdAllocUniqID. eapply (keeps_bind _ (fun _ => True)); [|intros [curr cmp] _].
  - intros db. split; [|done]. intros k _. unfold alloc_read, tbind, EtcdGetKV, tret. by destruct n1.
  - intros db. split; [|done]. intros k Hk. unfold alloc_commit.
    pose proof (Commit_keeps K n2 [cmp] [OpPut key (PutUint64 (u64 (curr + count)))] db k ltac:(by repeat constructor) Hk) as E.
    by destruct (Commit n2 _ _ db) as [db1 [b|]].
Qed.
Lemma keeps_range K n p : keeps K (fun _ => True) (EtcdRange n p).
Proof. intros db. by split. Qed.

(** ** The managers' keys *)

Definition sm_key (k : string) : Prop := ~ other_key k.
Definition pm_key (k : string) : Prop := ~ pm_other_key k.
Lemma sm_key_stream id : sm_key (formatStreamKey id).
Proof. intros (E & _). discriminate E. Qed.
Lemma sm_key_extent id : sm_key (formatExtentReplicate id).
Proof. intros (_ & E & _). discriminate E. Qed.
Lemma sm_key_node id : sm_key (formatNodeKey id).
Proof. intros (_ & _ & E & _). discriminate E. Qed.
Lemma sm_key_id : sm_key idKey.
Proof. by intros (_ & _ & _ & E). Qed.
Lemma pm_key_server id : pm_key (psKey id).
Proof. intros (E & _). discriminate E. Qed.
Lemma pm_key_part id s : pm_key (partKey id s).
Proof. intros (_ & E & _). discriminate E. Qed.
Lemma pm_key_id : pm_key pm_idKey.
Proof. by intros (_ & _ & E). Qed.

Create HintDb keeps.
#[export] Hint Resolve sm_key_stream sm_key_extent sm_key_node sm_key_id pm_key_server pm_key_part pm_key_id : keeps.
#[export] Hint Resolve keeps_range keeps_alloc keeps_set keeps_wrap : keeps.
#[export] Hint Extern 5 (Forall _ _) => repeat constructor; cbn [op_key] : keeps.
(** the next call of a handler *)
Ltac keeps_step :=
  match goal with
  | |- keeps _ _ (tret _) => apply keeps_ret
  | |- keeps _ _ (if ?b then _ else _) => destruct b eqn:?
  | |- keeps _ _ (tbind (tret _) _) => apply (keeps_bind _ (fun _ => True)); [by apply keeps_ret|intros ? _]
  | |- keeps _ _ (tbind _ _) => apply (keeps_bind _ (fun _ => True)); [unfold allocUniqID, pm_allocUniqID; auto with keeps|intros ? _]
  | |- keeps _ _ (match ?x with _ => _ end) => destruct x eqn:?
  end.
Ltac keeps_all := repeat keeps_step; try done; auto with keeps.

Section Handlers.
Context `{GoOrder}.

(** the process stays who it is *)
Definition same_sm (sm sm' : StreamManager) : Prop := leaderKey sm' = leaderKey sm /\ memberValue sm' = memberValue sm.
Definition same_pm (pm pm' : PartitionManager) : Prop := pm_leaderKey pm' = pm_leaderKey pm /\ pm_memberValue pm' = pm_memberValue pm.
Lemma addExtent_same sm id x : same_sm sm (addExtent sm id x).
Proof using. unfold addExtent, same_sm. by destruct (streams sm !! id). Qed.

Lemma CreateStream_keeps sm n1 n2 n3 answer still : keeps sm_key (fun r => same_sm sm (fst r)) (CreateStream sm n1 n2 n3 answer still).
Proof using. unfold CreateStream. keeps_all. intros r [= <-]. apply addExtent_same. Qed.
Lemma RegisterNode_keeps sm n1 n2 n3 now addr : keeps sm_key (fun r => same_sm sm (fst r)) (RegisterNode sm n1 n2 n3 now addr).
Proof using. unfold RegisterNode. keeps_all. by intros r [= <-]. Qed.
Lemma Truncate_keeps sm n s e : keeps sm_key (fun r => same_sm sm (fst r)) (sm_Truncate sm n s e).
Proof using. unfold sm_Truncate. keeps_all; by intros r [= <-]. Qed.
Lemma StreamAllocExtent_keeps sm n1 n2 n3 answer still s e : keeps sm_key (fun r => same_sm sm (fst r)) (StreamAllocExtent sm n1 n2 n3 answer still s e).
Proof using. unfold StreamAllocExtent. keeps_all. intros r [= <-]. apply addExtent_same. Qed.
Lemma RegisterPS_keeps pm n1 n2 n3 addr : keeps pm_key (fun r => same_pm pm (fst r)) (RegisterPS pm n1 n2 n3 addr).
Proof using. unfold RegisterPS. keeps_all. by intros r [= <-]. Qed.
Lemma Bootstrap_keeps pm n1 n2 n3 logID rowID parent : keeps pm_key (fun r => same_pm pm (fst r)) (Bootstrap pm n1 n2 n3 logID rowID parent).
Proof using.
  unfold Bootstrap. keeps_all. intros db. set (ops := [OpPut _ _; _; _; _]).
  destruct (keeps_set pm_key n3 (pm_guard pm) ops ltac:(repeat constructor; cbn [op_key]; auto with keeps) db) as [Hk _].
  destruct (EtctSetKVS n3 (pm_guard pm) ops db) as [db1 [u|e|]]; cbn [fst snd] in *; (split; [done|]); by intros r [= <-].
Qed.
Lemma SetRowStreamTables_keeps pm n locs id : keeps pm_key (fun r => same_pm pm (fst r)) (SetRowStreamTables pm n locs id).
Proof using.
  unfold SetRowStreamTables. keeps_all; try by intros r [= <-]. intros db. match goal with |- context [EtctSetKVS n (pm_guard pm) ?o db] => set (ops := o) end.
  destruct (keeps_set pm_key n (pm_guard pm) ops ltac:(repeat constructor; cbn [op_key]; auto with keeps) db) as [Hk _].
  destruct (EtctSetKVS n (pm_guard pm) ops db) as [db1 [u|e|]]; cbn [fst snd] in *; [destruct (partMeta pm !! id)|..]; (split; [done|]); by intros r [= <-].
Qed.
End Handlers.

(** ** Former leaders *)

(** While a process believes to lead after its key is gone from etcd, the guard
    of its transactions fails: what is left are the ids, which are taken without
    a guard. [takes] says that a computation takes at most [c] ids and changes
    nothing else. *)
Definition takes (lk idk : string) (c : Z) {A} (m : tx A) : Prop := forall db next, next_id db idk next -> next + c < 2 ^ 64 -> db !! lk = None ->
  exists next', next_id (fst (m db)) idk next' /\ next <= next' <= next + c /\ forall k, k <> idk -> fst (m db) !! k = db !! k.

Section Takes.
Context (lk idk : string) (Hlk : lk <> idk).

Lemma takes_ret c {A} (o : outcome A) : 0 <= c -> takes lk idk c (tret o).
Proof using. intros Hc db next Hn _ _. exists next. split; [done|]. split; [lia|done]. Qed.
Lemma takes_bind c1 c {A B} (m : tx A) (f : A -> tx B) : takes lk idk c1 m -> 0 <= c1 <= c -> (forall a, takes lk idk (c - c1) (f a)) -> takes lk idk c (tbind m f).
Proof using Hlk.
  intros Hm Hc Hf db next Hn Hr Hv. destruct (Hm db next Hn ltac:(lia) Hv) as (n1 & Hn1 & Hle & Hk). unfold tbind. destruct (m db) as [db1 [a|e|]]; cbn [fst] in *.
  - destruct (Hf a db1 n1 Hn1 ltac:(lia) ltac:(by rewrite Hk)) as (n2 & Hn2 & Hle2 & Hk2). exists n2. split; [done|]. split; [lia|]. intros k Hne. by rewrite Hk2, Hk.
  - exists n1. split; [done|]. split; [lia|done].
  - exists n1. split; [done|]. split; [lia|done].
Qed.
Lemma Commit_guarded n v ops (db : etcd) : db !! lk = None -> Commit n [CmpValue lk v] ops db = (db, match n with Delivered => Some false | _ => None end).
Proof using. intros Hv. unfold Commit, txn. cbn [forallb cmp_holds]. rewrite Hv, bool_decide_false by done. by destruct n. Qed.
Lemma takes_set n v ops : takes lk idk 0 (EtctSetKVS n [CmpValue lk v] ops).
Proof using.
  intros db next Hn _ Hv. exists next. unfold EtctSetKVS. rewrite Commit_guarded by done. destruct n; (split; [done|]); (split; [lia|done]).
Qed.
Lemma takes_alloc n1 n2 count : 0 <= count -> takes lk idk count (EtcdAllocUniqID n1 n2 idk count).
Proof using.
  intros Hc db next Hn Hr _. destruct (EtcdAllocUniqID_any db idk n1 n2 next count Hn Hc Hr) as (db' & next' & r & -> & Hn' & Hle & Hk & _). by exists next'.
Qed.
Lemma takes_wrap c {A} (m : tx A) e : takes lk idk c m -> takes lk idk c (fun db => match m db with (db, Err _) => (db, Err e) | r => r end).
Proof using. intros Hm db next Hn Hr Hv. destruct (Hm db next Hn Hr Hv) as (next' & H'). exists next'. by destruct (m db) as [db1 [a|e'|]]. Qed.
End Takes.
Create HintDb takes.
#[export] Hint Resolve takes_set takes_alloc takes_wrap : takes.
#[export] Hint Extern 2 (_ <= _) => lia : takes.
(** the next call of a handler *)
Ltac takes_step :=
  match goal with
  | |- takes _ _ _ (tret _) => apply takes_ret; lia
  | |- takes _ _ _ (if ?b then _ else _) => destruct b eqn:?
  | |- takes _ _ _ (tbind (tret _) _) => apply (takes_bind _ _ ltac:(eassumption) 0); [apply takes_ret; lia|lia|intros ?]
  | |- takes _ _ _ (tbind _ _) => eapply (takes_bind _ _ ltac:(eassumption)); [unfold allocUniqID, pm_allocUniqID, leader_guard, pm_guard; auto with takes|lia|intros ?]
  | |- takes _ _ _ (match ?x with _ => _ end) => destruct x eqn:?
  end.

Section FormerHandlers.
Context `{GoOrder}.

(** no handler of the stream manager takes more than two ids *)
Lemma request_takes sm db ev sm' db' next : is_request ev -> leaderKey sm <> idKey -> sm_step (sm, db) ev = (sm', db') ->
  next_id db idKey next -> next + 2 < 2 ^ 64 -> db !! leaderKey sm = None ->
  exists next', next_id db' idKey next' /\ next <= next' <= next + 2 /\ forall k, k <> idKey -> db' !! k = db !! k.
Proof using.
  intros Hreq Hlk. assert (forall {R} (m : tx (StreamManager * R)), takes (leaderKey sm) idKey 2 m -> finish sm (m db) = (sm', db') ->
    next_id db idKey next -> next + 2 < 2 ^ 64 -> db !! leaderKey sm = None ->
    exists next', next_id db' idKey next' /\ next <= next' <= next + 2 /\ forall k, k <> idKey -> db' !! k = db !! k) as Hfin.
  { intros R m Hm E Hn Hr Hv. destruct (Hm db next Hn Hr Hv) as (next' & H'). exists next'. unfold finish in E. by destruct (m db) as [db1 [[sm1 r]|e|]]; injection E as <- <-. }
  destruct ev as [n1 n2 n3 answer still|n1 n2 n3 now addr|n s e|n1 n2 n3 answer still s e|lease member n1 n2 n3]; cbn [sm_step] in *; [..|done]; apply Hfin.
  - unfold CreateStream. repeat takes_step.
  - unfold RegisterNode. repeat takes_step.
  - unfold sm_Truncate. repeat takes_step.
  - unfold StreamAllocExtent. repeat takes_step.
Qed.
Lemma pm_request_takes pm db ev pm' db' next : pm_leaderKey pm <> pm_idKey -> pm_handle (pm, db) ev = (pm', db') ->
  next_id db pm_idKey next -> next + 2 < 2 ^ 64 -> db !! pm_leaderKey pm = None ->
  exists next', next_id db' pm_idKey next' /\ next <= next' <= next + 2 /\ forall k, k <> pm_idKey -> db' !! k = db !! k.
Proof using.
  intros Hlk. assert (forall {R} (m : tx (PartitionManager * R)), takes (pm_leaderKey pm) pm_idKey 2 m -> pm_finish pm (m db) = (pm', db') ->
    next_id db pm_idKey next -> next + 2 < 2 ^ 64 -> db !! pm_leaderKey pm = None ->
    exists next', next_id db' pm_idKey next' /\ next <= next' <= next + 2 /\ forall k, k <> pm_idKey -> db' !! k = db !! k) as Hfin.
  { intros R m Hm E Hn Hr Hv. destruct (Hm db next Hn Hr Hv) as (next' & H'). exists next'. unfold pm_finish in E. by destruct (m db) as [db1 [[pm1 r]|e|]]; injection E as <- <-. }
  destruct ev as [n1 n2 n3 addr|n1 n2 n3 logID rowID parent|n locs id]; cbn [pm_handle] in *; apply Hfin.
  - unfold RegisterPS. repeat takes_step.
  - unfold Bootstrap. repeat takes_step. intros db1 next1 Hn _ Hv. exists next1. unfold EtctSetKVS, pm_guard. rewrite Commit_guarded by done.
    destruct n3; (split; [done|]); (split; [lia|done]).
  - unfold SetRowStreamTables. repeat takes_step. intros db1 next1 Hn _ Hv. exists next1. unfold EtctSetKVS, pm_guard. rewrite Commit_guarded by done.
    destruct n; cbn [negb]; [destruct (partMeta pm !! id)|..]; (split; [done|]); (split; [lia|done]).
Qed.
End FormerHandlers.

(** ** Runs of both *)

(** every key is one of the managers', the leader keys hold a member *)
Definition known_keys (db : etcd) : Prop := forall k v, db !! k = Some v ->
  sm_key k \/ pm_key k \/ ((exists lease, k = electionKey lease \/ k = pm_electionKey lease) /\ member_value v).
(** a process that never led has no leader key *)
Definition sm_leader_key (k : string) : Prop := k = EmptyString \/ exists lease, k = electionKey lease.
Definition pm_leader_key (k : string) : Prop := k = EmptyString \/ exists lease, k = pm_electionKey lease.

Lemma election_no_pm lease : pm_other_key (electionKey lease).
Proof. repeat split; try reflexivity. intros E. discriminate E. Qed.
Lemma pm_election_no_sm lease : other_key (pm_electionKey lease).
Proof. repeat split; try reflexivity. intros E. discriminate E. Qed.
Lemma empty_other : other_key EmptyString /\ pm_other_key EmptyString.
Proof. by repeat split. Qed.
Lemma sm_leader_other k : sm_leader_key k -> other_key k /\ pm_other_key k.
Proof. intros [->|[l ->]]; [apply empty_other|]. split; [apply election_other|apply election_no_pm]. Qed.
Lemma pm_leader_other k : pm_leader_key k -> other_key k /\ pm_other_key k.
Proof. intros [->|[l ->]]; [apply empty_other|]. split; [apply pm_election_no_sm|apply pm_election_other]. Qed.
Lemma known_no_empty db : known_keys db -> db !! EmptyString = None.
Proof.
  intros Hk. destruct (db !! EmptyString) as [v|] eqn:E; [|done]. destruct empty_other as [H1' H2'].
  destruct (Hk _ v E) as [Hs|[Hp|[[l [El|El]] _]]]; [by apply Hs in H1'|by apply Hp in H2'|discriminate El..].
Qed.
Lemma known_keys_frame (K : string -> Prop) db db' : known_keys db -> (forall k, K k -> sm_key k \/ pm_key k) -> (forall k, Decision (K k)) -> (forall k, ~ K k -> db' !! k = db !! k) -> known_keys db'.
Proof.
  intros Hk HK Hd Hf k v Ek. destruct (Hd k) as [Hin|Hin]; [destruct (HK k Hin); auto|]. apply (Hk k v). by rewrite <- Hf.
Qed.
#[export] Instance sm_key_dec k : Decision (sm_key k).
Proof. unfold sm_key, other_key. apply _. Defined.
#[export] Instance pm_key_dec k : Decision (pm_key k).
Proof. unfold pm_key, pm_other_key. apply _. Defined.
Lemma known_keys_expire db lk : known_keys db -> known_keys (delete lk db).
Proof. intros Hk k v [_ Ek]%lookup_delete_Some. by apply (Hk k v). Qed.
Lemma known_keys_put db key member : known_keys db -> (exists lease, key = electionKey lease \/ key = pm_electionKey lease) -> member_value member ->
  known_keys (<[key := member]> db).
Proof.
  intros Hk Hkey Hm k v Ek. destruct (decide (k = key)) as [->|Hne]; [rewrite lookup_insert_eq in Ek; injection Ek as <-; auto|].
  rewrite lookup_insert_ne in Ek by done. by apply (Hk k v).
Qed.

Section Both.
Context `{GoOrder}.

(** The processes that have a part in either manager: the one whose key is in
    etcd, or nobody (a process with no key), the ones whose key is gone but which
    may still believe to lead, and etcd. *)
Record managers := mkManagers {
  m_sm : StreamManager; m_sm_former : list StreamManager;
  m_pm : PartitionManager; m_pm_former : list PartitionManager; m_db : etcd }.
Definition no_sm : StreamManager := fst sm_init.
Definition no_pm : PartitionManager := fst pm_init.

(** A request reaches the process that leads, or one that led; the lease of the
    leader runs out, which the process does not notice at once; a process sees
    that its session is over; a former leader stops; a started process campaigns,
    which puts its key into etcd under a lease of its own, or gives up; with no
    leader, a candidate wins the election. *)
Inductive sm_moves (sm : StreamManager) (old : list StreamManager) (db : etcd) : StreamManager -> list StreamManager -> etcd -> Prop :=
| sm_request ev sm' db' : is_request ev -> event_ok ev -> sm_step (sm, db) ev = (sm', db') -> sm_moves sm old db sm' old db'
| sm_expire : sm_moves sm old db no_sm (sm :: old) (delete (leaderKey sm) db)
| sm_done : sm_moves sm old db (session_done sm) old db
| sm_former i p ev p' db' : old !! i = Some p -> is_request ev -> sm_step (p, db) ev = (p', db') -> sm_moves sm old db sm (<[i := p']> old) db'
| sm_former_done i p : old !! i = Some p -> sm_moves sm old db sm (<[i := session_done p]> old) db
| sm_former_stops i : sm_moves sm old db sm (delete i old) db
| sm_campaign lease id name url p : electionKey lease <> leaderKey sm -> Forall (fun q => leaderKey q <> electionKey lease) old ->
    config_ok id name url -> NewStreamManager id name url = Ok p -> sm_moves sm old db sm old (<[electionKey lease := memberValue p]> db)
| sm_gives_up lease : electionKey lease <> leaderKey sm -> sm_moves sm old db sm old (delete (electionKey lease) db)
| sm_elect lease id name url p n1 n2 n3 sm' db' : leaderKey sm = EmptyString -> Forall (fun q => leaderKey q <> electionKey lease) old ->
    config_ok id name url -> NewStreamManager id name url = Ok p -> elect lease (memberValue p) n1 n2 n3 sm db = (sm', db') -> sm_moves sm old db sm' old db'.
Inductive pm_moves (pm : PartitionManager) (old : list PartitionManager) (db : etcd) : PartitionManager -> list PartitionManager -> etcd -> Prop :=
| pm_request ev pm' db' : pm_event_ok db ev -> pm_handle (pm, db) ev = (pm', db') -> pm_moves pm old db pm' old db'
| pm_expire : pm_moves pm old db no_pm (pm :: old) (delete (pm_leaderKey pm) db)
| pm_done : pm_moves pm old db (pm_session_done pm) old db
| pm_former i p ev p' db' : old !! i = Some p -> pm_handle (p, db) ev = (p', db') -> pm_moves pm old db pm (<[i := p']> old) db'
| pm_former_done i p : old !! i = Some p -> pm_moves pm old db pm (<[i := pm_session_done p]> old) db
| pm_former_stops i : pm_moves pm old db pm (delete i old) db
| pm_campaign lease id name url p : pm_electionKey lease <> pm_leaderKey pm -> Forall (fun q => pm_leaderKey q <> pm_electionKey lease) old ->
    config_ok id name url -> NewPartitionManager id name url = Ok p -> pm_moves pm old db pm old (<[pm_electionKey lease := pm_memberValue p]> db)
| pm_gives_up lease : pm_electionKey lease <> pm_leaderKey pm -> pm_moves pm old db pm old (delete (pm_electionKey lease) db)
| pm_elected lease id name url p n1 n2 pm' db' : pm_leaderKey pm = EmptyString -> Forall (fun q => pm_leaderKey q <> pm_electionKey lease) old ->
    config_ok id name url -> NewPartitionManager id name url = Ok p -> pm_elect lease (pm_memberValue p) n1 n2 pm db = (pm', db') -> pm_moves pm old db pm' old db'.
Inductive both_step (w : managers) : managers -> Prop :=
| both_sm sm' old' db' : sm_moves (m_sm w) (m_sm_former w) (m_db w) sm' old' db' -> both_step w (mkManagers sm' old' (m_pm w) (m_pm_former w) db')
| both_pm pm' old' db' : pm_moves (m_pm w) (m_pm_former w) (m_db w) pm' old' db' -> both_step w (mkManagers (m_sm w) (m_sm_former w) pm' old' db').
Definition both_init : managers := mkManagers no_sm [] no_pm [] ∅.
Inductive both_run : nat -> managers -> Prop :=
| both_start : both_run 0 both_init
| both_next n w w' : both_run n w -> both_step w w' -> both_run (S n) w'.

Definition sm_gone (db : etcd) (p : StreamManager) : Prop := sm_leader_key (leaderKey p) /\ db !! leaderKey p = None.
Definition pm_gone (db : etcd) (p : PartitionManager) : Prop := pm_leader_key (pm_leaderKey p) /\ db !! pm_leaderKey p = None.
(** what each manager contributes to the invariant *)
Record sm_part (b : nat) (sm : StreamManager) (old : list StreamManager) (db : etcd) : Prop := mk_sm_part {
  sp_holds : holds b (sm, db);
  sp_key : sm_leader_key (leaderKey sm);
  sp_old : Forall (sm_gone db) old }.
Record pm_part (b : nat) (pm : PartitionManager) (old : list PartitionManager) (db : etcd) : Prop := mk_pm_part {
  pp_holds : pm_holds b (pm, db);
  pp_key : pm_leader_key (pm_leaderKey pm);
  pp_old : Forall (pm_gone db) old }.
Record shared (b : nat) (w : managers) : Prop := mk_shared {
  sh_sm : sm_part b (m_sm w) (m_sm_former w) (m_db w);
  sh_pm : pm_part b (m_pm w) (m_pm_former w) (m_db w);
  sh_known : known_keys (m_db w) }.

Lemma finish_keeps {R} sm (m : tx (StreamManager * R)) db sm' db' : keeps sm_key (fun r => same_sm sm (fst r)) m -> finish sm (m db) = (sm', db') ->
  same_sm sm sm' /\ forall k, other_key k -> db' !! k = db !! k.
Proof using.
  intros Hm. destruct (Hm db) as [Hk Ha]. unfold finish. destruct (m db) as [db1 [[sm1 r]|e|]]; cbn [fst snd] in *; intros [= <- <-];
    (split; [first [apply (Ha _ eq_refl)|done]|]); intros k Hok; apply Hk; intros Hn; by apply Hn.
Qed.
Lemma pm_finish_keeps {R} pm (m : tx (PartitionManager * R)) db pm' db' : keeps pm_key (fun r => same_pm pm (fst r)) m -> pm_finish pm (m db) = (pm', db') ->
  same_pm pm pm' /\ forall k, pm_other_key k -> db' !! k = db !! k.
Proof using.
  intros Hm. destruct (Hm db) as [Hk Ha]. unfold pm_finish. destruct (m db) as [db1 [[pm1 r]|e|]]; cbn [fst snd] in *; intros [= <- <-];
    (split; [first [apply (Ha _ eq_refl)|done]|]); intros k Hok; apply Hk; intros Hn; by apply Hn.
Qed.
Lemma request_keeps sm db ev sm' db' : is_request ev -> sm_step (sm, db) ev = (sm', db') -> same_sm sm sm' /\ forall k, other_key k -> db' !! k = db !! k.
Proof using.
  destruct ev; cbn [sm_step is_request]; intros Hr E; [..|done].
  - eapply finish_keeps; [apply CreateStream_keeps|exact E].
  - eapply finish_keeps; [apply RegisterNode_keeps|exact E].
  - eapply finish_keeps; [apply Truncate_keeps|exact E].
  - eapply finish_keeps; [apply StreamAllocExtent_keeps|exact E].
Qed.
Lemma pm_handle_keeps pm db ev pm' db' : pm_handle (pm, db) ev = (pm', db') -> same_pm pm pm' /\ forall k, pm_other_key k -> db' !! k = db !! k.
Proof using.
  destruct ev; cbn [pm_handle]; intros E.
  - eapply pm_finish_keeps; [apply RegisterPS_keeps|exact E].
  - eapply pm_finish_keeps; [apply Bootstrap_keeps|exact E].
  - eapply pm_finish_keeps; [apply SetRowStreamTables_keeps|exact E].
Qed.
(** an election changes the keys of the election only *)
Lemma elect_keeps lease member n1 n2 n3 sm db sm' db' : elect lease member n1 n2 n3 sm db = (sm', db') ->
  leaderKey sm' = electionKey lease /\ db' = <[electionKey lease := member]> (delete (leaderKey sm) db).
Proof using.
  unfold elect. set (sm1 := mkSM ∅ ∅ ∅ false member (electionKey lease) newMutex).
  assert (keeps (fun _ => False) (same_sm sm1) (runAsLeader n1 n2 n3 sm1)) as Hr by (unfold runAsLeader; keeps_all; by intros r [= <-]).
  destruct (Hr (<[electionKey lease := member]> (delete (leaderKey sm) db))) as [Hk Ha].
  destruct (runAsLeader n1 n2 n3 sm1 _) as [db1 [sm2|er|]]; cbn [fst snd] in *; intros [= <- <-];
    (split; [try done; by destruct (Ha _ eq_refl) as [-> _]|]); apply map_eq; intros k; exact (Hk k id).
Qed.
Lemma pm_elect_keeps lease member n1 n2 pm db pm' db' : pm_elect lease member n1 n2 pm db = (pm', db') ->
  pm_leaderKey pm' = pm_electionKey lease /\ db' = <[pm_electionKey lease := member]> (delete (pm_leaderKey pm) db).
Proof using.
  unfold pm_elect. set (pm1 := mkPM ∅ ∅ false member (pm_electionKey lease)).
  assert (keeps (fun _ => False) (same_pm pm1) (pm_runAsLeader n1 n2 pm1)) as Hr by (unfold pm_runAsLeader; keeps_all; by intros r [= <-]).
  destruct (Hr (<[pm_electionKey lease := member]> (delete (pm_leaderKey pm) db))) as [Hk Ha].
  destruct (pm_runAsLeader n1 n2 pm1 _) as [db1 [pm2|er|]]; cbn [fst snd] in *; intros [= <- <-];
    (split; [try done; by destruct (Ha _ eq_refl) as [-> _]|]); apply map_eq; intros k; exact (Hk k id).
Qed.

(** *** What one manager changes, the other does not look at *)

Lemma pm_holds_frame b pm db db' : pm_holds (S b) (pm, db) -> (forall k, pm_key k \/ k = pm_leaderKey pm -> db' !! k = db !! k) -> pm_holds b (pm, db').
Proof using.
  intros (N & P & next & Hi) Hf. cbn [fst snd] in Hi. exists N, P, next. cbn [fst snd]. eapply pm_inv_frame; [eapply pm_inv_le; [|exact Hi]; lia|exact Hf].
Qed.
Lemma sm_holds_frame b sm db db' : holds (S b) (sm, db) -> (forall k, sm_key k \/ k = leaderKey sm -> db' !! k = db !! k) -> holds b (sm, db').
Proof using.
  intros (S & E & N & next & Hi) Hf. cbn [fst snd] in Hi. exists S, E, N, next. cbn [fst snd]. eapply sm_inv_frame; [eapply sm_inv_le; [|exact Hi]; lia|exact Hf].
Qed.
Lemma sm_key_no_pm k : sm_key k -> pm_other_key k.
Proof using. intros Hk. by destruct (sm_key_not_pm k). Qed.
Lemma pm_key_no_sm k : pm_key k -> other_key k.
Proof using. intros Hk. by destruct (sm_key_not_pm k). Qed.
(** the keys of nobody else *)
Definition sm_side (db db' : etcd) : Prop := forall k, other_key k -> (forall lease, k <> electionKey lease) -> db' !! k = db !! k.
Definition pm_side (db db' : etcd) : Prop := forall k, pm_other_key k -> (forall lease, k <> pm_electionKey lease) -> db' !! k = db !! k.

Lemma pm_part_frame b pm old db db' : pm_part (S b) pm old db -> sm_side db db' -> pm_part b pm old db'.
Proof using.
  intros [Hp Hk Ho] Hs. assert (forall k, pm_leader_key k -> db' !! k = db !! k) as Hlk.
  { intros k Hl. apply Hs; [by apply pm_leader_other|]. intros lease ->. destruct Hl as [E|[l E]]; discriminate E. }
  split; [|done|].
  - eapply pm_holds_frame; [exact Hp|]. intros k [Hpk| ->]; [|by apply Hlk]. apply Hs; [by apply pm_key_no_sm|]. intros lease ->. by apply Hpk, election_no_pm.
  - eapply Forall_impl; [exact Ho|]. intros p [Hl Hv]. split; [done|]. by rewrite Hlk.
Qed.
Lemma sm_part_frame b sm old db db' : sm_part (S b) sm old db -> pm_side db db' -> sm_part b sm old db'.
Proof using.
  intros [Hp Hk Ho] Hs. assert (forall k, sm_leader_key k -> db' !! k = db !! k) as Hlk.
  { intros k Hl. apply Hs; [by apply sm_leader_other|]. intros lease ->. destruct Hl as [E|[l E]]; discriminate E. }
  split; [|done|].
  - eapply sm_holds_frame; [exact Hp|]. intros k [Hpk| ->]; [|by apply Hlk]. apply Hs; [by apply sm_key_no_pm|]. intros lease ->. by apply Hpk, pm_election_no_sm.
  - eapply Forall_impl; [exact Ho|]. intros p [Hl Hv]. split; [done|]. by rewrite Hlk.
Qed.

(** *** Each move keeps the invariant *)

Lemma gone_frame db db' old : Forall (sm_gone db) old -> (forall k, sm_leader_key k -> db !! k = None -> db' !! k = None) -> Forall (sm_gone db') old.
Proof using. intros Ho Hf. eapply Forall_impl; [exact Ho|]. intros p [Hl Hv]. split; [done|]. by apply Hf. Qed.
Lemma pm_gone_frame db db' old : Forall (pm_gone db) old -> (forall k, pm_leader_key k -> db !! k = None -> db' !! k = None) -> Forall (pm_gone db') old.
Proof using. intros Ho Hf. eapply Forall_impl; [exact Ho|]. intros p [Hl Hv]. split; [done|]. by apply Hf. Qed.
(** a key that no former leader had *)
Lemma gone_fresh db old key (v : bytes) : Forall (sm_gone db) old -> Forall (fun q => leaderKey q <> key) old -> Forall (sm_gone (<[key := v]> db)) old.
Proof using. rewrite !Forall_forall. intros Ho Hf q Hq. destruct (Ho q Hq) as [Hl Hv]. split; [done|]. rewrite lookup_insert_ne; [done|]. intros E. by apply (Hf q Hq). Qed.
Lemma pm_gone_fresh db old key (v : bytes) : Forall (pm_gone db) old -> Forall (fun q => pm_leaderKey q <> key) old -> Forall (pm_gone (<[key := v]> db)) old.
Proof using. rewrite !Forall_forall. intros Ho Hf q Hq. destruct (Ho q Hq) as [Hl Hv]. split; [done|]. rewrite lookup_insert_ne; [done|]. intros E. by apply (Hf q Hq). Qed.
(** the lease of a leader runs out *)
Lemma sm_expires b sm db : holds b (sm, db) -> other_key (leaderKey sm) -> holds b (no_sm, delete (leaderKey sm) db).
Proof using.
  intros (S & E & N & next & [H1' H2' _ _ _]) Hk. exists S, E, N, next. split; [|done|done|apply empty_other|done].
  apply (db_ok_other db); [done|]. intros k Hn. apply lookup_delete_ne. by intros <-.
Qed.
Lemma pm_expires b pm db : pm_holds b (pm, db) -> pm_other_key (pm_leaderKey pm) -> pm_holds b (no_pm, delete (pm_leaderKey pm) db).
Proof using.
  intros (N & P & next & [H1' H2' _ _]) Hk. exists N, P, next. split; [|done|done|apply empty_other].
  apply (pm_db_ok_other db); [done|]. intros k Hn. apply lookup_delete_ne. by intros <-.
Qed.
Lemma holds_le b sm db : holds (S b) (sm, db) -> holds b (sm, db).
Proof using. intros (S & E & N & next & Hi). exists S, E, N, next. eapply sm_inv_le; [|exact Hi]. lia. Qed.
Lemma pm_holds_le b pm db : pm_holds (S b) (pm, db) -> pm_holds b (pm, db).
Proof using. intros (N & P & next & Hi). exists N, P, next. eapply pm_inv_le; [|exact Hi]. lia. Qed.
(** a former leader takes ids *)
Lemma former_takes b sm db S E N next p ev p' db' : sm_inv (Datatypes.S b) sm db S E N next -> sm_gone db p -> is_request ev -> sm_step (p, db) ev = (p', db') ->
  exists next', next <= next' <= next + 2 /\ sm_inv b sm db' S E N next' /\ forall k, k <> idKey -> db' !! k = db !! k.
Proof using.
  intros Hi [Hl Hv] Hreq Es. destruct (proj1 (sm_leader_other _ Hl)) as (_ & _ & _ & Hne). pose proof (si_room _ _ _ _ _ _ _ Hi).
  destruct (request_takes p db ev p' db' next Hreq Hne Es (do_next _ _ _ _ _ (si_db _ _ _ _ _ _ _ Hi)) ltac:(lia) Hv) as (next' & Hn & Hle & Hk).
  exists next'. split; [done|]. split; [by eapply sm_inv_alloc|done].
Qed.
Lemma pm_former_takes b pm db N P next p ev p' db' : pm_inv (S b) pm db N P next -> pm_gone db p -> pm_handle (p, db) ev = (p', db') ->
  exists next', next <= next' <= next + 2 /\ pm_inv b pm db' N P next' /\ forall k, k <> pm_idKey -> db' !! k = db !! k.
Proof using.
  intros Hi [Hl Hv] Es. destruct (proj2 (pm_leader_other _ Hl)) as (_ & _ & Hne). pose proof (pi_room _ _ _ _ _ _ Hi).
  destruct (pm_request_takes p db ev p' db' next Hne Es (pd_next _ _ _ _ (pi_db _ _ _ _ _ _ Hi)) ltac:(lia) Hv) as (next' & Hn & Hle & Hk).
  exists next'. split; [done|]. split; [by eapply pm_inv_alloc|done].
Qed.
Lemma sm_former_request b sm old db p ev p' db' : sm_part (S b) sm old db -> sm_gone db p -> is_request ev -> sm_step (p, db) ev = (p', db') ->
  holds b (sm, db') /\ sm_gone db' p' /\ forall k, k <> idKey -> db' !! k = db !! k.
Proof using.
  intros [(S & E & N & next & Hi) _ _] Hg Hreq Es. cbn [fst snd] in Hi. destruct (former_takes _ _ _ _ _ _ _ _ _ _ _ Hi Hg Hreq Es) as (next' & _ & Hi' & Hk).
  destruct (proj1 (request_keeps p db ev p' db' Hreq Es)) as [Ek _]. destruct Hg as [Hl Hv]. split; [by exists S, E, N, next'|]. split; [|done].
  unfold sm_gone. rewrite Ek. split; [done|]. rewrite Hk; [done|]. by destruct (proj1 (sm_leader_other _ Hl)) as (_ & _ & _ & ?).
Qed.
Lemma pm_former_request b pm old db p ev p' db' : pm_part (S b) pm old db -> pm_gone db p -> pm_handle (p, db) ev = (p', db') ->
  pm_holds b (pm, db') /\ pm_gone db' p' /\ forall k, k <> pm_idKey -> db' !! k = db !! k.
Proof using.
  intros [(N & P & next & Hi) _ _] Hg Es. cbn [fst snd] in Hi. destruct (pm_former_takes _ _ _ _ _ _ _ _ _ _ Hi Hg Es) as (next' & _ & Hi' & Hk).
  destruct (proj1 (pm_handle_keeps p db ev p' db' Es)) as [Ek _]. destruct Hg as [Hl Hv]. split; [by exists N, P, next'|]. split; [|done].
  unfold pm_gone. rewrite Ek. split; [done|]. rewrite Hk; [done|]. by destruct (proj2 (pm_leader_other _ Hl)) as (_ & _ & ?).
Qed.

Lemma sm_moves_ok b sm old db sm' old' db' : sm_part (S b) sm old db -> known_keys db -> sm_moves sm old db sm' old' db' ->
  sm_part b sm' old' db' /\ known_keys db' /\ sm_side db db'.
Proof using.
  intros Hp Hkn Hm. pose proof Hp as [Hh Hl Ho]. pose proof (proj1 (sm_leader_other _ Hl)) as Hok.
  destruct Hm as [ev sm' db' Hreq Hev E| | |i p ev p' db' Hi Hreq E|i p Hi|i|lease id name url p Hlk Hfresh Hc Enew|lease Hlk|lease id name url p n1 n2 n3 sm' db' Hnone Hfresh Hc Enew E].
  - destruct (request_keeps sm db ev sm' db' Hreq E) as [[Ek _] Hf]. pose proof (sm_step_ok b (sm, db) ev Hh Hev) as Hh'. rewrite E in Hh'. split; [split|split].
    + done.
    + by rewrite Ek.
    + eapply gone_frame; [exact Ho|]. intros k Hk Hv. rewrite Hf; [done|by apply sm_leader_other].
    + eapply (known_keys_frame sm_key); [exact Hkn|auto|apply _|]. intros k Hk. apply Hf. by apply dec_stable.
    + intros k Hk _. by apply Hf.
  - split; [split|split].
    + apply sm_expires; [by apply holds_le|done].
    + by left.
    + constructor; [split; [done|apply lookup_delete_eq]|]. eapply gone_frame; [exact Ho|]. intros k _ Hv. apply lookup_delete_None. by right.
    + by apply known_keys_expire.
    + intros k _ Hne. destruct Hl as [->|[l ->]]; [|apply lookup_delete_ne; intros E; by apply (Hne l)]. by rewrite delete_id by (by apply known_no_empty).
  - split; [split; [|done..]|done]. destruct (holds_le _ _ _ Hh) as (S & E & N & next & [H1' H2' _ H4' H5']). by exists S, E, N, next.
  - pose proof (proj1 (Forall_lookup _ _) Ho i p Hi) as Hg. destruct (sm_former_request b sm old db p ev p' db' Hp Hg Hreq E) as (Hh' & Hg' & Hk). split; [split|split].
    + done.
    + done.
    + apply Forall_insert; [|done]. eapply gone_frame; [exact Ho|]. intros k Hkl Hv. rewrite Hk; [done|]. intros ->. by destruct (proj1 (sm_leader_other _ Hkl)) as (_ & _ & _ & ?).
    + eapply (known_keys_frame sm_key); [exact Hkn|auto|apply _|]. intros k Hks. apply Hk. intros ->. apply Hks, sm_key_id.
    + intros k Hks _. apply Hk. intros ->. by apply sm_key_id in Hks.
  - split; [split; [by apply holds_le|done|]|done]. apply Forall_insert; [done|]. exact (proj1 (Forall_lookup _ _) Ho i p Hi).
  - split; [split; [by apply holds_le|done|]|done]. by apply Forall_delete.
  - assert (member_value (memberValue p)) as Hm by (destruct (NewStreamManager_member id name url Hc) as (q & Eq & Hq); congruence). split; [split|split].
    + eapply sm_holds_frame; [exact Hh|]. intros k Hk. apply lookup_insert_ne. destruct Hk as [Hk| ->]; [intros <-; apply Hk, election_other|done].
    + done.
    + eapply gone_fresh; [exact Ho|exact Hfresh].
    + apply known_keys_put; [done|exists lease; by left|done].
    + intros k _ Hne. apply lookup_insert_ne. intros E1. by apply (Hne lease).
  - split; [split|split].
    + eapply sm_holds_frame; [exact Hh|]. intros k Hk. apply lookup_delete_ne. destruct Hk as [Hk| ->]; [intros <-; apply Hk, election_other|done].
    + done.
    + eapply gone_frame; [exact Ho|]. intros k _ Hv. apply lookup_delete_None. by right.
    + by apply known_keys_expire.
    + intros k _ Hne. apply lookup_delete_ne. intros E1. by apply (Hne lease).
  - destruct (elect_keeps _ _ _ _ _ _ _ _ _ E) as [Ek Edb]. pose proof (sm_step_ok b (sm, db) (EvElect lease (memberValue p) n1 n2 n3) Hh I) as Hh'. cbn [sm_step] in Hh'. rewrite E in Hh'.
    rewrite Hnone, delete_id in Edb by (by apply known_no_empty). split; [split|split].
    + done.
    + rewrite Ek. right. by exists lease.
    + subst db'. eapply gone_fresh; [exact Ho|exact Hfresh].
    + subst db'. apply known_keys_put; [done|exists lease; by left|].
      destruct (NewStreamManager_member id name url Hc) as (q & Eq & Hq). congruence.
    + subst db'. intros k _ Hne. apply lookup_insert_ne. intros E1. by apply (Hne lease).
Qed.
Lemma pm_moves_ok b pm old db pm' old' db' : pm_part (S b) pm old db -> known_keys db -> pm_moves pm old db pm' old' db' ->
  pm_part b pm' old' db' /\ known_keys db' /\ pm_side db db'.
Proof using.
  intros Hp Hkn Hm. pose proof Hp as [Hh Hl Ho]. pose proof (proj2 (pm_leader_other _ Hl)) as Hok.
  destruct Hm as [ev pm' db' Hev E| | |i p ev p' db' Hi E|i p Hi|i|lease id name url p Hlk Hfresh Hc Enew|lease Hlk|lease id name url p n1 n2 pm' db' Hnone Hfresh Hc Enew E].
  - destruct (pm_handle_keeps pm db ev pm' db' E) as [[Ek _] Hf]. pose proof (pm_handle_ok b pm db ev Hh Hev) as Hh'. rewrite E in Hh'. split; [split|split].
    + done.
    + by rewrite Ek.
    + eapply pm_gone_frame; [exact Ho|]. intros k Hk Hv. rewrite Hf; [done|by apply pm_leader_other].
    + eapply (known_keys_frame pm_key); [exact Hkn|auto|apply _|]. intros k Hk. apply Hf. by apply dec_stable.
    + intros k Hk _. by apply Hf.
  - split; [split|split].
    + apply pm_expires; [by apply pm_holds_le|done].
    + by left.
    + constructor; [split; [done|apply lookup_delete_eq]|]. eapply pm_gone_frame; [exact Ho|]. intros k _ Hv. apply lookup_delete_None. by right.
    + by apply known_keys_expire.
    + intros k _ Hne. destruct Hl as [->|[l ->]]; [|apply lookup_delete_ne; intros E; by apply (Hne l)]. by rewrite delete_id by (by apply known_no_empty).
  - split; [split; [|done..]|done]. destruct (pm_holds_le _ _ _ Hh) as (N & P & next & [H1' H2' _ H4']). by exists N, P, next.
  - pose proof (proj1 (Forall_lookup _ _) Ho i p Hi) as Hg. destruct (pm_former_request b pm old db p ev p' db' Hp Hg E) as (Hh' & Hg' & Hk). split; [split|split].
    + done.
    + done.
    + apply Forall_insert; [|done]. eapply pm_gone_frame; [exact Ho|]. intros k Hkl Hv. rewrite Hk; [done|]. intros ->. by destruct (proj2 (pm_leader_other _ Hkl)) as (_ & _ & ?).
    + eapply (known_keys_frame pm_key); [exact Hkn|auto|apply _|]. intros k Hks. apply Hk. intros ->. apply Hks, pm_key_id.
    + intros k Hks _. apply Hk. intros ->. by apply pm_key_id in Hks.
  - split; [split; [by apply pm_holds_le|done|]|done]. apply Forall_insert; [done|]. exact (proj1 (Forall_lookup _ _) Ho i p Hi).
  - split; [split; [by apply pm_holds_le|done|]|done]. by apply Forall_delete.
  - assert (member_value (pm_memberValue p)) as Hm by (destruct (NewPartitionManager_member id name url Hc) as (q & Eq & Hq); congruence). split; [split|split].
    + eapply pm_holds_frame; [exact Hh|]. intros k Hk. apply lookup_insert_ne. destruct Hk as [Hk| ->]; [intros <-; apply Hk, pm_election_other|done].
    + done.
    + eapply pm_gone_fresh; [exact Ho|exact Hfresh].
    + apply known_keys_put; [done|exists lease; by right|done].
    + intros k _ Hne. apply lookup_insert_ne. intros E1. by apply (Hne lease).
  - split; [split|split].
    + eapply pm_holds_frame; [exact Hh|]. intros k Hk. apply lookup_delete_ne. destruct Hk as [Hk| ->]; [intros <-; apply Hk, pm_election_other|done].
    + done.
    + eapply pm_gone_frame; [exact Ho|]. intros k _ Hv. apply lookup_delete_None. by right.
    + by apply known_keys_expire.
    + intros k _ Hne. apply lookup_delete_ne. intros E1. by apply (Hne lease).
  - destruct (pm_elect_keeps _ _ _ _ _ _ _ _ E) as [Ek Edb]. pose proof (pm_step_ok b (pm, db) _ Hh (step_elect pm db lease (pm_memberValue p) n1 n2)) as Hh'. rewrite E in Hh'.
    rewrite Hnone, delete_id in Edb by (by apply known_no_empty). split; [split|split].
    + done.
    + rewrite Ek. right. by exists lease.
    + subst db'. eapply pm_gone_fresh; [exact Ho|exact Hfresh].
    + subst db'. apply known_keys_put; [done|exists lease; by right|].
      destruct (NewPartitionManager_member id name url Hc) as (q & Eq & Hq). congruence.
    + subst db'. intros k _ Hne. apply lookup_insert_ne. intros E1. by apply (Hne lease).
Qed.
Lemma both_run_shared n w : both_run n w -> forall b, 2 * Z.of_nat (n + b) + 1 < 2 ^ 64 -> shared b w.
Proof using.
  induction 1 as [|n w w' _ IH Hs]; intros b Hb.
  - split; [split; [apply sm_init_ok; lia|by left|constructor]|split; [apply (pm_run_ok 0); [apply run_init|lia]|by left|constructor]|].
    intros k v Ek. change ((∅ : etcd) !! k = Some v) in Ek. by rewrite lookup_empty in Ek.
  - destruct (IH (S b) ltac:(lia)) as [H1' H2' H3']. destruct Hs as [sm' old' db' Hm|pm' old' db' Hm].
    + destruct (sm_moves_ok _ _ _ _ _ _ _ H1' H3' Hm) as (A & B & C). split; [done|by eapply pm_part_frame|done].
    + destruct (pm_moves_ok _ _ _ _ _ _ _ H2' H3' Hm) as (A & B & C). split; [by eapply sm_part_frame|done|done].
Qed.

(** the next leader loads what etcd holds *)
Lemma elect_loads b sm db S E N next lease member : sm_inv b sm db S E N next -> exists ns,
  elect lease member Delivered Delivered Delivered sm db =
    (mkSM S E ns true member (electionKey lease) newMutex, <[electionKey lease := member]> (delete (leaderKey sm) db)) /\ ns_info <$> ns = N.
Proof using.
  intros Hi. pose proof (elect_db sm db S E N next lease member (si_db _ _ _ _ _ _ _ Hi) (si_key _ _ _ _ _ _ _ Hi)) as Hdb.
  destruct (runAsLeader_any Delivered Delivered Delivered (mkSM ∅ ∅ ∅ false member (electionKey lease) newMutex) _ S E N next Hdb) as (ns & HN & E1 & _).
  exists ns. split; [|done]. unfold elect. by rewrite E1.
Qed.
Lemma pm_elect_loads b pm db N P next lease member : pm_inv b pm db N P next ->
  pm_elect lease member Delivered Delivered pm db =
    (mkPM N P true member (pm_electionKey lease), <[pm_electionKey lease := member]> (delete (pm_leaderKey pm) db)).
Proof using.
  intros Hi. pose proof (pm_elect_db pm db N P next lease member (pi_db _ _ _ _ _ _ Hi) (pi_key _ _ _ _ _ _ Hi)) as Hdb.
  unfold pm_elect. by rewrite (pm_runAsLeader_any Delivered Delivered _ _ N P next Hdb).
Qed.

(** C7: The stream manager and the partition manager share one etcd. In every sequence of their
    requests, whichever etcd messages and answers are lost, however often processes crash, leases
    run out and others campaign and are elected, and whatever is asked of former leaders that still
    believe to lead, etcd stays consistent for both (every stream has extents, every extent three
    distinct registered nodes, server and partition records decode to what was set, ids are below
    the counters) and holds no key of anybody else; a process that leads and has not lost its key
    has in memory exactly what etcd holds, and its member value is under its key; a former leader,
    whose memory may differ, changes nothing in etcd but the id counter, which only grows; and the
    next leader of either loads exactly what etcd holds. Handlers run one after the other, a lease
    is never reused, and the leader is asked to set the tables of partitions that exist only (the
    handler does not check it). *)
Theorem managers_share_etcd n w : both_run n w -> 2 * Z.of_nat (n + 1) + 1 < 2 ^ 64 ->
  let sm := m_sm w in let pm := m_pm w in let db := m_db w in
  exists S E N next PS P pnext, db_ok db S E N next /\ pm_db_ok db PS P pnext /\ known_keys db /\
    (isLeader sm = true -> streams sm = S /\ extents sm = E /\ ns_info <$> nodes sm = N /\ db !! leaderKey sm = Some (memberValue sm)) /\
    (pm_isLeader pm = true -> psNodes pm = PS /\ partMeta pm = P /\ db !! pm_leaderKey pm = Some (pm_memberValue pm)) /\
    (forall p ev p' db', p ∈ m_sm_former w -> is_request ev -> sm_step (p, db) ev = (p', db') -> db !! leaderKey p = None /\
       exists next', next <= next' <= next + 2 /\ db_ok db' S E N next' /\ forall k, k <> idKey -> db' !! k = db !! k) /\
    (forall p ev p' db', p ∈ m_pm_former w -> pm_handle (p, db) ev = (p', db') -> db !! pm_leaderKey p = None /\
       exists pnext', pnext <= pnext' <= pnext + 2 /\ pm_db_ok db' PS P pnext' /\ forall k, k <> pm_idKey -> db' !! k = db !! k) /\
    forall lease member,
      (exists ns, elect lease member Delivered Delivered Delivered sm db =
         (mkSM S E ns true member (electionKey lease) newMutex, <[electionKey lease := member]> (delete (leaderKey sm) db)) /\ ns_info <$> ns = N) /\
      pm_elect lease member Delivered Delivered pm db =
        (mkPM PS P true member (pm_electionKey lease), <[pm_electionKey lease := member]> (delete (pm_leaderKey pm) db)).
Proof using.
  intros Hrun Hn sm pm db. destruct (both_run_shared n w Hrun 1 ltac:(lia)) as [[(S & E & N & next & Hi) _ Ho] [(PS & P & pnext & Hj) _ Hpo] Hk]. cbn [fst snd] in *.
  exists S, E, N, next, PS, P, pnext. split; [apply Hi|]. split; [apply Hj|]. split; [done|]. split; [apply Hi|]. split; [apply Hj|].
  split; [|split; [|intros lease member; split; [by eapply elect_loads|by eapply pm_elect_loads]]].
  - intros p ev p' db' Hp Hreq Es. destruct (proj1 (Forall_forall _ _) Ho p Hp) as [Hl Hv]. split; [done|].
    destruct (former_takes _ _ _ _ _ _ _ _ _ _ _ Hi (conj Hl Hv) Hreq Es) as (next' & Hle & [Hi' _ _ _ _] & Hf). by exists next'.
  - intros p ev p' db' Hp Es. destruct (proj1 (Forall_forall _ _) Hpo p Hp) as [Hl Hv]. split; [done|].
    destruct (pm_former_takes _ _ _ _ _ _ _ _ _ _ Hj (conj Hl Hv) Es) as (next' & Hle & [Hj' _ _ _] & Hf). by exists next'.
Qed.
End Both.
