(* ===== verification/DebugTool.v ===== *)
(** The debug tool (cmd/debug-tool/main.go): it reads everything the managers
    keep in etcd, shows it as a list and deletes keys. The toolkit that draws the
    list is not part of the model; a shown value is the message that is printed,
    before [fmt.Sprintf("%+v")] makes text of it. *)
From Stdlib Require Import ZArith Lia Strings.String.
From stdpp Require Import base option list numbers gmap sorting strings.
From S2P Require Import Prelude GoLib Utils Proto ProtoSub ProtoPs ProtoSm ProtoPm Etcd EtcdSpec StreamManager StreamManagerSpec.
From S2P Require Import PartitionManager PartitionParse PartitionManagerSpec PartitionManagerRun SharedEtcd.

(** ** What is shown *)

Inductive detail :=
| DNum (n : Z) | DMember (x : MemberValue) | DServer (x : PSDetail) | DExtent (x : ExtentInfo) | DNode (x : NodeInfo)
| DStream (x : StreamInfo) | DBlobs (x : BlobStreams) | DLocs (x : list Location) | DRaw (x : bytes) | DRange (x : Range).
Record KV := mkKV { KV_Key : string; KV_Value : detail }.

Definition debug_parse (s : string) : outcome (Z * string) :=
  match split_slash s with
  | [_; n; suffix] => let! id := ParseUint n in Ok (id, suffix)
  | _ => Err (Errorf "len(parts) not 3")
  end.
(** [if err := x.Unmarshal(kv.Value); err != nil { panic(err) }] *)
Definition show_as {A} (k : string) (x : outcome A) (d : A -> detail) : outcome KV := let! x := must x in Ok (mkKV k (d x)).
Definition debug_parseParts (kv : string * bytes) : outcome KV :=
  let '(k, v) := kv in
  let! (_, suffix) := must (debug_parse k) in
  if decide (suffix = "blobStreams"%string) then show_as k (BlobStreams_Unmarshal v) DBlobs
  else if decide (suffix = "logStream"%string) then show_as k (Uint64 v) DNum
  else if decide (suffix = "rowStream"%string) then show_as k (Uint64 v) DNum
  else if decide (suffix = "tables"%string) then show_as k (TableLocations_Unmarshal v) (fun tables => DLocs (Locs tables))
  else if decide (suffix = "discard"%string) then Ok (mkKV k (DRaw v))
  else if decide (suffix = "parent"%string) then show_as k (Uint64 v) DNum
  else if decide (suffix = "range"%string) then show_as k (Range_Unmarshal v) DRange
  else Panic.

(** the body of the loop of [receiveData] *)
Definition show_kv (kv : string * bytes) : outcome KV :=
  let '(k, v) := kv in
  if String.prefix "PART" k then debug_parseParts kv
  else if String.prefix "AutumnSMIDKey" k || String.prefix "AutumnPMIDKey" k then show_as k (Uint64 v) DNum
  else if String.prefix "AutumnSMLeader" k || String.prefix "AutumnPMLeader" k then show_as k (MemberValue_Unmarshal v) DMember
  else if String.prefix "PSSERVER" k then show_as k (PSDetail_Unmarshal v) DServer
  else if String.prefix "extents" k then show_as k (ExtentInfo_Unmarshal v) DExtent
  else if String.prefix "nodes" k then show_as k (NodeInfo_Unmarshal v) DNode
  else if String.prefix "streams" k then show_as k (StreamInfo_Unmarshal v) DStream
  else Panic.
Fixpoint receive_loop (kvs : list (string * bytes)) (data : list KV) : outcome (list KV) :=
  match kvs with
  | [] => Ok data
  | kv :: kvs => let! d := show_kv kv in receive_loop kvs (data ++ [d])
  end.
Definition receiveData (n : net) : tx (list KV) := fun db =>
  match EtcdRange n EmptyString db with
  | (db, Ok kvs) => (db, receive_loop kvs [])
  | (db, _) => (db, Panic)
  end.
Definition deleteKey (n : net) (key : string) : tx unit := fun db =>
  match n with
  | Delivered => (delete key db, Ok tt)
  | Lost => (db, Err errTimeout)
  | NoReply => (delete key db, Err errTimeout)
  end.

(** ** The window *)

(** [data] and the text of [detailText]; [None] is the prompt *)
Record Tool := mkTool { tool_data : list KV; detailText : option detail }.
Definition refresh (n : net) (t : Tool) : tx Tool :=
  let* data := receiveData n in tret (Ok (mkTool data (detailText t))).
Definition OnSelected (id : Z) (t : Tool) : outcome Tool :=
  match (if id <? 0 then None else tool_data t !! Z.to_nat id) with
  | None => Panic
  | Some d => Ok (mkTool (tool_data t) (Some (KV_Value d)))
  end.
Definition OnUnselected (t : Tool) : Tool := mkTool (tool_data t) None.
(** the callback of the delete dialog, [b]: whether it was confirmed; after an
    error the list stays as it is *)
Definition deleteButton (n1 n2 : net) (b : bool) (key : string) (t : Tool) : tx Tool := fun db =>
  if b then
    match deleteKey n1 key db with
    | (db, Ok _) => refresh n2 t db
    | (db, _) => (db, Ok t)
    end
  else (db, Ok t).

(** ** The loop *)

Lemma receive_loop_ok kvs ds : Forall2 (fun kv d => show_kv kv = Ok d) kvs ds -> forall acc, receive_loop kvs acc = Ok (acc ++ ds).
Proof.
  induction 1 as [|kv d kvs ds E _ IH]; intros acc; cbn [receive_loop]; [by rewrite app_nil_r|]. rewrite E. cbn [obind]. by rewrite IH, <- app_assoc.
Qed.
Lemma show_as_cases {A} k (x : outcome A) d : (exists a, x = Ok a /\ show_as k x d = Ok (mkKV k (d a))) \/ show_as k x d = Panic.
Proof. destruct x as [a|e|]; [left; by exists a|by right..]. Qed.
(** an entry is shown under its key, or the tool panics *)
Lemma show_kv_cases kv : (exists d, show_kv kv = Ok d /\ KV_Key d = fst kv) \/ show_kv kv = Panic.
Proof.
  assert (forall A k (x : outcome A) d, (exists e, show_as k x d = Ok e /\ KV_Key e = k) \/ show_as k x d = Panic) as Hs.
  { intros A k x d. destruct (show_as_cases k x d) as [(a & _ & E)|E]; [left; by eexists|by right]. }
  destruct kv as [k v]. unfold show_kv, debug_parseParts. cbn [fst]. repeat case_match; auto.
  destruct (debug_parse k) as [[i s]|e|]; cbn [must obind]; [|by right..]. repeat case_decide; auto. left. by eexists.
Qed.
Lemma receive_loop_panics kvs : (exists kv, kv ∈ kvs /\ show_kv kv = Panic) -> forall acc, receive_loop kvs acc = Panic.
Proof.
  induction kvs as [|kv kvs IH]; intros (kv0 & Hin & E) acc; [by apply not_elem_of_nil in Hin|]. cbn [receive_loop].
  destruct (show_kv_cases kv) as [(d & Ed & _)|Ed]; rewrite Ed; [|done]. apply elem_of_cons in Hin as [->|Hin]; [congruence|]. cbn [obind]. apply IH. by exists kv0.
Qed.

(** ** What etcd returns *)

Definition dump (db : etcd) : list (string * bytes) := merge_sort key_ord (map_to_list db).
Lemma EtcdRange_all db : EtcdRange Delivered EmptyString db = (db, Ok (dump db)).
Proof. unfold EtcdRange, dump. rewrite filter_all; [done|]. intros [[|c s] v] _; done. Qed.
Lemma elem_dump (db : etcd) k v : (k, v) ∈ dump db <-> db !! k = Some v.
Proof. unfold dump. by rewrite merge_sort_Permutation, elem_of_map_to_list. Qed.
Lemma dump_nodup (db : etcd) : NoDup (dump db).*1.
Proof. unfold dump. rewrite merge_sort_Permutation. apply NoDup_fst_map_to_list. Qed.
Lemma dump_sorted (db : etcd) : StronglySorted key_ord (dump db).
Proof. unfold dump. apply StronglySorted_merge_sort; apply _. Qed.
Lemma key_ord_antisym a b : key_ord a b -> key_ord b a -> fst a = fst b.
Proof.
  unfold key_ord. rewrite (String.compare_antisym (fst b)). destruct (String.compare (fst a) (fst b)) eqn:E; cbn; [|done..].
  intros _ _. by apply String.compare_eq_iff.
Qed.
Lemma StronglySorted_filter_kv (P : string * bytes -> Prop) `{forall x, Decision (P x)} l : StronglySorted key_ord l -> StronglySorted key_ord (filter P l).
Proof.
  induction 1 as [|x l _ IH Hx]; [constructor|]. destruct (decide (P x)) as [Hp|Hp]; [rewrite filter_cons_True by done|by rewrite filter_cons_False].
  constructor; [done|]. rewrite Forall_forall in *. intros y [_ Hy]%list_elem_of_filter. by apply Hx.
Qed.
Lemma keys_sorted l : StronglySorted key_ord l -> StronglySorted (fun a b => String.compare a b <> Gt) l.*1.
Proof. induction 1 as [|kv l _ IH Hl]; cbn [fmap list_fmap]; [constructor|]. constructor; [done|]. rewrite Forall_fmap. exact Hl. Qed.
(** a sorted list of the same entries is the answer *)
Lemma dump_unique (db : etcd) l : StronglySorted key_ord l -> NoDup l.*1 -> (forall k v, (k, v) ∈ l <-> db !! k = Some v) -> dump db = l.
Proof.
  intros Hs Hnd Hl. assert (Permutation (dump db) l) as Hp.
  { apply NoDup_Permutation; [by eapply NoDup_fmap_1, dump_nodup|by eapply NoDup_fmap_1|]. intros [k v]. by rewrite elem_dump, Hl. }
  eapply StronglySorted_unique_strong; [|apply dump_sorted|exact Hs|exact Hp].
  intros [k v] [k' v'] Hx Hy H1' H2'. pose proof (key_ord_antisym _ _ H1' H2') as E. cbn in E. subst k'.
  apply elem_dump in Hx. apply Hl in Hy. congruence.
Qed.
Lemma dump_delete (db : etcd) key : dump (delete key db) = filter (fun kv => fst kv <> key) (dump db).
Proof.
  apply dump_unique.
  - apply StronglySorted_filter_kv, dump_sorted.
  - eapply sublist_NoDup; [apply (dump_nodup db)|]. apply fmap_sublist, sublist_filter.
  - intros k v. rewrite list_elem_of_filter, elem_dump, lookup_delete_Some. cbn. split; intros [? ?]; split; congruence.
Qed.

(** ** What the cluster stores *)

Definition leader_key (k : string) : Prop := exists lease, k = electionKey lease \/ k = pm_electionKey lease.
Definition unknown_key (k : string) : Prop :=
  Forall (fun p => String.prefix p k = false) ["PART"; "AutumnSMIDKey"; "AutumnPMIDKey"; "AutumnSMLeader"; "AutumnPMLeader"; "PSSERVER"; "extents"; "nodes"; "streams"]%string.

(** the lines of one partition *)
Definition meta_details (m : PartitionMeta) : list KV :=
  [mkKV (partKey (Meta_PartID m) "logStream") (DNum (Meta_LogStream m));
   mkKV (partKey (Meta_PartID m) "rowStream") (DNum (Meta_RowStream m));
   mkKV (partKey (Meta_PartID m) "parent") (DNum (Meta_Parent m))] ++
  option_list ((fun r => mkKV (partKey (Meta_PartID m) "range") (DRange r)) <$> Meta_Rg m) ++
  option_list ((fun l => mkKV (partKey (Meta_PartID m) "tables") (DLocs (Locs l))) <$> Meta_Locs m).

Lemma parse_shown id s : is_u64 id -> no_slash s -> debug_parse (partKey id s) = Ok (id, s).
Proof. intros Hid Hs. unfold debug_parse. rewrite split_partKey, split_no_slash by done. by rewrite ParseUint_format. Qed.
Lemma show_part id s v : is_u64 id -> no_slash s -> show_kv (partKey id s, v) =
  (if decide (s = "blobStreams"%string) then show_as (partKey id s) (BlobStreams_Unmarshal v) DBlobs
   else if decide (s = "logStream"%string) then show_as (partKey id s) (Uint64 v) DNum
   else if decide (s = "rowStream"%string) then show_as (partKey id s) (Uint64 v) DNum
   else if decide (s = "tables"%string) then show_as (partKey id s) (TableLocations_Unmarshal v) (fun tables => DLocs (Locs tables))
   else if decide (s = "discard"%string) then Ok (mkKV (partKey id s) (DRaw v))
   else if decide (s = "parent"%string) then show_as (partKey id s) (Uint64 v) DNum
   else if decide (s = "range"%string) then show_as (partKey id s) (Range_Unmarshal v) DRange
   else Panic).
Proof.
  intros Hid Hs. change (show_kv (partKey id s, v)) with (debug_parseParts (partKey id s, v)). unfold debug_parseParts.
  rewrite parse_shown by done. done.
Qed.
(** the entries of a partition are shown as its lines *)
Lemma meta_shown m : meta_ok m -> Forall2 (fun e d => show_kv (entry_kv e) = Ok d) (meta_entries m) (meta_details m).
Proof.
  intros [[Hi _] (Hl & Hr & Hp) (r & Er & Hrg) Hlocs _]. unfold meta_entries, meta_details. rewrite Er.
  assert (forall s, s ∈ ["logStream"; "rowStream"; "parent"; "range"; "tables"]%string -> no_slash s) as Hs.
  { apply Forall_forall. repeat (constructor; [repeat split; discriminate|]). constructor. }
  unfold entry_kv, entry_id, entry_suffix, entry_value. 
  repeat apply Forall2_app; [repeat (constructor; cbn [fst snd])..|destruct (Meta_Locs m) as [l|]; repeat (constructor; cbn [fst snd])];
    (rewrite show_part; [|done|apply Hs; rewrite !elem_of_cons; tauto]); cbn.
  - by rewrite Uint64_big.
  - by rewrite Uint64_big.
  - by rewrite Uint64_big.
  - by rewrite Range_Unmarshal_bytes.
  - by rewrite TableLocations_Unmarshal_bytes by auto.
Qed.
Lemma show_leader k x : leader_key k -> MemberValue_wf x -> show_kv (k, MemberValue_bytes x) = Ok (mkKV k (DMember x)).
Proof.
  intros [s [->| ->]] Hx.
  - change (show_as (electionKey s) (MemberValue_Unmarshal (MemberValue_bytes x)) DMember = Ok (mkKV (electionKey s) (DMember x))). by rewrite MemberValue_Unmarshal_bytes.
  - change (show_as (pm_electionKey s) (MemberValue_Unmarshal (MemberValue_bytes x)) DMember = Ok (mkKV (pm_electionKey s) (DMember x))). by rewrite MemberValue_Unmarshal_bytes.
Qed.
Lemma show_unknown k v : unknown_key k -> show_kv (k, v) = Panic.
Proof.
  unfold unknown_key. rewrite !Forall_cons. intros (E1 & E2 & E3 & E4 & E5 & E6 & E7 & E8 & E9 & _). unfold show_kv.
  by rewrite E1, E2, E3, E4, E5, E6, E7, E8, E9.
Qed.

Lemma sm_key_cases k : sm_key k -> String.prefix "streams" k = true \/ String.prefix "extents" k = true \/ String.prefix "nodes" k = true \/ k = idKey.
Proof.
  unfold sm_key, other_key. intros Hk. destruct (String.prefix "streams" k); [tauto|]. destruct (String.prefix "extents" k); [tauto|].
  destruct (String.prefix "nodes" k); [tauto|]. destruct (decide (k = idKey)); [tauto|]. by destruct Hk.
Qed.
Lemma pm_key_cases k : pm_key k -> String.prefix "PSSERVER" k = true \/ String.prefix "PART" k = true \/ k = pm_idKey.
Proof.
  unfold pm_key, pm_other_key. intros Hk. destruct (String.prefix "PSSERVER" k); [tauto|]. destruct (String.prefix "PART" k); [tauto|].
  destruct (decide (k = pm_idKey)); [tauto|]. by destruct Hk.
Qed.

Section Shown.
Variables (db : etcd) (S : gmap Z StreamInfo) (E : gmap Z ExtentInfo) (N : gmap Z NodeInfo) (next : Z).
Variables (PS : gmap Z PSDetail) (P : gmap Z PartitionMeta) (next' : Z).

(** the lines of the list: one for each thing the managers store *)
Inductive shown : KV -> Prop :=
| shown_stream id s : S !! id = Some s -> shown (mkKV (formatStreamKey id) (DStream s))
| shown_extent id x : E !! id = Some x -> shown (mkKV (formatExtentReplicate id) (DExtent x))
| shown_node id n : N !! id = Some n -> shown (mkKV (formatNodeKey id) (DNode n))
| shown_server id d : PS !! id = Some d -> shown (mkKV (psKey id) (DServer d))
| shown_part id m d : P !! id = Some m -> d ∈ meta_details m -> shown d
| shown_sm_id : is_Some (db !! idKey) -> shown (mkKV idKey (DNum next))
| shown_pm_id : is_Some (db !! pm_idKey) -> shown (mkKV pm_idKey (DNum next'))
| shown_leader k x : leader_key k -> MemberValue_wf x -> db !! k = Some (MemberValue_bytes x) -> shown (mkKV k (DMember x)).

Hypothesis Hsm : db_ok db S E N next.
Hypothesis Hpm : pm_db_ok db PS P next'.
Hypothesis Hknown : known_keys db.

Lemma next_shown k n : next_id db k n -> is_Some (db !! k) -> db !! k = Some (PutUint64 n) /\ Uint64 (PutUint64 n) = Ok n.
Proof using.
  intros [Hn Hk] [v Ev]. rewrite Ev in Hk. subst v. split; [done|]. apply Uint64_big. unfold is_u64. lia.
Qed.
Lemma shown_stored d : shown d -> exists v, db !! KV_Key d = Some v /\ show_kv (KV_Key d, v) = Ok d.
Proof using Hsm Hpm.
  destruct Hsm as [Hs He Hn Hi _], Hpm as [Hps Hp Hi' _ _].
  intros [id s Es|id x Ex|id n En|id ps Eps|id m d' Em Hd|Hk|Hk|k x Hk Hx Ex]; cbn [KV_Key].
  - destruct (pa_has _ _ _ _ _ _ Hs id s Es) as (_ & Hw & Ek). exists (StreamInfo_bytes s). split; [done|].
    change (show_as (formatStreamKey id) (StreamInfo_Unmarshal (StreamInfo_bytes s)) DStream = Ok (mkKV (formatStreamKey id) (DStream s))). by rewrite StreamInfo_Unmarshal_bytes.
  - destruct (pa_has _ _ _ _ _ _ He id x Ex) as (_ & Hw & Ek). exists (ExtentInfo_bytes x). split; [done|].
    change (show_as (formatExtentReplicate id) (ExtentInfo_Unmarshal (ExtentInfo_bytes x)) DExtent = Ok (mkKV (formatExtentReplicate id) (DExtent x))). by rewrite ExtentInfo_Unmarshal_bytes.
  - destruct (pa_has _ _ _ _ _ _ Hn id n En) as (_ & Hw & Ek). exists (NodeInfo_bytes n). split; [done|].
    change (show_as (formatNodeKey id) (NodeInfo_Unmarshal (NodeInfo_bytes n)) DNode = Ok (mkKV (formatNodeKey id) (DNode n))). by rewrite NodeInfo_Unmarshal_bytes.
  - destruct (pa_has _ _ _ _ _ _ Hps id ps Eps) as (_ & Hw & Ek). exists (PSDetail_bytes ps). split; [done|].
    change (show_as (psKey id) (PSDetail_Unmarshal (PSDetail_bytes ps)) DServer = Ok (mkKV (psKey id) (DServer ps))). by rewrite PSDetail_Unmarshal_bytes.
  - destruct (pp_has _ _ Hp id m Em) as (_ & Hm & Hes). pose proof (meta_shown m Hm) as Hf. apply list_elem_of_lookup in Hd as [i Hd].
    destruct (Forall2_lookup_r _ _ _ _ _ Hf Hd) as (e & He' & Esh). pose proof (Hes e (list_elem_of_lookup_2 _ _ _ He')) as Edb.
    destruct (show_kv_cases (entry_kv e)) as [(d0 & E0 & Ekey)|E0]; [|congruence]. rewrite Esh in E0. injection E0 as <-.
    exists (entry_value e). by rewrite Ekey.
  - destruct (next_shown _ _ Hi Hk) as [Ek Eu]. exists (PutUint64 next). split; [done|].
    change (show_as idKey (Uint64 (PutUint64 next)) DNum = Ok (mkKV idKey (DNum next))). by rewrite Eu.
  - destruct (next_shown _ _ Hi' Hk) as [Ek Eu]. exists (PutUint64 next'). split; [done|].
    change (show_as pm_idKey (Uint64 (PutUint64 next')) DNum = Ok (mkKV pm_idKey (DNum next'))). by rewrite Eu.
  - exists (MemberValue_bytes x). split; [done|]. by apply show_leader.
Qed.
Lemma stored_shown k v : db !! k = Some v -> exists d, shown d /\ show_kv (k, v) = Ok d.
Proof using Hsm Hpm Hknown.
  intros Ek. assert (exists d, shown d /\ KV_Key d = k) as (d & Hd & <-).
  { destruct Hsm as [Hs He Hn _ _], Hpm as [Hps Hp _ _ _].
    destruct (Hknown k v Ek) as [Hk|[Hk|[Hk (x & Hx & ->)]]]; [apply sm_key_cases in Hk as [Hk|[Hk|[Hk| ->]]]|apply pm_key_cases in Hk as [Hk|[Hk| ->]]|].
    - destruct (pa_only _ _ _ _ _ _ Hs k v Ek Hk) as (id & a & -> & Ea). eexists. split; [by apply shown_stream|done].
    - destruct (pa_only _ _ _ _ _ _ He k v Ek Hk) as (id & a & -> & Ea). eexists. split; [by apply shown_extent|done].
    - destruct (pa_only _ _ _ _ _ _ Hn k v Ek Hk) as (id & a & -> & Ea). eexists. split; [by apply shown_node|done].
    - eexists. split; [apply shown_sm_id; by eexists|done].
    - destruct (pa_only _ _ _ _ _ _ Hps k v Ek Hk) as (id & a & -> & Ea). eexists. split; [by apply shown_server|done].
    - destruct (pp_only _ _ Hp k v Ek Hk) as (id & m & e & Em & He' & Ekv). destruct (pp_has _ _ Hp id m Em) as (_ & Hm & _).
      apply list_elem_of_lookup in He' as [i He']. destruct (Forall2_lookup_l _ _ _ _ _ (meta_shown m Hm) He') as (d & Hd & Esh).
      exists d. split; [eapply shown_part; [exact Em|by eapply list_elem_of_lookup_2]|].
      destruct (show_kv_cases (entry_kv e)) as [(d0 & E0 & Ekey)|E0]; [|congruence]. rewrite <- Ekv in *. cbn in Ekey. congruence.
    - eexists. split; [apply shown_pm_id; by eexists|done].
    - eexists. split; [by eapply shown_leader|done]. }
  destruct (shown_stored d Hd) as (v' & Ev & Esh). exists d. split; [done|]. congruence.
Qed.
End Shown.

(** ** The list *)

Lemma receive_all db : (forall k v, db !! k = Some v -> exists d, show_kv (k, v) = Ok d) ->
  exists data, Forall2 (fun kv d => show_kv kv = Ok d) (dump db) data /\ receiveData Delivered db = (db, Ok data).
Proof.
  intros Hall. assert (exists data, Forall2 (fun kv d => show_kv kv = Ok d) (dump db) data) as (data & Hf).
  { assert (forall kv, kv ∈ dump db -> exists d, show_kv kv = Ok d) as Hd by (intros [k v] Hin; apply (Hall k), elem_dump, Hin).
    induction (dump db) as [|kv l IH]; [by exists []|]. destruct (Hd kv ltac:(by left)) as (d & Ed).
    destruct IH as (ds & Hds); [intros kv' Hin; apply Hd; by right|]. exists (d :: ds). by constructor. }
  exists data. split; [done|]. unfold receiveData. rewrite EtcdRange_all. by rewrite (receive_loop_ok _ _ Hf []).
Qed.
Lemma shown_keys kvs ds : Forall2 (fun kv d => show_kv kv = Ok d) kvs ds -> KV_Key <$> ds = kvs.*1.
Proof.
  induction 1 as [|kv d kvs ds Ed _ IH]; [done|]. rewrite !fmap_cons, IH. f_equal. destruct (show_kv_cases kv) as [(d' & E' & ?)|?]; congruence.
Qed.
Lemma shown_filter key kvs ds : Forall2 (fun kv d => show_kv kv = Ok d) kvs ds ->
  Forall2 (fun kv d => show_kv kv = Ok d) (filter (fun kv => fst kv <> key) kvs) (filter (fun d => KV_Key d <> key) ds).
Proof.
  induction 1 as [|kv d kvs ds Ed _ IH]; [constructor|].
  assert (KV_Key d = fst kv) as Ek by (destruct (show_kv_cases kv) as [(d' & E' & ?)|?]; congruence).
  destruct (decide (fst kv = key)) as [Hk|Hk].
  - rewrite !filter_cons_False by (rewrite ?Ek; auto). done.
  - rewrite !filter_cons_True by congruence. by constructor.
Qed.

Section Tool.
Context `{GoOrder}.

(** C31: After any run of the two managers, former leaders included (requests one after the other,
    tables set for existing partitions only), the debug tool lists every key of etcd once, in order,
    and next to it the message that the managers stored (stream, extent, node, server, the fields of
    each partition, the id counters and the leaders), which is what a process that leads and has not
    lost its key has in memory; deleting a key removes exactly its line, a delete whose call failed
    leaves the list as it was, and one unknown key in etcd makes the tool panic. *)
Theorem debug_tool_shows n w t : both_run n w -> 2 * Z.of_nat n + 1 < 2 ^ 64 -> let sm := m_sm w in let pm := m_pm w in let db := m_db w in exists S E N next PS P pnext,
  db_ok db S E N next /\ pm_db_ok db PS P pnext /\
  (isLeader sm = true -> streams sm = S /\ extents sm = E /\ ns_info <$> nodes sm = N) /\ (pm_isLeader pm = true -> psNodes pm = PS /\ partMeta pm = P) /\
  exists data, refresh Delivered t db = (db, Ok (mkTool data (detailText t))) /\
    NoDup (KV_Key <$> data) /\ StronglySorted (fun a b => String.compare a b <> Gt) (KV_Key <$> data) /\
    (forall d, d ∈ data <-> shown db S E N next PS P pnext d) /\
    (forall key, deleteButton Delivered Delivered true key t db = (delete key db, Ok (mkTool (filter (fun d => KV_Key d <> key) data) (detailText t)))) /\
    (forall e key, e <> Delivered -> deleteButton e Delivered true key t db = (fst (deleteKey e key db), Ok t)) /\
    (forall i d, data !! i = Some d -> OnSelected (Z.of_nat i) (mkTool data (detailText t)) = Ok (mkTool data (Some (KV_Value d)))) /\
    (forall k v, unknown_key k -> receiveData Delivered (<[k := v]> db) = (<[k := v]> db, Panic)).
Proof.
  intros Hrun Hn sm pm db. destruct (both_run_shared n _ Hrun 0 ltac:(lia)) as [[(S & E & N & next & Hi) _ _] [(PS & P & pnext & Hj) _ _] Hk]. cbn [fst snd] in *.
  exists S, E, N, next, PS, P, pnext. split; [apply Hi|]. split; [apply Hj|]. split; [intros El; destruct (si_mem _ _ _ _ _ _ _ Hi El) as (? & ? & ? & _); done|].
  split; [intros El; destruct (pi_mem _ _ _ _ _ _ Hj El) as (? & ? & _); done|]. destruct Hi as [Hsm _ _ _ _], Hj as [Hpm _ _ _].
  pose proof (stored_shown db S E N next PS P pnext Hsm Hpm Hk) as Hst. pose proof (shown_stored db S E N next PS P pnext Hsm Hpm) as Hsh. fold db in Hk, Hsm, Hpm, Hst, Hsh. clear Hrun Hn. clearbody db.
  destruct (receive_all db) as (data & Hf & Er). { intros k v Ek. destruct (Hst k v Ek) as (d & _ & Ed). by exists d. }
  exists data. split; [unfold refresh, tbind; by rewrite Er|]. rewrite (shown_keys _ _ Hf). split; [apply dump_nodup|].
  split; [|split; [|split; [|split; [|split]]]].
  - apply keys_sorted, dump_sorted.
  - intros d. split.
    + intros [i Hi]%list_elem_of_lookup. destruct (Forall2_lookup_r _ _ _ _ _ Hf Hi) as ([k v] & Hin & Ed).
      apply list_elem_of_lookup_2, elem_dump in Hin. destruct (Hst k v Hin) as (d' & Hd' & Ed'). congruence.
    + intros Hd. destruct (Hsh d Hd) as (v & Ev & Ed). apply elem_dump, list_elem_of_lookup in Ev as [i Hi].
      destruct (Forall2_lookup_l _ _ _ _ _ Hf Hi) as (d' & Hin & Ed'). apply list_elem_of_lookup_2 in Hin. congruence.
  - intros key. unfold deleteButton, deleteKey, refresh, tbind, receiveData. rewrite EtcdRange_all, dump_delete.
    by rewrite (receive_loop_ok _ _ (shown_filter key _ _ Hf) []).
  - intros e key He. by destruct e.
  - intros i d Hi. unfold OnSelected. cbn [tool_data detailText]. destruct (Z.ltb_spec (Z.of_nat i) 0); [lia|]. by rewrite Nat2Z.id, Hi.
  - intros k v Hu. unfold receiveData. rewrite EtcdRange_all, receive_loop_panics; [done|]. exists (k, v). split; [|by apply show_unknown].
    apply elem_dump. by rewrite lookup_insert_eq.
Qed.
End Tool.
