(* ===== verification/PartitionServer.v ===== *)
(** The partition server (partitionserver/ps.go, api.go): it registers with the
    partition manager, opens the partitions it is told to serve and routes each
    request to the partition it names, if the key is in that partition's range. *)
From Stdlib Require Import ZArith Lia Strings.String.
From stdpp Require Import base option list numbers gmap sorting strings.
From S2P Require Import Prelude GoLib Utils Proto ProtoSub ProtoPs ProtoSm ProtoPm Keys YIter Extent MixBlock Stream.
From S2P Require Import Skiplist TableBlock Table TableBuild Partition PartitionOpen Etcd PartitionManager Clients.

(** [bytes.Compare(start, key) <= 0 && (len(end) == 0 || bytes.Compare(key, end) < 0)] *)
Definition in_range (start stop key : bytes) : bool :=
  match bytes_compare start key with Gt => false | _ =>
    (zlen stop =? 0) || match bytes_compare key stop with Lt => true | _ => false end
  end.

(** ** The requests *)

Inductive ps_request :=
  | PutRequest (partid : Z) (key value : bytes)
  | GetRequest (partid : Z) (key : bytes)
  | DeleteRequest (partid : Z) (key : bytes)
  | RangeRequest (partid : Z) (prefix start : bytes) (limit : Z)
  | BatchRequest.
Inductive ps_response :=
  | PutResponse (key : bytes)
  | GetResponse (key value : bytes)
  | DeleteResponse (key : bytes)
  | RangeResponse (keys : list bytes).
Definition errNoPartid : error := Errorf "no such partid".
Definition errNotImplemented : error := Errorf "not implemented".

Section Server.
Context {LogSt RowSt Bloom LogIt : Type}.
Context `{LogL : StreamClient LogSt} `{LogS : !LogStream LogSt} `{LogI : !LogIters LogSt LogIt}.
Context `{RowL : StreamClient RowSt} `{RowT : !TruncStream RowSt} `{BloomO : BloomOps Bloom} `{Sort : SortSlice}.
Variable fp : bytes -> Z.
Variable rnd : SL -> bytes -> nat -> Z.
Variable sched : Z -> nat -> nat.
(** [fuel] bounds the loops of a scan, a replay and a compaction, [now] is the
    clock, [tries] the rounds in which a write waits for room *)
Variables (fuel tries : nat) (now : Z).
Abbreviation RP := (RangePartition (LogSt := LogSt) (RowSt := RowSt) (Bloom := Bloom)).

(** a partition with the key range that its struct holds *)
Record served := mkServed { sv_StartKey : bytes; sv_EndKey : bytes; sv_rp : RP }.
Record PartitionServer := mkPS { rangePartitions : gmap Z served; PSID : Z }.
Definition with_rp (ps : PartitionServer) (partID : Z) (sv : served) (rp : RP) : PartitionServer :=
  mkPS (<[partID := mkServed (sv_StartKey sv) (sv_EndKey sv) rp]> (rangePartitions ps)) (PSID ps).

(** ** api.go *)

Definition checkVersion (ps : PartitionServer) (partID : Z) (key : bytes) : option served :=
  match rangePartitions ps !! partID with
  | None => None
  | Some sv => if in_range (sv_StartKey sv) (sv_EndKey sv) key then Some sv else None
  end.
Definition ps_Batch (ps : PartitionServer) : outcome (PartitionServer * (ps_response + error)) := Ok (ps, inr errNotImplemented).
Definition ps_Put (ps : PartitionServer) (partid : Z) (key value : bytes) : outcome (PartitionServer * (ps_response + error)) :=
  match checkVersion ps partid key with
  | None => Ok (ps, inr errNoPartid)
  | Some sv =>
      let! (rp, err) := Write fp rnd sched tries (sv_rp sv) key value in
      Ok (with_rp ps partid sv rp, match err with Some e => inr e | None => inl (PutResponse key) end)
  end.
Definition ps_Get (ps : PartitionServer) (partid : Z) (key : bytes) : outcome (PartitionServer * (ps_response + error)) :=
  match checkVersion ps partid key with
  | None => Ok (ps, inr errNoPartid)
  | Some sv =>
      let! r := rp_Get fp (sv_rp sv) key 0 in
      Ok (ps, match r with inr e => inr e | inl v => inl (GetResponse key v) end)
  end.
Definition ps_Delete (ps : PartitionServer) (partid : Z) (key : bytes) : outcome (PartitionServer * (ps_response + error)) :=
  match checkVersion ps partid key with
  | None => Ok (ps, inr errNoPartid)
  | Some sv =>
      let! (rp, err) := Delete fp rnd sched tries (sv_rp sv) key in
      Ok (with_rp ps partid sv rp, match err with Some e => inr e | None => inl (DeleteResponse key) end)
  end.
Definition ps_Range (ps : PartitionServer) (partid : Z) (prefix start : bytes) (limit : Z) : outcome (PartitionServer * (ps_response + error)) :=
  match checkVersion ps partid start with
  | None => Ok (ps, inr errNoPartid)
  | Some sv =>
      let! out := Partition.Range fuel now (sv_rp sv) prefix start limit in
      Ok (ps, inl (RangeResponse out))
  end.
Definition ps_handle (ps : PartitionServer) (req : ps_request) : outcome (PartitionServer * (ps_response + error)) :=
  match req with
  | PutRequest p k v => ps_Put ps p k v
  | GetRequest p k => ps_Get ps p k
  | DeleteRequest p k => ps_Delete ps p k
  | RangeRequest p prefix start limit => ps_Range ps p prefix start limit
  | BatchRequest => ps_Batch ps
  end.
Fixpoint ps_serve (ps : PartitionServer) (reqs : list ps_request) : outcome (PartitionServer * list (ps_response + error)) :=
  match reqs with
  | [] => Ok (ps, [])
  | req :: reqs =>
      let! (ps, r) := ps_handle ps req in
      let! (ps, rs) := ps_serve ps reqs in Ok (ps, r :: rs)
  end.

(** ** ps.go *)

(** [NewStreamClient] and [Connect] of a stream by its id *)
Variable connect_row : Z -> outcome RowSt.
Variable connect_log : Z -> outcome LogSt.

Definition startRangePartition (ps : PartitionServer) (meta : PartitionMeta) : outcome PartitionServer :=
  let! row := connect_row (Meta_RowStream meta) in
  let! log := connect_log (Meta_LogStream meta) in
  let locs := match Meta_Locs meta with Some l => Locs l | None => [] end in
  match Meta_Rg meta with
  | None => Panic
  | Some rg =>
      assert (negb (Meta_PartID meta =? 0))
        (let! rp := OpenRangePartition fp rnd sched fuel fuel tries now log row ((fun l => (Loc_ExtentID l, Loc_Offset l)) <$> locs) in
         Ok (mkPS (<[Meta_PartID meta := mkServed (StartKey rg) (EndKey rg) rp]> (rangePartitions ps)) (PSID ps)))
  end.
(** an error ends the process *)
Fixpoint start_partitions (ps : PartitionServer) (metas : list PartitionMeta) : outcome PartitionServer :=
  match metas with
  | [] => Ok ps
  | meta :: metas =>
      match startRangePartition ps meta with
      | Ok ps => start_partitions ps metas
      | _ => Panic
      end
  end.

Section Init.
Context `{GoOrder}.
Variable env : nat -> pm_env.

(** [file] is the content of the file PSID, [None] when it cannot be read;
    [writable] whether it can be written *)
Definition registerPS (c : AutumnPMClient) (address : bytes) (file : option string) (writable : bool) (w : pm_world) :
    pm_world * outcome (AutumnPMClient * option string * Z) :=
  if decide (address = []) then (w, Panic) else
  match file with
  | Some idString =>
      match ParseUint idString with
      | Ok id => (w, Ok (c, file, id))
      | _ => (w, Panic)
      end
  | None =>
      match client_RegisterSelf env c address w with
      | (w, Ok (c, inl id)) => if writable then (w, Ok (c, Some (format_uint id), id)) else (w, Panic)
      | (w, _) => (w, Panic)
      end
  end.
(** after the connections are up *)
Definition ps_Init (c : AutumnPMClient) (address : bytes) (file : option string) (writable : bool) (w : pm_world) :
    pm_world * outcome (AutumnPMClient * option string * PartitionServer) :=
  match registerPS c address file writable w with
  | (w, Ok (c, file, id)) =>
      match client_GetPartitionMeta env c id w with
      | (w, Ok (c, metas)) => (w, let! ps := start_partitions (mkPS ∅ id) metas in Ok (c, file, ps))
      | (w, _) => (w, Panic)
      end
  | (w, _) => (w, Panic)
  end.
End Init.
End Server.
