(* ===== verification/PartitionServerSpec.v ===== *)
(** What a partition server promises: it answers like a table of finite maps, one
    per partition, each restricted to the partition's key range; and it finds its
    partitions again when it starts. *)
From Stdlib Require Import ZArith Lia Strings.String.
From stdpp Require Import base option list numbers gmap sorting strings.
From S2P Require Import Prelude GoLib Utils Proto ProtoSub ProtoPs ProtoSm ProtoPm Keys YIter Extent MixBlock Stream.
From S2P Require Import Skiplist SkiplistSpec SkiplistPut TableBlock Table TableSpec TableBuild.
From S2P Require Import Partition PartitionSpec PartitionRun PartitionScan PartitionOpen Compact PartitionRestart PartitionMap.
From S2P Require Import Etcd EtcdSpec PartitionManager PartitionManagerRun Clients PartitionServer.

(** ** The specification *)

Record shard := mkShard { sh_start : bytes; sh_stop : bytes; sh_map : kvmap }.
Definition shard_for (M : gmap Z shard) (partid : Z) (key : bytes) : option shard :=
  sh ← M !! partid; if in_range (sh_start sh) (sh_stop sh) key then Some sh else None.
Definition with_map (M : gmap Z shard) (partid : Z) (sh : shard) (m : kvmap) : gmap Z shard :=
  <[partid := mkShard (sh_start sh) (sh_stop sh) m]> M.
Definition shards_op (M : gmap Z shard) (req : ps_request) : gmap Z shard * (ps_response + error) :=
  match req with
  | PutRequest p k v =>
      match shard_for M p k with
      | Some sh => (with_map M p sh (<[k := v]> (sh_map sh)), inl (PutResponse k))
      | None => (M, inr errNoPartid)
      end
  | GetRequest p k =>
      match shard_for M p k with
      | Some sh => (M, match sh_map sh !! k with Some v => inl (GetResponse k v) | None => inr errNotFound end)
      | None => (M, inr errNoPartid)
      end
  | DeleteRequest p k =>
      match shard_for M p k with
      | Some sh =>
          match sh_map sh !! k with
          | Some _ => (with_map M p sh (delete k (sh_map sh)), inl (DeleteResponse k))
          | None => (M, inr errNotFound)
          end
      | None => (M, inr errNoPartid)
      end
  | RangeRequest p prefix start limit =>
      match shard_for M p start with
      | Some sh => (M, inl (RangeResponse (take (Z.to_nat limit) (map_keys (sh_map sh) prefix start))))
      | None => (M, inr errNoPartid)
      end
  | BatchRequest => (M, inr errNotImplemented)
  end.
Fixpoint shards_run (M : gmap Z shard) (reqs : list ps_request) : list (ps_response + error) :=
  match reqs with
  | [] => []
  | req :: reqs => let '(M, r) := shards_op M req in r :: shards_run M reqs
  end.
(** what a client may ask *)
Definition request_ok (req : ps_request) : Prop :=
  match req with
  | PutRequest _ k v => client_kv k v
  | GetRequest _ k => k <> []
  | DeleteRequest _ k => k <> [] /\ zlen k <= 2048
  | RangeRequest _ prefix start limit => prefix `prefix_of` start /\ 0 <= limit < 2 ^ 32
  | BatchRequest => True
  end.

Lemma client_kv_fits k v : client_kv k v -> batch_fits [(k, v)].
Proof.
  intros Hkv. pose proof Hkv as (Hne & Hk & Hv). split; [done|]. split; [by repeat constructor|].
  destruct (new_log_packable k v 0 0 Hkv (or_introl eq_refl)) as (Hwf & _ & _ & _).
  pose proof (Entry_bytes_bound _ Hwf) as Hb. pose proof (Entry_Size_bytes _ Hwf) as Hs.
  unfold new_log in Hb at 2 3. cbn [Key Value] in Hb. rewrite zlen_KeyWithTs in Hb.
  cbn [logs_of fmap list_fmap room_for foldr fst snd]. change MaxMixedBlockSize with 4096. split; [lia|].
  unfold estimatedSizeInSkl, new_log. cbn [Key Value ExpiresAt]. rewrite zlen_KeyWithTs.
  change (SizeVarint 0) with 1. change maxSkipList with 1048576. change MaxNodeSize with 96. change vptrSize with 16.
  destruct (ShouldWriteValueToLSM _) eqn:E; [|lia]. unfold ShouldWriteValueToLSM in E. cbn [Meta Value] in E.
  apply andb_true_iff in E as [_ E]. apply Z.leb_le in E. change ValueThrottle with 1024 in E. lia.
Qed.

(** ** The partition manager's client *)

Section Client.
Context `{Order : GoOrder}.
Variable env : nat -> pm_env.
Hypothesis delivered : forall k, pe_call (env k) = Delivered.

Lemma client_GetPartitionMeta_ok c pms db l pm psid : pm_managers c pms l pm ->
  client_GetPartitionMeta env c psid (pms, db) = ((pms, db), Ok (mkPMC (pm_conns c) l (pm_lock c), snd (GetPartitionMeta pm psid))).
Proof using delivered.
  intros [Hc Hlen Hlast Hl [Hpm Hlead] Hoth]. unfold client_GetPartitionMeta.
  assert (forall i q, pms !! Z.to_nat i = Some q -> pm_serve (fun pm => tret (Ok (pm, GetPartitionMeta pm psid))) Delivered i (pms, db) = ((pms, db), inl (GetPartitionMeta q psid))) as Hserve.
  { intros i q Hq. erewrite pm_serve_reply; [|exact Hq|done]. by rewrite list_insert_id. }
  rewrite (pm_try_finds _ c l ([], (pms, db)) (snd (GetPartitionMeta pm psid), (pms, db))); [done|..|done|done|done].
  - intros k i Hi Hne. rewrite delivered. destruct (pms !! Z.to_nat i) as [q|] eqn:Eq; [|by unfold pm_serve; rewrite Eq].
    rewrite (Hserve i q Eq). unfold GetPartitionMeta. by rewrite (Hoth (Z.to_nat i) q ltac:(lia) Eq).
  - intros k. rewrite delivered, (Hserve l pm Hpm). unfold GetPartitionMeta. by rewrite Hlead.
Qed.

(** the id that was stored at the first start is used at every later one *)
Lemma registerPS_stored c address id writable w : address <> [] -> is_u64 id ->
  registerPS env c address (Some (format_uint id)) writable w = (w, Ok (c, Some (format_uint id), id)).
Proof using. intros Ha Hid. unfold registerPS. rewrite decide_False by done. by rewrite ParseUint_format. Qed.
End Client.

Section Spec.
Context {LogSt RowSt Bloom LogIt : Type}.
Context `{LogL : StreamLaws LogSt} `{LogS : !LogStream LogSt} `{LogA : !LogLaws LogSt} `{LogI : !LogIters LogSt LogIt} `{LogT : !LogTail LogSt LogIt}.
Context `{RowL : StreamLaws RowSt} `{RowT : !TruncStream RowSt} `{RowA : !TruncLaws RowSt} `{BloomL : BloomLaws Bloom} `{Sort : SortSlice}.
Variable fp : bytes -> Z.
Variable rnd : SL -> bytes -> nat -> Z.
Variable sched : Z -> nat -> nat.
Hypothesis bloom_small : forall hs : list Z, zlen hs <= 2 ^ 21 -> zlen (bf_JSONMarshal (filter_of (Bloom := Bloom) hs)) < 2 ^ 29.
Variables (fuel tries : nat) (now : Z).
Abbreviation RP := (RangePartition (LogSt := LogSt) (RowSt := RowSt) (Bloom := Bloom)).
Abbreviation PS := (PartitionServer (LogSt := LogSt) (RowSt := RowSt) (Bloom := Bloom)).
Abbreviation served := (PartitionServer.served (LogSt := LogSt) (RowSt := RowSt) (Bloom := Bloom)).

(** the partition holds the map, after at most [w] writes, and has room for [b] more appends *)
Definition part_inv (b w : nat) (rp : RP) (m : kvmap) : Prop :=
  exists h mems tabs, rp_inv fp b rp h mems tabs /\ settled rp mems /\ view h m /\ (length h <= w)%nat.
Lemma part_inv_le b b' w w' rp m : (b' <= b)%nat -> (w <= w')%nat -> part_inv b w rp m -> part_inv b' w' rp m.
Proof using. intros Hb Hw (h & mems & tabs & Hi & Hs & Hv & Hl). exists h, mems, tabs. split; [by eapply rp_inv_le|]. split; [done|]. split; [done|lia]. Qed.

Hypothesis tries_enough : (2 <= tries)%nat.

(** one operation on one partition *)
Lemma part_op b w rp m op : part_inv (5 + b) w rp m -> client_ok m op -> (op_cost w op <= 5)%nat -> (op_writes op <= 1)%nat -> (w < fuel)%nat ->
  exists rp', run_op fp rnd sched fuel now tries rp op = Ok (rp', snd (map_op m op)) /\ part_inv b (S w) rp' (fst (map_op m op)).
Proof using bloom_small BloomL RowL LogA LogT RowA tries_enough now Sort rnd sched.
  intros (h & mems & tabs & Hi & Hs & Hv & Hl) Hok Hc Hwr Hf.
  destruct (run_op_ok fp rnd sched bloom_small b fuel now tries w rp h mems tabs m op) as (rp' & h' & mems' & tabs' & E & Hi' & Hs' & Hv' & Hl'); try done.
  - eapply rp_inv_le; [|exact Hi]. lia.
  - exists rp'. split; [exact E|]. exists h', mems', tabs'. split; [done|]. split; [done|]. split; [done|lia].
Qed.
Lemma Write_one rp k v : Write fp rnd sched tries rp k v = WriteAll fp rnd sched tries rp [(k, v)].
Proof using. done. Qed.

Lemma part_Write b w rp m k v : part_inv (5 + b) w rp m -> client_kv k v -> (w < fuel)%nat ->
  exists rp', Write fp rnd sched tries rp k v = Ok (rp', None) /\ part_inv b (S w) rp' (<[k := v]> m).
Proof using bloom_small BloomL RowL LogA LogT RowA tries_enough now Sort rnd sched.
  intros Hp Hkv Hf. destruct (part_op b w rp m (OpWrite [(k, v)]) Hp (client_kv_fits k v Hkv)) as (rp' & E & Hp'); [cbn; lia|cbn; lia|done|].
  exists rp'. split; [|exact Hp']. cbn [run_op] in E. rewrite Write_one. destruct (WriteAll _ _ _ _ _ _) as [[rp1 err]|e|]; cbn [obind] in E; [|done|done]. by injection E as -> ->.
Qed.
Lemma part_Delete b w rp m k : part_inv (5 + b) w rp m -> k <> [] -> zlen k <= 2048 -> (w < fuel)%nat ->
  exists rp', Delete fp rnd sched tries rp k = Ok (rp', match m !! k with Some _ => None | None => Some errNotFound end) /\ part_inv b (S w) rp' (delete k m).
Proof using bloom_small BloomL RowL LogA LogT RowA tries_enough now Sort rnd sched.
  intros Hp Hk Hl Hf. destruct (part_op b w rp m (OpDelete k) Hp (conj Hk Hl)) as (rp' & E & Hp'); [cbn; lia|cbn; lia|done|].
  exists rp'. cbn [run_op map_op] in E, Hp'. destruct (Delete _ _ _ _ _ _) as [[rp1 err]|e|]; cbn [obind] in E; [|done|done].
  destruct (m !! k) as [v|] eqn:Ek; cbn [fst snd] in *; injection E as -> ->; [done|]. by rewrite delete_id.
Qed.
Lemma part_Get b w rp m k : part_inv (5 + b) w rp m -> k <> [] -> (w < fuel)%nat ->
  rp_Get fp rp k 0 = Ok (match m !! k with Some v => inl v | None => inr errNotFound end).
Proof using bloom_small BloomL RowL LogA LogT RowA tries_enough now Sort rnd sched.
  intros Hp Hk Hf. destruct (part_op b w rp m (OpGet k) Hp Hk) as (rp' & E & _); [cbn; lia|cbn; lia|done|].
  cbn [run_op map_op snd] in E. destruct (rp_Get fp rp k 0) as [r|e|]; cbn [obind] in E; [by injection E as <- ->|done|done].
Qed.
Lemma part_Range b w rp m prefix start limit : part_inv (5 + b) w rp m -> prefix `prefix_of` start -> 0 <= limit < 2 ^ 32 -> (w < fuel)%nat ->
  Partition.Range fuel now rp prefix start limit = Ok (take (Z.to_nat limit) (map_keys m prefix start)).
Proof using bloom_small BloomL RowL LogA LogT RowA tries_enough now Sort rnd sched.
  intros Hp Hpre Hlim Hf. destruct (part_op b w rp m (OpRange prefix start limit) Hp (conj Hpre Hlim)) as (rp' & E & _); [cbn; lia|cbn; lia|done|].
  cbn [run_op map_op snd] in E. destruct (Partition.Range fuel now rp prefix start limit) as [r|e|]; cbn [obind] in E; [by injection E as <- ->|done|done].
Qed.

(** ** The server *)

Definition serves (b w : nat) (sv : served) (sh : shard) : Prop :=
  sv_StartKey sv = sh_start sh /\ sv_EndKey sv = sh_stop sh /\ part_inv b w (sv_rp sv) (sh_map sh).
Definition ps_inv (b w : nat) (ps : PS) (M : gmap Z shard) : Prop :=
  forall p, option_Forall2 (serves b w) (rangePartitions ps !! p) (M !! p).

Lemma serves_le b b' w w' sv sh : (b' <= b)%nat -> (w <= w')%nat -> serves b w sv sh -> serves b' w' sv sh.
Proof using. intros Hb Hw (E1 & E2 & Hp). split; [done|]. split; [done|]. by eapply part_inv_le. Qed.
Lemma ps_inv_le b b' w w' ps M : (b' <= b)%nat -> (w <= w')%nat -> ps_inv b w ps M -> ps_inv b' w' ps M.
Proof using. intros Hb Hw Hi p. destruct (Hi p) as [sv sh Hs|]; constructor. by eapply serves_le. Qed.
Lemma ps_inv_set b b' w w' ps M p sv sh rp m : (b' <= b)%nat -> (w <= w')%nat -> ps_inv b w ps M -> serves b w sv sh -> part_inv b' w' rp m ->
  ps_inv b' w' (with_rp ps p sv rp) (with_map M p sh m).
Proof using.
  intros Hb Hw Hi (E1 & E2 & _) Hp p'. unfold with_rp, with_map. cbn [rangePartitions]. destruct (decide (p' = p)) as [->|Hne].
  - rewrite !lookup_insert_eq. constructor. by split.
  - rewrite !lookup_insert_ne by done. by eapply ps_inv_le.
Qed.
(** routing *)
Lemma checkVersion_ok b w ps M p k : ps_inv b w ps M -> option_Forall2 (serves b w) (checkVersion ps p k) (shard_for M p k).
Proof using.
  intros Hi. unfold checkVersion, shard_for. destruct (Hi p) as [sv sh Hs|]; [|constructor]. pose proof Hs as (E1 & E2 & _). cbn [mbind option_bind].
  rewrite E1, E2. destruct (in_range _ _ k); by constructor.
Qed.
Lemma shard_for_Some M p k sh : shard_for M p k = Some sh -> M !! p = Some sh.
Proof using. unfold shard_for. destruct (M !! p) as [sh'|]; cbn; [|done]. by destruct (in_range _ _ k); intros [= <-]. Qed.
Lemma with_map_id M p sh k : shard_for M p k = Some sh -> with_map M p sh (sh_map sh) = M.
Proof using. intros E%shard_for_Some. unfold with_map. apply insert_id. by destruct sh. Qed.

Lemma ps_handle_ok b w ps M req : ps_inv (5 + b) w ps M -> request_ok req -> (w < fuel)%nat ->
  exists ps', ps_handle fp rnd sched fuel tries now ps req = Ok (ps', snd (shards_op M req)) /\ ps_inv b (S w) ps' (fst (shards_op M req)).
Proof using bloom_small BloomL RowL LogA LogT RowA tries_enough now Sort rnd sched.
  intros Hi Hok Hf. assert (ps_inv b (S w) ps M) as Hi' by (eapply ps_inv_le; [| |exact Hi]; lia). revert Hi'. destruct req as [p k v|p k|p k|p prefix start limit|]; cbn [ps_handle shards_op request_ok] in *;
    [unfold ps_Put|unfold ps_Get|unfold ps_Delete|unfold ps_Range|by exists ps].
  all: match goal with Hi : ps_inv _ _ ?s ?M, Hf : _ |- context [checkVersion ?s ?p ?k] => pose proof (checkVersion_ok _ _ s M p k Hi) as Hcv end.
  all: match type of Hcv with option_Forall2 _ ?x ?y => destruct x as [sv|], y as [sh|] eqn:Esh; inversion Hcv as [? ? Hs|]; subst; [|by eexists] end; intros Hi'.
  all: pose proof Hs as (_ & _ & Hp).
  - destruct (part_Write b w (sv_rp sv) (sh_map sh) k v Hp Hok Hf) as (rp' & -> & Hp'). cbn [obind fst snd]. eexists. split; [done|].
    apply (ps_inv_set (5 + b) b w (S w)); [lia|lia|exact Hi|exact Hs|exact Hp'].
  - rewrite (part_Get b w (sv_rp sv) (sh_map sh) k Hp Hok Hf). cbn [obind]. exists ps. by destruct (sh_map sh !! k).
  - destruct (part_Delete b w (sv_rp sv) (sh_map sh) k Hp (proj1 Hok) (proj2 Hok) Hf) as (rp' & -> & Hp'). cbn [obind].
    pose proof (ps_inv_set (5 + b) b w (S w) ps M p sv sh rp' _ ltac:(lia) ltac:(lia) Hi Hs Hp') as Hn. eexists. split; [by destruct (sh_map sh !! k)|].
    destruct (sh_map sh !! k) as [v|] eqn:Ek; [exact Hn|]. rewrite delete_id, (with_map_id _ _ _ k) in Hn by done. exact Hn.
  - destruct Hok as (H2' & H3'). rewrite (part_Range b w (sv_rp sv) (sh_map sh) prefix start limit Hp H2' H3' Hf). by exists ps.
Qed.
Lemma ps_serve_ok reqs : forall w ps M, ps_inv (5 * length reqs) w ps M -> Forall request_ok reqs -> (w + length reqs <= fuel)%nat ->
  exists ps', ps_serve fp rnd sched fuel tries now ps reqs = Ok (ps', shards_run M reqs).
Proof using bloom_small BloomL RowL LogA LogT RowA tries_enough now Sort rnd sched.
  induction reqs as [|req reqs IH]; intros w ps M Hi Hok Hf; [by exists ps|]. apply Forall_cons in Hok as [Hr Hok]. cbn [ps_serve shards_run length] in *.
  destruct (ps_handle_ok (5 * length reqs) w ps M req ltac:(eapply ps_inv_le; [| |exact Hi]; lia) Hr ltac:(lia)) as (ps1 & -> & Hi1). cbn [obind].
  destruct (shards_op M req) as [M1 r]. cbn [fst snd] in *. destruct (IH (S w) ps1 M1 Hi1 Hok ltac:(lia)) as (ps2 & ->). by exists ps2.
Qed.

(** ** Starting *)

(** The streams hold a partition that was closed: a new one has no tables, and one
    with several tables is compacted when it is opened, which asks for a live
    key and for no more than a compaction can take. *)
Definition stored (b w : nat) (log : LogSt) (row : RowSt) (locs : list (Z * Z)) (m : kvmap) : Prop :=
  exists tbls h tabs, durable fp (2 * length h + b) log row tbls h tabs /\ Loc <$> tbls = locs /\ view h m /\ (length h <= w)%nat /\
    (m = ∅ -> (length tbls <= 1)%nat) /\ map_est m <= maxCompact.
Lemma fresh_stored b log row : sc_inv b log -> ls_tail log 0 0 -> sc_inv (1 + b) row -> Z.of_nat b <= MaxUint64 -> stored b 0 log row [] ∅.
Proof using.
  intros Hlog Htail Hrow Hb. exists [], [], []. split; [|split; [done|]; split; [apply view_nil|]; split; [done|]; split; [cbn; auto|by vm_compute]].
  split; try done; try (by constructor).
  - intros uk _ t v Hin. destruct (not_elem_of_nil _ Hin).
Qed.
Lemma open_stored b w log row locs m : stored b w log row locs m -> (w < fuel)%nat ->
  exists rp, OpenRangePartition fp rnd sched fuel fuel tries now log row locs = Ok rp /\ part_inv b w rp m.
Proof using bloom_small LogT BloomL RowL RowA tries_enough.
  intros (tbls & h & tabs & Hd & <- & Hv & Hl & Hem & Hmax) Hf. destruct (decide (m = ∅)) as [E|E].
  - destruct (load_ok fp rnd sched _ fuel tries log row tbls h tabs Hd ltac:(lia)) as (rp & Er & Hi & Hset & Hlen & _).
    exists rp. unfold OpenRangePartition. rewrite Er. cbn [obind]. destruct (Nat.leb_spec (length (rp_tables rp)) 1) as [_|Hb]; [|pose proof (Hem E); lia].
    split; [reflexivity|]. exists h, [[]], tabs. split; [apply (rp_inv_le fp (2 * length h + b) b); [lia|exact Hi]|exact (conj Hset (conj Hv Hl))].
  - destruct (view_live h m Hv E) as (k & v & Hk & Hlive).
    destruct (open_ok fp rnd sched bloom_small m b fuel fuel tries now log row tbls h tabs k v Hd Hk Hlive (view_lookup h m Hv) Hmax ltac:(lia) ltac:(lia)) as (rp & tabs' & Er & Hi & Hset).
    exists rp. split; [exact Er|]. exists h, [[]], tabs'. exact (conj Hi (conj Hset (conj Hv Hl))).
Qed.

Variable connect_row : Z -> outcome RowSt.
Variable connect_log : Z -> outcome LogSt.
Definition meta_stored (b w : nat) (meta : PartitionMeta) (sh : shard) : Prop :=
  exists log row, Meta_Rg meta = Some (mkRange (sh_start sh) (sh_stop sh)) /\ Meta_PartID meta <> 0 /\
    connect_row (Meta_RowStream meta) = Ok row /\ connect_log (Meta_LogStream meta) = Ok log /\
    stored b w log row ((fun l => (Loc_ExtentID l, Loc_Offset l)) <$> match Meta_Locs meta with Some l => Locs l | None => [] end) (sh_map sh).
Definition shards_of (M : gmap Z shard) (metas : list PartitionMeta) (shs : list shard) : gmap Z shard :=
  foldl (fun M p => <[Meta_PartID (fst p) := snd p]> M) M (zip metas shs).

Lemma startRangePartition_ok b w ps M meta sh : ps_inv b w ps M -> meta_stored b w meta sh -> (w < fuel)%nat ->
  exists ps', startRangePartition fp rnd sched fuel tries now connect_row connect_log ps meta = Ok ps' /\
    ps_inv b w ps' (<[Meta_PartID meta := sh]> M) /\ PSID ps' = PSID ps.
Proof using bloom_small LogT BloomL RowL RowA tries_enough.
  intros Hi (log & row & Erg & Hid & Er & El & Hst) Hf. destruct (open_stored b w log row _ _ Hst Hf) as (rp & Eo & Hp).
  unfold startRangePartition. rewrite Er, El. cbn [obind]. rewrite Erg. destruct (Z.eqb_spec (Meta_PartID meta) 0) as [E0|_]; [destruct (Hid E0)|]. cbn [negb assert]. rewrite Eo.
  cbn [obind]. eexists. split; [reflexivity|]. split; [|reflexivity]. intros p. cbn [rangePartitions]. destruct (decide (p = Meta_PartID meta)) as [->|Hne].
  - rewrite !lookup_insert_eq. constructor. exact (conj eq_refl (conj eq_refl Hp)).
  - rewrite !lookup_insert_ne by congruence. apply Hi.
Qed.
Lemma start_partitions_ok b w metas shs : Forall2 (meta_stored b w) metas shs -> (w < fuel)%nat -> forall ps M, ps_inv b w ps M ->
  exists ps', start_partitions fp rnd sched fuel tries now connect_row connect_log ps metas = Ok ps' /\ ps_inv b w ps' (shards_of M metas shs) /\ PSID ps' = PSID ps.
Proof using bloom_small LogT BloomL RowL RowA tries_enough.
  intros Hm Hf. induction Hm as [|meta sh metas shs Hms _ IH]; intros ps M Hi; cbn [start_partitions]; [exists ps; exact (conj eq_refl (conj Hi eq_refl))|].
  destruct (startRangePartition_ok b w ps M meta sh Hi Hms Hf) as (ps1 & -> & Hi1 & E1). destruct (IH ps1 _ Hi1) as (ps2 & E2 & Hi2 & E3).
  exists ps2. split; [exact E2|]. split; [exact Hi2|congruence].
Qed.

Section Init.
Context `{Order : GoOrder}.
Variable env : nat -> pm_env.
Hypothesis delivered : forall k, pe_call (env k) = Delivered.

End Init.
End Spec.
