(* ===== verification/AutumnLib.v ===== *)
(** The client library (cmd/autumn-client/lib.go): it asks the partition manager
    for the regions, keeps them sorted by start key, finds the region of a key by
    binary search on the end keys and sends the request to the server of that
    region. *)
From Stdlib Require Import ZArith Lia Strings.String.
From stdpp Require Import base option list numbers gmap sorting strings.
From S2P Require Import Prelude GoLib Utils Proto ProtoSub ProtoPs ProtoSm ProtoPm Keys YIter Extent MixBlock Stream.
From S2P Require Import Skiplist TableBlock Table TableBuild Partition PartitionOpen PartitionMap Etcd PartitionManager Clients PartitionServer.

Record AutumnLib := mkLib { lib_regions : list RegionInfo; lib_conns : gset bytes }.

(** the index of the first region whose end key is empty or after the key *)
Definition after_end (regions : list RegionInfo) (key : bytes) (i : Z) (s : unit) : outcome (bool * unit) :=
  let! r := index regions i in
  match RI_Rg r with
  | None => Panic
  | Some rg =>
      if zlen (EndKey rg) =? 0 then Ok (true, s)
      else Ok (match bytes_compare (EndKey rg) key with Gt => true | _ => false end, s)
  end.
Definition locate (regions : list RegionInfo) (key : bytes) : outcome RegionInfo :=
  let! (idx, _) := Search (zlen regions) (after_end regions key) tt in
  index regions idx.

Definition start_key (r : RegionInfo) : bytes := match RI_Rg r with Some rg => StartKey rg | None => [] end.
Definition start_less (a b : RegionInfo) : bool := match bytes_compare (start_key a) (start_key b) with Lt => true | _ => false end.
Definition no_range (r : RegionInfo) : bool := match RI_Rg r with None => true | Some _ => false end.

Section Update.
Context `{GoOrder}.
Variable env : nat -> nat -> pm_env.

(** asks again until there is a region; the comparison of two regions
    dereferences their ranges *)
Fixpoint fetch_regions (fuel j : nat) (c : AutumnPMClient) (w : pm_world) : option (pm_world * outcome (AutumnPMClient * list RegionInfo)) :=
  match fuel with
  | O => None
  | S fuel =>
      match client_GetRegions (env j) c w with
      | (w, Ok (c, [])) => fetch_regions fuel (S j) c w
      | r => Some r
      end
  end.
Definition lib_update (fuel : nat) (lib : AutumnLib) (c : AutumnPMClient) (w : pm_world) : option (pm_world * outcome (AutumnPMClient * AutumnLib)) :=
  match fetch_regions fuel 0 c w with
  | None => None
  | Some (w, r) =>
      Some (w, let! (c, newRegions) := r in
               if (1 <? zlen newRegions) && existsb no_range newRegions then Panic
               else Ok (c, mkLib (sort_less start_less newRegions) (lib_conns lib)))
  end.
End Update.

Inductive lib_op := LibPut (key value : bytes) | LibGet (key : bytes) | LibDelete (key : bytes) | LibRange (prefix start : bytes).
Inductive lib_reply := LibDone | LibValue (v : bytes) | LibKeys (keys : list bytes).

Section Lib.
Context {LogSt RowSt Bloom LogIt : Type}.
Context `{LogL : StreamClient LogSt} `{LogS : !LogStream LogSt} `{LogI : !LogIters LogSt LogIt}.
Context `{RowL : StreamClient RowSt} `{RowT : !TruncStream RowSt} `{BloomO : BloomOps Bloom} `{Sort : SortSlice}.
Variable fp : bytes -> Z.
Variable rnd : SL -> bytes -> nat -> Z.
Variable sched : Z -> nat -> nat.
Variables (fuel tries : nat) (now : Z).
Abbreviation PS := (PartitionServer (LogSt := LogSt) (RowSt := RowSt) (Bloom := Bloom)).

(** the partition servers by address; one whose process ends is gone *)
Abbreviation servers := (gmap bytes PS).
Definition call_ps (d : net) (addr : bytes) (req : ps_request) (w : servers) : servers * (ps_response + error) :=
  match w !! addr, d with
  | None, _ | _, Lost => (w, inr errUnavailable)
  | Some ps, d =>
      match ps_handle fp rnd sched fuel tries now ps req with
      | Ok (ps, r) => (<[addr := ps]> w, match d with Delivered => r | _ => inr errUnavailable end)
      | _ => (delete addr w, inr errUnavailable)
      end
  end.
(** dials until it succeeds *)
Definition getConn (lib : AutumnLib) (addr : bytes) : AutumnLib := mkLib (lib_regions lib) ({[addr]} ∪ lib_conns lib).

(** the region found for [key], the request to its server, the response *)
Definition lib_send (d : net) (lib : AutumnLib) (key : bytes) (req : Z -> ps_request) (w : servers) : servers * outcome (AutumnLib * (ps_response + error)) :=
  if zlen (lib_regions lib) =? 0 then (w, Ok (lib, inr (Errorf "no regions to write"))) else
  match locate (lib_regions lib) key with
  | Ok r =>
      let lib := getConn lib (RI_Addr r) in
      let '(w, res) := call_ps d (RI_Addr r) (req (RI_PartID r)) w in (w, Ok (lib, res))
  | Err e => (w, Err e)
  | Panic => (w, Panic)
  end.
Definition answer {A B} (f : A -> outcome B) (r : servers * outcome (AutumnLib * (A + error))) : servers * outcome (AutumnLib * (B + error)) :=
  let '(w, o) := r in
  (w, let! (lib, res) := o in
      match res with
      | inl a => let! b := f a in Ok (lib, inl b)
      | inr e => Ok (lib, inr e)
      end).
Definition lib_Put (d : net) (lib : AutumnLib) (key value : bytes) (w : servers) : servers * outcome (AutumnLib * (lib_reply + error)) :=
  answer (fun _ => Ok LibDone) (lib_send d lib key (fun id => PutRequest id key value) w).
Definition lib_Get (d : net) (lib : AutumnLib) (key : bytes) (w : servers) : servers * outcome (AutumnLib * (lib_reply + error)) :=
  answer (fun res => match res with GetResponse _ v => Ok (LibValue v) | _ => Panic end) (lib_send d lib key (fun id => GetRequest id key) w).
Definition lib_Delete (d : net) (lib : AutumnLib) (key : bytes) (w : servers) : servers * outcome (AutumnLib * (lib_reply + error)) :=
  answer (fun _ => Ok LibDone) (lib_send d lib key (fun id => DeleteRequest id key) w).
(** the region is that of the prefix *)
Definition lib_Range (d : net) (lib : AutumnLib) (prefix start : bytes) (w : servers) : servers * outcome (AutumnLib * (lib_reply + error)) :=
  answer (fun res => match res with RangeResponse keys => Ok (LibKeys keys) | _ => Panic end)
    (lib_send d lib prefix (fun id => RangeRequest id prefix start (2 ^ 32 - 1)) w).

Definition lib_do (d : net) (lib : AutumnLib) (op : lib_op) : servers -> servers * outcome (AutumnLib * (lib_reply + error)) :=
  match op with
  | LibPut k v => lib_Put d lib k v
  | LibGet k => lib_Get d lib k
  | LibDelete k => lib_Delete d lib k
  | LibRange prefix start => lib_Range d lib prefix start
  end.
Fixpoint lib_run (lib : AutumnLib) (w : servers) (ops : list (net * lib_op)) : servers * outcome (list (lib_reply + error)) :=
  match ops with
  | [] => (w, Ok [])
  | (d, op) :: ops =>
      match lib_do d lib op w with
      | (w, Ok (lib, r)) => let '(w, rs) := lib_run lib w ops in (w, let! rs := rs in Ok (r :: rs))
      | (w, Err e) => (w, Err e)
      | (w, Panic) => (w, Panic)
      end
  end.
End Lib.
