(* ===== verification/AutumnLibSpec.v ===== *)
(** The client library over the partition manager and the partition servers: when
    the regions tile the key space, the cluster answers as one finite map. *)
From Stdlib Require Import ZArith Lia Strings.String.
From stdpp Require Import base option list numbers gmap sorting strings.
From S2P Require Import Prelude GoLib Utils Proto ProtoSub ProtoPs ProtoSm ProtoPm Keys YIter Extent MixBlock Stream.
From S2P Require Import Skiplist SkiplistSpec SkiplistPut TableBlock Table TableSpec TableBuild.
From S2P Require Import Partition PartitionSpec PartitionRun PartitionScan PartitionOpen Compact PartitionRestart PartitionMap.
From S2P Require Import Etcd EtcdSpec PartitionManager PartitionManagerRun Clients PartitionServer PartitionServerSpec AutumnLib.

(** ** Routing *)

Definition holds (key : bytes) (r : RegionInfo) : bool :=
  match RI_Rg r with Some rg => in_range (StartKey rg) (EndKey rg) key | None => false end.
(** the reference: the first region that holds the key *)
Definition region_for (rs : list RegionInfo) (key : bytes) : option RegionInfo := List.find (holds key) rs.
(** each region ends where the next one starts, the last one has no end *)
Fixpoint tiles (start : bytes) (rs : list RegionInfo) : Prop :=
  match rs with
  | [] => False
  | [r] => RI_Rg r = Some (mkRange start [])
  | r :: rs => exists stop, RI_Rg r = Some (mkRange start stop) /\ key_lt start stop /\ tiles stop rs
  end.
Definition past (key : bytes) (r : RegionInfo) : bool :=
  match RI_Rg r with
  | Some rg => (zlen (EndKey rg) =? 0) || match bytes_compare (EndKey rg) key with Gt => true | _ => false end
  | None => false
  end.

Lemma tiles_cons start r rs : tiles start (r :: rs) -> (rs = [] /\ RI_Rg r = Some (mkRange start [])) \/
  exists stop, RI_Rg r = Some (mkRange start stop) /\ key_lt start stop /\ stop <> [] /\ tiles stop rs.
Proof.
  destruct rs as [|r' rs]; [by left|]. intros (stop & E & Hlt & Ht). right. exists stop. split; [done|]. split; [done|]. split; [|done].
  intros ->. unfold key_lt in Hlt. by destruct start.
Qed.
Lemma key_lt_flip a b : key_lt a b -> bytes_compare b a = Gt.
Proof. unfold key_lt. rewrite (bytes_compare_antisym a b). by intros ->. Qed.
(** regions after the key *)
Lemma tiles_after rs : forall start key, tiles start rs -> key_lt key start -> Forall (fun r => past key r = true /\ holds key r = false) rs.
Proof.
  induction rs as [|r rs IH]; intros start key Ht Hk; [done|]. apply tiles_cons in Ht as [[-> E]|(stop & E & Hlt & Hne & Ht)].
  - constructor; [|constructor]. unfold past, holds. rewrite E. cbn [EndKey StartKey]. unfold in_range. by rewrite (key_lt_flip _ _ Hk).
  - assert (key_lt key stop) as Hk' by (eapply key_le_lt_trans; [by apply key_lt_le|done]). constructor; [|by apply (IH stop)].
    unfold past, holds. rewrite E. cbn [EndKey StartKey]. unfold in_range. rewrite (key_lt_flip _ _ Hk), (key_lt_flip _ _ Hk'). by rewrite orb_true_r.
Qed.
Lemma tiles_split rs : forall start key, tiles start rs -> key_le start key ->
  exists pre r post, rs = pre ++ r :: post /\ past key r = true /\ holds key r = true /\
    Forall (fun r => past key r = false /\ holds key r = false) pre /\ Forall (fun r => past key r = true /\ holds key r = false) post.
Proof.
  induction rs as [|r rs IH]; intros start key Ht Hk; [done|]. apply tiles_cons in Ht as [[-> E]|(stop & E & Hlt & Hne & Ht)].
  - exists [], r, []. split; [done|]. unfold past, holds. rewrite E. cbn [EndKey StartKey]. unfold in_range, key_le in *. split; [done|]. split; [by destruct (bytes_compare start key)|done].
  - assert ((zlen stop =? 0) = false) as Hz by (apply Z.eqb_neq; intros E0; by apply Hne, zlen_0_nil).
    destruct (bytes_compare key stop) eqn:Ec.
    + apply bytes_compare_eq in Ec as ->. destruct (IH stop stop Ht (key_le_refl _)) as (pre & r' & post & -> & H1' & H2' & H3' & H4').
      exists (r :: pre), r', post. do 3 (split; [done|]). split; [|done]. constructor; [|done]. unfold past, holds. rewrite E. cbn [EndKey StartKey]. unfold in_range.
      rewrite Hz, bytes_compare_refl. by destruct (bytes_compare start stop).
    + exists [], r, rs. split; [done|]. unfold past, holds. rewrite E. cbn [EndKey StartKey]. unfold in_range. rewrite (key_lt_flip _ _ Ec), Ec, !orb_true_r.
      unfold key_le in Hk. split; [done|]. split; [by destruct (bytes_compare start key)|]. split; [done|]. by apply (tiles_after rs stop).
    + assert (key_lt stop key) as Hs by (unfold key_lt; by rewrite (bytes_compare_antisym key stop), Ec).
      destruct (IH stop key Ht (key_lt_le _ _ Hs)) as (pre & r' & post & -> & H1' & H2' & H3' & H4').
      exists (r :: pre), r', post. do 3 (split; [done|]). split; [|done]. constructor; [|done]. unfold past, holds. rewrite E. cbn [EndKey StartKey]. unfold in_range.
      rewrite Hz, Hs, Ec. by destruct (bytes_compare start key).
Qed.
Lemma after_end_past rs key i r : rs !! Z.to_nat i = Some r -> 0 <= i -> is_Some (RI_Rg r) -> after_end rs key i tt = Ok (past key r, tt).
Proof.
  intros Hr Hi [rg E]. unfold after_end, index. destruct (Z.ltb_spec i 0); [lia|]. rewrite Hr. cbn [obind]. unfold past. rewrite E. by destruct (zlen (EndKey rg) =? 0).
Qed.
Lemma tiles_ranges rs : forall start, tiles start rs -> Forall (fun r => is_Some (RI_Rg r)) rs.
Proof.
  induction rs as [|r rs IH]; intros start Ht; [done|]. apply tiles_cons in Ht as [[-> E]|(stop & E & _ & _ & Ht)]; constructor; rewrite ?E; [done|constructor|done|by eapply IH].
Qed.
Lemma find_middle {A} (f : A -> bool) pre x post : Forall (fun y => f y = false) pre -> f x = true -> List.find f (pre ++ x :: post) = Some x.
Proof. intros Hpre Hx. induction Hpre as [|y pre Hy _ IH]; cbn [app List.find]; [by rewrite Hx|by rewrite Hy]. Qed.

Lemma locate_found rs pre r post key : Forall (fun r => is_Some (RI_Rg r)) rs -> rs = pre ++ r :: post -> past key r = true ->
  Forall (fun r => past key r = false) pre -> Forall (fun r => past key r = true) post -> locate rs key = Ok r.
Proof.
  intros Hrg Hrs Hr Hpre Hpost. unfold locate. set (p := fun i => match rs !! Z.to_nat i with Some r => past key r | None => false end).
  assert (forall i, 0 <= i < zlen rs -> exists r, rs !! Z.to_nat i = Some r /\ p i = past key r) as Hp.
  { intros i Hi. destruct (lookup_lt_is_Some_2 rs (Z.to_nat i)) as [r' E]; [unfold zlen in Hi; lia|]. exists r'. split; [done|]. unfold p. by rewrite E. }
  assert (forall i, 0 <= i < zlen pre -> p i = false) as Hlo.
  { intros i Hi. unfold p. rewrite Hrs, lookup_app_l by (unfold zlen in Hi; lia). destruct (pre !! Z.to_nat i) eqn:E; [|done]. rewrite Forall_lookup in Hpre. by eapply Hpre. }
  assert (forall i, zlen pre <= i < zlen rs -> p i = true) as Hhi.
  { intros i Hi. unfold p. rewrite Hrs in Hi |- *. rewrite zlen_app, zlen_cons in Hi. unfold zlen in Hi. rewrite lookup_app_r by lia.
    destruct (Z.to_nat i - length pre)%nat as [|k] eqn:Ek; [done|]. cbn [lookup]. destruct (lookup_lt_is_Some_2 post k) as [r' E]; [lia|].
    change (match post !! k with Some r => past key r | None => false end = true). rewrite E. rewrite Forall_lookup in Hpost. by eapply Hpost. }
  destruct (Search_spec (zlen rs) (after_end rs key) (fun _ => True) p) with (s := tt) as (i & s' & -> & _ & Hi & Hbefore & Hafter).
  - intros h [] Hh _. destruct (Hp h Hh) as (r' & Er & ->). exists tt. split; [|done]. apply after_end_past; [done|lia|]. rewrite Forall_lookup in Hrg. by eapply Hrg.
  - intros h k Hhk Hk Eh. destruct (Z.ltb_spec h (zlen pre)); [by rewrite Hlo in Eh by lia|]. apply Hhi. lia.
  - apply zlen_nonneg.
  - done.
  - cbn [obind]. assert (zlen rs = zlen pre + (1 + zlen post)) as Hz by (by rewrite Hrs, zlen_app, zlen_cons). pose proof (zlen_nonneg pre). pose proof (zlen_nonneg post).
    assert (i = zlen pre) as ->.
    { destruct (Z.lt_trichotomy i (zlen pre)) as [Hlt|[?|Hgt]]; [|done|]; [specialize (Hafter i ltac:(lia)); by rewrite Hlo in Hafter by lia|].
      specialize (Hbefore (zlen pre) ltac:(lia)). by rewrite Hhi in Hbefore by lia. }
    unfold index. destruct (Z.ltb_spec (zlen pre) 0); [lia|]. unfold zlen. rewrite Nat2Z.id, Hrs. by rewrite list_lookup_middle.
Qed.
(** the binary search finds what a search through all regions finds *)
Lemma locate_region rs key : tiles [] rs -> exists r, locate rs key = Ok r /\ region_for rs key = Some r.
Proof.
  intros Ht. destruct (tiles_split rs [] key Ht) as (pre & r & post & Hrs & Hp & Hh & Hpre & Hpost); [unfold key_le; by destruct key|].
  exists r. split.
  - apply (locate_found rs pre r post key); [by eapply tiles_ranges|done|done|eapply Forall_impl; [exact Hpre|by intros x []]|eapply Forall_impl; [exact Hpost|by intros x []]].
  - unfold region_for. rewrite Hrs. apply find_middle; [|done]. eapply Forall_impl; [exact Hpre|by intros x []].
Qed.
(** and no other region holds the key *)
Lemma holds_unique rs key r r' : tiles [] rs -> region_for rs key = Some r -> r' ∈ rs -> holds key r' = true -> r' = r.
Proof.
  intros Ht Hf Hin Hh. destruct (tiles_split rs [] key Ht) as (pre & x & post & -> & _ & Hx & Hpre & Hpost); [unfold key_le; by destruct key|].
  unfold region_for in Hf. rewrite find_middle in Hf; [|eapply Forall_impl; [exact Hpre|by intros y []]|done]. injection Hf as <-.
  apply elem_of_app in Hin as [Hin|Hin]; [rewrite Forall_forall in Hpre; destruct (Hpre _ Hin); congruence|].
  apply elem_of_cons in Hin as [->|Hin]; [done|]. rewrite Forall_forall in Hpost. destruct (Hpost _ Hin). congruence.
Qed.

(** C32: The binary search on the end keys finds the region that a linear scan for the region
    holding the key finds, for every sorted list of regions that tile the key space, and exactly
    that region holds the key. *)
Theorem locate_equivalent rs key : tiles [] rs ->
  locate rs key = match region_for rs key with Some r => Ok r | None => Panic end /\
  exists r, region_for rs key = Some r /\ forall r', r' ∈ rs -> holds key r' = true <-> r' = r.
Proof.
  intros Ht. destruct (locate_region rs key Ht) as (r & El & Hf). rewrite El, Hf. split; [done|]. exists r. split; [done|]. intros r' Hin. split.
  - by apply (holds_unique rs key).
  - intros ->. apply List.find_some in Hf. apply Hf.
Qed.

(** ** Sorting the regions *)

(** what [sort.Slice] promises of a strict weak order *)
Class SortLaws `{GoOrder} := {
  sort_less_sorted : forall {A} (less : A -> A -> bool) l, (forall x y, less x y = true -> less y x = false) ->
    (forall x y z, less y x = false -> less z y = false -> less z x = false) -> StronglySorted (fun x y => less y x = false) (sort_less less l) }.

Lemma start_less_le x y : start_less y x = false <-> key_le (start_key x) (start_key y).
Proof. unfold start_less, key_le. rewrite (bytes_compare_antisym (start_key x) (start_key y)). by destruct (bytes_compare (start_key x) (start_key y)). Qed.
Lemma tiles_starts rs : forall start, tiles start rs -> StronglySorted (fun x y => key_lt (start_key x) (start_key y)) rs /\ Forall (fun r => key_le start (start_key r)) rs.
Proof.
  induction rs as [|r rs IH]; intros start Ht; [done|]. apply tiles_cons in Ht as [[-> E]|(stop & E & Hlt & _ & Ht)].
  - split; [constructor; [constructor|done]|]. constructor; [|done]. unfold start_key. rewrite E. apply key_le_refl.
  - destruct (IH stop Ht) as [Hs Hf]. assert (start_key r = start) as Es by (unfold start_key; by rewrite E).
    split; constructor; rewrite ?Es; [done| |apply key_le_refl|]; (eapply Forall_impl; [exact Hf|]; intros x Hx; cbn beta in Hx |- *).
    + rewrite ?Es. by eapply key_lt_le_trans.
    + apply key_lt_le. by eapply key_lt_le_trans.
Qed.
Lemma sort_tiles `{SortLaws} regions rs : Permutation regions rs -> tiles [] rs -> sort_less start_less regions = rs.
Proof.
  intros Hp Ht. destruct (tiles_starts rs [] Ht) as [Hs _].
  apply (StronglySorted_unique_strong (fun x y => start_less y x = false)).
  - assert (forall x y, x ∈ rs -> y ∈ rs -> start_key x = start_key y -> x = y) as Hinj.
    { clear -Hs. induction Hs as [|r rs _ IH Hf]; intros x y Hx Hy E; [by apply not_elem_of_nil in Hx|]. rewrite Forall_forall in Hf.
      apply elem_of_cons in Hx as [->|Hx], Hy as [->|Hy]; [done| | |by apply IH]; exfalso.
      - apply (key_lt_irrefl (start_key y)). rewrite <- E at 1. by apply Hf.
      - apply (key_lt_irrefl (start_key x)). rewrite E at 1. by apply Hf. }
    intros x y Hx Hy H1' H2'. apply Hinj; [by rewrite <- Hp, (sort_less_perm start_less regions)|done|]. apply start_less_le in H1', H2'. by apply key_le_antisym.
  - apply sort_less_sorted.
    + intros x y Hxy. apply start_less_le. unfold start_less in Hxy. unfold key_le. by destruct (bytes_compare (start_key x) (start_key y)).
    + intros x y z H1' H2'. apply start_less_le in H1', H2'. apply start_less_le. by eapply key_le_trans.
  - clear -Hs. induction Hs as [|r rs _ IH Hf]; constructor; [done|]. eapply Forall_impl; [exact Hf|]. intros x Hx. apply start_less_le. by apply key_lt_le.
  - by rewrite <- Hp, <- (sort_less_perm start_less regions).
Qed.

(** ** The specification: one map *)

Definition restrict (m : kvmap) (rg : ProtoPm.Range) : kvmap := filter (fun p => in_range (StartKey rg) (EndKey rg) (fst p) = true) m.
(** a call that gets lost does nothing; one whose answer is lost takes effect *)
Definition fated {R : Type} (d : net) (m m' : kvmap) (r : R + error) : kvmap * (R + error) :=
  match d with Delivered => (m', r) | Lost => (m, inr errUnavailable) | NoReply => (m', inr errUnavailable) end.
(** a scan sees the region of its prefix only *)
Definition cluster_op (rs : list RegionInfo) (m : kvmap) (d : net) (op : lib_op) : kvmap * (lib_reply + error) :=
  match op with
  | LibPut k v => fated d m (<[k := v]> m) (inl LibDone)
  | LibGet k => fated d m m (match m !! k with Some v => inl (LibValue v) | None => inr errNotFound end)
  | LibDelete k => fated d m (delete k m) (match m !! k with Some _ => inl LibDone | None => inr errNotFound end)
  | LibRange prefix start =>
      fated d m m (match region_for rs prefix ≫= RI_Rg with
                   | Some rg => if in_range (StartKey rg) (EndKey rg) start
                                then inl (LibKeys (take (Z.to_nat (2 ^ 32 - 1)) (map_keys (restrict m rg) prefix start)))
                                else inr errNoPartid
                   | None => inr errNoPartid
                   end)
  end.
Fixpoint cluster_run (rs : list RegionInfo) (m : kvmap) (ops : list (net * lib_op)) : list (lib_reply + error) :=
  match ops with
  | [] => []
  | (d, op) :: ops => let '(m, r) := cluster_op rs m d op in r :: cluster_run rs m ops
  end.
(** the map after them *)
Definition cluster_after (rs : list RegionInfo) (m : kvmap) (ops : list (net * lib_op)) : kvmap := foldl (fun m p => fst (cluster_op rs m (fst p) (snd p))) m ops.
Definition lib_op_ok (op : lib_op) : Prop :=
  match op with
  | LibPut k v => client_kv k v
  | LibGet k => k <> []
  | LibDelete k => k <> [] /\ zlen k <= 2048
  | LibRange prefix start => prefix `prefix_of` start
  end.

Lemma restrict_insert_in m rg k v : in_range (StartKey rg) (EndKey rg) k = true -> restrict (<[k := v]> m) rg = <[k := v]> (restrict m rg).
Proof. intros Hk. unfold restrict. by rewrite map_filter_insert_True. Qed.
Lemma restrict_insert_out m rg k v : in_range (StartKey rg) (EndKey rg) k = false -> restrict (<[k := v]> m) rg = restrict m rg.
Proof. intros Hk. unfold restrict. apply map_filter_insert_not. intros v'. cbn [fst]. by rewrite Hk. Qed.
Lemma restrict_delete_out m rg k : in_range (StartKey rg) (EndKey rg) k = false -> restrict (delete k m) rg = restrict m rg.
Proof. intros Hk. unfold restrict. rewrite map_filter_delete. apply delete_id, map_lookup_filter_None. right. intros v _. cbn [fst]. by rewrite Hk. Qed.
Lemma restrict_delete m rg k : restrict (delete k m) rg = delete k (restrict m rg).
Proof. apply map_filter_delete. Qed.
Lemma restrict_lookup m rg k : in_range (StartKey rg) (EndKey rg) k = true -> restrict m rg !! k = m !! k.
Proof.
  intros Hk. unfold restrict. destruct (m !! k) as [v|] eqn:E; [by apply map_lookup_filter_Some|]. apply map_lookup_filter_None. by left.
Qed.

Section Cluster.
Context {LogSt RowSt Bloom LogIt : Type}.
Context `{LogL : StreamLaws LogSt} `{LogS : !LogStream LogSt} `{LogA : !LogLaws LogSt} `{LogI : !LogIters LogSt LogIt} `{LogT : !LogTail LogSt LogIt}.
Context `{RowL : StreamLaws RowSt} `{RowT : !TruncStream RowSt} `{RowA : !TruncLaws RowSt} `{BloomL : BloomLaws Bloom} `{Sort : SortSlice}.
Variable fp : bytes -> Z.
Variable rnd : SL -> bytes -> nat -> Z.
Variable sched : Z -> nat -> nat.
Hypothesis bloom_small : forall hs : list Z, zlen hs <= 2 ^ 21 -> zlen (bf_JSONMarshal (filter_of (Bloom := Bloom) hs)) < 2 ^ 29.
Variables (fuel tries : nat) (now : Z).
Abbreviation servers := (gmap bytes (PartitionServer (LogSt := LogSt) (RowSt := RowSt) (Bloom := Bloom))).
Abbreviation served := (PartitionServer.served (LogSt := LogSt) (RowSt := RowSt) (Bloom := Bloom)).
Abbreviation PS := (PartitionServer (LogSt := LogSt) (RowSt := RowSt) (Bloom := Bloom)).

(** the server of a region has its partition, which holds the region's part of the map *)
Definition hosts (b w : nat) (ws : servers) (m : kvmap) (r : RegionInfo) (rg : ProtoPm.Range) (ps : PS) (sv : served) : Prop :=
  RI_Rg r = Some rg /\ ws !! RI_Addr r = Some ps /\ rangePartitions ps !! RI_PartID r = Some sv /\
  sv_StartKey sv = StartKey rg /\ sv_EndKey sv = EndKey rg /\ part_inv fp b w (sv_rp sv) (restrict m rg).
Definition cluster_inv (b w : nat) (ws : servers) (rs : list RegionInfo) (m : kvmap) : Prop :=
  NoDup (RI_PartID <$> rs) /\ forall r, r ∈ rs -> exists rg ps sv, hosts b w ws m r rg ps sv.

Lemma cluster_inv_le b b' w w' ws rs m : (b' <= b)%nat -> (w <= w')%nat -> cluster_inv b w ws rs m -> cluster_inv b' w' ws rs m.
Proof using.
  intros Hb Hw [Hn Hr]. split; [done|]. intros r Hin. destruct (Hr r Hin) as (rg & ps & sv & H1' & H2' & H3' & H4' & H5' & H6').
  exists rg, ps, sv. repeat (split; [done|]). by eapply part_inv_le.
Qed.
(** the partition of one region changes *)
Lemma cluster_inv_set b b' w w' ws rs m m' r rg ps sv rp : (b' <= b)%nat -> (w <= w')%nat -> cluster_inv b w ws rs m -> r ∈ rs -> hosts b w ws m r rg ps sv ->
  part_inv fp b' w' rp (restrict m' rg) ->
  (forall r' rg', r' ∈ rs -> RI_PartID r' <> RI_PartID r -> RI_Rg r' = Some rg' -> restrict m' rg' = restrict m rg') ->
  cluster_inv b' w' (<[RI_Addr r := with_rp ps (RI_PartID r) sv rp]> ws) rs m'.
Proof using.
  intros Hb Hw [Hn Hr] Hin (E1 & E2 & E3 & E4 & E5 & _) Hp Hoth. split; [done|]. intros r' Hin'.
  destruct (decide (RI_PartID r' = RI_PartID r)) as [Eid|Hne].
  - assert (r' = r) as ->.
    { apply list_elem_of_lookup in Hin as [i Hi], Hin' as [j Hj]. assert (i = j) as ->; [|congruence].
      apply (NoDup_lookup (RI_PartID <$> rs) i j (RI_PartID r) Hn); rewrite list_lookup_fmap; [by rewrite Hi|by rewrite Hj, <- Eid]. }
    exists rg, (with_rp ps (RI_PartID r) sv rp), (mkServed (sv_StartKey sv) (sv_EndKey sv) rp). split; [done|]. rewrite lookup_insert_eq. split; [done|].
    cbn [with_rp rangePartitions]. rewrite lookup_insert_eq. split; [done|]. split; [exact E4|]. split; [exact E5|exact Hp].
  - destruct (Hr r' Hin') as (rg' & ps' & sv' & F1 & F2 & F3 & F4 & F5 & F6).
    assert (part_inv fp b' w' (sv_rp sv') (restrict m' rg')) as F6' by (rewrite (Hoth r' rg' Hin' Hne F1); eapply part_inv_le; [exact Hb|exact Hw|exact F6]).
    destruct (decide (RI_Addr r' = RI_Addr r)) as [Ea|Ha].
    + rewrite Ea, E2 in F2. injection F2 as <-. exists rg', (with_rp ps (RI_PartID r) sv rp), sv'. split; [done|]. rewrite Ea, lookup_insert_eq. split; [done|].
      cbn [with_rp rangePartitions]. rewrite lookup_insert_ne by congruence. split; [exact F3|]. split; [exact F4|]. split; [exact F5|exact F6'].
    + exists rg', ps', sv'. split; [done|]. rewrite lookup_insert_ne by congruence. split; [exact F2|]. split; [exact F3|]. split; [exact F4|]. split; [exact F5|exact F6'].
Qed.

Hypothesis tries_enough : (2 <= tries)%nat.

(** what the server of the key's region does *)
Lemma part_checked b w ws m r rg ps sv key : hosts b w ws m r rg ps sv -> checkVersion ps (RI_PartID r) key = if in_range (StartKey rg) (EndKey rg) key then Some sv else None.
Proof using. intros (_ & _ & E3 & E4 & E5 & _). unfold checkVersion. by rewrite E3, E4, E5. Qed.
Lemma others_out rs key r r' rg' : tiles [] rs -> region_for rs key = Some r -> r' ∈ rs -> RI_PartID r' <> RI_PartID r -> RI_Rg r' = Some rg' -> in_range (StartKey rg') (EndKey rg') key = false.
Proof using.
  intros Ht Hf Hin Hne Erg. destruct (in_range _ _ key) eqn:E; [|done]. destruct Hne. f_equal. apply (holds_unique rs key r r' Ht Hf Hin). unfold holds. by rewrite Erg.
Qed.
Lemma region_for_holds rs key r : region_for rs key = Some r -> r ∈ rs /\ holds key r = true.
Proof using. intros Hf. apply List.find_some in Hf as [Hin Hh]. split; [by apply list_elem_of_In|done]. Qed.

Abbreviation handle := (ps_handle fp rnd sched fuel tries now).
(** a request to the region that holds its key: the server's answer, and the map after it *)
Lemma handle_ok b w ws rs m r rg ps sv op key : cluster_inv (5 + b) w ws rs m -> tiles [] rs -> region_for rs key = Some r -> hosts (5 + b) w ws m r rg ps sv -> (w < fuel)%nat -> lib_op_ok op ->
  (match op with LibPut k _ | LibGet k | LibDelete k => k = key | LibRange prefix _ => prefix = key end) ->
  let req := match op with
             | LibPut k v => PutRequest (RI_PartID r) k v
             | LibGet k => GetRequest (RI_PartID r) k
             | LibDelete k => DeleteRequest (RI_PartID r) k
             | LibRange prefix start => RangeRequest (RI_PartID r) prefix start (2 ^ 32 - 1)
             end in
  exists ps' res, handle ps req = Ok (ps', res) /\ cluster_inv b (S w) (<[RI_Addr r := ps']> ws) rs (fst (cluster_op rs m Delivered op)) /\
    (match res with
     | inl (PutResponse _) | inl (DeleteResponse _) => inl LibDone
     | inl (GetResponse _ v) => inl (LibValue v)
     | inl (RangeResponse keys) => inl (LibKeys keys)
     | inr e => inr e
     end) = snd (cluster_op rs m Delivered op) /\
    (forall a, res = inl a -> match op, a with LibPut _ _, PutResponse _ | LibGet _, GetResponse _ _ | LibDelete _, DeleteResponse _ | LibRange _ _, RangeResponse _ => True | _, _ => False end).
Proof using bloom_small BloomL RowL LogA LogT RowA tries_enough now Sort rnd sched.
  intros Hi Ht Hf Hh Hw Hok Hkey req. destruct (region_for_holds rs key r Hf) as [Hin Hhold]. pose proof Hh as (Erg & Eps & _ & _ & _ & Hp).
  unfold holds in Hhold. rewrite Erg in Hhold. assert (cluster_inv b (S w) (<[RI_Addr r := ps]> ws) rs m) as Hsame.
  { rewrite insert_id by done. eapply cluster_inv_le; [| |exact Hi]; lia. }
  pose proof (others_out rs key r) as Hout. unfold req. destruct op as [k v|k|k|prefix start]; subst; cbn [ps_handle cluster_op fated fst snd lib_op_ok] in *;
    [unfold ps_Put|unfold ps_Get|unfold ps_Delete|unfold ps_Range]; rewrite (part_checked _ _ _ _ _ _ _ _ _ Hh), ?Hhold.
  - destruct (part_Write fp rnd sched bloom_small fuel tries now tries_enough b w (sv_rp sv) (restrict m rg) key v Hp Hok Hw) as (rp & -> & Hp'). cbn [obind].
    do 2 eexists. split; [reflexivity|]. split; [|split; [done|by intros a [= <-]]].
    apply (cluster_inv_set (5 + b) b w (S w) ws rs m _ r rg ps sv rp); [lia|lia|done|done|done|by rewrite restrict_insert_in|]. intros r' rg' H1' H2' H3'. by apply restrict_insert_out, (Hout r').
  - rewrite (part_Get fp rnd sched bloom_small fuel tries now tries_enough b w (sv_rp sv) (restrict m rg) key Hp Hok Hw), restrict_lookup by done. cbn [obind].
    do 2 eexists. split; [reflexivity|]. split; [exact Hsame|]. destruct (m !! key); [split; [done|by intros a [= <-]]|done].
  - destruct (part_Delete fp rnd sched bloom_small fuel tries now tries_enough b w (sv_rp sv) (restrict m rg) key Hp (proj1 Hok) (proj2 Hok) Hw) as (rp & -> & Hp').
    rewrite restrict_lookup by done. cbn [obind]. do 2 eexists. split; [reflexivity|]. split; [|destruct (m !! key); [split; [done|by intros a [= <-]]|done]].
    apply (cluster_inv_set (5 + b) b w (S w) ws rs m _ r rg ps sv rp); [lia|lia|done|done|done|by rewrite restrict_delete|]. intros r' rg' H1' H2' H3'. by apply restrict_delete_out, (Hout r').
  - rewrite Hf. cbn [mbind option_bind]. rewrite Erg. destruct (in_range (StartKey rg) (EndKey rg) start); [|do 2 eexists; split; [reflexivity|]; split; [exact Hsame|done]].
    rewrite (part_Range fp rnd sched bloom_small fuel tries now tries_enough b w (sv_rp sv) (restrict m rg) key start (2 ^ 32 - 1) Hp Hok ltac:(lia) Hw).
    cbn [obind]. do 2 eexists. split; [reflexivity|]. split; [exact Hsame|]. split; [done|by intros a [= <-]].
Qed.

(** one operation of the library *)
Lemma lib_do_ok b w lib ws m d op : cluster_inv (5 + b) w ws (lib_regions lib) m -> tiles [] (lib_regions lib) -> (w < fuel)%nat -> lib_op_ok op ->
  exists lib' ws', lib_do fp rnd sched fuel tries now d lib op ws = (ws', Ok (lib', snd (cluster_op (lib_regions lib) m d op))) /\
    lib_regions lib' = lib_regions lib /\ cluster_inv b (S w) ws' (lib_regions lib) (fst (cluster_op (lib_regions lib) m d op)).
Proof using bloom_small BloomL RowL LogA LogT RowA tries_enough now Sort rnd sched.
  intros Hi Ht Hw Hok. set (key := match op with LibPut k _ | LibGet k | LibDelete k => k | LibRange prefix _ => prefix end).
  destruct (locate_region (lib_regions lib) key Ht) as (r & El & Hf). destruct (region_for_holds _ _ _ Hf) as [Hin _].
  destruct (proj2 Hi r Hin) as (rg & ps & sv & Hh).
  destruct (handle_ok b w ws (lib_regions lib) m r rg ps sv op key Hi Ht Hf Hh Hw Hok ltac:(by destruct op)) as (ps' & res & Eh & Hi' & Er & Hkind).
  assert (cluster_inv b (S w) ws (lib_regions lib) m) as Hsame by (eapply cluster_inv_le; [| |exact Hi]; lia).
  assert ((zlen (lib_regions lib) =? 0) = false) as Hz.
  { apply Z.eqb_neq. intros E. apply zlen_0_nil in E. rewrite E in Hin. by apply not_elem_of_nil in Hin. }
  destruct Hh as (_ & Eps & _). exists (getConn lib (RI_Addr r)).
  destruct op as [k v|k|k|prefix start]; cbn [lib_do]; [unfold lib_Put|unfold lib_Get|unfold lib_Delete|unfold lib_Range]; unfold lib_send, answer, call_ps; subst key; cbn beta iota in El;
    rewrite Hz, El, Eps; (destruct d; cbn [cluster_op fated fst snd] in *; [rewrite Eh|by eexists|rewrite Eh]); eexists; (split; [|split; [reflexivity|exact Hi']]); cbn [obind].
  all: try reflexivity.
  all: destruct res as [a|e]; [specialize (Hkind a eq_refl); destruct a; try done|]; cbn [obind] in *; by rewrite <- Er.
Qed.
Lemma lib_run_ok b ops : forall w lib ws m, cluster_inv (5 * length ops + b) w ws (lib_regions lib) m -> tiles [] (lib_regions lib) -> (w + length ops <= fuel)%nat ->
  Forall (fun p => lib_op_ok (snd p)) ops -> exists ws', lib_run fp rnd sched fuel tries now lib ws ops = (ws', Ok (cluster_run (lib_regions lib) m ops)) /\
    cluster_inv b (w + length ops) ws' (lib_regions lib) (cluster_after (lib_regions lib) m ops).
Proof using bloom_small BloomL RowL LogA LogT RowA tries_enough now Sort rnd sched.
  induction ops as [|[d op] ops IH]; intros w lib ws m Hi Ht Hf Hok; [exists ws; by rewrite Nat.add_0_r|]. apply Forall_cons in Hok as [Hop Hok]. cbn [lib_run cluster_run length snd] in *.
  unfold cluster_after. cbn [foldl fst snd]. fold (cluster_after (lib_regions lib) (fst (cluster_op (lib_regions lib) m d op)) ops).
  destruct (lib_do_ok (5 * length ops + b) w lib ws m d op ltac:(eapply cluster_inv_le; [| |exact Hi]; lia) Ht ltac:(lia) Hop) as (lib' & ws' & -> & El & Hi').
  destruct (cluster_op (lib_regions lib) m d op) as [m' r]. cbn [fst snd] in Hi'. rewrite <- El in Hi', Ht |- *.
  destruct (IH (S w) lib' ws' m' Hi' Ht ltac:(lia) Hok) as (ws2 & -> & Hi2). exists ws2. split; [reflexivity|]. cbn [fst]. by rewrite Nat.add_succ_r.
Qed.

(** ** The regions from the manager *)

Section Connect.
Context `{Order : SortLaws}.
Variable env : nat -> nat -> pm_env.
Hypothesis delivered : forall j k, pe_call (env j k) = Delivered.

Lemma client_GetRegions_ok c pms db l pm regions : pm_managers c pms l pm -> GetRegions pm = Ok (PM_OK, regions) ->
  client_GetRegions (env 0%nat) c (pms, db) = ((pms, db), Ok (mkPMC (pm_conns c) l (pm_lock c), regions)).
Proof using delivered.
  intros [Hc Hlen Hlast Hl [Hpm Hlead] Hoth] Hg. unfold client_GetRegions.
  rewrite (pm_try_finds _ c l ([], (pms, db)) (regions, (pms, db))); [reflexivity|..|done|done|done].
  - intros k i Hi Hne. rewrite delivered. unfold pm_serve. destruct (pms !! Z.to_nat i) as [q|] eqn:Eq; [|reflexivity]. unfold tret, GetRegions.
    rewrite (Hoth (Z.to_nat i) q) by (done || (clear tries_enough; lia)). cbn [negb obind]. by rewrite list_insert_id.
  - intros k. rewrite delivered. unfold pm_serve. rewrite Hpm. unfold tret. rewrite Hg. cbn [obind]. by rewrite list_insert_id.
Qed.

(** connecting gives the regions in order *)
Lemma lib_update_ok fuel' c pms db l pm regions rs lib : pm_managers c pms l pm -> GetRegions pm = Ok (PM_OK, regions) -> Permutation regions rs -> tiles [] rs ->
  lib_update env (S fuel') lib c (pms, db) = Some ((pms, db), Ok (mkPMC (pm_conns c) l (pm_lock c), mkLib rs (lib_conns lib))).
Proof using delivered Order.
  intros Hm Hg Hp Ht. unfold lib_update. cbn [fetch_regions]. rewrite (client_GetRegions_ok c pms db l pm regions Hm Hg).
  assert (regions <> []) as Hne by (intros ->; apply Permutation_nil in Hp as ->; done).
  assert (existsb no_range regions = false) as Hrg.
  { apply not_true_iff_false. intros (r & Hin & Hr)%existsb_exists. pose proof (tiles_ranges rs [] Ht) as Hall. rewrite <- Hp in Hall.
    rewrite Forall_forall in Hall. apply list_elem_of_In in Hin. destruct (Hall r Hin) as [rg E]. unfold no_range in Hr. by rewrite E in Hr. }
  destruct regions as [|r0 regions]; [done|]. cbn [obind]. by rewrite Hrg, andb_false_r, (sort_tiles _ rs Hp Ht).
Qed.

End Connect.
End Cluster.
