(* ===== verification/ClientCmd.v ===== *)
(** The commands put, get, del, ls and info of cmd/autumn-client/main.go: each
    splits its address flag, connects, makes one call of the client library (or
    of the stream manager's client) and prints. With the [Connect] methods of the
    clients and [utils.SplitAndTrim]. *)
From Stdlib Require Import ZArith Lia Strings.String Strings.Byte.
From stdpp Require Import base option list numbers gmap sorting strings.
From S2P Require Import Prelude GoLib Utils Proto ProtoSub ProtoPs ProtoSm ProtoPm Keys YIter Extent MixBlock Stream.
From S2P Require Import Skiplist SkiplistSpec SkiplistPut TableBlock Table TableSpec TableBuild.
From S2P Require Import Partition PartitionSpec PartitionRun PartitionScan PartitionOpen Compact PartitionRestart PartitionMap.
From S2P Require Import Etcd EtcdSpec StreamManager PartitionManager PartitionManagerRun Clients PartitionServer PartitionServerSpec AutumnLib AutumnLibSpec.

(** ** utils.SplitAndTrim *)

(** [strings.Split] at a separator of one byte *)
Fixpoint Split (s : bytes) (sep : byte) : list bytes :=
  match s with
  | [] => [[]]
  | b :: s =>
      if decide (b = sep) then [] :: Split s sep
      else match Split s sep with p :: ps => (b :: p) :: ps | [] => [[b]] end
  end.
(** the encodings of the code points with [unicode.IsSpace] *)
Definition spaces : list bytes :=
  [[x09]; [x0a]; [x0b]; [x0c]; [x0d]; [x20]; [xc2; x85]; [xc2; xa0]; [xe1; x9a; x80];
   [xe2; x80; x80]; [xe2; x80; x81]; [xe2; x80; x82]; [xe2; x80; x83]; [xe2; x80; x84]; [xe2; x80; x85]; [xe2; x80; x86];
   [xe2; x80; x87]; [xe2; x80; x88]; [xe2; x80; x89]; [xe2; x80; x8a]; [xe2; x80; xa8]; [xe2; x80; xa9]; [xe2; x80; xaf];
   [xe2; x81; x9f]; [xe3; x80; x80]].
Fixpoint strip (p s : bytes) : option bytes :=
  match p, s with
  | [], s => Some s
  | a :: p, b :: s => if decide (a = b) then strip p s else None
  | _, [] => None
  end.
Definition strip_any (ps : list bytes) (s : bytes) : option bytes := foldr (fun p r => match strip p s with Some s' => Some s' | None => r end) None ps.
Fixpoint trim_left (fuel : nat) (ps : list bytes) (s : bytes) : bytes :=
  match fuel with
  | O => s
  | S fuel => match strip_any ps s with Some s' => trim_left fuel ps s' | None => s end
  end.
Definition TrimSpace (s : bytes) : bytes :=
  let s := trim_left (length s) spaces s in
  reverse (trim_left (length s) (reverse <$> spaces) (reverse s)).
Definition SplitAndTrim (s : bytes) (sep : byte) : list bytes := TrimSpace <$> Split s sep.
Definition comma : byte := x2c.

Lemma Split_nonempty s sep : Split s sep <> [].
Proof. destruct s as [|b s]; cbn [Split]; [done|]. destruct (decide _); [done|]. by destruct (Split s sep). Qed.
Lemma SplitAndTrim_nonempty s sep : SplitAndTrim s sep <> [].
Proof. unfold SplitAndTrim. pose proof (Split_nonempty s sep). by destruct (Split s sep). Qed.

(** ** Connecting *)

(** [grpc.Dial] of an address; a failed one leaves a nil connection *)
Definition smc_Connect (dial : bytes -> bool) (addrs : list bytes) : outcome SMClient :=
  if zlen addrs =? 0 then Err (Errorf "addr is nil") else
  let conns := dial <$> addrs in
  let errCount := zlen (filter (fun c => c = false) conns) in
  if errCount =? zlen addrs then Err (Errorf "all connection failed") else Ok (mkSMC conns 0).
Definition pmc_Connect (dial : bytes -> bool) (addrs : list bytes) : outcome AutumnPMClient :=
  if zlen addrs =? 0 then Err (Errorf "addr is nil") else
  let! lock := Lock newMutex in
  let conns := dial <$> addrs in
  let errCount := zlen (filter (fun c => c = false) conns) in
  let! lock := Unlock lock in
  if errCount =? zlen addrs then Err (Errorf "all connection failed") else Ok (mkPMC conns 0 lock).
(** the other methods of SMClient *)
Definition CurrentLeader (addrs : list bytes) (c : SMClient) : outcome bytes := index addrs (sm_lastLeader c).
Definition Alive (c : SMClient) : bool := 0 <? zlen (sm_conns c).
(** [c.Close()] of a nil connection panics *)
Definition smc_Close (c : SMClient) : outcome SMClient := if forallb id (sm_conns c) then Ok (mkSMC [] (sm_lastLeader c)) else Panic.

Definition NewAutumnLib : AutumnLib := mkLib [] ∅.
(** [None]: [update] asks for ever *)
Definition lib_Connect `{GoOrder} (env : nat -> nat -> pm_env) (dial : bytes -> bool) (fuel : nat) (pmAddr : list bytes) (w : pm_world)
    : option (pm_world * outcome (AutumnPMClient * AutumnLib)) :=
  match pmc_Connect dial pmAddr with
  | Ok c => lib_update env fuel NewAutumnLib c w
  | Err e => Some (w, Err e)
  | Panic => Some (w, Panic)
  end.

(** ** The commands *)

Definition newline : byte := x0a.
Definition bytes_of (s : string) : bytes := (fun a => byte_of (Z.of_nat (Ascii.nat_of_ascii a))) <$> list_ascii_of_string s.
(** [c.Args().Get(n)] *)
Definition Arg (args : list bytes) (n : nat) : bytes := default [] (args !! n).

Section Commands.
Context {LogSt RowSt Bloom LogIt : Type}.
Context `{LogL : StreamClient LogSt} `{LogS : !LogStream LogSt} `{LogI : !LogIters LogSt LogIt}.
Context `{RowL : StreamClient RowSt} `{RowT : !TruncStream RowSt} `{BloomO : BloomOps Bloom} `{Sort : SortSlice} `{Order : GoOrder}.
Variable fp : bytes -> Z.
Variable rnd : SL -> bytes -> nat -> Z.
Variable sched : Z -> nat -> nat.
Variables (fuel tries : nat) (now : Z).
Abbreviation servers := (gmap bytes (PartitionServer (LogSt := LogSt) (RowSt := RowSt) (Bloom := Bloom))).
(** the managers and the servers a command talks to *)
Definition cli_world : Type := pm_world * servers.
(** the files of the machine it runs on, what dialling does, the fates of the calls to the managers *)
Variable ReadFile : bytes -> option bytes.
Variable dial : bytes -> bool.
Variable env : nat -> nat -> pm_env.

(** what a command prints, or its error; the texts of errors are shortened *)
Definition cli_result : Type := option (cli_world * outcome bytes).
Definition connected (pmAddr : bytes) (w : cli_world) (k : AutumnLib -> pm_world -> servers -> cli_result) : cli_result :=
  match lib_Connect env dial fuel (SplitAndTrim pmAddr comma) (fst w) with
  | None => None
  | Some (pw, Ok (_, lib)) => k lib pw (snd w)
  | Some (pw, Err e) => Some ((pw, snd w), Err e)
  | Some (pw, Panic) => Some ((pw, snd w), Panic)
  end.
(** one call of the library, and what is made of its answer *)
Definition call_lib (d : net) (lib : AutumnLib) (op : lib_op) (pw : pm_world) (ws : servers) (k : lib_reply + error -> outcome bytes) : cli_result :=
  let '(ws, r) := lib_do fp rnd sched fuel tries now d lib op ws in
  Some ((pw, ws), let! (_, r) := r in k r).

Definition del (d : net) (pmAddr : bytes) (args : list bytes) (w : cli_world) : cli_result :=
  connected pmAddr w (fun lib pw ws =>
    let key := Arg args 0 in
    if zlen key =? 0 then Some ((pw, ws), Err (Errorf "no key")) else
    call_lib d lib (LibDelete key) pw ws (fun r => match r with inl _ => Ok [] | inr e => Err e end)).
Definition get (d : net) (pmAddr : bytes) (args : list bytes) (w : cli_world) : cli_result :=
  connected pmAddr w (fun lib pw ws =>
    let key := Arg args 0 in
    if zlen key =? 0 then Some ((pw, ws), Err (Errorf "no key")) else
    call_lib d lib (LibGet key) pw ws (fun r =>
      match r with inl (LibValue v) => Ok v | inl _ => Panic | inr _ => Err (Errorf "get key failed") end)).
Definition autumnRange (d : net) (pmAddr : bytes) (args : list bytes) (w : cli_world) : cli_result :=
  if zlen (SplitAndTrim pmAddr comma) =? 0 then Some (w, Err (Errorf "pmAddr is nil")) else
  connected pmAddr w (fun lib pw ws =>
    let prefix := Arg args 0 in
    call_lib d lib (LibRange prefix prefix) pw ws (fun r =>
      match r with inl (LibKeys out) => Ok (mjoin ((fun k => k ++ [newline]) <$> out)) | inl _ => Panic | inr e => Err e end)).
Definition put (d : net) (pmAddr : bytes) (args : list bytes) (w : cli_world) : cli_result :=
  if zlen (SplitAndTrim pmAddr comma) =? 0 then Some (w, Err (Errorf "pmAddr is nil")) else
  connected pmAddr w (fun lib pw ws =>
    let key := Arg args 0 in
    if zlen key =? 0 then Some ((pw, ws), Err (Errorf "no key")) else
    let fileName := Arg args 1 in
    if zlen fileName =? 0 then Some ((pw, ws), Err (Errorf "no fileName")) else
    match ReadFile fileName with
    | None => Some ((pw, ws), Err (Errorf "read file"))
    | Some value =>
        call_lib d lib (LibPut key value) pw ws (fun r =>
          match r with inl _ => Ok (bytes_of "success" ++ [newline]) | inr _ => Err (Errorf "put key failed") end)
    end).

Inductive command := CmdPut (args : list bytes) | CmdGet (args : list bytes) | CmdDel (args : list bytes) | CmdLs (args : list bytes).
Definition run_command (d : net) (pmAddr : bytes) (c : command) : cli_world -> cli_result :=
  match c with
  | CmdPut args => put d pmAddr args
  | CmdGet args => get d pmAddr args
  | CmdDel args => del d pmAddr args
  | CmdLs args => autumnRange d pmAddr args
  end.
(** one process after the other *)
Fixpoint run_commands (pmAddr : bytes) (w : cli_world) (cs : list (net * command)) : option (cli_world * list (outcome bytes)) :=
  match cs with
  | [] => Some (w, [])
  | (d, c) :: cs =>
      match run_command d pmAddr c w with
      | Some (w, r) => match run_commands pmAddr w cs with Some (w, rs) => Some (w, r :: rs) | None => None end
      | None => None
      end
  end.
End Commands.

(** [info]: the three values it prints *)
Definition info `{GoOrder} (senv : nat -> nat -> sm_env) (dial : bytes -> bool) (smAddr : bytes) (w : sm_world)
    : sm_world * outcome (gmap Z StreamInfo * gmap Z (option ExtentInfo) * gmap Z NodeInfo) :=
  match smc_Connect dial (SplitAndTrim smAddr comma) with
  | Ok c =>
      match smc_StreamInfo (senv 0%nat) None c w with
      | (w, Ok (c, (streams, extents))) =>
          match smc_NodesInfo (senv 1%nat) c w with
          | (w, Ok (_, nodes)) => (w, Ok (streams, extents, nodes))
          | (w, Err e) => (w, Err e)
          | (w, Panic) => (w, Panic)
          end
      | (w, Err e) => (w, Err e)
      | (w, Panic) => (w, Panic)
      end
  | Err e => (w, Err e)
  | Panic => (w, Panic)
  end.

Lemma zlen_eqb_0 {A} (l : list A) : (zlen l =? 0) = bool_decide (l = []).
Proof. destruct l; [done|]. rewrite bool_decide_false by done. apply Z.eqb_neq. unfold zlen. cbn. lia. Qed.
Lemma no_bad_conn (l : list bool) : Forall (fun x => x = true) l -> filter (fun c => c = false) l = [].
Proof. induction 1 as [|x l -> _ IH]; [done|]. by rewrite filter_cons_False. Qed.
(** a connected client has a leader to ask; closing it needs every address to be up *)
Lemma smc_Connect_Close dial addrs c : smc_Connect dial addrs = Ok c ->
  Alive c = true /\ (exists a, CurrentLeader addrs c = Ok a) /\
  ((forall a, a ∈ addrs -> dial a = true) -> exists c', smc_Close c = Ok c' /\ Alive c' = false) /\
  (forall a, a ∈ addrs -> dial a = false -> smc_Close c = Panic).
Proof.
  unfold smc_Connect. destruct addrs as [|a0 addrs]; [done|]. destruct (zlen (a0 :: addrs) =? 0); [done|]. destruct (_ =? zlen (a0 :: addrs)); [done|]. intros [= <-].
  split; [apply Z.ltb_lt; unfold zlen; cbn; lia|]. split; [exists a0; unfold CurrentLeader, index; cbn; done|]. unfold smc_Close. cbn [sm_conns]. change (list_fmap _ _ dial addrs) with (dial <$> addrs). change (dial a0 :: (dial <$> addrs)) with (dial <$> a0 :: addrs). split.
  - intros Hall. eexists. assert (forallb id (dial <$> a0 :: addrs) = true) as -> by (apply forallb_forall; intros x Hx; apply list_elem_of_In, list_elem_of_fmap in Hx as (a & -> & Ha); by apply Hall).
    by split.
  - intros a Ha Hd. destruct (forallb id (dial <$> a0 :: addrs)) eqn:E; [|done]. rewrite forallb_forall in E. specialize (E false). 
    exfalso. assert (id false = true); [|done]. apply E. apply list_elem_of_In, list_elem_of_fmap. by exists a.
Qed.
(** [info] shows what the leading stream manager keeps *)
Lemma info_shows `{GoOrder} senv dial smAddr sms db l sm ss xs ns : (forall a, dial a = true) -> length sms = length (SplitAndTrim smAddr comma) ->
  0 <= l < zlen (SplitAndTrim smAddr comma) -> sms !! Z.to_nat l = Some sm -> (forall j s, j <> Z.to_nat l -> sms !! j = Some s -> isLeader s = false) ->
  (forall j k, ev_call (senv j k) = Delivered) -> sm_StreamInfo sm None = Ok (ss, xs) -> NodesInfo sm = Ok ns ->
  info senv dial smAddr (sms, db) = ((sms, db), Ok (ss, xs, ns)).
Proof.
  intros Hd Hlen Hl Hsm Hoth Hcall Hs Hn. pose proof (SplitAndTrim_nonempty smAddr comma) as Hne. unfold info, smc_Connect. set (addrs := SplitAndTrim smAddr comma) in *.
  assert (Forall (fun x => x = true) (dial <$> addrs)) as Hall by (apply Forall_fmap, Forall_forall; intros; apply Hd).
  rewrite zlen_eqb_0, bool_decide_false by done. rewrite no_bad_conn by done. change (zlen (@nil bool)) with 0. rewrite Z.eqb_sym, zlen_eqb_0, bool_decide_false by done.
  assert (zlen (dial <$> addrs) = zlen addrs) as Hz by (unfold zlen; by rewrite length_fmap).
  assert (forall i, 0 <= i < zlen addrs -> forall j req r, (forall e, sm_handle e req sm db = (db, Ok (sm, r))) -> r <> ResCode StreamManager.Code_TruncateNotMatch ->
    sm_request_call (senv j) (mkSMC (dial <$> addrs) i) req (sms, db) = ((sms, db), Ok (mkSMC (dial <$> addrs) l, r))) as Hreq.
  { intros i Hi j req r Hh Hr. rewrite (request_reaches_leader (senv j) req (mkSMC (dial <$> addrs) i) sms db l sm sm db r); try done; cbn [sm_conns sm_lastLeader].
    - by rewrite list_insert_id.
    - by rewrite length_fmap.
    - by rewrite Hz.
    - by rewrite Hz. }
  unfold smc_StreamInfo, smc_NodesInfo. rewrite (Hreq 0 ltac:(lia) _ _ (ResStreams ss xs)); [|intros e; unfold sm_handle, respond, keep, tbind, tret; by rewrite Hs|done].
  cbn [expect obind]. rewrite (Hreq l Hl _ _ (ResNodes ns)); [|intros e; unfold sm_handle, respond, keep, tbind, tret; by rewrite Hn|done]. done.
Qed.

(** ** The specification: one map *)

Definition command_spec (files : bytes -> option bytes) (rs : list RegionInfo) (m : kvmap) (d : net) (c : command) : kvmap * outcome bytes :=
  match c with
  | CmdPut args =>
      if zlen (Arg args 0) =? 0 then (m, Err (Errorf "no key")) else
      if zlen (Arg args 1) =? 0 then (m, Err (Errorf "no fileName")) else
      match files (Arg args 1) with
      | None => (m, Err (Errorf "read file"))
      | Some v => match d with
                  | Delivered => (<[Arg args 0 := v]> m, Ok (bytes_of "success" ++ [newline]))
                  | NoReply => (<[Arg args 0 := v]> m, Err (Errorf "put key failed"))
                  | Lost => (m, Err (Errorf "put key failed"))
                  end
      end
  | CmdGet args =>
      if zlen (Arg args 0) =? 0 then (m, Err (Errorf "no key")) else
      (m, match d, m !! Arg args 0 with Delivered, Some v => Ok v | _, _ => Err (Errorf "get key failed") end)
  | CmdDel args =>
      if zlen (Arg args 0) =? 0 then (m, Err (Errorf "no key")) else
      match d with
      | Delivered => (delete (Arg args 0) m, match m !! Arg args 0 with Some _ => Ok [] | None => Err errNotFound end)
      | NoReply => (delete (Arg args 0) m, Err errUnavailable)
      | Lost => (m, Err errUnavailable)
      end
  | CmdLs args =>
      (m, match d, region_for rs (Arg args 0) ≫= RI_Rg with
          | Delivered, Some rg => Ok (mjoin ((fun k => k ++ [newline]) <$> take (Z.to_nat (2 ^ 32 - 1)) (map_keys (restrict m rg) (Arg args 0) (Arg args 0))))
          | Delivered, None => Err errNoPartid
          | _, _ => Err errUnavailable
          end)
  end.
Fixpoint commands_spec (files : bytes -> option bytes) (rs : list RegionInfo) (m : kvmap) (cs : list (net * command)) : list (outcome bytes) :=
  match cs with
  | [] => []
  | (d, c) :: cs => let '(m, r) := command_spec files rs m d c in r :: commands_spec files rs m cs
  end.
(** the map after them *)
Definition commands_after (files : bytes -> option bytes) (rs : list RegionInfo) (m : kvmap) (cs : list (net * command)) : kvmap :=
  foldl (fun m p => fst (command_spec files rs m (fst p) (snd p))) m cs.
(** the limits on keys and values *)
Definition command_ok (files : bytes -> option bytes) (c : command) : Prop :=
  match c with
  | CmdPut args => forall v, Arg args 0 <> [] -> files (Arg args 1) = Some v -> client_kv (Arg args 0) v
  | CmdDel args => zlen (Arg args 0) <= 2048
  | _ => True
  end.

Section Refine.
Context {LogSt RowSt Bloom LogIt : Type}.
Context `{LogL : StreamLaws LogSt} `{LogS : !LogStream LogSt} `{LogA : !LogLaws LogSt} `{LogI : !LogIters LogSt LogIt} `{LogT : !LogTail LogSt LogIt}.
Context `{RowL : StreamLaws RowSt} `{RowT : !TruncStream RowSt} `{RowA : !TruncLaws RowSt} `{BloomL : BloomLaws Bloom} `{Sort : SortSlice} `{Order : SortLaws}.
Variable fp : bytes -> Z.
Variable rnd : SL -> bytes -> nat -> Z.
Variable sched : Z -> nat -> nat.
Hypothesis bloom_small : forall hs : list Z, zlen hs <= 2 ^ 21 -> zlen (bf_JSONMarshal (filter_of (Bloom := Bloom) hs)) < 2 ^ 29.
Variables (fuel tries : nat) (now : Z).
Hypothesis tries_enough : (2 <= tries)%nat.
Abbreviation servers := (gmap bytes (PartitionServer (LogSt := LogSt) (RowSt := RowSt) (Bloom := Bloom))).
Variable files : bytes -> option bytes.
Variable dial : bytes -> bool.
Variable env : nat -> nat -> pm_env.
Hypothesis delivered : forall j k, pe_call (env j k) = Delivered.
Variable pmAddr : bytes.
(** the managers are at the addresses of the flag, one of them leads *)
Variables (pms : list PartitionManager) (db : etcd) (l : Z) (pm : PartitionManager) (regions rs : list RegionInfo).
Let c0 := mkPMC (dial <$> SplitAndTrim pmAddr comma) 0 newMutex.
Hypothesis managers : pm_managers c0 pms l pm.
Hypothesis has_regions : GetRegions pm = Ok (PM_OK, regions).
Hypothesis regions_tile : Permutation regions rs /\ tiles [] rs.

Lemma connects k : exists c, lib_Connect env dial (S k) (SplitAndTrim pmAddr comma) (pms, db) = Some ((pms, db), Ok (c, mkLib rs ∅)).
Proof using delivered managers has_regions regions_tile Order.
  clear tries_enough. destruct regions_tile as [Hp Ht]. pose proof (mg_conns _ _ _ _ managers) as Hall. pose proof (SplitAndTrim_nonempty pmAddr comma) as Hne.
  unfold lib_Connect, pmc_Connect. rewrite zlen_eqb_0, bool_decide_false by done. rewrite Lock_new. cbn [obind]. rewrite Unlock_held. cbn [obind].
  rewrite no_bad_conn by exact Hall. change (zlen (@nil bool)) with 0. rewrite Z.eqb_sym, zlen_eqb_0, bool_decide_false by done.
  eexists. exact (lib_update_ok env delivered k c0 pms db l pm regions rs NewAutumnLib managers has_regions Hp Ht).
Qed.
(** a command that reaches the library *)
Lemma call_lib_ok b w ws m d op f : cluster_inv fp (5 + b) w ws rs m -> (w < fuel)%nat -> lib_op_ok op ->
  exists ws', call_lib fp rnd sched fuel tries now d (mkLib rs ∅) op (pms, db) ws f = Some (((pms, db), ws'), f (snd (cluster_op rs m d op))) /\
    cluster_inv fp b (S w) ws' rs (fst (cluster_op rs m d op)).
Proof using bloom_small BloomL RowL LogA LogT RowA tries_enough now Sort rnd sched regions_tile.
  intros Hi Hw Hok. destruct (lib_do_ok fp rnd sched bloom_small fuel tries now tries_enough b w (mkLib rs ∅) ws m d op Hi (proj2 regions_tile) Hw Hok) as (lib' & ws' & E & _ & Hi').
  exists ws'. unfold call_lib. rewrite E. by split.
Qed.
Lemma run_command_ok b w ws m d c : cluster_inv fp (5 + b) w ws rs m -> (w < fuel)%nat -> command_ok files c ->
  exists ws', run_command fp rnd sched fuel tries now files dial env d pmAddr c ((pms, db), ws) = Some (((pms, db), ws'), snd (command_spec files rs m d c)) /\
    cluster_inv fp b (S w) ws' rs (fst (command_spec files rs m d c)).
Proof using bloom_small BloomL RowL LogA LogT RowA tries_enough now Sort rnd sched regions_tile delivered managers has_regions Order.
  intros Hi Hw Hok. assert (cluster_inv fp b (S w) ws rs m) as Hsame by (eapply cluster_inv_le; [| |exact Hi]; lia).
  destruct (connects (pred fuel)) as (cl & Econ). rewrite Nat.succ_pred in Econ by lia.
  assert ((zlen (SplitAndTrim pmAddr comma) =? 0) = false) as Hsp by (rewrite zlen_eqb_0; apply bool_decide_false, SplitAndTrim_nonempty).
  destruct c as [args|args|args|args]; cbn [run_command command_spec command_ok] in *; [unfold put|unfold get|unfold del|unfold autumnRange]; rewrite ?Hsp;
    unfold connected; cbn [fst snd]; rewrite Econ; cbn [fst snd]; rewrite ?zlen_eqb_0; try (case_bool_decide as Hk; [by exists ws|]).
  - case_bool_decide as Hf; [by exists ws|]. destruct (files (Arg args 1)) as [v|] eqn:Ev; [|by exists ws].
    destruct (call_lib_ok b w ws m d (LibPut (Arg args 0) v) (fun r => match r with inl _ => Ok (bytes_of "success" ++ [newline]) | inr _ => Err (Errorf "put key failed") end)
      Hi Hw (Hok v Hk eq_refl)) as (ws' & E & Hi'). exists ws'. rewrite E. by destruct d.
  - destruct (call_lib_ok b w ws m d (LibGet (Arg args 0)) (fun r => match r with inl (LibValue v) => Ok v | inl _ => Panic | inr _ => Err (Errorf "get key failed") end)
      Hi Hw Hk) as (ws' & E & Hi'). exists ws'. rewrite E. destruct d; cbn [cluster_op fated fst snd] in *; try done. by destruct (m !! Arg args 0).
  - destruct (call_lib_ok b w ws m d (LibDelete (Arg args 0)) (fun r => match r with inl _ => Ok [] | inr e => Err e end)
      Hi Hw (conj Hk Hok)) as (ws' & E & Hi'). exists ws'. rewrite E. destruct d; cbn [cluster_op fated fst snd] in *; try done. by destruct (m !! Arg args 0).
  - destruct (call_lib_ok b w ws m d (LibRange (Arg args 0) (Arg args 0))
      (fun r => match r with inl (LibKeys out) => Ok (mjoin ((fun k => k ++ [newline]) <$> out)) | inl _ => Panic | inr e => Err e end)
      Hi Hw ltac:(by cbn)) as (ws' & E & Hi'). exists ws'. rewrite E. destruct d; cbn [cluster_op fated fst snd] in *; try done.
    destruct (region_for rs (Arg args 0)) as [r|] eqn:Er; [|done]. destruct (region_for_holds _ _ _ Er) as [_ Hh]. unfold holds in Hh. cbn [mbind option_bind].
    destruct (RI_Rg r) as [rg|]; [|done]. by rewrite Hh.
Qed.
Lemma run_commands_ok b cs : forall w ws m, cluster_inv fp (5 * length cs + b) w ws rs m -> (w + length cs <= fuel)%nat -> Forall (fun p => command_ok files (snd p)) cs ->
  exists ws', run_commands fp rnd sched fuel tries now files dial env pmAddr ((pms, db), ws) cs = Some (((pms, db), ws'), commands_spec files rs m cs) /\
    cluster_inv fp b (w + length cs) ws' rs (commands_after files rs m cs).
Proof using bloom_small BloomL RowL LogA LogT RowA tries_enough now Sort rnd sched regions_tile delivered managers has_regions Order.
  induction cs as [|[d c] cs IH]; intros w ws m Hi Hf Hok; [exists ws; by rewrite Nat.add_0_r|]. apply Forall_cons in Hok as [Hc Hok].
  unfold commands_after. cbn [foldl fst snd]. fold (commands_after files rs (fst (command_spec files rs m d c)) cs). cbn [run_commands commands_spec length snd] in *.
  destruct (run_command_ok (5 * length cs + b) w ws m d c ltac:(eapply cluster_inv_le; [| |exact Hi]; lia) ltac:(lia) Hc) as (ws1 & -> & Hi1).
  destruct (command_spec files rs m d c) as [m1 r]. cbn [fst snd] in *. destruct (IH (S w) ws1 m1 Hi1 ltac:(lia) Hok) as (ws2 & -> & Hi2). exists ws2. by rewrite Nat.add_succ_r.
Qed.

End Refine.
