(* ===== verification/AutumnStream.v ===== *)
(** The replicated stream client (streamclient/streamclient.go): it asks the
    stream manager where the extents of its stream are, appends to the last
    one through its primary node and reads from the primaries. *)
From Stdlib Require Import ZArith Lia Strings.String Strings.Byte.
From stdpp Require Import base option list numbers gmap sorting strings.
From S2P Require Import Prelude GoLib Utils Proto ProtoSub ProtoPs ProtoSm ProtoPm Keys Extent MixBlock Stream Node Etcd EtcdSpec StreamManager StreamManagerSpec Clients.

(** [as_extents] is [streamInfo.ExtentIDs]; [as_info] the cache of the
    [AutumnExtentManager], where a nil pointer may be kept; [as_nodes] the cache
    of the [SMClient] [as_sm] *)
Record AutumnStreamClient := mkASC {
  as_streamID : Z; as_extents : list Z; as_info : gmap Z (option ExtentInfo); as_nodes : gmap Z NodeInfo; as_sm : SMClient }.
(** the client, the managers, and the nodes by address *)
Record sstate := mkSS { ss_client : AutumnStreamClient; ss_sm : sm_world; ss_nodes : Cluster }.

(** computations of the client; [None] when they have not returned after the
    given number of iterations *)
Definition run (A : Type) : Type := sstate -> option (sstate * outcome A).
Definition rret {A} (o : outcome A) : run A := fun s => Some (s, o).
Definition rbind {A B} (m : run A) (k : A -> run B) : run B := fun s =>
  match m s with
  | None => None
  | Some (s, Ok a) => k a s
  | Some (s, Err e) => Some (s, Err e)
  | Some (s, Panic) => Some (s, Panic)
  end.
Notation "'let^' x := m 'in' k" := (rbind m (fun x => k))
  (at level 10, x pattern, m at level 100, k at level 200) : go_scope.

Definition MaxExtentSize : Z := 2 * 1024 * 1024 * 1024.
(** [context.DeadlineExceeded] *)
Definition errDeadline : error := Errorf "context deadline exceeded".
(** an address as a key of the connection pool *)
Definition addr_string (a : bytes) : string := string_of_list_byte a.

(** what happens to one call of [Append] at a primary; the errors of [ae_call]
    are those that the gRPC library reports, [ae_status] is what it makes of an
    error that the handler returned *)
Record append_env := mkAE {
  ae_call : delivery; ae_status : error -> error; ae_healthy : string -> bool; ae_flts : string -> list (fault * fault);
  ae_net : string -> delivery; ae_order : list Result -> list Result }.
(** gRPC reports every error of a call, a deadline too, as a status error, which
    is not the value [context.DeadlineExceeded] *)
Definition status_errors (e : append_env) : Prop :=
  (forall err, ae_call e = Node.Lost err \/ ae_call e = Node.NoReply err -> err <> errDeadline) /\ forall err, ae_status e err <> errDeadline.

Section Client.
Context `{GoOrder} `{SortSlice}.
(** the fates of the calls to the managers: for the nodes, for an extent's
    place and for new extents, the last two called again until they succeed *)
Variable env_nodes : Z -> nat -> sm_env.
Variable env_extent : nat -> nat -> sm_env.
Variable env_alloc : nat -> nat -> sm_env.

(** a call to the stream manager *)
Definition ask {R} (m : SMClient -> sm_world -> sm_world * outcome (SMClient * R)) : run (outcome R) := fun s =>
  let c := ss_client s in
  match m (as_sm c) (ss_sm s) with
  | (w, Ok (sm, r)) => Some (mkSS (mkASC (as_streamID c) (as_extents c) (as_info c) (as_nodes c) sm) w (ss_nodes s), Ok (Ok r))
  | (w, Err e) => Some (mkSS c w (ss_nodes s), Ok (Err e))
  | (w, Panic) => Some (mkSS c w (ss_nodes s), Panic)
  end.
Definition get_client : run AutumnStreamClient := fun s => Some (s, Ok (ss_client s)).
Definition put_client (c : AutumnStreamClient) : run unit := fun s => Some (mkSS c (ss_sm s) (ss_nodes s), Ok tt).

(** ** Nodes and extents *)

Definition updateNodes (id : Z) : run unit :=
  let^ r := ask (smc_NodesInfo (env_nodes id)) in
  let^ c := get_client in
  match r with
  | Ok x => put_client (mkASC (as_streamID c) (as_extents c) (as_info c) x (as_sm c))
  | _ => rret (Ok tt)
  end.
Definition LookupNode (id : Z) : run (option NodeInfo) :=
  let^ c := get_client in
  match as_nodes c !! id with
  | Some n => rret (Ok (Some n))
  | None =>
      let^ _ := updateNodes id in
      let^ c := get_client in
      rret (Ok (as_nodes c !! id))
  end.
(** called again until the manager answers; an extent it does not have is nil *)
Fixpoint fetch_extent (fuel j : nat) (extentID : Z) : run (option ExtentInfo) :=
  match fuel with
  | O => fun _ => None
  | S fuel =>
      let^ r := ask (smc_ExtentInfo (env_extent j) [extentID]) in
      match r with
      | Ok m => rret (Ok (mjoin (m !! extentID)))
      | _ => fetch_extent fuel (S j) extentID
      end
  end.
Definition SetExtentInfo (extentID : Z) (info : option ExtentInfo) : run unit :=
  let^ c := get_client in
  put_client (mkASC (as_streamID c) (as_extents c) (<[extentID := info]> (as_info c)) (as_nodes c) (as_sm c)).
Definition GetExtentInfo (fuel : nat) (extentID : Z) : run (option ExtentInfo) :=
  let^ c := get_client in
  match as_info c !! extentID with
  | Some info => rret (Ok info)
  | None =>
      let^ ei := fetch_extent fuel 0 extentID in
      let^ _ := SetExtentInfo extentID ei in
      rret (Ok ei)
  end.
Fixpoint peer_addrs (ids : list Z) : run (list string) :=
  match ids with
  | [] => rret (Ok [])
  | id :: ids =>
      let^ n := LookupNode id in
      match n with
      | None => rret Panic
      | Some n => let^ ret := peer_addrs ids in rret (Ok (addr_string (Address n) :: ret))
      end
  end.
Definition GetPeers (fuel : nat) (extentID : Z) : run (list string) :=
  let^ info := GetExtentInfo fuel extentID in
  match info with
  | None => rret Panic
  | Some info => peer_addrs (Replicates info)
  end.
(** the address stands for the connection to it *)
Definition GetExtentConn (fuel : nat) (extentID : Z) : run string :=
  let^ info := GetExtentInfo fuel extentID in
  match info with
  | None => rret Panic
  | Some info =>
      let^ id := rret (index (Replicates info) 0) in
      let^ n := LookupNode id in
      match n with
      | None => rret Panic
      | Some n => rret (Ok (addr_string (Address n)))
      end
  end.

(** ** Read *)

(** the response is nil when there is an error *)
Definition as_Read (fate : delivery) (fuel : nat) (extentID offset numOfBlocks : Z) : run (list Block) :=
  let^ conn := GetExtentConn fuel extentID in
  fun s =>
    Some (s, match fate, ss_nodes s !! conn with
             | Node.Delivered, Some en =>
                 match node_ReadBlocks en extentID offset numOfBlocks with
                 | Ok (_, blocks) => Ok blocks
                 | _ => Panic
                 end
             | _, _ => Panic
             end).

(** ** Append *)

Definition as_Connect (env : nat -> sm_env) : run (option error) :=
  let^ c := get_client in
  let^ r := ask (smc_StreamInfo env (Some [as_streamID c])) in
  let^ c := get_client in
  match r with
  | Ok (ss, _) =>
      match ss !! as_streamID c with
      | Some si => let^ _ := put_client (mkASC (as_streamID c) (ExtentIDs si) (as_info c) (as_nodes c) (as_sm c)) in rret (Ok None)
      (** [streamInfo] is nil *)
      | None => rret Panic
      end
  | Err e => rret (Ok (Some e))
  | Panic => rret Panic
  end.
Fixpoint alloc_loop (fuel j : nat) (streamID oldExtentID : Z) : run ExtentInfo :=
  match fuel with
  | O => fun _ => None
  | S fuel =>
      let^ r := ask (smc_StreamAllocExtent (env_alloc j) streamID oldExtentID) in
      match r with
      | Ok x => rret (Ok x)
      | _ => alloc_loop fuel (S j) streamID oldExtentID
      end
  end.
Definition mustAllocNewExtent (fuel : nat) (oldExtentID : Z) : run unit :=
  let^ c := get_client in
  let^ x := alloc_loop fuel 0 (as_streamID c) oldExtentID in
  let^ c := get_client in
  let^ _ := put_client (mkASC (as_streamID c) (as_extents c ++ [XI_ExtentID x]) (as_info c) (as_nodes c) (as_sm c)) in
  SetExtentInfo (XI_ExtentID x) (Some x).
Definition getLastExtentConn (fuel : nat) : run (Z * string) :=
  let^ c := get_client in
  match last (as_extents c) with
  | None => rret Panic
  | Some extentID => let^ conn := GetExtentConn fuel extentID in rret (Ok (extentID, conn))
  end.
(** the call of [Append] at the primary *)
Definition call_Append (e : append_env) (conn : string) (extentID : Z) (peers : list string) (blocks : list Block) : run (option (list Z) + error) := fun s =>
  match ae_call e, ss_nodes s !! conn with
  | Node.Lost err, _ => Some (s, Ok (inr err))
  | _, None => Some (s, Ok (inr (ae_status e (Errorf "unavailable"))))
  | d, Some _ =>
      match node_Append (ae_healthy e) (ae_flts e) (ae_net e) (ae_order e) (ss_nodes s) conn extentID peers blocks with
      | Ok (cl, r) => Some (mkSS (ss_client s) (ss_sm s) cl, Ok (match d, r with Node.NoReply err, _ => inr err | _, inr err => inr (ae_status e err) | _, inl offsets => inl offsets end))
      | Err err => Some (s, Ok (inr (ae_status e err)))
      | Panic => Some (s, Ok (inr (ae_status e (Errorf "unavailable"))))
      end
  end.
(** [retry]; every error but [context.DeadlineExceeded] goes on with a nil response *)
Fixpoint append_retry (fuel : nat) (env : nat -> append_env) (j : nat) (blocks : list Block) : run (Z * list Z) :=
  match fuel with
  | O => fun _ => None
  | S fuel =>
      let^ (extentID, conn) := getLastExtentConn fuel in
      let^ peers := GetPeers fuel extentID in
      let^ res := call_Append (env j) conn extentID peers blocks in
      match res with
      | inr err =>
          if decide (err = errDeadline) then let^ _ := mustAllocNewExtent fuel extentID in append_retry fuel env (S j) blocks
          else rret Panic
      | inl None => rret Panic
      | inl (Some offsets) =>
          match last offsets with
          | None => rret Panic
          | Some o =>
              let^ _ := if MaxExtentSize <? o then mustAllocNewExtent fuel extentID else rret (Ok tt) in
              rret (Ok (extentID, offsets))
          end
      end
  end.
Definition as_Append (fuel : nat) (env : nat -> append_env) (blocks : list Block) : run (Z * list Z) := append_retry fuel env 0 blocks.
Definition as_AppendEntries (fuel : nat) (env : nat -> append_env) (entries : list EntryInfo) : run (list EntryInfo * Z * Z) :=
  if zlen entries =? 0 then rret (Err (Errorf "blocks can not be nil")) else
  let^ (entries, blocks, j, k) := rret (entriesToBlocks entries) in
  let^ (exID, offsets) := as_Append fuel env blocks in
  let^ offs := rret (slice_from offsets k) in
  match last offsets, last blocks with
  | Some o, Some b => rret (Ok (ztake j entries ++ fill_places exID (zdrop j entries) offs, exID, u32 (u32 (o + BlockLength b) + 512)))
  | _, _ => rret Panic
  end.
(** the call to the manager is commented out *)
Definition as_Truncate (extentID : Z) : run (option error) :=
  let^ c := get_client in
  let i := Z.max 0 (find_index (as_extents c) extentID 0) in
  if i =? 0 then rret (Ok (Some errNoTrucate)) else rret (Ok (Some errNoTrucate)).

(** ** The log iterator *)

Record AutumnLogEntryIter := mkALI {
  ali_offset : Z; ali_index : Z; ali_noMore : bool; ali_cache : list EntryInfo; ali_replay : bool }.
Fixpoint extent_index_of (ids : list Z) (extentID i : Z) : Z :=
  match ids with
  | [] => -1
  | id :: ids => if extentID =? id then i else extent_index_of ids extentID (i + 1)
  end.
Definition as_NewLogEntryIter (c : AutumnStreamClient) (opt : ReadOption) : AutumnLogEntryIter :=
  if ReadFromStart opt then mkALI 512 0 false [] (Replay opt)
  else mkALI (RO_Offset opt) (extent_index_of (as_extents c) (RO_ExtentID opt) 0) false [] (Replay opt).
Definition getExtentConnFromIndex (fuel : nat) (i : Z) : run (string * Z) :=
  let^ c := get_client in
  if i =? zlen (as_extents c) then rret (Err EOF) else
  if zlen (as_extents c) <? i then rret (Err (Errorf "extentID too big")) else
  let^ id := rret (index (as_extents c) i) in
  let^ conn := GetExtentConn fuel id in
  rret (Ok (conn, id)).
(** at most seven attempts *)
Fixpoint receive_retry (tries fuel : nat) (fate : nat -> delivery) (it : AutumnLogEntryIter) (j : nat) : run (Node.Code * list EntryInfo * Z) :=
  let^ (conn, extentID) := getExtentConnFromIndex fuel (ali_index it) in
  fun s =>
    let again := match tries with
                 | O => rret (Err (Errorf "finally timeout"))
                 | S tries => receive_retry tries fuel fate it (S j)
                 end in
    match fate j, ss_nodes s !! conn with
    | Node.Delivered, Some en =>
        match node_ReadEntries en extentID (ali_offset it) (if ali_replay it then 1 else 0) with
        | Ok res => Some (s, Ok res)
        | _ => again s
        end
    | _, _ => again s
    end.
Definition as_receiveEntries (fuel : nat) (fate : nat -> delivery) (it : AutumnLogEntryIter) : run AutumnLogEntryIter :=
  let^ (code, entries, endOffset) := receive_retry 6 fuel fate it 0 in
  let^ c := get_client in
  let cache := match entries with [] => ali_cache it | _ => entries end in
  match code with
  | Node.Code_OK => rret (Ok (mkALI endOffset (ali_index it) (ali_noMore it) cache (ali_replay it)))
  | Node.Code_EndOfExtent =>
      let i := ali_index it + 1 in
      rret (Ok (mkALI 512 i (if i =? zlen (as_extents c) then true else ali_noMore it) cache (ali_replay it)))
  | Node.Code_EndOfStream => rret (Ok (mkALI (ali_offset it) (ali_index it) true cache (ali_replay it)))
  (** [return err], which is nil here *)
  | Node.Code_ERROR => rret (Ok (mkALI (ali_offset it) (ali_index it) (ali_noMore it) cache (ali_replay it)))
  | Node.Code_TruncateNotMatch => rret (Err (Errorf "unexpected error"))
  end.
Definition as_HasNext (fuel : nat) (fate : nat -> delivery) (it : AutumnLogEntryIter) : run (AutumnLogEntryIter * bool) :=
  match ali_cache it with
  | [] =>
      if ali_noMore it then rret (Ok (it, false)) else
      let^ it := as_receiveEntries fuel fate it in
      rret (Ok (it, 0 <? zlen (ali_cache it)))
  | _ => rret (Ok (it, true))
  end.
(** nil when there is nothing or an error *)
Definition as_Next (fuel : nat) (fate : nat -> delivery) (it : AutumnLogEntryIter) : run (AutumnLogEntryIter * option EntryInfo) := fun s =>
  match as_HasNext fuel fate it s with
  | None => None
  | Some (s, Ok (it, true)) =>
      match ali_cache it with
      | e :: rest => Some (s, Ok (mkALI (ali_offset it) (ali_index it) (ali_noMore it) rest (ali_replay it), Some e))
      | [] => Some (s, Panic)
      end
  | Some (s, Ok (it, false)) => Some (s, Ok (it, None))
  | Some (s, Err _) => Some (s, Ok (it, None))
  | Some (s, Panic) => Some (s, Panic)
  end.
End Client.
