(* ===== verification/AutumnStreamSpec.v ===== *)
(** The replicated stream client over the stream manager and the extent nodes:
    what is appended is on three nodes and can be read back; and what the client
    does with the errors of its calls. *)
From Stdlib Require Import ZArith Lia Strings.String Strings.Byte.
From stdpp Require Import base option list numbers gmap sorting strings.
From S2P Require Import Prelude GoLib Utils Proto ProtoSub ProtoPs ProtoSm ProtoPm Keys Extent MixBlock Stream Node Etcd EtcdSpec StreamManager StreamManagerSpec Clients AutumnStream.

Section Spec.
Context `{GoOrder} `{SortSlice}.
Variable env_nodes : Z -> nat -> sm_env.
Variable env_extent : nat -> nat -> sm_env.
Variable env_alloc : nat -> nat -> sm_env.
Hypothesis nodes_delivered : forall i k, ev_call (env_nodes i k) = Etcd.Delivered.
Hypothesis extent_delivered : forall j k, ev_call (env_extent j k) = Etcd.Delivered.

(** the managers are up, the one at [l] leads, and what the client has cached is
    what the leader has *)
Record client_ok (s : sstate) (l : Z) (sm : StreamManager) : Prop := mk_client_ok {
  co_conns : Forall (fun x => x = true) (sm_conns (as_sm (ss_client s)));
  co_len : length (fst (ss_sm s)) = length (sm_conns (as_sm (ss_client s)));
  co_last : 0 <= sm_lastLeader (as_sm (ss_client s)) < zlen (sm_conns (as_sm (ss_client s)));
  co_range : 0 <= l < zlen (sm_conns (as_sm (ss_client s)));
  co_leader : fst (ss_sm s) !! Z.to_nat l = Some sm /\ isLeader sm = true;
  co_others : forall j x, j <> Z.to_nat l -> fst (ss_sm s) !! j = Some x -> isLeader x = false;
  co_unlocked : unlocked (ss_sm s);
  co_nodes : forall i n, as_nodes (ss_client s) !! i = Some n -> cloneNodesInfo sm !! i = Some n;
  co_info : forall e o, as_info (ss_client s) !! e = Some o -> extents sm !! e = o }.
(** only the caches differ *)
Definition same (s s' : sstate) : Prop :=
  ss_sm s' = ss_sm s /\ ss_nodes s' = ss_nodes s /\ as_extents (ss_client s') = as_extents (ss_client s) /\ as_streamID (ss_client s') = as_streamID (ss_client s).
#[local] Instance same_preorder : PreOrder same.
Proof using. split; [done|]. intros s1 s2 s3 (A1 & A2 & A3 & A4) (B1 & B2 & B3 & B4). unfold same. by rewrite B1, B2, B3, B4. Qed.

Lemma ask_leader {R} (proj : sm_response -> option R) env req s l sm r x : client_ok s l sm -> (forall k, ev_call (env k) = Etcd.Delivered) ->
  (forall k, sm_handle (env k) req sm (snd (ss_sm s)) = (snd (ss_sm s), Ok (sm, r))) -> r <> ResCode StreamManager.Code_TruncateNotMatch -> proj r = Some x ->
  exists s', ask (fun c w => expect proj (sm_request_call env c req w)) s = Some (s', Ok (Ok x)) /\ client_ok s' l sm /\ same s s' /\
    as_nodes (ss_client s') = as_nodes (ss_client s) /\ as_info (ss_client s') = as_info (ss_client s).
Proof using.
  intros [C1 C2 C3 C4 [C5 C5'] C6 C7 C8 C9] Hd Hh Hr Hx. unfold ask. destruct s as [c [sms db] cl]. cbn [ss_client ss_sm ss_nodes fst snd] in *.
  rewrite (request_reaches_leader env req (as_sm c) sms db l sm sm db r); try done. rewrite list_insert_id by done. cbn [expect obind]. rewrite Hx.
  eexists. split; [done|]. split; [split; cbn; done|done].
Qed.

Lemma LookupNode_ok id s l sm : client_ok s l sm -> exists s', LookupNode env_nodes id s = Some (s', Ok (cloneNodesInfo sm !! id)) /\ client_ok s' l sm /\ same s s'.
Proof using nodes_delivered.
  intros Hc. unfold LookupNode, rbind, get_client, rret. destruct (as_nodes (ss_client s) !! id) as [n|] eqn:En.
  { exists s. rewrite (co_nodes _ _ _ Hc id n En). done. }
  unfold updateNodes, rbind, smc_NodesInfo. destruct (ask_leader (fun r => match r with ResNodes ns => Some ns | _ => None end) (env_nodes id) ReqNodesInfo s l sm (ResNodes (cloneNodesInfo sm)) (cloneNodesInfo sm) Hc (nodes_delivered id)) as (s1 & -> & Hc1 & Hs1 & _ & _).
  { intros k. unfold sm_handle, respond, keep, NodesInfo, tbind, tret. destruct Hc as [_ _ _ _ [_ ->] _ _ _ _]. done. }
  { done. }
  { done. }
  unfold get_client, put_client. eexists. cbn [ss_client as_nodes]. split; [done|]. split; [|by etrans; [exact Hs1|]].
  destruct Hc1 as [C1 C2 C3 C4 C5 C6 C7 C8 C9]. by split.
Qed.
Lemma GetExtentInfo_ok fuel e s l sm : client_ok s l sm ->
  exists s', GetExtentInfo env_extent (S fuel) e s = Some (s', Ok (extents sm !! e)) /\ client_ok s' l sm /\ same s s'.
Proof using extent_delivered.
  intros Hc. unfold GetExtentInfo, rbind, get_client, rret. destruct (as_info (ss_client s) !! e) as [o|] eqn:Eo.
  { exists s. rewrite (co_info _ _ _ Hc e o Eo). done. }
  cbn [fetch_extent]. unfold rbind, smc_ExtentInfo.
  destruct (ask_leader (fun r => match r with ResExtents xs => Some xs | _ => None end) (env_extent 0%nat) (ReqExtentInfo [e]) s l sm (ResExtents (<[e := extents sm !! e]> ∅)) (<[e := extents sm !! e]> ∅) Hc (extent_delivered 0)) as (s1 & -> & Hc1 & Hs1 & _ & _).
  { intros k. unfold sm_handle, respond, keep, sm_ExtentInfo, tbind, tret. destruct Hc as [_ _ _ _ [_ ->] _ _ _ _]. done. }
  { done. }
  { done. }
  unfold rret, SetExtentInfo, rbind, get_client, put_client. rewrite lookup_insert_eq. cbn [mjoin option_join]. eexists. split; [done|].
  split; [|by etrans; [exact Hs1|]]. destruct Hc1 as [C1 C2 C3 C4 C5 C6 C7 C8 C9]. split; try done. cbn [ss_client as_info]. intros e' o'.
  destruct (decide (e' = e)) as [->|Hne]; [rewrite lookup_insert_eq; by intros [= <-]|]. rewrite lookup_insert_ne by done. apply C9.
Qed.

(** the addresses of an extent's replicas, the primary first *)
Definition places (sm : StreamManager) (e : Z) (ps : list string) : Prop :=
  exists x, extents sm !! e = Some x /\ Forall2 (fun i p => exists n, cloneNodesInfo sm !! i = Some n /\ addr_string (Address n) = p) (Replicates x) ps.
Lemma peer_addrs_ok ids ps : forall s l sm, client_ok s l sm -> Forall2 (fun i p => exists n, cloneNodesInfo sm !! i = Some n /\ addr_string (Address n) = p) ids ps ->
  exists s', peer_addrs env_nodes ids s = Some (s', Ok ps) /\ client_ok s' l sm /\ same s s'.
Proof using nodes_delivered.
  revert ps. induction ids as [|i ids IH]; intros ps s l sm Hc Hps; inversion Hps as [|? p ? ps' (n & En & Ep) Hrest]; subst; cbn [peer_addrs]; [by exists s|].
  destruct (LookupNode_ok i s l sm Hc) as (s1 & E1 & Hc1 & Hs1). unfold rbind at 1. rewrite E1, En.
  destruct (IH ps' s1 l sm Hc1 Hrest) as (s2 & E2 & Hc2 & Hs2). exists s2. unfold rbind, rret. rewrite E2. split; [done|]. split; [done|by etrans].
Qed.
Lemma GetPeers_ok fuel e ps s l sm : client_ok s l sm -> places sm e ps ->
  exists s', GetPeers env_nodes env_extent (S fuel) e s = Some (s', Ok ps) /\ client_ok s' l sm /\ same s s'.
Proof using nodes_delivered extent_delivered.
  intros Hc (x & Ex & Hps). destruct (GetExtentInfo_ok fuel e s l sm Hc) as (s1 & E1 & Hc1 & Hs1). unfold GetPeers, rbind. rewrite E1, Ex.
  destruct (peer_addrs_ok (Replicates x) ps s1 l sm Hc1 Hps) as (s2 & E2 & Hc2 & Hs2). exists s2. split; [done|]. split; [done|by etrans].
Qed.
Lemma GetExtentConn_ok fuel e p ps s l sm : client_ok s l sm -> places sm e (p :: ps) ->
  exists s', GetExtentConn env_nodes env_extent (S fuel) e s = Some (s', Ok p) /\ client_ok s' l sm /\ same s s'.
Proof using nodes_delivered extent_delivered.
  intros Hc (x & Ex & Hps). destruct (GetExtentInfo_ok fuel e s l sm Hc) as (s1 & E1 & Hc1 & Hs1). unfold GetExtentConn, rbind at 1. rewrite E1, Ex.
  destruct (Replicates x) as [|i ids]; inversion Hps as [|? ? ? ? (n & En & Ep) _]; subst. unfold rbind at 1, rret at 1. change (index (i :: ids) 0) with (Ok i).
  destruct (LookupNode_ok i s1 l sm Hc1) as (s2 & E2 & Hc2 & Hs2). exists s2. unfold rbind. rewrite E2, En. split; [done|]. split; [done|by etrans].
Qed.

(** ** Reading *)

Lemma as_Read_ok fuel s l sm e p ps bs b o : client_ok s l sm -> places sm e (p :: ps) -> replica (ss_nodes s) e p bs ->
  (exists pre post, bs = pre ++ b :: post /\ o = 512 + blocks_size pre) ->
  exists s', as_Read env_nodes env_extent Node.Delivered (S fuel) e o 1 s = Some (s', Ok [b]) /\ client_ok s' l sm /\ same s s'.
Proof using nodes_delivered extent_delivered.
  intros Hc Hp (en & ex & Hen & Hex & Hinv & _ & _) (pre & post & -> & ->).
  destruct (GetExtentConn_ok fuel e p ps s l sm Hc Hp) as (s' & E & Hc' & Hs'). exists s'. unfold as_Read, rbind. rewrite E.
  pose proof Hs' as (_ & En & _). rewrite En, Hen. unfold node_ReadBlocks, getExtent. rewrite Hex.
  rewrite (ReadBlocks_at ex pre (b :: post) 1 _ Hinv) by (done || lia). change (Z.to_nat 1) with 1%nat. cbn [take_blocks].
  destruct (Z.shiftl 32 20 <? 0 + block_size b); done.
Qed.

(** ** Appending *)

Lemma block_offsets_last_le bs : forall base, bs <> [] -> Forall (fun b => 0 <= block_size b) bs -> exists o, last (block_offsets base bs) = Some o /\ o <= base + blocks_size bs.
Proof using.
  induction bs as [|b bs IH]; intros base Hne Hb; [done|]. apply Forall_cons in Hb as [Hb Hbs]. cbn [block_offsets blocks_size foldr]. fold (blocks_size bs).
  destruct bs as [|b' bs]; [exists base; split; [done|cbn; lia]|]. destruct (IH (base + block_size b)) as (o & E & Ho); [done|done|].
  exists o. rewrite last_cons, E. split; [done|lia].
Qed.
Lemma input_sizes blocks flts : append_input blocks flts -> Forall (fun b => 0 <= block_size b) blocks.
Proof using. intros [Hd _]. eapply Forall_impl; [exact Hd|]. intros b E. unfold block_size. pose proof (zlen_nonneg (Data b)). cbn in E. lia. Qed.

(** a new extent is asked for without end *)
Lemma alloc_loop_runs fuel : forall j sid e s, unlocked (ss_sm s) -> 0 <= sm_lastLeader (as_sm (ss_client s)) < zlen (sm_conns (as_sm (ss_client s))) ->
  alloc_loop env_alloc fuel j sid e s = None.
Proof using.
  induction fuel as [|fuel IH]; intros j sid e s Hu Hr; cbn [alloc_loop]; [done|]. unfold rbind, ask, smc_StreamAllocExtent.
  destruct (alloc_unanswered (env_alloc j) sid e (as_sm (ss_client s)) (ss_sm s) Hu Hr) as (w' & er & -> & Hu'). by apply IH.
Qed.
Lemma mustAlloc_runs fuel e s l sm : client_ok s l sm -> mustAllocNewExtent env_alloc fuel e s = None.
Proof using. intros Hc. unfold mustAllocNewExtent, rbind, get_client. by rewrite alloc_loop_runs by apply Hc. Qed.
Lemma client_ok_nodes s cl l sm : client_ok s l sm -> client_ok (mkSS (ss_client s) (ss_sm s) cl) l sm.
Proof using. intros [C1 C2 C3 C4 C5 C6 C7 C8 C9]. by split. Qed.

Lemma call_Append_client e conn eid peers blocks s l sm s' r : client_ok s l sm -> call_Append e conn eid peers blocks s = Some (s', r) -> client_ok s' l sm.
Proof using.
  intros Hc. unfold call_Append. destruct (ae_call e), (ss_nodes s !! conn); try (intros [= <- <-]; exact Hc);
    (destruct (node_Append _ _ _ _ _ _ _ _ _) as [[cl' r']|er|]; intros [= <- <-]; [by apply client_ok_nodes|exact Hc|exact Hc]).
Qed.

(** up to the answer of the primary *)
Lemma append_retry_eq fuel env j blocks s l sm e p0 ps : client_ok s l sm -> last (as_extents (ss_client s)) = Some e -> places sm e (p0 :: ps) ->
  exists s1, client_ok s1 l sm /\ same s s1 /\ append_retry env_nodes env_extent env_alloc (S (S fuel)) env j blocks s =
    rbind (call_Append (env j) p0 e (p0 :: ps) blocks) (fun res =>
      match res with
      | inr err => if decide (err = errDeadline) then fun _ => None else rret Panic
      | inl None => rret Panic
      | inl (Some offsets) =>
          match last offsets with
          | None => rret Panic
          | Some o => if MaxExtentSize <? o then fun _ => None else rret (Ok (e, offsets))
          end
      end) s1.
Proof using nodes_delivered extent_delivered.
  intros Hc He Hp. destruct (GetExtentConn_ok fuel e p0 ps s l sm Hc Hp) as (s1 & E1 & Hc1 & Hs1). destruct (GetPeers_ok fuel e (p0 :: ps) s1 l sm Hc1 Hp) as (s2 & E2 & Hc2 & Hs2).
  exists s2. split; [done|]. split; [by etrans|]. cbn [append_retry]. unfold getLastExtentConn, rbind, get_client. rewrite He, E1. unfold rret at 1. rewrite E2.
  destruct (call_Append (env j) p0 e (p0 :: ps) blocks s2) as [[s3 [[[offs|]|err]|er|]]|] eqn:Ec; [|done| |done|done|done].
  - destruct (last offs) as [o|]; [|done]. destruct (MaxExtentSize <? o); [|done]. rewrite (mustAlloc_runs (S fuel) e s3 l sm); [done|]. by eapply call_Append_client.
  - destruct (decide (err = errDeadline)); [|done]. rewrite (mustAlloc_runs (S fuel) e s3 l sm); [done|]. by eapply call_Append_client.
Qed.

(** the last extent of the stream and its three replicas, which agree *)
Record append_state (s : sstate) (l : Z) (sm : StreamManager) (e : Z) (p0 p1 p2 : string) (bs : list Block) : Prop := mk_append_state {
  an_client : client_ok s l sm;
  an_last : last (as_extents (ss_client s)) = Some e;
  an_places : places sm e [p0; p1; p2];
  an_nodup : NoDup [p0; p1; p2];
  an_replicas : forall p, p ∈ [p0; p1; p2] -> replica (ss_nodes s) e p bs }.

(** C10: When Append of the replicated stream client returns offsets, all three replicas of the last
    extent hold the old blocks followed by the new ones and every new block can be read back through
    the client at the offset returned for it, whichever data writes failed and whatever the network
    did to the calls between the nodes; and without faults Append does return. It asks that the
    writes of metadata sectors do not fail (the code drops their errors), that BlockLength is the
    length of each block's data (not checked), that the extent stays within 2 GB, that the calls to
    the stream manager are answered and that the client's cache is what the manager has. *)
Theorem autumn_append_durable s l sm e p0 p1 p2 bs blocks fuel env : append_state s l sm e p0 p1 p2 bs -> blocks <> [] ->
  (forall rs, Permutation (ae_order (env 0%nat) rs) rs) -> (forall p, append_input blocks (ae_flts (env 0%nat) p)) ->
  512 + blocks_size bs + blocks_size blocks <= MaxExtentSize ->
  (forall s' e' offs, as_Append env_nodes env_extent env_alloc (S (S fuel)) env blocks s = Some (s', Ok (e', offs)) ->
    e' = e /\ append_state s' l sm e p0 p1 p2 (bs ++ blocks) /\
    forall k o b, offs !! k = Some o -> blocks !! k = Some b ->
      exists s'', as_Read env_nodes env_extent Node.Delivered (S fuel) e o 1 s' = Some (s'', Ok [b])) /\
  ((forall p, ae_healthy (env 0%nat) p = true) -> ae_flts (env 0%nat) = (fun _ => []) -> ae_net (env 0%nat) = (fun _ => Node.Delivered) ->
    ae_call (env 0%nat) = Node.Delivered -> Forall block_wf blocks ->
    exists s' offs, as_Append env_nodes env_extent env_alloc (S (S fuel)) env blocks s = Some (s', Ok (e, offs))).
Proof using nodes_delivered extent_delivered.
  intros [Hc He Hp Hnd Hr] Hne Hord Hin Hsz. unfold MaxExtentSize in Hsz.
  destruct (append_retry_eq fuel env 0 blocks s l sm e p0 [p1; p2] Hc He Hp) as (s1 & Hc1 & Hs1 & Heq). unfold as_Append. rewrite Heq. clear Heq.
  pose proof Hs1 as (_ & En & Ex & _). rewrite <- En in Hr. rewrite <- Ex in He. pose proof (Hr p0 ltac:(by left)) as R0. pose proof (Hr p1 ltac:(right; by left)) as R1. pose proof (Hr p2 ltac:(do 2 right; by left)) as R2.
  destruct (block_offsets_last_le blocks (512 + blocks_size bs) Hne (input_sizes _ _ (Hin p0))) as (o & Eo & Ho). split.
  - intros s' e' offs. unfold rbind, call_Append. assert (exists en, ss_nodes s1 !! p0 = Some en) as (en & Hen) by (destruct R0 as (en & _ & ? & _); by exists en). rewrite Hen.
    destruct (node_Append_outcome (ae_healthy (env 0%nat)) (ae_flts (env 0%nat)) (ae_net (env 0%nat)) (ae_order (env 0%nat)) (ss_nodes s1) e p0 p1 p2 bs blocks Hord Hnd R0 R1 R2 Hin ltac:(lia)) as (cl & r & Ea & _ & Hok).
    destruct (ae_call (env 0%nat)) as [|er|er]; [|by destruct (decide (er = errDeadline))|rewrite Ea; by destruct (decide (er = errDeadline))].
    rewrite Ea. destruct r as [[offs'|]|er]; [|done|by destruct (decide (ae_status (env 0%nat) er = errDeadline))]. destruct (Hok offs' eq_refl) as [-> Hrep]. rewrite Eo.
    destruct (MaxExtentSize <? o); [done|]. unfold rret. intros [= <- <- <-]. split; [done|].
    assert (append_state (mkSS (ss_client s1) (ss_sm s1) cl) l sm e p0 p1 p2 (bs ++ blocks)) as Han by (split; [by apply client_ok_nodes|done|done|done|done]). split; [done|].
    intros k o' b Hk Hb. destruct (as_Read_ok fuel (mkSS (ss_client s1) (ss_sm s1) cl) l sm e p0 [p1; p2] (bs ++ blocks) b o' (an_client _ _ _ _ _ _ _ _ Han) Hp) as (s'' & E & _); [apply Hrep; by left| |by exists s''].
    exists (bs ++ take k blocks), (drop (S k) blocks). rewrite (block_offsets_lookup _ _ _ _ _ Hk Hb), blocks_size_app. split; [|lia]. rewrite <- app_assoc. f_equal. symmetry. by apply take_drop_middle.
  - intros Hh Hf Hnet Hcall Hwf. destruct (node_Append_ok (ae_healthy (env 0%nat)) (ae_order (env 0%nat)) (ss_nodes s1) e p0 p1 p2 bs blocks Hord Hnd R0 R1 R2 Hh Hwf ltac:(lia)) as (cl & Ea).
    exists (mkSS (ss_client s1) (ss_sm s1) cl), (block_offsets (512 + blocks_size bs) blocks). unfold rbind, call_Append. rewrite Hcall, Hf, Hnet, Ea.
    destruct R0 as (en & _ & -> & _). rewrite Eo. destruct (Z.ltb_spec MaxExtentSize o); [unfold MaxExtentSize in *; lia|done].
Qed.

(** the primary answered with offsets, and the answer arrived *)
Definition append_answered (env : append_env) (s : sstate) (e : Z) (p0 : string) (ps : list string) (blocks : list Block) : Prop :=
  ae_call env = Node.Delivered /\
  exists cl offs, node_Append (ae_healthy env) (ae_flts env) (ae_net env) (ae_order env) (ss_nodes s) p0 e (p0 :: ps) blocks = Ok (cl, inl (Some offs)).

(** C38: A failed append call never reaches the caller of the replicated stream as an error:
    whenever the primary's offsets do not arrive, because the call or its answer was lost, the
    deadline passed, or the primary refused, failed or died, Append dereferences the nil response
    and panics, since gRPC reports all of these as status errors, which differ from the value
    context.DeadlineExceeded that the code compares with. If an error did equal that value, the
    client would ask for a new extent without end, since none is ever allocated. The calls to the
    stream manager are taken to be answered. *)
Theorem autumn_append_errors s l sm e p0 ps blocks fuel env : client_ok s l sm -> last (as_extents (ss_client s)) = Some e -> places sm e (p0 :: ps) ->
  (status_errors (env 0%nat) -> ~ append_answered (env 0%nat) s e p0 ps blocks ->
    exists s', as_Append env_nodes env_extent env_alloc (S (S fuel)) env blocks s = Some (s', Panic)) /\
  (ae_call (env 0%nat) = Node.Lost errDeadline -> as_Append env_nodes env_extent env_alloc (S (S fuel)) env blocks s = None).
Proof using nodes_delivered extent_delivered.
  intros Hc He Hp. destruct (append_retry_eq fuel env 0 blocks s l sm e p0 ps Hc He Hp) as (s1 & _ & Hs1 & Heq). unfold as_Append. rewrite Heq. clear Heq.
  pose proof Hs1 as (_ & En & _). unfold append_answered. rewrite <- En. unfold rbind, call_Append. split.
  - intros [Hcall Hst] Hno.
    destruct (ae_call (env 0%nat)) as [|er|er] eqn:Ecall; [|rewrite decide_False by (apply Hcall; auto); by exists s1|].
    + destruct (ss_nodes s1 !! p0) as [en|]; [|rewrite decide_False by apply Hst; by exists s1].
      destruct (node_Append _ _ _ _ _ _ _ _ _) as [[cl [[offs|]|er]]|er|] eqn:Ea; [|eexists; reflexivity|rewrite decide_False by apply Hst; eexists; reflexivity..].
      destruct Hno. split; [done|]. by exists cl, offs.
    + destruct (ss_nodes s1 !! p0) as [en|]; [|rewrite decide_False by apply Hst; by exists s1].
      destruct (node_Append _ _ _ _ _ _ _ _ _) as [[cl r]|er'|] eqn:Ea; [rewrite decide_False by (apply Hcall; auto); eexists; reflexivity|rewrite decide_False by apply Hst; by exists s1..].
  - intros ->. by rewrite decide_True.
Qed.
End Spec.
