(* ===== verification/AutumnIter.v ===== *)
(** Replaying a replicated log stream (streamclient/streamclient.go,
    AutumnLogEntryIter): the iterator goes through the extents of the stream and
    asks the primary of each for its entries. *)
From Stdlib Require Import ZArith Lia Strings.String Strings.Byte.
From stdpp Require Import base option list numbers gmap sorting strings.
From S2P Require Import Prelude GoLib Utils Proto ProtoSub ProtoPs ProtoSm ProtoPm Keys Extent MixBlock Stream Node Etcd EtcdSpec StreamManager StreamManagerSpec Clients AutumnStream AutumnStreamSpec.

(** the loop of [replayLog] without its callback *)
Fixpoint drain `{GoOrder} (env_nodes : Z -> nat -> sm_env) (env_extent : nat -> nat -> sm_env) (fuel : nat) (fate : nat -> delivery) (n : nat) (it : AutumnLogEntryIter) : run (list EntryInfo) :=
  match n with
  | O => fun _ => None
  | S n =>
      let^ (it, ok) := as_HasNext env_nodes env_extent fuel fate it in
      if ok : bool then
        let^ (it, e) := as_Next env_nodes env_extent fuel fate it in
        let^ rest := drain env_nodes env_extent fuel fate n it in
        rret (Ok (option_list e ++ rest))
      else rret (Ok [])
  end.

#[local] Existing Instance same_preorder.

Section Iter.
Context `{GoOrder} `{SortSlice}.
Variable env_nodes : Z -> nat -> sm_env.
Variable env_extent : nat -> nat -> sm_env.
Hypothesis nodes_delivered : forall i k, ev_call (env_nodes i k) = Etcd.Delivered.
Hypothesis extent_delivered : forall j k, ev_call (env_extent j k) = Etcd.Delivered.
Variable fuel : nat.
Variable fate : nat -> delivery.
Hypothesis reads_delivered : forall j, fate j = Node.Delivered.

(** what the primary at [p] holds of the extent [e] *)
Definition primary (cl : Cluster) (e : Z) (p : string) (ex : Extent) (bs : list Block) : Prop :=
  exists en, cl !! p = Some en /\ en !! e = Some ex /\ extent_inv ex bs /\ ID ex = e.
(** the entries a replay gives for the extent *)
Definition extent_log (e : Z) (bs : list Block) : list EntryInfo := mjoin (zip_with (block_info e) bs (block_offsets 512 bs)).
(** packed log blocks, few enough for one answer *)
Definition log_blocks (e : Z) (bs : list Block) : Prop :=
  extent_log e bs <> [] /\ (exists groups, Forall2 good_block groups bs) /\ infos_size (block_info e) 512 bs <= Z.shiftl 25 20.

Lemma receive_retry_delivered tries f j it s s1 conn e en res : getExtentConnFromIndex env_nodes env_extent f (ali_index it) s = Some (s1, Ok (conn, e)) ->
  ss_nodes s1 !! conn = Some en -> node_ReadEntries en e (ali_offset it) (if ali_replay it then 1 else 0) = Ok res ->
  receive_retry env_nodes env_extent tries f fate it j s = Some (s1, Ok res).
Proof using reads_delivered. intros E1 E2 E3. destruct tries; cbn [receive_retry]; unfold rbind; by rewrite E1, reads_delivered, E2, E3. Qed.

Lemma receive_ok s l sm i e p ps ex bs it : client_ok s l sm -> index (as_extents (ss_client s)) i = Ok e -> 0 <= i < zlen (as_extents (ss_client s)) ->
  places sm e (p :: ps) -> primary (ss_nodes s) e p ex bs -> it = mkALI 512 i false [] true -> log_blocks e bs ->
  exists s', client_ok s' l sm /\ same s s' /\
    as_receiveEntries env_nodes env_extent (S fuel) fate it s =
      Some (s', Ok (if IsSeal ex then mkALI 512 (i + 1) (i + 1 =? zlen (as_extents (ss_client s))) (extent_log e bs) true
                    else mkALI 512 i true (extent_log e bs) true)).
Proof using nodes_delivered extent_delivered reads_delivered.
  intros Hc Hi Hr Hp (en & Hen & Hex & Hinv & Hid) -> (Hne & (groups & Hg) & Hsz).
  destruct (GetExtentConn_ok env_nodes env_extent nodes_delivered extent_delivered fuel e p ps s l sm Hc Hp) as (s1 & E1 & Hc1 & Hs1).
  exists s1. split; [done|]. split; [done|]. pose proof Hs1 as (_ & Ecl & Eext & _).
  assert (bs <> []) as Hbs by (intros ->; by apply Hne).
  assert (node_ReadEntries en e 512 1 = Ok (if IsSeal ex then Node.Code_EndOfExtent else Node.Code_EndOfStream, extent_log e bs, 512 + blocks_size bs)) as Hread.
  { unfold node_ReadEntries, getExtent. rewrite Hex. change (0 <? 1) with true.
    pose proof (ReadEntries_at e true (block_info e) ex [] bs (Z.shiftl 25 20) Hinv Hbs Hid (good_blocks_yield e groups bs Hg) (fun b off => sizeOfEntries_nonneg _)) as Hre.
    change (512 + blocks_size []) with 512 in Hre. rewrite Hre by (change (Z.shiftl 25 20) with 26214400 in *; lia).
    rewrite take_entries_all by (first [intros b off; apply sizeOfEntries_nonneg | lia]). cbn [obind]. unfold at_end. by destruct (IsSeal ex). }
  assert (getExtentConnFromIndex env_nodes env_extent (S fuel) i s = Some (s1, Ok (p, e))) as Hconn.
  { unfold getExtentConnFromIndex, rbind, get_client. destruct (Z.eqb_spec i (zlen (as_extents (ss_client s)))); [lia|].
    destruct (Z.ltb_spec (zlen (as_extents (ss_client s))) i); [lia|]. unfold rret. by rewrite Hi, E1. }
  rewrite <- Ecl in Hen. unfold as_receiveEntries, rbind. rewrite (receive_retry_delivered 6 (S fuel) 0 (mkALI 512 i false [] true) s s1 p e en _ Hconn Hen Hread).
  unfold get_client, rret. rewrite Eext. cbn [ali_cache ali_noMore ali_index ali_offset ali_replay].
  destruct (extent_log e bs) as [|x xs]; [done|]. destruct (IsSeal ex); [|done]. by destruct (i + 1 =? zlen (as_extents (ss_client s))).
Qed.

Lemma HasNext_cached it e cs s : ali_cache it = e :: cs -> as_HasNext env_nodes env_extent (S fuel) fate it s = Some (s, Ok (it, true)).
Proof using. intros Hc. unfold as_HasNext. by rewrite Hc. Qed.
Lemma Next_cached it e cs s : ali_cache it = e :: cs ->
  as_Next env_nodes env_extent (S fuel) fate it s = Some (s, Ok (mkALI (ali_offset it) (ali_index it) (ali_noMore it) cs (ali_replay it), Some e)).
Proof using. intros Hc. unfold as_Next. by rewrite (HasNext_cached it e cs s Hc), Hc. Qed.
(** handing out what is cached *)
Lemma drain_cache cs : forall n it s, ali_cache it = cs ->
  drain env_nodes env_extent (S fuel) fate (length cs + n) it s =
    rbind (drain env_nodes env_extent (S fuel) fate n (mkALI (ali_offset it) (ali_index it) (ali_noMore it) [] (ali_replay it))) (fun rest => rret (Ok (cs ++ rest))) s.
Proof using.
  induction cs as [|e cs IH]; intros n it s Hc; cbn [length Nat.add].
  - unfold rbind. rewrite <- Hc. destruct it as [o i nm cache rp]. cbn [ali_offset ali_index ali_noMore ali_cache ali_replay] in *. subst cache.
    destruct (drain _ _ _ _ n _ s) as [[s' []]|]; done.
  - cbn [drain]. unfold rbind at 1. rewrite (HasNext_cached it e cs s Hc). unfold rbind at 1. rewrite (Next_cached it e cs s Hc). unfold rbind at 1.
    rewrite (IH n (mkALI (ali_offset it) (ali_index it) (ali_noMore it) cs (ali_replay it)) s) by done. unfold rbind. cbn [ali_offset ali_index ali_noMore ali_replay].
    destruct (drain _ _ _ _ n _ s) as [[s' []]|]; done.
Qed.

(** the extents still to be read: sealed, but for the last *)
Inductive replayable (s : sstate) (sm : StreamManager) : list Z -> list EntryInfo -> Prop :=
  | rp_last e p ps ex bs : places sm e (p :: ps) -> primary (ss_nodes s) e p ex bs -> log_blocks e bs ->
      replayable s sm [e] (extent_log e bs)
  | rp_sealed e p ps ex bs es log : places sm e (p :: ps) -> primary (ss_nodes s) e p ex bs -> log_blocks e bs -> IsSeal ex = true ->
      replayable s sm es log -> replayable s sm (e :: es) (extent_log e bs ++ log).
Lemma replayable_same s s' sm es log : same s s' -> replayable s sm es log -> replayable s' sm es log.
Proof using. intros (_ & E & _) Hr. induction Hr; [eapply rp_last|eapply rp_sealed]; rewrite ?E; eauto. Qed.
Lemma replayable_nonempty s sm es log : replayable s sm es log -> es <> [].
Proof using. by destruct 1. Qed.

(** reading one extent and handing it out *)
Lemma drain_extent s l sm i e p ps ex bs n : client_ok s l sm -> index (as_extents (ss_client s)) i = Ok e -> 0 <= i < zlen (as_extents (ss_client s)) ->
  places sm e (p :: ps) -> primary (ss_nodes s) e p ex bs -> log_blocks e bs -> (length (extent_log e bs) < n)%nat ->
  exists s', client_ok s' l sm /\ same s s' /\ drain env_nodes env_extent (S fuel) fate n (mkALI 512 i false [] true) s =
    rbind (drain env_nodes env_extent (S fuel) fate (n - length (extent_log e bs))
             (if IsSeal ex then mkALI 512 (i + 1) (i + 1 =? zlen (as_extents (ss_client s))) [] true else mkALI 512 i true [] true))
          (fun rest => rret (Ok (extent_log e bs ++ rest))) s'.
Proof using nodes_delivered extent_delivered reads_delivered.
  intros Hc Hi Hr Hp Hpr Hl Hn. destruct (receive_ok s l sm i e p ps ex bs _ Hc Hi Hr Hp Hpr eq_refl Hl) as (s1 & Hc1 & Hs1 & E1). exists s1. split; [done|]. split; [done|].
  set (it1 := if IsSeal ex then _ else _) in E1. assert (ali_cache it1 = extent_log e bs) as Hcache by (unfold it1; by destruct (IsSeal ex)).
  destruct Hl as (Hne & _). destruct (extent_log e bs) as [|x xs] eqn:Elog; [done|].
  transitivity (drain env_nodes env_extent (S fuel) fate n it1 s1).
  - assert (as_HasNext env_nodes env_extent (S fuel) fate (mkALI 512 i false [] true) s = Some (s1, Ok (it1, true))) as Hh.
    { unfold as_HasNext. cbn [ali_cache ali_noMore]. unfold rbind. rewrite E1. unfold rret. rewrite Hcache, zlen_cons. pose proof (zlen_nonneg xs). by destruct (Z.ltb_spec 0 (1 + zlen xs)); [|lia]. }
    destruct n as [|n]; [lia|]. cbn [drain]. unfold rbind at 1. rewrite Hh. symmetry. unfold rbind at 1. by rewrite (HasNext_cached it1 x xs s1 Hcache).
  - replace n with (length (x :: xs) + (n - length (x :: xs)))%nat at 1 by lia. rewrite (drain_cache (x :: xs) _ it1 s1 Hcache).
    unfold it1. by destruct (IsSeal ex).
Qed.
Lemma drain_done n i s : (0 < n)%nat -> drain env_nodes env_extent (S fuel) fate n (mkALI 512 i true [] true) s = Some (s, Ok []).
Proof using. intros Hn. destruct n; [lia|]. done. Qed.

Lemma extents_from (ids : list Z) i e es : 0 <= i -> zdrop i ids = e :: es -> index ids i = Ok e /\ i < zlen ids /\ zdrop (i + 1) ids = es.
Proof using.
  intros H0i E. unfold zdrop in *. assert (ids !! Z.to_nat i = Some e) as El by (rewrite <- (Nat.add_0_r (Z.to_nat i)), <- lookup_drop, E; done).
  unfold index. destruct (Z.ltb_spec i 0); [lia|]. rewrite El. apply lookup_lt_Some in El as Hlt. split; [done|]. split; [unfold zlen; lia|].
  rewrite (drop_S _ e) in E by done. injection E as <-. f_equal. lia.
Qed.
Lemma drain_all s sm es log : replayable s sm es log -> forall s2 l i n, same s s2 -> client_ok s2 l sm -> 0 <= i ->
  zdrop i (as_extents (ss_client s2)) = es -> (length log < n)%nat ->
  exists s', drain env_nodes env_extent (S fuel) fate n (mkALI 512 i false [] true) s2 = Some (s', Ok log).
Proof using nodes_delivered extent_delivered reads_delivered.
  induction 1 as [e p ps ex bs Hp Hpr Hl|e p ps ex bs es log Hp Hpr Hl Hseal Hrep IH]; intros s2 l i n Hs Hc Hi Hd Hn.
  all: destruct (extents_from _ _ _ _ Hi Hd) as (Hix & Hlt & Hd'); pose proof Hs as (_ & En & _); rewrite <- En in Hpr.
  all: destruct (drain_extent s2 l sm i e p ps ex bs n Hc Hix ltac:(lia) Hp Hpr Hl) as (s3 & Hc3 & Hs3 & ->); [rewrite ?length_app in Hn; lia|].
  - exists s3. assert ((if IsSeal ex then mkALI 512 (i + 1) (i + 1 =? zlen (as_extents (ss_client s2))) [] true else mkALI 512 i true [] true) = mkALI 512 (if IsSeal ex then i + 1 else i) true [] true) as ->.
    { destruct (IsSeal ex); [|done]. destruct (Z.eqb_spec (i + 1) (zlen (as_extents (ss_client s2)))); [done|].
      apply (f_equal length) in Hd'. unfold zdrop, zlen in *. rewrite length_drop in Hd'. cbn in Hd'. lia. }
    unfold rbind. rewrite drain_done by lia. by rewrite app_nil_r.
  - rewrite Hseal. destruct (Z.eqb_spec (i + 1) (zlen (as_extents (ss_client s2)))) as [E|_].
    { apply replayable_nonempty in Hrep. rewrite <- Hd' in Hrep. unfold zdrop, zlen in *. rewrite drop_ge in Hrep by lia. done. }
    pose proof Hs3 as (_ & _ & Eext & _). destruct (IH s3 l (i + 1) (n - length (extent_log e bs))%nat) as (s4 & E4); [by etrans|done|lia|by rewrite Eext|rewrite length_app in Hn; lia|].
    exists s4. unfold rbind. by rewrite E4.
Qed.

(** C11: Replaying a replicated log stream from the start with the loop of replayLog yields exactly
    the entries of all its extents in order, sealed ones and the last, through the primaries that
    the stream manager names, provided that every extent holds packed log blocks with at least one
    entry and no more than one answer of 25 MB takes, and that the reads and the calls to the
    manager are answered. Without the first condition the replay is cut short: at an empty sealed
    extent the iterator reports that nothing is left (autumn_iter_stops_early). *)
Theorem autumn_replay_complete s l sm log n : client_ok s l sm -> replayable s sm (as_extents (ss_client s)) log -> (length log < n)%nat ->
  exists s', drain env_nodes env_extent (S fuel) fate n (as_NewLogEntryIter (ss_client s) (mkRO true 0 0 true)) s = Some (s', Ok log).
Proof using nodes_delivered extent_delivered reads_delivered. intros Hc Hr Hn. by apply (drain_all s sm _ log Hr s l 0 n). Qed.

(** An iterator positioned at the end of a sealed extent reports that nothing is left although
    the stream has further extents; it has already moved to the next one. *)
Theorem autumn_iter_stops_early s l sm i e p ps ex bs : client_ok s l sm -> index (as_extents (ss_client s)) i = Ok e -> 0 <= i -> i + 1 < zlen (as_extents (ss_client s)) ->
  places sm e (p :: ps) -> primary (ss_nodes s) e p ex bs -> IsSeal ex = true ->
  exists s', as_HasNext env_nodes env_extent (S fuel) fate (mkALI (commitLength ex) i false [] true) s = Some (s', Ok (mkALI 512 (i + 1) false [] true, false)).
Proof using nodes_delivered extent_delivered reads_delivered.
  intros Hc Hix Hi Hlt Hp (en & Hen & Hex & Hinv & Hid) Hseal.
  destruct (GetExtentConn_ok env_nodes env_extent nodes_delivered extent_delivered fuel e p ps s l sm Hc Hp) as (s1 & E1 & Hc1 & Hs1).
  exists s1. pose proof Hs1 as (_ & Ecl & Eext & _). rewrite <- Ecl in Hen.
  assert (getExtentConnFromIndex env_nodes env_extent (S fuel) i s = Some (s1, Ok (p, e))) as Hconn.
  { unfold getExtentConnFromIndex, rbind, get_client. destruct (Z.eqb_spec i (zlen (as_extents (ss_client s)))); [lia|].
    destruct (Z.ltb_spec (zlen (as_extents (ss_client s))) i); [lia|]. unfold rret. by rewrite Hix, E1. }
  assert (node_ReadEntries en e (commitLength ex) 1 = Ok (Node.Code_EndOfExtent, [], 0)) as Hread.
  { unfold node_ReadEntries, getExtent, ReadEntries. rewrite Hex. pose proof (extent_inv_commit_nonneg ex bs Hinv). destruct (Z.eqb_spec (commitLength ex) 0); [lia|].
    rewrite (proj2 (Z.leb_le (commitLength ex) (commitLength ex))) by lia. unfold at_end. by rewrite Hseal. }
  unfold as_HasNext. cbn [ali_cache ali_noMore]. unfold as_receiveEntries, rbind.
  rewrite (receive_retry_delivered 6 (S fuel) 0 (mkALI (commitLength ex) i false [] true) s s1 p e en _ Hconn Hen Hread).
  unfold get_client, rret. rewrite Eext. cbn [ali_cache ali_noMore ali_index ali_offset ali_replay].
  by destruct (Z.eqb_spec (i + 1) (zlen (as_extents (ss_client s)))); [lia|].
Qed.
End Iter.
