(* ===== verification/Witnesses.v ===== *)
(** Concrete inputs for the theorems that have hypotheses: each lemma applies
    one theorem at an input where every hypothesis is discharged by
    computation. *)
From Stdlib Require Import ZArith Lia.
From stdpp Require Import base option list numbers gmap sorting relations strings.
From S2P Require Import Prelude GoLib Utils Proto ProtoPs Keys YIter Extent MixBlock Stream.
From S2P Require Import Skiplist SkiplistSpec SkiplistPut SkiplistIter TableBlock Table TableSpec TableBuild Merge Node.
From S2P Require Import Partition PartitionSpec PartitionRun PartitionScan PartitionOpen Compact PartitionRestart PartitionMap DoWrites.

(** ** Shared inputs *)

Definition demo_block : Block := zero_block 512.
Lemma demo_block_wf : block_wf demo_block.
Proof. split; vm_compute; congruence. Qed.

Definition empty_extent (m : SafeMutex) : Extent :=
  mkExtent m 0 512 1 "e" (mkFile (header_bytes 1) None) true.
Lemma empty_extent_inv m : extent_inv (empty_extent m) [].
Proof. split; [by rewrite app_nil_r|constructor|done|done|done]. Qed.

Definition demo_extent (m : SafeMutex) : Extent :=
  mkExtent m 0 1536 1 "e" (mkFile (header_bytes 1 ++ blocks_bytes [demo_block]) None) true.
Lemma demo_extent_inv m : extent_inv (demo_extent m) [demo_block].
Proof. split; [done|constructor; [apply demo_block_wf|constructor]|done|done|done]. Qed.

Definition demo_key (n : Z) (ts : Z) : bytes := KeyWithTs [byte_of n] ts.
Definition demo_value : ValueStruct := mkVS 0 0 7 [Byte.x61; Byte.x62] 0.
Lemma demo_value_wf : VS_wf demo_value.
Proof. vm_compute. repeat split; congruence. Qed.

(** a 64-bit filter with one hash function *)
#[export] Instance bits_BloomOps : BloomOps Z := {
  NewBloomFilter := fun _ => 0;
  bf_Add := fun b h => Z.lor b (2 ^ (h mod 64));
  bf_Has := fun b h => Z.testbit b (h mod 64);
  bf_JSONMarshal := PutUint64;
  bf_JSONUnmarshal := fun d => Ok (be_get d) }.
#[export] Program Instance bits_BloomLaws : BloomLaws Z.
Next Obligation.
  intros b h. cbn. rewrite Z.lor_spec, Z.pow2_bits_true, orb_true_r by (apply Z.mod_pos_bound; lia). done.
Qed.
Next Obligation. intros b h h' E. cbn in *. by rewrite Z.lor_spec, E. Qed.
Next Obligation.
  intros b. exists (u64 b). split; [apply (f_equal Ok), Uint64_Put|]. intros h.
  apply Z.mod_pow2_bits_low. apply Z.mod_pos_bound. lia.
Qed.

(** ** Keys and codecs *)

Lemma CompareKeys_versions_witness :
  CompareKeys (KeyWithTs [Byte.x61] 5) (KeyWithTs [Byte.x61] 9) = Ok Gt.
Proof. rewrite (CompareKeys_versions [Byte.x61] 5 [Byte.x61] 9) by (vm_compute; split; congruence). reflexivity. Defined.

Lemma CompareKeys_total_order_witness : CompareKeys (demo_key 1 9) (demo_key 2 9) = Ok Lt.
Proof.
  destruct (CompareKeys_total_order (demo_key 1 9) (demo_key 1 5) (demo_key 2 9)) as (_ & _ & E & _);
    [vm_compute; congruence|vm_compute; congruence|vm_compute; congruence|].
  apply E; vm_compute; reflexivity.
Defined.

Lemma KeyWithTs_roundtrip_witness : ParseTs (KeyWithTs [Byte.x61] 9) = Ok 9.
Proof. destruct (KeyWithTs_roundtrip [Byte.x61] 9) as (_ & E & _); [vm_compute; split; congruence|exact E]. Defined.

Lemma ValueStruct_roundtrip_witness :
  exists b', VS_Encode demo_value (zrep 16 Byte.x00) = Ok (b', EncodedSize demo_value).
Proof.
  destruct (ValueStruct_roundtrip demo_value (zrep 16 Byte.x00)) as (b' & E & _);
    [apply demo_value_wf|vm_compute; congruence|].
  exists b'. exact E.
Defined.

Definition demo_entry (n : Z) : Entry := mkEntry (demo_key n 5) [Byte.x61; Byte.x62] 0 0 0.
Lemma demo_entry_wf n : Entry_wf (demo_entry n).
Proof. vm_compute. repeat split; congruence. Qed.

Lemma Entry_MarshalTo_Unmarshal_witness :
  exists d, Entry_MarshalTo (demo_entry 1) (zrep 64 Byte.x00) = Ok (d, Entry_Size (demo_entry 1)) /\
    (let! b := slice d 0 (Entry_Size (demo_entry 1)) in Entry_Unmarshal b) = Ok (demo_entry 1).
Proof.
  destruct (Entry_MarshalTo_Unmarshal (demo_entry 1) (zrep 64 Byte.x00)) as (d & E & _ & _ & E');
    [apply demo_entry_wf|vm_compute; congruence|].
  exists d. split; [exact E|exact E'].
Defined.

Lemma MixedLog_roundtrip_witness :
  exists bs, MixedLog_Marshal [0; 300; 4000] = Ok bs /\ MixedLog_Unmarshal bs = Ok [0; 300; 4000].
Proof.
  destruct (MixedLog_roundtrip [0; 300; 4000]) as (bs & E & _ & E'); [repeat constructor; done|done|].
  exists bs. split; [exact E|exact E'].
Defined.

Definition demo_index : TableIndex := mkTI [mkBO (demo_key 1 5) 7 512] [Byte.x01] 100 1.
Lemma demo_index_wf : TableIndex_wf demo_index.
Proof. split; [constructor; [by split; [|split]|constructor]|done]. Qed.
Lemma TableIndex_roundtrip_witness :
  exists d, TableIndex_MarshalTo demo_index (zrep 64 Byte.x00) = Ok (d, TableIndex_Size demo_index).
Proof.
  destruct (TableIndex_roundtrip demo_index (zrep 64 Byte.x00)) as (d & E & _);
    [apply demo_index_wf|done|done|].
  exists d. exact E.
Defined.

(** ** Locks and extents *)

Lemma SafeMutex_safe_witness : AssertLock (cnt (mkLS (mkMutex 1 0) [WHeld; PIdle] false)) = Ok tt.
Proof.
  destruct (SafeMutex_safe 2 (mkLS (mkMutex 1 0) [WHeld; PIdle] false)) as (_ & _ & _ & E & _).
  - eapply rtc_l; [apply (s_acquire newMutex [PIdle; PIdle] 0); reflexivity|].
    apply rtc_once. apply (s_lock newMutex [WGot; PIdle] 0). reflexivity.
  - apply (E 0%nat). reflexivity.
Defined.

Lemma AppendBlocks_commits_witness :
  exists ex', AppendBlocks (demo_extent heldMutex) [demo_block] None [] = Ok (ex', inl [1536]) /\
    extent_inv ex' [demo_block; demo_block].
Proof.
  destruct (AppendBlocks_commits (demo_extent heldMutex) [demo_block] [demo_block] None) as (ex' & E & Hinv & _);
    [apply demo_extent_inv|reflexivity|reflexivity|left; reflexivity|repeat constructor; apply demo_block_wf|reflexivity|].
  exists ex'. split; [exact E|exact Hinv].
Defined.

Lemma ReadBlocks_spec_witness : ReadBlocks (demo_extent newMutex) 512 2 4096 = Ok ([demo_block], Some EndOfStream).
Proof.
  change 512 with (512 + blocks_size []).
  rewrite (ReadBlocks_spec (demo_extent newMutex) [] [demo_block] 2 4096);
    [reflexivity|apply demo_extent_inv|discriminate|lia].
Defined.

(** the second block's data write stops after 100 bytes *)
Lemma AppendBlocks_faults_witness :
  exists m ex' r, AppendBlocks (demo_extent heldMutex) [demo_block; demo_block] None [(None, None); (None, Some 100)] = Ok (ex', r) /\
    extent_inv ex' ([demo_block] ++ take m [demo_block; demo_block]).
Proof.
  destruct (AppendBlocks_faults (demo_extent heldMutex) [demo_block] [demo_block; demo_block] None [(None, None); (None, Some 100)])
    as (m & ex' & r & E & Hinv & _); [apply demo_extent_inv|reflexivity|repeat constructor|repeat constructor|reflexivity|].
  exists m, ex', r. split; [exact E|exact Hinv].
Defined.

Lemma OpenExtent_recovers_witness :
  exists ex, OpenExtent "e" (Some (mkFile (header_bytes 1 ++ blocks_bytes [demo_block] ++ ztake 700 (block_bytes demo_block)) None)) = Ok ex /\
    extent_inv ex [demo_block].
Proof.
  destruct (OpenExtent_recovers "e" (mkFile (header_bytes 1 ++ blocks_bytes [demo_block] ++ ztake 700 (block_bytes demo_block)) None)
      1 [demo_block] demo_block (ztake 700 (block_bytes demo_block)) (zdrop 700 (block_bytes demo_block)))
    as (ex & E & Hinv & _).
  - reflexivity.
  - vm_compute; split; congruence.
  - repeat constructor; apply demo_block_wf.
  - apply demo_block_wf.
  - symmetry. apply ztake_zdrop.
  - vm_compute. discriminate.
  - reflexivity.
  - vm_compute. reflexivity.
  - exists ex. split; [exact E|exact Hinv].
Defined.

(** a block whose header is an endless varint makes the reader panic, which ends the loop *)
Definition broken_file : File := mkFile (header_bytes 1 ++ zrep 512 Byte.xff) None.
Lemma OpenExtent_replay_terminates_witness : exists r, open_loop 2 broken_file 1024 512 512 = Some r /\ OpenExtent "e" (Some broken_file) = Panic.
Proof.
  destruct (OpenExtent_replay_terminates broken_file) as (r & Hr & _ & Ho); [vm_compute; split; congruence|].
  exists r. split; [apply (Hr 2%nat); reflexivity|]. rewrite (Ho "e"%string eq_refl).
  pose proof (Hr 2%nat ltac:(reflexivity)) as E. vm_compute in E. injection E as <-. vm_compute. reflexivity.
Defined.

Lemma Seal_freezes_witness :
  exists ex', Seal (demo_extent newMutex) 512 None = Ok (ex', None) /\ IsSeal ex' = true.
Proof.
  destruct (Seal_freezes (demo_extent newMutex) [] [demo_block]) as (ex' & E & Hs & _);
    [apply demo_extent_inv|reflexivity|reflexivity|].
  exists ex'. split; [exact E|exact Hs].
Defined.

(** ** Log packing *)

Definition demo_infos : list EntryInfo := [mkEI (demo_entry 1) 0 0 0; mkEI (demo_entry 2) 0 0 0].
Lemma demo_entry_packable n : packable (demo_entry n).
Proof. split; [apply demo_entry_wf|]. split; [done|]. split; [done|]. intros _. by vm_compute. Qed.
Lemma demo_infos_packable : Forall (fun e => packable (Log e)) demo_infos.
Proof. repeat constructor; apply demo_entry_packable. Qed.

Lemma entriesToBlocks_spec_witness :
  exists sorted blocks j k, entriesToBlocks demo_infos = Ok (sorted, blocks, j, k) /\ Permutation demo_infos sorted.
Proof.
  destruct (entriesToBlocks_spec demo_infos) as (sorted & groups & blocks & j & k & E & Hp & _);
    [discriminate|apply demo_infos_packable|].
  exists sorted, blocks, j, k. split; [exact E|exact Hp].
Defined.

Definition huge_entry : Entry := mkEntry (zrep 5000 Byte.x61) [] 0 0 0.
Lemma Fill_oversized_panics_witness : Fill NewMixedBlock huge_entry = Panic.
Proof. apply (Fill_oversized_panics huge_entry); [vm_compute; repeat split; congruence|vm_compute; reflexivity]. Defined.

Definition demo_packed := Eval vm_compute in
  match entriesToBlocks demo_infos with Ok r => r | _ => ([], [], 0, 0) end.
Lemma append_then_replay_witness :
  exists ex' offs infos, AppendBlocks (demo_extent heldMutex) (demo_packed.1.1.2) None [] = Ok (ex', inl offs) /\
    ReadEntries ex' 1536 8192 true = Ok (infos, commitLength ex', Some EndOfStream).
Proof.
  destruct (append_then_replay (demo_extent heldMutex) [demo_block] demo_infos (demo_packed.1.1.1) (demo_packed.1.1.2)
    (demo_packed.1.2) (demo_packed.2) 8192) as (ex' & offs & infos & E & E' & _).
  - apply demo_extent_inv.
  - reflexivity.
  - reflexivity.
  - discriminate.
  - apply demo_infos_packable.
  - vm_compute. reflexivity.
  - vm_compute. reflexivity.
  - vm_compute. congruence.
  - reflexivity.
  - exists ex', offs, infos. split; [exact E|exact E'].
Defined.

(** ** Streams *)

Definition demo_ids (n : nat) : Z := Z.of_nat n + 1.
Lemma demo_ids_u64 n k : (k <= 100)%nat -> (n <= k)%nat -> is_u64 (demo_ids n).
Proof. unfold is_u64, demo_ids. lia. Qed.

Lemma mock_stream_durable_witness :
  exists c c' places, NewMockStreamClient "log" demo_ids = Ok c /\
    append_all c [[demo_block]; [demo_block; demo_block]] = Ok (c', places).
Proof.
  destruct (mock_stream_durable "log" demo_ids [[demo_block]; [demo_block; demo_block]]) as (c & c' & places & E & E' & _).
  - intros k Hk. apply (demo_ids_u64 k 2); [lia|exact Hk].
  - unfold demo_ids. lia.
  - repeat constructor; try discriminate; apply demo_block_wf.
  - exists c, c', places. split; [exact E|exact E'].
Defined.

(** ** The memtable *)

Definition empty_memtable : SL := Eval vm_compute in
  match NewSkiplist 300 with Ok s => s | _ => mkSL 0 0 (mkArena 0 []) ∅ end.
Lemma empty_memtable_repr : repr empty_memtable [].
Proof.
  destruct (NewSkiplist_repr 300) as (s & E & Hr & _); [lia|lia|].
  assert (NewSkiplist 300 = Ok empty_memtable) as E' by (vm_compute; reflexivity).
  rewrite E' in E. injection E as <-. exact Hr.
Qed.

Lemma Put_refines_insert_witness :
  exists s' L', Put empty_memtable (demo_key 1 5) demo_value (fun _ => 0) = Ok s' /\ repr s' L' /\
    contents L' = [(demo_key 1 5, versioned demo_value 0)].
Proof.
  destruct (Put_refines_insert empty_memtable [] (demo_key 1 5) demo_value (fun _ => 0)) as (s' & L' & E & Hr & Hc & _);
    [apply empty_memtable_repr|vm_compute; congruence|reflexivity|apply demo_value_wf|vm_compute; congruence|].
  exists s', L'. split; [exact E|]. split; [exact Hr|exact Hc].
Defined.

Definition demo_ops : list put_op := [(demo_key 1 5, demo_value, fun _ => 0); (demo_key 1 9, demo_value, fun _ => 0)].
Lemma demo_ops_ok : Forall op_ok demo_ops.
Proof. repeat constructor; try apply demo_value_wf; vm_compute; congruence. Qed.
Lemma memtable_contents_witness :
  exists s, (let! s := NewSkiplist 500 in put_all s demo_ops) = Ok s /\
    (let! p := it_SeekToFirst s in collect 3 s p) =
      Ok [(demo_key 1 9, versioned demo_value 0); (demo_key 1 5, versioned demo_value 0)].
Proof.
  destruct (memtable_contents 500 demo_ops 3) as (s & E & E' & _);
    [lia|apply demo_ops_ok|vm_compute; congruence|vm_compute; lia|].
  exists s. split; [exact E|exact E'].
Defined.

Lemma demo_memtable : exists s n9 n5, (let! s := NewSkiplist 500 in put_all s demo_ops) = Ok s /\ repr s [n9; n5] /\
  skey n9 = demo_key 1 9 /\ skey n5 = demo_key 1 5 /\ sval n5 = versioned demo_value 0.
Proof.
  destruct (NewSkiplist_repr 500) as (s0 & -> & Hr & Hm & Hz); [lia|lia|]. cbn [obind].
  destruct (put_all_repr demo_ops s0 [] Hr demo_ops_ok) as (s & L & E & HL & Hc & _).
  { rewrite Hz, Hm. vm_compute. congruence. }
  change (contents L = [(demo_key 1 9, versioned demo_value 0); (demo_key 1 5, versioned demo_value 0)]) in Hc.
  destruct L as [|n9 [|n5 [|]]]; try discriminate. injection Hc as H1 H2 H3 H4.
  exists s, n9, n5. done.
Qed.

Lemma KeyWithTs_ts uk t t' : 0 <= t <= MaxUint64 -> 0 <= t' <= MaxUint64 -> KeyWithTs uk t = KeyWithTs uk t' -> t = t'.
Proof.
  intros Ht Ht' E. pose proof (kcmp_versions uk t uk t' Ht Ht') as Hc.
  rewrite E, kcmp_refl, bytes_compare_refl in Hc. symmetry in Hc. by apply Z.compare_eq in Hc.
Qed.

(** of the versions 5 and 9, a read at 7 sees version 5 *)
Lemma Get_latest_witness : exists s, (let! s := NewSkiplist 500 in put_all s demo_ops) = Ok s /\
  Get s (KeyWithTs [byte_of 1] 7) = Ok (versioned demo_value 5).
Proof.
  destruct demo_memtable as (s & n9 & n5 & E & Hr & K9 & K5 & V5). exists s. split; [exact E|].
  destruct (Get_latest s [n9; n5] [byte_of 1] 7 Hr) as [Hg _]; [discriminate|vm_compute; split; congruence|].
  rewrite (Hg n5 5); [by rewrite V5|right; left|exact K5|lia|].
  intros n' t' Hin Hk Ht. apply elem_of_cons in Hin as [->|Hin%list_elem_of_singleton].
  - rewrite K9 in Hk. apply KeyWithTs_ts in Hk; unfold MaxUint64; lia.
  - rewrite Hin, K5 in Hk. apply KeyWithTs_ts in Hk; unfold MaxUint64; lia.
Defined.

Lemma iterator_yields_sorted_witness :
  exists s n9 n5, repr s [n9; n5] /\ (let! n := it_Seek s (demo_key 1 7) in collect 3 s n) =
    Ok (contents (ge_part (demo_key 1 7) [n9; n5])).
Proof.
  destruct demo_memtable as (s & n9 & n5 & E & Hr & _). exists s, n9, n5. split; [exact Hr|].
  apply (iterator_yields_sorted s [n9; n5] (demo_key 1 7) 3 Hr); [vm_compute; congruence|cbn; lia].
Defined.

Lemma iterator_backwards_witness :
  exists s n9 n5, repr s [n9; n5] /\ it_SeekToLast s = Ok (soff n5) /\ it_Prev s (soff n5) = Ok (soff n9).
Proof.
  destruct demo_memtable as (s & n9 & n5 & E & Hr & _). exists s, n9, n5. split; [exact Hr|].
  destruct (iterator_backwards s [n9; n5] (demo_key 1 7) Hr) as (E1 & E2 & _); [vm_compute; congruence|].
  split; [exact E1|]. exact (E2 [n9] n5 [] eq_refl).
Defined.

(** ** Tables *)

Definition demo_kvs : list kv := [(demo_key 1 9, demo_value); (demo_key 1 5, demo_value); (demo_key 2 5, demo_value)].
Lemma demo_table_input : table_input (Bloom := Z) zlen demo_kvs.
Proof.
  split; [discriminate| | |vm_compute; reflexivity].
  - repeat constructor.
  - repeat constructor; try apply demo_value_wf; vm_compute; congruence.
Qed.

Lemma demo_client : exists c, NewMockStreamClient "row" demo_ids = Ok c /\ sc_inv (length demo_kvs + (1 + 0)) c.
Proof.
  destruct (NewMockStreamClient_inv (length demo_kvs + (1 + 0)) "row" demo_ids) as (c & E & Hi & _); [..|by exists c].
  - intros k Hk. apply (demo_ids_u64 k 4); [lia|exact Hk].
  - unfold demo_ids. lia.
Qed.

Lemma table_roundtrip_witness :
  exists c c' e o t it, NewMockStreamClient "row" demo_ids = Ok c /\
    build_table (Bloom := Z) zlen (fun _ => 0%nat) c demo_kvs 7 512 9 = Ok (c', (e, o)) /\
    OpenTable (Bloom := Z) c' e o = Ok t /\ NewIterator c' t false = Ok (t_IncrRef t, it) /\
    (let! it := t_Rewind c' it in drain (H := table_YIterator c') 4 it) = Ok demo_kvs.
Proof.
  destruct demo_client as (c & E & Hc).
  destruct (table_roundtrip (Bloom := Z) zlen (fun _ => 0%nat) 0 c demo_kvs 7 512 9 false 4 Hc demo_table_input)
    as (c' & e & o & t & it & E1 & _ & E2 & _ & _ & _ & _ & _ & E3 & E4);
    [vm_compute; split; congruence|vm_compute; split; congruence|vm_compute; split; congruence|cbn; lia|].
  exists c, c', e, o, t, it. split; [exact E|]. split; [exact E1|]. split; [exact E2|]. split; [exact E3|exact E4].
Defined.

Lemma table_seek_witness :
  exists c c' e o t it rest, build_table (Bloom := Z) zlen (fun _ => 0%nat) c demo_kvs 7 512 9 = Ok (c', (e, o)) /\
    OpenTable (Bloom := Z) c' e o = Ok t /\ NewIterator c' t false = Ok (t_IncrRef t, it) /\
    (let! it := t_Seek c' it (demo_key 1 7) in drain (H := table_YIterator c') 4 it) = Ok rest.
Proof.
  destruct demo_client as (c & E & Hc).
  destruct (table_seek (Bloom := Z) zlen (fun _ => 0%nat) 0 c demo_kvs 7 512 9 false (demo_key 1 7) 4 Hc demo_table_input)
    as (c' & e & o & t & it & passed & rest & E1 & E2 & E3 & E4 & _);
    [vm_compute; split; congruence|vm_compute; split; congruence|vm_compute; split; congruence|cbn; lia|vm_compute; congruence|].
  exists c, c', e, o, t, it, rest. split; [exact E1|]. split; [exact E2|]. split; [exact E3|exact E4].
Defined.

Lemma table_no_false_negative_witness :
  exists c c' e o t, build_table (Bloom := Z) zlen (fun _ => 0%nat) c demo_kvs 7 512 9 = Ok (c', (e, o)) /\
    OpenTable (Bloom := Z) c' e o = Ok t /\ DoesNotHave t (zlen (ukey (demo_key 2 5))) = false.
Proof.
  destruct demo_client as (c & E & Hc).
  destruct (table_no_false_negative (Bloom := Z) zlen (fun _ => 0%nat) 0 c demo_kvs 7 512 9 (demo_key 2 5) demo_value Hc demo_table_input)
    as (c' & e & o & t & E1 & E2 & E3);
    [vm_compute; split; congruence|vm_compute; split; congruence|vm_compute; split; congruence|do 2 right; left|].
  exists c, c', e, o, t. split; [exact E1|]. split; [exact E2|exact E3].
Defined.

(** a memtable merged with an empty one, backwards *)
Lemma MergeIterator_merges_witness :
  exists s kvs t m, u_wf true (mkUni s 0 true) kvs /\
    NewMergeIterator 2 (Leaf <$> [mkUni s 0 true; mkUni empty_memtable 0 true]) true = Some t /\
    (let! t := yi_Rewind 4 t in drain (H := merge_YIterator 4) 3 t) = Ok m.
Proof.
  destruct demo_memtable as (s & n9 & n5 & E & Hr & _).
  assert (u_wf true (mkUni s 0 true) (walk_of true [n9; n5])) as H1 by (split; [reflexivity|exists [n9; n5]; split; [exact Hr|reflexivity]]).
  assert (u_wf true (mkUni empty_memtable 0 true) []) as H2 by (split; [reflexivity|exists []; split; [exact empty_memtable_repr|reflexivity]]).
  destruct (MergeIterator_merges true [mkUni s 0 true; mkUni empty_memtable 0 true] [walk_of true [n9; n5]; []])
    as (t & m & E1 & _ & _ & Hd); [discriminate|constructor; [exact H1|constructor; [exact H2|constructor]]|].
  destruct (Hd 4%nat 3%nat (demo_key 1 5)) as [E2 _]; [cbn; lia|cbn; lia|vm_compute; congruence|].
  exists s, (walk_of true [n9; n5]), t, m. split; [exact H1|]. split; [exact E1|exact E2].
Defined.

(** ** Replication *)

Definition demo_cluster : Cluster :=
  <["a" := {[ 1 := demo_extent newMutex ]}]> (<["b" := {[ 1 := demo_extent newMutex ]}]>
    (<["c" := {[ 1 := demo_extent newMutex ]}]> ∅)).
Lemma demo_replica p : p ∈ ["a"; "b"; "c"] -> replica demo_cluster 1 p [demo_block].
Proof.
  intros Hp. exists {[ 1 := demo_extent newMutex ]}, (demo_extent newMutex).
  split; [|split; [reflexivity|split; [apply demo_extent_inv|done]]]. set_unfold. by destruct Hp as [->|[->|[->|[]]]].
Qed.
Lemma demo_peers : NoDup ["a"; "b"; "c"].
Proof. by apply (bool_decide_unpack _). Qed.

(** peer b's answer is lost *)
Lemma node_Append_replicates_witness :
  exists cl' r, node_Append (fun _ => true) (fun _ => []) (fun p => if decide (p = "b") then NoReply (Errorf "timeout") else Delivered) (fun l => l)
      demo_cluster "a" 1 ["a"; "b"; "c"] [demo_block] = Ok (cl', r) /\
    (forall p, p ∈ ["a"; "b"; "c"] -> exists m, replica cl' 1 p ([demo_block] ++ take m [demo_block])).
Proof.
  destruct (node_Append_replicates (fun _ => true) (fun _ => []) (fun p => if decide (p = "b") then NoReply (Errorf "timeout") else Delivered) (fun l => l)
    demo_cluster 1 "a" "b" "c" [demo_block] [demo_block]) as (cl' & r & E & Hr & _).
  - intros rs. reflexivity.
  - apply demo_peers.
  - apply demo_replica. left.
  - apply demo_replica. right; left.
  - apply demo_replica. do 2 right; left.
  - intros p. split; repeat constructor.
  - reflexivity.
  - exists cl', r. split; [exact E|exact Hr].
Defined.

Lemma node_Append_succeeds_witness :
  exists cl', node_Append (fun _ => true) (fun _ => []) (fun _ => Delivered) (fun l => l)
      demo_cluster "a" 1 ["a"; "b"; "c"] [demo_block] = Ok (cl', inl (Some [1536])).
Proof.
  destruct (node_Append_succeeds (fun _ => true) (fun l => l) demo_cluster 1 "a" "b" "c" [demo_block] [demo_block]) as (cl' & E).
  - intros rs. reflexivity.
  - apply demo_peers.
  - apply demo_replica. left.
  - apply demo_replica. right; left.
  - apply demo_replica. do 2 right; left.
  - intros p. reflexivity.
  - repeat constructor; apply demo_block_wf.
  - reflexivity.
  - exists cl'. exact E.
Defined.

Lemma node_Seal_never_seals_witness :
  node_Seal {[ 1 := demo_extent newMutex ]} 1 512 = Ok ({[ 1 := demo_extent newMutex ]}, Some (Errorf "have extent, can not alloc new")).
Proof. apply (node_Seal_never_seals {[ 1 := demo_extent newMutex ]} 1 512) with (ex := demo_extent newMutex). reflexivity. Defined.

(** ** The partition engine *)

Definition demo_fp (k : bytes) : Z := zlen k.
Definition demo_rnd (s : SL) (k : bytes) (n : nat) : Z := 0.
Definition demo_sched (seq : Z) (n : nat) : nat := 1.
Lemma bits_small (hs : list Z) : zlen hs <= 2 ^ 21 -> zlen (bf_JSONMarshal (filter_of (Bloom := Z) hs)) < 2 ^ 29.
Proof. intros _. change (zlen (PutUint64 (filter_of hs)) < 2 ^ 29). unfold PutUint64. rewrite zlen_be_put. lia. Qed.
Lemma demo_stream (n : nat) : (n <= 100)%nat -> exists c, NewMockStreamClient "log" demo_ids = Ok c /\ sc_inv n c /\ ls_tail c 0 0.
Proof.
  intros Hn. destruct (NewMockStreamClient_inv n "log" demo_ids) as (c & E & Hi & Ht); [..|by exists c].
  - intros k Hk. apply (demo_ids_u64 k n); lia.
  - unfold demo_ids. lia.
Qed.

(** a short key, and values below and above the threshold *)
Definition demo_uk (n : Z) : bytes := [byte_of n].
Definition demo_big : bytes := zrep 2000 Byte.x61.
Definition demo_batch : list (bytes * bytes) := [(demo_uk 1, [Byte.x62]); (demo_uk 2, demo_big)].
Lemma demo_batch_fits : batch_fits demo_batch.
Proof.
  split; [discriminate|]. split; [|split; vm_compute; congruence].
  repeat constructor; try discriminate; vm_compute; congruence.
Qed.
Definition demo_requests : list client_op :=
  [OpWrite demo_batch; OpGet (demo_uk 2); OpRange [] (demo_uk 1) 5; OpFlush; OpRestart; OpDelete (demo_uk 1); OpRestart;
   OpGet (demo_uk 1); OpGet (demo_uk 2); OpDelete (demo_uk 1)].

Lemma demo_requests_ok : ops_ok ∅ demo_requests.
Proof.
  unfold demo_requests. repeat split; try apply demo_batch_fits; try discriminate; try apply prefix_nil; vm_compute; congruence.
Qed.

Abbreviation demo_RP := (RangePartition (LogSt := MockStreamClient) (RowSt := MockStreamClient) (Bloom := Z)).

Lemma partition_refines_map_witness : exists (log row : MockStreamClient) (rp rp' : demo_RP),
  new_partition log row = Ok rp /\ run_ops demo_fp demo_rnd demo_sched 100 0 2 rp demo_requests =
    Ok (rp', [RDone None; RValue (inl demo_big); RKeys [demo_uk 1; demo_uk 2]; RDone None; RDone None; RDone None; RDone None;
      RValue (inr errNotFound); RValue (inl demo_big); RDone (Some errNotFound)]).
Proof.
  destruct (demo_stream (ops_cost 0 demo_requests)) as (log & _ & Hlog & Htail); [cbn; lia|].
  destruct (demo_stream (1 + ops_cost 0 demo_requests)) as (row & _ & Hrow & _); [cbn; lia|].
  destruct (partition_refines_map (Bloom := Z) demo_fp demo_rnd demo_sched bits_small log row 100 0 2 demo_requests) as (rp & rp' & E & E').
  - exact Hlog.
  - exact Htail.
  - exact Hrow.
  - vm_compute. congruence.
  - lia.
  - cbn. lia.
  - exact demo_requests_ok.
  - exists log, row, rp, rp'. split; [exact E|exact E'].
Defined.

Lemma getValueStruct_reads_witness : exists (log row : MockStreamClient) (rp rp' : demo_RP) vs,
  new_partition log row = Ok rp /\ WriteAll demo_fp demo_rnd demo_sched 2 rp demo_batch = Ok (rp', None) /\
  getValueStruct demo_fp rp' (demo_uk 1) 0 = Ok vs /\ getValueStruct demo_fp rp' (demo_uk 3) 0 = Ok emptyVS.
Proof.
  destruct (demo_stream 7) as (log & _ & Hlog & Htail); [lia|]. destruct (demo_stream 8) as (row & _ & Hrow & _); [lia|].
  destruct (new_partition_ok (Bloom := Z) demo_fp 7 log row Hlog Htail Hrow ltac:(vm_compute; congruence)) as (rp & E & Hi & _).
  destruct (WriteAll_ok demo_fp demo_rnd demo_sched bits_small 0 2 rp [] [[]] [] demo_batch Hi ltac:(lia) demo_batch_fits)
    as (rp' & mems & tabs & E' & Hi' & _). pose proof (rp_inv_levels _ _ _ _ _ _ Hi') as Hl.
  pose proof (ri_seq _ _ _ _ _ _ Hi') as Hs. pose proof (ri_versions _ _ _ _ _ _ Hi') as Hv.
  pose proof (ri_values _ _ _ _ _ _ Hi' (demo_uk 1) ltac:(discriminate)) as (t & vs & Hn & _).
  pose proof (ri_values _ _ _ _ _ _ Hi' (demo_uk 3) ltac:(discriminate)) as Hnone.
  exists log, row, rp, rp', (versioned vs t). split; [exact E|]. split; [exact E'|]. split.
  - apply (getValueStruct_reads demo_fp rp' mems tabs (demo_uk 1) 0 Hl); [discriminate|vm_compute; split; congruence|].
    change (newest (demo_uk 1) (seqNumber rp') (store mems tabs) t vs). apply newest_at; [lia|exact Hv|exact Hn].
  - apply (getValueStruct_reads demo_fp rp' mems tabs (demo_uk 3) 0 Hl); [discriminate|vm_compute; split; congruence|].
    intros t' vs' Hin. destruct (Hnone t' vs' Hin).
Defined.

(** a partition opened again with the table of a batch *)
Lemma demo_reopened : exists (rp : demo_RP) tabs, rp_inv demo_fp 4 rp (rev (live <$> demo_batch) ++ []) [[]] tabs /\ rp_tables rp <> [].
Proof.
  destruct (demo_stream 12) as (log & _ & Hlog & Htail); [lia|]. destruct (demo_stream 13) as (row & _ & Hrow & _); [lia|].
  destruct (new_partition_ok (Bloom := Z) demo_fp 12 log row Hlog Htail Hrow ltac:(vm_compute; congruence)) as (rp & _ & Hi & _).
  destruct (WriteAll_ok demo_fp demo_rnd demo_sched bits_small 5 2 rp [] [[]] [] demo_batch Hi ltac:(lia) demo_batch_fits) as (rp1 & mems & tabs & _ & Hi1 & Hs1).
  destruct (close_partition_ok demo_fp demo_sched bits_small 4 rp1 _ mems tabs Hi1 Hs1) as (mt & rp2 & tabs2 & _ & Hd & _).
  destruct (load_ok demo_fp demo_rnd demo_sched 4 1 2 _ _ _ _ tabs2 Hd ltac:(lia)) as (rp3 & _ & Hi3 & _). exists rp3, tabs2. split; [exact Hi3|].
  intros E. pose proof (ri_tabs _ _ _ _ _ _ Hi3) as Ht. rewrite E in Ht. apply Forall2_nil_inv_l in Ht. subst tabs2.
  pose proof (ri_values _ _ _ _ _ _ Hi3 (demo_uk 1) ltac:(discriminate)) as (t & vs & (Hin & _) & _). by apply elem_of_nil in Hin.
Qed.
Lemma demo_small (rp : demo_RP) tabs l : rp_inv demo_fp 4 rp (rev (live <$> demo_batch) ++ []) [[]] tabs -> NoDup (fst <$> l) ->
  (forall p, p ∈ l -> p ∈ mjoin tabs) -> kv_est l <= maxCompact.
Proof.
  intros Hi Hnd Hl. pose proof (ri_plain _ _ _ _ _ _ Hi) as Hpl. pose proof (ri_size _ _ _ _ _ _ Hi) as Hsz. change (store [[]] tabs) with (mjoin tabs) in *.
  assert (length l <= length (mjoin tabs))%nat as Hlen by (apply submseteq_length, NoDup_submseteq; [by eapply NoDup_fmap_1|done]).
  etrans; [apply kv_est_bound, Forall_forall; intros p Hp; rewrite Forall_forall in Hpl; by apply Hpl, Hl|].
  assert (zlen l <= 2) by (unfold zlen; change (length (rev (live <$> demo_batch) ++ [])) with 2%nat in Hsz; lia).
  unfold maxCompact. change MB with 1048576. pose proof (zlen_nonneg l). lia.
Qed.
Lemma doCompact_keeps_newest_witness : exists (rp rp' : demo_RP) newt, rp_tables rp <> [] /\
  doCompact demo_fp demo_rnd demo_sched 100 100 0 rp (rp_tables rp) true = Ok rp' /\ rp_tables rp' = rp_tables rp ++ newt.
Proof.
  destruct demo_reopened as (rp & tabs & Hi & Hne).
  destruct (doCompact_keeps_newest demo_fp demo_rnd demo_sched bits_small 0 100 100 0 rp (rev (live <$> demo_batch) ++ []) tabs ltac:(eapply rp_inv_le; [|exact Hi]; cbn; lia) Hne) as (l & Hnd & Hl & Hdo & _).
  - cbn. lia.
  - cbn. lia.
  - destruct Hdo as (rp' & newt & Ks & E & Et & _); [exact (demo_small rp tabs l Hi Hnd (fun p Hp => proj1 (proj1 (proj1 (Hl p) Hp))))|]. exists rp, rp', newt. exact (conj Hne (conj E Et)).
Defined.

Definition demo_request (n : Z) : request := [mkEI (new_log (demo_uk n) [Byte.x62] n 0) 0 0 0].
Definition demo_events : list wevent :=
  [EvSend (demo_request 1); EvRecv; EvSend (demo_request 2); EvWrite; EvSend (demo_request 3); EvRecv; EvSignal].
Lemma demo_request_client n : 0 <= n < 256 -> client_request (demo_request n).
Proof.
  intros Hn. exists (demo_uk n), [Byte.x62], n, 0. split; [|split; [by left|done]].
  split; [discriminate|]. split; vm_compute; congruence.
Qed.
Definition demo_writer : writer := Eval vm_compute in
  match w_run new_writer demo_events with Some w => w | None => new_writer end.
Lemma demo_writer_run : w_run new_writer demo_events = Some demo_writer.
Proof. vm_compute. reflexivity. Qed.

Lemma doWrites_fifo_witness :
  mjoin (w_batches demo_writer) ++ w_reqs demo_writer ++ w_ch demo_writer = [demo_request 1; demo_request 2; demo_request 3].
Proof. destruct (doWrites_fifo demo_events demo_writer demo_writer_run) as [E _]. exact E. Defined.

Definition demo_drain : list wevent := [EvDone; EvStop; EvRecv; EvDefault; EvWrite; EvDone].
Definition demo_drained : writer := Eval vm_compute in
  match w_run demo_writer demo_drain with Some w => w | None => new_writer end.
Lemma doWrites_drains_witness :
  w_phase demo_drained = Exited /\ mjoin (w_batches demo_drained) = [demo_request 1; demo_request 2; demo_request 3].
Proof.
  destruct (doWrites_drains demo_events demo_writer demo_drain demo_drained demo_writer_run) as [_ Hend].
  - reflexivity.
  - repeat constructor.
  - vm_compute. reflexivity.
  - destruct Hend as (Hx & _ & Hb); [intros [] E; try discriminate E; vm_compute; reflexivity|discriminate|discriminate|].
    split; [exact Hx|exact Hb].
Defined.

Lemma batches_fit_witness : 107 + est_size (demo_request 1) <= maxSkipList.
Proof.
  destruct (batches_fit demo_events demo_writer [demo_request 1] demo_writer_run) as (_ & _ & _ & E).
  - repeat constructor; apply demo_request_client; lia.
  - left.
  - exact E.
Defined.
