(* ===== verification/ManagerWitnesses.v ===== *)
(** The theorems on the stream manager at concrete inputs. *)
From Stdlib Require Import ZArith Lia Strings.String.
From stdpp Require Import base option list numbers gmap sorting strings relations.
From S2P Require Import Prelude GoLib Utils Proto ProtoPs ProtoSm Etcd EtcdSpec StreamManager StreamManagerSpec StreamManagerOps.

#[export] Program Instance list_order : GoOrder := { map_range := fun A (m : gmap Z A) => map_to_list m; sort_less := fun A _ l => l }.
Next Obligation. done. Qed.
Next Obligation. done. Qed.

Definition demo_addr (n : Z) : bytes := [byte_of n].
Definition demo_register (n : Z) : sm_event := EvRegisterNode Delivered Delivered Delivered 7 (demo_addr n).
Definition demo_create : sm_event := EvCreateStream Delivered Delivered Delivered (fun _ => true) true.
Definition demo_elect : sm_event := EvElect "1" [Byte.x61] Delivered Delivered Delivered.
(** three nodes, a stream, a truncation, a lost answer that ends the process,
    and the next leader *)
Definition demo_sm_events : list sm_event :=
  [demo_elect; demo_register 1; demo_register 2; demo_register 3; demo_create; EvTruncate Delivered 4 5;
   EvRegisterNode Delivered Delivered NoReply 8 (demo_addr 4); demo_elect].
Definition demo_world : StreamManager * etcd := foldl sm_step sm_init demo_sm_events.
Lemma demo_events_ok : Forall event_ok demo_sm_events.
Proof. repeat constructor; vm_compute; congruence. Qed.

Lemma stream_manager_mirrors_witness : isLeader (fst demo_world) = true /\ streams (fst demo_world) = {[4 := mkSI 4 [5]]} /\
  exists E N next, db_ok (snd demo_world) {[4 := mkSI 4 [5]]} E N next /\ extents (fst demo_world) = E /\ ns_info <$> nodes (fst demo_world) = N.
Proof.
  assert (isLeader (fst demo_world) = true) as Hl by reflexivity. assert (streams (fst demo_world) = {[4 := mkSI 4 [5]]}) as Hs by reflexivity.
  destruct (stream_manager_mirrors demo_sm_events (fst demo_world) (snd demo_world)) as (S & E & N & next & Hdb & Hm & _).
  - reflexivity.
  - exact demo_events_ok.
  - apply surjective_pairing.
  - destruct (Hm Hl) as (E1 & E2 & E3). rewrite Hs in E1. subst S. split; [exact Hl|]. split; [exact Hs|]. exists E, N, next. exact (conj Hdb (conj E2 E3)).
Defined.

Definition demo_requests_ids : list (net * net * Z) := [(Delivered, Delivered, 2); (Delivered, NoReply, 1); (Delivered, Delivered, 3)].
Lemma allocUniqID_disjoint_witness : 1 <= 1 <= 3 /\ 3 <= 4 <= 7 /\ exists n1 n2, demo_requests_ids !! 0%nat = Some (n1, n2, 3 - 1).
Proof.
  apply (allocUniqID_disjoint demo_requests_ids 0 2 1 3 4 7).
  - repeat constructor; cbn; lia.
  - reflexivity.
  - lia.
  - reflexivity.
  - reflexivity.
Defined.

Lemma EtcdAllocUniqID_race_witness : exists db, alloc_race 2 1 ∅ = (db, Ok (1, 1 + 2), Ok (1, 1 + 1)) /\ next_id db idKey (1 + 2).
Proof.
  apply (EtcdAllocUniqID_race ∅ 1 2 1); [|lia..]. split; [lia|reflexivity].
Defined.

(** a stream of three extents *)
Definition demo_three : StreamManager :=
  mkSM {[4 := mkSI 4 [5; 6; 7]]} ∅ ∅ true [Byte.x61] "L" newMutex.
Definition demo_db : etcd := {["L" := [Byte.x61]]}.
Lemma sm_Truncate_spec_witness : sm_Truncate demo_three Delivered 4 6 demo_db =
  (<[formatStreamKey 4 := StreamInfo_bytes (mkSI 4 [6; 7])]> demo_db,
   Ok (with_maps demo_three (<[4 := mkSI 4 [6; 7]]> (streams demo_three)) (extents demo_three) (nodes demo_three), Code_OK)).
Proof.
  apply (sm_Truncate_spec demo_three demo_db 4 6 (mkSI 4 [5; 6; 7])).
  - reflexivity.
  - reflexivity.
  - reflexivity.
  - split; [vm_compute; intuition congruence|]. split; [repeat constructor; vm_compute; congruence|reflexivity].
  - reflexivity.
  - apply NoDup_ListNoDup. repeat constructor; cbn; lia.
Defined.

(** the leader of three nodes after its session has ended *)
Definition demo_stale : StreamManager := fst (foldl sm_step sm_init [demo_elect; demo_register 1; demo_register 2; demo_register 3]).
Definition demo_stale_db : etcd := delete (leaderKey demo_stale) (snd (foldl sm_step sm_init [demo_elect; demo_register 1; demo_register 2; demo_register 3])).
Lemma stale_leader_acknowledges_witness : exists sm db,
  CreateStream demo_stale Delivered Delivered Delivered (fun _ => true) true demo_stale_db = (db, Ok (sm, mkSI 4 [4 + 1])) /\
  streams sm !! 4 = Some (mkSI 4 [4 + 1]) /\ db !! formatStreamKey 4 = None.
Proof.
  destruct (stale_leader_acknowledges demo_stale demo_stale_db 4) as (sm & db & E & Hs & _ & Hk).
  - split; [reflexivity|]. split; [|vm_compute; congruence]. assert (demo_stale_db !! leaderKey demo_stale = None) as -> by reflexivity. discriminate.
  - assert (demo_stale_db !! idKey = Some (PutUint64 4)) as E by (vm_compute; reflexivity). unfold next_id. rewrite E. split; [lia|reflexivity].
  - lia.
  - vm_compute. lia.
  - reflexivity.
  - intros id n Hn. apply elem_of_map_to_list in Hn. vm_compute in Hn.
    repeat (apply elem_of_cons in Hn as [[= -> ->]|Hn]; [vm_compute; intuition congruence|]). by apply elem_of_nil in Hn.
  - exists sm, db. split; [exact E|]. split; [exact Hs|]. rewrite Hk; [reflexivity|vm_compute; congruence].
Defined.

Lemma StreamAllocExtent_never_succeeds_witness : writer (streamLock demo_three) = 0 /\
  forall sm' info db', StreamAllocExtent demo_three Delivered Delivered Delivered (fun _ => true) true 4 7 demo_db <> (db', Ok (sm', info)).
Proof.
  split; [reflexivity|]. apply (StreamAllocExtent_never_succeeds demo_three demo_db Delivered Delivered Delivered (fun _ => true) true 4 7). reflexivity.
Defined.
