(* ===== verification/PmWitnesses.v ===== *)
(** The theorems on the partition manager at concrete inputs. *)
From Stdlib Require Import ZArith Lia Strings.String.
From stdpp Require Import base option list numbers gmap sorting strings.
From S2P Require Import Prelude GoLib Proto ProtoSub ProtoPs ProtoSm ProtoPm Etcd EtcdSpec PartitionManager PartitionParse PartitionManagerSpec PartitionManagerRun PartitionManagerOps ManagerWitnesses.

Definition demo_pm_elect (w : PartitionManager * etcd) : PartitionManager * etcd := pm_elect "1" [Byte.x61] Delivered Delivered (fst w) (snd w).
Definition demo_pm_register (w : PartitionManager * etcd) : PartitionManager * etcd :=
  pm_finish (fst w) (RegisterPS (fst w) Delivered Delivered Delivered [Byte.x01] (snd w)).
Definition demo_pm_bootstrap (w : PartitionManager * etcd) : PartitionManager * etcd :=
  pm_finish (fst w) (Bootstrap (fst w) Delivered Delivered Delivered 10 11 1 (snd w)).
Definition demo_locs : TableLocations := mkTL [mkLoc 7 512].
Definition demo_pm_tables (w : PartitionManager * etcd) : PartitionManager * etcd :=
  pm_finish (fst w) (SetRowStreamTables (fst w) NoReply (Some demo_locs) 2 (snd w)).
Definition demo_pm1 : PartitionManager * etcd := demo_pm_elect pm_init.
Definition demo_pm3 : PartitionManager * etcd := demo_pm_bootstrap (demo_pm_register demo_pm1).
(** the answer to the last request is lost, the process ends, the next leader loads *)
Definition demo_pm5 : PartitionManager * etcd := demo_pm_elect (demo_pm_tables demo_pm3).

Lemma demo_locs_wf : TableLocations_wf demo_locs.
Proof. split; [|reflexivity]. constructor; [|constructor]. split; vm_compute; intuition congruence. Qed.
Lemma demo_run1 : pm_run 1 demo_pm1.
Proof. eapply run_step; [apply run_init|]. apply (step_elect (fst pm_init) (snd pm_init)). Qed.
Lemma demo_run3 : pm_run 3 demo_pm3.
Proof.
  apply (run_step 2 (demo_pm_register demo_pm1)); [apply (run_step 1 demo_pm1); [exact demo_run1|]|].
  - rewrite (surjective_pairing demo_pm1) at 1. apply (step_request _ _ (EvRegisterPS Delivered Delivered Delivered [Byte.x01])). reflexivity.
  - rewrite (surjective_pairing (demo_pm_register demo_pm1)) at 1. apply (step_request _ _ (EvBootstrap Delivered Delivered Delivered 10 11 1)); vm_compute; intuition congruence.
Qed.
Lemma demo_run5 : pm_run 5 demo_pm5.
Proof.
  apply (run_step 4 (demo_pm_tables demo_pm3)); [apply (run_step 3 demo_pm3); [exact demo_run3|]|].
  - rewrite (surjective_pairing demo_pm3) at 1. apply (step_request _ _ (EvSetTables NoReply (Some demo_locs) 2)). split.
    + intros l [= <-]. exact demo_locs_wf.
    + split; [vm_compute; intuition congruence|]. assert (snd demo_pm3 !! partKey 2 "logStream" = Some (uint64ToBig 10)) as -> by (vm_compute; reflexivity). by eexists.
  - rewrite (surjective_pairing (demo_pm_tables demo_pm3)) at 1. apply step_elect.
Qed.

Definition demo_meta : PartitionMeta := mkMeta None 10 11 (Some demo_locs) 1 [] (Some (mkRange [] [])) 2.
Lemma partition_manager_mirrors_witness : partMeta (fst demo_pm5) !! 2 = Some demo_meta /\
  exists N P next, pm_db_ok (snd demo_pm5) N P next /\ P !! 2 = Some demo_meta.
Proof.
  assert (pm_isLeader (fst demo_pm5) = true) as Hl by (vm_compute; reflexivity). assert (partMeta (fst demo_pm5) !! 2 = Some demo_meta) as Hp by (vm_compute; reflexivity).
  split; [exact Hp|]. destruct (partition_manager_mirrors 5 (fst demo_pm5) (snd demo_pm5)) as (N & P & next & Hdb & Hm & _).
  - rewrite <- surjective_pairing. exact demo_run5.
  - reflexivity.
  - exists N, P, next. split; [exact Hdb|]. destruct (Hm Hl) as [_ E]. rewrite <- E. exact Hp.
Defined.

Lemma GetRegions_complete_witness : pm_isLeader (fst demo_pm5) = true /\ exists rs, GetRegions (fst demo_pm5) = Ok (PM_OK, rs) /\ mkRI (Some (mkRange [] [])) 2 1 [Byte.x01] ∈ rs.
Proof.
  assert (pm_isLeader (fst demo_pm5) = true) as Hl by (vm_compute; reflexivity). split; [exact Hl|].
  destruct (GetRegions_complete 5 (fst demo_pm5) (snd demo_pm5)) as (rs & E & Hrs).
  - rewrite <- surjective_pairing. exact demo_run5.
  - reflexivity.
  - exact Hl.
  - exists rs. split; [exact E|]. apply Hrs. exists demo_meta, (mkPSD 1 [Byte.x01]). split; [vm_compute; reflexivity|]. split; vm_compute; reflexivity.
Defined.

Lemma bootstrap_routes_witness : exists pm' db' ps part, pm_setup [Byte.x02] 20 21 (fst demo_pm1) (snd demo_pm1) = (db', Ok (pm', (ps, part))).
Proof.
  destruct (bootstrap_routes 1 (fst demo_pm1) (snd demo_pm1) [Byte.x02] 20 21) as (pm' & db' & ps & part & metas & rs & E & _).
  - rewrite <- surjective_pairing. exact demo_run1.
  - reflexivity.
  - reflexivity.
  - discriminate.
  - reflexivity.
  - vm_compute. intuition congruence.
  - vm_compute. intuition congruence.
  - exists pm', db', ps, part. exact E.
Defined.

Lemma unknown_partition_breaks_routing_witness : exists db', SetRowStreamTables (fst demo_pm3) Delivered (Some demo_locs) 9 (snd demo_pm3) = (db', Panic).
Proof.
  destruct (unknown_partition_breaks_routing 3 (fst demo_pm3) (snd demo_pm3) demo_locs 9) as (db' & E & _).
  - rewrite <- surjective_pairing. exact demo_run3.
  - reflexivity.
  - vm_compute. reflexivity.
  - vm_compute. reflexivity.
  - vm_compute. intuition congruence.
  - discriminate.
  - exact demo_locs_wf.
  - discriminate.
  - exists db'. exact E.
Defined.
