(* ===== verification/ClientWitnesses.v ===== *)
(** The theorems on the manager clients and the replicated stream at concrete
    inputs: two stream managers of which the second leads, and three nodes. *)
From Stdlib Require Import ZArith Lia Strings.String Strings.Byte.
From stdpp Require Import base option list numbers gmap sorting strings.
From S2P Require Import Prelude GoLib Utils Proto ProtoSub ProtoPs ProtoSm ProtoPm Keys Extent MixBlock Stream Node Etcd EtcdSpec.
From S2P Require Import StreamManager StreamManagerSpec StreamManagerOps PartitionManager PartitionManagerRun Clients AutumnStream AutumnStreamSpec AutumnIter.
From S2P Require Import Witnesses ManagerWitnesses PmWitnesses.

(** ** The managers and their client *)

Definition node_at (id : Z) (a : byte) : NodeStatus := mkNS (mkNI id [a]) 0 0.
(** stream 4 with the extents 1 and 2 on three nodes *)
Definition demo_dir (exts : list Z) : StreamManager :=
  mkSM {[4 := mkSI 4 exts]} (<[1 := mkXI 1 [1; 2; 3] 0]> {[2 := mkXI 2 [1; 2; 3] 0]})
    (<[1 := node_at 1 x61]> (<[2 := node_at 2 x62]> {[3 := node_at 3 x63]})) true [x61] "L" newMutex.
Definition demo_sms (exts : list Z) : sm_world := ([fst sm_init; demo_dir exts], demo_db).
Definition demo_smc : SMClient := mkSMC [true; true] 0.
Definition demo_env (k : nat) : sm_env := mkEnv Etcd.Delivered Etcd.Delivered Etcd.Delivered Etcd.Delivered (fun _ => true) true 0.

Lemma client_reaches_leader_witness :
  sm_request_call demo_env demo_smc (ReqTruncate 4 2) (demo_sms [1; 2]) =
    (([fst sm_init; with_maps (demo_dir [1; 2]) {[4 := mkSI 4 [2]]} (extents (demo_dir [1; 2])) (nodes (demo_dir [1; 2]))],
      <[formatStreamKey 4 := StreamInfo_bytes (mkSI 4 [2])]> demo_db), Ok (mkSMC [true; true] 1, ResCode StreamManager.Code_OK)).
Proof.
  apply (client_reaches_leader demo_env (ReqTruncate 4 2) demo_smc (fst (demo_sms [1; 2])) demo_db 1 (demo_dir [1; 2])
    (with_maps (demo_dir [1; 2]) {[4 := mkSI 4 [2]]} (extents (demo_dir [1; 2])) (nodes (demo_dir [1; 2])))
    (<[formatStreamKey 4 := StreamInfo_bytes (mkSI 4 [2])]> demo_db) (ResCode StreamManager.Code_OK)).
  - repeat constructor.
  - reflexivity.
  - split; vm_compute; congruence.
  - split; vm_compute; congruence.
  - reflexivity.
  - intros [|[|j]] s Hj E; [injection E as <-; reflexivity|by destruct Hj|discriminate E].
  - reflexivity.
  - intros k. vm_compute. reflexivity.
  - discriminate.
Defined.

(** ** The partition manager's client *)

Definition demo_pmc : AutumnPMClient := mkPMC [true; true] 0 newMutex.
Lemma client_SetRowStreamTables_errors_witness :
  client_SetRowStreamTables (fun _ => mkPEnv Lost Lost Lost Lost) demo_pmc 2 [] ([fst pm_init; fst demo_pm3], snd demo_pm3) =
    (([fst pm_init; fst demo_pm3], snd demo_pm3), Ok (demo_pmc, None)) /\
  exists w, client_SetRowStreamTables (fun _ => mkPEnv Etcd.Delivered Etcd.Delivered Etcd.Delivered Etcd.Delivered) demo_pmc 2 [] ([fst pm_init; fst demo_pm3], snd demo_pm3) = (w, Panic).
Proof.
  split.
  - apply (client_SetRowStreamTables_errors (fun _ => mkPEnv Lost Lost Lost Lost) demo_pmc 2 [] [fst pm_init; fst demo_pm3] (snd demo_pm3)).
    + repeat constructor.
    + split; vm_compute; congruence.
    + reflexivity.
  - apply (client_SetRowStreamTables_errors (fun _ => mkPEnv Etcd.Delivered Etcd.Delivered Etcd.Delivered Etcd.Delivered) demo_pmc 2 [] [fst pm_init; fst demo_pm3] (snd demo_pm3)) with (pm := fst pm_init).
    + repeat constructor.
    + split; vm_compute; congruence.
    + reflexivity.
    + reflexivity.
    + reflexivity.
Defined.

(** ** The replicated stream *)

Definition demo_client (exts : list Z) : AutumnStreamClient := mkASC 4 exts ∅ ∅ demo_smc.
Definition demo_nodes_env (i : Z) : nat -> sm_env := demo_env.
Definition demo_more_env (j : nat) : nat -> sm_env := demo_env.
Lemma demo_client_ok exts cl : client_ok (mkSS (demo_client exts) (demo_sms exts) cl) 1 (demo_dir exts).
Proof.
  split; cbn [ss_client as_sm ss_sm fst demo_client demo_smc sm_conns sm_lastLeader as_nodes as_info demo_sms].
  - repeat constructor.
  - done.
  - split; vm_compute; congruence.
  - split; vm_compute; congruence.
  - done.
  - intros [|[|j]] s Hj E; [by injection E as <-|by destruct Hj|done].
  - repeat constructor.
  - intros i n E. by rewrite lookup_empty in E.
  - intros e o E. by rewrite lookup_empty in E.
Qed.
Lemma demo_places exts e : e ∈ [1; 2] -> places (demo_dir exts) e ["a"; "b"; "c"].
Proof.
  intros He. exists (mkXI e [1; 2; 3] 0). split.
  - apply elem_of_cons in He as [->|He]; [done|]. by apply list_elem_of_singleton in He as ->.
  - repeat constructor; eexists; (split; [vm_compute; reflexivity|reflexivity]).
Qed.
Definition demo_ss : sstate := mkSS (demo_client [1]) (demo_sms [1]) demo_cluster.
Lemma demo_append_state : append_state demo_ss 1 (demo_dir [1]) 1 "a" "b" "c" [demo_block].
Proof. split; [apply demo_client_ok|done|apply demo_places; by left|apply demo_peers|apply demo_replica]. Qed.

Definition demo_append_env (d : delivery) (j : nat) : append_env := mkAE d (fun _ => Errorf "rpc error") (fun _ => true) (fun _ => []) (fun _ => Node.Delivered) (fun l => l).
Lemma autumn_append_durable_witness : exists s' s'' o,
  as_Append demo_nodes_env demo_more_env demo_more_env 2 (demo_append_env Node.Delivered) [demo_block] demo_ss = Some (s', Ok (1, [o])) /\
  as_Read demo_nodes_env demo_more_env Node.Delivered 1 1 o 1 s' = Some (s'', Ok [demo_block]).
Proof.
  destruct (autumn_append_durable demo_nodes_env demo_more_env demo_more_env (fun _ _ => eq_refl) (fun _ _ => eq_refl)
    demo_ss 1 (demo_dir [1]) 1 "a" "b" "c" [demo_block] [demo_block] 0 (demo_append_env Node.Delivered)) as [Hsafe Hlive].
  - exact demo_append_state.
  - discriminate.
  - intros rs. reflexivity.
  - intros p. split; repeat constructor.
  - vm_compute. congruence.
  - destruct Hlive as (s' & offs & E).
    + reflexivity.
    + reflexivity.
    + reflexivity.
    + reflexivity.
    + repeat constructor; apply demo_block_wf.
    + pose proof E as E'. apply Hsafe in E' as (_ & _ & Hread).
      assert (offs = [1536]) as ->.
      { vm_compute in E. congruence. }
      destruct (Hread 0%nat 1536 demo_block eq_refl eq_refl) as (s'' & Er). exists s', s'', 1536. exact (conj E Er).
Defined.

(** the primary answers that a peer is not healthy; a deadline passes *)
Definition demo_unhealthy (j : nat) : append_env := mkAE Node.Delivered (fun _ => Errorf "rpc error") (fun p => bool_decide (p = "a"%string)) (fun _ => []) (fun _ => Node.Delivered) (fun l => l).
Lemma autumn_append_errors_witness :
  (exists s', as_Append demo_nodes_env demo_more_env demo_more_env 9 demo_unhealthy [demo_block] demo_ss = Some (s', Panic)) /\
  (exists s', as_Append demo_nodes_env demo_more_env demo_more_env 9 (demo_append_env (Node.NoReply (Errorf "rpc error: code = DeadlineExceeded"))) [demo_block] demo_ss = Some (s', Panic)).
Proof.
  split.
  - apply (autumn_append_errors demo_nodes_env demo_more_env demo_more_env (fun _ _ => eq_refl) (fun _ _ => eq_refl) demo_ss 1 (demo_dir [1]) 1 "a" ["b"; "c"] [demo_block] 7 demo_unhealthy).
    + apply demo_client_ok.
    + reflexivity.
    + apply demo_places. left.
    + split; [intros err [E|E]; discriminate E|discriminate].
    + intros (_ & cl & offs & E). vm_compute in E. discriminate E.
  - apply (autumn_append_errors demo_nodes_env demo_more_env demo_more_env (fun _ _ => eq_refl) (fun _ _ => eq_refl) demo_ss 1 (demo_dir [1]) 1 "a" ["b"; "c"] [demo_block] 7
      (demo_append_env (Node.NoReply (Errorf "rpc error: code = DeadlineExceeded")))).
    + apply demo_client_ok.
    + reflexivity.
    + apply demo_places. left.
    + split; [intros err [E|E]; [discriminate E|injection E as <-; discriminate]|discriminate].
    + intros [E _]. discriminate E.
Defined.

(** a sealed extent of a log and an open one *)
Definition demo_log : list Block := demo_packed.1.1.2.
Definition demo_log_extent (e seal : Z) : Extent :=
  mkExtent newMutex seal (512 + blocks_size demo_log) e "e" (mkFile (header_bytes e ++ blocks_bytes demo_log) None) true.
Definition demo_ss2 : sstate := mkSS (demo_client [1; 2]) (demo_sms [1; 2])
  {["a" := <[1 := demo_log_extent 1 1]> {[2 := demo_log_extent 2 0]}]}.
Lemma demo_log_good : exists groups, Forall2 good_block groups demo_log.
Proof.
  destruct (entriesToBlocks_groups demo_infos) as (sorted & groups & blocks & j & k & E & -> & Hg & _); [discriminate|apply demo_infos_packable|].
  exists groups. assert (blocks = demo_log) as <-; [|exact Hg]. vm_compute in E. unfold demo_log, demo_packed. cbn [fst snd]. congruence.
Qed.
Lemma demo_log_blocks e : e ∈ [1; 2] -> log_blocks e demo_log.
Proof.
  intros He. split; [|split; [exact demo_log_good|]]; apply elem_of_cons in He as [->|He];
    [|apply list_elem_of_singleton in He as ->| |apply list_elem_of_singleton in He as ->]; vm_compute; congruence.
Qed.
Lemma demo_primary e seal : e ∈ [1; 2] -> seal = (if decide (e = 1) then 1 else 0) -> primary (ss_nodes demo_ss2) e "a" (demo_log_extent e seal) demo_log.
Proof.
  intros He ->. eexists. split; [reflexivity|]. split; [|split; [|done]].
  - apply elem_of_cons in He as [->|He]; [done|]. by apply list_elem_of_singleton in He as ->.
  - destruct demo_log_good as [groups Hg]. split; try done.
    + clear -Hg. induction Hg as [|g b gs bs Hgb _ IH]; constructor; [apply Hgb|done].
    + apply elem_of_cons in He as [->|He]; [done|]. by apply list_elem_of_singleton in He as ->.
Qed.
Lemma demo_replayable : replayable demo_ss2 (demo_dir [1; 2]) [1; 2] (extent_log 1 demo_log ++ extent_log 2 demo_log).
Proof.
  apply (rp_sealed _ _ 1 "a" ["b"; "c"] (demo_log_extent 1 1)); [apply demo_places; left|apply demo_primary; [left|done]|apply demo_log_blocks; left|done|].
  apply (rp_last _ _ 2 "a" ["b"; "c"] (demo_log_extent 2 0)); [apply demo_places; right; left|apply demo_primary; [right; left|done]|apply demo_log_blocks; right; left].
Qed.

Lemma autumn_replay_complete_witness : exists s', drain demo_nodes_env demo_more_env 1 (fun _ => Node.Delivered) 5
    (as_NewLogEntryIter (ss_client demo_ss2) (mkRO true 0 0 true)) demo_ss2 = Some (s', Ok (extent_log 1 demo_log ++ extent_log 2 demo_log)).
Proof.
  apply (autumn_replay_complete demo_nodes_env demo_more_env (fun _ _ => eq_refl) (fun _ _ => eq_refl) 0 (fun _ => Node.Delivered) (fun _ => eq_refl)
    demo_ss2 1 (demo_dir [1; 2])).
  - apply demo_client_ok.
  - exact demo_replayable.
  - apply Nat.ltb_lt. vm_compute. reflexivity.
Defined.

Lemma autumn_iter_stops_early_witness : exists s', as_HasNext demo_nodes_env demo_more_env 1 (fun _ => Node.Delivered)
    (mkALI (512 + blocks_size demo_log) 0 false [] true) demo_ss2 = Some (s', Ok (mkALI 512 1 false [] true, false)).
Proof.
  apply (autumn_iter_stops_early demo_nodes_env demo_more_env (fun _ _ => eq_refl) (fun _ _ => eq_refl) 0 (fun _ => Node.Delivered) (fun _ => eq_refl)
    demo_ss2 1 (demo_dir [1; 2]) 0 1 "a" ["b"; "c"] (demo_log_extent 1 1) demo_log).
  - apply demo_client_ok.
  - reflexivity.
  - lia.
  - vm_compute. reflexivity.
  - apply demo_places. left.
  - apply demo_primary; [left|reflexivity].
  - reflexivity.
Defined.
