(* ===== verification/ServerWitnesses.v ===== *)
(** The theorems on the partition server and the client library at concrete
    inputs: file-backed streams, two servers with one partition each. *)
From Stdlib Require Import ZArith Lia Strings.String Strings.Byte.
From stdpp Require Import base option list numbers gmap sorting strings.
From S2P Require Import Prelude GoLib Utils Proto ProtoSub ProtoPs ProtoSm ProtoPm Keys YIter Extent MixBlock Stream.
From S2P Require Import Skiplist SkiplistSpec SkiplistPut TableBlock Table TableSpec TableBuild.
From S2P Require Import Partition PartitionSpec PartitionRun PartitionScan PartitionOpen Compact PartitionRestart PartitionMap.
From S2P Require Import Etcd EtcdSpec PartitionManager PartitionManagerRun Clients PartitionServer PartitionServerSpec AutumnLib AutumnLibSpec ClientCmd.
From S2P Require Import Witnesses.

(** ** A sort that sorts *)

#[local] Instance less_dec {A} (less : A -> A -> bool) : RelDecision (fun x y => less y x = false).
Proof. intros x y. apply _. Defined.
#[local] Program Instance merge_order : GoOrder := { map_range := fun A (m : gmap Z A) => map_to_list m; sort_less := fun A less l => merge_sort (fun x y => less y x = false) l }.
Next Obligation. done. Qed.
Next Obligation. intros A less l. symmetry. apply merge_sort_Permutation. Qed.
#[local] Program Instance merge_SortLaws : SortLaws.
Next Obligation.
  intros A less l Hasym Htrans.
  assert (Transitive (fun x y => less y x = false)) by (intros x y z; apply Htrans).
  assert (Total (fun x y => less y x = false)) by (intros x y; destruct (less y x) eqn:E; [right; by apply Hasym|by left]).
  apply (StronglySorted_merge_sort (fun x y => less y x = false)).
Qed.

(** ** Two partitions *)

Definition key_m : bytes := [x6d].
Definition meta_of (id log row : Z) (start stop : bytes) : PartitionMeta := mkMeta None log row None (id + 4) [] (Some (mkRange start stop)) id.
Definition demo_parts : PartitionManager :=
  mkPM (<[5 := mkPSD 5 [x01]]> {[6 := mkPSD 6 [x02]]}) (<[1 := meta_of 1 11 12 [] key_m]> {[2 := meta_of 2 21 22 key_m []]}) true [x61] "L".
Definition demo_managers : list PartitionManager := [fst pm_init; demo_parts].
Definition demo_connect (id : Z) : outcome MockStreamClient := NewMockStreamClient "s" demo_ids.
Definition demo_pmc2 : AutumnPMClient := mkPMC [true; true] 0 newMutex.
Definition all_delivered (k : nat) : pm_env := mkPEnv Delivered Delivered Delivered Delivered.
Lemma demo_pm_managers : pm_managers demo_pmc2 demo_managers 1 demo_parts.
Proof.
  split; [repeat constructor|done|split; vm_compute; congruence|split; vm_compute; congruence|done|].
  intros [|[|j]] p Hj E; [by injection E as <-|by destruct Hj|done].
Qed.
Lemma demo_fresh n : (n <= 90)%nat -> exists log row : MockStreamClient, demo_connect 0 = Ok log /\ demo_connect 0 = Ok row /\
  stored (Bloom := Z) demo_fp n 0 log row [] ∅.
Proof.
  intros Hn. destruct (NewMockStreamClient_inv (1 + n) "s" demo_ids) as (c & E & Hi & Ht).
  - intros k Hk. apply (demo_ids_u64 k (1 + n)); lia.
  - unfold demo_ids. lia.
  - exists c, c. split; [exact E|]. split; [exact E|]. apply fresh_stored; [eapply sc_inv_le; [exact Hi|lia]|exact Ht|exact Hi|unfold MaxUint64; lia].
Qed.

(** ** The server *)

Definition demo_ps_requests : list ps_request :=
  [PutRequest 1 (demo_uk 1) demo_big; GetRequest 1 (demo_uk 1); GetRequest 1 [x7a]; GetRequest 2 (demo_uk 1); DeleteRequest 1 (demo_uk 1); GetRequest 1 (demo_uk 1)].
Lemma demo_ps_requests_ok : Forall request_ok demo_ps_requests.
Proof. repeat constructor; try discriminate; vm_compute; congruence. Qed.
Definition demo_served := PartitionServer (LogSt := MockStreamClient) (RowSt := MockStreamClient) (Bloom := Z).


(** ** The library *)

Definition region_1 : RegionInfo := mkRI (Some (mkRange [] key_m)) 1 5 [x01].
Definition region_2 : RegionInfo := mkRI (Some (mkRange key_m [])) 2 6 [x02].
Lemma demo_tiles : tiles [] [region_1; region_2].
Proof. exists key_m. split; [done|]. split; [done|]. done. Qed.
Lemma locate_equivalent_witness : locate [region_1; region_2] [x7a] = Ok region_2.
Proof. apply (locate_equivalent [region_1; region_2] [x7a]). exact demo_tiles. Defined.

(** the answer to the second write is lost *)
Definition demo_lib_ops : list (net * lib_op) :=
  [(Delivered, LibPut (demo_uk 1) [x62]); (NoReply, LibPut [x7a] demo_big); (Lost, LibDelete (demo_uk 1)); (Delivered, LibGet [x7a]);
   (Delivered, LibGet (demo_uk 1)); (Delivered, LibRange [x7a] [x7a]); (Delivered, LibRange [] []); (Delivered, LibDelete (demo_uk 2))].
Lemma demo_lib_ops_ok : Forall (fun p => lib_op_ok (snd p)) demo_lib_ops.
Proof.
  unfold demo_lib_ops. repeat (apply Forall_cons; split; [cbn [snd lib_op_ok]|]); [..|apply Forall_nil; exact I].
  all: try discriminate.
  1, 2: split; [discriminate|split; vm_compute; congruence].
  1, 4: split; [discriminate|vm_compute; congruence].
  all: reflexivity.
Qed.


(** ** The commands *)

(** ["a, b"] *)
Definition demo_pmAddr : bytes := [x61; x2c; x20; x62].
Definition demo_files (f : bytes) : option bytes := if decide (f = [x66]) then Some demo_big else None.
(** put, an upload of a file that does not exist, get, ls, del and get again *)
Definition demo_commands : list (net * command) :=
  [(Delivered, CmdPut [[x7a]; [x66]]); (Delivered, CmdPut [[x7a]; [x67]]); (Delivered, CmdGet [[x7a]]); (Delivered, CmdLs []); (Delivered, CmdLs [[x7a]]);
   (Delivered, CmdDel [[x7a]]); (Delivered, CmdGet [[x7a]])].
Lemma demo_commands_ok : Forall (fun p => command_ok demo_files (snd p)) demo_commands.
Proof.
  unfold demo_commands. repeat (apply Forall_cons; split; [cbn [snd command_ok]|]); [..|apply Forall_nil; exact I].
  - intros v _ [= <-]. split; [discriminate|]. split; vm_compute; congruence.
  - intros v _ E. discriminate E.
  - exact I.
  - exact I.
  - exact I.
  - vm_compute. congruence.
  - exact I.
Qed.
