(* ===== verification/PoolWitnesses.v ===== *)
(** The theorems on the connection pools, the discard statistics and the
    collection of a value log at concrete inputs. *)
From Stdlib Require Import ZArith Lia Strings.Byte.
From stdpp Require Import base option list numbers gmap strings.
From S2P Require Import Prelude GoLib Utils Pool Proto ProtoSub ProtoPs ProtoSm Keys YIter Extent MixBlock Stream Skiplist TableBlock Table Partition PartitionSpec PartitionOpen LogReplay.
From S2P Require Import Etcd Discard Gc Witnesses ManagerWitnesses.

(** two goroutines connect to the same address at the same time *)
Definition race_1 : Pools := fst (Connect_first no_pools 1 [x61]).
Definition race_2 : Pools := fst (Connect_first race_1 2 [x61]).
Definition race_3 : Pools := fst (Connect_dial race_2 1 0 true).
Definition race_4 : Pools := fst (Connect_dial race_3 2 5 true).
Definition race_5 : Pools := fst (Connect_second race_4 2).
Definition race_6 : Pools := fst (Connect_second race_5 1).
Lemma race_reach : pool_reach race_5.
Proof.
  apply (reach_step race_4 (EvLock 2) race_5 (snd (Connect_second race_4 2))); [|by apply st_lock].
  apply (reach_step race_3 (EvDial 2 5 true) race_4 Pending); [|apply (st_dial race_3 2 5 true)].
  apply (reach_step race_2 (EvDial 1 0 true) race_3 Pending); [|apply (st_dial race_2 1 0 true)].
  apply (reach_step race_1 (EvConnect 2 [x61]) race_2 Pending); [|by apply (st_connect race_1 2 [x61])].
  apply (reach_step no_pools (EvConnect 1 [x61]) race_1 Pending); [apply reach_init|by apply (st_connect no_pools 1 [x61])].
Qed.
(** the first one gets the pool of the second, and its own, still open, is being shut down *)
Lemma pools_share_witness : p_all race_6 !! [x61] = Some 1%nat /\ open_at race_6 1 [x61] /\ open_at race_6 0 [x61] /\
  exists k, (k = 0%nat \/ k = 1%nat) /\ (in_hand race_6 k \/ shutting race_6 k).
Proof.
  destruct (pools_share race_5 (EvLock 1) race_6 (Returned [x61] (Some 1%nat))) as (Hret & Htwo & _).
  - exact race_reach.
  - by apply (st_lock race_5 1).
  - destruct (Hret [x61] 1%nat eq_refl) as [E Ho]. assert (open_at race_6 0 [x61]) as Ho0 by (exists (mkPool [x61] (Some 0) true); done).
    split; [exact E|]. split; [exact Ho|]. split; [exact Ho0|]. apply (Htwo 0%nat 1%nat [x61] Ho0 Ho). discriminate.
Defined.

Definition demo_blobs : gmap Z StreamInfo := <[1 := mkSI 1 [10; 11]]> {[2 := mkSI 2 [12]]}.
Definition demo_updates : list (gmap Z Z) := [<[10 := 100]> {[12 := 300]}; {[11 := 50]}].
Lemma MaxDiscard_picks_witness : exists best info, demo_blobs !! best = Some info /\ MaxDiscard (updates (NewDiscardManager demo_blobs) demo_updates) = Some info /\
  forall s', int64 (reported demo_blobs demo_updates s') <= int64 (reported demo_blobs demo_updates best).
Proof. apply (MaxDiscard_picks demo_blobs demo_updates 1). vm_compute. reflexivity. Defined.

Lemma AddBlobStream_misattributes_witness :
  discard_of (discardOfStream (UpdateDiscardStats (AddBlobStream (NewDiscardManager demo_blobs) (mkSI 3 [13])) {[13 := 70]})) 3 = 0 /\
  discard_of (discardOfStream (UpdateDiscardStats (AddBlobStream (NewDiscardManager demo_blobs) (mkSI 3 [13])) {[13 := 70]})) 13 = 70.
Proof.
  apply (AddBlobStream_misattributes (NewDiscardManager demo_blobs) 3 13 70).
  - vm_compute. reflexivity.
  - lia.
  - apply ranged_empty.
Defined.

(** ** A log of seven values *)

#[local] Instance list_LogIters : LogIters (list EntryInfo) (list EntryInfo) := {
  li_New := fun s _ => s; li_HasNext := fun _ it => Ok (it, inl (negb (bool_decide (it = [])))); li_Next := fun _ it => Ok (List.tl it, hd_error it) }.
Lemma list_yields (s : list EntryInfo) L : yielding s L L.
Proof. induction L as [|e L IH]; [by eapply yl_done|]. by eapply yl_more. Qed.

Definition seven : list Z := [1; 2; 3; 4; 5; 6; 7].
Definition gc_log : list EntryInfo := (fun i => mkEI (mkEntry (KeyWithTs [byte_of i] i) [x61] 0 0 0) 7 (512 * i) 100) <$> seven.
Definition gc_mem : SL :=
  match NewSkiplist 4096 with
  | Ok s => fold_left (fun s i => match Put s (KeyWithTs [byte_of i] i) (mkVS 2 0 0 (vp_Encode (mkVP 7 (512 * i) 1)) 0) (fun _ => 0) with Ok s => s | _ => s end) seven s
  | _ => mkSL 1 0 (newArena 0) ∅
  end.
Definition gc_rp : demo_RP :=
  match NewMockStreamClient "log" demo_ids with
  | Ok c => mkRP c c 0 false (mkMem 0 gc_mem) [] [] [] 7 (mkVP 0 0 0) [] 1
  | _ => mkRP (mkMock newMutex [] 0 "log" demo_ids) (mkMock newMutex [] 0 "log" demo_ids) 0 false (mkMem 0 gc_mem) [] [] [] 7 (mkVP 0 0 0) [] 1
  end.
Lemma gc_referred i : i ∈ seven -> referred demo_fp [] [] 0 gc_rp (mkEI (mkEntry (KeyWithTs [byte_of i] i) [x61] 0 0 0) 7 (512 * i) 100).
Proof.
  intros Hi. exists [byte_of i], i, (mkVS 2 0 0 (vp_Encode (mkVP 7 (512 * i) 1)) i), (mkVP 7 (512 * i) 1).
  split; [reflexivity|]. split; [discriminate|].
  assert (i = 1 \/ i = 2 \/ i = 3 \/ i = 4 \/ i = 5 \/ i = 6 \/ i = 7) as Hc by (unfold seven in Hi; rewrite !elem_of_cons in Hi; pose proof (not_elem_of_nil i); tauto).
  repeat destruct Hc as [Hc|Hc]; subst i; (split; [unfold MaxUint64; lia|]; split; [discriminate|]; split; [by left|]; split; [vm_compute; reflexivity|]; repeat split; vm_compute; reflexivity).
Qed.
Definition gc_dm : discardManager := updates (NewDiscardManager demo_blobs) demo_updates.
(** of seven entries the first five are sent twice, the sixth once, the last never *)
Lemma runGC_resends_witness : exists st, runGC demo_fp [] [] 0 (fun _ => gc_rp) 10 (Some gc_dm) (fun _ => gc_log) = Ok (Some st) /\
  gc_moved st = 7 /\ gc_sent st = [take 5 (gc_again <$> gc_log); take 6 (gc_again <$> gc_log)].
Proof.
  destruct (MaxDiscard gc_dm) as [info|] eqn:Em; [|vm_compute in Em; discriminate Em].
  destruct (runGC_resends demo_fp [] [] 0 (fun _ => gc_rp) 10 gc_dm info (fun _ => gc_log) gc_log) as (_ & st & E & Hm & Hs & _).
  - exact Em.
  - apply list_yields.
  - vm_compute. lia.
  - intros i ei Hl. unfold gc_log in Hl. rewrite list_lookup_fmap in Hl. destruct (seven !! i) as [x|] eqn:Ex; [|discriminate Hl]. injection Hl as <-.
    split; [apply gc_referred; by eapply list_elem_of_lookup_2|reflexivity].
  - repeat constructor; cbn; lia.
  - vm_compute. congruence.
  - exists st. split; [exact E|]. split; [exact Hm|]. rewrite Hs. reflexivity.
Defined.
