(* ===== verification/CrashWitnesses.v ===== *)
(** The theorems on a partition that dies, at concrete inputs. *)
From Stdlib Require Import ZArith Lia.
From stdpp Require Import base option list numbers gmap sorting strings.
From S2P Require Import Prelude GoLib Utils Proto ProtoPs Keys YIter Extent MixBlock Stream.
From S2P Require Import Skiplist TableBlock Table Partition PartitionSpec PartitionRun PartitionOpen LogReplay Compact PartitionRestart PartitionMap Crash CrashLoss Witnesses.

(** writes below and above the threshold and a delete; then the crash *)
Definition before_crash : list client_op :=
  [OpWrite [(demo_uk 1, [Byte.x62])]; OpWrite [(demo_uk 2, demo_big)]; OpGet (demo_uk 1); OpDelete (demo_uk 1)].
Definition first_reads : list client_op := [OpGet (demo_uk 2); OpGet (demo_uk 1); OpRange [] (demo_uk 1) 5].
Definition later_ops : list client_op := [OpFlush; OpRestart; OpGet (demo_uk 2); OpGet (demo_uk 3)].
Definition after_crash : list client_op := first_reads ++ OpWrite [(demo_uk 3, [Byte.x63])] :: later_ops.

Lemma one_fits k v : k <> [] -> zlen k <= 2048 -> zlen v < 2 ^ 30 -> room_for (logs_of [(k, v)]) < 2 ^ 31 ->
  107 + foldr (fun e m => estimatedSizeInSkl e + m) 0 (logs_of [(k, v)]) <= maxSkipList -> batch_fits [(k, v)].
Proof. intros Hk Hlk Hlv Hr Hs. split; [discriminate|]. split; [|split; assumption]. constructor; [|constructor]. repeat split; assumption. Qed.
Lemma before_crash_ok : ops_ok ∅ before_crash.
Proof. repeat split; first [discriminate|apply one_fits; [discriminate|vm_compute; congruence..]|vm_compute; congruence]. Qed.
Lemma after_crash_ok : ops_ok (map_after ∅ before_crash) after_crash.
Proof. repeat split; first [discriminate|apply prefix_nil|apply one_fits; [discriminate|vm_compute; congruence..]|vm_compute; congruence]. Qed.


(** a long value first, a short one after it *)
Lemma crash_loses_newest_witness : exists (log row : MockStreamClient) (rp rp1 rp2 : demo_RP), new_partition log row = Ok rp /\
  WriteAll demo_fp demo_rnd demo_sched 2 rp [(demo_uk 1, demo_big); (demo_uk 2, [Byte.x62])] = Ok (rp1, None) /\ rp_Get demo_fp rp1 (demo_uk 2) 0 = Ok (inl [Byte.x62]) /\
  open_after_crash demo_fp demo_rnd demo_sched 100 100 2 0 rp1 = Ok rp2 /\ rp_Get demo_fp rp2 (demo_uk 2) 0 = Ok (inr errNotFound).
Proof.
  destruct (demo_stream 7) as (log & _ & Hlog & Htail); [lia|]. destruct (demo_stream 8) as (row & _ & Hrow & _); [lia|]. destruct (new_mock_here log Htail) as [Hh Hz]. exists log, row.
  apply (crash_loses_newest (Bloom := Z) demo_fp demo_rnd demo_sched bits_small log row 100 100 2 0 (testThreshold - 512) (demo_uk 1) demo_big (demo_uk 2) [Byte.x62]).
  - exact Hlog.
  - exact Htail.
  - exact Hh.
  - exact Hz.
  - exact Hrow.
  - vm_compute. split; congruence.
  - split; [discriminate|]. split; vm_compute; congruence.
  - split; [discriminate|]. split; vm_compute; congruence.
  - discriminate.
  - reflexivity.
  - lia.
  - lia.
Defined.
