(* ===== verification/LifeWitnesses.v ===== *)
(** The theorems on starting a cluster, on nodes that start again and on the
    stopper, at concrete inputs. *)
From Stdlib Require Import ZArith Lia Strings.String.
From stdpp Require Import base option list numbers gmap sorting strings relations.
From S2P Require Import Prelude GoLib Utils Stopper Proto ProtoSub ProtoPs ProtoSm ProtoPm Extent Node Etcd EtcdSpec StreamManager StreamManagerSpec.
From S2P Require Import PartitionManager PartitionManagerSpec PartitionManagerRun PartitionManagerOps Clients NodeRun Bootstrap Witnesses ManagerWitnesses PmWitnesses ClientWitnesses.

(** ** The stopper: two workers, one of which has returned, and a caller of Stop *)

Definition started (g : group) (w : nat) : group := match RunWorker g w with Ok g => g | _ => g end.
Definition stopping (g : group) (c : nat) : group := match Stop g c with Ok g => g | _ => g end.
Definition demo_group : group := stopping (worker_returns (started (started no_goroutines 1) 2) 2) 7.
Lemma starts g w : stopper_reach g -> g_workers g !! w = None -> 0 <= st_wg (g_stopper g) -> stopper_reach (started g w).
Proof.
  intros Hg Hw Hz. apply (sr_step g); [exact Hg|]. assert (RunWorker g w = Ok (started g w)) as <-; [|by apply ss_run]. unfold started, RunWorker, wg_Add. by destruct (Z.ltb_spec (st_wg (g_stopper g) + 1) 0); [lia|].
Qed.
Lemma demo_group_reach : stopper_reach demo_group.
Proof.
  apply (sr_step (worker_returns (started (started no_goroutines 1) 2) 2)).
  - apply (sr_step (started (started no_goroutines 1) 2)); [|apply ss_return; reflexivity].
    apply starts; [apply starts; [apply sr_init|reflexivity|reflexivity..]|reflexivity|vm_compute; congruence].
  - assert (Stop (worker_returns (started (started no_goroutines 1) 2) 2) 7 = Ok demo_group) as <- by reflexivity. apply ss_stop. reflexivity.
Qed.
Lemma stopper_joins_witness : g_callers demo_group !! 7%nat = Some (Waiting true) /\
  (exists g1, rtc worker_ends demo_group g1 /\ stopper_step g1 (Ok (released g1 7 true))) /\ Stop demo_group 8 = Panic.
Proof.
  destruct (stopper_joins demo_group demo_group_reach) as (_ & _ & Hend & Htwice). split; [reflexivity|]. split; [apply Hend; reflexivity|]. exact (proj1 (Htwice eq_refl 8%nat)).
Defined.

(** ** A node that died while it appended *)

Definition demo_node : ExtentNode := {[1 := demo_extent newMutex]}.
Definition torn_file : File := mkFile (content (file (demo_extent newMutex)) ++ blocks_bytes [demo_block] ++ ztake 700 (block_bytes demo_block)) None.
Definition demo_listing : list (string * File) := [(node_extentName 1, torn_file); ("node_id"%string, mkFile [Byte.x31] None)].
Lemma node_restarts_witness : exists en', LoadExtents ∅ demo_listing = Ok en' /\ dom en' = {[1]} /\ exists ex', en' !! 1 = Some ex' /\ extent_inv ex' [demo_block; demo_block].
Proof.
  destruct (node_restarts demo_node (fun _ => [demo_block]) (fun _ => torn_file) (fun _ => [demo_block]) demo_listing) as (en' & E & Hok & Hd & Hall & _).
  - intros id ex Hl. unfold demo_node in Hl. apply lookup_singleton_Some in Hl as [<- <-]. split; [reflexivity|]. split; [apply demo_extent_inv|reflexivity].
  - split.
    + intros id ex Hl. unfold demo_node in Hl. apply lookup_singleton_Some in Hl as [<- <-]. left.
    + intros name f Hin Hs. apply elem_of_cons in Hin as [[= -> ->]|Hin]; [exists 1, (demo_extent newMutex); split; [reflexivity|split; reflexivity]|].
      apply list_elem_of_singleton in Hin as [= -> ->]. discriminate Hs.
  - intros id ex Hl. unfold demo_node in Hl. apply lookup_singleton_Some in Hl as [<- <-]. exists (ztake 700 (block_bytes demo_block)). split; [reflexivity|]. split; [constructor; [apply demo_block_wf|constructor]|].
    split; [reflexivity|]. split; [vm_compute; reflexivity|]. right. exists demo_block, (zdrop 700 (block_bytes demo_block)). split; [apply demo_block_wf|].
    split; [symmetry; apply take_drop|]. vm_compute. discriminate.
  - exists en'. split; [exact E|]. split; [rewrite Hd; reflexivity|]. destruct (Hall 1 (demo_extent newMutex) eq_refl) as (ex' & Hl & _).
    exists ex'. split; [exact Hl|]. exact (proj1 (proj2 (Hok 1 ex' Hl))).
Defined.

(** ** Three nodes and a server, on one etcd *)

Definition three_nodes : StreamManager * etcd := foldl sm_step sm_init [demo_elect; demo_register 1; demo_register 2; demo_register 3].
Lemma three_nodes_ok b : (b <= 100)%nat -> holds b three_nodes.
Proof. intros Hb. apply sm_run_ok; [apply sm_init_ok; cbn [length]; lia|]. repeat constructor; vm_compute; congruence. Qed.
Lemma three_managers : sm_managers demo_smc [fst sm_init; fst three_nodes] 1 (fst three_nodes).
Proof.
  split; [repeat constructor|reflexivity|split; vm_compute; congruence|split; vm_compute; congruence|split; reflexivity|].
  intros [|[|j]] s Hj E; [injection E as <-; reflexivity|by destruct Hj|discriminate E].
Qed.
Lemma demo_smooth k : smooth (demo_env k).
Proof. repeat split. Qed.

(** a fourth node registers, and starts again *)
Lemma node_registers_once_witness : exists sm' db' next, node_RegisterNode (fun _ => demo_env) (demo_addr 4) None true demo_smc ([fst sm_init; fst three_nodes], snd three_nodes) =
    ((<[1%nat := sm']> [fst sm_init; fst three_nodes], db'), Ok (mkSMC [true; true] 1, Some (format_uint next), next)) /\
  node_RegisterNode (fun _ => demo_env) (demo_addr 5) (Some (format_uint next)) false demo_smc ([], ∅) = (([], ∅), Ok (demo_smc, Some (format_uint next), next)).
Proof.
  destruct (three_nodes_ok 1 ltac:(lia)) as (S & E & N & next & Hi).
  destruct (node_registers_once (fun _ => demo_env) demo_smc [fst sm_init; fst three_nodes] (snd three_nodes) 1 (fst three_nodes) S E N next (demo_addr 4)) as (_ & sm' & db' & E1 & _ & _ & Hagain).
  - exact three_managers.
  - exact Hi.
  - intros k. apply demo_smooth.
  - reflexivity.
  - vm_compute. reflexivity.
  - reflexivity.
  - exists sm', db', next. split; [exact E1|]. apply Hagain.
Defined.

Definition one_server : PartitionManager * etcd := demo_pm_register demo_pm1.
Lemma one_server_run : pm_run 2 one_server.
Proof. apply (run_step 1 demo_pm1); [exact demo_run1|]. rewrite (surjective_pairing demo_pm1) at 1. apply (step_request _ _ (EvRegisterPS Delivered Delivered Delivered [Byte.x01])). reflexivity. Qed.
Definition both_db : etcd := snd three_nodes ∪ snd one_server.
#[local] Instance other_key_dec k : Decision (other_key k).
Proof. unfold other_key. apply _. Defined.
#[local] Instance pm_other_key_dec k : Decision (pm_other_key k).
Proof. unfold pm_other_key. apply _. Defined.
Lemma server_keys k v : snd one_server !! k = Some v -> other_key k /\ k <> leaderKey (fst three_nodes).
Proof.
  assert (bool_decide (map_Forall (fun k _ => other_key k /\ k <> leaderKey (fst three_nodes)) (snd one_server)) = true) as Hb by (vm_compute; reflexivity).
  apply bool_decide_eq_true in Hb. apply Hb.
Qed.
Lemma node_keys k v : snd three_nodes !! k = Some v -> pm_other_key k /\ k <> pm_leaderKey (fst one_server).
Proof.
  assert (bool_decide (map_Forall (fun k _ => pm_other_key k /\ k <> pm_leaderKey (fst one_server)) (snd three_nodes)) = true) as Hb by (vm_compute; reflexivity).
  apply bool_decide_eq_true in Hb. apply Hb.
Qed.
Lemma bootstrap_creates_witness : exists sm' pm' db' part, bootstrap (fun _ => demo_env) (fun _ _ => mkPEnv Delivered Delivered Delivered Delivered) demo_smc (mkPMC [true] 0 newMutex)
    (mkWorld [fst sm_init; fst three_nodes] [fst one_server] both_db) = (mkWorld [fst sm_init; sm'] [pm'] db', Ok part).
Proof.
  destruct (three_nodes_ok 2 ltac:(lia)) as (S & E & N & next & Hi). destruct (pm_run_ok 2 one_server one_server_run 1 ltac:(lia)) as (PN & P & pnext & Hp).
  destruct (bootstrap_creates (fun _ => demo_env) (fun _ _ => mkPEnv Delivered Delivered Delivered Delivered) demo_smc (mkPMC [true] 0 newMutex) [fst sm_init; fst three_nodes] [fst one_server] both_db
    1 0 (fst three_nodes) (fst one_server) S E N next PN P pnext) as [_ Hb].
  - exact three_managers.
  - split; [repeat constructor|reflexivity|split; vm_compute; congruence|split; vm_compute; congruence|split; reflexivity|]. intros [|j] s Hj Es; [by destruct Hj|discriminate Es].
  - eapply sm_inv_frame; [exact Hi|]. intros k Hk. unfold both_db. destruct (snd three_nodes !! k) as [v|] eqn:Ek; [by apply lookup_union_Some_l|].
    rewrite lookup_union_r by exact Ek. destruct (snd one_server !! k) as [v|] eqn:Ek2; [|reflexivity]. destruct (server_keys k v Ek2) as [H1' H2']. destruct Hk; contradiction.
  - eapply pm_inv_frame; [exact Hp|]. intros k Hk. unfold both_db. destruct (snd three_nodes !! k) as [v|] eqn:Ek; [|by apply lookup_union_r].
    destruct (node_keys k v Ek) as [H1' H2']. destruct Hk; contradiction.
  - apply (bool_decide_unpack _). vm_compute. exact I.
  - apply (bool_decide_unpack _). vm_compute. exact I.
  - vm_compute. lia.
  - intros i k. apply demo_smooth.
  - reflexivity.
  - destruct Hb as (sm' & pm' & db' & ps & d & x & y & rs & E1 & _).
    + intros ->. assert (pm_isLeader (fst one_server) = true) as El by (vm_compute; reflexivity). assert (psNodes (fst one_server) !! 1 = Some (mkPSD 1 [Byte.x01])) as Hx by (vm_compute; reflexivity).
      destruct (pi_mem _ _ _ _ _ _ Hp El) as (HN & _). rewrite HN, lookup_empty in Hx. discriminate Hx.
    + exists sm', pm', db', pnext. exact E1.
Defined.
