(* ===== verification/ToolWitnesses.v ===== *)
(** The theorems on the commands, the tools and the helper goroutines at concrete
    inputs. *)
From Stdlib Require Import ZArith Lia Strings.String Strings.Byte.
From stdpp Require Import base option list numbers gmap sets relations strings.
From S2P Require Import Prelude GoLib Utils Stopper Proto ProtoSub ProtoPs ProtoSm ProtoPm ProtoTyped Ticker PoolMonitor Snappy RequestPool.
From S2P Require Import Etcd EtcdSpec StreamManager StreamManagerSpec PartitionManager PartitionParse PartitionManagerSpec PartitionManagerRun SharedEtcd DebugTool.
From S2P Require Import ManagerWitnesses PmWitnesses.

(** ** Decoders *)

(** field 1 of a NodeInfo, then a field nobody knows *)
Definition demo_message : bytes := [x08; x07; x78; x01].
Lemma decoders_typed_witness : NodeInfo_Unmarshal demo_message = Ok (mkNI 7 []) /\ NodeInfo_in 4 (mkNI 7 []).
Proof.
  assert (NodeInfo_Unmarshal demo_message = Ok (mkNI 7 [])) as E by (vm_compute; reflexivity). split; [exact E|].
  destruct (decoders_typed demo_message) as (_ & _ & _ & _ & _ & _ & Hn & _).
  - reflexivity.
  - unfold decoder_ok in Hn. rewrite E in Hn. exact (proj1 Hn).
Defined.

(** ** The ticker *)

Definition fired_ticker : RandomTicker := mkRT 10 20 Spent LoopFired false 0 0 ∅ [].
Lemma fired_ticker_reach : ticker_reach 10 20 fired_ticker.
Proof.
  apply (tr_step 10 20 (mkRT 10 20 Expired LoopSelect false 0 0 ∅ [])); [|by apply (tk_fire (mkRT 10 20 Expired LoopSelect false 0 0 ∅ []))].
  apply (tr_step 10 20 (mkRT 10 20 (Armed 13) LoopSelect false 0 0 ∅ [])); [|by apply (tk_expire (mkRT 10 20 (Armed 13) LoopSelect false 0 0 ∅ []) 13)]. by apply (tr_new 10 20 3).
Qed.
(** nobody receives the first tick: a receiver that comes later waits for ever *)
Lemma random_ticker_stalls_witness : rt_sent fired_ticker = 0%nat /\ forall rt', rtc ticks_to (mkRT 10 20 Spent LoopSelect false 0 0 ∅ []) rt' -> rt_sent rt' = 0%nat.
Proof.
  destruct (random_ticker_stalls 10 20 fired_ticker) as (_ & Hmiss & _).
  - lia.
  - lia.
  - exact fired_ticker_reach.
  - split; [reflexivity|]. intros rt'. exact (Hmiss eq_refl eq_refl 0 (mkRT 10 20 Spent LoopSelect false 0 0 ∅ []) rt' eq_refl).
Defined.

(** ** The monitor *)

(** shut down while the monitor listens *)
Definition demo_monitor : monitor := mkMonitor (mkStopper true 2) (MRecv 0) {[0%nat := HSelect]} ∅ 1 7 Stopping.
Lemma demo_monitor_reach : monitor_reach 7 demo_monitor.
Proof.
  pose (m0 := mkMonitor (mkStopper false 1) MTop ∅ ∅ 0 7 NotCalled).
  pose (m1 := mkMonitor (mkStopper false 1) (MDialing 0) ∅ ∅ 1 7 NotCalled). pose (m2 := mkMonitor (mkStopper false 1) (MStarting 0) ∅ ∅ 1 7 NotCalled).
  pose (m3 := mkMonitor (mkStopper false 2) (MRecv 0) {[0%nat := HSelect]} ∅ 1 7 NotCalled).
  apply (mr_outer 7 m3); [|by apply (mo_call m3)]. apply (mr_own 7 m2); [|by apply (ms_helper m2 0)].
  apply (mr_own 7 m1); [|by apply (ms_accepted m1 0)]. apply (mr_own 7 m0); [|by apply (ms_top m0)]. by apply mr_new.
Qed.
Lemma monitor_stops_witness : exists m', own_step demo_monitor (Ok m') /\ (monitor_rank m' < monitor_rank demo_monitor)%nat.
Proof.
  destruct (monitor_stops 7 demo_monitor) as (_ & Hs & _).
  - exact demo_monitor_reach.
  - destruct (Hs eq_refl) as (Hown & _ & _). eexists. split; [by apply (ms_stop demo_monitor 0)|]. apply Hown. by apply (ms_stop demo_monitor 0).
Defined.

(** ** Compression *)

(** a library that does not compress: a writer keeps its data until it is closed *)
Definition plain_Read (r : unit) (src : bytes) (n : Z) (f : bool) : unit * bytes * bytes * option error :=
  if f then (r, src, [], Some ErrUnexpectedEOF) else
  match src with [] => (r, [], [], Some EOF) | _ => (r, zdrop n src, ztake n src, None) end.
#[local] Instance plain_lib : SnappyLib bytes unit bool := {
  lib_NewBufferedWriter := []; lib_Writer_Reset := fun _ => [];
  lib_Write := fun w data f => if f then (w, [], Some ErrUnexpectedEOF) else (w ++ data, [], None);
  lib_Writer_Close := fun w f => if f then (w, [], Some ErrUnexpectedEOF) else ([], w, None);
  lib_NewReader := tt; lib_Reader_Reset := fun _ => tt; lib_Read := plain_Read }.
#[local] Instance plain_laws : SnappyLaws bytes unit bool.
Proof.
  refine {| decoded := Some; w_session := fun w l o => o ++ w = mjoin l; r_session := fun _ z rem got => got ++ rem = z |}.
  - reflexivity.
  - reflexivity.
  - intros w l o data [] w' o' Hs E; [done|]. injection E as <- <-. rewrite app_nil_r, app_assoc, Hs, join_app. cbn. by rewrite app_nil_r.
  - intros w l o [] w' o' Hs E; [done|]. injection E as <- <-. by rewrite Hs.
  - reflexivity.
  - reflexivity.
  - intros r z rem got n [] r' rem' data Hs E; [done|]. destruct rem as [|b rem]; [done|]. injection E as <- <- <-. by rewrite <- app_assoc, ztake_zdrop.
  - intros r z rem got x <- [= <-]. by apply prefix_app_r.
  - intros r z rem got n [] r' rem' data x Hs E [= <-]; [done|]. destruct rem as [|b rem]; [|done]. by injection E as <- <- <-.
Defined.

Definition demo_input (u : nat) : bytes := [x61; x62].
Abbreviation demo_snappy_state := (snappy_state (Wr := bytes) (Rd := unit)).
(** something is written; the first stream has been read to its end and its reader serves the second *)
Definition sn1 : demo_snappy_state := Compress no_snappy 5 None.
Definition sn2 : demo_snappy_state := snappyWriter_Write sn1 5 0 [] true [x63] false.
Definition sn3 : demo_snappy_state := snappyWriter_Close sn2 5 0 [[x63]] true false.
Definition sn4 : demo_snappy_state := snappyWriter_Put sn3 5 0 [[x63]] true.
Definition sn5 : demo_snappy_state := Decompress demo_input sn4 0 None.
Definition sn6 : demo_snappy_state := snappyReader_Read sn5 0 1 [] true 2 false.
Definition sn7 : demo_snappy_state := snappyReader_Read sn6 0 1 [x61; x62] true 2 false.
Definition demo_snappy : demo_snappy_state := Decompress demo_input sn7 1 (Some 1%nat).
Lemma demo_snappy_run : rtc (snappy_step demo_input) no_snappy demo_snappy.
Proof.
  apply (rtc_l _ _ sn1); [by apply sn_compress|]. apply (rtc_l _ _ sn2); [by apply sn_write|]. apply (rtc_l _ _ sn3); [by apply sn_close|].
  apply (rtc_l _ _ sn4); [by apply sn_put|]. apply (rtc_l _ _ sn5); [by apply sn_decompress|]. apply (rtc_l _ _ sn6); [by apply sn_read|].
  apply (rtc_l _ _ sn7); [by apply sn_read|]. apply rtc_once, sn_redecompress; [done|]. by left.
Qed.
(** the data has arrived, and reading past the end takes the second stream's *)
Lemma snappy_streams_witness : sink demo_snappy 5 = [x63] /\ left (snappyReader_Read demo_snappy 0 1 [x61; x62] true 1 false) 1 = [x62].
Proof.
  destruct (snappy_streams demo_input demo_snappy) as (Hw & _ & _ & _ & Hsteal).
  - exact demo_snappy_run.
  - split; [assert (Some (sink demo_snappy 5) = Some (mjoin [[x63]])) as E by (apply (Hw 5%nat [[x63]]); vm_compute; reflexivity); exact (f_equal (default []) E)|].
    destruct (Hsteal 0%nat 1%nat 1%nat [x61; x62] true [] true) as (r & _ & Hr); [discriminate|vm_compute; reflexivity..|].
    destruct r. apply (Hr 1 false tt [x62] [x61]). vm_compute. reflexivity.
Defined.

(** ** Both managers on one etcd *)

Definition demo_member_sm : bytes := default [] (match NewStreamManager 5 [x6e] [x75] with Ok sm => Some (memberValue sm) | _ => None end).
Definition demo_member_pm : bytes := default [] (match NewPartitionManager 5 [x6e] [x75] with Ok pm => Some (pm_memberValue pm) | _ => None end).
Definition on_smw (w : managers) (ev : sm_event) : managers :=
  let '(sm, db) := sm_step (m_sm w, m_db w) ev in mkManagers sm (m_sm_former w) (m_pm w) (m_pm_former w) db.
Definition on_pmw (w : managers) (f : PartitionManager * etcd -> PartitionManager * etcd) : managers :=
  let '(pm, db) := f (m_pm w, m_db w) in mkManagers (m_sm w) (m_sm_former w) pm (m_pm_former w) db.
Definition demo_sm_leads : sm_event := EvElect "1" demo_member_sm Delivered Delivered Delivered.
Definition demo_pm_leads (w : PartitionManager * etcd) : PartitionManager * etcd := pm_elect "2" demo_member_pm Delivered Delivered (fst w) (snd w).
(** both lead, a node and a partition server register, a partition is made *)
Definition demo_both1 := on_smw both_init demo_sm_leads.
Definition demo_both2 := on_pmw demo_both1 demo_pm_leads.
Definition demo_both3 := on_smw demo_both2 (demo_register 1).
Definition demo_both4 := on_pmw demo_both3 demo_pm_register.
Definition demo_both5 := on_pmw demo_both4 demo_pm_bootstrap.

(** the lease of the stream manager's leader runs out; it goes on and registers
    a node, of which etcd has only the id *)
Definition demo_both6 := mkManagers no_sm [m_sm demo_both5] (m_pm demo_both5) [] (delete (leaderKey (m_sm demo_both5)) (m_db demo_both5)).
Definition demo_former : StreamManager * etcd := sm_step (m_sm demo_both5, m_db demo_both6) (demo_register 2).
Definition demo_both7 := mkManagers no_sm [fst demo_former] (m_pm demo_both5) [] (snd demo_former).

Lemma on_smw_step w ev : is_request ev -> event_ok ev -> both_step w (on_smw w ev).
Proof. unfold on_smw. destruct (sm_step (m_sm w, m_db w) ev) as [sm' db'] eqn:E. intros Hr Hev. apply both_sm. by apply (sm_request _ _ _ ev). Qed.
Lemma on_pmw_step w ev f : f (m_pm w, m_db w) = pm_handle (m_pm w, m_db w) ev -> pm_event_ok (m_db w) ev -> both_step w (on_pmw w f).
Proof. intros Ef Hev. unfold on_pmw. rewrite Ef. destruct (pm_handle (m_pm w, m_db w) ev) as [pm' db'] eqn:E. apply both_pm. by apply (pm_request _ _ _ ev). Qed.
Lemma demo_config : config_ok 5 [x6e] [x75].
Proof. split; [split; vm_compute; congruence|]. split; vm_compute; congruence. Qed.
Lemma demo_sm_started : both_step both_init demo_both1.
Proof.
  destruct (NewStreamManager_member 5 [x6e] [x75] demo_config) as (p & E & _). unfold demo_both1, on_smw.
  destruct (sm_step (m_sm both_init, m_db both_init) demo_sm_leads) as [sm' db'] eqn:Es. apply both_sm.
  eapply (sm_elect _ _ _ "1" 5 [x6e] [x75] p); [reflexivity|constructor|exact demo_config|exact E|]. vm_compute in E. injection E as <-. exact Es.
Qed.
Lemma demo_pm_started : both_step demo_both1 demo_both2.
Proof.
  destruct (NewPartitionManager_member 5 [x6e] [x75] demo_config) as (p & E & _). unfold demo_both2, on_pmw.
  destruct (demo_pm_leads (m_pm demo_both1, m_db demo_both1)) as [pm' db'] eqn:Es. apply both_pm.
  eapply (pm_elected _ _ _ "2" 5 [x6e] [x75] p); [reflexivity|constructor|exact demo_config|exact E|]. vm_compute in E. injection E as <-. exact Es.
Qed.
Lemma demo_both_run : both_run 5 demo_both5.
Proof.
  apply (both_next 4 demo_both4); [apply (both_next 3 demo_both3); [apply (both_next 2 demo_both2); [apply (both_next 1 demo_both1); [apply (both_next 0 both_init); [apply both_start|]|]|]|]|].
  - exact demo_sm_started.
  - exact demo_pm_started.
  - apply on_smw_step; [exact I|vm_compute; reflexivity].
  - apply (on_pmw_step _ (EvRegisterPS Delivered Delivered Delivered [x01])); reflexivity.
  - apply (on_pmw_step _ (EvBootstrap Delivered Delivered Delivered 10 11 1)); [reflexivity|]. vm_compute. intuition congruence.
Qed.
Lemma demo_former_run : both_run 7 demo_both7.
Proof.
  apply (both_next 6 demo_both6); [apply (both_next 5 demo_both5); [exact demo_both_run|]|].
  - apply (both_sm demo_both5). apply sm_expire.
  - apply (both_sm demo_both6 no_sm [fst demo_former]). exact (sm_former no_sm [m_sm demo_both5] (m_db demo_both6) 0 (m_sm demo_both5) (demo_register 2) (fst demo_former) (snd demo_former) eq_refl I (surjective_pairing _)).
Qed.

(** the former leader still believes to lead, and has in memory what etcd has not *)
Lemma managers_share_etcd_witness : exists S E N next PS P pnext, db_ok (m_db demo_both7) S E N next /\ pm_db_ok (m_db demo_both7) PS P pnext /\
  (isLeader (fst demo_former) = true /\ ns_info <$> nodes (fst demo_former) !! 2 = Some (mkNI 2 (demo_addr 2)) /\ m_db demo_both7 !! formatNodeKey 2 = None) /\
  PS !! 1 = Some (mkPSD 1 [x01]) /\ Meta_LogStream <$> P !! 2 = Some 10 /\
  (forall k, k <> idKey -> snd (sm_step demo_former (EvTruncate Delivered 4 5)) !! k = m_db demo_both7 !! k).
Proof.
  destruct (managers_share_etcd 7 demo_both7) as (S & E & N & next & PS & P & pnext & H1 & H2 & _ & _ & Hp & Hf & _).
  - exact demo_former_run.
  - reflexivity.
  - exists S, E, N, next, PS, P, pnext. split; [exact H1|]. split; [exact H2|]. split; [split; [|split]; vm_compute; reflexivity|].
    destruct (Hp ltac:(vm_compute; reflexivity)) as (<- & <- & _). split; [vm_compute; reflexivity|]. split; [vm_compute; reflexivity|].
    destruct (Hf (fst demo_former) (EvTruncate Delivered 4 5) (fst (sm_step demo_former (EvTruncate Delivered 4 5))) (snd (sm_step demo_former (EvTruncate Delivered 4 5)))) as (_ & _ & _ & _ & Hk);
      [apply list_elem_of_here|exact I|by rewrite <- !surjective_pairing|exact Hk].
Defined.

Lemma debug_tool_shows_witness : exists data, refresh Delivered (mkTool [] None) (m_db demo_both5) = (m_db demo_both5, Ok (mkTool data None)) /\
  mkKV (formatNodeKey 1) (DNode (mkNI 1 (demo_addr 1))) ∈ data /\ mkKV (partKey 2 "rowStream") (DNum 11) ∈ data.
Proof.
  destruct (debug_tool_shows 5 demo_both5 (mkTool [] None))
    as (S & E & N & next & PS & P & pnext & _ & _ & Hs & Hp & data & Er & _ & _ & Hd & _).
  - exact demo_both_run.
  - reflexivity.
  - exists data. split; [exact Er|]. destruct (Hs ltac:(vm_compute; reflexivity)) as (_ & _ & HN). destruct (Hp ltac:(vm_compute; reflexivity)) as (_ & HP).
    split; apply Hd.
    + apply shown_node. rewrite <- HN. vm_compute. reflexivity.
    + apply (shown_part _ _ _ _ _ _ _ _ 2 (mkMeta None 10 11 None 1 [] (Some (mkRange [] [])) 2)); [rewrite <- HP; vm_compute; reflexivity|]. right. left.
Defined.

(** ** Write requests *)

(** a call is past the check when the partition is closed: it sends its request
    after the loop has returned *)
Definition demo_closing : rp_state := mkRPS {[0%nat := mkReq 0 1 None 1]} [] 1 [0%nat] false true Returned [] WIdle {[0%nat := CWaiting 0]} [].
Lemma demo_closing_run : rtc req_step no_requests demo_closing.
Proof.
  pose (s1 := send_check no_requests 0). pose (s2 := mkRPS {[0%nat := mkReq 0 1 None 1]} [] 1 [] false false Collecting [] WIdle {[0%nat := CReady 0]} []).
  pose (s3 := close_block s2). pose (s4 := set_loop s3 Closing []). pose (s5 := set_loop s4 Returned []).
  apply (rtc_l _ _ s1); [right; by apply rq_call|]. apply (rtc_l _ _ s2); [left; by apply (rq_fill s1 0)|]. apply (rtc_l _ _ s3); [right; by apply rq_block|].
  apply (rtc_l _ _ s4); [right; by apply (rq_default s3)|]. apply (rtc_l _ _ s5); [right; by apply (rq_ended s4)|].
  apply rtc_once. left. apply (rq_send s5 0 0); [done|]. cbn. unfold chCapacity. lia.
Qed.
Lemma write_requests_answered_witness : rp_calls demo_closing !! 0%nat = Some (CWaiting 0) /\ forall s', rtc req_step demo_closing s' -> rp_calls s' !! 0%nat = Some (CWaiting 0).
Proof.
  destruct (write_requests_answered demo_closing) as (_ & _ & _ & _ & _ & _ & Hlost & _).
  - exact demo_closing_run.
  - split; [reflexivity|]. apply (Hlost 0%nat 0%nat); [discriminate|left|reflexivity].
Defined.
